(* ===== verification/_CoqProject ===== *)
-Q . S2P
Prelude.v
Numeral.v
TargetMachine.v
Types.v
ValueCodec.v
Loops.v
Files.v
StdAlgo.v
ScanBuffers.v
PatternScan.v
ScanConfig.v
ScanNumber.v
ScanResults.v
Floating.v
NextCompare.v
ValueIo.v
ValueIoSpec.v
FloatOrder.v
FloatScan.v
ScanTarget.v
ScanRegion.v
NextScan.v
NextRows.v
FirstScan.v
FirstRows.v
FirstWorkers.v
FirstFound.v
Signature.v
SignatureSpec.v
Returns.v
PeExports.v
PeExportsSpec.v
Il2CppMetadata.v
Il2CppMetadataSpec.v
FileParsers.v
JsonText.v
Json.v
Snapshot.v
AddressList.v
AddressListSpec.v
CodeWrite.v
CodeWriteSpec.v
PerfRing.v
PerfRingSpec.v
Registers.v
Breakpoints.v
GdbRemote.v
GdbSocket.v
GdbWire.v
GdbStub.v
GdbSample.v
GdbDescribe.v
GdbProcess.v
GdbSession.v
Aarch64.v
Relocator.v
RelocatorSpec.v
AutoUndo.v
AutoRun.v
AutoOriginals.v
AutoUndoSpec.v
AutoCode.v
AutoRunSpec.v
AutoSample.v
AutoScripts.v
Expression.v
ExpressionSpec.v
PointerMap.v
PointerScan.v
PointerPaths.v
PointerBuild.v
