(* ===== verification/Prelude.v ===== *)
(** * A verification library for cheat-engine-linux

    This library models the computational core of cheat-engine-linux (the C++ sources
    under [src/]) as executable Gallina functions and proves what makes them correct.

    ** How the program is put together

    A scan, a pointer scan, a snapshot or a debugger session acts on a target process
    through [ProcessHandle] ([src/platform/process_api.hpp]), which reads and writes
    memory and lists regions and modules.  Around it stand pure components: the scan
    kernels over a buffer that was read, the parsers of what the user typed, the codecs
    between bytes and values, the pointer map and the search over it, the files the
    results are saved to, and the tables of the debugger.  Those are modelled here; the
    process is a parameter (records of functions with the documented behaviour as
    hypotheses), and so are threads' schedules, cancellation (an oracle that answers
    the polls in order) and [std::sort] (the class [StdSort]: some permutation sorted by
    the strict weak order it was given).

    ** The files

    - [Prelude]: outcomes, machine integers, byte lists, and the lemmas all parts share.
    - [Numeral]: the decimal and hexadecimal readers and writers of the C++ library.
    - [TargetMachine] ([src/core/target_machine.cpp], [src/arch/target_arch.cpp]): the
      parsers of ELF and PE headers and what they conclude about a machine.
    - [Types] ([src/core/types.hpp], [types.cpp]): regions, modules, value types.
    - [ValueCodec] ([src/core/value_codec.hpp], [value_transform.hpp]): codecs and the
      text of scalars.
    - [Loops]: the shapes of the C++ loops and the collection of what they emit.
    - [Files]: reading a file through [fread].
    - [StdAlgo]: the algorithms of the C++ library the code calls, by their contracts.
    - [ScanBuffers] and [PatternScan] ([src/scanner/memory_scanner.cpp]): the kernels of
      a first scan, vectorised and scalar, numeric, text, byte pattern and binary.
    - [ScanConfig] (same file): what the user typed, parsed into a configuration.
    - [ScanNumber] ([src/scanner/scan_number.cpp]): the search value as text.
    - [ScanResults] ([src/scanner/memory_scanner.cpp]): the record files of a result, the
      manifest of a scan's workers, and every reader of them.
    - [Floating], [NextCompare], [ScanTarget] (same file): floating-point values as
      [SpecFloat], every compare of a value that is read again, and the checks and defaults
      a configuration gets from its target.
    - [FloatOrder]: floating-point values in order, and what rounding keeps of the order.
    - [FloatScan], [ScanRegion] (same file): the floating-point kernels of a first scan, with
      the window of the rounded ones shown to hold every value they verify, and the dispatch
      over the types with the all-types, grouped and custom scans.
    - [FirstScan] (same file): the first scan with its regions, chunks, skipped pages and
      workers; [FirstRows], [FirstWorkers] and [FirstFound] hold its specification, the
      rows of a memory, and its proof.
    - [NextScan], [NextRows] (same file): the next scan with its workers, batches and reads
      by width, and the specification of what it keeps.
    - [JsonText], [Json] ([src/core/json.cpp]): values, builders, the writer and a reference
      parser over the text that remains; the parser with its positions, every read checked.
    - [Snapshot] ([src/scanner/snapshot.cpp]): capture, diff, restore, save and load.
    - [Registers] ([src/core/cpu_registers.cpp], [src/arch/cpu_flags.hpp]): register
      tables, their edits, flags and branch outcomes.
    - [Breakpoints] ([src/debug/breakpoint_manager.cpp]): the table of breakpoints under
      every interleaving of its critical sections.
    - [GdbSocket], [GdbRemote] ([src/debug/gdb_remote.cpp]): the client of the GDB remote
      protocol, from the loops over [poll], [send] and [recv] to packets, features, target
      descriptions, registers and memory.  [GdbWire] and [GdbStub] hold the specification
      of the other side, a stub on a noisy line with memory and a register bank, and what
      the client does with it; [GdbDescribe] the invariant of the client; [GdbSample] one
      stub that conforms.
    - [GdbProcess], [GdbSession] ([src/platform/gdb_process.cpp]): a process behind a stub,
      and what its reads, writes, registers and regions promise.
    - [Aarch64], [Relocator], [RelocatorSpec] ([src/arch/aarch64_relocator.cpp]): moving
      AArch64 code to another address.  [Aarch64] is a fragment of the architecture.
    - [AutoUndo], [AutoRun] ([src/core/autoasm.cpp]): what the auto assembler keeps of an
      enabled script and how it takes it back; carrying out the requests of a script, its
      rollback and its [[DISABLE]] section.  What its lines mean is a parameter: a script is
      the requests it makes.  [AutoOriginals], [AutoUndoSpec], [AutoCode], [AutoRunSpec]:
      the contract of the target and what every step does to one byte of static memory;
      [AutoScripts] the scripts of one assembler as a step relation, [AutoSample] a target.
    - [Signature], [SignatureSpec] ([src/analysis/signature.cpp]): the byte pattern of a code
      address, and that the scanner finds a unique one exactly once.
    - [ValueIo], [ValueIoSpec] ([src/core/value_io.cpp]): the values of the cheat table, typed,
      written, read and compared in the target.
    - [PeExports], [PeExportsSpec] ([src/analysis/pe_exports.cpp]): the exports and imports of
      Windows modules.  [Il2CppMetadata], [Il2CppMetadataSpec]
      ([src/analysis/il2cpp_metadata.cpp]): the metadata of Unity games.  [Returns] is the
      judgement their specifications share, [FileParsers] what all parsers of files promise.
    - [AddressList], [AddressListSpec] ([src/core/address_list.hpp]): the rows of a cheat table
      and their nesting: collapsing, deleting, dragging and grouping.
    - [CodeWrite], [CodeWriteSpec] ([src/platform/linux/code_write.cpp], [syscall_service.cpp]):
      writing code through a descriptor of the target's memory, and the records that own what
      a failed write changed.
    - [PerfRing], [PerfRingSpec] ([src/debug/perf_ring.cpp]): what is drained of the rings the
      kernel fills, and the kernel and a reader as a step relation.
    - [Expression], [ExpressionSpec] ([src/core/expression.cpp]): the address expressions a
      user types, and their grammar.
    - [PointerMap], [PointerScan], [PointerPaths], [PointerBuild]
      ([src/scanner/pointer_scanner.cpp]): the map of the pointers in memory and its
      file, the search for paths over it, the life of a path, and how the map is built.

    Definitions keep the names of the C++ functions; a lambda keeps the name of its
    variable, a loop the name of its function with [Loop].  A field of a C++ structure
    keeps its name, with a prefix where two records of a file share it.

    ** What the theorems show

    - Scans: every kernel, with any vector unit, emits exactly what a reference scan over
      all the offsets emits, in order, and never reads outside the buffer.
    - Scan results: what is added to a result is what every reader serves, in place, from
      its directory and through the manifest of the workers, or an error flag is raised.
    - Scripts: overlapping ones leave memory as it was, data disabled in any order, code in any
      order in which a newer byte can be told from the older script's; a failed one is taken
      back or can be; an undo changes code only where it is the script's own.  This is stated
      of memory that stays mapped in an address space that is not replaced.
    - Typed values: an integer that is written reads back and compares as it was typed.
    - The address list: collapsing and deleting act on subtrees; no row is lost or doubled.
    - Code writes: whole or put back; a record owns every byte that may differ.
    - Perf rings: every branch the kernel wrote is drained once, in order.
    - Search values: a decimal literal is compared exactly with 64-bit integers; an integer
      value that a scan accepts is compared as it was typed.
    - First scans: the spans scanned are the addresses asked for, and the result holds a row
      for every matching position, however memory is cut into chunks and shared out.  Two
      conditions exclude what the code gets wrong: the files of the probe that lets untouched
      pages be skipped open, and a tolerance is below [2^52].
    - Next scans: the result holds exactly the rows of the previous one whose value still
      matches, with the value memory has now, however the rows are split among workers.
    - Parsers and files: parsing terminates on every input and stays inside it; what was
      written reads back; what is accepted is well formed, and what is copied of a crafted
      file is no more than its size allows.
    - Pointer scans: the map holds exactly the pointers of memory; the search, an explicit
      stack with iterative deepening, a work cap, a result cap, shards and cancellation,
      terminates and refines a recursive reference; the paths it returns are exactly
      those that exist, and each leads to the target, in the map and in the process; the
      shards together find what one scan finds.
    - Expressions: the parser gives every text of the grammar the value of the grammar, names
      with blanks and stars included, and no address wider than the target's.
    - Relocated code: an instruction that was moved leaves the registers, the flags, memory
      and the place where execution continues as it did before, but for the scratch register
      it was allowed, and a call returns into its slot.
    - Breakpoints: the invariant of the table under every interleaving, and the safety of
      removal, one-shot breakpoints and debug registers.
    - Remote targets: over a conforming stub that rejects requests, damages packets and
      prints, every request gets its reply; a read gives exactly the readable bytes, a write
      changes exactly the bytes it reports, a register write leaves the other registers;
      whatever the other side sends, the client keeps its invariant and a process that is
      accepted is well formed; transfers are whole or fail within their deadline.
    - Snapshots: a diff is the set of changed bytes; a restore writes only captured bytes
      into writable, non-executable memory; a capture respects its budget.
    - Codecs, registers and machines: round trips, frame properties and bounds.

    ** Integers, fuel and failure

    A machine integer is a [Z]; [u8], [u32], [u64] and [to_signed] are written where the
    source wraps.  Bytes are [list Z] with [bytes_ok]; [std::string] is a byte list as
    well.  [outcome] separates a value, a reported error and undefined behaviour, so a
    result [Ret] or [Fail] says that no access was out of bounds.  Loops over a range are
    structural on a list of indices or take [loopFuel], the number of iterations the
    range allows; the theorems show that this never runs out.  The pointer search takes
    its fuel as an argument and its refinement theorem gives an amount that is enough.

    ** Not modelled

    Floating-point scalars are left out of the codecs, and [std::pow], [iconv] and the
    formulas of custom scans are parameters of the compares; the workers of a scan run one
    after the other, sharing only the flags that stop them, which are an oracle, and
    temporary directories are a path.  The text of an auto assembler script, its threads and
    libraries, and the wait for a thread after a [[DISABLE]] section are left out.  The CUDA kernel,
    the search for il2cpp metadata among directories, ptrace and perf, the Lua, Capstone, Keystone and tinyxml2 libraries,
    the socket calls and the resolution of host names, and the Qt and command-line
    interfaces are outside the model.  Where a modelled function calls such
    code it is a parameter.  The manifest lists every part with its status. *)

From Stdlib Require Export ZArith Lia Bool.
From stdpp Require Export base tactics numbers list option strings gmap.

#[global] Open Scope Z_scope.
#[global] Set Default Proof Using "Type".

(** ** Outcomes

    C++ functions that return [std::expected<T, std::string>], [std::optional<T>]
    or that would touch memory outside an object.  [Ret] and [Fail] are the two
    cases of [std::expected]; [Undefined] is undefined behaviour (an access out of
    bounds), so that "the function never reads out of bounds" is a statement. *)
Inductive outcome (A : Type) : Type :=
  | Ret (a : A)
  | Fail (msg : string)
  | Undefined.
Arguments Ret {A} a.
Arguments Fail {A} msg.
Arguments Undefined {A}.

Definition obind {A B} (m : outcome A) (k : A → outcome B) : outcome B :=
  match m with
  | Ret a => k a
  | Fail msg => Fail msg
  | Undefined => Undefined
  end.

(** A result that is not undefined behaviour. *)
Definition defined {A} (m : outcome A) : Prop :=
  match m with Undefined => False | _ => True end.

Declare Scope ce_scope.
Delimit Scope ce_scope with ce.
Notation "'let*' x := m 'in' k" := (obind m (λ x, k))
  (at level 10, x pattern, m at level 100, k at level 200) : ce_scope.
Notation "'let?' x := m 'in' k" := (mbind (M := option) (λ x, k) m)
  (at level 10, x pattern, m at level 100, k at level 200) : ce_scope.
#[global] Open Scope ce_scope.

Lemma defined_bind {A B} (m : outcome A) (k : A → outcome B) :
  defined m → (∀ a, m = Ret a → defined (k a)) → defined (obind m k).
Proof. destruct m; simpl; auto. Qed.

Lemma obind_Ret {A B} (m : outcome A) (k : A → outcome B) b :
  obind m k = Ret b → ∃ a, m = Ret a ∧ k a = Ret b.
Proof. destruct m; simpl; intros; simplify_eq; eauto. Qed.

(** ** Machine integers

    A [w]-bit unsigned integer is a [Z] in [[0, 2^w)]; every operation of the
    source that can wrap is written with [wrap]. *)
Definition wrap (w z : Z) : Z := z mod 2 ^ w.
Abbreviation u8 := (wrap 8).
Abbreviation u16 := (wrap 16).
Abbreviation u32 := (wrap 32).
Abbreviation u64 := (wrap 64).

(** Reinterpretation of a [w]-bit pattern as a signed integer. *)
Definition to_signed (w z : Z) : Z :=
  let u := wrap w z in if u <? 2 ^ (w - 1) then u else u - 2 ^ w.
Abbreviation i8 := (to_signed 8).
Abbreviation i16 := (to_signed 16).
Abbreviation i32 := (to_signed 32).
Abbreviation i64 := (to_signed 64).

Definition UINT32_MAX : Z := 4294967295.
Definition UINT64_MAX : Z := 18446744073709551615.
(** The modelled host is a 64-bit one: [uintptr_t] and [size_t] have 64 bits. *)
Definition UINTPTR_MAX : Z := UINT64_MAX.
Definition SIZE_MAX : Z := UINT64_MAX.

Definition in_width (w z : Z) : Prop := 0 ≤ z < 2 ^ w.
Abbreviation is_u64 := (in_width 64).
Abbreviation is_u32 := (in_width 32).
Abbreviation is_byte := (in_width 8).

#[export] Instance in_width_dec w z : Decision (in_width w z).
Proof. unfold in_width. apply _. Defined.

(** [bool] as the integer 0 or 1, and back. *)
Definition bit (z : Z) (n : Z) : bool := Z.testbit z n.

Create HintDb ce.
Create Rewrite HintDb ce.
#[export] Hint Unfold in_width : ce.

(** Constants of the machine, for [lia]. *)
Ltac width_consts :=
  change (2 ^ 8) with 256 in *; change (2 ^ 16) with 65536 in *;
  change (2 ^ 32) with 4294967296 in *;
  change (2 ^ 64) with 18446744073709551616 in *;
  change (2 ^ 63) with 9223372036854775808 in *;
  change UINT64_MAX with 18446744073709551615 in *;
  change UINTPTR_MAX with 18446744073709551615 in *;
  change SIZE_MAX with 18446744073709551615 in *;
  change UINT32_MAX with 4294967295 in *.

(** [lia] after unfolding the width predicates. *)
Ltac lia_w := unfold in_width in *; width_consts; lia.

Lemma wrap_bound w z : 0 ≤ w → in_width w (wrap w z).
Proof. intros. apply Z.mod_pos_bound. lia. Qed.

Lemma wrap_small w z : in_width w z → wrap w z = z.
Proof. apply Z.mod_small. Qed.

Lemma wrap_idem w z : 0 ≤ w → wrap w (wrap w z) = wrap w z.
Proof. intros. apply wrap_small, wrap_bound; lia. Qed.

Lemma wrap_add_idem_l w a b : wrap w (wrap w a + b) = wrap w (a + b).
Proof. apply Zplus_mod_idemp_l. Qed.

Lemma wrap_add_idem_r w a b : wrap w (a + wrap w b) = wrap w (a + b).
Proof. apply Zplus_mod_idemp_r. Qed.

Lemma wrap_sub_idem_l w a b : wrap w (wrap w a - b) = wrap w (a - b).
Proof. apply Zminus_mod_idemp_l. Qed.

Lemma wrap_sub_idem_r w a b : wrap w (a - wrap w b) = wrap w (a - b).
Proof. apply Zminus_mod_idemp_r. Qed.

Lemma to_signed_bound w z : 0 < w → - 2 ^ (w - 1) ≤ to_signed w z < 2 ^ (w - 1).
Proof.
  intros. pose proof (wrap_bound w z ltac:(lia)) as Hb. unfold in_width in Hb.
  assert (2 ^ w = 2 * 2 ^ (w - 1)) as He.
  { rewrite <- Z.pow_succ_r by lia. f_equal. lia. }
  unfold to_signed. destruct (Z.ltb_spec (wrap w z) (2 ^ (w - 1))); lia.
Qed.

Lemma wrap_to_signed w z : 0 ≤ w → wrap w (to_signed w z) = wrap w z.
Proof.
  intros. unfold to_signed. case_match; [by apply wrap_idem|].
  unfold wrap. rewrite Zminus_mod, Z_mod_same_full, Z.sub_0_r.
  by rewrite !Zmod_mod.
Qed.

Lemma to_signed_small w z : 0 < w → - 2 ^ (w - 1) ≤ z < 2 ^ (w - 1) → to_signed w z = z.
Proof.
  intros Hw Hz. assert (2 ^ w = 2 * 2 ^ (w - 1)) as He.
  { rewrite <- Z.pow_succ_r by lia. f_equal. lia. }
  unfold to_signed, wrap. destruct (Z.le_gt_cases 0 z).
  - rewrite Z.mod_small by lia. case_match eqn:Hc; lia.
  - replace (z mod 2 ^ w) with (z + 2 ^ w).
    + case_match eqn:Hc; lia.
    + apply Z.mod_unique with (-1); lia.
Qed.

#[export] Hint Resolve wrap_bound : ce.

(** ** Byte lists

    [std::vector<uint8_t>], [std::span<const uint8_t>] and [std::string] are
    lists of integers in [[0, 256)].  The modelled host is little endian, so
    [memcpy] between an integer and its bytes is [le_bytes] / [le_val]. *)
Abbreviation bytes := (list Z).
Definition bytes_ok (l : bytes) : Prop := Forall (λ b, is_byte b) l.

Definition len {A} (l : list A) : Z := Z.of_nat (length l).

(** [l[i]] for a 64-bit index. *)
Definition lget {A} (l : list A) (i : Z) : option A :=
  if 0 <=? i then l !! Z.to_nat i else None.
(** The same access where the source does not check it: out of bounds is undefined. *)
Definition at_ {A} (l : list A) (i : Z) : outcome A :=
  match lget l i with Some x => Ret x | None => Undefined end.
(** The [n] elements from offset [off]; [std::span::subspan] past the end is undefined. *)
Definition slice {A} (l : list A) (off n : Z) : list A :=
  take (Z.to_nat n) (drop (Z.to_nat off) l).
Definition subspan {A} (l : list A) (off n : Z) : outcome (list A) :=
  if (0 <=? off) && (0 <=? n) && (off + n <=? len l) then Ret (slice l off n) else Undefined.

Fixpoint le_bytes (n : nat) (z : Z) : bytes :=
  match n with
  | O => []
  | S n => z mod 256 :: le_bytes n (z / 256)
  end.
Fixpoint le_val (l : bytes) : Z :=
  match l with
  | [] => 0
  | b :: l => b + 256 * le_val l
  end.
Definition be_bytes (n : nat) (z : Z) : bytes := reverse (le_bytes n z).
Definition be_val (l : bytes) : Z := le_val (reverse l).

Lemma len_nonneg {A} (l : list A) : 0 ≤ len l.
Proof. unfold len. lia. Qed.
Lemma len_app {A} (l k : list A) : len (l ++ k) = len l + len k.
Proof. unfold len. rewrite length_app. lia. Qed.
Lemma len_cons {A} (x : A) (l : list A) : len (x :: l) = 1 + len l.
Proof. unfold len. simpl. lia. Qed.
Lemma len_nil {A} : len (@nil A) = 0.
Proof. done. Qed.
Lemma len_positive {A} (l : list A) : l ≠ [] ↔ 0 < len l.
Proof. destruct l; [done|]. rewrite len_cons. pose proof (len_nonneg l). split; [lia|done]. Qed.
Lemma len_snoc {A} (l : list A) (x : A) : len (l ++ [x]) = len l + 1.
Proof. rewrite len_app, len_cons. done. Qed.
#[export] Hint Rewrite @len_app @len_cons @len_nil : ce.
#[export] Hint Resolve len_nonneg : ce.

Lemma at_defined {A} (l : list A) i : 0 ≤ i < len l → ∃ x, at_ l i = Ret x ∧ lget l i = Some x.
Proof.
  unfold at_, lget, len. intros. rewrite (proj2 (Z.leb_le 0 i)) by lia.
  destruct (lookup_lt_is_Some_2 l (Z.to_nat i)) as [x Hx]; [lia|]. rewrite Hx. eauto.
Qed.

Lemma lget_None_ge {A} (l : list A) i : lget l i = None → 0 ≤ i → len l ≤ i.
Proof.
  unfold lget, len. intros H ?. rewrite (proj2 (Z.leb_le 0 i)) in H by lia.
  apply lookup_ge_None in H. lia.
Qed.

Lemma lget_Some_lt {A} (l : list A) i x : lget l i = Some x → 0 ≤ i < len l.
Proof.
  unfold lget, len. destruct (Z.leb_spec 0 i); [|done].
  intros Hl%lookup_lt_Some. lia.
Qed.

Lemma lget_ge {A} (l : list A) i : 0 ≤ i → len l ≤ i → lget l i = None.
Proof.
  unfold lget, len. intros. rewrite (proj2 (Z.leb_le 0 i)) by lia. apply lookup_ge_None_2. lia.
Qed.

Lemma lget_0 {A} (x : A) l : lget (x :: l) 0 = Some x.
Proof. done. Qed.

Lemma lget_cons {A} (x : A) l i : 0 < i → lget (x :: l) i = lget l (i - 1).
Proof.
  intros. unfold lget. rewrite !(proj2 (Z.leb_le 0 _)) by lia.
  by replace (Z.to_nat i) with (S (Z.to_nat (i - 1))) by lia.
Qed.

Lemma at_lget {A} (l : list A) i x : lget l i = Some x → at_ l i = Ret x.
Proof. unfold at_. by intros ->. Qed.

Lemma lget_nat {A} (l : list A) (i : nat) : lget l (Z.of_nat i) = l !! i.
Proof. unfold lget. rewrite (proj2 (Z.leb_le 0 _)) by lia. by rewrite Nat2Z.id. Qed.

Lemma subspan_defined {A} (l : list A) off n :
  0 ≤ off → 0 ≤ n → off + n ≤ len l →
  subspan l off n = Ret (slice l off n) ∧ len (slice l off n) = n.
Proof.
  intros. unfold subspan, slice, len in *.
  rewrite !(proj2 (Z.leb_le _ _)) by lia. split; [done|].
  rewrite length_take, length_drop. lia.
Qed.

Lemma length_le_bytes n z : length (le_bytes n z) = n.
Proof. revert z. induction n; intros; simpl; auto. Qed.

Lemma le_bytes_ok n z : bytes_ok (le_bytes n z).
Proof.
  revert z. induction n as [|n IH]; intros z; simpl; constructor; [|apply IH].
  by apply Z.mod_pos_bound.
Qed.

Lemma pow256_S n : 256 ^ Z.of_nat (S n) = 256 * 256 ^ Z.of_nat n.
Proof. rewrite Nat2Z.inj_succ, Z.pow_succ_r by lia. done. Qed.

Lemma le_val_bound l : bytes_ok l → 0 ≤ le_val l < 256 ^ len l.
Proof.
  induction 1 as [|b l Hb Hl IH]; [done|]. unfold len in *.
  cbn [length le_val]. rewrite pow256_S. lia_w.
Qed.

Lemma le_val_le_bytes n z : le_val (le_bytes n z) = z mod 256 ^ Z.of_nat n.
Proof.
  revert z. induction n as [|n IH]; intros z; [by rewrite Z.mod_1_r|].
  cbn [le_bytes le_val]. rewrite IH, pow256_S.
  rewrite Z.rem_mul_r by lia. lia.
Qed.

Lemma le_bytes_le_val l : bytes_ok l → le_bytes (length l) (le_val l) = l.
Proof.
  induction 1 as [|b l Hb Hl IH]; [done|]. unfold in_width in Hb.
  cbn [length le_bytes le_val].
  rewrite (Z.mul_comm 256), Z.mod_add, Z.mod_small by lia_w.
  rewrite Z.div_add, (Z.div_small b) by lia_w. by rewrite Z.add_0_l, IH.
Qed.

Lemma le_val_inj l k :
  bytes_ok l → bytes_ok k → length l = length k → le_val l = le_val k → l = k.
Proof. intros Hl Hk Hlen Hv. rewrite <- (le_bytes_le_val l), <- (le_bytes_le_val k); congruence. Qed.

Lemma le_bytes_mod n z : le_bytes n (z mod 256 ^ Z.of_nat n) = le_bytes n z.
Proof.
  rewrite <- le_val_le_bytes.
  rewrite <- (length_le_bytes n z) at 1. apply le_bytes_le_val, le_bytes_ok.
Qed.

Lemma bytes_ok_app l k : bytes_ok (l ++ k) ↔ bytes_ok l ∧ bytes_ok k.
Proof. apply Forall_app. Qed.
Lemma bytes_ok_reverse l : bytes_ok (reverse l) ↔ bytes_ok l.
Proof. unfold bytes_ok. by rewrite reverse_Permutation. Qed.
Lemma bytes_ok_take n l : bytes_ok l → bytes_ok (take n l).
Proof. apply Forall_take. Qed.
Lemma bytes_ok_drop n l : bytes_ok l → bytes_ok (drop n l).
Proof. apply Forall_drop. Qed.
Lemma bytes_ok_slice l off n : bytes_ok l → bytes_ok (slice l off n).
Proof. intros. by apply bytes_ok_take, bytes_ok_drop. Qed.
#[export] Hint Resolve le_bytes_ok bytes_ok_take bytes_ok_drop bytes_ok_slice : ce.

(** ** Characters and strings

    A [std::string] is the list of its bytes.  ["c"%chr] is the code of a
    character, [bs "text"] the bytes of a literal. *)
Definition chr_parse (l : list Byte.byte) : option Z :=
  match l with [b] => Some (Z.of_N (Byte.to_N b)) | _ => None end.
Definition chr_print (z : Z) : option (list Byte.byte) :=
  match Byte.of_N (Z.to_N z) with Some b => Some [b] | None => None end.
Declare Scope chr_scope.
Delimit Scope chr_scope with chr.
String Notation Z chr_parse chr_print : chr_scope.

Fixpoint bs (s : string) : bytes :=
  match s with
  | EmptyString => []
  | String c s => Z.of_N (Ascii.N_of_ascii c) :: bs s
  end.

(** The same text as a [string], for messages. *)
Fixpoint str (s : bytes) : string :=
  match s with
  | [] => EmptyString
  | c :: s => String (Ascii.ascii_of_N (Z.to_N c)) (str s)
  end.

(** [<cctype>] in the "C" locale. *)
Definition between (lo x hi : Z) : bool := (lo <=? x) && (x <=? hi).
Definition isdigit (c : Z) : bool := between "0"%chr c "9"%chr.
Definition isxdigit (c : Z) : bool :=
  isdigit c || between "a"%chr c "f"%chr || between "A"%chr c "F"%chr.
Definition isspace (c : Z) : bool := (c =? 32) || between 9 c 13.
Definition tolower (c : Z) : Z := if between "A"%chr c "Z"%chr then c + 32 else c.

(** [s.c_str()]: the characters before the first NUL. *)
Fixpoint c_str (s : bytes) : bytes :=
  match s with
  | [] => []
  | c :: s => if c =? 0 then [] else c :: c_str s
  end.

(** Byte strings compare by value. *)
Definition bytes_eqb (a b : bytes) : bool := bool_decide (a = b).

(** [std::string_view::starts_with]. *)
Fixpoint starts_with (p s : bytes) : bool :=
  match p, s with
  | [], _ => true
  | c :: p, d :: s => (c =? d) && starts_with p s
  | _ :: _, [] => false
  end.

#[export] Instance bytes_ok_dec l : Decision (bytes_ok l).
Proof. unfold bytes_ok. apply _. Defined.
(** Decides a closed proposition by evaluation. *)
Ltac decide_by_compute := apply (bool_decide_unpack _); vm_compute; exact I.

Lemma bs_ok s : bytes_ok (bs s).
Proof.
  induction s as [|c s IH]; constructor; [|done].
  pose proof (Ascii.N_ascii_bounded c). lia_w.
Qed.
#[export] Hint Resolve bs_ok : ce.

Lemma between_spec lo x hi : between lo x hi = true ↔ lo ≤ x ≤ hi.
Proof. unfold between. rewrite andb_true_iff, !Z.leb_le. done. Qed.

(** ** Tactics shared by the component files *)

(** Reflects the boolean comparisons of the context. *)
Ltac bool_to_prop :=
  repeat match goal with
  | H : _ && _ = true |- _ => apply andb_true_iff in H as [??]
  | H : _ || _ = false |- _ => apply orb_false_iff in H as [??]
  | H : negb _ = true |- _ => apply negb_true_iff in H
  | H : negb _ = false |- _ => apply negb_false_iff in H
  | H : (_ <=? _) = true |- _ => apply Z.leb_le in H
  | H : (_ <=? _) = false |- _ => apply Z.leb_gt in H
  | H : (_ <? _) = true |- _ => apply Z.ltb_lt in H
  | H : (_ <? _) = false |- _ => apply Z.ltb_ge in H
  | H : (_ =? _) = true |- _ => apply Z.eqb_eq in H
  | H : (_ =? _) = false |- _ => apply Z.eqb_neq in H
  | H : bool_decide _ = true |- _ => apply bool_decide_eq_true in H
  | H : bool_decide _ = false |- _ => apply bool_decide_eq_false in H
  end.

(** Splits every [if] and [match] of the goal, reflecting the tests. *)
Ltac split_ifs := repeat case_match; bool_to_prop; simplify_eq.

(** Bit extensionality: two integers are equal when their bits are. *)
Ltac bits i := apply Z.bits_inj'; intros i ?.

Lemma testbit_wrap w z i : 0 ≤ w → 0 ≤ i → Z.testbit (wrap w z) i = (i <? w) && Z.testbit z i.
Proof.
  intros. unfold wrap. rewrite <- Z.land_ones by lia. rewrite Z.land_spec.
  destruct (Z.ltb_spec i w).
  - by rewrite Z.ones_spec_low, andb_true_r by lia.
  - by rewrite Z.ones_spec_high, andb_false_r by lia.
Qed.

Lemma wrap_wrap w w' z : 0 ≤ w ≤ w' → wrap w (wrap w' z) = wrap w z.
Proof.
  intros Hw. bits i. rewrite !testbit_wrap by lia.
  destruct (Z.ltb_spec i w), (Z.ltb_spec i w'); try lia; by destruct (Z.testbit z i).
Qed.

Lemma testbit_high w z i : in_width w z → w ≤ i → Z.testbit z i = false.
Proof.
  intros Hz ?. destruct (Z.le_gt_cases 0 w) as [Hw|Hw].
  - rewrite <- (wrap_small w z Hz), testbit_wrap by lia.
    by rewrite (proj2 (Z.ltb_ge i w)) by lia.
  - unfold in_width in Hz. rewrite Z.pow_neg_r in Hz by lia. lia.
Qed.

Lemma in_width_bits w z : 0 ≤ w → 0 ≤ z → (∀ i, w ≤ i → Z.testbit z i = false) → in_width w z.
Proof.
  intros Hw Hz H. rewrite <- (Z.mod_small z (2 ^ w)); [by apply wrap_bound|].
  destruct (decide (z = 0)) as [->|Hn]; [split; lia|].
  split; [lia|]. apply Z.log2_lt_pow2; [lia|].
  destruct (Z.lt_ge_cases (Z.log2 z) w) as [|Hge]; [done|].
  specialize (H (Z.log2 z) Hge). rewrite Z.bit_log2 in H by lia. done.
Qed.

Lemma in_width_land w a b : 0 ≤ w → in_width w a → 0 ≤ b → in_width w (Z.land a b).
Proof.
  intros Hw Ha Hb. apply in_width_bits; [done|apply Z.land_nonneg; auto|].
  intros i Hi. rewrite Z.land_spec, (testbit_high w a) by done. done.
Qed.

Lemma in_width_lor w a b : 0 ≤ w → in_width w a → in_width w b → in_width w (Z.lor a b).
Proof.
  intros Hw Ha Hb. unfold in_width in *. apply in_width_bits; [done|apply Z.lor_nonneg; lia|].
  intros i Hi. rewrite Z.lor_spec, (testbit_high w a), (testbit_high w b) by done. done.
Qed.

Lemma in_width_lxor w a b : 0 ≤ w → in_width w a → in_width w b → in_width w (Z.lxor a b).
Proof.
  intros Hw Ha Hb. unfold in_width in *. apply in_width_bits; [done|apply Z.lxor_nonneg; lia|].
  intros i Hi. rewrite Z.lxor_spec, (testbit_high w a), (testbit_high w b) by done. done.
Qed.

(** ** Bit fields *)

(** [(a << n) | b] is concatenation when [b] has [n] bits. *)
Lemma lor_shiftl_add a b n : 0 ≤ n → in_width n b → Z.lor (Z.shiftl a n) b = a * 2 ^ n + b.
Proof.
  intros Hn Hb. rewrite Z.shiftl_mul_pow2 by lia.
  enough (Z.land (a * 2 ^ n) b = 0) as H0 by (rewrite <- Z.add_lor_land, H0; lia).
  bits i. rewrite Z.land_spec, Z.bits_0, Z.mul_pow2_bits by lia.
  destruct (Z.lt_ge_cases i n); [by rewrite (Z.testbit_neg_r a (i - n)) by lia|].
  by rewrite (testbit_high n b i), andb_false_r by done.
Qed.

Lemma le_val_app a b : le_val (a ++ b) = le_val a + 256 ^ len a * le_val b.
Proof.
  induction a as [|x a IH]; unfold len in *; [simpl; lia|].
  cbn [app le_val length]. rewrite IH, pow256_S. lia.
Qed.

Lemma le_val_snoc a x : le_val (a ++ [x]) = le_val a + 256 ^ len a * x.
Proof. rewrite le_val_app. simpl. lia. Qed.

Lemma len_reverse {A} (l : list A) : len (reverse l) = len l.
Proof. unfold len. by rewrite length_reverse. Qed.

Lemma pow256_le n m : 0 ≤ n ≤ m → 256 ^ n ≤ 256 ^ m.
Proof. intros. apply Z.pow_le_mono_r; lia. Qed.

(** The value of at most eight bytes has 64 bits. *)
Lemma le_val_u64 l : bytes_ok l → len l ≤ 8 → is_u64 (le_val l).
Proof.
  intros Hl Hn. pose proof (le_val_bound l Hl). pose proof (len_nonneg l).
  pose proof (pow256_le (len l) 8 ltac:(lia)).
  change (256 ^ 8) with (2 ^ 64) in *. unfold in_width. lia.
Qed.

(** ** Slices *)

Lemma slice_slice {A} (l : list A) a n b m :
  0 ≤ a → 0 ≤ b → 0 ≤ m → b + m ≤ n → slice (slice l a n) b m = slice l (a + b) m.
Proof.
  intros. unfold slice. rewrite skipn_firstn_comm, take_take, drop_drop.
  f_equal; [lia|]. f_equal. lia.
Qed.

Lemma len_slice {A} (l : list A) off n :
  0 ≤ off → 0 ≤ n → off + n ≤ len l → len (slice l off n) = n.
Proof. intros. unfold slice, len in *. rewrite length_take, length_drop. lia. Qed.

Lemma slice_all {A} (l : list A) : slice l 0 (len l) = l.
Proof. unfold slice, len. rewrite drop_0. apply take_ge. lia. Qed.

Lemma lget_slice {A} (l : list A) off n i :
  0 ≤ off → 0 ≤ i < n → lget (slice l off n) i = lget l (off + i).
Proof.
  intros. unfold lget, slice. rewrite !(proj2 (Z.leb_le _ _)) by lia.
  rewrite lookup_take_lt by lia. rewrite lookup_drop. f_equal. lia.
Qed.

Lemma lget_app_l {A} (l k : list A) i : i < len l → lget (l ++ k) i = lget l i.
Proof.
  unfold lget, len. intros. destruct (Z.leb_spec 0 i); [|done]. apply lookup_app_l. lia.
Qed.
Lemma lget_app_r {A} (l k : list A) i : len l ≤ i → lget (l ++ k) i = lget k (i - len l).
Proof.
  unfold lget, len. intros. rewrite !(proj2 (Z.leb_le 0 _)) by lia.
  rewrite lookup_app_r by lia. f_equal. lia.
Qed.

(** ** A memory, and the bytes read from it *)

Definition bytesAt (mem : Z → Z) (a n : Z) : bytes := (λ i, mem (a + i)) <$> seqZ 0 n.

Lemma len_bytesAt mem a n : 0 ≤ n → len (bytesAt mem a n) = n.
Proof. intros. unfold bytesAt, len. rewrite length_fmap, length_seqZ. lia. Qed.
Lemma bytesAt_ok mem a n : (∀ x, is_byte (mem x)) → bytes_ok (bytesAt mem a n).
Proof. intros H. apply Forall_forall. intros b (i & -> & _)%list_elem_of_fmap. apply H. Qed.
Lemma slice_bytesAt mem a n off k : 0 ≤ off → 0 ≤ k → off + k ≤ n → slice (bytesAt mem a n) off k = bytesAt mem (a + off) k.
Proof.
  intros Ho Hk Hn. apply list_eq. intros i. rewrite <- !lget_nat. destruct (decide (Z.of_nat i < k)).
  - rewrite lget_slice by lia. unfold bytesAt. replace (off + Z.of_nat i) with (Z.of_nat (Z.to_nat (off + Z.of_nat i))) by lia.
    rewrite !lget_nat, !list_lookup_fmap, !lookup_seqZ_lt by lia. cbn [fmap option_fmap option_map]. f_equal. f_equal. lia.
  - rewrite !lget_ge; [done|lia|rewrite len_bytesAt; lia|lia|]. unfold slice, len. rewrite length_take. lia.
Qed.
