(* ===== verification/Numeral.v ===== *)
(** * Numerals

    The numeric text functions of the C and C++ standard libraries that the
    modelled code calls: [std::to_string], [std::to_chars], [snprintf] with [%llu]
    and [%llx] (printing), [std::from_chars], [strtoull] and [strtoll] (reading),
    with their round trip.  Nothing here models code of the repository; the
    component files instantiate these definitions. *)

From S2P Require Import Prelude.

(** ** Digits *)

Definition digit_char (d : Z) : Z := if d <? 10 then "0"%chr + d else "a"%chr + (d - 10).
Definition digit_val (c : Z) : option Z :=
  if isdigit c then Some (c - "0"%chr)
  else if between "a"%chr c "z"%chr then Some (c - "a"%chr + 10)
  else if between "A"%chr c "Z"%chr then Some (c - "A"%chr + 10)
  else None.

(** The value of [c] as a digit of [base], when it is one. *)
Definition base_digit (base c : Z) : option Z :=
  match digit_val c with
  | Some d => if d <? base then Some d else None
  | None => None
  end.

Fixpoint digits_fuel (fuel : nat) (base n : Z) (acc : bytes) : bytes :=
  match fuel with
  | O => acc
  | S fuel =>
      let acc := digit_char (n mod base) :: acc in
      if n / base =? 0 then acc else digits_fuel fuel base (n / base) acc
  end.
(** The text of [n >= 0] in [base], most significant digit first, lower case.
    One digit is produced per step and each step at least halves [n], so
    [log2 n + 1] steps are enough ([scan_to_digits] below). *)
Definition to_digits (base n : Z) : bytes := digits_fuel (S (Z.to_nat (Z.log2 n))) base n [].

(** Reads the longest prefix of digits of [base]: its value added to [acc], and
    what follows it. *)
Fixpoint scan_digits (base acc : Z) (s : bytes) : Z * bytes :=
  match s with
  | [] => (acc, [])
  | c :: s' =>
      match base_digit base c with
      | Some d => scan_digits base (acc * base + d) s'
      | None => (acc, s)
      end
  end.

(** The first character, when there is one, is no digit of [base]. *)
Definition no_digit (base : Z) (s : bytes) : Prop :=
  match s with [] => True | c :: _ => base_digit base c = None end.

(** ** Printing *)

Definition to_string (n : Z) : bytes :=
  if n <? 0 then "-"%chr :: to_digits 10 (- n) else to_digits 10 n.

(** ** Reading *)

(** [std::from_chars] into a [w]-bit unsigned integer: the value and the rest,
    [None] when no digit was read or the value does not fit. *)
Definition from_chars (w base : Z) (s : bytes) : option (Z * bytes) :=
  let '(v, rest) := scan_digits base 0 s in
  if bool_decide (rest = s) then None
  else if v <? 2 ^ w then Some (v, rest) else None.

Fixpoint skip_space (s : bytes) : bytes :=
  match s with
  | c :: s' => if isspace c then skip_space s' else s
  | [] => []
  end.

(** The optional sign of [strtoull]/[strtoll]. *)
Definition read_sign (s : bytes) : bool * bytes :=
  match s with
  | c :: s' => if c =? "-"%chr then (true, s') else if c =? "+"%chr then (false, s') else (false, s)
  | [] => (false, [])
  end.

(** The base actually used and the text after an optional [0x] (only taken when
    a hexadecimal digit follows it). *)
Definition read_prefix (base : Z) (s : bytes) : Z * bytes :=
  match s with
  | z :: x :: d :: s' =>
      if (z =? "0"%chr) && ((x =? "x"%chr) || (x =? "X"%chr)) && isxdigit d
         && ((base =? 0) || (base =? 16)) then (16, d :: s')
      else if base =? 0 then (if z =? "0"%chr then (8, s) else (10, s)) else (base, s)
  | z :: _ => if base =? 0 then (if z =? "0"%chr then (8, s) else (10, s)) else (base, s)
  | [] => (if base =? 0 then 10 else base, s)
  end.

(** What a [strto*] call reports: the magnitude read, its sign, and the rest of
    the text; [None] when there was no number ([end == start]). *)
Definition strto (base : Z) (s : bytes) : option (bool * Z * bytes) :=
  let '(neg, s1) := read_sign (skip_space s) in
  let '(b, s2) := read_prefix base s1 in
  let '(v, rest) := scan_digits b 0 s2 in
  if bool_decide (rest = s2) then None else Some (neg, v, rest).

(** [strtoull] with the caller's test [end == s || *end || errno == ERANGE]:
    the value when the whole C string is a number in range. *)
Definition strtoull_all (base : Z) (s : bytes) : option Z :=
  match strto base (c_str s) with
  | Some (neg, v, []) =>
      if v <=? UINT64_MAX then Some (if neg then u64 (- v) else v) else None
  | _ => None
  end.

(** The same for [strtoll]. *)
Definition strtoll_all (base : Z) (s : bytes) : option Z :=
  match strto base (c_str s) with
  | Some (neg, v, []) =>
      let n := if neg then - v else v in
      if (- 2 ^ 63 <=? n) && (n <? 2 ^ 63) then Some n else None
  | _ => None
  end.

(** ** Round trips *)

Lemma base_digit_char base d : 0 ≤ d < base → base ≤ 36 → base_digit base (digit_char d) = Some d.
Proof.
  intros. unfold base_digit, digit_val, digit_char, isdigit, between.
  destruct (Z.ltb_spec d 10).
  - rewrite !(proj2 (Z.leb_le _ _)) by lia. simpl.
    rewrite (proj2 (Z.ltb_lt _ _)) by lia. f_equal. lia.
  - rewrite (proj2 (Z.leb_gt (97 + (d - 10)) 57)), andb_false_r by lia.
    rewrite !(proj2 (Z.leb_le _ _)) by lia. simpl.
    rewrite (proj2 (Z.ltb_lt _ _)) by lia. f_equal. lia.
Qed.

(** Reading back what [digits_fuel] prints before [tail]: the digits of [n] are
    accumulated from the left. *)
Lemma scan_digits_fuel fuel base n acc tail :
  2 ≤ base ≤ 36 → 0 ≤ n < 2 ^ Z.of_nat fuel →
  ∃ k, 0 ≤ k ∧ ∀ a,
    scan_digits base a (digits_fuel fuel base n acc ++ tail) =
    scan_digits base (a * base ^ k + n) (acc ++ tail).
Proof.
  intros Hb. revert n acc. induction fuel as [|fuel IH]; intros n acc Hn.
  { exists 0. split; [done|]. intros a. simpl in *. f_equal; lia. }
  rewrite Nat2Z.inj_succ, Z.pow_succ_r in Hn by lia.
  pose proof (Z.div_mod n base ltac:(lia)) as Hdm.
  pose proof (Z.mod_pos_bound n base ltac:(lia)) as Hm.
  cbn [digits_fuel]. destruct (Z.eqb_spec (n / base) 0) as [Hz|Hz].
  - exists 1. split; [lia|]. intros a. cbn [app scan_digits].
    rewrite base_digit_char by lia. f_equal. lia.
  - destruct (IH (n / base) (digit_char (n mod base) :: acc)) as (k & Hk & Hs).
    { split; [apply Z.div_pos; lia|]. apply Z.div_lt_upper_bound; nia. }
    exists (k + 1). split; [lia|]. intros a. rewrite Hs. cbn [app scan_digits].
    rewrite base_digit_char by lia. f_equal.
    rewrite Z.pow_add_r, Z.pow_1_r by lia. nia.
Qed.

Lemma log2_fuel n : 0 ≤ n → n < 2 ^ Z.of_nat (S (Z.to_nat (Z.log2 n))).
Proof.
  intros. rewrite Nat2Z.inj_succ, Z2Nat.id by apply Z.log2_nonneg.
  destruct (decide (n = 0)) as [->|]; [done|]. apply Z.log2_spec. lia.
Qed.

(** [scan_digits] reads exactly what [to_digits] wrote. *)
Lemma scan_to_digits base n tail :
  2 ≤ base ≤ 36 → 0 ≤ n → no_digit base tail →
  scan_digits base 0 (to_digits base n ++ tail) = (n, tail).
Proof.
  intros Hb Hn Ht. pose proof (log2_fuel n Hn).
  destruct (scan_digits_fuel (S (Z.to_nat (Z.log2 n))) base n [] tail) as (k & _ & Hs); [lia..|].
  unfold to_digits. rewrite Hs. simpl.
  destruct tail as [|c tail]; simpl in *; [done|]. by rewrite Ht.
Qed.

Lemma digits_fuel_app fuel base n acc :
  digits_fuel fuel base n acc = digits_fuel fuel base n [] ++ acc.
Proof.
  revert n acc. induction fuel as [|fuel IH]; intros; cbn [digits_fuel]; [done|].
  case_match; [done|]. rewrite IH, (IH _ [_]), <- app_assoc. done.
Qed.

Lemma digits_fuel_valid fuel base n :
  2 ≤ base ≤ 36 → 0 ≤ n → Forall (λ c, ∃ d, 0 ≤ d < base ∧ c = digit_char d) (digits_fuel fuel base n []).
Proof.
  intros Hb. revert n. induction fuel as [|fuel IH]; intros n Hn; [constructor|].
  pose proof (Z.mod_pos_bound n base ltac:(lia)).
  cbn [digits_fuel]. case_match; [constructor; eauto|].
  rewrite digits_fuel_app. apply Forall_app. split; [apply IH, Z.div_pos; lia|].
  constructor; eauto.
Qed.

(** A printed number is a nonempty list of digits of the base. *)
Lemma to_digits_valid base n :
  2 ≤ base ≤ 36 → 0 ≤ n → Forall (λ c, ∃ d, 0 ≤ d < base ∧ c = digit_char d) (to_digits base n).
Proof. intros. by apply digits_fuel_valid. Qed.

Lemma to_digits_cons base n :
  2 ≤ base ≤ 36 → 0 ≤ n → ∃ c s, to_digits base n = c :: s ∧ ∃ d, 0 ≤ d < base ∧ c = digit_char d.
Proof.
  intros Hb Hn. pose proof (to_digits_valid base n Hb Hn) as Hv.
  destruct (to_digits base n) as [|c s] eqn:He.
  - exfalso. unfold to_digits in He. cbn [digits_fuel] in He. case_match; [done|].
    rewrite digits_fuel_app in He. by destruct (digits_fuel _ _ _ []).
  - inversion Hv; subst. eauto.
Qed.

Lemma digit_char_range d : 0 ≤ d < 36 → 48 ≤ digit_char d ≤ 57 ∨ 97 ≤ digit_char d ≤ 122.
Proof. unfold digit_char. intros. case_match; bool_to_prop; lia. Qed.

Lemma digit_char_range10 d : 0 ≤ d < 10 → 48 ≤ digit_char d ≤ 57.
Proof. unfold digit_char. intros. case_match; bool_to_prop; lia. Qed.

(** The digits of a printed number contain no NUL, so [c_str] keeps them. *)
Lemma c_str_id s : Forall (λ c, c ≠ 0) s → c_str s = s.
Proof.
  induction 1 as [|c s Hc Hs IH]; [done|]. simpl.
  rewrite (proj2 (Z.eqb_neq c 0)) by done. by rewrite IH.
Qed.

Lemma to_digits_no_nul base n : 2 ≤ base ≤ 36 → 0 ≤ n → Forall (λ c, c ≠ 0) (to_digits base n).
Proof.
  intros Hb Hn. eapply Forall_impl; [by apply to_digits_valid|].
  intros c (d & Hd & ->). pose proof (digit_char_range d). lia.
Qed.

(** The first character of a printed number is neither space nor sign. *)
Lemma digit_char_plain d :
  0 ≤ d < 36 → isspace (digit_char d) = false ∧ (digit_char d =? "-"%chr) = false
               ∧ (digit_char d =? "+"%chr) = false.
Proof.
  intros Hd. pose proof (digit_char_range d Hd).
  unfold isspace, between. rewrite !Z.eqb_neq, orb_false_iff, andb_false_iff.
  rewrite Z.eqb_neq, !Z.leb_gt. lia.
Qed.

(** [from_chars] reads back a printed number. *)
Lemma from_chars_to_digits w base n tail :
  2 ≤ base ≤ 36 → 0 ≤ n < 2 ^ w → no_digit base tail →
  from_chars w base (to_digits base n ++ tail) = Some (n, tail).
Proof.
  intros Hb Hn Ht. unfold from_chars. rewrite scan_to_digits by (done || lia).
  destruct (to_digits_cons base n) as (c & s & He & _); [lia..|].
  rewrite bool_decide_eq_false_2.
  - by rewrite (proj2 (Z.ltb_lt _ _)) by lia.
  - rewrite He. intros Hc. apply (f_equal length) in Hc. simpl in Hc.
    rewrite length_app in Hc. lia.
Qed.

Lemma skip_read_digit d s :
  0 ≤ d < 36 → read_sign (skip_space (digit_char d :: s)) = (false, digit_char d :: s).
Proof.
  intros Hd. destruct (digit_char_plain d Hd) as (Hsp & Hm & Hp). simpl.
  rewrite Hsp. simpl. by rewrite Hm, Hp.
Qed.

(** [strtoull] with base 10 or 16 (no prefix in the text) reads back a number. *)
Lemma strtoull_to_digits n :
  0 ≤ n ≤ UINT64_MAX → strtoull_all 10 (to_digits 10 n) = Some n.
Proof.
  intros Hn. unfold strtoull_all, strto.
  rewrite c_str_id by (apply to_digits_no_nul; lia).
  pose proof (scan_to_digits 10 n [] ltac:(lia) ltac:(lia) I) as Hs. rewrite app_nil_r in Hs.
  destruct (to_digits_cons 10 n) as (c & s & He & d & Hd & ->); [lia..|].
  rewrite He, skip_read_digit by lia. rewrite <- He.
  assert (read_prefix 10 (to_digits 10 n) = (10, to_digits 10 n)) as ->.
  { rewrite He. unfold read_prefix. change (10 =? 0) with false. change (10 =? 16) with false.
    cbn [orb]. repeat case_match; bool_to_prop; done. }
  rewrite Hs, bool_decide_eq_false_2 by (rewrite He; done).
  by rewrite (proj2 (Z.leb_le _ _)) by lia.
Qed.

(** A positive number is printed without leading zeros. *)
Lemma digits_fuel_lead fuel base n :
  2 ≤ base ≤ 36 → 0 < n < 2 ^ Z.of_nat fuel →
  ∃ d s, digits_fuel fuel base n [] = digit_char d :: s ∧ 0 < d < base.
Proof.
  intros Hb. revert n. induction fuel as [|fuel IH]; intros n Hn; [simpl in Hn; lia|].
  rewrite Nat2Z.inj_succ, Z.pow_succ_r in Hn by lia.
  pose proof (Z.div_mod n base ltac:(lia)). pose proof (Z.mod_pos_bound n base ltac:(lia)).
  cbn [digits_fuel]. destruct (Z.eqb_spec (n / base) 0) as [Hz|Hz].
  - exists (n mod base), []. split; [done|]. lia.
  - assert (0 ≤ n / base) by (apply Z.div_pos; lia).
    destruct (IH (n / base)) as (d & s & He & Hd).
    { split; [lia|]. apply Z.div_lt_upper_bound; nia. }
    rewrite digits_fuel_app, He. exists d, (s ++ [digit_char (n mod base)]). done.
Qed.

Lemma to_digits_lead base n :
  2 ≤ base ≤ 36 → 0 < n → ∃ d s, to_digits base n = digit_char d :: s ∧ 0 < d < base.
Proof. intros. apply digits_fuel_lead; [done|]. split; [done|]. apply log2_fuel. lia. Qed.

Lemma digit_char_not_zero d : 0 < d < 36 → (digit_char d =? "0"%chr) = false.
Proof. intros. apply Z.eqb_neq. unfold digit_char. case_match; bool_to_prop; lia. Qed.

(** [strtoull] with base 0 reads a decimal number as [%llu] prints it, ... *)
Lemma strtoull_base0_dec n : 0 ≤ n ≤ UINT64_MAX → strtoull_all 0 (to_digits 10 n) = Some n.
Proof.
  intros Hn. destruct (decide (n = 0)) as [->|Hnz]; [done|].
  unfold strtoull_all, strto. rewrite c_str_id by (apply to_digits_no_nul; lia).
  pose proof (scan_to_digits 10 n [] ltac:(lia) ltac:(lia) I) as Hs. rewrite app_nil_r in Hs.
  destruct (to_digits_lead 10 n) as (d & s & He & Hd); [lia..|].
  rewrite He, skip_read_digit by lia. rewrite <- He.
  assert (read_prefix 0 (to_digits 10 n) = (10, to_digits 10 n)) as ->.
  { rewrite He. unfold read_prefix. rewrite digit_char_not_zero by lia. by repeat case_match. }
  rewrite Hs, bool_decide_eq_false_2 by (rewrite He; done).
  by rewrite (proj2 (Z.leb_le _ _)) by lia.
Qed.

Lemma isxdigit_char d : 0 ≤ d < 16 → isxdigit (digit_char d) = true.
Proof.
  intros. unfold isxdigit, isdigit, between, digit_char.
  destruct (Z.ltb_spec d 10); rewrite ?orb_true_iff, ?andb_true_iff, ?Z.leb_le; lia.
Qed.

(** ... and a hexadecimal one as [0x%llx] prints it. *)
Lemma strtoull_base0_hex n :
  0 ≤ n ≤ UINT64_MAX → strtoull_all 0 (bs "0x" ++ to_digits 16 n) = Some n.
Proof.
  intros Hn. unfold strtoull_all, strto.
  rewrite c_str_id by (apply Forall_app; split; [by repeat constructor|apply to_digits_no_nul; lia]).
  pose proof (scan_to_digits 16 n [] ltac:(lia) ltac:(lia) I) as Hs. rewrite app_nil_r in Hs.
  destruct (to_digits_cons 16 n) as (c & s & He & d & Hd & ->); [lia..|].
  rewrite He.
  change (read_sign _) with (false, bs "0x" ++ digit_char d :: s). cbn iota beta.
  assert (read_prefix 0 (bs "0x" ++ digit_char d :: s) = (16, digit_char d :: s)) as ->.
  { change (bs "0x" ++ digit_char d :: s) with ("0"%chr :: "x"%chr :: digit_char d :: s).
    unfold read_prefix. by rewrite isxdigit_char by lia. }
  rewrite <- He, Hs.
  rewrite bool_decide_eq_false_2 by (rewrite He; done).
  by rewrite (proj2 (Z.leb_le _ _)) by lia.
Qed.

(** ** Ranges *)

Lemma scan_digits_ge base acc s : 2 ≤ base → 0 ≤ acc → acc ≤ (scan_digits base acc s).1.
Proof.
  intros Hb. revert acc. induction s as [|c s IH]; intros acc Ha; simpl; [lia|].
  destruct (base_digit base c) as [d|] eqn:Hd; simpl; [|lia].
  assert (0 ≤ d).
  { unfold base_digit, digit_val, isdigit, between in Hd. repeat case_match; bool_to_prop; simplify_eq; lia. }
  etrans; [|apply IH; nia]. nia.
Qed.

Lemma strto_nonneg base s neg v rest :
  base = 0 ∨ 2 ≤ base → strto base s = Some (neg, v, rest) → 0 ≤ v.
Proof.
  intros Hb. unfold strto. destruct (read_sign (skip_space s)) as [ng s1].
  destruct (read_prefix base s1) as [b s2] eqn:Hp.
  assert (2 ≤ b) as Hb2.
  { unfold read_prefix in Hp. repeat case_match; simplify_eq; try lia; bool_to_prop; lia. }
  destruct (scan_digits b 0 s2) as [v' rest'] eqn:Hs. case_match; [done|].
  intros. simplify_eq. pose proof (scan_digits_ge b 0 s2 Hb2 ltac:(lia)) as Hge. by rewrite Hs in Hge.
Qed.

Lemma strtoull_all_bound base s n :
  base = 0 ∨ 2 ≤ base → strtoull_all base s = Some n → 0 ≤ n ≤ UINT64_MAX.
Proof.
  intros Hb. unfold strtoull_all. destruct (strto base (c_str s)) as [[[neg v] rest]|] eqn:Hs; [|done].
  apply strto_nonneg in Hs; [|done]. destruct rest; [|done].
  destruct (Z.leb_spec v UINT64_MAX); [|done]. pose proof (wrap_bound 64 (- v) ltac:(lia)).
  destruct neg; intros [= <-]; lia_w.
Qed.

(** [strtol]-style reading of a printed integer. *)
Lemma strto_to_string n : strto 10 (to_string n) = Some (n <? 0, Z.abs n, []).
Proof.
  assert (∀ k, 0 ≤ k → read_prefix 10 (to_digits 10 k) = (10, to_digits 10 k)) as Hpre.
  { intros k Hk. destruct (to_digits_cons 10 k) as (c & s & -> & _); [lia..|]. unfold read_prefix.
    change (10 =? 0) with false. change (10 =? 16) with false. cbn [orb]. repeat case_match; bool_to_prop; done. }
  assert (∀ k, 0 ≤ k → scan_digits 10 0 (to_digits 10 k) = (k, [])) as Hscan.
  { intros k Hk. pose proof (scan_to_digits 10 k [] ltac:(lia) Hk I) as Hs. by rewrite app_nil_r in Hs. }
  assert (∀ k, 0 ≤ k → to_digits 10 k ≠ []) as Hne.
  { intros k Hk. by destruct (to_digits_cons 10 k) as (c & s & -> & _); [lia..|]. }
  unfold to_string, strto. destruct (Z.ltb_spec n 0).
  - change (read_sign (skip_space ("-"%chr :: to_digits 10 (- n)))) with (true, to_digits 10 (- n)).
    cbv beta iota. rewrite Hpre, Hscan by lia. rewrite bool_decide_eq_false_2 by (apply not_eq_sym, Hne; lia).
    by replace (- n) with (Z.abs n) by lia.
  - assert (read_sign (skip_space (to_digits 10 n)) = (false, to_digits 10 n)) as ->.
    { destruct (to_digits_cons 10 n) as (c & s & -> & d & Hd & ->); [lia..|]. apply skip_read_digit. lia. }
    rewrite Hpre, Hscan by lia. rewrite bool_decide_eq_false_2 by (apply not_eq_sym, Hne; lia).
    by rewrite Z.abs_eq by lia.
Qed.

Lemma c_str_to_string n : c_str (to_string n) = to_string n.
Proof.
  apply c_str_id. unfold to_string. case_match.
  - constructor; [done|]. apply to_digits_no_nul; lia.
  - apply to_digits_no_nul; lia.
Qed.

Lemma strtoll_to_string n : - 2 ^ 63 ≤ n < 2 ^ 63 → strtoll_all 10 (to_string n) = Some n.
Proof.
  intros Hn. unfold strtoll_all. rewrite c_str_to_string, strto_to_string.
  assert ((if n <? 0 then - Z.abs n else Z.abs n) = n) as -> by (destruct (Z.ltb_spec n 0); lia).
  rewrite (proj2 (Z.leb_le _ _)), (proj2 (Z.ltb_lt _ _)) by lia. done.
Qed.
