(* ===== verification/TargetMachine.v ===== *)
(** * Target machines

    Models [src/core/target_machine.hpp] and [src/core/target_machine.cpp] (what a
    target program's code and data look like, read from its ELF or PE header) and
    the choice of a decoder and an assembler for it ([src/arch/target_arch.cpp]). *)

From S2P Require Import Prelude.

(** ** Data *)

Inductive CpuArchitecture : Set :=
  | ArchUnknown | X86_32 | X86_64 | Arm32 | Arm64 | RiscV32 | RiscV64
  | Mips32 | Mips64 | PowerPC32 | PowerPC64 | S390X | Arm64EC | Arm64X | ArchOther.

Inductive ByteOrder : Set := OrderUnknown | Little | Big.

Inductive TargetAbi : Set :=
  | AbiUnknown | LinuxI386 | LinuxX86_64 | LinuxX32 | LinuxArmEabi | LinuxAarch64
  | LinuxRiscV | LinuxOther | WindowsI386 | WindowsX64 | WindowsArm
  | WindowsArm64 | WindowsArm64EC | WindowsArm64X.

Inductive InstructionMode : Set :=
  | ModeUnknown | ModeX86_32 | ModeX86_64 | ModeArm | ModeThumb | ModeAarch64 | ModeOther.

#[export] Instance CpuArchitecture_eq_dec : EqDecision CpuArchitecture.
Proof. solve_decision. Defined.
#[export] Instance ByteOrder_eq_dec : EqDecision ByteOrder.
Proof. solve_decision. Defined.
#[export] Instance TargetAbi_eq_dec : EqDecision TargetAbi.
Proof. solve_decision. Defined.
#[export] Instance InstructionMode_eq_dec : EqDecision InstructionMode.
Proof. solve_decision. Defined.

Record TargetMachine := mkTargetMachine {
  architecture : CpuArchitecture;
  byteOrder : ByteOrder;
  abi : TargetAbi;
  instructionMode : InstructionMode;
  pointerWidth : Z;
  instructionByteOrder : ByteOrder;
}.
#[export] Instance TargetMachine_eq_dec : EqDecision TargetMachine.
Proof. solve_decision. Defined.

Definition hasPointers (m : TargetMachine) : bool :=
  (pointerWidth m =? 4) || (pointerWidth m =? 8).
Definition isX86 (m : TargetMachine) : bool :=
  bool_decide (architecture m = X86_32) || bool_decide (architecture m = X86_64).

(** ** Names *)

Definition cpuArchitectureName (a : CpuArchitecture) : string :=
  match a with
  | ArchUnknown => "unknown" | X86_32 => "x86-32" | X86_64 => "x86-64"
  | Arm32 => "ARM32" | Arm64 => "ARM64" | RiscV32 => "RISC-V32" | RiscV64 => "RISC-V64"
  | Mips32 => "MIPS32" | Mips64 => "MIPS64" | PowerPC32 => "PowerPC32"
  | PowerPC64 => "PowerPC64" | S390X => "s390x" | Arm64EC => "ARM64EC"
  | Arm64X => "ARM64X" | ArchOther => "other"
  end.

Definition byteOrderName (o : ByteOrder) : string :=
  match o with
  | Little => "little-endian" | Big => "big-endian" | OrderUnknown => "unknown"
  end.

Definition targetAbiName (a : TargetAbi) : string :=
  match a with
  | AbiUnknown => "unknown" | LinuxI386 => "Linux i386" | LinuxX86_64 => "Linux x86-64"
  | LinuxX32 => "Linux x32" | LinuxArmEabi => "Linux ARM EABI"
  | LinuxAarch64 => "Linux AArch64" | LinuxRiscV => "Linux RISC-V"
  | LinuxOther => "Linux other" | WindowsI386 => "Windows i386" | WindowsX64 => "Windows x64"
  | WindowsArm => "Windows ARM" | WindowsArm64 => "Windows ARM64"
  | WindowsArm64EC => "Windows ARM64EC" | WindowsArm64X => "Windows ARM64X"
  end.

(** The machine of the modelled host: the [__x86_64__] branch with 8-byte
    pointers and little-endian data. *)
Definition nativeTargetMachine : TargetMachine :=
  mkTargetMachine X86_64 Little LinuxX86_64 ModeX86_64 8 Little.

(** ** Integers of the target *)

(** [value = (value << 8) | byte] over the bytes from the most significant one. *)
Definition decodeTargetUnsigned (b : bytes) (order : ByteOrder) : outcome Z :=
  if bool_decide (b = []) || (8 <? len b) || bool_decide (order = OrderUnknown)
  then Fail "Invalid integer width or unknown target byte order"
  else Ret (foldl (λ value byte, Z.lor (u64 (Z.shiftl value 8)) byte) 0
                  (match order with Little => reverse b | _ => b end)).

(** [*expected]: dereferencing an error is undefined. *)
Definition deref {A} (m : outcome A) : outcome A :=
  match m with Ret a => Ret a | _ => Undefined end.

(** [*decodeTargetUnsigned(h.subspan(off, n), order)] *)
Definition readUnsigned (h : bytes) (off n : Z) (order : ByteOrder) : outcome Z :=
  let* s := subspan h off n in deref (decodeTargetUnsigned s order).

(** ** ELF headers *)

Definition EM_386 := 3.
Definition EM_MIPS := 8.
Definition EM_PPC := 20.
Definition EM_PPC64 := 21.
Definition EM_S390 := 22.
Definition EM_ARM := 40.
Definition EM_X86_64 := 62.
Definition EM_AARCH64 := 183.
Definition EM_RISCV := 243.
Definition EF_ARM_BE8 := 0x00800000.

(** The [switch] on [e_machine]: architecture, instruction mode and ABI. *)
Definition elfMachine (wide : bool) (machine : Z)
  : outcome (CpuArchitecture * InstructionMode * TargetAbi) :=
  if machine =? EM_386 then
    if wide then Fail "ELF i386 has a 64-bit class" else Ret (X86_32, ModeX86_32, LinuxI386)
  else if machine =? EM_X86_64 then
    Ret (X86_64, ModeX86_64, if wide then LinuxX86_64 else LinuxX32)
  else if machine =? EM_ARM then
    if wide then Fail "ELF ARM32 has a 64-bit class" else Ret (Arm32, ModeArm, LinuxArmEabi)
  else if machine =? EM_AARCH64 then
    Ret (Arm64, ModeAarch64, if wide then LinuxAarch64 else AbiUnknown)
  else if machine =? EM_RISCV then
    Ret (if wide then RiscV64 else RiscV32, ModeOther, LinuxRiscV)
  else if machine =? EM_MIPS then Ret (if wide then Mips64 else Mips32, ModeOther, LinuxOther)
  else if machine =? EM_PPC then Ret (PowerPC32, ModeOther, LinuxOther)
  else if machine =? EM_PPC64 then Ret (PowerPC64, ModeOther, LinuxOther)
  else if machine =? EM_S390 then Ret (if wide then S390X else ArchOther, ModeOther, LinuxOther)
  else Ret (ArchOther, ModeOther, LinuxOther).

Definition parseElfTarget (h : bytes) : outcome TargetMachine :=
  if len h <? 16 then Fail "Missing ELF identification" else
  let* h0 := at_ h 0 in let* h1 := at_ h 1 in let* h2 := at_ h 2 in let* h3 := at_ h 3 in
  if negb (h0 =? 0x7f) || negb (h1 =? "E"%chr) || negb (h2 =? "L"%chr) || negb (h3 =? "F"%chr)
  then Fail "Missing ELF identification" else
  let* cls := at_ h 4 in let* data := at_ h 5 in let* version := at_ h 6 in
  if (negb (cls =? 1) && negb (cls =? 2)) || (negb (data =? 1) && negb (data =? 2))
     || negb (version =? 1)
  then Fail "Invalid ELF class, byte order, or version" else
  let wide := cls =? 2 in
  if len h <? (if wide then 64 else 52) then Fail "Truncated ELF header" else
  let order := if data =? 2 then Big else Little in
  let* machine := readUnsigned h 18 2 order in
  let* (arch, mode, abi) := elfMachine wide machine in
  let m := mkTargetMachine arch order abi mode (if wide then 8 else 4) order in
  if isX86 m && negb (bool_decide (order = Little))
  then Fail "x86 ELF declares an invalid big-endian encoding" else
  let* ibo :=
    if bool_decide (arch = Arm32) then
      let* flags := readUnsigned h 36 4 order in
      Ret (if negb (Z.land flags EF_ARM_BE8 =? 0) then Little else order)
    else Ret order in
  let ibo := if bool_decide (arch = Arm64) || bool_decide (arch = RiscV32)
                || bool_decide (arch = RiscV64) then Little else ibo in
  Ret (mkTargetMachine arch order abi mode (if wide then 8 else 4) ibo).

(** ** PE headers *)

(** The Windows machine a ReadyToRun image for another OS hides behind an XOR. *)
Definition readyToRunMachine (machine : Z) : option Z :=
  let native os := Z.lxor machine os in
  let known n := (n =? 0x14c) || (n =? 0x8664) || (n =? 0x1c4) || (n =? 0xaa64) in
  native <$> List.find (λ os, known (native os)) [0x7B79; 0x4644; 0xADC4; 0x1993; 0x1992].

Definition peMachine (machine : Z) : CpuArchitecture * TargetAbi * InstructionMode :=
  if machine =? 0x14c then (X86_32, WindowsI386, ModeX86_32)
  else if machine =? 0x8664 then (X86_64, WindowsX64, ModeX86_64)
  else if (machine =? 0x1c0) || (machine =? 0x1c2) || (machine =? 0x1c4) then
    (Arm32, WindowsArm, if machine =? 0x1c0 then ModeArm else ModeThumb)
  else if machine =? 0xaa64 then (Arm64, WindowsArm64, ModeAarch64)
  else if machine =? 0xa641 then (Arm64EC, WindowsArm64EC, ModeUnknown)
  else if machine =? 0xa64e then (Arm64X, WindowsArm64X, ModeUnknown)
  else (ArchOther, AbiUnknown, ModeUnknown).

(** The ABI of a managed image that a native runtime loads. *)
Definition readyToRunAbi (arch : CpuArchitecture) : TargetAbi :=
  match arch with
  | X86_32 => LinuxI386 | X86_64 => LinuxX86_64 | Arm32 => LinuxArmEabi | _ => LinuxAarch64
  end.

Definition peRequires32 (arch : CpuArchitecture) : bool :=
  bool_decide (arch = X86_32) || bool_decide (arch = Arm32).
Definition peRequires64 (arch : CpuArchitecture) : bool :=
  bool_decide (arch = X86_64) || bool_decide (arch = Arm64)
  || bool_decide (arch = Arm64EC) || bool_decide (arch = Arm64X).

Definition parsePeTarget (h : bytes) : outcome TargetMachine :=
  if len h <? 0x40 then Fail "Missing DOS header" else
  let* h0 := at_ h 0 in let* h1 := at_ h 1 in
  if negb (h0 =? "M"%chr) || negb (h1 =? "Z"%chr) then Fail "Missing DOS header" else
  let* pe := readUnsigned h 0x3c 4 Little in
  if (pe <? 0x40) || (len h <? pe) || (len h - pe <? 26)
  then Fail "Truncated or invalid PE header" else
  let* p0 := at_ h pe in let* p1 := at_ h (pe + 1) in
  let* p2 := at_ h (pe + 2) in let* p3 := at_ h (pe + 3) in
  if negb (p0 =? "P"%chr) || negb (p1 =? "E"%chr) || negb (p2 =? 0) || negb (p3 =? 0)
  then Fail "Truncated or invalid PE header" else
  let* raw := readUnsigned h (pe + 4) 2 Little in
  let override := readyToRunMachine raw in
  let machine := default raw override in
  let* optionalSize := readUnsigned h (pe + 20) 2 Little in
  if (optionalSize <? 60) || (len h - pe - 24 <? optionalSize)
  then Fail "Truncated PE optional header" else
  let* magic := readUnsigned h (pe + 24) 2 Little in
  if negb (magic =? 0x10b) && negb (magic =? 0x20b) then Fail "Unknown PE optional header" else
  let width := if magic =? 0x20b then 8 else 4 in
  let '(arch, abi, mode) := peMachine machine in
  let abi := if bool_decide (is_Some override) then readyToRunAbi arch else abi in
  if (peRequires32 arch && negb (width =? 4)) || (peRequires64 arch && negb (width =? 8))
  then Fail "PE machine and optional-header width disagree"
  else Ret (mkTargetMachine arch Little abi mode width Little).

(** [std::nullopt] is [Ret None]. *)
Definition peLoadConfigDirectory (h : bytes) : outcome (option (Z * Z)) :=
  if len h <? 0x40 then Ret None else
  let* pe := readUnsigned h 0x3c 4 Little in
  if (pe <? 0x40) || (len h <? pe) || (len h - pe <? 24 + 200) then Ret None else
  let* optionalSize := readUnsigned h (pe + 20) 2 Little in
  let* magic := readUnsigned h (pe + 24) 2 Little in
  if negb (magic =? 0x20b) || (optionalSize <? 200) then Ret None else
  let* entry := subspan h (pe + 24 + 112 + 10 * 8) 8 in
  let* rva := readUnsigned entry 0 4 Little in
  let* size := readUnsigned entry 4 4 Little in
  if (u32 rva =? 0) || (u32 size =? 0) then Ret None else Ret (Some (u32 rva, u32 size)).

Definition withPeHybridMetadata (m : TargetMachine) (loadConfig : bytes) : outcome TargetMachine :=
  let chpe := 200 in
  if negb (pointerWidth m =? 8) || (len loadConfig <? chpe + 8) then Ret m else
  let* declared := readUnsigned loadConfig 0 4 Little in
  if declared <? chpe + 8 then Ret m else
  let* metadata := readUnsigned loadConfig chpe 8 Little in
  if metadata =? 0 then Ret m else
  Ret match architecture m with
      | X86_64 => mkTargetMachine Arm64EC (byteOrder m) WindowsArm64EC ModeUnknown
                    (pointerWidth m) (instructionByteOrder m)
      | Arm64 => mkTargetMachine Arm64X (byteOrder m) WindowsArm64X ModeUnknown
                    (pointerWidth m) (instructionByteOrder m)
      | _ => m
      end.

(** ** Decoders and assemblers *)

Inductive Arch : Set :=
  | DX86_32 | DX86_64 | DARM32 | DARM64 | DARMThumb | DARM32_BE | DARMThumb_BE
  | DRISCV32 | DRISCV64 | DPPC64 | DPPC64_BE | DS390X | DMIPS64 | DMIPS64_BE.
Inductive AsmArch : Set :=
  | AX86_32 | AX86_64 | AARM32 | AARM64 | AARMThumb | AARM32_BE | AARMThumb_BE.
#[export] Instance Arch_eq_dec : EqDecision Arch.
Proof. solve_decision. Defined.

(** [supports] is what the Capstone build in use can decode. *)
Definition disassemblerArchFor (supports : Arch → bool) (m : TargetMachine) : outcome Arch :=
  match architecture m with
  | X86_32 => Ret DX86_32
  | X86_64 => Ret DX86_64
  | Arm64 => Ret DARM64
  | RiscV32 => if supports DRISCV32 then Ret DRISCV32 else Fail "No RISC-V decoder in this Capstone build (Capstone 5 or newer is required)"
  | RiscV64 => if supports DRISCV64 then Ret DRISCV64 else Fail "No RISC-V decoder in this Capstone build (Capstone 5 or newer is required)"
  | PowerPC64 =>
      match instructionByteOrder m with
      | OrderUnknown => Fail "PowerPC instruction byte order is unknown"
      | Big => Ret DPPC64_BE | Little => Ret DPPC64
      end
  | S390X => Ret DS390X
  | Mips64 =>
      match instructionByteOrder m with
      | OrderUnknown => Fail "MIPS instruction byte order is unknown"
      | Big => Ret DMIPS64_BE | Little => Ret DMIPS64
      end
  | Arm32 =>
      if bool_decide (instructionByteOrder m = OrderUnknown)
      then Fail "ARM instruction byte order is unknown" else
      let big := bool_decide (instructionByteOrder m = Big) in
      match instructionMode m with
      | ModeThumb => Ret (if big then DARMThumb_BE else DARMThumb)
      | ModeArm => Ret (if big then DARM32_BE else DARM32)
      | _ => Fail "ARM instruction mode is unknown"
      end
  | Arm64EC | Arm64X =>
      Fail (String.append (cpuArchitectureName (architecture m)) " code mixes ARM64 and x64 instructions; choosing the decoder per address needs the image's CHPE code-range map, which is not implemented")
  | a => Fail (String.append "No instruction backend for " (cpuArchitectureName a))
  end.

Definition assemblerArchFor (a : Arch) : outcome AsmArch :=
  match a with
  | DX86_32 => Ret AX86_32 | DX86_64 => Ret AX86_64 | DARM32 => Ret AARM32
  | DARM64 => Ret AARM64 | DARMThumb => Ret AARMThumb | DARM32_BE => Ret AARM32_BE
  | DARMThumb_BE => Ret AARMThumb_BE
  | DRISCV32 | DRISCV64 =>
      Fail "No assembler backend for RISC-V (Keystone has none); disassembly is available"
  | DPPC64 | DPPC64_BE | DS390X | DMIPS64 | DMIPS64_BE =>
      Fail "No assembler backend for this instruction set in this build; disassembly is available"
  end.

(** ** Lemmas *)

Lemma foldl_shift_value l acc :
  bytes_ok l → 0 ≤ acc → acc * 256 ^ len l + le_val (reverse l) < 2 ^ 64 →
  foldl (λ value byte, Z.lor (u64 (Z.shiftl value 8)) byte) acc l
  = acc * 256 ^ len l + le_val (reverse l).
Proof.
  intros Hl. revert acc. induction Hl as [|b l Hb Hl IH]; intros acc Ha Hlt; [change (reverse []) with (@nil Z); unfold len; simpl; lia|].
  unfold len in *. cbn [length foldl] in *. rewrite pow256_S, reverse_cons, le_val_snoc, len_reverse in *.
  pose proof (le_val_bound (reverse l) (proj2 (bytes_ok_reverse l) Hl)) as Hv.
  rewrite len_reverse in Hv. unfold len in *.
  assert (0 < 256 ^ Z.of_nat (length l)) by (apply Z.pow_pos_nonneg; lia).
  assert (acc * 256 < 2 ^ 64) by (unfold in_width in Hb; nia).
  assert (u64 (Z.shiftl acc 8) = Z.shiftl acc 8) as ->.
  { apply wrap_small. rewrite Z.shiftl_mul_pow2 by lia. unfold in_width. lia. }
  rewrite lor_shiftl_add by (done || lia). unfold in_width in Hb.
  rewrite IH; nia.
Qed.

(** The decoded integer is the value of the bytes in the given order. *)
Lemma decodeTargetUnsigned_ret b order :
  bytes_ok b → 0 < len b ≤ 8 → order ≠ OrderUnknown →
  decodeTargetUnsigned b order = Ret (match order with Little => le_val b | _ => be_val b end).
Proof.
  intros Hb Hn Ho. unfold decodeTargetUnsigned.
  assert (b ≠ []) by (intros ->; unfold len in Hn; simpl in Hn; lia).
  rewrite !bool_decide_eq_false_2 by done.
  rewrite (proj2 (Z.ltb_ge 8 _)) by lia. simpl. f_equal.
  assert (∀ l, bytes_ok l → len l = len b →
    foldl (λ value byte, Z.lor (u64 (Z.shiftl value 8)) byte) 0 l = le_val (reverse l)) as Hfold.
  { intros l Hl Hlen. rewrite foldl_shift_value; [lia|done|lia|].
    pose proof (le_val_u64 (reverse l)) as Hu. rewrite len_reverse in Hu.
    apply Hu; [by apply bytes_ok_reverse|lia]. }
  destruct order; [done|..].
  - rewrite Hfold; [by rewrite reverse_involutive|by apply bytes_ok_reverse|apply len_reverse].
  - by apply Hfold.
Qed.

(** [decodeTargetUnsigned] touches no memory outside its span. *)
Lemma decodeTargetUnsigned_defined b order : defined (decodeTargetUnsigned b order).
Proof. unfold decodeTargetUnsigned. by case_match. Qed.

Lemma readUnsigned_ret h off n order :
  bytes_ok h → 0 ≤ off → 0 < n ≤ 8 → off + n ≤ len h → order ≠ OrderUnknown →
  readUnsigned h off n order =
    Ret (match order with Little => le_val (slice h off n) | _ => be_val (slice h off n) end).
Proof.
  intros Hh ????. unfold readUnsigned.
  destruct (subspan_defined h off n) as [-> Hl]; [lia..|]. simpl.
  rewrite decodeTargetUnsigned_ret; [done|by apply bytes_ok_slice|lia|done].
Qed.

(** A read inside the header succeeds. *)
Lemma readUnsigned_ok h off n order :
  0 ≤ off → 0 < n ≤ 8 → off + n ≤ len h → order ≠ OrderUnknown →
  ∃ v, readUnsigned h off n order = Ret v.
Proof.
  intros ??? Ho. unfold readUnsigned.
  destruct (subspan_defined h off n) as [-> Hl]; [lia..|]. simpl.
  unfold decodeTargetUnsigned. rewrite bool_decide_eq_false_2, bool_decide_eq_false_2; [|done|].
  - rewrite (proj2 (Z.ltb_ge 8 _)) by lia. simpl. eauto.
  - intros He. rewrite He in Hl. unfold len in Hl. simpl in Hl. lia.
Qed.

(** Memory safety of the header parsers, by walking their reads: each one is
    either in range or refused first. *)
Ltac read_ok :=
  lazymatch goal with
  | |- defined (if ?b then _ else _) => let E := fresh "E" in destruct b eqn:E; bool_to_prop; [try exact I|]
  | |- defined (obind (at_ ?h ?i) _) =>
      let x := fresh "x" in
      destruct (at_defined h i) as (x & -> & _); [lia|]; cbn [obind]
  | |- defined (obind (readUnsigned ?h ?o ?n ?e) _) =>
      let v := fresh "v" in let Hv := fresh "Hv" in
      destruct (readUnsigned_ok h o n e) as [v Hv];
        [lia|lia|first [lia|repeat case_match; lia]|by repeat case_match|];
      rewrite Hv; cbn [obind]
  | |- defined (Ret _) => exact I
  | |- defined (Fail _) => exact I
  end.

Lemma elfMachine_defined wide machine : defined (elfMachine wide machine).
Proof. unfold elfMachine. by repeat case_match. Qed.

Lemma parseElfTarget_defined h : defined (parseElfTarget h).
Proof.
  unfold parseElfTarget. repeat read_ok.
  apply defined_bind; [apply elfMachine_defined|]. intros [[arch mode] abi] _.
  read_ok. apply defined_bind; [|intros; exact I].
  repeat read_ok.
Qed.

(** A decoded integer fits 64 bits. *)
Lemma decodeTargetUnsigned_u64 b order v :
  bytes_ok b → decodeTargetUnsigned b order = Ret v → is_u64 v.
Proof.
  intros Hb Hd. assert (0 < len b ≤ 8 ∧ order ≠ OrderUnknown) as [Hn Ho].
  { unfold decodeTargetUnsigned in Hd. case_match; [done|]. bool_to_prop.
    destruct b; [done|]. rewrite len_cons in *. pose proof (len_nonneg b). split; [lia|done]. }
  rewrite decodeTargetUnsigned_ret in Hd by done. simplify_eq.
  destruct order; [done|..].
  - apply le_val_u64; [done|lia].
  - apply le_val_u64; [by apply bytes_ok_reverse|rewrite len_reverse; lia].
Qed.

Lemma readUnsigned_u64 h off n order v :
  bytes_ok h → readUnsigned h off n order = Ret v → is_u64 v.
Proof.
  intros Hh. unfold readUnsigned, subspan. case_match; [|done]. simpl.
  destruct (decodeTargetUnsigned _ _) eqn:Hd; simpl; [|done..]. intros [= ->].
  eapply decodeTargetUnsigned_u64; [|done]. auto with ce.
Qed.

(** [read_ok] that also keeps the range of the integer read. *)
Ltac read_ok_pos Hh :=
  lazymatch goal with
  | |- defined (obind (readUnsigned ?h ?o ?n ?e) _) =>
      let v := fresh "v" in let Hv := fresh "Hv" in
      destruct (readUnsigned_ok h o n e) as [v Hv]; [lia|lia|lia|done|];
      try pose proof (readUnsigned_u64 h o n e v Hh Hv) as [??];
      rewrite Hv; cbn [obind]
  | |- defined (obind (subspan ?h ?o ?n) _) =>
      destruct (subspan_defined h o n) as [-> ?]; [lia..|]; cbn [obind]
  | |- defined (if _ then _ else _) => read_ok
  | |- defined (match ?x with _ => _ end) => destruct x
  | _ => read_ok
  end.

Lemma parsePeTarget_defined h : bytes_ok h → defined (parsePeTarget h).
Proof.
  intros Hh. unfold parsePeTarget. repeat read_ok_pos Hh.
Qed.

Lemma peLoadConfigDirectory_defined h : bytes_ok h → defined (peLoadConfigDirectory h).
Proof.
  intros Hh. unfold peLoadConfigDirectory. repeat read_ok_pos Hh.
Qed.

Lemma withPeHybridMetadata_defined m l : bytes_ok l → defined (withPeHybridMetadata m l).
Proof.
  intros Hl. unfold withPeHybridMetadata. repeat read_ok_pos Hl.
Qed.

(** What a header parser promises of the machine it reports. *)
Definition machine_wf (m : TargetMachine) : Prop :=
  hasPointers m = true ∧
  byteOrder m ≠ OrderUnknown ∧ instructionByteOrder m ≠ OrderUnknown ∧
  (isX86 m = true → byteOrder m = Little ∧ instructionByteOrder m = Little) ∧
  (architecture m = X86_32 ∨ architecture m = Arm32 → pointerWidth m = 4) ∧
  (architecture m = Arm64 → instructionByteOrder m = Little) ∧
  (architecture m = Arm32 → instructionMode m = ModeArm ∨ instructionMode m = ModeThumb).

Lemma elfMachine_facts wide machine arch mode abi :
  elfMachine wide machine = Ret (arch, mode, abi) →
  (arch = X86_32 ∨ arch = Arm32 → wide = false) ∧ (arch = Arm32 → mode = ModeArm).
Proof.
  unfold elfMachine. intros He. split.
  - intros Ha. destruct wide; [|done]. exfalso. revert He.
    repeat (case_match; [intros; simplify_eq; by destruct Ha|]);
      intros; simplify_eq; by destruct Ha.
  - intros ->. revert He. repeat (case_match; [destruct wide; congruence|]); congruence.
Qed.

(** Peels the checks and reads of a parser that returned a value. *)
Ltac peel_parser :=
  repeat match goal with
  | H : obind _ _ = Ret _ |- _ => apply obind_Ret in H as (? & ? & H)
  | H : (if ?b then Fail _ else _) = Ret _ |- _ => destruct b eqn:?; [discriminate H|]
  | x : _ * _ |- _ => destruct x
  end.

Lemma parseElfTarget_wf h m : parseElfTarget h = Ret m → machine_wf m.
Proof.
  unfold parseElfTarget. intros Hp. peel_parser.
  match goal with H : elfMachine _ _ = _ |- _ => apply elfMachine_facts in H as [Hw Hm] end.
  match goal with H : (if bool_decide _ then _ else _) = Ret ?o |- _ => rename H into Hi, o into ibo end.
  simplify_eq.
  remember (x3 =? 2) as wide. remember (if x4 =? 2 then Big else Little) as order.
  assert (order = Big ∨ order = Little) as Ho by (rewrite Heqorder; destruct (x4 =? 2); auto).
  assert ((ibo = Big ∨ ibo = Little) ∧ (c ≠ Arm32 → ibo = order)) as [Hb Hc].
  { destruct (bool_decide (c = Arm32)) eqn:Hc; bool_to_prop; peel_parser; simplify_eq;
      [|by split]. split; [|done]. destruct (negb (Z.land _ _ =? 0)); [by right|done]. }
  clear -Hw Hm Ho Hb Hc Heqb3. unfold machine_wf, hasPointers, isX86 in *. simpl in *.
  split; [by destruct wide|]. split; [by destruct Ho as [->| ->]|].
  split; [case_match; [done|]; by destruct Hb as [->| ->]|].
  split; [|split; [intros Hx; by rewrite (Hw Hx)|split; [intros ->; reflexivity|intros; left; by apply Hm]]].
  destruct c; cbn in *; try done; intros _; split;
    (destruct Ho as [->| ->]; [done|]); [done|by apply Hc|done|by apply Hc].
Qed.

Lemma peMachine_arm machine a mode :
  peMachine machine = (Arm32, a, mode) → mode = ModeArm ∨ mode = ModeThumb.
Proof. unfold peMachine. intros Hm. repeat case_match; simplify_eq; auto. Qed.

Lemma parsePeTarget_wf h m : parsePeTarget h = Ret m → machine_wf m.
Proof.
  unfold parsePeTarget. intros Hp. peel_parser.
  destruct (peMachine _) as [[arch a] mode] eqn:Hpm. peel_parser. simplify_eq.
  match goal with H : peRequires32 _ && _ || _ = false |- _ => rename H into Hw end.
  assert (arch = Arm32 → mode = ModeArm ∨ mode = ModeThumb) as Hm.
  { intros ->. by eapply peMachine_arm. }
  clear -Hw Hm. unfold machine_wf, hasPointers, isX86 in *. simpl in *.
  split; [by destruct (_ =? 523)|]. do 3 (split; [done|]).
  split; [|by split]. intros Ha. destruct (_ =? 523); [|done].
  by destruct Ha as [-> | ->].
Qed.


(** ** Properties *)

(** The parsers of executable headers touch no memory outside the bytes they
    are given: for every input, however truncated or corrupt, the ELF and PE
    header parsers, the load-config lookup and the hybrid-metadata check end with
    a value or an error, never with an access out of bounds. *)
Theorem header_parsers_memory_safe h l m :
  bytes_ok h → bytes_ok l →
  defined (parseElfTarget h) ∧ defined (parsePeTarget h) ∧
  defined (peLoadConfigDirectory h) ∧ defined (withPeHybridMetadata m l).
Proof.
  auto using parseElfTarget_defined, parsePeTarget_defined, peLoadConfigDirectory_defined,
    withPeHybridMetadata_defined.
Qed.

Lemma header_parsers_memory_safe_witness :
  let h := bs "MZ" ++ replicate 58 0 ++ [255; 255; 255; 255] in
  defined (parseElfTarget h) ∧ defined (parsePeTarget h) ∧
  defined (peLoadConfigDirectory h) ∧ defined (withPeHybridMetadata nativeTargetMachine h).
Proof.
  apply header_parsers_memory_safe;
    (apply bytes_ok_app; split; [apply bs_ok|]; apply bytes_ok_app; split;
     [by apply Forall_replicate|by repeat constructor]).
Defined.

(** C40: Whatever machine the ELF or PE parser reports is well formed: its pointers
    are 4 or 8 bytes wide, both byte orders are known, x86 is little endian and
    32-bit-only architectures have 4-byte pointers; so for every architecture with
    a decoder that does not depend on the Capstone build the decoder choice
    succeeds. *)
Theorem parsed_machine_wf supports h m :
  parseElfTarget h = Ret m ∨ parsePeTarget h = Ret m →
  machine_wf m ∧
  (architecture m ∈ [X86_32; X86_64; Arm32; Arm64; PowerPC64; S390X; Mips64] →
   ∃ d, disassemblerArchFor supports m = Ret d).
Proof.
  intros Hp. assert (machine_wf m) as Hwf
    by (destruct Hp; [by eapply parseElfTarget_wf|by eapply parsePeTarget_wf]).
  split; [done|]. destruct Hwf as (_ & _ & Ho & _ & _ & _ & Hm).
  unfold disassemblerArchFor. intros Ha.
  destruct (architecture m); try (eexists; reflexivity);
    try (destruct (instructionByteOrder m); [done|by eexists..]);
    try (exfalso; revert Ha; rewrite !elem_of_cons, elem_of_nil; naive_solver; fail).
  rewrite bool_decide_eq_false_2 by done. destruct (Hm eq_refl) as [-> | ->]; by eexists.
Qed.

Definition elf64_header : bytes :=
  [127; 69; 76; 70; 2; 1; 1] ++ replicate 11 0 ++ [62; 0] ++ replicate 44 0.

Lemma parsed_machine_wf_witness :
  parseElfTarget elf64_header = Ret (mkTargetMachine X86_64 Little LinuxX86_64 ModeX86_64 8 Little) ∧
  machine_wf (mkTargetMachine X86_64 Little LinuxX86_64 ModeX86_64 8 Little).
Proof.
  assert (parseElfTarget elf64_header =
          Ret (mkTargetMachine X86_64 Little LinuxX86_64 ModeX86_64 8 Little)) as He by reflexivity.
  split; [exact He|].
  exact (proj1 (parsed_machine_wf (λ _, true) elf64_header _ (or_introl He))).
Defined.
