(* ===== verification/Types.v ===== *)
(** * Core types

    Models [src/core/types.hpp] and [src/core/types.cpp]: memory regions, modules,
    the value and comparison types of a scan, freeze modes, and the module-relative
    spelling of an address. *)

From S2P Require Import Prelude Numeral TargetMachine.
From Stdlib Require Import SpecFloat.

(** ** Memory *)

(** [enum class MemProt : uint32_t]: a set of bits. *)
Definition ProtNone : Z := 0.
Definition ProtRead : Z := 1.
Definition ProtWrite : Z := 2.
Definition ProtExec : Z := 4.
(** [operator&] on protections: whether they share a bit. *)
Definition protHas (a b : Z) : bool := negb (Z.land a b =? 0).

Inductive MemType : Set := MemPrivate | MemMapped | MemImage.
Inductive MemState : Set := MemFree | MemCommitted.

#[export] Instance MemType_eq_dec : EqDecision MemType.
Proof. solve_decision. Defined.
#[export] Instance MemState_eq_dec : EqDecision MemState.
Proof. solve_decision. Defined.
Record MemoryRegion := mkMemoryRegion {
  region_base : Z;
  region_size : Z;
  region_protection : Z;
  region_type : MemType;
  region_state : MemState;
  region_path : bytes;
  region_fileOffset : option Z;
}.

Record ModuleInfo := mkModuleInfo {
  mod_base : Z;
  mod_size : Z;
  mod_name : bytes;
  mod_path : bytes;
  mod_is64bit : bool;
  mod_machine : TargetMachine;
}.

(** ** Scan value types and comparisons *)

Inductive ValueType : Set :=
  | VByte | VInt16 | VInt32 | VInt64 | VFloat | VDouble | VString | VUnicodeString
  | VByteArray | VBinary | VAll | VGrouped | VCustom | VPointer.
#[export] Instance ValueType_eq_dec : EqDecision ValueType.
Proof. solve_decision. Defined.

Definition valueTypeName (t : ValueType) : string :=
  match t with
  | VByte => "Byte" | VInt16 => "2 Bytes" | VInt32 => "4 Bytes" | VInt64 => "8 Bytes"
  | VFloat => "Float" | VDouble => "Double" | VString => "String"
  | VUnicodeString => "Unicode String" | VByteArray => "Array of byte"
  | VBinary => "Binary" | VAll => "All" | VGrouped => "Grouped" | VCustom => "Custom"
  | VPointer => "Pointer"
  end.

Inductive ScanCompare : Set :=
  | CmpExact | CmpGreater | CmpLess | CmpBetween | CmpUnknown | CmpChanged | CmpUnchanged
  | CmpIncreased | CmpDecreased | CmpIncreasedBy | CmpDecreasedBy | CmpSameAsFirst.
#[export] Instance ScanCompare_eq_dec : EqDecision ScanCompare.
Proof. solve_decision. Defined.

(** The position of an enumerator: [compareType >= ScanCompare::Changed] compares these. *)
Definition compareIndex (c : ScanCompare) : Z :=
  match c with
  | CmpExact => 0 | CmpGreater => 1 | CmpLess => 2 | CmpBetween => 3 | CmpUnknown => 4
  | CmpChanged => 5 | CmpUnchanged => 6 | CmpIncreased => 7 | CmpDecreased => 8
  | CmpIncreasedBy => 9 | CmpDecreasedBy => 10 | CmpSameAsFirst => 11
  end.

(** ** Freezing *)

Inductive FreezeMode : Set :=
  | FreezeNormal | IncreaseOnly | DecreaseOnly | NeverIncrease | NeverDecrease.

(** Doubles are the IEEE values of the Standard Library's [spec_float]. *)
Definition freezeShouldWrite (mode : FreezeMode) (current frozen : spec_float) : bool :=
  match mode with
  | IncreaseOnly | NeverDecrease => SFltb current frozen
  | DecreaseOnly | NeverIncrease => SFltb frozen current
  | FreezeNormal => true
  end.

(** ** Module-relative addresses *)

Definition inModule (addr : Z) (m : ModuleInfo) : bool :=
  negb (mod_size m =? 0) && (mod_base m <=? addr) && (addr <? u64 (mod_base m + mod_size m)).

(** The loop over the modules: the smallest one that holds [addr], the first of
    equal size. *)
Definition bestModule (modules : list ModuleInfo) (addr : Z) : option ModuleInfo :=
  foldl (λ best m,
    if inModule addr m then
      match best with
      | Some b => if mod_size m <? mod_size b then Some m else best
      | None => Some m
      end
    else best) None modules.

(** What follows the last ['/'] ([find_last_of], [substr(slash + 1)]). *)
Fixpoint afterLastSlash (s : bytes) : bytes :=
  match s with
  | [] => []
  | c :: s' => if bool_decide ("/"%chr ∈ s') then afterLastSlash s'
               else if c =? "/"%chr then s' else s
  end.

(** [snprintf("%llX")]. *)
Definition toupper (c : Z) : Z := if between "a"%chr c "z"%chr then c - 32 else c.
Definition to_hex_upper (n : Z) : bytes := toupper <$> to_digits 16 n.

Definition moduleOffsetString (modules : list ModuleInfo) (addr : Z) : bytes :=
  match bestModule modules addr with
  | None => []
  | Some best =>
      let name := if bool_decide (mod_name best = []) then mod_path best else mod_name best in
      afterLastSlash name ++ bs "+0x" ++ to_hex_upper (u64 (addr - mod_base best))
  end.

(** ** Properties *)

Definition smaller (addr : Z) (best : option ModuleInfo) (ms : list ModuleInfo) : Prop :=
  match best with
  | None => Forall (λ m, inModule addr m = false) ms
  | Some b => b ∈ ms ∧ inModule addr b = true ∧
              Forall (λ m, inModule addr m = true → mod_size b ≤ mod_size m) ms
  end.

Lemma bestModule_smaller ms addr : smaller addr (bestModule ms addr) ms.
Proof.
  unfold bestModule. induction ms as [|m ms IH] using rev_ind; [by constructor|].
  rewrite foldl_app. simpl. revert IH.
  match goal with |- context [foldl ?f None ms] => generalize (foldl f None ms) end.
  intros [b|] IH; simpl in *; destruct (inModule addr m) eqn:Hm.
  - destruct IH as (Hin & Hb & Hall). case_match; bool_to_prop; simpl.
    + repeat split; [set_solver|done|]. apply Forall_app; split; [|by repeat constructor].
      eapply Forall_impl; [exact Hall|]. simpl. intros x Hx Hi. specialize (Hx Hi). lia.
    + repeat split; [set_solver|done|]. apply Forall_app; split; [done|by repeat constructor].
  - destruct IH as (Hin & Hb & Hall). repeat split; [set_solver|done|].
    apply Forall_app; split; [done|]. repeat constructor. congruence.
  - repeat split; [set_solver|done|]. apply Forall_app; split; [|by repeat constructor].
    eapply Forall_impl; [exact IH|]. simpl. congruence.
  - apply Forall_app; split; [done|by repeat constructor].
Qed.

(** The two spellings of a floor, and of a ceiling, are the same freeze; a value
    that is not a number is never rewritten by a directional freeze. *)
Lemma freeze_pairs current frozen :
  freezeShouldWrite IncreaseOnly current frozen = freezeShouldWrite NeverDecrease current frozen ∧
  freezeShouldWrite DecreaseOnly current frozen = freezeShouldWrite NeverIncrease current frozen ∧
  freezeShouldWrite IncreaseOnly S754_nan frozen = false ∧
  freezeShouldWrite DecreaseOnly S754_nan frozen = false.
Proof. repeat split; by destruct frozen. Qed.
