(* ===== verification/ValueCodec.v ===== *)
(** * Value codecs and scalar transforms

    Models [src/core/value_codec.hpp] (the reversible encodings of obfuscated
    values) and [src/core/value_transform.hpp] (byte order and codec of a stored
    scalar, and the text of an integer in the cheat table). *)

From S2P Require Import Prelude Numeral TargetMachine Types.

(** ** Data *)

Inductive Op : Set := OpNone | OpXor | OpAdd | OpRol | OpRor.
#[export] Instance Op_eq_dec : EqDecision Op.
Proof. solve_decision. Defined.

Record ValueCodec := mkCodec { op : Op; key : Z }.

(** ** Operations

    [bytes] is the width of the value, 1 to 8. *)

Definition maskFor (nbytes : Z) : Z :=
  if 8 <=? nbytes then UINT64_MAX else u64 (Z.shiftl 1 (nbytes * 8) - 1).

Definition rotl (v n nbytes : Z) : Z :=
  let w := nbytes * 8 in
  let n := n mod w in
  let m := maskFor nbytes in
  let v := Z.land v m in
  if n =? 0 then v else Z.land (Z.lor (u64 (Z.shiftl v n)) (Z.shiftr v (w - n))) m.

Definition rotr (v n nbytes : Z) : Z :=
  let w := nbytes * 8 in
  let n := n mod w in
  let m := maskFor nbytes in
  let v := Z.land v m in
  if n =? 0 then v else Z.land (Z.lor (Z.shiftr v n) (u64 (Z.shiftl v (w - n)))) m.

Definition encode (c : ValueCodec) (logical nbytes : Z) : Z :=
  let m := maskFor nbytes in
  let v := Z.land logical m in
  match op c with
  | OpNone => v
  | OpXor => Z.land (Z.lxor v (key c)) m
  | OpAdd => Z.land (u64 (v + key c)) m
  | OpRol => rotl v (u32 (key c)) nbytes
  | OpRor => rotr v (u32 (key c)) nbytes
  end.

Definition decode (c : ValueCodec) (stored nbytes : Z) : Z :=
  let m := maskFor nbytes in
  let v := Z.land stored m in
  match op c with
  | OpNone => v
  | OpXor => Z.land (Z.lxor v (key c)) m
  | OpAdd => Z.land (u64 (v - key c)) m
  | OpRol => rotr v (u32 (key c)) nbytes
  | OpRor => rotl v (u32 (key c)) nbytes
  end.

Definition active (c : ValueCodec) : bool := negb (bool_decide (op c = OpNone)).

(** [spec.find(':')], [substr(0, colon)] and [substr(colon + 1)]. *)
Fixpoint splitColon (s : bytes) : option (bytes * bytes) :=
  match s with
  | [] => None
  | c :: s' =>
      if c =? ":"%chr then Some ([], s')
      else match splitColon s' with
           | Some (a, b) => Some (c :: a, b)
           | None => None
           end
  end.

Definition opOfName (name : bytes) : option Op :=
  if bytes_eqb name (bs "xor") then Some OpXor
  else if bytes_eqb name (bs "add") then Some OpAdd
  else if bytes_eqb name (bs "rol") then Some OpRol
  else if bytes_eqb name (bs "ror") then Some OpRor
  else None.

Definition parse (spec : bytes) : option ValueCodec :=
  match splitColon spec with
  | None => None
  | Some (name, arg) =>
      if bool_decide (arg = []) then None else
      match strtoull_all 0 arg with
      | None => None
      | Some k => o ← opOfName name; Some (mkCodec o k)
      end
  end.

Definition describe (c : ValueCodec) : bytes :=
  match op c with
  | OpNone => bs "none"
  | OpXor => bs "xor:0x" ++ to_digits 16 (key c)
  | OpAdd => bs "add:" ++ to_digits 10 (key c)
  | OpRol => bs "rol:" ++ to_digits 10 (key c)
  | OpRor => bs "ror:" ++ to_digits 10 (key c)
  end.

(** ** Scalars *)

Definition scalarWidth (t : ValueType) : Z :=
  match t with
  | VByte => 1 | VInt16 => 2 | VInt32 | VFloat => 4 | VInt64 | VDouble | VPointer => 8
  | _ => 0
  end.

Definition isIntegerScalar (t : ValueType) : bool :=
  match t with VByte | VInt16 | VInt32 | VInt64 => true | _ => false end.

(** [stored] is the memory at the address; fewer than [scalarWidth] bytes there
    would be a read out of bounds. *)
Definition decodeScalarBits (t : ValueType) (stored : bytes) (bigEndian : bool)
    (c : ValueCodec) : outcome Z :=
  let w := scalarWidth t in
  if w <=? 0 then Ret 0 else
  let* buf := subspan stored 0 w in
  let buf := if bigEndian && (1 <? w) then reverse buf else buf in
  let raw := le_val buf in
  Ret (if active c && isIntegerScalar t then decode c raw w else raw).

(** The bytes written, [None] when the type has no width. *)
Definition encodeScalarBits (t : ValueType) (logicalBits : Z) (bigEndian : bool)
    (c : ValueCodec) : option bytes :=
  let w := scalarWidth t in
  if w <=? 0 then None else
  let raw := if active c && isIntegerScalar t then encode c logicalBits w else logicalBits in
  let out := le_bytes (Z.to_nat w) raw in
  Some (if bigEndian && (1 <? w) then reverse out else out).

(** ** Text of an integer scalar *)

Definition clampWidth (width : Z) : Z :=
  let width := if width <? 1 then 1 else width in if 8 <? width then 8 else width.

Definition formatIntegerScalar (v width : Z) (isSigned hex : bool) : bytes :=
  let width := clampWidth width in
  let u := Z.land v (maskFor width) in
  if hex then bs "0x" ++ to_digits 16 u
  else if isSigned then
    to_string (if width =? 1 then i8 u else if width =? 2 then i16 u
               else if width =? 4 then i32 u else i64 u)
  else to_digits 10 u.

Definition isBlank (c : Z) : bool := (c =? " "%chr) || (c =? 9).
(** Text without leading and trailing blanks. *)
Fixpoint dropBlanks (s : bytes) : bytes :=
  match s with c :: s' => if isBlank c then dropBlanks s' else s | [] => [] end.
Definition trimBlanks (s : bytes) : bytes := reverse (dropBlanks (reverse (dropBlanks s))).

(** The digit loop: [None] on a foreign character or when [val * base + d]
    would exceed 64 bits. *)
Fixpoint parseDigits (base val : Z) (s : bytes) : option Z :=
  match s with
  | [] => Some val
  | c :: s' =>
      d ← (if between "0"%chr c "9"%chr then Some (c - "0"%chr)
           else if between "a"%chr c "f"%chr then Some (c - "a"%chr + 10)
           else if between "A"%chr c "F"%chr then Some (c - "A"%chr + 10)
           else None);
      if base <=? d then None
      else if (UINT64_MAX - d) / base <? val then None
      else parseDigits base (val * base + d) s'
  end.

(** The optional sign, and the optional [0x] that always selects hexadecimal. *)
Definition takeSign (t : bytes) : bool * bytes :=
  match t with
  | c :: t' => if (c =? "-"%chr) || (c =? "+"%chr) then (c =? "-"%chr, t') else (false, t)
  | [] => (false, [])
  end.
Definition takeBase (hex : bool) (t : bytes) : Z * bytes :=
  match t with
  | z :: x :: t' => if (z =? "0"%chr) && ((x =? "x"%chr) || (x =? "X"%chr)) then (16, t')
                    else (if hex then 16 else 10, t)
  | _ => (if hex then 16 else 10, t)
  end.

(** [None] is [ok == false]. *)
Definition parseIntegerScalar (s : bytes) (hex : bool) : option Z :=
  let t := trimBlanks s in
  if bool_decide (t = []) then None else
  let '(neg, t1) := takeSign t in
  let '(base, t2) := takeBase hex t1 in
  if bool_decide (t2 = []) then None else
  val ← parseDigits base 0 t2;
  if neg && (2 ^ 63 <? val) then None
  else Some (i64 (if neg then u64 (0 - val) else val)).

(** ** Lemmas on masks and rotations *)

Lemma maskFor_ones n : 1 ≤ n ≤ 8 → maskFor n = Z.ones (n * 8).
Proof.
  intros Hn. assert (n = 1 ∨ n = 2 ∨ n = 3 ∨ n = 4 ∨ n = 5 ∨ n = 6 ∨ n = 7 ∨ n = 8) as Hc by lia.
  by repeat destruct Hc as [->|Hc]; subst.
Qed.

Lemma land_maskFor v n : 1 ≤ n ≤ 8 → Z.land v (maskFor n) = wrap (n * 8) v.
Proof. intros. by rewrite maskFor_ones, Z.land_ones by lia. Qed.

Lemma testbit_rotl v k n i : 1 ≤ n ≤ 8 → 0 ≤ i →
  Z.testbit (rotl v k n) i =
  (i <? n * 8) && Z.testbit v (if k mod (n * 8) <=? i then i - k mod (n * 8)
                              else i - k mod (n * 8) + n * 8).
Proof.
  intros Hn Hi. unfold rotl. rewrite !land_maskFor by done.
  pose proof (Z.mod_pos_bound k (n * 8) ltac:(lia)). set (q := k mod (n * 8)) in *.
  destruct (Z.eqb_spec q 0) as [->|Hq].
  { rewrite testbit_wrap by lia. rewrite (proj2 (Z.leb_le 0 i)) by lia. by rewrite Z.sub_0_r. }
  rewrite testbit_wrap, Z.lor_spec, testbit_wrap, Z.shiftl_spec, Z.shiftr_spec by lia.
  destruct (Z.ltb_spec i (n * 8)) as [Hlt|]; [|done]. cbn [andb].
  rewrite (proj2 (Z.ltb_lt i 64)) by lia. cbn [andb].
  destruct (Z.leb_spec q i).
  - rewrite !testbit_wrap, (proj2 (Z.ltb_lt (i - q) _)) by lia. cbn [andb].
    rewrite (proj2 (Z.ltb_ge (i + (n * 8 - q)) _)) by lia. cbn [andb]. apply orb_false_r.
  - rewrite (Z.testbit_neg_r _ (i - q)), testbit_wrap by lia. cbn [orb].
    rewrite (proj2 (Z.ltb_lt _ _)) by lia. cbn [andb]. f_equal. lia.
Qed.

Lemma testbit_rotr v k n i : 1 ≤ n ≤ 8 → 0 ≤ i →
  Z.testbit (rotr v k n) i =
  (i <? n * 8) && Z.testbit v (if i + k mod (n * 8) <? n * 8 then i + k mod (n * 8)
                              else i + k mod (n * 8) - n * 8).
Proof.
  intros Hn Hi. unfold rotr. rewrite !land_maskFor by done.
  pose proof (Z.mod_pos_bound k (n * 8) ltac:(lia)). set (q := k mod (n * 8)) in *.
  destruct (Z.eqb_spec q 0) as [->|Hq].
  { rewrite testbit_wrap, Z.add_0_r by lia. by destruct (i <? n * 8). }
  rewrite testbit_wrap, Z.lor_spec, testbit_wrap, Z.shiftl_spec, Z.shiftr_spec by lia.
  destruct (Z.ltb_spec i (n * 8)) as [Hlt|]; [|done]. cbn [andb].
  rewrite (proj2 (Z.ltb_lt i 64)) by lia. cbn [andb]. rewrite testbit_wrap by lia.
  destruct (Z.ltb_spec (i + q) (n * 8)).
  - rewrite (Z.testbit_neg_r _ (i - (n * 8 - q))) by lia. cbn [andb]. apply orb_false_r.
  - cbn [andb orb]. rewrite testbit_wrap by lia.
    rewrite (proj2 (Z.ltb_lt _ _)) by lia. cbn [andb]. f_equal. lia.
Qed.

Lemma rotr_rotl v k n : 1 ≤ n ≤ 8 → rotr (rotl v k n) k n = wrap (n * 8) v.
Proof.
  intros Hn. bits i. rewrite testbit_rotr, testbit_wrap by lia.
  destruct (Z.ltb_spec i (n * 8)); [|done]. cbn [andb].
  pose proof (Z.mod_pos_bound k (n * 8) ltac:(lia)).
  destruct (Z.ltb_spec (i + k mod (n * 8)) (n * 8)); rewrite testbit_rotl by lia;
    rewrite (proj2 (Z.ltb_lt _ _)) by lia; cbn [andb].
  - rewrite (proj2 (Z.leb_le _ _)) by lia. f_equal. lia.
  - rewrite (proj2 (Z.leb_gt _ _)) by lia. f_equal. lia.
Qed.

Lemma rotl_rotr v k n : 1 ≤ n ≤ 8 → rotl (rotr v k n) k n = wrap (n * 8) v.
Proof.
  intros Hn. bits i. rewrite testbit_rotl, testbit_wrap by lia.
  destruct (Z.ltb_spec i (n * 8)); [|done]. cbn [andb].
  pose proof (Z.mod_pos_bound k (n * 8) ltac:(lia)).
  destruct (Z.leb_spec (k mod (n * 8)) i); rewrite testbit_rotr by lia;
    rewrite (proj2 (Z.ltb_lt _ (n * 8))) by lia; cbn [andb].
  - rewrite (proj2 (Z.ltb_lt _ _)) by lia. f_equal. lia.
  - rewrite (proj2 (Z.ltb_ge _ _)) by lia. f_equal. lia.
Qed.

(** Reducing modulo [2^w] commutes with reducing modulo [2^64] first. *)
Lemma wrap_u64 w z : 0 ≤ w ≤ 64 → wrap w (u64 z) = wrap w z.
Proof.
  intros. unfold wrap. symmetry. apply Znumtheory.Zmod_div_mod; [lia|lia|].
  exists (2 ^ (64 - w)). rewrite <- Z.pow_add_r by lia. f_equal. lia.
Qed.

Lemma rotl_bound v k n : 1 ≤ n ≤ 8 → in_width (n * 8) (rotl v k n).
Proof. intros. unfold rotl. rewrite !land_maskFor by done. case_match; apply wrap_bound; lia. Qed.

Lemma rotr_bound v k n : 1 ≤ n ≤ 8 → in_width (n * 8) (rotr v k n).
Proof. intros. unfold rotr. rewrite !land_maskFor by done. case_match; apply wrap_bound; lia. Qed.

Lemma encode_bound c v n : 1 ≤ n ≤ 8 → in_width (n * 8) (encode c v n).
Proof.
  intros Hn. unfold encode. destruct (op c); rewrite ?land_maskFor by done;
    (apply wrap_bound || apply rotl_bound || apply rotr_bound); lia.
Qed.

(** The class of encodings with a left inverse on the values of a width: what the
    table promises of a codec, and what the scalar transform relies on. *)
Class Reversible (w : Z) (f g : Z → Z) := {
  rev_range : ∀ v, in_width w (f v);
  rev_inverse : ∀ v, g (f v) = wrap w v;
}.

#[export] Instance codec_reversible c n :
  TCEq (bool_decide (1 ≤ n ≤ 8)) true → Reversible (n * 8) (λ v, encode c v n) (λ v, decode c v n).
Proof.
  intros Hn%TCEq_eq%bool_decide_eq_true. split; intros v; [by apply encode_bound|].
  unfold decode, encode. destruct (op c).
  - by rewrite !land_maskFor, !wrap_idem by lia.
  - rewrite !land_maskFor by lia. bits i. rewrite !testbit_wrap, !Z.lxor_spec, !testbit_wrap by lia.
    rewrite Z.lxor_spec, !testbit_wrap by lia.
    destruct (i <? n * 8), (Z.testbit v i), (Z.testbit (key c) i); done.
  - rewrite !land_maskFor, !wrap_u64, wrap_idem, wrap_sub_idem_l by lia.
    rewrite <- (wrap_sub_idem_l (n * 8) (wrap (n * 8) v + key c)).
    rewrite wrap_add_idem_l, wrap_sub_idem_l. f_equal. lia.
  - rewrite !land_maskFor, (wrap_small _ (rotl _ _ _)), rotr_rotl by (lia || by apply rotl_bound).
    apply wrap_idem. lia.
  - rewrite !land_maskFor, (wrap_small _ (rotr _ _ _)), rotl_rotr by (lia || by apply rotr_bound).
    apply wrap_idem. lia.
Qed.

(** ** Lemmas on texts *)

(** The digit loop accepts what [scan_digits] reads entirely, when it fits 64 bits. *)
Lemma parseDigits_scan base val s r :
  (base = 10 ∨ base = 16) → 0 ≤ val → scan_digits base val s = (r, []) → r ≤ UINT64_MAX →
  parseDigits base val s = Some r.
Proof.
  intros Hb. revert val. induction s as [|c s IH]; intros val Hv Hs Hr; simpl in *; [congruence|].
  destruct (base_digit base c) as [d|] eqn:Hd; [|done].
  assert (0 ≤ d < base ∧
    (if between "0"%chr c "9"%chr then Some (c - "0"%chr)
     else if between "a"%chr c "f"%chr then Some (c - "a"%chr + 10)
     else if between "A"%chr c "F"%chr then Some (c - "A"%chr + 10) else None) = Some d) as [Hd' ->].
  { unfold base_digit, digit_val, isdigit in Hd. unfold between in *.
    repeat case_match; bool_to_prop; simplify_eq; split; try done; try lia; try (f_equal; lia);
      repeat match goal with H : _ && _ = false |- _ => apply andb_false_iff in H as [?|?] end;
      bool_to_prop; lia. }
  simpl. pose proof (scan_digits_ge base (val * base + d) s ltac:(lia) ltac:(nia)) as Hge.
  rewrite Hs in Hge. simpl in Hge.
  rewrite (proj2 (Z.leb_gt base d)) by lia.
  rewrite (proj2 (Z.ltb_ge _ _)); [apply IH; [nia|done|done]|].
  apply Z.div_le_lower_bound; [lia|]. nia.
Qed.

Lemma trimBlanks_id s : Forall (λ c, isBlank c = false) s → trimBlanks s = s.
Proof.
  assert (∀ s, Forall (λ c, isBlank c = false) s → dropBlanks s = s) as Hd.
  { destruct 1 as [|c s' Hc Hs]; simpl; [done|]. by rewrite Hc. }
  intros Hs. unfold trimBlanks. rewrite (Hd s Hs), Hd, reverse_involutive; [done|].
  by rewrite reverse_Permutation.
Qed.

Lemma digit_char_not_blank d : 0 ≤ d < 36 → isBlank (digit_char d) = false.
Proof.
  intros Hd. pose proof (digit_char_range d Hd). unfold isBlank.
  rewrite orb_false_iff, !Z.eqb_neq. lia.
Qed.

Lemma to_digits_not_blank base n :
  2 ≤ base ≤ 36 → 0 ≤ n → Forall (λ c, isBlank c = false) (to_digits base n).
Proof.
  intros. eapply Forall_impl; [by apply to_digits_valid|].
  intros c (d & Hd & ->). apply digit_char_not_blank. lia.
Qed.

Lemma digit_char_not_x d : 0 ≤ d < 16 →
  (digit_char d =? "x"%chr) = false ∧ (digit_char d =? "X"%chr) = false.
Proof. intros. unfold digit_char. rewrite !Z.eqb_neq. case_match; bool_to_prop; lia. Qed.

(** The digit loop reads back a printed number. *)
Lemma parseDigits_to_digits base n :
  (base = 10 ∨ base = 16) → 0 ≤ n ≤ UINT64_MAX → parseDigits base 0 (to_digits base n) = Some n.
Proof.
  intros Hb Hn. apply parseDigits_scan; [done|lia| |lia].
  rewrite <- (app_nil_r (to_digits base n)). apply scan_to_digits; [lia|lia|done].
Qed.

Lemma to_digits_nonempty base n : 2 ≤ base ≤ 36 → 0 ≤ n → to_digits base n ≠ [].
Proof. intros Hb Hn. destruct (to_digits_cons base n Hb Hn) as (c & s & -> & _). done. Qed.

Lemma takeSign_digits base n :
  2 ≤ base ≤ 36 → 0 ≤ n → takeSign (to_digits base n) = (false, to_digits base n).
Proof.
  intros Hb Hn. destruct (to_digits_cons base n Hb Hn) as (c & s & -> & d & Hd & ->).
  destruct (digit_char_plain d) as (_ & Hm & Hp); [lia|]. unfold takeSign. by rewrite Hm, Hp.
Qed.

Lemma takeBase_digits hex base n :
  2 ≤ base ≤ 16 → 0 ≤ n →
  takeBase hex (to_digits base n) = (if hex then 16 else 10, to_digits base n).
Proof.
  intros Hb Hn. pose proof (to_digits_valid base n ltac:(lia) Hn) as Hv.
  destruct (to_digits base n) as [|c [|c2 s]]; [done..|].
  inversion Hv as [|?? _ Hv2]; subst. inversion Hv2 as [|?? (d2 & Hd2 & ->) _]; subst.
  unfold takeBase. destruct (digit_char_not_x d2) as [-> ->]; [lia|]. by rewrite andb_false_r.
Qed.

(** The side conditions of the lemmas above. *)
Ltac digits_side :=
  solve [lia | done | lia_w | apply to_digits_nonempty; lia | apply to_digits_not_blank; lia].

(** What the integer parser makes of a printed number, alone, behind [0x] and
    behind a minus sign. *)
Lemma parse_plain_digits n :
  0 ≤ n ≤ UINT64_MAX → parseIntegerScalar (to_digits 10 n) false = Some (i64 n).
Proof.
  intros Hn. unfold parseIntegerScalar.
  rewrite trimBlanks_id by (apply to_digits_not_blank; lia).
  rewrite takeSign_digits, takeBase_digits, bool_decide_eq_false_2 by digits_side.
  rewrite parseDigits_to_digits by digits_side.
  done.
Qed.

Lemma parse_hex_digits n hex :
  0 ≤ n ≤ UINT64_MAX → parseIntegerScalar (bs "0x" ++ to_digits 16 n) hex = Some (i64 n).
Proof.
  intros Hn. unfold parseIntegerScalar.
  rewrite trimBlanks_id by (apply Forall_app; split; [by repeat constructor|apply to_digits_not_blank; lia]).
  change (takeSign _) with (false, bs "0x" ++ to_digits 16 n). cbn beta iota.
  change (takeBase _ _) with (16, to_digits 16 n). cbn beta iota.
  rewrite !bool_decide_eq_false_2, parseDigits_to_digits by digits_side.
  done.
Qed.

Lemma i64_neg n : 0 ≤ n ≤ 2 ^ 63 → i64 (u64 (0 - n)) = - n.
Proof.
  intros Hn. destruct (decide (n = 2 ^ 63)) as [->|]; [done|].
  transitivity (i64 (- n)); [unfold to_signed; by rewrite wrap_idem by lia|].
  apply to_signed_small; lia_w.
Qed.

Lemma parse_negative_digits n :
  0 < n ≤ 2 ^ 63 → parseIntegerScalar ("-"%chr :: to_digits 10 n) false = Some (- n).
Proof.
  intros Hn. unfold parseIntegerScalar.
  rewrite trimBlanks_id by (constructor; [done|]; apply to_digits_not_blank; lia).
  change (takeSign _) with (true, to_digits 10 n). cbn beta iota.
  rewrite takeBase_digits, !bool_decide_eq_false_2, parseDigits_to_digits
    by digits_side.
  cbn [mbind option_bind]. rewrite (proj2 (Z.ltb_ge _ _)) by lia.
  cbn [andb]. by rewrite i64_neg by lia.
Qed.

(** ** Properties *)

(** The inverse law of [Reversible], for any encoding that has it. *)
Lemma reversible_inj {w f g} `{Reversible w f g} a b :
  in_width w a → in_width w b → f a = f b → a = b.
Proof. intros Ha Hb He. rewrite <- (wrap_small w a Ha), <- (wrap_small w b Hb), <- !rev_inverse. congruence. Qed.

Lemma decode_encode c v n : 1 ≤ n ≤ 8 → decode c (encode c v n) n = wrap (n * 8) v.
Proof.
  intros Hn. assert (TCEq (bool_decide (1 ≤ n ≤ 8)) true) by (rewrite bool_decide_eq_true_2; [done|lia]).
  apply (rev_inverse (Reversible := codec_reversible c n _)).
Qed.

(** Codecs are reversible at every width: for each operation, key and logical
    value, decoding what [encode] stores gives the logical value back modulo the
    width of the field, the stored value fits the field (nothing is smeared into
    neighbouring bytes), and distinct values of the field are stored differently. *)
Theorem codec_roundtrip c v v' n :
  1 ≤ n ≤ 8 →
  decode c (encode c v n) n = wrap (n * 8) v ∧
  in_width (n * 8) (encode c v n) ∧
  (in_width (n * 8) v → in_width (n * 8) v' → encode c v n = encode c v' n → v = v').
Proof.
  intros Hn. split; [by apply decode_encode|]. split; [by apply encode_bound|].
  assert (TCEq (bool_decide (1 ≤ n ≤ 8)) true) by (rewrite bool_decide_eq_true_2; [done|lia]).
  apply (reversible_inj (H := codec_reversible c n _)).
Qed.

Lemma codec_roundtrip_witness :
  decode (mkCodec OpRol 13) (encode (mkCodec OpRol 13) 40000 2) 2 = wrap (2 * 8) 40000.
Proof. exact (proj1 (codec_roundtrip (mkCodec OpRol 13) 40000 0 2 ltac:(lia))). Defined.

Lemma scalarWidth_range t : scalarWidth t <= 0 ∨ 1 ≤ scalarWidth t ≤ 8.
Proof. destruct t; simpl; lia. Qed.

Lemma encodeScalarBits_length t v be c out :
  encodeScalarBits t v be c = Some out → len out = scalarWidth t ∧ bytes_ok out.
Proof.
  unfold encodeScalarBits. case_match; [done|]. bool_to_prop. intros [= <-].
  case_match; rewrite ?len_reverse; (split; [unfold len; rewrite length_le_bytes; lia|]);
    rewrite ?bytes_ok_reverse; apply le_bytes_ok.
Qed.

(** Writing a scalar and reading it back gives the same logical value: for
    every fixed-width type, byte order and codec, the bytes [encodeScalarBits]
    produces are exactly as many as the type is wide and [decodeScalarBits] reads
    the logical value (modulo the width) from them, whatever follows in memory. *)
Theorem scalar_roundtrip t v be c rest :
  0 < scalarWidth t →
  ∃ out, encodeScalarBits t v be c = Some out ∧ len out = scalarWidth t ∧ bytes_ok out ∧
         decodeScalarBits t (out ++ rest) be c = Ret (wrap (scalarWidth t * 8) v).
Proof.
  intros Ht. pose proof (scalarWidth_range t).
  assert (∃ out, encodeScalarBits t v be c = Some out) as [out Hout].
  { unfold encodeScalarBits. rewrite (proj2 (Z.leb_gt _ _)) by lia. eauto. }
  destruct (encodeScalarBits_length _ _ _ _ _ Hout) as [Hl Hok].
  exists out. repeat (split; [done|]).
  unfold decodeScalarBits. rewrite (proj2 (Z.leb_gt _ _)) by lia.
  destruct (subspan_defined (out ++ rest) 0 (scalarWidth t)) as [-> _];
    [lia|lia|rewrite len_app; pose proof (len_nonneg rest); lia|]. cbn [obind].
  assert (slice (out ++ rest) 0 (scalarWidth t) = out) as ->.
  { unfold slice. rewrite drop_0. apply take_app_length'. unfold len in Hl. lia. }
  unfold encodeScalarBits in Hout. rewrite (proj2 (Z.leb_gt _ _)) in Hout by lia.
  simplify_eq. f_equal. set (w := scalarWidth t) in *.
  assert (256 ^ Z.of_nat (Z.to_nat w) = 2 ^ (w * 8)) as Hp.
  { change 256 with (2 ^ 8). rewrite <- Z.pow_mul_r by lia. f_equal. lia. }
  match goal with |- context [le_bytes _ ?r] => set (raw := r) end.
  assert (le_val (if be && (1 <? w) then reverse (if be && (1 <? w) then reverse (le_bytes (Z.to_nat w) raw)
            else le_bytes (Z.to_nat w) raw) else (if be && (1 <? w) then reverse (le_bytes (Z.to_nat w) raw)
            else le_bytes (Z.to_nat w) raw)) = wrap (w * 8) raw) as ->.
  { unfold wrap. rewrite <- Hp, <- le_val_le_bytes.
    destruct (be && _); by rewrite ?reverse_involutive. }
  subst raw. destruct (active c && isIntegerScalar t); [|done].
  assert (1 ≤ w ≤ 8) by lia.
  rewrite (wrap_small (w * 8)) by (by apply encode_bound). by apply decode_encode.
Qed.

Lemma scalar_roundtrip_witness :
  ∃ out, encodeScalarBits VInt32 1000 true (mkCodec OpXor 0xdeadbeef) = Some out ∧
         len out = scalarWidth VInt32 ∧ bytes_ok out ∧
         decodeScalarBits VInt32 (out ++ [7]) true (mkCodec OpXor 0xdeadbeef)
           = Ret (wrap (scalarWidth VInt32 * 8) 1000).
Proof. apply scalar_roundtrip. reflexivity. Defined.

(** The textual form of a codec is faithful: what [describe] prints for an
    active codec with a 64-bit key, [parse] reads back as the same codec; and an
    inactive codec, which has no textual form, is refused. *)
Theorem parse_describe c :
  is_u64 (key c) → parse (describe c) = (if active c then Some c else None).
Proof.
  destruct c as [o k]. unfold describe. simpl. intros Hk.
  assert (0 ≤ k ≤ UINT64_MAX) by lia_w.
  destruct o; unfold parse; [done|..].
  - change (splitColon _) with (Some (bs "xor", bs "0x" ++ to_digits 16 k)). cbn beta iota.
    by rewrite bool_decide_eq_false_2, strtoull_base0_hex.
  - change (splitColon _) with (Some (bs "add", to_digits 10 k)). cbn beta iota.
    by rewrite bool_decide_eq_false_2, strtoull_base0_dec by digits_side.
  - change (splitColon _) with (Some (bs "rol", to_digits 10 k)). cbn beta iota.
    by rewrite bool_decide_eq_false_2, strtoull_base0_dec by digits_side.
  - change (splitColon _) with (Some (bs "ror", to_digits 10 k)). cbn beta iota.
    by rewrite bool_decide_eq_false_2, strtoull_base0_dec by digits_side.
Qed.

Lemma parse_describe_witness :
  parse (describe (mkCodec OpXor 0xff00)) = Some (mkCodec OpXor 0xff00).
Proof. apply (parse_describe (mkCodec OpXor 0xff00)). split; [discriminate|reflexivity]. Defined.

Lemma clampWidth_range w : 1 ≤ clampWidth w ≤ 8.
Proof. unfold clampWidth. destruct (Z.ltb_spec w 1); [done|]. destruct (Z.ltb_spec 8 w); lia. Qed.

(** The signed reading of [u] at one of the four integer widths. *)
Lemma to_string_parse n :
  - 2 ^ 63 ≤ n < 2 ^ 63 → parseIntegerScalar (to_string n) false = Some n.
Proof.
  intros Hn. unfold to_string. destruct (Z.ltb_spec n 0).
  - rewrite parse_negative_digits by lia. f_equal. lia.
  - rewrite parse_plain_digits by lia_w. f_equal. apply to_signed_small; lia.
Qed.

(** What the cheat table shows for an integer can be typed back: for every
    bit pattern, width and display mode, parsing the formatted text in the same
    mode succeeds and gives an integer with the same low [8 * width] bits. *)
Theorem format_parse_integer v width isSigned hex :
  ∃ x, parseIntegerScalar (formatIntegerScalar v width isSigned hex) hex = Some x ∧
       wrap (clampWidth width * 8) x = wrap (clampWidth width * 8) v.
Proof.
  pose proof (clampWidth_range width) as Hw. unfold formatIntegerScalar.
  set (w := clampWidth width) in *. rewrite land_maskFor by done.
  pose proof (wrap_bound (w * 8) v ltac:(lia)) as Hu. set (u := wrap (w * 8) v) in *.
  assert (2 ^ (w * 8) ≤ 2 ^ 64) by (apply Z.pow_le_mono_r; lia).
  assert (wrap (w * 8) u = u) as Hid by by apply wrap_small.
  assert (∀ n, w * 8 ≤ n → wrap (w * 8) (to_signed n u) = u) as Hs.
  { intros n Hn. rewrite <- (Z.min_l (w * 8) n) at 1 by lia.
    transitivity (wrap (w * 8) (wrap n (to_signed n u))).
    - unfold wrap. rewrite Z.min_l by lia. apply Znumtheory.Zmod_div_mod; [lia|lia|].
      exists (2 ^ (n - w * 8)). rewrite <- Z.pow_add_r by lia. f_equal. lia.
    - rewrite wrap_to_signed by lia. unfold in_width in Hu.
      rewrite (wrap_small n u); [done|]. split; [lia|].
      assert (2 ^ (w * 8) ≤ 2 ^ n) by (apply Z.pow_le_mono_r; lia). lia. }
  unfold in_width in Hu. destruct hex; [|destruct isSigned].
  - exists (i64 u). rewrite parse_hex_digits by lia_w. split; [done|]. apply Hs. lia.
  - assert (∀ n, 0 < n ≤ 64 → - 2 ^ 63 ≤ to_signed n u < 2 ^ 63) as Hr.
    { intros n Hn. pose proof (to_signed_bound n u ltac:(lia)).
      assert (2 ^ (n - 1) ≤ 2 ^ 63) by (apply Z.pow_le_mono_r; lia). lia. }
    eexists. split; [apply to_string_parse; repeat case_match; apply Hr; lia|].
    destruct (Z.eqb_spec w 1); [apply Hs; lia|]. destruct (Z.eqb_spec w 2); [apply Hs; lia|].
    destruct (Z.eqb_spec w 4); apply Hs; lia.
  - exists (i64 u). rewrite parse_plain_digits by lia_w. split; [done|]. apply Hs. lia.
Qed.
