(* ===== verification/Loops.v ===== *)
(** * Counted loops

    The [for (i = start; cond; i += step)] loops of the scanners, as a fuelled
    interpreter of the loop with 64-bit wrap-around of the counter, and the lemmas
    that replace such a loop by the list of the indices it visits. *)

From S2P Require Import Prelude.

Section Loop.
Context {A : Type}.

(** [for (; i < limit; i += step) body(i)], collecting what the bodies emit and
    the counter after the loop.  [limit] steps are enough when [step >= 1]; a
    loop that exhausts its fuel is [Undefined], so a [Ret] is a real result. *)
Fixpoint forLoop (fuel : nat) (limit step : Z) (body : Z → outcome (list A)) (i : Z)
  : outcome (list A * Z) :=
  if i <? limit then
    match fuel with
    | O => Undefined
    | S fuel =>
        let* a := body i in
        let* (b, j) := forLoop fuel limit step body (u64 (i + step)) in
        Ret (a ++ b, j)
    end
  else Ret ([], i).

(** Enough fuel for a loop that starts at [i]. *)
Definition loopFuel (limit i : Z) : nat := Z.to_nat (limit - i).

(** The emitted list of such a loop. *)
Definition forEach (limit step : Z) (body : Z → outcome (list A)) (i : Z) : outcome (list A) :=
  let* (out, _) := forLoop (loopFuel limit i) limit step body i in Ret out.
End Loop.

(** The indices such a loop visits. *)
Definition stride (i limit step : Z) : list Z :=
  filter (λ j, (j - i) mod step = 0) (seqZ i (limit - i)).

(** Where the counter ends. *)
Definition strideEnd (i limit step : Z) : Z :=
  if i <? limit then i + step * ((limit - i + step - 1) / step) else i.

Lemma elem_of_stride j i limit step :
  j ∈ stride i limit step ↔ i ≤ j < limit ∧ (j - i) mod step = 0.
Proof. unfold stride. rewrite list_elem_of_filter, elem_of_seqZ. lia. Qed.

Lemma stride_nil i limit step : limit ≤ i → stride i limit step = [].
Proof. intros. unfold stride. by rewrite seqZ_nil by lia. Qed.

Lemma filter_all {A} (P : A → Prop) `{!∀ x, Decision (P x)} (l : list A) : (∀ x, x ∈ l → P x) → filter P l = l.
Proof. induction l as [|x l IH]; intros Hl; [done|]. rewrite filter_cons_True by (apply Hl; by left). f_equal. apply IH. intros y Hy. apply Hl. by right. Qed.
Lemma filter_none {A} (P : A → Prop) `{!∀ x, Decision (P x)} l :
  Forall (λ x, ¬ P x) l → filter P l = [].
Proof. induction 1; [done|]. by rewrite filter_cons_False. Qed.

Lemma stride_cons i limit step :
  1 ≤ step → i < limit → stride i limit step = i :: stride (i + step) limit step.
Proof.
  intros Hs Hi. unfold stride. rewrite seqZ_cons by lia.
  rewrite filter_cons_True by (rewrite Z.sub_diag; apply Z.mod_0_l; lia). f_equal.
  assert (∀ n, n ≤ step - 1 → filter (λ j, (j - i) mod step = 0) (seqZ (Z.succ i) n) = []) as Hnone.
  { intros n Hn. apply filter_none, Forall_forall. intros j Hj%elem_of_seqZ.
    rewrite Z.mod_small by lia. lia. }
  destruct (Z.le_gt_cases limit (i + step)).
  - rewrite Hnone by lia. by rewrite (seqZ_nil (i + step)) by lia.
  - replace (Z.pred (limit - i)) with ((step - 1) + (limit - (i + step))) by lia.
    rewrite seqZ_app by lia. rewrite filter_app, Hnone by lia.
    replace (Z.succ i + (step - 1)) with (i + step) by lia.
    apply list_filter_iff. intros j.
    replace (j - i) with (j - (i + step) + 1 * step) by lia. by rewrite Z.mod_add by lia.
Qed.

Lemma strideEnd_step i limit step :
  1 ≤ step → i < limit → strideEnd i limit step = strideEnd (i + step) limit step.
Proof.
  intros Hs Hi. unfold strideEnd. rewrite (proj2 (Z.ltb_lt i limit)) by lia.
  destruct (Z.ltb_spec (i + step) limit).
  - replace (limit - i + step - 1) with (limit - (i + step) + step - 1 + 1 * step) by lia.
    rewrite Z.div_add by lia. lia.
  - replace ((limit - i + step - 1) / step) with 1; [lia|].
    apply Z.div_unique with (limit - i - 1); lia.
Qed.

(** A loop whose bodies all return is the concatenation of what they emit. *)
Lemma forLoop_spec {A} fuel limit step (body : Z → outcome (list A)) f i :
  1 ≤ step → 0 ≤ i → (i < limit → limit + step ≤ 2 ^ 64) → limit - i ≤ Z.of_nat fuel →
  (∀ j, j ∈ stride i limit step → body j = Ret (f j)) →
  forLoop fuel limit step body i = Ret (mjoin (f <$> stride i limit step), strideEnd i limit step).
Proof.
  intros Hs. revert i. induction fuel as [|fuel IH]; intros i Hi Hw Hf Hb.
  - simpl. rewrite (proj2 (Z.ltb_ge _ _)) by lia. rewrite stride_nil by lia.
    unfold strideEnd. by rewrite (proj2 (Z.ltb_ge _ _)) by lia.
  - simpl. destruct (Z.ltb_spec i limit) as [Hlt|].
    + rewrite stride_cons in Hb |- * by lia. rewrite Hb by (rewrite elem_of_cons; auto).
      specialize (Hw Hlt). cbn [obind]. rewrite wrap_small by (unfold in_width; lia).
      rewrite IH; [|lia|lia|lia|].
      * cbn [obind]. rewrite (strideEnd_step i) by lia. done.
      * intros j Hj. apply Hb. rewrite elem_of_cons; auto.
    + rewrite stride_nil by lia. unfold strideEnd. by rewrite (proj2 (Z.ltb_ge _ _)) by lia.
Qed.

Lemma forEach_spec {A} limit step (body : Z → outcome (list A)) f i :
  1 ≤ step → 0 ≤ i → (i < limit → limit + step ≤ 2 ^ 64) →
  (∀ j, j ∈ stride i limit step → body j = Ret (f j)) →
  forEach limit step body i = Ret (mjoin (f <$> stride i limit step)).
Proof.
  intros. unfold forEach, loopFuel. by rewrite (forLoop_spec _ _ _ _ f) by (done || lia).
Qed.

(** A step of one visits every index. *)
Lemma stride_1 i limit : stride i limit 1 = seqZ i (limit - i).
Proof.
  unfold stride. induction (seqZ i (limit - i)) as [|j l IH]; [done|].
  rewrite filter_cons_True by apply Z.mod_1_r. by rewrite IH.
Qed.

(** Splitting a unit-step range. *)
Lemma seqZ_split i k n : i ≤ k ≤ n → seqZ i (n - i) = seqZ i (k - i) ++ seqZ k (n - k).
Proof.
  intros. replace (n - i) with ((k - i) + (n - k)) by lia.
  rewrite seqZ_app by lia. do 2 f_equal. lia.
Qed.

Lemma mjoin_omap {A B} (f : A → option B) l :
  mjoin ((λ x, option_list (f x)) <$> l) = omap f l.
Proof.
  induction l as [|x l IH]; [done|].
  change (option_list (f x) ++ mjoin ((λ x, option_list (f x)) <$> l) = omap f (x :: l)).
  rewrite IH. simpl. by destruct (f x).
Qed.

Lemma omap_fmap {A B C} (g : A → B) (f : B → option C) (l : list A) :
  omap f (g <$> l) = omap (f ∘ g) l.
Proof. induction l as [|x l IH]; [done|]. cbn. by rewrite <- IH. Qed.

Lemma omap_ext_in {A B} (f g : A → option B) (l : list A) :
  (∀ x, x ∈ l → f x = g x) → omap f l = omap g l.
Proof.
  induction l as [|x l IH]; intros Hfg; [done|]. cbn.
  rewrite (Hfg x) by (rewrite elem_of_cons; auto).
  assert (omap f l = omap g l) as Hl.
  { apply IH. intros y Hy. apply Hfg. rewrite elem_of_cons; auto. }
  cbn in Hl. by rewrite Hl.
Qed.

Lemma omap_mjoin {A B} (f : A → option B) (ll : list (list A)) :
  omap f (mjoin ll) = mjoin (omap f <$> ll).
Proof. induction ll as [|l ll IH]; [done|]. etransitivity; [apply (omap_app f l)|exact (f_equal (app (omap f l)) IH)]. Qed.

Lemma mjoin_fmap_cons {A B} (f : A → list B) x l : mjoin (f <$> x :: l) = f x ++ mjoin (f <$> l).
Proof. done. Qed.

Lemma elem_of_mjoin_fmap {A B} (f : A → list B) l y : y ∈ mjoin (f <$> l) ↔ ∃ x, x ∈ l ∧ y ∈ f x.
Proof. rewrite list_elem_of_join. setoid_rewrite list_elem_of_fmap. naive_solver. Qed.

Lemma elem_of_mjoin_mjoin {A B C} (f : B → list C) (g : A → list B) l y :
  y ∈ mjoin (f <$> mjoin (g <$> l)) ↔ ∃ x, x ∈ l ∧ y ∈ mjoin (f <$> g x).
Proof.
  rewrite elem_of_mjoin_fmap. setoid_rewrite elem_of_mjoin_fmap. split.
  - intros (b & (x & Hx & Hb) & Hy). eauto.
  - intros (x & Hx & b & Hb & Hy). eauto.
Qed.

Lemma mjoin_nil_all {A B} (f : A → list B) l : Forall (λ x, f x = []) l → mjoin (f <$> l) = [].
Proof. induction 1 as [|x l Hx _ IH]; [done|]. by rewrite mjoin_fmap_cons, Hx, IH. Qed.

Lemma mjoin_mjoin {A B} (f : A → list B) (g : Z → list A) l :
  mjoin (f <$> mjoin (g <$> l)) = mjoin ((λ x, mjoin (f <$> g x)) <$> l).
Proof.
  induction l as [|x l IH]; [done|]. cbn [fmap list_fmap mjoin list_join].
  rewrite fmap_app, join_app. f_equal. apply IH.
Qed.

Lemma mjoin_fmap_ext {A B} (f g : A → list B) l :
  (∀ x, x ∈ l → f x = g x) → mjoin (f <$> l) = mjoin (g <$> l).
Proof. intros Hfg. f_equal. apply list_fmap_ext. intros i x Hx. apply Hfg. by eapply list_elem_of_lookup_2. Qed.

Lemma mjoin_fmap_app {A B} (f : A → list B) l k :
  mjoin (f <$> l ++ k) = mjoin (f <$> l) ++ mjoin (f <$> k).
Proof. by rewrite fmap_app, join_app. Qed.

(** Induction that follows a strided loop. *)
Lemma stride_ind (P : Z → Prop) limit step :
  1 ≤ step → (∀ i, limit ≤ i → P i) → (∀ i, i < limit → P (i + step) → P i) → ∀ i, P i.
Proof.
  intros Hs Hn Hc i. remember (Z.to_nat (limit - i)) as k eqn:Hk.
  revert i Hk. induction (lt_wf k) as [k _ IH]. intros i ->.
  destruct (Z.le_gt_cases limit i); [by apply Hn|]. apply Hc; [done|].
  eapply IH; [|reflexivity]. lia.
Qed.

(** Whole blocks of [W] indices cover the range up to the end of the loop. *)
Lemma stride_blocks limit W i :
  1 ≤ W → mjoin ((λ j, seqZ j W) <$> stride i limit W) = seqZ i (strideEnd i limit W - i).
Proof.
  intros HW. apply (stride_ind (λ i, mjoin ((λ j, seqZ j W) <$> stride i limit W)
    = seqZ i (strideEnd i limit W - i)) limit W); clear i; [done|..].
  - intros i Hi. rewrite stride_nil by lia. unfold strideEnd.
    rewrite (proj2 (Z.ltb_ge _ _)) by lia. by rewrite Z.sub_diag.
  - intros i Hi IH. rewrite stride_cons, strideEnd_step by lia.
    change (seqZ i W ++ mjoin ((λ j, seqZ j W) <$> stride (i + W) limit W)
      = seqZ i (strideEnd (i + W) limit W - i)). rewrite IH.
    assert (i + W ≤ strideEnd (i + W) limit W).
    { unfold strideEnd. destruct (Z.ltb_spec (i + W) limit); [|lia].
      assert (0 ≤ (limit - (i + W) + W - 1) / W) by (apply Z.div_pos; lia). nia. }
    replace (seqZ i W) with (seqZ i (i + W - i)) by (f_equal; lia).
    symmetry. apply seqZ_split. lia.
Qed.

Lemma strideEnd_bounds i limit W :
  1 ≤ W → i ≤ limit + W - 1 → limit ≤ strideEnd i limit W ≤ limit + W - 1 ∨ strideEnd i limit W = i.
Proof.
  intros HW Hi. unfold strideEnd. destruct (Z.ltb_spec i limit); [|by right]. left.
  pose proof (Z.div_mod (limit - i + W - 1) W ltac:(lia)).
  pose proof (Z.mod_pos_bound (limit - i + W - 1) W ltac:(lia)). lia.
Qed.

(** The multiples of [L] below a limit, as lanes. *)
Lemma stride_lanes L n i :
  1 ≤ L → stride (i * L) (n * L) L = (λ k, k * L) <$> seqZ i (n - i).
Proof.
  intros HL. remember (Z.to_nat (n - i)) as k eqn:Hk. revert i Hk.
  induction k as [|k IH]; intros i Hk.
  - rewrite seqZ_nil, stride_nil by nia. done.
  - rewrite seqZ_cons, stride_cons by nia. cbn [fmap list_fmap]. f_equal.
    replace (i * L + L) with (Z.succ i * L) by lia. rewrite IH by lia.
    do 2 f_equal. lia.
Qed.

(** The limit of a strided loop may be rounded up to the next multiple. *)
Lemma stride_limit i l1 l2 step :
  (∀ j, i ≤ j → (j - i) mod step = 0 → (j < l1 ↔ j < l2)) →
  stride i l1 step = stride i l2 step.
Proof.
  intros Hiff. unfold stride.
  assert (∀ a b, a ≤ b → (∀ j, i ≤ j → (j - i) mod step = 0 → (j < a ↔ j < b)) →
    filter (λ j, (j - i) mod step = 0) (seqZ i (a - i)) = filter (λ j, (j - i) mod step = 0) (seqZ i (b - i))) as Hw.
  { intros a b Hab Hj. destruct (Z.le_gt_cases a i).
    - rewrite (seqZ_nil i (a - i)) by lia. symmetry. apply filter_none, Forall_forall.
      intros j Hin%elem_of_seqZ Hm. specialize (Hj j). lia.
    - rewrite (seqZ_split i a b) by lia. rewrite filter_app.
      rewrite (filter_none _ (seqZ a (b - a))); [by rewrite app_nil_r|].
      apply Forall_forall. intros j Hin%elem_of_seqZ Hm. specialize (Hj j). lia. }
  destruct (Z.le_ge_cases l1 l2); [by apply Hw|symmetry; apply Hw; [done|]; intros; symmetry; auto].
Qed.

(** ** Loops that stop at the first failure

    [for (i = start; ...; i += step) if (!test(i)) return false;  return true;] over
    [n] iterations. *)
Fixpoint allFrom (n : nat) (step : Z) (test : Z → outcome bool) (i : Z) : outcome bool :=
  match n with
  | O => Ret true
  | S n => let* b := test i in if b then allFrom n step test (i + step) else Ret false
  end.

(** The value of such a loop when every test returns. *)
Fixpoint allSeq (n : nat) (step : Z) (test : Z → bool) (i : Z) : bool :=
  match n with
  | O => true
  | S n => test i && allSeq n step test (i + step)
  end.

Lemma allFrom_ret n step test t i :
  (∀ k, 0 ≤ k < Z.of_nat n → test (i + step * k) = Ret (t (i + step * k))) →
  allFrom n step test i = Ret (allSeq n step t i).
Proof.
  revert i. induction n as [|n IH]; intros i Ht; [done|]. cbn [allFrom allSeq].
  pose proof (Ht 0 ltac:(lia)) as H0. rewrite Z.mul_0_r, Z.add_0_r in H0. rewrite H0. cbn [obind].
  destruct (t i); [|done]. apply IH. intros k Hk.
  replace (i + step + step * k) with (i + step * (k + 1)) by lia. apply Ht. lia.
Qed.

Lemma allSeq_true n step t i :
  allSeq n step t i = true ↔ ∀ k, 0 ≤ k < Z.of_nat n → t (i + step * k) = true.
Proof.
  revert i. induction n as [|n IH]; intros i; cbn [allSeq].
  { split; [lia|done]. }
  rewrite andb_true_iff, IH. split.
  - intros [H0 Hk] k ?. destruct (decide (k = 0)) as [->|]; [by rewrite Z.mul_0_r, Z.add_0_r|].
    specialize (Hk (k - 1) ltac:(lia)). by replace (i + step + step * (k - 1)) with (i + step * k) in Hk by lia.
  - intros Hk. split; [specialize (Hk 0 ltac:(lia)); by rewrite Z.mul_0_r, Z.add_0_r in Hk|].
    intros k ?. specialize (Hk (k + 1) ltac:(lia)). by replace (i + step + step * k) with (i + step * (k + 1)) by lia.
Qed.

Lemma allSeq_shift n step s t t' i :
  (∀ k, 0 ≤ k < Z.of_nat n → t (i + s + step * k) = t' (i + step * k)) →
  allSeq n step t (i + s) = allSeq n step t' i.
Proof.
  revert i. induction n as [|n IH]; intros i Ht; [done|]. cbn [allSeq]. f_equal.
  - specialize (Ht 0 ltac:(lia)). by rewrite Z.mul_0_r, !Z.add_0_r in Ht.
  - replace (i + s + step) with (i + step + s) by lia. apply IH. intros k Hk.
    specialize (Ht (k + 1) ltac:(lia)).
    by replace (i + step + s + step * k) with (i + s + step * (k + 1)) by lia;
       replace (i + step + step * k) with (i + step * (k + 1)) by lia.
Qed.
