(* ===== verification/Files.v ===== *)
(** * Binary files

    [fread] as the loaders use it: a file is what is left of its contents, and reading
    [n] bytes either takes them all or fails.  Shared by the snapshot, pointer-map and
    pointer-path formats. *)

From S2P Require Import Prelude.

(** [fread] of [n] bytes from what is left of the file. *)
Definition readAll (n : Z) (f : bytes) : option (bytes * bytes) :=
  if n <=? len f then Some (slice f 0 n, drop (Z.to_nat n) f) else None.

Lemma readAll_app a f n : len a = n → readAll n (a ++ f) = Some (a, f).
Proof.
  intros <-. unfold readAll, slice. rewrite len_app. pose proof (len_nonneg f).
  rewrite (proj2 (Z.leb_le _ _)) by lia. unfold len. rewrite Nat2Z.id. change (Z.to_nat 0) with 0%nat. rewrite drop_0.
  by rewrite take_app_length, drop_app_length.
Qed.

Lemma readAll_spec n f a r : 0 ≤ n → readAll n f = Some (a, r) → len a = n ∧ f = a ++ r.
Proof.
  unfold readAll, slice. intros Hn. destruct (Z.leb_spec n (len f)); [|done]. intros [= <- <-].
  change (Z.to_nat 0) with 0%nat. rewrite drop_0, take_drop. split; [|done]. unfold len in *. rewrite length_take. lia.
Qed.

Lemma le_val_8 z : is_u64 z → le_val (le_bytes 8 z) = z.
Proof. intros. rewrite le_val_le_bytes. by apply Z.mod_small. Qed.
Lemma le_val_4 z : is_u32 z → le_val (le_bytes 4 z) = z.
Proof. intros. rewrite le_val_le_bytes. by apply Z.mod_small. Qed.
Lemma len_le_bytes n z : len (le_bytes n z) = Z.of_nat n.
Proof. unfold len. by rewrite length_le_bytes. Qed.
