(* ===== verification/StdAlgo.v ===== *)
(** * Sorting and searching of the C++ standard library

    [std::sort] as an interface: any function that returns a permutation sorted by the
    comparator.  It is not stable, so the order of equivalent elements is left open; the
    theorems of the clients hold for every instance.  [std::lower_bound] and
    [std::upper_bound] return the partition point of a partitioned range. *)

From S2P Require Import Prelude.
From stdpp Require Import sorting.
#[local] Open Scope Z_scope.

(** A strict weak order. *)
Class StrictWeak {A} (lt : A → A → bool) : Prop := {
  lt_asym a b : lt a b = true → lt b a = false;
  le_trans a b c : lt b a = false → lt c b = false → lt c a = false
}.

Class StdSort := {
  std_sort {A} : (A → A → bool) → list A → list A;
  std_sort_perm {A} (lt : A → A → bool) l : std_sort lt l ≡ₚ l;
  std_sort_sorted {A} (lt : A → A → bool) l : StrictWeak lt → StronglySorted (λ a b, lt b a = false) (std_sort lt l)
}.

(** One implementation of the interface. *)
Definition notAfter {A} (lt : A → A → bool) (a b : A) : Prop := lt b a = false.
#[export] Instance notAfter_dec {A} (lt : A → A → bool) a b : Decision (notAfter lt a b).
Proof. unfold notAfter. apply _. Defined.
Definition mergeStd {A} (lt : A → A → bool) (l : list A) : list A := merge_sort (notAfter lt) l.
#[export] Program Instance merge_std_sort : StdSort := {| std_sort := @mergeStd |}.
Next Obligation. intros A lt l. apply merge_sort_Permutation. Qed.
Next Obligation.
  intros A lt l H. assert (Transitive (notAfter lt)) by (intros a b c; apply le_trans).
  assert (Total (notAfter lt)).
  { intros a b. unfold notAfter. destruct (lt b a) eqn:E; [right; by apply lt_asym|by left]. }
  apply (StronglySorted_merge_sort (notAfter lt)).
Qed.

Lemma existsb_elem {A} (p : A → bool) l x : existsb p l = false → x ∈ l → p x = false.
Proof.
  intros Hp Hx. destruct (p x) eqn:E; [|done]. rewrite <- Hp. symmetry. apply existsb_exists.
  exists x. by rewrite <- list_elem_of_In.
Qed.

(** Comparison by a key. *)
Definition byKey {A} (key : A → Z) (a b : A) : bool := key a <? key b.
#[export] Instance byKey_weak {A} (key : A → Z) : StrictWeak (byKey key).
Proof. unfold byKey. split; intros; rewrite ?Z.ltb_lt, ?Z.ltb_ge in *; lia. Qed.

Definition sortedBy {A} (key : A → Z) (l : list A) : Prop := StronglySorted (λ a b, key a ≤ key b) l.

Lemma StronglySorted_weaken {A} (R S : A → A → Prop) l :
  (∀ a b, R a b → S a b) → StronglySorted R l → StronglySorted S l.
Proof. intros H. induction 1; constructor; [done|]. by eapply Forall_impl; [|apply H]. Qed.

Lemma std_sort_key `{!StdSort} {A} (key : A → Z) l : sortedBy key (std_sort (byKey key) l).
Proof.
  eapply StronglySorted_weaken; [|apply std_sort_sorted; apply _].
  intros a b. unfold byKey. by intros ?%Z.ltb_ge.
Qed.

Lemma StronglySorted_snoc {A} (R : A → A → Prop) l x : StronglySorted R l → Forall (λ y, R y x) l → StronglySorted R (l ++ [x]).
Proof.
  intros Hs Hx. induction Hs as [|y l Hs IH Hy]; cbn; [repeat constructor|]. inversion_clear Hx as [|?? Hyx Hx'].
  constructor; [by apply IH|]. apply Forall_app. by repeat constructor.
Qed.
Lemma StronglySorted_reverse {A} (R : A → A → Prop) l : StronglySorted (flip R) l → StronglySorted R (reverse l).
Proof.
  induction 1 as [|x l _ IH Hx]; [constructor|]. rewrite reverse_cons. apply StronglySorted_snoc; [done|]. by apply Forall_reverse.
Qed.

(** ** Binary searches *)

(** The first position where [p] fails. *)
Fixpoint partitionPoint {A} (p : A → bool) (l : list A) : nat :=
  match l with
  | [] => O
  | x :: l => if p x then S (partitionPoint p l) else O
  end.
(** [std::lower_bound] and [std::upper_bound] on a range sorted by [key]. *)
Definition lower_bound {A} (key : A → Z) (l : list A) (v : Z) : nat := partitionPoint (λ x, key x <? v) l.
Definition upper_bound {A} (key : A → Z) (l : list A) (v : Z) : nat := partitionPoint (λ x, negb (v <? key x)) l.

Lemma partitionPoint_le {A} (p : A → bool) l : (partitionPoint p l ≤ length l)%nat.
Proof. induction l as [|x l IH]; [done|]. cbn. case_match; lia. Qed.

Lemma partitionPoint_mono {A} (p q : A → bool) l :
  (∀ x, p x = true → q x = true) → (partitionPoint p l ≤ partitionPoint q l)%nat.
Proof. intros H. induction l as [|x l IH]; [done|]. cbn. destruct (p x) eqn:E; [rewrite (H x E); lia|lia]. Qed.

Lemma partitionPoint_before {A} (p : A → bool) l x : x ∈ take (partitionPoint p l) l → p x = true.
Proof.
  induction l as [|y l IH]; [by intros ?%elem_of_nil|]. cbn. destruct (p y) eqn:E; [|by intros ?%elem_of_nil].
  cbn. intros [->|H]%elem_of_cons; auto.
Qed.

Lemma partitionPoint_after {A} (p : A → bool) (R : A → A → Prop) l :
  StronglySorted R l → (∀ a b, R a b → p b = true → p a = true) → Forall (λ x, p x = false) (drop (partitionPoint p l) l).
Proof.
  intros Hs Hp. induction Hs as [|y l Hs IH Hall]; [constructor|]. cbn. destruct (p y) eqn:E; [done|].
  constructor; [done|]. eapply Forall_impl; [exact Hall|]. cbn. intros x Hx.
  destruct (p x) eqn:Ex; [|done]. rewrite (Hp _ _ Hx Ex) in E. done.
Qed.

Lemma list_filter_none {A} (p : A → bool) l : Forall (λ x, p x = false) l → List.filter p l = [].
Proof. induction 1 as [|x l Hx _ IH]; [done|]. cbn. by rewrite Hx. Qed.
Lemma list_filter_all {A} (p : A → bool) l : Forall (λ x, p x = true) l → List.filter p l = l.
Proof. induction 1 as [|x l Hx _ IH]; [done|]. cbn. by rewrite Hx, IH. Qed.

(** The elements between the two bounds are those whose key is in the range. *)
Lemma bounds_filter {A} (key : A → Z) l lo hi : sortedBy key l → lo ≤ hi →
  drop (lower_bound key l lo) (take (upper_bound key l hi) l) = List.filter (λ x, (lo <=? key x) && (key x <=? hi)) l.
Proof.
  intros Hs Hle. induction Hs as [|x l Hs IH Hall]; [done|].
  unfold lower_bound, upper_bound in *. cbn [partitionPoint List.filter].
  destruct (Z.ltb_spec hi (key x)) as [Hh|Hh]; cbn [negb].
  - rewrite take_0, drop_nil. destruct (Z.leb_spec (key x) hi); [lia|]. rewrite andb_false_r.
    symmetry. apply list_filter_none. eapply Forall_impl; [exact Hall|]. cbn. intros y Hy.
    destruct (Z.leb_spec (key y) hi); [lia|]. by rewrite andb_false_r.
  - destruct (Z.leb_spec (key x) hi); [|lia]. rewrite andb_true_r.
    destruct (Z.ltb_spec (key x) lo) as [Hl|Hl], (Z.leb_spec lo (key x)) as [Hl'|Hl']; try lia; cbn [take drop]; [done|].
    f_equal. revert IH. clear Hs. destruct l as [|y l]; [done|]. inversion_clear Hall as [|?? Hy _].
    cbn [partitionPoint]. destruct (Z.ltb_spec (key y) lo); [lia|]. by rewrite drop_0.
Qed.

(** The first element whose key is [v]. *)
Lemma lower_bound_find {A} (key : A → Z) l v : sortedBy key l →
  match l !! lower_bound key l v with Some x => if key x =? v then Some x else None | None => None end
  = List.find (λ x, key x =? v) l.
Proof.
  intros Hs. induction Hs as [|x l Hs IH Hall]; [done|]. unfold lower_bound in *. cbn [partitionPoint List.find].
  destruct (Z.ltb_spec (key x) v) as [Hl|Hl]; cbn.
  - destruct (Z.eqb_spec (key x) v); [lia|]. done.
  - destruct (Z.eqb_spec (key x) v); [done|]. symmetry.
    assert (Forall (λ y, (key y =? v) = false) l) as Hn.
    { eapply Forall_impl; [exact Hall|]. cbn. intros y Hy. apply Z.eqb_neq. lia. }
    clear -Hn. induction Hn as [|y l Hy _ IH]; [done|]. cbn. by rewrite Hy.
Qed.

(** The last element whose key is at most [v]. *)
Lemma upper_bound_last {A} (key : A → Z) l v x : sortedBy key l → last (take (upper_bound key l v) l) = Some x →
  x ∈ l ∧ key x ≤ v ∧ ∀ y, y ∈ l → key y ≤ v → key y ≤ key x.
Proof.
  intros Hs. induction Hs as [|y l Hs IH Hall]; [done|]. unfold upper_bound in *. cbn [partitionPoint].
  destruct (Z.ltb_spec v (key y)) as [Hl|Hl]; cbn [negb take]; [done|].
  rewrite last_cons. destruct (last (take _ l)) as [z|] eqn:Hz.
  - intros [= ->]. destruct (IH eq_refl) as (Hin & Hle & Hmax). split_and!; [by right|done|].
    intros w [->|Hw]%elem_of_cons Hwv; [|by apply Hmax]. rewrite Forall_forall in Hall. by apply Hall.
  - intros [= ->]. split_and!; [by left|done|]. intros w [->|Hw]%elem_of_cons Hwv; [done|].
    apply last_None in Hz. destruct l as [|u l]; [by apply elem_of_nil in Hw|]. cbn in Hz.
    destruct (Z.ltb_spec v (key u)) as [Hu|Hu]; cbn in Hz; [|done].
    inversion_clear Hs as [|?? _ Hul]. rewrite Forall_forall in Hul. apply elem_of_cons in Hw as [->|Hw]; [lia|].
    specialize (Hul _ Hw). lia.
Qed.
Lemma upper_bound_none {A} (key : A → Z) l v : sortedBy key l → last (take (upper_bound key l v) l) = None →
  ∀ y, y ∈ l → v < key y.
Proof.
  intros Hs Hl%last_None y Hy. destruct Hs as [|x l Hs Hall]; [by apply elem_of_nil in Hy|].
  unfold upper_bound in Hl. cbn in Hl. destruct (Z.ltb_spec v (key x)); cbn in Hl; [|done].
  apply elem_of_cons in Hy as [->|Hy]; [done|]. rewrite Forall_forall in Hall. specialize (Hall _ Hy). lia.
Qed.
