(* ===== verification/ScanBuffers.v ===== *)
(** * Scanning a buffer

    Models the first-scan loops of [src/scanner/memory_scanner.cpp]: the vectorised
    and scalar exact-integer scans, relational scans, the byte-order aware scan, and
    the string, array-of-byte, binary and unknown-value scans.  A scan returns the
    calls of [ScanResult::addResult] it makes, in order, as (address, bytes).  The
    vector instructions are modelled on byte lists; which of them run is the
    parameter [SimdMode], as the code chooses it from the CPU. *)

From S2P Require Import Prelude TargetMachine Types Loops.

(** ** Integer types

    The template parameter [T] of the scans. *)
Record IntType := mkInt { ty_size : Z; ty_signed : bool }.
Definition uint8 := mkInt 1 false.
Definition int16 := mkInt 2 true.
Definition int32 := mkInt 4 true.
Definition int64 := mkInt 8 true.
Definition uint32 := mkInt 4 false.
Definition uint64 := mkInt 8 false.
Definition ty_ok (ty : IntType) : Prop :=
  ty_size ty = 1 ∨ ty_size ty = 2 ∨ ty_size ty = 4 ∨ ty_size ty = 8.

(** The value of the bytes, and the bytes of a value ([memcpy], little-endian host). *)
Definition value_of (ty : IntType) (w : bytes) : Z :=
  if ty_signed ty then to_signed (ty_size ty * 8) (le_val w) else le_val w.
Definition bytes_of (ty : IntType) (v : Z) : bytes := le_bytes (Z.to_nat (ty_size ty)) v.
Definition in_type (ty : IntType) (v : Z) : Prop :=
  if ty_signed ty then - 2 ^ (ty_size ty * 8 - 1) ≤ v < 2 ^ (ty_size ty * 8 - 1)
  else 0 ≤ v < 2 ^ (ty_size ty * 8).

Definition nativeScanByteOrder : ByteOrder := Little.
Definition swapScanScalar (ty : IntType) (v : Z) : Z := value_of ty (reverse (bytes_of ty v)).
Definition readScanScalar (ty : IntType) (w : bytes) (order : ByteOrder) : Z :=
  let value := value_of ty w in
  if (1 <? ty_size ty) && negb (bool_decide (order = nativeScanByteOrder))
  then swapScanScalar ty value else value.

(** ** Comparisons *)

Definition cmpBetween (c v v2 : Z) : bool :=
  if v <=? v2 then (v <=? c) && (c <=? v2) else (v2 <=? c) && (c <=? v).

(** [getCompare<T>]: current value, first and second search value. *)
Definition getCompare (cmp : ScanCompare) (c v v2 : Z) : bool :=
  match cmp with
  | CmpExact => c =? v
  | CmpGreater => v <? c
  | CmpLess => c <? v
  | CmpBetween => cmpBetween c v v2
  | CmpChanged => negb (c =? v)
  | CmpUnchanged => c =? v
  | CmpIncreased => v <? c
  | CmpDecreased => c <? v
  | CmpSameAsFirst => c =? v
  | CmpUnknown => true
  | _ => c =? v
  end.

(** ** Emission *)

Definition hit : Type := Z * bytes.
(** [res.addResult(base + off, buf + off, n)]: reads [n] bytes of the buffer. *)
Definition emit (buf : bytes) (n base off : Z) : outcome (list hit) :=
  let* w := subspan buf off n in Ret [(u64 (base + off), w)].

(** The test of one offset: loads [n] bytes and emits them when [pred] holds. *)
Definition testAt (buf : bytes) (n base : Z) (pred : bytes → bool) (off : Z)
  : outcome (list hit) :=
  let* w := subspan buf off n in
  if pred w then emit buf n base off else Ret [].

Definition fixAlignment (alignment : Z) : Z := if alignment =? 0 then 1 else alignment.

(** ** Vector registers *)

Inductive SimdMode : Set := Scalar | SSE2 | AVX2.

(** [_mm*_cmpeq_epi{8L}] against a broadcast needle: each lane of [L] bytes becomes
    all ones or all zeros. *)
Fixpoint cmpeqLanes (lanes L : nat) (v needle : bytes) : bytes :=
  match lanes with
  | O => []
  | S lanes => replicate L (if bytes_eqb (take L v) needle then 255 else 0)
               ++ cmpeqLanes lanes L (drop L v) needle
  end.
(** [_mm*_movemask_epi8]: the top bit of every byte. *)
Fixpoint movemask (v : bytes) : Z :=
  match v with
  | [] => 0
  | b :: v => Z.b2z (Z.testbit b 7) + 2 * movemask v
  end.

(** Emits every lane of the mask whose low bit is set; [W] lanes of [L] bytes. *)
Definition emitMaskLanes (buf : bytes) (L W firstLane mask base : Z) : outcome (list hit) :=
  forEach W 1 (λ lane,
    if negb (Z.land mask (u32 (Z.shiftl 1 (lane * L))) =? 0)
    then emit buf L base ((firstLane + lane) * L) else Ret []) 0.

(** The scalar loop over lanes [i .. nLanes). *)
Definition scanLanes (ty : IntType) (buf : bytes) (nLanes base needle i : Z) : outcome (list hit) :=
  forEach nLanes 1 (λ i,
    testAt buf (ty_size ty) base (λ w, value_of ty w =? needle) (i * ty_size ty)) i.

(** [scanExactAVX2] ([vb = 32]) and [scanExactSSE2] ([vb = 16]): whole vectors of
    [W] lanes while [i + W <= nLanes], then the remaining lanes one by one. *)
Definition scanExactVector (vb : Z) (ty : IntType) (buf : bytes) (nLanes base needle : Z)
  : outcome (list hit) :=
  let L := ty_size ty in
  let W := vb / L in
  let n := bytes_of ty needle in
  let* (out, i) := forLoop (loopFuel (nLanes - W + 1) 0) (nLanes - W + 1) W (λ i,
      let* v := subspan buf (i * L) vb in
      let mask := movemask (cmpeqLanes (Z.to_nat W) (Z.to_nat L) v n) in
      if mask =? 0 then Ret [] else emitMaskLanes buf L W i mask base) 0 in
  let* tail := scanLanes ty buf nLanes base needle i in
  Ret (out ++ tail).
Definition scanExactAVX2 := scanExactVector 32.
Definition scanExactSSE2 := scanExactVector 16.

(** ** Integer scans *)

Definition scanExactInteger (mode : SimdMode) (ty : IntType) (buf : bytes)
    (base alignment needle : Z) : outcome (list hit) :=
  let L := ty_size ty in
  let bufSize := len buf in
  if bufSize <? L then Ret [] else
  let alignment := fixAlignment alignment in
  if alignment =? L then
    let nLanes := (bufSize - L) / L + 1 in
    match mode with
    | AVX2 => scanExactAVX2 ty buf nLanes base needle
    | SSE2 => if (L =? 1) || (L =? 2) || (L =? 4) then scanExactSSE2 ty buf nLanes base needle
              else scanLanes ty buf nLanes base needle 0
    | Scalar => scanLanes ty buf nLanes base needle 0
    end
  else
    forEach (bufSize - L + 1) alignment
      (testAt buf L base (λ w, value_of ty w =? needle)) 0.

(** The predicate a relational scan selects once outside its loop. *)
Definition relationalPred (cmp : ScanCompare) (v v2 c : Z) : bool :=
  match cmp with
  | CmpGreater => v <? c
  | CmpLess => c <? v
  | CmpBetween => if v <=? v2 then (v <=? c) && (c <=? v2) else (v2 <=? c) && (c <=? v)
  | CmpChanged => negb (c =? v)
  | CmpUnchanged => c =? v
  | CmpIncreased => v <? c
  | CmpDecreased => c <? v
  | CmpSameAsFirst => c =? v
  | CmpUnknown => true
  | _ => c =? v
  end.

Definition scanRelational (ty : IntType) (buf : bytes) (base alignment v v2 : Z)
    (cmp : ScanCompare) : outcome (list hit) :=
  let L := ty_size ty in
  if len buf <? L then Ret [] else
  let alignment := fixAlignment alignment in
  forEach (len buf - L + 1) alignment
    (testAt buf L base (λ w, relationalPred cmp v v2 (value_of ty w))) 0.

Definition scanIntegerFast (mode : SimdMode) (ty : IntType) (buf : bytes)
    (base alignment v v2 : Z) (cmp : ScanCompare) : outcome (list hit) :=
  if bool_decide (cmp = CmpExact) then scanExactInteger mode ty buf base alignment v
  else scanRelational ty buf base alignment v v2 cmp.

(** The scan in the byte order of the target's data: equality compares raw lanes
    against a reversed needle, everything else reads each value in that order. *)
Definition scanIntegerTarget (mode : SimdMode) (ty : IntType) (buf : bytes)
    (base alignment value value2 : Z) (cmp : ScanCompare) (order : ByteOrder)
  : outcome (list hit) :=
  let L := ty_size ty in
  if (L =? 1) || bool_decide (order = nativeScanByteOrder)
  then scanIntegerFast mode ty buf base alignment value value2 cmp
  else if bool_decide (cmp = CmpExact)
  then scanExactInteger mode ty buf base alignment (swapScanScalar ty value)
  else if len buf <? L then Ret [] else
  let alignment := Z.max 1 alignment in
  forEach (len buf - L + 1) alignment
    (testAt buf L base (λ w, getCompare cmp (readScanScalar ty w order) value value2)) 0.

(** ** The reference scan

    Every offset that is a multiple of the alignment, where the whole value fits
    the buffer, whose bytes satisfy the predicate, in ascending order. *)
Definition matchAt (buf : bytes) (n base : Z) (pred : bytes → bool) (off : Z) : option hit :=
  let w := slice buf off n in if pred w then Some (u64 (base + off), w) else None.
Definition scanSpec (buf : bytes) (n base alignment : Z) (pred : bytes → bool) : list hit :=
  omap (matchAt buf n base pred) (stride 0 (len buf - n + 1) alignment).

(** ** Lemmas *)

Lemma emit_ret buf n base off :
  0 ≤ off → 0 ≤ n → off + n ≤ len buf → emit buf n base off = Ret [(u64 (base + off), slice buf off n)].
Proof. intros. unfold emit. by destruct (subspan_defined buf off n) as [-> _]. Qed.

Lemma testAt_ret buf n base pred off :
  0 ≤ off → 0 ≤ n → off + n ≤ len buf →
  testAt buf n base pred off = Ret (option_list (matchAt buf n base pred off)).
Proof.
  intros. unfold testAt, matchAt. destruct (subspan_defined buf off n) as [-> _]; [done..|].
  cbn [obind]. case_match; [by apply emit_ret|done].
Qed.

(** A strided scalar scan is the reference scan. *)
Lemma strided_scan buf n base alignment pred :
  0 ≤ n → 1 ≤ alignment → len buf + alignment < 2 ^ 64 →
  forEach (len buf - n + 1) alignment (testAt buf n base pred) 0
  = Ret (scanSpec buf n base alignment pred).
Proof.
  intros. rewrite (forEach_spec _ _ _ (λ j, option_list (matchAt buf n base pred j))).
  - by rewrite mjoin_omap.
  - done.
  - done.
  - lia.
  - intros j Hj%elem_of_stride. apply testAt_ret; lia.
Qed.

Lemma fixAlignment_pos a : 0 ≤ a → 1 ≤ fixAlignment a.
Proof. intros. unfold fixAlignment. destruct (Z.eqb_spec a 0); lia. Qed.

Lemma ty_size_range ty : ty_ok ty → 1 ≤ ty_size ty ≤ 8.
Proof. unfold ty_ok. lia. Qed.

Lemma scanSpec_short buf n base alignment pred : len buf < n → scanSpec buf n base alignment pred = [].
Proof. intros. unfold scanSpec. by rewrite stride_nil by lia. Qed.

(** The lanes of an aligned scan are the reference offsets. *)
Lemma scanSpec_lanes ty buf base pred :
  ty_ok ty → ty_size ty ≤ len buf →
  scanSpec buf (ty_size ty) base (ty_size ty) pred =
  omap (λ i, matchAt buf (ty_size ty) base pred (i * ty_size ty))
       (seqZ 0 ((len buf - ty_size ty) / ty_size ty + 1)).
Proof.
  intros Hty Hl. pose proof (ty_size_range ty Hty). set (L := ty_size ty) in *. unfold scanSpec.
  pose proof (Z.div_mod (len buf - L) L ltac:(lia)).
  pose proof (Z.mod_pos_bound (len buf - L) L ltac:(lia)).
  set (n := (len buf - L) / L + 1) in *.
  rewrite (stride_limit 0 _ (n * L)).
  - replace 0 with (0 * L) at 1 by lia. rewrite stride_lanes by lia.
    rewrite omap_fmap. do 2 f_equal. lia.
  - intros j Hj Hm. rewrite Z.sub_0_r in Hm. apply Z.mod_divide in Hm as [q ->]; [|lia].
    subst n. rewrite <- Z.mul_lt_mono_pos_r by lia. generalize dependent ((len buf - L) / L). intros d Hd.
    split; intros; [|nia]. enough (¬ d + 1 ≤ q) by lia. intros ?.
    pose proof (Z.mul_le_mono_nonneg_r (d + 1) q L ltac:(lia) ltac:(lia)). lia.
Qed.

Lemma lane_in_range ty (buf : bytes) i :
  ty_ok ty → ty_size ty ≤ len buf → 0 ≤ i < (len buf - ty_size ty) / ty_size ty + 1 →
  i * ty_size ty + ty_size ty ≤ len buf.
Proof.
  intros Hty Hl Hi. pose proof (ty_size_range ty Hty).
  pose proof (Z.mul_div_le (len buf - ty_size ty) (ty_size ty) ltac:(lia)). nia.
Qed.

Lemma scanLanes_ret ty buf base needle nLanes i :
  ty_ok ty → len buf < 2 ^ 63 → 0 ≤ i → ty_size ty ≤ len buf →
  nLanes = (len buf - ty_size ty) / ty_size ty + 1 →
  scanLanes ty buf nLanes base needle i =
  Ret (omap (λ i, matchAt buf (ty_size ty) base (λ w, value_of ty w =? needle) (i * ty_size ty))
            (seqZ i (nLanes - i))).
Proof.
  intros Hty Hlen Hi Hl ->. pose proof (ty_size_range ty Hty). unfold scanLanes.
  pose proof (Z.div_le_upper_bound (len buf - ty_size ty) (ty_size ty) (len buf) ltac:(lia) ltac:(nia)).
  rewrite (forEach_spec _ _ _
    (λ i, option_list (matchAt buf (ty_size ty) base (λ w, value_of ty w =? needle) (i * ty_size ty)))).
  - by rewrite mjoin_omap, stride_1.
  - done.
  - done.
  - lia_w.
  - intros j Hj%elem_of_stride. apply testAt_ret; [nia|lia|]. apply lane_in_range; [done|lia|lia].
Qed.

(** *** Vector registers *)

Lemma testbit_movemask v j :
  0 ≤ j → Z.testbit (movemask v) j = match lget v j with Some b => Z.testbit b 7 | None => false end.
Proof.
  revert j. induction v as [|b v IH]; intros j Hj.
  { unfold lget. rewrite (proj2 (Z.leb_le 0 j)) by lia. simpl. apply Z.bits_0. }
  cbn [movemask]. rewrite Z.add_comm. destruct (decide (j = 0)) as [->|Hn].
  - by rewrite Z.testbit_0_r.
  - replace j with (Z.succ (Z.pred j)) at 1 by lia. rewrite Z.testbit_succ_r by lia. rewrite IH by lia.
    unfold lget. rewrite !(proj2 (Z.leb_le _ _)) by lia.
    replace (Z.to_nat j) with (S (Z.to_nat (Z.pred j))) by lia. done.
Qed.

Lemma cmpeqLanes_lget lanes L v needle lane k :
  (0 < L)%nat → (lane < lanes)%nat → (k < L)%nat →
  cmpeqLanes lanes L v needle !! (lane * L + k)%nat =
  Some (if bytes_eqb (take L (drop (lane * L) v)) needle then 255 else 0).
Proof.
  intros HL. revert lane v. induction lanes as [|lanes IH]; intros lane v Hl Hk; [lia|].
  cbn [cmpeqLanes]. destruct lane as [|lane].
  - simpl. rewrite lookup_app_l by (rewrite length_replicate; lia).
    rewrite drop_0. by apply lookup_replicate_2.
  - rewrite lookup_app_r by (rewrite length_replicate; lia). rewrite length_replicate.
    replace (S lane * L + k - L)%nat with (lane * L + k)%nat by lia.
    rewrite IH by lia. rewrite drop_drop. by replace (L + lane * L)%nat with (S lane * L)%nat by lia.
Qed.

(** The bit of a lane is set exactly when the lane equals the needle. *)
Lemma mask_lane W L v needle lane :
  1 ≤ L → 0 ≤ lane < W →
  Z.testbit (movemask (cmpeqLanes (Z.to_nat W) (Z.to_nat L) v needle)) (lane * L)
  = bytes_eqb (slice v (lane * L) L) needle.
Proof.
  intros. rewrite testbit_movemask by nia. unfold lget. rewrite (proj2 (Z.leb_le _ _)) by nia.
  replace (Z.to_nat (lane * L)) with (Z.to_nat lane * Z.to_nat L + 0)%nat by nia.
  rewrite cmpeqLanes_lget by lia. unfold slice.
  replace (Z.to_nat lane * Z.to_nat L)%nat with (Z.to_nat (lane * L)) by nia.
  by case_match.
Qed.

Lemma land_bit_test m k : 0 ≤ k < 32 → negb (Z.land m (u32 (Z.shiftl 1 k)) =? 0) = Z.testbit m k.
Proof.
  intros Hk. assert (u32 (Z.shiftl 1 k) = 2 ^ k) as ->.
  { rewrite Z.shiftl_1_l. apply wrap_small. split; [lia|]. apply Z.pow_lt_mono_r; lia. }
  destruct (Z.testbit m k) eqn:Hb.
  - apply negb_true_iff, Z.eqb_neq. intros He.
    assert (Z.testbit (Z.land m (2 ^ k)) k = true) as Ht by (rewrite Z.land_spec, Hb, Z.pow2_bits_true by lia; done).
    rewrite He, Z.bits_0 in Ht. done.
  - apply negb_false_iff, Z.eqb_eq. bits i. rewrite Z.land_spec, Z.bits_0, Z.pow2_bits_eqb by lia.
    destruct (Z.eqb_spec k i) as [->|]; [by rewrite Hb|apply andb_false_r].
Qed.

Lemma value_of_eqb ty w v :
  ty_ok ty → bytes_ok w → len w = ty_size ty → in_type ty v →
  (value_of ty w =? v) = bytes_eqb w (bytes_of ty v).
Proof.
  intros Hty Hw Hl Hv. pose proof (ty_size_range ty Hty).
  pose proof (le_val_bound w Hw) as Hb. rewrite Hl in Hb.
  replace 256 with (2 ^ 8) in Hb by done. rewrite <- Z.pow_mul_r in Hb by lia.
  assert (2 ^ (8 * ty_size ty) = 2 * 2 ^ (ty_size ty * 8 - 1)) as He.
  { rewrite <- Z.pow_succ_r by lia. f_equal. lia. }
  assert (wrap (ty_size ty * 8) v = le_val (bytes_of ty v)) as Hwr.
  { unfold bytes_of, wrap. rewrite le_val_le_bytes, Z2Nat.id by lia.
    replace 256 with (2 ^ 8) by done. rewrite <- Z.pow_mul_r by lia. f_equal. f_equal. lia. }
  unfold bytes_eqb. apply Bool.eq_iff_eq_true. rewrite Z.eqb_eq, bool_decide_eq_true.
  transitivity (le_val w = le_val (bytes_of ty v)); cycle 1.
  { split; [|by intros ->]. intros. apply le_val_inj; [done|apply le_bytes_ok| |done].
    unfold bytes_of. rewrite length_le_bytes. unfold len in Hl. lia. }
  rewrite <- Hwr. replace (8 * ty_size ty) with (ty_size ty * 8) in * by lia.
  assert (wrap (ty_size ty * 8) (le_val w) = le_val w) as Hws by (apply wrap_small; unfold in_width; lia).
  unfold value_of, in_type in *. destruct (ty_signed ty).
  - split; intros He'.
    + rewrite <- He'. rewrite wrap_to_signed by lia. done.
    + unfold to_signed. rewrite Hws, He'. unfold wrap.
      replace (v mod 2 ^ (ty_size ty * 8)) with (if v <? 0 then v + 2 ^ (ty_size ty * 8) else v).
      * split_ifs; lia.
      * destruct (Z.ltb_spec v 0); [apply Z.mod_unique with (-1)|symmetry; apply Z.mod_small]; lia.
  - rewrite (wrap_small _ v) by (unfold in_width; lia). done.
Qed.

(** What a lane emits in the reference. *)
Definition laneHit (ty : IntType) (buf : bytes) (base needle : Z) (i : Z) : option hit :=
  matchAt buf (ty_size ty) base (λ w, value_of ty w =? needle) (i * ty_size ty).

Lemma emitMaskLanes_ret ty buf base needle vb i v mask :
  ty_ok ty → bytes_ok buf → in_type ty needle → vb = 16 ∨ vb = 32 → 0 ≤ i →
  (i + vb / ty_size ty) * ty_size ty ≤ len buf → v = slice buf (i * ty_size ty) vb →
  mask = movemask (cmpeqLanes (Z.to_nat (vb / ty_size ty)) (Z.to_nat (ty_size ty)) v (bytes_of ty needle)) →
  emitMaskLanes buf (ty_size ty) (vb / ty_size ty) i mask base =
  Ret (omap (laneHit ty buf base needle) (seqZ i (vb / ty_size ty))).
Proof.
  intros Hty Hbuf Hn Hvb Hi Hin Hv Hmask. pose proof (ty_size_range ty Hty).
  set (L := ty_size ty) in *. set (W := vb / L) in *.
  assert (W * L = vb) as HWL by (subst W L; unfold ty_ok in Hty; destruct Hvb as [->| ->];
    destruct Hty as [Hq|[Hq|[Hq|Hq]]]; rewrite Hq; reflexivity).
  assert (1 ≤ W ≤ 32) by nia.
  unfold emitMaskLanes. rewrite (forEach_spec _ _ _ (λ lane, option_list (laneHit ty buf base needle (i + lane)))).
  - rewrite mjoin_omap, stride_1, Z.sub_0_r. f_equal.
    rewrite <- (omap_fmap (λ lane, i + lane) (laneHit ty buf base needle)). f_equal.
    etransitivity; [apply (fmap_add_seqZ i)|]. by rewrite Z.add_0_r.
  - done.
  - done.
  - lia.
  - intros lane Hl%elem_of_stride.
    assert ((i + lane) * L + L ≤ len buf) by nia.
    rewrite land_bit_test by nia. rewrite Hmask, mask_lane by lia. rewrite Hv.
    rewrite slice_slice by nia. replace (i * L + lane * L) with ((i + lane) * L) by lia.
    rewrite <- value_of_eqb; [|done|by apply bytes_ok_slice|apply len_slice; nia|done].
    unfold laneHit, matchAt. fold L. destruct (value_of ty (slice buf ((i + lane) * L) L) =? needle); [|done].
    rewrite emit_ret by nia. done.
Qed.

Lemma movemask_zero v : movemask v = 0 → ∀ j, 0 ≤ j → Z.testbit (movemask v) j = false.
Proof. intros -> j _. apply Z.bits_0. Qed.

Lemma vector_step ty buf base needle vb i :
  ty_ok ty → bytes_ok buf → in_type ty needle → vb = 16 ∨ vb = 32 → 0 ≤ i →
  (i + vb / ty_size ty) * ty_size ty ≤ len buf →
  (let* v := subspan buf (i * ty_size ty) vb in
   let mask := movemask (cmpeqLanes (Z.to_nat (vb / ty_size ty)) (Z.to_nat (ty_size ty)) v (bytes_of ty needle)) in
   if mask =? 0 then Ret [] else emitMaskLanes buf (ty_size ty) (vb / ty_size ty) i mask base)
  = Ret (omap (laneHit ty buf base needle) (seqZ i (vb / ty_size ty))).
Proof.
  intros Hty Hbuf Hn Hvb Hi Hin. pose proof (ty_size_range ty Hty).
  assert (vb / ty_size ty * ty_size ty = vb) as HWL by (unfold ty_ok in Hty; destruct Hvb as [->| ->];
    destruct Hty as [Hq|[Hq|[Hq|Hq]]]; rewrite Hq; reflexivity).
  destruct (subspan_defined buf (i * ty_size ty) vb) as [-> Hl]; [nia..|]. cbn [obind].
  set (mask := movemask _).
  rewrite <- (emitMaskLanes_ret ty buf base needle vb i _ mask) by done.
  destruct (Z.eqb_spec mask 0) as [Hz|]; [|done].
  unfold emitMaskLanes. rewrite (forEach_spec _ _ _ (λ _, [])).
  - f_equal. by induction (stride _ _ _).
  - done.
  - done.
  - intros. assert (vb / ty_size ty ≤ 32) by nia. lia.
  - intros j Hj. by rewrite Hz.
Qed.

Lemma omap_seqZ_split {A} (f : Z → option A) i k n :
  i ≤ k ≤ n → omap f (seqZ i (n - i)) = omap f (seqZ i (k - i)) ++ omap f (seqZ k (n - k)).
Proof. intros. rewrite (seqZ_split i k n) by done. apply omap_app. Qed.

Lemma scanExactVector_ret vb ty buf base needle nLanes :
  vb = 16 ∨ vb = 32 → ty_ok ty → bytes_ok buf → in_type ty needle → len buf < 2 ^ 63 →
  ty_size ty ≤ len buf → nLanes = (len buf - ty_size ty) / ty_size ty + 1 →
  scanExactVector vb ty buf nLanes base needle =
  Ret (omap (laneHit ty buf base needle) (seqZ 0 nLanes)).
Proof.
  intros Hvb Hty Hbuf Hn Hlen Hl Hlanes. pose proof (ty_size_range ty Hty).
  assert (1 ≤ vb / ty_size ty ≤ 32) as HW by (unfold ty_ok in Hty; destruct Hvb as [->| ->];
    destruct Hty as [Hq|[Hq|[Hq|Hq]]]; rewrite Hq; done).
  pose proof (Z.div_pos (len buf - ty_size ty) (ty_size ty) ltac:(lia) ltac:(lia)).
  pose proof (Z.div_le_upper_bound (len buf - ty_size ty) (ty_size ty) (len buf) ltac:(lia) ltac:(nia)).
  unfold scanExactVector. set (W := vb / ty_size ty) in *.
  rewrite (forLoop_spec _ _ _ _ (λ i, omap (laneHit ty buf base needle) (seqZ i W))).
  - cbn [obind].
    assert (0 ≤ strideEnd 0 (nLanes - W + 1) W ≤ nLanes) as He.
    { unfold strideEnd. destruct (Z.ltb_spec 0 (nLanes - W + 1)); [|lia].
      pose proof (Z.mul_div_le (nLanes - W + 1 - 0 + W - 1) W ltac:(lia)).
      pose proof (Z.div_pos (nLanes - W + 1 - 0 + W - 1) W ltac:(lia) ltac:(lia)). lia. }
    rewrite scanLanes_ret by (done || lia). cbn [obind]. f_equal.
    replace (seqZ 0 nLanes) with (seqZ 0 (nLanes - 0)) by (f_equal; lia).
    rewrite (omap_seqZ_split _ 0 (strideEnd 0 (nLanes - W + 1) W)) by lia.
    f_equal. rewrite <- stride_blocks by lia. rewrite omap_mjoin. by rewrite <- list_fmap_compose.
  - lia.
  - done.
  - lia.
  - unfold loopFuel. lia.
  - intros j Hj%elem_of_stride. apply vector_step; [done..|lia|].
    fold W. pose proof (lane_in_range ty buf (j + W - 1) Hty Hl ltac:(lia)). nia.
Qed.

Lemma scanLanes_all ty buf base needle :
  ty_ok ty → len buf < 2 ^ 63 → ty_size ty ≤ len buf →
  scanLanes ty buf ((len buf - ty_size ty) / ty_size ty + 1) base needle 0 =
  Ret (omap (laneHit ty buf base needle) (seqZ 0 ((len buf - ty_size ty) / ty_size ty + 1))).
Proof. intros. rewrite scanLanes_ret by (done || lia). by rewrite Z.sub_0_r. Qed.

(** C32: the vectorised exact scan is the reference scan.  On every instruction set
    ([scanExactAVX2], [scanExactSSE2] or the scalar loops) and every alignment,
    [scanExactInteger] never reads outside the buffer and adds exactly the offsets
    that are multiples of the alignment and hold the needle, in ascending order. *)
Theorem scanExactInteger_spec mode ty buf base alignment needle :
  ty_ok ty → bytes_ok buf → in_type ty needle → 0 ≤ alignment →
  len buf + alignment < 2 ^ 63 →
  scanExactInteger mode ty buf base alignment needle =
  Ret (scanSpec buf (ty_size ty) base (fixAlignment alignment) (λ w, value_of ty w =? needle)).
Proof.
  intros Hty Hbuf Hn Ha Hlen. pose proof (ty_size_range ty Hty). pose proof (fixAlignment_pos alignment Ha).
  unfold scanExactInteger. destruct (Z.ltb_spec (len buf) (ty_size ty)) as [Hs|Hs].
  { by rewrite scanSpec_short by lia. }
  destruct (Z.eqb_spec (fixAlignment alignment) (ty_size ty)) as [->|].
  - rewrite (scanSpec_lanes ty) by done. unfold scanExactAVX2, scanExactSSE2.
    destruct mode; [|case_match|]; rewrite ?scanLanes_all by (done || lia); try done;
      rewrite scanExactVector_ret by (done || lia || auto); done.
  - apply strided_scan; [lia|done|]. unfold fixAlignment. destruct (alignment =? 0); lia.
Qed.

Lemma scanExactInteger_spec_witness :
  ty_ok int32 ∧ scanExactInteger AVX2 int32 [7;0;0;0;9;0;0;0;7;0;0;0] 4096 4 7 =
    Ret [(4096, [7;0;0;0]); (4104, [7;0;0;0])].
Proof.
  split; [unfold ty_ok; simpl; auto|].
  rewrite scanExactInteger_spec; [reflexivity|unfold ty_ok; simpl; auto| | |lia|reflexivity].
  - repeat constructor; unfold in_width; lia.
  - unfold in_type. simpl. lia.
Defined.

Lemma scanRelational_ret ty buf base alignment v v2 cmp :
  ty_ok ty → 0 ≤ alignment → len buf + alignment < 2 ^ 63 →
  scanRelational ty buf base alignment v v2 cmp =
  Ret (scanSpec buf (ty_size ty) base (fixAlignment alignment)
         (λ w, getCompare cmp (value_of ty w) v v2)).
Proof.
  intros Hty Ha Hlen. pose proof (ty_size_range ty Hty). pose proof (fixAlignment_pos alignment Ha).
  unfold scanRelational. destruct (Z.ltb_spec (len buf) (ty_size ty)).
  { by rewrite scanSpec_short by lia. }
  rewrite strided_scan; [|lia|done|unfold fixAlignment; destruct (alignment =? 0); lia].
  done.
Qed.

(** The value of the bytes in the byte order of the target. *)
Definition value_in (order : ByteOrder) (ty : IntType) (w : bytes) : Z :=
  value_of ty (if bool_decide (order = Little) then w else reverse w).

Lemma le_val_of_bytes ty v : ty_ok ty → in_type ty v → value_of ty (bytes_of ty v) = v.
Proof.
  intros Hty Hv. pose proof (ty_size_range ty Hty). apply Z.eqb_eq.
  rewrite value_of_eqb; [unfold bytes_eqb; by apply bool_decide_eq_true|done|apply le_bytes_ok| |done].
  unfold len, bytes_of. rewrite length_le_bytes. lia.
Qed.

Lemma in_type_value_of ty w : ty_ok ty → bytes_ok w → len w = ty_size ty → in_type ty (value_of ty w).
Proof.
  intros Hty Hw Hl. pose proof (ty_size_range ty Hty). unfold in_type, value_of.
  destruct (ty_signed ty); [apply to_signed_bound; lia|].
  pose proof (le_val_bound w Hw) as Hb. rewrite Hl in Hb.
  replace 256 with (2 ^ 8) in Hb by done. rewrite <- Z.pow_mul_r in Hb by lia.
  by rewrite Z.mul_comm in Hb.
Qed.

Lemma len_bytes_of ty v : ty_ok ty → len (bytes_of ty v) = ty_size ty.
Proof. intros Hty%ty_size_range. unfold len, bytes_of. rewrite length_le_bytes. lia. Qed.

Lemma bytes_of_value_of ty w :
  ty_ok ty → bytes_ok w → len w = ty_size ty → bytes_of ty (value_of ty w) = w.
Proof.
  intros Hty Hw Hl. pose proof (value_of_eqb ty w (value_of ty w) Hty Hw Hl (in_type_value_of ty w Hty Hw Hl)) as H.
  rewrite Z.eqb_refl in H. symmetry in H. unfold bytes_eqb in H. by apply bool_decide_eq_true in H.
Qed.

Lemma readScanScalar_value_in ty w order :
  ty_ok ty → bytes_ok w → len w = ty_size ty → readScanScalar ty w order = value_in order ty w.
Proof.
  intros Hty Hw Hl. unfold readScanScalar, value_in, swapScanScalar, nativeScanByteOrder.
  rewrite bytes_of_value_of by done. destruct (bool_decide (order = Little)); simpl; [by rewrite andb_false_r|].
  destruct (Z.ltb_spec 1 (ty_size ty)) as [|H1]; simpl; [done|].
  unfold len in Hl. destruct w as [|b [|c w]]; [done|done|]. simpl in Hl. lia.
Qed.

(** A reversed needle found in the raw lanes is the value in the other byte order. *)
Lemma swapped_needle ty w v :
  ty_ok ty → bytes_ok w → len w = ty_size ty → in_type ty v →
  (value_of ty w =? swapScanScalar ty v) = (value_of ty (reverse w) =? v).
Proof.
  intros Hty Hw Hl Hv. assert (bytes_ok (reverse w)) by by apply bytes_ok_reverse.
  assert (len (reverse w) = ty_size ty) by by rewrite len_reverse.
  assert (bytes_ok (reverse (bytes_of ty v))) by (apply bytes_ok_reverse, le_bytes_ok).
  assert (len (reverse (bytes_of ty v)) = ty_size ty) by by rewrite len_reverse, len_bytes_of.
  unfold swapScanScalar. rewrite !value_of_eqb by (done || by apply in_type_value_of).
  rewrite bytes_of_value_of by done. unfold bytes_eqb.
  apply Bool.eq_iff_eq_true. rewrite !bool_decide_eq_true. split; [intros ->|intros <-]; by rewrite reverse_involutive.
Qed.

Lemma scanSpec_ext buf n base alignment p q :
  0 ≤ n → (∀ off, 0 ≤ off → off + n ≤ len buf → p (slice buf off n) = q (slice buf off n)) →
  scanSpec buf n base alignment p = scanSpec buf n base alignment q.
Proof.
  intros Hn Hpq. unfold scanSpec. apply omap_ext_in. intros j Hj%elem_of_stride.
  unfold matchAt. by rewrite Hpq by lia.
Qed.

Lemma scanIntegerTarget_ret mode ty buf base alignment v v2 cmp order :
  ty_ok ty → bytes_ok buf → in_type ty v → 0 ≤ alignment →
  len buf + alignment < 2 ^ 63 →
  scanIntegerTarget mode ty buf base alignment v v2 cmp order =
  Ret (scanSpec buf (ty_size ty) base (fixAlignment alignment)
         (λ w, getCompare cmp (value_in order ty w) v v2)).
Proof.
  intros Hty Hbuf Hv Ha Hlen. pose proof (ty_size_range ty Hty) as Hr.
  assert (∀ off, 0 ≤ off → off + ty_size ty ≤ len buf →
    bytes_ok (slice buf off (ty_size ty)) ∧ len (slice buf off (ty_size ty)) = ty_size ty) as Hsl.
  { intros off ??. split; [by apply bytes_ok_slice|apply len_slice; lia]. }
  unfold scanIntegerTarget, scanIntegerFast.
  destruct ((ty_size ty =? 1) || bool_decide (order = nativeScanByteOrder)) eqn:Hfast.
  - assert (∀ off, 0 ≤ off → off + ty_size ty ≤ len buf →
      value_in order ty (slice buf off (ty_size ty)) = value_of ty (slice buf off (ty_size ty))) as Hvi.
    { intros off Ho Hl. destruct (Hsl off Ho Hl) as [Hok Hlen'].
      rewrite <- readScanScalar_value_in by done. unfold readScanScalar.
      apply orb_true_iff in Hfast as [H1%Z.eqb_eq|H1]; [by rewrite H1|]. rewrite H1. by rewrite andb_false_r. }
    destruct (bool_decide_reflect (cmp = CmpExact)) as [->|].
    + rewrite scanExactInteger_spec by done. f_equal. apply scanSpec_ext; [lia|].
      intros off Ho Hl. simpl. by rewrite Hvi.
    + rewrite scanRelational_ret by done. f_equal. apply scanSpec_ext; [lia|].
      intros off Ho Hl. by rewrite Hvi.
  - apply orb_false_iff in Hfast as [_ Ho]. apply bool_decide_eq_false in Ho.
    unfold nativeScanByteOrder in Ho.
    destruct (bool_decide_reflect (cmp = CmpExact)) as [->|].
    + rewrite scanExactInteger_spec; [|done|done| |done|done].
      * f_equal. apply scanSpec_ext; [lia|]. intros off Hof Hl. destruct (Hsl off Hof Hl).
        rewrite swapped_needle by done. unfold value_in. by rewrite bool_decide_eq_false_2.
      * unfold swapScanScalar. apply in_type_value_of; [done|by apply bytes_ok_reverse, le_bytes_ok|].
        by rewrite len_reverse, len_bytes_of.
    + destruct (Z.ltb_spec (len buf) (ty_size ty)); [by rewrite scanSpec_short by lia|].
      replace (Z.max 1 alignment) with (fixAlignment alignment) by (unfold fixAlignment; split_ifs; lia).
      rewrite strided_scan; [|lia|by apply fixAlignment_pos|unfold fixAlignment; split_ifs; lia].
      f_equal. apply scanSpec_ext; [lia|]. intros off Hof Hl. destruct (Hsl off Hof Hl).
      by rewrite readScanScalar_value_in.
Qed.
(** A first scan in the byte order of the target's data.  For every comparison,
    width, instruction set and byte order, [scanIntegerTarget] adds exactly the
    aligned offsets whose value {i read in that byte order} satisfies the
    comparison, although exact scans compare raw lanes with a reversed needle. *)
Theorem scanIntegerTarget_spec mode ty buf base alignment v v2 cmp order :
  ty_ok ty → bytes_ok buf → in_type ty v → 0 ≤ alignment →
  len buf + alignment < 2 ^ 63 →
  scanIntegerTarget mode ty buf base alignment v v2 cmp order =
  Ret (scanSpec buf (ty_size ty) base (fixAlignment alignment)
         (λ w, getCompare cmp (value_in order ty w) v v2)).
Proof. apply scanIntegerTarget_ret. Qed.

Lemma scanIntegerTarget_spec_witness :
  scanIntegerTarget SSE2 int16 [1;0;0;1;255;255;0;1] 4096 2 1 0 CmpExact Big = Ret [(4098, [0;1]); (4102, [0;1])].
Proof.
  rewrite scanIntegerTarget_spec; [reflexivity|unfold ty_ok; simpl; auto| | |lia|reflexivity].
  - repeat constructor; unfold in_width; lia.
  - unfold in_type. simpl. lia.
Defined.
