(* ===== verification/PatternScan.v ===== *)
(** * Scanning for byte patterns

    The string, UTF-16, array-of-byte, binary and unknown-value scans of
    [src/scanner/memory_scanner.cpp], with the SSE2 search for one anchor byte that
    the unaligned scans share.  Each is proved equal to the reference scan
    [ScanBuffers.scanSpec]. *)

From S2P Require Import Prelude TargetMachine Types Loops ScanBuffers.

(** ** The anchor search *)

(** [__builtin_ctz]: the index of the lowest set bit of a nonzero mask. *)
Definition ctz (m : Z) : Z := Z.log2 (Z.land m (- m)).

(** [while (m) { b = ctz(m); verify(p + b); m &= m - 1; }]; at most [fuel] bits. *)
Fixpoint maskLoop (fuel : nat) (verify : Z → outcome (list hit)) (p m : Z) : outcome (list hit) :=
  if m =? 0 then Ret [] else
  match fuel with
  | O => Undefined
  | S fuel =>
      let* a := verify (p + ctz m) in
      let* b := maskLoop fuel verify p (Z.land m (m - 1)) in
      Ret (a ++ b)
  end.

Definition anchorScan (mode : SimdMode) (buf : bytes) (startPos endPos anchor : Z)
    (verify : Z → outcome (list hit)) : outcome (list hit) :=
  let* (out, p) :=
    match mode with
    | Scalar => Ret ([], startPos)
    | _ => forLoop (loopFuel (endPos - 15) startPos) (endPos - 15) 16 (λ p,
             let* v := subspan buf p 16 in
             maskLoop 16 verify p (movemask (cmpeqLanes 16 1 v [anchor]))) startPos
    end in
  let* tail := forEach endPos 1 (λ p,
    let* c := at_ buf p in if c =? anchor then verify p else Ret []) p in
  Ret (out ++ tail).

(** ** Comparing text *)

(** The local [lower] of [stringBytesMatch]. *)
Definition lower (c : Z) : Z := if between "A"%chr c "Z"%chr then c + ("a"%chr - "A"%chr) else c.

(** [stringBytesMatch]; [value] and [needle] are what the pointers point to. *)
Definition stringBytesMatch (value needle : bytes) (size : Z) (caseSensitive unicode : bool)
    (order : ByteOrder) : outcome bool :=
  if caseSensitive then
    let* a := subspan value 0 size in
    let* b := subspan needle 0 size in
    Ret (bytes_eqb a b)
  else if unicode then
    if negb (size mod 2 =? 0) then Ret false else
    allFrom (Z.to_nat (size / 2)) 2 (λ i,
      let low := i + (if bool_decide (order = Big) then 1 else 0) in
      let high := i + (if bool_decide (order = Big) then 0 else 1) in
      let* vh := at_ value high in
      let* nh := at_ needle high in
      if negb (vh =? nh) then Ret false else
      let* vl := at_ value low in
      let* nl := at_ needle low in
      if (vh =? 0) && (vl <? 128) && (nl <? 128) then Ret (lower vl =? lower nl)
      else Ret (vl =? nl)) 0
  else
    allFrom (Z.to_nat size) 1 (λ i,
      let* a := at_ value i in
      let* b := at_ needle i in
      Ret (lower a =? lower b)) 0.

(** [buf + offset]. *)
Definition from (buf : bytes) (off : Z) : bytes := drop (Z.to_nat off) buf.

(** ** The scans *)

Definition scanBufferString (mode : SimdMode) (buf : bytes) (baseAddr : Z) (needle : bytes)
    (caseInsensitive : bool) : outcome (list hit) :=
  let bufSize := len buf in
  let nLen := len needle in
  if (nLen =? 0) || (bufSize <? nLen) then Ret [] else
  let limit := bufSize - nLen + 1 in
  if negb caseInsensitive then
    let* anchor := at_ needle 0 in
    anchorScan mode buf 0 limit anchor (λ offset,
      let* w := subspan buf offset nLen in
      if bytes_eqb w needle then emit buf nLen baseAddr offset else Ret [])
  else
    forEach limit 1 (λ offset,
      let* m := stringBytesMatch (from buf offset) needle nLen false false Little in
      if m : bool then emit buf nLen baseAddr offset else Ret []) 0.

(** The UTF-16 scan; [n] is the encoded needle ([utf16Bytes(needle, order)]). *)
Definition scanBufferUnicode (buf : bytes) (baseAddr : Z) (n : bytes)
    (caseInsensitive : bool) (order : ByteOrder) : outcome (list hit) :=
  let bufSize := len buf in
  let nBytes := len n in
  if (nBytes =? 0) || (bufSize <? nBytes) then Ret [] else
  let limit := bufSize - nBytes + 1 in
  forEach limit 2 (λ offset,
    let* m := stringBytesMatch (from buf offset) n nBytes (negb caseInsensitive) true order in
    if m : bool then emit buf nBytes baseAddr offset else Ret []) 0.

(** The byte loop of [verifyAt] and of the binary scan. *)
Definition maskedAt (buf pattern mask : bytes) (offset : Z) : outcome bool :=
  allFrom (length pattern) 1 (λ j,
    let* c := at_ buf (offset + j) in
    let* m := at_ mask j in
    let* p := at_ pattern j in
    Ret (Z.land c m =? Z.land p m)) 0.

(** The first index whose mask byte is [0xFF], or the length. *)
Fixpoint anchorIndex (mask : bytes) : Z :=
  match mask with
  | [] => 0
  | m :: mask => if m =? 255 then 0 else 1 + anchorIndex mask
  end.

Definition scanBufferAOB (mode : SimdMode) (buf : bytes) (baseAddr : Z) (pattern mask : bytes)
  : outcome (list hit) :=
  let bufSize := len buf in
  let pLen := len pattern in
  if (pLen =? 0) || negb (len mask =? pLen) || (bufSize <? pLen) then Ret [] else
  let limit := bufSize - pLen + 1 in
  let verifyAt offset :=
    let* m := maskedAt buf pattern mask offset in
    if m : bool then emit buf pLen baseAddr offset else Ret [] in
  let anchorIdx := anchorIndex mask in
  if anchorIdx =? pLen then forEach limit 1 verifyAt 0
  else
    let* anchor := at_ pattern anchorIdx in
    anchorScan mode buf anchorIdx (limit + anchorIdx) anchor (λ p, verifyAt (p - anchorIdx)).

Definition scanBufferBinary (buf : bytes) (baseAddr : Z) (pattern mask : bytes) (alignment : Z)
  : outcome (list hit) :=
  let bufSize := len buf in
  let pLen := len pattern in
  if (pLen =? 0) || negb (len mask =? pLen) || (bufSize <? pLen) then Ret [] else
  let alignment := if alignment =? 0 then 1 else alignment in
  let limit := bufSize - pLen + 1 in
  forEach limit alignment (λ offset,
    let* m := maskedAt buf pattern mask offset in
    if m : bool then emit buf pLen baseAddr offset else Ret []) 0.

Definition scanBufferUnknown (buf : bytes) (baseAddr alignment valueSize : Z) : outcome (list hit) :=
  let bufSize := len buf in
  if (valueSize =? 0) || (bufSize <? valueSize) then Ret [] else
  let alignment := if alignment =? 0 then 1 else alignment in
  let limit := bufSize - valueSize + 1 in
  forEach limit alignment (λ offset, emit buf valueSize baseAddr offset) 0.

(** ** What the scans match *)

Definition maskedEq (pattern mask w : bytes) : bool :=
  bool_decide (zip_with Z.land w mask = zip_with Z.land pattern mask).

(** ASCII case folding of bytes, and of UTF-16 code units in a byte order. *)
Definition foldUnit (lo hi : Z) : Z := if (hi =? 0) && (lo <? 128) then lower lo else lo.
Fixpoint foldUtf16 (order : ByteOrder) (w : bytes) : bytes :=
  match w with
  | a :: b :: w =>
      if bool_decide (order = Big) then a :: foldUnit b a :: foldUtf16 order w
      else foldUnit a b :: b :: foldUtf16 order w
  | w => w
  end.
Definition textEq (caseSensitive unicode : bool) (order : ByteOrder) (w needle : bytes) : bool :=
  if caseSensitive then bytes_eqb w needle
  else if unicode then (len needle mod 2 =? 0) && bytes_eqb (foldUtf16 order w) (foldUtf16 order needle)
  else bytes_eqb (lower <$> w) (lower <$> needle).

(** ** Lemmas on the anchor search *)

(** A number whose lowest set bit is [k]. *)
Lemma low_bit_split m k :
  0 ≤ k → Z.testbit m k = true → (∀ i, 0 ≤ i < k → Z.testbit m i = false) →
  ∃ q, m = (2 * q + 1) * 2 ^ k.
Proof.
  intros Hk Hb Hlow. exists (m / 2 ^ (k + 1)).
  assert (m mod 2 ^ k = 0) as Hm.
  { bits i. rewrite Z.bits_0. destruct (Z.lt_ge_cases i k).
    - rewrite Z.mod_pow2_bits_low by lia. auto.
    - by rewrite Z.mod_pow2_bits_high by lia. }
  assert (m / 2 ^ k = 2 * (m / 2 ^ (k + 1)) + 1) as Hq.
  { rewrite Z.pow_add_r, <- Z.div_div by lia. rewrite Z.pow_1_r.
    rewrite (Z.div_mod (m / 2 ^ k) 2) at 1 by lia. f_equal.
    rewrite <- (Z.add_0_l k) in Hb. rewrite <- Z.div_pow2_bits in Hb by lia.
    rewrite Z.bit0_odd, Zodd_mod in Hb. by apply Z.eqb_eq in Hb. }
  rewrite <- Hq. rewrite (Z.div_mod m (2 ^ k)) at 1 by lia. lia.
Qed.

Lemma testbit_pred_low m k i :
  0 ≤ k → 0 ≤ i → Z.testbit m k = true → (∀ j, 0 ≤ j < k → Z.testbit m j = false) →
  Z.testbit (m - 1) i = if i <? k then true else if i =? k then false else Z.testbit m i.
Proof.
  intros Hk Hi Hb Hlow. destruct (low_bit_split m k Hk Hb Hlow) as [q ->].
  replace ((2 * q + 1) * 2 ^ k - 1) with (2 * q * 2 ^ k + Z.ones k) by (rewrite Z.ones_equiv; lia).
  rewrite <- lor_shiftl_add by (done || (unfold in_width; rewrite Z.ones_equiv; lia)).
  rewrite Z.lor_spec, Z.shiftl_spec, Z.mul_pow2_bits by lia.
  destruct (Z.ltb_spec i k).
  - by rewrite Z.ones_spec_low, orb_true_r by lia.
  - rewrite Z.ones_spec_high, orb_false_r by lia. destruct (Z.eqb_spec i k) as [->|].
    + rewrite Z.sub_diag. by rewrite Z.testbit_even_0.
    + replace (i - k) with (Z.succ (i - k - 1)) by lia.
      by rewrite Z.testbit_even_succ, Z.testbit_odd_succ by lia.
Qed.

Lemma ctz_low m k :
  0 ≤ k → Z.testbit m k = true → (∀ i, 0 ≤ i < k → Z.testbit m i = false) → ctz m = k.
Proof.
  intros Hk Hb Hlow. unfold ctz. enough (Z.land m (- m) = 2 ^ k) as -> by by apply Z.log2_pow2.
  bits i. replace (- m) with (Z.lnot (m - 1)) by (unfold Z.lnot; lia).
  rewrite Z.land_spec, Z.lnot_spec, Z.pow2_bits_eqb, (testbit_pred_low m k) by done.
  destruct (Z.ltb_spec i k); [rewrite Hlow by lia; symmetry; apply Z.eqb_neq; lia|].
  destruct (Z.eqb_spec i k) as [->|]; [by rewrite Hb, Z.eqb_refl|].
  rewrite andb_negb_r. symmetry. apply Z.eqb_neq. lia.
Qed.

Lemma clear_low m k i :
  0 ≤ k → 0 ≤ i → Z.testbit m k = true → (∀ j, 0 ≤ j < k → Z.testbit m j = false) →
  Z.testbit (Z.land m (m - 1)) i = Z.testbit m i && negb (i =? k).
Proof.
  intros Hk Hi Hb Hlow. rewrite Z.land_spec, (testbit_pred_low m k) by done.
  destruct (Z.ltb_spec i k); [by rewrite Hlow by lia|].
  destruct (i =? k); [done|]. by rewrite andb_true_r, andb_diag.
Qed.

(** The loop over the mask visits its set bits in ascending order. *)
Lemma maskLoop_ret verify f p n : ∀ k m fuel,
  0 ≤ k → (∀ i, 0 ≤ i → Z.testbit m i = true → k ≤ i < k + Z.of_nat n) → 0 ≤ m → (n ≤ fuel)%nat →
  (∀ i, k ≤ i < k + Z.of_nat n → Z.testbit m i = true → verify (p + i) = Ret (f (p + i))) →
  maskLoop fuel verify p m =
  Ret (mjoin ((λ i, if Z.testbit m i then f (p + i) else []) <$> seqZ k (Z.of_nat n))).
Proof.
  induction n as [|n IH]; intros k m fuel Hk Hm Hm0 Hf Hv.
  - assert (m = 0) as ->.
    { bits i. rewrite Z.bits_0. destruct (Z.testbit m i) eqn:Hb; [|done]. specialize (Hm i ltac:(done) Hb). lia. }
    by destruct fuel.
  - rewrite seqZ_cons by lia. replace (Z.pred (Z.of_nat (S n))) with (Z.of_nat n) by lia.
    cbn [fmap list_fmap mjoin list_join].
    destruct (Z.testbit m k) eqn:Hb.
    + assert (∀ i, 0 ≤ i < k → Z.testbit m i = false) as Hlow.
      { intros i Hi. destruct (Z.testbit m i) eqn:Hbi; [|done]. specialize (Hm i ltac:(lia) Hbi). lia. }
      assert (∀ i, 0 ≤ i → Z.testbit (Z.land m (m - 1)) i = Z.testbit m i && negb (i =? k)) as Hcl
        by (intros; by apply clear_low).
      destruct fuel as [|fuel]; [lia|]. cbn [maskLoop].
      destruct (Z.eqb_spec m 0) as [->|Hnz]; [by rewrite Z.bits_0 in Hb|].
      rewrite (ctz_low m k) by done. rewrite Hv by (lia || done). cbn [obind].
      rewrite (IH (Z.succ k)); [|lia| |by apply Z.land_nonneg; left|lia|].
      * cbn [obind]. f_equal. f_equal. apply mjoin_fmap_ext. intros i Hi%elem_of_seqZ.
        rewrite Hcl by lia. rewrite (proj2 (Z.eqb_neq i k)) by lia. by rewrite andb_true_r.
      * intros i Hi Ht. rewrite Hcl in Ht by done. apply andb_true_iff in Ht as [Ht Hne%negb_true_iff].
        apply Z.eqb_neq in Hne. specialize (Hm i Hi Ht). lia.
      * intros i Hi Ht. rewrite Hcl in Ht by lia. apply andb_true_iff in Ht as [Ht _]. apply Hv; [lia|done].
    + change ([] ++ ?x) with x. apply IH; [lia| |done|lia|].
      * intros i Hi Ht. specialize (Hm i Hi Ht). destruct (decide (i = k)) as [->|]; [congruence|lia].
      * intros i Hi Ht. apply Hv; [lia|done].
Qed.

Lemma bytes_eqb_single a b : bytes_eqb [a] [b] = (a =? b).
Proof.
  unfold bytes_eqb. apply Bool.eq_iff_eq_true. rewrite bool_decide_eq_true, Z.eqb_eq.
  split; [by intros [= ->]|by intros ->].
Qed.

Lemma length_cmpeqLanes lanes L v needle : length (cmpeqLanes lanes L v needle) = (lanes * L)%nat.
Proof.
  revert v. induction lanes as [|lanes IH]; intros v; [done|]. cbn [cmpeqLanes].
  rewrite length_app, length_replicate, IH. lia.
Qed.

Lemma movemask_nonneg v : 0 ≤ movemask v.
Proof. induction v as [|b v IH]; cbn [movemask]; [done|]. destruct (Z.testbit b 7); simpl; lia. Qed.

(** The mask of a 16-byte block: bit [i] says that byte [i] is the anchor. *)
Lemma anchor_mask v anchor i :
  len v = 16 → 0 ≤ i → Z.testbit (movemask (cmpeqLanes 16 1 v [anchor])) i
  = match lget v i with Some c => c =? anchor | None => false end.
Proof.
  intros Hl Hi. destruct (Z.lt_ge_cases i 16).
  - pose proof (mask_lane 16 1 v [anchor] i ltac:(lia) ltac:(lia)) as Hm.
    change (Z.to_nat 16) with 16%nat in Hm. change (Z.to_nat 1) with 1%nat in Hm.
    rewrite Z.mul_1_r in Hm. rewrite Hm. destruct (at_defined v i) as (c & _ & Hc); [lia|]. rewrite Hc.
    enough (slice v i 1 = [c]) as -> by apply bytes_eqb_single.
    unfold slice, lget in *. rewrite (proj2 (Z.leb_le 0 i)) in Hc by lia.
    rewrite (drop_S v c) by done. done.
  - rewrite testbit_movemask by done.
    rewrite (lget_ge (cmpeqLanes 16 1 v [anchor])).
    + rewrite lget_ge; [done|done|]. lia.
    + done.
    + unfold len. rewrite length_cmpeqLanes. lia.
Qed.

(** What the anchor search emits at a position. *)
Definition atAnchor (buf : bytes) (anchor : Z) (f : Z → list hit) (p : Z) : list hit :=
  match lget buf p with Some c => if c =? anchor then f p else [] | None => [] end.

Lemma anchor_block buf anchor verify f endPos p :
  0 ≤ p → p < endPos - 15 → endPos ≤ len buf →
  (∀ q, p ≤ q < endPos → lget buf q = Some anchor → verify q = Ret (f q)) →
  (let* v := subspan buf p 16 in maskLoop 16 verify p (movemask (cmpeqLanes 16 1 v [anchor])))
  = Ret (mjoin (atAnchor buf anchor f <$> seqZ p 16)).
Proof.
  intros Hp Hlt Hle Hv. destruct (subspan_defined buf p 16) as [-> Hl]; [lia..|]. cbn [obind].
  assert (∀ i, 0 ≤ i < 16 → Z.testbit (movemask (cmpeqLanes 16 1 (slice buf p 16) [anchor])) i
    = match lget buf (p + i) with Some c => c =? anchor | None => false end) as Hbit.
  { intros i Hi. rewrite anchor_mask by lia. by rewrite lget_slice by lia. }
  rewrite (maskLoop_ret verify f p 16 0).
  - f_equal. transitivity (mjoin (atAnchor buf anchor f <$> ((λ i, p + i) <$> seqZ 0 16))).
    + rewrite <- list_fmap_compose. apply mjoin_fmap_ext. intros i Hi%elem_of_seqZ.
      rewrite Hbit by lia. unfold atAnchor. cbn. by destruct (lget buf (p + i)).
    + do 2 f_equal. etransitivity; [apply (fmap_add_seqZ p)|]. by rewrite Z.add_0_r.
  - done.
  - intros i Hi Ht. destruct (Z.lt_ge_cases i 16); [lia|].
    rewrite anchor_mask, lget_ge in Ht by lia. done.
  - apply movemask_nonneg.
  - done.
  - intros i Hi Ht. rewrite Hbit in Ht by lia. apply Hv; [lia|].
    destruct (lget buf (p + i)); [|done]. apply Z.eqb_eq in Ht. congruence.
Qed.

(** The vectorised anchor search visits the anchors of the range in order. *)
Lemma anchorScan_ret mode buf startPos endPos anchor verify f :
  0 ≤ startPos ≤ endPos → endPos ≤ len buf → len buf < 2 ^ 63 →
  (∀ q, startPos ≤ q < endPos → lget buf q = Some anchor → verify q = Ret (f q)) →
  anchorScan mode buf startPos endPos anchor verify =
  Ret (mjoin (atAnchor buf anchor f <$> seqZ startPos (endPos - startPos))).
Proof.
  intros Hs He Hlen Hv.
  assert (∀ p, startPos ≤ p ≤ endPos → forEach endPos 1 (λ p,
    let* c := at_ buf p in if c =? anchor then verify p else Ret []) p
    = Ret (mjoin (atAnchor buf anchor f <$> seqZ p (endPos - p)))) as Htail.
  { intros p Hp. rewrite (forEach_spec _ _ _ (atAnchor buf anchor f)); [by rewrite stride_1|lia|lia|lia|].
    intros j Hj%elem_of_stride. destruct (at_defined buf j) as (c & Hc & Hg); [lia|].
    rewrite Hc. unfold atAnchor. cbn [obind]. rewrite Hg. destruct (Z.eqb_spec c anchor) as [->|]; [|done].
    apply Hv; [lia|done]. }
  unfold anchorScan.
  assert (forLoop (loopFuel (endPos - 15) startPos) (endPos - 15) 16 (λ p,
      let* v := subspan buf p 16 in
      maskLoop 16 verify p (movemask (cmpeqLanes 16 1 v [anchor]))) startPos
    = Ret (mjoin ((λ p, mjoin (atAnchor buf anchor f <$> seqZ p 16)) <$> stride startPos (endPos - 15) 16),
           strideEnd startPos (endPos - 15) 16)) as Hvec.
  { apply forLoop_spec; [lia|lia|lia|unfold loopFuel; lia|].
    intros j Hj%elem_of_stride. apply (anchor_block buf anchor verify f endPos); [lia..|].
    intros q Hq. apply Hv. lia. }
  assert (startPos ≤ strideEnd startPos (endPos - 15) 16 ≤ endPos) as Hend.
  { pose proof (strideEnd_bounds startPos (endPos - 15) 16 ltac:(lia)).
    unfold strideEnd in *. destruct (Z.ltb_spec startPos (endPos - 15)); [|lia].
    assert (0 ≤ (endPos - 15 - startPos + 16 - 1) / 16) by (apply Z.div_pos; lia).
    pose proof (Z.mul_div_le (endPos - 15 - startPos + 16 - 1) 16). lia. }
  destruct mode; [cbn [obind]; by rewrite Htail by lia| |]; rewrite Hvec; cbn [obind]; rewrite Htail by lia; cbn [obind]; f_equal;
    rewrite (seqZ_split startPos (strideEnd startPos (endPos - 15) 16) endPos) by lia;
    rewrite mjoin_fmap_app; f_equal; rewrite <- stride_blocks, mjoin_mjoin by lia; done.
Qed.

(** ** The scans are reference scans *)

Lemma tested_scan buf n base alignment test pred :
  0 ≤ n → 1 ≤ alignment → len buf + alignment < 2 ^ 64 →
  (∀ off, 0 ≤ off → off + n ≤ len buf → test off = Ret (pred (slice buf off n))) →
  forEach (len buf - n + 1) alignment
    (λ off, let* m := test off in if m : bool then emit buf n base off else Ret []) 0
  = Ret (scanSpec buf n base alignment pred).
Proof.
  intros Hn Ha Hlen Ht. rewrite (forEach_spec _ _ _ (λ j, option_list (matchAt buf n base pred j))).
  - by rewrite mjoin_omap.
  - done.
  - done.
  - lia.
  - intros j Hj%elem_of_stride. rewrite Ht by lia. unfold matchAt. cbn [obind].
    destruct (pred (slice buf j n)); [|done]. by apply emit_ret; lia.
Qed.

Lemma scanSpec_1 buf n base pred :
  scanSpec buf n base 1 pred = omap (matchAt buf n base pred) (seqZ 0 (len buf - n + 1)).
Proof. unfold scanSpec. by rewrite stride_1, Z.sub_0_r. Qed.

Lemma anchored_scan mode buf n base anchor k verify pred :
  0 < n → 0 ≤ k < n → n ≤ len buf → len buf < 2 ^ 63 →
  (∀ off, 0 ≤ off → off + n ≤ len buf → pred (slice buf off n) = true → lget buf (off + k) = Some anchor) →
  (∀ off, 0 ≤ off → off + n ≤ len buf →
    verify (off + k) = Ret (option_list (matchAt buf n base pred off))) →
  anchorScan mode buf k (len buf - n + 1 + k) anchor verify = Ret (scanSpec buf n base 1 pred).
Proof.
  intros Hn Hk Hl Hlen Hanchor Hv.
  rewrite (anchorScan_ret mode buf k _ anchor verify (λ p, option_list (matchAt buf n base pred (p - k)))).
  - f_equal. rewrite scanSpec_1, <- mjoin_omap.
    replace (len buf - n + 1 + k - k) with (len buf - n + 1) by lia.
    replace (seqZ k (len buf - n + 1)) with ((λ i, k + i) <$> seqZ 0 (len buf - n + 1)).
    2: { etransitivity; [apply (fmap_add_seqZ k)|]. by rewrite Z.add_0_r. }
    rewrite <- list_fmap_compose. apply mjoin_fmap_ext. intros j Hj%elem_of_seqZ. cbn.
    unfold atAnchor. replace (k + j - k) with j by lia.
    destruct (at_defined buf (k + j)) as (c & _ & Hc); [lia|]. rewrite Hc.
    destruct (Z.eqb_spec c anchor) as [|Hne]; [done|].
    unfold matchAt. destruct (pred (slice buf j n)) eqn:Hp; [|done].
    apply Hanchor in Hp; [|lia|lia]. rewrite Z.add_comm in Hp. congruence.
  - lia.
  - lia.
  - done.
  - intros q Hq _. replace q with (q - k + k) at 1 by lia. apply Hv; lia.
Qed.

(** *** Comparing text *)

Definition lowerEqAt (v n : bytes) (i : Z) : bool :=
  match lget v i, lget n i with Some a, Some b => lower a =? lower b | _, _ => false end.

Lemma fold_ascii v n :
  length v = length n → allSeq (length n) 1 (lowerEqAt v n) 0 = bytes_eqb (lower <$> v) (lower <$> n).
Proof.
  revert v. induction n as [|b n IH]; intros [|a v] Hl; simplify_eq/=; [done|].
  rewrite (allSeq_shift _ _ _ _ (lowerEqAt v n)).
  - rewrite IH by done. change (lowerEqAt (a :: v) (b :: n) 0) with (lower a =? lower b).
    unfold bytes_eqb. cbn [fmap list_fmap]. apply Bool.eq_iff_eq_true.
    rewrite andb_true_iff, Z.eqb_eq, !bool_decide_eq_true. split.
    + intros [H1 H2]. f_equal; [exact H1|exact H2].
    + intros [= H1 H2]. split; [exact H1|exact H2].
  - intros k Hk. unfold lowerEqAt. rewrite !lget_cons by lia. by replace (0 + 1 + 1 * k - 1) with (0 + 1 * k) by lia.
Qed.

Definition unitEqAt (order : ByteOrder) (v n : bytes) (i : Z) : bool :=
  let lo := i + (if bool_decide (order = Big) then 1 else 0) in
  let hi := i + (if bool_decide (order = Big) then 0 else 1) in
  match lget v hi, lget n hi, lget v lo, lget n lo with
  | Some vh, Some nh, Some vl, Some nl =>
      (vh =? nh) && (if (vh =? 0) && (vl <? 128) && (nl <? 128) then lower vl =? lower nl else vl =? nl)
  | _, _, _, _ => false
  end.

Lemma lower_ascii c : is_byte c → (lower c <? 128) = (c <? 128).
Proof.
  unfold in_width, lower, between. intros Hc. destruct (Z.leb_spec 65 c), (Z.leb_spec c 90); simpl; try done.
  destruct (Z.ltb_spec c 128); apply Z.ltb_lt || apply Z.ltb_ge; lia.
Qed.

Lemma unit_fold_eq vl vh nl nh :
  is_byte vl → is_byte nl →
  (vh =? nh) && (if (vh =? 0) && (vl <? 128) && (nl <? 128) then lower vl =? lower nl else vl =? nl)
  = (foldUnit vl vh =? foldUnit nl nh) && (vh =? nh).
Proof.
  intros Hv Hn. destruct (Z.eqb_spec vh nh) as [->|]; [|by rewrite andb_false_r].
  rewrite andb_true_l, andb_true_r. unfold foldUnit.
  pose proof (lower_ascii vl Hv) as Hlv. pose proof (lower_ascii nl Hn) as Hln.
  destruct (nh =? 0); simpl; [|done].
  destruct (Z.ltb_spec vl 128), (Z.ltb_spec nl 128); simpl; try done; bool_to_prop;
    rewrite (proj2 (Z.eqb_neq _ _)) by lia; symmetry; apply Z.eqb_neq; lia.
Qed.

Lemma unitEqAt_0 order a b c d v n :
  is_byte a → is_byte b → is_byte c → is_byte d →
  unitEqAt order (a :: b :: v) (c :: d :: n) 0 =
  if bool_decide (order = Big) then (foldUnit b a =? foldUnit d c) && (a =? c)
  else (foldUnit a b =? foldUnit c d) && (b =? d).
Proof. intros. rewrite <- !unit_fold_eq by done. by destruct order. Qed.

Lemma fold_utf16 order m : ∀ v n,
  bytes_ok v → bytes_ok n → length v = (2 * m)%nat → length n = (2 * m)%nat →
  allSeq m 2 (unitEqAt order v n) 0 = bytes_eqb (foldUtf16 order v) (foldUtf16 order n).
Proof.
  induction m as [|m IH]; intros v n Hv Hn Hlv Hln.
  { destruct v, n; simplify_eq/=; done. }
  destruct v as [|a [|b v]]; simplify_eq/=; [lia|]. destruct n as [|c [|d n]]; simplify_eq/=; [lia|].
  inversion Hv as [|? ? Ha Hv']; subst. inversion Hv' as [|? ? Hb Hv'']; subst.
  inversion Hn as [|? ? Hc Hn']; subst. inversion Hn' as [|? ? Hd Hn'']; subst.
  rewrite (allSeq_shift _ _ _ _ (unitEqAt order v n)).
  - rewrite IH by (done || lia). rewrite unitEqAt_0 by done. unfold bytes_eqb. cbn [foldUtf16].
    destruct (bool_decide (order = Big)); apply Bool.eq_iff_eq_true;
      rewrite !andb_true_iff, !Z.eqb_eq, !bool_decide_eq_true;
      (split; [intros [[Hlo ->] ->]; by rewrite Hlo|by intros [= Hx Hy Hz]]).
  - intros k Hk. unfold unitEqAt. destruct (bool_decide (order = Big)); rewrite !lget_cons by lia;
      replace (0 + 2 + 2 * k + 1 - 1 - 1) with (0 + 2 * k + 1) by lia;
      by replace (0 + 2 + 2 * k + 0 - 1 - 1) with (0 + 2 * k + 0) by lia.
Qed.

Lemma from_subspan buf off n : 0 ≤ off → 0 ≤ n → off + n ≤ len buf →
  subspan (from buf off) 0 n = Ret (slice buf off n).
Proof.
  intros. unfold subspan, slice, from, len in *. rewrite length_drop, drop_0.
  by rewrite !(proj2 (Z.leb_le _ _)) by lia.
Qed.

Lemma lget_from buf off i : 0 ≤ off → 0 ≤ i → lget (from buf off) i = lget buf (off + i).
Proof.
  intros. unfold lget, from. rewrite !(proj2 (Z.leb_le _ _)) by lia. rewrite lookup_drop.
  f_equal. lia.
Qed.

(** [stringBytesMatch] reads only the [len needle] bytes of both pointers and decides
    equality up to the folding of the encoding. *)
Lemma stringBytesMatch_ret buf off needle caseSensitive unicode order :
  bytes_ok buf → bytes_ok needle → 0 ≤ off → off + len needle ≤ len buf →
  stringBytesMatch (from buf off) needle (len needle) caseSensitive unicode order
  = Ret (textEq caseSensitive unicode order (slice buf off (len needle)) needle).
Proof.
  intros Hbuf Hneedle Ho Hle. pose proof (len_nonneg needle) as Hn0.
  pose proof (len_slice buf off (len needle) ltac:(lia) ltac:(lia) Hle) as Hls.
  pose proof (bytes_ok_slice buf off (len needle) Hbuf) as Hok.
  assert (∀ i, 0 ≤ i < len needle → ∃ a b, lget (slice buf off (len needle)) i = Some a ∧
    at_ (from buf off) i = Ret a ∧ lget needle i = Some b ∧ at_ needle i = Ret b) as Hat.
  { intros i Hi. destruct (at_defined needle i Hi) as (b & Hb & Hb').
    destruct (at_defined (slice buf off (len needle)) i) as (a & _ & Ha'); [lia|].
    exists a, b. repeat split; try done. apply at_lget. rewrite lget_from by lia.
    by rewrite lget_slice in Ha' by lia. }
  unfold stringBytesMatch, textEq. destruct caseSensitive; [|destruct unicode].
  - rewrite from_subspan by lia. destruct (subspan_defined needle 0 (len needle)) as [-> _]; [lia..|].
    by rewrite slice_all.
  - destruct (Z.eqb_spec (len needle mod 2) 0) as [Hev|]; [|done]. simpl negb. cbv iota. rewrite andb_true_l.
    pose proof (Z.div_mod (len needle) 2 ltac:(lia)).
    rewrite (allFrom_ret _ _ _ (unitEqAt order (slice buf off (len needle)) needle)).
    + rewrite fold_utf16; [done|done|done|unfold len in *; lia|unfold len in *; lia].
    + intros k Hk. destruct (Hat (0 + 2 * k)) as (a0 & b0 & ? & ? & ? & ?); [lia|].
      destruct (Hat (0 + 2 * k + 1)) as (a1 & b1 & ? & ? & ? & ?); [lia|].
      unfold unitEqAt. destruct (bool_decide (order = Big)); rewrite Z.add_0_r;
        repeat match goal with E : at_ _ _ = _ |- _ => rewrite E; clear E
               | E : lget _ _ = _ |- _ => rewrite E; clear E end; cbn [obind];
        match goal with |- context [negb (?p =? ?q)] => destruct (p =? q) end; simpl; try done;
        by destruct (_ && _ && _).
  - rewrite (allFrom_ret _ _ _ (lowerEqAt (slice buf off (len needle)) needle)).
    + replace (Z.to_nat (len needle)) with (length needle) by (unfold len; lia).
      rewrite fold_ascii; [done|]. unfold len in *; lia.
    + intros k Hk. destruct (Hat (0 + 1 * k)) as (a & b & Ha & Ha' & Hb & Hb'); [lia|].
      rewrite Ha', Hb'. unfold lowerEqAt. by rewrite Ha, Hb.
Qed.

Lemma scanBufferString_ret mode buf base needle caseInsensitive :
  bytes_ok buf → bytes_ok needle → 0 < len needle → len buf < 2 ^ 63 →
  scanBufferString mode buf base needle caseInsensitive =
  Ret (scanSpec buf (len needle) base 1 (λ w, textEq (negb caseInsensitive) false Little w needle)).
Proof.
  intros Hbuf Hneedle Hn Hlen. unfold scanBufferString.
  rewrite (proj2 (Z.eqb_neq (len needle) 0)) by lia.
  destruct (Z.ltb_spec (len buf) (len needle)); cbn [orb negb]; [by rewrite scanSpec_short by lia|].
  destruct caseInsensitive; cbn [negb].
  - apply tested_scan; [lia|lia|lia_w|]. intros off Ho Hl. by apply stringBytesMatch_ret.
  - destruct (at_defined needle 0) as (a & -> & Ha); [lia|]. cbn [obind].
    replace (len buf - len needle + 1) with (len buf - len needle + 1 + 0) by lia.
    apply anchored_scan; [lia|lia|lia|done|..].
    + intros off Ho Hl. unfold textEq, bytes_eqb. rewrite bool_decide_eq_true. intros He.
      rewrite <- He, lget_slice in Ha by lia. done.
    + intros off Ho Hl. rewrite Z.add_0_r. destruct (subspan_defined buf off (len needle)) as [-> _]; [lia..|].
      unfold matchAt, textEq. cbn [obind]. case_match; [|done]. by rewrite emit_ret by lia.
Qed.
(** A first scan for text is the reference scan: with or without case folding and
    on every instruction set, [scanBufferString] stays inside the buffer and adds
    exactly the offsets whose bytes equal the needle (up to ASCII case), in order. *)
Theorem scanBufferString_spec mode buf base needle caseInsensitive :
  bytes_ok buf → bytes_ok needle → 0 < len needle → len buf < 2 ^ 63 →
  scanBufferString mode buf base needle caseInsensitive =
  Ret (scanSpec buf (len needle) base 1 (λ w, textEq (negb caseInsensitive) false Little w needle)).
Proof. apply scanBufferString_ret. Qed.

Lemma scanBufferString_spec_witness :
  scanBufferString SSE2 (bs "a cat, a Cat") 100 (bs "cat") true = Ret [(102, bs "cat"); (109, bs "Cat")].
Proof.
  rewrite scanBufferString_spec; [reflexivity|apply bs_ok|apply bs_ok|reflexivity|reflexivity].
Defined.

Lemma scanBufferUnicode_ret buf base n caseInsensitive order :
  bytes_ok buf → bytes_ok n → 0 < len n → len buf < 2 ^ 63 →
  scanBufferUnicode buf base n caseInsensitive order =
  Ret (scanSpec buf (len n) base 2 (λ w, textEq (negb caseInsensitive) true order w n)).
Proof.
  intros Hbuf Hneedle Hn Hlen. unfold scanBufferUnicode.
  rewrite (proj2 (Z.eqb_neq (len n) 0)) by lia.
  destruct (Z.ltb_spec (len buf) (len n)); cbn [orb negb]; [by rewrite scanSpec_short by lia|].
  apply tested_scan; [lia|lia|lia_w|]. intros off Ho Hl. by apply stringBytesMatch_ret.
Qed.
(** A first scan for UTF-16 text adds exactly the even offsets whose code units
    equal the encoded needle in the target's byte order, folding only whole ASCII
    code units. *)
Theorem scanBufferUnicode_spec buf base n caseInsensitive order :
  bytes_ok buf → bytes_ok n → 0 < len n → len buf < 2 ^ 63 →
  scanBufferUnicode buf base n caseInsensitive order =
  Ret (scanSpec buf (len n) base 2 (λ w, textEq (negb caseInsensitive) true order w n)).
Proof. apply scanBufferUnicode_ret. Qed.

Lemma scanBufferUnicode_spec_witness :
  scanBufferUnicode [0;65;0;98; 97;0; 0;97;0;66] 0 [0;97;0;98] true Big
  = Ret [(0, [0;65;0;98]); (6, [0;97;0;66])].
Proof.
  rewrite scanBufferUnicode_spec; [reflexivity| | |reflexivity|reflexivity];
    repeat constructor; unfold in_width; lia.
Defined.

(** *** Masked patterns *)

Definition maskedEqAt (w pattern mask : bytes) (j : Z) : bool :=
  match lget w j, lget mask j, lget pattern j with
  | Some c, Some m, Some p => Z.land c m =? Z.land p m
  | _, _, _ => false
  end.

Lemma masked_all pattern : ∀ w mask,
  length w = length pattern → length mask = length pattern →
  allSeq (length pattern) 1 (maskedEqAt w pattern mask) 0 = maskedEq pattern mask w.
Proof.
  induction pattern as [|p pattern IH]; intros [|c w] [|m mask] Hw Hm; simplify_eq/=; [done|].
  rewrite (allSeq_shift _ _ _ _ (maskedEqAt w pattern mask)).
  - rewrite IH by done.
    change (maskedEqAt (c :: w) (p :: pattern) (m :: mask) 0) with (Z.land c m =? Z.land p m).
    unfold maskedEq. cbn [zip_with]. apply Bool.eq_iff_eq_true.
    rewrite andb_true_iff, Z.eqb_eq, !bool_decide_eq_true. split.
    + intros [H1 H2]. by rewrite H1, H2.
    + by intros [= H1 H2].
  - intros k Hk. unfold maskedEqAt. rewrite !lget_cons by lia.
    by replace (0 + 1 + 1 * k - 1) with (0 + 1 * k) by lia.
Qed.

Lemma maskedAt_ret buf pattern mask off :
  0 ≤ off → off + len pattern ≤ len buf → len mask = len pattern →
  maskedAt buf pattern mask off = Ret (maskedEq pattern mask (slice buf off (len pattern))).
Proof.
  intros Ho Hle Hm. pose proof (len_nonneg pattern).
  pose proof (len_slice buf off (len pattern) ltac:(lia) ltac:(lia) Hle) as Hls.
  unfold maskedAt. rewrite (allFrom_ret _ _ _ (maskedEqAt (slice buf off (len pattern)) pattern mask)).
  - rewrite masked_all; [done|unfold len in *; lia|unfold len in *; lia].
  - intros k Hk. unfold maskedEqAt.
    destruct (at_defined pattern (0 + 1 * k)) as (p & -> & ->); [unfold len; lia|].
    destruct (at_defined mask (0 + 1 * k)) as (m & -> & ->); [unfold len in *; lia|].
    rewrite lget_slice by (unfold len; lia).
    destruct (at_defined buf (off + (0 + 1 * k))) as (c & -> & ->); [unfold len in *; lia|]. done.
Qed.

Lemma anchorIndex_spec mask :
  0 ≤ anchorIndex mask ≤ len mask ∧
  (anchorIndex mask ≠ len mask → lget mask (anchorIndex mask) = Some 255).
Proof.
  induction mask as [|m mask [IHb IHm]]; [done|]. rewrite len_cons. cbn [anchorIndex].
  pose proof (len_nonneg mask). destruct (Z.eqb_spec m 255) as [->|]; [split; [lia|done]|].
  split; [lia|]. intros. rewrite lget_cons by lia.
  replace (1 + anchorIndex mask - 1) with (anchorIndex mask) by lia. apply IHm. lia.
Qed.

Lemma land_255 c : is_byte c → Z.land c 255 = c.
Proof. intros Hc. change 255 with (Z.ones 8). rewrite Z.land_ones by lia. by apply Z.mod_small. Qed.

(** A match holds the pattern's byte wherever the mask is full. *)
Lemma maskedEq_full pattern mask w k p :
  bytes_ok w → bytes_ok pattern → len w = len pattern → len mask = len pattern →
  maskedEq pattern mask w = true → lget mask k = Some 255 → lget pattern k = Some p → lget w k = Some p.
Proof.
  intros Hw Hpok Hl Hm. unfold len in *. rewrite <- masked_all by lia. rewrite allSeq_true.
  intros Hall H255 Hp. pose proof (lget_Some_lt _ _ _ Hp). unfold len in *.
  specialize (Hall k ltac:(lia)). replace (0 + 1 * k) with k in Hall by lia.
  unfold maskedEqAt in Hall. rewrite H255, Hp in Hall. destruct (lget w k) as [c|] eqn:Hc; [|done].
  assert (is_byte c) as Hcb.
  { unfold lget in Hc. destruct (0 <=? k); [|done]. by eapply Forall_lookup_1 in Hc. }
  assert (is_byte p) as Hpb.
  { unfold lget in Hp. destruct (0 <=? k); [|done]. by eapply Forall_lookup_1 in Hp. }
  rewrite !land_255 in Hall by done. apply Z.eqb_eq in Hall. congruence.
Qed.

Lemma scanBufferAOB_ret mode buf base pattern mask :
  bytes_ok buf → bytes_ok pattern → 0 < len pattern → len mask = len pattern → len buf < 2 ^ 63 →
  scanBufferAOB mode buf base pattern mask =
  Ret (scanSpec buf (len pattern) base 1 (maskedEq pattern mask)).
Proof.
  intros Hbuf Hp Hn Hm Hlen. unfold scanBufferAOB.
  rewrite (proj2 (Z.eqb_neq (len pattern) 0)), Hm, Z.eqb_refl by lia.
  destruct (Z.ltb_spec (len buf) (len pattern)); cbn [orb negb]; [by rewrite scanSpec_short by lia|].
  destruct (anchorIndex_spec mask) as [Hb H255]. destruct (Z.eqb_spec (anchorIndex mask) (len pattern)).
  - apply tested_scan; [lia|lia|lia_w|]. intros off Ho Hl. by apply maskedAt_ret.
  - destruct (at_defined pattern (anchorIndex mask)) as (a & -> & Ha); [lia|]. cbn [obind].
    apply anchored_scan; [lia|lia|lia|done|..].
    + intros off Ho Hl Hmatch.
      rewrite <- (lget_slice buf off (len pattern)) by lia.
      eapply (maskedEq_full pattern mask); try done; [by apply bytes_ok_slice|by apply len_slice; lia|].
      apply H255. lia.
    + intros off Ho Hl. replace (off + anchorIndex mask - anchorIndex mask) with off by lia.
      rewrite maskedAt_ret by lia. unfold matchAt. cbn [obind].
      case_match; [|done]. by rewrite emit_ret by lia.
Qed.
(** An array-of-byte scan is the reference scan.  Searching for the pattern's
    first fully significant byte, on every instruction set, finds exactly the offsets
    where the masked bytes agree, in order, and reads only the buffer. *)
Theorem scanBufferAOB_spec mode buf base pattern mask :
  bytes_ok buf → bytes_ok pattern → 0 < len pattern → len mask = len pattern → len buf < 2 ^ 63 →
  scanBufferAOB mode buf base pattern mask =
  Ret (scanSpec buf (len pattern) base 1 (maskedEq pattern mask)).
Proof. apply scanBufferAOB_ret. Qed.

Lemma scanBufferAOB_spec_witness :
  scanBufferAOB AVX2 [1;72;139;5;9;72;139;6] 4096 [72;139;0] [255;255;240]
  = Ret [(4097, [72;139;5]); (4101, [72;139;6])].
Proof.
  rewrite scanBufferAOB_spec; [reflexivity| | |reflexivity|reflexivity|reflexivity];
    repeat constructor; unfold in_width; lia.
Defined.

Lemma scanBufferBinary_ret buf base pattern mask alignment :
  0 < len pattern → len mask = len pattern → 0 ≤ alignment → len buf + alignment < 2 ^ 63 →
  scanBufferBinary buf base pattern mask alignment =
  Ret (scanSpec buf (len pattern) base (fixAlignment alignment) (maskedEq pattern mask)).
Proof.
  intros Hn Hm Ha Hlen. unfold scanBufferBinary.
  rewrite (proj2 (Z.eqb_neq (len pattern) 0)), Hm, Z.eqb_refl by lia.
  destruct (Z.ltb_spec (len buf) (len pattern)); cbn [orb negb]; [by rewrite scanSpec_short by lia|].
  apply tested_scan; [lia|by apply fixAlignment_pos| |].
  - assert (fixAlignment alignment ≤ alignment + 1) by (unfold fixAlignment; destruct (Z.eqb_spec alignment 0); lia).
    fold (fixAlignment alignment). lia_w.
  - intros off Ho Hl. by apply maskedAt_ret.
Qed.

Lemma scanBufferUnknown_ret buf base alignment valueSize :
  0 < valueSize → 0 ≤ alignment → len buf + alignment < 2 ^ 63 →
  scanBufferUnknown buf base alignment valueSize =
  Ret (scanSpec buf valueSize base (fixAlignment alignment) (λ _, true)).
Proof.
  intros Hn Ha Hlen. unfold scanBufferUnknown.
  rewrite (proj2 (Z.eqb_neq valueSize 0)) by lia.
  destruct (Z.ltb_spec (len buf) valueSize); cbn [orb negb]; [by rewrite scanSpec_short by lia|].
  pose proof (fixAlignment_pos alignment Ha).
  rewrite <- (tested_scan _ _ _ _ (λ _, Ret true)); [done|lia|done| |done].
  assert (fixAlignment alignment ≤ alignment + 1) by (unfold fixAlignment; destruct (Z.eqb_spec alignment 0); lia).
  lia_w.
Qed.
