(* ===== verification/ScanConfig.v ===== *)
(** * Search values

    Models the textual search values of [src/scanner/memory_scanner.cpp]
    ([ScanConfig::parseAOB], [parseBinary], [parseGrouped]), the sizes they imply
    ([groupedTermValueSize], [groupedValueSize], [valueSizeForConfig]) and the
    masked comparison of later scans.  The UTF-16 encoder ([iconv]) and the decimal
    parser of doubles ([std::from_chars]) are library code and parameters. *)

From S2P Require Import Prelude Numeral TargetMachine Types Loops PatternScan.
From Stdlib Require Import SpecFloat.

(** ** Tokens *)

Fixpoint dropSpace (s : bytes) : bytes :=
  match s with c :: s' => if isspace c then dropSpace s' else s | [] => [] end.
Definition trimCopy (value : bytes) : bytes := reverse (dropSpace (reverse (dropSpace value))).
Definition lowerCopy (value : bytes) : bytes := tolower <$> value.

Definition unquoteCopy (value : bytes) : bytes :=
  let trimmed := trimCopy value in
  match trimmed, last trimmed with
  | f :: rest, Some l =>
      if (2 <=? len trimmed) && (((f =? 34) && (l =? 34)) || ((f =? 39) && (l =? 39)))
      then take (length rest - 1) rest else trimmed
  | _, _ => trimmed
  end.

Definition parseInt64Token (text : bytes) : option Z :=
  let token := trimCopy text in
  if bool_decide (token = []) then None else strtoll_all 0 token.
Definition parseSizeToken (text : bytes) : option Z :=
  let token := trimCopy text in
  if bool_decide (token = []) then None else strtoull_all 0 token.

(** [while (ss >> token)]: the maximal runs of non-space characters. *)
Fixpoint tokensAcc (cur : bytes) (s : bytes) : list bytes :=
  match s with
  | [] => if bool_decide (cur = []) then [] else [reverse cur]
  | c :: s =>
      if isspace c
      then (if bool_decide (cur = []) then [] else [reverse cur]) ++ tokensAcc [] s
      else tokensAcc (c :: cur) s
  end.
Definition tokens (s : bytes) : list bytes := tokensAcc [] s.

(** ** Array-of-byte patterns *)

(** The lambda [nib]: value, mask and whether the character is valid. *)
Definition nib (c : Z) : Z * Z * bool :=
  if (c =? "?"%chr) || (c =? "*"%chr) then (0, 0, true)
  else if between "0"%chr c "9"%chr then (c - "0"%chr, 15, true)
  else if between "a"%chr c "f"%chr then (c - "a"%chr + 10, 15, true)
  else if between "A"%chr c "F"%chr then (c - "A"%chr + 10, 15, true)
  else (0, 0, false).
Definition isHex (c : Z) : bool :=
  between "0"%chr c "9"%chr || between "a"%chr c "f"%chr || between "A"%chr c "F"%chr.

(** [byteArray], [byteArrayMask] and [valid]. *)
Record AobState := mkAob { aob_bytes : bytes; aob_mask : bytes; aob_valid : bool }.
Definition pushAob (st : AobState) (b m : Z) (ok : bool) : AobState :=
  mkAob (aob_bytes st ++ [b]) (aob_mask st ++ [m]) (aob_valid st && ok).
Definition invalidate (st : AobState) : AobState := mkAob (aob_bytes st) (aob_mask st) false.

(** Two digits: one byte with a mask per nibble. *)
Definition pushPair (st : AobState) (c d : Z) : AobState :=
  let '(hv, hm, hok) := nib c in
  let '(lv, lm, lok) := nib d in
  pushAob st (u8 (Z.lor (Z.shiftl hv 4) lv)) (u8 (Z.lor (Z.shiftl hm 4) lm)) (hok && lok).
Fixpoint pushPairs (st : AobState) (token : bytes) : AobState :=
  match token with
  | c :: d :: token => pushPairs (pushPair st c d) token
  | _ => st
  end.

Definition aobToken (st : AobState) (token : bytes) : AobState :=
  if bool_decide (token = bs "??") || bool_decide (token = bs "?") || bool_decide (token = bs "*")
  then pushAob st 0 0 true
  else match token with
  | [c; d] => pushPair st c d
  | [_] | [] =>
      let st := if forallb isHex token then st else invalidate st in
      pushAob st (match strto 16 (c_str token) with Some (_, v, _) => u8 v | None => 0 end) 255 true
  | _ =>
      let st := if forallb isHex token then st else invalidate st in
      if negb (aob_valid st) || negb (len token mod 2 =? 0) then invalidate st
      else pushPairs st token
  end.

(** The result, [byteArray] and [byteArrayMask]. *)
Definition parseAOB (pattern : bytes) : bool * bytes * bytes :=
  let st := foldl aobToken (mkAob [] [] true) (tokens pattern) in
  (aob_valid st && negb (bool_decide (aob_bytes st = [])), aob_bytes st, aob_mask st).

(** ** Binary patterns *)

Record BinState := mkBin {
  bin_bytes : bytes; bin_mask : bytes; bin_cur : Z; bin_curMask : Z; bin_count : Z
}.
Definition binChar (st : BinState) (c : Z) : BinState :=
  if c =? " "%chr then st
  else if (c =? "0"%chr) || (c =? "1"%chr) || (c =? "?"%chr) || (c =? "*"%chr) then
    let cur := u8 (Z.shiftl (bin_cur st) 1) in
    let msk := u8 (Z.shiftl (bin_curMask st) 1) in
    let '(cur, msk) :=
      if c =? "1"%chr then (Z.lor cur 1, Z.lor msk 1)
      else if c =? "0"%chr then (cur, Z.lor msk 1) else (cur, msk) in
    let count := bin_count st + 1 in
    if count =? 8 then mkBin (bin_bytes st ++ [cur]) (bin_mask st ++ [msk]) 0 0 0
    else mkBin (bin_bytes st) (bin_mask st) cur msk count
  else st.
(** [byteArray] and [byteMask] (also copied to [byteArrayMask]). *)
Definition parseBinary (pattern : bytes) : bytes * bytes :=
  let st := foldl binChar (mkBin [] [] 0 0 0) pattern in
  if 0 <? bin_count st then
    (bin_bytes st ++ [u8 (Z.shiftl (bin_cur st) (8 - bin_count st))],
     bin_mask st ++ [u8 (Z.shiftl (bin_curMask st) (8 - bin_count st))])
  else (bin_bytes st, bin_mask st).

(** ** Grouped terms *)

Record GroupedTerm := mkTerm {
  g_type : ValueType; g_offset : Z; g_int : Z; g_float : spec_float; g_string : bytes;
  g_bytes : bytes; g_arrayMask : bytes; g_bitMask : bytes
}.

(** [compareMaskedBytes]; [currentVal] is what the pointer points to. *)
Definition compareMaskedBytes (currentVal pattern mask : bytes) : outcome bool :=
  if bool_decide (pattern = []) then Ret false else
  allFrom (length pattern) 1 (λ i,
    let* m := if i <? len mask then at_ mask i else Ret 255 in
    let* c := at_ currentVal i in
    let* p := at_ pattern i in
    Ret (Z.land c m =? Z.land p m)) 0.

(** [s.rfind(c)] / [s.find(c)]: what precedes and what follows the character. *)
Fixpoint splitFirst (c : Z) (s : bytes) : option (bytes * bytes) :=
  match s with
  | [] => None
  | d :: s => if d =? c then Some ([], s)
              else match splitFirst c s with Some (a, b) => Some (d :: a, b) | None => None end
  end.
Definition splitLast (c : Z) (s : bytes) : option (bytes * bytes) :=
  match splitFirst c (reverse s) with
  | Some (a, b) => Some (reverse b, reverse a)
  | None => None
  end.
(** [std::getline(ss, term, ';')] until the end of the stream. *)
Fixpoint splitOn (c : Z) (s : bytes) : list bytes :=
  match s with
  | [] => []
  | d :: s =>
      if d =? c then [] :: splitOn c s
      else match splitOn c s with
           | t :: ts => (d :: t) :: ts
           | [] => [[d]]
           end
  end.

Section Grouped.
(** [utf16Bytes(text, order)] and the whole-string parse of a double. *)
Context (utf16Bytes : bytes → ByteOrder → bytes) (parseDouble : bytes → option spec_float).

(** [parseDoubleToken]: commas become points, one leading plus is skipped. *)
Definition parseDoubleToken (text : bytes) : option spec_float :=
  let token := trimCopy text in
  if bool_decide (token = []) then None else
  let token := (λ c, if c =? ","%chr then "."%chr else c) <$> token in
  parseDouble (match token with c :: rest => if c =? "+"%chr then rest else token | [] => token end).

Definition groupedTermValueSize (term : GroupedTerm) (pointerWidth : Z) : Z :=
  match g_type term with
  | VByte => 1
  | VInt16 => 2
  | VInt32 | VFloat => 4
  | VPointer => pointerWidth
  | VInt64 | VDouble => 8
  | VString => Z.max 1 (len (g_string term))
  | VUnicodeString => Z.max 2 (len (utf16Bytes (g_string term) Little))
  | VByteArray | VBinary => Z.max 1 (len (g_bytes term))
  | _ => 0
  end.

Definition groupedTypeOf (typeToken : bytes) : option ValueType :=
  let is_in names := existsb (λ n, bool_decide (typeToken = bs n)) names in
  if is_in ["byte"; "i8"; "int8"; "1"]%string then Some VByte
  else if is_in ["i16"; "int16"; "short"; "word"; "2"]%string then Some VInt16
  else if is_in ["i32"; "int32"; "dword"; "int"; "4"]%string then Some VInt32
  else if is_in ["i64"; "int64"; "long"; "qword"; "8"]%string then Some VInt64
  else if is_in ["pointer"; "ptr"]%string then Some VPointer
  else if is_in ["float"; "single"]%string then Some VFloat
  else if is_in ["double"]%string then Some VDouble
  else if is_in ["string"; "str"]%string then Some VString
  else if is_in ["unicode"; "utf16"; "wstring"]%string then Some VUnicodeString
  else if is_in ["aob"; "bytearray"]%string then Some VByteArray
  else if is_in ["binary"; "bin"]%string then Some VBinary
  else None.

(** The [fail(message)] of term number [n]. *)
Definition failTerm {A} (message : string) (n : Z) : bytes + A :=
  inl (bs message ++ bs " grouped term " ++ to_string n).

(** The value of a term, by its type; [blank] carries the type and offset. *)
Definition groupedValue (blank : GroupedTerm) (valueToken : bytes) (n : Z) : bytes + GroupedTerm :=
  let '(mkTerm ty off i f str ba am bm) := blank in
  let int what :=
    match parseInt64Token valueToken with
    | Some v => inr (mkTerm ty off v f str ba am bm)
    | None => failTerm ("invalid " +:+ what +:+ " value in") n
    end in
  let real what :=
    match parseDoubleToken valueToken with
    | Some v => inr (mkTerm ty off i v str ba am bm)
    | None => failTerm ("invalid " +:+ what +:+ " value in") n
    end in
  let text what :=
    let v := unquoteCopy valueToken in
    if bool_decide (v = []) then failTerm ("empty " +:+ what +:+ " in") n
    else inr (mkTerm ty off i f v ba am bm) in
  match ty with
  | VByte => int "byte"%string
  | VInt16 => int "i16"%string
  | VInt32 => int "i32"%string
  | VInt64 => int "i64"%string
  | VPointer => int "pointer"%string
  | VFloat => real "float"%string
  | VDouble => real "double"%string
  | VString => text "string"%string
  | VUnicodeString => text "unicode string"%string
  | VByteArray =>
      let '(_, b, m) := parseAOB valueToken in
      if bool_decide (b = []) then failTerm "empty AOB pattern in" n
      else inr (mkTerm ty off i f str b m bm)
  | _ =>
      let '(b, m) := parseBinary valueToken in
      if bool_decide (b = []) then failTerm "empty binary pattern in" n
      else inr (mkTerm ty off i f str b m m)
  end.

(** One iteration of the loop over the terms: the term, when the text is not blank. *)
Definition groupedTerm (termText : bytes) (n : Z) : bytes + GroupedTerm :=
  match splitLast "@"%chr termText with
  | None => failTerm "missing @offset in" n
  | Some (l, o) =>
      let lhs := trimCopy l in
      match parseSizeToken (trimCopy o) with
      | None => failTerm "invalid offset in" n
      | Some offset =>
          match splitFirst ":"%chr lhs with
          | None => failTerm "missing type:value in" n
          | Some (t, v) =>
              let typeToken := lowerCopy (trimCopy t) in
              let valueToken := trimCopy v in
              if bool_decide (valueToken = []) then failTerm "missing value in" n else
              match groupedTypeOf typeToken with
              | None => inl (bs "unknown grouped value type '" ++ typeToken ++ bs "' in term " ++ to_string n)
              | Some ty =>
                  match groupedValue (mkTerm ty offset 0 (S754_zero false) [] [] [] []) valueToken n with
                  | inl e => inl e
                  | inr term =>
                      let termSize := groupedTermValueSize term 8 in
                      if termSize =? 0
                      then inl (bs "unsupported grouped value type in term " ++ to_string n)
                      else if SIZE_MAX - termSize <? g_offset term
                      then failTerm "offset overflow in" n
                      else inr term
                  end
              end
          end
      end
  end.

Fixpoint groupedLoop (texts : list bytes) (n : Z) (acc : list GroupedTerm)
  : bytes + list GroupedTerm :=
  match texts with
  | [] => if bool_decide (acc = []) then inl (bs "grouped expression produced no terms") else inr acc
  | t :: texts =>
      let termText := trimCopy t in
      if bool_decide (termText = []) then groupedLoop texts n acc
      else match groupedTerm termText (n + 1) with
           | inl e => inl e
           | inr term => groupedLoop texts (n + 1) (acc ++ [term])
           end
  end.

(** [parseGrouped]: the error, or the new [groupedTerms] (cleared on error). *)
Definition parseGrouped (expression : bytes) : bytes + list GroupedTerm :=
  let expr := trimCopy expression in
  if bool_decide (expr = []) then inl (bs "grouped expression is empty")
  else groupedLoop (splitOn ";"%chr expr) 0 [].

(** [groupedValueSize]: the end of the last term; 0 when a term overflows. *)
Fixpoint groupedValueSize (terms : list GroupedTerm) (pointerWidth blockSize : Z) : Z :=
  match terms with
  | [] => blockSize
  | term :: terms =>
      let termSize := groupedTermValueSize term (if pointerWidth =? 0 then 8 else pointerWidth) in
      if termSize =? 0 then groupedValueSize terms pointerWidth blockSize
      else if SIZE_MAX - termSize <? g_offset term then 0
      else groupedValueSize terms pointerWidth (Z.max blockSize (g_offset term + termSize))
  end.
End Grouped.

(** [memoryTypeAllowed]. *)
Definition memoryTypeAllowed (scanPrivate scanImage scanMapped : bool) (t : MemType) : bool :=
  match t with
  | MemPrivate => scanPrivate
  | MemImage => scanImage
  | MemMapped => scanMapped
  end.

(** ** Masked comparison *)

(** [compareMaskedBytes] on a mask of the pattern's length is the masked equality of
    the first scan, and reads only the pattern's length. *)
Lemma compareMaskedBytes_ret v pattern mask :
  pattern ≠ [] → len mask = len pattern → len pattern ≤ len v →
  compareMaskedBytes v pattern mask = Ret (maskedEq pattern mask (slice v 0 (len pattern))).
Proof.
  intros Hne Hm Hl. unfold compareMaskedBytes. rewrite bool_decide_eq_false_2 by done.
  pose proof (len_nonneg pattern). unfold len in *.
  rewrite (allFrom_ret _ _ _ (maskedEqAt (slice v 0 (len pattern)) pattern mask)); unfold len in *.
  - rewrite masked_all; [done| |lia]. pose proof (len_slice v 0 (len pattern)). unfold len in *. lia.
  - intros k Hk. unfold maskedEqAt. rewrite (proj2 (Z.ltb_lt _ _)) by lia.
    destruct (at_defined pattern (0 + 1 * k)) as (p & -> & ->); [unfold len; lia|].
    destruct (at_defined mask (0 + 1 * k)) as (m & -> & ->); [unfold len; lia|].
    rewrite lget_slice by lia. cbn [obind].
    destruct (at_defined v (0 + 1 * k)) as (c & Hc & Hc'); [unfold len; lia|].
    rewrite Hc. by replace (0 + (0 + 1 * k)) with (0 + 1 * k) by lia; rewrite Hc'.
Qed.

(** ** Binary patterns *)

Definition isBinChar (c : Z) : bool :=
  (c =? "0"%chr) || (c =? "1"%chr) || (c =? "?"%chr) || (c =? "*"%chr).
Definition isOne (c : Z) : bool := c =? "1"%chr.
Definition isFixed (c : Z) : bool := (c =? "0"%chr) || (c =? "1"%chr).

(** [b] holds, from its top bit, the bits of characters [8i ..] of the digits. *)
Definition holdsBit (f : Z → bool) (l : bytes) (k c : Z) : Prop :=
  ∃ b, lget l (k / 8) = Some b ∧ Z.testbit b (7 - k mod 8) = f c.

Definition bin_inv (ds : bytes) (st : BinState) : Prop :=
  8 * len (bin_bytes st) + bin_count st = len ds ∧ len (bin_mask st) = len (bin_bytes st) ∧
  0 ≤ bin_count st < 8 ∧ in_width (bin_count st) (bin_cur st) ∧ in_width (bin_count st) (bin_curMask st) ∧
  (∀ k c, lget ds k = Some c → k < 8 * len (bin_bytes st) →
     holdsBit isOne (bin_bytes st) k c ∧ holdsBit isFixed (bin_mask st) k c) ∧
  (∀ k c, lget ds k = Some c → 8 * len (bin_bytes st) ≤ k →
     Z.testbit (bin_cur st) (len ds - 1 - k) = isOne c ∧
     Z.testbit (bin_curMask st) (len ds - 1 - k) = isFixed c).

Lemma lget_end {A} (l : list A) x i : i = len l → lget (l ++ [x]) i = Some x.
Proof. intros ->. rewrite lget_app_r by lia. by rewrite Z.sub_diag. Qed.
Lemma lget_snoc {A} (l : list A) x y i :
  lget (l ++ [x]) i = Some y → (i < len l ∧ lget l i = Some y) ∨ (i = len l ∧ y = x).
Proof.
  intros H. pose proof (lget_Some_lt _ _ _ H) as Hlt. rewrite len_snoc in Hlt.
  destruct (Z.lt_ge_cases i (len l)); [left; rewrite lget_app_l in H by lia; done|right].
  rewrite lget_app_r in H by lia. replace (i - len l) with 0 in H by lia. rewrite lget_0 in H.
  split; [lia|congruence].
Qed.

Lemma holdsBit_app f l l' k c : holdsBit f l k c → holdsBit f (l ++ l') k c.
Proof.
  intros (b & Hb & Ht). exists b. split; [|done]. rewrite lget_app_l; [done|].
  apply lget_Some_lt in Hb. lia.
Qed.

(** Shifting a bit into a value that still has room. *)
Lemma shift_bit cur n (b : bool) : 0 ≤ n < 8 → in_width n cur →
  (if b then Z.lor (u8 (Z.shiftl cur 1)) 1 else u8 (Z.shiftl cur 1)) = 2 * cur + Z.b2z b ∧
  in_width (n + 1) (2 * cur + Z.b2z b).
Proof.
  intros Hn Hc. assert (2 ^ n ≤ 2 ^ 7) by (apply Z.pow_le_mono_r; lia). unfold in_width in Hc.
  change (2 ^ 7) with 128 in *.
  assert (Z.shiftl cur 1 = 2 * cur) as Hsh by (rewrite Z.shiftl_mul_pow2 by lia; lia).
  rewrite (wrap_small 8) by (rewrite Hsh; unfold in_width; lia).
  split; [|unfold in_width; rewrite Z.pow_add_r by lia; destruct b; simpl; lia].
  destruct b; simpl Z.b2z; [|lia]. rewrite lor_shiftl_add; [lia|lia|unfold in_width; lia].
Qed.

Lemma binChar_step st c : isBinChar c = true → 0 ≤ bin_count st < 8 →
  in_width (bin_count st) (bin_cur st) → in_width (bin_count st) (bin_curMask st) →
  binChar st c =
    let cur := 2 * bin_cur st + Z.b2z (isOne c) in
    let msk := 2 * bin_curMask st + Z.b2z (isFixed c) in
    if bin_count st + 1 =? 8 then mkBin (bin_bytes st ++ [cur]) (bin_mask st ++ [msk]) 0 0 0
    else mkBin (bin_bytes st) (bin_mask st) cur msk (bin_count st + 1).
Proof.
  intros Hc Hn Hcur Hmsk. unfold binChar, isBinChar, isFixed, isOne in *.
  rewrite Hc. replace (c =? " "%chr) with false
    by (symmetry; apply Z.eqb_neq; intros ->; done).
  pose proof (shift_bit (bin_cur st) (bin_count st) (c =? "1"%chr) Hn Hcur) as [<- _].
  pose proof (shift_bit (bin_curMask st) (bin_count st) ((c =? "0"%chr) || (c =? "1"%chr)) Hn Hmsk) as [<- _].
  destruct (c =? "1"%chr); [by rewrite orb_true_r|]. rewrite orb_false_r. by destruct (c =? "0"%chr).
Qed.

Lemma bin_inv_step ds st c : bin_inv ds st → isBinChar c = true → bin_inv (ds ++ [c]) (binChar st c).
Proof.
  intros (Hlen & Hm & Hn & Hcur & Hmsk & Hfull & Hpart) Hc.
  rewrite binChar_step by done. cbv zeta.
  pose proof (shift_bit (bin_cur st) (bin_count st) (isOne c) Hn Hcur) as [_ Hw1].
  pose proof (shift_bit (bin_curMask st) (bin_count st) (isFixed c) Hn Hmsk) as [_ Hw2].
  set (cur := 2 * bin_cur st + Z.b2z (isOne c)) in *.
  set (msk := 2 * bin_curMask st + Z.b2z (isFixed c)) in *.
  assert (∀ k d, lget (ds ++ [c]) k = Some d → 8 * len (bin_bytes st) ≤ k →
    Z.testbit cur (len ds - k) = isOne d ∧ Z.testbit msk (len ds - k) = isFixed d) as Hnew.
  { intros k d [[Hk Hd]|[-> ->]]%lget_snoc Hge.
    - destruct (Hpart k d Hd Hge) as [<- <-]. subst cur msk.
      replace (len ds - k) with (Z.succ (len ds - 1 - k)) by lia.
      by rewrite !Z.testbit_succ_r by lia.
    - subst cur msk. by rewrite Z.sub_diag, !Z.testbit_0_r. }
  unfold bin_inv. rewrite len_snoc.
  destruct (Z.eqb_spec (bin_count st + 1) 8) as [He|He];
    cbn [bin_bytes bin_mask bin_count bin_cur bin_curMask]; rewrite ?len_snoc.
  - split_and!; [lia|lia|lia|lia|done|done| |].
    + intros k d Hd Hk. destruct (Z.lt_ge_cases k (8 * len (bin_bytes st))) as [Hlt|Hge].
      * destruct (Hfull k d) as [H1 H2]; [|done|by split; apply holdsBit_app].
        by rewrite lget_app_l in Hd by lia.
      * destruct (Hnew k d Hd Hge) as [H1 H2].
        assert (k / 8 = len (bin_bytes st)) as Hq by (symmetry; apply Z.div_unique with (k - 8 * len (bin_bytes st)); lia).
        assert (k mod 8 = k - 8 * len (bin_bytes st)) as Hr by (rewrite Z.mod_eq, Hq; lia).
        unfold holdsBit. rewrite Hq, Hr. split; [exists cur|exists msk];
          (split; [apply lget_end; lia|]);
          [rewrite <- H1|rewrite <- H2]; f_equal; lia.
    + intros k d Hd%lget_Some_lt Hk. rewrite len_snoc in Hd. lia.
  - split_and!; [lia|done|lia|lia|done|done| |].
    + intros k d Hd Hk. apply Hfull; [|done]. by rewrite lget_app_l in Hd by lia.
    + intros k d Hd Hk. replace (len ds + 1 - 1 - k) with (len ds - k) by lia. by apply Hnew.
Qed.

Lemma bin_inv_all pattern st ds :
  bin_inv ds st → bin_inv (ds ++ List.filter isBinChar pattern) (foldl binChar st pattern).
Proof.
  revert st ds. induction pattern as [|c pattern IH]; intros st ds Hi; [by rewrite app_nil_r|].
  cbn [foldl List.filter]. destruct (isBinChar c) eqn:Hc.
  - rewrite cons_middle, app_assoc. apply IH. by apply bin_inv_step.
  - apply IH. unfold binChar. unfold isBinChar in Hc. rewrite Hc. by destruct (c =? " "%chr).
Qed.

Lemma final_bits cur n : 0 < n < 8 → in_width n cur →
  ∀ i, 0 ≤ i < 8 → Z.testbit (u8 (Z.shiftl cur (8 - n))) (7 - i) = Z.testbit cur (n - 1 - i).
Proof.
  intros Hn Hc i Hi. rewrite testbit_wrap by lia. rewrite (proj2 (Z.ltb_lt _ _)) by lia.
  rewrite Z.shiftl_spec by lia. simpl. f_equal. lia.
Qed.

(** What a binary pattern means.  The digits [0], [1], [?] and [*] of the text
    fill the bytes from the top bit on, eight to a byte; [byteMask] is set exactly at
    the digits [0] and [1], [byteArray] exactly at the ones, and the padding of the
    last byte is a wildcard. *)
Theorem parseBinary_spec pattern :
  let ds := List.filter isBinChar pattern in
  let '(b, m) := parseBinary pattern in
  len b = (len ds + 7) / 8 ∧ len m = len b ∧
  (∀ k c, lget ds k = Some c → holdsBit isOne b k c ∧ holdsBit isFixed m k c) ∧
  (∀ k, len ds ≤ k < 8 * len m → ∃ x, lget m (k / 8) = Some x ∧ Z.testbit x (7 - k mod 8) = false).
Proof.
  cbv zeta. set (ds := List.filter isBinChar pattern).
  assert (bin_inv ds (foldl binChar (mkBin [] [] 0 0 0) pattern)) as Hi.
  { change ds with ([] ++ ds). apply bin_inv_all. unfold bin_inv.
    split_and!; try done; intros k c Hk%lget_Some_lt; unfold len in Hk; simpl in Hk; lia. }
  unfold parseBinary. set (st := foldl _ _ _) in *. clearbody st ds.
  destruct Hi as (Hlen & Hm & Hn & Hcur & Hmsk & Hfull & Hpart).
  destruct (Z.ltb_spec 0 (bin_count st)) as [Hpos|Hz].
  - rewrite !len_snoc. set (L := len (bin_bytes st)) in *.
    assert (∀ k, 8 * L ≤ k < 8 * (L + 1) → k / 8 = L ∧ k mod 8 = k - 8 * L) as Hdiv.
    { intros k Hk. assert (k / 8 = L) by (symmetry; apply Z.div_unique with (k - 8 * L); lia).
      split; [done|]. rewrite Z.mod_eq by lia. lia. }
    pose proof (final_bits (bin_cur st) (bin_count st) ltac:(lia) Hcur) as Hb1.
    pose proof (final_bits (bin_curMask st) (bin_count st) ltac:(lia) Hmsk) as Hb2.
    split_and!; [apply Z.div_unique with (bin_count st - 1); lia|lia| |].
    + intros k c Hk. destruct (Z.lt_ge_cases k (8 * L)) as [Hlt|Hge].
      { destruct (Hfull k c Hk Hlt). by split; apply holdsBit_app. }
      pose proof (lget_Some_lt _ _ _ Hk). destruct (Hpart k c Hk Hge) as [H1 H2].
      destruct (Hdiv k ltac:(lia)) as [Hq Hr]. unfold holdsBit. rewrite Hq, Hr.
      split; eexists; (split; [apply lget_end; lia|]);
        [rewrite Hb1 by lia; rewrite <- H1|rewrite Hb2 by lia; rewrite <- H2]; f_equal; lia.
    + intros k Hk. destruct (Hdiv k ltac:(lia)) as [Hq Hr]. rewrite Hq, Hr.
      eexists. split; [apply lget_end; lia|].
      rewrite Hb2 by lia. apply Z.testbit_neg_r. lia.
  - split_and!; [apply Z.div_unique with 7; lia|lia| |lia].
    intros k c Hk. apply Hfull; [done|]. pose proof (lget_Some_lt _ _ _ Hk). lia.
Qed.

(** ** Grouped terms *)

Section GroupedLemmas.
Context (utf16Bytes : bytes → ByteOrder → bytes) (parseDouble : bytes → option spec_float).
Local Abbreviation termSize := (groupedTermValueSize utf16Bytes).

(** The bounds that parsing establishes for a term. *)
Definition term_fits (t : GroupedTerm) : Prop :=
  0 ≤ g_offset t ∧ 0 < termSize t 8 ∧ g_offset t + termSize t 8 ≤ SIZE_MAX.

Lemma parseSizeToken_bound text n : parseSizeToken text = Some n → 0 ≤ n ≤ UINT64_MAX.
Proof. unfold parseSizeToken. case_match; [done|]. apply strtoull_all_bound. auto. Qed.

Lemma groupedValue_offset blank v n t :
  groupedValue parseDouble blank v n = inr t → g_offset t = g_offset blank ∧ g_type t = g_type blank.
Proof.
  destruct blank as [ty off i f str ba am bm]. unfold groupedValue, failTerm. intros H.
  destruct ty; repeat case_match; simplify_eq; done.
Qed.

Lemma groupedTypeOf_size tok ty t pw :
  groupedTypeOf tok = Some ty → g_type t = ty → 0 < pw → 0 < termSize t pw.
Proof.
  unfold groupedTypeOf, groupedValueSize, groupedTermValueSize. intros H <- Hpw.
  repeat match type of H with context [if ?b then _ else _] => destruct b end;
    simplify_eq; rewrite <- H; lia.
Qed.

Lemma groupedTerm_fits text n t :
  groupedTerm utf16Bytes parseDouble text n = inr t → term_fits t ∧ ∀ pw, 0 < pw → 0 < termSize t pw.
Proof.
  unfold groupedTerm, failTerm. destruct (splitLast "@"%chr text) as [[l o]|]; [|done].
  destruct (parseSizeToken (trimCopy o)) as [offset|] eqn:Ho; [|done].
  destruct (splitFirst ":"%chr (trimCopy l)) as [[ty v]|]; [|done].
  case_match; [done|]. destruct (groupedTypeOf _) as [vt|] eqn:Hty; [|done].
  destruct (groupedValue _ _ _ _) as [|term] eqn:Hv; [done|].
  apply groupedValue_offset in Hv as [Hoff Hgt]. cbn in Hoff, Hgt.
  apply parseSizeToken_bound in Ho.
  destruct (Z.eqb_spec (termSize term 8) 0) as [|Hnz]; [done|].
  destruct (Z.ltb_spec (SIZE_MAX - termSize term 8) (g_offset term)) as [|Hfit]; [done|].
  intros [= <-]. pose proof (groupedTypeOf_size _ _ _ 8 Hty Hgt ltac:(lia)).
  split; [|intros pw; by eapply groupedTypeOf_size].
  unfold term_fits. lia.
Qed.

Lemma groupedLoop_fits texts n acc terms :
  groupedLoop utf16Bytes parseDouble texts n acc = inr terms →
  Forall (λ t, term_fits t ∧ ∀ pw, 0 < pw → 0 < termSize t pw) acc →
  terms ≠ [] ∧ Forall (λ t, term_fits t ∧ ∀ pw, 0 < pw → 0 < termSize t pw) terms.
Proof.
  revert n acc. induction texts as [|t texts IH]; intros n acc; cbn [groupedLoop].
  { case_match; [done|]. intros. simplify_eq. bool_to_prop. done. }
  case_match; [by apply IH|]. destruct (groupedTerm _ _ _ _) as [|term] eqn:Ht; [done|].
  intros Hl Hacc. apply (IH _ _ Hl). apply Forall_app_2; [done|]. constructor; [|done].
  by apply groupedTerm_fits in Ht.
Qed.

Lemma termSize_le t pw : 0 ≤ pw ≤ 8 → termSize t pw ≤ termSize t 8.
Proof. unfold groupedTermValueSize. intros. destruct (g_type t); lia. Qed.

Lemma groupedValueSize_covers terms pw bs :
  (if pw =? 0 then 8 else pw) ≤ 8 → 0 ≤ pw → 0 ≤ bs ≤ SIZE_MAX →
  Forall (λ t, term_fits t ∧ ∀ pw, 0 < pw → 0 < termSize t pw) terms →
  let width := if pw =? 0 then 8 else pw in
  let size := groupedValueSize utf16Bytes terms pw bs in
  bs ≤ size ≤ SIZE_MAX ∧
  Forall (λ t, 0 < termSize t width ∧ 0 ≤ g_offset t ∧ g_offset t + termSize t width ≤ size) terms.
Proof.
  intros Hw Hpw. cbv zeta. revert bs. induction terms as [|t terms IH]; intros bs Hbs Hall.
  { split; [cbn [groupedValueSize]; lia|constructor]. }
  inversion Hall as [|? ? [Hfit Hpos] Hrest]; subst. cbn [groupedValueSize].
  set (width := if pw =? 0 then 8 else pw) in *.
  assert (0 < width) by (subst width; destruct (Z.eqb_spec pw 0); lia).
  specialize (Hpos width ltac:(done)). destruct Hfit as (Ho & H8 & Hmax).
  pose proof (termSize_le t width ltac:(lia)).
  rewrite (proj2 (Z.eqb_neq _ _)) by lia. rewrite (proj2 (Z.ltb_ge _ _)) by lia.
  destruct (IH (Z.max bs (g_offset t + termSize t width)) ltac:(lia) Hrest) as [Hb Hf].
  split; [lia|]. constructor; [|done]. lia.
Qed.

(** The terms of a grouped expression fit their block.  When [parseGrouped]
    accepts an expression it yields at least one term, and for every pointer width
    the block size is positive and contains every term completely, without overflow
    of [size_t]. *)
Theorem parseGrouped_block expression terms pointerWidth :
  parseGrouped utf16Bytes parseDouble expression = inr terms → 0 ≤ pointerWidth ≤ 8 →
  let width := if pointerWidth =? 0 then 8 else pointerWidth in
  let block := groupedValueSize utf16Bytes terms pointerWidth 0 in
  terms ≠ [] ∧ 0 < block ≤ SIZE_MAX ∧
  Forall (λ t, 0 < groupedTermValueSize utf16Bytes t width ∧ 0 ≤ g_offset t ∧
               g_offset t + groupedTermValueSize utf16Bytes t width ≤ block) terms.
Proof.
  unfold parseGrouped. case_match; [done|]. intros Hp Hpw. cbv zeta.
  destruct (groupedLoop_fits _ _ _ _ Hp) as [Hne Hall]; [constructor|].
  pose proof (groupedValueSize_covers terms pointerWidth 0) as Hc. cbv zeta in Hc.
  destruct Hc as [Hb Hf]; [destruct (pointerWidth =? 0); lia|lia|lia_w|done|].
  split; [done|]. split; [|done].
  destruct terms as [|t terms]; [done|]. inversion Hf as [|? ? Ht ?]; subst. lia.
Qed.
End GroupedLemmas.

Lemma parseGrouped_block_witness :
  ∃ terms, parseGrouped (λ s _, s) (λ _, None) (bs "i32:100@0; byte:7@8 ;aob:48 8B ??@0x10") = inr terms ∧
    0 < groupedValueSize (λ s _, s) terms 8 0 ≤ SIZE_MAX ∧ groupedValueSize (λ s _, s) terms 8 0 = 19.
Proof.
  eexists. split; [reflexivity|]. split; [|reflexivity].
  edestruct (parseGrouped_block (λ s _, s) (λ _, None) (bs "i32:100@0; byte:7@8 ;aob:48 8B ??@0x10"))
    as (_ & H & _); [reflexivity|split; [|apply (Z.le_refl 8)]; lia|exact H].
Defined.
