(* ===== verification/ScanNumber.v ===== *)
(** * Numeric search values

    Models [src/scanner/scan_number.cpp]: the strict parser of a numeric search value,
    the exact integer boundary it keeps beside the double ([AllIntegerValue]), the
    comparison of a 64-bit value with that boundary, and the fields of [ScanConfig]
    ([src/scanner/memory_scanner.hpp]) that [parseAllValues] and [parseFloatingValues]
    set.  [std::from_chars] on a double is a parameter. *)

From Stdlib Require Import SpecFloat.
From S2P Require Import Prelude Numeral TargetMachine Types Loops PatternScan ScanConfig.

(** ** The configuration of a scan *)

Record AllIntegerValue := mkAll {
  magnitude : Z; negative : bool; fractional : bool; outsideMagnitude : bool; unordered : bool
}.
Inductive ProtMatch := ProtAny | ProtYes | ProtNo.
(** The members of [ScanConfig] a scan reads; the expressions they were parsed from
    ([binaryString], [groupedExpression]) are not kept. *)
Record ScanConfig := mkScanConfig {
  sc_valueType : ValueType; sc_byteOrder : ByteOrder; sc_pointerWidth : Z; sc_compareType : ScanCompare;
  sc_alignment : Z; sc_startAddress : Z; sc_stopAddress : Z;
  sc_writableMatch : ProtMatch; sc_executableMatch : ProtMatch;
  sc_scanPrivate : bool; sc_scanImage : bool; sc_scanMapped : bool;
  sc_roundingType : Z; sc_floatDecimals : Z; sc_floatTolerance : spec_float;
  sc_percentageScan : bool; sc_percentageValue : spec_float; sc_percentageValue2 : spec_float;
  sc_intValue : Z; sc_intValue2 : Z; sc_floatValue : spec_float; sc_floatValue2 : spec_float;
  sc_allIntegerValue : option AllIntegerValue; sc_allIntegerValue2 : option AllIntegerValue;
  sc_stringValue : bytes; sc_stringEncoding : bytes; sc_caseSensitive : bool;
  sc_byteArray : bytes; sc_byteArrayMask : bytes; sc_byteMask : bytes;
  sc_groupedTerms : list GroupedTerm; sc_customFormula : bytes; sc_customValueSize : Z
}.
(** A configuration with the search values replaced. *)
Definition withValues (c : ScanConfig) (all all2 : option AllIntegerValue) (int int2 : Z)
    (float float2 : spec_float) (decimals : Z) : ScanConfig :=
  mkScanConfig (sc_valueType c) (sc_byteOrder c) (sc_pointerWidth c) (sc_compareType c)
    (sc_alignment c) (sc_startAddress c) (sc_stopAddress c) (sc_writableMatch c) (sc_executableMatch c)
    (sc_scanPrivate c) (sc_scanImage c) (sc_scanMapped c) (sc_roundingType c) decimals (sc_floatTolerance c)
    (sc_percentageScan c) (sc_percentageValue c) (sc_percentageValue2 c) int int2 float float2 all all2
    (sc_stringValue c) (sc_stringEncoding c) (sc_caseSensitive c) (sc_byteArray c) (sc_byteArrayMask c)
    (sc_byteMask c) (sc_groupedTerms c) (sc_customFormula c) (sc_customValueSize c).

(** ** Parsing a number *)

Record Number := mkNumber { integer : AllIntegerValue; floating : spec_float; decimals : Z }.
Definition zeroInteger : AllIntegerValue := mkAll 0 false false false false.
(** The conversion of an integer to [double]. *)
Definition doubleOfInt (z : Z) : spec_float := binary_normalize 53 1024 z 0 false.
Definition isFinite (f : spec_float) : bool := match f with S754_infinity _ | S754_nan => false | _ => true end.
Definition isNan (f : spec_float) : bool := match f with S754_nan => true | _ => false end.

Definition numberBlank (c : Z) : bool := (c =? 32) || (c =? 9) || (c =? 13) || (c =? 10).
Fixpoint dropBlank (s : bytes) : bytes :=
  match s with c :: s' => if numberBlank c then dropBlank s' else s | [] => [] end.
Definition trimBlank (s : bytes) : bytes := reverse (dropBlank (reverse (dropBlank s))).

(** The hexadecimal branch: the low 64 bits as a two's complement integer. *)
Definition hexNumber (neg : bool) (body : bytes) : option Number :=
  match from_chars 64 16 body with
  | Some (bits, []) =>
      if neg && (2 ^ 63 <? bits) then None
      else let bits := if neg then u64 (0 - bits) else bits in
           let value := i64 bits in
           Some (mkNumber (mkAll (if value <? 0 then u64 (0 - bits) else bits) (value <? 0) false false false)
                   (doubleOfInt value) 0)
  | _ => None
  end.

(** The loop over the significand: its digits, how many follow the separator, the rest. *)
Fixpoint significandLoop (body : bytes) (digits : list Z) (separator : bool) (fractionalDigits : Z)
  : list Z * Z * bytes :=
  match body with
  | c :: rest =>
      if isdigit c then significandLoop rest (digits ++ [c - "0"%chr]) separator (if separator then fractionalDigits + 1 else fractionalDigits)
      else if ((c =? "."%chr) || (c =? ","%chr)) && negb separator then significandLoop rest digits true fractionalDigits
      else (digits, fractionalDigits, body)
  | [] => (digits, fractionalDigits, [])
  end.
(** The digits of the exponent, which saturates. *)
Fixpoint exponentLoop (body : bytes) (exponent : Z) : Z * bytes :=
  match body with
  | c :: rest => if isdigit c then exponentLoop rest (Z.min 8192 (exponent * 10 + (c - "0"%chr))) else (exponent, body)
  | [] => (exponent, [])
  end.
(** The optional exponent: [None] when it has no digit. *)
Definition exponentPart (body : bytes) : option (Z * bytes) :=
  match body with
  | c :: rest =>
      if (c =? "e"%chr) || (c =? "E"%chr) then
        let '(neg, rest) := match rest with
                            | s :: tail => if (s =? "+"%chr) || (s =? "-"%chr) then (s =? "-"%chr, tail) else (false, rest)
                            | [] => (false, []) end in
        match rest with
        | d :: _ => if isdigit d then let '(e, rest) := exponentLoop rest 0 in Some (if neg then - e else e, rest) else None
        | [] => None
        end
      else Some (0, body)
  | [] => Some (0, [])
  end.

Fixpoint leadingZeros (digits : list Z) : Z :=
  match digits with d :: rest => if d =? 0 then 1 + leadingZeros rest else 0 | [] => 0 end.
(** The loop over the digits before the point: the magnitude, and whether it overflowed. *)
Fixpoint magnitudeLoop (n : nat) (digits : list Z) (acc : Z) : Z * bool :=
  match n with
  | O => (acc, false)
  | S n =>
      let digit := match digits with d :: _ => d | [] => 0 end in
      if (UINT64_MAX - digit) / 10 <? acc then (acc, true)
      else magnitudeLoop n (tail digits) (acc * 10 + digit)
  end.
(** The exact integer part of a decimal literal, from its digits and its exponents. *)
Definition exactInteger (neg : bool) (digits : list Z) (fractionalDigits exponent : Z) : AllIntegerValue :=
  let significant := leadingZeros digits in
  if significant =? len digits then zeroInteger else
  let point := len digits - fractionalDigits + exponent - significant in
  let digits := drop (Z.to_nat significant) digits in
  let fractionStart := Z.max 0 point in
  let fractional := (fractionStart <? len digits) && existsb (λ d, negb (d =? 0)) (drop (Z.to_nat fractionStart) digits) in
  let '(magnitude, overflow) := if 20 <? point then (0, true) else magnitudeLoop (Z.to_nat point) digits 0 in
  mkAll magnitude neg fractional overflow false.

Section Parse.
(** [std::from_chars] on a whole string: the nearest double. *)
Context (parseDouble : bytes → option spec_float).

Definition decimalNumber (neg : bool) (input body : bytes) : option Number :=
  let token := (λ c, if c =? ","%chr then "."%chr else c) <$> input in
  let start := match token with c :: rest => if c =? "+"%chr then rest else token | [] => token end in
  match parseDouble start with
  | None => None
  | Some floating =>
      if negb (isFinite floating) then
        let special := tolower <$> body in
        if negb (bool_decide (special = bs "nan") || bool_decide (special = bs "inf") || bool_decide (special = bs "infinity")) then None
        else Some (mkNumber (mkAll 0 neg false (negb (isNan floating)) (isNan floating)) floating 0)
      else
        let '(digits, fractionalDigits, rest) := significandLoop body [] false 0 in
        if bool_decide (digits = []) then None else
        match exponentPart rest with
        | Some (exponent, []) =>
            Some (mkNumber (exactInteger neg digits fractionalDigits exponent) floating (Z.max 0 (fractionalDigits - exponent)))
        | _ => None
        end
  end.

Definition parseNumber (input : bytes) (hex : bool) : option Number :=
  if 4096 <? len input then None else
  let input := trimBlank input in
  match input with
  | [] => None
  | c :: rest =>
      let signed := (c =? "+"%chr) || (c =? "-"%chr) in
      let neg := c =? "-"%chr in
      let body := if signed then rest else input in
      if bool_decide (body = []) then None else
      let '(prefix, afterPrefix) :=
        match body with
        | z :: x :: tail => if (z =? "0"%chr) && ((x =? "x"%chr) || (x =? "X"%chr)) then (true, tail) else (false, body)
        | _ => (false, body)
        end in
      if hex || prefix then hexNumber neg afterPrefix else decimalNumber neg input body
  end.

(** The 64-bit integer closest to a use of the literal as [intValue]; 0 when it is none. *)
Definition integerHint (v : AllIntegerValue) : Z :=
  if unordered v || outsideMagnitude v || fractional v || ((if negative v then 2 ^ 63 else 2 ^ 63 - 1) <? magnitude v) then 0
  else i64 (if negative v then u64 (0 - magnitude v) else magnitude v).

Definition needsLiteral (c : ScanConfig) : bool :=
  if sc_percentageScan c && match sc_compareType c with
      | CmpGreater | CmpLess | CmpBetween | CmpIncreased | CmpDecreased => true | _ => false end
  then false
  else match sc_compareType c with
       | CmpExact | CmpGreater | CmpLess | CmpBetween | CmpIncreasedBy | CmpDecreasedBy => true
       | _ => false
       end.

(** [AllIntegerValue::compare]: -1, 0 or 1 as the current value is below, at or above
    the literal; 2 when unordered. *)
Definition compare (v : AllIntegerValue) (current : Z) : Z :=
  if unordered v then 2
  else if outsideMagnitude v then (if negative v then 1 else -1)
  else
    let currentNegative := current <? 0 in
    if negb (Bool.eqb currentNegative (negative v)) then (if currentNegative then -1 else 1)
    else
      let bits := u64 current in
      let absolute := if currentNegative then u64 (0 - bits) else bits in
      let order := if absolute <? magnitude v then -1 else if magnitude v <? absolute then 1
                   else if fractional v then -1 else 0 in
      if negative v then - order else order.

Definition isBetween (c : ScanConfig) : bool := bool_decide (sc_compareType c = CmpBetween).
(** The members after the call, and its result. *)
Definition parseAllValues (c : ScanConfig) (first second : bytes) (hex : bool) : ScanConfig * bool :=
  if negb (needsLiteral c)
  then (withValues c None None (sc_intValue c) (sc_intValue2 c) (sc_floatValue c) (sc_floatValue2 c) (sc_floatDecimals c), true)
  else
    let lower := parseNumber first hex in
    let upper := if isBetween c then parseNumber second hex else None in
    match lower, upper, isBetween c with
    | None, _, _ | _, None, true => (c, false)
    | Some lo, Some up, _ =>
        (withValues c (Some (integer lo)) (Some (integer up)) (integerHint (integer lo)) (integerHint (integer up))
           (floating lo) (floating up) (decimals lo), true)
    | Some lo, None, false =>
        (withValues c (Some (integer lo)) None (integerHint (integer lo)) (sc_intValue2 c)
           (floating lo) (sc_floatValue2 c) (decimals lo), true)
    end.
Definition parseFloatingValues (c : ScanConfig) (first second : bytes) : ScanConfig * bool :=
  if negb (needsLiteral c) then (c, true)
  else
    let lower := parseNumber first false in
    let upper := if isBetween c then parseNumber second false else None in
    match lower, upper, isBetween c with
    | None, _, _ | _, None, true => (c, false)
    | Some lo, Some up, _ =>
        (withValues c (sc_allIntegerValue c) (sc_allIntegerValue2 c) (sc_intValue c) (sc_intValue2 c)
           (floating lo) (floating up) (decimals lo), true)
    | Some lo, None, false =>
        (withValues c (sc_allIntegerValue c) (sc_allIntegerValue2 c) (sc_intValue c) (sc_intValue2 c)
           (floating lo) (sc_floatValue2 c) (decimals lo), true)
    end.
End Parse.

(** ** The exact value of a literal *)

Definition digit_ok (d : Z) : Prop := 0 ≤ d ≤ 9.
Definition digitsValue (ds : list Z) : Z := foldl (λ a d, a * 10 + d) 0 ds.
(** The magnitude [D * 10 ^ s]: its integer part, and whether there is a rest. *)
Definition wholePart (D s : Z) : Z := if 0 <=? s then D * 10 ^ s else D / 10 ^ (- s).
Definition restPart (D s : Z) : Z := if 0 <=? s then 0 else D mod 10 ^ (- s).
(** The boundary [v] denotes the literal [D * 10 ^ s], with its sign. *)
Definition denotes (neg : bool) (D s : Z) (v : AllIntegerValue) : Prop :=
  unordered v = false ∧
  if D =? 0 then negative v = false ∧ outsideMagnitude v = false ∧ magnitude v = 0 ∧ fractional v = false
  else negative v = neg ∧
    if UINT64_MAX <? wholePart D s then outsideMagnitude v = true
    else outsideMagnitude v = false ∧ magnitude v = wholePart D s ∧ fractional v = negb (restPart D s =? 0).
(** The sign of [current - literal]. *)
Definition literalOrder (neg : bool) (D s current : Z) : Z :=
  let D := if neg then - D else D in
  Z.sgn (if 0 <=? s then current - D * 10 ^ s else current * 10 ^ (- s) - D).

#[global] Instance digit_ok_dec d : Decision (digit_ok d).
Proof. unfold digit_ok. apply _. Defined.

Lemma foldl_digits ds a : foldl (λ a d, a * 10 + d) a ds = a * 10 ^ len ds + digitsValue ds.
Proof.
  unfold digitsValue. revert a. induction ds as [|d ds IH]; intros a; cbn [foldl]; [rewrite len_nil; lia|].
  rewrite (IH (a * 10 + d)), (IH (0 * 10 + d)), len_cons, (Z.pow_add_r 10 1) by (pose proof (len_nonneg ds); lia). lia.
Qed.
Lemma digitsValue_app a b : digitsValue (a ++ b) = digitsValue a * 10 ^ len b + digitsValue b.
Proof. unfold digitsValue at 1. rewrite foldl_app. apply foldl_digits. Qed.
Lemma digitsValue_cons d ds : digitsValue (d :: ds) = d * 10 ^ len ds + digitsValue ds.
Proof. apply (digitsValue_app [d]). Qed.
Lemma digitsValue_bound ds : Forall digit_ok ds → 0 ≤ digitsValue ds < 10 ^ len ds.
Proof.
  induction 1 as [|d ds Hd _ IH]; [by cbn|]. rewrite digitsValue_cons, len_cons. unfold digit_ok in Hd.
  rewrite Z.pow_add_r by (pose proof (len_nonneg ds); lia). nia.
Qed.
Lemma digitsValue_zero ds : Forall digit_ok ds → digitsValue ds = 0 ↔ existsb (λ d, negb (d =? 0)) ds = false.
Proof.
  induction 1 as [|d ds Hd Hds IH]; [done|]. rewrite digitsValue_cons. pose proof (digitsValue_bound ds Hds). unfold digit_ok in Hd.
  assert (0 < 10 ^ len ds) by (apply Z.pow_pos_nonneg; [lia|apply len_nonneg]).
  cbn [existsb]. rewrite orb_false_iff, negb_false_iff, Z.eqb_eq, <- IH. split; [intros ?; split; nia|intros [-> ->]; lia].
Qed.
Lemma digits_split n ds : Forall digit_ok ds → 0 ≤ n ≤ len ds →
  digitsValue (take (Z.to_nat n) ds) = digitsValue ds / 10 ^ (len ds - n) ∧
  digitsValue (drop (Z.to_nat n) ds) = digitsValue ds mod 10 ^ (len ds - n).
Proof.
  intros Hds Hn. assert (len (drop (Z.to_nat n) ds) = len ds - n) as Hl by (unfold len in *; rewrite length_drop; lia).
  pose proof (digitsValue_app (take (Z.to_nat n) ds) (drop (Z.to_nat n) ds)) as E. rewrite take_drop, Hl in E.
  pose proof (digitsValue_bound (drop (Z.to_nat n) ds) ltac:(by apply Forall_drop)) as Hb. rewrite Hl in Hb.
  split; [apply (Z.div_unique_pos _ _ _ (digitsValue (drop (Z.to_nat n) ds)))|apply (Z.mod_unique_pos _ _ (digitsValue (take (Z.to_nat n) ds)))]; lia.
Qed.

Lemma leadingZeros_spec ds : Forall digit_ok ds →
  0 ≤ leadingZeros ds ≤ len ds ∧ digitsValue (drop (Z.to_nat (leadingZeros ds)) ds) = digitsValue ds ∧
  (leadingZeros ds = len ds → digitsValue ds = 0) ∧
  (leadingZeros ds < len ds → 10 ^ (len ds - leadingZeros ds - 1) ≤ digitsValue ds).
Proof.
  induction 1 as [|d ds Hd Hds (H1 & H2 & H3 & H4)]; [by cbn|]. cbn [leadingZeros]. rewrite len_cons, digitsValue_cons.
  pose proof (digitsValue_bound ds Hds). pose proof (len_nonneg ds). destruct (Z.eqb_spec d 0) as [->|Hd0].
  - replace (Z.to_nat (1 + leadingZeros ds)) with (S (Z.to_nat (leadingZeros ds))) by lia. cbn [drop].
    replace (1 + len ds - (1 + leadingZeros ds) - 1) with (len ds - leadingZeros ds - 1) by lia. split_and!; [lia..| |]; intros; [rewrite H3|]; lia.
  - rewrite drop_0, digitsValue_cons. unfold digit_ok in Hd. split_and!; [lia..|]. intros _.
    replace (1 + len ds - 0 - 1) with (len ds) by lia. assert (0 < 10 ^ len ds) by (apply Z.pow_pos_nonneg; lia). nia.
Qed.

(** The digits read [n] long, zeros following them. *)
Fixpoint padded (n : nat) (ds : list Z) (acc : Z) : Z :=
  match n with
  | O => acc
  | S n => padded n (tail ds) (acc * 10 + match ds with d :: _ => d | [] => 0 end)
  end.
Lemma padded_value n ds acc : 0 ≤ n →
  padded (Z.to_nat n) ds acc =
    if n <? len ds then acc * 10 ^ n + digitsValue (take (Z.to_nat n) ds)
    else acc * 10 ^ n + digitsValue ds * 10 ^ (n - len ds).
Proof.
  intros Hn. rewrite <- (Z2Nat.id n Hn). generalize (Z.to_nat n) as k. clear n Hn. intros k. rewrite Nat2Z.id. revert ds acc.
  induction k as [|k IH]; intros ds acc.
  { change (Z.of_nat 0) with 0. rewrite Z.pow_0_r. cbn [padded]. destruct (Z.ltb_spec 0 (len ds)) as [H|H].
    - rewrite take_0. change (digitsValue []) with 0. lia.
    - destruct ds; [change (digitsValue []) with 0; lia|]. rewrite len_cons in H. pose proof (len_nonneg ds). lia. }
  cbn [padded]. rewrite IH. rewrite Nat2Z.inj_succ, Z.pow_succ_r by lia. destruct ds as [|d ds].
  - cbn [tail]. rewrite (len_nil (A:=Z)). destruct (Z.ltb_spec (Z.of_nat k) 0); [lia|]. destruct (Z.ltb_spec (Z.succ (Z.of_nat k)) 0); [lia|].
    unfold digitsValue. cbn [foldl]. lia.
  - cbn [tail take]. rewrite len_cons. pose proof (len_nonneg ds).
    destruct (Z.ltb_spec (Z.of_nat k) (len ds)); destruct (Z.ltb_spec (Z.succ (Z.of_nat k)) (1 + len ds)); try lia.
    + rewrite digitsValue_cons. assert (len (take k ds) = Z.of_nat k) as -> by (unfold len in *; rewrite length_take; lia). lia.
    + rewrite digitsValue_cons. replace (Z.succ (Z.of_nat k) - (1 + len ds)) with (Z.of_nat k - len ds) by lia.
      replace (10 ^ Z.of_nat k) with (10 ^ len ds * 10 ^ (Z.of_nat k - len ds)) by (rewrite <- Z.pow_add_r by lia; f_equal; lia). lia.
Qed.
Lemma padded_ge n ds acc : Forall digit_ok ds → 0 ≤ acc → acc ≤ padded n ds acc.
Proof.
  revert ds acc. induction n as [|n IH]; intros ds acc Hds Ha; [done|]. cbn [padded].
  assert (0 ≤ match ds with d :: _ => d | [] => 0 end) by (destruct Hds as [|d ds Hd _]; [done|]; unfold digit_ok in Hd; lia).
  etransitivity; [|apply IH; [by destruct Hds|lia]]. lia.
Qed.
Lemma magnitudeLoop_spec n ds acc : Forall digit_ok ds → 0 ≤ acc ≤ UINT64_MAX →
  (magnitudeLoop n ds acc).2 = (UINT64_MAX <? padded n ds acc) ∧
  (padded n ds acc ≤ UINT64_MAX → (magnitudeLoop n ds acc).1 = padded n ds acc).
Proof.
  revert ds acc. induction n as [|n IH]; intros ds acc Hds Ha.
  { cbn. split; [|done]. symmetry. apply Z.ltb_ge. lia. }
  cbn [magnitudeLoop padded]. set (d := match ds with d :: _ => d | [] => 0 end).
  assert (0 ≤ d ≤ 9) as Hd by (subst d; destruct Hds as [|d ds Hd _]; [done|exact Hd]).
  assert (Forall digit_ok (tail ds)) as Ht by (by destruct Hds). clearbody d.
  destruct (Z.ltb_spec ((UINT64_MAX - d) / 10) acc) as [Hlt|Hge].
  - pose proof (padded_ge n (tail ds) (acc * 10 + d) Ht ltac:(lia)).
    assert (UINT64_MAX < acc * 10 + d) by (pose proof (Z.mul_succ_div_gt (UINT64_MAX - d) 10); lia).
    cbn. split; [symmetry; apply Z.ltb_lt; lia|lia].
  - assert (acc * 10 + d ≤ UINT64_MAX) by (pose proof (Z.mul_div_le (UINT64_MAX - d) 10); lia).
    apply IH; [done|lia].
Qed.

Lemma pow10_pos k : 0 ≤ k → 0 < 10 ^ k.
Proof. intros. by apply Z.pow_pos_nonneg. Qed.
(** The digits before the point, with the zeros an exponent adds. *)
Lemma whole_padded ds p : Forall digit_ok ds → 0 ≤ p →
  padded (Z.to_nat p) ds 0 = wholePart (digitsValue ds) (p - len ds).
Proof.
  intros Hds Hp. rewrite padded_value by done. unfold wholePart. destruct (Z.ltb_spec p (len ds)).
  - destruct (Z.leb_spec 0 (p - len ds)); [lia|]. replace (- (p - len ds)) with (len ds - p) by lia.
    rewrite (proj1 (digits_split p ds Hds ltac:(lia))). lia.
  - destruct (Z.leb_spec 0 (p - len ds)); lia.
Qed.
Lemma rest_digits ds p : Forall digit_ok ds → 10 ^ (len ds - 1) ≤ digitsValue ds → 0 < len ds →
  (Z.max 0 p <? len ds) && existsb (λ d, negb (d =? 0)) (drop (Z.to_nat (Z.max 0 p)) ds)
  = negb (restPart (digitsValue ds) (p - len ds) =? 0).
Proof.
  intros Hds Hlead Hne. unfold restPart. pose proof (digitsValue_bound ds Hds) as Hb. pose proof (pow10_pos (len ds - 1) ltac:(lia)).
  destruct (Z.ltb_spec (Z.max 0 p) (len ds)) as [H1|H1]; cbn [andb].
  - destruct (Z.leb_spec 0 (p - len ds)); [lia|]. pose proof (digitsValue_zero (drop (Z.to_nat (Z.max 0 p)) ds) ltac:(by apply Forall_drop)) as Hz.
    rewrite (proj2 (digits_split (Z.max 0 p) ds Hds ltac:(lia))) in Hz.
    assert (digitsValue ds mod 10 ^ (len ds - Z.max 0 p) = 0 ↔ digitsValue ds mod 10 ^ (- (p - len ds)) = 0) as Hm.
    { destruct (Z.le_gt_cases 0 p); [by replace (Z.max 0 p) with p by lia; replace (- (p - len ds)) with (len ds - p) by lia|].
      assert (10 ^ len ds ≤ 10 ^ (- (p - len ds))) by (apply Z.pow_le_mono_r; lia).
      rewrite Z.max_l, Z.sub_0_r, !Z.mod_small by lia. done. }
    destruct (existsb _ _); destruct (Z.eqb_spec (digitsValue ds mod 10 ^ (- (p - len ds))) 0) as [E|E]; cbn; try done.
    + by apply Hm, Hz in E.
    + exfalso. by apply E, Hm, Hz.
  - destruct (Z.leb_spec 0 (p - len ds)); [done|lia].
Qed.
Lemma wholePart_large D s k : 0 ≤ k → 10 ^ k ≤ D → 20 ≤ k + s → UINT64_MAX < wholePart D s.
Proof.
  intros Hk HD Hks. unfold wholePart. assert (UINT64_MAX < 10 ^ 20) by done. pose proof (pow10_pos k Hk).
  destruct (Z.leb_spec 0 s).
  - assert (10 ^ 20 ≤ 10 ^ k * 10 ^ s) by (rewrite <- Z.pow_add_r by lia; apply Z.pow_le_mono_r; lia).
    pose proof (pow10_pos s ltac:(lia)). nia.
  - assert (10 ^ k / 10 ^ (- s) ≤ D / 10 ^ (- s)) by (apply Z.div_le_mono; [apply pow10_pos|]; lia).
    replace (10 ^ k) with (10 ^ (k + s) * 10 ^ (- s)) in * by (rewrite <- Z.pow_add_r by lia; f_equal; lia).
    rewrite Z.div_mul in * by (pose proof (pow10_pos (- s)); lia).
    assert (10 ^ 20 ≤ 10 ^ (k + s)) by (apply Z.pow_le_mono_r; lia). lia.
Qed.

(** The decoded boundary denotes the literal of its digits and exponents. *)
Lemma exactInteger_denotes neg ds frac e : Forall digit_ok ds →
  denotes neg (digitsValue ds) (e - frac) (exactInteger neg ds frac e).
Proof.
  intros Hds. unfold exactInteger. destruct (leadingZeros_spec ds Hds) as (Hz & Hval & Hall & Hlead). cbv zeta.
  destruct (Z.eqb_spec (leadingZeros ds) (len ds)) as [Hz0|Hz0].
  { rewrite (Hall Hz0). by cbn. }
  set (k := leadingZeros ds) in *. set (point := len ds - frac + e - k).
  set (ds' := drop (Z.to_nat k) ds). fold ds' in Hval.
  assert (Forall digit_ok ds') as Hds' by (by apply Forall_drop).
  assert (len ds' = len ds - k) as Hl by (unfold ds', len in *; rewrite length_drop; lia).
  replace (e - frac) with (point - len ds') by lia. rewrite <- Hval.
  assert (10 ^ (len ds' - 1) ≤ digitsValue ds') as Hld by (rewrite Hval, Hl; apply Hlead; lia).
  pose proof (pow10_pos (len ds' - 1) ltac:(lia)).
  assert (0 < len ds') as Hne by lia. rewrite rest_digits by (done || lia). clearbody point ds'. clear Hval Hl Hz0 Hlead Hall.
  split; [by destruct (20 <? point); [|destruct (magnitudeLoop _ _ _)]|]. destruct (Z.eqb_spec (digitsValue ds') 0); [lia|].
  destruct (Z.ltb_spec 20 point) as [Hp|Hp].
  - split; [done|]. pose proof (wholePart_large (digitsValue ds') (point - len ds') (len ds' - 1) ltac:(lia) Hld ltac:(lia)) as Hlarge.
    destruct (Z.ltb_spec UINT64_MAX (wholePart (digitsValue ds') (point - len ds'))); [done|lia].
  - destruct (magnitudeLoop_spec (Z.to_nat point) ds' 0 Hds' ltac:(lia_w)) as [Ho Hm].
    destruct (magnitudeLoop _ _ _) as [m o]. cbn [fst snd] in Ho, Hm. split; [done|].
    destruct (Z.le_gt_cases 0 point).
    + rewrite whole_padded in Ho, Hm by (done || lia). rewrite Ho. destruct (Z.ltb_spec UINT64_MAX (wholePart (digitsValue ds') (point - len ds'))); [done|].
      cbn. split; [done|]. split; [by apply Hm|done].
    + replace (Z.to_nat point) with O in Ho, Hm by lia. cbn [padded] in Ho, Hm.
      assert (wholePart (digitsValue ds') (point - len ds') = 0) as ->.
      { unfold wholePart. destruct (Z.leb_spec 0 (point - len ds')); [lia|]. apply Z.div_small. pose proof (digitsValue_bound ds' Hds').
        assert (10 ^ len ds' ≤ 10 ^ (- (point - len ds'))) by (apply Z.pow_le_mono_r; lia). lia. }
      rewrite Ho. split; [done|]. split; [|done]. apply Hm. lia_w.
Qed.

(** ** The comparison with a literal is exact *)

Lemma order_scaled a W R P : 0 ≤ R < P →
  (if a <? W then -1 else if W <? a then 1 else if negb (R =? 0) then -1 else 0) = Z.sgn (a * P - (W * P + R)).
Proof.
  intros HR. destruct (Z.ltb_spec a W); [symmetry; apply Z.sgn_neg; nia|]. destruct (Z.ltb_spec W a); [symmetry; apply Z.sgn_pos; nia|].
  assert (a = W) as -> by lia. destruct (Z.eqb_spec R 0); cbn [negb]; symmetry; [apply Z.sgn_null_iff|apply Z.sgn_neg]; lia.
Qed.
Lemma parts_spec D s : 0 ≤ D → ∃ P, 0 ≤ restPart D s < P ∧ 0 ≤ wholePart D s ∧
  (D = 0 ↔ wholePart D s * P + restPart D s = 0) ∧
  ∀ neg current, literalOrder neg D s current =
    Z.sgn (current * P - (if neg then -1 else 1) * (wholePart D s * P + restPart D s)).
Proof.
  intros HD. unfold literalOrder, wholePart, restPart. destruct (Z.leb_spec 0 s) as [Hs|Hs].
  - exists 1. pose proof (pow10_pos s Hs). split_and!; [lia..|nia|nia|]. intros [] c; f_equal; lia.
  - exists (10 ^ (- s)). pose proof (pow10_pos (- s) ltac:(lia)). pose proof (Z.div_mod D (10 ^ (- s)) ltac:(lia)) as Hdm.
    pose proof (Z.mod_pos_bound D (10 ^ (- s)) ltac:(lia)). pose proof (Z.div_pos D (10 ^ (- s)) HD ltac:(lia)).
    split_and!; [lia..|]. intros [] c; f_equal; lia.
Qed.
Lemma compare_denotes neg D s v current : 0 ≤ D → - 2 ^ 63 ≤ current < 2 ^ 63 → denotes neg D s v →
  compare v current = literalOrder neg D s current.
Proof.
  intros HD Hc [Hu Hv]. destruct (parts_spec D s HD) as (P & HR & HW & Hzero & ->). revert Hv.
  generalize (wholePart D s) (restPart D s) HR HW Hzero. clear HR HW Hzero. intros W R HR HW Hzero Hv.
  assert (0 ≤ W * P) by nia.
  destruct v as [m n f o u]. cbn [unordered negative outsideMagnitude magnitude fractional] in *. subst u. unfold compare.
  cbn [unordered negative outsideMagnitude magnitude fractional].
  assert (∀ A, A = (if current <? 0 then - current else current) →
    (if current <? 0 then u64 (0 - u64 current) else u64 current) = A) as Habs.
  { intros A ->. destruct (Z.ltb_spec current 0); [rewrite wrap_sub_idem_r|]; rewrite wrap_small; lia_w. }
  destruct (Z.eqb_spec D 0) as [HD0|HD0].
  - destruct Hv as (-> & -> & -> & ->). apply Hzero in HD0 as H0. rewrite H0, Z.mul_0_r, Z.sub_0_r. rewrite (Habs _ eq_refl).
    destruct (Z.ltb_spec current 0); cbn [Bool.eqb negb]; [symmetry; apply Z.sgn_neg; nia|].
    destruct (Z.ltb_spec current 0); [lia|]. destruct (Z.ltb_spec 0 current); symmetry; [apply Z.sgn_pos; nia|].
    assert (current = 0) as -> by lia. done.
  - destruct Hv as [-> Hv]. assert (0 < W * P + R) as Hpos by lia. destruct (Z.ltb_spec UINT64_MAX W).
    + rewrite Hv. destruct neg; symmetry; [apply Z.sgn_pos|apply Z.sgn_neg]; change UINT64_MAX with 18446744073709551615 in *; nia.
    + destruct Hv as (-> & -> & ->). rewrite (Habs _ eq_refl). pose proof (order_scaled (if current <? 0 then - current else current) W R P HR) as Ho.
      rewrite Ho. destruct (Z.ltb_spec current 0), neg; cbn [Bool.eqb negb].
      * rewrite <- Z.sgn_opp. f_equal. lia.
      * symmetry. apply Z.sgn_neg. nia.
      * symmetry. apply Z.sgn_pos. nia.
      * f_equal. lia.
Qed.

(** ** Decimal literals as text *)

(** A literal: its sign ([true] is minus), the digits before and after the separator
    ([true] is a comma) and the exponent ([true] is a capital [E]). *)
Record Literal := mkLit {
  lit_sign : option bool; lit_int : list Z; lit_frac : option (bool * list Z); lit_exp : option (bool * option bool * list Z)
}.
Definition digitsText (ds : list Z) : bytes := (λ d, "0"%chr + d) <$> ds.
Definition signText (s : option bool) : bytes :=
  match s with Some true => bs "-" | Some false => bs "+" | None => [] end.
Definition fracText (comma : Z) (f : option (bool * list Z)) : bytes :=
  match f with Some (c, ds) => (if c then comma else "."%chr) :: digitsText ds | None => [] end.
Definition expText (e : option (bool * option bool * list Z)) : bytes :=
  match e with Some (c, s, ds) => (if c then "E"%chr else "e"%chr) :: signText s ++ digitsText ds | None => [] end.
Definition render (l : Literal) : bytes :=
  signText (lit_sign l) ++ digitsText (lit_int l) ++ fracText ","%chr (lit_frac l) ++ expText (lit_exp l).
(** What [std::from_chars] is given: points for commas, no plus sign. *)
Definition doubleText (l : Literal) : bytes :=
  signText (if lit_sign l is Some true then Some true else None) ++
  digitsText (lit_int l) ++ fracText "."%chr (lit_frac l) ++ expText (lit_exp l).
Definition lit_digits (l : Literal) : list Z := lit_int l ++ match lit_frac l with Some (_, ds) => ds | None => [] end.
Definition lit_places (l : Literal) : Z := match lit_frac l with Some (_, ds) => len ds | None => 0 end.
Definition lit_exponent (l : Literal) : Z :=
  match lit_exp l with
  | Some (_, s, ds) => if s is Some true then - digitsValue ds else digitsValue ds
  | None => 0
  end.
Definition lit_negative (l : Literal) : bool := if lit_sign l is Some true then true else false.
Definition literal_ok (l : Literal) : Prop :=
  Forall digit_ok (lit_digits l) ∧ lit_digits l ≠ [] ∧
  match lit_exp l with Some (_, _, ds) => Forall digit_ok ds ∧ ds ≠ [] | None => True end.

Lemma isdigit_text d : digit_ok d → isdigit ("0"%chr + d) = true.
Proof. unfold digit_ok. intros. unfold isdigit. apply between_spec. cbn. lia. Qed.
Lemma significandLoop_digits ds rest acc sep k : Forall digit_ok ds →
  significandLoop (digitsText ds ++ rest) acc sep k = significandLoop rest (acc ++ ds) sep (if sep then k + len ds else k).
Proof.
  intros Hds. revert acc k. induction Hds as [|d ds Hd _ IH]; intros acc k.
  { cbn. rewrite app_nil_r. destruct sep; f_equal. by rewrite (len_nil (A:=Z)), Z.add_0_r. }
  cbn [digitsText fmap list_fmap app significandLoop]. rewrite isdigit_text by done. fold (digitsText ds). rewrite IH.
  replace ("0"%chr + d - "0"%chr) with d by lia. rewrite <- app_assoc. cbn [app]. f_equal. destruct sep; [|done]. rewrite len_cons. lia.
Qed.
Lemma exponentLoop_digits ds a : Forall digit_ok ds → 0 ≤ a ≤ 8192 →
  exponentLoop (digitsText ds) a = (Z.min 8192 (a * 10 ^ len ds + digitsValue ds), []).
Proof.
  intros Hds. revert a. induction Hds as [|d ds Hd Hds IH]; intros a Ha.
  { cbn [digitsText fmap list_fmap exponentLoop]. rewrite (len_nil (A:=Z)). change (digitsValue []) with 0. f_equal. lia. }
  cbn [digitsText fmap list_fmap exponentLoop]. rewrite isdigit_text by done. fold (digitsText ds).
  replace ("0"%chr + d - "0"%chr) with d by lia. unfold digit_ok in Hd. rewrite IH by lia. f_equal.
  rewrite digitsValue_cons, len_cons, (Z.pow_add_r 10 1) by (pose proof (len_nonneg ds); lia).
  pose proof (pow10_pos (len ds) (len_nonneg ds)). pose proof (digitsValue_bound ds Hds).
  destruct (Z.le_gt_cases 8192 (a * 10 + d)); [rewrite (Z.min_l 8192 (a * 10 + d)), !Z.min_l by nia; done|].
  rewrite (Z.min_r 8192 (a * 10 + d)) by lia. f_equal. lia.
Qed.
(** The exponent a literal has after saturation. *)
Definition saturated (e : Z) : Z := Z.max (-8192) (Z.min 8192 e).
Lemma exponentPart_text l : literal_ok l → exponentPart (expText (lit_exp l)) = Some (saturated (lit_exponent l), []).
Proof.
  intros (_ & _ & He). unfold lit_exponent. destruct (lit_exp l) as [[[c s] ds]|]; [|done]. destruct He as [Hds Hne].
  pose proof (digitsValue_bound ds Hds) as Hb. pose proof (exponentLoop_digits ds 0 Hds ltac:(lia)) as Hloop. rewrite Z.mul_0_l, Z.add_0_l in Hloop.
  assert (∃ x xs, digitsText ds = x :: xs ∧ isdigit x = true ∧ (x =? 43) = false ∧ (x =? 45) = false) as (x & xs & Ht & Hx & H1 & H2).
  { destruct ds as [|d ds]; [done|]. apply Forall_cons_1 in Hds as [Hd _]. exists ("0"%chr + d), (digitsText ds).
    split; [done|]. split; [by apply isdigit_text|]. unfold digit_ok in Hd. rewrite !Z.eqb_neq. cbn. lia. }
  unfold exponentPart, expText. assert ((((if c then "E"%chr else "e"%chr) =? "e"%chr) || ((if c then "E"%chr else "e"%chr) =? "E"%chr)) = true) as -> by (by destruct c).
  rewrite Ht in *. destruct s as [[]|]; [change (signText (Some true)) with [45]|change (signText (Some false)) with [43]|change (signText None) with (@nil Z)];
    cbn [app Z.eqb Pos.eqb orb]; rewrite ?H1, ?H2; cbn [orb]; rewrite Hx, Hloop; unfold saturated; do 2 f_equal; lia.
Qed.

Lemma saturated_denotes neg D e frac v : 0 ≤ frac ≤ 4096 → 0 ≤ D < 10 ^ 4096 →
  denotes neg D (saturated e - frac) v → denotes neg D (e - frac) v.
Proof.
  set (B := 10 ^ 4096). assert (∀ k, 4096 ≤ k → B ≤ 10 ^ k) as HB by (intros; apply Z.pow_le_mono_r; lia). clearbody B.
  intros Hf HD. unfold saturated. destruct (Z.le_gt_cases 8192 e) as [H1|H1]; [|destruct (Z.le_gt_cases e (-8192)) as [H2|H2]].
  - replace (Z.max (-8192) (Z.min 8192 e)) with 8192 by lia. intros [Hu Hv]. split; [done|].
    destruct (Z.eqb_spec D 0); [done|].
    assert (∀ s, 4096 ≤ s → UINT64_MAX < wholePart D s) as Hl by (intros s Hs; apply (wholePart_large D s 0); [lia|change (10 ^ 0) with 1; lia|lia]).
    rewrite (proj2 (Z.ltb_lt _ _) (Hl (8192 - frac) ltac:(lia))) in Hv. by rewrite (proj2 (Z.ltb_lt _ _) (Hl (e - frac) ltac:(lia))).
  - replace (Z.max (-8192) (Z.min 8192 e)) with (-8192) by lia. intros [Hu Hv]. split; [done|].
    destruct (Z.eqb_spec D 0); [done|].
    assert (∀ s, s ≤ -8192 → wholePart D s = 0 ∧ restPart D s = D) as Hl.
    { intros s Hs. unfold wholePart, restPart. destruct (Z.leb_spec 0 s); [lia|].
      pose proof (HB (- s) ltac:(lia)). rewrite Z.div_small, Z.mod_small by lia. done. }
    destruct (Hl (-8192 - frac) ltac:(lia)) as [E1 E2]. rewrite E1, E2 in Hv. destruct (Hl (e - frac) ltac:(lia)) as [-> ->]. done.
  - replace (Z.max (-8192) (Z.min 8192 e)) with e by lia. done.
Qed.

Definition plain (c : Z) : Prop := numberBlank c = false ∧ c ≠ "x"%chr ∧ c ≠ "X"%chr.
Lemma digitsText_plain ds : Forall digit_ok ds → Forall plain (digitsText ds).
Proof.
  intros Hds. apply Forall_fmap. eapply Forall_impl; [exact Hds|]. intros d Hd. unfold digit_ok in Hd. unfold plain, numberBlank, compose. cbn.
  rewrite !orb_false_iff, !Z.eqb_neq. lia.
Qed.
(** The text after the sign. *)
Definition bodyText (l : Literal) : bytes := digitsText (lit_int l) ++ fracText ","%chr (lit_frac l) ++ expText (lit_exp l).
Lemma bodyText_plain l : literal_ok l → Forall plain (bodyText l).
Proof.
  intros (Hd & _ & He). unfold lit_digits in Hd. apply Forall_app in Hd as [Hi Hf]. unfold bodyText. rewrite !Forall_app. split; [by apply digitsText_plain|]. split.
  - destruct (lit_frac l) as [[c ds]|]; [|apply Forall_nil_2]. apply Forall_cons_2; [by destruct c|by apply digitsText_plain].
  - destruct (lit_exp l) as [[[c s] ds]|]; [|apply Forall_nil_2]. apply Forall_cons_2; [by destruct c|].
    apply Forall_app_2; [destruct s as [[]|]; [by apply Forall_singleton..|by apply Forall_nil]|by apply digitsText_plain, He].
Qed.
Lemma bodyText_head l : literal_ok l → ∃ c rest, bodyText l = c :: rest ∧ c ≠ "+"%chr ∧ c ≠ "-"%chr.
Proof.
  intros (Hd & Hne & _). unfold bodyText, lit_digits in *. destruct (lit_int l) as [|d ds]; cbn [app] in Hd, Hne |- *.
  - destruct (lit_frac l) as [[c ds]|]; [|done]. eexists _, _. split; [done|]. by destruct c.
  - eexists _, _. split; [done|]. apply Forall_cons_1 in Hd as [Hd _]. unfold digit_ok in Hd. cbn. lia.
Qed.
Lemma dropBlank_app a t : Forall (λ c, numberBlank c = true) a → Forall plain t → dropBlank (a ++ t) = t.
Proof. induction 1 as [|c a Hc _ IH]; intros Ht; cbn; [|rewrite Hc; by apply IH]. destruct Ht as [|c t [Hc _] _]; cbn; [|rewrite Hc]; done. Qed.
Lemma trimBlank_around a t b : Forall (λ c, numberBlank c = true) a → Forall (λ c, numberBlank c = true) b → Forall plain t →
  trimBlank (a ++ t ++ b) = t.
Proof.
  intros Ha Hb Ht. unfold trimBlank. assert (dropBlank (a ++ t ++ b) = if bool_decide (t = []) then [] else t ++ b) as ->.
  { induction Ha as [|c a Hc _ IH]; cbn [app dropBlank]; [|by rewrite Hc]. destruct Ht as [|c t [Hc _] Ht]; cbn [app dropBlank]; [|by rewrite Hc].
    clear -Hb. induction Hb as [|c b Hc _ IH]; cbn; [done|]. by rewrite Hc. }
  destruct (bool_decide_reflect (t = [])) as [->|Hne]; [done|]. rewrite reverse_app, dropBlank_app, reverse_involutive; [done|by apply Forall_reverse..].
Qed.

Lemma significandLoop_body l : literal_ok l →
  significandLoop (bodyText l) [] false 0 = (lit_digits l, lit_places l, expText (lit_exp l)).
Proof.
  intros (Hd & _ & _). unfold lit_digits, lit_places, bodyText in *. apply Forall_app in Hd as [Hi Hf].
  assert (∀ acc sep k, significandLoop (expText (lit_exp l)) acc sep k = (acc, k, expText (lit_exp l))) as Hstop.
  { intros. destruct (lit_exp l) as [[[[] s] ds]|]; done. }
  rewrite significandLoop_digits by done. destruct (lit_frac l) as [[c ds]|]; cbn [fracText app].
  - assert (∀ rest acc, significandLoop ((if c then ","%chr else "."%chr) :: rest) acc false 0 = significandLoop rest acc true 0) as -> by (by destruct c).
    rewrite significandLoop_digits by done. by rewrite Hstop, Z.add_0_l.
  - by rewrite Hstop, app_nil_r.
Qed.
Definition pointed (c : Z) : Z := if c =? ","%chr then "."%chr else c.
Lemma digitsText_pointed ds : Forall digit_ok ds → pointed <$> digitsText ds = digitsText ds.
Proof.
  induction 1 as [|d ds Hd _ IH]; [done|]. unfold digitsText in *. rewrite !fmap_cons, IH. f_equal. unfold pointed, digit_ok in *.
  destruct (Z.eqb_spec ("0"%chr + d) ","%chr) as [E|]; [|done]. cbn in E. lia.
Qed.
Lemma bodyText_pointed l : literal_ok l →
  pointed <$> bodyText l = digitsText (lit_int l) ++ fracText "."%chr (lit_frac l) ++ expText (lit_exp l).
Proof.
  intros (Hd & _ & He). unfold lit_digits in Hd. apply Forall_app in Hd as [Hi Hf]. unfold bodyText. rewrite !fmap_app, digitsText_pointed by done.
  do 2 f_equal.
  - destruct (lit_frac l) as [[c ds]|]; [|done]. cbn [fracText]. rewrite fmap_cons, digitsText_pointed by done. by destruct c.
  - destruct (lit_exp l) as [[[c s] ds]|]; [|done]. cbn [expText]. rewrite fmap_cons, fmap_app, digitsText_pointed by apply He.
    by destruct c, s as [[]|].
Qed.

Lemma hint_denotes neg D s v : 0 ≤ D → denotes neg D s v →
  (∀ k, - 2 ^ 63 ≤ k < 2 ^ 63 → literalOrder neg D s k = 0 → integerHint v = k) ∧
  (integerHint v ≠ 0 → compare v (integerHint v) = 0).
Proof.
  intros HD Hv. assert (∀ k, - 2 ^ 63 ≤ k < 2 ^ 63 → compare v k = literalOrder neg D s k) as Hcmp by (intros; by apply compare_denotes).
  destruct (parts_spec D s HD) as (P & HR & HW & Hzero & Hlit). setoid_rewrite Hlit in Hcmp. setoid_rewrite Hlit. clear Hlit.
  revert Hv. unfold denotes. generalize (wholePart D s) (restPart D s) HR HW Hzero Hcmp. clear HR HW Hzero Hcmp. intros W R HR HW Hzero Hcmp [Hu Hv].
  destruct v as [m n f o u]. cbn [unordered negative outsideMagnitude magnitude fractional] in *. subst u.
  destruct (Z.eqb_spec D 0) as [HD0|HD0].
  - destruct Hv as (-> & -> & -> & ->). apply Hzero in HD0 as H0. rewrite H0. split; [|done].
    intros k _ E%Z.sgn_null_iff. assert (k = 0) as -> by nia. done.
  - destruct Hv as [-> Hv]. assert (0 < W * P + R) as Hpos by nia.
    assert (∀ k, k * P - (if neg then -1 else 1) * (W * P + R) = 0 → R = 0 ∧ k = if neg then - W else W) as Hexact.
    { intros k E. destruct neg; [assert (k = - W) by nia|assert (k = W) by nia]; subst k; split; [nia|done|nia|done]. }
    destruct (Z.ltb_spec UINT64_MAX W) as [Hbig|Hsmall].
    + subst o. unfold integerHint. cbn [unordered negative outsideMagnitude magnitude fractional orb]. split; [|done].
      intros k Hk [_ ->]%Z.sgn_null_iff%Hexact. change UINT64_MAX with 18446744073709551615 in *. destruct neg; lia.
    + destruct Hv as (-> & -> & ->).
      assert (R = 0 → W ≤ (if neg then 2 ^ 63 else 2 ^ 63 - 1) →
        integerHint (mkAll W neg (negb (R =? 0)) false false) = if neg then - W else W) as Hval.
      { intros -> HW'. unfold integerHint. cbn [unordered negative outsideMagnitude magnitude fractional orb negb Z.eqb].
        destruct (Z.ltb_spec (if neg then 2 ^ 63 else 2 ^ 63 - 1) W); [lia|]. destruct neg.
        - unfold to_signed, wrap. destruct (Z.eq_dec W (2 ^ 63)) as [->|]; [done|].
          assert ((0 - W) mod 2 ^ 64 = if W =? 0 then 0 else 2 ^ 64 - W) as ->.
          { destruct (Z.eqb_spec W 0) as [->|]; [done|]. symmetry. apply (Z.mod_unique_pos _ _ (-1)); lia. }
          destruct (Z.eqb_spec W 0) as [->|]; [done|]. rewrite Z.mod_small by lia. destruct (Z.ltb_spec (2 ^ 64 - W) (2 ^ (64 - 1))); lia.
        - rewrite to_signed_small; lia. }
      split.
      * intros k Hk [HR0 ->]%Z.sgn_null_iff%Hexact. apply Hval; [done|]. destruct neg; lia.
      * intros Hne. destruct (Z.eqb_spec R 0) as [HR0|HR0]; [|by unfold integerHint in Hne].
        destruct (Z.le_gt_cases W (if neg then 2 ^ 63 else 2 ^ 63 - 1)) as [Hle|Hgt].
        -- specialize (Hval HR0 Hle). rewrite Hval. rewrite Hcmp by (destruct neg; lia). apply Z.sgn_null_iff. destruct neg; lia.
        -- unfold integerHint in Hne. cbn [unordered negative outsideMagnitude magnitude fractional orb negb] in Hne.
           apply Z.ltb_lt in Hgt. by rewrite Hgt in Hne.
Qed.

Section Exact.
Context (parseDouble : bytes → option spec_float).

Lemma no_prefix body : Forall plain body →
  match body with
  | z :: x :: tail => if (z =? "0"%chr) && ((x =? "x"%chr) || (x =? "X"%chr)) then (true, tail) else (false, body)
  | _ => (false, body)
  end = (false, body).
Proof.
  intros Hb. destruct body as [|z [|x tail]]; [done..|]. apply Forall_cons_1 in Hb as [_ Hb]. apply Forall_cons_1 in Hb as [(_ & H1 & H2) _].
  apply Z.eqb_neq in H1 as ->, H2 as ->. by rewrite andb_false_r.
Qed.
Lemma decimalNumber_text l input f : literal_ok l → parseDouble (doubleText l) = Some f → isFinite f = true →
  match pointed <$> input with c :: rest => if c =? "+"%chr then rest else pointed <$> input | [] => pointed <$> input end = doubleText l →
  decimalNumber parseDouble (lit_negative l) input (bodyText l) =
    Some (mkNumber (exactInteger (lit_negative l) (lit_digits l) (lit_places l) (saturated (lit_exponent l))) f
      (Z.max 0 (lit_places l - saturated (lit_exponent l)))).
Proof.
  intros Hl Hf Hfin Hstart. unfold decimalNumber. fold pointed. cbv zeta. rewrite Hstart, Hf, Hfin. cbn [negb].
  rewrite significandLoop_body by done. destruct (bool_decide_reflect (lit_digits l = [])) as [E|_]; [by destruct Hl as (_ & H & _)|].
  by rewrite exponentPart_text.
Qed.
Lemma parseNumber_text l lead trail f : literal_ok l →
  Forall (λ c, numberBlank c = true) lead → Forall (λ c, numberBlank c = true) trail →
  len (lead ++ render l ++ trail) ≤ 4096 → parseDouble (doubleText l) = Some f → isFinite f = true →
  parseNumber parseDouble (lead ++ render l ++ trail) false =
    Some (mkNumber (exactInteger (lit_negative l) (lit_digits l) (lit_places l) (saturated (lit_exponent l))) f
      (Z.max 0 (lit_places l - saturated (lit_exponent l)))).
Proof.
  intros Hl Hlead Htrail Hlen Hf Hfin. unfold parseNumber. destruct (Z.ltb_spec 4096 (len (lead ++ render l ++ trail))); [lia|].
  pose proof (bodyText_plain l Hl) as Hplain. destruct (bodyText_head l Hl) as (c & rest & Hbody & Hc1 & Hc2).
  assert (render l = signText (lit_sign l) ++ bodyText l) as Hr by done.
  rewrite trimBlank_around; [|done..|rewrite Hr; apply Forall_app_2; [|done]; destruct (lit_sign l) as [[]|]; [by apply Forall_singleton..|by apply Forall_nil]].
  cbv zeta. rewrite Hr. pose proof (decimalNumber_text l (signText (lit_sign l) ++ bodyText l) f Hl Hf Hfin) as Hdec.
  unfold doubleText, lit_negative in *. rewrite <- bodyText_pointed in Hdec by done.
  apply Z.eqb_neq in Hc1, Hc2. destruct (lit_sign l) as [[]|].
  - change (signText (Some true) ++ bodyText l) with ("-"%chr :: bodyText l) in *. cbn [orb Z.eqb Pos.eqb]. rewrite no_prefix by done.
    rewrite bool_decide_false by (rewrite Hbody; done). cbn [orb]. by apply Hdec.
  - change (signText (Some false) ++ bodyText l) with ("+"%chr :: bodyText l) in *. cbn [orb Z.eqb Pos.eqb]. rewrite no_prefix by done.
    rewrite bool_decide_false by (rewrite Hbody; done). cbn [orb]. by apply Hdec.
  - change (signText None ++ bodyText l) with (bodyText l) in *. rewrite Hbody at 1. rewrite Hc1, Hc2. cbn [orb]. rewrite no_prefix by done.
    rewrite bool_decide_false by (rewrite Hbody; done). cbn [orb]. apply Hdec. rewrite Hbody. cbn [fmap list_fmap].
    assert ((pointed c =? "+"%chr) = false) as -> by (unfold pointed; destruct (c =? ","%chr); done). done.
Qed.
Lemma length_lit l : literal_ok l → len (lit_digits l) ≤ len (render l) ∧ 0 ≤ lit_places l ≤ len (lit_digits l).
Proof.
  intros _. unfold lit_digits, lit_places, render, digitsText. rewrite !len_app. pose proof (len_nonneg (lit_int l)).
  assert (len ((λ d, "0"%chr + d) <$> lit_int l) = len (lit_int l)) as -> by (unfold len; by rewrite length_fmap).
  pose proof (len_nonneg (signText (lit_sign l))). pose proof (len_nonneg (expText (lit_exp l))).
  destruct (lit_frac l) as [[c ds]|]; cbn [fracText]; [rewrite len_cons; unfold digitsText|rewrite !(len_nil (A:=Z)); lia].
  assert (len ((λ d, "0"%chr + d) <$> ds) = len ds) as -> by (unfold len; by rewrite length_fmap). pose proof (len_nonneg ds). lia.
Qed.
(** What a parsed literal denotes. *)
Lemma parse_denotes l lead trail f : literal_ok l →
  Forall (λ c, numberBlank c = true) lead → Forall (λ c, numberBlank c = true) trail →
  len (lead ++ render l ++ trail) ≤ 4096 → parseDouble (doubleText l) = Some f → isFinite f = true →
  ∃ n, parseNumber parseDouble (lead ++ render l ++ trail) false = Some n ∧ floating n = f ∧
    0 ≤ digitsValue (lit_digits l) ∧
    denotes (lit_negative l) (digitsValue (lit_digits l)) (lit_exponent l - lit_places l) (integer n).
Proof.
  intros Hl Hlead Htrail Hlen Hf Hfin. eexists. split; [by apply parseNumber_text|]. split; [done|].
  destruct (length_lit l Hl) as [H1 H2]. rewrite !len_app in Hlen. pose proof (len_nonneg lead). pose proof (len_nonneg trail).
  pose proof (digitsValue_bound (lit_digits l) (proj1 Hl)) as H3. split; [lia|].
  apply saturated_denotes; [lia| |by apply exactInteger_denotes, Hl].
  split; [lia|]. eapply Z.lt_le_trans; [apply H3|]. apply Z.pow_le_mono_r; lia.
Qed.

(** C10: a decimal literal typed as a search value, of any size and precision (up to 4096
    characters, with separator, exponent, sign and blanks), is parsed to an exact boundary:
    every 64-bit integer compares with it as with the real number written, although the
    double beside it is rounded; and the integer kept for the other scans is the number
    itself when it is a 64-bit integer, and 0 otherwise. *)
Theorem literal_compare_exact l lead trail f : literal_ok l →
  Forall (λ c, numberBlank c = true) lead → Forall (λ c, numberBlank c = true) trail →
  len (lead ++ render l ++ trail) ≤ 4096 → parseDouble (doubleText l) = Some f → isFinite f = true →
  ∃ n, parseNumber parseDouble (lead ++ render l ++ trail) false = Some n ∧ floating n = f ∧
    (∀ current, - 2 ^ 63 ≤ current < 2 ^ 63 →
       compare (integer n) current =
         literalOrder (lit_negative l) (digitsValue (lit_digits l)) (lit_exponent l - lit_places l) current) ∧
    (∀ k, - 2 ^ 63 ≤ k < 2 ^ 63 →
       literalOrder (lit_negative l) (digitsValue (lit_digits l)) (lit_exponent l - lit_places l) k = 0 →
       integerHint (integer n) = k) ∧
    (integerHint (integer n) ≠ 0 → compare (integer n) (integerHint (integer n)) = 0).
Proof.
  intros Hl Hlead Htrail Hlen Hf Hfin. destruct (parse_denotes l lead trail f Hl Hlead Htrail Hlen Hf Hfin) as (n & Hn & Hfn & HD & Hden).
  exists n. split; [done|]. split; [done|]. split; [|by apply (hint_denotes _ _ _ _ HD Hden)].
  intros current Hc. by apply compare_denotes.
Qed.
End Exact.

(** [ -12,50e1 ] denotes -125: one below -124, equal to -125. *)
Definition sampleLiteral : Literal := mkLit (Some true) [1; 2] (Some (true, [5; 0])) (Some (false, None, [1])).
Definition sampleDouble (text : bytes) : option spec_float :=
  if bool_decide (text = bs "-12.50e1") then Some (doubleOfInt (-125)) else None.
Lemma literal_compare_exact_witness :
  ∃ n, parseNumber sampleDouble (bs " -12,50e1 ") false = Some n ∧
    compare (integer n) (-124) = 1 ∧ compare (integer n) (-125) = 0 ∧ integerHint (integer n) = -125.
Proof.
  destruct (literal_compare_exact sampleDouble sampleLiteral (bs " ") (bs " ") (doubleOfInt (-125))) as (n & H1 & _ & H2 & H3 & _);
    [split_and!; [decide_by_compute|done|split; [decide_by_compute|done]]|decide_by_compute|decide_by_compute|vm_compute; discriminate|vm_compute; reflexivity|vm_compute; reflexivity|].
  exists n. split; [exact H1|]. split; [rewrite (H2 (-124)) by lia; vm_compute; reflexivity|].
  split; [rewrite (H2 (-125)) by lia; vm_compute; reflexivity|]. apply H3; [lia|vm_compute; reflexivity].
Defined.
