(* ===== verification/ScanResults.v ===== *)
(** * Scan results on disk

    Models [ScanResult], [ShardReader], [assembleShardedResult] and [pruneScanResult]'s
    reading side of [src/scanner/memory_scanner.cpp]: matches are appended to buffers,
    flushed to record files, addresses are stored as 32-bit offsets from frame bases, a
    scan's workers write one directory each and a manifest lists them, and readers serve
    any index across the shards.

    The class is two records: [Writer] holds the members while matches are added, and
    [Loaded] those of a result that is read.  A directory maps file names to contents;
    the environment decides which files open and how much of a [writeAll] is accepted.
    Reading an open file fails only at its end. *)

From stdpp Require Import functions.
From S2P Require Import Prelude Numeral TargetMachine Types Loops Files PatternScan ScanConfig.
#[local] Open Scope Z_scope.

(** Looking a file up after updates of the directory. *)
Ltac file_lookup :=
  unfold insert, fn_insert; repeat first [rewrite decide_True by done | rewrite decide_False by done].

(** ** Files *)

Inductive FileName := FOffsets | FValues | FFirst | FAllTypes | FFrames | FFormat | FManifest.
#[global] Instance FileName_eq_dec : EqDecision FileName.
Proof. solve_decision. Defined.
Definition Dir : Type := FileName → option bytes.
Definition noFiles : Dir := λ _, None.

(** [preadFull]: all of the range, or nothing. *)
Definition preadFull (f : bytes) (n offset : Z) : option bytes :=
  if (0 <=? n) && (offset + n <=? len f) then Some (slice f offset n) else None.

(** Which files open for writing, and how much of the [k]-th [writeAll] is accepted
    ([None] is all of it). *)
Record Disk := mkDisk { disk_open : FileName → bool; disk_write : nat → option nat }.

(** ** Candidate masks of an all-types scan *)

Definition allCandidateWidths : list Z := [1; 2; 4; 8; 4; 8].
Definition maskBit (i : Z) : Z := Z.shiftl 1 i.
Definition hasBit (mask i : Z) : bool := negb (Z.land mask (maskBit i) =? 0).
Fixpoint candidatesFittingFrom (i : Z) (widths : list Z) (lastDistance mask : Z) : Z :=
  match widths with
  | [] => mask
  | w :: widths =>
      candidatesFittingFrom (i + 1) widths lastDistance
        (if lastDistance <? w - 1 then Z.land mask (u8 (Z.lnot (maskBit i))) else mask)
  end.
Definition allCandidatesFitting (mask lastDistance : Z) : Z := candidatesFittingFrom 0 allCandidateWidths lastDistance mask.
Fixpoint candidateReadSizeFrom (i : Z) (widths : list Z) (mask size : Z) : Z :=
  match widths with
  | [] => size
  | w :: widths => candidateReadSizeFrom (i + 1) widths mask (if hasBit mask i then Z.max size w else size)
  end.
Definition allCandidateReadSize (mask : Z) : Z := candidateReadSizeFrom 0 allCandidateWidths mask 0.
Definition allCandidateFor (t : ValueType) : Z :=
  match t with
  | VByte => 1 | VInt16 => 2 | VInt32 => 4 | VInt64 => 8 | VFloat => 16 | VDouble => 32
  | _ => 0
  end.
(** A stored mask: not empty, and none of the two unused bits. *)
Definition validMask (mask : Z) : bool := negb (mask =? 0) && (Z.land mask 192 =? 0).

(** ** Writing *)

Record Buffers := mkBuffers { offsetBuf : list Z; valueBuf : bytes; firstValueBuf : bytes; allTypeBuf : bytes }.
Definition noBuffers : Buffers := mkBuffers [] [] [] [].
Record Writer := mkWriter {
  w_dir : Dir; w_isOpen : FileName → bool; w_writes : nat;
  w_storeFirst : bool; w_finalized : bool; w_writeError : bool;
  w_format : option (ByteOrder * Z); w_hasAllTypes : bool;
  w_buf : Buffers; w_frame : option (Z * Z); w_frames : list (Z * Z); w_count : Z; w_valueSize : Z
}.

Section Writing.
Context (disk : Disk).

Definition markWriteError (w : Writer) : Writer :=
  mkWriter (w_dir w) (w_isOpen w) (w_writes w) (w_storeFirst w) (w_finalized w) true (w_format w) (w_hasAllTypes w)
    (w_buf w) (w_frame w) (w_frames w) (w_count w) (w_valueSize w).
Definition withBuf (w : Writer) (b : Buffers) : Writer :=
  mkWriter (w_dir w) (w_isOpen w) (w_writes w) (w_storeFirst w) (w_finalized w) (w_writeError w) (w_format w) (w_hasAllTypes w)
    b (w_frame w) (w_frames w) (w_count w) (w_valueSize w).
Definition withDisk (w : Writer) (d : Dir) (isOpen : FileName → bool) (writes : nat) : Writer :=
  mkWriter d isOpen writes (w_storeFirst w) (w_finalized w) (w_writeError w) (w_format w) (w_hasAllTypes w)
    (w_buf w) (w_frame w) (w_frames w) (w_count w) (w_valueSize w).

(** [open(.., O_CREAT | O_TRUNC)]: an empty file when it opens. *)
Definition openFile (f : FileName) (w : Writer) : Writer :=
  if disk_open disk f then withDisk w (<[f := Some []]> (w_dir w)) (<[f := true]> (w_isOpen w)) (w_writes w) else w.
(** [writeAll] on an open file: what was accepted is appended. *)
Definition writeAll (f : FileName) (data : bytes) (w : Writer) : Writer * bool :=
  let old := default [] (w_dir w f) in
  match disk_write disk (w_writes w) with
  | None => (withDisk w (<[f := Some (old ++ data)]> (w_dir w)) (w_isOpen w) (S (w_writes w)), true)
  | Some k => (withDisk w (<[f := Some (old ++ take k data)]> (w_dir w)) (w_isOpen w) (S (w_writes w)), false)
  end.
(** [if (fd >= 0 && !writeAll(fd, ..)) writeError_ = true;] *)
Definition put (f : FileName) (data : bytes) (w : Writer) : Writer :=
  if w_isOpen w f then let '(w, ok) := writeAll f data w in if ok then w else markWriteError w else w.

Definition newWriter (storeFirst : bool) : Writer :=
  mkWriter noFiles (λ _, false) 0 storeFirst false false None false noBuffers None [] 0 0.
(** The constructor, in a directory without results. *)
Definition createResult (storeFirst : bool) : Writer :=
  let w := openFile FValues (openFile FOffsets (newWriter storeFirst)) in
  let w := if storeFirst then openFile FFirst w else w in
  if negb (w_isOpen w FOffsets) || negb (w_isOpen w FValues) || (storeFirst && negb (w_isOpen w FFirst))
  then markWriteError w else w.

Definition orderCode (o : ByteOrder) : Z := match o with OrderUnknown => 0 | Little => 1 | Big => 2 end.
Definition formatText (order : ByteOrder) (width : Z) : bytes :=
  bs "CE_SCAN_FORMAT 1 " ++ to_string (orderCode order) ++ bs " " ++ to_string width ++ [10].
Definition setDataFormat (order : ByteOrder) (width : Z) (w : Writer) : Writer :=
  if negb ((width =? 0) || (width =? 4) || (width =? 8)) then markWriteError w
  else
    let w := mkWriter (w_dir w) (w_isOpen w) (w_writes w) (w_storeFirst w) (w_finalized w) (w_writeError w)
      (Some (order, width)) (w_hasAllTypes w) (w_buf w) (w_frame w) (w_frames w) (w_count w) (w_valueSize w) in
    if negb (disk_open disk FFormat) then markWriteError w
    else let '(w, ok) := writeAll FFormat (formatText order width) (openFile FFormat w) in
         if ok then w else markWriteError w.

Definition enableAllTypeCandidates (w : Writer) : Writer :=
  if w_hasAllTypes w then w
  else if w_finalized w || negb (w_count w =? 0) then markWriteError w
  else
    let w := mkWriter (w_dir w) (w_isOpen w) (w_writes w) (w_storeFirst w) (w_finalized w) (w_writeError w)
      (w_format w) true (w_buf w) (w_frame w) (w_frames w) (w_count w) (w_valueSize w) in
    if disk_open disk FAllTypes then openFile FAllTypes w else markWriteError w.

Definition encodeOffsets (offs : list Z) : bytes := mjoin (le_bytes 4 <$> offs).
(** The candidate masks, which must be as many as the offsets. *)
Definition putMasks (b : Buffers) (w : Writer) : Writer :=
  if w_hasAllTypes w then
    if negb (w_isOpen w FAllTypes) || negb (len (allTypeBuf b) =? len (offsetBuf b)) then markWriteError w
    else let '(w, ok) := writeAll FAllTypes (allTypeBuf b) w in if ok then w else markWriteError w
  else w.
Definition flush (w : Writer) : Writer :=
  let b := w_buf w in
  if bool_decide (offsetBuf b = []) then w else
  let w := put FOffsets (encodeOffsets (offsetBuf b)) w in
  let w := put FValues (valueBuf b) w in
  let w := put FFirst (firstValueBuf b) w in
  let w := putMasks b w in
  withBuf w noBuffers.

(** [addResult]: [value] and [firstValue] are the [valueSize] bytes pointed to. *)
Definition addResult (addr : Z) (value firstValue : bytes) (w : Writer) : Writer :=
  let valueSize := len value in
  if w_finalized w || w_writeError w || (valueSize =? 0)
     || (negb (w_valueSize w =? 0) && negb (valueSize =? w_valueSize w))
     || (w_hasAllTypes w && (negb (valueSize =? 8) || negb (len (allTypeBuf (w_buf w)) =? len (offsetBuf (w_buf w)) + 1)))
  then markWriteError w
  else
    let '(frames, base, inFrame) :=
      match w_frame w with
      | Some (base, n) =>
          if (addr <? base) || (2 ^ 32 <=? addr - base) then (w_frames w ++ [(base, n)], addr, 0) else (w_frames w, base, n)
      | None => (w_frames w, addr, 0)
      end in
    let b := w_buf w in
    let b := mkBuffers (offsetBuf b ++ [u32 (addr - base)]) (valueBuf b ++ value)
      (if w_storeFirst w then firstValueBuf b ++ firstValue else firstValueBuf b) (allTypeBuf b) in
    let w := mkWriter (w_dir w) (w_isOpen w) (w_writes w) (w_storeFirst w) (w_finalized w) (w_writeError w)
      (w_format w) (w_hasAllTypes w) b (Some (base, inFrame + 1)) frames (w_count w + 1) valueSize in
    if 8192 <=? len (offsetBuf b) then flush w else w.
Definition addAllTypeResult (addr : Z) (value firstValue : bytes) (mask : Z) (w : Writer) : Writer :=
  let w := enableAllTypeCandidates w in
  if negb (validMask mask) || w_finalized w || w_writeError w then markWriteError w
  else
    let b := w_buf w in
    addResult addr value firstValue (withBuf w (mkBuffers (offsetBuf b) (valueBuf b) (firstValueBuf b) (allTypeBuf b ++ [mask]))).

Definition encodeFrames (frames : list (Z * Z)) : bytes := mjoin ((λ f : Z * Z, le_bytes 8 f.1 ++ le_bytes 8 f.2) <$> frames).
Definition finalize (w : Writer) : Writer :=
  if w_finalized w then w else
  let w := flush w in
  let frames := match w_frame w with Some f => w_frames w ++ [f] | None => w_frames w end in
  let w := mkWriter (w_dir w) (w_isOpen w) (w_writes w) (w_storeFirst w) true (w_writeError w)
    (w_format w) (w_hasAllTypes w) (w_buf w) None frames (w_count w) (w_valueSize w) in
  if w_isOpen w FOffsets && negb (bool_decide (frames = [])) then
    if disk_open disk FFrames then put FFrames (encodeFrames frames) (openFile FFrames w) else markWriteError w
  else w.
End Writing.

(** ** Reading *)

Record Frame := mkFrame { fr_base : Z; fr_start : Z; fr_count : Z }.
Record Shard := mkShard { sh_dir : Dir; sh_count : Z; sh_cum : Z; sh_frames : list Frame }.
Record Loaded := mkLoaded {
  ld_shards : list Shard; ld_count : Z; ld_valueSize : Z; ld_hasAllTypes : bool; ld_writeError : bool
}.

(** The frames with their starts; [None] when a count is 0 or the counts overflow. *)
Fixpoint startedFrames (start : Z) (frames : list (Z * Z)) : option (list Frame) :=
  match frames with
  | [] => Some []
  | (base, cnt) :: frames =>
      if (cnt =? 0) || (SIZE_MAX - start <? cnt) then None
      else let? fs := startedFrames (start + cnt) frames in Some (mkFrame base start cnt :: fs)
  end.
Fixpoint rawFrames (n : nat) (f : bytes) : list (Z * Z) :=
  match n with
  | O => []
  | S n => (le_val (slice f 0 8), le_val (slice f 8 8)) :: rawFrames n (drop 16 f)
  end.
Definition loadFrames (d : Dir) : list Frame :=
  match d FFrames with
  | Some f =>
      if (len f <? 16) || negb (len f mod 16 =? 0) then []
      else default [] (startedFrames 0 (rawFrames (Z.to_nat (len f / 16)) f))
  | None => []
  end.
Definition reconstruct (frames : list Frame) (local offset : Z) : Z :=
  match List.find (λ f, (fr_start f <=? local) && (local - fr_start f <? fr_count f)) frames with
  | Some f => if offset <=? UINTPTR_MAX - fr_base f then fr_base f + offset else 0
  | None => 0
  end.

(** The frame table with its running starts. *)
Fixpoint started (start : Z) (fs : list (Z * Z)) : list Frame :=
  match fs with
  | [] => []
  | (b, n) :: fs => mkFrame b start n :: started (start + n) fs
  end.
(** A finalized writer read in place. *)
Definition loadedOf (w : Writer) : Loaded :=
  mkLoaded [mkShard (w_dir w) (w_count w) 0 (started 0 (w_frames w))] (w_count w) (w_valueSize w)
    (w_hasAllTypes w) (w_writeError w).

(** [openAllTypeCandidates]: the file, [inl true] when there is none, [inl false] when it
    is refused. *)
Definition openAllTypeCandidates (d : Dir) (count : Z) (validate : bool) : bool + bytes :=
  match d FAllTypes with
  | None => inl true
  | Some f => if negb (len f =? count) then inl false
              else if validate && existsb (λ mask, negb (validMask mask)) f then inl false else inr f
  end.

(** The part of [framesCover]: the last frame ends at the count. *)
Definition framesEndAt (frames : list Frame) (c : Z) : bool :=
  match last frames with
  | Some f => negb ((c <? fr_start f) || negb (fr_count f =? c - fr_start f))
  | None => false
  end.
(** What [loadShards] has read so far. *)
Record Loading := mkLoading { lg_loaded : Loaded; lg_candidateFormat : option bool }.
(** The lambda [addShard]: [None] is [false]. *)
Definition addShard (st : Loading) (d : Dir) (expected : option Z) : option Loading :=
  let ld := lg_loaded st in
  let? offs := d FOffsets in
  if negb (len offs mod 4 =? 0) then None else
  let c := len offs / 4 in
  if (match expected with Some e => negb (e =? c) | None => false end) || (SIZE_MAX - ld_count ld <? c) then None else
  let frames := loadFrames d in
  if negb (c =? 0) && negb (framesEndAt frames c) then None else
  let? vals := d FValues in
  let vb := len vals in
  if (if c =? 0 then negb (vb =? 0) else (vb =? 0) || negb (vb mod c =? 0)) then None else
  let stride := if c =? 0 then 0 else vb / c in
  let? all := match openAllTypeCandidates d c true with
              | inl missing => if missing : bool then Some false else None
              | inr _ => Some true
              end in
  if (all && negb (c =? 0) && negb (stride =? 8))
     || (match lg_candidateFormat st with Some a => negb (Bool.eqb a all) | None => false end) then None else
  if negb (stride =? 0) && negb (ld_valueSize ld =? 0) && negb (stride =? ld_valueSize ld) then None else
  if (match d FFirst with Some f => negb (len f =? vb) | None => false end) then None else
  Some (mkLoading
    (mkLoaded (ld_shards ld ++ [mkShard d c (ld_count ld) frames]) (ld_count ld + c)
       (if stride =? 0 then ld_valueSize ld else stride) all (ld_writeError ld)) (Some all)).

(** One manifest line: the count and the path. *)
Definition manifestLine (line : bytes) : option (Z * bytes) :=
  let? (a, p) := splitFirst " "%chr line in
  if bool_decide (p = []) then None else
  match from_chars 64 10 a with Some (c, []) => Some (c, p) | _ => None end.
Section Manifest.
(** The directories by path. *)
Context (world : bytes → Dir).

Fixpoint loadLines (lines : list bytes) (st : Loading) : option Loading :=
  match lines with
  | [] => Some st
  | line :: lines =>
      if bool_decide (line = []) then loadLines lines st else
      let? (c, p) := manifestLine line in
      let? st := addShard st (world p) (Some c) in
      loadLines lines st
  end.
Definition noShards : Loaded := mkLoaded [] 0 0 false false.
(** [loadShards]: on failure there are no shards and the error is set.  [hasAllTypes_] then
    keeps what the shards before the failure set; it is not read. *)
Definition loadShards (d : Dir) : Loaded :=
  let loaded :=
    match d FManifest with
    | Some text => loadLines (splitOn 10 text) (mkLoading noShards None)
    | None => match d FOffsets with
              | Some _ => addShard (mkLoading noShards None) d None
              | None => Some (mkLoading noShards None)
              end
    end in
  match loaded with
  | Some st => lg_loaded st
  | None => mkLoaded [] 0 0 false true
  end.

(** [assembleShardedResult]: the manifest of the workers' directories, given with their
    counts and error flags. *)
Definition manifestText (parts : list (Z * bytes)) : bytes :=
  mjoin ((λ p : Z * bytes, to_string p.1 ++ bs " " ++ p.2 ++ [10]) <$> parts).
End Manifest.

(** [input >> token] until the end of the stream. *)
Fixpoint tokensFrom (s token : bytes) : list bytes :=
  match s with
  | [] => if bool_decide (token = []) then [] else [token]
  | c :: s => if isspace c then (if bool_decide (token = []) then [] else [token]) ++ tokensFrom s [] else tokensFrom s (token ++ [c])
  end.
(** The lambda [number] of [loadDataFormat]. *)
Definition formatNumber (token : bytes) : option Z := match from_chars 32 10 token with Some (v, []) => Some v | _ => None end.
Definition orderOf (code : Z) : option ByteOrder := if code =? 0 then Some OrderUnknown else if code =? 1 then Some Little else if code =? 2 then Some Big else None.
(** [loadDataFormat]: [None] is a write error; without the file there is no format. *)
Definition loadDataFormat (d : Dir) : option (option (ByteOrder * Z)) :=
  match d FFormat with
  | None => Some None
  | Some text =>
      if (len text <=? 0) || (64 <? len text) then None else
      match tokensFrom text [] with
      | [magic; version; order; width] =>
          if negb (bytes_eqb magic (bs "CE_SCAN_FORMAT")) then None else
          let? v := formatNumber version in
          let? o := formatNumber order in
          let? wd := formatNumber width in
          if negb (v =? 1) || negb ((wd =? 0) || (wd =? 4) || (wd =? 8)) then None
          else let? o := orderOf o in Some (Some (o, wd))
      | _ => None
      end
  end.

(** [assembleShardedResult]: the manifest in the merged directory, the parts' error flags
    and their common format.  The parts are the workers' paths and finished results. *)
Definition manifestEntry (disk : Disk) (w : Writer) (part : bytes * Writer) : Writer :=
  let w := if w_writeError part.2 then markWriteError w else w in
  let '(w, ok) := writeAll disk FManifest (to_string (w_count part.2) ++ bs " " ++ part.1 ++ [10]) w in
  if ok then w else markWriteError w.
Definition mergedManifest (disk : Disk) (parts : list (bytes * Writer)) : Writer :=
  let w := newWriter false in
  if disk_open disk FManifest then foldl (manifestEntry disk) (openFile disk FManifest w) parts else markWriteError w.
Definition mergedFormat (disk : Disk) (parts : list (bytes * Writer)) (w : Writer) : Writer :=
  match parts with
  | (_, part) :: _ =>
      match w_format part with
      | Some (order, width) =>
          let w := setDataFormat disk order width w in
          if existsb (λ p : bytes * Writer, negb (bool_decide (w_format p.2 = w_format w))) parts then markWriteError w else w
      | None => w
      end
  | [] => w
  end.
Definition assembleShardedResult (disk : Disk) (world : bytes → Dir) (parts : list (bytes * Writer)) : Loaded * option (ByteOrder * Z) :=
  let ld := loadShards world (w_dir (mergedManifest disk parts)) in
  let w := mergedFormat disk parts (mergedManifest disk parts) in
  (mkLoaded (ld_shards ld) (ld_count ld) (ld_valueSize ld) (ld_hasAllTypes ld) (ld_writeError ld || w_writeError w), w_format w).

Section Readers.
Context (ld : Loaded).

Definition shardAt (i : Z) : option Shard :=
  List.find (λ s, (sh_cum s <=? i) && (i <? sh_cum s + sh_count s)) (ld_shards ld).
(** [shardLayout]: the directories and counts; an unfinalized result is not modelled. *)
Definition shardLayout : list (Dir * Z) := (λ s, (sh_dir s, sh_count s)) <$> ld_shards ld.

Definition strideOf (d : Dir) (cnt : Z) : Z :=
  if cnt =? 0 then 0 else
  match d FValues with
  | Some f => if (len f =? 0) || negb (len f mod cnt =? 0) then 0 else len f / cnt
  | None => 0
  end.
Fixpoint strideLoop (shards : list Shard) (stride : Z) : Z :=
  match shards with
  | [] => stride
  | s :: shards =>
      if sh_count s =? 0 then strideLoop shards stride
      else let st := strideOf (sh_dir s) (sh_count s) in
           if (st =? 0) || (negb (stride =? 0) && negb (stride =? st)) then 0 else strideLoop shards st
  end.
Definition recordStride : Z := strideLoop (ld_shards ld) 0.

Definition address (i : Z) : Z :=
  match shardAt i with
  | None => 0
  | Some s =>
      let local := i - sh_cum s in
      match sh_dir s FOffsets with
      | Some f => match preadFull f 4 (local * 4) with
                  | Some b => reconstruct (sh_frames s) local (le_val b)
                  | None => 0
                  end
      | None => 0
      end
  end.
(** The [valueSize] bytes of the buffer after [value] and [firstValue]. *)
Definition zeroBytes (n : Z) : bytes := replicate (Z.to_nat n) 0.
Definition readRecord (f : option bytes) (s : Shard) (i valueSize : Z) : bytes :=
  match f with
  | Some f => default (zeroBytes valueSize) (preadFull f valueSize ((i - sh_cum s) * ld_valueSize ld))
  | None => zeroBytes valueSize
  end.
Definition value (i valueSize : Z) : bytes :=
  if ld_writeError ld || (ld_valueSize ld =? 0) || (ld_valueSize ld <? valueSize) then zeroBytes valueSize else
  match shardAt i with
  | None => zeroBytes valueSize
  | Some s => readRecord (sh_dir s FValues) s i valueSize
  end.
Definition firstValue (i valueSize : Z) : bytes :=
  if ld_writeError ld || (ld_valueSize ld =? 0) || (ld_valueSize ld <? valueSize) then zeroBytes valueSize else
  match shardAt i with
  | None => zeroBytes valueSize
  | Some s =>
      match sh_dir s FFirst with
      | None => value i valueSize
      | f => readRecord f s i valueSize
      end
  end.
Definition allTypeCandidates (i : Z) : Z :=
  match shardAt i with
  | None => 0
  | Some s =>
      if negb (ld_hasAllTypes ld) then 0 else
      match openAllTypeCandidates (sh_dir s) (sh_count s) false with
      | inr f => match preadFull f 1 (i - sh_cum s) with
                 | Some [mask] => if validMask mask then mask else 0
                 | _ => 0
                 end
      | inl _ => 0
      end
  end.
Definition allTypeValueSize (i : Z) : Z := allCandidateReadSize (allTypeCandidates i).

(** [forEach]: the callback's arguments, in order.  The batches of one shard, of 4096 rows. *)
Definition batchRows (s : Shard) (local n : Z) (offs vals : bytes) : list (Z * bytes) :=
  (λ i, (reconstruct (sh_frames s) (local + i) (le_val (slice offs (i * 4) 4)),
         slice vals (i * ld_valueSize ld) (ld_valueSize ld))) <$> seqZ 0 n.
Fixpoint shardBatches (fuel : nat) (s : Shard) (fo fv : bytes) (local : Z) : list (Z * bytes) :=
  match fuel with
  | O => []
  | S fuel =>
      if sh_count s <=? local then [] else
      let n := Z.min (sh_count s - local) 4096 in
      match preadFull fo (n * 4) (local * 4), preadFull fv (n * ld_valueSize ld) (local * ld_valueSize ld) with
      | Some offs, Some vals => batchRows s local n offs vals ++ shardBatches fuel s fo fv (local + n)
      | _, _ => []
      end
  end.
Definition shardRows (s : Shard) : list (Z * bytes) :=
  if sh_count s =? 0 then [] else
  match sh_dir s FOffsets, sh_dir s FValues with
  | Some fo, Some fv => shardBatches (Z.to_nat (sh_count s)) s fo fv 0
  | _, _ => []
  end.
Definition forEachResult (valueSize : Z) : list (Z * bytes) :=
  if ld_writeError ld || (valueSize =? 0) || (ld_valueSize ld <? valueSize) || (SIZE_MAX / 4096 <? ld_valueSize ld) then []
  else (λ r : Z * bytes, (r.1, slice r.2 0 valueSize)) <$> mjoin (shardRows <$> ld_shards ld).
End Readers.

(** ** The reader of a next scan *)

Record ReaderShard := mkReaderShard {
  rs_offsets : option bytes; rs_values : option bytes; rs_first : option bytes; rs_candidates : option bytes;
  rs_count : Z; rs_cum : Z; rs_frames : list Frame
}.
Record ShardReader := mkReader { rd_shards : list ReaderShard; rd_ok : bool }.
Fixpoint openShards (layout : list (Dir * Z)) (all : bool) (cum : Z) : list ReaderShard * bool :=
  match layout with
  | [] => ([], true)
  | (d, count) :: layout =>
      let candidates := if all then openAllTypeCandidates d count false else inl true in
      let frames := loadFrames d in
      let ok := (match d FOffsets, d FValues with Some _, Some _ => true | _, _ => false end)
                && negb (all && match candidates with inl _ => true | inr _ => false end)
                && ((count =? 0) || framesEndAt frames count) in
      let '(shards, ok') := openShards layout all (cum + count) in
      (mkReaderShard (d FOffsets) (d FValues) (d FFirst) (match candidates with inr f => Some f | inl _ => None end)
         count cum frames :: shards, ok && ok')
  end.
Definition openReader (layout : list (Dir * Z)) (all : bool) : ShardReader :=
  let '(shards, ok) := openShards layout all 0 in mkReader shards ok.

(** A row of the previous scan: address, old value, first value, candidates. *)
Record Row := mkRow { row_addr : Z; row_value : bytes; row_first : bytes; row_mask : Z }.

(** The decoding loop over one stretch: the frame index only moves forward. *)
Fixpoint decodeAddresses (frames : list Frame) (li : Z) (offs : list Z) : option (list Z) :=
  match offs with
  | [] => Some []
  | off :: offs =>
      (fix skip (frames : list Frame) : option (list Z) :=
         match frames with
         | [] => None
         | f :: rest =>
             if fr_start f + fr_count f <=? li then skip rest
             else if UINTPTR_MAX - fr_base f <? off then None
             else let? addrs := decodeAddresses frames (li + 1) offs in Some ((fr_base f + off) :: addrs)
         end) frames
  end.
Definition chunks (n : Z) (size : Z) (b : bytes) : list bytes := (λ i, slice b (i * size) size) <$> seqZ 0 n.
(** The rows of one stretch inside a shard. *)
Definition readStretch (sh : ReaderShard) (local take_ valueSize : Z) (candidates : bool) : option (list Row) :=
  let? fo := rs_offsets sh in
  let? ob := preadFull fo (take_ * 4) (local * 4) in
  let? addrs := decodeAddresses (rs_frames sh) local (le_val <$> chunks take_ 4 ob) in
  let? fv := rs_values sh in
  let? vb := preadFull fv (take_ * valueSize) (local * valueSize) in
  let? fb := match rs_first sh with Some ff => preadFull ff (take_ * valueSize) (local * valueSize) | None => Some vb end in
  let? masks := if candidates then
                  let? fc := rs_candidates sh in
                  let? mb := preadFull fc take_ local in
                  if existsb (λ mask, negb (validMask mask)) mb then None else Some mb
                else Some (replicate (Z.to_nat take_) 0) in
  Some (zip_with (λ (r : Z * bytes) (fm : bytes * Z), mkRow r.1 r.2 fm.1 fm.2)
          (zip addrs (chunks take_ valueSize vb)) (zip (chunks take_ valueSize fb) masks)).
(** [read(begin, n)], the loop over stretches; each advances, so [n] steps are enough. *)
Fixpoint readRows (fuel : nat) (rd : ShardReader) (begin n valueSize : Z) (candidates : bool) : option (list Row) :=
  if n <=? 0 then Some [] else
  match fuel with
  | O => None
  | S fuel =>
      let? sh := List.find (λ s, (rs_cum s <=? begin) && (begin <? rs_cum s + rs_count s)) (rd_shards rd) in
      let local := begin - rs_cum sh in
      let take_ := Z.min (rs_count sh - local) n in
      let? rows := readStretch sh local take_ valueSize candidates in
      let? more := readRows fuel rd (begin + take_) (n - take_) valueSize candidates in
      Some (rows ++ more)
  end.
Definition readerRead (rd : ShardReader) (begin n valueSize : Z) (candidates : bool) : option (list Row) :=
  readRows (Z.to_nat n) rd begin n valueSize candidates.

(** ** What a directory stores *)

(** The frames and offsets that encode a list of addresses. *)
Inductive framed : list (Z * Z) → list Z → list Z → Prop :=
  | framed_nil : framed [] [] []
  | framed_cons b os fs offs addrs : is_u64 b → os ≠ [] → framed fs offs addrs →
      framed ((b, len os) :: fs) (os ++ offs) (((λ o, b + o) <$> os) ++ addrs).
Lemma framed_app f1 o1 a1 f2 o2 a2 : framed f1 o1 a1 → framed f2 o2 a2 → framed (f1 ++ f2) (o1 ++ o2) (a1 ++ a2).
Proof. induction 1; intros H2; [done|]. rewrite <- !app_assoc. cbn [app]. apply framed_cons; [done..|by apply IHframed]. Qed.
Lemma framed_one b os : is_u64 b → os ≠ [] → framed [(b, len os)] os ((λ o, b + o) <$> os).
Proof. intros. rewrite <- (app_nil_r os) at 2. rewrite <- (app_nil_r (_ <$> os)). by apply framed_cons; [..|apply framed_nil]. Qed.
Lemma framed_length fs offs addrs : framed fs offs addrs → length offs = length addrs.
Proof. induction 1; [done|]. rewrite !length_app, length_fmap. by rewrite IHframed. Qed.
Lemma len_pos {A} (l : list A) : l ≠ [] → 0 < len l.
Proof. destruct l; [done|]. intros _. rewrite len_cons. pose proof (len_nonneg l). lia. Qed.

Lemma startedFrames_ok fs offs addrs start : framed fs offs addrs → 0 ≤ start → start + len offs ≤ SIZE_MAX →
  startedFrames start fs = Some (started start fs).
Proof.
  intros Hf. revert start. induction Hf as [|b os fs offs addrs Hb Hne Hf IH]; intros start Hs Hle; [done|].
  rewrite len_app in Hle. pose proof (len_pos os Hne). pose proof (len_nonneg offs). cbn [startedFrames started].
  rewrite (proj2 (Z.eqb_neq _ _)), (proj2 (Z.ltb_ge _ _)) by lia. cbn [orb]. by rewrite IH by lia.
Qed.
Lemma rawFrames_encode fs tail : Forall (λ f : Z * Z, is_u64 f.1 ∧ is_u64 f.2) fs →
  rawFrames (length fs) (encodeFrames fs ++ tail) = fs.
Proof.
  induction 1 as [|[b n] fs [Hb Hn] _ IH]; [done|]. unfold encodeFrames in *. cbn [length rawFrames]. rewrite mjoin_fmap_cons. cbn [fst snd] in *.
  assert (∀ X : bytes, (le_bytes 8 b ++ le_bytes 8 n) ++ X = le_bytes 8 b ++ le_bytes 8 n ++ X) as Ha by (intros; by rewrite <- app_assoc).
  rewrite <- (app_assoc (_ ++ _)). f_equal; [f_equal|].
  - unfold slice. change (Z.to_nat 0) with O. rewrite drop_0, Ha, take_app_length' by (by rewrite length_le_bytes). by apply le_val_8.
  - unfold slice. change (Z.to_nat 8) with 8%nat. rewrite Ha, drop_app_length' by (by rewrite length_le_bytes).
    rewrite take_app_length' by (by rewrite length_le_bytes). by apply le_val_8.
  - rewrite drop_app_length' by (by rewrite length_app, !length_le_bytes). done.
Qed.
Lemma len_encodeFrames fs : len (encodeFrames fs) = 16 * len fs.
Proof.
  unfold encodeFrames. induction fs as [|f fs IH]; [done|]. rewrite mjoin_fmap_cons, !len_app, IH, len_cons, !len_le_bytes. lia.
Qed.
Lemma loadFrames_encode (d : Dir) fs offs addrs : framed fs offs addrs → fs ≠ [] → Forall (λ f : Z * Z, is_u64 f.1 ∧ is_u64 f.2) fs →
  len offs ≤ SIZE_MAX → d FFrames = Some (encodeFrames fs) → loadFrames d = started 0 fs.
Proof.
  intros Hf Hne Hu Hlen Hd. unfold loadFrames. rewrite Hd, len_encodeFrames. pose proof (len_pos fs Hne).
  rewrite (proj2 (Z.ltb_ge _ _)) by lia. rewrite (Z.mul_comm 16), Z.mod_mul, Z.div_mul by lia. cbn [orb negb Z.eqb].
  unfold len at 1. rewrite Nat2Z.id, <- (app_nil_r (encodeFrames fs)), rawFrames_encode by done. by erewrite startedFrames_ok by (done || lia).
Qed.

(** Looking an index up in the frames. *)
Lemma reconstruct_framed fs offs addrs start i o a : framed fs offs addrs → Forall is_u64 addrs → 0 ≤ start →
  offs !! i = Some o → addrs !! i = Some a → reconstruct (started start fs) (start + Z.of_nat i) o = a.
Proof.
  intros Hf. revert start i. induction Hf as [|b os fs offs addrs Hb Hne Hf IH]; intros start i Hu Hs Ho Ha; [done|].
  apply Forall_app in Hu as [Hu1 Hu2]. unfold reconstruct. cbn [started List.find fr_start fr_count fr_base].
  rewrite (proj2 (Z.leb_le start _)) by lia. cbn [andb].
  destruct (Z.ltb_spec (start + Z.of_nat i - start) (len os)) as [Hlt|Hge].
  - assert (i < length os)%nat as Hi by (unfold len in Hlt; lia). rewrite lookup_app_l in Ho by done.
    rewrite lookup_app_l, list_lookup_fmap, Ho in Ha by (by rewrite length_fmap). injection Ha as <-.
    assert (is_u64 (b + o)). { eapply (Forall_lookup_1 _ _ i); [exact Hu1|]. by rewrite list_lookup_fmap, Ho. }
    cbn [fr_base]. rewrite (proj2 (Z.leb_le _ _)) by lia_w. done.
  - assert (length os ≤ i)%nat as Hi by (unfold len in Hge; lia). rewrite lookup_app_r in Ho by done.
    rewrite lookup_app_r in Ha by (by rewrite length_fmap). rewrite length_fmap in Ha.
    pose proof (len_nonneg os). replace (start + Z.of_nat i) with (start + len os + Z.of_nat (i - length os)) by (unfold len; lia).
    apply (IH (start + len os) _ Hu2); [lia|done|done].
Qed.

Lemma decode_skip f rest li offs : fr_start f + fr_count f ≤ li → decodeAddresses (f :: rest) li offs = decodeAddresses rest li offs.
Proof. intros H. destruct offs as [|o offs]; [done|]. cbn [decodeAddresses]. by rewrite (proj2 (Z.leb_le _ _) H). Qed.
Lemma decode_step f rest li o offs : li < fr_start f + fr_count f → o ≤ UINTPTR_MAX - fr_base f →
  decodeAddresses (f :: rest) li (o :: offs) = (let? addrs := decodeAddresses (f :: rest) (li + 1) offs in Some ((fr_base f + o) :: addrs)).
Proof. intros H Ho. cbn [decodeAddresses]. by rewrite (proj2 (Z.leb_gt _ _) H), (proj2 (Z.ltb_ge _ _) Ho). Qed.
Lemma decode_in f rest l li tail : li + len l ≤ fr_start f + fr_count f → Forall (λ o, is_u64 (fr_base f + o)) l →
  decodeAddresses (f :: rest) li (l ++ tail) =
    (let? addrs := decodeAddresses (f :: rest) (li + len l) tail in Some (((λ o, fr_base f + o) <$> l) ++ addrs)).
Proof.
  intros Hle Hu. revert li Hle. induction Hu as [|o l Ho _ IH]; intros li Hle.
  { cbn [app fmap list_fmap]. rewrite (len_nil (A:=Z)), Z.add_0_r. by destruct (decodeAddresses _ _ _). }
  rewrite len_cons in *. pose proof (len_nonneg l). cbn [app]. rewrite decode_step by lia_w. rewrite IH by lia.
  replace (li + 1 + len l) with (li + (1 + len l)) by lia. by destruct (decodeAddresses _ _ tail).
Qed.
Lemma decode_framed fs offs addrs start n i : framed fs offs addrs → Forall is_u64 addrs → 0 ≤ start →
  decodeAddresses (started start fs) (start + Z.of_nat i) (take n (drop i offs)) = Some (take n (drop i addrs)).
Proof.
  intros Hf. revert start n i. induction Hf as [|b os fs offs addrs Hb Hne Hf IH]; intros start n i Hu Hs.
  { by rewrite !drop_nil, !take_nil. }
  apply Forall_app in Hu as [Hu1 Hu2]. cbn [started]. destruct (Nat.le_gt_cases (length os) i) as [Hi|Hi].
  - rewrite decode_skip by (cbn [fr_start fr_count]; unfold len; lia). rewrite !drop_app_ge by (rewrite ?length_fmap; lia). rewrite length_fmap.
    replace (start + Z.of_nat i) with (start + len os + Z.of_nat (i - length os)) by (unfold len; lia).
    apply IH; [done|]. pose proof (len_nonneg os). lia.
  - rewrite !drop_app_le by (rewrite ?length_fmap; lia). rewrite !take_app, length_drop. cbn [fmap].
    rewrite <- fmap_drop, <- fmap_take. rewrite decode_in.
    2:{ cbn [fr_start fr_count]. unfold len. rewrite length_take, length_drop. lia. }
    2:{ cbn [fr_base]. apply Forall_take, Forall_drop. exact (proj1 (Forall_fmap _ _ _) Hu1). }
    cbn [fr_base]. rewrite length_fmap, length_drop. destruct (Nat.le_gt_cases n (length os - i)) as [Hn|Hn].
    + replace (n - (length os - i))%nat with O by lia. by rewrite !take_0.
    + rewrite decode_skip. 2:{ cbn [fr_start fr_count]. unfold len. rewrite length_take, length_drop. lia. }
      replace (start + Z.of_nat i + len (take n (drop i os))) with (start + len os + Z.of_nat 0) by (unfold len; rewrite length_take, length_drop; lia).
      specialize (IH (start + len os) (n - (length os - i))%nat O Hu2). rewrite !drop_0 in IH. rewrite IH; [done|].
      pose proof (len_nonneg os). lia.
Qed.

(** ** Uniform records *)

Lemma mjoin_app {A} (l k : list (list A)) : mjoin (l ++ k) = mjoin l ++ mjoin k.
Proof. induction l as [|x l IH]; [done|]. change (x ++ mjoin (l ++ k) = (x ++ mjoin l) ++ mjoin k). by rewrite IH, app_assoc. Qed.
(** Concatenations of equally long records, cut again. *)
Lemma len_mjoin_uniform (l : list bytes) k : Forall (λ b, len b = k) l → len (mjoin l) = len l * k.
Proof. induction 1 as [|b l Hb _ IH]; [done|]. change (mjoin (b :: l)) with (b ++ mjoin l). rewrite len_app, IH, len_cons, Hb. lia. Qed.
Lemma slice_mjoin (l : list bytes) k i n : Forall (λ b, len b = k) l → (i + n ≤ length l)%nat → 0 ≤ k →
  slice (mjoin l) (Z.of_nat i * k) (Z.of_nat n * k) = mjoin (take n (drop i l)).
Proof.
  intros Hl. revert i. induction Hl as [|b l Hb Hl IH]; intros i Hi Hk.
  { cbn in Hi. replace i with O by lia. replace n with O by lia. by rewrite drop_0, take_0. }
  destruct i as [|i].
  - clear IH. change (Z.of_nat 0 * k) with 0. rewrite drop_0. unfold slice. change (Z.to_nat 0) with O. rewrite drop_0.
    assert (mjoin (b :: l) = mjoin (take n (b :: l)) ++ mjoin (drop n (b :: l))) as -> by (by rewrite <- mjoin_app, take_drop).
    rewrite take_app_length'; [done|]. assert (Forall (λ b, len b = k) (take n (b :: l))) as Ht by (apply Forall_take; by constructor).
    apply len_mjoin_uniform in Ht. unfold len in *. rewrite length_take, Nat.min_l in Ht by (cbn in *; lia). lia.
  - cbn [drop]. rewrite <- IH by (cbn in Hi; lia). unfold slice. change (mjoin (b :: l)) with (b ++ mjoin l).
    replace (Z.to_nat (Z.of_nat (S i) * k)) with (length b + Z.to_nat (Z.of_nat i * k))%nat
      by (unfold len in Hb; rewrite Nat2Z.inj_succ, Z.mul_succ_l, Z.add_comm, Z2Nat.inj_add by nia; lia).
    by rewrite drop_app_add'.
Qed.

(** ** Writing keeps every row, or raises the error flag *)

Definition row_ok (all : bool) (vs : Z) (r : Row) : Prop :=
  is_u64 (row_addr r) ∧ len (row_value r) = vs ∧ len (row_first r) = vs ∧
  if all then vs = 8 ∧ validMask (row_mask r) = true else row_mask r = 0.
(** The record files of a finalized result. *)
Record stored (first all : bool) (rows : list Row) (d : Dir) (frames : list (Z * Z)) : Prop := {
  st_offsets : ∃ offs, framed frames offs (row_addr <$> rows) ∧ Forall is_u32 offs ∧ d FOffsets = Some (encodeOffsets offs);
  st_frames : d FFrames = if bool_decide (frames = []) then None else Some (encodeFrames frames);
  st_values : d FValues = Some (mjoin (row_value <$> rows));
  st_first : d FFirst = if first then Some (mjoin (row_first <$> rows)) else None;
  st_masks : d FAllTypes = if all then Some (row_mask <$> rows) else None;
  st_manifest : d FManifest = None
}.
(** What is on disk together with what is buffered. *)
Definition pending (w : Writer) (f : FileName) (buffered : bytes) : option bytes := (λ old, old ++ buffered) <$> w_dir w f.
Record writing (first all : bool) (vs : Z) (rows : list Row) (w : Writer) : Prop := {
  wr_flags : w_storeFirst w = first ∧ w_hasAllTypes w = all ∧ w_finalized w = false ∧ w_writeError w = false;
  wr_open : w_isOpen w FOffsets = true ∧ w_isOpen w FValues = true ∧ w_isOpen w FFirst = first ∧ (all = true → w_isOpen w FAllTypes = true);
  wr_offsets : ∃ offs addrs b os, framed (w_frames w) offs addrs ∧ w_frame w = (if bool_decide (os = []) then None else Some (b, len os)) ∧ (os ≠ [] → is_u64 b) ∧
    row_addr <$> rows = addrs ++ ((λ o, b + o) <$> os) ∧ Forall is_u32 (offs ++ os) ∧
    pending w FOffsets (encodeOffsets (offsetBuf (w_buf w))) = Some (encodeOffsets (offs ++ os));
  wr_values : pending w FValues (valueBuf (w_buf w)) = Some (mjoin (row_value <$> rows));
  wr_first : pending w FFirst (firstValueBuf (w_buf w)) = if first then Some (mjoin (row_first <$> rows)) else None;
  wr_masks : pending w FAllTypes (allTypeBuf (w_buf w)) = (if all then Some (row_mask <$> rows) else None) ∧
    (all = true → len (allTypeBuf (w_buf w)) = len (offsetBuf (w_buf w)));
  wr_empty : bool_decide (offsetBuf (w_buf w) = []) = true → w_buf w = noBuffers;
  wr_none : w_dir w FFrames = None ∧ w_dir w FManifest = None;
  wr_count : w_count w = len rows ∧ w_valueSize w = if bool_decide (rows = []) then 0 else vs
}.

Section WriterProofs.
Context (disk : Disk).

(** The environment takes everything. *)
Definition reliable : Prop := (∀ f, disk_open disk f = true) ∧ ∀ n, disk_write disk n = None.
Definition grown (w : Writer) (f : FileName) (data : bytes) : Writer :=
  withDisk w (<[f := Some (default [] (w_dir w f) ++ data)]> (w_dir w)) (w_isOpen w) (S (w_writes w)).

Lemma put_error f data w : w_writeError w = true → w_writeError (put disk f data w) = true.
Proof. intros H. unfold put, writeAll. destruct (w_isOpen w f); [|done]. by destruct (disk_write disk (w_writes w)). Qed.
Lemma put_ok f data w : w_writeError (put disk f data w) = false → w_isOpen w f = true → put disk f data w = grown w f data.
Proof. unfold put, writeAll. intros H Ho. rewrite Ho in *. by destruct (disk_write disk (w_writes w)). Qed.
Lemma put_reliable f data w : reliable → w_writeError w = false → w_writeError (put disk f data w) = false.
Proof. intros [_ H] Hw. unfold put, writeAll. destruct (w_isOpen w f); [|done]. by rewrite H. Qed.

Lemma putMasks_error b w : w_writeError w = true → w_writeError (putMasks disk b w) = true.
Proof.
  intros H. unfold putMasks, writeAll. destruct (w_hasAllTypes w); [|done]. destruct (_ || _); [done|]. by destruct (disk_write disk (w_writes w)).
Qed.
Lemma putMasks_ok b w : w_writeError (putMasks disk b w) = false →
  putMasks disk b w = if w_hasAllTypes w then grown w FAllTypes (allTypeBuf b) else w.
Proof.
  unfold putMasks, writeAll. destruct (w_hasAllTypes w); [|done]. destruct (_ || _); [done|]. by destruct (disk_write disk (w_writes w)).
Qed.
Lemma flush_error w : w_writeError w = true → w_writeError (flush disk w) = true.
Proof.
  intros H. unfold flush. destruct (bool_decide _); [done|]. cbn [withBuf w_writeError]. by apply putMasks_error; do 3 apply put_error.
Qed.
(** What held before an operation that never clears the flag. *)
Lemma no_error (op : Writer → Writer) w : (∀ w, w_writeError w = true → w_writeError (op w) = true) →
  w_writeError (op w) = false → w_writeError w = false.
Proof. intros Hop H. destruct (w_writeError w) eqn:E; [|done]. apply Hop in E. congruence. Qed.
Lemma pending_grown w f data b : pending w f data = Some b → default [] (w_dir w f) ++ data = b.
Proof. unfold pending. destruct (w_dir w f); [|done]. by intros [= <-]. Qed.

(** A flush without error moves the buffers to the files. *)
Lemma flush_ok first all vs rows w : writing first all vs rows w → offsetBuf (w_buf w) ≠ [] → w_writeError (flush disk w) = false →
  ∃ d n, flush disk w = withBuf (withDisk w d (w_isOpen w) n) noBuffers ∧
    d FOffsets = pending w FOffsets (encodeOffsets (offsetBuf (w_buf w))) ∧ d FValues = pending w FValues (valueBuf (w_buf w)) ∧
    d FFirst = pending w FFirst (firstValueBuf (w_buf w)) ∧ d FAllTypes = pending w FAllTypes (allTypeBuf (w_buf w)) ∧
    d FFrames = None ∧ d FManifest = None.
Proof.
  intros [(F1 & F2 & F3 & F4) (O1 & O2 & O3 & O4) (offs & addrs & b & os & _ & _ & _ & _ & _ & Hoffs) Hvals Hfirst [Hmasks Hlen] _ [N1 N2] _] Hne.
  unfold flush. rewrite bool_decide_false by done. cbv zeta. cbn [withBuf w_writeError]. intros He.
  pose proof (putMasks_ok _ _ He) as Hm. apply no_error in He; [|apply putMasks_error]. pose proof He as He3.
  apply no_error in He; [|apply put_error]. pose proof He as He2. apply no_error in He; [|apply put_error].
  rewrite (put_ok _ _ _ He O1) in *. rewrite (put_ok _ _ _ He2 O2) in *.
  assert (∀ w', w_hasAllTypes (put disk FFirst (firstValueBuf (w_buf w)) w') = w_hasAllTypes w') as Hall.
  { intros w'. unfold put, writeAll. destruct (w_isOpen w' FFirst); [|done]. by destruct (disk_write disk (w_writes w')). }
  rewrite Hall in Hm. cbn [grown withDisk w_hasAllTypes] in Hm. rewrite F2 in Hm. rewrite Hm. clear Hm Hall.
  rewrite Hoffs, Hvals, Hfirst, Hmasks. apply pending_grown in Hoffs, Hvals.
  destruct first; [apply pending_grown in Hfirst|unfold pending in Hfirst; apply fmap_None in Hfirst];
    (destruct all; [apply pending_grown in Hmasks|unfold pending in Hmasks; apply fmap_None in Hmasks]);
    (rewrite (put_ok _ _ _ He3 O3) || (unfold put at 1; cbn [grown withDisk w_isOpen]; rewrite O3));
    (eexists _, _; split; [reflexivity|]; cbn [grown withDisk w_dir]; file_lookup; split_and!; congruence).
Qed.

Lemma flush_writing first all vs rows w : writing first all vs rows w → w_writeError (flush disk w) = false →
  writing first all vs rows (flush disk w) ∧ w_buf (flush disk w) = noBuffers.
Proof.
  intros H He. pose proof H as [(F1 & F2 & F3 & F4) HO (offs & addrs & b & os & W1 & W2 & Wb & W3 & W4 & W5) Hv Hf [Hm Hl] Hempty HN HC].
  destruct (decide (offsetBuf (w_buf w) = [])) as [Hb|Hb].
  { unfold flush in *. rewrite bool_decide_true in * by done. split; [done|]. by apply Hempty. }
  destruct (flush_ok first all vs rows w H Hb He) as (d & n & E & D1 & D2 & D3 & D4 & D5 & D6). rewrite E. split; [|done]. constructor; cbn [withBuf withDisk w_dir w_isOpen w_storeFirst w_finalized w_writeError w_hasAllTypes w_buf w_frame w_frames w_count w_valueSize]; try done.
  - exists offs, addrs, b, os. split_and!; try done. unfold pending. cbn [withBuf withDisk w_dir w_buf noBuffers offsetBuf]. rewrite D1, W5. cbn. by rewrite app_nil_r.
  - unfold pending. cbn [withBuf withDisk w_dir w_buf noBuffers valueBuf]. rewrite D2, Hv. cbn. by rewrite app_nil_r.
  - unfold pending. cbn [withBuf withDisk w_dir w_buf noBuffers firstValueBuf]. rewrite D3, Hf. destruct first; [|done]. cbn. by rewrite app_nil_r.
  - split; [|done]. unfold pending. cbn [withBuf withDisk w_dir w_buf noBuffers allTypeBuf]. rewrite D4, Hm. destruct all; [|done]. cbn. by rewrite app_nil_r.
Qed.

(** Adding one row of an ordinary or of an all-types scan. *)
Definition addRow (all : bool) (r : Row) (w : Writer) : Writer :=
  if all then addAllTypeResult disk (row_addr r) (row_value r) (row_first r) (row_mask r) w
  else addResult disk (row_addr r) (row_value r) (row_first r) w.
(** [addResult] up to the flush. *)
Definition buffered (addr : Z) (value firstValue : bytes) (w : Writer) : Writer :=
  let '(frames, base, inFrame) :=
    match w_frame w with
    | Some (base, n) =>
        if (addr <? base) || (2 ^ 32 <=? addr - base) then (w_frames w ++ [(base, n)], addr, 0) else (w_frames w, base, n)
    | None => (w_frames w, addr, 0)
    end in
  let b := w_buf w in
  let b := mkBuffers (offsetBuf b ++ [u32 (addr - base)]) (valueBuf b ++ value)
    (if w_storeFirst w then firstValueBuf b ++ firstValue else firstValueBuf b) (allTypeBuf b) in
  mkWriter (w_dir w) (w_isOpen w) (w_writes w) (w_storeFirst w) (w_finalized w) (w_writeError w)
    (w_format w) (w_hasAllTypes w) b (Some (base, inFrame + 1)) frames (w_count w + 1) (len value).
Definition masked (all : bool) (mask : Z) (w : Writer) : Writer :=
  let b := w_buf w in
  if all then withBuf w (mkBuffers (offsetBuf b) (valueBuf b) (firstValueBuf b) (allTypeBuf b ++ [mask])) else w.
Lemma addRow_eq first all vs rows r w : writing first all vs rows w → row_ok all vs r → 0 < vs →
  let w' := buffered (row_addr r) (row_value r) (row_first r) (masked all (row_mask r) w) in
  addRow all r w = if 8192 <=? len (offsetBuf (w_buf w')) then flush disk w' else w'.
Proof.
  intros [(F1 & F2 & F3 & F4) _ _ _ _ [_ Hl] _ _ [_ HC]] (_ & R1 & R2 & R3) Hvs. cbv zeta.
  assert (∀ w1, w_finalized w1 = false → w_writeError w1 = false → w_valueSize w1 = w_valueSize w → w_hasAllTypes w1 = all →
    (all = true → len (allTypeBuf (w_buf w1)) = len (offsetBuf (w_buf w1)) + 1) →
    addResult disk (row_addr r) (row_value r) (row_first r) w1 =
      let w' := buffered (row_addr r) (row_value r) (row_first r) w1 in if 8192 <=? len (offsetBuf (w_buf w')) then flush disk w' else w') as Hadd.
  { intros w1 G1 G2 G3 G4 G5. unfold addResult, buffered. rewrite G1, G2, G3, G4, HC, R1.
    assert ((all && (negb (vs =? 8) || negb (len (allTypeBuf (w_buf w1)) =? len (offsetBuf (w_buf w1)) + 1))) = false) as ->.
    { destruct all; [|done]. destruct R3 as [-> _]. rewrite G5, !Z.eqb_refl by done. done. }
    rewrite (proj2 (Z.eqb_neq vs 0)) by lia. cbn [orb].
    assert ((negb ((if bool_decide (rows = []) then 0 else vs) =? 0) && negb (vs =? (if bool_decide (rows = []) then 0 else vs))) = false) as ->.
    { destruct (bool_decide _); [done|]. by rewrite Z.eqb_refl, andb_false_r. }
    cbn [orb]. destruct (w_frame w1) as [[b n]|]; [destruct (_ || _)|]; reflexivity. }
  unfold addRow, masked. destruct all.
  - unfold addAllTypeResult, enableAllTypeCandidates. rewrite F2, F3, F4. destruct R3 as [_ ->]. cbn [negb orb]. apply Hadd; try done.
    intros _. cbn [withBuf w_buf allTypeBuf offsetBuf]. rewrite len_snoc, Hl by done. lia.
  - apply Hadd; done.
Qed.

Lemma encodeOffsets_snoc l x : encodeOffsets (l ++ [x]) = encodeOffsets l ++ le_bytes 4 x.
Proof. unfold encodeOffsets. rewrite fmap_app, mjoin_app. change (mjoin (le_bytes 4 <$> [x])) with (le_bytes 4 x ++ []). by rewrite app_nil_r. Qed.
Lemma fmap_snoc {A B} (f : A → B) l x : f <$> l ++ [x] = (f <$> l) ++ [f x].
Proof. by rewrite fmap_app. Qed.
Lemma mjoin_snoc {A} (l : list (list A)) x : mjoin (l ++ [x]) = mjoin l ++ x.
Proof. rewrite mjoin_app. change (mjoin [x]) with (x ++ []). by rewrite app_nil_r. Qed.
Lemma pending_snoc w f data b more : pending w f data = Some b → (λ old, old ++ data ++ more) <$> w_dir w f = Some (b ++ more).
Proof. unfold pending. destruct (w_dir w f); [|done]. intros [= <-]. cbn. by rewrite app_assoc. Qed.

(** The frame a row goes to. *)
Lemma frame_step w rows offs addrs b os addr : framed (w_frames w) offs addrs → w_frame w = (if bool_decide (os = []) then None else Some (b, len os)) → (os ≠ [] → is_u64 b) →
  rows = addrs ++ ((λ o, b + o) <$> os) → Forall is_u32 (offs ++ os) → is_u64 addr →
  ∃ frames base n offs' addrs' os',
    match w_frame w with
    | Some (base, n) => if (addr <? base) || (2 ^ 32 <=? addr - base) then (w_frames w ++ [(base, n)], addr, 0) else (w_frames w, base, n)
    | None => (w_frames w, addr, 0)
    end = (frames, base, n) ∧
    framed frames offs' addrs' ∧ os' ≠ [] ∧ is_u64 base ∧ n + 1 = len os' ∧ rows ++ [addr] = addrs' ++ ((λ o, base + o) <$> os') ∧
    offs' ++ os' = (offs ++ os) ++ [u32 (addr - base)] ∧ Forall is_u32 (offs' ++ os').
Proof.
  intros Hf Hw Hb Hrows Hu Ha. assert (∀ l, Forall is_u32 l → Forall is_u32 (l ++ [u32 (addr - addr)])) as Hzero.
  { intros l Hl. apply Forall_app_2; [done|]. apply Forall_singleton. by apply wrap_bound. }
  rewrite Hw. case_bool_decide as Hos.
  - subst os. exists (w_frames w), addr, 0, offs, addrs, [u32 (addr - addr)]. split_and!; try done.
    + rewrite Hrows. cbn [fmap list_fmap]. rewrite app_nil_r. f_equal. f_equal. rewrite Z.sub_diag. change (u32 0) with 0. lia.
    + by rewrite app_nil_r.
    + apply Hzero. by rewrite app_nil_r in Hu.
  - specialize (Hb Hos). destruct ((addr <? b) || (2 ^ 32 <=? addr - b)) eqn:E.
    + exists (w_frames w ++ [(b, len os)]), addr, 0, (offs ++ os), (addrs ++ ((λ o, b + o) <$> os)), [u32 (addr - addr)]. split_and!; try done.
      * apply framed_app; [done|by apply framed_one].
      * rewrite Hrows. f_equal. cbn [fmap list_fmap]. f_equal. rewrite Z.sub_diag. change (u32 0) with 0. lia.
      * by apply Hzero.
    + apply orb_false_iff in E as [E1%Z.ltb_ge E2%Z.leb_gt]. exists (w_frames w), b, (len os), offs, addrs, (os ++ [u32 (addr - b)]). split_and!; try done.
      * by destruct os.
      * by rewrite len_snoc.
      * rewrite fmap_app, Hrows, <- app_assoc. do 2 f_equal. cbn [fmap list_fmap]. f_equal. rewrite wrap_small by lia_w. lia.
      * by rewrite app_assoc.
      * rewrite app_assoc. apply Forall_app_2; [done|]. apply Forall_singleton. by apply wrap_bound.
Qed.
Lemma buffered_writing first all vs rows r w : writing first all vs rows w → row_ok all vs r → 0 < vs →
  writing first all vs (rows ++ [r]) (buffered (row_addr r) (row_value r) (row_first r) (masked all (row_mask r) w)).
Proof.
  intros [(F1 & F2 & F3 & F4) HO (offs & addrs & b & os & W1 & W2 & Wb & W3 & W4 & W5) Hv Hf [Hm Hl] Hempty HN [HC1 HC2]] (R0 & R1 & R2 & R3) Hvs.
  destruct (frame_step w _ offs addrs b os (row_addr r) W1 W2 Wb W3 W4 R0) as (frames & base & n & offs' & addrs' & os' & E & G1 & G2 & Gb & G3 & G4 & G5 & G6).
  unfold buffered. assert (w_frame (masked all (row_mask r) w) = w_frame w ∧ w_frames (masked all (row_mask r) w) = w_frames w) as [-> ->] by (by destruct all).
  rewrite E. assert (masked all (row_mask r) w = withBuf w (mkBuffers (offsetBuf (w_buf w)) (valueBuf (w_buf w)) (firstValueBuf (w_buf w))
    (if all then allTypeBuf (w_buf w) ++ [row_mask r] else allTypeBuf (w_buf w)))) as ->.
  { destruct all; [done|]. unfold masked. by destruct w as [????????[]]. }
  cbn [withBuf w_buf offsetBuf valueBuf firstValueBuf allTypeBuf w_dir w_isOpen w_writes w_storeFirst w_finalized w_writeError w_format w_hasAllTypes w_count].
  constructor; cbn [w_buf offsetBuf valueBuf firstValueBuf allTypeBuf w_dir w_isOpen w_writes w_storeFirst w_finalized w_writeError w_format w_hasAllTypes w_count w_frame w_frames w_valueSize]; try done.
  - exists offs', addrs', base, os'. split_and!; try done.
    + rewrite bool_decide_false by done. by rewrite G3.
    + by rewrite fmap_snoc, <- G4.
    + unfold pending. cbn [w_dir]. rewrite encodeOffsets_snoc, G5, encodeOffsets_snoc. by apply pending_snoc.
  - rewrite fmap_snoc, mjoin_snoc. by apply pending_snoc.
  - rewrite F1. destruct first; [|done]. rewrite fmap_snoc, mjoin_snoc. by apply pending_snoc.
  - split; [destruct all; [|done]; rewrite fmap_snoc; by apply pending_snoc|]. intros Ha. destruct all; [|done]. specialize (Hl eq_refl). rewrite !len_snoc. lia.
  - intros Hb%bool_decide_eq_true. by destruct (offsetBuf (w_buf w)).
  - rewrite len_snoc, HC1. split; [lia|]. rewrite R1. rewrite bool_decide_false by (by destruct rows). done.
Qed.
Lemma addRow_writing first all vs rows r w : writing first all vs rows w → row_ok all vs r → 0 < vs →
  w_writeError (addRow all r w) = false → writing first all vs (rows ++ [r]) (addRow all r w).
Proof.
  intros H Hr Hvs. rewrite (addRow_eq first all vs rows) by done. cbv zeta. pose proof (buffered_writing first all vs rows r w H Hr Hvs) as Hb.
  destruct (_ <=? _); intros He; [by apply flush_writing|done].
Qed.

(** How a worker's result starts: its files, the data format, and the candidates of an
    all-types scan. *)
Definition startResult (storeFirst all : bool) (order : ByteOrder) (width : Z) : Writer :=
  let w := setDataFormat disk order width (createResult disk storeFirst) in
  if all then enableAllTypeCandidates disk w else w.
Lemma create_writing first vs : w_writeError (createResult disk first) = false → writing first false vs [] (createResult disk first).
Proof.
  unfold createResult, openFile. destruct first, (disk_open disk FOffsets), (disk_open disk FValues), (disk_open disk FFirst);
    cbn [withDisk newWriter w_isOpen w_dir w_writes]; file_lookup; cbn [negb orb andb]; intros He; try done;
    constructor; cbn [markWriteError withDisk newWriter w_dir w_isOpen w_storeFirst w_finalized w_writeError w_hasAllTypes w_buf w_frame w_frames w_count w_valueSize];
    unfold pending; cbn [withDisk newWriter w_dir w_buf]; file_lookup; try done;
    exists [], [], 0, []; split_and!; try done; apply framed_nil.
Qed.
Lemma format_writing first all vs rows order width w : writing first all vs rows w → w_writeError (setDataFormat disk order width w) = false →
  writing first all vs rows (setDataFormat disk order width w).
Proof.
  intros [(F1 & F2 & F3 & F4) (O1 & O2 & O3 & O4) (offs & addrs & b & os & W1 & W2 & Wb & W3 & W4 & W5) Hv Hf [Hm Hl] Hempty [N1 N2] [HC1 HC2]] He.
  unfold setDataFormat in *. destruct (negb _); [done|]. cbv zeta in *. destruct (negb (disk_open disk FFormat)) eqn:Eo; [done|].
  apply negb_false_iff in Eo. unfold openFile, writeAll in *. rewrite Eo in *. cbn [withDisk w_dir w_writes w_isOpen] in *.
  destruct (disk_write disk (w_writes w)); [done|]. constructor; cbn [withDisk w_dir w_isOpen w_storeFirst w_finalized w_writeError w_hasAllTypes w_buf w_frame w_frames w_count w_valueSize]; try done.
  exists offs, addrs, b, os. done.
Qed.
Lemma enable_writing first vs w : writing first false vs [] w → w_writeError (enableAllTypeCandidates disk w) = false →
  writing first true vs [] (enableAllTypeCandidates disk w).
Proof.
  intros [(F1 & F2 & F3 & F4) (O1 & O2 & O3 & O4) (offs & addrs & b & os & W1 & W2 & Wb & W3 & W4 & W5) Hv Hf [Hm Hl] Hempty [N1 N2] [HC1 HC2]] He.
  unfold enableAllTypeCandidates in *. rewrite F2, F3, HC1 in *. cbn [orb negb len Z.of_nat length Z.eqb] in *. unfold openFile in *.
  destruct (disk_open disk FAllTypes); [|done]. 
  assert (encodeOffsets (offs ++ os) = []) as Hoe.
  { apply (f_equal length) in W3. rewrite length_app, length_fmap in W3. cbn in W3. apply framed_length in W1.
    destruct addrs; [|done]. destruct offs; [|done]. by destruct os. }
  assert (w_buf w = noBuffers) as Hbuf.
  { apply Hempty. apply bool_decide_eq_true. unfold pending in W5. rewrite Hoe in W5. destruct (w_dir w FOffsets); [|done].
    injection W5 as [_ Hx]%app_nil. destruct (offsetBuf (w_buf w)) as [|x xs]; [done|]. unfold encodeOffsets in Hx. rewrite fmap_cons in Hx. done. }
  constructor; cbn [withDisk w_dir w_isOpen w_storeFirst w_finalized w_writeError w_hasAllTypes w_buf w_frame w_frames w_count w_valueSize]; try done.
  - exists offs, addrs, b, os. done.
  - by rewrite Hbuf.
Qed.
Lemma setDataFormat_error order width w : w_writeError w = true → w_writeError (setDataFormat disk order width w) = true.
Proof.
  intros H. unfold setDataFormat. destruct (negb _); [done|]. destruct (negb (disk_open disk FFormat)); [done|]. unfold writeAll, openFile.
  destruct (disk_open disk FFormat); cbn [withDisk w_writes]; by destruct (disk_write disk (w_writes w)).
Qed.
Lemma enable_error w : w_writeError w = true → w_writeError (enableAllTypeCandidates disk w) = true.
Proof.
  intros H. unfold enableAllTypeCandidates, openFile. destruct (w_hasAllTypes w); [done|]. destruct (_ || _); [done|]. by destruct (disk_open disk FAllTypes).
Qed.
Lemma start_writing first all vs order width : w_writeError (startResult first all order width) = false →
  writing first all vs [] (startResult first all order width).
Proof.
  unfold startResult. cbv zeta. intros He. assert (w_writeError (setDataFormat disk order width (createResult disk first)) = false) as E2.
  { destruct all; [|done]. by apply no_error in He; [|apply enable_error]. }
  assert (w_writeError (createResult disk first) = false) as E1 by (by apply no_error in E2; [|apply setDataFormat_error]).
  apply (create_writing first vs) in E1. apply (format_writing first false vs []) in E2; [|done]. destruct all; [by apply enable_writing|done].
Qed.

Lemma finalize_stored first all vs rows w : writing first all vs rows w → w_writeError (finalize disk w) = false →
  stored first all rows (w_dir (finalize disk w)) (w_frames (finalize disk w)) ∧
  w_count (finalize disk w) = len rows ∧ w_valueSize (finalize disk w) = (if bool_decide (rows = []) then 0 else vs) ∧
  w_hasAllTypes (finalize disk w) = all.
Proof.
  intros H He. pose proof H as [(_ & _ & F3 & _) _ _ _ _ _ _ _ _]. unfold finalize in *. rewrite F3 in *. cbv zeta in *.
  set (w1 := flush disk w) in *. set (fr := match w_frame w1 with Some f => w_frames w1 ++ [f] | None => w_frames w1 end) in *.
  set (w2 := mkWriter _ _ _ _ _ _ _ _ _ _ _ _ _) in *.
  assert (w_writeError w1 = false) as E1.
  { destruct (w_writeError w1) eqn:E; [|done]. exfalso. assert (w_writeError w2 = true) as E2 by done.
    destruct (_ && _); [|congruence]. destruct (disk_open disk FFrames) eqn:Eo; [|done].
    revert He. rewrite put_error; [done|]. unfold openFile. by rewrite Eo. }
  destruct (flush_writing first all vs rows w H E1) as [[(G1 & G2 & G3 & G4) (O1 & O2 & O3 & O4) (offs & addrs & b & os & W1 & W2 & Wb & W3 & W4 & W5) Hv Hf [Hm _] _ [N1 N2] [C1 C2]] Hbuf].
  fold w1 in G1, G2, G3, G4, O1, O2, O3, O4, W1, W2, W5, Hv, Hf, Hm, N1, N2, C1, C2, Hbuf. unfold pending in *. rewrite Hbuf in *. cbn [noBuffers offsetBuf valueBuf firstValueBuf allTypeBuf] in *.
  assert (∀ f (x : option bytes), (λ old : bytes, old ++ []) <$> w_dir w1 f = x → w_dir w1 f = x) as Hid.
  { intros f x <-. destruct (w_dir w1 f); [|done]. cbn. by rewrite app_nil_r. }
  change (encodeOffsets []) with (@nil Z) in W5. apply Hid in W5, Hv, Hf, Hm.
  assert (framed fr (offs ++ os) (row_addr <$> rows)) as Hframed.
  { rewrite W3. unfold fr. rewrite W2. destruct (decide (os = [])) as [->|Hos]; [rewrite bool_decide_true by done; cbn; by rewrite !app_nil_r|].
    rewrite bool_decide_false by done. apply framed_app; [done|]. by apply framed_one; [apply Wb|]. }
  clearbody fr. change (w_isOpen w2 FOffsets) with (w_isOpen w1 FOffsets) in *. rewrite O1 in *. cbn [andb] in *.
  destruct (decide (fr = [])) as [Hfr|Hfr]; [rewrite (bool_decide_true (fr = [])) in * by done|rewrite (bool_decide_false (fr = [])) in * by done]; cbn [negb] in *.
  - split; [|done]. constructor; cbn [w2 w_dir w_frames]; try done; [by exists (offs ++ os)|by rewrite bool_decide_true].
  - destruct (disk_open disk FFrames) eqn:Eo; [|done]. unfold openFile in *. rewrite Eo in *.
    rewrite (put_ok FFrames) in * by done. cbn [grown withDisk w_dir w_frames w_count w_valueSize w_hasAllTypes w2]. split; [|done].
    assert (∀ f, f ≠ FFrames → (<[FFrames:=Some (default [] (<[FFrames:=Some []]> (w_dir w1) FFrames) ++ encodeFrames fr)]> (<[FFrames:=Some []]> (w_dir w1))) f = w_dir w1 f) as Hf'.
    { intros f Hne. unfold insert, fn_insert. by rewrite !decide_False by congruence. }
    constructor; rewrite ?Hf' by done; try done; [by exists (offs ++ os)|]. rewrite bool_decide_false by done. by file_lookup.
Qed.

(** All the rows of a worker. *)
Definition writeRows (all : bool) (rows : list Row) (w : Writer) : Writer := foldl (λ w r, addRow all r w) w rows.
Lemma addResult_error addr v f w : w_writeError w = true → w_writeError (addResult disk addr v f w) = true.
Proof. intros H. unfold addResult. by rewrite H, orb_true_r. Qed.
Lemma addRow_error all r w : w_writeError w = true → w_writeError (addRow all r w) = true.
Proof.
  intros H. unfold addRow. destruct all; [|by apply addResult_error]. unfold addAllTypeResult. rewrite enable_error by done. by rewrite orb_true_r.
Qed.
Lemma writeRows_error all rows w : w_writeError w = true → w_writeError (writeRows all rows w) = true.
Proof. revert w. induction rows as [|r rows IH]; intros w H; [done|]. apply IH. by apply addRow_error. Qed.
Lemma finalize_error w : w_writeError w = true → w_writeError (finalize disk w) = true.
Proof.
  intros H. unfold finalize. destruct (w_finalized w); [done|]. cbv zeta. pose proof (flush_error w H) as Hf.
  destruct (_ && _); [|done]. destruct (disk_open disk FFrames) eqn:E; [|done]. apply put_error. unfold openFile. by rewrite E.
Qed.
Lemma writeRows_writing first all vs done_ rows w : writing first all vs done_ w → Forall (row_ok all vs) rows → 0 < vs →
  w_writeError (writeRows all rows w) = false → writing first all vs (done_ ++ rows) (writeRows all rows w).
Proof.
  intros Hw Hrows Hvs. revert done_ w Hw. induction Hrows as [|r rows Hr _ IH]; intros done_ w Hw He; [by rewrite app_nil_r|].
  cbn [writeRows foldl] in *. assert (w_writeError (addRow all r w) = false) as E by (by apply (no_error (writeRows all rows)); [apply writeRows_error|]).
  replace (done_ ++ r :: rows) with ((done_ ++ [r]) ++ rows) by (by rewrite <- app_assoc). apply IH; [by apply addRow_writing|done].
Qed.

(** A reliable disk never raises the flag. *)
Lemma flush_reliable first all vs rows w : reliable → writing first all vs rows w → w_writeError (flush disk w) = false.
Proof.
  intros Hd [(_ & F2 & _ & F4) (O1 & O2 & O3 & O4) _ _ _ [_ Hl] _ _ _]. unfold flush. destruct (bool_decide _); [done|]. cbn [withBuf w_writeError].
  set (w3 := put disk FFirst _ _). assert (w_writeError w3 = false) as E by (by repeat (apply put_reliable; [done|])).
  assert (∀ f data w, w_hasAllTypes (put disk f data w) = w_hasAllTypes w ∧ w_isOpen (put disk f data w) = w_isOpen w) as Hp.
  { intros f data w'. unfold put, writeAll. destruct (w_isOpen w' f); [|done]. by destruct (disk_write disk (w_writes w')). }
  assert (w_hasAllTypes w3 = all ∧ w_isOpen w3 = w_isOpen w) as [Ea Eo] by (unfold w3; by rewrite !(proj1 (Hp _ _ _)), !(proj2 (Hp _ _ _))).
  unfold putMasks, writeAll. rewrite Ea, Eo. destruct all; [|done]. rewrite O4, Hl, Z.eqb_refl by done. cbn [negb orb]. by rewrite (proj2 Hd).
Qed.
Lemma addRow_reliable first all vs rows r w : reliable → writing first all vs rows w → row_ok all vs r → 0 < vs →
  w_writeError (addRow all r w) = false.
Proof.
  intros Hd Hw Hr Hvs. rewrite (addRow_eq first all vs rows) by done. cbv zeta. pose proof (buffered_writing first all vs rows r w Hw Hr Hvs) as Hb.
  destruct (_ <=? _); [by eapply flush_reliable|apply Hb].
Qed.
Lemma setDataFormat_reliable order width w : reliable → width = 0 ∨ width = 4 ∨ width = 8 → w_writeError w = false → w_writeError (setDataFormat disk order width w) = false.
Proof.
  intros [Ho Hw] Hwidth He. unfold setDataFormat, openFile, writeAll. rewrite Ho. replace (negb _) with false by (destruct Hwidth as [->|[->| ->]]; done). cbn [negb withDisk w_writes]. by rewrite Hw.
Qed.
Lemma create_reliable first : reliable → w_writeError (createResult disk first) = false.
Proof. intros [Ho _]. unfold createResult, openFile. rewrite !Ho. destruct first; cbn [withDisk newWriter w_isOpen]; by file_lookup. Qed.
Lemma enable_reliable first vs w : reliable → writing first false vs [] w → w_writeError (enableAllTypeCandidates disk w) = false.
Proof. intros [Ho _] [(_ & F2 & F3 & F4) _ _ _ _ _ _ _ [HC _]]. unfold enableAllTypeCandidates, openFile. rewrite F2, F3, HC, Ho. done. Qed.
Lemma start_reliable first all order width : reliable → width = 0 ∨ width = 4 ∨ width = 8 →
  w_writeError (startResult first all order width) = false.
Proof.
  intros Hd Hwidth. unfold startResult. cbv zeta. pose proof (create_reliable first Hd) as E. pose proof (setDataFormat_reliable order width _ Hd Hwidth E) as E2.
  destruct all; [|done]. apply (enable_reliable first 1); [done|]. apply format_writing; [by apply create_writing|done].
Qed.
Lemma writeRows_reliable first all vs done_ rows w : reliable → writing first all vs done_ w → Forall (row_ok all vs) rows → 0 < vs →
  w_writeError (writeRows all rows w) = false.
Proof.
  intros Hd Hw Hrows Hvs. revert done_ w Hw. induction Hrows as [|r rows Hr _ IH]; intros done_ w Hw; [apply Hw|].
  apply (IH (done_ ++ [r])). apply addRow_writing; [done..|]. by eapply addRow_reliable.
Qed.
Lemma finalize_reliable first all vs rows w : reliable → writing first all vs rows w → w_writeError (finalize disk w) = false.
Proof.
  intros Hd Hw. pose proof (flush_reliable first all vs rows w Hd Hw) as He. unfold finalize. destruct (w_finalized w); [apply Hw|]. cbv zeta.
  destruct (_ && _); [|done]. rewrite (proj1 Hd). apply put_reliable; [done|]. unfold openFile. by rewrite (proj1 Hd).
Qed.

(** A worker's finished result. *)
Definition workerResult (storeFirst all : bool) (order : ByteOrder) (width : Z) (rows : list Row) : Writer :=
  finalize disk (writeRows all rows (startResult storeFirst all order width)).
Lemma workerResult_stored first all vs order width rows : Forall (row_ok all vs) rows → 0 < vs →
  w_writeError (workerResult first all order width rows) = false →
  stored first all rows (w_dir (workerResult first all order width rows)) (w_frames (workerResult first all order width rows)) ∧
  w_count (workerResult first all order width rows) = len rows ∧
  w_valueSize (workerResult first all order width rows) = (if bool_decide (rows = []) then 0 else vs) ∧
  w_hasAllTypes (workerResult first all order width rows) = all.
Proof.
  intros Hrows Hvs He. unfold workerResult in *. apply finalize_stored; [|done]. apply no_error in He; [|apply finalize_error].
  apply (writeRows_writing first all vs [] rows); [|done..]. apply start_writing. by apply (no_error (writeRows all rows)) in He; [|apply writeRows_error].
Qed.
Lemma workerResult_reliable first all vs order width rows : Forall (row_ok all vs) rows → 0 < vs → reliable → width = 0 ∨ width = 4 ∨ width = 8 →
  w_writeError (workerResult first all order width rows) = false.
Proof.
  intros Hrows Hvs Hd Hwidth. pose proof (start_reliable first all order width Hd Hwidth) as H0. apply (start_writing first all vs) in H0.
  pose proof (writeRows_reliable first all vs [] rows _ Hd H0 Hrows Hvs) as H1. eapply finalize_reliable; [done|]. by apply writeRows_writing.
Qed.

(** *** How many rows are counted *)

Lemma put_count f data w : w_count (put disk f data w) = w_count w.
Proof. unfold put, writeAll. destruct (w_isOpen w f); [|done]. by destruct (disk_write disk (w_writes w)). Qed.
Lemma putMasks_count b w : w_count (putMasks disk b w) = w_count w.
Proof. unfold putMasks, writeAll. destruct (w_hasAllTypes w); [|done]. destruct (_ || _); [done|]. by destruct (disk_write disk (w_writes w)). Qed.
Lemma flush_count w : w_count (flush disk w) = w_count w.
Proof. unfold flush. destruct (bool_decide _); [done|]. cbn [withBuf w_count]. by rewrite putMasks_count, !put_count. Qed.
Lemma finalize_count w : w_count (finalize disk w) = w_count w.
Proof.
  unfold finalize. destruct (w_finalized w); [done|]. cbv zeta. pose proof (flush_count w) as E. destruct (_ && _); [|done]. unfold openFile. destruct (disk_open disk FFrames); [|done]. by rewrite put_count.
Qed.
Lemma addResult_count addr v f w : w_count (addResult disk addr v f w) = w_count w ∨ w_count (addResult disk addr v f w) = w_count w + 1.
Proof.
  unfold addResult. destruct (_ || _); [by left|]. right. destruct (match w_frame w with Some _ => _ | None => _ end) as [[frames base] n]. destruct (_ <=? _); [by rewrite flush_count|done].
Qed.
Lemma enable_count w : w_count (enableAllTypeCandidates disk w) = w_count w.
Proof. unfold enableAllTypeCandidates, openFile. destruct (w_hasAllTypes w); [done|]. destruct (_ || _); [done|]. by destruct (disk_open disk FAllTypes). Qed.
Lemma addRow_count all r w : w_count w ≤ w_count (addRow all r w).
Proof.
  unfold addRow. destruct all; [|destruct (addResult_count (row_addr r) (row_value r) (row_first r) w); lia]. unfold addAllTypeResult. rewrite <- (enable_count w). set (w' := enableAllTypeCandidates disk w). destruct (_ || _); [done|].
  match goal with |- context [addResult disk ?a ?v ?f ?x] => destruct (addResult_count a v f x) as [-> | ->] end; cbn [withBuf w_count]; lia.
Qed.
Lemma writeRows_count all rows w : w_count w ≤ w_count (writeRows all rows w).
Proof. revert w. induction rows as [|r rows IH]; intros w; [done|]. cbn [writeRows foldl]. pose proof (addRow_count all r w). etransitivity; [done|]. apply IH. Qed.
(** When its files open, a result counts the first row it is given. *)
Lemma first_row_counts all vs r : (∀ f, disk_open disk f = true) → row_ok all vs r → 0 < vs → w_count (addRow all r (createResult disk false)) = 1.
Proof.
  intros Ho (_ & R1 & _ & R3) Hvs. assert ((len (row_value r) =? 0) = false) as Hz by (apply Z.eqb_neq; lia). unfold createResult, openFile. rewrite !Ho. cbn [withDisk newWriter w_isOpen w_dir w_writes]. file_lookup. cbn [negb orb andb].
  unfold addRow. destruct all.
  - destruct R3 as [R3 Hmask]. unfold addAllTypeResult, enableAllTypeCandidates, openFile. cbn [withDisk w_hasAllTypes w_finalized w_count]. rewrite Ho, Hmask. cbn [newWriter withDisk w_hasAllTypes w_finalized w_count w_dir w_isOpen w_writes w_writeError negb orb Z.eqb].
    unfold addResult. cbn [withBuf withDisk w_finalized w_writeError w_valueSize w_hasAllTypes w_buf w_frame w_frames w_count w_storeFirst noBuffers offsetBuf valueBuf firstValueBuf allTypeBuf]. rewrite Hz, R1, R3. done.
  - unfold addResult. cbn [newWriter withDisk w_finalized w_writeError w_valueSize w_hasAllTypes w_buf w_frame w_frames w_count w_storeFirst noBuffers offsetBuf valueBuf firstValueBuf allTypeBuf]. rewrite Hz. done.
Qed.
Lemma written_count all vs rows : (∀ f, disk_open disk f = true) → Forall (row_ok all vs) rows → 0 < vs →
  w_count (finalize disk (writeRows all rows (createResult disk false))) = 0 → rows = [].
Proof.
  intros Ho Hrows Hvs. rewrite finalize_count. destruct Hrows as [|r rows Hr _]; [done|]. cbn [writeRows foldl]. pose proof (first_row_counts all vs r Ho Hr Hvs). pose proof (writeRows_count all rows (addRow all r (createResult disk false))) as H1. unfold writeRows in H1. lia.
Qed.
End WriterProofs.

(** ** Reading serves the rows that were written *)

(** A row as it is read back: without a stream of first values the value stands for it. *)
Definition seen (first : bool) (r : Row) : Row := if first then r else mkRow (row_addr r) (row_value r) (row_value r) (row_mask r).
Record shard_ok (all : bool) (vs : Z) (first : bool) (rows : list Row) (s : Shard) : Prop := {
  so_rows : Forall (row_ok all vs) rows;
  so_stored : ∃ frames, stored first all rows (sh_dir s) frames ∧ sh_frames s = started 0 frames;
  so_count : sh_count s = len rows
}.
Inductive holds (all : bool) (vs : Z) : Z → list Shard → list Row → Prop :=
  | holds_nil cum : holds all vs cum [] []
  | holds_cons s cum first rows shards more : shard_ok all vs first rows s → sh_cum s = cum →
      holds all vs (cum + len rows) shards more → holds all vs cum (s :: shards) ((seen first <$> rows) ++ more).
(** A result with these rows in its shards. *)
Record loaded_ok (all : bool) (vs : Z) (rows : list Row) (ld : Loaded) : Prop := {
  lo_shards : holds all vs 0 (ld_shards ld) rows;
  lo_count : ld_count ld = len rows;
  lo_size : ld_valueSize ld = if bool_decide (rows = []) then 0 else vs;
  lo_all : rows ≠ [] → ld_hasAllTypes ld = all;
  lo_error : ld_writeError ld = false
}.

Lemma holds_split all vs cum shards rows i : holds all vs cum shards rows → 0 ≤ cum → (i < length rows)%nat →
  ∃ s first rs j rest, List.find (λ s, (sh_cum s <=? cum + Z.of_nat i) && (cum + Z.of_nat i <? sh_cum s + sh_count s)) shards = Some s ∧
    s ∈ shards ∧ shard_ok all vs first rs s ∧ cum + Z.of_nat i - sh_cum s = Z.of_nat j ∧ (j < length rs)%nat ∧
    drop i rows = (seen first <$> drop j rs) ++ rest.
Proof.
  intros Hh. revert i. induction Hh as [|s cum first rs shards more Hs Hcum Hh IH]; intros i Hc Hi; [by cbn in Hi; lia|].
  pose proof Hs as [_ _ Hcount]. cbn [List.find]. rewrite Hcum, (proj2 (Z.leb_le _ _)), Hcount by lia. cbn [andb].
  pose proof (len_nonneg rs). rewrite length_app, length_fmap in Hi. destruct (Z.ltb_spec (cum + Z.of_nat i) (cum + len rs)) as [Hlt|Hge].
  - assert (i < length rs)%nat by (unfold len in Hlt; lia). exists s, first, rs, i, more. split_and!; try done; [left|lia|].
    rewrite drop_app_le by (rewrite length_fmap; lia). by rewrite fmap_drop.
  - assert (length rs ≤ i)%nat by (unfold len in Hge; lia). rewrite drop_app_ge by (rewrite length_fmap; lia). rewrite length_fmap.
    replace (cum + Z.of_nat i) with (cum + len rs + Z.of_nat (i - length rs)) by (unfold len; lia).
    destruct (IH (i - length rs)%nat ltac:(lia) ltac:(lia)) as (s' & f' & rs' & j & rest & H1 & H2 & H3). exists s', f', rs', j, rest. split; [done|]. split; [by right|done].
Qed.
Lemma holds_find all vs cum shards rows i r : holds all vs cum shards rows → 0 ≤ cum → rows !! i = Some r →
  ∃ s first rs j r0, List.find (λ s, (sh_cum s <=? cum + Z.of_nat i) && (cum + Z.of_nat i <? sh_cum s + sh_count s)) shards = Some s ∧
    shard_ok all vs first rs s ∧ cum + Z.of_nat i - sh_cum s = Z.of_nat j ∧ rs !! j = Some r0 ∧ r = seen first r0.
Proof.
  intros Hh Hc Hr. destruct (holds_split all vs cum shards rows i Hh Hc ltac:(by eapply lookup_lt_Some)) as (s & first & rs & j & rest & H1 & _ & H2 & H3 & H4 & H5).
  destruct (lookup_lt_is_Some_2 rs j H4) as [r0 Hr0]. exists s, first, rs, j, r0. split_and!; try done.
  rewrite (drop_S rows r i Hr), (drop_S rs r0 j Hr0), fmap_cons in H5. by injection H5.
Qed.

Lemma preadFull_records (l : list bytes) k i n : Forall (λ b, len b = k) l → (i + n ≤ length l)%nat → 0 ≤ k →
  preadFull (mjoin l) (Z.of_nat n * k) (Z.of_nat i * k) = Some (mjoin (take n (drop i l))).
Proof.
  intros Hl Hin Hk. unfold preadFull. rewrite (len_mjoin_uniform l k Hl).
  rewrite (proj2 (Z.leb_le 0 _)), (proj2 (Z.leb_le (Z.of_nat i * k + Z.of_nat n * k) _)) by (unfold len; nia). cbn [andb]. by rewrite slice_mjoin.
Qed.
Lemma take_1_drop {A} (l : list A) i x : l !! i = Some x → take 1 (drop i l) = [x].
Proof. intros H. by rewrite (drop_S l x i H). Qed.
Lemma preadFull_record (l : list bytes) k i x : Forall (λ b, len b = k) l → 0 ≤ k → l !! i = Some x →
  preadFull (mjoin l) k (Z.of_nat i * k) = Some x.
Proof.
  intros Hl Hk Hx. pose proof (preadFull_records l k i 1 Hl ltac:(apply lookup_lt_Some in Hx; lia) Hk) as H.
  rewrite (take_1_drop _ _ _ Hx), Z.mul_1_l in H. rewrite H. f_equal. change (mjoin [x]) with (x ++ []). by rewrite app_nil_r.
Qed.
Lemma offsets_uniform offs : Forall (λ b, len b = 4) (le_bytes 4 <$> offs).
Proof. apply Forall_fmap, Forall_true. intros o. exact (len_le_bytes 4 o). Qed.

Section ShardReads.
Context (all : bool) (vs : Z) (first : bool) (rows : list Row) (s : Shard) (Hs : shard_ok all vs first rows s) (Hvs : 0 < vs).

Lemma values_uniform : Forall (λ b, len b = vs) (row_value <$> rows).
Proof using Hs. apply Forall_fmap. eapply Forall_impl; [apply Hs|]. by intros r (_ & H & _). Qed.
Lemma firsts_uniform : Forall (λ b, len b = vs) (row_first <$> rows).
Proof using Hs. apply Forall_fmap. eapply Forall_impl; [apply Hs|]. by intros r (_ & _ & H & _). Qed.
Lemma addrs_u64 : Forall is_u64 (row_addr <$> rows).
Proof using Hs. apply Forall_fmap. eapply Forall_impl; [apply Hs|]. by intros r (H & _). Qed.

(** One address. *)
Lemma shard_address j r : rows !! j = Some r →
  match sh_dir s FOffsets with
  | Some f => match preadFull f 4 (Z.of_nat j * 4) with
              | Some b => reconstruct (sh_frames s) (Z.of_nat j) (le_val b)
              | None => 0 end
  | None => 0
  end = row_addr r.
Proof using Hs.
  intros Hr. destruct Hs as [_ (frames & [(offs & Hf & Hu & ->) _ _ _ _ _] & ->) _]. pose proof addrs_u64 as Ha.
  assert (j < length offs)%nat as Hj by (rewrite (framed_length _ _ _ Hf), length_fmap; by eapply lookup_lt_Some).
  destruct (lookup_lt_is_Some_2 offs j Hj) as [o Ho]. unfold encodeOffsets.
  rewrite (preadFull_record _ 4 j (le_bytes 4 o)) by (apply offsets_uniform || lia || (by rewrite list_lookup_fmap, Ho)).
  rewrite le_val_4 by (by eapply (Forall_lookup_1 _ _ j); [exact Hu|]). rewrite <- (Z.add_0_l (Z.of_nat j)).
  eapply reconstruct_framed; [done..|]. by rewrite list_lookup_fmap, Hr.
Qed.
Lemma shard_value j r : rows !! j = Some r →
  (let? f := sh_dir s FValues in preadFull f vs (Z.of_nat j * vs)) = Some (row_value r).
Proof using Hs Hvs.
  intros Hr. pose proof values_uniform. destruct Hs as [_ (frames & [_ _ -> _ _ _] & _) _]. cbn [mbind option_bind].
  apply preadFull_record; [done|lia|]. by rewrite list_lookup_fmap, Hr.
Qed.
Lemma shard_first j r : rows !! j = Some r →
  match sh_dir s FFirst with
  | Some f => preadFull f vs (Z.of_nat j * vs)
  | None => let? f := sh_dir s FValues in preadFull f vs (Z.of_nat j * vs)
  end = Some (row_first (seen first r)).
Proof using Hs Hvs.
  intros Hr. pose proof firsts_uniform. pose proof (shard_value j r Hr) as Hv. destruct Hs as [_ (frames & [_ _ _ -> _ _] & _) _].
  destruct first; [|done]. apply preadFull_record; [done|lia|]. by rewrite list_lookup_fmap, Hr.
Qed.
Lemma shard_masks : all = true → openAllTypeCandidates (sh_dir s) (sh_count s) true = inr (row_mask <$> rows) ∧
  openAllTypeCandidates (sh_dir s) (sh_count s) false = inr (row_mask <$> rows).
Proof using Hs.
  intros Ha. destruct Hs as [Hrows (frames & [_ _ _ _ Hm _] & _) ->]. unfold openAllTypeCandidates. rewrite Hm, Ha.
  assert (len (row_mask <$> rows) = len rows) as -> by (unfold len; by rewrite length_fmap). rewrite Z.eqb_refl. cbn [negb andb]. split; [|done].
  assert (existsb (λ mask, negb (validMask mask)) (row_mask <$> rows) = false) as ->; [|done].
  clear -Hrows Ha. induction Hrows as [|r rows' (_ & _ & _ & Hr) _ IH]; [done|]. rewrite fmap_cons. cbn [existsb]. rewrite Ha in Hr.
  destruct Hr as [_ ->]. cbn. exact IH.
Qed.
End ShardReads.

Lemma loaded_nonempty all vs rows ld (i : nat) r : loaded_ok all vs rows ld → rows !! i = Some r → ld_valueSize ld = vs ∧ ld_hasAllTypes ld = all.
Proof. intros [_ _ Hsz Ha _] Hr. rewrite bool_decide_false in Hsz by (by destruct rows). split; [done|]. apply Ha. by destruct rows. Qed.
Lemma loaded_row all vs rows ld i r : loaded_ok all vs rows ld → 0 < vs → rows !! i = Some r →
  address ld (Z.of_nat i) = row_addr r ∧ value ld (Z.of_nat i) vs = row_value r ∧
  firstValue ld (Z.of_nat i) vs = row_first r ∧ (all = true → allTypeCandidates ld (Z.of_nat i) = row_mask r).
Proof.
  intros Hld Hvs Hr. destruct (loaded_nonempty all vs rows ld i r Hld Hr) as [Esz Eall]. destruct Hld as [Hh _ _ _ Herr].
  destruct (holds_find all vs 0 _ rows i r Hh ltac:(lia) Hr) as (s & first & rs & j & r0 & Hfind & Hs & Hj & Hr0 & ->). rewrite Z.add_0_l in Hfind, Hj.
  pose proof (shard_value all vs first rs s Hs Hvs j r0 Hr0) as Hv. pose proof (shard_first all vs first rs s Hs Hvs j r0 Hr0) as Hf.
  assert (∀ f, match f with Some f => preadFull f vs (Z.of_nat j * vs) | None => None end = Some (row_value r0) →
    readRecord ld f s (Z.of_nat i) vs = row_value r0) as Hrec.
  { intros f Hx. unfold readRecord. rewrite Esz, Hj. destruct f; [|done]. by rewrite Hx. }
  assert (value ld (Z.of_nat i) vs = row_value r0) as Hval.
  { unfold value. rewrite Herr, Esz, Z.ltb_irrefl, (proj2 (Z.eqb_neq vs 0)) by lia. cbn [orb]. unfold shardAt. rewrite Hfind.
    apply Hrec. by destruct (sh_dir s FValues). }
  split_and!.
  - unfold address, shardAt. rewrite Hfind. cbv zeta. rewrite Hj. rewrite (shard_address all vs first rs s Hs j r0 Hr0). by destruct first.
  - rewrite Hval. by destruct first.
  - unfold firstValue. rewrite Herr, Esz, Z.ltb_irrefl, (proj2 (Z.eqb_neq vs 0)) by lia. cbn [orb]. unfold shardAt. rewrite Hfind.
    destruct (sh_dir s FFirst) as [f|] eqn:Ef; [unfold readRecord; by rewrite Esz, Hj, Hf|]. rewrite Hval.
    rewrite Hv in Hf. by injection Hf.
  - intros Ha. unfold allTypeCandidates, shardAt. rewrite Hfind, Eall, Ha. cbn [negb]. rewrite (proj2 (shard_masks all vs first rs s Hs Ha)), Hj.
    unfold preadFull. assert (len (row_mask <$> rs) = len rs) as -> by (unfold len; by rewrite length_fmap).
    pose proof (lookup_lt_Some _ _ _ Hr0). rewrite (proj2 (Z.leb_le (Z.of_nat j + 1) (len rs))) by (unfold len; lia). cbn [Z.leb Z.compare andb].
    assert (slice (row_mask <$> rs) (Z.of_nat j) 1 = [row_mask r0]) as ->.
    { unfold slice. rewrite Nat2Z.id. change (Z.to_nat 1) with 1%nat. rewrite (take_1_drop _ _ (row_mask r0)); [done|]. by rewrite list_lookup_fmap, Hr0. }
    pose proof (so_rows _ _ _ _ _ Hs) as Hrows. rewrite Forall_lookup in Hrows. destruct (Hrows j r0 Hr0) as (_ & _ & _ & Hm). rewrite Ha in Hm.
    destruct Hm as [_ ->]. by destruct first.
Qed.

Lemma seen_nil first rs : seen first <$> rs = [] ↔ rs = [].
Proof. by destruct rs. Qed.
Lemma strideOf_shard all vs first rs s : shard_ok all vs first rs s → 0 < vs →
  strideOf (sh_dir s) (sh_count s) = if bool_decide (rs = []) then 0 else vs.
Proof.
  intros Hs Hvs. pose proof (values_uniform all vs first rs s Hs) as Hu. destruct Hs as [_ (frames & [_ _ Hv _ _ _] & _) ->].
  unfold strideOf. rewrite Hv, (len_mjoin_uniform _ vs Hu). assert (len (row_value <$> rs) = len rs) as -> by (unfold len; by rewrite length_fmap).
  case_bool_decide as Hn; [by subst|]. pose proof (len_pos rs Hn). rewrite (proj2 (Z.eqb_neq (len rs) 0)) by lia.
  rewrite (proj2 (Z.eqb_neq (len rs * vs) 0)) by nia. rewrite (Z.mul_comm (len rs)), Z.mod_mul, Z.div_mul by lia. done.
Qed.
Lemma strideLoop_holds all vs cum shards rows stride : holds all vs cum shards rows → 0 < vs → stride = 0 ∨ stride = vs →
  strideLoop shards stride = if bool_decide (rows = []) then stride else vs.
Proof.
  intros Hh Hvs. revert stride. induction Hh as [|s cum first rs shards more Hs Hcum Hh IH]; intros stride Hst; [done|].
  cbn [strideLoop]. pose proof (strideOf_shard all vs first rs s Hs Hvs) as Hstride. pose proof (so_count _ _ _ _ _ Hs) as Hc.
  destruct (decide (rs = [])) as [->|Hn].
  - rewrite Hc. cbn [len length Z.of_nat Z.eqb]. by rewrite IH.
  - rewrite Hstride, Hc. rewrite (bool_decide_false (rs = [])) by done. pose proof (len_pos rs Hn). rewrite !(proj2 (Z.eqb_neq _ 0)) by lia. cbn [orb].
    rewrite (bool_decide_false ((seen first <$> rs) ++ more = [])) by (by intros [E%seen_nil _]%app_nil). destruct Hst as [->| ->].
    + cbn [negb Z.eqb andb]. rewrite IH by auto. by destruct (bool_decide _).
    + rewrite Z.eqb_refl, andb_false_r. rewrite IH by auto. by destruct (bool_decide _).
Qed.

(** The batches of a shard are its rows. *)
Lemma batchRows_eq all vs first rs s ld local n : shard_ok all vs first rs s → 0 < vs → ld_valueSize ld = vs → (local + n ≤ length rs)%nat →
  ∃ offs vals, (∀ fo fv, sh_dir s FOffsets = Some fo → sh_dir s FValues = Some fv →
      preadFull fo (Z.of_nat n * 4) (Z.of_nat local * 4) = Some offs ∧ preadFull fv (Z.of_nat n * vs) (Z.of_nat local * vs) = Some vals) ∧
    batchRows ld s (Z.of_nat local) (Z.of_nat n) offs vals = (λ r, (row_addr r, row_value r)) <$> take n (drop local rs).
Proof.
  intros Hs Hvs Esz Hin. pose proof (values_uniform all vs first rs s Hs) as Hu. pose proof (addrs_u64 all vs first rs s Hs) as Ha.
  destruct Hs as [_ (frames & [(offs & Hf & Hu32 & Ho) _ Hv _ _ _] & Hfr) _].
  pose proof (framed_length _ _ _ Hf) as Hlen. rewrite length_fmap in Hlen.
  exists (mjoin (take n (drop local (le_bytes 4 <$> offs)))), (mjoin (take n (drop local (row_value <$> rs)))). split.
  - intros fo fv Hfo Hfv. rewrite Ho in Hfo. rewrite Hv in Hfv. injection Hfo as <-. injection Hfv as <-.
    split; apply preadFull_records; rewrite ?length_fmap; (done || lia || apply offsets_uniform).
  - unfold batchRows. apply list_eq. intros k. rewrite !list_lookup_fmap. destruct (Nat.lt_ge_cases k n) as [Hk|Hk].
    2:{ rewrite (lookup_seqZ_ge 0) by lia. rewrite lookup_take_ge by lia. done. }
    rewrite lookup_seqZ_lt by lia. rewrite lookup_take_lt, lookup_drop by lia. cbn [fmap option_fmap option_map]. rewrite Z.add_0_l.
    destruct (rs !! (local + k)%nat) as [r|] eqn:Er; [|apply lookup_ge_None in Er; lia]. cbn [fmap option_fmap option_map]. do 2 f_equal.
    + assert (∃ o, offs !! (local + k)%nat = Some o) as [o Eo] by (apply lookup_lt_is_Some_2; lia).
      replace 4 with (1 * 4) at 2 by lia. rewrite (slice_mjoin _ 4 k 1); [|apply Forall_take, Forall_drop, offsets_uniform|rewrite length_take, length_drop, length_fmap; lia|lia].
      rewrite (take_1_drop _ _ (le_bytes 4 o)) by (rewrite lookup_take_lt, lookup_drop, list_lookup_fmap, Eo by lia; done).
      change (mjoin [le_bytes 4 o]) with (le_bytes 4 o ++ []). rewrite app_nil_r, le_val_4 by (by eapply (Forall_lookup_1 _ _ (local + k)); [exact Hu32|]).
      rewrite Hfr, <- Nat2Z.inj_add, <- (Z.add_0_l (Z.of_nat (local + k))). eapply reconstruct_framed; [done..|]. by rewrite list_lookup_fmap, Er.
    + rewrite Esz. rewrite <- (Z.mul_1_l vs) at 2. rewrite (slice_mjoin _ vs k 1); [|by apply Forall_take, Forall_drop|rewrite length_take, length_drop, length_fmap; lia|lia].
      rewrite (take_1_drop _ _ (row_value r)) by (rewrite lookup_take_lt, lookup_drop, list_lookup_fmap, Er by lia; done).
      change (mjoin [row_value r]) with (row_value r ++ []). by rewrite app_nil_r.
Qed.
Lemma shardRows_eq all vs first rs s ld : shard_ok all vs first rs s → 0 < vs → (rs ≠ [] → ld_valueSize ld = vs) →
  shardRows ld s = (λ r, (row_addr r, row_value r)) <$> rs.
Proof.
  intros Hs Hvs Hsz. pose proof Hs as [_ (frames & [(offs & _ & _ & Ho) _ Hv _ _ _] & _) Hc]. unfold shardRows. rewrite Hc, Ho, Hv.
  destruct (decide (rs = [])) as [->|Hn]; [done|]. specialize (Hsz Hn). rewrite (proj2 (Z.eqb_neq _ 0)) by (pose proof (len_pos rs Hn); lia).
  assert (∀ fuel local, (length rs - local ≤ fuel)%nat → (local ≤ length rs)%nat →
    shardBatches ld fuel s (encodeOffsets offs) (mjoin (row_value <$> rs)) (Z.of_nat local) = (λ r, (row_addr r, row_value r)) <$> drop local rs) as Hloop.
  { induction fuel as [|fuel IH]; intros local Hfuel Hle; [by rewrite drop_ge by lia|]. cbn [shardBatches]. rewrite Hc.
    destruct (Z.leb_spec (len rs) (Z.of_nat local)); [rewrite drop_ge by (unfold len in *; lia); done|].
    set (n := Nat.min (length rs - local) 4096). replace (Z.min (len rs - Z.of_nat local) 4096) with (Z.of_nat n) by (unfold n, len; lia).
    destruct (batchRows_eq all vs first rs s ld local n Hs Hvs Hsz ltac:(lia)) as (ob & vb & Hread & Hb).
    rewrite Hsz. destruct (Hread _ _ Ho Hv) as [-> ->]. rewrite Hb, <- Nat2Z.inj_add, IH by (unfold n, len in *; lia).
    rewrite <- fmap_app. f_equal. rewrite <- drop_drop. apply take_drop. }
  unfold len. rewrite Nat2Z.id. apply (Hloop (length rs) O); lia.
Qed.

Lemma seen_fields first r : row_addr (seen first r) = row_addr r ∧ row_value (seen first r) = row_value r ∧ row_mask (seen first r) = row_mask r.
Proof. by destruct first. Qed.
Lemma holds_rows all vs cum shards rows ld : holds all vs cum shards rows → 0 < vs → (rows ≠ [] → ld_valueSize ld = vs) →
  mjoin (shardRows ld <$> shards) = (λ r, (row_addr r, row_value r)) <$> rows.
Proof.
  intros Hh Hvs. induction Hh as [|s cum first rs shards more Hs Hcum Hh IH]; intros Hsz; [done|].
  rewrite mjoin_fmap_cons, fmap_app. f_equal.
  - rewrite (shardRows_eq all vs first rs s ld Hs Hvs); [|intros Hn; apply Hsz; by intros [E%seen_nil _]%app_nil].
    rewrite <- list_fmap_compose. apply list_fmap_ext. intros _ r _. by destruct first.
  - apply IH. intros Hn. apply Hsz. by intros [_ E]%app_nil.
Qed.
Lemma holds_row_ok all vs cum shards rows : holds all vs cum shards rows → Forall (row_ok all vs) rows.
Proof.
  induction 1 as [|s cum first rs shards more Hs Hcum Hh IH]; [apply Forall_nil_2|]. apply Forall_app_2; [|done]. apply Forall_fmap.
  eapply Forall_impl; [apply Hs|]. intros r (H1 & H2 & H3 & H4). unfold compose, row_ok. by destruct first.
Qed.
Lemma forEach_rows all vs rows ld : loaded_ok all vs rows ld → 0 < vs ≤ SIZE_MAX / 4096 →
  forEachResult ld vs = (λ r, (row_addr r, row_value r)) <$> rows.
Proof.
  intros [Hh _ Hsz _ Herr] Hvs. unfold forEachResult. rewrite Herr, Hsz, (proj2 (Z.eqb_neq vs 0)) by lia. cbn [orb].
  case_bool_decide as Hn; [subst rows; by rewrite (proj2 (Z.ltb_lt 0 vs)) by lia|].
  rewrite Z.ltb_irrefl, (proj2 (Z.ltb_ge _ _)) by lia. cbn [orb]. rewrite (holds_rows all vs 0 _ rows ld) by (done || lia).
  rewrite <- list_fmap_compose. apply list_fmap_ext. intros i r Hr. cbn. f_equal. apply holds_row_ok in Hh. rewrite Forall_lookup in Hh.
  destruct (Hh i r Hr) as (_ & Hl & _). rewrite <- Hl. apply slice_all.
Qed.

(** ** The reader of a next scan *)

Lemma framed_table fs offs addrs : framed fs offs addrs → Forall (λ f : Z * Z, is_u64 f.1 ∧ 0 < f.2 ≤ len offs) fs.
Proof.
  induction 1 as [|b os fs offs addrs Hb Hne Hf IH]; [apply Forall_nil_2|]. pose proof (len_pos os Hne). pose proof (len_nonneg offs).
  apply Forall_cons_2; [cbn [fst snd]; rewrite len_app; split; [done|lia]|]. eapply Forall_impl; [exact IH|]. intros f [? ?]. rewrite len_app. split; [done|lia].
Qed.
Lemma framed_nil_iff fs offs addrs : framed fs offs addrs → fs = [] ↔ addrs = [].
Proof. destruct 1 as [|b os fs offs addrs Hb Hne Hf]; [done|]. split; [done|]. by destruct os. Qed.
Lemma framesEnd_started fs offs addrs start : framed fs offs addrs → fs ≠ [] → 0 ≤ start → framesEndAt (started start fs) (start + len offs) = true.
Proof.
  intros Hf. revert start. induction Hf as [|b os fs offs addrs Hb Hne Hf IH]; intros start Hfs Hs; [done|]. pose proof (len_nonneg os).
  destruct (decide (fs = [])) as [->|Hn].
  - inversion Hf; subst. unfold framesEndAt. cbn. rewrite app_nil_r, (proj2 (Z.ltb_ge _ _)) by lia. cbn. rewrite (proj2 (Z.eqb_eq _ _)) by lia. done.
  - specialize (IH (start + len os) Hn ltac:(lia)). rewrite len_app, Z.add_assoc. rewrite <- IH. unfold framesEndAt. cbn [started].
    destruct fs as [|[b' n'] fs]; [done|]. done.
Qed.
Lemma stored_loadFrames first all rows d frames : stored first all rows d frames → len rows ≤ SIZE_MAX →
  loadFrames d = started 0 frames ∧ (rows ≠ [] → framesEndAt (loadFrames d) (len rows) = true).
Proof.
  intros [(offs & Hf & _ & _) Ht _ _ _ _] Hlen. pose proof (framed_length _ _ _ Hf) as Hl. rewrite length_fmap in Hl.
  assert (len offs = len rows) as El by (unfold len; by rewrite Hl). destruct (decide (frames = [])) as [->|Hn].
  - rewrite bool_decide_true in Ht by done. unfold loadFrames. rewrite Ht. split; [done|]. intros Hr. apply framed_nil_iff in Hf as [Hf _].
    specialize (Hf eq_refl). by destruct rows.
  - rewrite bool_decide_false in Ht by done. pose proof (framed_table _ _ _ Hf) as Htab.
    erewrite loadFrames_encode; [|done..| | |done]; [|eapply Forall_impl; [exact Htab|]; intros f [? ?]; split; [done|lia_w]|lia].
    split; [done|]. intros _. rewrite <- El. rewrite <- (Z.add_0_l (len offs)). by eapply framesEnd_started.
Qed.

(** The shard as the reader opens it. *)
Definition toReader (all : bool) (s : Shard) : ReaderShard :=
  mkReaderShard (sh_dir s FOffsets) (sh_dir s FValues) (sh_dir s FFirst)
    (if all then sh_dir s FAllTypes else None) (sh_count s) (sh_cum s) (sh_frames s).
Lemma openShards_holds all vs cum shards rows : holds all vs cum shards rows → 0 ≤ cum → cum + len rows ≤ SIZE_MAX →
  openShards ((λ s, (sh_dir s, sh_count s)) <$> shards) all cum = (toReader all <$> shards, true).
Proof.
  induction 1 as [|s cum first rs shards more Hs Hcum Hh IH]; intros Hc Hle; [done|].
  rewrite len_app in Hle. assert (len (seen first <$> rs) = len rs) as El by (unfold len; by rewrite length_fmap). rewrite El in Hle.
  pose proof (len_nonneg rs). pose proof (len_nonneg more). rewrite fmap_cons. cbn [openShards fst snd]. pose proof Hs as [_ (frames & Hst & Hfr) Hcount]. replace (cum + sh_count s) with (cum + len rs) by lia.
  rewrite IH by lia. destruct (stored_loadFrames first all rs _ frames Hst ltac:(lia)) as [Hlf Hend]. rewrite fmap_cons.
  assert (((sh_count s =? 0) || framesEndAt (loadFrames (sh_dir s)) (sh_count s)) = true) as ->.
  { rewrite Hcount. destruct (decide (rs = [])) as [->|Hn]; [done|]. rewrite Hend by done. apply orb_true_r. }
  pose proof (shard_masks all vs first rs s Hs) as Hm. pose proof Hst as [(offs & _ & _ & Ho) _ Hv Hf Hma _]. rewrite Ho, Hv. unfold toReader.
  rewrite Ho, Hv, Hcum, Hfr, <- Hlf. cbn [andb]. destruct all.
  - destruct (Hm eq_refl) as [_ ->]. by rewrite Hma.
  - done.
Qed.

Lemma chunks_mjoin (l : list bytes) k : Forall (λ b, len b = k) l → 0 ≤ k → chunks (len l) k (mjoin l) = l.
Proof.
  intros Hl Hk. unfold chunks. apply list_eq. intros i. rewrite list_lookup_fmap. destruct (l !! i) as [x|] eqn:E.
  - pose proof (lookup_lt_Some _ _ _ E). rewrite lookup_seqZ_lt by (unfold len; lia). cbn [fmap option_fmap option_map]. f_equal. rewrite Z.add_0_l.
    pose proof (slice_mjoin l k i 1 Hl ltac:(lia) Hk) as Hs. rewrite Z.mul_1_l in Hs. rewrite Hs, (take_1_drop _ _ _ E). change (mjoin [x]) with (x ++ []). by rewrite app_nil_r.
  - apply lookup_ge_None in E. by rewrite (lookup_seqZ_ge 0) by (unfold len; lia).
Qed.
Lemma le_val_chunks offs : Forall is_u32 offs → le_val <$> (le_bytes 4 <$> offs) = offs.
Proof. induction 1 as [|o offs Ho _ IH]; [done|]. rewrite !fmap_cons, IH, le_val_4 by done. done. Qed.
Lemma zip_rows (all : bool) first rs : (∀ r, r ∈ rs → row_mask r = if all then row_mask r else 0) →
  zip_with (λ (r : Z * bytes) (fm : bytes * Z), mkRow r.1 r.2 fm.1 fm.2)
    (zip (row_addr <$> rs) (row_value <$> rs))
    (zip (row_first <$> (seen first <$> rs)) (if all then row_mask <$> rs else replicate (length rs) 0)) = seen first <$> rs.
Proof.
  intros Hm. induction rs as [|r rs IH]; [by destruct all|]. specialize (IH (λ r' H, Hm r' (list_elem_of_further _ _ _ H))).
  pose proof (Hm r (list_elem_of_here _ _)) as Hr. destruct all; cbn [fmap list_fmap length replicate zip zip_with] in *; f_equal; try done; by destruct first, r; cbn in *; subst.
Qed.
Lemma fmap_take_drop {A B} (f : A → B) n i (l : list A) : take n (drop i (f <$> l)) = f <$> take n (drop i l).
Proof. by rewrite <- fmap_drop, <- fmap_take. Qed.
Lemma readStretch_rows all vs first rs s local n : shard_ok all vs first rs s → 0 < vs → (local + n ≤ length rs)%nat →
  readStretch (toReader all s) (Z.of_nat local) (Z.of_nat n) vs all = Some (seen first <$> take n (drop local rs)).
Proof.
  intros Hs Hvs Hin. pose proof (values_uniform all vs first rs s Hs) as Hu. pose proof (firsts_uniform all vs first rs s Hs) as Hfu. pose proof (addrs_u64 all vs first rs s Hs) as Ha.
  pose proof (shard_masks all vs first rs s Hs) as Hmasks.
  destruct Hs as [Hrows (frames & [(offs & Hf & Hu32 & Ho) _ Hv Hfi Hma _] & Hfr) _].
  pose proof (framed_length _ _ _ Hf) as Hlen. rewrite length_fmap in Hlen.
  unfold readStretch, toReader. cbn [rs_offsets rs_values rs_first rs_candidates rs_frames]. rewrite Ho, Hv, Hfr. cbn [mbind option_bind].
  unfold encodeOffsets. rewrite (preadFull_records (le_bytes 4 <$> offs) 4 local n) by (apply offsets_uniform || rewrite ?length_fmap; lia). cbn [mbind option_bind].
  assert (chunks (Z.of_nat n) 4 (mjoin (take n (drop local (le_bytes 4 <$> offs)))) = take n (drop local (le_bytes 4 <$> offs))) as ->.
  { rewrite <- (chunks_mjoin (take n (drop local (le_bytes 4 <$> offs))) 4) at 2 by (apply Forall_take, Forall_drop, offsets_uniform || lia).
    f_equal. unfold len. rewrite length_take, length_drop, length_fmap. lia. }
  rewrite fmap_take_drop, le_val_chunks by (by apply Forall_take, Forall_drop).
  rewrite <- (Z.add_0_l (Z.of_nat local)). rewrite (decode_framed frames offs (row_addr <$> rs) 0 n local Hf Ha) by lia. rewrite Z.add_0_l. cbn [mbind option_bind].
  rewrite (preadFull_records (row_value <$> rs) vs local n) by (done || rewrite ?length_fmap; lia). cbn [mbind option_bind].
  assert (∀ g : Row → bytes, Forall (λ b, len b = vs) (g <$> rs) → chunks (Z.of_nat n) vs (mjoin (take n (drop local (g <$> rs)))) = g <$> take n (drop local rs)) as Hchunks.
  { intros g Hg. rewrite fmap_take_drop. rewrite <- (chunks_mjoin (g <$> take n (drop local rs)) vs) at 2; [|rewrite <- fmap_take_drop; by apply Forall_take, Forall_drop|lia].
    f_equal. unfold len. rewrite length_fmap, length_take, length_drop. lia. }
  assert ((match sh_dir s FFirst with Some ff => preadFull ff (Z.of_nat n * vs) (Z.of_nat local * vs) | None => Some (mjoin (take n (drop local (row_value <$> rs)))) end)
    = Some (mjoin (take n (drop local ((row_first ∘ seen first) <$> rs))))) as ->.
  { rewrite Hfi. destruct first; [|done]. rewrite (preadFull_records (row_first <$> rs) vs local n) by (done || rewrite ?length_fmap; lia). done. }
  cbn [mbind option_bind]. rewrite Hchunks by done. rewrite Hchunks by (by destruct first).
  assert ((if all then let? fc := if all then sh_dir s FAllTypes else None in let? mb := preadFull fc (Z.of_nat n) (Z.of_nat local) in
      if existsb (λ mask, negb (validMask mask)) mb then None else Some mb else Some (replicate (Z.to_nat (Z.of_nat n)) 0)) =
    Some (if all then row_mask <$> take n (drop local rs) else replicate (length (take n (drop local rs))) 0)) as ->.
  { destruct all; [|by rewrite Nat2Z.id, length_take, length_drop; do 2 f_equal; lia]. rewrite Hma. cbn [mbind option_bind]. unfold preadFull.
    assert (len (row_mask <$> rs) = len rs) as -> by (unfold len; by rewrite length_fmap).
    rewrite (proj2 (Z.leb_le 0 _)), (proj2 (Z.leb_le (Z.of_nat local + Z.of_nat n) _)) by (unfold len; lia). cbn [andb mbind option_bind].
    unfold slice. rewrite !Nat2Z.id, fmap_take_drop.
    assert (existsb (λ mask, negb (validMask mask)) (row_mask <$> take n (drop local rs)) = false) as ->; [|done].
    apply (Forall_drop _ local) in Hrows. apply (Forall_take _ n) in Hrows. clear -Hrows. induction Hrows as [|r l (_ & _ & _ & [_ Hr]) _ IH]; [done|].
    rewrite fmap_cons. cbn [existsb]. rewrite Hr. cbn. exact IH. }
  cbn [mbind option_bind]. f_equal. rewrite (list_fmap_compose (seen first) row_first), (fmap_take_drop row_addr). apply zip_rows.
  intros r Hr. destruct all; [done|]. assert (Forall (row_ok false vs) (take n (drop local rs))) as H by (by apply Forall_take, Forall_drop).
  rewrite Forall_forall in H. by destruct (H r Hr) as (_ & _ & _ & ->).
Qed.

Lemma find_fmap {A B} (f : A → B) (P : B → bool) l : List.find P (f <$> l) = f <$> List.find (P ∘ f) l.
Proof. induction l as [|x l IH]; [done|]. rewrite fmap_cons. cbn [List.find compose]. unfold compose. by destruct (P (f x)). Qed.
(** Any range is served, across shards. *)
Lemma reader_rows all vs rows ld b n : loaded_ok all vs rows ld → 0 < vs → len rows ≤ SIZE_MAX → (b + n ≤ length rows)%nat →
  rd_ok (openReader (shardLayout ld) all) = true ∧
  readerRead (openReader (shardLayout ld) all) (Z.of_nat b) (Z.of_nat n) vs all = Some (take n (drop b rows)).
Proof.
  intros [Hh _ _ _ _] Hvs Hlen Hin. unfold openReader, shardLayout, readerRead. rewrite (openShards_holds all vs 0 _ rows Hh) by lia. split; [done|].
  rewrite Nat2Z.id. cbn [rd_shards]. assert (∀ fuel b n, (n ≤ fuel)%nat → (b + n ≤ length rows)%nat →
    readRows fuel (mkReader (toReader all <$> ld_shards ld) true) (Z.of_nat b) (Z.of_nat n) vs all = Some (take n (drop b rows))) as Hloop; [|by apply Hloop].
  clear b n Hin. induction fuel as [|fuel IH]; intros b n Hfuel Hin.
  { replace n with O by lia. by rewrite take_0. }
  destruct n as [|n]; [by rewrite take_0|]. cbn [readRows]. rewrite (proj2 (Z.leb_gt (Z.of_nat (S n)) 0)) by lia. cbn [rd_shards].
  rewrite find_fmap. unfold compose. cbn [toReader rs_cum rs_count].
  destruct (holds_split all vs 0 _ rows b Hh ltac:(lia) ltac:(lia)) as (s & first & rs & j & rest & Hfind & _ & Hs & Hj & Hjlt & Hdrop).
  rewrite Z.add_0_l in Hfind, Hj. setoid_rewrite Hfind. cbn [fmap option_fmap option_map mbind option_bind].
  change (rs_cum (toReader all s)) with (sh_cum s). change (rs_count (toReader all s)) with (sh_count s). rewrite Hj.
  pose proof (so_count _ _ _ _ _ Hs) as Hc. set (t := Nat.min (length rs - j) (S n)).
  replace (Z.min (sh_count s - Z.of_nat j) (Z.of_nat (S n))) with (Z.of_nat t) by (rewrite Hc; unfold t, len; lia).
  rewrite (readStretch_rows all vs first rs s j t Hs Hvs) by lia. cbn [mbind option_bind].
  rewrite <- Nat2Z.inj_add. replace (Z.of_nat (S n) - Z.of_nat t) with (Z.of_nat (S n - t)) by lia. rewrite (IH (b + t)%nat (S n - t)%nat) by lia. cbn [mbind option_bind].
  f_equal. rewrite <- (drop_drop rows t b), Hdrop. assert (length (seen first <$> drop j rs) = (length rs - j)%nat) as Hl by (by rewrite length_fmap, length_drop).
  rewrite drop_app, Hl. destruct (Nat.le_gt_cases (S n) (length rs - j)) as [Hle|Hgt].
  - assert (t = S n) as -> by lia. rewrite Nat.sub_diag, take_0, app_nil_r, take_app_le by lia. by rewrite fmap_take.
  - assert (t = (length rs - j)%nat) as -> by lia. rewrite Nat.sub_diag, drop_0, (drop_ge (seen first <$> drop j rs)) by lia. cbn [app].
    rewrite (take_app_ge (seen first <$> drop j rs)) by lia. rewrite Hl. f_equal. rewrite take_ge; [done|]. rewrite length_drop. lia.
Qed.

(** ** Loading the directories *)

Lemma splitFirst_app c a b : Forall (λ d, d ≠ c) a → splitFirst c (a ++ c :: b) = Some (a, b).
Proof.
  induction 1 as [|d a Hd _ IH]; cbn [app splitFirst]; [by rewrite Z.eqb_refl|].
  rewrite (proj2 (Z.eqb_neq _ _)) by done. by rewrite IH.
Qed.
Lemma splitOn_app c a b : Forall (λ d, d ≠ c) a → splitOn c (a ++ c :: b) = a :: splitOn c b.
Proof.
  induction 1 as [|d a Hd _ IH]; cbn [app splitOn]; [by rewrite Z.eqb_refl|].
  rewrite (proj2 (Z.eqb_neq _ _)) by done. by rewrite IH.
Qed.
Lemma to_string_digits n c : 0 ≤ n → c < 48 → Forall (λ d, d ≠ c) (to_string n).
Proof.
  intros Hn Hc. unfold to_string. rewrite (proj2 (Z.ltb_ge n 0)) by done.
  eapply Forall_impl; [by apply (to_digits_valid 10); lia|]. intros d (k & Hk & ->). pose proof (digit_char_range10 k). lia.
Qed.
Lemma manifestLine_eq n path : is_u64 n → path ≠ [] → manifestLine (to_string n ++ 32 :: path) = Some (n, path).
Proof.
  intros Hn Hp. unfold manifestLine. rewrite splitFirst_app by (apply to_string_digits; lia_w). cbn [mbind option_bind].
  rewrite bool_decide_false by done. unfold to_string. rewrite (proj2 (Z.ltb_ge n 0)) by lia_w.
  pose proof (from_chars_to_digits 64 10 n [] ltac:(lia) ltac:(lia_w) I) as E. rewrite app_nil_r in E. by rewrite E.
Qed.

(** A stored directory is accepted behind the shards read before it. *)
Definition fits (all : bool) (vs : Z) (rows : list Row) (st : Loading) : Prop :=
  loaded_ok all vs rows (lg_loaded st) ∧ (lg_candidateFormat st = None ∨ lg_candidateFormat st = Some all).
Lemma holds_snoc all vs cum shards rows s first rs : holds all vs cum shards rows → shard_ok all vs first rs s → sh_cum s = cum + len rows →
  holds all vs cum (shards ++ [s]) (rows ++ (seen first <$> rs)).
Proof.
  intros H Hs. induction H as [cum|s' cum first' rs' shards more Hs' Hc H IH]; intros Hcum; cbn [app].
  - rewrite <- (app_nil_r (seen first <$> rs)). econstructor; [done| |constructor]. by rewrite len_nil, Z.add_0_r in Hcum.
  - rewrite <- app_assoc. econstructor; [done..|]. apply IH. rewrite len_app in Hcum. unfold len in *. rewrite length_fmap in Hcum. lia.
Qed.

Lemma addShard_stored all vs rows st first rs d frames expected : fits all vs rows st → 0 < vs → stored first all rs d frames → Forall (row_ok all vs) rs →
  len rows + len rs ≤ SIZE_MAX → expected = None ∨ expected = Some (len rs) →
  ∃ st', addShard st d expected = Some st' ∧ fits all vs (rows ++ (seen first <$> rs)) st'.
Proof.
  intros [Hld Hfmt] Hvs Hst Hrs Hlen Hexp. set (s := mkShard d (len rs) (len rows) (started 0 frames)).
  pose proof (len_nonneg rows). pose proof (len_nonneg rs). assert (shard_ok all vs first rs s) as Hs by (split; [done|by exists frames|done]).
  destruct (stored_loadFrames _ _ _ _ _ Hst ltac:(lia)) as [Hfr Hend]. pose proof (shard_masks all vs first rs s Hs) as Hmask.
  destruct Hld as [Hh Hc Hsz Ha He]. destruct Hst as [(offs & Hf & Hu32 & Ho) _ Hv Hfi Hma _].
  pose proof (framed_length _ _ _ Hf) as Hl. rewrite length_fmap in Hl.
  unfold addShard. rewrite Ho. cbn [mbind option_bind].
  assert (len (encodeOffsets offs) = len rs * 4) as -> by (unfold encodeOffsets; rewrite (len_mjoin_uniform _ 4) by (apply offsets_uniform); unfold len; rewrite length_fmap; lia).
  rewrite Z.mod_mul, Z.div_mul, Z.eqb_refl by lia. cbn [negb]. rewrite Hc.
  assert (match expected with Some e => negb (e =? len rs) | None => false end = false) as -> by (destruct Hexp as [->| ->]; [done|by rewrite Z.eqb_refl]).
  rewrite (proj2 (Z.ltb_ge (SIZE_MAX - len rows) (len rs))) by lia. cbn [orb].
  assert (negb (len rs =? 0) && negb (framesEndAt (loadFrames d) (len rs)) = false) as ->.
  { destruct (decide (rs = [])) as [->|Hn]; [done|]. by rewrite Hend, andb_false_r by done. }
  rewrite Hv. cbn [mbind option_bind].
  assert (len (mjoin (row_value <$> rs)) = len rs * vs) as Hvb by (rewrite (len_mjoin_uniform _ vs) by (by eapply values_uniform); unfold len; by rewrite length_fmap).
  rewrite Hvb.
  assert ((if len rs =? 0 then negb (len rs * vs =? 0) else (len rs * vs =? 0) || negb (len rs * vs mod len rs =? 0)) = false) as ->.
  { destruct (Z.eqb_spec (len rs) 0) as [->|]; [done|]. rewrite (Z.mul_comm (len rs)), Z.mod_mul by lia. rewrite (proj2 (Z.eqb_neq (vs * len rs) 0)) by nia. done. }
  assert ((if len rs =? 0 then 0 else len rs * vs / len rs) = if bool_decide (rs = []) then 0 else vs) as ->.
  { destruct (decide (rs = [])) as [->|Hn]; [done|]. rewrite bool_decide_false by done. pose proof (len_pos rs Hn). rewrite (proj2 (Z.eqb_neq _ 0)) by lia. rewrite Z.mul_comm. by apply Z.div_mul; lia. }
  assert (match openAllTypeCandidates d (len rs) true with inl missing => if missing then Some false else None | inr _ => Some true end = Some all) as ->.
  { cbn in Hmask. destruct all; [by rewrite (proj1 (Hmask eq_refl))|]. unfold openAllTypeCandidates. by rewrite Hma. }
  cbn [mbind option_bind].
  assert (all && negb (len rs =? 0) && negb ((if bool_decide (rs = []) then 0 else vs) =? 8) = false) as ->.
  { destruct all; [|done]. destruct Hrs as [|r rs [_ (_ & _ & -> & _)] _]; [done|]. rewrite bool_decide_false by done. by rewrite andb_false_r. }
  assert (match lg_candidateFormat st with Some a => negb (Bool.eqb a all) | None => false end = false) as -> by (destruct Hfmt as [->| ->]; [done|by destruct all]).
  assert (negb ((if bool_decide (rs = []) then 0 else vs) =? 0) && negb (ld_valueSize (lg_loaded st) =? 0)
    && negb ((if bool_decide (rs = []) then 0 else vs) =? ld_valueSize (lg_loaded st)) = false) as ->.
  { rewrite Hsz. destruct (bool_decide (rs = [])); [done|]. destruct (bool_decide (rows = [])); [by rewrite andb_false_r|]. by rewrite Z.eqb_refl, andb_false_r. }
  assert (match d FFirst with Some f => negb (len f =? len rs * vs) | None => false end = false) as ->.
  { rewrite Hfi. destruct first; [|done]. rewrite (len_mjoin_uniform _ vs) by (by eapply firsts_uniform). unfold len. by rewrite length_fmap, Z.eqb_refl. }
  cbn [orb]. eexists. split; [done|]. split; [|by right]. rewrite Hfr. cbn [lg_loaded]. split; cbn.
  - by eapply holds_snoc.
  - rewrite len_app. unfold len. by rewrite length_fmap.
  - rewrite Hsz. pose proof (seen_nil first rs) as Hn. destruct (decide (rs = [])) as [->|Hne]; [by rewrite app_nil_r|].
    rewrite (bool_decide_false (rs = [])), (bool_decide_false (rows ++ _ = [])) by (done || (intros [_ E]%app_nil; by apply Hne, Hn)).
    by rewrite (proj2 (Z.eqb_neq vs 0)) by lia.
  - done.
  - done.
Qed.

(** A worker of a scan: its directory's path, the disk it meets, how it was started and the
    rows it adds. *)
Record Worker := mkWorker { wk_path : bytes; wk_disk : Disk; wk_first : bool; wk_order : ByteOrder; wk_width : Z; wk_rows : list Row }.
Definition wk_result (all : bool) (wk : Worker) : Writer :=
  workerResult (wk_disk wk) (wk_first wk) all (wk_order wk) (wk_width wk) (wk_rows wk).
Definition wk_seen (wk : Worker) : list Row := seen (wk_first wk) <$> wk_rows wk.
(** The line of a part in the manifest. *)
Definition wk_part (all : bool) (wk : Worker) : Z * bytes := (w_count (wk_result all wk), wk_path wk).
Definition wk_ok (all : bool) (vs : Z) (wk : Worker) : Prop :=
  Forall (row_ok all vs) (wk_rows wk) ∧ wk_path wk ≠ [] ∧ Forall (λ c, c ≠ 10) (wk_path wk).

Lemma empty_fits all vs : fits all vs [] (mkLoading noShards None).
Proof. split; [|by left]. split; cbn; try done. constructor. Qed.
Lemma loadLines_parts world all vs workers rows st : Forall (wk_ok all vs) workers → 0 < vs →
  Forall (λ wk, w_writeError (wk_result all wk) = false ∧ world (wk_path wk) = w_dir (wk_result all wk)) workers →
  fits all vs rows st → len rows + len (mjoin (wk_seen <$> workers)) ≤ SIZE_MAX →
  ∃ st', loadLines world (splitOn 10 (manifestText (wk_part all <$> workers))) st = Some st' ∧ fits all vs (rows ++ mjoin (wk_seen <$> workers)) st'.
Proof.
  intros Hok Hvs. revert rows st. induction Hok as [|wk workers (Hrows & Hne & Hnl) _ IH]; intros rows st Hw Hst Hlen.
  { exists st. by rewrite app_nil_r. }
  apply Forall_cons_1 in Hw as [[He Hd] Hw].
  destruct (workerResult_stored _ _ _ _ _ _ _ Hrows Hvs He) as (Hstored & Hc & _). fold (wk_result all wk) in Hstored, Hc.
  change (mjoin (wk_seen <$> wk :: workers)) with (wk_seen wk ++ mjoin (wk_seen <$> workers)) in *.
  assert (len (wk_seen wk) = len (wk_rows wk)) as El by (unfold len, wk_seen; by rewrite length_fmap).
  rewrite len_app in Hlen. pose proof (len_nonneg rows). pose proof (len_nonneg (wk_rows wk)). pose proof (len_nonneg (mjoin (wk_seen <$> workers))).
  destruct (addShard_stored all vs rows st (wk_first wk) (wk_rows wk) (w_dir (wk_result all wk)) _ (Some (len (wk_rows wk))) Hst Hvs Hstored Hrows ltac:(lia) ltac:(by right)) as (st1 & E1 & Hst1).
  destruct (IH (rows ++ wk_seen wk) st1 Hw Hst1) as (st2 & E2 & Hst2); [rewrite len_app; lia|].
  exists st2. split; [|by rewrite <- app_assoc in Hst2].
  change (manifestText (wk_part all <$> wk :: workers)) with
    ((to_string (w_count (wk_result all wk)) ++ bs " " ++ wk_path wk ++ [10]) ++ manifestText (wk_part all <$> workers)).
  replace ((to_string (w_count (wk_result all wk)) ++ bs " " ++ wk_path wk ++ [10]) ++ manifestText (wk_part all <$> workers))
    with ((to_string (len (wk_rows wk)) ++ 32 :: wk_path wk) ++ 10 :: manifestText (wk_part all <$> workers)) by (rewrite Hc, <- !app_assoc; done).
  rewrite splitOn_app.
  2: { apply Forall_app. split; [apply to_string_digits; lia|]. by apply Forall_cons_2. }
  cbn [loadLines]. rewrite bool_decide_false by (intros E%app_nil; by destruct E).
  rewrite manifestLine_eq by (done || lia_w). cbn [mbind option_bind]. by rewrite Hd, E1.
Qed.

(** ** The data format of a result *)

Lemma loadDataFormat_text (d : Dir) order width : d FFormat = Some (formatText order width) → width = 0 ∨ width = 4 ∨ width = 8 →
  loadDataFormat d = Some (Some (order, width)).
Proof. intros Hd Hw. unfold loadDataFormat. rewrite Hd. destruct Hw as [->|[->| ->]], order; vm_compute; reflexivity. Qed.

Section Format.
Context (disk : Disk).
(** Only [setDataFormat] touches the format. *)
Definition format_of (w : Writer) : option bytes * option (ByteOrder * Z) := (w_dir w FFormat, w_format w).
Lemma put_format f data w : f ≠ FFormat → format_of (put disk f data w) = format_of w.
Proof.
  intros Hf. unfold put, writeAll, format_of. destruct (w_isOpen w f); [|done].
  by destruct (disk_write disk _); cbn [markWriteError withDisk w_dir w_format]; file_lookup.
Qed.
Lemma openFile_format f w : f ≠ FFormat → format_of (openFile disk f w) = format_of w.
Proof. intros Hf. unfold openFile, format_of. destruct (disk_open disk f); [|done]. cbn [withDisk w_dir w_format]. by file_lookup. Qed.
Lemma enable_format w : format_of (enableAllTypeCandidates disk w) = format_of w.
Proof.
  unfold enableAllTypeCandidates. destruct (w_hasAllTypes w), (w_finalized w), (w_count w =? 0); cbn [orb negb]; try done.
  destruct (disk_open disk FAllTypes); [|done]. by rewrite openFile_format.
Qed.
Lemma putMasks_format b w : format_of (putMasks disk b w) = format_of w.
Proof.
  unfold putMasks, writeAll. destruct (w_hasAllTypes w); [|done]. destruct (_ || _); [done|].
  destruct (disk_write disk _); unfold format_of; cbn [markWriteError withDisk w_dir w_format]; by file_lookup.
Qed.
Lemma withBuf_format w b : format_of (withBuf w b) = format_of w.
Proof. done. Qed.
Lemma flush_format w : format_of (flush disk w) = format_of w.
Proof.
  unfold flush. destruct (bool_decide _); [done|]. by rewrite withBuf_format, putMasks_format, !put_format.
Qed.
Lemma addResult_format addr v f w : format_of (addResult disk addr v f w) = format_of w.
Proof.
  unfold addResult. destruct (_ || _); [done|]. destruct (w_frame w) as [[b n]|]; [destruct (_ || _)|];
    destruct (_ <=? _); rewrite ?flush_format; done.
Qed.
Lemma addRow_format all r w : format_of (addRow disk all r w) = format_of w.
Proof.
  unfold addRow, addAllTypeResult. destruct all; [|by rewrite addResult_format].
  rewrite <- (enable_format w). destruct (_ || _); [done|]. by rewrite addResult_format.
Qed.
Lemma writeRows_format all rows w : format_of (writeRows disk all rows w) = format_of w.
Proof. revert w. induction rows as [|r rows IH]; intros w; [done|]. change (writeRows disk all (r :: rows) w) with (writeRows disk all rows (addRow disk all r w)). by rewrite IH, addRow_format. Qed.
Lemma finalize_format w : format_of (finalize disk w) = format_of w.
Proof.
  unfold finalize. destruct (w_finalized w); [done|]. cbv zeta. destruct (_ && _); [|by apply flush_format].
  destruct (disk_open disk FFrames); [rewrite put_format, openFile_format by done|]; by apply flush_format.
Qed.
Lemma setDataFormat_format order width w : w_writeError (setDataFormat disk order width w) = false →
  format_of (setDataFormat disk order width w) = (Some (formatText order width), Some (order, width)) ∧ (width = 0 ∨ width = 4 ∨ width = 8).
Proof.
  intros He. assert (width = 0 ∨ width = 4 ∨ width = 8) as Hw.
  { unfold setDataFormat in He. destruct (Z.eqb_spec width 0), (Z.eqb_spec width 4), (Z.eqb_spec width 8); auto. done. }
  split; [|done]. unfold setDataFormat, openFile, writeAll, format_of in *.
  assert ((width =? 0) || (width =? 4) || (width =? 8) = true) as E by (destruct Hw as [->|[->| ->]]; done). rewrite E in *. cbn [negb] in *.
  destruct (disk_open disk FFormat); [|done]. cbn [negb withDisk w_dir w_writes] in *.
  destruct (disk_write disk (w_writes w)); [done|]. cbn [withDisk w_dir w_format]. by file_lookup.
Qed.
Lemma workerResult_format first all order width rows : let w := workerResult disk first all order width rows in
  w_writeError w = false → loadDataFormat (w_dir w) = Some (Some (order, width)) ∧ w_format w = Some (order, width).
Proof.
  cbv zeta. unfold workerResult. intros He.
  apply (no_error (finalize disk)) in He; [|apply finalize_error]. apply (no_error (writeRows disk all rows)) in He; [|apply writeRows_error].
  assert (format_of (finalize disk (writeRows disk all rows (startResult disk first all order width))) = (Some (formatText order width), Some (order, width)) ∧ (width = 0 ∨ width = 4 ∨ width = 8)) as [[= Ed Ef] Hw].
  { rewrite finalize_format, writeRows_format. unfold startResult in *. destruct all; [|by apply setDataFormat_format].
    rewrite enable_format. apply (no_error (enableAllTypeCandidates disk)) in He; [|apply enable_error]. by apply setDataFormat_format. }
  split; [by apply loadDataFormat_text|done].
Qed.
End Format.

(** ** The results a scan returns *)

(** Every reading operation serves exactly these rows. *)
Record serves (all : bool) (vs : Z) (rows : list Row) (ld : Loaded) : Prop := {
  sv_error : ld_writeError ld = false;
  sv_count : ld_count ld = len rows;
  sv_rows : Forall (row_ok all vs) rows;
  sv_all : rows ≠ [] → ld_hasAllTypes ld = all;
  sv_row (i : nat) r : rows !! i = Some r →
    address ld (Z.of_nat i) = row_addr r ∧ value ld (Z.of_nat i) vs = row_value r ∧
    firstValue ld (Z.of_nat i) vs = row_first r ∧ (all = true → allTypeCandidates ld (Z.of_nat i) = row_mask r);
  sv_stride : recordStride ld = if bool_decide (rows = []) then 0 else vs;
  sv_forEach : forEachResult ld vs = (λ r, (row_addr r, row_value r)) <$> rows;
  sv_reader (b n : nat) : rows ≠ [] → (b + n ≤ length rows)%nat →
    rd_ok (openReader (shardLayout ld) all) = true ∧
    readerRead (openReader (shardLayout ld) all) (Z.of_nat b) (Z.of_nat n) vs all = Some (take n (drop b rows))
}.
Lemma loaded_serves all vs rows ld : loaded_ok all vs rows ld → 0 < vs ≤ SIZE_MAX / 4096 → len rows ≤ SIZE_MAX → serves all vs rows ld.
Proof.
  intros H Hvs Hlen. pose proof H as [Hh Hc _ Ha He]. split; [done|done|by eapply holds_row_ok|done| | | |].
  - intros i r Hr. by apply (loaded_row all vs rows); [|lia|].
  - unfold recordStride. rewrite (strideLoop_holds all vs 0 _ rows 0 Hh) by (lia || by left). done.
  - by apply (forEach_rows all).
  - intros b n _ Hbn. by apply reader_rows; [|lia|..].
Qed.
(** With no rows the candidates play no part. *)
Lemma serves_none all all' vs ld : serves all vs [] ld → serves all' vs [] ld.
Proof. intros [He Hc _ _ _ Hs Hf _]. by split. Qed.
Lemma loadedOf_stored first all vs rows w : stored first all rows (w_dir w) (w_frames w) → Forall (row_ok all vs) rows →
  w_count w = len rows → w_valueSize w = (if bool_decide (rows = []) then 0 else vs) → w_hasAllTypes w = all → w_writeError w = false →
  loaded_ok all vs (seen first <$> rows) (loadedOf w).
Proof.
  intros Hs Hr Hc Hz Ha He. unfold loadedOf. rewrite Hc, Hz, Ha, He. split; cbn.
  - rewrite <- (app_nil_r (seen first <$> rows)). econstructor; [|done|constructor]. split; [done|by eexists|done].
  - unfold len. by rewrite length_fmap.
  - destruct rows; done.
  - done.
  - done.
Qed.
Lemma loadedOf_ok disk first all vs order width rows : let w := workerResult disk first all order width rows in
  Forall (row_ok all vs) rows → 0 < vs → w_writeError w = false → loaded_ok all vs (seen first <$> rows) (loadedOf w).
Proof.
  cbv zeta. intros Hr Hvs He. destruct (workerResult_stored disk first all vs order width rows Hr Hvs He) as (Hs & Hc & Hz & Ha).
  by apply loadedOf_stored.
Qed.
Lemma loadShards_ok world first all vs rows d frames : stored first all rows d frames → Forall (row_ok all vs) rows → 0 < vs → len rows ≤ SIZE_MAX →
  loaded_ok all vs (seen first <$> rows) (loadShards world d).
Proof.
  intros Hs Hr Hvs Hlen. unfold loadShards. rewrite (st_manifest _ _ _ _ _ Hs). destruct (st_offsets _ _ _ _ _ Hs) as (offs & _ & _ & Ho). rewrite Ho.
  destruct (addShard_stored all vs [] (mkLoading noShards None) first rows d frames None (empty_fits all vs) Hvs Hs Hr) as (st & -> & Hst & _); [rewrite (len_nil (A:=Row)); lia|by left|done].
Qed.

Lemma results_spec disk world first all vs order width rows :
  Forall (row_ok all vs) rows → 0 < vs ≤ SIZE_MAX / 4096 → len rows ≤ SIZE_MAX →
  let w := workerResult disk first all order width rows in
  (w_writeError w = false →
     serves all vs (seen first <$> rows) (loadedOf w) ∧ serves all vs (seen first <$> rows) (loadShards world (w_dir w)) ∧
     loadDataFormat (w_dir w) = Some (Some (order, width))) ∧
  (reliable disk → width = 0 ∨ width = 4 ∨ width = 8 → w_writeError w = false).
Proof.
  intros Hr Hvs Hlen. cbv zeta. assert (len (seen first <$> rows) ≤ SIZE_MAX) by (unfold len in *; by rewrite length_fmap). split.
  - intros He. split_and!.
    + apply loaded_serves; [apply loadedOf_ok|..]; done || lia.
    + destruct (workerResult_stored disk first all vs order width rows Hr ltac:(lia) He) as (Hs & _).
      apply loaded_serves; [eapply loadShards_ok|..]; done || lia.
    + by apply workerResult_format.
  - intros Hd Hw. apply (workerResult_reliable disk first all vs); done || lia.
Qed.

(** C9: a result that ends without its error flag serves exactly the rows that were added,
    in order, to every reader (by index, in batches, as ranges for a next scan), in place or
    loaded again from its directory, together with its data format; only a disk that refuses
    a file or a write can raise the flag. *)
Theorem results_read_back disk world first all vs order width rows :
  Forall (row_ok all vs) rows → 0 < vs ≤ SIZE_MAX / 4096 → len rows ≤ SIZE_MAX →
  let w := workerResult disk first all order width rows in
  (w_writeError w = false →
     serves all vs (seen first <$> rows) (loadedOf w) ∧ serves all vs (seen first <$> rows) (loadShards world (w_dir w)) ∧
     loadDataFormat (w_dir w) = Some (Some (order, width))) ∧
  (reliable disk → width = 0 ∨ width = 4 ∨ width = 8 → w_writeError w = false).
Proof. apply results_spec. Qed.

(** The manifest is whole when no flag is raised, and the parts had none. *)
Lemma entries_error disk parts w : w_writeError w = true → w_writeError (foldl (manifestEntry disk) w parts) = true.
Proof.
  revert w. induction parts as [|p parts IH]; intros w Hw; [done|]. apply IH. unfold manifestEntry, writeAll.
  destruct (w_writeError p.2); destruct (disk_write disk _); done.
Qed.
Lemma entries_ok disk parts w text : w_dir w FManifest = Some text → w_dir w FOffsets = None → w_writeError (foldl (manifestEntry disk) w parts) = false →
  Forall (λ p, w_writeError p.2 = false) parts ∧
  w_dir (foldl (manifestEntry disk) w parts) FManifest = Some (text ++ manifestText ((λ p : bytes * Writer, (w_count p.2, p.1)) <$> parts)).
Proof.
  revert w text. induction parts as [|p parts IH]; intros w text Hw Ho He; [by rewrite app_nil_r|].
  cbn [foldl] in He |- *. pose proof (no_error (λ w, foldl (manifestEntry disk) w parts) _ (λ w, entries_error disk parts w) He) as Hp.
  assert (w_writeError p.2 = false ∧ disk_write disk (w_writes w) = None) as [Hpe Hd].
  { unfold manifestEntry, writeAll in Hp. destruct (w_writeError p.2), (disk_write disk (w_writes w)) eqn:Ed; cbn [markWriteError w_writes] in Hp; rewrite ?Ed in Hp; done. }
  destruct (IH (manifestEntry disk w p) (text ++ to_string (w_count p.2) ++ bs " " ++ p.1 ++ [10])) as [Hparts Hdir]; [..|done|].
  - unfold manifestEntry, writeAll. rewrite Hpe, Hd, Hw. cbn [withDisk w_dir]. by file_lookup.
  - unfold manifestEntry, writeAll. rewrite Hpe, Hd. cbn [withDisk w_dir]. by file_lookup.
  - split; [by apply Forall_cons_2|]. rewrite Hdir, <- app_assoc. done.
Qed.
Lemma entries_reliable disk parts w : reliable disk → w_writeError w = false → Forall (λ p, w_writeError p.2 = false) parts →
  w_writeError (foldl (manifestEntry disk) w parts) = false.
Proof.
  intros [_ Hd] Hw Hp. revert w Hw. induction Hp as [|p parts Hpe _ IH]; intros w Hw; [done|]. apply IH. unfold manifestEntry, writeAll. by rewrite Hpe, Hd.
Qed.

Definition wk_writer (all : bool) (wk : Worker) : bytes * Writer := (wk_path wk, wk_result all wk).
Lemma assemble_loads all vs world workers d : Forall (wk_ok all vs) workers → 0 < vs →
  Forall (λ wk, w_writeError (wk_result all wk) = false ∧ world (wk_path wk) = w_dir (wk_result all wk)) workers →
  len (mjoin (wk_seen <$> workers)) ≤ SIZE_MAX → d FManifest = Some (manifestText (wk_part all <$> workers)) →
  loaded_ok all vs (mjoin (wk_seen <$> workers)) (loadShards world d).
Proof.
  intros Hok Hvs Hw Hlen Hd. unfold loadShards. rewrite Hd.
  destruct (loadLines_parts world all vs workers [] _ Hok Hvs Hw (empty_fits all vs)) as (st & -> & Hst & _); [by rewrite (len_nil (A:=Row))|done].
Qed.
Lemma withFlag_same ld f : ld_writeError ld = false → f = false →
  mkLoaded (ld_shards ld) (ld_count ld) (ld_valueSize ld) (ld_hasAllTypes ld) (ld_writeError ld || f) = ld.
Proof. intros He ->. rewrite orb_false_r. by destruct ld. Qed.
Lemma manifest_parts all (workers : list Worker) : (λ p : bytes * Writer, (w_count p.2, p.1)) <$> (wk_writer all <$> workers) = (wk_part all <$> workers : list _).
Proof. by rewrite <- list_fmap_compose. Qed.
Lemma merged_ok disk all workers : let w := mergedManifest disk (wk_writer all <$> workers) in w_writeError w = false →
  Forall (λ wk, w_writeError (wk_result all wk) = false) workers ∧ w_dir w FManifest = Some (manifestText (wk_part all <$> workers)).
Proof.
  cbv zeta. unfold mergedManifest. destruct (disk_open disk FManifest) eqn:E; [|done]. intros He.
  destruct (entries_ok disk (wk_writer all <$> workers) (openFile disk FManifest (newWriter false)) []) as [Hp Hd].
  - unfold openFile. rewrite E. cbn [withDisk w_dir]. by file_lookup.
  - unfold openFile. rewrite E. cbn [withDisk w_dir]. by file_lookup.
  - done.
  - rewrite manifest_parts in Hd. split; [by apply Forall_fmap in Hp|done].
Qed.
Lemma merged_reliable disk all workers : reliable disk → Forall (λ wk, w_writeError (wk_result all wk) = false) workers →
  w_writeError (mergedManifest disk (wk_writer all <$> workers)) = false.
Proof.
  intros Hd Hw. unfold mergedManifest. rewrite (proj1 Hd). apply entries_reliable; [done| |by apply Forall_fmap].
  unfold openFile. by rewrite (proj1 Hd).
Qed.

Lemma wk_format all wk : w_writeError (wk_result all wk) = false → w_format (wk_result all wk) = Some (wk_order wk, wk_width wk).
Proof. intros He. by apply (workerResult_format (wk_disk wk)) in He as [_ He]. Qed.
Lemma mergedFormat_error disk parts w : w_writeError w = true → w_writeError (mergedFormat disk parts w) = true.
Proof.
  intros Hw. unfold mergedFormat. destruct parts as [|[q part] parts]; [done|]. destruct (w_format part) as [[order width]|]; [|done].
  destruct (existsb _ _); [done|]. by apply setDataFormat_error.
Qed.
Lemma mergedFormat_ok disk all workers w : Forall (λ wk, w_writeError (wk_result all wk) = false) workers →
  w_writeError (mergedFormat disk (wk_writer all <$> workers) w) = false →
  Forall (λ wk, w_format (mergedFormat disk (wk_writer all <$> workers) w) = Some (wk_order wk, wk_width wk)) workers.
Proof.
  intros Hw. unfold mergedFormat. destruct Hw as [|wk workers He Hw]; [constructor|].
  change (wk_writer all <$> wk :: workers) with ((wk_path wk, wk_result all wk) :: (wk_writer all <$> workers)). cbv iota beta. rewrite (wk_format all wk He).
  set (w' := setDataFormat disk (wk_order wk) (wk_width wk) w). destruct (existsb _ _) eqn:Ex; [done|]. intros _.
  apply Forall_forall. intros k Hk. pose proof (Forall_cons_2 _ _ _ He Hw) as Hall. rewrite Forall_forall in Hall. rewrite <- (wk_format all k) by auto.
  destruct (decide (w_format (wk_result all k) = w_format w')) as [->|Hne]; [done|]. exfalso.
  assert (existsb (λ p : bytes * Writer, negb (bool_decide (w_format p.2 = w_format w'))) ((wk_path wk, wk_result all wk) :: (wk_writer all <$> workers)) = true) as E; [|congruence].
  apply existsb_exists. exists (wk_writer all k). split; [|cbn; by rewrite bool_decide_false].
  apply list_elem_of_In. change (wk_writer all k ∈ wk_writer all <$> wk :: workers). by apply list_elem_of_fmap_2.
Qed.
Lemma mergedFormat_reliable disk all workers w order width : reliable disk → w_writeError w = false → width = 0 ∨ width = 4 ∨ width = 8 →
  Forall (λ wk, w_writeError (wk_result all wk) = false ∧ wk_order wk = order ∧ wk_width wk = width) workers →
  w_writeError (mergedFormat disk (wk_writer all <$> workers) w) = false.
Proof.
  intros Hd He Hwd Hw. unfold mergedFormat. assert (Forall (λ p : bytes * Writer, w_format p.2 = Some (order, width)) (wk_writer all <$> workers)) as Hf.
  { apply Forall_fmap. eapply Forall_impl; [exact Hw|]. intros wk (Hk & <- & <-). by apply wk_format. }
  destruct (wk_writer all <$> workers) as [|[q part] parts]; [done|]. pose proof Hf as Hf'. apply Forall_cons_1 in Hf' as [Hp _]. cbn in Hp. rewrite Hp.
  assert (w_writeError (setDataFormat disk order width w) = false) as Hs.
  { unfold setDataFormat, openFile, writeAll. assert ((width =? 0) || (width =? 4) || (width =? 8) = true) as -> by (destruct Hwd as [->|[->| ->]]; done).
    cbn [negb]. rewrite (proj1 Hd). cbn. by rewrite (proj2 Hd). }
  destruct (setDataFormat_format disk order width w Hs) as [[= _ ->] _].
  assert (existsb (λ p : bytes * Writer, negb (bool_decide (w_format p.2 = Some (order, width)))) ((q, part) :: parts) = false) as ->; [|done].
  clear Hp. induction Hf as [|p l Hp _ IH]; [done|]. cbn [existsb]. rewrite IH, bool_decide_true by done. done.
Qed.

Lemma shards_spec disk world all vs workers :
  Forall (wk_ok all vs) workers → 0 < vs ≤ SIZE_MAX / 4096 → len (mjoin (wk_seen <$> workers)) ≤ SIZE_MAX →
  Forall (λ wk, world (wk_path wk) = w_dir (wk_result all wk)) workers →
  let merged := assembleShardedResult disk world (wk_writer all <$> workers) in
  (ld_writeError merged.1 = false →
     serves all vs (mjoin (wk_seen <$> workers)) merged.1 ∧
     Forall (λ wk, merged.2 = Some (wk_order wk, wk_width wk)) workers) ∧
  (∀ order width, reliable disk → Forall (λ wk, reliable (wk_disk wk) ∧ wk_order wk = order ∧ wk_width wk = width) workers →
     width = 0 ∨ width = 4 ∨ width = 8 → ld_writeError merged.1 = false).
Proof.
  intros Hok Hvs Hlen Hworld. cbv zeta. unfold assembleShardedResult. cbn [fst snd ld_writeError].
  set (w := mergedManifest disk (wk_writer all <$> workers)).
  assert (w_writeError w = false → loaded_ok all vs (mjoin (wk_seen <$> workers)) (loadShards world (w_dir w))) as Hload.
  { intros He. destruct (merged_ok disk all workers He) as [Hp Hd]. apply (assemble_loads all vs world workers); [done|lia| |done..].
    by apply Forall_and. }
  split.
  - intros [_ He]%orb_false_iff. pose proof (no_error _ _ (mergedFormat_error disk _) He) as Hw. destruct (merged_ok disk all workers Hw) as [Hp _].
    split; [|by apply mergedFormat_ok]. specialize (Hload Hw). apply loaded_serves; [|done..].
    rewrite withFlag_same by (done || apply Hload). done.
  - intros order width Hd Hw Hwd. assert (Forall (λ wk, w_writeError (wk_result all wk) = false) workers) as Hun.
    { rewrite Forall_forall in *. intros wk Hk. destruct (Hw wk Hk) as (Hdk & _ & Hwk). destruct (Hok wk Hk) as [Hr _].
      apply (workerResult_reliable _ _ all vs); [done|lia|done|by rewrite Hwk]. }
    pose proof (merged_reliable disk all workers Hd Hun) as Hm. rewrite (lo_error _ _ _ _ (Hload Hm)).
    apply (mergedFormat_reliable disk all workers w order width); [done..|]. apply Forall_and. split; [done|]. eapply Forall_impl; [exact Hw|]. tauto.
Qed.

(** C8: the manifest a scan assembles from its workers' directories serves, unless a flag is
    raised, the workers' rows one worker after the other, with the workers' data format; when
    the disks refuse nothing and the workers agree on the format no flag is raised. *)
Theorem shards_read_back disk world all vs workers :
  Forall (wk_ok all vs) workers → 0 < vs ≤ SIZE_MAX / 4096 → len (mjoin (wk_seen <$> workers)) ≤ SIZE_MAX →
  Forall (λ wk, world (wk_path wk) = w_dir (wk_result all wk)) workers →
  let merged := assembleShardedResult disk world (wk_writer all <$> workers) in
  (ld_writeError merged.1 = false →
     serves all vs (mjoin (wk_seen <$> workers)) merged.1 ∧
     Forall (λ wk, merged.2 = Some (wk_order wk, wk_width wk)) workers) ∧
  (∀ order width, reliable disk → Forall (λ wk, reliable (wk_disk wk) ∧ wk_order wk = order ∧ wk_width wk = width) workers →
     width = 0 ∨ width = 4 ∨ width = 8 → ld_writeError merged.1 = false).
Proof. apply shards_spec. Qed.

(** A disk that refuses nothing, and two workers with rows in two frames. *)
Definition freeDisk : Disk := mkDisk (λ _, true) (λ _, None).
Lemma freeDisk_reliable : reliable freeDisk.
Proof. done. Qed.
Definition exampleRows : list Row :=
  [mkRow 4096 [1; 0; 0; 0] [1; 0; 0; 0] 0; mkRow 4100 [2; 0; 0; 0] [1; 0; 0; 0] 0; mkRow 17592186044416 [3; 0; 0; 0] [7; 0; 0; 0] 0].
Definition exampleWorkers : list Worker :=
  [mkWorker (bs "/tmp/results_0") freeDisk true Little 8 exampleRows; mkWorker (bs "/tmp/results_1") freeDisk true Little 8 []].
Definition exampleWorld (path : bytes) : Dir :=
  if bytes_eqb path (bs "/tmp/results_0") then w_dir (workerResult freeDisk true false Little 8 exampleRows)
  else w_dir (workerResult freeDisk true false Little 8 []).
Lemma exampleWorld_ok : Forall (λ wk, exampleWorld (wk_path wk) = w_dir (wk_result false wk)) exampleWorkers.
Proof.
  unfold exampleWorld, exampleWorkers. apply Forall_cons_2; [|apply Forall_cons_2; [|apply Forall_nil_2]]; unfold wk_result; cbn [wk_path wk_disk wk_first wk_order wk_width wk_rows].
  - replace (bytes_eqb _ _) with true by (vm_compute; reflexivity). reflexivity.
  - replace (bytes_eqb _ _) with false by (vm_compute; reflexivity). reflexivity.
Qed.
Lemma exampleRows_ok : Forall (row_ok false 4) exampleRows.
Proof. unfold exampleRows, row_ok. repeat apply Forall_cons_2; [split; [unfold is_u64; cbn; lia_w|done]..|apply Forall_nil_2]. Qed.

Lemma results_read_back_witness :
  serves false 4 exampleRows (loadShards exampleWorld (w_dir (workerResult freeDisk true false Little 8 exampleRows))).
Proof.
  destruct (results_read_back freeDisk exampleWorld true false 4 Little 8 exampleRows) as [H Hr].
  - exact exampleRows_ok.
  - vm_compute. done.
  - vm_compute. done.
  - apply H. apply Hr; [exact freeDisk_reliable|by right; right].
Defined.
Lemma shards_read_back_witness :
  serves false 4 exampleRows (assembleShardedResult freeDisk exampleWorld (wk_writer false <$> exampleWorkers)).1.
Proof.
  destruct (shards_read_back freeDisk exampleWorld false 4 exampleWorkers) as [H Hr].
  - repeat apply Forall_cons_2; [split; [exact exampleRows_ok|split; [done|decide_by_compute]]|split; [apply Forall_nil_2|split; [done|decide_by_compute]]|apply Forall_nil_2].
  - vm_compute. done.
  - vm_compute. done.
  - exact exampleWorld_ok.
  - apply H. apply (Hr Little 8); [exact freeDisk_reliable| |by right; right]. unfold exampleWorkers. repeat apply Forall_cons_2; [split; [exact freeDisk_reliable|done]..|apply Forall_nil_2].
Defined.
