(* ===== verification/Floating.v ===== *)
(** * Floating-point values of a scan

    [float] and [double] as the IEEE values of the Standard Library's [spec_float]
    (round to nearest even, without NaN payloads): the reading of a scalar from memory,
    the conversions, and the library functions [src/scanner/memory_scanner.cpp] uses.
    [std::pow] is not specified to the last bit and is a parameter of its callers. *)

From Stdlib Require Import SpecFloat.
From S2P Require Import Prelude TargetMachine Types ScanBuffers ScanNumber.

(** The template parameter [T] of the floating-point scans. *)
Record FloatType := mkFloat { ft_size : Z; ft_prec : Z; ft_emax : Z }.
Definition single : FloatType := mkFloat 4 24 128.
Definition double : FloatType := mkFloat 8 53 1024.

(** [std::bit_cast] from the bits of a value. *)
Definition floatOfBits (ft : FloatType) (bits : Z) : spec_float :=
  let mbits := ft_prec ft - 1 in
  let ebits := ft_size ft * 8 - ft_prec ft in
  let frac := bits mod 2 ^ mbits in
  let e := (bits / 2 ^ mbits) mod 2 ^ ebits in
  let s := Z.testbit bits (ft_size ft * 8 - 1) in
  if e =? 2 ^ ebits - 1 then if frac =? 0 then S754_infinity s else S754_nan
  else if e =? 0 then
    if frac =? 0 then S754_zero s else S754_finite s (Z.to_pos frac) (emin (ft_prec ft) (ft_emax ft))
  else S754_finite s (Z.to_pos (2 ^ mbits + frac)) (e - 1 + emin (ft_prec ft) (ft_emax ft)).
(** [readScanScalar<float>] and [readScanScalar<double>]. *)
Definition readScanFloat (ft : FloatType) (w : bytes) (order : ByteOrder) : spec_float :=
  floatOfBits ft (le_val (if bool_decide (order = nativeScanByteOrder) then w else reverse w)).

(** [static_cast<T>] of a floating-point value. *)
Definition narrow (ft : FloatType) (f : spec_float) : spec_float :=
  match f with
  | S754_finite s m e => binary_round (ft_prec ft) (ft_emax ft) s m e
  | _ => f
  end.
Definition toDouble : spec_float → spec_float := narrow double.

Definition dadd : spec_float → spec_float → spec_float := SFadd 53 1024.
Definition dsub : spec_float → spec_float → spec_float := SFsub 53 1024.
Definition dmul : spec_float → spec_float → spec_float := SFmul 53 1024.
Definition ddiv : spec_float → spec_float → spec_float := SFdiv 53 1024.
(** The double literal [n / d], both exact. *)
Definition ratio (n d : Z) : spec_float := ddiv (doubleOfInt n) (doubleOfInt d).
Definition dzero : spec_float := S754_zero false.
(** [std::max] and [std::min]. *)
Definition dmax (a b : spec_float) : spec_float := if SFltb a b then b else a.
Definition dmin (a b : spec_float) : spec_float := if SFltb b a then b else a.
(** [std::numeric_limits<T>::max] and [epsilon], as doubles. *)
Definition floatMax (ft : FloatType) : spec_float := toDouble (SFmax_float (ft_prec ft) (ft_emax ft)).
Definition epsilon (ft : FloatType) : spec_float := binary_normalize 53 1024 1 (1 - ft_prec ft) false.

(** The magnitude of a finite double with a shift added before it is cut to an integer:
    [half] adds one half. *)
Definition wholeMagnitude (half : bool) (m : positive) (e : Z) : Z :=
  if 0 <=? e then Zpos m * 2 ^ e
  else (Zpos m + (if half then 2 ^ (- e - 1) else 0)) / 2 ^ (- e).
Definition wholeDouble (half : bool) (f : spec_float) : spec_float :=
  match f with
  | S754_finite s m e => binary_normalize 53 1024 (cond_Zopp s (wholeMagnitude half m e)) 0 s
  | _ => f
  end.
(** [std::trunc], [std::round] and [std::llround]. *)
Definition trunc : spec_float → spec_float := wholeDouble false.
Definition round : spec_float → spec_float := wholeDouble true.
Definition llround (f : spec_float) : Z :=
  match f with
  | S754_finite s m e => cond_Zopp s (wholeMagnitude true m e)
  | _ => 0
  end.

(** [getCompare<double>]. *)
Definition getCompareDouble (cmp : ScanCompare) (c v v2 : spec_float) : bool :=
  match cmp with
  | CmpExact | CmpUnchanged | CmpSameAsFirst => SFeqb c v
  | CmpGreater | CmpIncreased => SFltb v c
  | CmpLess | CmpDecreased => SFltb c v
  | CmpBetween => if SFleb v v2 then SFleb v c && SFleb c v2 else SFleb v2 c && SFleb c v
  | CmpChanged => negb (SFeqb c v)
  | CmpUnknown => true
  | _ => SFeqb c v
  end.

(** Reference values. *)
Example read_single : readScanFloat single [0; 0; 192; 63] Little = S754_finite false 12582912 (-23).
Proof. reflexivity. Qed.
Example read_double_swapped : readScanFloat double [63; 248; 0; 0; 0; 0; 0; 0] Big = toDouble (readScanFloat single [0; 0; 192; 63] Little).
Proof. reflexivity. Qed.
Example ratio_bits : ratio 1 10 = floatOfBits double 4591870180066957722.
Proof. reflexivity. Qed.
Example round_half : round (ratio (-5) 2) = doubleOfInt (-3) ∧ trunc (ratio (-5) 2) = doubleOfInt (-2) ∧ llround (ratio 5 2) = 3.
Proof. split_and!; reflexivity. Qed.
Example narrow_tenth : narrow single (ratio 1 10) = floatOfBits single 1036831949.
Proof. reflexivity. Qed.
