(* ===== verification/NextCompare.v ===== *)
(** * Comparing values

    The predicates of [src/scanner/memory_scanner.cpp] on one value: floating-point
    search values with their rounding modes, percentages, changes by an amount, the exact
    integer boundary of an all-types scan, grouped blocks, and [nextScanCompare] and
    [nextAllTypeCandidates], which decide whether a row of a previous scan is kept.

    [std::pow(10.0, n)], [iconv] and the Lua formula are the class [Library]. *)

From Stdlib Require Import SpecFloat.
From S2P Require Import Prelude Numeral TargetMachine Types Loops ScanBuffers PatternScan ScanConfig ScanNumber ScanResults Floating.
#[local] Open Scope Z_scope.

(** ** The libraries *)

Class Library := {
  pow10 : Z → spec_float;
  (** [iconv] from UTF-8 to the named encoding; [None] when it is refused. *)
  iconvEncode : bytes → bytes → option bytes;
  (** The formula on the current and the old value, with [hasOld]; [false] also when it
      does not evaluate. *)
  formulaMatches : bytes → bytes → bytes → Z → bool → bool
}.

Section Compare.
Context {lib : Library}.

(** ** Text *)

Definition isUtf8Encoding (encoding : bytes) : bool :=
  let normalized := lowerCopy (trimCopy encoding) in
  bool_decide (normalized = []) || bytes_eqb normalized (bs "utf8") || bytes_eqb normalized (bs "utf-8").
(** [None] is the exception. *)
Definition encodeStringBytes (text encoding : bytes) : option bytes :=
  if isUtf8Encoding encoding then Some text else iconvEncode encoding text.
Definition utf16Bytes (text : bytes) (order : ByteOrder) : option bytes :=
  encodeStringBytes text (if bool_decide (order = Big) then bs "UTF-16BE" else bs "UTF-16LE").
(** A text that was encoded before. *)
Definition utf16Known (text : bytes) (order : ByteOrder) : bytes := default [] (utf16Bytes text order).
Definition stringValueSize (c : ScanConfig) : option Z := len <$> encodeStringBytes (sc_stringValue c) (sc_stringEncoding c).

(** ** Floating-point search values *)

Definition compareFloatingExact (ft : FloatType) (config : ScanConfig) (current requested : spec_float) : bool :=
  if isNan current || isNan requested then false
  else if negb (isFinite current) || negb (isFinite requested) then SFeqb (toDouble current) requested
  else
    let c := toDouble current in
    let s := requested in
    if sc_roundingType config =? 1 then
      if 0 <=? sc_floatDecimals config then
        let half := dmul (ratio 1 2) (pow10 (- sc_floatDecimals config)) in
        SFleb (SFabs (dsub c s)) half
      else
        let kLLMax := doubleOfInt 9200000000000000000 in
        if SFltb kLLMax (SFabs c) || SFltb kLLMax (SFabs s) then SFeqb (round c) (round s)
        else llround c =? llround s
    else if sc_roundingType config =? 2 then SFeqb (trunc c) (trunc s)
    else if sc_roundingType config =? 3 then
      let tolerance := if SFltb dzero (sc_floatTolerance config) then sc_floatTolerance config
                       else dmax (ratio 1 1000000) (dmul (SFabs s) (ratio 1 1000000)) in
      SFleb (SFabs (dsub c s)) tolerance
    else SFleb (SFabs s) (floatMax ft) && SFeqb current (narrow ft s).

Definition compareFloating (ft : FloatType) (config : ScanConfig) (current : spec_float) : bool :=
  if bool_decide (sc_compareType config = CmpExact) then compareFloatingExact ft config current (sc_floatValue config)
  else getCompareDouble (sc_compareType config) (toDouble current) (sc_floatValue config) (sc_floatValue2 config).
Definition compareAllFloatingLiteral := compareFloating.

(** ** Percentages *)

Definition supportsPercentageCompare (cmp : ScanCompare) : bool :=
  match cmp with
  | CmpGreater | CmpLess | CmpBetween | CmpIncreased | CmpDecreased => true
  | _ => false
  end.
(** On the values converted to [double]. *)
Definition comparePercentage (config : ScanConfig) (current old : spec_float) : bool :=
  let base := SFabs old in
  if SFeqb base dzero then false else
  let deltaPct := dmul (ddiv (dsub current old) base) (doubleOfInt 100) in
  match sc_compareType config with
  | CmpIncreased | CmpGreater => SFleb (sc_percentageValue config) deltaPct
  | CmpDecreased | CmpLess => SFleb deltaPct (SFopp (sc_percentageValue config))
  | CmpBetween =>
      let lo := dmin (sc_percentageValue config) (sc_percentageValue2 config) in
      let hi := dmax (sc_percentageValue config) (sc_percentageValue2 config) in
      SFleb lo deltaPct && SFleb deltaPct hi
  | _ => false
  end.

(** ** Numbers against the previous scan *)

(** [static_cast<T>]. *)
Definition castInt (ty : IntType) (v : Z) : Z :=
  if ty_signed ty then to_signed (ty_size ty * 8) v else wrap (ty_size ty * 8) v.
Definition isIncreasedBy (config : ScanConfig) : bool := bool_decide (sc_compareType config = CmpIncreasedBy).
Definition isChangedBy (config : ScanConfig) : bool :=
  isIncreasedBy config || bool_decide (sc_compareType config = CmpDecreasedBy).
Definition usesPercentage (config : ScanConfig) : bool :=
  sc_percentageScan config && supportsPercentageCompare (sc_compareType config).

(** [compareNextNumericValues<T>] of an integer type. *)
Definition compareNextInteger (ty : IntType) (config : ScanConfig) (cur old : Z) : bool :=
  if usesPercentage config then comparePercentage config (doubleOfInt cur) (doubleOfInt old)
  else if bool_decide (sc_compareType config = CmpSameAsFirst) then cur =? old
  else if isChangedBy config then
    if (ty_signed ty || (ty_size ty <? 8)) && (sc_intValue config <? 0) then false
    else
      let increased := isIncreasedBy config in
      if (if increased then cur <=? old else old <=? cur) then false
      else
        let bits := ty_size ty * 8 in
        let distance := if increased then wrap bits (wrap bits cur - wrap bits old) else wrap bits (wrap bits old - wrap bits cur) in
        distance =? u64 (sc_intValue config)
  else if compareIndex CmpChanged <=? compareIndex (sc_compareType config) then getCompare (sc_compareType config) cur old 0
  else getCompare (sc_compareType config) cur (castInt ty (sc_intValue config)) (castInt ty (sc_intValue2 config)).
(** The same of a floating-point type. *)
Definition compareNextFloat (ft : FloatType) (config : ScanConfig) (cur old : spec_float) : bool :=
  if usesPercentage config then comparePercentage config (toDouble cur) (toDouble old)
  else if bool_decide (sc_compareType config = CmpSameAsFirst) then SFeqb cur old
  else if isChangedBy config then
    let increased := isIncreasedBy config in
    let d := sc_floatValue config in
    let actual := if increased then dsub (toDouble cur) (toDouble old) else dsub (toDouble old) (toDouble cur) in
    let magnitude := dmax (SFabs (toDouble cur)) (SFabs (toDouble old)) in
    let tol := dmax (dmax (ratio 1 1000000) (dmul (SFabs d) (ratio 1 100000))) (dmul (dmul (doubleOfInt 4) (epsilon ft)) magnitude) in
    let dir := if increased then SFltb old cur else SFltb cur old in
    let expected := if increased then SFadd (ft_prec ft) (ft_emax ft) old (narrow ft d) else SFsub (ft_prec ft) (ft_emax ft) old (narrow ft d) in
    dir && (SFeqb cur expected || SFleb (SFabs (dsub actual d)) tol)
  else if compareIndex CmpChanged <=? compareIndex (sc_compareType config) then
    getCompareDouble (sc_compareType config) cur old dzero
  else compareFloating ft config cur.

(** The value at the start of some memory, and [compareNextNumeric<T>]. *)
Definition readInt (ty : IntType) (w : bytes) (order : ByteOrder) : outcome Z :=
  let* b := subspan w 0 (ty_size ty) in Ret (readScanScalar ty b order).
Definition readFloat (ft : FloatType) (w : bytes) (order : ByteOrder) : outcome spec_float :=
  let* b := subspan w 0 (ft_size ft) in Ret (readScanFloat ft b order).
Definition nextInteger (ty : IntType) (config : ScanConfig) (currentVal oldVal : bytes) : outcome bool :=
  let* cur := readInt ty currentVal (sc_byteOrder config) in
  let* old := readInt ty oldVal (sc_byteOrder config) in
  Ret (compareNextInteger ty config cur old).
Definition nextFloat (ft : FloatType) (config : ScanConfig) (currentVal oldVal : bytes) : outcome bool :=
  let* cur := readFloat ft currentVal (sc_byteOrder config) in
  let* old := readFloat ft oldVal (sc_byteOrder config) in
  Ret (compareNextFloat ft config cur old).

(** ** The exact integer of an all-types scan *)

Definition isLiteralCompare (cmp : ScanCompare) : bool :=
  match cmp with CmpExact | CmpGreater | CmpLess | CmpBetween => true | _ => false end.
Definition compareAllIntegerLiteral (config : ScanConfig) (current : Z) : bool :=
  match sc_allIntegerValue config with
  | Some lower =>
      if negb (isLiteralCompare (sc_compareType config))
      then getCompare (sc_compareType config) current (sc_intValue config) (sc_intValue2 config)
      else if unordered lower then false
      else
        let order := compare lower current in
        match sc_compareType config with
        | CmpExact => order =? 0
        | CmpGreater => 0 <? order
        | CmpLess => order <? 0
        | CmpBetween =>
            match sc_allIntegerValue2 config with
            | Some value2 =>
                if unordered value2 then false else
                let upper := compare value2 current in
                ((0 <=? order) && (upper <=? 0)) || ((0 <=? upper) && (order <=? 0))
            | None => false
            end
        | _ => false
        end
  | None => getCompare (sc_compareType config) current (sc_intValue config) (sc_intValue2 config)
  end.
Definition otherSignedness (ty : IntType) (value : Z) : Z :=
  if ty_signed ty then wrap (ty_size ty * 8) value else to_signed (ty_size ty * 8) value.
Definition matchesUnsigned64 (config : ScanConfig) (current : Z) : bool :=
  bool_decide (sc_compareType config = CmpExact) &&
  match sc_allIntegerValue config with
  | Some value => negb (negative value) && negb (fractional value) && negb (outsideMagnitude value) && negb (unordered value) &&
                  (2 ^ 63 - 1 <? magnitude value) && (magnitude value =? current)
  | None => false
  end.
Definition compareNextAllInteger (config : ScanConfig) (current old : Z) : bool :=
  match sc_allIntegerValue config with
  | Some value =>
      if usesPercentage config || negb (isLiteralCompare (sc_compareType config) || isChangedBy config)
      then compareNextInteger int64 config current old
      else if isChangedBy config then
        if negative value || fractional value || outsideMagnitude value || unordered value then false
        else
          let increased := isIncreasedBy config in
          if (if increased then current <=? old else old <=? current) then false
          else (if increased then u64 (u64 current - u64 old) else u64 (u64 old - u64 current)) =? magnitude value
      else compareAllIntegerLiteral config current
  | None => compareNextInteger int64 config current old
  end.

(** The integer types of an all-types scan, by their bit; the floats are bits 4 and 5. *)
Definition candidateInts : list IntType := [uint8; int16; int32; int64].
(** An integer of a first all-types scan, and of a later one. *)
Definition firstIntMatches (config : ScanConfig) (ty : IntType) (current : Z) : bool :=
  compareAllIntegerLiteral config current
  || (bool_decide (sc_compareType config = CmpExact) && (ty_size ty <? 8) && compareAllIntegerLiteral config (otherSignedness ty current))
  || ((ty_size ty =? 8) && matchesUnsigned64 config (u64 current)).
Definition nextIntMatches (config : ScanConfig) (ty : IntType) (value previous : Z) : bool :=
  compareNextAllInteger config value previous
  || (bool_decide (sc_compareType config = CmpExact) && (ty_size ty <? 8)
      && compareNextAllInteger config (otherSignedness ty value) (otherSignedness ty previous))
  || ((ty_size ty =? 8) && matchesUnsigned64 config (u64 value)).
Definition nextFloatMatches (config : ScanConfig) (ft : FloatType) (value previous : spec_float) : bool :=
  if isLiteralCompare (sc_compareType config) && negb (usesPercentage config)
  then compareAllFloatingLiteral ft config value else compareNextFloat ft config value previous.

(** [nextAllTypeCandidates]: the bits of the candidates that still match. *)
Definition candidateBit (candidates bit : Z) (test : outcome bool) : outcome Z :=
  if hasBit candidates bit then let* match_ := test in Ret (if match_ : bool then maskBit bit else 0) else Ret 0.
Definition candidateInt (config : ScanConfig) (candidates bit : Z) (ty : IntType) (current reference : bytes) : outcome Z :=
  candidateBit candidates bit
    (let* value := readInt ty current (sc_byteOrder config) in
     let* previous := readInt ty reference (sc_byteOrder config) in
     Ret (nextIntMatches config ty value previous)).
Definition candidateFloat (config : ScanConfig) (candidates bit : Z) (ft : FloatType) (current reference : bytes) : outcome Z :=
  candidateBit candidates bit
    (let* value := readFloat ft current (sc_byteOrder config) in
     let* previous := readFloat ft reference (sc_byteOrder config) in
     Ret (nextFloatMatches config ft value previous)).
Definition nextAllTypeCandidates (config : ScanConfig) (candidates : Z) (current old first : bytes) : outcome Z :=
  let reference := if bool_decide (sc_compareType config = CmpSameAsFirst) then first else old in
  let* b0 := candidateInt config candidates 0 uint8 current reference in
  let* b1 := candidateInt config candidates 1 int16 current reference in
  let* b2 := candidateInt config candidates 2 int32 current reference in
  let* b3 := candidateInt config candidates 3 int64 current reference in
  let* b4 := candidateFloat config candidates 4 single current reference in
  let* b5 := candidateFloat config candidates 5 double current reference in
  Ret (Z.lor (Z.lor (Z.lor b0 b1) (Z.lor b2 b3)) (Z.lor b4 b5)).

(** ** Grouped blocks *)

Definition intMatches (ty : IntType) (value : bytes) (order : ByteOrder) (wanted : Z) : outcome bool :=
  let* current := readInt ty value order in Ret (current =? castInt ty wanted).
Definition floatMatches (ft : FloatType) (config : ScanConfig) (value : bytes) (wanted : spec_float) : outcome bool :=
  let* current := readFloat ft value (sc_byteOrder config) in Ret (compareFloatingExact ft config current wanted).
(** The masked bytes of a binary pattern; [false] when the mask has another length. *)
Definition binaryMatches (value pattern mask : bytes) : outcome bool :=
  if negb (len mask =? len pattern) then Ret false else
  allFrom (length pattern) 1 (λ i,
    let* v := at_ value i in
    let* m := at_ mask i in
    let* p := at_ pattern i in
    Ret (Z.land v m =? Z.land p m)) 0.
Definition groupedTermMatches (value : bytes) (term : GroupedTerm) (config : ScanConfig) : outcome bool :=
  match g_type term with
  | VByte => intMatches uint8 value (sc_byteOrder config) (g_int term)
  | VInt16 => intMatches int16 value (sc_byteOrder config) (g_int term)
  | VInt32 => intMatches int32 value (sc_byteOrder config) (g_int term)
  | VInt64 => intMatches int64 value (sc_byteOrder config) (g_int term)
  | VPointer => intMatches (if sc_pointerWidth config =? 4 then uint32 else uint64) value (sc_byteOrder config) (g_int term)
  | VFloat => floatMatches single config value (g_float term)
  | VDouble => floatMatches double config value (g_float term)
  | VString => stringBytesMatch value (g_string term) (len (g_string term)) (sc_caseSensitive config) false Little
  | VUnicodeString => stringBytesMatch value (g_bytes term) (len (g_bytes term)) (sc_caseSensitive config) true (sc_byteOrder config)
  | VByteArray => compareMaskedBytes value (g_bytes term) (g_arrayMask term)
  | VBinary => binaryMatches value (g_bytes term) (g_bitMask term)
  | _ => Ret false
  end.
Fixpoint groupedTermsMatch (terms : list GroupedTerm) (block : bytes) (blockSize : Z) (config : ScanConfig) : outcome bool :=
  match terms with
  | [] => Ret true
  | term :: terms =>
      let termSize := groupedTermValueSize utf16Known term (sc_pointerWidth config) in
      if (termSize =? 0) || (blockSize <? termSize) || (blockSize - termSize <? g_offset term) then Ret false else
      let* m := groupedTermMatches (from block (g_offset term)) term config in
      if m : bool then groupedTermsMatch terms block blockSize config else Ret false
  end.
Definition groupedBlockMatches (block : bytes) (blockSize : Z) (config : ScanConfig) : outcome bool :=
  groupedTermsMatch (sc_groupedTerms config) block blockSize config.
Definition groupedSize (config : ScanConfig) : Z := groupedValueSize utf16Known (sc_groupedTerms config) (sc_pointerWidth config) 0.

(** ** The predicate of a next scan *)

(** The size of a record; [None] is the exception of the encoder. *)
Definition valueSizeForConfig (config : ScanConfig) : option Z :=
  match sc_valueType config with
  | VString => (λ n, Z.max 1 n) <$> stringValueSize config
  | VUnicodeString => (λ b, Z.max 2 (len b)) <$> utf16Bytes (sc_stringValue config) (sc_byteOrder config)
  | VByteArray | VBinary => Some (Z.max 1 (len (sc_byteArray config)))
  | VAll => Some 8
  | VGrouped => Some (Z.max 1 (groupedSize config))
  | VCustom => Some (Z.max 1 (sc_customValueSize config))
  | VByte => Some 1
  | VInt16 => Some 2
  | VInt32 | VFloat => Some 4
  | VPointer => Some (sc_pointerWidth config)
  | VInt64 | VDouble => Some 8
  end.

(** [CustomFormulaEvaluator::eval] as its callers use it: no formula never matches. *)
Definition evalFormula (config : ScanConfig) (current old : bytes) (valueSize : Z) (hasOld : bool) : bool :=
  negb (bool_decide (sc_customFormula config = [])) && formulaMatches (sc_customFormula config) current old valueSize hasOld.
(** [std::memcmp(a, b, n) == 0]. *)
Definition memEqual (a b : bytes) (n : Z) : outcome bool :=
  let* x := subspan a 0 n in let* y := subspan b 0 n in Ret (bytes_eqb x y).
Definition isCompare (config : ScanConfig) (cmp : ScanCompare) : bool := bool_decide (sc_compareType config = cmp).
(** The branches of text, byte arrays and binary values, which differ in the exact test. *)
Definition bytesCompare (config : ScanConfig) (valueSize : Z) (currentVal oldVal firstVal : bytes) (exact : outcome bool) : outcome bool :=
  if isCompare config CmpSameAsFirst then memEqual currentVal firstVal valueSize
  else if compareIndex CmpChanged <=? compareIndex (sc_compareType config) then
    let* same := memEqual currentVal oldVal valueSize in
    Ret (Bool.eqb (negb same) (isCompare config CmpChanged || isCompare config CmpIncreased || isCompare config CmpDecreased))
  else if isCompare config CmpExact then exact
  else Ret (isCompare config CmpUnknown).
(** The branches of grouped and custom values. *)
Definition blockCompare (config : ScanConfig) (valueSize : Z) (currentVal oldVal compareVal : bytes) (exact : outcome bool) : outcome bool :=
  if isCompare config CmpUnknown then Ret true
  else if isCompare config CmpChanged then let* same := memEqual currentVal oldVal valueSize in Ret (negb same)
  else if isCompare config CmpUnchanged || isCompare config CmpSameAsFirst then memEqual currentVal compareVal valueSize
  else if isCompare config CmpExact then exact
  else Ret false.
Definition nextScanCompare (config : ScanConfig) (valueSize : Z) (currentVal oldVal firstVal stringNeedle unicodeNeedle : bytes) : outcome bool :=
  let compareVal := if isCompare config CmpSameAsFirst then firstVal else oldVal in
  match sc_valueType config with
  | VByte => nextInteger uint8 config currentVal compareVal
  | VInt16 => nextInteger int16 config currentVal compareVal
  | VInt32 => nextInteger int32 config currentVal compareVal
  | VInt64 => nextInteger int64 config currentVal compareVal
  | VPointer => nextInteger (if sc_pointerWidth config =? 4 then uint32 else uint64) config currentVal compareVal
  | VFloat => nextFloat single config currentVal compareVal
  | VDouble => nextFloat double config currentVal compareVal
  | VString =>
      bytesCompare config valueSize currentVal oldVal firstVal
        (if len stringNeedle =? valueSize
         then stringBytesMatch currentVal stringNeedle valueSize (sc_caseSensitive config) false Little else Ret false)
  | VUnicodeString =>
      bytesCompare config valueSize currentVal oldVal firstVal
        (if len unicodeNeedle =? valueSize
         then stringBytesMatch currentVal unicodeNeedle valueSize (sc_caseSensitive config) true (sc_byteOrder config) else Ret false)
  | VByteArray =>
      bytesCompare config valueSize currentVal oldVal firstVal
        (compareMaskedBytes currentVal (sc_byteArray config) (sc_byteArrayMask config))
  | VBinary =>
      bytesCompare config valueSize currentVal oldVal firstVal
        (if bool_decide (sc_byteArray config = []) then Ret false
         else binaryMatches currentVal (sc_byteArray config) (sc_byteMask config))
  | VGrouped => blockCompare config valueSize currentVal oldVal compareVal (groupedBlockMatches currentVal valueSize config)
  | VCustom =>
      blockCompare config valueSize currentVal oldVal compareVal
        (let* cur := subspan currentVal 0 valueSize in
         let* old := subspan compareVal 0 valueSize in
         Ret (evalFormula config cur old valueSize true))
  | VAll =>
      if isCompare config CmpSameAsFirst then memEqual currentVal firstVal valueSize
      else let* same := memEqual currentVal oldVal valueSize in Ret (Bool.eqb (negb same) (isCompare config CmpChanged))
  end.
End Compare.

(** ** The comparisons read only the values they are given *)

Section Defined.
Context {lib : Library}.

Lemma readInt_ret ty w order : ty_ok ty → ty_size ty ≤ len w → ∃ v, readInt ty w order = Ret v.
Proof.
  intros Hty Hw. pose proof (ty_size_range ty Hty). unfold readInt. destruct (subspan_defined w 0 (ty_size ty)) as [-> _]; [lia..|]. by eexists.
Qed.
Lemma readFloat_ret ft w order : 0 ≤ ft_size ft ≤ len w → ∃ v, readFloat ft w order = Ret v.
Proof. intros Hw. unfold readFloat. destruct (subspan_defined w 0 (ft_size ft)) as [-> _]; [lia..|]. by eexists. Qed.
Lemma nextInteger_ret ty config cur old : ty_ok ty → ty_size ty ≤ len cur → ty_size ty ≤ len old → ∃ b, nextInteger ty config cur old = Ret b.
Proof.
  intros Hty Hc Ho. unfold nextInteger. destruct (readInt_ret ty cur (sc_byteOrder config) Hty Hc) as [v ->].
  destruct (readInt_ret ty old (sc_byteOrder config) Hty Ho) as [v' ->]. by eexists.
Qed.
Lemma nextFloat_ret ft config cur old : 0 ≤ ft_size ft → ft_size ft ≤ len cur → ft_size ft ≤ len old → ∃ b, nextFloat ft config cur old = Ret b.
Proof.
  intros Hft Hc Ho. unfold nextFloat. destruct (readFloat_ret ft cur (sc_byteOrder config)) as [v ->]; [lia|].
  destruct (readFloat_ret ft old (sc_byteOrder config)) as [v' ->]; [lia|]. by eexists.
Qed.
Lemma memEqual_ret a b n : 0 ≤ n ≤ len a → n ≤ len b → ∃ r, memEqual a b n = Ret r.
Proof.
  intros Ha Hb. unfold memEqual. destruct (subspan_defined a 0 n) as [-> _]; [lia..|]. destruct (subspan_defined b 0 n) as [-> _]; [lia..|]. by eexists.
Qed.
Lemma allFrom_steps n step test i : (∀ k, 0 ≤ k < Z.of_nat n → ∃ b, test (i + step * k) = Ret b) → ∃ b, allFrom n step test i = Ret b.
Proof.
  intros Ht. exists (allSeq n step (λ i, match test i with Ret b => b | _ => false end) i). apply allFrom_ret. intros k Hk.
  destruct (Ht k Hk) as [b Hb]. by rewrite Hb.
Qed.
Lemma allFrom_defined n test : (∀ i, 0 ≤ i < Z.of_nat n → ∃ b, test i = Ret b) → ∃ b, allFrom n 1 test 0 = Ret b.
Proof. intros Ht. apply allFrom_steps. intros k Hk. replace (0 + 1 * k) with k by lia. by apply Ht. Qed.
Lemma stringMatch_ret v needle cs unicode order : len needle ≤ len v → ∃ b, stringBytesMatch v needle (len needle) cs unicode order = Ret b.
Proof.
  intros Hv. pose proof (len_nonneg needle). unfold stringBytesMatch. destruct cs; [|destruct unicode].
  - destruct (subspan_defined v 0 (len needle)) as [-> _]; [lia..|]. destruct (subspan_defined needle 0 (len needle)) as [-> _]; [lia..|]. by eexists.
  - destruct (Z.eqb_spec (len needle mod 2) 0) as [Hm|]; cbn [negb]; [|by eexists]. apply allFrom_steps. intros k Hk.
    pose proof (Z.div_mod (len needle) 2 ltac:(lia)).
    assert (∀ d, 0 ≤ d ≤ 1 → ∃ a b, at_ v (0 + 2 * k + d) = Ret a ∧ at_ needle (0 + 2 * k + d) = Ret b) as Hat.
    { intros d Hd. destruct (at_defined v (0 + 2 * k + d)) as (a & ? & _); [lia|]. destruct (at_defined needle (0 + 2 * k + d)) as (b & ? & _); [lia|]. eauto. }
    destruct (Hat (if bool_decide (order = Big) then 0 else 1)) as (a & b & -> & ->); [case_match; lia|]. cbn [obind].
    destruct (negb (a =? b)); [by eexists|].
    destruct (Hat (if bool_decide (order = Big) then 1 else 0)) as (a' & b' & -> & ->); [case_match; lia|]. cbn [obind]. destruct (_ && _); by eexists.
  - apply allFrom_defined. intros i Hi. destruct (at_defined v i) as (a & -> & _); [lia|]. destruct (at_defined needle i) as (b & -> & _); [lia|]. by eexists.
Qed.
Lemma maskedBytes_ret cur pattern mask : len pattern ≤ len cur → ∃ b, compareMaskedBytes cur pattern mask = Ret b.
Proof.
  intros Hl. unfold compareMaskedBytes. destruct (bool_decide _); [by eexists|]. apply allFrom_defined. intros i Hi. fold (len pattern) in Hi.
  assert (∃ m, (if i <? len mask then at_ mask i else Ret 255) = Ret m) as [m ->].
  { destruct (Z.ltb_spec i (len mask)); [|by eexists]. destruct (at_defined mask i) as (m & -> & _); [lia|]. by eexists. }
  destruct (at_defined cur i) as (c & -> & _); [lia|]. destruct (at_defined pattern i) as (p & -> & _); [lia|]. by eexists.
Qed.
Lemma binaryMatches_ret cur pattern mask : len pattern ≤ len cur → ∃ b, binaryMatches cur pattern mask = Ret b.
Proof.
  intros Hl. unfold binaryMatches. destruct (Z.eqb_spec (len mask) (len pattern)); [|by eexists]. cbn [negb]. apply allFrom_defined. intros i Hi. fold (len pattern) in Hi.
  destruct (at_defined cur i) as (c & -> & _); [lia|]. destruct (at_defined mask i) as (m & -> & _); [lia|]. destruct (at_defined pattern i) as (p & -> & _); [lia|]. by eexists.
Qed.

(** What [targetScanConfig] establishes: a pointer width where one is needed, and text terms
    encoded in the order of the target, which takes as many bytes as in the other order. *)
Record config_ok (config : ScanConfig) : Prop := {
  ck_width : sc_pointerWidth config = 0 ∨ sc_pointerWidth config = 4 ∨ sc_pointerWidth config = 8;
  ck_pointer : sc_valueType config = VPointer → sc_pointerWidth config ≠ 0;
  ck_terms : Forall (λ term, g_type term = VUnicodeString → len (g_bytes term) = len (utf16Known (g_string term) Little)) (sc_groupedTerms config);
  ck_offsets : Forall (λ term, 0 ≤ g_offset term) (sc_groupedTerms config)
}.
Lemma groupedTerm_ret value term config : config_ok config → term ∈ sc_groupedTerms config →
  groupedTermValueSize utf16Known term (sc_pointerWidth config) ≠ 0 →
  groupedTermValueSize utf16Known term (sc_pointerWidth config) ≤ len value → ∃ b, groupedTermMatches value term config = Ret b.
Proof.
  intros [Hw _ Ht _] Hin Hne Hl. rewrite Forall_forall in Ht. specialize (Ht term Hin).
  assert (∀ ty, ty_ok ty → ty_size ty ≤ len value → ∃ b, intMatches ty value (sc_byteOrder config) (g_int term) = Ret b) as Hint.
  { intros ty Hty Hs. unfold intMatches. destruct (readInt_ret ty value (sc_byteOrder config) Hty Hs) as [v ->]. by eexists. }
  assert (∀ ft, 0 ≤ ft_size ft ≤ len value → ∃ b, floatMatches ft config value (g_float term) = Ret b) as Hfloat.
  { intros ft Hs. unfold floatMatches. destruct (readFloat_ret ft value (sc_byteOrder config) Hs) as [v ->]. by eexists. }
  unfold groupedTermMatches, groupedTermValueSize in *. destruct (g_type term); try (by eexists);
    try (apply Hint; unfold ty_ok; cbn; lia); try (apply Hfloat; cbn; lia);
    try (apply stringMatch_ret; (lia || rewrite Ht by done; lia)).
  - apply maskedBytes_ret. lia.
  - apply binaryMatches_ret. lia.
  - destruct Hw as [Hw|[Hw|Hw]]; rewrite Hw in *; cbn; try done; apply Hint; unfold ty_ok; cbn; lia.
Qed.
Lemma groupedTerms_ret terms block config : config_ok config → (∀ term, term ∈ terms → term ∈ sc_groupedTerms config) →
  ∃ b, groupedTermsMatch terms block (len block) config = Ret b.
Proof.
  intros Hok. induction terms as [|term terms IH]; intros Hin; [by eexists|]. cbn [groupedTermsMatch].
  destruct (Z.eqb_spec (groupedTermValueSize utf16Known term (sc_pointerWidth config)) 0) as [|Hne]; cbn [orb]; [by eexists|].
  destruct (Z.ltb_spec (len block) (groupedTermValueSize utf16Known term (sc_pointerWidth config))) as [|Hs]; cbn [orb]; [by eexists|].
  destruct (Z.ltb_spec (len block - groupedTermValueSize utf16Known term (sc_pointerWidth config)) (g_offset term)) as [|Ho]; cbn [orb]; [by eexists|].
  assert (term ∈ sc_groupedTerms config) as Hterm by (apply Hin; by left). pose proof (ck_offsets _ Hok) as Hoff. rewrite Forall_forall in Hoff. specialize (Hoff term Hterm).
  destruct (groupedTerm_ret (from block (g_offset term)) term config Hok Hterm Hne) as [b ->].
  { unfold from, len in *. rewrite length_drop. lia. }
  cbn [obind]. destruct b; [|by eexists]. apply IH. intros term' Ht'. apply Hin. by right.
Qed.

(** The sizes of the types. *)
Lemma valueSize_pos config vs : config_ok config → valueSizeForConfig config = Some vs → 0 < vs.
Proof.
  intros [Hw Hp _ _]. unfold valueSizeForConfig. destruct (sc_valueType config) eqn:Hvt; try (intros [= <-]; lia).
  - destruct (stringValueSize config); cbn; [intros [= <-]; lia|done].
  - destruct (utf16Bytes _ _); cbn; [intros [= <-]; lia|done].
  - intros [= <-]. specialize (Hp eq_refl). lia.
Qed.
Lemma bytesCompare_ret config vs cur old first exact : 0 ≤ vs ≤ len cur → vs ≤ len old → vs ≤ len first → (∃ b, exact = Ret b) →
  ∃ b, bytesCompare config vs cur old first exact = Ret b.
Proof.
  intros Hc Ho Hf [b ->]. unfold bytesCompare. destruct (isCompare config CmpSameAsFirst); [by apply memEqual_ret|].
  destruct (_ <=? _); [destruct (memEqual_ret cur old vs) as [r ->]; [done..|]; by eexists|]. destruct (isCompare config CmpExact); by eexists.
Qed.
Lemma blockCompare_ret config vs cur old compareVal exact : 0 ≤ vs ≤ len cur → vs ≤ len old → vs ≤ len compareVal → (∃ b, exact = Ret b) →
  ∃ b, blockCompare config vs cur old compareVal exact = Ret b.
Proof.
  intros Hc Ho Hf [b ->]. unfold blockCompare. destruct (isCompare config CmpUnknown); [by eexists|].
  destruct (isCompare config CmpChanged); [destruct (memEqual_ret cur old vs) as [r ->]; [done..|]; by eexists|].
  destruct (_ || _); [by apply memEqual_ret|]. destruct (isCompare config CmpExact); by eexists.
Qed.
Lemma nextScanCompare_ret config vs cur old first stringNeedle unicodeNeedle : config_ok config → valueSizeForConfig config = Some vs →
  len cur = vs → vs ≤ len old → vs ≤ len first → ∃ b, nextScanCompare config vs cur old first stringNeedle unicodeNeedle = Ret b.
Proof.
  intros Hok Hvs Hc Ho Hf. pose proof (valueSize_pos _ _ Hok Hvs). unfold nextScanCompare. cbv zeta.
  set (compareVal := if isCompare config CmpSameAsFirst then first else old).
  assert (vs ≤ len compareVal) as Hcv by (unfold compareVal; by destruct (isCompare _ _)).
  assert (∀ needle unicode order, ∃ b, (if len needle =? vs then stringBytesMatch cur needle vs (sc_caseSensitive config) unicode order else Ret false) = Ret b) as Htext.
  { intros needle unicode order. destruct (Z.eqb_spec (len needle) vs) as [<-|]; [|by eexists]. apply stringMatch_ret. lia. }
  unfold valueSizeForConfig in Hvs. destruct (sc_valueType config) eqn:Hvt;
    try (injection Hvs as Hvs; (apply nextInteger_ret || apply nextFloat_ret); unfold ty_ok; cbn; lia);
    try (apply bytesCompare_ret; [lia..|by apply Htext]).
  - injection Hvs as Hvs. apply bytesCompare_ret; [lia..|]. apply maskedBytes_ret. lia.
  - injection Hvs as Hvs. apply bytesCompare_ret; [lia..|]. destruct (bool_decide _); [by eexists|]. apply binaryMatches_ret. lia.
  - destruct (isCompare _ _); [apply memEqual_ret; lia|]. destruct (memEqual_ret cur old vs) as [r ->]; [lia..|]. by eexists.
  - apply blockCompare_ret; [lia..|]. rewrite <- Hc. by apply groupedTerms_ret.
  - apply blockCompare_ret; [lia..|]. destruct (subspan_defined cur 0 vs) as [-> _]; [lia..|]. destruct (subspan_defined compareVal 0 vs) as [-> _]; [lia..|]. by eexists.
  - injection Hvs as Hvs. pose proof (ck_pointer _ Hok Hvt). destruct (ck_width _ Hok) as [Hw|[Hw|Hw]]; [done|..]; rewrite Hw in *; cbn; apply nextInteger_ret; unfold ty_ok; cbn; lia.
Qed.
(** The candidates kept are types of an all-types scan. *)
Lemma candidateBit_ret candidates bit test : (∃ b, test = Ret b) → candidateBit candidates bit test = Ret 0 ∨ candidateBit candidates bit test = Ret (maskBit bit).
Proof. intros [b ->]. unfold candidateBit. destruct (hasBit _ _); [|by left]. destruct b; [by right|by left]. Qed.
Lemma nextAll_ret config candidates cur old first : 8 ≤ len cur → 8 ≤ len old → 8 ≤ len first →
  ∃ m, nextAllTypeCandidates config candidates cur old first = Ret m ∧ (m ≠ 0 → validMask m = true).
Proof.
  intros Hc Ho Hf. unfold nextAllTypeCandidates. cbv zeta. set (reference := if bool_decide _ then first else old).
  assert (8 ≤ len reference) as Hr by (unfold reference; by case_bool_decide).
  assert (∀ bit ty, ty_ok ty → candidateInt config candidates bit ty cur reference = Ret 0 ∨ candidateInt config candidates bit ty cur reference = Ret (maskBit bit)) as Hint.
  { intros bit ty Hty. pose proof (ty_size_range ty Hty). apply candidateBit_ret. destruct (readInt_ret ty cur (sc_byteOrder config) Hty) as [v ->]; [lia|].
    destruct (readInt_ret ty reference (sc_byteOrder config) Hty) as [v' ->]; [lia|]. by eexists. }
  assert (∀ bit ft, 0 ≤ ft_size ft ≤ 8 → candidateFloat config candidates bit ft cur reference = Ret 0 ∨ candidateFloat config candidates bit ft cur reference = Ret (maskBit bit)) as Hfloat.
  { intros bit ft Hft. apply candidateBit_ret. destruct (readFloat_ret ft cur (sc_byteOrder config)) as [v ->]; [lia|].
    destruct (readFloat_ret ft reference (sc_byteOrder config)) as [v' ->]; [lia|]. by eexists. }
  destruct (Hint 0 uint8 ltac:(by left)) as [-> | ->], (Hint 1 int16 ltac:(by right; left)) as [-> | ->], (Hint 2 int32 ltac:(by right; right; left)) as [-> | ->],
    (Hint 3 int64 ltac:(by right; right; right)) as [-> | ->], (Hfloat 4 single ltac:(cbn; lia)) as [-> | ->], (Hfloat 5 double ltac:(cbn; lia)) as [-> | ->];
    cbn [obind]; eexists; (split; [reflexivity|]); vm_compute; done.
Qed.
End Defined.
