(* ===== verification/ValueIo.v ===== *)
(** * Reading and writing typed values

    Models [src/core/value_io.cpp]: a value of the cheat table as text, its bytes in the
    target, and comparing the two.  The process is the class [ValueProcess]; the conversion of
    floating-point numbers from and to text and of character sets are the classes [ValueText]
    and [Library]. *)

From Stdlib Require Import SpecFloat.
From S2P Require Import Prelude Numeral TargetMachine Types ValueCodec Loops ScanBuffers ScanConfig ScanNumber Floating NextCompare.
#[local] Open Scope Z_scope.

(** ** Parameters *)

Class ValueText := {
  vt_double : bytes → option Z;  (* [from_chars] of the whole text: the bits of a [double] *)
  vt_float : bytes → option Z;  (* the bits of a [float], [None] when it is out of range *)
  vt_toChars : FloatType → Z → option bytes;
  vt_decode : bytes → bytes → bytes;  (* [decodeStringBytes] of other encodings than UTF-8 *)
  vt_iconvError : bytes → bytes  (* what the exception of [encodeStringBytes] says *)
}.
Class ValueProcess := {
  vstate : Type;
  vp_machineAt : Z → vstate → TargetMachine;
  vp_read : Z → Z → vstate → bytes + bytes;  (* the error, or what was read *)
  vp_write : Z → bytes → vstate → (bytes + Z) * vstate
}.
Record ValueIoOptions := mkValueIo {
  vo_hex : bool; vo_isSigned : bool; vo_bigEndian : bool; vo_byteOrder : option ByteOrder; vo_terminate : bool; vo_size : Z;
  vo_pointerWidth : Z; vo_pointerWidthOverride : option Z; vo_encoding : bytes; vo_codec : ValueCodec
}.

Section ValueIo.
Context {lib : Library} {text : ValueText}.

Definition isTrimmed (c : Z) : bool := (c =? " "%chr) || (c =? 9) || (c =? 13) || (c =? 10).
Fixpoint trimLeft (s : bytes) : bytes := match s with c :: s' => if isTrimmed c then trimLeft s' else s | [] => [] end.
Definition trim (s : bytes) : bytes := reverse (trimLeft (reverse (trimLeft s))).
Definition width (type : ValueType) (o : ValueIoOptions) : Z :=
  if bool_decide (type = VPointer) then default (vo_pointerWidth o) (vo_pointerWidthOverride o) else scalarWidth type.
Definition integer (type : ValueType) : bool := isIntegerScalar type || bool_decide (type = VPointer).

Definition nameIs (token : bytes) (names : list string) : bool := existsb (λ n, bytes_eqb token (bs n)) names.
Definition parseValueType (name : bytes) : option ValueType :=
  let token := lowerCopy (trim name) in
  if nameIs token ["byte"; "i8"; "u8"]%string then Some VByte else
  if nameIs token ["i16"; "u16"; "int16"; "2 bytes"]%string then Some VInt16 else
  if nameIs token ["i32"; "u32"; "int32"; "4 bytes"]%string then Some VInt32 else
  if nameIs token ["i64"; "u64"; "int64"; "8 bytes"]%string then Some VInt64 else
  if nameIs token ["pointer"; "ptr"]%string then Some VPointer else
  if nameIs token ["float"; "f32"]%string then Some VFloat else
  if nameIs token ["double"; "f64"]%string then Some VDouble else
  if nameIs token ["string"; "utf8"; "utf-8"]%string then Some VString else
  if nameIs token ["unicode"; "utf16"; "utf-16"; "unicodestring"]%string then Some VUnicodeString else
  if nameIs token ["aob"; "bytes"; "bytearray"; "array of byte"]%string then Some VByteArray else
  if nameIs token ["binary"]%string then Some VBinary else
  if nameIs token ["all"]%string then Some VAll else
  if nameIs token ["grouped"; "group"]%string then Some VGrouped else
  if nameIs token ["custom"]%string then Some VCustom else None.

Definition bigEndianEncoding (o : ValueIoOptions) : bool :=
  match vo_byteOrder o with Some order => bool_decide (order = Big) | None => vo_bigEndian o end.
Definition knownOrder (order : ByteOrder) : bool := bool_decide (order = Little) || bool_decide (order = Big).
Definition ordered (type : ValueType) : bool := negb (bool_decide (type = VByteArray)) && negb (bool_decide (type = VString)).
Definition withMachine (o : ValueIoOptions) (pointerWidth : Z) (order : option ByteOrder) : ValueIoOptions :=
  mkValueIo (vo_hex o) (vo_isSigned o) (vo_bigEndian o) order (vo_terminate o) (vo_size o) pointerWidth (vo_pointerWidthOverride o) (vo_encoding o) (vo_codec o).
(** The options with what the target says where they leave it open, or the error. *)
Definition resolveTargetOptions (machine : TargetMachine) (type : ValueType) (o : ValueIoOptions) : bytes + ValueIoOptions :=
  let pw := default (pointerWidth machine) (vo_pointerWidthOverride o) in
  let badWidth := negb (pw =? 4) && negb (pw =? 8) in
  if bool_decide (vo_pointerWidthOverride o ≠ None) && badWidth then inl (bs "Pointer width must be 4 or 8 bytes") else
  if bool_decide (type = VPointer) && badWidth then inl (bs "Target pointer width is unknown; select it explicitly") else
  if ordered type then
    let order := match vo_byteOrder o with Some order => order | None => if vo_bigEndian o then Big else byteOrder machine end in
    if negb (knownOrder order) then inl (bs "Target byte order is unknown or invalid; select it explicitly") else inr (withMachine o pw (Some order))
  else inr (withMachine o pw (vo_byteOrder o)).

(** ** Encoding *)

Definition isListDelimiter (c : Z) : bool := (c =? " "%chr) || (c =? ","%chr) || (c =? 9) || (c =? 13) || (c =? 10).
Fixpoint spanToken (s : bytes) : bytes * bytes :=
  match s with
  | c :: s' => if isListDelimiter c then ([], s) else let '(t, rest) := spanToken s' in (c :: t, rest)
  | [] => ([], [])
  end.
Fixpoint skipDelimiters (s : bytes) : bytes := match s with c :: s' => if isListDelimiter c then skipDelimiters s' else s | [] => [] end.
Definition stripHex (t : bytes) : bytes :=
  match t with z :: x :: t' => if (z =? "0"%chr) && ((x =? "x"%chr) || (x =? "X"%chr)) then t' else t | _ => t end.
Definition byteToken (t : bytes) : option Z :=
  match from_chars 32 16 (stripHex t) with Some (v, []) => if 255 <? v then None else Some v | _ => None end.
Fixpoint byteList (fuel : nat) (s : bytes) : option bytes :=
  match fuel with
  | O => Some []
  | S fuel =>
      if bool_decide (s = []) then Some [] else
      let '(t, rest) := spanToken s in
      b ← byteToken t; l ← byteList fuel (skipDelimiters rest); Some (b :: l)
  end.
(** The bits of a float. *)
Definition bitsOfFloat (ft : FloatType) (f : spec_float) : Z :=
  let mbits := ft_prec ft - 1 in
  let ebits := ft_size ft * 8 - ft_prec ft in
  let signBit (s : bool) := if s then 2 ^ (ft_size ft * 8 - 1) else 0 in
  match f with
  | S754_zero s => signBit s
  | S754_infinity s => signBit s + (2 ^ ebits - 1) * 2 ^ mbits
  | S754_nan => (2 ^ ebits - 1) * 2 ^ mbits + 2 ^ (mbits - 1)
  | S754_finite s m e => signBit s + (if Z.pos m <? 2 ^ mbits then Z.pos m else (e - emin (ft_prec ft) (ft_emax ft) + 1) * 2 ^ mbits + (Z.pos m - 2 ^ mbits))
  end.
Definition badNumber : bytes := bs "Enter a floating-point value, for example 2.5 or 2,5".
Definition encodeFloat (type : ValueType) (s : bytes) : bytes + Z :=
  let s := (λ c, if c =? ","%chr then "."%chr else c) <$> s in
  let token := match s with
               | c :: rest => if c =? "+"%chr then (match rest with d :: _ => if d =? "-"%chr then [] else rest | [] => rest end) else s
               | [] => s
               end in
  if bool_decide (token = []) then inl badNumber else
  match vt_double token with
  | None => inl badNumber
  | Some number =>
      if bool_decide (type = VFloat) then
        match vt_float token with
        | Some bits => inr bits
        | None =>
            if SFltb (doubleOfInt 1) (SFabs (floatOfBits double number)) then inl (bs "The value exceeds the float range; use double instead")
            else inr (bitsOfFloat single (narrow single (floatOfBits double number)))
        end
      else inr number
  end.
Definition encodeInteger (o : ValueIoOptions) (count : Z) (s : bytes) : bytes + Z :=
  match parseIntegerScalar s (vo_hex o) with
  | None => inl (bs "Enter a decimal integer or a hexadecimal value beginning with 0x")
  | Some parsed =>
      let bits := u64 parsed in
      let negative := match s with c :: _ => c =? "-"%chr | [] => false end in
      if (count <? 8) && ((negative && (parsed <? - 2 ^ (count * 8 - 1))) || (negb negative && (maskFor count <? bits)))
      then inl (bs "The value does not fit in " ++ to_string count ++ bs " bytes")
      else inr (if active (vo_codec o) then encode (vo_codec o) bits count else bits)
  end.
Definition encodeTypedValue (type : ValueType) (value : bytes) (o : ValueIoOptions) : bytes + bytes :=
  if ordered type && (match vo_byteOrder o with Some order => negb (knownOrder order) | None => false end) then inl (bs "Invalid data byte order") else
  if bool_decide (type = VPointer) && negb (width type o =? 4) && negb (width type o =? 8) then inl (bs "Pointer width must be 4 or 8 bytes") else
  if active (vo_codec o) && negb (integer type) then inl (bs "Value codecs require an integer or pointer type") else
  if bool_decide (type = VString) || bool_decide (type = VUnicodeString) then
    let encoding := if bool_decide (type = VUnicodeString) then (if bigEndianEncoding o then bs "UTF-16BE" else bs "UTF-16LE") else vo_encoding o in
    match encodeStringBytes (value ++ if vo_terminate o then [0] else []) encoding with Some b => inr b | None => inl (vt_iconvError encoding) end
  else if bool_decide (type = VByteArray) then
    let s := trim value in
    match byteList (S (length s)) s with
    | None => inl (bs "Byte arrays need concrete hexadecimal bytes, for example '90 90 48 8B'")
    | Some [] => inl (bs "Enter at least one byte")
    | Some b => inr b
    end
  else
    let count := width type o in
    if negb (count =? 1) && negb (count =? 2) && negb (count =? 4) && negb (count =? 8) then inl (bs "This type describes a scan, not a single editable value") else
    let s := trim value in
    match (if integer type then encodeInteger o count s else encodeFloat type s) with
    | inl e => inl e
    | inr bits => let b := le_bytes (Z.to_nat count) bits in inr (if bigEndianEncoding o then reverse b else b)
    end.

(** ** Decoding *)

Definition digitUpper (d : Z) : Z := if d <? 10 then "0"%chr + d else "A"%chr + (d - 10).
Fixpoint byteText (l : bytes) : bytes :=
  match l with
  | [] => []
  | [b] => [digitUpper (b / 16); digitUpper (b mod 16)]
  | b :: l => digitUpper (b / 16) :: digitUpper (b mod 16) :: " "%chr :: byteText l
  end.
Fixpoint untilNul (s : bytes) : bytes := match s with c :: s' => if c =? 0 then [] else c :: untilNul s' | [] => [] end.
Definition decodeString (data encoding : bytes) : bytes := if isUtf8Encoding encoding then data else vt_decode data encoding.
Definition formatFloatScalar (ft : FloatType) (bits : Z) : bytes :=
  match floatOfBits ft bits with
  | S754_nan => bs "nan"
  | S754_infinity s => if s then bs "-inf" else bs "inf"
  | _ => default [] (vt_toChars ft bits)
  end.
(** The bits of a scalar of 1, 2, 4 or 8 bytes. *)
Definition scalarBits (o : ValueIoOptions) (data : bytes) : outcome Z := decodeTargetUnsigned data (if bigEndianEncoding o then Big else Little).
Definition logicalBits (o : ValueIoOptions) (count bits : Z) : Z := if active (vo_codec o) then decode (vo_codec o) bits count else bits.
Definition decodeTypedValue (type : ValueType) (data : bytes) (o : ValueIoOptions) : outcome (bytes + bytes) :=
  if ordered type && (match vo_byteOrder o with Some order => negb (knownOrder order) | None => false end) then Ret (inl (bs "Invalid captured data byte order")) else
  let scalar := width type o in
  if bool_decide (type = VPointer) && negb (scalar =? 4) && negb (scalar =? 8) then Ret (inl (bs "Captured pointer width must be 4 or 8 bytes")) else
  let string := bool_decide (type = VString) || bool_decide (type = VUnicodeString) in
  if (scalar =? 0) && negb string && negb (bool_decide (type = VByteArray)) then Ret (inl (bs "This type describes a scan, not a single readable value")) else
  if active (vo_codec o) && negb (integer type) then Ret (inl (bs "Value codecs require an integer or pointer type")) else
  if bool_decide (data = []) || (negb (scalar =? 0) && negb (len data =? scalar)) then Ret (inl (bs "Captured value has an incomplete or incorrect width")) else
  if bool_decide (vo_byteOrder o = Some OrderUnknown) && ((1 <? scalar) || bool_decide (type = VUnicodeString)) then Ret (inl (bs "Captured value byte order is unknown")) else
  if string then
    let encoding := if bool_decide (type = VUnicodeString) then (if bigEndianEncoding o then bs "UTF-16BE" else bs "UTF-16LE") else vo_encoding o in
    match encodeStringBytes [] encoding with
    | None => Ret (inl (vt_iconvError encoding))
    | Some _ => Ret (inr (untilNul (decodeString data encoding)))
    end
  else if bool_decide (type = VByteArray) then Ret (inr (byteText data))
  else
    let* bits := deref (scalarBits o data) in
    let bits := logicalBits o scalar bits in
    Ret (inr (if integer type then formatIntegerScalar bits scalar (vo_isSigned o && negb (bool_decide (type = VPointer))) (vo_hex o || bool_decide (type = VPointer))
              else if bool_decide (type = VFloat) then formatFloatScalar single bits else formatFloatScalar double bits)).

(** ** The process *)

Context {proc : ValueProcess}.
Definition valueOptionsForTarget (address : Z) (type : ValueType) (o : ValueIoOptions) (s : vstate) : bytes + ValueIoOptions :=
  resolveTargetOptions (vp_machineAt address s) type o.
Definition readTypedValue (address : Z) (type : ValueType) (o : ValueIoOptions) (s : vstate) : outcome (bytes + bytes) :=
  match resolveTargetOptions (vp_machineAt address s) type o with
  | inl e => Ret (inl e)
  | inr o =>
      let scalar := width type o in
      let string := bool_decide (type = VString) || bool_decide (type = VUnicodeString) in
      if (scalar =? 0) && negb string && negb (bool_decide (type = VByteArray)) then Ret (inl (bs "This type describes a scan, not a single readable value")) else
      if active (vo_codec o) && negb (integer type) then Ret (inl (bs "Value codecs require an integer or pointer type")) else
      let count := if negb (scalar =? 0) then scalar else vo_size o in
      if (count =? 0) || (268435456 <? count) then Ret (inl (bs "Read size must be between 1 byte and 256 MiB")) else
      if UINTPTR_MAX - address <? count - 1 then Ret (inl (bs "The read range overflows the address space")) else
      match vp_read address count s with
      | inl e => Ret (inl e)
      | inr data =>
          if (count <? len data) || (negb string && negb (len data =? count)) || (len data =? 0) then Ret (inl (bs "Incomplete memory read"))
          else decodeTypedValue type data o
      end
  end.
(** [-1], [0] or [1]. *)
Definition order3 (less greater : bool) : Z := if less then -1 else if greater then 1 else 0.
Definition compareTypedValue (address : Z) (type : ValueType) (value : bytes) (o : ValueIoOptions) (s : vstate) : outcome (bytes + Z) :=
  match resolveTargetOptions (vp_machineAt address s) type o with
  | inl e => Ret (inl e)
  | inr o =>
      let count := width type o in
      if count <=? 0 then Ret (inl (bs "Directional freeze requires a numeric type")) else
      match encodeTypedValue type value o with
      | inl e => Ret (inl e)
      | inr desired =>
          if UINTPTR_MAX - address <? count - 1 then Ret (inl (bs "The read range overflows the address space")) else
          match vp_read address count s with
          | inl e => Ret (inl e)
          | inr current =>
              if negb (len current =? count) then Ret (inl (bs "Incomplete memory read")) else
              let* lhs := deref (scalarBits o current) in
              let* rhs := deref (scalarBits o desired) in
              let lhs := logicalBits o count lhs in
              let rhs := logicalBits o count rhs in
              Ret (inr (if integer type then
                          let flip := if vo_isSigned o && negb (bool_decide (type = VPointer)) then Z.shiftl 1 (count * 8 - 1) else 0 in
                          let lhs := Z.lxor lhs flip in let rhs := Z.lxor rhs flip in order3 (lhs <? rhs) (rhs <? lhs)
                        else
                          let ft := if bool_decide (type = VFloat) then single else double in
                          let lhs := toDouble (floatOfBits ft lhs) in let rhs := toDouble (floatOfBits ft rhs) in order3 (SFltb lhs rhs) (SFltb rhs lhs)))
          end
      end
  end.
Definition writeTypedValue (address : Z) (type : ValueType) (value : bytes) (o : ValueIoOptions) (s : vstate) : (bytes + Z) * vstate :=
  match resolveTargetOptions (vp_machineAt address s) type o with
  | inl e => (inl e, s)
  | inr o =>
      match encodeTypedValue type value o with
      | inl e => (inl e, s)
      | inr data =>
          if negb (bool_decide (data = [])) && (UINTPTR_MAX - address <? len data - 1) then (inl (bs "The write range overflows the address space"), s) else
          if bool_decide (data = []) then (inr 0, s) else
          match vp_write address data s with
          | (inl e, s) => (inl e, s)
          | (inr n, s) => (if negb (n =? len data) then inl (bs "Incomplete memory write") else inr n, s)
          end
      end
  end.
End ValueIo.
