(* ===== verification/ValueIoSpec.v ===== *)
(** * Typed values read back

    What is written to a target as the text of an integer or a pointer is what a read shows and
    what a compare finds, for every width, byte order and codec. *)

From S2P Require Import Prelude Numeral TargetMachine Types ValueCodec Loops ScanBuffers ScanConfig ScanNumber Floating NextCompare ValueIo.
#[local] Open Scope Z_scope.

(** ** Text *)

Lemma dropBlanks_last s c : isBlank c = false → ∃ s', dropBlanks (s ++ [c]) = s' ++ [c].
Proof. intros Hc. induction s as [|x s [s' IH]]; cbn; [rewrite Hc; by exists []|]. destruct (isBlank x); [by exists s'|]. by exists (x :: s). Qed.
Lemma trimBlanks_head c s : isBlank c = false → ∃ s', trimBlanks (c :: s) = c :: s'.
Proof.
  intros Hc. unfold trimBlanks. cbn [dropBlanks]. rewrite Hc, reverse_cons. destruct (dropBlanks_last (reverse s) c Hc) as [s' ->]. exists (reverse s'). by rewrite reverse_app.
Qed.
Lemma parseDigits_bound base s : 1 < base → ∀ val v, 0 ≤ val < 2 ^ 64 → parseDigits base val s = Some v → 0 ≤ v < 2 ^ 64.
Proof.
  intros Hb. induction s as [|c s IH]; intros val v Hval; cbn [parseDigits]; [by intros [= <-]|].
  match goal with |- context [mbind _ ?e] => destruct e as [d|] eqn:Ed; [|done] end. cbn [mbind option_bind].
  assert (0 ≤ d) by (revert Ed; unfold between; repeat case_match; intros [= <-]; rewrite ?andb_true_iff, ?Z.leb_le in *; lia).
  destruct (base <=? d); [done|]. destruct (Z.ltb_spec ((UINT64_MAX - d) / base) val) as [|Hle]; [done|]. apply IH. split; [nia|].
  assert (val * base ≤ UINT64_MAX - d); [|unfold UINT64_MAX in *; lia]. etransitivity; [apply Z.mul_le_mono_nonneg_r; [lia|exact Hle]|]. rewrite Z.mul_comm. apply Z.mul_div_le. lia.
Qed.
(** A number that is accepted has 64 bits; with a minus sign it is not positive. *)
Lemma parse_range s hex v : parseIntegerScalar s hex = Some v → - 2 ^ 63 ≤ v < 2 ^ 63 ∧ (head s = Some "-"%chr → v ≤ 0).
Proof.
  unfold parseIntegerScalar. intros H. case_bool_decide as Ht; [done|]. destruct (takeSign (trimBlanks s)) as [neg t1] eqn:Es. destruct (takeBase hex t1) as [base t2] eqn:Eb. case_bool_decide; [done|].
  assert (1 < base) by (unfold takeBase in Eb; repeat case_match; simplify_eq; lia). destruct (parseDigits base 0 t2) as [val|] eqn:Ed; [|done]. apply parseDigits_bound in Ed; [|done|lia]. cbn [mbind option_bind] in H.
  destruct (neg && (2 ^ 63 <? val)) eqn:En; [done|]. injection H as <-. split; [apply (to_signed_bound 64); lia|]. intros Hs. destruct s as [|c s]; [done|]. injection Hs as ->. destruct (trimBlanks_head "-"%chr s eq_refl) as [s' E].
  rewrite E in Es. cbn in Es. injection Es as <- <-. cbn [andb] in En. apply Z.ltb_ge in En. rewrite i64_neg by lia. lia.
Qed.

(** ** The number of an accepted text *)

Definition widths (n : Z) : Prop := n = 1 ∨ n = 2 ∨ n = 4 ∨ n = 8.
(** The number that [n] bytes of these bits are shown as. *)
Definition shown (o : ValueIoOptions) (type : ValueType) (n v : Z) : Z :=
  if vo_isSigned o && negb (bool_decide (type = VPointer)) then to_signed (n * 8) v else wrap (n * 8) v.
Lemma encodeInteger_spec o n s bits : widths n → encodeInteger o n s = inr bits → ∃ v, parseIntegerScalar s (vo_hex o) = Some v ∧
  (n = 8 ∨ - 2 ^ (n * 8 - 1) ≤ v < 2 ^ (n * 8)) ∧ bits = (if active (vo_codec o) then encode (vo_codec o) (u64 v) n else u64 v).
Proof.
  intros Hn. unfold encodeInteger. destruct (parseIntegerScalar s (vo_hex o)) as [v|] eqn:E; [|done]. destruct (parse_range _ _ _ E) as [Hv Hneg]. cbv zeta. destruct (_ && _) eqn:G; [done|]. intros [= <-]. exists v. split; [done|]. split; [|done].
  destruct (decide (n = 8)); [by left|right]. rewrite (proj2 (Z.ltb_lt n 8)) in G by (unfold widths in Hn; lia). cbn [andb] in G. apply orb_false_iff in G as [G1 G2]. assert (0 < 2 ^ (n * 8 - 1)) by (apply Z.pow_pos_nonneg; unfold widths in Hn; lia).
  assert (0 < 2 ^ (n * 8)) by (apply Z.pow_pos_nonneg; unfold widths in Hn; lia). rewrite maskFor_ones, Z.ones_equiv in G2 by (unfold widths in Hn; lia). destruct s as [|c s]; [done|]. destruct (Z.eqb_spec c "-"%chr) as [->|Hc]; cbn [negb andb] in *.
  - apply Z.ltb_ge in G1. specialize (Hneg eq_refl). lia.
  - apply Z.ltb_ge in G2. unfold wrap in G2. destruct (Z.lt_ge_cases v 0); [|rewrite Z.mod_small in G2 by lia; lia].
    exfalso. rewrite <- (Z.mod_add v 1), Z.mod_small in G2 by lia. assert (2 ^ (n * 8) ≤ 2 ^ 32) by (apply Z.pow_le_mono_r; unfold widths in Hn; lia). lia.
Qed.
Lemma lxor_sign n u : 0 < n → 0 ≤ u < 2 ^ n → Z.lxor u (Z.shiftl 1 (n - 1)) = to_signed n u + 2 ^ (n - 1).
Proof.
  intros Hn Hu. rewrite Z.shiftl_1_l. assert (Ep : 2 ^ n = 2 * 2 ^ (n - 1)) by (rewrite <- Z.pow_succ_r by lia; f_equal; lia). set (h := 2 ^ (n - 1)) in *.
  assert (Hland : ∀ r, 0 ≤ r < h → Z.land r h = 0).
  { intros r Hr. apply Z.bits_inj'. intros i Hi. rewrite Z.land_spec, Z.bits_0. unfold h. rewrite Z.pow2_bits_eqb by lia. destruct (Z.eqb_spec (n - 1) i) as [<-|]; [|by rewrite andb_false_r].
    destruct (Z.eq_dec r 0) as [->|]; [by rewrite Z.bits_0|]. rewrite Z.bits_above_log2; [done|lia|]. apply Z.log2_lt_pow2; lia. }
  unfold to_signed. rewrite wrap_small by (unfold in_width; lia). fold h. destruct (Z.ltb_spec u h).
  - rewrite Z.add_nocarry_lxor by (apply Hland; lia). lia.
  - replace u with ((u - h) + h) at 1 by lia. rewrite Z.add_nocarry_lxor by (apply Hland; lia). rewrite Z.lxor_assoc, Z.lxor_nilpotent, Z.lxor_0_r. lia.
Qed.
Lemma shown_wrap o type n v : widths n → shown o type n (wrap (n * 8) v) = shown o type n v.
Proof. intros Hn. unfold shown, to_signed. rewrite !wrap_idem by (unfold widths in Hn; lia). done. Qed.

Section ValueIo.
Context {lib : Library} {text : ValueText}.
Lemma width_known type o n : integer type = true → n = width type o → (negb (n =? 1) && negb (n =? 2) && negb (n =? 4) && negb (n =? 8)) = false → widths n.
Proof using. intros _ _. rewrite !andb_false_iff, !negb_false_iff, !Z.eqb_eq. unfold widths. tauto. Qed.
Lemma integer_facts type : integer type = true → ordered type = true ∧ bool_decide (type = VString) = false ∧ bool_decide (type = VUnicodeString) = false ∧ bool_decide (type = VByteArray) = false.
Proof using. by destruct type. Qed.
(** What is encoded are the bits of the number, in the order and with the codec of the options. *)
Lemma encode_integer type value o data : integer type = true → encodeTypedValue type value o = inr data → let n := width type o in
  ∃ v raw, widths n ∧ parseIntegerScalar (trim value) (vo_hex o) = Some v ∧ (n = 8 ∨ - 2 ^ (n * 8 - 1) ≤ v < 2 ^ (n * 8)) ∧
    len data = n ∧ scalarBits o data = Ret raw ∧ logicalBits o n raw = wrap (n * 8) v.
Proof using.
  intros Hi. destruct (integer_facts type Hi) as (Ho & Hs & Hu & Hb). unfold encodeTypedValue. rewrite Hs, Hu, Hb, Hi, andb_false_r. cbn [orb]. destruct (_ && _); [done|]. destruct (_ && _); [done|]. cbv zeta. set (n := width type o).
  destruct (negb (n =? 1) && _ && _ && _) eqn:Hn; [done|]. apply (width_known type o n Hi eq_refl) in Hn. destruct (encodeInteger o n (trim value)) as [e|bits] eqn:E; [done|]. intros [= <-].
  destruct (encodeInteger_spec _ _ _ _ Hn E) as (v & Hp & Hfit & Hbits). assert (Hn8 : 1 ≤ n ≤ 8) by (unfold widths in Hn; lia). set (b := le_bytes (Z.to_nat n) bits). assert (Lb : len b = n) by (unfold b, len; rewrite length_le_bytes; lia).
  exists v, (wrap (n * 8) bits). split; [done|]. split; [done|]. split; [done|]. assert (Hle : le_val b = wrap (n * 8) bits). { unfold b. rewrite le_val_le_bytes. unfold wrap. f_equal. change 256 with (2 ^ 8). rewrite <- Z.pow_mul_r by lia. f_equal. lia. }
  split; [destruct (bigEndianEncoding o); [unfold len; rewrite length_reverse; exact Lb|exact Lb]|]. split.
  - unfold scalarBits. assert (Hok : bytes_ok b) by apply le_bytes_ok. destruct (bigEndianEncoding o).
    + rewrite decodeTargetUnsigned_ret; [unfold be_val; by rewrite reverse_involutive, Hle|by apply Forall_reverse|unfold len in *; rewrite length_reverse; lia|done].
    + rewrite decodeTargetUnsigned_ret; [by rewrite Hle|done|lia|done].
  - unfold logicalBits. subst bits. destruct (active (vo_codec o)).
    + rewrite (wrap_small (n * 8) (encode _ _ _)) by by apply encode_bound. rewrite decode_encode by done. apply wrap_u64. lia.
    + apply wrap_u64. lia.
Qed.
Lemma flip_order o type n a b : widths n → let flip := if vo_isSigned o && negb (bool_decide (type = VPointer)) then Z.shiftl 1 (n * 8 - 1) else 0 in
  (Z.lxor (wrap (n * 8) a) flip <? Z.lxor (wrap (n * 8) b) flip) = (shown o type n a <? shown o type n b).
Proof using.
  intros Hn. assert (0 < n * 8) by (unfold widths in Hn; lia). unfold shown. destruct (_ && _); cbv zeta; [|by rewrite !Z.lxor_0_r].
  rewrite !lxor_sign by (lia || (apply wrap_bound; lia)). assert (Hw : ∀ v, to_signed (n * 8) (wrap (n * 8) v) = to_signed (n * 8) v) by (intros v; unfold to_signed; by rewrite wrap_idem by lia). rewrite !Hw.
  destruct (Z.ltb_spec (to_signed (n * 8) a) (to_signed (n * 8) b)); [apply Z.ltb_lt|apply Z.ltb_ge]; lia.
Qed.
Lemma format_wrap v n isSigned hex : widths n → formatIntegerScalar (wrap (n * 8) v) n isSigned hex = formatIntegerScalar v n isSigned hex.
Proof using.
  intros Hn. unfold formatIntegerScalar. assert (clampWidth n = n) as -> by (unfold widths in Hn; destruct Hn as [-> | [-> | [-> | ->]]]; reflexivity). by rewrite !land_maskFor, wrap_idem by (unfold widths in Hn; lia).
Qed.

(** ** The target *)

(** A process that holds what was written to it. *)
Context {proc : ValueProcess}.
Class ValueProcessLaws : Prop := {
  vp_write_reads a d n s s' : vp_write a d s = (inr n, s') → n = len d → vp_read a (len d) s' = inr d;
  vp_machine_stays a a' d r s s' : vp_write a d s = (r, s') → vp_machineAt a' s' = vp_machineAt a' s
}.
Context {laws : ValueProcessLaws}.

Lemma resolve_integer machine type o o' : integer type = true → resolveTargetOptions machine type o = inr o' →
  vo_hex o' = vo_hex o ∧ vo_isSigned o' = vo_isSigned o ∧ ∃ order, vo_byteOrder o' = Some order ∧ knownOrder order = true.
Proof using.
  intros Hi. unfold resolveTargetOptions. destruct (integer_facts type Hi) as (-> & _). cbv zeta. destruct (_ && _); [done|]. destruct (_ && _); [done|]. destruct (negb (knownOrder _)) eqn:Ek; [done|]. intros [= <-]. cbn. apply negb_false_iff in Ek. split; [done|]. split; [done|]. by eexists.
Qed.
Lemma compare_integer address type value o s o' current raw v0 data : integer type = true → resolveTargetOptions (vp_machineAt address s) type o = inr o' → let n := width type o' in
  encodeTypedValue type value o' = inr data → (UINTPTR_MAX - address <? n - 1) = false → vp_read address n s = inr current → len current = n → scalarBits o' current = Ret raw → logicalBits o' n raw = wrap (n * 8) v0 →
  ∃ v, parseIntegerScalar (trim value) (vo_hex o) = Some v ∧ compareTypedValue address type value o s = Ret (inr (order3 (shown o type n v0 <? shown o type n v) (shown o type n v <? shown o type n v0))).
Proof using.
  intros Hi Hr n He Hg Hread Hl Hraw Hbits. destruct (encode_integer _ _ _ _ Hi He) as (v & raw' & Hn & Hp & _ & _ & Hraw' & Hbits'). fold n in Hn, Hbits'. destruct (resolve_integer _ _ _ _ Hi Hr) as (Hh & Hs & _). rewrite <- Hh. exists v. split; [done|].
  unfold compareTypedValue. rewrite Hr, He. cbv zeta. fold n. rewrite (proj2 (Z.leb_gt n 0)) by (unfold widths in Hn; lia). rewrite Hg, Hread, Hl, Z.eqb_refl. cbn [negb]. rewrite Hraw, Hraw'. cbn [deref obind]. rewrite Hi, Hbits, Hbits'.
  pose proof (flip_order o' type n) as Hf. cbv zeta in Hf. unfold shown in *. rewrite Hs in *. by rewrite !Hf.
Qed.
Lemma read_integer address type o s o' current raw v : integer type = true → resolveTargetOptions (vp_machineAt address s) type o = inr o' → let n := width type o' in
  widths n → (UINTPTR_MAX - address <? n - 1) = false → vp_read address n s = inr current → len current = n → scalarBits o' current = Ret raw → logicalBits o' n raw = wrap (n * 8) v →
  (bool_decide (type = VPointer) && negb (n =? 4) && negb (n =? 8)) = false →
  readTypedValue address type o s = Ret (inr (formatIntegerScalar v n (vo_isSigned o && negb (bool_decide (type = VPointer))) (vo_hex o || bool_decide (type = VPointer)))).
Proof using.
  intros Hi Hr n Hn Hg Hread Hl Hraw Hbits Hptr. destruct (resolve_integer _ _ _ _ Hi Hr) as (Hh & Hs & order & Ho & Hk). destruct (integer_facts type Hi) as (Hord & Hst & Hu & Hba). assert (Hz : (n =? 0) = false) by (apply Z.eqb_neq; unfold widths in Hn; lia).
  unfold readTypedValue. rewrite Hr. cbv zeta. fold n. rewrite Hst, Hu, Hba, Hi, Hz, andb_false_r. cbn [negb orb andb]. rewrite (proj2 (Z.ltb_ge 268435456 n)) by (unfold widths in Hn; lia). rewrite Hg, Hread, Hl, Z.ltb_irrefl, Z.eqb_refl, Hz. cbn [negb orb andb].
  unfold decodeTypedValue. rewrite Hord, Ho, Hk. cbv zeta. fold n. rewrite Hptr, Hst, Hu, Hba, Hi, Hz, andb_false_r. cbn [negb orb andb]. rewrite Hl, Z.eqb_refl, bool_decide_eq_false_2 by (intros ->; rewrite len_nil in Hl; unfold widths in Hn; lia). cbn [negb orb andb].
  rewrite bool_decide_eq_false_2 by (intros [= ->]; done). cbn [andb]. rewrite Hraw. cbn [deref obind]. rewrite Hbits, Hh, Hs. rewrite format_wrap, andb_false_r by done. done.
Qed.
Lemma write_integer address type value o s n s' : integer type = true → writeTypedValue address type value o s = (inr n, s') →
  ∃ o' data, resolveTargetOptions (vp_machineAt address s) type o = inr o' ∧ resolveTargetOptions (vp_machineAt address s') type o = inr o' ∧ encodeTypedValue type value o' = inr data ∧
    n = width type o' ∧ len data = n ∧ (UINTPTR_MAX - address <? n - 1) = false ∧ vp_read address n s' = inr data ∧ (bool_decide (type = VPointer) && negb (n =? 4) && negb (n =? 8)) = false.
Proof using laws.
  intros Hi. unfold writeTypedValue. destruct (resolveTargetOptions _ type o) as [e|o'] eqn:Er; [done|]. destruct (encodeTypedValue type value o') as [e|data] eqn:Ee; [done|].
  destruct (encode_integer _ _ _ _ Hi Ee) as (v & raw & Hn & _ & _ & Hl & _). assert (Hd : data ≠ []) by (intros ->; rewrite len_nil in Hl; unfold widths in Hn; lia). rewrite bool_decide_eq_false_2 by done. cbn [negb andb]. destruct (_ <? _) eqn:Hg; [done|].
  destruct (vp_write address data s) as [[e|k] s1] eqn:Ew; [done|]. destruct (Z.eqb_spec k (len data)) as [->|]; [|done]. cbn [negb]. intros [= <- <-]. exists o', data. split; [done|]. rewrite (vp_machine_stays _ address _ _ _ _ Ew).
  split; [done|]. split; [done|]. split; [done|]. split; [done|]. split; [done|]. split; [by eapply vp_write_reads|].
  rewrite Hl. destruct (bool_decide (type = VPointer)) eqn:Et; [|done]. unfold encodeTypedValue in Ee. rewrite Et in Ee. destruct (ordered type && _); [done|]. destruct (true && negb (width type o' =? 4) && negb (width type o' =? 8)) eqn:Ep; [done|reflexivity].
Qed.

(** C22: A value typed for an integer or a pointer, of any width, byte order and codec: when it is
    written, it was a number that fits, the bytes reported were all of its bytes, a read shows
    that number, in the base and with the sign asked for, and its text is again the same value;
    a comparison with it finds it equal, and one with any other text gives the order of the two
    numbers, as they are shown. *)
Theorem written_value_reads_back address type value o s n s' : integer type = true → writeTypedValue address type value o s = (inr n, s') →
  ∃ v, parseIntegerScalar (trim value) (vo_hex o) = Some v ∧ widths n ∧ (n = 8 ∨ - 2 ^ (n * 8 - 1) ≤ v < 2 ^ (n * 8)) ∧
    (let hex := vo_hex o || bool_decide (type = VPointer) in let out := formatIntegerScalar v n (vo_isSigned o && negb (bool_decide (type = VPointer))) hex in
     readTypedValue address type o s' = Ret (inr out) ∧ ∃ v', parseIntegerScalar out hex = Some v' ∧ wrap (n * 8) v' = wrap (n * 8) v) ∧
    compareTypedValue address type value o s' = Ret (inr 0) ∧
    ∀ value2 c, compareTypedValue address type value2 o s' = Ret (inr c) → ∃ v2, parseIntegerScalar (trim value2) (vo_hex o) = Some v2 ∧
      c = order3 (shown o type n v <? shown o type n v2) (shown o type n v2 <? shown o type n v).
Proof using laws.
  intros Hi Hw. destruct (write_integer _ _ _ _ _ _ _ Hi Hw) as (o' & data & _ & Hr & He & -> & Hl & Hg & Hread & Hptr). destruct (resolve_integer _ _ _ _ Hi Hr) as (Hh & _ & _).
  destruct (encode_integer _ _ _ _ Hi He) as (v & raw & Hn & Hp & Hfit & _ & Hraw & Hbits). rewrite Hh in Hp. exists v. split; [done|]. split; [done|]. split; [done|]. split; [split|split].
  - by eapply read_integer.
  - destruct (format_parse_integer v (width type o') (vo_isSigned o && negb (bool_decide (type = VPointer))) (vo_hex o || bool_decide (type = VPointer))) as (v' & H1 & H2). exists v'. split; [done|].
    assert (Hc : clampWidth (width type o') = width type o') by (unfold widths in Hn; destruct Hn as [-> | [-> | [-> | ->]]]; reflexivity). by rewrite Hc in H2.
  - destruct (compare_integer address type value o s' o' data raw v data) as (v1 & Hv1 & ->); [done..|]. assert (v1 = v) as -> by congruence. by rewrite Z.ltb_irrefl.
  - intros value2 c Hc. destruct (encodeTypedValue type value2 o') as [e|data2] eqn:E2.
    { exfalso. unfold compareTypedValue in Hc. rewrite Hr, E2 in Hc. cbv zeta in Hc. by destruct (_ <=? 0) in Hc. }
    destruct (compare_integer address type value2 o s' o' data raw v data2) as (v2 & Hv2 & E); [done..|]. exists v2. split; [done|]. rewrite E in Hc. by injection Hc as <-.
Qed.
End ValueIo.

(** A process whose memory is all writable. *)
#[export] Instance plainLibrary : Library := {| pow10 := λ _, SpecFloat.S754_nan; iconvEncode := λ _ _, None; formulaMatches := λ _ _ _ _ _, false |}.
#[export] Instance plainText : ValueText := {| vt_double := λ _, None; vt_float := λ _, None; vt_toChars := λ _ _, None; vt_decode := λ s _, s; vt_iconvError := λ e, e |}.
#[export] Instance plainProcess : ValueProcess := {| vstate := Z → Z; vp_machineAt := λ _ _, nativeTargetMachine; vp_read := λ a n s, inr (bytesAt s a n);
  vp_write := λ a d s, (inr (len d), λ x, if decide (a ≤ x < a + len d) then default 0 (lget d (x - a)) else s x) |}.
#[export] Instance plainLaws : ValueProcessLaws.
Proof.
  split; [|by intros]. cbn. intros a d n s s' [= _ <-] _. f_equal. apply list_eq. intros i. unfold bytesAt. rewrite list_lookup_fmap. destruct (decide (i < length d)%nat) as [Hi|].
  - rewrite lookup_seqZ_lt by (unfold len; lia). cbn. rewrite decide_True by (unfold len; lia). replace (a + (0 + Z.of_nat i) - a) with (Z.of_nat i) by lia. rewrite lget_nat. by destruct (lookup_lt_is_Some_2 d i Hi) as [x ->].
  - rewrite lookup_seqZ_ge by (unfold len; lia). by rewrite lookup_ge_None_2 by lia.
Qed.
(** A negative number in two bytes, big-endian, through a codec. *)
Lemma written_value_reads_back_witness :
  let o := mkValueIo false true false (Some Big) false 64 8 None [] (mkCodec OpXor 4660) in
  ∃ s' : @vstate plainProcess, writeTypedValue (proc := plainProcess) 4096 VInt16 (bs " -300 ") o ((λ _, 0) : @vstate plainProcess) = (inr 2, s') ∧
  ∃ v, parseIntegerScalar (trim (bs " -300 ")) (vo_hex o) = Some v ∧ widths 2 ∧ (2 = 8 ∨ - 2 ^ (2 * 8 - 1) ≤ v < 2 ^ (2 * 8)) ∧
    (let hex := vo_hex o || bool_decide (VInt16 = VPointer) in let out := formatIntegerScalar v 2 (vo_isSigned o && negb (bool_decide (VInt16 = VPointer))) hex in
     readTypedValue 4096 VInt16 o s' = Ret (inr out) ∧ ∃ v', parseIntegerScalar out hex = Some v' ∧ wrap (2 * 8) v' = wrap (2 * 8) v) ∧
    compareTypedValue 4096 VInt16 (bs " -300 ") o s' = Ret (inr 0) ∧
    ∀ value2 c, compareTypedValue 4096 VInt16 value2 o s' = Ret (inr c) → ∃ v2, parseIntegerScalar (trim value2) (vo_hex o) = Some v2 ∧
      c = order3 (shown o VInt16 2 v <? shown o VInt16 2 v2) (shown o VInt16 2 v2 <? shown o VInt16 2 v).
Proof.
  cbv zeta. eexists. split; [reflexivity|]. apply (written_value_reads_back (proc := plainProcess) 4096 VInt16 (bs " -300 ") _ (λ _, 0)); [reflexivity|]. reflexivity.
Defined.
(** A value that does not fit is refused. *)
Example too_wide : encodeTypedValue VByte (bs "256") (mkValueIo false true false None false 64 8 None [] (mkCodec OpNone 0)) = inl (bs "The value does not fit in 1 bytes").
Proof. vm_compute. reflexivity. Qed.
