(* ===== verification/FloatOrder.v ===== *)
(** * The order of floating-point values, and rounding

    The values of [Floating] as integers, in units of a power of two below every exponent:
    comparisons are comparisons of these integers, and what an operation rounds to is never
    on the other side of a value of the format than the exact result. *)

From Stdlib Require Import SpecFloat.
From S2P Require Import Prelude TargetMachine Types ScanBuffers ScanNumber Floating.
#[local] Open Scope Z_scope.

(** ** Units *)

Definition grain : Z := 2200.
Definition units (e : Z) : Z := 2 ^ (e + grain).
Lemma units_pos e : - grain ≤ e → 0 < units e.
Proof. intros He. apply Z.pow_pos_nonneg; lia. Qed.
Lemma units_add e k : - grain ≤ e → 0 ≤ k → units (e + k) = units e * 2 ^ k.
Proof. intros He Hk. unfold units. rewrite <- Z.pow_add_r by lia. f_equal. lia. Qed.
Lemma units_split e e' : - grain ≤ e ≤ e' → units e' = units e * 2 ^ (e' - e).
Proof. intros He. rewrite <- units_add by lia. f_equal. lia. Qed.
Lemma units_mul e e' : - grain ≤ e → - grain ≤ e' → - grain ≤ e + e' → units e * units e' = units (e + e') * units 0.
Proof. intros He He' Hs. unfold units. rewrite <- !Z.pow_add_r by (unfold grain in *; lia). f_equal. lia. Qed.
Lemma grain_2200 : grain = 2200.
Proof. done. Qed.
#[global] Opaque grain units.

(** ** Digits *)

Lemma digits_bound m : 2 ^ (Zpos (digits2_pos m) - 1) ≤ Zpos m < 2 ^ Zpos (digits2_pos m).
Proof.
  induction m as [m IH|m IH|]; [| |by vm_compute]; cbn [digits2_pos]; rewrite Pos2Z.inj_succ; unfold Z.succ;
    rewrite Z.add_simpl_r; (replace (Zpos (digits2_pos m)) with (Zpos (digits2_pos m) - 1 + 1) at 1 by lia); rewrite (Z.pow_add_r 2 (Zpos (digits2_pos m)) 1), (Z.pow_add_r 2 _ 1) by lia; change (2 ^ 1) with 2; lia.
Qed.
Lemma digits_le m d : 0 ≤ d → Zpos m < 2 ^ d → Zpos (digits2_pos m) ≤ d.
Proof. intros Hd Hm. destruct (digits_bound m) as [Hl _]. assert (Zpos (digits2_pos m) - 1 < d); [|lia]. apply (Z.pow_lt_mono_r_iff 2); lia. Qed.
Lemma digits_ge m d : 0 ≤ d → 2 ^ (d - 1) ≤ Zpos m → d ≤ Zpos (digits2_pos m).
Proof. intros Hd Hm. destruct (digits_bound m) as [_ Hu]. assert (d - 1 < Zpos (digits2_pos m)); [|lia]. apply (Z.pow_lt_mono_r_iff 2); lia. Qed.
Lemma digits_mul_pow m k : 0 ≤ k → ∀ p, Zpos p = Zpos m * 2 ^ k → Zpos (digits2_pos p) = Zpos (digits2_pos m) + k.
Proof.
  intros Hk p Hp. destruct (digits_bound m) as [Hl Hu]. assert (0 < 2 ^ k) by (apply Z.pow_pos_nonneg; lia). apply Z.le_antisymm.
  - apply digits_le; [lia|]. rewrite Z.pow_add_r by lia. nia.
  - apply digits_ge; [lia|]. replace (Zpos (digits2_pos m) + k - 1) with (Zpos (digits2_pos m) - 1 + k) by lia. rewrite Z.pow_add_r by lia. nia.
Qed.

(** ** Shifts *)

(** [mrs] is [m] without its last [k] bits, and knows whether they were all zero. *)
Definition shifted (m k : Z) (mrs : shr_record) : Prop := shr_m mrs = m / 2 ^ k ∧ (shr_r mrs || shr_s mrs = false ↔ m mod 2 ^ k = 0).
Lemma shifted_0 m : shifted m 0 (Build_shr_record m false false).
Proof. split; cbn; [by rewrite Z.div_1_r|by rewrite Z.mod_1_r]. Qed.
Lemma shifted_1 m k mrs : 0 ≤ m → 0 ≤ k → shifted m k mrs → shifted m (k + 1) (shr_1 mrs).
Proof.
  intros Hm Hk [Hq Hs]. assert (0 < 2 ^ k) as Hp by (apply Z.pow_pos_nonneg; lia). unfold shifted. rewrite Z.pow_add_r by lia. change (2 ^ 1) with 2. rewrite <- Z.div_div, Z.rem_mul_r by lia.
  pose proof (Z.mod_pos_bound m (2 ^ k) Hp) as Hb. destruct mrs as [q r s]. cbn [shr_m shr_r shr_s] in *. rewrite <- Hq. assert (0 ≤ q) as Hq0 by (rewrite Hq; by apply Z.div_pos; lia).
  unfold shr_1. destruct q as [|[p|p|]|p]; cbn [shr_m shr_r shr_s orb]; [| | | |lia].
  - change (0 / 2) with 0. change (0 mod 2) with 0. split; [done|]. rewrite Hs. lia.
  - assert (Zpos p~1 / 2 = Zpos p ∧ Zpos p~1 mod 2 = 1) as [-> ->] by (Z.div_mod_to_equations; lia). split; [done|]. split; [done|lia].
  - assert (Zpos p~0 / 2 = Zpos p ∧ Zpos p~0 mod 2 = 0) as [-> ->] by (Z.div_mod_to_equations; lia). split; [done|]. rewrite Hs. lia.
  - change (1 / 2) with 0. change (1 mod 2) with 1. split; [done|]. split; [done|lia].
Qed.
Lemma shifted_iter m p : 0 ≤ m → ∀ k mrs, 0 ≤ k → shifted m k mrs → shifted m (k + Zpos p) (SpecFloat.iter_pos shr_1 p mrs).
Proof.
  intros Hm. induction p as [p IH|p IH|]; intros k mrs Hk Hs; cbn [SpecFloat.iter_pos].
  - replace (k + Zpos p~1) with (k + 1 + Zpos p + Zpos p) by lia. apply IH; [lia|]. apply IH; [lia|]. by apply shifted_1.
  - replace (k + Zpos p~0) with (k + Zpos p + Zpos p) by lia. apply IH; [lia|]. by apply IH.
  - by apply shifted_1.
Qed.
Lemma shr_shifted m e k : 0 ≤ m → ∃ mrs, shr (Build_shr_record m false false) e k = (mrs, e + Z.max 0 k) ∧ shifted m (Z.max 0 k) mrs.
Proof.
  intros Hm. destruct k as [|p|p]; cbn [shr Z.max]; rewrite ?Z.add_0_r; try (eexists; split; [done|apply shifted_0]).
  eexists. split; [done|]. apply (shifted_iter m p Hm 0); [done|apply shifted_0].
Qed.
(** Rounding goes to one of the two neighbours, and nowhere from an exact value. *)
Lemma round_neighbour m k mrs : shifted m k mrs →
  let r := round_nearest_even (shr_m mrs) (loc_of_shr_record mrs) in r = m / 2 ^ k ∨ r = m / 2 ^ k + 1 ∧ m mod 2 ^ k ≠ 0.
Proof.
  intros [<- Hs]. cbv zeta. destruct mrs as [q r s]. cbn [shr_m shr_r shr_s] in *. destruct r, s; cbn [loc_of_shr_record round_nearest_even orb] in *; try (by left);
    try (right; split; [done|]; intros E; by apply Hs in E). destruct (Z.even q); [by left|]. right. split; [done|]. intros E. by apply Hs in E.
Qed.
Lemma shl_align_value m e e' : - grain ≤ e → - grain ≤ e' → ∃ p, shl_align m e e' = (p, Z.min e e') ∧ Zpos p = Zpos m * 2 ^ (e - Z.min e e').
Proof.
  intros He He'. unfold shl_align. destruct (e' - e) as [|d|d] eqn:E.
  - exists m. rewrite Z.min_l, Z.sub_diag by lia. split; [done|]. lia.
  - exists m. rewrite Z.min_l, Z.sub_diag by lia. split; [done|]. lia.
  - exists (Pos.iter xO m d). rewrite Z.min_r by lia. split; [done|]. replace (e - e') with (Zpos d) by lia. clear. induction d as [|d IH] using Pos.peano_ind; [cbn; lia|].
    rewrite Pos.iter_succ, Pos2Z.inj_xO, IH, Pos2Z.inj_succ, Z.pow_succ_r by lia. lia.
Qed.

(** ** Places *)

(** The magnitude and the place of a value on the line; an infinity is beyond every value. *)
Definition size (f : spec_float) : Z :=
  match f with
  | S754_finite _ m e => Zpos m * units e
  | S754_infinity _ => units 1024
  | _ => 0
  end.
Definition negative (f : spec_float) : bool := match f with S754_zero s | S754_infinity s | S754_finite s _ _ => s | S754_nan => false end.
Definition place (f : spec_float) : Z := if negative f then - size f else size f.

Section Format.
Context (prec emax : Z) (Hprec : 1 < prec ≤ 53) (Hemax : prec + 2 ≤ emax ≤ 1024).
Notation low := (emin prec emax).
Notation valid f := (valid_binary prec emax f = true).

Lemma low_grain : - grain + 1000 < low ∧ low < emax - prec.
Proof using Hprec Hemax. rewrite grain_2200. unfold emin. lia. Qed.
(** The magnitudes of the format. *)
Definition onGrid (Y : Z) : Prop := ∃ m e, 0 ≤ m < 2 ^ prec ∧ low ≤ e ≤ emax - prec ∧ Y = m * units e.
Lemma grid_bound Y : onGrid Y → 0 ≤ Y < units emax.
Proof using Hprec Hemax.
  intros (m & e & Hm & He & ->). pose proof low_grain. pose proof (units_pos e ltac:(lia)). split; [nia|]. assert (units emax = units (emax - prec) * 2 ^ prec) as -> by (rewrite <- units_add by lia; f_equal; lia). rewrite (units_split e (emax - prec)) by lia.
  assert (0 < 2 ^ (emax - prec - e)) by (apply Z.pow_pos_nonneg; lia). apply Z.lt_le_trans with (2 ^ prec * units e); [apply Z.mul_lt_mono_pos_r; lia|]. nia.
Qed.
Lemma bounded_spec m e : bounded prec emax m e = true ↔ Zpos m < 2 ^ prec ∧ low ≤ e ≤ emax - prec ∧ (e = low ∨ 2 ^ (prec - 1) ≤ Zpos m).
Proof using Hprec Hemax.
  unfold bounded, canonical_mantissa, fexp. rewrite andb_true_iff, Z.eqb_eq, Z.leb_le. destruct (digits_bound m) as [Hl Hu]. split.
  - intros [E He]. assert (Zpos (digits2_pos m) ≤ prec) by lia. split; [|split; [lia|]].
    + eapply Z.lt_le_trans; [exact Hu|]. apply Z.pow_le_mono_r; lia.
    + destruct (decide (e = low)) as [|Hne]; [by left|]. right. assert (Zpos (digits2_pos m) = prec) as E' by lia. by rewrite E' in Hl.
  - intros (Hm & He & Hn). pose proof (digits_le m prec ltac:(lia) Hm). split; [|lia]. destruct Hn as [->|Hn]; [lia|]. pose proof (digits_ge m prec ltac:(lia) Hn). lia.
Qed.
Lemma size_grid s m e : bounded prec emax m e = true → onGrid (size (S754_finite s m e)).
Proof using Hprec Hemax. intros (H1 & H2 & _)%bounded_spec. exists (Zpos m), e. split_and!; [lia..|done]. Qed.
Lemma zero_grid : onGrid 0.
Proof using Hprec Hemax. pose proof low_grain. exists 0, low. split_and!; [lia|apply Z.pow_pos_nonneg; lia|lia..]. Qed.

(** ** Rounding *)

(** The neighbours of an exact value in the format bound what may lie on either side. *)
Lemma round_bracket m e k r Y : - grain ≤ e → 0 ≤ k → e + k = fexp prec emax (Zpos (digits2_pos m) + e) → r = Zpos m / 2 ^ k ∨ r = Zpos m / 2 ^ k + 1 ∧ Zpos m mod 2 ^ k ≠ 0 → onGrid Y →
  (Zpos m * units e ≤ Y → r * units (e + k) ≤ Y) ∧ (Y ≤ Zpos m * units e → Y ≤ r * units (e + k)).
Proof using Hprec Hemax.
  intros He Hk Hf Hr (my & ey & Hmy & Hey & ->). pose proof (units_pos e He) as Hu. assert (0 < 2 ^ k) as HP by (apply Z.pow_pos_nonneg; lia). rewrite (units_add e k) by lia.
  pose proof (Z.div_mod (Zpos m) (2 ^ k) ltac:(lia)) as Hdm. pose proof (Z.mod_pos_bound (Zpos m) (2 ^ k) HP) as Hb. set (q := Zpos m / 2 ^ k) in *. set (t := Zpos m mod 2 ^ k) in *. clearbody q t.
  destruct (Z.le_gt_cases (e + k) ey) as [Hge|Hlt].
  - rewrite (units_split (e + k) ey), (units_add e k) by lia. set (j := my * 2 ^ (ey - (e + k))). replace (my * (units e * 2 ^ k * 2 ^ (ey - (e + k)))) with (j * (units e * 2 ^ k)) by (unfold j; ring).
    replace (Zpos m * units e) with ((q * 2 ^ k + t) * units e) by (rewrite Hdm; ring). replace (j * (units e * 2 ^ k)) with (j * 2 ^ k * units e) by ring. replace (r * (units e * 2 ^ k)) with (r * 2 ^ k * units e) by ring.
    split; intros H; apply Z.mul_le_mono_pos_r in H; [| done| |done]; apply Z.mul_le_mono_nonneg_r; try lia; apply Z.mul_le_mono_nonneg_r; try lia; destruct Hr as [->|[-> Ht]]; nia.
  - pose proof low_grain. unfold fexp in Hf. assert (Zpos (digits2_pos m) = prec + k) as Hd by lia. destruct (digits_bound m) as [Hl _]. rewrite Hd in Hl. replace (prec + k - 1) with (prec - 1 + k) in Hl by lia. rewrite Z.pow_add_r in Hl by lia.
    assert (my * units ey < 2 ^ (prec - 1) * (units e * 2 ^ k)) as HY.
    { rewrite <- (units_add e k) by lia. replace (e + k) with (ey + 1 + (e + k - 1 - ey)) by lia. rewrite !units_add by lia. pose proof (units_pos ey ltac:(lia)). assert (0 < 2 ^ (e + k - 1 - ey)) by (apply Z.pow_pos_nonneg; lia).
      assert (2 ^ prec = 2 ^ (prec - 1) * 2 ^ 1) as E2 by (rewrite <- Z.pow_add_r by lia; f_equal; lia). apply Z.lt_le_trans with (2 ^ prec * units ey); [apply Z.mul_lt_mono_pos_r; lia|].
      rewrite E2. replace (2 ^ (prec - 1) * (units ey * 2 ^ 1 * 2 ^ (e + k - 1 - ey))) with (2 ^ (prec - 1) * 2 ^ 1 * units ey * 2 ^ (e + k - 1 - ey)) by ring. pose proof (Z.pow_pos_nonneg 2 (prec - 1) ltac:(lia) ltac:(lia)). nia. }
    assert (2 ^ (prec - 1) ≤ q) as Hq by nia. split; intros HM; [exfalso|].
    + assert (2 ^ (prec - 1) * 2 ^ k * units e ≤ Zpos m * units e) by (apply Z.mul_le_mono_pos_r; lia). lia.
    + assert (2 ^ (prec - 1) * (units e * 2 ^ k) ≤ r * (units e * 2 ^ k)) by (apply Z.mul_le_mono_pos_r; [nia|lia]). lia.
Qed.
(** A mantissa that was rounded up to the next power of two is shifted once more. *)
Lemma renormalise p e1 : Zpos p ≤ 2 ^ prec → low ≤ e1 → e1 = low ∨ 2 ^ (prec - 1) ≤ Zpos p → let k := Z.max 0 (fexp prec emax (Zpos (digits2_pos p) + e1) - e1) in
  ∃ p', Zpos p / 2 ^ k = Zpos p' ∧ Zpos p' * units (e1 + k) = Zpos p * units e1 ∧ Zpos p' < 2 ^ prec ∧ (e1 + k = low ∨ 2 ^ (prec - 1) ≤ Zpos p').
Proof using Hprec Hemax.
  cbv zeta. intros Hp He Hn. pose proof low_grain. unfold fexp. assert (2 ^ prec = 2 ^ (prec - 1) * 2) as E2 by (replace prec with (prec - 1 + 1) at 1 by lia; rewrite Z.pow_add_r by lia; done).
  destruct (Z.lt_ge_cases (Zpos p) (2 ^ prec)) as [Hlt|Hge].
  - pose proof (digits_le p prec ltac:(lia) Hlt). rewrite Z.max_l by lia. rewrite Z.div_1_r, Z.add_0_r. by exists p.
  - assert (Zpos p = 2 ^ prec) as Ep by lia. assert (Zpos (digits2_pos p) = prec + 1) as Hd.
    { apply Z.le_antisymm; [apply digits_le; [lia|]|apply digits_ge; [lia|]]; rewrite Ep; [apply Z.pow_lt_mono_r; lia|]. by rewrite Z.add_simpl_r. }
    rewrite Hd. replace (Z.max 0 _) with 1 by lia. change (2 ^ 1) with 2. rewrite Ep, E2, Z.div_mul by lia. assert (0 < 2 ^ (prec - 1)) by (apply Z.pow_pos_nonneg; lia).
    exists (Z.to_pos (2 ^ (prec - 1))). rewrite Z2Pos.id by done. rewrite units_add by lia. split_and!; [done|lia|lia|by right].
Qed.
(** The result for the exact magnitude [M]: on no other side of a value of the format. *)
Record landed (s : bool) (M : Z) (f : spec_float) : Prop := {
  ld_valid : valid f;
  ld_number : isNan f = false;
  ld_sign : negative f = s;
  ld_below Y : onGrid Y → M ≤ Y → size f ≤ Y;
  ld_above Y : onGrid Y → Y ≤ M → Y ≤ size f
}.
Lemma round_aux_spec s m e : - grain ≤ e ≤ fexp prec emax (Zpos (digits2_pos m) + e) → landed s (Zpos m * units e) (binary_round_aux prec emax s (Zpos m) e loc_Exact).
Proof using Hprec Hemax.
  intros He. pose proof low_grain as Hlow. unfold binary_round_aux, shr_fexp. cbn [shr_record_of_loc Zdigits2].
  destruct (shr_shifted (Zpos m) e (fexp prec emax (Zpos (digits2_pos m) + e) - e) ltac:(lia)) as (mrs & -> & Hsh). rewrite Z.max_r in * by lia.
  pose proof (round_neighbour _ _ _ Hsh) as Hr. cbv zeta in Hr. set (r := round_nearest_even _ _) in *. clearbody r. set (k := fexp prec emax (Zpos (digits2_pos m) + e) - e) in *.
  pose proof (λ Y, round_bracket m e k r Y ltac:(lia) ltac:(lia) ltac:(lia) Hr) as Hbr. assert (0 < 2 ^ k) as HP by (apply Z.pow_pos_nonneg; lia).
  assert (e + k = fexp prec emax (Zpos (digits2_pos m) + e)) as Ek by lia. assert (0 ≤ k) as Hk by lia. clearbody k. unfold fexp in Ek. destruct (digits_bound m) as [Hl Hu].
  assert (0 ≤ r ≤ 2 ^ prec ∧ (e + k = low ∨ 2 ^ (prec - 1) ≤ r)) as [Hr0 Hrn].
  { pose proof (Z.div_pos (Zpos m) (2 ^ k) ltac:(lia) HP). assert (Zpos m / 2 ^ k < 2 ^ prec).
    { apply Z.div_lt_upper_bound; [done|]. rewrite <- Z.pow_add_r by lia. eapply Z.lt_le_trans; [exact Hu|]. apply Z.pow_le_mono_r; lia. }
    split; [lia|]. destruct (decide (e + k = low)) as [|Hne]; [by left|]. right. assert (2 ^ (prec - 1) ≤ Zpos m / 2 ^ k); [|lia].
    apply Z.div_le_lower_bound; [done|]. rewrite <- Z.pow_add_r by lia. replace (k + (prec - 1)) with (Zpos (digits2_pos m) - 1) by lia. done. }
  destruct r as [|p|p]; [| |lia].
  - cbn [Zdigits2]. destruct (shr_shifted 0 (e + k) (fexp prec emax (0 + (e + k)) - (e + k)) ltac:(lia)) as (mrs' & -> & [-> _]). rewrite Z.div_0_l by (apply Z.pow_nonzero; lia).
    split; [done|done|done| |]; intros Y HY HM; destruct (Hbr Y HY) as [H1 H2]; cbn [size]; [specialize (H1 HM)|specialize (H2 HM)]; lia.
  - cbn [Zdigits2]. destruct (shr_shifted (Zpos p) (e + k) (fexp prec emax (Zpos (digits2_pos p) + (e + k)) - (e + k)) ltac:(lia)) as (mrs' & -> & [-> _]).
    destruct (renormalise p (e + k) ltac:(lia) ltac:(lia) Hrn) as (p' & -> & Eval & Hp' & Hn'). set (k' := Z.max 0 _) in *. assert (0 ≤ k') as Hk' by lia. clearbody k'.
    destruct (Z.leb_spec (e + k + k') (emax - prec)) as [Hfit|Hover].
    + split; [apply bounded_spec; split_and!; [done|lia|lia|done]|done|done| |]; intros Y HY HM; cbn [size]; rewrite Eval; by apply Hbr.
    + destruct Hn' as [?|Hn']; [lia|]. assert (units emax ≤ Zpos p * units (e + k)) as Hbig.
      { rewrite <- Eval. replace (e + k + k') with (emax - prec + 1 + (e + k + k' - (emax - prec + 1))) by lia. rewrite units_add by lia.
        assert (units emax = 2 ^ (prec - 1) * units (emax - prec + 1)) as -> by (rewrite Z.mul_comm, <- units_add by lia; f_equal; lia). pose proof (units_pos (emax - prec + 1) ltac:(lia)).
        pose proof (Z.pow_pos_nonneg 2 (e + k + k' - (emax - prec + 1)) ltac:(lia) ltac:(lia)). apply Z.le_trans with (Zpos p' * units (emax - prec + 1)); [apply Z.mul_le_mono_pos_r; lia|]. nia. }
      split; [done|done|done| |]; intros Y HY HM; pose proof (grid_bound Y HY) as HB.
      * destruct (Hbr Y HY) as [H1 _]. specialize (H1 HM). lia.
      * cbn [size]. pose proof (units_pos emax ltac:(lia)). pose proof (units_split emax 1024 ltac:(lia)). pose proof (Z.pow_pos_nonneg 2 (1024 - emax) ltac:(lia) ltac:(lia)). nia.
Qed.
Lemma round_spec s m e : - grain ≤ e → landed s (Zpos m * units e) (binary_round prec emax s m e).
Proof using Hprec Hemax.
  intros He. pose proof low_grain. unfold binary_round. set (e' := fexp prec emax (Zpos (digits2_pos m) + e)). assert (low ≤ e') as He' by (unfold e', fexp; lia).
  destruct (shl_align_value m e e' He ltac:(lia)) as (p & -> & Ep).
  assert (Zpos m * units e = Zpos p * units (Z.min e e')) as ->. { rewrite Ep. destruct (Z.min_spec e e') as [[? ->]|[? ->]]; [by rewrite Z.sub_diag, Z.mul_1_r|]. rewrite (units_split e' e) by lia. ring. }
  apply round_aux_spec. split; [lia|]. rewrite (digits_mul_pow m (e - Z.min e e') ltac:(lia) p Ep). replace (Zpos (digits2_pos m) + (e - Z.min e e') + Z.min e e') with (Zpos (digits2_pos m) + e) by lia. fold e'. lia.
Qed.

(** ** Signed values *)

Definition grid (X : Z) : Prop := onGrid (Z.abs X).
(** [f] is what the exact value [X] is rounded to. *)
Record rounds (X : Z) (f : spec_float) : Prop := {
  rd_valid : valid f;
  rd_number : isNan f = false;
  rd_below Y : grid Y → X ≤ Y → place f ≤ Y;
  rd_above Y : grid Y → Y ≤ X → Y ≤ place f
}.
Lemma grid_opp X : grid X → grid (- X).
Proof. unfold grid. by rewrite Z.abs_opp. Qed.
Lemma size_nonneg f : valid f → 0 ≤ size f.
Proof using Hprec Hemax.
  pose proof low_grain. destruct f as [s|s| |s m e]; cbn [size]; [done| |done|].
  - intros _. pose proof (units_pos 1024 ltac:(lia)). lia.
  - intros (_ & He & _)%bounded_spec. pose proof (units_pos e ltac:(lia)). nia.
Qed.
Lemma place_abs f : valid f → Z.abs (place f) = size f.
Proof using Hprec Hemax. intros Hf%size_nonneg. unfold place. destruct (negative f); lia. Qed.
Lemma place_grid f : valid f → isFinite f = true → grid (place f).
Proof using Hprec Hemax. intros Hv Hf. unfold grid. rewrite place_abs by done. destruct f as [s|s| |s m e]; try done; [apply zero_grid|]. by apply size_grid. Qed.
Lemma rounds_self f : valid f → isFinite f = true → rounds (place f) f.
Proof. intros Hv Hf. split; try done. by destruct f. Qed.
Lemma rounds_exact X f : rounds X f → grid X → place f = X.
Proof. intros [_ _ H1 H2] HX. pose proof (H1 X HX ltac:(lia)). pose proof (H2 X HX ltac:(lia)). lia. Qed.
Lemma infinity_beyond Y : grid Y → Z.abs Y < units 1024.
Proof using Hprec Hemax.
  intros HY%grid_bound. pose proof low_grain. eapply Z.lt_le_trans; [apply HY|]. pose proof (units_pos emax ltac:(lia)). rewrite (units_split emax 1024) by lia. pose proof (Z.pow_pos_nonneg 2 (1024 - emax) ltac:(lia) ltac:(lia)). nia.
Qed.
Lemma place_finite f : valid f → isNan f = false → Z.abs (place f) < units 1024 → isFinite f = true.
Proof using Hprec Hemax. intros Hv Hn. rewrite place_abs by done. destruct f; cbn [size isFinite]; done || lia. Qed.
Lemma rounds_finite X f Y : rounds X f → grid Y → Z.abs X ≤ Y → isFinite f = true.
Proof using Hprec Hemax.
  intros [Hv Hn H1 H2] HY HX. pose proof (H1 Y HY ltac:(lia)). pose proof (H2 (- Y) (grid_opp Y HY) ltac:(lia)). apply place_finite; [done|done|]. pose proof (infinity_beyond Y HY). lia.
Qed.
Lemma landed_rounds s M f : 0 ≤ M → landed s M f → rounds (if s then - M else M) f.
Proof using Hprec Hemax.
  intros HM [Hv Hn Hs H1 H2]. pose proof (size_nonneg f Hv). split; [done|done| |]; unfold place; rewrite Hs; unfold grid; intros Y HY HXY; destruct s.
  - destruct (Z.le_gt_cases 0 Y); [lia|]. specialize (H2 _ HY). lia.
  - specialize (H1 _ HY). lia.
  - specialize (H1 _ HY). lia.
  - destruct (Z.le_gt_cases 0 Y); [|lia]. specialize (H2 _ HY). lia.
Qed.
Lemma binary_round_rounds (s : bool) m e : - grain ≤ e → rounds (if s then - (Zpos m * units e) else Zpos m * units e) (binary_round prec emax s m e).
Proof using Hprec Hemax. intros He. apply landed_rounds; [pose proof (units_pos e He); nia|by apply round_spec]. Qed.
Lemma zero_rounds s : rounds 0 (S754_zero s).
Proof using Hprec Hemax. pose proof (rounds_self (S754_zero s) eq_refl eq_refl) as H. unfold place in H. cbn in H. by destruct s. Qed.
Lemma normalize_rounds m e z : - grain ≤ e → rounds (m * units e) (binary_normalize prec emax m e z).
Proof using Hprec Hemax.
  intros He. destruct m as [|m|m]; [apply zero_rounds|exact (binary_round_rounds false m e He)|]. pose proof (binary_round_rounds true m e He) as H. cbv iota in H. by rewrite <- Z.mul_opp_l in H.
Qed.
Lemma valid_exponent s m e : valid (S754_finite s m e) → low ≤ e.
Proof using Hprec Hemax. intros (_ & ? & _)%bounded_spec. lia. Qed.
Lemma place_opp f : place (SFopp f) = - place f.
Proof. destruct f as [[]|[]| |[] m e]; unfold place; cbn; lia. Qed.
Lemma valid_opp f : valid f → valid (SFopp f).
Proof. by destruct f. Qed.
Lemma aligned_place s m e ez : - grain ≤ ez ≤ e → cond_Zopp s (Zpos (shl_align m e ez).1) * units ez = place (S754_finite s m e).
Proof.
  intros He. destruct (shl_align_value m e ez ltac:(lia) ltac:(lia)) as (p & -> & Ep). rewrite Z.min_r in Ep by lia. unfold place. cbn [fst negative size]. rewrite (units_split ez e) by lia.
  destruct s; cbn [cond_Zopp]; rewrite Ep; ring.
Qed.
Lemma add_rounds a b : valid a → valid b → isFinite a = true → isFinite b = true → rounds (place a + place b) (SFadd prec emax a b).
Proof using Hprec Hemax.
  intros Ha Hb Fa Fb. pose proof low_grain. assert (∀ s, place (S754_zero s) = 0) as Hz by (by intros []).
  destruct a as [sa| | |sa ma ea]; try done; destruct b as [sb| | |sb mb eb]; try done; rewrite ?Hz, ?Z.add_0_l, ?Z.add_0_r; unfold SFadd.
  - destruct sa, sb; apply zero_rounds.
  - by apply rounds_self.
  - by apply rounds_self.
  - apply valid_exponent in Ha, Hb. cbv zeta. rewrite <- (aligned_place sa ma ea (Z.min ea eb)), <- (aligned_place sb mb eb (Z.min ea eb)), <- Z.mul_add_distr_r by lia. apply normalize_rounds. lia.
Qed.
Lemma sub_rounds a b : valid a → valid b → isFinite a = true → isFinite b = true → rounds (place a - place b) (SFsub prec emax a b).
Proof using Hprec Hemax.
  intros Ha Hb Fa Fb. pose proof low_grain. assert (∀ s, place (S754_zero s) = 0) as Hz by (by intros []).
  destruct a as [sa| | |sa ma ea]; try done; destruct b as [sb| | |sb mb eb]; try done; rewrite ?Hz, ?Z.sub_0_l, ?Z.sub_0_r; unfold SFsub.
  - destruct sa, sb; apply zero_rounds.
  - rewrite <- place_opp. by apply rounds_self.
  - by apply rounds_self.
  - apply valid_exponent in Ha, Hb. cbv zeta. rewrite <- (aligned_place sa ma ea (Z.min ea eb)), <- (aligned_place sb mb eb (Z.min ea eb)), <- Z.mul_sub_distr_r by lia. apply normalize_rounds. lia.
Qed.

(** ** Comparisons *)

Lemma compare_size m m' e e' : bounded prec emax m e = true → bounded prec emax m' e' = true →
  match e ?= e' with Eq => Pos.compare_cont Eq m m' | c => c end = (Zpos m * units e ?= Zpos m' * units e').
Proof using Hprec Hemax.
  pose proof low_grain. assert (∀ m m' e e', bounded prec emax m e = true → bounded prec emax m' e' = true → e < e' → Zpos m * units e < Zpos m' * units e') as Hlt.
  { intros a a' b b' (Ha & Hb & _)%bounded_spec (Ha' & Hb' & Hn)%bounded_spec Hbb. destruct Hn as [?|Hn]; [lia|]. pose proof (units_pos b ltac:(lia)). replace b' with (b + 1 + (b' - b - 1)) by lia. rewrite !units_add by lia.
    pose proof (Z.pow_pos_nonneg 2 (b' - b - 1) ltac:(lia) ltac:(lia)). apply Z.lt_le_trans with (2 ^ prec * units b); [apply Z.mul_lt_mono_pos_r; lia|]. change (2 ^ 1) with 2.
    assert (2 ^ prec = 2 ^ (prec - 1) * 2) as -> by (replace prec with (prec - 1 + 1) at 1 by lia; rewrite Z.pow_add_r by lia; done).
    apply Z.le_trans with (Zpos a' * (units b * 2)); [nia|]. apply Z.mul_le_mono_nonneg_l; [lia|nia]. }
  intros Hm Hm'. destruct (Z.compare_spec e e') as [->|Hl|Hl]; symmetry.
  - apply bounded_spec in Hm as (_ & ? & _). pose proof (units_pos e' ltac:(lia)). change (Pos.compare_cont Eq m m') with (Zpos m ?= Zpos m'). rewrite (Z.mul_comm (Zpos m)), (Z.mul_comm (Zpos m')). symmetry. apply Zmult_compare_compat_l. lia.
  - apply Z.compare_lt_iff. by apply Hlt.
  - apply Z.compare_gt_iff. by apply Hlt.
Qed.
Lemma compare_place a b : valid a → valid b → isNan a = false → isNan b = false → SFcompare a b = Some (place a ?= place b).
Proof using Hprec Hemax.
  intros Ha Hb Na Nb. pose proof low_grain. pose proof (units_pos 1024 ltac:(lia)) as Hinf.
  assert (∀ s m e, valid (S754_finite s m e) → 0 < Zpos m * units e < units 1024) as Hfin.
  { intros s m e Hv. pose proof (infinity_beyond _ (place_grid (S754_finite s m e) Hv eq_refl)) as Hb'. rewrite place_abs in Hb' by done. cbn [size] in Hb'. split; [|done]. apply valid_exponent in Hv. pose proof (units_pos e ltac:(lia)). nia. }
  destruct a as [sa|sa| |sa ma ea]; try done; destruct b as [sb|sb| |sb mb eb]; try done; cbn [SFcompare]; f_equal;
    try (pose proof (Hfin _ _ _ Ha)); try (pose proof (Hfin _ _ _ Hb)); try (symmetry; unfold place; destruct sa, sb; cbn [negative size]; (apply Z.compare_eq_iff; lia) || (apply Z.compare_lt_iff; lia) || (apply Z.compare_gt_iff; lia));
    try (unfold place; cbn [negative size]; destruct sa; symmetry; (apply Z.compare_lt_iff; lia) || (apply Z.compare_gt_iff; lia)).
  pose proof (compare_size ma mb ea eb Ha Hb) as Hc. unfold place. cbn [negative size]. destruct sa, sb; [|symmetry; apply Z.compare_lt_iff; lia|symmetry; apply Z.compare_gt_iff; lia|exact Hc].
  rewrite Z.compare_opp, (Z.compare_antisym (Zpos ma * units ea)), <- Hc. by destruct (ea ?= eb).
Qed.
Lemma leb_place a b : valid a → valid b → isNan a = false → isNan b = false → SFleb a b = true ↔ place a ≤ place b.
Proof using Hprec Hemax. intros. unfold SFleb. rewrite compare_place by done. unfold Z.le. by destruct (place a ?= place b). Qed.
Lemma ltb_place a b : valid a → valid b → isNan a = false → isNan b = false → SFltb a b = true ↔ place a < place b.
Proof using Hprec Hemax. intros. unfold SFltb. rewrite compare_place by done. unfold Z.lt. by destruct (place a ?= place b). Qed.
Lemma eqb_place a b : valid a → valid b → isNan a = false → isNan b = false → SFeqb a b = true ↔ place a = place b.
Proof using Hprec Hemax. intros. unfold SFeqb. rewrite compare_place by done. rewrite <- Z.compare_eq_iff. by destruct (place a ?= place b). Qed.
End Format.

(** ** Products *)

Section Products.
Context (prec emax : Z) (Hprec : 1 < prec ≤ 53) (Hemax : prec + 2 ≤ emax ≤ 1024).
Notation valid f := (valid_binary prec emax f = true).
Lemma digits_mul m m' : Zpos (digits2_pos m) + Zpos (digits2_pos m') - 1 ≤ Zpos (digits2_pos (m * m')).
Proof.
  destruct (digits_bound m) as [H1 _], (digits_bound m') as [H2 _]. apply digits_ge; [lia|].
  replace (Zpos (digits2_pos m) + Zpos (digits2_pos m') - 1 - 1) with (Zpos (digits2_pos m) - 1 + (Zpos (digits2_pos m') - 1)) by lia. rewrite Z.pow_add_r, Pos2Z.inj_mul by lia.
  apply Z.mul_le_mono_nonneg; try done; apply Z.pow_nonneg; lia.
Qed.
Lemma mul_rounds a b : valid a → valid b → isFinite a = true → isFinite b = true → ∃ X, X * units 0 = place a * place b ∧ rounds prec emax X (SFmul prec emax a b).
Proof using Hprec Hemax.
  intros Ha Hb Fa Fb. pose proof (low_grain prec emax Hprec Hemax) as Hlow. pose proof grain_2200 as Hg. pose proof (units_pos 0 ltac:(lia)) as H0. assert (∀ s, place (S754_zero s) = 0) as Hz by (by intros []).
  destruct a as [sa| | |sa ma ea]; try done; destruct b as [sb| | |sb mb eb]; try done; rewrite ?Hz, ?Z.mul_0_l, ?Z.mul_0_r; unfold SFmul; try (exists 0; split; [done|by apply zero_rounds]).
  apply (bounded_spec prec emax Hprec Hemax) in Ha as (Hma & Hea & Hna). apply (bounded_spec prec emax Hprec Hemax) in Hb as (Hmb & Heb & Hnb).
  assert (- grain ≤ ea + eb) as Hee by (unfold emin in *; lia). pose proof (units_pos (ea + eb) Hee) as Hu.
  exists (if xorb sa sb then - (Zpos (ma * mb) * units (ea + eb)) else Zpos (ma * mb) * units (ea + eb)). split.
  { pose proof (units_mul ea eb ltac:(lia) ltac:(lia) Hee) as Em. unfold place. cbn [negative size]. rewrite Pos2Z.inj_mul.
    assert (Zpos ma * units ea * (Zpos mb * units eb) = Zpos ma * Zpos mb * units (ea + eb) * units 0) as E by (transitivity (Zpos ma * Zpos mb * (units ea * units eb)); [ring|rewrite Em; ring]). destruct sa, sb; cbn [xorb]; lia. }
  apply landed_rounds; [done|done|nia|]. apply round_aux_spec; [done|done|]. split; [done|]. unfold fexp. pose proof (digits_mul ma mb).
  destruct Hna as [->|Hna]; [destruct Hnb as [->|Hnb]|]; [unfold emin in *; lia|..]; [pose proof (digits_ge mb prec ltac:(lia) Hnb)|pose proof (digits_ge ma prec ltac:(lia) Hna)]; lia.
Qed.
End Products.

(** ** The two formats *)

Definition ft_ok (ft : FloatType) : Prop := ft = single ∨ ft = double.
(** A value of the type. *)
Definition is_float (ft : FloatType) (f : spec_float) : Prop := valid_binary (ft_prec ft) (ft_emax ft) f = true.
Lemma ft_format ft : ft_ok ft → (1 < ft_prec ft ≤ 53) ∧ (ft_prec ft + 2 ≤ ft_emax ft ≤ 1024).
Proof. by intros [-> | ->]. Qed.
Lemma double_format : (1 < 53 ≤ 53) ∧ (53 + 2 ≤ 1024 ≤ 1024).
Proof. done. Qed.
Lemma finite_valid ft s m e : ft_ok ft → Zpos m < 2 ^ ft_prec ft → emin (ft_prec ft) (ft_emax ft) ≤ e ≤ ft_emax ft - ft_prec ft →
  (e = emin (ft_prec ft) (ft_emax ft) ∨ 2 ^ (ft_prec ft - 1) ≤ Zpos m) → is_float ft (S754_finite s m e).
Proof. intros [H1 H2]%ft_format Hm He Hn. by apply (bounded_spec _ _ H1 H2). Qed.
Lemma floatOfBits_valid ft bits : ft_ok ft → is_float ft (floatOfBits ft bits).
Proof.
  intros Hft. unfold floatOfBits. cbv zeta. set (frac := bits mod _). set (e := (_ / _) mod _). set (s := Z.testbit _ _). clearbody s.
  assert (0 ≤ frac < 2 ^ (ft_prec ft - 1) ∧ 0 ≤ e < 2 ^ (ft_size ft * 8 - ft_prec ft)) as [Hf He] by (split; apply Z.mod_pos_bound; apply Z.pow_pos_nonneg; destruct Hft as [-> | ->]; done).
  clearbody frac e. destruct (Z.eqb_spec e (2 ^ (ft_size ft * 8 - ft_prec ft) - 1)); [by destruct (frac =? 0)|]. destruct (Z.eqb_spec e 0) as [->|].
  - destruct (Z.eqb_spec frac 0); [done|]. apply finite_valid; [done|rewrite Z2Pos.id by lia| |by left].
    + eapply Z.lt_le_trans; [apply Hf|]. apply Z.pow_le_mono_r; [done|lia].
    + destruct Hft as [-> | ->]; done.
  - apply finite_valid; [done|rewrite Z2Pos.id by lia|..].
    + destruct Hft as [-> | ->]; cbn [ft_prec single double] in *; lia.
    + destruct Hft as [-> | ->]; unfold emin; cbn [ft_prec ft_emax ft_size single double] in *; change (2 ^ (4 * 8 - 24)) with 256 in *; change (2 ^ (8 * 8 - 53)) with 2048 in *; lia.
    + right. rewrite Z2Pos.id by lia. lia.
Qed.
Lemma grid_double ft Y : ft_ok ft → grid (ft_prec ft) (ft_emax ft) Y → grid 53 1024 Y.
Proof.
  intros Hft (m & e & Hm & He & E). exists m, e. split_and!; [lia|eapply Z.lt_le_trans; [apply Hm|]; apply Z.pow_le_mono_r; [done|by destruct Hft as [-> | ->]]|..|done];
    unfold emin in *; destruct Hft as [-> | ->]; cbn [ft_prec ft_emax single double] in *; lia.
Qed.
Lemma narrow_rounds ft f : ft_ok ft → is_float double f → isFinite f = true → rounds (ft_prec ft) (ft_emax ft) (place f) (narrow ft f).
Proof.
  intros Hft Hv Hf. destruct (ft_format ft Hft) as [H1 H2]. destruct f as [s|s| |s m e]; try discriminate Hf; cbn [narrow].
  - destruct s; by apply zero_rounds.
  - apply (binary_round_rounds _ _ H1 H2 s m e). pose proof (valid_exponent 53 1024 (proj1 double_format) (proj2 double_format) s m e Hv). pose proof (low_grain 53 1024 (proj1 double_format) (proj2 double_format)). lia.
Qed.
Lemma toDouble_rounds ft f : ft_ok ft → is_float ft f → isFinite f = true → rounds 53 1024 (place f) (toDouble f).
Proof.
  intros Hft Hv Hf. destruct (ft_format ft Hft) as [H1 H2]. destruct double_format as [D1 D2]. destruct f as [s|s| |s m e]; try discriminate Hf; unfold toDouble; cbn [narrow].
  - destruct s; by apply zero_rounds.
  - apply (binary_round_rounds _ _ D1 D2 s m e). pose proof (valid_exponent _ _ H1 H2 s m e Hv). pose proof (low_grain _ _ H1 H2). lia.
Qed.
Lemma toDouble_place ft f : ft_ok ft → is_float ft f → isFinite f = true → is_float double (toDouble f) ∧ isFinite (toDouble f) = true ∧ place (toDouble f) = place f.
Proof.
  intros Hft Hv Hf. destruct (ft_format ft Hft) as [H1 H2]. destruct double_format as [D1 D2]. pose proof (toDouble_rounds ft f Hft Hv Hf) as Hr.
  pose proof (grid_double ft _ Hft (place_grid _ _ H1 H2 f Hv Hf)) as Hg. split; [apply Hr|]. pose proof (rounds_exact _ _ _ _ Hr Hg) as E. split; [|done].
  apply (place_finite _ _ D1 D2); [apply Hr|apply Hr|]. rewrite E. by apply (infinity_beyond _ _ D1 D2).
Qed.
(** Integers to [2^53] are doubles. *)
Lemma integer_grid k : Z.abs k ≤ 2 ^ 53 → grid 53 1024 (k * units 0).
Proof.
  intros Hk. pose proof grain_2200. pose proof (units_pos 0 ltac:(lia)). unfold grid. rewrite Z.abs_mul, (Z.abs_eq (units 0)) by lia. destruct (decide (Z.abs k = 2 ^ 53)) as [->|].
  - exists 1, 53. split_and!; [done..|]. rewrite (units_split 0 53) by lia. rewrite Z.sub_0_r. ring.
  - exists (Z.abs k), 0. split_and!; try done; lia.
Qed.
Lemma doubleOfInt_place k : Z.abs k ≤ 2 ^ 53 → is_float double (doubleOfInt k) ∧ isFinite (doubleOfInt k) = true ∧ place (doubleOfInt k) = k * units 0.
Proof.
  intros Hk. destruct double_format as [D1 D2]. pose proof (integer_grid k Hk) as Hg. pose proof grain_2200. pose proof (normalize_rounds _ _ D1 D2 k 0 false ltac:(lia)) as Hr. fold (doubleOfInt k) in Hr.
  pose proof (rounds_exact _ _ _ _ Hr Hg) as E. split; [apply Hr|]. split; [|done]. apply (place_finite _ _ D1 D2); [apply Hr|apply Hr|]. rewrite E. by apply (infinity_beyond _ _ D1 D2).
Qed.

(** ** The next value *)

Lemma ulp_spec ft e : ft_ok ft → emin (ft_prec ft) (ft_emax ft) ≤ e → let d := SFldexp (ft_prec ft) (ft_emax ft) (SFone (ft_prec ft) (ft_emax ft)) e in
  is_float ft d ∧ 0 ≤ place d ∧ (isFinite d = true ∨ d = S754_infinity false).
Proof.
  intros Hft He. cbv zeta. destruct (ft_format ft Hft) as [H1 H2]. pose proof (low_grain _ _ H1 H2). assert (∃ m, SFone (ft_prec ft) (ft_emax ft) = S754_finite false m (1 - ft_prec ft)) as (m & ->) by (destruct Hft as [-> | ->]; by eexists).
  cbn [SFldexp]. assert (- grain ≤ 1 - ft_prec ft + e) as Hg by lia. pose proof (binary_round_rounds _ _ H1 H2 false m _ Hg) as Hr. pose proof (ld_sign _ _ _ _ _ (round_spec _ _ H1 H2 false m _ Hg)) as Hs.
  cbv iota in Hr. destruct (binary_round _ _ false m _) as [s|s| |s m' e'] eqn:E; cbn [negative] in Hs; subst.
  - split; [done|]. split; [done|]. by left.
  - split; [done|]. split; [|by right]. by apply Hr; [apply zero_grid|]; pose proof (units_pos _ Hg); lia.
  - discriminate (rd_number _ _ _ _ Hr).
  - split; [apply Hr|]. split; [|by left]. apply Hr; [by apply zero_grid|]. pose proof (units_pos _ Hg). lia.
Qed.
Definition nextTo (ft : FloatType) (f g : spec_float) : Prop := is_float ft g ∧ isNan g = false ∧ place f ≤ place g.
Lemma next_add ft f d : ft_ok ft → is_float ft f → isFinite f = true → is_float ft d → 0 ≤ place d → isFinite d = true ∨ d = S754_infinity false → nextTo ft f (SFadd (ft_prec ft) (ft_emax ft) f d).
Proof.
  intros Hft Hv Hf Hd Hpos Hcase. destruct (ft_format ft Hft) as [H1 H2]. destruct Hcase as [Hfin| ->].
  - destruct (add_rounds _ _ H1 H2 f d Hv Hd Hf Hfin) as [Hr Hn _ Habove]. split; [done|]. split; [done|]. apply Habove; [by apply place_grid|lia].
  - assert (SFadd (ft_prec ft) (ft_emax ft) f (S754_infinity false) = S754_infinity false) as -> by (by destruct f as [[]|[]| |[]]). split; [done|]. split; [done|]. pose proof (infinity_beyond _ _ H1 H2 _ (place_grid _ _ H1 H2 f Hv Hf)).
    change (place (S754_infinity false)) with (units 1024). lia.
Qed.
Lemma next_sub ft f d : ft_ok ft → is_float ft f → isFinite f = true → is_float ft d → 0 ≤ place d → isFinite d = true ∨ d = S754_infinity false →
  nextTo ft (SFopp f) (SFopp (SFsub (ft_prec ft) (ft_emax ft) f d)).
Proof.
  intros Hft Hv Hf Hd Hpos Hcase. destruct (ft_format ft Hft) as [H1 H2]. assert (∀ g, is_float ft g → isNan g = false → place g ≤ place f → nextTo ft (SFopp f) (SFopp g)) as Hopp.
  { intros g Hg Hn Hle. split; [by apply valid_opp|]. split; [by destruct g|]. rewrite !place_opp. lia. }
  destruct Hcase as [Hfin| ->].
  - destruct (sub_rounds _ _ H1 H2 f d Hv Hd Hf Hfin) as [Hr Hn Hbelow _]. apply Hopp; [done|done|]. apply Hbelow; [by apply place_grid|lia].
  - assert (SFsub (ft_prec ft) (ft_emax ft) f (S754_infinity false) = S754_infinity true) as -> by (by destruct f as [[]|[]| |[]]). apply Hopp; [done|done|]. pose proof (infinity_beyond _ _ H1 H2 _ (place_grid _ _ H1 H2 f Hv Hf)).
    change (place (S754_infinity true)) with (- units 1024). lia.
Qed.
Lemma succ_above ft f : ft_ok ft → is_float ft f → isNan f = false → nextTo ft f (SFsucc (ft_prec ft) (ft_emax ft) f).
Proof.
  intros Hft Hv Hn. destruct (ft_format ft Hft) as [H1 H2]. pose proof (low_grain _ _ H1 H2) as Hlow. destruct f as [s|[]| |[] m e]; try done; cbn [SFsucc].
  - destruct (ulp_spec ft (emin (ft_prec ft) (ft_emax ft)) Hft ltac:(lia)) as (Hd & Hp & Hc). split; [done|]. split; [by destruct Hc as [?| ->]; [destruct (SFldexp _ _ _ _)|]|]. by destruct s.
  - split; [by destruct Hft as [-> | ->]|]. split; [done|]. rewrite place_opp. change (place (S754_infinity true)) with (- units 1024).
    assert (is_float ft (SFmax_float (ft_prec ft) (ft_emax ft))) as Hm by (by destruct Hft as [-> | ->]). pose proof (infinity_beyond _ _ H1 H2 _ (place_grid _ _ H1 H2 _ Hm eq_refl)). lia.
  - change (SFopp (S754_finite true m e)) with (S754_finite false m e). change (S754_finite true m e) with (SFopp (S754_finite false m e)).
    set (f := S754_finite false m e). change (SFpred_pos (ft_prec ft) (ft_emax ft) f) with (SFsub (ft_prec ft) (ft_emax ft) f (if Pos.eqb m~0 (Pos.iter xO xH (Z.to_pos (ft_prec ft))) then SFldexp (ft_prec ft) (ft_emax ft) (SFone (ft_prec ft) (ft_emax ft)) (fexp (ft_prec ft) (ft_emax ft) (Z.sub (snd (SFfrexp (ft_prec ft) (ft_emax ft) f)) 1)) else SFulp (ft_prec ft) (ft_emax ft) f)).
    destruct (Pos.eqb _ _); [|unfold SFulp]; (apply next_sub; [done|done|done|apply ulp_spec; [done|unfold fexp; lia]..]).
  - apply next_add; [done|done|done|unfold SFulp; apply ulp_spec; [done|unfold fexp; lia]..].
Qed.
Lemma pred_below ft f : ft_ok ft → is_float ft f → isNan f = false → let g := SFpred (ft_prec ft) (ft_emax ft) f in is_float ft g ∧ isNan g = false ∧ place g ≤ place f.
Proof.
  intros Hft Hv Hn. cbv zeta. unfold SFpred. destruct (succ_above ft (SFopp f) Hft ltac:(by apply valid_opp) ltac:(by destruct f)) as (H1 & H2 & H3). rewrite place_opp in H3. split; [by apply valid_opp|].
  split; [by destruct (SFsucc _ _ _)|]. rewrite place_opp. lia.
Qed.

(** ** Whole numbers *)

Lemma wholeMagnitude_near half m e : - grain ≤ e → Zpos m < 2 ^ 53 → 
  Z.abs (Zpos m * units e - wholeMagnitude half m e * units 0) ≤ units 0 ∧ (e < 0 → 0 ≤ wholeMagnitude half m e ≤ 2 ^ 53) ∧ (0 ≤ e → wholeMagnitude half m e * units 0 = Zpos m * units e).
Proof.
  intros He Hm. pose proof grain_2200. pose proof (units_pos 0 ltac:(lia)) as H0. pose proof (units_pos e He) as Hu. unfold wholeMagnitude. destruct (Z.leb_spec 0 e) as [Hge|Hlt].
  - assert (Zpos m * 2 ^ e * units 0 = Zpos m * units e) as E by (rewrite (units_split 0 e) by lia; rewrite Z.sub_0_r; ring). rewrite E. split; [rewrite Z.sub_diag; cbn; lia|]. split; [lia|done].
  - pose proof (units_split e 0 ltac:(lia)) as E0. rewrite Z.sub_0_l in E0. assert (2 ^ (- e) = 2 * 2 ^ (- e - 1)) as EP by (rewrite <- Z.pow_succ_r by lia; f_equal; lia). pose proof (Z.pow_pos_nonneg 2 (- e - 1) ltac:(lia) ltac:(lia)) as HP.
    set (h := if half then 2 ^ (- e - 1) else 0). assert (0 ≤ h ≤ 2 ^ (- e - 1)) as Hh by (unfold h; destruct half; lia). rewrite EP in E0 |- *. rewrite E0. set (P := 2 ^ (- e - 1)) in *. clearbody P h.
    pose proof (Z.div_mod (Zpos m + h) (2 * P) ltac:(lia)) as Hdm. pose proof (Z.mod_pos_bound (Zpos m + h) (2 * P) ltac:(lia)) as Hb. set (W := (Zpos m + h) / (2 * P)) in *. set (r := (Zpos m + h) mod (2 * P)) in *. clearbody W r.
    split; [|split; [|lia]].
    + replace (Zpos m * units e - W * (units e * (2 * P))) with ((r - h) * units e) by (replace (Zpos m) with (2 * P * W + r - h) by lia; ring). rewrite Z.abs_mul, (Z.abs_eq (units e)) by lia. rewrite (Z.mul_comm (units e)). apply Z.mul_le_mono_nonneg_r; lia.
    + intros _. nia.
Qed.
Lemma whole_near half f : is_float double f → isFinite f = true → ∃ n, is_float double (wholeDouble half f) ∧ isNan (wholeDouble half f) = false ∧ place (wholeDouble half f) = n * units 0 ∧
  Z.abs (place f - n * units 0) ≤ units 0 ∧ (half = true → llround f = n).
Proof.
  intros Hv Hf. destruct double_format as [D1 D2]. pose proof grain_2200. pose proof (units_pos 0 ltac:(lia)) as H0. destruct f as [s|s| |s m e]; try discriminate Hf.
  - exists 0. split; [done|]. split; [done|]. assert (place (S754_zero s) = 0) as Hz by (by destruct s). rewrite Hz. split; [done|]. split; [cbn; lia|done].
  - destruct (proj1 (bounded_spec _ _ D1 D2 m e) Hv) as (Hm & He & _). destruct (wholeMagnitude_near half m e) as (Hnear & Hsmall & Hbig); [pose proof (low_grain _ _ D1 D2); lia|done|].
    cbn [wholeDouble llround]. set (W := wholeMagnitude half m e) in *. exists (cond_Zopp s W).
    assert (grid 53 1024 (cond_Zopp s W * units 0)) as Hg.
    { assert (grid 53 1024 (W * units 0)) as Hg; [|destruct s; [cbn; rewrite Z.mul_opp_l; by apply grid_opp|done]]. destruct (Z.lt_ge_cases e 0) as [Hlt|Hge]; [apply integer_grid; specialize (Hsmall Hlt); lia|].
      rewrite (Hbig Hge). unfold grid. rewrite Z.abs_eq by (pose proof (units_pos e ltac:(lia)); nia). exact (size_grid _ _ D1 D2 s m e Hv). }
    pose proof (normalize_rounds _ _ D1 D2 (cond_Zopp s W) 0 s ltac:(lia)) as Hr. split; [apply Hr|]. split; [apply Hr|]. split; [by apply (rounds_exact _ _ _ _ Hr)|].
    split; [|intros ->; done]. unfold place. cbn [negative size]. destruct s; cbn [cond_Zopp]; lia.
Qed.

(** ** Distances *)

Lemma place_SFabs f : is_float double f → place (SFabs f) = Z.abs (place f) ∧ is_float double (SFabs f) ∧ isNan (SFabs f) = isNan f.
Proof.
  intros Hv. destruct double_format as [D1 D2]. split; [|by destruct f]. rewrite (place_abs _ _ D1 D2) by done. by destruct f.
Qed.
(** A rounded distance below a value of the format is a distance of at most that value. *)
Lemma distance_bound a b bound D : is_float double a → is_float double b → isFinite a = true → isFinite b = true → is_float double bound → grid 53 1024 D → place bound < D →
  SFleb (SFabs (dsub a b)) bound = true → Z.abs (place a - place b) ≤ D.
Proof.
  intros Ha Hb Fa Fb Hbound HD Hlt Hle. destruct double_format as [D1 D2]. destruct (sub_rounds _ _ D1 D2 a b Ha Hb Fa Fb) as [Hv Hn Hbelow Habove]. change (SFsub 53 1024 a b) with (dsub a b) in *.
  destruct (place_SFabs (dsub a b) Hv) as (Eabs & Hva & Hna). assert (isNan bound = false) as Hnb by (destruct bound; try done; by destruct (SFabs (dsub a b))).
  rewrite (leb_place _ _ D1 D2), Eabs in Hle by (done || congruence). destruct (Z.le_gt_cases (Z.abs (place a - place b)) D) as [|Hgt]; [done|exfalso].
  destruct (Z.le_gt_cases 0 (place a - place b)); [specialize (Habove D HD)|specialize (Hbelow (- D) (grid_opp _ _ D HD))]; lia.
Qed.
Lemma narrow_bounds ft g Y : ft_ok ft → is_float double g → isNan g = false → grid (ft_prec ft) (ft_emax ft) Y → 
  is_float ft (narrow ft g) ∧ isNan (narrow ft g) = false ∧ (place g ≤ Y → place (narrow ft g) ≤ Y) ∧ (Y ≤ place g → Y ≤ place (narrow ft g)).
Proof.
  intros Hft Hv Hn HY. destruct (isFinite g) eqn:Hf.
  - destruct (narrow_rounds ft g Hft Hv Hf) as [H1 H2 H3 H4]. split; [done|]. split; [done|]. split; auto.
  - by destruct g as [|s| |].
Qed.
