(* ===== verification/FloatScan.v ===== *)
(** * Scanning a buffer for floating-point values

    The floating-point first scans of [src/scanner/memory_scanner.cpp]: the scalar scan
    [scanBufferFloating], and the vectorised exact scans [tryScanExactFloat] chooses, by
    equality without rounding and by a window that is then verified with it. *)

From Stdlib Require Import SpecFloat.
From S2P Require Import Prelude TargetMachine Types Loops ScanBuffers PatternScan ScanNumber Floating NextCompare FloatOrder.
#[local] Open Scope Z_scope.

(** ** Vectors of floating-point lanes *)

Fixpoint lanesOf (lanes L : nat) (v : bytes) : list bytes :=
  match lanes with
  | O => []
  | S lanes => take L v :: lanesOf lanes L (drop L v)
  end.
(** [_mm*_cmp_ps], [_mm*_cmp_pd]: one answer per lane. *)
Definition cmpLanes (ft : FloatType) (test : spec_float → bool) (v : list bytes) : list bool :=
  (λ w, test (readScanFloat ft w Little)) <$> v.
(** [_mm*_and_ps], [_mm*_movemask_ps]. *)
Definition andLanes (a b : list bool) : list bool := zip_with andb a b.
Fixpoint movemaskLanes (v : list bool) : Z :=
  match v with
  | [] => 0
  | b :: v => Z.b2z b + 2 * movemaskLanes v
  end.

(** The shape of every vectorised scan: whole vectors of [W] lanes, then the rest. *)
Definition vectorScan (W nLanes : Z) (block rest : Z → outcome (list hit)) : outcome (list hit) :=
  let* (out, i) := forLoop (loopFuel (nLanes - W + 1) 0) (nLanes - W + 1) W block 0 in
  let* tail := rest i in
  Ret (out ++ tail).

Section Scan.
Context {lib : Library}.

(** One lane: read, tested, emitted. *)
Definition testLane (ft : FloatType) (buf : bytes) (base : Z) (test : spec_float → bool) (i : Z) : outcome (list hit) :=
  testAt buf (ft_size ft) base (λ w, test (readScanFloat ft w Little)) (i * ft_size ft).
(** The scalar loop from lane [i]; [roundedFloatScalarTail] with [verify]. *)
Definition floatLanes (ft : FloatType) (buf : bytes) (nLanes base : Z) (test : spec_float → bool) (i : Z) : outcome (list hit) :=
  forEach nLanes 1 (testLane ft buf base test) i.

(** [scanExactFloatAVX] ([vb = 32]) and [scanExactFloatSSE] ([vb = 16]). *)
Definition scanExactFloatVector (vb : Z) (ft : FloatType) (buf : bytes) (nLanes base : Z) (needle : spec_float) : outcome (list hit) :=
  let L := ft_size ft in
  let W := vb / L in
  vectorScan W nLanes (λ i,
    let* v := subspan buf (i * L) vb in
    let mask := movemaskLanes (cmpLanes ft (λ c, SFeqb c needle) (lanesOf (Z.to_nat W) (Z.to_nat L) v)) in
    if mask =? 0 then Ret [] else
    forEach W 1 (λ lane, if negb (Z.land mask (u32 (Z.shiftl 1 lane)) =? 0) then emit buf L base ((i + lane) * L) else Ret []) 0)
    (floatLanes ft buf nLanes base (λ c, SFeqb c needle)).
Definition scanExactFloatAVX := scanExactFloatVector 32.
Definition scanExactFloatSSE := scanExactFloatVector 16.

(** [scanRoundedFloatAVX] and [scanRoundedFloatSSE]: lanes in the window, then verified. *)
Definition scanRoundedFloatVector (vb : Z) (ft : FloatType) (buf : bytes) (nLanes base : Z) (lo hi : spec_float) (verify : spec_float → bool)
  : outcome (list hit) :=
  let L := ft_size ft in
  let W := vb / L in
  vectorScan W nLanes (λ i,
    let* v := subspan buf (i * L) vb in
    let lanes := lanesOf (Z.to_nat W) (Z.to_nat L) v in
    let mask := movemaskLanes (andLanes (cmpLanes ft (λ c, SFleb lo c) lanes) (cmpLanes ft (λ c, SFleb c hi) lanes)) in
    maskLoop (Z.to_nat W) (testLane ft buf base verify) i mask)
    (floatLanes ft buf nLanes base verify).
Definition scanRoundedFloatAVX := scanRoundedFloatVector 32.
Definition scanRoundedFloatSSE := scanRoundedFloatVector 16.

(** [std::nextafter] towards either infinity. *)
Definition nextDown (ft : FloatType) (f : spec_float) : spec_float := SFpred (ft_prec ft) (ft_emax ft) f.
Definition nextUp (ft : FloatType) (f : spec_float) : spec_float := SFsucc (ft_prec ft) (ft_emax ft) f.
(** The half-width of the window around the search value. *)
Definition windowWidth (config : ScanConfig) : spec_float :=
  let s := sc_floatValue config in
  let tol := if sc_roundingType config =? 3
             then if SFltb dzero (sc_floatTolerance config) then sc_floatTolerance config
                  else dmax (ratio 1 1000000) (dmul (SFabs s) (ratio 1 1000000))
             else dzero in
  dadd (dmax (doubleOfInt 2) tol) (doubleOfInt 2).
(** [tryScanExactFloat]; [None] when it answers [false]. *)
Definition tryScanExactFloat (mode : SimdMode) (ft : FloatType) (buf : bytes) (base alignment : Z) (config : ScanConfig)
  : option (outcome (list hit)) :=
  let L := ft_size ft in
  let s := sc_floatValue config in
  if negb (bool_decide (sc_compareType config = CmpExact)) then None
  else if negb (alignment =? L) then None
  else if len buf <? L then None
  else if negb (isFinite s) || negb (SFleb (SFabs s) (floatMax ft)) then None
  else
    let needle := narrow ft s in
    let nLanes := (len buf - L) / L + 1 in
    Some (if sc_roundingType config =? 0 then
            match mode with
            | AVX2 => scanExactFloatAVX ft buf nLanes base needle
            | SSE2 => scanExactFloatSSE ft buf nLanes base needle
            | Scalar => floatLanes ft buf nLanes base (λ c, SFeqb c needle) 0
            end
          else
            let hw := windowWidth config in
            let lo := nextDown ft (narrow ft (dsub s hw)) in
            let hi := nextUp ft (narrow ft (dadd s hw)) in
            let verify := λ c, compareFloatingExact ft config c s in
            match mode with
            | AVX2 => scanRoundedFloatAVX ft buf nLanes base lo hi verify
            | SSE2 => scanRoundedFloatSSE ft buf nLanes base lo hi verify
            | Scalar => floatLanes ft buf nLanes base verify 0
            end).

(** [scanBufferFloating]. *)
Definition scanBufferFloating (ft : FloatType) (buf : bytes) (baseAddr alignment : Z) (config : ScanConfig) : outcome (list hit) :=
  let L := ft_size ft in
  if len buf <? L then Ret [] else
  let alignment := if alignment =? 0 then 1 else alignment in
  let limit := len buf - L + 1 in
  forEach limit alignment (testAt buf L baseAddr (λ w, compareFloating ft config (readScanFloat ft w (sc_byteOrder config)))) 0.
End Scan.

(** ** The vectorised scans are the scalar scan *)

Lemma lanesOf_lookup lanes L v k : (k < lanes)%nat → lanesOf lanes L v !! k = Some (take L (drop (k * L) v)).
Proof.
  revert v k. induction lanes as [|lanes IH]; intros v k Hk; [lia|]. destruct k as [|k]; cbn [lanesOf lookup list_lookup]; [by rewrite drop_0|].
  rewrite IH by lia. by rewrite drop_drop.
Qed.
Lemma length_lanesOf lanes L v : length (lanesOf lanes L v) = lanes.
Proof. revert v. induction lanes as [|lanes IH]; intros v; [done|]. cbn. by rewrite IH. Qed.
Lemma testbit_movemaskLanes v k : Z.testbit (movemaskLanes v) (Z.of_nat k) = default false (v !! k).
Proof.
  revert k. induction v as [|b v IH]; intros k; [by rewrite Z.bits_0|]. cbn [movemaskLanes]. rewrite Z.add_comm. destruct k as [|k].
  - change (Z.of_nat 0) with 0. by rewrite Z.testbit_0_r.
  - rewrite Nat2Z.inj_succ, Z.testbit_succ_r by lia. apply IH.
Qed.
Lemma movemaskLanes_nonneg v : 0 ≤ movemaskLanes v.
Proof. induction v as [|b v IH]; cbn; [lia|]. destruct b; cbn; lia. Qed.

Lemma vectorScan_ret W nLanes block rest g : 1 ≤ W ≤ 32 → 0 ≤ nLanes < 2 ^ 63 →
  (∀ i, 0 ≤ i → i + W ≤ nLanes → block i = Ret (omap g (seqZ i W))) →
  (∀ i, 0 ≤ i ≤ nLanes → rest i = Ret (omap g (seqZ i (nLanes - i)))) →
  vectorScan W nLanes block rest = Ret (omap g (seqZ 0 nLanes)).
Proof.
  intros HW Hn Hblock Hrest. unfold vectorScan. rewrite (forLoop_spec _ _ _ _ (λ i, omap g (seqZ i W))).
  - cbn [obind]. assert (0 ≤ strideEnd 0 (nLanes - W + 1) W ≤ nLanes) as He.
    { unfold strideEnd. destruct (Z.ltb_spec 0 (nLanes - W + 1)); [|lia].
      pose proof (Z.mul_div_le (nLanes - W + 1 - 0 + W - 1) W ltac:(lia)).
      pose proof (Z.div_pos (nLanes - W + 1 - 0 + W - 1) W ltac:(lia) ltac:(lia)). lia. }
    rewrite Hrest by done. cbn [obind]. f_equal. replace (seqZ 0 nLanes) with (seqZ 0 (nLanes - 0)) by (f_equal; lia).
    rewrite (omap_seqZ_split _ 0 (strideEnd 0 (nLanes - W + 1) W)) by lia.
    f_equal. rewrite <- stride_blocks by lia. rewrite omap_mjoin. by rewrite <- list_fmap_compose.
  - lia.
  - done.
  - lia_w.
  - unfold loopFuel. lia.
  - intros j Hj%elem_of_stride. apply Hblock; lia.
Qed.

(** The hit of a lane. *)
Definition floatHit (ft : FloatType) (buf : bytes) (base : Z) (test : spec_float → bool) (i : Z) : option hit :=
  matchAt buf (ft_size ft) base (λ w, test (readScanFloat ft w Little)) (i * ft_size ft).

Lemma mask_high m v : Z.to_nat m = length v → ∀ i, m ≤ i → Z.testbit (movemaskLanes v) i = false.
Proof.
  intros Hm i Hi. destruct (decide (0 ≤ i)); [|apply Z.testbit_neg_r; lia]. replace i with (Z.of_nat (Z.to_nat i)) by lia. rewrite testbit_movemaskLanes.
  by rewrite lookup_ge_None_2 by lia.
Qed.
Lemma omap_lanes (f : Z → option hit) i W : mjoin ((λ k, option_list (f (i + k))) <$> seqZ 0 W) = omap f (seqZ i W).
Proof.
  rewrite <- mjoin_omap. transitivity (mjoin ((λ k, option_list (f k)) <$> ((λ k, i + k) <$> seqZ 0 W))); [by rewrite <- list_fmap_compose|].
  do 2 f_equal. etransitivity; [apply (fmap_add_seqZ i)|]. by rewrite Z.add_0_r.
Qed.

Section Lanes.
Context {lib : Library} (ft : FloatType) (Hft : ft_ok ft) (buf : bytes) (base : Z) (Hlen : len buf < 2 ^ 63) (Hl : ft_size ft ≤ len buf).
Let nLanes := (len buf - ft_size ft) / ft_size ft + 1.

Lemma lane_fits i : 0 ≤ i < nLanes → i * ft_size ft + ft_size ft ≤ len buf.
Proof using Hft Hl Hlen.
  intros Hi. unfold nLanes in Hi. assert (0 < ft_size ft) by (by destruct Hft as [-> | ->]).
  pose proof (Z.mul_div_le (len buf - ft_size ft) (ft_size ft) ltac:(lia)). nia.
Qed.
Lemma nLanes_range : 0 ≤ nLanes < 2 ^ 63.
Proof using Hft Hl Hlen.
  unfold nLanes. assert (1 < ft_size ft) by (by destruct Hft as [-> | ->]). split; [pose proof (Z.div_pos (len buf - ft_size ft) (ft_size ft)); lia|].
  pose proof (Z.div_le_upper_bound (len buf - ft_size ft) (ft_size ft) (len buf - ft_size ft) ltac:(lia) ltac:(nia)). lia.
Qed.
Lemma testLane_ret test i : 0 ≤ i < nLanes → testLane ft buf base test i = Ret (option_list (floatHit ft buf base test i)).
Proof using Hft Hl Hlen. intros Hi. pose proof (lane_fits i Hi). unfold testLane. apply testAt_ret; [|by destruct Hft as [-> | ->]|done]. assert (0 < ft_size ft) by (by destruct Hft as [-> | ->]). nia. Qed.
Lemma floatLanes_ret test i : 0 ≤ i ≤ nLanes → floatLanes ft buf nLanes base test i = Ret (omap (floatHit ft buf base test) (seqZ i (nLanes - i))).
Proof using Hft Hl Hlen.
  intros Hi. pose proof nLanes_range. unfold floatLanes. rewrite (forEach_spec _ _ _ (λ i, option_list (floatHit ft buf base test i))).
  - by rewrite mjoin_omap, stride_1.
  - done. - lia. - lia_w.
  - intros j Hj%elem_of_stride. apply testLane_ret. lia.
Qed.
(** The lanes of a vector, and the bits of its mask. *)
Lemma mask_bit test vb i lane : vb = 16 ∨ vb = 32 → 0 ≤ i → i + vb / ft_size ft ≤ nLanes → 0 ≤ lane < vb / ft_size ft →
  Z.testbit (movemaskLanes (cmpLanes ft test (lanesOf (Z.to_nat (vb / ft_size ft)) (Z.to_nat (ft_size ft)) (slice buf (i * ft_size ft) vb)))) lane
  = test (readScanFloat ft (slice buf ((i + lane) * ft_size ft) (ft_size ft)) Little).
Proof using Hft Hl Hlen.
  intros Hvb Hi Hin Hlane. assert (vb / ft_size ft * ft_size ft = vb ∧ 0 < ft_size ft) as [Hvw Hs] by (by destruct Hft as [-> | ->], Hvb as [-> | ->]).
  replace lane with (Z.of_nat (Z.to_nat lane)) at 1 by lia. rewrite testbit_movemaskLanes. unfold cmpLanes. rewrite list_lookup_fmap, lanesOf_lookup by lia.
  cbn [fmap option_fmap option_map default from_option]. unfold id. do 2 f_equal.
  replace (Z.to_nat lane * Z.to_nat (ft_size ft))%nat with (Z.to_nat (lane * ft_size ft)) by nia.
  change (slice (slice buf (i * ft_size ft) vb) (lane * ft_size ft) (ft_size ft) = slice buf ((i + lane) * ft_size ft) (ft_size ft)).
  rewrite slice_slice by nia. f_equal. lia.
Qed.
Lemma vector_fits vb i : vb = 16 ∨ vb = 32 → 0 ≤ i → i + vb / ft_size ft ≤ nLanes →
  subspan buf (i * ft_size ft) vb = Ret (slice buf (i * ft_size ft) vb) ∧ 1 ≤ vb / ft_size ft ≤ 32.
Proof using Hft Hl Hlen.
  intros Hvb Hi Hin. assert (vb / ft_size ft * ft_size ft = vb ∧ 0 < ft_size ft ∧ 1 ≤ vb / ft_size ft ≤ 32) as (Hvw & Hs & HW) by (by destruct Hft as [-> | ->], Hvb as [-> | ->]).
  pose proof (lane_fits (i + vb / ft_size ft - 1) ltac:(lia)). split; [|done]. destruct (subspan_defined buf (i * ft_size ft) vb) as [-> _]; [nia|lia|nia|done].
Qed.
Lemma scanExactFloatVector_ret vb needle : vb = 16 ∨ vb = 32 →
  scanExactFloatVector vb ft buf nLanes base needle = Ret (omap (floatHit ft buf base (λ c, SFeqb c needle)) (seqZ 0 nLanes)).
Proof using Hft Hl Hlen.
  intros Hvb. pose proof nLanes_range. unfold scanExactFloatVector. cbv zeta. apply vectorScan_ret; [by destruct Hft as [-> | ->], Hvb as [-> | ->]|done| |by intros; apply floatLanes_ret].
  intros i Hi Hin. destruct (vector_fits vb i Hvb Hi Hin) as [-> HW]. cbn [obind]. set (mask := movemaskLanes _).
  assert (∀ lane, 0 ≤ lane < vb / ft_size ft → Z.testbit mask lane = SFeqb (readScanFloat ft (slice buf ((i + lane) * ft_size ft) (ft_size ft)) Little) needle) as Hbit
    by (intros lane Hlane; by apply (mask_bit (λ c, SFeqb c needle))).
  transitivity (forEach (vb / ft_size ft) 1 (λ lane, if negb (Z.land mask (u32 (Z.shiftl 1 lane)) =? 0) then emit buf (ft_size ft) base ((i + lane) * ft_size ft) else Ret []) 0).
  { destruct (Z.eqb_spec mask 0) as [Hz|]; [|done]. rewrite (forEach_spec _ _ _ (λ _, [])); [f_equal; by induction (stride _ _ _)|done|done|lia_w|]. intros j Hj. by rewrite Hz. }
  rewrite (forEach_spec _ _ _ (λ k, option_list (floatHit ft buf base (λ c, SFeqb c needle) (i + k)))); [|done|done|lia_w|].
  - rewrite stride_1, Z.sub_0_r. by rewrite omap_lanes.
  - intros k Hk%elem_of_stride. rewrite land_bit_test, Hbit by lia. pose proof (lane_fits (i + k) ltac:(lia)). unfold floatHit, matchAt.
    destruct (SFeqb _ _); [|done]. assert (0 < ft_size ft) by (by destruct Hft as [-> | ->]). apply emit_ret; nia.
Qed.
Lemma scanRoundedFloatVector_ret vb lo hi verify : vb = 16 ∨ vb = 32 → 
  (∀ w, let c := readScanFloat ft w Little in verify c = true → SFleb lo c = true ∧ SFleb c hi = true) →
  scanRoundedFloatVector vb ft buf nLanes base lo hi verify = Ret (omap (floatHit ft buf base verify) (seqZ 0 nLanes)).
Proof using Hft Hl Hlen.
  intros Hvb Hcover. pose proof nLanes_range. unfold scanRoundedFloatVector. cbv zeta. apply vectorScan_ret; [by destruct Hft as [-> | ->], Hvb as [-> | ->]|done| |by intros; apply floatLanes_ret].
  intros i Hi Hin. destruct (vector_fits vb i Hvb Hi Hin) as [-> HW]. cbn [obind]. set (lanes := lanesOf _ _ _).
  assert (andLanes (cmpLanes ft (λ c, SFleb lo c) lanes) (cmpLanes ft (λ c, SFleb c hi) lanes) = cmpLanes ft (λ c, SFleb lo c && SFleb c hi) lanes) as ->
    by (unfold andLanes, cmpLanes; induction lanes as [|w l IH]; [done|]; cbn; by rewrite IH).
  set (mask := movemaskLanes _). set (W := vb / ft_size ft) in *.
  assert (∀ lane, 0 ≤ lane < W → Z.testbit mask lane = SFleb lo (readScanFloat ft (slice buf ((i + lane) * ft_size ft) (ft_size ft)) Little)
    && SFleb (readScanFloat ft (slice buf ((i + lane) * ft_size ft) (ft_size ft)) Little) hi) as Hbit
    by (intros lane Hlane; by apply (mask_bit (λ c, SFleb lo c && SFleb c hi))).
  rewrite (maskLoop_ret _ (λ k, option_list (floatHit ft buf base verify k)) i (Z.to_nat W) 0).
  - f_equal. rewrite Z2Nat.id by lia. rewrite <- omap_lanes. apply mjoin_fmap_ext. intros k Hk%elem_of_seqZ. destruct (Z.testbit mask k) eqn:Hb; [done|].
    rewrite Hbit in Hb by lia. unfold floatHit, matchAt. destruct (verify _) eqn:Hv; [|done]. apply Hcover in Hv as [Hv1 Hv2]. by rewrite Hv1, Hv2 in Hb.
  - done.
  - intros k Hk Hb. destruct (decide (k < W)); [lia|]. unfold mask in Hb. rewrite (mask_high W) in Hb; [done|unfold cmpLanes; rewrite length_fmap; unfold lanes; by rewrite length_lanesOf|lia].
  - apply movemaskLanes_nonneg.
  - done.
  - intros k Hk Hb. apply testLane_ret. lia.
Qed.
End Lanes.

(** ** The scan of one type *)

Section FloatScan.
Context {lib : Library}.

(** How the first scan chooses between the two. *)
Definition scanFloatTarget (mode : SimdMode) (ft : FloatType) (buf : bytes) (base alignment : Z) (config : ScanConfig) : outcome (list hit) :=
  if negb (bool_decide (sc_byteOrder config = nativeScanByteOrder)) then scanBufferFloating ft buf base alignment config
  else match tryScanExactFloat mode ft buf base alignment config with
       | Some result => result
       | None => scanBufferFloating ft buf base alignment config
       end.
(** ** The window of the rounded scans *)

(** What the extreme rounding tolerates. *)
Definition extremeTolerance (config : ScanConfig) : spec_float :=
  if SFltb dzero (sc_floatTolerance config) then sc_floatTolerance config else dmax (ratio 1 1000000) (dmul (SFabs (sc_floatValue config)) (ratio 1 1000000)).
(** The values of a configuration are doubles; [std::pow] gives a fraction for a negative
    power of ten; and a tolerance of [2^52] or more is not asked for, where the sum of the
    search value and the tolerance may round past a value in reach. *)
Record float_ok (config : ScanConfig) : Prop := {
  fo_value : is_float double (sc_floatValue config);
  fo_tolerance : is_float double (sc_floatTolerance config);
  fo_rounding : 0 ≤ sc_roundingType config ≤ 3;
  fo_pow10 : let n := sc_floatDecimals config in 0 ≤ n → is_float double (pow10 (- n)) ∧ isFinite (pow10 (- n)) = true ∧ SFleb (pow10 (- n)) (doubleOfInt 1) = true;
  fo_extreme : sc_roundingType config = 3 → SFltb (extremeTolerance config) (doubleOfInt (2 ^ 52)) = true
}.
Definition windowLow (ft : FloatType) (config : ScanConfig) : spec_float := nextDown ft (narrow ft (dsub (sc_floatValue config) (windowWidth config))).
Definition windowHigh (ft : FloatType) (config : ScanConfig) : spec_float := nextUp ft (narrow ft (dadd (sc_floatValue config) (windowWidth config))).

Lemma dmax_spec a b : is_float double a → is_float double b → isNan a = false → isNan b = false → is_float double (dmax a b) ∧ isNan (dmax a b) = false ∧ place (dmax a b) = Z.max (place a) (place b).
Proof.
  intros Ha Hb Na Nb. destruct double_format as [D1 D2]. unfold dmax. pose proof (ltb_place _ _ D1 D2 a b Ha Hb Na Nb) as Hlt. destruct (SFltb a b); split; try done; (split; [done|]).
  - assert (place a < place b) by by apply Hlt. lia.
  - assert (¬ place a < place b) by (intros H%Hlt; done). lia.
Qed.
Lemma extremeTolerance_double config : float_ok config → isFinite (sc_floatValue config) = true → is_float double (extremeTolerance config) ∧ isNan (extremeTolerance config) = false.
Proof.
  intros [Hv Ht _ _ _] Hf. destruct double_format as [D1 D2]. unfold extremeTolerance. destruct (SFltb dzero (sc_floatTolerance config)) eqn:E; [split; [done|]; by destruct (sc_floatTolerance config)|].
  destruct (place_SFabs _ Hv) as (_ & Hva & _). assert (isFinite (SFabs (sc_floatValue config)) = true) as Hfa by (by destruct (sc_floatValue config)).
  assert (is_float double (ratio 1 1000000) ∧ isFinite (ratio 1 1000000) = true) as [Hr Hrf] by (by vm_compute). set (q := ratio 1 1000000) in *. clearbody q.
  set (s := SFabs (sc_floatValue config)) in *. clearbody s.
  destruct (mul_rounds _ _ D1 D2 s q Hva Hr Hfa Hrf) as (X & _ & H). fold (dmul s q) in H. pose proof (rd_valid _ _ _ _ H). pose proof (rd_number _ _ _ _ H).
  assert (isNan q = false) as Hqn by (by destruct q). by destruct (dmax_spec q (dmul s q)) as (? & ? & _).
Qed.
(** The window is as wide as the tolerance and two more. *)
Lemma windowWidth_spec config : float_ok config → isFinite (sc_floatValue config) = true → ∃ k, 2 ≤ k ≤ 2 ^ 53 ∧ is_float double (windowWidth config) ∧ isFinite (windowWidth config) = true ∧ k * units 0 ≤ place (windowWidth config) ∧
  (sc_roundingType config = 3 → place (extremeTolerance config) < k * units 0).
Proof.
  intros Hok Hf. destruct double_format as [D1 D2]. pose proof grain_2200. pose proof (units_pos 0 ltac:(lia)) as H0. destruct (doubleOfInt_place 2 ltac:(done)) as (Hv2 & Hf2 & H2).
  assert (∃ tol k, windowWidth config = dadd (dmax (doubleOfInt 2) tol) (doubleOfInt 2) ∧ is_float double tol ∧ isNan tol = false ∧ 2 ≤ k ≤ 2 ^ 52 ∧ k * units 0 ≤ Z.max (2 * units 0) (place tol) + 2 * units 0 ∧ place tol < 2 ^ 52 * units 0 ∧
    (sc_roundingType config = 3 → place (extremeTolerance config) < k * units 0)) as (tol & k & -> & Htol & Hnan & Hk & Hw & Hsmall & Hext).
  { unfold windowWidth. cbv zeta. destruct (Z.eqb_spec (sc_roundingType config) 3) as [E|E].
    - fold (extremeTolerance config). destruct (extremeTolerance_double config Hok Hf) as [Ht Hn]. pose proof (fo_extreme _ Hok E) as Hlt. destruct (doubleOfInt_place (2 ^ 52) ltac:(done)) as (Hvb & Hfb & Hb).
      rewrite (ltb_place _ _ D1 D2), Hb in Hlt by (done || by destruct (doubleOfInt (2 ^ 52))). set (T := place (extremeTolerance config)) in *.
      exists (extremeTolerance config), (Z.max 2 (T / units 0 + 1)). pose proof (Z.div_mod T (units 0) ltac:(lia)) as Hdm. pose proof (Z.mod_pos_bound T (units 0) H0) as Hm.
      assert (T / units 0 < 2 ^ 52) by (apply Z.div_lt_upper_bound; lia). split_and!; try done; try lia. intros _. nia.
    - exists dzero, 2. split_and!; try done; lia. }
  destruct (dmax_spec (doubleOfInt 2) tol Hv2 Htol ltac:(by destruct (doubleOfInt 2)) Hnan) as (Hvm & Hnm & Em). rewrite H2 in Em.
  assert (isFinite (dmax (doubleOfInt 2) tol) = true) as Hfm.
  { apply (place_finite _ _ D1 D2); [done|done|]. pose proof (infinity_beyond _ _ D1 D2 (2 ^ 52 * units 0) (integer_grid (2 ^ 52) ltac:(done))). lia. }
  pose proof (add_rounds _ _ D1 D2 _ _ Hvm Hv2 Hfm Hf2) as Hr. fold (dadd (dmax (doubleOfInt 2) tol) (doubleOfInt 2)) in Hr. rewrite Em, H2 in Hr. exists k. split; [lia|]. split; [apply Hr|].
  split; [|split; [|done]].
  - apply (rounds_finite _ _ D1 D2 _ _ (2 ^ 53 * units 0) Hr); [by apply integer_grid|]. lia.
  - apply (rd_above _ _ _ _ Hr); [apply integer_grid; lia|done].
Qed.
(** A half of a fraction is less than a unit. *)
Lemma half_fraction p : is_float double p → isFinite p = true → SFleb p (doubleOfInt 1) = true → is_float double (dmul (ratio 1 2) p) ∧ place (dmul (ratio 1 2) p) < units 0.
Proof.
  intros Hp Fp Hle. destruct double_format as [D1 D2]. pose proof grain_2200. pose proof (units_pos 0 ltac:(lia)) as H0. destruct (doubleOfInt_place 1 ltac:(done)) as (Hv1 & Hf1 & H1).
  rewrite (leb_place _ _ D1 D2), H1 in Hle by (done || (by destruct p)). assert (is_float double (ratio 1 2) ∧ isFinite (ratio 1 2) = true ∧ 2 * place (ratio 1 2) = units 0) as (Hh & Fh & E) by (by vm_compute).
  destruct (mul_rounds _ _ D1 D2 (ratio 1 2) p Hh Hp Fh Fp) as (X & EX & Hr). split; [apply Hr|]. pose proof (rd_below _ _ _ _ Hr (place (ratio 1 2)) (place_grid _ _ D1 D2 _ Hh Fh)) as Hb. fold (dmul (ratio 1 2) p) in Hb.
  assert (X ≤ place (ratio 1 2)) as HX by nia. specialize (Hb HX). lia.
Qed.
(** What the exact verification accepts is near the search value. *)
Lemma verified_near ft config c k : ft_ok ft → float_ok config → is_float ft c → isFinite (sc_floatValue config) = true → sc_roundingType config ≠ 0 →
  compareFloatingExact ft config c (sc_floatValue config) = true → 2 ≤ k ≤ 2 ^ 53 → (sc_roundingType config = 3 → place (extremeTolerance config) < k * units 0) →
  isFinite c = true ∧ Z.abs (place c - place (sc_floatValue config)) ≤ k * units 0.
Proof.
  intros Hft Hok Hc Hf Hr0 Hcmp Hk Hext. destruct double_format as [D1 D2]. pose proof grain_2200. pose proof (units_pos 0 ltac:(lia)) as H0. pose proof Hok as [Hv _ Hr Hpow _]. unfold compareFloatingExact in Hcmp. set (s := sc_floatValue config) in *.
  destruct (isNan c) eqn:Hnc; [done|]. assert (isNan s = false) as Hns by (by destruct s). rewrite Hns, Hf in Hcmp. cbn [orb negb] in Hcmp. rewrite orb_false_r in Hcmp. assert (isFinite c = true) as Fc.
  { destruct (isFinite c) eqn:Fc; [done|]. cbn [negb] in Hcmp. clear - Hcmp Fc Hf Hnc. destruct c as [|[]| |]; try done; destruct s as [|[]| |[]]; done. }
  split; [done|]. rewrite Fc in Hcmp. cbn [negb] in Hcmp. cbv zeta in Hcmp. destruct (toDouble_place ft c Hft Hc Fc) as (Hvd & Fd & Ed). rewrite <- Ed. set (d := toDouble c) in *. clearbody d.
  assert (∀ bound, is_float double bound → place bound < k * units 0 → SFleb (SFabs (dsub d s)) bound = true → Z.abs (place d - place s) ≤ k * units 0) as Hdist
    by (intros bound Hb Hlt; apply (distance_bound d s bound); try done; apply integer_grid; lia).
  assert (∀ n n', Z.abs (place d - n * units 0) ≤ units 0 → Z.abs (place s - n' * units 0) ≤ units 0 → n = n' → Z.abs (place d - place s) ≤ k * units 0) as Hwhole by (intros n n' H1 H2 ->; nia).
  destruct (whole_near true d Hvd Fd) as (n & Wv & Wn & Wp & Wd & Wl), (whole_near true s Hv Hf) as (n' & Wv' & Wn' & Wp' & Wd' & Wl').
  destruct (Z.eqb_spec (sc_roundingType config) 1) as [_|]; [|destruct (Z.eqb_spec (sc_roundingType config) 2) as [_|]; [|destruct (Z.eqb_spec (sc_roundingType config) 3) as [E3|]; [|lia]]].
  - destruct (Z.leb_spec 0 (sc_floatDecimals config)) as [Hdec|_].
    + destruct (Hpow Hdec) as (P1 & P2 & P3). destruct (half_fraction _ P1 P2 P3) as [Hh Hhp]. apply (Hdist _ Hh); [nia|done].
    + apply (Hwhole n n' Wd Wd'). destruct (_ || _).
      * unfold round in Hcmp. rewrite (eqb_place _ _ D1 D2), Wp, Wp' in Hcmp by done. nia.
      * apply Z.eqb_eq in Hcmp. by rewrite <- (Wl eq_refl), <- (Wl' eq_refl).
  - destruct (whole_near false d Hvd Fd) as (t & Tv & Tn & Tp & Td & _), (whole_near false s Hv Hf) as (t' & Tv' & Tn' & Tp' & Td' & _). apply (Hwhole t t' Td Td').
    unfold trunc in Hcmp. rewrite (eqb_place _ _ D1 D2), Tp, Tp' in Hcmp by done. nia.
  - unfold s in Hcmp. fold (extremeTolerance config) in Hcmp. fold s in Hcmp. destruct (extremeTolerance_double config Hok Hf) as [Ht _]. apply (Hdist _ Ht); auto.
Qed.
(** The window holds every value the verification accepts. *)
Lemma window_covers ft config c : ft_ok ft → float_ok config → is_float ft c → isFinite (sc_floatValue config) = true → sc_roundingType config ≠ 0 →
  compareFloatingExact ft config c (sc_floatValue config) = true → SFleb (windowLow ft config) c = true ∧ SFleb c (windowHigh ft config) = true.
Proof.
  intros Hft Hok Hc Hf Hr0 Hcmp. destruct double_format as [D1 D2]. destruct (ft_format ft Hft) as [F1 F2]. destruct (windowWidth_spec config Hok Hf) as (k & Hk & Hw & Fw & Hwide & Hext).
  destruct (verified_near ft config c k Hft Hok Hc Hf Hr0 Hcmp Hk Hext) as [Fc Hnear]. assert (isNan c = false) as Hn by (by destruct c).
  pose proof (place_grid _ _ F1 F2 c Hc Fc) as Hg. pose proof (grid_double ft _ Hft Hg) as Hgd. pose proof (fo_value _ Hok) as Hv.
  destruct (sub_rounds _ _ D1 D2 _ _ Hv Hw Hf Fw) as [L1 L2 L3 _]. specialize (L3 _ Hgd ltac:(lia)). destruct (add_rounds _ _ D1 D2 _ _ Hv Hw Hf Fw) as [U1 U2 _ U3]. specialize (U3 _ Hgd ltac:(lia)).
  destruct (narrow_bounds ft _ _ Hft L1 L2 Hg) as (NL1 & NL2 & NL3 & _), (narrow_bounds ft _ _ Hft U1 U2 Hg) as (NU1 & NU2 & _ & NU3). specialize (NL3 L3). specialize (NU3 U3).
  destruct (pred_below ft _ Hft NL1 NL2) as (PL1 & PL2 & PL3), (succ_above ft _ Hft NU1 NU2) as (PU1 & PU2 & PU3). unfold windowLow, windowHigh, nextDown, nextUp, dsub, dadd. split; apply (leb_place _ _ F1 F2); try done; lia.
Qed.
(** A search value in the range of the type keeps a value there. *)
Lemma narrow_finite ft f : ft_ok ft → is_float double f → isFinite f = true → SFleb (SFabs f) (floatMax ft) = true → isFinite (narrow ft f) = true.
Proof.
  intros Hft Hv Hf Hle. destruct double_format as [D1 D2]. destruct (ft_format ft Hft) as [F1 F2]. set (top := SFmax_float (ft_prec ft) (ft_emax ft)). assert (is_float ft top ∧ isFinite top = true) as [Ht Ftop] by (destruct Hft as [-> | ->]; by vm_compute).
  destruct (toDouble_place ft top Hft Ht Ftop) as (Hd & Fd & Ed). destruct (place_SFabs f Hv) as (Ea & Hva & Hna). unfold floatMax in Hle. fold top in Hle.
  rewrite (leb_place _ _ D1 D2), Ea, Ed in Hle by (done || (rewrite Hna; by destruct f) || (by destruct (toDouble top))). apply (rounds_finite _ _ F1 F2 (place f) _ (place top)); [by apply narrow_rounds|by apply place_grid|done].
Qed.

Lemma equality_exact ft config c : isFinite (sc_floatValue config) = true → SFleb (SFabs (sc_floatValue config)) (floatMax ft) = true →
  isFinite (narrow ft (sc_floatValue config)) = true → sc_roundingType config = 0 →
  SFeqb c (narrow ft (sc_floatValue config)) = compareFloatingExact ft config c (sc_floatValue config).
Proof.
  intros Hs Hmax Hn Hr. unfold compareFloatingExact. rewrite Hmax, Hr. cbn [andb]. set (s := sc_floatValue config) in *. set (needle := narrow ft s) in *.
  change (0 =? 1) with false. change (0 =? 2) with false. change (0 =? 3) with false. cbv iota.
  destruct c as [sc|[]| |sc mc ec]; cbn [isNan isFinite negb orb]; destruct s as [ss|ss| |ss ms es]; try done; destruct needle as [sn|sn| |sn mn en]; try done.
Qed.
Lemma scanSpec_floats ft buf base test : ft_ok ft → ft_size ft ≤ len buf →
  omap (floatHit ft buf base test) (seqZ 0 ((len buf - ft_size ft) / ft_size ft + 1)) = scanSpec buf (ft_size ft) base (ft_size ft) (λ w, test (readScanFloat ft w Little)).
Proof.
  intros Hft Hl. destruct Hft as [-> | ->]; cbn [ft_size single double] in *.
  - symmetry. apply (scanSpec_lanes int32); [by right; right; left|done].
  - symmetry. apply (scanSpec_lanes int64); [by right; right; right|done].
Qed.
Lemma scanBufferFloating_ret ft buf base alignment config : ft_ok ft → 0 ≤ alignment → len buf + alignment < 2 ^ 63 →
  scanBufferFloating ft buf base alignment config
  = Ret (scanSpec buf (ft_size ft) base (fixAlignment alignment) (λ w, compareFloating ft config (readScanFloat ft w (sc_byteOrder config)))).
Proof.
  intros Hft Ha Hlen. assert (0 < ft_size ft) by (by destruct Hft as [-> | ->]). unfold scanBufferFloating. cbv zeta.
  destruct (Z.ltb_spec (len buf) (ft_size ft)); [by rewrite scanSpec_short|]. fold (fixAlignment alignment). pose proof (fixAlignment_pos alignment Ha).
  apply strided_scan; [lia|done|]. unfold fixAlignment. destruct (alignment =? 0); lia_w.
Qed.
Lemma scanSpec_test buf n base alignment p q : (∀ w, p w = q w) → scanSpec buf n base alignment p = scanSpec buf n base alignment q.
Proof. intros H. apply omap_ext_in. intros off _. unfold matchAt. by rewrite H. Qed.
Lemma scanFloatTarget_ret mode ft buf base alignment config : ft_ok ft → 0 ≤ alignment → len buf + alignment < 2 ^ 63 → float_ok config →
  scanFloatTarget mode ft buf base alignment config
  = Ret (scanSpec buf (ft_size ft) base (fixAlignment alignment) (λ w, compareFloating ft config (readScanFloat ft w (sc_byteOrder config)))).
Proof.
  intros Hft Ha Hlen Hok. unfold scanFloatTarget. destruct (bool_decide_reflect (sc_byteOrder config = nativeScanByteOrder)) as [Ho|]; [|by apply scanBufferFloating_ret].
  cbn [negb]. unfold tryScanExactFloat. cbv zeta. case_bool_decide as Hcmp; cbn [negb]; [|by apply scanBufferFloating_ret].
  destruct (Z.eqb_spec alignment (ft_size ft)) as [Hal|]; cbn [negb]; [|by apply scanBufferFloating_ret].
  destruct (Z.ltb_spec (len buf) (ft_size ft)) as [|Hl]; [by apply scanBufferFloating_ret|].
  destruct (isFinite (sc_floatValue config)) eqn:Hs; cbn [negb orb]; [|by apply scanBufferFloating_ret].
  destruct (SFleb (SFabs (sc_floatValue config)) (floatMax ft)) eqn:Hmax; cbn [negb]; [|by apply scanBufferFloating_ret].
  pose proof (narrow_finite ft _ Hft (fo_value _ Hok) Hs Hmax) as Hneedle. assert (len buf < 2 ^ 63) as Hlen' by lia. pose proof (nLanes_range ft Hft buf Hlen' Hl) as Hn.
  assert (fixAlignment alignment = ft_size ft) as -> by (rewrite Hal; by destruct Hft as [-> | ->]).
  assert (∀ test, (∀ w, test (readScanFloat ft w Little) = compareFloating ft config (readScanFloat ft w (sc_byteOrder config))) →
    omap (floatHit ft buf base test) (seqZ 0 ((len buf - ft_size ft) / ft_size ft + 1))
    = scanSpec buf (ft_size ft) base (ft_size ft) (λ w, compareFloating ft config (readScanFloat ft w (sc_byteOrder config)))) as Hspec.
  { intros test Ht. rewrite scanSpec_floats by done. by apply scanSpec_test. }
  destruct (Z.eqb_spec (sc_roundingType config) 0) as [Hr|Hr].
  - assert (∀ w, SFeqb (readScanFloat ft w Little) (narrow ft (sc_floatValue config)) = compareFloating ft config (readScanFloat ft w (sc_byteOrder config))) as Ht.
    { intros w. unfold compareFloating. rewrite bool_decide_true, Ho by done. by apply equality_exact. }
    rewrite <- (Hspec (λ c, SFeqb c (narrow ft (sc_floatValue config))) Ht). unfold scanExactFloatAVX, scanExactFloatSSE.
    destruct mode; rewrite ?scanExactFloatVector_ret, ?floatLanes_ret, ?Z.sub_0_r by (done || lia || auto); done.
  - assert (∀ w, compareFloatingExact ft config (readScanFloat ft w Little) (sc_floatValue config) = compareFloating ft config (readScanFloat ft w (sc_byteOrder config))) as Ht.
    { intros w. unfold compareFloating. by rewrite bool_decide_true, Ho by done. }
    rewrite <- (Hspec (λ c, compareFloatingExact ft config c (sc_floatValue config)) Ht). unfold scanRoundedFloatAVX, scanRoundedFloatSSE.
    destruct mode; rewrite ?scanRoundedFloatVector_ret, ?floatLanes_ret, ?Z.sub_0_r by (done || lia || auto || (intros w c; apply window_covers; [done|done|by apply floatOfBits_valid|done|done])); done.
Qed.
End FloatScan.
