(* ===== verification/ScanTarget.v ===== *)
(** * The target of a scan and the configuration for it

    Models [checkIntegerRange] and [targetScanConfig] of
    [src/scanner/memory_scanner.cpp]: the checks both scans start with, the data format
    taken from the target, and the amounts of changed-by compares.  [Target] is the part
    of [ProcessHandle] ([src/platform/process_api.hpp]) a scan uses. *)

From Stdlib Require Import SpecFloat.
From S2P Require Import Prelude Numeral TargetMachine Types Loops ScanBuffers PatternScan ScanConfig ScanNumber ScanResults Floating NextCompare.
#[local] Open Scope Z_scope.

Inductive TargetTransport : Set := TransportLocal | TransportCEServer | TransportGdb | TransportUnknown.
(** What a scan asks of the process.  Every address is read at most once per width in a
    scan, so what the reads give is a function of the address and the size even while the
    process runs. *)
Record Target := mkTarget {
  t_transport : TargetTransport;
  t_program : TargetMachine;
  t_live : bool;
  t_liveAfter : bool;  (* when it is asked again at the end of the scan *)
  t_regions : list MemoryRegion;
  t_read : Z → Z → bytes;  (* what was transferred; nothing on an error *)
  t_readMany : list Z → Z → list (option bytes);  (* the whole values, where [ok] is set *)
  t_residentRanges : Z → Z → list (Z * Z);
  t_concurrent : bool
}.
(** The exceptions of a scan. *)
Inductive ScanError := InvalidArgument (what : bytes) | RuntimeError (what : bytes) | EncodingFailed.
Notation scanError e := (inl e) (only parsing).

(** ** The range of an integer search value *)

Definition integerBits (t : ValueType) : option (Z * bool * string) :=
  match t with
  | VByte => Some (8, true, "Byte"%string)
  | VInt16 => Some (16, false, "2 Bytes"%string)
  | VInt32 => Some (32, false, "4 Bytes"%string)
  | _ => None
  end.
Definition integerRange (bits : Z) (unsignedCompare : bool) (cmp : ScanCompare) : option (Z * Z) :=
  let signedMin := - 2 ^ (bits - 1) in
  let signedMax := 2 ^ (bits - 1) - 1 in
  let unsignedMax := 2 ^ bits - 1 in
  match cmp with
  | CmpExact => Some (signedMin, unsignedMax)
  | CmpGreater | CmpLess | CmpBetween =>
      Some (if unsignedCompare then 0 else signedMin, if unsignedCompare then unsignedMax else signedMax)
  | CmpIncreasedBy | CmpDecreasedBy => Some (- unsignedMax, unsignedMax)
  | _ => None
  end.
Definition rangeError (value low high : Z) (name : string) : option ScanError :=
  if (value <? low) || (high <? value)
  then Some (InvalidArgument (to_string value ++ bs " does not fit in " ++ bs name ++ bs " for this scan (" ++
                              to_string low ++ bs " to " ++ to_string high ++ bs ")"))
  else None.
(** [checkIntegerRange]: the exception, if any. *)
Definition checkIntegerRange (config : ScanConfig) : option ScanError :=
  match integerBits (sc_valueType config) with
  | None => None
  | Some (bits, unsignedCompare, name) =>
      match integerRange bits unsignedCompare (sc_compareType config) with
      | None => None
      | Some (low, high) =>
          match rangeError (sc_intValue config) low high name with
          | Some e => Some e
          | None => if isBetween config then rangeError (sc_intValue2 config) low high name else None
          end
      end
  end.

(** ** The configuration for the target *)

Definition needsOrder (t : ValueType) : bool :=
  match t with VByte | VByteArray | VString | VBinary => false | _ => true end.
Definition scanNeedsByteOrder (config : ScanConfig) : bool :=
  match sc_valueType config with
  | VGrouped => existsb (λ term, needsOrder (g_type term)) (sc_groupedTerms config)
  | VCustom => false
  | t => needsOrder t
  end.
Definition scanNeedsPointerWidth (config : ScanConfig) : bool :=
  bool_decide (sc_valueType config = VPointer)
  || existsb (λ term, bool_decide (g_type term = VPointer)) (sc_groupedTerms config).

(** The members [targetScanConfig] assigns. *)
Definition withFormat (c : ScanConfig) (order : ByteOrder) (width : Z) (terms : list GroupedTerm) : ScanConfig :=
  mkScanConfig (sc_valueType c) order width (sc_compareType c)
    (sc_alignment c) (sc_startAddress c) (sc_stopAddress c) (sc_writableMatch c) (sc_executableMatch c)
    (sc_scanPrivate c) (sc_scanImage c) (sc_scanMapped c) (sc_roundingType c) (sc_floatDecimals c) (sc_floatTolerance c)
    (sc_percentageScan c) (sc_percentageValue c) (sc_percentageValue2 c) (sc_intValue c) (sc_intValue2 c)
    (sc_floatValue c) (sc_floatValue2 c) (sc_allIntegerValue c) (sc_allIntegerValue2 c)
    (sc_stringValue c) (sc_stringEncoding c) (sc_caseSensitive c) (sc_byteArray c) (sc_byteArrayMask c)
    (sc_byteMask c) terms (sc_customFormula c) (sc_customValueSize c).
Definition withAmount (c : ScanConfig) (cmp : ScanCompare) (int : Z) (float : spec_float) : ScanConfig :=
  mkScanConfig (sc_valueType c) (sc_byteOrder c) (sc_pointerWidth c) cmp
    (sc_alignment c) (sc_startAddress c) (sc_stopAddress c) (sc_writableMatch c) (sc_executableMatch c)
    (sc_scanPrivate c) (sc_scanImage c) (sc_scanMapped c) (sc_roundingType c) (sc_floatDecimals c) (sc_floatTolerance c)
    (sc_percentageScan c) (sc_percentageValue c) (sc_percentageValue2 c) int (sc_intValue2 c)
    float (sc_floatValue2 c) (sc_allIntegerValue c) (sc_allIntegerValue2 c)
    (sc_stringValue c) (sc_stringEncoding c) (sc_caseSensitive c) (sc_byteArray c) (sc_byteArrayMask c)
    (sc_byteMask c) (sc_groupedTerms c) (sc_customFormula c) (sc_customValueSize c).

Section Config.
Context {lib : Library}.

(** The UTF-16 bytes of the grouped text terms. *)
Definition encodeTerm (order : ByteOrder) (term : GroupedTerm) : option GroupedTerm :=
  if bool_decide (g_type term = VUnicodeString)
  then let? b := utf16Bytes (g_string term) order in
       Some (mkTerm (g_type term) (g_offset term) (g_int term) (g_float term) (g_string term) b (g_arrayMask term) (g_bitMask term))
  else Some term.
(** The lambda [flip]. *)
Definition flipAmount (cmp : ScanCompare) : ScanCompare := if bool_decide (cmp = CmpIncreasedBy) then CmpDecreasedBy else CmpIncreasedBy.
Definition isFloating (t : ValueType) : bool := match t with VFloat | VDouble => true | _ => false end.
Definition negativeDouble (f : spec_float) : bool := SFltb f dzero.
Definition normalizeAmount (c : ScanConfig) : ScanError + ScanConfig :=
  if negb (isChangedBy c) then inr c
  else if isFloating (sc_valueType c) then
    inr (if negativeDouble (sc_floatValue c) then withAmount c (flipAmount (sc_compareType c)) (sc_intValue c) (SFopp (sc_floatValue c)) else c)
  else if sc_intValue c <? 0 then
    if sc_intValue c =? - 2 ^ 63 then inl (InvalidArgument (bs "The amount changed by is out of range"))
    else
      let float := if bool_decide (sc_valueType c = VAll) && negativeDouble (sc_floatValue c) then SFopp (sc_floatValue c) else sc_floatValue c in
      inr (withAmount c (flipAmount (sc_compareType c)) (- sc_intValue c) float)
  else inr c.
(** A search value of a 4-byte pointer scan. *)
Definition fitsPointer (value : Z) : bool := u64 value <=? UINT32_MAX.
Definition pointerRange (c : ScanConfig) : option ScanError :=
  if bool_decide (sc_valueType c = VPointer) && (sc_pointerWidth c =? 4) && isLiteralCompare (sc_compareType c)
     && (negb (fitsPointer (sc_intValue c)) || (isBetween c && negb (fitsPointer (sc_intValue2 c))))
  then Some (InvalidArgument (bs "The search value does not fit a 4-byte pointer (0 to 0xFFFFFFFF)")) else None.

(** [gdbTarget]. *)
Definition remoteTarget (t : Target) : bool :=
  match t_transport t with TransportGdb | TransportCEServer => true | _ => false end.
Definition targetScanConfig (t : Target) (requested : ScanConfig) : ScanError + ScanConfig :=
  match checkIntegerRange requested with
  | Some e => inl e
  | None =>
      if negb (t_live t) then inl (RuntimeError (bs "Scan target disconnected or exited"))
      else if sc_stopAddress requested <? sc_startAddress requested then inl (InvalidArgument (bs "Scan From must not exceed To"))
      else
        let order := if bool_decide (sc_byteOrder requested = OrderUnknown) then byteOrder (t_program t) else sc_byteOrder requested in
        if scanNeedsByteOrder requested && bool_decide (order = OrderUnknown)
        then inl (InvalidArgument (bs "Target data byte order is unknown; select the scan byte order explicitly"))
        else
          let width := if sc_pointerWidth requested =? 0 then pointerWidth (t_program t) else sc_pointerWidth requested in
          if negb (width =? 0) && negb (width =? 4) && negb (width =? 8)
          then inl (InvalidArgument (bs "Scan pointer width must be 4 or 8 bytes"))
          else if scanNeedsPointerWidth requested && (width =? 0)
          then inl (InvalidArgument (bs "Target pointer width is unknown; select the scan pointer width explicitly"))
          else
            match mapM (encodeTerm order) (sc_groupedTerms requested) with
            | None => inl EncodingFailed
            | Some terms =>
                match normalizeAmount (withFormat requested order width terms) with
                | inl e => inl e
                | inr c => match pointerRange c with Some e => inl e | None => inr c end
                end
            end
  end.
End Config.

(** ** What an accepted search value means *)

Lemma wrap_neg w v : 0 < w → - 2 ^ w ≤ v < 0 → wrap w v = v + 2 ^ w.
Proof. intros Hw Hv. unfold wrap. rewrite <- (Z.mod_add v 1) by lia. rewrite Z.mul_1_l. apply Z.mod_small. lia. Qed.
Lemma to_signed_big w v : 0 < w → 2 ^ (w - 1) ≤ v < 2 ^ w → to_signed w v = v - 2 ^ w.
Proof.
  intros Hw Hv. unfold to_signed. rewrite wrap_small by (unfold in_width; lia).
  destruct (Z.ltb_spec v (2 ^ (w - 1))); lia.
Qed.
Lemma pow_half w : 0 < w → 2 ^ w = 2 * 2 ^ (w - 1).
Proof. intros. rewrite <- Z.pow_succ_r by lia. f_equal. lia. Qed.

(** The integer type a scan of a value type compares. *)
Definition scanInt (config : ScanConfig) : option IntType :=
  match sc_valueType config with
  | VByte => Some uint8
  | VInt16 => Some int16
  | VInt32 => Some int32
  | VInt64 => Some int64
  | VPointer => if sc_pointerWidth config =? 4 then Some uint32 else if sc_pointerWidth config =? 8 then Some uint64 else None
  | _ => None
  end.
Lemma scanInt_ok config ty : scanInt config = Some ty → ty_ok ty.
Proof. unfold scanInt, ty_ok. intros H. repeat case_match; simplify_eq; cbn; lia. Qed.

(** An integer between the least signed and the greatest unsigned value of a type. *)
Definition representable (ty : IntType) (v : Z) : Prop := - 2 ^ (ty_size ty * 8 - 1) ≤ v < 2 ^ (ty_size ty * 8).
Lemma cast_exact ty cur v : ty_ok ty → in_type ty cur → representable ty v →
  (cur =? castInt ty v) = (cur =? v) || (otherSignedness ty cur =? v).
Proof.
  intros Hty Hc Hv. pose proof (ty_size_range ty Hty). unfold representable in Hv. unfold in_type, castInt, otherSignedness in *.
  set (w := ty_size ty * 8) in *. assert (0 < w) as Hw by lia. pose proof (pow_half w Hw) as Hp. set (P := 2 ^ (w - 1)) in *.
  assert (0 < P) by (apply Z.pow_pos_nonneg; lia). destruct (ty_signed ty).
  - destruct (Z_lt_le_dec v P).
    + rewrite to_signed_small by (fold P; lia). destruct (Z_lt_le_dec cur 0).
      * rewrite (wrap_neg w cur) by (fold P; lia). destruct (Z.eqb_spec cur v); [done|]. symmetry. apply Z.eqb_neq. lia.
      * rewrite (wrap_small w cur) by (unfold in_width; fold P; lia). by destruct (cur =? v).
    + rewrite to_signed_big by (fold P; lia). destruct (Z_lt_le_dec cur 0).
      * rewrite (wrap_neg w cur) by (fold P; lia). rewrite (proj2 (Z.eqb_neq cur v)) by lia. cbn [orb].
        destruct (Z.eqb_spec cur (v - 2 ^ w)); symmetry; [apply Z.eqb_eq|apply Z.eqb_neq]; lia.
      * rewrite (wrap_small w cur) by (unfold in_width; lia). rewrite (proj2 (Z.eqb_neq cur v)) by lia. apply Z.eqb_neq. lia.
  - destruct (Z_lt_le_dec v 0).
    + rewrite wrap_neg by lia. rewrite (proj2 (Z.eqb_neq cur v)) by lia. cbn [orb]. destruct (Z_lt_le_dec cur P).
      * rewrite to_signed_small by (fold P; lia). rewrite (proj2 (Z.eqb_neq cur v)) by lia. apply Z.eqb_neq. lia.
      * rewrite to_signed_big by (fold P; lia). destruct (Z.eqb_spec cur (v + 2 ^ w)); symmetry; [apply Z.eqb_eq|apply Z.eqb_neq]; lia.
    + rewrite (wrap_small w v) by (unfold in_width; lia). destruct (Z_lt_le_dec cur P).
      * rewrite to_signed_small by (fold P; lia). by destruct (cur =? v).
      * rewrite to_signed_big by (fold P; lia). destruct (Z.eqb_spec cur v); [done|]. symmetry. apply Z.eqb_neq. lia.
Qed.
Lemma cast_in_type ty v : ty_ok ty → in_type ty v → castInt ty v = v.
Proof.
  intros Hty Hv. pose proof (ty_size_range ty Hty). unfold castInt, in_type in *. destruct (ty_signed ty); [by apply to_signed_small; [lia|]|].
  apply wrap_small. unfold in_width. lia.
Qed.
(** A change by a positive amount. *)
Definition amount (config : ScanConfig) : Z := if isIncreasedBy config then sc_intValue config else - sc_intValue config.
Lemma changed_by ty config cur old : ty_ok ty → in_type ty cur → in_type ty old → isChangedBy config = true →
  0 ≤ sc_intValue config < 2 ^ 63 → compareNextInteger ty config cur old = (cur =? old + amount config) && negb (amount config =? 0).
Proof.
  intros Hty Hc Ho Hby Hv. pose proof (ty_size_range ty Hty).
  assert (usesPercentage config = false ∧ bool_decide (sc_compareType config = CmpSameAsFirst) = false) as [Hp Hs].
  { unfold isChangedBy, isIncreasedBy, usesPercentage in *. destruct (sc_compareType config); cbn in *; try done; by rewrite andb_false_r. }
  unfold compareNextInteger. rewrite Hp, Hs, Hby. rewrite (proj2 (Z.ltb_ge _ 0)), andb_false_r by lia.
  rewrite (wrap_small 64 (sc_intValue config)) by (unfold in_width; lia).
  assert (∀ a b, in_type ty a → in_type ty b → b < a →
    (wrap (ty_size ty * 8) (wrap (ty_size ty * 8) a - wrap (ty_size ty * 8) b)) = a - b) as Hd.
  { intros a b Ha Hb Hab. rewrite wrap_sub_idem_l, wrap_sub_idem_r. apply wrap_small. unfold in_type, in_width in *.
    pose proof (pow_half (ty_size ty * 8) ltac:(lia)). destruct (ty_signed ty); lia. }
  unfold amount. destruct (isIncreasedBy config).
  - destruct (Z.leb_spec cur old); [|rewrite Hd by done].
    + symmetry. apply andb_false_iff. destruct (Z.eqb_spec cur (old + sc_intValue config)); [right|by left]. apply negb_false_iff, Z.eqb_eq. lia.
    + destruct (Z.eqb_spec (cur - old) (sc_intValue config)); symmetry; [|apply andb_false_iff; left; apply Z.eqb_neq; lia].
      rewrite (proj2 (Z.eqb_eq cur _)), (proj2 (Z.eqb_neq _ 0)) by lia. done.
  - destruct (Z.leb_spec old cur); [|rewrite Hd by done].
    + symmetry. apply andb_false_iff. destruct (Z.eqb_spec cur (old + - sc_intValue config)); [right|by left]. apply negb_false_iff, Z.eqb_eq. lia.
    + destruct (Z.eqb_spec (old - cur) (sc_intValue config)); symmetry; [|apply andb_false_iff; left; apply Z.eqb_neq; lia].
      rewrite (proj2 (Z.eqb_eq cur _)), (proj2 (Z.eqb_neq _ 0)) by lia. done.
Qed.

Lemma isIncreasedBy_eq c : isIncreasedBy c = match sc_compareType c with CmpIncreasedBy => true | _ => false end.
Proof. unfold isIncreasedBy. by destruct (sc_compareType c). Qed.
Lemma isChangedBy_eq c : isChangedBy c = match sc_compareType c with CmpIncreasedBy | CmpDecreasedBy => true | _ => false end.
Proof. unfold isChangedBy. rewrite isIncreasedBy_eq. by destruct (sc_compareType c). Qed.

Section Accepted.
Context {lib : Library}.

Lemma normalize_spec c c' : normalizeAmount c = inr c' → isFloating (sc_valueType c) = false → - 2 ^ 63 ≤ sc_intValue c < 2 ^ 63 →
  sc_valueType c' = sc_valueType c ∧ sc_pointerWidth c' = sc_pointerWidth c ∧ sc_intValue2 c' = sc_intValue2 c ∧
  if isChangedBy c then isChangedBy c' = true ∧ 0 ≤ sc_intValue c' < 2 ^ 63 ∧ amount c' = amount c else c' = c.
Proof.
  unfold normalizeAmount. intros Heq Hf Hi. rewrite Hf in Heq. destruct (isChangedBy c) eqn:Hby; cbn [negb] in Heq; [|by injection Heq as <-].
  destruct (Z.ltb_spec (sc_intValue c) 0); [|injection Heq as <-; split_and!; (done || lia)].
  destruct (Z.eqb_spec (sc_intValue c) (- 2 ^ 63)); [done|]. injection Heq as <-.
  rewrite isChangedBy_eq in *. unfold amount. rewrite !isIncreasedBy_eq. unfold flipAmount. cbn. destruct (sc_compareType c); try done;
    rewrite ?bool_decide_true, ?bool_decide_false by done; split_and!; (done || lia).
Qed.
(** What holds of an accepted configuration. *)
Lemma target_spec t requested config : targetScanConfig t requested = inr config →
  checkIntegerRange requested = None ∧ pointerRange config = None ∧ sc_startAddress requested ≤ sc_stopAddress requested ∧ t_live t = true ∧
  ∃ order width terms, normalizeAmount (withFormat requested order width terms) = inr config ∧ (width = 0 ∨ width = 4 ∨ width = 8).
Proof.
  unfold targetScanConfig. destruct (checkIntegerRange requested); [done|]. destruct (t_live t); [|done]. cbn [negb].
  destruct (Z.ltb_spec (sc_stopAddress requested) (sc_startAddress requested)); [done|].
  set (order := if bool_decide _ then _ else _). destruct (_ && bool_decide (order = OrderUnknown)); [done|].
  set (width := if _ =? 0 then _ else _). destruct (_ && negb (width =? 8)) eqn:Hw; [done|]. destruct (_ && (width =? 0)); [done|].
  destruct (mapM _ _) as [terms|]; [|done]. destruct (normalizeAmount _) as [|c] eqn:Hn; [done|].
  destruct (pointerRange c) eqn:Hp; [done|]. intros [= <-]. split_and!; try done. exists order, width, terms. split; [done|].
  destruct (Z.eqb_spec width 0), (Z.eqb_spec width 4), (Z.eqb_spec width 8); auto. done.
Qed.

Lemma range_check requested bits u name low high : integerBits (sc_valueType requested) = Some (bits, u, name) →
  integerRange bits u (sc_compareType requested) = Some (low, high) → checkIntegerRange requested = None →
  low ≤ sc_intValue requested ≤ high ∧ (sc_compareType requested = CmpBetween → low ≤ sc_intValue2 requested ≤ high).
Proof.
  intros Hb Hr. unfold checkIntegerRange. rewrite Hb, Hr. unfold rangeError, isBetween.
  destruct (Z.ltb_spec (sc_intValue requested) low), (Z.ltb_spec high (sc_intValue requested)); cbn [orb]; try done.
  case_bool_decide as Hbt; [|by split; [lia|]].
  destruct (Z.ltb_spec (sc_intValue2 requested) low), (Z.ltb_spec high (sc_intValue2 requested)); cbn [orb]; try done; split; lia.
Qed.

(** A search value of an 8-byte pointer is an unsigned number. *)
Definition typedValue (config : ScanConfig) (v : Z) : Z := match sc_valueType config with VPointer => u64 v | _ => v end.
Lemma accepted_exact t requested config ty : targetScanConfig t requested = inr config → scanInt config = Some ty →
  - 2 ^ 63 ≤ sc_intValue requested < 2 ^ 63 → sc_compareType requested = CmpExact →
  sc_intValue config = sc_intValue requested ∧ representable ty (sc_intValue config).
Proof.
  intros Ht Hty Hi Hcmp. destruct (target_spec _ _ _ Ht) as (Hcheck & Hp & _ & _ & order & width & terms & Hn & Hw).
  assert (config = withFormat requested order width terms) as ->.
  { unfold normalizeAmount, isChangedBy, isIncreasedBy in Hn. cbn in Hn. rewrite Hcmp in Hn. cbn in Hn. by injection Hn as <-. }
  split; [done|]. unfold scanInt in Hty. cbn in *. unfold representable. destruct (sc_valueType requested) eqn:Hvt; simplify_eq.
  - destruct (range_check requested 8 true "Byte" (- 2 ^ 7) (2 ^ 8 - 1)) as [? _]; [by rewrite Hvt|by rewrite Hcmp|done|]. cbn. lia.
  - destruct (range_check requested 16 false "2 Bytes" (- 2 ^ 15) (2 ^ 16 - 1)) as [? _]; [by rewrite Hvt|by rewrite Hcmp|done|]. cbn. lia.
  - destruct (range_check requested 32 false "4 Bytes" (- 2 ^ 31) (2 ^ 32 - 1)) as [? _]; [by rewrite Hvt|by rewrite Hcmp|done|]. cbn. lia.
  - cbn. lia.
  - unfold pointerRange, fitsPointer in Hp. cbn in Hp. rewrite Hvt, Hcmp in Hp. destruct (Z.eqb_spec width 4).
    + injection Hty as <-. cbn in *. destruct (Z.leb_spec (u64 (sc_intValue requested)) UINT32_MAX) as [Hu|]; [|done].
      destruct (Z_lt_le_dec (sc_intValue requested) 0); [rewrite wrap_neg in Hu by lia; unfold UINT32_MAX in Hu; lia|].
      rewrite wrap_small in Hu by (unfold in_width; lia). unfold UINT32_MAX in Hu. lia.
    + destruct (width =? 8); simplify_eq. cbn. lia.
Qed.
(** The search value of an ordered comparison, in the type's own reading. *)
Definition isOrdered (cmp : ScanCompare) : bool := match cmp with CmpGreater | CmpLess | CmpBetween => true | _ => false end.
Lemma accepted_ordered t requested config ty : targetScanConfig t requested = inr config → scanInt config = Some ty →
  - 2 ^ 63 ≤ sc_intValue requested < 2 ^ 63 → - 2 ^ 63 ≤ sc_intValue2 requested < 2 ^ 63 → isOrdered (sc_compareType requested) = true →
  sc_intValue config = sc_intValue requested ∧ sc_intValue2 config = sc_intValue2 requested ∧
  castInt ty (sc_intValue requested) = typedValue config (sc_intValue requested) ∧
  (sc_compareType requested = CmpBetween → castInt ty (sc_intValue2 requested) = typedValue config (sc_intValue2 requested)).
Proof.
  intros Ht Hty Hi Hi2 Hcmp. destruct (target_spec _ _ _ Ht) as (Hcheck & Hp & _ & _ & order & width & terms & Hn & Hw).
  assert (config = withFormat requested order width terms) as ->.
  { unfold normalizeAmount, isChangedBy, isIncreasedBy in Hn. cbn in Hn. destruct (sc_compareType requested); try done; cbn in Hn; by injection Hn as <-. }
  split; [done|]. split; [done|]. unfold scanInt in Hty. unfold typedValue. cbn in *. destruct (sc_valueType requested) eqn:Hvt; simplify_eq.
  - assert (integerRange 8 true (sc_compareType requested) = Some (0, 2 ^ 8 - 1)) as Hr by (destruct (sc_compareType requested); done).
    destruct (range_check requested 8 true "Byte" _ _ ltac:(by rewrite Hvt) Hr Hcheck) as [? Hb]. split; [|intros E; specialize (Hb E)]; apply cast_in_type; unfold ty_ok, in_type; cbn; lia.
  - assert (integerRange 16 false (sc_compareType requested) = Some (- 2 ^ 15, 2 ^ 15 - 1)) as Hr by (destruct (sc_compareType requested); done).
    destruct (range_check requested 16 false "2 Bytes" _ _ ltac:(by rewrite Hvt) Hr Hcheck) as [? Hb]. split; [|intros E; specialize (Hb E)]; apply cast_in_type; unfold ty_ok, in_type; cbn; lia.
  - assert (integerRange 32 false (sc_compareType requested) = Some (- 2 ^ 31, 2 ^ 31 - 1)) as Hr by (destruct (sc_compareType requested); done).
    destruct (range_check requested 32 false "4 Bytes" _ _ ltac:(by rewrite Hvt) Hr Hcheck) as [? Hb]. split; [|intros E; specialize (Hb E)]; apply cast_in_type; unfold ty_ok, in_type; cbn; lia.
  - split; [|intros _]; apply cast_in_type; unfold ty_ok, in_type; cbn; lia.
  - unfold pointerRange, fitsPointer, isBetween in Hp. cbn in Hp. rewrite Hvt in Hp. destruct (Z.eqb_spec width 4).
    + injection Hty as <-. cbn in Hp.
      assert (∀ v, u64 v ≤ UINT32_MAX → castInt uint32 v = u64 v) as Hsmall.
      { intros v Hv. change (castInt uint32 v) with (u32 v). rewrite <- (wrap_wrap 32 64) by lia. apply wrap_small. pose proof (wrap_bound 64 v ltac:(lia)). lia_w. }
      destruct (sc_compareType requested); try done; cbn in Hp;
        destruct (Z.leb_spec (u64 (sc_intValue requested)) UINT32_MAX); try done; (split; [by apply Hsmall|]); intros; try done.
      destruct (Z.leb_spec (u64 (sc_intValue2 requested)) UINT32_MAX); [by apply Hsmall|done].
    + by destruct (width =? 8); simplify_eq.
Qed.
Lemma accepted_changed t requested config ty cur old : targetScanConfig t requested = inr config → scanInt config = Some ty →
  - 2 ^ 63 ≤ sc_intValue requested < 2 ^ 63 → isChangedBy requested = true → in_type ty cur → in_type ty old →
  compareNextInteger ty config cur old = (cur =? old + amount requested) && negb (amount requested =? 0).
Proof.
  intros Ht Hty Hi Hby Hc Ho. destruct (target_spec _ _ _ Ht) as (_ & _ & _ & _ & order & width & terms & Hn & Hw).
  assert (isFloating (sc_valueType requested) = false) as Hf.
  { unfold normalizeAmount in Hn. cbn in Hn. change (isChangedBy (withFormat requested order width terms)) with (isChangedBy requested) in Hn. rewrite Hby in Hn. cbn in Hn.
    unfold scanInt in Hty. destruct (sc_valueType requested) eqn:E; try done; cbn in Hn; injection Hn as <-; revert Hty;
      destruct (negativeDouble _); cbn; rewrite E; done. }
  destruct (normalize_spec _ _ Hn Hf Hi) as (_ & _ & _ & Hs). change (isChangedBy (withFormat requested order width terms)) with (isChangedBy requested) in Hs.
  rewrite Hby in Hs. destruct Hs as (Hby' & Hrange & Ham). change (amount (withFormat requested order width terms)) with (amount requested) in Ham.
  rewrite <- Ham. apply changed_by; try done. by eapply scanInt_ok.
Qed.

(** C11: an integer search value that is accepted is compared as it was typed: an exact one
    matches the signed or the unsigned reading of the value that equals it and nothing else,
    an ordered one is never cut to the width, and a change by a signed amount is exactly
    that change. *)
Theorem accepted_value_exact t requested config ty cur old :
  targetScanConfig t requested = inr config → scanInt config = Some ty →
  - 2 ^ 63 ≤ sc_intValue requested < 2 ^ 63 → - 2 ^ 63 ≤ sc_intValue2 requested < 2 ^ 63 → in_type ty cur → in_type ty old →
  let v := sc_intValue requested in
  let compared cmp := getCompare cmp cur (castInt ty (sc_intValue config)) (castInt ty (sc_intValue2 config)) in
  (sc_compareType requested = CmpExact → compared CmpExact = (cur =? v) || (otherSignedness ty cur =? v)) ∧
  (isOrdered (sc_compareType requested) = true →
     compared (sc_compareType requested) = getCompare (sc_compareType requested) cur (typedValue config v) (typedValue config (sc_intValue2 requested))) ∧
  (isChangedBy requested = true → compareNextInteger ty config cur old = (cur =? old + amount requested) && negb (amount requested =? 0)).
Proof.
  intros Ht Hty Hi Hi2 Hc Ho. cbv zeta. pose proof (scanInt_ok _ _ Hty) as Hok. split_and!.
  - intros Hcmp. destruct (accepted_exact _ _ _ _ Ht Hty Hi Hcmp) as [<- Hr]. by apply cast_exact.
  - intros Hcmp. destruct (accepted_ordered _ _ _ _ Ht Hty Hi Hi2 Hcmp) as (-> & -> & -> & H2).
    destruct (sc_compareType requested); try done. by rewrite H2.
  - intros Hby. by eapply accepted_changed.
Qed.
End Accepted.

(** An all-types scan keeps the sign of its exact integer when the amount is flipped, so a
    change by a negative integer never matches, unlike in a scan of one type. *)
Lemma all_types_negative_amount {lib : Library} t requested config v cur old :
  targetScanConfig t requested = inr config → isChangedBy requested = true → sc_allIntegerValue requested = Some v → negative v = true →
  compareNextAllInteger config cur old = false.
Proof.
  intros Ht Hby Hv Hneg. destruct (target_spec _ _ _ Ht) as (_ & _ & _ & _ & order & width & terms & Hn & _).
  assert (isChangedBy config = true ∧ sc_allIntegerValue config = Some v) as [Hby' Hv'].
  { revert Hn. unfold normalizeAmount. change (isChangedBy (withFormat requested order width terms)) with (isChangedBy requested). rewrite Hby. cbn [negb].
    assert (∀ c int float, isChangedBy (withAmount c (flipAmount (sc_compareType requested)) int float) = true) as Hflip.
    { intros. rewrite isChangedBy_eq. cbn. unfold flipAmount. by case_bool_decide. }
    destruct (isFloating _); [|destruct (_ <? 0); [destruct (_ =? _); [done|]|]]; intros [= <-]; cbn; try done.
    destruct (negativeDouble _); cbn; [|done]. by split; [apply Hflip|]. }
  unfold compareNextAllInteger. rewrite Hv', Hby', orb_true_r, Hneg. cbn [negb].
  assert (usesPercentage config = false) as ->; [|done]. unfold usesPercentage. rewrite isChangedBy_eq in Hby'. by destruct (sc_compareType config); rewrite ?andb_false_r.
Qed.

(** ** A sample *)

(** The member initializers of [ScanConfig]. *)
Definition defaultConfig : ScanConfig :=
  mkScanConfig VInt32 OrderUnknown 0 CmpExact 4 0 UINTPTR_MAX ProtAny ProtAny true true true 0 (-1) dzero false dzero dzero
    0 0 dzero dzero None None [] [] true [] [] [] [] [] 4.
Definition sampleLibrary : Library :=
  {| pow10 n := if 0 <=? n then doubleOfInt (10 ^ n) else ratio 1 (10 ^ (- n));
     iconvEncode encoding text := Some (if bytes_eqb encoding (bs "UTF-16BE") then mjoin ((λ c, [0; c]) <$> text) else mjoin ((λ c, [c; 0]) <$> text));
     formulaMatches _ current old _ _ := bytes_eqb current old |}.
Definition sampleMachine : TargetMachine := mkTargetMachine X86_64 Little LinuxX86_64 ModeX86_64 8 Little.
Definition sampleTarget : Target :=
  mkTarget TransportLocal sampleMachine true true [] (λ _ _, []) (λ addrs _, (λ _, None) <$> addrs) (λ base size, [(base, base + size)]) true.
(** A 2-byte scan for what changed by -5. *)
Definition changedByConfig : ScanConfig := withAmount (mkScanConfig VInt16 OrderUnknown 0 CmpExact 2 0 UINTPTR_MAX ProtAny ProtAny true true true 0 (-1) dzero false dzero dzero
    0 0 dzero dzero None None [] [] true [] [] [] [] [] 4) CmpIncreasedBy (-5) dzero.
Lemma accepted_value_exact_witness : ∃ config,
  targetScanConfig (lib := sampleLibrary) sampleTarget changedByConfig = inr config ∧
  compareNextInteger int16 config 95 100 = true ∧ compareNextInteger int16 config 105 100 = false.
Proof.
  destruct (targetScanConfig (lib := sampleLibrary) sampleTarget changedByConfig) as [|config] eqn:E; [done|]. exists config. split; [done|].
  assert (scanInt config = Some int16) as Hty by (vm_compute in E; by injection E as <-). split.
  - destruct (accepted_value_exact (lib := sampleLibrary) _ _ _ _ 95 100 E Hty) as (_ & _ & ->); done || (unfold in_type; cbn; lia).
  - destruct (accepted_value_exact (lib := sampleLibrary) _ _ _ _ 105 100 E Hty) as (_ & _ & ->); done || (unfold in_type; cbn; lia).
Defined.

(** ** The configuration is well formed *)

(** The UTF-16 encodings differ in the order of the bytes only. *)
Class TextEncoder (lib : Library) : Prop :=
  utf16_length text big : iconvEncode (bs "UTF-16BE") text = Some big →
    ∃ little, iconvEncode (bs "UTF-16LE") text = Some little ∧ len little = len big.

Section WellFormed.
Context {lib : Library} `{!TextEncoder lib}.

Lemma utf16Known_length text order b : utf16Bytes text order = Some b → len b = len (utf16Known text Little).
Proof using TextEncoder0.
  unfold utf16Known, utf16Bytes, encodeStringBytes. intros E. case_bool_decide as Ho; [|by rewrite bool_decide_false by done; rewrite E].
  assert (isUtf8Encoding (bs "UTF-16BE") = false) as Hb by (vm_compute; reflexivity). assert (isUtf8Encoding (bs "UTF-16LE") = false) as Hl by (vm_compute; reflexivity).
  rewrite Hb in E. rewrite bool_decide_false, Hl by done. destruct (utf16_length text b E) as (little & -> & Hlen). done.
Qed.
Lemma normalize_keeps c c' : normalizeAmount c = inr c' →
  sc_valueType c' = sc_valueType c ∧ sc_pointerWidth c' = sc_pointerWidth c ∧ sc_groupedTerms c' = sc_groupedTerms c ∧ sc_byteOrder c' = sc_byteOrder c.
Proof.
  unfold normalizeAmount. destruct (negb _); [by intros [= <-]|]. destruct (isFloating _); [intros [= <-]; by destruct (negativeDouble _)|].
  destruct (_ <? _); [|by intros [= <-]]. destruct (_ =? _); [done|]. by intros [= <-].
Qed.
Lemma target_config_ok t requested config : targetScanConfig t requested = inr config → Forall (λ term, 0 ≤ g_offset term) (sc_groupedTerms requested) →
  config_ok config ∧ sc_valueType config = sc_valueType requested.
Proof using TextEncoder0.
  unfold targetScanConfig. intros Ht Hoff. destruct (checkIntegerRange requested); [done|]. destruct (t_live t); [|done]. cbn [negb] in Ht.
  destruct (sc_stopAddress requested <? sc_startAddress requested); [done|].
  set (order := if bool_decide _ then _ else _) in *. destruct (_ && bool_decide (order = OrderUnknown)); [done|].
  set (width := if sc_pointerWidth requested =? 0 then _ else _) in *. destruct (_ && negb (width =? 8)) eqn:Hw; [done|]. destruct (_ && (width =? 0)) eqn:Hp; [done|].
  destruct (mapM _ _) as [terms|] eqn:Hterms; [|done]. destruct (normalizeAmount _) as [|c] eqn:Hn; [done|]. destruct (pointerRange c); [done|]. injection Ht as ->.
  destruct (normalize_keeps _ _ Hn) as (Evt & Ewd & Ete & _). cbn in Evt, Ewd, Ete. split; [|done]. constructor; rewrite ?Evt, ?Ewd, ?Ete.
  - destruct (Z.eqb_spec width 0), (Z.eqb_spec width 4), (Z.eqb_spec width 8); auto. done.
  - intros Hpt ->. unfold scanNeedsPointerWidth in Hp. by rewrite bool_decide_true in Hp by done.
  - apply mapM_Some in Hterms. clear -Hterms TextEncoder0. induction Hterms as [|term term' l k Henc _ IH]; [done|]. apply Forall_cons_2; [|done].
    unfold encodeTerm in Henc. case_bool_decide as Ht; [|by injection Henc as <-]. destruct (utf16Bytes (g_string term) order) as [b|] eqn:E; [|done].
    injection Henc as <-. cbn. intros _. by eapply utf16Known_length.
  - apply mapM_Some in Hterms. revert Hoff. clear -Hterms. induction Hterms as [|term term' l k Henc _ IH]; [done|]. intros [Ht Hoff]%Forall_cons_1. apply Forall_cons_2; [|by apply IH].
    unfold encodeTerm in Henc. case_bool_decide; [|by injection Henc as <-]. destruct (utf16Bytes (g_string term) order); [|done]. by injection Henc as <-.
Qed.
End WellFormed.
#[export] Instance sampleLibrary_encoder : TextEncoder sampleLibrary.
Proof.
  intros text big E. exists (mjoin ((λ c, [c; 0]) <$> text)). split; [done|]. assert (big = mjoin ((λ c, [0; c]) <$> text)) as ->.
  { change (iconvEncode (bs "UTF-16BE") text) with (Some (if bytes_eqb (bs "UTF-16BE") (bs "UTF-16BE") then mjoin ((λ c, [0; c]) <$> text) else mjoin ((λ c, [c; 0]) <$> text))) in E.
    replace (bytes_eqb (bs "UTF-16BE") (bs "UTF-16BE")) with true in E by (vm_compute; reflexivity). by injection E. }
  unfold len. f_equal. clear E. induction text as [|c text IH]; [done|]. change (S (S (length (mjoin ((λ c, [c; 0]) <$> text)))) = S (S (length (mjoin ((λ c, [0; c]) <$> text))))). by rewrite IH.
Qed.
