(* ===== verification/ScanRegion.v ===== *)
(** * The first scan of a buffer

    The dispatch of [MemoryScanner::firstScan] ([src/scanner/memory_scanner.cpp]) on the
    value type with the scans it calls for all types, grouped and custom values, and one
    reference for all of them: what is recorded at a position depends only on the bytes
    from there on, and at most on as many as the value has. *)

From Stdlib Require Import SpecFloat.
From S2P Require Import Prelude Numeral TargetMachine Types Loops ScanBuffers PatternScan ScanConfig ScanNumber ScanResults Floating NextCompare FloatOrder FloatScan ScanTarget.
#[local] Open Scope Z_scope.

Section Region.
Context {lib : Library}.

(** ** All types at once *)

(** A candidate type at the start of [tail], the bytes from the offset to the end. *)
Definition firstCandidate (size : Z) (bit : Z) (tail : bytes) (matches : bytes → bool) : outcome Z :=
  if len tail <? size then Ret 0
  else let* w := subspan tail 0 size in Ret (if matches w then maskBit bit else 0).
Definition firstInt (config : ScanConfig) (bit : Z) (ty : IntType) (tail : bytes) : outcome Z :=
  firstCandidate (ty_size ty) bit tail (λ w, firstIntMatches config ty (readScanScalar ty w (sc_byteOrder config))).
Definition firstFloat (config : ScanConfig) (bit : Z) (ft : FloatType) (tail : bytes) : outcome Z :=
  firstCandidate (ft_size ft) bit tail (λ w, compareAllFloatingLiteral ft config (readScanFloat ft w (sc_byteOrder config))).
Definition allTypesMask (config : ScanConfig) (tail : bytes) : outcome Z :=
  let* b0 := firstInt config 0 uint8 tail in
  let* b1 := firstInt config 1 int16 tail in
  let* b2 := firstInt config 2 int32 tail in
  let* b3 := firstInt config 3 int64 tail in
  let* b4 := firstFloat config 4 single tail in
  let* b5 := firstFloat config 5 double tail in
  Ret (Z.lor (Z.lor (Z.lor b0 b1) (Z.lor b2 b3)) (Z.lor b4 b5)).
(** [scanBufferAllTypes]: the rows it adds. *)
Definition scanBufferAllTypes (buf : bytes) (baseAddr alignment : Z) (config : ScanConfig) (emitLimit : Z) : outcome (list Row) :=
  let bufSize := len buf in
  let alignment := Z.max 1 alignment in
  let emitLimit := Z.min emitLimit bufSize in
  forEach emitLimit alignment (λ offset,
    let* mask := allTypesMask config (from buf offset) in
    if mask =? 0 then Ret [] else
    let* w := subspan buf offset (Z.min 8 (bufSize - offset)) in
    let window := w ++ replicate (Z.to_nat (8 - len w)) 0 in
    Ret [mkRow (u64 (baseAddr + offset)) window window mask]) 0.

(** ** Grouped and custom values *)

Definition scanBufferGrouped (buf : bytes) (baseAddr alignment : Z) (config : ScanConfig) : outcome (list hit) :=
  let bufSize := len buf in
  if bool_decide (sc_groupedTerms config = []) then Ret [] else
  let blockSize := groupedSize config in
  if (blockSize =? 0) || (bufSize <? blockSize) then Ret [] else
  let alignment := if alignment =? 0 then 1 else alignment in
  let limit := bufSize - blockSize + 1 in
  forEach limit alignment (λ offset,
    let* m := (let* block := subspan buf offset blockSize in groupedBlockMatches block blockSize config) in
    if m : bool then emit buf blockSize baseAddr offset else Ret []) 0.
Definition scanBufferCustom (buf : bytes) (base : Z) (config : ScanConfig) : outcome (list hit) :=
  let customSize := Z.max 1 (sc_customValueSize config) in
  if len buf <? customSize then Ret [] else
  let limit := len buf - customSize + 1 in
  let alignment := Z.max 1 (sc_alignment config) in
  forEach limit alignment (λ offset,
    if isCompare config CmpUnknown then emit buf customSize base offset
    else
      let* m := (let* w := subspan buf offset customSize in Ret (evalFormula config w w customSize false)) in
      if m : bool then emit buf customSize base offset else Ret []) 0.

(** ** The dispatch *)

Definition rowsOf (hits : outcome (list hit)) : outcome (list Row) := let* l := hits in Ret ((λ h : hit, mkRow h.1 h.2 h.2 0) <$> l).
Definition scanInteger (mode : SimdMode) (ty : IntType) (buf : bytes) (base : Z) (config : ScanConfig) : outcome (list hit) :=
  scanIntegerTarget mode ty buf base (sc_alignment config) (castInt ty (sc_intValue config)) (castInt ty (sc_intValue2 config))
    (sc_compareType config) (sc_byteOrder config).
(** An encoder that throws: the size of the value was computed from the same text before. *)
Definition encodingFailed {A} : outcome A := Fail "string encoding"%string.
Definition scanRegion (mode : SimdMode) (config : ScanConfig) (buf : bytes) (base emitLimit : Z) : outcome (list Row) :=
  match sc_valueType config with
  | VByte => rowsOf (scanInteger mode uint8 buf base config)
  | VInt16 => rowsOf (scanInteger mode int16 buf base config)
  | VInt32 => rowsOf (scanInteger mode int32 buf base config)
  | VInt64 => rowsOf (scanInteger mode int64 buf base config)
  | VPointer => rowsOf (scanInteger mode (if sc_pointerWidth config =? 4 then uint32 else uint64) buf base config)
  | VFloat => rowsOf (scanFloatTarget mode single buf base (sc_alignment config) config)
  | VDouble => rowsOf (scanFloatTarget mode double buf base (sc_alignment config) config)
  | VString =>
      match encodeStringBytes (sc_stringValue config) (sc_stringEncoding config) with
      | Some needle => rowsOf (scanBufferString mode buf base needle (negb (sc_caseSensitive config)))
      | None => encodingFailed
      end
  | VUnicodeString =>
      match utf16Bytes (sc_stringValue config) (sc_byteOrder config) with
      | Some needle => rowsOf (scanBufferUnicode buf base needle (negb (sc_caseSensitive config)) (sc_byteOrder config))
      | None => encodingFailed
      end
  | VByteArray => rowsOf (scanBufferAOB mode buf base (sc_byteArray config) (sc_byteArrayMask config))
  | VBinary => rowsOf (scanBufferBinary buf base (sc_byteArray config) (sc_byteMask config) (sc_alignment config))
  | VAll => scanBufferAllTypes buf base (sc_alignment config) config emitLimit
  | VGrouped =>
      if isCompare config CmpUnknown then rowsOf (scanBufferUnknown buf base (sc_alignment config) (groupedSize config))
      else rowsOf (scanBufferGrouped buf base (sc_alignment config) config)
  | VCustom => rowsOf (scanBufferCustom buf base config)
  end.
End Region.

(** ** The reference *)

Section Reference.
Context {lib : Library}.

Definition intTest (ty : IntType) (config : ScanConfig) (w : bytes) : bool :=
  getCompare (sc_compareType config) (value_in (sc_byteOrder config) ty w) (castInt ty (sc_intValue config)) (castInt ty (sc_intValue2 config)).
Definition floatTest (ft : FloatType) (config : ScanConfig) (w : bytes) : bool := compareFloating ft config (readScanFloat ft w (sc_byteOrder config)).
Definition textTest (needle : option bytes) (unicode : bool) (config : ScanConfig) (w : bytes) : bool :=
  match needle with
  | Some n => negb (len n =? 0) && textEq (sc_caseSensitive config) unicode (if unicode then sc_byteOrder config else Little) w n
  | None => false
  end.
Definition patternTest (pattern mask w : bytes) : bool := negb (len pattern =? 0) && (len mask =? len pattern) && maskedEq pattern mask w.
Definition groupedTest (config : ScanConfig) (w : bytes) : bool :=
  isCompare config CmpUnknown || match groupedBlockMatches w (len w) config with Ret b => b | _ => false end.
(** What the bytes of a value must be for the value to be found. *)
Definition valueTest (config : ScanConfig) (w : bytes) : bool :=
  match sc_valueType config with
  | VByte => intTest uint8 config w
  | VInt16 => intTest int16 config w
  | VInt32 => intTest int32 config w
  | VInt64 => intTest int64 config w
  | VPointer => intTest (if sc_pointerWidth config =? 4 then uint32 else uint64) config w
  | VFloat => floatTest single config w
  | VDouble => floatTest double config w
  | VString => textTest (encodeStringBytes (sc_stringValue config) (sc_stringEncoding config)) false config w
  | VUnicodeString => textTest (utf16Bytes (sc_stringValue config) (sc_byteOrder config)) true config w
  | VByteArray => patternTest (sc_byteArray config) (sc_byteArrayMask config) w
  | VBinary => patternTest (sc_byteArray config) (sc_byteMask config) w
  | VGrouped => groupedTest config w
  | VCustom => isCompare config CmpUnknown || evalFormula config w w (Z.max 1 (sc_customValueSize config)) false
  | VAll => false
  end.
(** The types of an all-types scan that fit and match. *)
Definition allMatches (config : ScanConfig) (tail : bytes) : Z := match allTypesMask config tail with Ret mask => mask | _ => 0 end.
(** What is recorded at a position, [tail] being the bytes from there on: a value and its
    candidate types. *)
Definition recordAt (config : ScanConfig) (vs : Z) (tail : bytes) : option (bytes * Z) :=
  if bool_decide (sc_valueType config = VAll) then
    if allMatches config tail =? 0 then None else
    let w := take 8 tail in Some (w ++ replicate (Z.to_nat (8 - len w)) 0, allMatches config tail)
  else if len tail <? vs then None
  else if valueTest config (take (Z.to_nat vs) tail) then Some (take (Z.to_nat vs) tail, 0) else None.
(** The distance between the positions. *)
Definition stepOf (config : ScanConfig) : Z :=
  match sc_valueType config with
  | VString | VByteArray => 1
  | VUnicodeString => 2
  | _ => Z.max 1 (sc_alignment config)
  end.
Definition rowAt (config : ScanConfig) (vs : Z) (buf : bytes) (base off : Z) : option Row :=
  (λ p : bytes * Z, mkRow (u64 (base + off)) p.1 p.1 p.2) <$> recordAt config vs (from buf off).
Definition scanReference (config : ScanConfig) (vs : Z) (buf : bytes) (base limit : Z) : list Row :=
  omap (rowAt config vs buf base) (stride 0 limit (stepOf config)).

(** What the scan needs of a configuration besides [config_ok]. *)
Record first_ok (config : ScanConfig) : Prop := {
  fk_config : config_ok config;
  fk_alignment : 0 ≤ sc_alignment config;
  fk_pattern : bytes_ok (sc_byteArray config);
  fk_string n : encodeStringBytes (sc_stringValue config) (sc_stringEncoding config) = Some n → bytes_ok n;
  fk_unicode n : utf16Bytes (sc_stringValue config) (sc_byteOrder config) = Some n → bytes_ok n ∧ len n mod 2 = 0;
  fk_float : sc_valueType config = VFloat ∨ sc_valueType config = VDouble → float_ok config;
  fk_grouped : sc_valueType config = VGrouped → sc_groupedTerms config ≠ [] ∧ groupedSize config ≠ 0
}.

(** ** All types *)

Lemma firstCandidate_ret size bit tail matches : 0 ≤ size →
  firstCandidate size bit tail matches = Ret (if (size <=? len tail) && matches (take (Z.to_nat size) tail) then maskBit bit else 0).
Proof.
  intros Hs. unfold firstCandidate. rewrite Z.leb_antisym. destruct (Z.ltb_spec (len tail) size); [done|]. cbn [negb andb].
  destruct (subspan_defined tail 0 size) as [-> _]; [lia..|]. cbn [obind]. unfold slice. by rewrite drop_0.
Qed.
Definition tailMask (config : ScanConfig) (tail : bytes) : Z :=
  let bit size i (matches : bytes → bool) := if (size <=? len tail) && matches (take (Z.to_nat size) tail) then maskBit i else 0 in
  let int i ty := bit (ty_size ty) i (λ w, firstIntMatches config ty (readScanScalar ty w (sc_byteOrder config))) in
  let float i ft := bit (ft_size ft) i (λ w, compareAllFloatingLiteral ft config (readScanFloat ft w (sc_byteOrder config))) in
  Z.lor (Z.lor (Z.lor (int 0 uint8) (int 1 int16)) (Z.lor (int 2 int32) (int 3 int64))) (Z.lor (float 4 single) (float 5 double)).
Lemma allTypesMask_ret config tail : allTypesMask config tail = Ret (tailMask config tail).
Proof. unfold allTypesMask, firstInt, firstFloat. rewrite !firstCandidate_ret by (cbn; lia). done. Qed.
Lemma tailMask_take config tail k : 8 ≤ k → tailMask config (take (Z.to_nat k) tail) = tailMask config tail.
Proof.
  intros Hk. assert (∀ size, 0 ≤ size ≤ 8 → (size <=? len (take (Z.to_nat k) tail)) = (size <=? len tail) ∧ take (Z.to_nat size) (take (Z.to_nat k) tail) = take (Z.to_nat size) tail) as H.
  { intros size Hs. split; [|rewrite take_take; f_equal; lia]. apply eq_true_iff_eq. rewrite !Z.leb_le. unfold len. rewrite length_take. lia. }
  unfold tailMask. cbv zeta. destruct (H 1 ltac:(lia)) as [H1 T1], (H 2 ltac:(lia)) as [H2 T2], (H 4 ltac:(lia)) as [H4 T4], (H 8 ltac:(lia)) as [H8 T8].
  cbn [ty_size ft_size uint8 int16 int32 int64 single double]. by rewrite H1, T1, H2, T2, H4, T4, H8, T8.
Qed.
Lemma tailMask_valid config tail : tailMask config tail ≠ 0 → validMask (tailMask config tail) = true ∧ 0 ≤ tailMask config tail < 256.
Proof. unfold tailMask. cbv zeta. repeat (destruct (_ && _)); vm_compute; done. Qed.
Lemma lor_bits (a b c d e f : bool) :
  let bit (x : bool) i := if x then maskBit i else 0 in
  Z.lor (Z.lor (Z.lor (bit a 0) (bit b 1)) (Z.lor (bit c 2) (bit d 3))) (Z.lor (bit e 4) (bit f 5)) = 0 ↔
  a = false ∧ b = false ∧ c = false ∧ d = false ∧ e = false ∧ f = false.
Proof. cbv zeta. destruct a, b, c, d, e, f; (split; [intros E; try discriminate E; by split_and!|intros (? & ? & ? & ? & ? & ?); done]). Qed.
(** Fewer zeros match no more. *)
Lemma tailMask_zeros config n : 0 ≤ n → tailMask config (replicate 8 0) = 0 → tailMask config (replicate (Z.to_nat n) 0) = 0.
Proof.
  intros Hn. unfold tailMask. cbv zeta. rewrite !lor_bits.
  assert (∀ (k : Z) (matches : bytes → bool), 0 ≤ k ≤ 8 → (k <=? len (replicate 8 0)) && matches (take (Z.to_nat k) (replicate 8 0)) = false →
    (k <=? len (replicate (Z.to_nat n) 0)) && matches (take (Z.to_nat k) (replicate (Z.to_nat n) 0)) = false) as H.
  { intros k matches Hk. unfold len. rewrite !length_replicate, !take_replicate. destruct (Z.leb_spec k (Z.of_nat 8)); [|lia]. destruct (Z.leb_spec k (Z.of_nat (Z.to_nat n))); [|done].
    by rewrite !Nat.min_l by lia. }
  set (int ty := λ w, firstIntMatches config ty (readScanScalar ty w (sc_byteOrder config))).
  set (float ft := λ w, compareAllFloatingLiteral ft config (readScanFloat ft w (sc_byteOrder config))).
  intros (H0 & H1 & H2 & H3 & H4 & H5).
  exact (conj (H 1 (int uint8) ltac:(lia) H0) (conj (H 2 (int int16) ltac:(lia) H1) (conj (H 4 (int int32) ltac:(lia) H2)
    (conj (H 8 (int int64) ltac:(lia) H3) (conj (H 4 (float single) ltac:(lia) H4) (H 8 (float double) ltac:(lia) H5)))))).
Qed.
(** Only the first bytes matter. *)
Lemma recordAt_take config vs tail k : valueSizeForConfig config = Some vs → 0 < vs ≤ k → recordAt config vs (take (Z.to_nat k) tail) = recordAt config vs tail.
Proof.
  intros Hvs Hk. unfold recordAt, allMatches. rewrite !allTypesMask_ret. case_bool_decide as Hall.
  - unfold valueSizeForConfig in Hvs. rewrite Hall in Hvs. injection Hvs as <-. rewrite tailMask_take, take_take by lia. by rewrite Nat.min_l by lia.
  - rewrite take_take, Nat.min_l by lia. assert ((len (take (Z.to_nat k) tail) <? vs) = (len tail <? vs)) as ->; [|done].
    apply eq_true_iff_eq. rewrite !Z.ltb_lt. unfold len. rewrite length_take. lia.
Qed.
End Reference.

(** ** Every scan is the reference *)

Lemma omap_stride_limit {A} (f g : Z → option A) l1 l2 step : 1 ≤ step → l1 ≤ l2 →
  (∀ j, 0 ≤ j < l1 → f j = g j) → (∀ j, 0 ≤ j → l1 ≤ j < l2 → g j = None) → omap f (stride 0 l1 step) = omap g (stride 0 l2 step).
Proof.
  intros Hs Hl Hfg Hg. assert (∀ i, 0 ≤ i → omap f (stride i l1 step) = omap g (stride i l2 step)) as H; [|by apply H].
  apply (stride_ind (λ i, 0 ≤ i → omap f (stride i l1 step) = omap g (stride i l2 step)) l2 step Hs).
  - intros i Hi _. by rewrite !stride_nil by lia.
  - intros i Hi IH Hi0. rewrite (stride_cons i l2) by lia. specialize (IH ltac:(lia)). destruct (decide (i < l1)).
    + rewrite (stride_cons i l1) by lia. cbn. by rewrite Hfg, IH by lia.
    + rewrite (stride_nil (i + step)) in IH by lia. rewrite (stride_nil i) by lia. cbn. rewrite Hg by lia. done.
Qed.
Lemma fmap_omap_list {A B C} (f : B → C) (g : A → option B) (l : list A) : f <$> omap g l = omap (λ x, f <$> g x) l.
Proof. induction l as [|x l IH]; [done|]. cbn. destruct (g x); cbn; by rewrite IH. Qed.
Lemma fixAlignment_max a : 0 ≤ a → fixAlignment a = Z.max 1 a.
Proof. intros. unfold fixAlignment. destruct (Z.eqb_spec a 0); lia. Qed.
Lemma from_slice buf off n : 0 ≤ off → 0 ≤ n → take (Z.to_nat n) (from buf off) = slice buf off n.
Proof. done. Qed.
Lemma len_from buf off : 0 ≤ off ≤ len buf → len (from buf off) = len buf - off.
Proof. intros. unfold from, len in *. rewrite length_drop. lia. Qed.

Lemma groupedSize_nonneg {lib : Library} config : 0 ≤ groupedSize config.
Proof.
  unfold groupedSize. assert (∀ terms bs, 0 ≤ bs → 0 ≤ groupedValueSize utf16Known terms (sc_pointerWidth config) bs) as H; [|by apply H].
  induction terms as [|term terms IH]; intros bs Hbs; [done|]. cbn [groupedValueSize]. destruct (_ =? 0); [by apply IH|]. destruct (_ <? _); [done|]. apply IH. lia.
Qed.

Section Spec.
Context {lib : Library} (mode : SimdMode) (config : ScanConfig) (vs : Z) (buf : bytes) (base limit : Z).
Context (Hok : first_ok config) (Hvs : valueSizeForConfig config = Some vs) (Hbuf : bytes_ok buf)
  (Hlen : len buf + sc_alignment config < 2 ^ 63) (Hlim : 0 ≤ limit ≤ len buf) (Hover : len buf ≤ limit + vs - 1).
Lemma vs_positive : 0 < vs.
Proof using Hok Hvs. by apply (valueSize_pos config); [apply fk_config|]. Qed.
Lemma stepOf_pos : 1 ≤ stepOf config.
Proof using. unfold stepOf. destruct (sc_valueType config); lia. Qed.

Lemma hits_reference test : sc_valueType config ≠ VAll → (∀ w, bytes_ok w → len w = vs → test w = valueTest config w) →
  (λ h : hit, mkRow h.1 h.2 h.2 0) <$> scanSpec buf vs base (stepOf config) test = scanReference config vs buf base limit.
Proof using Hok Hvs Hbuf Hlen Hlim Hover.
  intros Hall Htest. pose proof vs_positive. unfold scanSpec, scanReference. rewrite fmap_omap_list. apply omap_stride_limit; [apply stepOf_pos|lia|..].
  - intros off Ho. unfold rowAt, recordAt, matchAt. rewrite bool_decide_false by done. rewrite len_from by lia. destruct (Z.ltb_spec (len buf - off) vs); [lia|].
    rewrite from_slice by lia. rewrite <- Htest; [|by apply bytes_ok_slice|apply len_slice; lia]. by destruct (test _).
  - intros off Ho Hoff. unfold rowAt, recordAt. rewrite bool_decide_false by done. rewrite len_from by lia. by destruct (Z.ltb_spec (len buf - off) vs); [|lia].
Qed.
Lemma no_reference : sc_valueType config ≠ VAll → (∀ w, valueTest config w = false) → scanReference config vs buf base limit = [].
Proof using.
  intros Hall Htest. unfold scanReference. induction (stride 0 limit (stepOf config)) as [|off l IH]; [done|]. cbn. rewrite IH.
  unfold rowAt, recordAt. rewrite bool_decide_false, Htest by done. by destruct (_ <? _).
Qed.
Lemma castInt_in_type ty v : ty_ok ty → in_type ty (castInt ty v).
Proof using.
  intros Hty%ty_size_range. unfold in_type, castInt. destruct (ty_signed ty); [apply to_signed_bound; lia|]. apply wrap_bound. lia.
Qed.
Lemma integer_region ty : ty_ok ty → ty_size ty = vs → sc_valueType config ≠ VAll → stepOf config = Z.max 1 (sc_alignment config) →
  (∀ w, valueTest config w = intTest ty config w) → rowsOf (scanInteger mode ty buf base config) = Ret (scanReference config vs buf base limit).
Proof using Hok Hvs Hbuf Hlen Hlim Hover.
  intros Hty Hs Hall Hstep Htest. unfold rowsOf, scanInteger. rewrite scanIntegerTarget_ret; [|done|done|by apply castInt_in_type|apply (fk_alignment _ Hok)|done].
  cbn [obind]. f_equal. rewrite fixAlignment_max by apply (fk_alignment _ Hok). rewrite <- Hstep, Hs. apply hits_reference; [done|]. intros w _ _. by rewrite Htest.
Qed.
Lemma text_region needle unicode : (∀ n, needle = Some n → bytes_ok n ∧ (len n ≠ 0 → len n = vs)) → sc_valueType config ≠ VAll →
  (∀ w, valueTest config w = textTest needle unicode config w) → stepOf config = (if unicode then 2 else 1) →
  ∀ n, needle = Some n →
  rowsOf (if unicode then scanBufferUnicode buf base n (negb (sc_caseSensitive config)) (sc_byteOrder config) else scanBufferString mode buf base n (negb (sc_caseSensitive config)))
  = Ret (scanReference config vs buf base limit).
Proof using Hok Hvs Hbuf Hlen Hlim Hover.
  intros Hn Hall Htest Hstep n E. destruct (Hn n E) as [Hnok Hl]. pose proof (len_nonneg n). pose proof (fk_alignment _ Hok). destruct (decide (len n = 0)) as [Hz|Hz].
  - rewrite no_reference; [|done|intros w; rewrite Htest; unfold textTest; by rewrite E, Hz]. unfold scanBufferUnicode, scanBufferString. rewrite Hz. by destruct unicode.
  - destruct unicode; [rewrite scanBufferUnicode_ret by (done || lia)|rewrite scanBufferString_ret by (done || lia)]; unfold rowsOf; cbn [obind]; f_equal; rewrite <- Hstep, Hl by done;
      (apply hits_reference; [done|]); intros w _ _; rewrite Htest; unfold textTest; rewrite E; (destruct (Z.eqb_spec (len n) 0); [done|]); by rewrite negb_involutive.
Qed.
Lemma pattern_region hits mask : sc_valueType config ≠ VAll → (∀ w, valueTest config w = patternTest (sc_byteArray config) mask w) →
  (len (sc_byteArray config) ≠ 0 → len (sc_byteArray config) = vs) →
  (len (sc_byteArray config) = 0 ∨ len mask ≠ len (sc_byteArray config) → hits = Ret []) →
  (0 < len (sc_byteArray config) → len mask = len (sc_byteArray config) →
    hits = Ret (scanSpec buf (len (sc_byteArray config)) base (stepOf config) (maskedEq (sc_byteArray config) mask))) →
  rowsOf hits = Ret (scanReference config vs buf base limit).
Proof using Hok Hvs Hbuf Hlen Hlim Hover.
  intros Hall Htest Hl Hnone Hsome. pose proof (len_nonneg (sc_byteArray config)). unfold patternTest in Htest.
  destruct (decide (len (sc_byteArray config) = 0)) as [Hz|Hz]; [|destruct (decide (len mask = len (sc_byteArray config))) as [Hm|Hm]].
  - rewrite no_reference, Hnone; [done|by left|done|]. intros w. by rewrite Htest, Hz.
  - rewrite Hsome by lia. unfold rowsOf. cbn [obind]. f_equal. rewrite Hl by done. apply hits_reference; [done|]. intros w _ _. rewrite Htest, Hm, Z.eqb_refl.
    by destruct (Z.eqb_spec (len (sc_byteArray config)) 0).
  - rewrite no_reference, Hnone; [done|by right|done|]. intros w. rewrite Htest. destruct (Z.eqb_spec (len mask) (len (sc_byteArray config))); [done|]. by rewrite andb_false_r.
Qed.
Lemma float_region ft : ft_ok ft → ft_size ft = vs → sc_valueType config ≠ VAll → stepOf config = Z.max 1 (sc_alignment config) → float_ok config →
  (∀ w, valueTest config w = floatTest ft config w) → rowsOf (scanFloatTarget mode ft buf base (sc_alignment config) config) = Ret (scanReference config vs buf base limit).
Proof using Hok Hvs Hbuf Hlen Hlim Hover.
  intros Hft Hs Hall Hstep Hfl Htest. unfold rowsOf. rewrite scanFloatTarget_ret; [|done|apply (fk_alignment _ Hok)|done|done].
  cbn [obind]. f_equal. rewrite fixAlignment_max by apply (fk_alignment _ Hok). rewrite <- Hstep, Hs. apply hits_reference; [done|]. intros w _ _. by rewrite Htest.
Qed.
(** Blocks and custom values: the test of each position is a test of its bytes. *)
Lemma tested_region test (pred : bytes → bool) : sc_valueType config ≠ VAll → stepOf config = Z.max 1 (sc_alignment config) →
  (∀ w, bytes_ok w → len w = vs → pred w = valueTest config w) →
  (∀ off, 0 ≤ off → off + vs ≤ len buf → test off = if pred (slice buf off vs) then emit buf vs base off else Ret []) →
  rowsOf (forEach (len buf - vs + 1) (stepOf config) test 0) = Ret (scanReference config vs buf base limit).
Proof using Hok Hvs Hbuf Hlen Hlim Hover.
  intros Hall Hstep Hpred Htest. pose proof vs_positive. pose proof (fk_alignment _ Hok). rewrite <- (hits_reference pred); [|done|done].
  rewrite (forEach_spec _ _ _ (λ j, option_list (matchAt buf vs base pred j))); [|apply stepOf_pos|done|lia_w|].
  - unfold rowsOf. cbn [obind]. by rewrite mjoin_omap.
  - intros off Hoff%elem_of_stride. rewrite Htest by lia. unfold matchAt. destruct (pred _); [|done]. apply emit_ret; lia.
Qed.
Lemma short_region : sc_valueType config ≠ VAll → len buf < vs → scanReference config vs buf base limit = [].
Proof using Hok Hvs Hbuf Hlen Hlim Hover.
  intros Hall Hs. rewrite <- (hits_reference (valueTest config)); [|done|done]. by rewrite scanSpec_short.
Qed.
Lemma grouped_region : sc_valueType config = VGrouped → scanRegion mode config buf base limit = Ret (scanReference config vs buf base limit).
Proof using Hok Hvs Hbuf Hlen Hlim Hover.
  intros Hg. assert (sc_valueType config ≠ VAll) as Hall by (by rewrite Hg). assert (stepOf config = Z.max 1 (sc_alignment config)) as Hstep by (unfold stepOf; by rewrite Hg).
  destruct (fk_grouped _ Hok Hg) as [Hterms Hgs]. pose proof vs_positive. pose proof (fk_alignment _ Hok).
  assert (groupedSize config = vs) as Hsize.
  { unfold valueSizeForConfig in Hvs. rewrite Hg in Hvs. injection Hvs as <-. assert (0 ≤ groupedSize config); [|lia]. apply groupedSize_nonneg. }
  unfold scanRegion. rewrite Hg. destruct (isCompare config CmpUnknown) eqn:Hunk.
  - unfold rowsOf. rewrite scanBufferUnknown_ret by lia. cbn [obind]. f_equal. rewrite fixAlignment_max by done. rewrite <- Hstep, Hsize. apply hits_reference; [done|].
    intros w _ _. unfold valueTest, groupedTest. by rewrite Hg, Hunk.
  - unfold scanBufferGrouped. rewrite bool_decide_false by done. rewrite Hsize. cbv zeta. destruct (Z.eqb_spec vs 0); [lia|]. cbn [orb].
    destruct (Z.ltb_spec (len buf) vs); [by rewrite short_region|]. fold (fixAlignment (sc_alignment config)). rewrite fixAlignment_max, <- Hstep by done.
    apply (tested_region _ (groupedTest config)); [done|done|intros w _ _; unfold valueTest; by rewrite Hg|].
    intros off Ho Hl. destruct (subspan_defined buf off vs) as [-> Hsl]; [lia..|]. cbn [obind]. unfold groupedTest. rewrite Hunk, Hsl. cbn [orb]. unfold groupedBlockMatches.
    destruct (groupedTerms_ret (sc_groupedTerms config) (slice buf off vs) config) as [b Hb]; [apply (fk_config _ Hok)|done|]. rewrite Hsl in Hb. rewrite Hb. by destruct b.
Qed.
Lemma custom_region : sc_valueType config = VCustom → scanRegion mode config buf base limit = Ret (scanReference config vs buf base limit).
Proof using Hok Hvs Hbuf Hlen Hlim Hover.
  intros Hc. assert (sc_valueType config ≠ VAll) as Hall by (by rewrite Hc). assert (stepOf config = Z.max 1 (sc_alignment config)) as Hstep by (unfold stepOf; by rewrite Hc).
  assert (Z.max 1 (sc_customValueSize config) = vs) as Hsize by (unfold valueSizeForConfig in Hvs; rewrite Hc in Hvs; by injection Hvs).
  unfold scanRegion. rewrite Hc. unfold scanBufferCustom. rewrite Hsize. cbv zeta. destruct (Z.ltb_spec (len buf) vs); [by rewrite short_region|].
  rewrite <- Hstep. apply (tested_region _ (valueTest config)); [done|done|done|].
  intros off Ho Hl. unfold valueTest. rewrite Hc, Hsize. destruct (isCompare config CmpUnknown); [done|]. cbn [orb].
  destruct (subspan_defined buf off vs) as [-> Hsl]; [lia..|done].
Qed.
Lemma all_region : sc_valueType config = VAll → scanRegion mode config buf base limit = Ret (scanReference config vs buf base limit).
Proof using Hok Hvs Hlen Hlim.
  intros Ha. pose proof (fk_alignment _ Hok). unfold scanRegion. rewrite Ha. unfold scanBufferAllTypes. cbv zeta. rewrite Z.min_l by lia.
  assert (stepOf config = Z.max 1 (sc_alignment config)) as Hstep by (unfold stepOf; by rewrite Ha). rewrite <- Hstep. unfold scanReference.
  rewrite <- mjoin_omap. apply forEach_spec; [apply stepOf_pos|done|unfold stepOf; rewrite Ha; lia_w|].
  intros off Hoff%elem_of_stride. rewrite allTypesMask_ret. cbn [obind]. unfold rowAt, recordAt, allMatches. rewrite allTypesMask_ret, bool_decide_true by done.
  destruct (tailMask config (from buf off) =? 0); [done|]. destruct (subspan_defined buf off (Z.min 8 (len buf - off))) as [-> Hsl]; [lia..|]. cbn [obind fmap option_fmap option_map option_list].
  assert (slice buf off (Z.min 8 (len buf - off)) = take 8 (from buf off)) as Hw.
  { unfold slice. change (drop (Z.to_nat off) buf) with (from buf off). destruct (Z.min_spec 8 (len buf - off)) as [[? ->]|[? ->]]; [done|].
    rewrite !take_ge; [done|..]; pose proof (len_from buf off ltac:(lia)); unfold len in *; lia. }
  by rewrite Hw.
Qed.
End Spec.

(** The dispatch is the reference, whichever vector unit is used. *)
Lemma scanRegion_ret {lib : Library} mode config vs buf base limit :
  first_ok config → valueSizeForConfig config = Some vs → bytes_ok buf → len buf + sc_alignment config < 2 ^ 63 →
  0 ≤ limit ≤ len buf → len buf ≤ limit + vs - 1 →
  scanRegion mode config buf base limit = Ret (scanReference config vs buf base limit).
Proof.
  intros Hok Hvs Hbuf Hlen Hlim Hover. pose proof (fk_config _ Hok) as Hcfg. pose proof (fk_alignment _ Hok) as Ha.
  pose proof Hvs as Hvs'. unfold valueSizeForConfig in Hvs'. pose proof (len_nonneg (sc_byteArray config)).
  destruct (sc_valueType config) eqn:Hvt; try (by apply custom_region); try (by apply grouped_region); try (by apply all_region); unfold scanRegion; rewrite Hvt;
    assert (sc_valueType config ≠ VAll) as Hall by (by rewrite Hvt).
  - apply integer_region; try done; [unfold ty_ok; cbn; lia|by injection Hvs'|unfold stepOf; by rewrite Hvt|intros w; unfold valueTest; by rewrite Hvt].
  - apply integer_region; try done; [unfold ty_ok; cbn; lia|by injection Hvs'|unfold stepOf; by rewrite Hvt|intros w; unfold valueTest; by rewrite Hvt].
  - apply integer_region; try done; [unfold ty_ok; cbn; lia|by injection Hvs'|unfold stepOf; by rewrite Hvt|intros w; unfold valueTest; by rewrite Hvt].
  - apply integer_region; try done; [unfold ty_ok; cbn; lia|by injection Hvs'|unfold stepOf; by rewrite Hvt|intros w; unfold valueTest; by rewrite Hvt].
  - apply float_region; try done; [by left|by injection Hvs'|unfold stepOf; by rewrite Hvt|by apply fk_float; auto|intros w; unfold valueTest; by rewrite Hvt].
  - apply float_region; try done; [by right|by injection Hvs'|unfold stepOf; by rewrite Hvt|by apply fk_float; auto|intros w; unfold valueTest; by rewrite Hvt].
  - unfold stringValueSize in Hvs'. destruct (encodeStringBytes _ _) as [n|] eqn:E; [|done]. injection Hvs' as Hvs'. pose proof (len_nonneg n).
    apply (text_region mode config vs buf base limit Hok Hvs Hbuf Hlen Hlim Hover (Some n) false); try done; [|intros w; unfold valueTest; by rewrite Hvt, E|unfold stepOf; by rewrite Hvt].
    intros n' [= <-]. split; [by apply (fk_string _ Hok)|lia].
  - destruct (utf16Bytes _ _) as [n|] eqn:E; [|done]. injection Hvs' as Hvs'. pose proof (len_nonneg n).
    apply (text_region mode config vs buf base limit Hok Hvs Hbuf Hlen Hlim Hover (Some n) true); try done; [|intros w; unfold valueTest; by rewrite Hvt, E|unfold stepOf; by rewrite Hvt].
    intros n' [= <-]. destruct (fk_unicode _ Hok n E) as [? He]. split; [done|]. intros Hz. enough (len n ≠ 1) by lia. intros E1. by rewrite E1 in He.
  - injection Hvs' as Hvs'. apply (pattern_region config vs buf base limit Hok Hvs Hbuf Hlen Hlim Hover _ (sc_byteArrayMask config)); try done.
    + intros w. unfold valueTest. by rewrite Hvt.
    + lia.
    + unfold scanBufferAOB. intros [-> |Hm]; [done|]. destruct (Z.eqb_spec (len (sc_byteArrayMask config)) (len (sc_byteArray config))); [done|]. cbn [negb]. by rewrite orb_true_r.
    + intros Hp Hm. assert (stepOf config = 1) as -> by (unfold stepOf; by rewrite Hvt). apply scanBufferAOB_ret; [done|apply (fk_pattern _ Hok)|done|done|lia].
  - injection Hvs' as Hvs'. apply (pattern_region config vs buf base limit Hok Hvs Hbuf Hlen Hlim Hover _ (sc_byteMask config)); try done.
    + intros w. unfold valueTest. by rewrite Hvt.
    + lia.
    + unfold scanBufferBinary. intros [-> |Hm]; [done|]. destruct (Z.eqb_spec (len (sc_byteMask config)) (len (sc_byteArray config))); [done|]. cbn [negb]. by rewrite orb_true_r.
    + intros Hp Hm. assert (stepOf config = Z.max 1 (sc_alignment config)) as -> by (unfold stepOf; by rewrite Hvt). rewrite <- fixAlignment_max by done. by apply scanBufferBinary_ret.
  - injection Hvs' as Hvs'. apply integer_region; try done; [destruct (_ =? 4); unfold ty_ok; cbn; lia| |unfold stepOf; by rewrite Hvt|intros w; unfold valueTest; by rewrite Hvt].
    pose proof (ck_pointer _ Hcfg Hvt). destruct (ck_width _ Hcfg) as [Hw|[Hw|Hw]]; [done|..]; rewrite Hw in *; by rewrite <- Hvs'.
Qed.
