(* ===== verification/NextScan.v ===== *)
(** * The next scan

    Models [MemoryScanner::nextScan] of [src/scanner/memory_scanner.cpp]: the rows of the
    previous result are split among workers, each worker reads its rows in batches, reads
    the current values (grouped by width in an all-types scan), keeps the rows that still
    match, and the workers' results are assembled.

    The loops of a worker run one after the other here: a worker only shares the counter of
    progress and the flags that stop it, which are an oracle. *)

From Stdlib Require Import SpecFloat.
From S2P Require Import Prelude Numeral TargetMachine Types Loops ScanBuffers PatternScan ScanConfig ScanNumber ScanResults Floating NextCompare ScanTarget.
#[local] Open Scope Z_scope.

Definition BATCH : Z := 4096.
Definition kMTFloor : Z := 65536.

Section Worker.
Context {lib : Library}.
Context (t : Target) (config : ScanConfig) (previousAll : bool) (valueSize inputSize : Z) (stringNeedle unicodeNeedle : bytes).
Definition isAll : bool := bool_decide (sc_valueType config = VAll).

(** A selected row with its candidates still to read, those that were read, and the
    current value. *)
Record Selected := mkSelected { sl_row : Row; sl_pending : Z; sl_read : Z; sl_current : option bytes }.

(** The row's address lies in the range of the scan and one of its types is asked for. *)
Definition selectRow (r : Row) : option Selected :=
  if previousAll && negb isAll && (Z.land (row_mask r) (allCandidateFor (sc_valueType config)) =? 0) then None
  else if (row_addr r <? sc_startAddress config) || (sc_stopAddress config <? row_addr r) then None
  else if isAll then
    let candidates := allCandidatesFitting (row_mask r) (sc_stopAddress config - row_addr r) in
    if candidates =? 0 then None else Some (mkSelected r candidates 0 None)
  else if sc_stopAddress config - row_addr r <? valueSize - 1 then None
  else Some (mkSelected r 0 0 None).

(** A failed read of a width takes its types from the candidates. *)
Fixpoint dropWidth (i : Z) (widths : list Z) (width candidates : Z) : Z :=
  match widths with
  | [] => candidates
  | w :: widths => dropWidth (i + 1) widths width (if w =? width then Z.land candidates (Z.lxor 255 (maskBit i)) else candidates)
  end.
(** One row after a batched read of [width] bytes. *)
Definition afterRead (width : Z) (s : Selected) (got : option bytes) : Selected :=
  match got with
  | Some b => mkSelected (sl_row s) 0 (sl_pending s) (Some (b ++ replicate (Z.to_nat (8 - width)) 0))
  | None => mkSelected (sl_row s) (dropWidth 0 allCandidateWidths width (sl_pending s)) (sl_read s) (sl_current s)
  end.
(** The rows whose widest pending type has this width, with what was read for them. *)
Fixpoint scatter (width : Z) (selected : list Selected) (results : list (option bytes)) : list Selected :=
  match selected with
  | [] => []
  | s :: selected =>
      if allCandidateReadSize (sl_pending s) =? width then
        match results with
        | got :: results => afterRead width s got :: scatter width selected results
        | [] => s :: scatter width selected []
        end
      else s :: scatter width selected results
  end.
Definition readWidth (selected : list Selected) (width : Z) : list Selected :=
  let addrs := (λ s, row_addr (sl_row s)) <$> filter (λ s, allCandidateReadSize (sl_pending s) = width) selected in
  if bool_decide (addrs = []) then selected else scatter width selected (t_readMany t addrs width).
Definition readAllTypes (selected : list Selected) : list Selected := foldl readWidth selected [8; 4; 2; 1].
Definition readOneType (selected : list Selected) : list Selected :=
  zip_with (λ s got, mkSelected (sl_row s) 0 0 got) selected (t_readMany t ((λ s, row_addr (sl_row s)) <$> selected) valueSize).
Definition readSelected (selected : list Selected) : list Selected := if isAll then readAllTypes selected else readOneType selected.

(** The row to add for a selected row, if it still matches. *)
Definition keepRow (s : Selected) : outcome (option Row) :=
  let r := sl_row s in
  match sl_current s with
  | None => Ret None
  | Some currentVal =>
      if isAll then
        let* candidates := nextAllTypeCandidates config (sl_read s) currentVal (row_value r) (row_first r) in
        Ret (if candidates =? 0 then None else Some (mkRow (row_addr r) currentVal (row_first r) candidates))
      else
        let* match_ := nextScanCompare config valueSize currentVal (row_value r) (row_first r) stringNeedle unicodeNeedle in
        let* first := subspan (row_first r) 0 valueSize in
        Ret (if match_ : bool then Some (mkRow (row_addr r) currentVal first 0) else None)
  end.

Section Writing.
Context (disk : Disk) (layout : list (Dir * Z)) (stop : Z → bool).

Fixpoint keepLoop (selected : list Selected) (w : Writer) : outcome Writer :=
  match selected with
  | [] => Ret w
  | s :: selected =>
      let* kept := keepRow s in
      keepLoop selected (match kept with Some r => addRow disk isAll r w | None => w end)
  end.
(** The batches from [idx] to [end]; [stop] answers whether the scan was cancelled or
    another worker failed when the batch at an index starts. *)
Fixpoint workerLoop (fuel : nat) (reader : ShardReader) (idx end_ : Z) (w : Writer) : outcome Writer :=
  match fuel with
  | O => Ret w
  | S fuel =>
      if (end_ <=? idx) || stop idx then Ret w else
      let n := Z.min BATCH (end_ - idx) in
      match readerRead reader idx n inputSize previousAll with
      | None => Ret (markWriteError w)
      | Some rows =>
          let* w := keepLoop (readSelected (omap selectRow rows)) w in
          workerLoop fuel reader (idx + n) end_ w
      end
  end.
Definition worker (begin end_ : Z) : outcome Writer :=
  let w := setDataFormat disk (sc_byteOrder config) (sc_pointerWidth config) (createResult disk true) in
  let w := if isAll then enableAllTypeCandidates disk w else w in
  let reader := openReader layout previousAll in
  if negb (rd_ok reader) then Ret (finalize disk (markWriteError w))
  else
    let* w := workerLoop (Z.to_nat (end_ - begin)) reader begin end_ w in
    Ret (finalize disk w).
End Writing.
End Worker.

(** ** The scan *)

(** The directory of worker [i] under the scan's directory, and the directories the workers
    wrote. *)
Definition partPath (root : bytes) (i : nat) : bytes := root ++ bs "/t" ++ to_string (Z.of_nat i).
Definition directoriesOf (parts : list (bytes * Writer)) (path : bytes) : Dir :=
  match List.find (λ p : bytes * Writer, bytes_eqb p.1 path) parts with
  | Some p => w_dir p.2
  | None => noFiles
  end.

Section NextScan.
Context {lib : Library}.
Context (t : Target) (threadCount : Z) (disks : nat → Disk) (mergedDisk : Disk) (stop : nat → Z → bool) (root : bytes).

Definition isOneOf (cmp : ScanCompare) (cmps : list ScanCompare) : bool := existsb (λ c, bool_decide (cmp = c)) cmps.
Definition hasMask (config : ScanConfig) (previous : Loaded) : option ScanError :=
  if negb (ld_count previous =? 0) && bool_decide (sc_valueType config = VAll) && negb (ld_hasAllTypes previous)
  then Some (InvalidArgument (bs "All-type scan candidates are missing; start a fresh All-type scan"))
  else if negb (ld_count previous =? 0) && ld_hasAllTypes previous && negb (bool_decide (sc_valueType config = VAll))
          && (allCandidateFor (sc_valueType config) =? 0)
  then Some (InvalidArgument (bs "Select one of the All-type numeric types or start a fresh scan"))
  else None.
(** The data format of the samples against the one asked for. *)
Definition formatConflict (requested config : ScanConfig) (format : option (ByteOrder * Z)) : option ScanError :=
  match format with
  | None => None
  | Some (order, width) =>
      if bool_decide (sc_byteOrder requested = OrderUnknown) && scanNeedsByteOrder config && negb (bool_decide (order = OrderUnknown))
         && negb (bool_decide (order = sc_byteOrder config))
      then Some (InvalidArgument (bs "The next scan data byte order differs from the captured samples"))
      else if (sc_pointerWidth requested =? 0) && scanNeedsPointerWidth config && negb (width =? 0) && negb (width =? sc_pointerWidth config)
      then Some (InvalidArgument (bs "The next scan pointer width differs from the captured samples"))
      else None
  end.
Definition blockCompares : list ScanCompare := [CmpExact; CmpChanged; CmpUnchanged; CmpSameAsFirst; CmpUnknown].
Definition nextCompareError (config : ScanConfig) : option ScanError :=
  match sc_valueType config with
  | VGrouped =>
      if bool_decide (sc_groupedTerms config = [])
      then Some (InvalidArgument (bs "ValueType::Grouped requires grouped terms (use parseGrouped)"))
      else if groupedSize config =? 0
      then Some (InvalidArgument (bs "ValueType::Grouped has invalid grouped terms"))
      else if negb (isOneOf (sc_compareType config) blockCompares)
      then Some (InvalidArgument (bs "ValueType::Grouped next scan supports exact/changed/unchanged/samefirst/unknown"))
      else None
  | VCustom =>
      if sc_customValueSize config =? 0
      then Some (InvalidArgument (bs "ValueType::Custom requires customValueSize > 0"))
      else if isCompare config CmpExact && bool_decide (sc_customFormula config = [])
      then Some (InvalidArgument (bs "ValueType::Custom exact next scan requires customFormula"))
      else if negb (isOneOf (sc_compareType config) blockCompares)
      then Some (InvalidArgument (bs "ValueType::Custom next scan supports exact/changed/unchanged/samefirst/unknown"))
      else None
  | VString | VUnicodeString | VByteArray | VBinary =>
      if isOneOf (sc_compareType config) [CmpGreater; CmpLess; CmpBetween; CmpIncreasedBy; CmpDecreasedBy]
      then Some (InvalidArgument (bs "Text, byte array and binary scans support exact, changed, unchanged and same as first"))
      else None
  | _ => None
  end.

(** The exact needles, computed once. *)
Definition stringNeedleOf (config : ScanConfig) : option bytes :=
  if bool_decide (sc_valueType config = VString) && isCompare config CmpExact
  then encodeStringBytes (sc_stringValue config) (sc_stringEncoding config) else Some [].
Definition unicodeNeedleOf (config : ScanConfig) : option bytes :=
  if bool_decide (sc_valueType config = VUnicodeString) then utf16Bytes (sc_stringValue config) (sc_byteOrder config) else Some [].

Definition emptyResult (config : ScanConfig) : Writer :=
  let w := createResult (disks 0%nat) true in
  let w := if bool_decide (sc_valueType config = VAll) then enableAllTypeCandidates (disks 0%nat) w else w in
  finalize (disks 0%nat) (setDataFormat (disks 0%nat) (sc_byteOrder config) (sc_pointerWidth config) w).
Definition threadsFor (total : Z) : Z :=
  let n := if (total <? kMTFloor) || negb (t_concurrent t) then 1 else Z.max 1 threadCount in
  Z.max 1 (Z.min n (Z.max 1 (total / BATCH))).
(** [runScanWorkers] over the slices, in order. *)
Fixpoint runWorkers (work : nat → Z → Z → outcome Writer) (total per : Z) (n : nat) (i : nat) : outcome (list (bytes * Writer)) :=
  match n with
  | O => Ret []
  | S n =>
      let begin := Z.min total (Z.of_nat i * per) in
      let end_ := Z.min total (begin + per) in
      let* w := work i begin end_ in
      let* rest := runWorkers work total per n (S i) in
      Ret ((partPath root i, w) :: rest)
  end.

(** A result: what its members are after the scan, and its data format. *)
Definition Scanned : Type := Loaded * option (ByteOrder * Z).
Definition lostTarget : bool := remoteTarget t && negb (t_liveAfter t).
Definition lostError : ScanError := RuntimeError (bs "The remote target disconnected during scanning").
Definition scanRows (config : ScanConfig) (previous : Loaded) (valueSize inputSize : Z) (stringNeedle unicodeNeedle : bytes)
  : outcome (ScanError + Scanned) :=
  let total := ld_count previous in
  let work := λ i begin end_, worker t config (ld_hasAllTypes previous) valueSize inputSize stringNeedle unicodeNeedle
                                (disks i) (shardLayout previous) (stop i) begin end_ in
  let nThreads := threadsFor total in
  if nThreads =? 1 then
    let* w := work 0%nat 0 total in
    Ret (if lostTarget then inl lostError else inr (loadedOf w, w_format w))
  else
    let per := (total + nThreads - 1) / nThreads in
    let* parts := runWorkers work total per (Z.to_nat nThreads) 0%nat in
    Ret (if lostTarget then inl lostError else inr (assembleShardedResult mergedDisk (directoriesOf parts) parts)).

Definition nextScan (requested : ScanConfig) (previous : Loaded) (format : option (ByteOrder * Z)) : outcome (ScanError + Scanned) :=
  if ld_writeError previous then Ret (inl (InvalidArgument (bs "The previous scan has invalid backing files"))) else
  match hasMask requested previous with Some e => Ret (inl e) | None =>
  match targetScanConfig t requested with inl e => Ret (inl e) | inr config =>
  match formatConflict requested config format with Some e => Ret (inl e) | None =>
  match nextCompareError config with Some e => Ret (inl e) | None =>
  match valueSizeForConfig config with None => Ret (inl EncodingFailed) | Some valueSize =>
    let inputSize := if ld_hasAllTypes previous then 8 else valueSize in
    if (0 <? ld_count previous) && ((recordStride previous =? 0) || negb (recordStride previous =? inputSize))
    then Ret (inl (InvalidArgument (bs "next scan value size differs from the previous scan; the search length must stay constant across scans")))
    else
      match stringNeedleOf config, unicodeNeedleOf config with
      | Some stringNeedle, Some unicodeNeedle =>
          if ld_count previous =? 0
          then let w := emptyResult config in Ret (inr (loadedOf w, w_format w))
          else scanRows config previous valueSize inputSize stringNeedle unicodeNeedle
      | _, _ => Ret (inl EncodingFailed)
      end
  end end end end end.
End NextScan.

(** ** Every read of a batch, row by row *)

(** The documented behaviour of [readMany]: each value is read for itself, whole. *)
Record ReadsEach (t : Target) (one : Z → Z → option bytes) : Prop := {
  re_each addrs n : t_readMany t addrs n = (λ a, one a n) <$> addrs;
  re_whole a n b : one a n = Some b → 0 ≤ n → len b = n
}.

Section Rows.
Context {lib : Library}.
Context (t : Target) (one : Z → Z → option bytes) (Hone : ReadsEach t one).
Context (config : ScanConfig) (previousAll : bool) (valueSize inputSize : Z) (stringNeedle unicodeNeedle : bytes).

Definition readWidthOf (s : Selected) (width : Z) : Selected :=
  if allCandidateReadSize (sl_pending s) =? width then afterRead width s (one (row_addr (sl_row s)) width) else s.
Definition readRow (s : Selected) : Selected :=
  if isAll config then foldl readWidthOf s [8; 4; 2; 1]
  else mkSelected (sl_row s) 0 0 (one (row_addr (sl_row s)) valueSize).
Lemma scatter_each width selected :
  scatter width selected ((λ a, one a width) <$> ((λ s, row_addr (sl_row s)) <$> filter (λ s, allCandidateReadSize (sl_pending s) = width) selected))
  = (λ s, readWidthOf s width) <$> selected.
Proof.
  induction selected as [|s selected IH]; [done|]. rewrite fmap_cons. unfold readWidthOf at 1. cbn [scatter].
  destruct (Z.eqb_spec (allCandidateReadSize (sl_pending s)) width) as [E|E].
  - rewrite filter_cons_True by done. rewrite !fmap_cons. by rewrite IH.
  - rewrite filter_cons_False by done. by rewrite IH.
Qed.
Lemma scatter_none width selected : scatter width selected [] = selected.
Proof. induction selected as [|s selected IH]; [done|]. cbn [scatter]. rewrite IH. by destruct (_ =? _). Qed.
Lemma readWidth_each selected width : readWidth t selected width = (λ s, readWidthOf s width) <$> selected.
Proof using Hone.
  unfold readWidth. cbv zeta. case_bool_decide as Hn; [|by rewrite (re_each _ _ Hone), scatter_each].
  by rewrite <- scatter_each, Hn, scatter_none.
Qed.
Lemma readSelected_each selected : readSelected t config valueSize selected = readRow <$> selected.
Proof using Hone.
  unfold readSelected, readRow, readAllTypes, readOneType. destruct (isAll config).
  - cbn [foldl]. rewrite !readWidth_each, <- !list_fmap_compose. done.
  - rewrite (re_each _ _ Hone), <- list_fmap_compose. induction selected as [|s selected IH]; [done|]. cbn [fmap list_fmap zip_with compose]. by f_equal.
Qed.

(** What becomes of one row of the previous scan. *)
Definition keptRow (r : Row) : outcome (option Row) :=
  match selectRow config previousAll valueSize r with
  | None => Ret None
  | Some s => keepRow config valueSize stringNeedle unicodeNeedle (readRow s)
  end.
Definition kept (r : Row) : option Row := match keptRow r with Ret o => o | _ => None end.
Lemma keepLoop_rows disk rows w : Forall (λ r, keptRow r = Ret (kept r)) rows →
  keepLoop config valueSize stringNeedle unicodeNeedle disk (readSelected t config valueSize (omap (selectRow config previousAll valueSize) rows)) w
  = Ret (writeRows disk (isAll config) (omap kept rows) w).
Proof using Hone.
  rewrite readSelected_each. intros H. revert w. induction H as [|r rows Hr _ IH]; intros w; [done|]. unfold keptRow in Hr.
  assert (∀ o, writeRows disk (isAll config) (option_list o ++ omap kept rows) w
    = writeRows disk (isAll config) (omap kept rows) (match o with Some r => addRow disk (isAll config) r w | None => w end)) as Hw by (by intros [x|]).
  assert (omap kept (r :: rows) = option_list (kept r) ++ omap kept rows) as -> by (cbn; by destruct (kept r)).
  rewrite Hw. cbn [omap list_omap]. destruct (selectRow _ _ _ r) as [s|].
  - rewrite fmap_cons. cbn [keepLoop]. rewrite Hr. cbn [obind]. apply IH.
  - injection Hr as <-. apply IH.
Qed.

Lemma writeRows_app disk all l k w : writeRows disk all (l ++ k) w = writeRows disk all k (writeRows disk all l w).
Proof. unfold writeRows. by rewrite foldl_app. Qed.
Lemma omap_app_rows {A B} (f : A → option B) l k : omap f (l ++ k) = omap f l ++ omap f k.
Proof. induction l as [|x l IH]; [done|]. cbn. destruct (f x); cbn; by rewrite IH. Qed.
Lemma workerLoop_rows disk stop reader rows fuel b e w :
  (∀ b n : nat, (b + n ≤ length rows)%nat → readerRead reader (Z.of_nat b) (Z.of_nat n) inputSize previousAll = Some (take n (drop b rows))) →
  Forall (λ r, keptRow r = Ret (kept r)) rows → (b ≤ e ≤ length rows)%nat → (e - b ≤ fuel)%nat →
  ∃ m, (m ≤ e - b)%nat ∧ ((∀ i, stop i = false) → m = (e - b)%nat) ∧
    workerLoop t config previousAll valueSize inputSize stringNeedle unicodeNeedle disk stop fuel reader (Z.of_nat b) (Z.of_nat e) w
    = Ret (writeRows disk (isAll config) (omap kept (take m (drop b rows))) w).
Proof using Hone.
  intros Hread Hdef. revert b w. induction fuel as [|fuel IH]; intros b w Hbe Hfuel.
  { exists 0%nat. split; [lia|]. split; [intros; lia|]. by rewrite take_0. }
  cbn [workerLoop]. destruct (Z.leb_spec (Z.of_nat e) (Z.of_nat b)); cbn [orb].
  { exists 0%nat. split; [lia|]. split; [intros; lia|]. by rewrite take_0. }
  destruct (stop (Z.of_nat b)) eqn:Hs; cbn [orb].
  { exists 0%nat. split; [lia|]. split; [intros Hall; by rewrite Hall in Hs|]. by rewrite take_0. }
  set (n := Nat.min 4096 (e - b)). replace (Z.min BATCH (Z.of_nat e - Z.of_nat b)) with (Z.of_nat n) by (unfold n, BATCH; lia).
  rewrite Hread by (unfold n; lia). rewrite keepLoop_rows by (by apply Forall_take, Forall_drop). cbn [obind].
  replace (Z.of_nat b + Z.of_nat n) with (Z.of_nat (b + n)) by lia.
  destruct (IH (b + n)%nat (writeRows disk (isAll config) (omap kept (take n (drop b rows))) w)) as (m & Hm & Hall & ->); [unfold n; lia..|].
  exists (n + m)%nat. split; [unfold n in *; lia|]. split; [intros Ha; rewrite (Hall Ha); unfold n; lia|].
  rewrite <- writeRows_app, <- omap_app_rows, <- drop_drop. do 3 f_equal.
  replace (drop b rows) with (take n (drop b rows) ++ drop n (drop b rows)) at 3 by apply take_drop.
  rewrite take_app, (take_ge (take n (drop b rows)) (n + m)) by (rewrite length_take; lia).
  do 2 f_equal. rewrite length_take, length_drop. unfold n. lia.
Qed.
(** A worker's result is the writer's for the rows it keeps. *)
Lemma worker_rows disk layout stop rows b e :
  let reader := openReader layout previousAll in rd_ok reader = true →
  (∀ b n : nat, (b + n ≤ length rows)%nat → readerRead reader (Z.of_nat b) (Z.of_nat n) inputSize previousAll = Some (take n (drop b rows))) →
  Forall (λ r, keptRow r = Ret (kept r)) rows → (b ≤ e ≤ length rows)%nat →
  ∃ m, (m ≤ e - b)%nat ∧ ((∀ i, stop i = false) → m = (e - b)%nat) ∧
    worker t config previousAll valueSize inputSize stringNeedle unicodeNeedle disk layout stop (Z.of_nat b) (Z.of_nat e)
    = Ret (workerResult disk true (isAll config) (sc_byteOrder config) (sc_pointerWidth config) (omap kept (take m (drop b rows)))).
Proof using Hone.
  cbv zeta. intros Hok Hread Hdef Hbe. unfold worker. cbv zeta. rewrite Hok. cbn [negb].
  destruct (workerLoop_rows disk stop _ rows (Z.to_nat (Z.of_nat e - Z.of_nat b)) b e
    (startResult disk true (isAll config) (sc_byteOrder config) (sc_pointerWidth config)) Hread Hdef Hbe ltac:(lia)) as (m & Hm & Hall & Hl).
  exists m. split; [done|]. split; [done|]. unfold startResult in Hl. rewrite Hl. done.
Qed.

(** *** The rows kept are well formed *)

Lemma readRow_row s : sl_row (readRow s) = sl_row s.
Proof.
  assert (∀ w s, sl_row (readWidthOf s w) = sl_row s) as Hw.
  { intros w s'. unfold readWidthOf. destruct (_ =? w); [|done]. by destruct (one _ _). }
  unfold readRow. destruct (isAll config); [|done]. cbn [foldl]. by rewrite !Hw.
Qed.
Lemma readRow_current s b : sl_current s = None → 0 ≤ valueSize → sl_current (readRow s) = Some b → len b = if isAll config then 8 else valueSize.
Proof using Hone.
  intros Hs Hv. unfold readRow. destruct (isAll config); [|by intros H%(re_whole _ _ Hone)].
  assert (∀ w s, 0 ≤ w ≤ 8 → (∀ b, sl_current s = Some b → len b = 8) → ∀ b, sl_current (readWidthOf s w) = Some b → len b = 8) as Hw.
  { intros w s' Hw Hs' b'. unfold readWidthOf. destruct (_ =? w); [|by apply Hs']. destruct (one _ w) as [c|] eqn:E; [|by apply Hs']. intros [= <-].
    apply (re_whole _ _ Hone) in E; [|lia]. rewrite len_app, E. unfold len. rewrite length_replicate. lia. }
  cbn [foldl]. apply Hw; [lia|]. apply Hw; [lia|]. apply Hw; [lia|]. apply Hw; [lia|]. by rewrite Hs.
Qed.

Context (Hok : config_ok config) (Hvs : valueSizeForConfig config = Some valueSize)
  (Hin : inputSize = if previousAll then 8 else valueSize) (Hall : previousAll = false → isAll config = false)
  (Hnum : previousAll = true → isAll config = false → allCandidateFor (sc_valueType config) ≠ 0).
Lemma sizes_fit : 0 < valueSize ≤ inputSize ∧ (isAll config = true → valueSize = 8 ∧ inputSize = 8 ∧ previousAll = true).
Proof using Hok Hvs Hin Hall Hnum.
  pose proof (valueSize_pos _ _ Hok Hvs). unfold isAll, valueSizeForConfig in *. destruct previousAll.
  - subst inputSize. split; [|by intros E; apply bool_decide_eq_true_1 in E; rewrite E in Hvs; injection Hvs as Hvs].
    split; [done|]. destruct (sc_valueType config) eqn:Hvt; try (injection Hvs as Hvs; lia); try by specialize (Hnum eq_refl eq_refl).
  - subst inputSize. split; [lia|]. intros E. by rewrite Hall in E.
Qed.
Lemma keptRow_ret r : row_ok previousAll inputSize r → keptRow r = Ret (kept r) ∧ ∀ r', kept r = Some r' → row_ok (isAll config) valueSize r'.
Proof using Hone Hok Hvs Hin Hall Hnum.
  intros (Ha & Hv & Hf & _). destruct sizes_fit as [Hsz H8]. unfold kept, keptRow. destruct (selectRow _ _ _ r) as [s|] eqn:Hsel; [|by split].
  assert (sl_row s = r ∧ sl_current s = None) as [Hrow Hcur].
  { unfold selectRow in Hsel. destruct (_ && _); [done|]. destruct (_ || _); [done|]. destruct (isAll config); [destruct (_ =? 0); [done|]|destruct (_ <? _); [done|]]; by injection Hsel as <-. }
  pose proof (readRow_row s) as Hrr. unfold keepRow. cbv zeta. rewrite Hrr, Hrow. destruct (sl_current (readRow s)) as [cur|] eqn:Hc; [|by split].
  pose proof (readRow_current s cur Hcur ltac:(lia) Hc) as Hl. destruct (isAll config) eqn:Hal.
  - destruct (H8 eq_refl) as (V8 & E8 & _). destruct (nextAll_ret config (sl_read (readRow s)) cur (row_value r) (row_first r)) as (m & -> & Hm); [lia..|].
    cbn [obind]. split; [done|]. intros r'. destruct (Z.eqb_spec m 0); [done|]. intros [= <-]. split; [done|]. cbn. split; [lia|]. split; [lia|]. split; [done|by apply Hm].
  - destruct (nextScanCompare_ret config valueSize cur (row_value r) (row_first r) stringNeedle unicodeNeedle Hok Hvs Hl) as [b ->]; [lia..|]. cbn [obind].
    destruct (subspan_defined (row_first r) 0 valueSize) as [-> Hfs]; [lia..|]. cbn [obind]. split; [done|]. destruct b; [|done]. intros r' [= <-]. split; [done|]. cbn. by rewrite Hl.
Qed.
Lemma kept_rows rows : Forall (row_ok previousAll inputSize) rows →
  Forall (λ r, keptRow r = Ret (kept r)) rows ∧ Forall (row_ok (isAll config) valueSize) (omap kept rows).
Proof using Hone Hok Hvs Hin Hall Hnum.
  induction 1 as [|r rows Hr _ [IH1 IH2]]; [by split|]. destruct (keptRow_ret r Hr) as [Hd Hk]. split; [by apply Forall_cons_2|].
  cbn. destruct (kept r) as [r'|]; [|done]. apply Forall_cons_2; [by apply Hk|done].
Qed.
End Rows.

(** ** The workers together *)

Lemma seen_true (rows : list Row) : seen true <$> rows = rows.
Proof. induction rows as [|r rows IH]; [done|]. rewrite fmap_cons. by rewrite IH. Qed.
Lemma to_string_inj i j : to_string (Z.of_nat i) = to_string (Z.of_nat j) → i = j.
Proof.
  unfold to_string. rewrite !(proj2 (Z.ltb_ge _ 0)) by lia. intros E.
  pose proof (scan_to_digits 10 (Z.of_nat i) [] ltac:(lia) ltac:(lia) I) as Hi. pose proof (scan_to_digits 10 (Z.of_nat j) [] ltac:(lia) ltac:(lia) I) as Hj.
  rewrite E in Hi. rewrite Hi in Hj. simplify_eq. lia.
Qed.
Lemma partPath_inj root i j : partPath root i = partPath root j → i = j.
Proof. unfold partPath. intros E. do 2 apply app_inv_head in E. by apply to_string_inj. Qed.
Lemma partPath_ok root i : Forall (λ c, c ≠ 10) root → partPath root i ≠ [] ∧ Forall (λ c, c ≠ 10) (partPath root i).
Proof.
  intros Hr. unfold partPath. split; [by destruct root|]. apply Forall_app. split; [done|]. apply Forall_app. split; [decide_by_compute|]. apply to_string_digits; lia.
Qed.
(** The directories are those of the parts. *)
Lemma directoriesOf_parts all (workers : list Worker) : NoDup (wk_path <$> workers) →
  Forall (λ wk, directoriesOf (wk_writer all <$> workers) (wk_path wk) = w_dir (wk_result all wk)) workers.
Proof.
  intros Hnd. apply Forall_forall. intros wk Hin. unfold directoriesOf. induction workers as [|k workers IH]; [by apply not_elem_of_nil in Hin|].
  rewrite !fmap_cons in *. apply NoDup_cons in Hnd as [Hk Hnd]. cbn [List.find wk_writer fst]. unfold bytes_eqb. case_bool_decide as E.
  - apply elem_of_cons in Hin as [->|Hin]; [done|]. exfalso. apply Hk. rewrite E. by apply list_elem_of_fmap_2.
  - apply elem_of_cons in Hin as [->|Hin]; [done|]. by apply IH.
Qed.

Section Parts.
Context (all : bool) (vs : Z) (order : ByteOrder) (width : Z) (disks : nat → Disk) (root : bytes) (kept : Row → option Row) (rows : list Row)
  (stop : nat → Z → bool) (work : nat → Z → Z → outcome Writer).
Context (Hroot : Forall (λ c, c ≠ 10) root) (Hkept : Forall (row_ok all vs) (omap kept rows)).
Context (Hwork : ∀ (i b e : nat), (b ≤ e ≤ length rows)%nat → ∃ m, (m ≤ e - b)%nat ∧ ((∀ idx, stop i idx = false) → m = (e - b)%nat) ∧
  work i (Z.of_nat b) (Z.of_nat e) = Ret (workerResult (disks i) true all order width (omap kept (take m (drop b rows))))).
(** What the workers of some slices kept. *)
Record part_ok (i : nat) (wk : Worker) : Prop := {
  pk_path : wk_path wk = partPath root i;
  pk_disk : wk_disk wk = disks i;
  pk_format : wk_order wk = order ∧ wk_width wk = width;
  pk_seen : wk_seen wk = wk_rows wk
}.
Lemma omap_sublist (l k : list Row) : sublist l k → sublist (omap kept l) (omap kept k).
Proof. induction 1; cbn; [constructor|destruct (kept x); by try constructor|destruct (kept x); by try constructor]. Qed.
Lemma runWorkers_parts per n i : (0 < per)%nat →
  let start := λ i, Nat.min (length rows) (i * per)%nat in
  ∃ workers : list Worker, runWorkers root work (Z.of_nat (length rows)) (Z.of_nat per) n i = Ret (wk_writer all <$> workers) ∧
    length workers = n ∧ (∀ k wk, workers !! k = Some wk → part_ok (i + k)%nat wk) ∧
    sublist (mjoin (wk_rows <$> workers)) (omap kept (take (start (i + n)%nat - start i)%nat (drop (start i) rows))) ∧
    ((∀ i idx, stop i idx = false) → mjoin (wk_rows <$> workers) = omap kept (take (start (i + n)%nat - start i)%nat (drop (start i) rows))).
Proof using Hroot Hkept Hwork.
  cbv zeta. intros Hper. revert i. induction n as [|n IH]; intros i.
  { exists []. split_and!; try done. - rewrite Nat.add_0_r, Nat.sub_diag, take_0. constructor. - intros _. by rewrite Nat.add_0_r, Nat.sub_diag, take_0. }
  cbn [runWorkers]. set (b := Nat.min (length rows) (i * per)%nat). set (e := Nat.min (length rows) (S i * per)%nat).
  assert (Z.min (Z.of_nat (length rows)) (Z.of_nat i * Z.of_nat per) = Z.of_nat b) as -> by (unfold b; lia).
  assert (Z.min (Z.of_nat (length rows)) (Z.of_nat b + Z.of_nat per) = Z.of_nat e) as -> by (unfold b, e; lia).
  destruct (Hwork i b e) as (m & Hm & Hall & ->); [unfold b, e; lia|]. cbn [obind].
  destruct (IH (S i)) as (workers & -> & Hlen & Hok & Hsub & Heq). cbn [obind]. fold e in Hsub, Heq.
  exists (mkWorker (partPath root i) (disks i) true order width (omap kept (take m (drop b rows))) :: workers).
  set (f := Nat.min (length rows) ((S i + n) * per)%nat) in *. replace (i + S n)%nat with (S i + n)%nat by lia. fold f.
  assert (take (f - b)%nat (drop b rows) = take (e - b)%nat (drop b rows) ++ take (f - e)%nat (drop e rows)) as Hsplit.
  { replace (f - b)%nat with ((e - b) + (f - e))%nat by (unfold b, e, f; lia). rewrite <- (take_drop (e - b) (drop b rows)) at 1. rewrite drop_drop.
    replace (b + (e - b))%nat with e by (unfold b, e; lia). rewrite take_app, length_take, length_drop, (take_ge (take _ _)) by (rewrite length_take; lia).
    do 2 f_equal. unfold b, e, f. lia. }
  split_and!; [done|cbn; lia| | |].
  - intros [|k] wk Hk; [injection Hk as <-; rewrite Nat.add_0_r; split; try done; apply seen_true|]. replace (i + S k)%nat with (S i + k)%nat by lia. by apply Hok.
  - rewrite Hsplit, omap_app_rows. change (mjoin (wk_rows <$> ?w :: workers)) with (wk_rows w ++ mjoin (wk_rows <$> workers)). 
    apply sublist_app; [|done]. apply omap_sublist. replace (take m (drop b rows)) with (take m (take (e - b)%nat (drop b rows))) by (rewrite take_take; f_equal; lia).
    apply sublist_take.
  - intros Hs. rewrite Hsplit, omap_app_rows, <- Heq by done. by rewrite <- (Hall (Hs i)).
Qed.
End Parts.

(** ** The next scan filters the rows of the previous one *)

(** The checks of the scan pass. *)
Record accepted {lib : Library} (t : Target) (requested : ScanConfig) (previous : Loaded) (format : option (ByteOrder * Z))
    (config : ScanConfig) (valueSize : Z) (stringNeedle unicodeNeedle : bytes) : Prop := {
  ac_mask : hasMask requested previous = None;
  ac_target : targetScanConfig t requested = inr config;
  ac_format : formatConflict requested config format = None;
  ac_compare : nextCompareError config = None;
  ac_size : valueSizeForConfig config = Some valueSize;
  ac_stride : ld_count previous ≠ 0 → recordStride previous = if ld_hasAllTypes previous then 8 else valueSize;
  ac_string : stringNeedleOf config = Some stringNeedle;
  ac_unicode : unicodeNeedleOf config = Some unicodeNeedle;
  ac_live : lostTarget t = false
}.

Lemma Forall_mjoin {A} (P : A → Prop) (ls : list (list A)) : Forall P (mjoin ls) → Forall (Forall P) ls.
Proof. induction ls as [|l ls IH]; [done|]. change (mjoin (l :: ls)) with (l ++ mjoin ls). rewrite Forall_app. intros [? ?]. apply Forall_cons_2; auto. Qed.
Lemma sublist_Forall {A} (P : A → Prop) (l k : list A) : sublist l k → Forall P k → Forall P l.
Proof. induction 1 as [|x l k _ IH|x l k _ IH]; intros H; [done|apply Forall_cons_1 in H as [? ?]; apply Forall_cons_2; auto|apply Forall_cons_1 in H as [? ?]; auto]. Qed.
Lemma wk_seen_rows (workers : list Worker) : Forall (λ wk, wk_seen wk = wk_rows wk) workers → wk_seen <$> workers = wk_rows <$> workers.
Proof. induction 1 as [|wk workers Hf _ IH]; [done|]. rewrite !fmap_cons, IH. by rewrite Hf. Qed.
Lemma lookup_Forall {A} (P : A → Prop) (l : list A) : (∀ i x, l !! i = Some x → P x) → Forall P l.
Proof. intros H. apply Forall_forall. intros x [i Hi]%list_elem_of_lookup. by eapply H. Qed.

Section Filter.
Context {lib : Library} (t : Target) (one : Z → Z → option bytes) (Hone : ReadsEach t one).
Context (threadCount : Z) (disks : nat → Disk) (mergedDisk : Disk) (stop : nat → Z → bool) (root : bytes) (Hroot : Forall (λ c, c ≠ 10) root).
Context (config : ScanConfig) (valueSize : Z) (stringNeedle unicodeNeedle : bytes).

(** The result of a scan holds the rows found, or some of them when it was stopped. *)
Definition holdsFound (found : list Row) (result : Scanned) : Prop :=
  (ld_writeError result.1 = false → ∃ picked, sublist picked found ∧ ((∀ i idx, stop i idx = false) → picked = found) ∧
     serves (isAll config) valueSize picked result.1 ∧ result.2 = Some (sc_byteOrder config, sc_pointerWidth config)) ∧
  (reliable mergedDisk → (∀ i, reliable (disks i)) → ld_writeError result.1 = false).

Lemma empty_found previousAll : config_ok config → 0 < valueSize ≤ SIZE_MAX / 4096 →
  let w := emptyResult disks config in holdsFound (omap (kept one config previousAll valueSize stringNeedle unicodeNeedle) []) (loadedOf w, w_format w).
Proof.
  cbv zeta. intros Hok Hvs. unfold emptyResult. set (disk := disks 0%nat). cbv zeta. fold (isAll config).
  set (w1 := if isAll config then enableAllTypeCandidates disk (createResult disk true) else createResult disk true).
  set (w2 := setDataFormat disk (sc_byteOrder config) (sc_pointerWidth config) w1). cbn [omap list_omap].
  assert (w_writeError w1 = false → writing true (isAll config) valueSize [] w1) as Hw1.
  { unfold w1. destruct (isAll config); [|by apply create_writing]. intros He. apply enable_writing; [|done]. apply create_writing. by eapply no_error; [apply enable_error|exact He]. }
  assert (w_writeError w2 = false → writing true (isAll config) valueSize [] w2) as Hw2.
  { intros He. apply format_writing; [|done]. apply Hw1. eapply no_error; [apply setDataFormat_error|exact He]. }
  split; cbn [fst snd].
  - intros He. change (ld_writeError (loadedOf (finalize disk w2))) with (w_writeError (finalize disk w2)) in He.
    assert (w_writeError w2 = false) as E2 by (eapply no_error; [apply finalize_error|exact He]). specialize (Hw2 E2).
    destruct (finalize_stored disk true _ _ _ w2 Hw2 He) as (Hs & Hc & Hz & Ha). exists []. split_and!; [constructor|done| |].
    + apply loaded_serves; [|done|by vm_compute]. apply (loadedOf_stored true _ _ []); done || constructor.
    + pose proof (finalize_format disk w2) as Hf. destruct (setDataFormat_format disk _ _ _ E2) as [Hf2 _]. fold w2 in Hf2. rewrite Hf2 in Hf. by injection Hf.
  - intros _ Hd. specialize (Hd 0%nat). fold disk in Hd. change (w_writeError (finalize disk w2) = false).
    pose proof (create_reliable disk true Hd) as Ec. assert (w_writeError w1 = false) as E1.
    { unfold w1. destruct (isAll config); [|done]. apply (enable_reliable disk true valueSize); [done|]. by apply create_writing. }
    pose proof (setDataFormat_reliable disk (sc_byteOrder config) (sc_pointerWidth config) w1 Hd (ck_width _ Hok) E1) as E2. fold w2 in E2.
    eapply finalize_reliable; [done|by apply Hw2].
Qed.
Lemma ceil_div total n : 0 < total → 0 < n → 0 < (total + n - 1) / n ∧ total ≤ n * ((total + n - 1) / n).
Proof.
  intros Ht Hn. pose proof (Z.div_mod (total + n - 1) n ltac:(lia)). pose proof (Z.mod_pos_bound (total + n - 1) n ltac:(lia)).
  split; [|lia]. apply Z.div_str_pos. lia.
Qed.
(** The results of the workers, assembled. *)
Lemma assembled_found (found : list Row) (workers : list Worker) : config_ok config → 0 < valueSize ≤ SIZE_MAX / 4096 → len found ≤ SIZE_MAX →
  Forall (row_ok (isAll config) valueSize) found → workers ≠ [] →
  (∀ k wk, workers !! k = Some wk → part_ok (sc_byteOrder config) (sc_pointerWidth config) disks root k wk) →
  sublist (mjoin (wk_rows <$> workers)) found → ((∀ i idx, stop i idx = false) → mjoin (wk_rows <$> workers) = found) →
  holdsFound found (assembleShardedResult mergedDisk (directoriesOf (wk_writer (isAll config) <$> workers)) (wk_writer (isAll config) <$> workers)).
Proof using Hroot.
  intros Hok Hsize Hlen Hfound Hne Hparts Hsub Hfull. pose proof (sublist_length _ _ Hsub) as Hsl.
  assert (Forall (λ wk, ∃ i, part_ok (sc_byteOrder config) (sc_pointerWidth config) disks root i wk) workers) as Hp.
  { apply lookup_Forall. intros k wk Hk. eexists. by apply Hparts. }
  rewrite Forall_forall in Hp.
  assert (wk_seen <$> workers = wk_rows <$> workers) as Hseen by (apply wk_seen_rows, Forall_forall; intros wk Hk; by destruct (Hp wk Hk) as [i [_ _ _ ?]]).
  assert (Forall (Forall (row_ok (isAll config) valueSize)) (wk_rows <$> workers)) as Hwr by (apply Forall_mjoin; by eapply sublist_Forall).
  destruct (shards_spec mergedDisk (directoriesOf (wk_writer (isAll config) <$> workers)) (isAll config) valueSize workers) as [Hs Hr].
  - apply Forall_forall. intros wk Hk. destruct (Hp wk Hk) as [i [Hpath _ _ _]]. unfold wk_ok. rewrite Hpath. split; [|by apply partPath_ok].
    rewrite Forall_fmap, Forall_forall in Hwr. by apply Hwr.
  - lia.
  - rewrite Hseen. unfold len in *. lia.
  - apply directoriesOf_parts. apply NoDup_alt. intros a b p Ha Hb. apply list_lookup_fmap_Some in Ha as (wa & -> & Ha). apply list_lookup_fmap_Some in Hb as (wb & Hpb & Hb).
    apply Hparts in Ha as [Ha _ _ _]. apply Hparts in Hb as [Hb _ _ _]. rewrite Ha, Hb in Hpb. apply partPath_inj in Hpb. lia.
  - split; cbn [fst snd].
    + intros He. destruct (Hs He) as [Hserves Hfmt]. rewrite Hseen in Hserves. exists (mjoin (wk_rows <$> workers)). split_and!; [done|done|done|].
      destruct workers as [|wk workers]; [done|]. apply Forall_cons_1 in Hfmt as [Hfmt _]. destruct (Hp wk) as [i [_ _ [E1 E2] _]]; [by left|]. rewrite E1, E2 in Hfmt. exact Hfmt.
    + intros Hm Hd. apply (Hr (sc_byteOrder config) (sc_pointerWidth config) Hm); [|apply (ck_width _ Hok)]. apply Forall_forall. intros wk Hk.
      destruct (Hp wk Hk) as [i [_ Hdk [E1 E2] _]]. rewrite Hdk. by split.
Qed.
(** One worker, and the workers of a scan that is split. *)
Section Results.
Context (keep : Row → option Row) (rows : list Row) (Hkept : Forall (row_ok (isAll config) valueSize) (omap keep rows)).
Context (work : nat → Z → Z → outcome Writer)
  (Hwork : ∀ i b e : nat, (b ≤ e ≤ length rows)%nat → ∃ m, (m ≤ e - b)%nat ∧ ((∀ idx, stop i idx = false) → m = (e - b)%nat) ∧
    work i (Z.of_nat b) (Z.of_nat e)
    = Ret (workerResult (disks i) true (isAll config) (sc_byteOrder config) (sc_pointerWidth config) (omap keep (take m (drop b rows))))).
Context (Hok : config_ok config) (Hsize : 0 < valueSize ≤ SIZE_MAX / 4096) (Hlen : len (omap keep rows) ≤ SIZE_MAX).

Lemma one_worker_found : ∃ w, work 0%nat 0 (len rows) = Ret w ∧ holdsFound (omap keep rows) (loadedOf w, w_format w).
Proof using Hkept Hwork Hok Hsize Hlen.
  destruct (Hwork 0%nat 0%nat (length rows)) as (m & Hm & Hfull & E); [lia|]. eexists. split; [exact E|]. rewrite drop_0. set (picked := omap keep (take m rows)).
  assert (sublist picked (omap keep rows)) as Hsub by (apply omap_sublist, sublist_take).
  assert (Forall (row_ok (isAll config) valueSize) picked) as Hpok by (by eapply sublist_Forall).
  split; cbn [fst snd].
  - intros He. exists picked. split; [done|]. split; [|split].
    + intros Hs. unfold picked. rewrite (Hfull (Hs 0%nat)), take_ge by lia. done.
    + pose proof (loadedOf_ok (disks 0%nat) true (isAll config) valueSize (sc_byteOrder config) (sc_pointerWidth config) picked Hpok (proj1 Hsize) He) as Hl.
      rewrite seen_true in Hl. apply loaded_serves; [exact Hl|lia|]. apply sublist_length in Hsub. unfold len in *. lia.
    + by apply workerResult_format.
  - intros _ Hd. apply (workerResult_reliable _ true (isAll config) valueSize); [done|lia|by apply Hd|apply (ck_width _ Hok)].
Qed.
Lemma workers_found n per : len rows ≤ n * per → 0 < n → 0 < per →
  ∃ parts, runWorkers root work (len rows) per (Z.to_nat n) 0 = Ret parts ∧ holdsFound (omap keep rows) (assembleShardedResult mergedDisk (directoriesOf parts) parts).
Proof using Hroot Hkept Hwork Hok Hsize Hlen.
  intros Hcover Hn Hper.
  destruct (runWorkers_parts (isAll config) valueSize (sc_byteOrder config) (sc_pointerWidth config) disks root keep rows stop work Hroot Hkept Hwork (Z.to_nat per) (Z.to_nat n) 0)
    as (workers & E & Hwn & Hparts & Hsub & Hfull); [lia|].
  rewrite Z2Nat.id in E by lia. eexists. split; [exact E|].
  assert (take (Nat.min (length rows) ((0 + Z.to_nat n) * Z.to_nat per)%nat - Nat.min (length rows) (0 * Z.to_nat per)%nat)%nat (drop (Nat.min (length rows) (0 * Z.to_nat per)%nat) rows) = rows) as Hwhole.
  { rewrite Nat.mul_0_l, Nat.min_0_r, drop_0, take_ge; [done|]. unfold len in Hcover. nia. }
  rewrite Hwhole in Hsub, Hfull. apply assembled_found; try done. intros ->. cbn in Hwn. lia.
Qed.
End Results.

Lemma scanRows_found previous all rows : serves all (if all then 8 else valueSize) rows previous → rows ≠ [] → len rows ≤ SIZE_MAX →
  config_ok config → valueSizeForConfig config = Some valueSize → valueSize ≤ SIZE_MAX / 4096 →
  (all = false → isAll config = false) → (all = true → isAll config = false → allCandidateFor (sc_valueType config) ≠ 0) → lostTarget t = false →
  ∃ result, scanRows t threadCount disks mergedDisk stop root config previous valueSize (if all then 8 else valueSize) stringNeedle unicodeNeedle = Ret (inr result) ∧
    holdsFound (omap (kept one config all valueSize stringNeedle unicodeNeedle) rows) result.
Proof using Hone Hroot.
  intros Hsv Hne Hlen Hok Hvs Hmax Hall Hnum Hlive. pose proof (valueSize_pos _ _ Hok Hvs) as Hpos. destruct Hsv as [_ Hcount Hrows Hpall _ _ _ Hreader].
  destruct (kept_rows t one Hone config all valueSize (if all then 8 else valueSize) stringNeedle unicodeNeedle Hok Hvs eq_refl Hall Hnum rows Hrows) as [Hdef Hkept].
  set (keep := kept one config all valueSize stringNeedle unicodeNeedle) in *.
  assert (ld_hasAllTypes previous = all) as Eall by (by apply Hpall). unfold scanRows. rewrite Hcount, Eall. cbv zeta.
  set (work := λ i begin end_, worker t config all valueSize (if all then 8 else valueSize) stringNeedle unicodeNeedle (disks i) (shardLayout previous) (stop i) begin end_).
  assert (∀ i b e : nat, (b ≤ e ≤ length rows)%nat → ∃ m, (m ≤ e - b)%nat ∧ ((∀ idx, stop i idx = false) → m = (e - b)%nat) ∧
    work i (Z.of_nat b) (Z.of_nat e)
    = Ret (workerResult (disks i) true (isAll config) (sc_byteOrder config) (sc_pointerWidth config) (omap keep (take m (drop b rows))))) as Hwork.
  { intros i b e Hbe. apply (worker_rows t one Hone); [|intros; by apply Hreader|done|done]. by apply (Hreader 0%nat 0%nat); [|lia]. }
  assert (len (omap keep rows) ≤ SIZE_MAX) as Hflen.
  { clear -Hlen. unfold len in *. enough (length (omap keep rows) ≤ length rows)%nat by lia. clear. induction rows as [|r rows IH]; [done|]. cbn. destruct (keep r); cbn; lia. }
  destruct (Z.eqb_spec (threadsFor t threadCount (len rows)) 1) as [_|Hthreads].
  - destruct (one_worker_found keep rows Hkept work Hwork Hok ltac:(lia) Hflen) as (w & E & Hfound).
    change (worker t config all valueSize (if all then 8 else valueSize) stringNeedle unicodeNeedle (disks 0%nat) (shardLayout previous) (stop 0%nat) 0 (len rows)) with (work 0%nat 0 (len rows)).
    rewrite E. cbn [obind]. rewrite Hlive. by eexists.
  - assert (0 < threadsFor t threadCount (len rows)) as Hn by (unfold threadsFor; lia). set (n := threadsFor t threadCount (len rows)) in *.
    destruct (ceil_div (len rows) n (len_pos rows Hne) Hn) as [Hper Hcover].
    destruct (workers_found keep rows Hkept work Hwork Hok ltac:(lia) Hflen n _ Hcover Hn Hper) as (parts & E & Hfound).
    rewrite E. cbn [obind]. rewrite Hlive. by eexists.
Qed.
End Filter.
