(* ===== verification/NextRows.v ===== *)
(** * What a next scan keeps

    The specification of [MemoryScanner::nextScan] ([src/scanner/memory_scanner.cpp]): what
    becomes of one row of the previous result, stated on the memory alone, without the
    batches, the passes over the widths and the masks of the code; and that the scan keeps
    exactly those rows. *)

From Stdlib Require Import SpecFloat.
From S2P Require Import Prelude Numeral TargetMachine Types Loops ScanBuffers PatternScan ScanConfig ScanNumber ScanResults Floating NextCompare ScanTarget NextScan.
#[local] Open Scope Z_scope.

Section Wanted.
Context {lib : Library}.
Context (one : Z → Z → option bytes) (config : ScanConfig) (previousAll : bool) (valueSize : Z) (stringNeedle unicodeNeedle : bytes).

Definition inRange (addr size : Z) : bool := (sc_startAddress config <=? addr) && (addr + size - 1 <=? sc_stopAddress config).
(** The compare of a scan of one type says yes. *)
Definition matchesOne (cur old first : bytes) : bool :=
  match nextScanCompare config valueSize cur old first stringNeedle unicodeNeedle with Ret b => b | _ => false end.
Definition wantedOne (r : Row) : option Row :=
  if (previousAll && (Z.land (row_mask r) (allCandidateFor (sc_valueType config)) =? 0)) || negb (inRange (row_addr r) valueSize) then None
  else match one (row_addr r) valueSize with
       | Some cur => if matchesOne cur (row_value r) (row_first r) then Some (mkRow (row_addr r) cur (take (Z.to_nat valueSize) (row_first r)) 0) else None
       | None => None
       end.

(** The types of an all-types scan: their bits, their widths and their compares. *)
Definition allTypes : list Z := [0; 1; 2; 3; 4; 5].
Definition widthOf (i : Z) : Z := nth (Z.to_nat i) allCandidateWidths 0.
Definition typeMatches (i : Z) (value reference : bytes) : bool :=
  let order := sc_byteOrder config in
  let int ty := nextIntMatches config ty (readScanScalar ty value order) (readScanScalar ty reference order) in
  let float ft := nextFloatMatches config ft (readScanFloat ft value order) (readScanFloat ft reference order) in
  if i =? 0 then int uint8 else if i =? 1 then int int16 else if i =? 2 then int int32 else if i =? 3 then int int64
  else if i =? 4 then float single else float double.
Definition readable (r : Row) (i : Z) : bool :=
  hasBit (row_mask r) i && inRange (row_addr r) (widthOf i) && bool_decide (is_Some (one (row_addr r) (widthOf i))).
Definition typeHolds (r : Row) (i : Z) : bool :=
  let reference := if bool_decide (sc_compareType config = CmpSameAsFirst) then row_first r else row_value r in
  readable r i &&
  match one (row_addr r) (widthOf i) with
  | Some value => typeMatches i value (take (Z.to_nat (widthOf i)) reference)
  | None => false
  end.
Definition maskOf (types : list Z) : Z := foldr (λ i mask, Z.lor (maskBit i) mask) 0 types.
(** The bytes at the widest type that can still be read, filled up to 8. *)
Definition widestValue (r : Row) : bytes :=
  let width := foldr (λ i w, Z.max (widthOf i) w) 0 (List.filter (readable r) allTypes) in
  match one (row_addr r) width with Some b => b ++ replicate (Z.to_nat (8 - width)) 0 | None => [] end.
Definition wantedAll (r : Row) : option Row :=
  match List.filter (typeHolds r) allTypes with
  | [] => None
  | types => Some (mkRow (row_addr r) (widestValue r) (row_first r) (maskOf types))
  end.
Definition wanted (r : Row) : option Row := if isAll config then wantedAll r else wantedOne r.
End Wanted.

(** ** The passes over the widths *)

(** The candidates still to read, those read, and the width of what was read. *)
Definition passStep (ok : Z → bool) (st : Z * Z * Z) (width : Z) : Z * Z * Z :=
  let '(pending, read, got) := st in
  if allCandidateReadSize pending =? width then
    if ok width then (0, pending, width) else (dropWidth 0 allCandidateWidths width pending, read, got)
  else st.
Definition widthPasses (ok : Z → bool) (candidates : Z) : Z * Z * Z := foldl (passStep ok) (candidates, 0, 0) [8; 4; 2; 1].
(** What the passes are for. *)
Definition widthsWanted (ok : Z → bool) (candidates : Z) : Z * Z :=
  let types := List.filter (λ i, hasBit candidates i && ok (widthOf i)) allTypes in
  (maskOf types, foldr (λ i w, Z.max (widthOf i) w) 0 types).
Definition okUpTo (limit w : Z) : bool := w <=? limit.
Lemma widthPasses_table : forallb (λ limit, forallb (λ c, bool_decide ((widthPasses (okUpTo limit) c).1.2 = (widthsWanted (okUpTo limit) c).1
    ∧ (widthPasses (okUpTo limit) c).2 = (widthsWanted (okUpTo limit) c).2)) (seqZ 0 64)) [0; 1; 2; 4; 8] = true.
Proof. vm_compute. reflexivity. Qed.
Lemma widthPasses_ext ok ok' c : ok 1 = ok' 1 → ok 2 = ok' 2 → ok 4 = ok' 4 → ok 8 = ok' 8 →
  widthPasses ok c = widthPasses ok' c ∧ widthsWanted ok c = widthsWanted ok' c.
Proof.
  intros E1 E2 E4 E8. split.
  - unfold widthPasses. cbn [foldl]. unfold passStep. rewrite E1, E2, E4, E8. done.
  - unfold widthsWanted. cbn [List.filter allTypes]. change (widthOf 0) with 1. change (widthOf 1) with 2. change (widthOf 2) with 4. change (widthOf 3) with 8.
    change (widthOf 4) with 4. change (widthOf 5) with 8. by rewrite E1, E2, E4, E8.
Qed.
(** A wider read succeeds only where the narrower ones do. *)
Definition narrowing (ok : Z → bool) : Prop := (ok 8 → ok 4) ∧ (ok 4 → ok 2) ∧ (ok 2 → ok 1).
Lemma narrowing_limit ok : narrowing ok → ∃ limit, In limit [0; 1; 2; 4; 8] ∧
  ok 1 = okUpTo limit 1 ∧ ok 2 = okUpTo limit 2 ∧ ok 4 = okUpTo limit 4 ∧ ok 8 = okUpTo limit 8.
Proof.
  intros (H8 & H4 & H2). destruct (ok 8), (ok 4), (ok 2), (ok 1); try (by destruct (H8 I)); try (by destruct (H4 I)); try (by destruct (H2 I)).
  - exists 8. cbn. tauto. - exists 4. cbn. tauto. - exists 2. cbn. tauto. - exists 1. cbn. tauto. - exists 0. cbn. tauto.
Qed.
Lemma widthPasses_spec ok c : narrowing ok → 0 ≤ c < 64 → (widthPasses ok c).1.2 = (widthsWanted ok c).1 ∧ (widthPasses ok c).2 = (widthsWanted ok c).2.
Proof.
  intros (limit & Hin & E1 & E2 & E4 & E8)%narrowing_limit Hc. destruct (widthPasses_ext ok (okUpTo limit) c E1 E2 E4 E8) as [-> ->].
  pose proof widthPasses_table as T. rewrite forallb_forall in T. specialize (T limit Hin). rewrite forallb_forall in T.
  specialize (T c). apply bool_decide_eq_true_1 in T; [done|]. apply list_elem_of_In, elem_of_seqZ. lia.
Qed.

(** The types that end in the range. *)
Lemma fitting_table : forallb (λ d, forallb (λ m,
    let c := allCandidatesFitting m d in bool_decide (0 ≤ c < 64) && forallb (λ i, Bool.eqb (hasBit c i) (hasBit m i && (widthOf i - 1 <=? d))) allTypes)
  (seqZ 0 64)) [0; 1; 3; 7] = true.
Proof. vm_compute. reflexivity. Qed.
Lemma fitting_cases d : 0 ≤ d → ∃ d', In d' [0; 1; 3; 7] ∧ (∀ m, allCandidatesFitting m d = allCandidatesFitting m d') ∧
  ∀ i, In i allTypes → (widthOf i - 1 <=? d) = (widthOf i - 1 <=? d').
Proof.
  intros Hd. assert (∃ d', In d' [0; 1; 3; 7] ∧ ∀ w, In w [0; 1; 3; 7] → (w <=? d) = (w <=? d')) as (d' & Hin & Hw).
  { destruct (decide (d < 1)); [exists 0|destruct (decide (d < 3)); [exists 1|destruct (decide (d < 7)); [exists 3|exists 7]]]; (split; [cbn; tauto|]);
      intros w Hw; cbn in Hw; apply eq_true_iff_eq; rewrite !Z.leb_le; lia. }
  exists d'. split_and!; [done| |].
  - intros m. unfold allCandidatesFitting, allCandidateWidths. cbn [candidatesFittingFrom]. rewrite !Z.ltb_antisym. by rewrite !Hw by (cbn; tauto).
  - intros i Hi. apply Hw. cbn in Hi. destruct_or! Hi; subst; cbn; tauto.
Qed.
Lemma fitting_spec m d : 0 ≤ m < 64 → 0 ≤ d → let c := allCandidatesFitting m d in
  0 ≤ c < 64 ∧ ∀ i, In i allTypes → hasBit c i = hasBit m i && (widthOf i - 1 <=? d).
Proof.
  cbv zeta. intros Hm Hd. destruct (fitting_cases d Hd) as (d' & Hin & -> & Hw). pose proof fitting_table as T. rewrite forallb_forall in T. specialize (T d' Hin).
  rewrite forallb_forall in T. specialize (T m ltac:(apply list_elem_of_In, elem_of_seqZ; lia)). cbv zeta in T. apply andb_true_iff in T as [Hc Hb].
  split; [by apply bool_decide_eq_true_1 in Hc|]. intros i Hi. rewrite Hw by done. rewrite forallb_forall in Hb. by apply eqb_prop, Hb.
Qed.

(** ** The rows of the code are the rows wanted *)

(** A shorter read at an address gives the first bytes of a longer one. *)
Definition Prefixes (one : Z → Z → option bytes) : Prop :=
  ∀ a n m b, one a n = Some b → 0 ≤ m ≤ n → one a m = Some (take (Z.to_nat m) b).

Section Kept.
Context {lib : Library} (t : Target) (one : Z → Z → option bytes) (Hone : ReadsEach t one).
Context (config : ScanConfig) (previousAll : bool) (valueSize : Z) (stringNeedle unicodeNeedle : bytes).
Local Notation kept := (kept one config previousAll valueSize stringNeedle unicodeNeedle).
Local Notation keptRow := (keptRow one config previousAll valueSize stringNeedle unicodeNeedle).

Lemma kept_one r : isAll config = false → 0 < valueSize ≤ len (row_first r) →
  kept r = wantedOne one config previousAll valueSize stringNeedle unicodeNeedle r.
Proof.
  intros Hall Hvs. unfold NextScan.kept, NextScan.keptRow, selectRow, wantedOne, inRange. rewrite Hall. cbn [negb]. rewrite andb_true_r.
  destruct (previousAll && _); cbn [orb]; [done|].
  destruct (Z.ltb_spec (row_addr r) (sc_startAddress config)), (Z.leb_spec (sc_startAddress config) (row_addr r)); try lia; cbn [orb andb negb]; [done|].
  destruct (Z.ltb_spec (sc_stopAddress config) (row_addr r)), (Z.ltb_spec (sc_stopAddress config - row_addr r) (valueSize - 1)),
    (Z.leb_spec (row_addr r + valueSize - 1) (sc_stopAddress config)); cbn [negb]; try done; try lia.
  unfold readRow. rewrite Hall. cbn [sl_row]. unfold keepRow. cbn [sl_row sl_current]. destruct (one (row_addr r) valueSize) as [cur|]; [|done].
  rewrite Hall. unfold matchesOne. destruct (nextScanCompare _ _ _ _ _ _ _) as [b| |]; cbn [obind]; try done.
  destruct (subspan_defined (row_first r) 0 valueSize) as [-> _]; [lia..|]. cbn [obind]. by destruct b.
Qed.

(** *** All types *)

Definition okAt (r : Row) (w : Z) : bool := bool_decide (is_Some (one (row_addr r) w)).
Lemma okAt_narrowing r : Prefixes one → narrowing (okAt r).
Proof.
  intros Hp. assert (∀ m n, 0 ≤ m ≤ n → okAt r n → okAt r m) as H.
  { intros m n Hmn [b Hb]%bool_decide_unpack. apply bool_decide_pack. rewrite (Hp _ _ _ _ Hb Hmn). by eexists. }
  split_and!; apply H; lia.
Qed.
(** The selected row after the passes so far. *)
Definition rowAfter (r : Row) (st : Z * Z * Z) : Selected :=
  mkSelected r st.1.1 st.1.2
    (if st.2 =? 0 then None else match one (row_addr r) st.2 with Some b => Some (b ++ replicate (Z.to_nat (8 - st.2)) 0) | None => None end).
Lemma readWidthOf_pass r st width : 0 < width → readWidthOf one (rowAfter r st) width = rowAfter r (passStep (okAt r) st width).
Proof.
  intros Hw. destruct st as [[pending read] got]. unfold readWidthOf, passStep, okAt. cbn [rowAfter sl_row sl_pending fst snd]. destruct (_ =? width); [|done].
  unfold afterRead. destruct (one (row_addr r) width) as [b|] eqn:E.
  - rewrite bool_decide_true by by eexists. unfold rowAfter. cbn [fst snd sl_row sl_pending]. rewrite E. by destruct (Z.eqb_spec width 0); [lia|].
  - by rewrite bool_decide_false by by intros [? ?].
Qed.
Lemma readRow_passes r c : isAll config = true → readRow one config valueSize (mkSelected r c 0 None) = rowAfter r (widthPasses (okAt r) c).
Proof.
  intros Hall. unfold readRow. rewrite Hall. change (mkSelected r c 0 None) with (rowAfter r (c, 0, 0)). unfold widthPasses. cbn [foldl].
  by rewrite !readWidthOf_pass by lia.
Qed.

Lemma maskOf_bit (f : Z → bool) i : In i allTypes → hasBit (maskOf (List.filter f allTypes)) i = f i.
Proof.
  intros Hi. cbn in Hi. cbn [List.filter allTypes].
  destruct (f 0) eqn:E0, (f 1) eqn:E1, (f 2) eqn:E2, (f 3) eqn:E3, (f 4) eqn:E4, (f 5) eqn:E5; destruct_or! Hi; subst i;
    first [rewrite E0|rewrite E1|rewrite E2|rewrite E3|rewrite E4|rewrite E5]; reflexivity.
Qed.
Lemma maskOf_filter (g : Z → bool) : Z.lor (Z.lor (Z.lor (if g 0 then maskBit 0 else 0) (if g 1 then maskBit 1 else 0)) (Z.lor (if g 2 then maskBit 2 else 0) (if g 3 then maskBit 3 else 0)))
    (Z.lor (if g 4 then maskBit 4 else 0) (if g 5 then maskBit 5 else 0)) = maskOf (List.filter g allTypes).
Proof. cbn [List.filter allTypes]. by destruct (g 0), (g 1), (g 2), (g 3), (g 4), (g 5). Qed.
Lemma maskOf_zero (g : Z → bool) : maskOf (List.filter g allTypes) = 0 ↔ List.filter g allTypes = [].
Proof. cbn [List.filter allTypes]. by destruct (g 0), (g 1), (g 2), (g 3), (g 4), (g 5). Qed.
Lemma candidates_types (f : Z → bool) cur old first : 8 ≤ len cur → 8 ≤ len old → 8 ≤ len first →
  nextAllTypeCandidates config (maskOf (List.filter f allTypes)) cur old first
  = Ret (maskOf (List.filter (λ i, f i && typeMatches config i (take (Z.to_nat (widthOf i)) cur)
      (take (Z.to_nat (widthOf i)) (if bool_decide (sc_compareType config = CmpSameAsFirst) then first else old))) allTypes)).
Proof.
  intros Hc Ho Hf. unfold nextAllTypeCandidates. cbv zeta. set (reference := if bool_decide _ then first else old). assert (8 ≤ len reference) as Hr by (unfold reference; by case_bool_decide).
  assert (∀ (w : bytes) n, 0 ≤ n ≤ 8 → 8 ≤ len w → subspan w 0 n = Ret (take (Z.to_nat n) w)) as Hsub.
  { intros w n Hn Hw. destruct (subspan_defined w 0 n) as [-> _]; [lia..|]. unfold slice. by rewrite drop_0. }
  set (g := λ i, f i && typeMatches config i (take (Z.to_nat (widthOf i)) cur) (take (Z.to_nat (widthOf i)) reference)). rewrite <- (maskOf_filter g).
  assert (∀ i ty, In i allTypes → ty_size ty = widthOf i → 0 ≤ widthOf i ≤ 8 →
    (typeMatches config i (take (Z.to_nat (widthOf i)) cur) (take (Z.to_nat (widthOf i)) reference)
     = nextIntMatches config ty (readScanScalar ty (take (Z.to_nat (widthOf i)) cur) (sc_byteOrder config)) (readScanScalar ty (take (Z.to_nat (widthOf i)) reference) (sc_byteOrder config))) →
    candidateInt config (maskOf (List.filter f allTypes)) i ty cur reference = Ret (if g i then maskBit i else 0)) as Hint.
  { intros i ty Hi Hty Hw Hm. unfold candidateInt, candidateBit, readInt. rewrite maskOf_bit, Hty, !Hsub by done. cbn [obind]. unfold g. rewrite Hm. by destruct (f i). }
  assert (∀ i ft, In i allTypes → ft_size ft = widthOf i → 0 ≤ widthOf i ≤ 8 →
    (typeMatches config i (take (Z.to_nat (widthOf i)) cur) (take (Z.to_nat (widthOf i)) reference)
     = nextFloatMatches config ft (readScanFloat ft (take (Z.to_nat (widthOf i)) cur) (sc_byteOrder config)) (readScanFloat ft (take (Z.to_nat (widthOf i)) reference) (sc_byteOrder config))) →
    candidateFloat config (maskOf (List.filter f allTypes)) i ft cur reference = Ret (if g i then maskBit i else 0)) as Hfloat.
  { intros i ft Hi Hft Hw Hm. unfold candidateFloat, candidateBit, readFloat. rewrite maskOf_bit, Hft, !Hsub by done. cbn [obind]. unfold g. rewrite Hm. by destruct (f i). }
  rewrite (Hint 0 uint8), (Hint 1 int16), (Hint 2 int32), (Hint 3 int64), (Hfloat 4 single), (Hfloat 5 double); (done || (cbn; tauto)).
Qed.

Lemma filter_ext_types (f g : Z → bool) : (∀ i, In i allTypes → f i = g i) → List.filter f allTypes = List.filter g allTypes.
Proof. intros H. apply List.filter_ext_in. done. Qed.
Lemma widthOf_nonneg i : 0 ≤ widthOf i.
Proof.
  unfold widthOf. destruct (nth_in_or_default (Z.to_nat i) allCandidateWidths 0) as [Hin| ->]; [|lia]. cbn [In allCandidateWidths] in Hin. lia.
Qed.
Lemma widest_bound (f : Z → bool) i : f i = true → In i allTypes → 0 < widthOf i ≤ foldr (λ i w, Z.max (widthOf i) w) 0 (List.filter f allTypes).
Proof.
  intros Hf Hi. assert (0 < widthOf i) by (cbn in Hi; destruct_or! Hi; subst; by vm_compute). split; [done|].
  assert (In i (List.filter f allTypes)) as Hin by (by apply List.filter_In). clear -Hin. induction (List.filter f allTypes) as [|j l IH]; [done|].
  cbn [foldr]. destruct Hin as [->|Hin]; [lia|]. specialize (IH Hin). lia.
Qed.
Lemma widest_width (f : Z → bool) : let w := foldr (λ i w, Z.max (widthOf i) w) 0 (List.filter f allTypes) in
  w = 0 ∧ List.filter f allTypes = [] ∨ ∃ i, In i allTypes ∧ f i = true ∧ w = widthOf i.
Proof.
  cbv zeta. destruct (List.filter f allTypes) as [|j l] eqn:E; [by left|right].
  assert (∀ i, In i (j :: l) → In i allTypes ∧ f i = true) as Hin by (intros i Hi; rewrite <- E in Hi; by apply List.filter_In in Hi).
  clear E. assert (∃ i, In i (j :: l) ∧ foldr (λ i w, Z.max (widthOf i) w) 0 (j :: l) = widthOf i) as (i & Hi & Hw).
  { clear Hin. revert j. induction l as [|k l IH]; intros j; [exists j; split; [by left|]|].
    - cbn [foldr]. pose proof (widthOf_nonneg j). lia.
    - destruct (IH k) as (i & Hi & Hw). change (foldr (λ i w, Z.max (widthOf i) w) 0 (j :: k :: l)) with (Z.max (widthOf j) (foldr (λ i w, Z.max (widthOf i) w) 0 (k :: l))).
      rewrite Hw. destruct (Z.max_spec (widthOf j) (widthOf i)) as [[_ ->]|[_ ->]]; [exists i; split; [by right|done]|exists j; split; [by left|done]]. }
  destruct (Hin i Hi). by exists i.
Qed.
Lemma typeHolds_unreadable r : List.filter (readable one config r) allTypes = [] → List.filter (typeHolds one config r) allTypes = [].
Proof.
  intros E. destruct (List.filter (typeHolds one config r) allTypes) as [|i l] eqn:E'; [done|].
  assert (In i (List.filter (typeHolds one config r) allTypes)) as Hi by (rewrite E'; by left). apply List.filter_In in Hi as [Hi Ht].
  assert (In i (List.filter (readable one config r) allTypes)) as Hr by (apply List.filter_In; split; [done|]; unfold typeHolds in Ht; by apply andb_true_iff in Ht as [? _]).
  by rewrite E in Hr.
Qed.
Lemma readable_fitting r : 0 ≤ row_mask r < 64 → sc_startAddress config ≤ row_addr r ≤ sc_stopAddress config → ∀ i, In i allTypes →
  readable one config r i = hasBit (allCandidatesFitting (row_mask r) (sc_stopAddress config - row_addr r)) i && okAt r (widthOf i).
Proof.
  intros Hm Hr i Hi. destruct (fitting_spec (row_mask r) (sc_stopAddress config - row_addr r) Hm ltac:(lia)) as [_ ->]; [|done]. unfold readable, inRange, okAt.
  f_equal. f_equal. destruct (Z.leb_spec (sc_startAddress config) (row_addr r)); [|lia]. apply eq_true_iff_eq. rewrite andb_true_l, !Z.leb_le. lia.
Qed.
Lemma readable_outside r : ¬ (sc_startAddress config ≤ row_addr r ≤ sc_stopAddress config) → List.filter (readable one config r) allTypes = [].
Proof.
  intros Hr. rewrite (filter_ext_types _ (λ _, false)); [done|]. intros i Hi. unfold readable, inRange.
  assert (0 < widthOf i) by (cbn in Hi; destruct_or! Hi; subst; by vm_compute).
  destruct (Z.leb_spec (sc_startAddress config) (row_addr r)), (Z.leb_spec (row_addr r + widthOf i - 1) (sc_stopAddress config)); try lia; by rewrite ?andb_false_r.
Qed.
(** What was read of a row whose widest readable type has the width of [i]. *)
Lemma typeHolds_read r b i : Prefixes one → let w := foldr (λ i w, Z.max (widthOf i) w) 0 (List.filter (readable one config r) allTypes) in
  one (row_addr r) w = Some b → len b = w → In i allTypes →
  typeHolds one config r i = readable one config r i && typeMatches config i (take (Z.to_nat (widthOf i)) (b ++ replicate (Z.to_nat (8 - w)) 0))
    (take (Z.to_nat (widthOf i)) (if bool_decide (sc_compareType config = CmpSameAsFirst) then row_first r else row_value r)).
Proof.
  cbv zeta. intros Hp E Hb Hi. unfold typeHolds. destruct (readable one config r i) eqn:Hr; [|done]. cbn [andb].
  pose proof (widest_bound _ i Hr Hi) as Hw. rewrite (Hp _ _ (widthOf i) _ E) by lia. rewrite take_app_le; [done|]. unfold len in Hb. lia.
Qed.
Lemma kept_all r : Prefixes one → isAll config = true → 0 ≤ row_mask r < 64 → len (row_value r) = 8 → len (row_first r) = 8 →
  kept r = wantedAll one config r.
Proof using Hone.
  intros Hp Hall Hm Hv Hf. unfold NextScan.kept, NextScan.keptRow, selectRow, wantedAll. rewrite Hall, andb_false_r. cbn [andb].
  destruct (Z.ltb_spec (row_addr r) (sc_startAddress config)), (Z.ltb_spec (sc_stopAddress config) (row_addr r)); cbn [orb];
    try (rewrite typeHolds_unreadable by (apply readable_outside; lia); done).
  pose proof (readable_fitting r Hm ltac:(lia)) as Hread. destruct (fitting_spec (row_mask r) (sc_stopAddress config - row_addr r) Hm ltac:(lia)) as [Hc _].
  set (c := allCandidatesFitting _ _) in *. destruct (Z.eqb_spec c 0) as [E0|_].
  { rewrite typeHolds_unreadable; [done|]. rewrite (filter_ext_types _ (λ _, false)); [done|]. intros i Hi. rewrite Hread, E0 by done. cbn in Hi. by destruct_or! Hi; subst. }
  rewrite readRow_passes by done. destruct (widthPasses_spec (okAt r) c (okAt_narrowing r Hp) Hc) as [Hrd Hgot]. unfold widthsWanted in Hrd, Hgot. cbn [fst snd] in Hrd, Hgot.
  rewrite <- (filter_ext_types _ _ Hread) in Hrd, Hgot. unfold keepRow. cbn [rowAfter sl_row sl_current sl_read]. rewrite Hrd, Hgot, Hall.
  destruct (widest_width (readable one config r)) as [[Hw Hnone]|(i0 & Hi0 & Hr0 & Hw)].
  { rewrite Hw. by rewrite typeHolds_unreadable. }
  pose proof (widest_bound _ i0 Hr0 Hi0) as Hpos. set (w := foldr _ 0 (List.filter (readable one config r) allTypes)) in *.
  assert (is_Some (one (row_addr r) w)) as [b E].
  { rewrite Hw. unfold readable in Hr0. apply andb_true_iff in Hr0 as [_ Hr0]. by apply bool_decide_eq_true_1 in Hr0. }
  pose proof (re_whole _ _ Hone _ _ _ E ltac:(lia)) as Hb. assert (w ≤ 8) as Hw8 by (rewrite Hw; cbn in Hi0; destruct_or! Hi0; subst i0; by vm_compute).
  destruct (Z.eqb_spec w 0) as [|_]; [lia|]. rewrite E. rewrite candidates_types; [|unfold len in *; rewrite length_app, length_replicate; lia|lia|lia]. cbn [obind].
  rewrite (filter_ext_types _ (typeHolds one config r)) by (intros i Hi; symmetry; by apply typeHolds_read).
  pose proof (maskOf_zero (typeHolds one config r)) as Hz. unfold widestValue. fold w. rewrite E.
  destruct (List.filter (typeHolds one config r) allTypes) as [|i l]; [done|]. destruct (Z.eqb_spec (maskOf (i :: l)) 0) as [Em|_]; [|done]. by apply Hz in Em.
Qed.
End Kept.

(** ** The scan *)

Lemma valid_small m : 0 ≤ m < 256 → validMask m = true → m < 64.
Proof.
  intros Hm Hv. assert (forallb (λ m, negb (validMask m) || (m <? 64)) (seqZ 0 256) = true) as T by (vm_compute; reflexivity).
  rewrite forallb_forall in T. specialize (T m ltac:(apply list_elem_of_In, elem_of_seqZ; lia)). rewrite Hv in T. by apply Z.ltb_lt in T.
Qed.
Lemma omap_ext_rows {A B} (f g : A → option B) l : Forall (λ x, f x = g x) l → omap f l = omap g l.
Proof. induction 1 as [|x l E _ IH]; [done|]. cbn. by rewrite E, IH. Qed.

Section Scan.
Context {lib : Library} `{!TextEncoder lib} (t : Target) (one : Z → Z → option bytes) (Hone : ReadsEach t one) (Hprefix : Prefixes one).
Context (threadCount : Z) (disks : nat → Disk) (mergedDisk : Disk) (stop : nat → Z → bool) (root : bytes) (Hroot : Forall (λ c, c ≠ 10) root).

Lemma nextScan_wanted requested config previous format (all : bool) (rows : list Row) valueSize stringNeedle unicodeNeedle :
  Forall (λ term, 0 ≤ g_offset term) (sc_groupedTerms requested) →
  serves all (if all then 8 else valueSize) rows previous → len rows ≤ SIZE_MAX → Forall (λ r, 0 ≤ row_mask r < 256) rows → valueSize ≤ SIZE_MAX / 4096 →
  accepted t requested previous format config valueSize stringNeedle unicodeNeedle →
  ∃ result, nextScan t threadCount disks mergedDisk stop root requested previous format = Ret (inr result) ∧
    holdsFound disks mergedDisk stop config valueSize (omap (wanted one config all valueSize stringNeedle unicodeNeedle) rows) result.
Proof using TextEncoder0 Hone Hprefix Hroot.
  intros Hoff Hsv Hlen Hmask Hmax [Hm Ht Hfmt Hcmp Hvs Hstride Hsn Hun Hlive].
  destruct (target_config_ok _ _ _ Ht Hoff) as [Hok Htype]. pose proof (valueSize_pos _ _ Hok Hvs) as Hpos.
  unfold nextScan. rewrite (sv_error _ _ _ _ Hsv), Hm, Ht, Hfmt, Hcmp, Hvs. cbv zeta. rewrite Hsn, Hun.
  destruct (decide (rows = [])) as [->|Hne].
  { pose proof (sv_count _ _ _ _ Hsv) as Hc. rewrite Hc. cbn [length len Z.of_nat]. change (0 <? 0) with false. cbn [andb]. change (0 =? 0) with true. cbv iota.
    eexists. split; [reflexivity|]. by apply (empty_found one disks mergedDisk stop config valueSize stringNeedle unicodeNeedle all). }
  assert (ld_count previous = len rows) as Hc by apply (sv_count _ _ _ _ Hsv). assert (ld_hasAllTypes previous = all) as Ha by (by apply (sv_all _ _ _ _ Hsv)).
  pose proof (len_pos rows Hne) as Hrows. rewrite (sv_stride _ _ _ _ Hsv), bool_decide_false, Hc, Ha by done.
  rewrite (sv_stride _ _ _ _ Hsv), bool_decide_false, Hc, Ha in Hstride by done.
  assert ((0 <? len rows) && (((if all then 8 else valueSize) =? 0) || negb ((if all then 8 else valueSize) =? (if all then 8 else valueSize))) = false) as ->.
  { destruct (Z.eqb_spec (if all then 8 else valueSize) 0) as [E|]; [destruct all; lia|]. by rewrite Z.eqb_refl, andb_false_r. }
  destruct (Z.eqb_spec (len rows) 0) as [|_]; [lia|].
  unfold hasMask in Hm. rewrite Hc, Ha, <- Htype in Hm. destruct (Z.eqb_spec (len rows) 0) as [|_]; [lia|]. cbn [negb andb] in Hm. fold (isAll config) in Hm.
  assert (all = false → isAll config = false) as Hall by (intros ->; by destruct (isAll config)).
  assert (all = true → isAll config = false → allCandidateFor (sc_valueType config) ≠ 0) as Hnum.
  { intros -> E. rewrite E in Hm. cbn in Hm. by destruct (Z.eqb_spec (allCandidateFor (sc_valueType config)) 0). }
  destruct (scanRows_found t one Hone threadCount disks mergedDisk stop root Hroot config valueSize stringNeedle unicodeNeedle previous all rows) as (result & -> & Hfound); try done.
  exists result. split; [done|].
  rewrite <- (omap_ext_rows (kept one config all valueSize stringNeedle unicodeNeedle)); [done|].
  pose proof (sv_rows _ _ _ _ Hsv) as Hrok. rewrite Forall_forall in Hrok, Hmask |- *. intros r Hr. destruct (Hrok r Hr) as (_ & Hv & Hf & Hmk). specialize (Hmask r Hr).
  unfold wanted. destruct (isAll config) eqn:Eall.
  - destruct all; [|by specialize (Hall eq_refl)]. destruct Hmk as [_ Hmk]. pose proof (valid_small _ Hmask Hmk). apply (kept_all t one Hone); done || lia.
  - apply kept_one; [done|]. rewrite Hf. destruct all; [|lia].
    split; [lia|]. unfold valueSizeForConfig in Hvs. specialize (Hnum eq_refl eq_refl). destruct (sc_valueType config); first [by destruct Hnum|injection Hvs as <-; lia].
Qed.
End Scan.

(** C7: a next scan that passes its checks ends with exactly the rows of the previous one
    that are wanted, each with the value memory has now and its first value, in their
    order: for any number of workers, whatever batch and width a value is read in, and for
    every type and compare; a scan that is stopped ends with some of them.  Only a disk that
    refuses a file or a write raises the error flag. *)
Theorem nextScan_filters {lib : Library} `{!TextEncoder lib} t one threadCount disks mergedDisk stop root
    requested config previous format all (rows : list Row) valueSize stringNeedle unicodeNeedle :
  ReadsEach t one → Prefixes one → Forall (λ c, c ≠ 10) root →
  Forall (λ term, 0 ≤ g_offset term) (sc_groupedTerms requested) →
  serves all (if all then 8 else valueSize) rows previous → len rows ≤ SIZE_MAX → Forall (λ r, 0 ≤ row_mask r < 256) rows → valueSize ≤ SIZE_MAX / 4096 →
  accepted t requested previous format config valueSize stringNeedle unicodeNeedle →
  ∃ result, nextScan t threadCount disks mergedDisk stop root requested previous format = Ret (inr result) ∧
    holdsFound disks mergedDisk stop config valueSize (omap (wanted one config all valueSize stringNeedle unicodeNeedle) rows) result.
Proof. intros. by eapply nextScan_wanted. Qed.

(** *** A sample *)

Definition sampleBytes : bytes := [1; 0; 0; 0; 5; 0; 0; 0].
Definition sampleMemory (a n : Z) : option bytes :=
  if (4096 <=? a) && (0 <=? n) && (a + n <=? 4104) then Some (slice sampleBytes (a - 4096) n) else None.
Definition memoryTarget : Target :=
  mkTarget TransportLocal sampleMachine true true [] (λ _ _, []) (λ addrs n, (λ a, sampleMemory a n) <$> addrs) (λ base size, [(base, base + size)]) true.
Lemma sampleMemory_reads : ReadsEach memoryTarget sampleMemory.
Proof.
  split; [done|]. intros a n b. unfold sampleMemory. destruct (Z.leb_spec 4096 a), (Z.leb_spec 0 n), (Z.leb_spec (a + n) 4104); try done. intros [= <-] _.
  unfold slice, len. rewrite length_take, length_drop. change (length sampleBytes) with 8%nat. lia.
Qed.
Lemma sampleMemory_prefixes : Prefixes sampleMemory.
Proof.
  intros a n m b. unfold sampleMemory. destruct (Z.leb_spec 4096 a), (Z.leb_spec 0 n), (Z.leb_spec (a + n) 4104); try done. intros [= <-] Hm.
  rewrite (proj2 (Z.leb_le _ _)), (proj2 (Z.leb_le _ _)) by lia. f_equal. unfold slice. rewrite take_take. f_equal. lia.
Qed.
(** The rows of a first scan for 4-byte values, and what increased since. *)
Definition previousRows : list Row := [mkRow 4096 [1; 0; 0; 0] [1; 0; 0; 0] 0; mkRow 4100 [2; 0; 0; 0] [2; 0; 0; 0] 0].
Definition previousResult : Loaded := loadedOf (workerResult freeDisk true false Little 8 previousRows).
Lemma previousRows_ok : Forall (row_ok false 4) previousRows.
Proof. unfold previousRows, row_ok. repeat apply Forall_cons_2; [split; [unfold is_u64; cbn; lia_w|done]..|apply Forall_nil_2]. Qed.
Lemma previous_serves : serves false 4 previousRows previousResult.
Proof.
  destruct (results_spec freeDisk (λ _, noFiles) true false 4 Little 8 previousRows previousRows_ok) as [H Hr]; [vm_compute; done..|].
  apply H. apply Hr; [exact freeDisk_reliable|by right; right].
Qed.
Definition increasedConfig : ScanConfig := mkScanConfig VInt32 OrderUnknown 0 CmpIncreased 4 0 UINTPTR_MAX ProtAny ProtAny true true true 0 (-1) dzero false dzero dzero
  0 0 dzero dzero None None [] [] true [] [] [] [] [] 4.
Lemma nextScan_filters_witness : ∃ result,
  nextScan (lib := sampleLibrary) memoryTarget 4 (λ _, freeDisk) freeDisk (λ _ _, false) (bs "/tmp/scan") increasedConfig previousResult None = Ret (inr result) ∧
  ld_writeError result.1 = false ∧ serves false 4 [mkRow 4100 [5; 0; 0; 0] [2; 0; 0; 0] 0] result.1.
Proof.
  destruct (targetScanConfig (lib := sampleLibrary) memoryTarget increasedConfig) as [|config] eqn:E; [done|]. assert (config = match targetScanConfig (lib := sampleLibrary) memoryTarget increasedConfig with inr c => c | _ => config end) as Ec by (by rewrite E).
  vm_compute in Ec.
  destruct (nextScan_filters (lib := sampleLibrary) memoryTarget sampleMemory 4 (λ _, freeDisk) freeDisk (λ _ _, false) (bs "/tmp/scan")
    increasedConfig config previousResult None false previousRows 4 [] []) as (result & Hr & Hs & He).
  - exact sampleMemory_reads.
  - exact sampleMemory_prefixes.
  - decide_by_compute.
  - apply Forall_nil_2.
  - exact previous_serves.
  - vm_compute. done.
  - repeat apply Forall_cons_2; done || apply Forall_nil_2.
  - vm_compute. done.
  - rewrite Ec. split; vm_compute; done.
  - assert (ld_writeError result.1 = false) as Hnone by (apply He; [exact freeDisk_reliable|intros; exact freeDisk_reliable]).
    exists result. split; [done|]. split; [done|]. destruct (Hs Hnone) as (picked & _ & Hall & Hserves & _). rewrite Hall in Hserves by done. rewrite Ec in Hserves. vm_compute in Hserves.
    exact Hserves.
Defined.
