(* ===== verification/FirstScan.v ===== *)
(** * The first scan

    Models [MemoryScanner::firstScan] of [src/scanner/memory_scanner.cpp]: the choice and
    clipping of the regions, their division into chunks that overlap by one value less one
    byte, the probe that allows pages that were never touched to be skipped, the runs of
    chunks given to the workers, what each worker reads and adds, and the assembled result.

    The tuning of the chunk size from the cache and the environment and the page size are
    parameters; the workers run one after the other, as in [NextScan]. *)

From S2P Require Import Prelude Numeral TargetMachine Types Loops ScanBuffers ScanConfig ScanNumber ScanResults NextCompare ScanTarget ScanRegion NextScan.
#[local] Open Scope Z_scope.

(** [MemoryScanner::MemoryScanner]: the number of threads. *)
Definition scannerThreads (threadCount hardware : Z) : Z := Z.max 1 (if 0 <? threadCount then threadCount else hardware).

#[export] Instance ProtMatch_eq_dec : EqDecision ProtMatch.
Proof. solve_decision. Defined.

Section FirstScan.
Context {lib : Library}.

(** ** Checks *)

Definition needsPrevious : list ScanCompare := [CmpChanged; CmpUnchanged; CmpIncreased; CmpDecreased; CmpIncreasedBy; CmpDecreasedBy; CmpSameAsFirst].
Definition firstCompareError (config : ScanConfig) : option ScanError :=
  if isOneOf (sc_compareType config) needsPrevious
  then Some (InvalidArgument (bs "This compare needs a previous scan: run a first scan (Exact or Unknown initial value) first"))
  else match sc_valueType config with
  | VGrouped =>
      if bool_decide (sc_groupedTerms config = [])
      then Some (InvalidArgument (bs "ValueType::Grouped requires grouped terms (use parseGrouped)"))
      else if groupedSize config =? 0 then Some (InvalidArgument (bs "ValueType::Grouped has invalid grouped terms"))
      else if negb (isOneOf (sc_compareType config) [CmpExact; CmpUnknown])
      then Some (InvalidArgument (bs "ValueType::Grouped first scan supports only Exact or Unknown compare"))
      else None
  | VCustom =>
      if sc_customValueSize config =? 0 then Some (InvalidArgument (bs "ValueType::Custom requires customValueSize > 0"))
      else if isCompare config CmpExact && bool_decide (sc_customFormula config = [])
      then Some (InvalidArgument (bs "ValueType::Custom exact scan requires customFormula"))
      else if negb (isOneOf (sc_compareType config) [CmpExact; CmpUnknown])
      then Some (InvalidArgument (bs "ValueType::Custom first scan supports only Exact or Unknown compare"))
      else None
  | _ => None
  end.

(** ** Regions *)

Definition protAllowed (m : ProtMatch) (has : bool) : bool := bool_decide (m = ProtAny) || Bool.eqb (bool_decide (m = ProtYes)) has.
Definition regionAllowed (config : ScanConfig) (r : MemoryRegion) : bool :=
  bool_decide (region_state r = MemCommitted) && protHas (region_protection r) ProtRead
  && protAllowed (sc_writableMatch config) (protHas (region_protection r) ProtWrite)
  && protAllowed (sc_executableMatch config) (protHas (region_protection r) ProtExec)
  && memoryTypeAllowed (sc_scanPrivate config) (sc_scanImage config) (sc_scanMapped config) (region_type r).
(** The grid the start of a span is moved onto. *)
Definition gridOf (config : ScanConfig) : Z :=
  match sc_valueType config with
  | VByte | VInt16 | VInt32 | VInt64 | VFloat | VDouble | VPointer | VAll => Z.max (sc_alignment config) 1
  | VUnicodeString => 2
  | _ => 1
  end.
Definition clipped (r : MemoryRegion) (base size : Z) : MemoryRegion :=
  mkMemoryRegion base size (region_protection r) (region_type r) (region_state r) (region_path r) (region_fileOffset r).
(** The start on the grid; [None] when it passes the last address. *)
Definition gridStart (grid start : Z) : option Z :=
  if (1 <? grid) && negb (start mod grid =? 0) then
    let add := grid - start mod grid in
    if UINTPTR_MAX - add <? start then None else Some (start + add)
  else Some start.
(** One region of the loop: an exception, nothing, or the span to scan. *)
Definition clipRegion (config : ScanConfig) (r : MemoryRegion) : ScanError + option MemoryRegion :=
  if negb (regionAllowed config r) || (region_size r =? 0) then inr None
  else if UINTPTR_MAX - region_base r <? region_size r - 1 then inl (InvalidArgument (bs "Target memory region overflows the address space"))
  else
    match gridStart (gridOf config) (Z.max (region_base r) (sc_startAddress config)) with
    | None => inr None
    | Some scanStart =>
        if (sc_stopAddress config <? scanStart) || (region_size r <=? u64 (scanStart - region_base r)) then inr None
        else
          let remaining := region_size r - (scanStart - region_base r) in
          let distance := sc_stopAddress config - scanStart in
          inr (Some (clipped r scanStart (if distance <? remaining - 1 then distance + 1 else remaining)))
    end.
Fixpoint scanRegions (config : ScanConfig) (regions : list MemoryRegion) : ScanError + list MemoryRegion :=
  match regions with
  | [] => inr []
  | r :: regions =>
      match clipRegion config r with
      | inl e => inl e
      | inr o => match scanRegions config regions with inl e => inl e | inr l => inr (option_list o ++ l) end
      end
  end.
Fixpoint totalSpan (regions : list MemoryRegion) (total : Z) : option Z :=
  match regions with
  | [] => Some total
  | r :: regions => if SIZE_MAX - total <? region_size r then None else totalSpan regions (total + region_size r)
  end.

(** ** Chunks *)

Record Chunk := mkChunk { ch_base : Z; ch_owned : Z; ch_readLen : Z }.
(** [kChunkBytes] from the size of the second-level cache and the accepted override. *)
Definition chunkBytes (l2 : Z) (overrideKb : option Z) : Z :=
  match overrideKb with
  | Some kb => kb * 1024
  | None => if 0 <? l2 then Z.max (64 * 1024) (Z.min (l2 / 2) (1024 * 1024)) else 128 * 1024
  end.
Definition ownedLength (chunk alignment : Z) : Z :=
  let n := chunk / alignment * alignment in if n =? 0 then alignment else n.
Fixpoint chunkLoop (fuel : nat) (ownedLen overlap rbase rsize offset : Z) : list Chunk :=
  match fuel with
  | O => []
  | S fuel =>
      if offset <? rsize then
        let owned := Z.min ownedLen (rsize - offset) in
        let readLen := owned + Z.min overlap (rsize - offset - owned) in
        mkChunk (u64 (rbase + offset)) owned readLen :: chunkLoop fuel ownedLen overlap rbase rsize (offset + owned)
      else []
  end.
Definition rangeChunks (ownedLen overlap : Z) (range : Z * Z) : list Chunk :=
  chunkLoop (Z.to_nat (range.2 / ownedLen + 1)) ownedLen overlap range.1 range.2 0.
Definition bytewise (config : ScanConfig) : bool :=
  match sc_valueType config with VString | VUnicodeString | VByteArray | VBinary => true | _ => false end.
Definition kPagemapMinRegion : Z := 256 * 1024.

(** The probe is a result of its own, in its own directory. *)
Context (mode : SimdMode) (pageSize : Z) (pagemapDisabled : bool) (probeDisk : Disk).
(** The result of the search in bytes that are all zero counts no rows. *)
Definition probeEmpty (config : ScanConfig) (maxMatchSize : Z) : outcome bool :=
  let zeroWindow := replicate (Z.to_nat (Z.max (maxMatchSize * 4) 64)) 0 in
  let* rows := scanRegion mode config zeroWindow 4096 (len zeroWindow) in
  let probe := finalize probeDisk (writeRows probeDisk (isAll config) rows (createResult probeDisk false)) in
  Ret (w_count probe =? 0).
Definition skipNonResident (config : ScanConfig) (alignment maxMatchSize : Z) : outcome bool :=
  let stride := if bytewise config then 1 else alignment in
  let cannotStraddle := (0 <? pageSize) && (maxMatchSize <=? stride) && (pageSize mod stride =? 0) in
  if negb pagemapDisabled && cannotStraddle && negb (bool_decide (sc_valueType config = VCustom))
  then probeEmpty config maxMatchSize else Ret false.
(** The spans of a region that are read. *)
Definition regionRanges (t : Target) (skip : bool) (r : MemoryRegion) : ScanError + list (Z * Z) :=
  if skip && bool_decide (region_type r = MemPrivate) && (kPagemapMinRegion <=? region_size r) && (region_size r <=? UINTPTR_MAX - region_base r) then
    let resident := t_residentRanges t (region_base r) (region_size r) in
    if existsb (λ p : Z * Z, (p.1 <? region_base r) || (p.2 <=? p.1) || (region_base r + region_size r <? p.2)) resident
    then inl (InvalidArgument (bs "Resident memory span exceeds its target region"))
    else inr ((λ p : Z * Z, (p.1, p.2 - p.1)) <$> resident)
  else inr [(region_base r, region_size r)].
Fixpoint buildChunks (t : Target) (skip : bool) (ownedLen overlap : Z) (regions : list MemoryRegion) : ScanError + list Chunk :=
  match regions with
  | [] => inr []
  | r :: regions =>
      match regionRanges t skip r with
      | inl e => inl e
      | inr ranges =>
          match buildChunks t skip ownedLen overlap regions with
          | inl e => inl e
          | inr l => inr (mjoin (rangeChunks ownedLen overlap <$> ranges) ++ l)
          end
      end
  end.

(** ** Workers *)

(** The end of the run of a thread that starts at chunk [ci]. *)
Fixpoint runEnd (chunks : list Chunk) (perThread : Z) (last : bool) (acc : Z) (ci : nat) : nat :=
  match chunks with
  | [] => ci
  | c :: chunks => if (acc <? perThread) || last then runEnd chunks perThread last (u64 (acc + ch_owned c)) (S ci) else ci
  end.
(** [chunkBegin] and [chunkEnd] of the threads that remain, from the chunk [ci]. *)
Fixpoint partition (chunks : list Chunk) (perThread : Z) (threads : nat) (ci : nat) : list (nat * nat) :=
  match threads with
  | O => []
  | S threads =>
      let e := runEnd (drop ci chunks) perThread (bool_decide (threads = 0%nat)) 0 ci in
      (ci, e) :: partition chunks perThread threads e
  end.
(** What a worker adds for a chunk it reads. *)
Definition chunkRows (t : Target) (config : ScanConfig) (c : Chunk) : outcome (list Row) :=
  let buf := t_read t (ch_base c) (ch_readLen c) in
  if len buf =? 0 then Ret [] else scanRegion mode config buf (ch_base c) (Z.min (len buf) (ch_owned c)).
Fixpoint chunkWorkerLoop (t : Target) (config : ScanConfig) (disk : Disk) (stop : Z → bool) (run : list Chunk) (ci : nat) (w : Writer) : outcome Writer :=
  match run with
  | [] => Ret w
  | c :: run =>
      if stop (Z.of_nat ci) then Ret w else
      let* rows := chunkRows t config c in
      chunkWorkerLoop t config disk stop run (S ci) (writeRows disk (isAll config) rows w)
  end.
Definition chunkWorker (t : Target) (config : ScanConfig) (disk : Disk) (stop : Z → bool) (chunks : list Chunk) (run : nat * nat) : outcome Writer :=
  let w := setDataFormat disk (sc_byteOrder config) (sc_pointerWidth config) (createResult disk false) in
  let w := if isAll config then enableAllTypeCandidates disk w else w in
  let* w := chunkWorkerLoop t config disk stop (take (run.2 - run.1) (drop run.1 chunks)) run.1 w in
  Ret (finalize disk w).
Fixpoint chunkWorkers (t : Target) (config : ScanConfig) (disks : nat → Disk) (stop : nat → Z → bool) (root : bytes) (chunks : list Chunk)
    (runs : list (nat * nat)) (i : nat) : outcome (list (bytes * Writer)) :=
  match runs with
  | [] => Ret []
  | run :: runs =>
      let* w := chunkWorker t config (disks i) (stop i) chunks run in
      let* rest := chunkWorkers t config disks stop root chunks runs (S i) in
      Ret ((partPath root i, w) :: rest)
  end.

(** ** The scan *)

Definition emptyFirst (disk : Disk) (config : ScanConfig) (enable : bool) : Writer :=
  let w := setDataFormat disk (sc_byteOrder config) (sc_pointerWidth config) (createResult disk false) in
  finalize disk (if enable && isAll config then enableAllTypeCandidates disk w else w).
Definition scanChunks (t : Target) (threadCount : Z) (disks : nat → Disk) (mergedDisk : Disk) (stop : nat → Z → bool) (root : bytes)
    (config : ScanConfig) (chunks : list Chunk) : outcome (ScanError + Scanned) :=
  let totalMem := foldl (λ total c, u64 (total + ch_owned c)) 0 chunks in
  if totalMem =? 0 then let w := emptyFirst (disks 0%nat) config false in Ret (inr (loadedOf w, w_format w)) else
  let maxThreads := if t_concurrent t then threadCount else 1 in
  let nThreads := Z.min maxThreads (Z.max 1 (to_signed 32 (len chunks))) in
  let perThread := Z.max 1 (u64 (totalMem + nThreads - 1) / nThreads) in
  let* parts := chunkWorkers t config disks stop root chunks (partition chunks perThread (Z.to_nat nThreads) 0) 0 in
  Ret (if lostTarget t then inl lostError else inr (assembleShardedResult mergedDisk (directoriesOf parts) parts)).

Definition firstScan (t : Target) (threadCount kChunkBytes : Z) (disks : nat → Disk) (mergedDisk : Disk) (stop : nat → Z → bool) (root : bytes)
    (requested : ScanConfig) : outcome (ScanError + Scanned) :=
  match targetScanConfig t requested with inl e => Ret (inl e) | inr config =>
  match firstCompareError config with Some e => Ret (inl e) | None =>
  if remoteTarget t && bool_decide (t_regions t = []) then
    Ret (inl (if negb (t_liveAfter t) then RuntimeError (bs "The remote target disconnected before scanning")
              else InvalidArgument (bs "The target reported no memory map; for a GDB stub supply explicit guest ranges before scanning")))
  else
  match scanRegions config (t_regions t) with inl e => Ret (inl e) | inr regions =>
  match totalSpan regions 0 with None => Ret (inl (InvalidArgument (bs "Total scan span exceeds the frontend size limit"))) | Some totalMem =>
  if totalMem =? 0 then let w := emptyFirst (disks 0%nat) config true in Ret (inr (loadedOf w, w_format w)) else
  let alignment := Z.max 1 (sc_alignment config) in
  match valueSizeForConfig config with None => Ret (inl EncodingFailed) | Some vs =>
    let maxMatchSize := Z.max 1 vs in
    let overlap := maxMatchSize - 1 in
    let ownedLen := ownedLength kChunkBytes alignment in
    let* skip := skipNonResident config alignment maxMatchSize in
    match buildChunks t skip ownedLen overlap regions with inl e => Ret (inl e) | inr chunks =>
      scanChunks t threadCount disks mergedDisk stop root config chunks
    end
  end end end end end.
End FirstScan.
