(* ===== verification/FirstRows.v ===== *)
(** * What a first scan finds

    The specification of [MemoryScanner::firstScan] ([src/scanner/memory_scanner.cpp]) on a
    memory: in every span, each position on the grid whose bytes match; and that chunks,
    pages that are skipped, runs of chunks and workers leave exactly that. *)

From S2P Require Import Prelude Numeral TargetMachine Types Loops ScanBuffers PatternScan ScanConfig ScanNumber ScanResults NextCompare ScanTarget ScanRegion NextScan FirstScan.
#[local] Open Scope Z_scope.

(** ** Strided positions *)

Lemma stride_app i m l step : 1 ≤ step → i ≤ m ≤ l → (m - i) mod step = 0 → stride i l step = stride i m step ++ stride m l step.
Proof.
  intros Hs Hm Hmod. unfold stride. rewrite (seqZ_split i m l) by done. rewrite filter_app. f_equal. apply list_filter_iff. intros j.
  apply Z.mod_divide in Hmod as [k Hk]; [|lia]. replace (j - i) with (j - m + k * step) by lia. rewrite Z.mod_add by lia. done.
Qed.
Lemma stride_shift d i l step : stride (i + d) (l + d) step = (λ j, j + d) <$> stride i l step.
Proof.
  unfold stride. replace (l + d - (i + d)) with (l - i) by lia. remember (Z.to_nat (l - i)) as n eqn:Hn.
  assert (∀ k (c : Z), filter (λ j, (j - (i + d)) mod step = 0) (seqZ (k + d) c) = (λ j, j + d) <$> filter (λ j, (j - i) mod step = 0) (seqZ k c)) as H; [|apply H].
  clear Hn n. intros k c. remember (Z.to_nat c) as n eqn:Hn. revert k c Hn. induction n as [|n IH]; intros k c Hn; [by rewrite !seqZ_nil by lia|].
  rewrite (seqZ_cons (k + d)), (seqZ_cons k) by lia. replace (Z.succ (k + d)) with (Z.succ k + d) by lia.
  rewrite !filter_cons, IH by lia. destruct (decide ((k + d - (i + d)) mod step = 0)) as [E|E], (decide ((k - i) mod step = 0)) as [E'|E']; try done;
    (replace (k + d - (i + d)) with (k - i) in E by lia); done.
Qed.
Lemma bytesAt_take mem a n k : 0 ≤ k ≤ n → take (Z.to_nat k) (bytesAt mem a n) = bytesAt mem a k.
Proof. intros Hk. pose proof (slice_bytesAt mem a n 0 k ltac:(lia) ltac:(lia) ltac:(lia)) as H. unfold slice in H. by rewrite drop_0, Z.add_0_r in H. Qed.
Lemma from_bytesAt mem a n off : 0 ≤ off ≤ n → from (bytesAt mem a n) off = bytesAt mem (a + off) (n - off).
Proof.
  intros Ho. pose proof (slice_bytesAt mem a n off (n - off) ltac:(lia) ltac:(lia) ltac:(lia)) as H. rewrite <- H. unfold slice, from. rewrite take_ge; [done|].
  pose proof (len_bytesAt mem a n ltac:(lia)). unfold len in *. rewrite length_drop. lia.
Qed.
Lemma bytesAt_ext mem mem' a n : (∀ x, a ≤ x < a + n → mem x = mem' x) → bytesAt mem a n = bytesAt mem' a n.
Proof. intros H. apply list_fmap_ext. intros i x Hx%list_elem_of_lookup_2. apply elem_of_seqZ in Hx. apply H. lia. Qed.

Section Found.
Context {lib : Library} (config : ScanConfig) (vs : Z) (mem : Z → Z).

(** The row of a position [a] with [n] bytes to the end of its span. *)
Definition memoryRow (a n : Z) : option Row := (λ p : bytes * Z, mkRow a p.1 p.1 p.2) <$> recordAt config vs (bytesAt mem a (Z.min vs n)).
(** The rows of the span of [size] bytes at [base], from an offset on. *)
Definition spanRowsFrom (base size off : Z) : list Row := omap (λ o, memoryRow (base + o) (size - o)) (stride off size (stepOf config)).
Definition spanRows (span : Z * Z) : list Row := spanRowsFrom span.1 span.2 0.
Definition regionRows (r : MemoryRegion) : list Row := spanRows (region_base r, region_size r).

Context (Hok : first_ok config) (Hvs : valueSizeForConfig config = Some vs) (Hmem : ∀ x, is_byte (mem x)).
Lemma vs_pos : 0 < vs.
Proof using Hok Hvs. apply (valueSize_pos config); [apply fk_config, Hok|done]. Qed.
Lemma step_pos : 1 ≤ stepOf config.
Proof using. unfold stepOf. destruct (sc_valueType config); lia. Qed.
Lemma memoryRow_record a n : 0 ≤ n → memoryRow a n = (λ p : bytes * Z, mkRow a p.1 p.1 p.2) <$> recordAt config vs (bytesAt mem a n).
Proof using Hok Hvs.
  intros Hn. unfold memoryRow. pose proof vs_pos. destruct (Z.min_spec vs n) as [[? ->]|[? ->]]; [|done].
  rewrite <- (bytesAt_take mem a n vs) by lia. by rewrite recordAt_take by (done || lia).
Qed.
Lemma memoryRow_same a n n' : Z.min vs n = Z.min vs n' → memoryRow a n = memoryRow a n'.
Proof using. unfold memoryRow. by intros ->. Qed.

(** ** Chunks *)

(** The rows of a chunk whose bytes are all read are those of its owned positions. *)
Lemma chunk_reference base size off owned readLen : 0 ≤ base → base + size ≤ 2 ^ 64 → 0 ≤ off → 0 ≤ owned → off + owned ≤ size →
  readLen = owned + Z.min (vs - 1) (size - off - owned) →
  scanReference config vs (bytesAt mem (base + off) readLen) (base + off) owned
  = omap (λ o, memoryRow (base + o) (size - o)) ((λ j, j + off) <$> stride 0 owned (stepOf config)).
Proof using Hok Hvs.
  intros Hb Hw Ho Hown Hsize Hread. pose proof vs_pos. unfold scanReference. rewrite omap_fmap. apply omap_ext_in. intros o Hin%elem_of_stride.
  unfold rowAt. rewrite from_bytesAt by lia. rewrite wrap_small by lia_w.
  rewrite <- memoryRow_record by lia. transitivity (memoryRow (base + off + o) (size - (o + off))); [apply memoryRow_same; lia|]. unfold compose. f_equal. lia.
Qed.
Lemma spanRowsFrom_chunk base size off owned : 0 ≤ off → 0 ≤ owned → off + owned ≤ size → owned mod stepOf config = 0 ∨ off + owned = size →
  spanRowsFrom base size off = omap (λ o, memoryRow (base + o) (size - o)) ((λ j, j + off) <$> stride 0 owned (stepOf config)) ++ spanRowsFrom base size (off + owned).
Proof using.
  intros Ho Hown Hsize Hmod. pose proof step_pos. rewrite <- stride_shift. unfold spanRowsFrom. rewrite <- omap_app. f_equal. rewrite Z.add_0_l, (Z.add_comm owned).
  destruct Hmod as [Hmod|Hmod].
  - apply stride_app; [done|lia|]. by replace (off + owned - off) with owned by lia.
  - by rewrite Hmod, (stride_nil size), app_nil_r by lia.
Qed.

(** A chunk that stands for some owned positions of its span. *)
Definition ownedRows (base size : Z) (c : Chunk) : list Row :=
  omap (λ o, memoryRow (base + o) (size - o)) ((λ j, j + (ch_base c - base)) <$> stride 0 (ch_owned c) (stepOf config)).
Record chunk_ok (ownedLen base size : Z) (c : Chunk) : Prop := {
  co_inside : base ≤ ch_base c ∧ ch_base c + ch_owned c ≤ base + size;
  co_owned : 0 < ch_owned c ≤ ownedLen;
  co_read : ch_readLen c = ch_owned c + Z.min (vs - 1) (base + size - ch_base c - ch_owned c)
}.
Lemma chunkLoop_rows fuel ownedLen base size off : 0 ≤ base → base + size ≤ 2 ^ 64 → 0 < ownedLen → ownedLen mod stepOf config = 0 →
  0 ≤ off ≤ size → size - off ≤ ownedLen * Z.of_nat fuel →
  let chunks := chunkLoop fuel ownedLen (vs - 1) base size off in
  Forall (chunk_ok ownedLen base size) chunks ∧ mjoin (ownedRows base size <$> chunks) = spanRowsFrom base size off ∧ foldr Z.add 0 (ch_owned <$> chunks) = size - off.
Proof using.
  cbv zeta. intros Hb Hw Hlen Hstep Hoff. revert off Hoff. induction fuel as [|fuel IH]; intros off Hoff Hfuel.
  { assert (off = size) as -> by lia. split_and!; [constructor| |cbn; lia]. unfold spanRowsFrom. by rewrite stride_nil by lia. }
  cbn [chunkLoop]. destruct (Z.ltb_spec off size) as [Hlt|Hge].
  - set (owned := Z.min ownedLen (size - off)). destruct (IH (off + owned)) as (Hok' & Hrows & Hsum); [unfold owned; lia|unfold owned; lia|].
    rewrite wrap_small by lia_w. split_and!.
    + apply Forall_cons_2; [|done]. split; cbn; unfold owned; lia.
    + rewrite fmap_cons. change (mjoin (?x :: ?l)) with (x ++ mjoin l). rewrite Hrows. unfold ownedRows. cbn [ch_base ch_owned]. replace (base + off - base) with off by lia.
      symmetry. apply spanRowsFrom_chunk; [lia|unfold owned; lia|unfold owned; lia|]. unfold owned. destruct (Z.min_spec ownedLen (size - off)) as [[? ->]|[? ->]]; [by left|right; lia].
    + cbn. rewrite Hsum. lia.
  - split_and!; [constructor| |cbn; lia]. unfold spanRowsFrom. by rewrite stride_nil by lia.
Qed.
Lemma chunkRows_ret mode t ownedLen base size c : (∀ a n, base ≤ a → 0 ≤ n → a + n ≤ base + size → t_read t a n = bytesAt mem a n) →
  0 ≤ base → base + size ≤ 2 ^ 64 → ownedLen + vs + sc_alignment config < 2 ^ 63 → chunk_ok ownedLen base size c →
  chunkRows mode t config c = Ret (ownedRows base size c).
Proof using Hok Hvs Hmem.
  intros Hread Hb Hw Hsize [[Hin1 Hin2] Hown Hr]. pose proof vs_pos. unfold chunkRows. rewrite Hread by lia. rewrite len_bytesAt by lia.
  destruct (Z.eqb_spec (ch_readLen c) 0); [lia|]. rewrite Z.min_r by lia.
  rewrite (scanRegion_ret mode config vs); [|done|done|by apply bytesAt_ok|rewrite len_bytesAt; lia|rewrite len_bytesAt; lia|rewrite len_bytesAt; lia].
  f_equal. unfold ownedRows. rewrite <- (chunk_reference base size (ch_base c - base) (ch_owned c) (ch_readLen c)) by lia. by replace (base + (ch_base c - base)) with (ch_base c) by lia.
Qed.

(** ** Pages that were never touched *)

(** Spans one after the other between two addresses. *)
Fixpoint ascending (from last : Z) (spans : list (Z * Z)) : Prop :=
  match spans with
  | [] => True
  | p :: spans => from ≤ p.1 < p.2 ∧ p.2 ≤ last ∧ ascending p.2 last spans
  end.
Definition covered (spans : list (Z * Z)) (a : Z) : Prop := ∃ p, p ∈ spans ∧ p.1 ≤ a < p.2.
Section Skip.
Context (base size : Z) (Hstep : vs ≤ stepOf config) (Hbase : base mod stepOf config = 0) (Hzero : ∀ n, 0 ≤ n → recordAt config vs (replicate (Z.to_nat n) 0) = None).
Lemma memoryRow_zero a n : 0 ≤ n → (∀ x, a ≤ x < a + Z.min vs n → mem x = 0) → memoryRow a n = None.
Proof using Hzero Hok Hvs.
  intros Hn Hz. pose proof vs_pos. unfold memoryRow. assert (bytesAt mem a (Z.min vs n) = replicate (Z.to_nat (Z.min vs n)) 0) as ->; [|rewrite Hzero; [done|lia]].
  apply list_eq. intros i. unfold bytesAt. rewrite list_lookup_fmap. destruct (decide (Z.of_nat i < Z.min vs n)).
  - rewrite lookup_seqZ_lt, lookup_replicate_2 by lia. cbn. f_equal. apply Hz. lia.
  - rewrite lookup_seqZ_ge by lia. symmetry. apply lookup_ge_None_2. rewrite length_replicate. lia.
Qed.
Lemma omap_none {A B} (f : A → option B) (l : list A) : (∀ x, x ∈ l → f x = None) → omap f l = [].
Proof using.
  induction l as [|x l IH]; intros H; [done|]. cbn. rewrite (H x) by (by left). apply IH. intros y Hy. apply H. by right.
Qed.
Lemma next_position a e : a < e → a mod stepOf config = 0 → e mod stepOf config = 0 → a + stepOf config ≤ e.
Proof using.
  intros Hlt Ha He. pose proof step_pos. apply Z.mod_divide in Ha as [i ->]; [|lia]. apply Z.mod_divide in He as [j ->]; [|lia]. set (s := stepOf config) in *. apply Z.mul_lt_mono_pos_r in Hlt; [|lia]. pose proof (Z.mul_le_mono_nonneg_r (i + 1) j s ltac:(lia) ltac:(lia)). lia.
Qed.
Lemma skip_rows spans from : base ≤ from ≤ base + size → from mod stepOf config = 0 ∨ from = base + size →
  ascending from (base + size) spans →
  Forall (λ p : Z * Z, p.1 mod stepOf config = 0 ∧ (p.2 = base + size ∨ p.2 mod stepOf config = 0)) spans →
  (∀ a, from ≤ a < base + size → ¬ covered spans a → mem a = 0) →
  spanRowsFrom base size (from - base) = mjoin (spanRows <$> ((λ p : Z * Z, (p.1, p.2 - p.1)) <$> spans)).
Proof using Hok Hvs Hstep Hbase Hzero.
  pose proof vs_pos. pose proof step_pos. revert from. induction spans as [|[b e] spans IH]; intros from Hfrom Hmod Hasc Hal Hz.
  - unfold spanRowsFrom. apply omap_none. intros o Ho%elem_of_stride. apply memoryRow_zero; [lia|]. intros x Hx. apply Hz; [lia|]. intros (p & Hp & _). by apply elem_of_nil in Hp.
  - cbn [ascending fst snd] in Hasc. destruct Hasc as (Hb & He & Hasc). apply Forall_cons_1 in Hal as [[Hbm Hem] Hal]. cbn [fst snd] in Hbm, Hem.
    destruct Hmod as [Hmod|]; [|lia]. assert (∀ x, x mod stepOf config = 0 → (x - base) mod stepOf config = 0) as Hrel.
    { intros x Hx. rewrite Zminus_mod, Hx, Hbase. by rewrite Z.mod_0_l by lia. }
    assert (∀ x y, x mod stepOf config = 0 → y mod stepOf config = 0 → (x - base - (y - base)) mod stepOf config = 0) as Hdiff.
    { intros x y Hx Hy. replace (x - base - (y - base)) with (x - y) by lia. rewrite Zminus_mod, Hx, Hy. by rewrite Z.mod_0_l by lia. }
    unfold spanRowsFrom. rewrite (stride_app _ (b - base) size) by (lia || by apply Hdiff). rewrite omap_app.
    rewrite omap_none; [cbn [app]|].
    2:{ intros o [Ho Hom]%elem_of_stride. assert ((base + o) mod stepOf config = 0) as Hpos.
        { replace (base + o) with (o - (from - base) + from) by lia. rewrite Zplus_mod, Hom, Hmod. by rewrite Z.mod_0_l by lia. }
        pose proof (next_position (base + o) b ltac:(lia) Hpos Hbm). apply memoryRow_zero; [lia|]. intros x Hx. apply Hz; [lia|]. intros ([b' e'] & Hin & Hc). cbn in Hc.
        apply elem_of_cons in Hin as [[= -> ->]|Hin]; [lia|]. assert (e ≤ b'); [|lia]. clear -Hasc Hin. revert e Hasc. induction spans as [|q spans IHs]; intros e Hasc; [by apply elem_of_nil in Hin|].
        cbn in Hasc. destruct Hasc as (Hq & _ & Hasc). apply elem_of_cons in Hin as [<-|Hin]; [cbn in Hq; lia|]. specialize (IHs Hin _ Hasc). lia. }
    set (F := λ o, memoryRow (base + o) (size - o)). assert (omap F (stride (b - base) size (stepOf config)) = spanRows (b, e - b) ++ spanRowsFrom base size (e - base)) as ->.
    { assert (∀ k, 0 ≤ k < e - b → k mod stepOf config = 0 → F (k + (b - base)) = memoryRow (b + k) (e - b - k)) as Hsame.
      { intros k Hk Hkm. unfold F. replace (base + (k + (b - base))) with (b + k) by lia. apply memoryRow_same. destruct Hem as [->|Hem]; [lia|].
        assert ((b + k) mod stepOf config = 0) as Hpos by (rewrite Zplus_mod, Hbm, Hkm; by rewrite Z.mod_0_l by lia).
        pose proof (next_position (b + k) e ltac:(lia) Hpos Hem). lia. }
      assert (stride (b - base) size (stepOf config) = stride (b - base) (e - base) (stepOf config) ++ stride (e - base) size (stepOf config)) as ->.
      { destruct Hem as [->|Hem]; [|apply stride_app; [done|lia|by apply Hdiff]]. replace (base + size - base) with size by lia. by rewrite (stride_nil size), app_nil_r by lia. }
      rewrite omap_app. f_equal. unfold spanRows, spanRowsFrom. cbn [fst snd]. replace (stride (b - base) (e - base) (stepOf config)) with ((λ j, j + (b - base)) <$> stride 0 (e - b) (stepOf config)).
      - rewrite omap_fmap. apply omap_ext_in. intros k [Hk Hkm]%elem_of_stride. rewrite Z.sub_0_r in Hkm. by apply Hsame.
      - rewrite <- stride_shift. f_equal; lia. }
    rewrite (IH e); [done|lia| |done|done|].
    + destruct Hem; [by right|by left].
    + intros a Ha Hnc. apply Hz; [lia|]. intros (q & [->|Hq]%elem_of_cons & Hqa); [cbn in Hqa; lia|]. apply Hnc. by exists q.
Qed.
End Skip.

(** ** The rows are well formed *)

Lemma memoryRow_ok a n r : 0 ≤ a < 2 ^ 64 → 0 < n → memoryRow a n = Some r → row_ok (isAll config) vs r ∧ row_first r = row_value r ∧ row_addr r = a.
Proof using Hok Hvs.
  intros Ha Hn. pose proof vs_pos. unfold memoryRow, recordAt, allMatches. rewrite allTypesMask_ret. fold (isAll config). destruct (isAll config) eqn:Hall.
  - assert (vs = 8) as -> by (apply bool_decide_eq_true_1 in Hall; unfold valueSizeForConfig in Hvs; rewrite Hall in Hvs; by injection Hvs).
    destruct (Z.eqb_spec (tailMask config (bytesAt mem a (Z.min 8 n))) 0) as [|Hm]; [done|]. cbn [fmap option_fmap option_map fst snd]. intros [= <-]. cbn [row_first row_value row_addr].
    destruct (tailMask_valid _ _ Hm) as [Hvalid _].
    assert (len (take 8 (bytesAt mem a (Z.min 8 n)) ++ replicate (Z.to_nat (8 - len (take 8 (bytesAt mem a (Z.min 8 n))))) 0) = 8) as Hl8.
    { pose proof (len_bytesAt mem a (Z.min 8 n) ltac:(lia)) as Hl. unfold len in *. rewrite length_app, length_replicate, length_take. lia. }
    split; [|done]. split; [done|]. cbn. done.
  - rewrite len_bytesAt by lia. destruct (Z.ltb_spec (Z.min vs n) vs); [done|]. destruct (valueTest _ _); [|done]. intros [= <-]. cbn [row_first row_value row_addr fst snd].
    assert (len (take (Z.to_nat vs) (bytesAt mem a (Z.min vs n))) = vs) as Hl.
    { pose proof (len_bytesAt mem a (Z.min vs n) ltac:(lia)) as Hl. unfold len in *. rewrite length_take. lia. }
    split; [|done]. split; [done|]. cbn. done.
Qed.
Lemma spanRows_ok base size : 0 ≤ base → base + size ≤ 2 ^ 64 → Forall (λ r, row_ok (isAll config) vs r ∧ row_first r = row_value r) (spanRows (base, size)).
Proof using Hok Hvs.
  intros Hb Hw. apply Forall_forall. intros r Hr. unfold spanRows, spanRowsFrom in Hr. cbn [fst snd] in Hr. apply list_elem_of_omap in Hr as (o & Ho & Hr).
  apply elem_of_stride in Ho as [Ho _]. destruct (memoryRow_ok (base + o) (size - o) r) as (? & ? & _); [lia|lia|done|done].
Qed.

(** ** Bytes that are all zero *)

Lemma zero_record n : recordAt config vs (replicate (Z.to_nat vs) 0) = None → 0 ≤ n → recordAt config vs (replicate (Z.to_nat n) 0) = None.
Proof using Hok Hvs.
  intros Hz Hn. pose proof vs_pos. destruct (decide (vs ≤ n)).
  { rewrite <- (recordAt_take config vs _ vs) by (done || lia). by rewrite take_replicate, Nat.min_l by lia. }
  revert Hz. unfold recordAt, allMatches. rewrite !allTypesMask_ret. case_bool_decide as Hall.
  - destruct (Z.eqb_spec (tailMask config (replicate (Z.to_nat vs) 0)) 0) as [Hm|]; [|done]. intros _.
    unfold valueSizeForConfig in Hvs. rewrite Hall in Hvs. injection Hvs as <-. by rewrite tailMask_zeros.
  - unfold len. rewrite !length_replicate. intros _. by destruct (Z.ltb_spec (Z.of_nat (Z.to_nat n)) vs); [|lia].
Qed.
End Found.
