(* ===== verification/FirstWorkers.v ===== *)
(** * The workers of the first scan

    The runs of chunks given to the workers cut the list of chunks into consecutive pieces,
    and each worker's result is the writer's for the rows of the chunks it reached. *)

From S2P Require Import Prelude Numeral TargetMachine Types Loops ScanBuffers PatternScan ScanConfig ScanNumber ScanResults NextCompare ScanTarget ScanRegion NextScan FirstScan.
#[local] Open Scope Z_scope.

(** ** Runs *)

(** The part of a list between two indices. *)
Definition between {A} (l : list A) (run : nat * nat) : list A := take (run.2 - run.1) (drop run.1 l).
Lemma runEnd_spec perThread last chunks acc ci :
  (ci ≤ runEnd chunks perThread last acc ci ≤ ci + length chunks)%nat ∧ (last = true → runEnd chunks perThread last acc ci = (ci + length chunks)%nat).
Proof.
  revert acc ci. induction chunks as [|c chunks IH]; intros acc ci; cbn [runEnd length]; [lia|]. destruct (IH (u64 (acc + ch_owned c)) (S ci)) as [Hb Hl].
  destruct ((acc <? perThread) || last) eqn:E; split; try lia.
  - intros H. rewrite Hl by done. lia.
  - intros ->. by rewrite orb_true_r in E.
Qed.
(** The runs are consecutive and reach the last chunk. *)
Lemma partition_spec {A} (chunks : list Chunk) perThread n ci (l : list A) : length l = length chunks → (0 < n)%nat → (ci ≤ length chunks)%nat →
  let runs := partition chunks perThread n ci in
  length runs = n ∧ Forall (λ run : nat * nat, (run.1 ≤ run.2 ≤ length chunks)%nat) runs ∧ mjoin (between l <$> runs) = drop ci l.
Proof.
  cbv zeta. intros Hl. revert ci. induction n as [|n IH]; intros ci Hn Hci; [lia|]. cbn [partition].
  destruct (runEnd_spec perThread (bool_decide (n = 0%nat)) (drop ci chunks) 0 ci) as [Hb Hlast]. rewrite length_drop in Hb, Hlast.
  set (e := runEnd _ _ _ _ _) in *. destruct (decide (n = 0%nat)) as [->|Hne].
  - rewrite Hlast by done. cbn [partition length]. split; [done|]. split; [apply Forall_cons_2; [cbn; lia|constructor]|].
    cbn. rewrite app_nil_r. unfold between. cbn [fst snd]. rewrite take_ge; [done|]. rewrite length_drop. lia.
  - destruct (IH e) as (Hlen & Hf & Hj); [lia|lia|]. split; [cbn; lia|]. split; [apply Forall_cons_2; [cbn; lia|done]|].
    rewrite fmap_cons. change (mjoin (?x :: ?y)) with (x ++ mjoin y). rewrite Hj. unfold between. cbn [fst snd].
    rewrite <- (take_drop (e - ci) (drop ci l)) at 2. rewrite drop_drop. do 2 f_equal. lia.
Qed.

(** ** The rows of a run *)

Section Workers.
Context {lib : Library} (mode : SimdMode) (t : Target) (config : ScanConfig).
Local Notation all := (isAll config).
Local Notation order := (sc_byteOrder config).
Local Notation width := (sc_pointerWidth config).

(** What the chunks of a list give. *)
Definition chunksGive (chunks : list Chunk) (rows : list (list Row)) : Prop := Forall2 (λ c l, chunkRows mode t config c = Ret l) chunks rows.
Lemma chunkWorkerLoop_rows disk stop run rows ci w : chunksGive run rows → ∃ m, (m ≤ length rows)%nat ∧ ((∀ i, stop i = false) → m = length rows) ∧
  chunkWorkerLoop mode t config disk stop run ci w = Ret (writeRows disk all (mjoin (take m rows)) w).
Proof.
  intros H. revert ci w. induction H as [|c l run rows Hc _ IH]; intros ci w; [by exists 0%nat|]. cbn [chunkWorkerLoop]. destruct (stop (Z.of_nat ci)) eqn:Hs.
  { exists 0%nat. split; [lia|]. split; [|done]. intros Hn. by rewrite Hn in Hs. }
  rewrite Hc. cbn [obind]. destruct (IH (S ci) (writeRows disk all l w)) as (m & Hm & Hfull & ->). exists (S m). split; [cbn; lia|]. split; [intros Hn; cbn; by rewrite Hfull|].
  rewrite firstn_cons. change (mjoin (l :: take m rows)) with (l ++ mjoin (take m rows)). by rewrite writeRows_app.
Qed.
Lemma chunksGive_between chunks rows run : chunksGive chunks rows → chunksGive (between chunks run) (between rows run).
Proof. intros H. unfold between. by apply Forall2_take, Forall2_drop. Qed.
Lemma chunkWorker_rows disk stop chunks rows run : chunksGive chunks rows →
  ∃ m, (m ≤ length (between rows run))%nat ∧ ((∀ i, stop i = false) → m = length (between rows run)) ∧
  chunkWorker mode t config disk stop chunks run = Ret (workerResult disk false all order width (mjoin (take m (between rows run)))).
Proof.
  intros H. unfold chunkWorker. destruct (chunkWorkerLoop_rows disk stop (between chunks run) (between rows run) run.1 (startResult disk false all order width) (chunksGive_between _ _ run H)) as (m & Hm & Hfull & E).
  exists m. split; [done|]. split; [done|]. unfold between at 1 in E. unfold startResult in E. cbv zeta in *. rewrite E. done.
Qed.

(** The workers of all the runs. *)
Lemma mjoin_take_sublist (m : nat) (rows : list (list Row)) : sublist (mjoin (take m rows)) (mjoin rows).
Proof. rewrite <- (take_drop m rows) at 2. rewrite join_app. apply sublist_inserts_r. reflexivity. Qed.
Lemma seen_false (rows : list Row) : Forall (λ r, row_first r = row_value r) rows → seen false <$> rows = rows.
Proof. induction 1 as [|r rows Hr _ IH]; [done|]. rewrite fmap_cons, IH. f_equal. unfold seen. destruct r. cbn in *. by subst. Qed.
Lemma chunkWorkers_parts disks stop root chunks rows runs i : chunksGive chunks rows → Forall (λ r, row_first r = row_value r) (mjoin (mjoin (between rows <$> runs))) →
  ∃ workers : list Worker, chunkWorkers mode t config disks stop root chunks runs i = Ret (wk_writer all <$> workers) ∧
    length workers = length runs ∧ (∀ k wk, workers !! k = Some wk → part_ok order width disks root (i + k)%nat wk) ∧
    sublist (mjoin (wk_rows <$> workers)) (mjoin (mjoin (between rows <$> runs))) ∧
    ((∀ i idx, stop i idx = false) → mjoin (wk_rows <$> workers) = mjoin (mjoin (between rows <$> runs))).
Proof.
  intros H. revert i. induction runs as [|run runs IH]; intros i Hfirst; [by exists []|]. cbn [chunkWorkers].
  destruct (chunkWorker_rows (disks i) (stop i) chunks rows run H) as (m & Hm & Hfull & ->). cbn [obind].
  rewrite fmap_cons in *. change (mjoin (?x :: ?y)) with (x ++ mjoin y) in *. rewrite join_app in *. apply Forall_app in Hfirst as [Hf1 Hf2].
  destruct (IH (S i) Hf2) as (workers & -> & Hlen & Hparts & Hsub & Heq). cbn [obind].
  exists (mkWorker (partPath root i) (disks i) false order width (mjoin (take m (between rows run))) :: workers). split; [done|]. split; [cbn; lia|]. split; [|split].
  - intros [|k] wk Hk; [|replace (i + S k)%nat with (S i + k)%nat by lia; by apply Hparts]. injection Hk as <-. rewrite Nat.add_0_r. split; try done.
    apply seen_false. eapply sublist_Forall; [apply mjoin_take_sublist|done].
  - change (mjoin (wk_rows <$> ?w :: workers)) with (wk_rows w ++ mjoin (wk_rows <$> workers)). apply sublist_app; [|done]. apply mjoin_take_sublist.
  - intros Hs. change (mjoin (wk_rows <$> ?w :: workers)) with (wk_rows w ++ mjoin (wk_rows <$> workers)). rewrite Heq by done. f_equal. cbn. by rewrite (Hfull (Hs i)), take_ge.
Qed.
End Workers.
