(* ===== verification/FirstFound.v ===== *)
(** * The first scan finds what there is

    [MemoryScanner::firstScan] against the specification of [FirstRows]: the spans it scans
    are the positions of the regions asked for, and its result holds the rows of those
    spans, whatever the chunks, the pages skipped and the number of workers. *)

From S2P Require Import Prelude Numeral TargetMachine Types Loops ScanBuffers PatternScan ScanConfig ScanNumber ScanResults Floating NextCompare ScanTarget ScanRegion NextScan FirstScan FirstRows FirstWorkers.
#[local] Open Scope Z_scope.

(** ** The spans *)

Section Spans.
Context {lib : Library} (config : ScanConfig).

Definition region_ok (r : MemoryRegion) : Prop := 0 ≤ region_base r ∧ 0 ≤ region_size r.
Lemma gridOf_pos : 1 ≤ gridOf config.
Proof. unfold gridOf. destruct (sc_valueType config); lia. Qed.
Lemma gridStart_spec grid start : 1 ≤ grid → 0 ≤ start < 2 ^ 64 →
  match gridStart grid start with
  | Some s => start ≤ s < 2 ^ 64 ∧ s mod grid = 0 ∧ ∀ a, start ≤ a → a mod grid = 0 → s ≤ a
  | None => ∀ a, start ≤ a < 2 ^ 64 → a mod grid ≠ 0
  end.
Proof.
  intros Hg Hs. unfold gridStart. pose proof (Z.div_mod start grid ltac:(lia)). pose proof (Z.mod_pos_bound start grid ltac:(lia)).
  assert (∀ a, start ≤ a → a mod grid = 0 → start mod grid ≠ 0 → start + (grid - start mod grid) ≤ a) as Hnext.
  { intros a Ha Hm Hne. apply Z.mod_divide in Hm as [k ->]; [|lia]. assert (start / grid < k) by nia. nia. }
  destruct (Z.ltb_spec 1 grid); cbn [andb].
  - destruct (Z.eqb_spec (start mod grid) 0) as [E|E]; cbn [negb]; [split; [lia|]; split; [done|]; lia|].
    destruct (Z.ltb_spec (UINTPTR_MAX - (grid - start mod grid)) start) as [Hov|Hov]; change UINTPTR_MAX with (2 ^ 64 - 1) in Hov.
    + intros a Ha Hm. specialize (Hnext a ltac:(lia) Hm E). lia.
    + split; [lia|]. split; [|intros a Ha Hm; by apply Hnext].
      replace (start + (grid - start mod grid)) with ((start / grid + 1) * grid) by nia. apply Z.mod_mul. lia.
  - assert (grid = 1) as -> by lia. split; [lia|]. split; [apply Z.mod_1_r|lia].
Qed.
(** One region: its span holds the positions on the grid in the region and in the range. *)
Definition inSpan (r : MemoryRegion) (a : Z) : Prop := region_base r ≤ a < region_base r + region_size r.
Definition asked (r : MemoryRegion) (a : Z) : Prop := regionAllowed config r = true ∧ inSpan r a ∧ sc_startAddress config ≤ a ≤ sc_stopAddress config.
Record span_of (r s : MemoryRegion) : Prop := {
  sp_allowed : regionAllowed config r = true;
  sp_type : region_type s = region_type r;
  sp_size : 0 < region_size s;
  sp_inside : region_base r ≤ region_base s ∧ region_base s + region_size s ≤ region_base r + region_size r;
  sp_range : sc_startAddress config ≤ region_base s ∧ region_base s + region_size s - 1 ≤ sc_stopAddress config;
  sp_end : region_base s + region_size s ≤ 2 ^ 64;
  sp_grid : region_base s mod gridOf config = 0;
  sp_first a : asked r a → a mod gridOf config = 0 → inSpan s a;
  sp_start : gridOf config = 1 → region_base s = Z.max (region_base r) (sc_startAddress config)
}.
Lemma clipRegion_spec r : region_ok r → 0 ≤ sc_startAddress config < 2 ^ 64 → 
  match clipRegion config r with
  | inr (Some s) => span_of r s
  | inr None => ∀ a, asked r a → a mod gridOf config ≠ 0
  | inl _ => True
  end.
Proof.
  intros [Hb Hsz] Hstart. unfold clipRegion. destruct (regionAllowed config r) eqn:Hal; cbn [negb orb]; [|intros a [Ha _]; by rewrite Ha in Hal].
  destruct (Z.eqb_spec (region_size r) 0) as [Hz|Hz]; [intros a (_ & Ha & _); unfold inSpan in Ha; lia|].
  destruct (Z.ltb_spec (UINTPTR_MAX - region_base r) (region_size r - 1)) as [|Hov]; [done|]. change UINTPTR_MAX with (2 ^ 64 - 1) in Hov.
  set (start := Z.max (region_base r) (sc_startAddress config)). pose proof (gridStart_spec (gridOf config) start gridOf_pos ltac:(lia)) as Hg.
  assert (∀ a, asked r a → start ≤ a < 2 ^ 64) as Hasked by (intros a (_ & Ha & Hr); unfold inSpan in Ha; lia).
  destruct (gridStart (gridOf config) start) as [s|] eqn:Egs; [|intros a Ha; by apply Hg, Hasked]. destruct Hg as (Hs & Hmod & Hleast).
  assert (u64 (s - region_base r) = s - region_base r) as -> by (apply wrap_small; lia_w).
  destruct (Z.ltb_spec (sc_stopAddress config) s); cbn [orb]; [intros a Ha Hm; pose proof (Hleast a (proj1 (Hasked a Ha)) Hm); destruct Ha as (_ & _ & ?); lia|].
  destruct (Z.leb_spec (region_size r) (s - region_base r)); [intros a Ha Hm; pose proof (Hleast a (proj1 (Hasked a Ha)) Hm); destruct Ha as (_ & Ha & _); unfold inSpan in Ha; lia|].
  set (size := if sc_stopAddress config - s <? region_size r - (s - region_base r) - 1 then sc_stopAddress config - s + 1 else region_size r - (s - region_base r)).
  assert (size = Z.min (sc_stopAddress config - s + 1) (region_size r - (s - region_base r))) as Hsize.
  { unfold size. destruct (Z.ltb_spec (sc_stopAddress config - s) (region_size r - (s - region_base r) - 1)); lia. }
  clearbody size. split; cbn [region_base region_size region_type clipped]; try done; try lia.
  - intros a Ha Hm. pose proof (Hleast a (proj1 (Hasked a Ha)) Hm). destruct Ha as (_ & Ha & Hr). unfold inSpan in *. cbn. lia.
  - intros Eg. rewrite Eg in Egs. unfold gridStart in Egs. change (1 <? 1) with false in Egs. cbn [andb] in Egs. by injection Egs as <-.
Qed.
Lemma scanRegions_elem regions spans : scanRegions config regions = inr spans → 
  (∀ s, s ∈ spans → ∃ r, r ∈ regions ∧ clipRegion config r = inr (Some s)) ∧
  (∀ r, r ∈ regions → ∃ o, clipRegion config r = inr o ∧ ∀ s, o = Some s → s ∈ spans).
Proof.
  revert spans. induction regions as [|r regions IH]; intros spans; cbn [scanRegions]; [intros [= <-]; split; intros ? H; by apply elem_of_nil in H|].
  destruct (clipRegion config r) as [|o] eqn:E; [done|]. destruct (scanRegions config regions) as [|l]; [done|]. intros [= <-]. destruct (IH l eq_refl) as [IH1 IH2]. split.
  - intros s [Hs|Hs]%elem_of_app.
    + exists r. split; [by left|]. destruct o; cbn in Hs; [by apply list_elem_of_singleton in Hs as ->|by apply elem_of_nil in Hs].
    + destruct (IH1 s Hs) as (r' & Hr & Hc). exists r'. split; [by right|done].
  - intros r' [->|Hr]%elem_of_cons.
    + exists o. split; [done|]. intros s ->. apply elem_of_app. left. cbn. by left.
    + destruct (IH2 r' Hr) as (o' & Hc & Ho). exists o'. split; [done|]. intros s Hs. apply elem_of_app. right. by apply Ho.
Qed.
Lemma spans_of regions spans : Forall region_ok regions → 0 ≤ sc_startAddress config < 2 ^ 64 → scanRegions config regions = inr spans →
  ∀ s, s ∈ spans → ∃ r, r ∈ regions ∧ span_of r s.
Proof.
  intros Hok Hstart Hs s Hin. apply scanRegions_elem in Hs as [Hs _]. destruct (Hs s Hin) as (r & Hr & Hc). exists r. split; [done|].
  rewrite Forall_forall in Hok. pose proof (clipRegion_spec r (Hok r Hr) Hstart) as H. by rewrite Hc in H.
Qed.
Lemma spans_exact regions spans : Forall region_ok regions → 0 ≤ sc_startAddress config < 2 ^ 64 → scanRegions config regions = inr spans →
  ∀ a, a mod gridOf config = 0 → (∃ s, s ∈ spans ∧ inSpan s a) ↔ (∃ r, r ∈ regions ∧ asked r a).
Proof.
  intros Hok Hstart Hs a Ha. split.
  - intros (s & Hin & Hspan). destruct (spans_of regions spans Hok Hstart Hs s Hin) as (r & Hr & Hc). exists r. split; [done|].
    destruct Hc. unfold asked, inSpan in *. split; [done|]. lia.
  - intros (r & Hr & Hask). apply scanRegions_elem in Hs as [_ Hs]. destruct (Hs r Hr) as (o & Hc & Ho). rewrite Forall_forall in Hok.
    pose proof (clipRegion_spec r (Hok r Hr) Hstart) as H. rewrite Hc in H. destruct o as [s|]; [|by destruct (H a Hask)]. exists s. split; [by apply Ho|]. by apply (sp_first _ _ H).
Qed.
End Spans.

(** ** The target and its memory *)

Lemma sum_app (l k : list Z) : foldr Z.add 0 (l ++ k) = foldr Z.add 0 l + foldr Z.add 0 k.
Proof. induction l as [|x l IH]; [done|]. cbn. lia. Qed.

Lemma sum_positive {A} (f : A → Z) (l : list A) : Forall (λ x, 0 < f x) l →
  (l = [] ∧ foldr Z.add 0 (f <$> l) = 0) ∨ (l ≠ [] ∧ 0 < foldr Z.add 0 (f <$> l)).
Proof. induction 1 as [|x l Hx _ IH]; [by left|]. right. split; [done|]. cbn in *. destruct IH as [[-> ?]|[? ?]]; [cbn; lia|lia]. Qed.

(** The resident ranges of a span: whole pages, in order; what they leave out is zero. *)
Record resident_ok (pageSize base size : Z) (mem : Z → Z) (spans : list (Z * Z)) : Prop := {
  rs_order : ascending base (base + size) spans;
  rs_pages : Forall (λ p : Z * Z, (p.1 = base ∨ p.1 mod pageSize = 0) ∧ (p.2 = base + size ∨ p.2 mod pageSize = 0)) spans;
  rs_zero a : base ≤ a < base + size → ¬ covered spans a → mem a = 0
}.
Lemma ascending_inside a b spans : ascending a b spans → Forall (λ p : Z * Z, a ≤ p.1 < p.2 ∧ p.2 ≤ b) spans ∧ foldr Z.add 0 ((λ p : Z * Z, p.2 - p.1) <$> spans) ≤ Z.max 0 (b - a).
Proof.
  revert a. induction spans as [|p spans IH]; intros a; [intros _; split; [constructor|cbn; lia]|]. cbn [ascending]. intros (Hp & Hb & Hasc). destruct (IH _ Hasc) as [Hf Hsum]. split.
  - apply Forall_cons_2; [lia|]. eapply Forall_impl; [exact Hf|]. cbn. intros q Hq. lia.
  - cbn. lia.
Qed.
Record scan_input {lib : Library} (t : Target) (config : ScanConfig) (vs pageSize kChunkBytes : Z) (mem : Z → Z) : Prop := {
  si_config : first_ok config;
  si_size : valueSizeForConfig config = Some vs;
  si_start : 0 ≤ sc_startAddress config < 2 ^ 64;
  si_mem x : is_byte (mem x);
  si_regions : Forall region_ok (t_regions t);
  si_read r a n : r ∈ t_regions t → regionAllowed config r = true → region_base r ≤ a → 0 ≤ n → a + n ≤ region_base r + region_size r →
    t_read t a n = bytesAt mem a n;
  si_resident r base size : r ∈ t_regions t → region_type r = MemPrivate → region_base r ≤ base → 0 < size → base + size ≤ region_base r + region_size r →
    resident_ok pageSize base size mem (t_residentRanges t base size);
  (** The sizes leave room for a chunk. *)
  si_room : 0 ≤ kChunkBytes < 2 ^ 61 ∧ sc_alignment config < 2 ^ 61 ∧ 4 * vs < 2 ^ 61;
  (** UTF-16 positions are even from the start of a chunk. *)
  si_even : sc_valueType config = VUnicodeString → ownedLength kChunkBytes (Z.max 1 (sc_alignment config)) mod 2 = 0;
  (** Blocks and binary patterns are not moved onto the grid of their alignment. *)
  si_blocks : sc_valueType config = VGrouped ∨ sc_valueType config = VBinary →
    pageSize mod Z.max 1 (sc_alignment config) = 0 ∧ sc_startAddress config mod Z.max 1 (sc_alignment config) = 0 ∧
    Forall (λ r, region_base r mod Z.max 1 (sc_alignment config) = 0) (t_regions t)
}.

Section Scan.
Context {lib : Library} (mode : SimdMode) (t : Target) (config : ScanConfig) (vs pageSize kChunkBytes : Z) (pagemapDisabled : bool) (probeDisk : Disk) (mem : Z → Z).
Context (Hin : scan_input t config vs pageSize kChunkBytes mem) (Hprobe : ∀ f, disk_open probeDisk f = true).
Let alignment := Z.max 1 (sc_alignment config).
Let ownedLen := ownedLength kChunkBytes alignment.
Local Notation region_rows := (regionRows config vs mem).

Lemma vs_range : 0 < vs < 2 ^ 61.
Proof using Hin. destruct Hin. pose proof (vs_pos config vs si_config0 si_size0). lia. Qed.
Lemma ownedLen_ok : 0 < ownedLen ∧ ownedLen < 2 ^ 62 ∧ ownedLen mod stepOf config = 0.
Proof using Hin.
  destruct Hin. unfold ownedLen, ownedLength. assert (1 ≤ alignment < 2 ^ 61) as Ha by (unfold alignment; lia).
  assert (0 ≤ kChunkBytes / alignment * alignment ≤ kChunkBytes) as Hk.
  { pose proof (Z.mul_div_le kChunkBytes alignment ltac:(lia)). pose proof (Z.div_pos kChunkBytes alignment ltac:(lia) ltac:(lia)). nia. }
  assert (∀ x, x mod alignment = 0 → (sc_valueType config = VUnicodeString → x mod 2 = 0) → x mod stepOf config = 0) as Hstep.
  { intros x Hx Hu. unfold stepOf. destruct (sc_valueType config) eqn:E; try done; by rewrite ?Z.mod_1_r; auto. }
  destruct (Z.eqb_spec (kChunkBytes / alignment * alignment) 0) as [E|E]; (split; [lia|split; [lia|]]); apply Hstep.
  - apply Z.mod_same. lia.
  - intros Hu. specialize (si_even0 Hu). fold alignment in si_even0. unfold ownedLength in si_even0. by rewrite E in si_even0.
  - apply Z.mod_mul. lia.
  - intros Hu. specialize (si_even0 Hu). fold alignment in si_even0. unfold ownedLength in si_even0. by destruct (Z.eqb_spec (kChunkBytes / alignment * alignment) 0).
Qed.

(** *** Skipping pages *)

Lemma probe_rows n : 0 ≤ n < 2 ^ 62 → Forall (row_ok (isAll config) vs) (scanReference config vs (replicate (Z.to_nat n) 0) 4096 n).
Proof using Hin.
  intros Hn. destruct Hin. assert (∀ x : Z, is_byte 0) as Hzero by done. apply Forall_forall. intros r (off & Hoff & Hr)%list_elem_of_omap. apply elem_of_stride in Hoff as [Hoff _].
  enough (memoryRow config vs (λ _, 0) (4096 + off) (n - off) = Some r) as E by (eapply (memoryRow_ok config vs (λ _, 0) si_config0 si_size0 (4096 + off) (n - off)); [lia|lia|exact E]).
  rewrite (memoryRow_record config vs (λ _, 0) si_config0 si_size0) by lia. unfold rowAt in Hr. rewrite wrap_small in Hr by lia_w. rewrite <- Hr. do 2 f_equal.
  assert (∀ a k, bytesAt (λ _, 0) a k = replicate (Z.to_nat k) 0) as Hbytes by (intros a k; unfold bytesAt; rewrite <- (length_seqZ 0 k); by rewrite <- const_fmap with (f := λ _, 0)).
  rewrite Hbytes. unfold from. rewrite drop_replicate. f_equal. lia.
Qed.
Lemma skip_spec : ∃ skip, skipNonResident mode pageSize pagemapDisabled probeDisk config alignment vs = Ret skip ∧
  (skip = true → vs ≤ stepOf config ∧ 0 < pageSize ∧ pageSize mod stepOf config = 0 ∧ sc_valueType config ≠ VCustom ∧ ∀ n, 0 ≤ n → recordAt config vs (replicate (Z.to_nat n) 0) = None).
Proof using Hin Hprobe.
  pose proof vs_range as Hvs. destruct Hin. unfold skipNonResident. cbv zeta. set (stride := if bytewise config then 1 else alignment).
  destruct (negb pagemapDisabled && _ && _) eqn:Hc; [|by exists false]. apply andb_true_iff in Hc as [Hc Hcustom]. apply andb_true_iff in Hc as [_ Hc].
  apply andb_true_iff in Hc as [Hc Hdiv]. apply andb_true_iff in Hc as [Hps Hfit]. apply Z.ltb_lt in Hps. apply Z.leb_le in Hfit. apply Z.eqb_eq in Hdiv.
  apply negb_true_iff, bool_decide_eq_false_1 in Hcustom. unfold probeEmpty. set (n := Z.max (vs * 4) 64). set (zeros := replicate (Z.to_nat n) 0).
  assert (len zeros = n) as Hlen by (unfold len, zeros; rewrite length_replicate; lia).
  rewrite (scanRegion_ret mode config vs); [|done|done|apply Forall_replicate; done|unfold alignment in *; lia|lia|lia]. cbn [obind]. eexists. split; [reflexivity|].
  rewrite Hlen. intros Hcount%Z.eqb_eq. pose proof (written_count probeDisk _ vs _ Hprobe (probe_rows n ltac:(lia)) ltac:(lia) Hcount) as Hnone. fold zeros in Hnone. assert (vs ≤ stepOf config ∧ pageSize mod stepOf config = 0) as [Hstep Hpage].
  { unfold stride, bytewise in Hfit, Hdiv. unfold stepOf. destruct (sc_valueType config) eqn:Hvt; try done.
    - destruct (vs_pos config vs si_config0 si_size0). unfold valueSizeForConfig in si_size0. rewrite Hvt in si_size0. destruct (utf16Bytes _ _); [|done]. cbn in si_size0. injection si_size0 as si_size0. lia.
    - fold alignment. split; [unfold alignment; lia|]. by apply si_blocks0; right. }
  split; [done|]. split; [done|]. split; [done|]. split; [done|]. intros k Hk. apply (zero_record config vs si_config0 si_size0); [|done].
  pose proof (step_pos config). unfold scanReference in Hnone. rewrite stride_cons in Hnone by lia. cbn [omap list_omap] in Hnone. unfold rowAt in Hnone.
  change (from zeros 0) with zeros in Hnone. destruct (recordAt config vs zeros) as [p|] eqn:E; [done|].
  rewrite <- (recordAt_take config vs zeros vs) in E by (done || lia). unfold zeros in E. by rewrite take_replicate, Nat.min_l in E by lia.
Qed.
(** The positions of a span start on the step of the scan when pages may be skipped. *)
Lemma span_step r s : r ∈ t_regions t → span_of config r s → vs ≤ stepOf config → sc_valueType config ≠ VCustom → region_base s mod stepOf config = 0.
Proof using Hin.
  intros Hr Hspan Hstep Hcustom. pose proof vs_range. destruct Hin. pose proof (sp_grid _ _ _ Hspan) as Hg.
  assert ((sc_valueType config = VGrouped ∨ sc_valueType config = VBinary) → region_base s mod Z.max 1 (sc_alignment config) = 0) as Hblock.
  { intros Hb. rewrite (sp_start _ _ _ Hspan) by (unfold gridOf; by destruct Hb as [-> | ->]). destruct (si_blocks0 Hb) as (_ & Hst & Hrs). rewrite Forall_forall in Hrs.
    destruct (Z.max_spec (region_base r) (sc_startAddress config)) as [[_ ->]|[_ ->]]; [done|by apply Hrs]. }
  unfold stepOf, gridOf in *. destruct (sc_valueType config) eqn:E; try (by rewrite Z.max_comm); try apply Z.mod_1_r; try done; auto.
Qed.
Lemma ranges_spec skip r s : r ∈ t_regions t → span_of config r s →
  (skip = true → vs ≤ stepOf config ∧ 0 < pageSize ∧ pageSize mod stepOf config = 0 ∧ sc_valueType config ≠ VCustom ∧ ∀ n, 0 ≤ n → recordAt config vs (replicate (Z.to_nat n) 0) = None) →
  ∃ ranges, regionRanges t skip s = inr ranges ∧ mjoin (spanRows config vs mem <$> ranges) = region_rows s ∧
    Forall (λ p : Z * Z, region_base s ≤ p.1 ∧ 0 < p.2 ∧ p.1 + p.2 ≤ region_base s + region_size s) ranges ∧
    foldr Z.add 0 (snd <$> ranges) ≤ region_size s.
Proof using Hin.
  intros Hr Hspan Hskip. pose proof (sp_size _ _ _ Hspan). unfold regionRanges. destruct (skip && _ && _ && _) eqn:Hc.
  - apply andb_true_iff in Hc as [Hc _]. apply andb_true_iff in Hc as [Hc _]. apply andb_true_iff in Hc as [Hs Hp]. apply bool_decide_eq_true_1 in Hp. rewrite (sp_type _ _ _ Hspan) in Hp.
    destruct (Hskip Hs) as (Hstep & Hps & Hdiv & Hcustom & Hzero). pose proof (span_step r s Hr Hspan Hstep Hcustom) as Hbase.
    destruct (si_resident _ _ _ _ _ _ Hin r (region_base s) (region_size s) Hr Hp) as [Hasc Hpages Hz]; [apply (sp_inside _ _ _ Hspan)|done|apply (sp_inside _ _ _ Hspan)|].
    set (resident := t_residentRanges t (region_base s) (region_size s)) in *. destruct (ascending_inside _ _ _ Hasc) as [Hinside Hsum].
    assert (existsb (λ p : Z * Z, (p.1 <? region_base s) || (p.2 <=? p.1) || (region_base s + region_size s <? p.2)) resident = false) as ->.
    { apply not_true_iff_false. rewrite existsb_exists. intros (p & Hpin & Hpb). apply list_elem_of_In in Hpin. rewrite Forall_forall in Hinside. specialize (Hinside p Hpin).
      destruct (Z.ltb_spec (p.1) (region_base s)), (Z.leb_spec (p.2) (p.1)), (Z.ltb_spec (region_base s + region_size s) (p.2)); done || lia. }
    eexists. split; [reflexivity|]. split; [|split].
    + unfold regionRows, spanRows at 2. cbn [fst snd]. rewrite <- (Z.sub_diag (region_base s)). symmetry.
      apply (skip_rows config vs mem (si_config _ _ _ _ _ _ Hin) (si_size _ _ _ _ _ _ Hin) _ _ Hstep Hbase Hzero); [lia|by left|done| |done].
      assert (∀ x, x mod pageSize = 0 → x mod stepOf config = 0) as Hpg.
      { intros x Hx. pose proof (step_pos config). apply Z.mod_divide; [lia|]. apply Z.mod_divide in Hx; [|lia]. apply Z.mod_divide in Hdiv; [|lia]. by etransitivity. }
      eapply Forall_impl; [exact Hpages|]. cbn. intros p [[->|H1] [H2|H2]]; auto.
    + apply Forall_forall. intros q (p & -> & Hpin)%list_elem_of_fmap. rewrite Forall_forall in Hinside. specialize (Hinside p Hpin). cbn. lia.
    + rewrite <- list_fmap_compose. cbn. change (snd ∘ (λ p : Z * Z, (p.1, p.2 - p.1))) with (λ p : Z * Z, p.2 - p.1). lia.
  - eexists. split; [reflexivity|]. cbn [fmap list_fmap mjoin list_join]. rewrite app_nil_r. split; [done|]. split; [|cbn; lia]. apply Forall_cons_2; [cbn; lia|constructor].
Qed.

(** *** Chunks *)

Definition skipRule (skip : bool) : Prop := skip = true →
  vs ≤ stepOf config ∧ 0 < pageSize ∧ pageSize mod stepOf config = 0 ∧ sc_valueType config ≠ VCustom ∧ ∀ n, 0 ≤ n → recordAt config vs (replicate (Z.to_nat n) 0) = None.
(** The chunks of one range of a span. *)
Lemma rangeChunks_spec r s p : r ∈ t_regions t → span_of config r s → region_base s ≤ p.1 → 0 < p.2 → p.1 + p.2 ≤ region_base s + region_size s → 0 ≤ region_base r →
  let chunks := rangeChunks ownedLen (vs - 1) p in
  ∃ rows, chunksGive mode t config chunks rows ∧ mjoin rows = spanRows config vs mem p ∧ Forall (λ c, 0 < ch_owned c) chunks ∧ foldr Z.add 0 (ch_owned <$> chunks) = p.2.
Proof using Hin.
  cbv zeta. intros Hr Hspan Hp1 Hp2 Hp Hb. pose proof ownedLen_ok as (Hown & Hown' & Hmod). pose proof vs_range. pose proof (sp_end _ _ _ Hspan). pose proof (sp_inside _ _ _ Hspan).
  unfold rangeChunks. destruct (chunkLoop_rows config vs mem (Z.to_nat (p.2 / ownedLen + 1)) ownedLen p.1 p.2 0) as (Hok & Hrows & Hsum); [lia|lia|lia|done|lia| |].
  { pose proof (Z.div_mod p.2 ownedLen ltac:(lia)). pose proof (Z.mod_pos_bound p.2 ownedLen ltac:(lia)). pose proof (Z.div_pos p.2 ownedLen ltac:(lia) ltac:(lia)). lia. }
  set (chunks := chunkLoop _ _ _ _ _ _) in *. exists (ownedRows config vs mem p.1 p.2 <$> chunks). split; [|split; [exact Hrows|split; [|lia]]].
  - unfold chunksGive. apply Forall2_fmap_r, Forall_Forall2_diag. eapply Forall_impl; [exact Hok|]. intros c Hc. destruct Hin.
    apply (chunkRows_ret config vs mem si_config0 si_size0 si_mem0 mode t ownedLen p.1 p.2); [|lia|lia|lia|done].
    intros a n Ha Hn Han. apply (si_read0 r); [done|apply (sp_allowed _ _ _ Hspan)|lia|lia|lia].
  - eapply Forall_impl; [exact Hok|]. intros c [_ Hc _]. lia.
Qed.
Lemma concat_chunks r s ranges : r ∈ t_regions t → span_of config r s → 0 ≤ region_base r →
  Forall (λ p : Z * Z, region_base s ≤ p.1 ∧ 0 < p.2 ∧ p.1 + p.2 ≤ region_base s + region_size s) ranges →
  let chunks := mjoin (rangeChunks ownedLen (vs - 1) <$> ranges) in
  ∃ rows, chunksGive mode t config chunks rows ∧ mjoin rows = mjoin (spanRows config vs mem <$> ranges) ∧ Forall (λ c, 0 < ch_owned c) chunks ∧
    foldr Z.add 0 (ch_owned <$> chunks) = foldr Z.add 0 (snd <$> ranges).
Proof using Hin.
  cbv zeta. intros Hr Hspan Hb. induction 1 as [|p ranges (H1 & H2 & H3) _ (rows & IH1 & IH2 & IH3 & IH4)]; [by exists []; split; [constructor|]|].
  destruct (rangeChunks_spec r s p Hr Hspan H1 H2 H3 Hb) as (rows0 & C1 & C2 & C3 & C4). exists (rows0 ++ rows). rewrite !fmap_cons. change (mjoin (?x :: ?y)) with (x ++ mjoin y).
  split; [by apply Forall2_app|]. rewrite join_app, C2, IH2. split; [done|]. split; [by apply Forall_app|]. rewrite fmap_app, sum_app. cbn [foldr]. lia.
Qed.
(** The chunks of all the spans: their rows are those of the spans. *)
Lemma chunks_spec skip spans : skipRule skip → (∀ s, s ∈ spans → ∃ r, r ∈ t_regions t ∧ span_of config r s) →
  ∃ chunks rows, buildChunks t skip ownedLen (vs - 1) spans = inr chunks ∧ chunksGive mode t config chunks rows ∧
    mjoin rows = mjoin (region_rows <$> spans) ∧ Forall (λ c, 0 < ch_owned c) chunks ∧ foldr Z.add 0 (ch_owned <$> chunks) ≤ foldr Z.add 0 (region_size <$> spans).
Proof using Hin.
  intros Hskip. induction spans as [|s spans IH]; intros Hspans; [exists [], []; split; [done|]; split; [constructor|done]|]. cbn [buildChunks].
  destruct (Hspans s ltac:(by left)) as (r & Hr & Hspan). destruct (ranges_spec skip r s Hr Hspan Hskip) as (ranges & -> & Hrows & Hinside & Hsum).
  destruct IH as (chunks & rows & -> & I1 & I2 & I3 & I4); [intros s' Hs'; apply Hspans; by right|].
  assert (0 ≤ region_base r) as Hb by (destruct Hin; rewrite Forall_forall in si_regions0; apply (si_regions0 r Hr)).
  destruct (concat_chunks r s ranges Hr Hspan Hb Hinside) as (rows0 & C1 & C2 & C3 & C4). exists (mjoin (rangeChunks ownedLen (vs - 1) <$> ranges) ++ chunks), (rows0 ++ rows).
  split; [done|]. split; [by apply Forall2_app|]. rewrite !fmap_cons, join_app, C2, I2, Hrows. split; [done|]. split; [by apply Forall_app|]. rewrite fmap_app, sum_app. cbn [foldr]. lia.
Qed.
End Scan.

(** ** The result *)

Lemma emptyFirst_found {lib : Library} disks mergedDisk stop config vs enable : config_ok config → 0 < vs ≤ SIZE_MAX / 4096 →
  let w := emptyFirst (disks 0%nat) config enable in holdsFound disks mergedDisk stop config vs [] (loadedOf w, w_format w).
Proof.
  cbv zeta. intros Hok Hvs. set (all := enable && isAll config).
  change (emptyFirst (disks 0%nat) config enable) with (workerResult (disks 0%nat) false all (sc_byteOrder config) (sc_pointerWidth config) []). split; cbn [fst snd].
  - intros He. exists []. split; [constructor|]. split; [done|]. split; [|by apply workerResult_format].
    apply (serves_none all). pose proof (loadedOf_ok (disks 0%nat) false all vs (sc_byteOrder config) (sc_pointerWidth config) [] ltac:(constructor) (proj1 Hvs) He) as Hl.
    apply loaded_serves; [exact Hl|lia|by vm_compute].
  - intros _ Hd. apply (workerResult_reliable _ false all vs); [constructor|lia|by apply Hd|apply (ck_width _ Hok)].
Qed.
Lemma totalSpan_spec regions total result : totalSpan regions total = Some result → Forall (λ r, 0 ≤ region_size r) regions → 0 ≤ total ≤ SIZE_MAX →
  result = total + foldr Z.add 0 (region_size <$> regions) ∧ 0 ≤ result ≤ SIZE_MAX.
Proof.
  revert total. induction regions as [|r regions IH]; intros total; cbn [totalSpan]; [intros [= <-]; cbn; lia|].
  destruct (Z.ltb_spec (SIZE_MAX - total) (region_size r)); [done|]. intros E Hs Ht. apply Forall_cons_1 in Hs as [Hr Hs].
  destruct (IH _ E Hs) as [-> Hb]; [lia|]. cbn. lia.
Qed.
Lemma owned_total (chunks : list Chunk) total : Forall (λ c, 0 < ch_owned c) chunks → 0 ≤ total → total + foldr Z.add 0 (ch_owned <$> chunks) ≤ SIZE_MAX →
  foldl (λ total c, u64 (total + ch_owned c)) total chunks = total + foldr Z.add 0 (ch_owned <$> chunks).
Proof.
  intros H. revert total. induction H as [|c chunks Hc Hcs IH]; intros total Ht Hs; [cbn; lia|]. rewrite fmap_cons in *. cbn [foldl foldr] in *.
  assert (0 ≤ foldr Z.add 0 (ch_owned <$> chunks)) as Hn by (destruct (sum_positive _ _ Hcs); lia).
  cbn beta in Hc. change SIZE_MAX with (2 ^ 64 - 1) in *. rewrite wrap_small by lia_w. rewrite IH; lia.
Qed.
Section Results.
Context {lib : Library} (mode : SimdMode) (t : Target) (threadCount : Z) (disks : nat → Disk) (mergedDisk : Disk) (stop : nat → Z → bool) (root : bytes).
Context (Hroot : Forall (λ c, c ≠ 10) root) (Hthreads : 1 ≤ threadCount) (Hlive : lostTarget t = false).

(** The workers and the assembly, over chunks that give some rows. *)
Lemma scanChunks_found config vs chunks rows : config_ok config → 0 < vs ≤ SIZE_MAX / 4096 → chunksGive mode t config chunks rows →
  Forall (λ c, 0 < ch_owned c) chunks → foldr Z.add 0 (ch_owned <$> chunks) ≤ SIZE_MAX →
  Forall (λ r, row_ok (isAll config) vs r ∧ row_first r = row_value r) (mjoin rows) → len (mjoin rows) ≤ SIZE_MAX →
  ∃ result, scanChunks mode t threadCount disks mergedDisk stop root config chunks = Ret (inr result) ∧
    holdsFound disks mergedDisk stop config vs (mjoin rows) result.
Proof using Hroot Hthreads Hlive.
  intros Hok Hvs Hgive Hpos Hsum Hrows Hlen. unfold scanChunks. cbv zeta. rewrite owned_total, Z.add_0_l by (done || lia).
  destruct (sum_positive _ _ Hpos) as [[-> ->]|[Hne Htotal]].
  { apply Forall2_nil_inv_l in Hgive as ->. eexists. split; [reflexivity|]. by apply emptyFirst_found. }
  destruct (Z.eqb_spec (foldr Z.add 0 (ch_owned <$> chunks)) 0) as [|_]; [lia|].
  set (n := Z.min _ _). assert (1 ≤ n) as Hn by (unfold n; destruct (t_concurrent t); lia). set (perThread := Z.max 1 _).
  apply Forall_and in Hrows as [Hrows Hfirst].
  destruct (partition_spec chunks perThread (Z.to_nat n) 0 rows) as (Hruns & _ & Hjoin); [symmetry; by eapply Forall2_length|lia|lia|].
  set (runs := partition chunks perThread (Z.to_nat n) 0) in *. rewrite drop_0 in Hjoin.
  destruct (chunkWorkers_parts mode t config disks stop root chunks rows runs 0 Hgive) as (workers & -> & Hw & Hparts & Hsub & Hfull); [by rewrite Hjoin|].
  rewrite Hjoin in Hsub, Hfull. cbn [obind]. rewrite Hlive. eexists. split; [reflexivity|].
  apply (assembled_found disks mergedDisk stop root Hroot config vs); try done. intros ->. cbn in Hw. lia.
Qed.
End Results.

(** What a first scan needs to reach its workers. *)
Record asksFor {lib : Library} (t : Target) (requested config : ScanConfig) (spans : list MemoryRegion) : Prop := {
  af_target : targetScanConfig t requested = inr config;
  af_compare : firstCompareError config = None;
  af_map : remoteTarget t && bool_decide (t_regions t = []) = false;
  af_regions : scanRegions config (t_regions t) = inr spans;
  af_total : is_Some (totalSpan spans 0);
  af_live : lostTarget t = false
}.
Lemma spansRows_ok {lib : Library} config vs mem (spans : list MemoryRegion) : first_ok config → valueSizeForConfig config = Some vs →
  (∀ s, s ∈ spans → 0 ≤ region_base s ∧ region_base s + region_size s ≤ 2 ^ 64) →
  Forall (λ r, row_ok (isAll config) vs r ∧ row_first r = row_value r) (mjoin (regionRows config vs mem <$> spans)).
Proof.
  intros Hok Hvs Hb. induction spans as [|s spans IH]; [constructor|]. rewrite fmap_cons. change (mjoin (?x :: ?y)) with (x ++ mjoin y). apply Forall_app. split.
  - destruct (Hb s) as [H1 H2]; [by left|]. by apply spanRows_ok.
  - apply IH. intros s' Hs'. apply Hb. by right.
Qed.
Lemma firstScan_found {lib : Library} mode pageSize pagemapDisabled probeDisk t threadCount kChunkBytes disks mergedDisk stop root requested config vs mem spans :
  scan_input t config vs pageSize kChunkBytes mem → asksFor t requested config spans → (∀ f, disk_open probeDisk f = true) →
  1 ≤ threadCount → Forall (λ c, c ≠ 10) root → vs ≤ SIZE_MAX / 4096 → len (mjoin (regionRows config vs mem <$> spans)) ≤ SIZE_MAX →
  ∃ result, firstScan mode pageSize pagemapDisabled probeDisk t threadCount kChunkBytes disks mergedDisk stop root requested = Ret (inr result) ∧
    holdsFound disks mergedDisk stop config vs (mjoin (regionRows config vs mem <$> spans)) result.
Proof.
  intros Hin [Htarget Hcompare Hmap Hregions [total Htotal] Hlive] Hprobe Hthreads Hroot Hvs Hlen. unfold firstScan. rewrite Htarget, Hcompare, Hmap, Hregions, Htotal.
  pose proof (vs_range t config vs pageSize kChunkBytes mem Hin) as Hpos. pose proof Hin as [Hok Hsize Hstart Hmem Hrok _ _ _ _ _].
  assert (∀ s, s ∈ spans → ∃ r, r ∈ t_regions t ∧ span_of config r s) as Hspans by (by apply (spans_of config (t_regions t))).
  assert (∀ s, s ∈ spans → 0 ≤ region_base s ∧ 0 < region_size s ∧ region_base s + region_size s ≤ 2 ^ 64) as Hbounds.
  { intros s (r & Hr & Hspan)%Hspans. rewrite Forall_forall in Hrok. specialize (Hrok r Hr). destruct Hrok, Hspan. lia. }
  destruct (totalSpan_spec spans 0 total Htotal) as [Esum Hmax]; [apply Forall_forall; intros s Hs%Hbounds; lia|by vm_compute|]. rewrite Z.add_0_l in Esum.
  destruct (Z.eqb_spec total 0) as [Hz|_].
  - assert (spans = []) as ->.
    { destruct (sum_positive region_size spans) as [[-> _]|[_ ?]]; [apply Forall_forall; intros s Hs%Hbounds; lia|done|lia]. }
    eexists. split; [reflexivity|]. apply emptyFirst_found; [apply Hok|lia].
  - rewrite Hsize. rewrite (Z.max_r 1 vs) by lia. destruct (skip_spec mode t config vs pageSize kChunkBytes pagemapDisabled probeDisk mem Hin Hprobe) as (skip & -> & Hskip). cbn [obind].
    destruct (chunks_spec mode t config vs pageSize kChunkBytes mem Hin skip spans Hskip Hspans) as (chunks & rows & -> & Hgive & Hrows & Hown & Hsum). rewrite <- Hrows in *.
    apply scanChunks_found; try done; [apply Hok|lia|lia|]. rewrite Hrows. apply spansRows_ok; [done|done|]. intros s Hs%Hbounds. lia.
Qed.


(** Clipping loses nothing and adds nothing: the positions of the spans that lie on the
    scan's grid are those of the regions that pass the protection and type filters, inside
    the range of addresses asked for, both ends included, up to the last address. *)
Theorem scanRegions_exact (config : ScanConfig) regions spans : Forall region_ok regions → 0 ≤ sc_startAddress config < 2 ^ 64 →
  scanRegions config regions = inr spans →
  ∀ a, a mod gridOf config = 0 → (∃ s, s ∈ spans ∧ inSpan s a) ↔ (∃ r, r ∈ regions ∧ asked config r a).
Proof. intros. by apply spans_exact. Qed.

(** ** Examples *)

Definition exampleRegion : MemoryRegion := mkMemoryRegion 4098 26 3 MemPrivate MemCommitted [] None.
Definition exampleTarget (mem : Z → Z) : Target :=
  mkTarget TransportLocal sampleMachine true true [exampleRegion] (bytesAt mem) (λ _ _, []) (λ base size, [(base, base + size)]) true.
Definition exampleConfig (t : ValueType) (rounding decimals int : Z) (float : SpecFloat.spec_float) : ScanConfig :=
  mkScanConfig t OrderUnknown 0 CmpExact 4 4097 UINTPTR_MAX ProtAny ProtAny true true true rounding decimals dzero false dzero dzero
    int 0 float dzero None None [] [] true [] [] [] [] [] 4.
Definition preparedConfig (requested : ScanConfig) : ScanConfig := match targetScanConfig (lib := sampleLibrary) (exampleTarget (λ _, 0)) requested with inr c => c | inl _ => requested end.
Lemma exampleInput mem config chunk : 0 ≤ chunk ≤ 64 → (∀ x, is_byte (mem x)) → first_ok (lib := sampleLibrary) config → valueSizeForConfig (lib := sampleLibrary) config = Some 4 → sc_startAddress config = 4097 → sc_alignment config = 4 →
  sc_valueType config = VInt32 ∨ sc_valueType config = VFloat → scan_input (lib := sampleLibrary) (exampleTarget mem) config 4 4096 chunk mem.
Proof.
  intros Hchunk Hmem Hok Hvs Hs Ha Ht. assert (sc_valueType config ≠ VUnicodeString ∧ sc_valueType config ≠ VGrouped ∧ sc_valueType config ≠ VBinary) as (H1 & H2 & H3) by (split_and!; intros E; rewrite E in Ht; by destruct Ht).
  split; try done; try (by rewrite ?Hs, ?Ha).
  - repeat constructor; done.
  - intros r base size _ _ _ Hsz _. split; cbn [exampleTarget t_residentRanges].
    + cbn. lia.
    + apply Forall_cons_2; [cbn; split; by left|constructor].
    + intros a Hr Hn. destruct Hn. exists (base, base + size). split; [by left|done].
  - rewrite Ha. lia.
  - by intros [|].
Qed.
(** An integer, and a single-precision value near the one asked for, rounded. *)
Definition exampleMemory (a : Z) : Z := if (a =? 4104) || (a =? 4120) then 5 else 0.
Definition exactConfig : ScanConfig := exampleConfig VInt32 0 (-1) 5 dzero.
Lemma exact_ok : first_ok (lib := sampleLibrary) (preparedConfig exactConfig).
Proof.
  split; try done; [split; vm_compute; try done; by right; right|constructor|intros n Hn; injection Hn as <-; constructor|].
  intros n Hn. vm_compute in Hn. injection Hn as <-. split; [constructor|done].
Qed.
Definition floatMemory (a : Z) : Z := if a =? 4106 then 192 else if a =? 4107 then 63 else 0.
Definition roundedConfig : ScanConfig := exampleConfig VFloat 1 0 0 (ratio 12 10).
Lemma rounded_ok : first_ok (lib := sampleLibrary) (preparedConfig roundedConfig).
Proof.
  split; try done; [split; vm_compute; try done; by right; right|constructor|intros n Hn; injection Hn as <-; constructor|].
  intros n Hn. vm_compute in Hn. injection Hn as <-. split; [constructor|done].
Qed.
Definition exampleScan (chunk : Z) (mem : Z → Z) (requested : ScanConfig) : outcome (ScanError + Scanned) :=
  firstScan (lib := sampleLibrary) SSE2 4096 false freeDisk (exampleTarget mem) 2 chunk (λ _, freeDisk) freeDisk (λ _ _, false) (bs "/tmp/scan") requested.
(** A probe whose files are refused counts no rows: pages that were never touched are skipped
    though the search matches zeros, and the result misses them without its error flag. *)
Definition untouchedRegion : MemoryRegion := mkMemoryRegion 65536 kPagemapMinRegion 3 MemPrivate MemCommitted [] None.
Definition untouchedTarget : Target := mkTarget TransportLocal sampleMachine true true [untouchedRegion] (bytesAt (λ _, 0)) (λ _ _, []) (λ _ _, []) true.
Definition untouchedScan (probeDisk : Disk) : outcome (ScanError + Scanned) :=
  firstScan (lib := sampleLibrary) SSE2 4096 false probeDisk untouchedTarget 1 kPagemapMinRegion (λ _, freeDisk) freeDisk (λ _ _, false) (bs "/tmp/scan") (exampleConfig VInt32 0 (-1) 0 dzero).
Definition counted (r : outcome (ScanError + Scanned)) : option (Z * bool) := match r with Ret (inr (result, _)) => Some (ld_count result, ld_writeError result) | _ => None end.
Example refused_probe_skips : counted (untouchedScan (mkDisk (λ _, false) (λ _, None))) = Some (0, false).
Proof. by vm_compute. Qed.
Lemma scanRegions_exact_witness :
  let spans := [clipped exampleRegion 4100 24] in
  scanRegions exactConfig [exampleRegion] = inr spans ∧ ((∃ s, s ∈ spans ∧ inSpan s 4120) ↔ (∃ r, r ∈ [exampleRegion] ∧ asked exactConfig r 4120)).
Proof.
  split; [by vm_compute|]. apply (scanRegions_exact exactConfig [exampleRegion] [clipped exampleRegion 4100 24]); [|done|by vm_compute|by vm_compute].
  repeat constructor; done.
Defined.
