(* ===== verification/Signature.v ===== *)
(** * Code signatures

    Models [src/analysis/signature.cpp]: the byte pattern that finds a code address again.
    The process and the disassembler are parameters: what a read transfers, the regions, and
    the instructions of a stretch of code. *)

From S2P Require Import Prelude Types Loops ScanBuffers PatternScan ScanConfig.
#[local] Open Scope Z_scope.

(** ** Patterns *)

Record PatByte := mkPat { pb_value : Z; pb_wild : bool }.
#[export] Instance PatByte_eq_dec : EqDecision PatByte.
Proof. solve_decision. Defined.
Fixpoint dropWild (pat : list PatByte) : list PatByte :=
  match pat with
  | b :: rest => if pb_wild b then dropWild rest else pat
  | [] => []
  end.
Definition trimmed (pat : list PatByte) : list PatByte := reverse (dropWild (reverse pat)).
(** The inner loop over the pattern. *)
Fixpoint matches (pat : list PatByte) (w : bytes) : bool :=
  match pat, w with
  | [], _ => true
  | b :: pat, c :: w => (pb_wild b || (c =? pb_value b)) && matches pat w
  | _ :: _, [] => false
  end.
(** The loop over the positions of a buffer, with the count and the first match so far; it
    stops after a second one. *)
Fixpoint countFrom (pat : list PatByte) (buffer : bytes) (base : Z) (fuel : nat) (p cnt first : Z) : Z * Z :=
  match fuel with
  | O => (cnt, first)
  | S fuel =>
      if p + len pat <=? len buffer then
        if matches pat (slice buffer p (len pat)) then
          let first := if cnt =? 0 then u64 (base + p) else first in
          if 1 <? cnt + 1 then (cnt + 1, first) else countFrom pat buffer base fuel (p + 1) (cnt + 1) first
        else countFrom pat buffer base fuel (p + 1) cnt first
      else (cnt, first)
  end.
Definition countInBuffer (pat : list PatByte) (buffer : bytes) (base first : Z) : Z * Z :=
  if (len pat =? 0) || (len buffer <? len pat) then (0, first) else countFrom pat buffer base (Z.to_nat (len buffer - len pat + 1)) 0 0 first.
Definition hexUpper (d : Z) : Z := if d <? 10 then "0"%chr + d else "A"%chr + (d - 10).
(** [%02X], or two question marks. *)
Definition byteText (b : PatByte) : bytes := if pb_wild b then bs "??" else [hexUpper (pb_value b / 16); hexUpper (pb_value b mod 16)].
Fixpoint aobText (pat : list PatByte) : bytes :=
  match pat with
  | [] => []
  | [b] => byteText b
  | b :: pat => byteText b ++ [32] ++ aobText pat
  end.
Definition toAob (pat : list PatByte) : bytes := aobText (trimmed pat).

(** ** Instructions *)

(** What the disassembler tells of an instruction. *)
Record Insn := mkInsn {
  in_bytes : bytes; in_ripTarget : Z; in_dispOffset : Z; in_dispSize : Z; in_immOffset : Z; in_immSize : Z; in_memory : bool; in_baseReg : bytes
}.
Definition leAt (b : bytes) (offset n : Z) : outcome Z := let* w := subspan b offset n in Ret (le_val w).
(** The byte [k] of an instruction moves with the module. *)
Definition wildAt (i : Insn) (k : Z) : outcome bool :=
  let ripWild := negb (in_ripTarget i =? 0) in
  let rip := ripWild && negb (in_dispSize i =? 0) && (in_dispOffset i <=? k) && (k <? in_dispOffset i + in_dispSize i) in
  let* absolute :=
    if negb ripWild && (in_dispSize i =? 4) && (in_dispOffset i <=? k) && (k <? in_dispOffset i + 4) then
      let* disp := leAt (in_bytes i) (in_dispOffset i) 4 in
      Ret (in_memory i && bool_decide (in_baseReg i = []) || (65536 <=? disp) && (disp <? 4294901760))
    else Ret false in
  let* imm :=
    if (4 <=? in_immSize i) && (in_immOffset i <=? k) && (k <? in_immOffset i + in_immSize i) then
      let* v := leAt (in_bytes i) (in_immOffset i) (Z.min (in_immSize i) 8) in
      Ret ((65536 <=? v) && (v <=? 140737488355327))
    else Ret false in
  Ret (rip || absolute || imm).
Fixpoint patternLoop (i : Insn) (rest : bytes) (k : Z) : outcome (list PatByte) :=
  match rest with
  | [] => Ret []
  | c :: rest => let* wild := wildAt i k in let* pat := patternLoop i rest (k + 1) in Ret (mkPat c wild :: pat)
  end.

(** ** Searching a process *)

Class SigTarget := {
  st_read : Z → Z → option bytes;
  st_region : Z → option MemoryRegion;
  st_regions : list MemoryRegion;
  st_disassemble : Z → bytes → option (list Insn)  (* none without a decoder for the code there *)
}.
Record SearchRange := mkRange { sr_base : Z; sr_size : Z }.
Record SignatureResult := mkSignature { sg_pattern : bytes; sg_length : Z; sg_unique : bool; sg_moduleWide : bool; sg_incomplete : bool }.
Definition noSignature : SignatureResult := mkSignature [] 0 false false false.

Section Search.
Context {S : SigTarget}.

(** [kChunk]. *)
Definition sigChunk : Z := 16777216.
(** One chunk after the other; [incomplete] is carried along. *)
Fixpoint countChunks (pat : list PatByte) (base size : Z) (fuel : nat) (offset cnt first : Z) (incomplete : bool) : Z * Z * bool :=
  match fuel with
  | O => (cnt, first, incomplete)
  | Datatypes.S fuel =>
      if offset + len pat <=? size then
        let want := Z.min (sigChunk + len pat - 1) (size - offset) in
        match st_read (u64 (base + offset)) want with
        | None => (cnt, first, true)
        | Some buffer =>
            let got := len buffer in
            let incomplete := incomplete || (got <? want) in
            if got <? len pat then (cnt, first, incomplete) else
            let limit := got - len pat + 1 in
            let '(cnt, first) := countFrom pat buffer (u64 (base + offset)) (Z.to_nat limit) 0 cnt first in
            if (1 <? cnt) || (got <? want) then (cnt, first, incomplete) else countChunks pat base size fuel (offset + limit) cnt first incomplete
        end
      else (cnt, first, incomplete)
  end.
Definition countMatches (pat : list PatByte) (base size first : Z) (incomplete : bool) : Z * Z * bool :=
  if (len pat =? 0) || (size <? len pat) then (0, first, incomplete) else countChunks pat base size (Z.to_nat (size / sigChunk + 1)) 0 0 first incomplete.
(** Every range with what is cached of it, when the ranges are cached. *)
Definition cacheRange (r : SearchRange) : bytes := match st_read (sr_base r) (sr_size r) with Some b => take (Z.to_nat (sr_size r)) b | None => [] end.
Definition cacheShort (r : SearchRange) : bool := len (cacheRange r) <? sr_size r.
(** The lambda [count], from a range on. *)
Fixpoint countScope (useCache : bool) (pat : list PatByte) (scope : list SearchRange) (found first : Z) (incomplete : bool) : Z * Z * bool :=
  match scope with
  | [] => (found, first, incomplete)
  | r :: scope =>
      if found <? 2 then
        let '(c, at_, incomplete) := if useCache then (countInBuffer pat (cacheRange r) (sr_base r) 0, incomplete) else countMatches pat (sr_base r) (sr_size r) 0 incomplete in
        countScope useCache pat scope (found + c) (if negb (c =? 0) && (found =? 0) then at_ else first) incomplete
      else (found, first, incomplete)
  end.
(** The loop over the instructions: the pattern, whether it is unique, and what was incomplete. *)
Fixpoint growLoop (useCache : bool) (scope : list SearchRange) (address maxBytes : Z) (insns : list Insn) (pat : list PatByte) (incomplete : bool) : outcome (list PatByte * bool * bool) :=
  match insns with
  | [] => Ret (pat, false, incomplete)
  | i :: insns =>
      let* more := patternLoop i (in_bytes i) 0 in
      let pat := pat ++ more in
      let '(found, first, incomplete) := countScope useCache (trimmed pat) scope 0 0 incomplete in
      if found =? 1 then Ret (pat, first =? address, incomplete)
      else if maxBytes <=? len pat then Ret (pat, false, incomplete)
      else growLoop useCache scope address maxBytes insns pat incomplete
  end.
Definition scopeTotal (scope : list SearchRange) : Z := foldl (λ total r, total + Z.min (sr_size r) (SIZE_MAX - total)) 0 scope.
Definition makeSignatureIn (address : Z) (codeRegion : SearchRange) (scope : list SearchRange) (maxBytes : Z) : outcome SignatureResult :=
  if (sr_size codeRegion =? 0) || (address <? sr_base codeRegion) || (sr_size codeRegion <=? address - sr_base codeRegion) then Ret noSignature else
  let codeOff := address - sr_base codeRegion in
  match st_read address (Z.min (sr_size codeRegion - codeOff) (maxBytes + 16)) with
  | None | Some [] => Ret noSignature
  | Some code =>
      match st_disassemble address code with
      | None => Ret noSignature
      | Some insns =>
          let useCache := scopeTotal scope <=? 134217728 in
          let incomplete := useCache && existsb cacheShort scope in
          let* r := growLoop useCache scope address maxBytes insns [] incomplete in
          let '(pat, unique, incomplete) := r in
          let pat := trimmed pat in
          let '(unique, incomplete) := if unique : bool then (true, incomplete) else
            let '(found, first, incomplete) := countScope useCache pat scope 0 0 incomplete in ((found =? 1) && (first =? address), incomplete) in
          Ret (mkSignature (toAob pat) (len pat) (unique && negb incomplete) false incomplete)
      end
  end.
Definition makeSignatureRegion (address regionBase regionSize maxBytes : Z) : outcome SignatureResult :=
  if (regionSize =? 0) || (UINTPTR_MAX - regionBase <? regionSize - 1) then Ret noSignature
  else makeSignatureIn address (mkRange regionBase regionSize) [mkRange regionBase regionSize] maxBytes.
(** The readable mappings of the file, or the one mapping. *)
Definition moduleScope (region : MemoryRegion) : list SearchRange :=
  if bool_decide (head (region_path region) = Some "/"%chr) then
    (λ r, mkRange (region_base r) (region_size r)) <$> filter (λ r, bytes_eqb (region_path r) (region_path region) && protHas (region_protection r) ProtRead && negb (region_size r =? 0)) st_regions
  else [].
Definition makeSignature (address maxBytes : Z) : outcome SignatureResult :=
  match st_region address with
  | None => Ret noSignature
  | Some region =>
      let scope := moduleScope region in
      let moduleWide := negb (bool_decide (scope = [])) in
      let scope := if moduleWide then scope else [mkRange (region_base region) (region_size region)] in
      let* out := makeSignatureIn address (mkRange (region_base region) (region_size region)) scope maxBytes in
      Ret (mkSignature (sg_pattern out) (sg_length out) (sg_unique out) moduleWide (sg_incomplete out))
  end.
End Search.
