(* ===== verification/SignatureSpec.v ===== *)
(** * Code signatures: what unique means

    A signature that is called unique, read back by the scanner as an array of bytes, is found
    at its address and nowhere else in the memory it was made for. *)

From S2P Require Import Prelude Types Loops ScanBuffers PatternScan ScanConfig Signature.
#[local] Open Scope Z_scope.

(** ** Matches of a buffer *)

Definition hitsFrom (pat : list PatByte) (buffer : bytes) (base p : Z) : list Z :=
  (λ q, u64 (base + q)) <$> filter (λ q, matches pat (slice buffer q (len pat)) = true) (seqZ p (len buffer - len pat + 1 - p)).
(** What the counters become with these matches. *)
Fixpoint tally (cnt first : Z) (hits : list Z) : Z * Z :=
  match hits with
  | [] => (cnt, first)
  | h :: hits => let first := if cnt =? 0 then h else first in if 1 <? cnt + 1 then (cnt + 1, first) else tally (cnt + 1) first hits
  end.
Lemma tally_app cnt first h k : 0 ≤ cnt ≤ 1 → tally cnt first (h ++ k) = let '(c, f) := tally cnt first h in if 1 <? c then (c, f) else tally c f k.
Proof.
  revert cnt first. induction h as [|a h IH]; intros cnt first Hc; cbn [tally app]; [by rewrite (proj2 (Z.ltb_ge 1 cnt)) by lia|].
  destruct (Z.ltb_spec 1 (cnt + 1)); [by rewrite (proj2 (Z.ltb_lt 1 (cnt + 1))) by lia|]. apply IH. lia.
Qed.
Lemma tally_range cnt first h : 0 ≤ cnt ≤ 1 → 0 ≤ (tally cnt first h).1 ≤ 2.
Proof. revert cnt first. induction h as [|a h IH]; intros cnt first Hc; cbn [tally]; [cbn; lia|]. destruct (Z.ltb_spec 1 (cnt + 1)); [cbn; lia|]. apply IH. lia. Qed.
Lemma hitsFrom_cons pat buffer base p : 0 ≤ p → p + len pat ≤ len buffer →
  hitsFrom pat buffer base p = (if matches pat (slice buffer p (len pat)) then [u64 (base + p)] else []) ++ hitsFrom pat buffer base (p + 1).
Proof.
  intros Hp Hl. unfold hitsFrom. rewrite seqZ_cons by lia. replace (Z.succ p) with (p + 1) by lia. replace (Z.pred (len buffer - len pat + 1 - p)) with (len buffer - len pat + 1 - (p + 1)) by lia.
  rewrite filter_cons. destruct (decide (matches pat (slice buffer p (len pat)) = true)) as [E|E]; [by rewrite E|]. by apply not_true_is_false in E as ->.
Qed.
Lemma hitsFrom_nil pat buffer base p : len buffer < p + len pat → hitsFrom pat buffer base p = [].
Proof. intros H. unfold hitsFrom. by rewrite seqZ_nil by lia. Qed.
Lemma countFrom_tally pat buffer base fuel p cnt first : 0 ≤ p → 0 ≤ cnt ≤ 1 → len buffer - len pat + 1 - p ≤ Z.of_nat fuel →
  countFrom pat buffer base fuel p cnt first = tally cnt first (hitsFrom pat buffer base p).
Proof.
  revert p cnt first. induction fuel as [|fuel IH]; intros p cnt first Hp Hc Hf; cbn [countFrom]; [by rewrite hitsFrom_nil by lia|].
  destruct (Z.leb_spec (p + len pat) (len buffer)) as [Hl|Hl]; [|by rewrite hitsFrom_nil by lia]. rewrite hitsFrom_cons by lia.
  destruct (matches pat (slice buffer p (len pat))); cbn [app tally]; [|by rewrite IH by lia]. destruct (Z.ltb_spec 1 (cnt + 1)); [done|]. by rewrite IH by lia.
Qed.

(** A count and a first match agree with all the matches. *)
Definition agrees (found first : Z) (hits : list Z) : Prop := found = 0 ∧ hits = [] ∨ found = 1 ∧ hits = [first] ∨ 2 ≤ found ∧ (2 ≤ length hits)%nat.
Lemma tally_agrees first hits : agrees (tally 0 first hits).1 (tally 0 first hits).2 hits.
Proof. unfold agrees. destruct hits as [|a [|b hits]]; cbn; [by left|right; left; done|right; right; split; [done|lia]]. Qed.
Lemma agrees_app found first h c f k : agrees found first h → agrees c f k → agrees (found + c) (if negb (c =? 0) && (found =? 0) then f else first) (h ++ k).
Proof.
  unfold agrees. rewrite length_app. intros [[-> ->]|[[-> ->]|[H1 H2]]] [[-> ->]|[[-> ->]|[K1 K2]]]; cbn; first [by left|right; left; done|right; right; cbn in *; lia].
Qed.

(** ** The search *)

(** What the code relies on: reads give the bytes of memory, and the operand fields of an
    instruction lie in its bytes. *)
Class SigLaws (S : SigTarget) := {
  sig_mem : Z → Z;
  sig_byte a : is_byte (sig_mem a);
  sig_read a n b : st_read a n = Some b → len b ≤ n ∧ b = bytesAt sig_mem a (len b);
  sig_disassemble a code insns : st_disassemble a code = Some insns → Forall (λ i, bytes_ok (in_bytes i) ∧ 0 ≤ in_dispOffset i ∧ in_dispOffset i + in_dispSize i ≤ len (in_bytes i) ∧
    0 ≤ in_immOffset i ∧ in_immOffset i + in_immSize i ≤ len (in_bytes i)) insns
}.
Section Unique.
Context {S : SigTarget} {L : SigLaws S}.

Definition rangeOk (r : SearchRange) : Prop := 0 ≤ sr_base r ∧ 0 ≤ sr_size r ∧ sr_base r + sr_size r ≤ 2 ^ 64.
Definition rangeBytes (r : SearchRange) : bytes := bytesAt sig_mem (sr_base r) (sr_size r).
Definition rangeHits (pat : list PatByte) (r : SearchRange) : list Z := hitsFrom pat (rangeBytes r) (sr_base r) 0.
Lemma u64_small a : 0 ≤ a < 2 ^ 64 → u64 a = a.
Proof using. intros H. by apply wrap_small. Qed.
(** The matches from [offset] on begin with those of a chunk. *)
Lemma hits_chunk pat r offset n : rangeOk r → 0 < len pat → 0 ≤ offset → len pat ≤ n → offset + n ≤ sr_size r →
  hitsFrom pat (rangeBytes r) (sr_base r) offset = hitsFrom pat (bytesAt sig_mem (sr_base r + offset) n) (sr_base r + offset) 0 ++ hitsFrom pat (rangeBytes r) (sr_base r) (offset + (n - len pat + 1)).
Proof using.
  intros (H1 & H2 & H3) Hp Ho Hn Hs. unfold hitsFrom. unfold rangeBytes. rewrite !len_bytesAt by lia.
  replace (sr_size r - len pat + 1 - offset) with ((n - len pat + 1) + (sr_size r - len pat + 1 - (offset + (n - len pat + 1)))) by lia. rewrite seqZ_app by lia. rewrite filter_app, fmap_app. f_equal.
  replace (n - len pat + 1 - 0) with (n - len pat + 1) by lia. assert (E : seqZ offset (n - len pat + 1) = Z.add offset <$> seqZ 0 (n - len pat + 1)) by (rewrite fmap_add_seqZ; f_equal; lia). rewrite E. clear - Hp Ho Hs.
  assert (H : Forall (λ q, 0 ≤ q < n - len pat + 1) (seqZ 0 (n - len pat + 1))) by (apply Forall_forall; intros q Hq%elem_of_seqZ; lia).
  revert H. generalize (seqZ 0 (n - len pat + 1)) as qs. induction qs as [|q qs IH]; intros H; [done|]. apply Forall_cons in H as [Hq H]. specialize (IH H). cbn [fmap list_fmap]. rewrite !filter_cons.
  rewrite !slice_bytesAt by lia. replace (sr_base r + (offset + q)) with (sr_base r + offset + q) by lia.
  destruct (decide _); cbn [fmap list_fmap]; [|exact IH]. f_equal; [f_equal; lia|exact IH].
Qed.
Lemma countChunks_tally pat r fuel offset cnt first c f : rangeOk r → 0 < len pat → 0 ≤ offset → 0 ≤ cnt ≤ 1 → sr_size r - offset < sigChunk * Z.of_nat fuel ∨ sr_size r < offset + len pat →
  countChunks pat (sr_base r) (sr_size r) fuel offset cnt first false = (c, f, false) → tally cnt first (hitsFrom pat (rangeBytes r) (sr_base r) offset) = (c, f).
Proof using L.
  intros Hr Hp. revert offset cnt first. pose proof Hr as (H1 & H2 & H3). induction fuel as [|fuel IH]; intros offset cnt first Ho Hc Hf H; cbn [countChunks] in H.
  - injection H as <- <-. rewrite hitsFrom_nil; [done|]. unfold rangeBytes. rewrite len_bytesAt by lia. lia.
  - destruct (Z.leb_spec (offset + len pat) (sr_size r)) as [Hl|Hl]; [|injection H as <- <-; rewrite hitsFrom_nil; [done|unfold rangeBytes; rewrite len_bytesAt by lia; lia]].
    set (want := Z.min (sigChunk + len pat - 1) (sr_size r - offset)) in *. rewrite u64_small in H by lia. destruct (st_read _ want) as [buffer|] eqn:Hread; [|done]. apply sig_read in Hread as [R1 R2].
    cbn [orb] in H. destruct (Z.ltb_spec (len buffer) want) as [Hs|Hs].
    { destruct (len buffer <? len pat); [done|]. destruct (countFrom _ _ _ _ _ _ _) as [c1 f1]. by rewrite orb_true_r in H. }
    assert (El : len buffer = want) by lia. rewrite El in *. assert (Hw : len pat ≤ want) by (unfold want, sigChunk; lia). rewrite (proj2 (Z.ltb_ge want (len pat))) in H by lia.
    rewrite countFrom_tally in H by (rewrite ?El; lia). rewrite (hits_chunk pat r offset want) by (unfold want; lia || done). rewrite <- R2. rewrite tally_app by done.
    pose proof (tally_range cnt first (hitsFrom pat buffer (sr_base r + offset) 0) Hc). destruct (tally cnt first _) as [c1 f1]. cbn [fst] in *. rewrite orb_false_r in H. destruct (Z.ltb_spec 1 c1); [by injection H as <- <-|].
    apply IH; [lia|lia| |done]. unfold want, sigChunk in *. lia.
Qed.
Lemma countChunks_incomplete pat base size fuel offset cnt first inc : (countChunks pat base size fuel offset cnt first inc).2 = false → inc = false.
Proof using.
  revert offset cnt first inc. induction fuel as [|fuel IH]; intros offset cnt first inc; cbn [countChunks]; [done|]. destruct (_ <=? size); [|done]. destruct (st_read _ _) as [b|]; [|done].
  destruct (len b <? len pat); [cbn; by intros [? _]%orb_false_iff|]. destruct (countFrom _ _ _ _ _ _ _) as [c f]. destruct (_ || _); [cbn; by intros [? _]%orb_false_iff|]. by intros [? _]%IH%orb_false_iff.
Qed.
Lemma countMatches_incomplete pat base size first inc : (countMatches pat base size first inc).2 = false → inc = false.
Proof using. unfold countMatches. destruct (_ || _); [done|]. apply countChunks_incomplete. Qed.
Lemma countScope_incomplete useCache pat scope found first inc : (countScope useCache pat scope found first inc).2 = false → inc = false.
Proof using.
  revert found first inc. induction scope as [|r scope IH]; intros found first inc; cbn [countScope]; [done|]. destruct (found <? 2); [|done].
  destruct useCache; [destruct (countInBuffer _ _ _ _); apply IH|]. pose proof (countMatches_incomplete pat (sr_base r) (sr_size r) 0 inc) as Hm. destruct (countMatches _ _ _ _ _) as [[c1 f1] inc1]. intros H%IH. by apply Hm.
Qed.
Lemma dropWild_Forall P pat : Forall P pat → Forall P (dropWild pat).
Proof using. induction 1 as [|b t Hb Ht IH]; [by apply Forall_nil|]. cbn. destruct (pb_wild b); [done|by apply Forall_cons]. Qed.
Lemma trimmed_Forall P pat : Forall P pat → Forall P (trimmed pat).
Proof using. intros H. unfold trimmed. apply Forall_reverse, dropWild_Forall. by apply Forall_reverse. Qed.
Lemma trimmed_idemp pat : trimmed (trimmed pat) = trimmed pat.
Proof using. unfold trimmed. rewrite reverse_involutive. f_equal. generalize (reverse pat). intros t. induction t as [|b t IH]; [done|]. cbn. destruct (pb_wild b) eqn:E; [done|]. cbn. by rewrite E. Qed.
Lemma countMatches_agrees pat r first inc c f : rangeOk r → 0 < len pat → countMatches pat (sr_base r) (sr_size r) first inc = (c, f, false) → inc = false ∧ agrees c f (rangeHits pat r).
Proof using L.
  intros Hr Hp H. unfold countMatches in H. rewrite (proj2 (Z.eqb_neq (len pat) 0)) in H by lia. pose proof Hr as (H1 & H2 & H3). cbn [orb] in H. unfold rangeHits. destruct (Z.ltb_spec (sr_size r) (len pat)) as [Hl|Hl].
  - injection H as <- <- ->. split; [done|]. rewrite hitsFrom_nil by (unfold rangeBytes; rewrite len_bytesAt; lia). by left.
  - pose proof (countChunks_incomplete pat (sr_base r) (sr_size r) (Z.to_nat (sr_size r / sigChunk + 1)) 0 0 first inc) as Hi. rewrite H in Hi. specialize (Hi eq_refl). subst inc. split; [done|].
    apply countChunks_tally in H; [|done..|]; [|left; unfold sigChunk; pose proof (Z.div_mod (sr_size r) 16777216 ltac:(done)); pose proof (Z.mod_pos_bound (sr_size r) 16777216 ltac:(done)); pose proof (Z.div_pos (sr_size r) 16777216); rewrite Z2Nat.id; lia].
    pose proof (tally_agrees first (hitsFrom pat (rangeBytes r) (sr_base r) 0)) as Ha. by rewrite H in Ha.
Qed.
Lemma cached_agrees pat r : rangeOk r → 0 < len pat → cacheShort r = false → let '(c, f) := countInBuffer pat (cacheRange r) (sr_base r) 0 in agrees c f (rangeHits pat r).
Proof using L.
  intros (H1 & H2 & H3) Hp Hs. unfold cacheShort in Hs. apply Z.ltb_ge in Hs. assert (E : cacheRange r = rangeBytes r).
  { unfold cacheRange in *. destruct (st_read _ _) as [b|] eqn:Hr; [|rewrite len_nil in Hs; assert (E : sr_size r = 0) by lia; unfold rangeBytes; by rewrite E]. apply sig_read in Hr as [R1 R2]. rewrite R2 at 1. unfold len in *. rewrite length_take in Hs. unfold rangeBytes. rewrite take_ge; [f_equal; lia|].
    pose proof (len_bytesAt sig_mem (sr_base r) (Z.of_nat (length b)) ltac:(lia)). unfold len in *. lia. }
  rewrite E. unfold rangeHits, countInBuffer. rewrite (proj2 (Z.eqb_neq (len pat) 0)) by lia. cbn [orb]. destruct (Z.ltb_spec (len (rangeBytes r)) (len pat)); [rewrite hitsFrom_nil by lia; by left|].
  rewrite countFrom_tally by lia. pose proof (tally_agrees 0 (hitsFrom pat (rangeBytes r) (sr_base r) 0)) as Ha. by destruct (tally 0 0 _).
Qed.
Lemma countScope_agrees useCache pat scope found first inc h c f : Forall rangeOk scope → 0 < len pat → (useCache = true → existsb cacheShort scope = false) → agrees found first h →
  countScope useCache pat scope found first inc = (c, f, false) → inc = false ∧ (c = 1 → agrees c f (h ++ mjoin (rangeHits pat <$> scope))).
Proof using L.
  intros Hr Hp. revert found first inc h. induction Hr as [|r scope Hr Hrs IH]; intros found first inc h Hcache Hag H; cbn [countScope] in H.
  - injection H as <- <- ->. cbn. by rewrite app_nil_r.
  - destruct (Z.ltb_spec found 2) as [Hf|Hf]; [|injection H as <- <- ->; split; [done|lia]].
    assert (Hcs : useCache = true → cacheShort r = false ∧ existsb cacheShort scope = false) by (intros E; specialize (Hcache E); cbn in Hcache; by apply orb_false_iff in Hcache).
    assert (Step : ∀ c1 f1 inc1, countScope useCache pat scope (found + c1) (if negb (c1 =? 0) && (found =? 0) then f1 else first) inc1 = (c, f, false) → (inc1 = false → agrees c1 f1 (rangeHits pat r)) → inc1 = false ∧ (c = 1 → agrees c f (h ++ mjoin (rangeHits pat <$> r :: scope)))).
    { intros c1 f1 inc1 H1 Ha1. destruct inc1.
      { pose proof (countScope_incomplete useCache pat scope (found + c1) (if negb (c1 =? 0) && (found =? 0) then f1 else first) true) as Hn. rewrite H1 in Hn. by specialize (Hn eq_refl). }
      split; [done|]. intros Hc1. apply IH with (h := h ++ rangeHits pat r) in H1 as [_ H1]; [|by intros E; apply Hcs|by apply agrees_app; [|apply Ha1]]. cbn. rewrite app_assoc. by apply H1. }
    destruct useCache.
    + pose proof (cached_agrees pat r Hr Hp (proj1 (Hcs eq_refl))) as Ha. destruct (countInBuffer _ _ _ _) as [c1 f1]. by apply (Step c1 f1 inc).
    + destruct (countMatches _ _ _ _ _) as [[c1 f1] inc1] eqn:Hm. destruct inc1; [destruct (Step c1 f1 true H); done|]. apply countMatches_agrees in Hm as [-> Ha]; [|done..]. by apply (Step c1 f1 false).
Qed.

(** ** The result *)

Lemma countScope_empty useCache scope first inc : (countScope useCache [] scope 0 first inc).1.1 = 0.
Proof using. revert first inc. induction scope as [|r scope IH]; intros first inc; cbn [countScope]; [done|]. destruct useCache; cbn; apply IH. Qed.
Lemma unique_hits useCache pat scope inc address : Forall rangeOk scope → (useCache = true → inc = false → existsb cacheShort scope = false) → countScope useCache pat scope 0 0 inc = (1, address, false) →
  inc = false ∧ pat ≠ [] ∧ mjoin (rangeHits pat <$> scope) = [address].
Proof using L.
  intros Hr Hc H. destruct pat as [|b pat]; [pose proof (countScope_empty useCache scope 0 inc) as E; by rewrite H in E|].
  assert (Hi : inc = false) by (pose proof (countScope_incomplete useCache (b :: pat) scope 0 0 inc) as Hn; rewrite H in Hn; by apply Hn).
  split; [done|]. split; [done|]. eapply (countScope_agrees _ _ _ _ _ _ []) in H as [_ H]; [|done|rewrite len_cons; pose proof (len_nonneg pat); lia|by intros; apply Hc|by left].
  destruct (H eq_refl) as [[? _]|[[_ E]|[? _]]]; [done|exact E|lia].
Qed.
Definition patOk (pat : list PatByte) : Prop := Forall (λ b, is_byte (pb_value b)) pat.
Definition insnOk (i : Insn) : Prop := bytes_ok (in_bytes i) ∧ 0 ≤ in_dispOffset i ∧ in_dispOffset i + in_dispSize i ≤ len (in_bytes i) ∧ 0 ≤ in_immOffset i ∧ in_immOffset i + in_immSize i ≤ len (in_bytes i).
Lemma leAt_defined b offset n : 0 ≤ offset → 0 ≤ n → offset + n ≤ len b → ∃ v, leAt b offset n = Ret v.
Proof using. intros H1 H2 H3. unfold leAt. destruct (subspan_defined b offset n H1 H2 H3) as [-> _]. by eexists. Qed.
Lemma wildAt_defined i k : insnOk i → ∃ w, wildAt i k = Ret w.
Proof using.
  intros (H1 & H2 & H3 & H4 & H5). unfold wildAt. destruct (negb _ && (in_dispSize i =? 4) && _ && _) eqn:E1.
  - apply andb_true_iff in E1 as [E1 _]. apply andb_true_iff in E1 as [E1 _]. apply andb_true_iff in E1 as [_ E1]. apply Z.eqb_eq in E1. destruct (leAt_defined (in_bytes i) (in_dispOffset i) 4) as [v ->]; [lia..|]. cbn [obind].
    destruct (_ && _ && _) eqn:E2; [|by eexists]. destruct (leAt_defined (in_bytes i) (in_immOffset i) (Z.min (in_immSize i) 8)) as [u ->]; bool_to_prop; [lia..|]. by eexists.
  - cbn [obind]. destruct (_ && _ && _) eqn:E2 in |- *; [|by eexists]. destruct (leAt_defined (in_bytes i) (in_immOffset i) (Z.min (in_immSize i) 8)) as [u ->]; [lia|clear E1; bool_to_prop; lia|lia|]. by eexists.
Qed.
Lemma patternLoop_ok i rest k : insnOk i → bytes_ok rest → ∃ pat, patternLoop i rest k = Ret pat ∧ patOk pat.
Proof using.
  intros Hi. revert k. induction rest as [|c rest IH]; intros k Hr; cbn [patternLoop]; [exists []; split; [done|by apply Forall_nil]|]. apply Forall_cons in Hr as [Hc Hr].
  destruct (wildAt_defined i k Hi) as [w ->]. destruct (IH (k + 1) Hr) as (pat & -> & Hp). exists (mkPat c w :: pat). split; [done|]. by apply Forall_cons.
Qed.
Lemma growLoop_spec useCache scope address maxBytes insns pat inc : Forall rangeOk scope → Forall insnOk insns → patOk pat → (useCache = true → inc = false → existsb cacheShort scope = false) →
  ∃ pat' unique inc', growLoop useCache scope address maxBytes insns pat inc = Ret (pat', unique, inc') ∧ patOk pat' ∧ (inc' = false → (useCache = true → existsb cacheShort scope = false) ∧ (unique = true → trimmed pat' ≠ [] ∧ mjoin (rangeHits (trimmed pat') <$> scope) = [address])).
Proof using L.
  intros Hr Hi. revert pat inc. induction Hi as [|i insns Hi His IH]; intros pat inc Hp Hc; cbn [growLoop]; [exists pat, false, inc; split_and!; [done|done|]; intros E; split; [by intros; apply Hc|done]|].
  destruct (patternLoop_ok i (in_bytes i) 0 Hi (proj1 Hi)) as (more & -> & Hm). cbn [obind]. assert (Hp' : patOk (pat ++ more)) by by apply Forall_app.
  destruct (countScope useCache (trimmed (pat ++ more)) scope 0 0 inc) as [[found first] inc'] eqn:Hcount.
  assert (Hmono : inc' = false → inc = false) by (pose proof (countScope_incomplete useCache (trimmed (pat ++ more)) scope 0 0 inc) as Hn; rewrite Hcount in Hn; exact Hn).
  destruct (Z.eqb_spec found 1) as [->|Hf]; [|destruct (Z.leb_spec maxBytes (len (pat ++ more)))].
  - exists (pat ++ more), (first =? address), inc'. split_and!; [done|done|]. intros ->. split; [intros E; apply Hc; auto|]. intros ->%Z.eqb_eq. apply unique_hits in Hcount as (_ & ? & ?); [done|done|]. intros E1 E2. by apply Hc.
  - exists (pat ++ more), false, inc'. split_and!; [done|done|]. intros ->. split; [intros E; apply Hc; auto|done].
  - destruct (IH (pat ++ more) inc' Hp') as (pat' & unique & inc'' & H1 & H2 & H3); [intros E1 E2; apply Hc; auto|]. exists pat', unique, inc''. split; [exact H1|done].
Qed.

(** [makeSignatureIn]: what it calls unique matches once. *)
Definition matchesOnce (address : Z) (scope : list SearchRange) (out : SignatureResult) : Prop :=
  ∃ pat, sg_pattern out = toAob pat ∧ sg_length out = len pat ∧ trimmed pat = pat ∧ patOk pat ∧ pat ≠ [] ∧ mjoin (rangeHits pat <$> scope) = [address].
Lemma makeSignatureIn_spec address codeRegion scope maxBytes : Forall rangeOk scope →
  ∃ out, makeSignatureIn address codeRegion scope maxBytes = Ret out ∧ (sg_unique out = true → matchesOnce address scope out).
Proof using L.
  intros Hr. assert (None_ok : ∃ out, Ret noSignature = Ret out ∧ (sg_unique out = true → matchesOnce address scope out)) by by eexists.
  unfold makeSignatureIn. destruct (_ || _ || _); [done|]. cbn zeta. destruct (st_read _ _) as [[|c code]|]; [done| |done]. destruct (st_disassemble _ _) as [insns|] eqn:Hd; [|done]. apply sig_disassemble in Hd. clear None_ok.
  set (useCache := scopeTotal scope <=? 134217728).
  destruct (growLoop_spec useCache scope address maxBytes insns [] (useCache && existsb cacheShort scope) Hr Hd (Forall_nil_2 _)) as (pat & unique & inc & -> & Hp & H); [intros ->; by destruct (existsb _ _)|]. cbn [obind].
  apply trimmed_Forall in Hp. destruct unique.
  - eexists. split; [done|]. cbn. destruct inc; [done|]. intros _. destruct (H eq_refl) as [_ H']. destruct (H' eq_refl) as [H1 H2]. exists (trimmed pat). by rewrite trimmed_idemp.
  - destruct (countScope useCache (trimmed pat) scope 0 0 inc) as [[found first] inc'] eqn:Hcount. eexists. split; [done|]. cbn. destruct inc'; [by rewrite andb_false_r|]. rewrite andb_true_r. intros [->%Z.eqb_eq ->%Z.eqb_eq]%andb_true_iff.
    assert (Hi : inc = false) by (pose proof (countScope_incomplete useCache (trimmed pat) scope 0 0 inc) as Hn; rewrite Hcount in Hn; by apply Hn). apply unique_hits in Hcount as (_ & H1 & H2); [|done|intros E _; by apply H].
    exists (trimmed pat). by rewrite trimmed_idemp.
Qed.

(** ** The text *)

Definition valuesOf (pat : list PatByte) : bytes := (λ b, if pb_wild b then 0 else pb_value b) <$> pat.
Definition masksOf (pat : list PatByte) : bytes := (λ b, if pb_wild b then 0 else 255) <$> pat.
Lemma tokensAcc_word cur w s : Forall (λ c, isspace c = false) w → tokensAcc cur (w ++ s) = tokensAcc (reverse w ++ cur) s.
Proof using. intros Hw. revert cur. induction Hw as [|c w Hc Hw IH]; intros cur; [done|]. cbn [app tokensAcc]. rewrite Hc, IH, reverse_cons, <- app_assoc. done. Qed.
Lemma hexUpper_digits : Forall (λ d, isspace (hexUpper d) = false ∧ nib (hexUpper d) = (d, 15, true)) (seqZ 0 16).
Proof using. by repeat constructor. Qed.
Lemma hexUpper_spec d : 0 ≤ d < 16 → isspace (hexUpper d) = false ∧ nib (hexUpper d) = (d, 15, true) ∧ hexUpper d ≠ 63.
Proof using.
  intros Hd. pose proof (proj1 (Forall_forall _ _) hexUpper_digits d ltac:(apply elem_of_seqZ; lia)) as [H1 H2]. split_and!; [done|done|]. unfold hexUpper. destruct (Z.ltb_spec d 10); cbn; lia.
Qed.
Lemma byteText_word b : is_byte (pb_value b) → Forall (λ c, isspace c = false) (byteText b) ∧ byteText b ≠ [].
Proof using.
  intros Hb. unfold is_byte, in_width in Hb. change (2 ^ 8) with 256 in Hb. unfold byteText. destruct (pb_wild b); [by repeat constructor|]. pose proof (Z.div_lt_upper_bound (pb_value b) 16 16 ltac:(lia) ltac:(lia)). pose proof (Z.div_pos (pb_value b) 16). pose proof (Z.mod_pos_bound (pb_value b) 16 ltac:(lia)).
  split; [|done]. repeat constructor; apply hexUpper_spec; lia.
Qed.
Lemma tokens_text pat : patOk pat → tokens (aobText pat) = byteText <$> pat.
Proof using.
  unfold tokens. induction 1 as [|b pat Hb Hp IH]; [done|]. destruct (byteText_word b Hb) as [H1 H2]. destruct pat as [|b' pat].
  - cbn [aobText fmap list_fmap]. rewrite <- (app_nil_r (byteText b)) at 1. rewrite tokensAcc_word by done. cbn [tokensAcc]. rewrite app_nil_r, bool_decide_eq_false_2, reverse_involutive; [done|]. intros E. apply H2. by rewrite <- (reverse_involutive (byteText b)), E.
  - change (aobText (b :: b' :: pat)) with (byteText b ++ [32] ++ aobText (b' :: pat)). rewrite tokensAcc_word by done. cbn [app tokensAcc]. change (isspace 32) with true. rewrite app_nil_r, bool_decide_eq_false_2, reverse_involutive; [by rewrite IH|]. intros E. apply H2. by rewrite <- (reverse_involutive (byteText b)), E.
Qed.
Lemma aobToken_byte st b : is_byte (pb_value b) → aobToken st (byteText b) = pushAob st (if pb_wild b then 0 else pb_value b) (if pb_wild b then 0 else 255) true.
Proof using.
  intros Hb. unfold is_byte, in_width in Hb. change (2 ^ 8) with 256 in Hb. unfold byteText. destruct (pb_wild b); [done|]. set (h := pb_value b / 16). set (l := pb_value b mod 16).
  assert (Hh : 0 ≤ h < 16) by (unfold h; split; [apply Z.div_pos; lia|apply Z.div_lt_upper_bound; lia]). assert (Hl : 0 ≤ l < 16) by (apply Z.mod_pos_bound; lia).
  destruct (hexUpper_spec h Hh) as (_ & N1 & E1). destruct (hexUpper_spec l Hl) as (_ & N2 & _). unfold aobToken. rewrite !bool_decide_eq_false_2; [|by intros E; inversion E..|intros E; injection E as E _; by apply E1]. cbn [orb].
  unfold pushPair. rewrite N1, N2. f_equal. rewrite lor_shiftl_add by (unfold in_width; lia). change (2 ^ 4) with 16. rewrite wrap_small; [unfold h, l; pose proof (Z.div_mod (pb_value b) 16 ltac:(done)); lia|unfold in_width; change (2 ^ 8) with 256; lia].
Qed.
Lemma tokens_fold pat st : patOk pat → foldl aobToken st (byteText <$> pat) = mkAob (aob_bytes st ++ valuesOf pat) (aob_mask st ++ masksOf pat) (aob_valid st).
Proof using.
  intros Hp. revert st. induction Hp as [|b pat Hb Hp IH]; intros st; [cbn; rewrite !app_nil_r; by destruct st|]. cbn [fmap list_fmap foldl]. rewrite IH, aobToken_byte by done. cbn. rewrite <- !app_assoc, andb_true_r. done.
Qed.
Lemma parse_toAob pat : patOk pat → trimmed pat = pat → pat ≠ [] → parseAOB (toAob pat) = (true, valuesOf pat, masksOf pat).
Proof using.
  intros Hp Ht Hn. unfold parseAOB, toAob. rewrite Ht, tokens_text, tokens_fold by done. cbn. rewrite bool_decide_eq_false_2; [done|]. by destruct pat.
Qed.
Lemma maskedEq_matches pat w : length w = length pat → bytes_ok w → patOk pat → maskedEq (valuesOf pat) (masksOf pat) w = matches pat w.
Proof using.
  unfold maskedEq. revert w. induction pat as [|b pat IH]; intros [|c w] Hl Hw Hp; try done. apply Forall_cons in Hw as [Hc Hw]. apply Forall_cons in Hp as [Hb Hp]. injection Hl as Hl. cbn [matches]. rewrite <- IH by done. cbn [valuesOf masksOf fmap list_fmap zip_with].
  apply Bool.eq_iff_eq_true. rewrite andb_true_iff, orb_true_iff, Z.eqb_eq, !bool_decide_eq_true. destruct (pb_wild b).
  - rewrite !Z.land_0_r. split; [intros [= H']; auto|]. intros [_ H']. f_equal. exact H'.
  - rewrite !land_255 by done. split; [intros [= -> H']; auto|]. intros [[?| ->] H']; [done|]. f_equal. exact H'.
Qed.

(** ** The signature, scanned for *)

Lemma scan_range pat r : rangeOk r → pat ≠ [] → patOk pat → scanSpec (rangeBytes r) (len pat) (sr_base r) 1 (maskedEq (valuesOf pat) (masksOf pat)) = (λ a, (a, bytesAt sig_mem a (len pat))) <$> rangeHits pat r.
Proof using.
  intros (H1 & H2 & H3) Hn%len_positive Hp. unfold scanSpec, rangeHits, hitsFrom. rewrite stride_1. unfold rangeBytes. rewrite len_bytesAt by lia. replace (sr_size r - len pat + 1 - 0) with (sr_size r - len pat + 1) by lia.
  assert (H : Forall (λ q, 0 ≤ q ∧ q + len pat ≤ sr_size r) (seqZ 0 (sr_size r - len pat + 1))) by (apply Forall_forall; intros q Hq%elem_of_seqZ; lia). revert H. generalize (seqZ 0 (sr_size r - len pat + 1)) as qs.
  induction qs as [|q qs IH]; intros Hq; [done|]. apply Forall_cons in Hq as [Hq Hqs]. specialize (IH Hqs). cbn [omap list_omap]. unfold matchAt at 1. rewrite slice_bytesAt by lia. rewrite filter_cons, slice_bytesAt by lia.
  rewrite maskedEq_matches; [|pose proof (len_bytesAt sig_mem (sr_base r + q) (len pat) ltac:(lia)); unfold len in *; lia|apply bytesAt_ok, sig_byte|done].
  destruct (matches pat _) eqn:E; [rewrite decide_True by done|rewrite decide_False by done]; [|exact IH]. cbn [fmap list_fmap]. rewrite u64_small by lia.
  f_equal. exact IH.
Qed.
Lemma mjoin_pairs {A B} (f : A → B) (l : list (list A)) : mjoin ((λ k, f <$> k) <$> l) = f <$> mjoin l.
Proof using. induction l as [|k l IH]; [done|]. cbn. rewrite fmap_app. by f_equal. Qed.
(** Scanning every range for the text of a signature that matches once. *)
Definition scansTo (mode : SimdMode) (scope : list SearchRange) (pattern : bytes) (hits : list hit) : Prop :=
  ∃ b m found, parseAOB pattern = (true, b, m) ∧ Forall2 (λ r h, scanBufferAOB mode (rangeBytes r) (sr_base r) b m = Ret h) scope found ∧ mjoin found = hits.
Definition smallRange (r : SearchRange) : Prop := rangeOk r ∧ sr_size r < 2 ^ 63.
Lemma matchesOnce_scans mode address scope out : Forall smallRange scope → matchesOnce address scope out → scansTo mode scope (sg_pattern out) [(address, bytesAt sig_mem address (sg_length out))].
Proof using.
  intros Hr (pat & E1 & E2 & Ht & Hp & Hn & Hh). exists (valuesOf pat), (masksOf pat), ((λ r, (λ a, (a, bytesAt sig_mem a (len pat))) <$> rangeHits pat r) <$> scope). split_and!.
  - rewrite E1. by apply parse_toAob.
  - apply Forall2_fmap_r, Forall_Forall2_diag. eapply Forall_impl; [exact Hr|]. intros r [Hok Hs]. assert (El : len (valuesOf pat) = len pat) by (unfold len, valuesOf; by rewrite length_fmap).
    rewrite scanBufferAOB_ret; [by rewrite El, scan_range by done|apply bytesAt_ok, sig_byte| |rewrite El; by apply len_positive|unfold len, valuesOf, masksOf; by rewrite !length_fmap|unfold rangeBytes; rewrite len_bytesAt by apply Hok; exact Hs].
    unfold valuesOf. apply Forall_fmap. eapply Forall_impl; [exact Hp|]. intros b Hb. cbn. destruct (pb_wild b); [|exact Hb]. lia_w.
  - rewrite E2. change [(address, bytesAt sig_mem address (len pat))] with ((λ a, (a, bytesAt sig_mem a (len pat))) <$> [address]). rewrite <- Hh, <- mjoin_pairs. f_equal. by rewrite <- list_fmap_compose.
Qed.
(** C18: A signature is always produced, without an access out of bounds, and one that is called
    unique, read back by the scanner as an array of bytes, is found exactly once in the
    mappings that were searched, at its address. *)
Theorem makeSignature_unique mode address maxBytes region : st_region address = Some region → Forall smallRange (if decide (moduleScope region = []) then [mkRange (region_base region) (region_size region)] else moduleScope region) →
  ∃ out, makeSignature address maxBytes = Ret out ∧
    (sg_unique out = true → scansTo mode (if sg_moduleWide out then moduleScope region else [mkRange (region_base region) (region_size region)]) (sg_pattern out) [(address, bytesAt sig_mem address (sg_length out))]).
Proof using L.
  intros Hg Hs. unfold makeSignature. rewrite Hg. cbn zeta. set (scope := if negb (bool_decide (moduleScope region = [])) then moduleScope region else _).
  assert (Hscope : Forall smallRange scope) by (unfold scope; destruct (decide (moduleScope region = [])) as [E|E]; [by rewrite bool_decide_eq_true_2|by rewrite bool_decide_eq_false_2]).
  destruct (makeSignatureIn_spec address (mkRange (region_base region) (region_size region)) scope maxBytes) as (out & -> & Hu); [eapply Forall_impl; [exact Hscope|by intros r []]|].
  cbn [obind]. eexists. split; [done|]. cbn [sg_unique sg_moduleWide sg_pattern sg_length]. intros H. by apply (matchesOnce_scans mode address scope out), Hu.
Qed.
End Unique.

(** ** A sample *)

(** A file of two mappings: an instruction that loads from a relative address occurs twice. *)
Definition sigSampleMem (a : Z) : Z := if (a <? 4096) || (4112 <=? a) then 0 else default 0 ([72; 139; 5; 1; 2; 3; 4; 144; 72; 139; 5; 9; 9; 9; 9; 204] !! Z.to_nat (a - 4096)).
Definition sigSampleRegions : list MemoryRegion := [mkMemoryRegion 4096 16 5 MemPrivate MemCommitted (bs "/game") None; mkMemoryRegion 8192 4 1 MemPrivate MemCommitted (bs "/game") None].
#[local] Instance sigSample : SigTarget := {|
  st_read a n := if n <? 0 then None else Some (bytesAt sigSampleMem a n);
  st_region a := List.find (λ r, (region_base r <=? a) && (a <? region_base r + region_size r)) sigSampleRegions;
  st_regions := sigSampleRegions;
  st_disassemble a _ := if a =? 4096 then Some [mkInsn [72; 139; 5; 1; 2; 3; 4] 67305999 3 4 0 0 true (bs "rip"); mkInsn [144] 0 0 0 0 0 false []] else None
|}.
Lemma sigSampleMem_byte a : is_byte (sigSampleMem a).
Proof.
  unfold sigSampleMem. destruct (_ || _); [by split|]. assert (H : Forall is_byte [72; 139; 5; 1; 2; 3; 4; 144; 72; 139; 5; 9; 9; 9; 9; 204]) by (repeat constructor; unfold in_width; lia).
  destruct (_ !! _) as [b|] eqn:E; [|by split]. apply list_elem_of_lookup_2 in E. exact (proj1 (Forall_forall _ _) H b E).
Qed.
#[local] Instance sigSampleLaws : SigLaws sigSample.
Proof.
  refine {| sig_mem := sigSampleMem : Z → Z |}.
  - apply sigSampleMem_byte.
  - intros a n b. cbn. destruct (Z.ltb_spec n 0); [done|]. intros [= <-]. rewrite len_bytesAt by done. done.
  - intros a code insns. cbn. destruct (a =? 4096); [|done]. intros [= <-]. repeat constructor; cbn; unfold in_width, len; cbn; lia.
Defined.
Lemma makeSignature_unique_witness : ∃ out, makeSignature 4096 64 = Ret out ∧ sg_pattern out = bs "48 8B 05 ?? ?? ?? ?? 90" ∧
  scansTo AVX2 (moduleScope (mkMemoryRegion 4096 16 5 MemPrivate MemCommitted (bs "/game") None)) (bs "48 8B 05 ?? ?? ?? ?? 90") [(4096, [72; 139; 5; 1; 2; 3; 4; 144])].
Proof.
  destruct (makeSignature_unique AVX2 4096 64 (mkMemoryRegion 4096 16 5 MemPrivate MemCommitted (bs "/game") None)) as (out & E & H).
  - reflexivity.
  - assert (Es : moduleScope (mkMemoryRegion 4096 16 5 MemPrivate MemCommitted (bs "/game") None) = [mkRange 4096 16; mkRange 8192 4]) by by vm_compute. rewrite Es. cbn. repeat constructor; cbn; lia.
  - assert (Eo : makeSignature 4096 64 = Ret (mkSignature (bs "48 8B 05 ?? ?? ?? ?? 90") 8 true true false)) by by vm_compute. rewrite Eo in E. injection E as <-. eexists. split; [exact Eo|]. split; [done|]. exact (H eq_refl).
Defined.
