(* ===== verification/Returns.v ===== *)
(** * Computations that return

    The total-correctness judgement of the parsers of untrusted files: a computation returns, so
    it read nothing outside the file, and what it returned has a property. *)

From S2P Require Import Prelude.
#[local] Open Scope Z_scope.

(** The computation returns a value with the property. *)
Definition gives {A} (m : outcome A) (P : A → Prop) : Prop := ∃ a, m = Ret a ∧ P a.
Lemma gives_ret {A} (a : A) (P : A → Prop) : P a → gives (Ret a) P.
Proof. intros H. by exists a. Qed.
Lemma gives_bind {A B} (m : outcome A) (k : A → outcome B) P Q : gives m P → (∀ a, P a → gives (k a) Q) → gives (obind m k) Q.
Proof. intros (a & -> & Ha) H. by apply H. Qed.
Lemma gives_mono {A} (m : outcome A) (P Q : A → Prop) : gives m P → (∀ a, P a → Q a) → gives m Q.
Proof. intros (a & -> & Ha) H. exists a. auto. Qed.
Lemma gives_if {A} (c : bool) (a b : outcome A) P : gives a P → gives b P → gives (if c then a else b) P.
Proof. by destruct c. Qed.

Lemma gives_true {A} (m : outcome A) P : gives m P → gives m (λ _, True).
Proof. intros H. by eapply gives_mono. Qed.
Lemma gives_defined {A} (m : outcome A) P : gives m P → defined m.
Proof. by intros (a & -> & _). Qed.
(** What is there of a value that was computed. *)
Lemma gives_eq {A} (m : outcome A) P : gives m P → gives m (λ a, m = Ret a ∧ P a).
Proof. intros (a & E & H). by exists a. Qed.
