(* ===== verification/PeExports.v ===== *)
(** * The exports and imports of a Windows module

    Models [src/analysis/pe_exports.cpp] on the bytes of the mapped file, an untrusted input.
    The reads of [u16] and [u32] are not checked: outside the file they are [Undefined]. *)

From S2P Require Import Prelude.
#[local] Open Scope Z_scope.

(** [Pe::Sec], and [Pe] without the file. *)
Record Sec := mkSec { s_rva : Z; s_vsize : Z; s_fileOff : Z; s_fileSize : Z }.
Record Pe := mkPe { pe_secs : list Sec; pe_headerSize : Z }.
Record PeDirs := mkDirs { d_pe64 : bool; d_exportRva : Z; d_exportSize : Z; d_importRva : Z; d_importSize : Z }.
Record PEExport := mkExport { ex_name : bytes; ex_ordinal : Z; ex_rva : Z; ex_forward : bytes }.
Record PEImport := mkImport { im_dll : bytes; im_name : bytes; im_ordinal : Z; im_iatRva : Z }.

Section Pe.
Context (buf : bytes).

Definition inRange (o n : Z) : bool := (u64 (o + n) <=? len buf) && (o <=? u64 (o + n)).
Definition readAt (n o : Z) : outcome Z := let* s := subspan buf o n in Ret (le_val s).
Notation u16At := (readAt 2).
Notation u32At := (readAt 4).

Definition secHas (s : Sec) (rva : Z) : bool := (s_rva s <=? rva) && (rva - s_rva s <? Z.max (s_vsize s) (s_fileSize s)).
Fixpoint secOff (secs : list Sec) (rva n : Z) : option Z :=
  match secs with
  | [] => None
  | s :: secs =>
      if secHas s rva then
        let d := rva - s_rva s in
        if (d <? s_fileSize s) && (n <=? s_fileSize s - d) then
          let off := s_fileOff s + d in if inRange off n then Some off else None
        else None
      else secOff secs rva n
  end.
Definition rvaToOff (pe : Pe) (rva n : Z) : option Z :=
  if (UINT32_MAX <? rva) || (UINT32_MAX + 1 - rva <? n) then None else
  if (rva <? pe_headerSize pe) && (n <=? pe_headerSize pe - rva) && inRange rva n then Some rva else secOff (pe_secs pe) rva n.
Definition atRva (pe : Pe) (n rva : Z) : outcome (option Z) :=
  match rvaToOff pe rva n with Some o => let* v := readAt n o in Ret (Some v) | None => Ret None end.
Notation u32AtRva pe := (atRva pe 4).
Notation u16AtRva pe := (atRva pe 2).
Fixpoint secSpan (secs : list Sec) (rva : Z) : option (Z * Z) :=
  match secs with
  | [] => None
  | s :: secs =>
      if secHas s rva then
        let d := rva - s_rva s in
        let off := s_fileOff s + d in
        if (s_fileSize s <=? d) || (len buf <=? off) then None else Some (off, Z.min (s_fileSize s - d) (len buf - off))
      else secSpan secs rva
  end.
Definition rvaSpan (pe : Pe) (rva : Z) : option (Z * Z) :=
  if UINT32_MAX <? rva then None else
  if (rva <? pe_headerSize pe) && (rva <? len buf) then Some (rva, Z.min (pe_headerSize pe - rva) (len buf - rva)) else secSpan (pe_secs pe) rva.
(** The bytes before the first NUL; [None] when there is none. *)
Fixpoint untilNul (s : bytes) : option bytes :=
  match s with
  | [] => None
  | c :: s => if c =? 0 then Some [] else match untilNul s with Some t => Some (c :: t) | None => None end
  end.
Definition cstrAtRva (pe : Pe) (rva maxLen : Z) : outcome bytes :=
  match rvaSpan pe rva with
  | None => Ret []
  | Some (off, n) => let* s := subspan buf off (Z.min maxLen n) in Ret (default [] (untilNul s))
  end.

(** The section table; [None] when a section is out of range. *)
Fixpoint loadSections (n : nat) (so : Z) : outcome (option (list Sec)) :=
  match n with
  | O => Ret (Some [])
  | S n =>
      let* vsize := u32At (so + 8) in
      let* rva := u32At (so + 12) in
      let* fileSize := u32At (so + 16) in
      let* fileOff := u32At (so + 20) in
      if negb (inRange fileOff fileSize) || (UINT32_MAX + 1 <? rva + Z.max vsize fileSize) then Ret None else
      let* rest := loadSections n (so + 40) in
      Ret (match rest with Some l => Some (mkSec rva vsize fileOff fileSize :: l) | None => None end)
  end.
(** The two directories, where the header has them. *)
Definition loadDirectory (wanted : bool) (o : Z) : outcome (Z * Z) :=
  if wanted then let* rva := u32At o in let* size := u32At (o + 4) in Ret (rva, size) else Ret (0, 0).
Definition loadPe : outcome (option (Pe * PeDirs)) :=
  if len buf <? 64 then Ret None else
  let* m := at_ buf 0 in
  let* z := at_ buf 1 in
  if negb (m =? "M"%chr) || negb (z =? "Z"%chr) then Ret None else
  let* e := u32At 60 in
  if negb (inRange e 24) then Ret None else
  let* sig := subspan buf e 4 in
  if negb (bool_decide (sig = bs "PE" ++ [0; 0])) then Ret None else
  let coff := e + 4 in
  if negb (inRange coff 20) then Ret None else
  let* nSec := u16At (coff + 2) in
  let* optSize := u16At (coff + 16) in
  let opt := coff + 20 in
  if negb (inRange opt optSize) || (optSize <? 24) then Ret None else
  let* magic := u16At opt in
  if negb (magic =? 523) && negb (magic =? 267) then Ret None else
  let pe64 := magic =? 523 in
  let directoryOffset := if pe64 then 112 else 96 in
  let dataDir := opt + directoryOffset in
  if optSize <? directoryOffset then Ret None else
  let* directoryCount := u32At (dataDir - 4) in
  if (optSize - directoryOffset) / 8 <? directoryCount then Ret None else
  let* headerSize := u32At (opt + 60) in
  if len buf <? headerSize then Ret None else
  let* ex := loadDirectory (0 <? directoryCount) dataDir in
  let* im := loadDirectory (1 <? directoryCount) (dataDir + 8) in
  let secTbl := opt + optSize in
  if 96 <? nSec then Ret None else
  if negb (inRange secTbl (nSec * 40)) then Ret None else
  let* secs := loadSections (Z.to_nat nSec) secTbl in
  Ret (match secs with
       | Some [] | None => None
       | Some l => Some (mkPe l headerSize, mkDirs pe64 ex.1 ex.2 im.1 im.2)
       end).

(** ** Exports *)

Record ExportTables := mkTables { t_edRva : Z; t_edSize : Z; t_base : Z; t_nFuncs : Z; t_addrFuncs : Z; t_addrNames : Z; t_addrOrds : Z }.
(** One entry of the name table: [None] ends the loop, [Some None] continues without an export. *)
Definition exportAt (pe : Pe) (t : ExportTables) (i : Z) : outcome (option (option PEExport)) :=
  let* nameRva := u32AtRva pe (t_addrNames t + i * 4) in
  let* ord := u16AtRva pe (t_addrOrds t + i * 2) in
  match nameRva, ord with
  | Some nameRva, Some ord =>
      if t_nFuncs t <=? ord then Ret (Some None) else
      let* funcRva := u32AtRva pe (t_addrFuncs t + ord * 4) in
      match funcRva with
      | None => Ret (Some None)
      | Some funcRva =>
          if (funcRva =? 0) || (UINT32_MAX - t_base t <? ord) then Ret (Some None) else
          let* name := cstrAtRva pe nameRva 512 in
          if bool_decide (name = []) then Ret (Some None) else
          if (t_edRva t <=? funcRva) && (funcRva - t_edRva t <? t_edSize t) then
            let* forward := cstrAtRva pe funcRva (Z.min 512 (t_edSize t - (funcRva - t_edRva t))) in
            Ret (Some (if bool_decide (forward = []) then None else Some (mkExport name (t_base t + ord) 0 forward)))
          else Ret (Some (Some (mkExport name (t_base t + ord) funcRva [])))
      end
  | _, _ => Ret None
  end.
Fixpoint exportLoop (pe : Pe) (t : ExportTables) (n : nat) (i : Z) : outcome (list PEExport) :=
  match n with
  | O => Ret []
  | S n =>
      let* e := exportAt pe t i in
      match e with
      | None => Ret []
      | Some e => let* rest := exportLoop pe t n (i + 1) in Ret (option_list e ++ rest)
      end
  end.
Definition parsePEExports : outcome (list PEExport) :=
  let* l := loadPe in
  match l with
  | None => Ret []
  | Some (pe, dirs) =>
      let edRva := d_exportRva dirs in
      let edSize := d_exportSize dirs in
      if edRva =? 0 then Ret [] else
      if (edSize <? 40) || (UINT32_MAX + 1 <? edRva + edSize) then Ret [] else
      match rvaToOff pe edRva 40 with
      | None => Ret []
      | Some ed =>
          let* base := u32At (ed + 16) in
          let* nFuncs := u32At (ed + 20) in
          let* nNames := u32At (ed + 24) in
          let* addrFuncs := u32At (ed + 28) in
          let* addrNames := u32At (ed + 32) in
          let* addrOrds := u32At (ed + 36) in
          if (1000000 <? nFuncs) || (1000000 <? nNames) then Ret [] else
          exportLoop pe (mkTables edRva edSize base nFuncs addrFuncs addrNames addrOrds) (Z.to_nat nNames) 0
      end
  end.
Definition peExportRva (name : bytes) : outcome Z :=
  let* l := parsePEExports in Ret (match List.find (λ e, bytes_eqb (ex_name e) name) l with Some e => ex_rva e | None => 0 end).

(** ** Imports *)

Definition kMaxImports : Z := 1000000.
(** One thunk: [None] ends the loop. *)
Definition importAt (pe : Pe) (pe64 : bool) (dll : bytes) (iltRva ft i : Z) : outcome (option PEImport) :=
  let size := if pe64 then 8 else 4 in
  let* thunk := atRva pe size (iltRva + i * size) in
  match thunk with
  | None => Ret None
  | Some thunk =>
      if thunk =? 0 then Ret None else
      let iat := ft + i * size in
      if UINT32_MAX <? iat then Ret None else
      if Z.testbit thunk (if pe64 then 63 else 31) then Ret (Some (mkImport dll [] (Z.land thunk 65535) iat)) else
      if UINT32_MAX - 2 <? thunk then Ret None else
      let* hint := u16AtRva pe thunk in
      match hint with
      | None => Ret None
      | Some _ => let* name := cstrAtRva pe (thunk + 2) 512 in Ret (if bool_decide (name = []) then None else Some (mkImport dll name 0 iat))
      end
  end.
Fixpoint thunkLoop (pe : Pe) (pe64 : bool) (dll : bytes) (iltRva ft : Z) (n : nat) (i : Z) (out : list PEImport) : outcome (list PEImport) :=
  match n with
  | O => Ret out
  | S n =>
      if kMaxImports <=? len out then Ret out else
      let* e := importAt pe pe64 dll iltRva ft i in
      match e with
      | None => Ret out
      | Some e => thunkLoop pe pe64 dll iltRva ft n (i + 1) (out ++ [e])
      end
  end.
Fixpoint descriptorLoop (pe : Pe) (dirs : PeDirs) (n : nat) (d : Z) (seen : list Z) (out : list PEImport) : outcome (list PEImport) :=
  match n with
  | O => Ret out
  | S n =>
      if kMaxImports <=? len out then Ret out else
      let base := d_importRva dirs + d * 20 in
      match rvaToOff pe base 20 with
      | None => Ret out
      | Some _ =>
          let* oft := u32AtRva pe base in
          let* nameRva := u32AtRva pe (base + 12) in
          let* ft := u32AtRva pe (base + 16) in
          match oft, nameRva, ft with
          | Some oft, Some nameRva, Some ft =>
              if (oft =? 0) && (nameRva =? 0) && (ft =? 0) then Ret out else
              let* dll := cstrAtRva pe nameRva 512 in
              if bool_decide (dll = []) || (ft =? 0) then descriptorLoop pe dirs n (d + 1) seen out else
              let iltRva := if oft =? 0 then ft else oft in
              if bool_decide (iltRva ∈ seen) then descriptorLoop pe dirs n (d + 1) seen out else
              let* out := thunkLoop pe (d_pe64 dirs) dll iltRva ft 100000 0 out in
              descriptorLoop pe dirs n (d + 1) (iltRva :: seen) out
          | _, _, _ => Ret out
          end
      end
  end.
Definition parsePEImports : outcome (list PEImport) :=
  let* l := loadPe in
  match l with
  | None => Ret []
  | Some (pe, dirs) =>
      if d_importRva dirs =? 0 then Ret [] else
      if UINT32_MAX + 1 <? d_importRva dirs + d_importSize dirs then Ret [] else
      descriptorLoop pe dirs (Z.to_nat (Z.min 4096 (d_importSize dirs / 20))) 0 [] []
  end.
End Pe.
