(* ===== verification/PeExportsSpec.v ===== *)
(** * Parsing the tables of a Windows module is safe

    Whatever the file holds, the parsers of exports and imports end without a read outside it, and
    what they return is well formed. *)

From S2P Require Import Prelude Returns PeExports.
#[local] Open Scope Z_scope.

Section Pe.
Context (buf : bytes) (Hok : bytes_ok buf) (Hlen : len buf < 2 ^ 62).

Definition is_u32' (v : Z) : Prop := 0 ≤ v < 2 ^ 32.
Lemma readAt_ok n o : 0 ≤ n → 0 ≤ o → o + n ≤ len buf → gives (readAt buf n o) (λ v, 0 ≤ v < 2 ^ (8 * n)).
Proof using Hok Hlen.
  intros Hn Ho Hr. unfold readAt. destruct (subspan_defined buf o n) as [-> L]; [done..|]. cbn [obind]. apply gives_ret. pose proof (le_val_bound (slice buf o n) ltac:(by apply bytes_ok_slice)) as H. rewrite L in H. by rewrite (Z.pow_mul_r 2 8 n) by lia.
Qed.
Lemma u32_ok o : 0 ≤ o → o + 4 ≤ len buf → gives (readAt buf 4 o) is_u32'.
Proof using Hok Hlen. intros. by apply readAt_ok. Qed.
Lemma inRange_spec o n : 0 ≤ o < 2 ^ 62 → 0 ≤ n < 2 ^ 62 → inRange buf o n = true → o + n ≤ len buf.
Proof using. intros Ho Hn. unfold inRange. rewrite wrap_small by (unfold in_width; lia). rewrite andb_true_iff, Z.leb_le. tauto. Qed.

(** Sections lie in the file; the header size and the directories are what a header can hold. *)
Definition secOk (s : Sec) : Prop := is_u32' (s_rva s) ∧ is_u32' (s_vsize s) ∧ is_u32' (s_fileOff s) ∧ is_u32' (s_fileSize s) ∧ s_fileOff s + s_fileSize s ≤ len buf.
Definition peOk (pe : Pe) : Prop := Forall secOk (pe_secs pe) ∧ 0 ≤ pe_headerSize pe ≤ len buf.
Definition dirsOk (d : PeDirs) : Prop := is_u32' (d_exportRva d) ∧ is_u32' (d_exportSize d) ∧ is_u32' (d_importRva d) ∧ is_u32' (d_importSize d).
Lemma secOff_ok secs rva n o : Forall secOk secs → 0 ≤ n ≤ 2 ^ 32 → secOff buf secs rva n = Some o → 0 ≤ o ∧ o + n ≤ len buf.
Proof using Hok Hlen.
  intros H Hn. induction H as [|s secs (H1 & H2 & H3 & H4 & H5) _ IH]; [done|]. cbn [secOff]. unfold secHas. destruct (Z.leb_spec (s_rva s) rva); [|done]. cbn [andb]. destruct (_ <? Z.max _ _); [|done].
  destruct (_ && _); [|done]. destruct (inRange _ _ _) eqn:E; [|done]. intros [= <-]. unfold is_u32' in *. apply inRange_spec in E; lia || (unfold inRange in E; apply andb_true_iff in E as [E1 E2]; lia).
Qed.
Lemma rvaToOff_ok pe rva n o : peOk pe → 0 ≤ rva → 0 ≤ n ≤ 2 ^ 32 → rvaToOff buf pe rva n = Some o → 0 ≤ o ∧ o + n ≤ len buf.
Proof using Hok Hlen.
  intros [Hs Hh] Hr Hn. unfold rvaToOff. destruct (Z.ltb_spec UINT32_MAX rva); [done|]. cbn [orb]. destruct (_ <? n); [done|]. destruct (_ && _) eqn:E; [|by apply secOff_ok].
  intros [= <-]. apply andb_true_iff in E as [_ E]. apply inRange_spec in E; unfold UINT32_MAX in *; lia.
Qed.
Lemma atRva_ok pe n rva : peOk pe → 0 ≤ rva → 0 ≤ n ≤ 8 → gives (atRva buf pe n rva) (λ r, ∀ v, r = Some v → 0 ≤ v < 2 ^ (8 * n)).
Proof using Hok Hlen.
  intros Hpe Hr Hn. unfold atRva. destruct (rvaToOff buf pe rva n) as [o|] eqn:E; [|by apply gives_ret]. apply rvaToOff_ok in E as [H1 H2]; [|done|done|lia].
  eapply gives_bind; [apply readAt_ok; lia|]. intros v Hv. apply gives_ret. by intros ? [= <-].
Qed.
Lemma untilNul_spec s t : PeExports.untilNul s = Some t → len t < len s ∧ Forall (λ c, c ≠ 0) t.
Proof using Hok Hlen.
  revert t. induction s as [|c s IH]; intros t; cbn [PeExports.untilNul]; [done|]. destruct (Z.eqb_spec c 0); [intros [= <-]; rewrite len_nil, len_cons; pose proof (len_nonneg s); split; [lia|done]|].
  destruct (PeExports.untilNul s) as [u|]; [|done]. intros [= <-]. destruct (IH u eq_refl). rewrite !len_cons. split; [lia|by constructor].
Qed.
Lemma rvaSpan_ok pe rva o n : peOk pe → 0 ≤ rva → rvaSpan buf pe rva = Some (o, n) → 0 ≤ o ∧ 0 ≤ n ∧ o + n ≤ len buf.
Proof using Hok Hlen.
  intros [Hs Hh] Hr. unfold rvaSpan. destruct (_ <? rva); [done|]. destruct (_ && _) eqn:E; [intros [= <- <-]; rewrite andb_true_iff, !Z.ltb_lt in E; lia|]. clear E.
  induction Hs as [|s secs (H1 & H2 & H3 & H4 & H5) _ IH]; [done|]. cbn [secSpan]. unfold secHas. destruct (Z.leb_spec (s_rva s) rva); [|done]. cbn [andb]. destruct (_ <? Z.max _ _); [|done].
  destruct (_ || _) eqn:E; [done|]. rewrite orb_false_iff, !Z.leb_gt in E. unfold is_u32' in *. intros [= <- <-]. lia.
Qed.
(** A name: no NUL in it, and shorter than the limit. *)
Definition nameOk (limit : Z) (s : bytes) : Prop := Forall (λ c, c ≠ 0) s ∧ len s < Z.max 1 limit.
Lemma cstrAtRva_ok pe rva limit : peOk pe → 0 ≤ rva → 0 ≤ limit → gives (cstrAtRva buf pe rva limit) (nameOk limit).
Proof using Hok Hlen.
  intros Hpe Hr Hl. unfold cstrAtRva. assert (Hnil : nameOk limit []) by (split; [done|rewrite len_nil; lia]). destruct (rvaSpan buf pe rva) as [[o n]|] eqn:E; [|by apply gives_ret]. apply rvaSpan_ok in E as (H1 & H2 & H3); [|done..].
  destruct (subspan_defined buf o (Z.min limit n)) as [-> L]; [lia..|]. cbn [obind]. apply gives_ret. destruct (PeExports.untilNul _) as [t|] eqn:Et; [|done]. apply untilNul_spec in Et as [Ht1 Ht2]. rewrite L in Ht1. split; [done|cbn; lia].
Qed.

(** ** The headers *)

Lemma loadSections_ok n : ∀ so, 0 ≤ so → so + 40 * Z.of_nat n ≤ len buf → gives (loadSections buf n so) (λ r, ∀ l, r = Some l → Forall secOk l).
Proof using Hok Hlen.
  induction n as [|n IH]; intros so Hs Hl; cbn [loadSections]; [apply gives_ret; by intros ? [= <-]|].
  eapply gives_bind; [apply u32_ok; lia|]. intros vsize H1. eapply gives_bind; [apply u32_ok; lia|]. intros rva H2. eapply gives_bind; [apply u32_ok; lia|]. intros fileSize H3. eapply gives_bind; [apply u32_ok; lia|]. intros fileOff H4.
  destruct (_ || _) eqn:E; [by apply gives_ret|]. apply orb_false_iff in E as [E%negb_false_iff _]. unfold is_u32' in *. apply inRange_spec in E; [|lia..]. eapply gives_bind; [apply IH; lia|]. intros r Hr. apply gives_ret.
  destruct r as [l|]; [|done]. intros ? [= <-]. constructor; [|by apply Hr]. repeat split; cbn; lia.
Qed.
Lemma loadDirectory_ok wanted o : (wanted = true → 0 ≤ o ∧ o + 8 ≤ len buf) → gives (loadDirectory buf wanted o) (λ r, is_u32' r.1 ∧ is_u32' r.2).
Proof using Hok Hlen.
  intros H. unfold loadDirectory. destruct wanted; [|by apply gives_ret]. destruct (H eq_refl) as [Ha Hb]. eapply gives_bind; [apply u32_ok; lia|]. intros rva H1. eapply gives_bind; [apply u32_ok; lia|]. intros size H2. by apply gives_ret.
Qed.
Lemma at_ok i : 0 ≤ i < len buf → gives (at_ buf i) (λ _, True).
Proof using Hok Hlen.
  intros Hi. unfold at_, lget. rewrite (proj2 (Z.leb_le 0 i)) by lia. destruct (lookup_lt_is_Some_2 buf (Z.to_nat i)) as [x ->]; [unfold len in *; lia|]. by apply gives_ret.
Qed.
Ltac step H := eapply gives_bind; [|intros ? H].
Lemma loadPe_ok : gives (loadPe buf) (λ r, ∀ pe d, r = Some (pe, d) → peOk pe ∧ dirsOk d).
Proof using Hok Hlen.
  unfold loadPe. destruct (Z.ltb_spec (len buf) 64); [by apply gives_ret|]. eapply gives_bind; [apply at_ok; lia|]. intros m _. eapply gives_bind; [apply at_ok; lia|]. intros z _. destruct (_ || _); [by apply gives_ret|].
  eapply gives_bind; [apply u32_ok; lia|]. intros e He. unfold is_u32' in He. destruct (inRange buf e 24) eqn:E1; cbn [negb]; [|by apply gives_ret]. apply inRange_spec in E1; [|lia..].
  apply (gives_bind _ _ (λ _, True)); [exists (slice buf e 4); split; [by destruct (subspan_defined buf e 4); [lia..|]|exact I]|]. intros sig _. destruct (negb _); [by apply gives_ret|].
  destruct (inRange buf (e + 4) 20) eqn:E2; cbn [negb]; [|by apply gives_ret]. apply inRange_spec in E2; [|lia..]. eapply gives_bind; [apply (readAt_ok 2); lia|]. intros nSec Hn. eapply gives_bind; [apply (readAt_ok 2); lia|]. intros optSize Ho. cbv beta in Hn, Ho. change (2 ^ (8 * 2)) with 65536 in *.
  destruct (inRange buf _ optSize) eqn:E3; cbn [negb orb]; [|by apply gives_ret]. apply inRange_spec in E3; [|lia..]. destruct (Z.ltb_spec optSize 24); [by apply gives_ret|].
  eapply gives_bind; [apply (readAt_ok 2); lia|]. intros magic _. destruct (_ && _); [by apply gives_ret|]. cbv zeta. set (off := if magic =? 523 then 112 else 96). assert (Hoff : off = 112 ∨ off = 96) by (unfold off; destruct (magic =? 523); lia).
  destruct (Z.ltb_spec optSize off); [by apply gives_ret|]. eapply gives_bind; [apply u32_ok; lia|]. intros cnt Hc. unfold is_u32' in Hc. destruct (Z.ltb_spec ((optSize - off) / 8) cnt); [by apply gives_ret|].
  assert (cnt * 8 ≤ optSize - off) by (pose proof (Z.mul_div_le (optSize - off) 8 ltac:(lia)); lia). eapply gives_bind; [apply u32_ok; lia|]. intros hs Hhs. unfold is_u32' in Hhs. destruct (Z.ltb_spec (len buf) hs); [by apply gives_ret|].
  eapply gives_bind; [apply loadDirectory_ok; intros ?%Z.ltb_lt; lia|]. intros ex Hex. eapply gives_bind; [apply loadDirectory_ok; intros ?%Z.ltb_lt; lia|]. intros im Him.
  destruct (96 <? nSec); [by apply gives_ret|]. destruct (inRange buf _ (nSec * 40)) eqn:E4; cbn [negb]; [|by apply gives_ret]. apply inRange_spec in E4; [|lia..].
  eapply gives_bind; [apply loadSections_ok; lia|]. intros secs Hsecs. apply gives_ret. intros pe d. destruct secs as [[|s l]|]; [done| |done]. intros [= <- <-]. split; [split; [by apply Hsecs|cbn; lia]|]. by repeat split; cbn; apply Hex || apply Him.
Qed.

(** ** Exports *)

(** An export has an address or a forwarder but not both, and an ordinal of the table of
    addresses. *)
Definition exportOk (t : ExportTables) (e : PEExport) : Prop :=
  nameOk 512 (ex_name e) ∧ t_base t ≤ ex_ordinal e < 2 ^ 32 ∧ ex_ordinal e - t_base t < t_nFuncs t ∧
  (ex_forward e = [] ∧ 0 < ex_rva e < 2 ^ 32 ∧ ¬ (t_edRva t ≤ ex_rva e < t_edRva t + t_edSize t) ∨
   ex_rva e = 0 ∧ ex_forward e ≠ [] ∧ nameOk 512 (ex_forward e)).
Definition tablesOk (t : ExportTables) : Prop := is_u32' (t_base t) ∧ is_u32' (t_addrFuncs t) ∧ is_u32' (t_addrNames t) ∧ is_u32' (t_addrOrds t).
Lemma nameOk_mono a b s : a ≤ b → nameOk a s → nameOk b s.
Proof using Hok Hlen. intros Hab [H1 H2]. split; [done|lia]. Qed.
Lemma exportAt_ok pe t i : peOk pe → tablesOk t → 0 ≤ i → gives (exportAt buf pe t i) (λ r, ∀ e, r = Some (Some e) → exportOk t e).
Proof using Hok Hlen.
  intros Hpe (Hb & Hf & Hn & Ho) Hi. unfold is_u32' in *. unfold exportAt. eapply gives_bind; [apply atRva_ok; [done|lia|lia]|]. intros nameRva H1. eapply gives_bind; [apply atRva_ok; [done|lia|lia]|]. intros ord H2. cbv beta in H1, H2.
  destruct nameRva as [nameRva|]; [|by apply gives_ret]. destruct ord as [ord|]; [|by apply gives_ret]. specialize (H1 _ eq_refl). specialize (H2 _ eq_refl). change (2 ^ (8 * 4)) with (2 ^ 32) in H1.
  destruct (Z.leb_spec (t_nFuncs t) ord); [by apply gives_ret|]. eapply gives_bind; [apply atRva_ok; [done|lia|lia]|]. intros funcRva H3. cbv beta in H3. destruct funcRva as [funcRva|]; [|by apply gives_ret]. specialize (H3 _ eq_refl). change (2 ^ (8 * 4)) with (2 ^ 32) in H3.
  destruct (Z.eqb_spec funcRva 0) as [|Hz]; [by apply gives_ret|]. destruct (Z.ltb_spec (UINT32_MAX - t_base t) ord); cbn [orb]; [by apply gives_ret|]. unfold UINT32_MAX in *.
  eapply gives_bind; [apply (cstrAtRva_ok pe nameRva 512); [done|lia|lia]|]. intros name Hname. case_bool_decide as Hne; [by apply gives_ret|].
  assert (Hord : t_base t ≤ t_base t + ord < 2 ^ 32 ∧ t_base t + ord - t_base t < t_nFuncs t) by lia. destruct (_ && _) eqn:E.
  - rewrite andb_true_iff, Z.leb_le, Z.ltb_lt in E. eapply gives_bind; [apply (cstrAtRva_ok pe funcRva); [done|lia|lia]|]. intros forward Hfw. apply gives_ret. intros e. case_bool_decide as Hfe; intros [= <-]. split; [done|]. cbn. split; [lia|]. split; [lia|]. right. split; [done|]. split; [done|]. eapply nameOk_mono; [|exact Hfw]. lia.
  - apply gives_ret. intros e [= <-]. split; [done|]. cbn. split; [lia|]. split; [lia|]. left. split; [done|]. split; [lia|]. intros Hin. rewrite andb_false_iff, Z.leb_gt, Z.ltb_ge in E. lia.
Qed.
Lemma exportLoop_ok pe t n : peOk pe → tablesOk t → ∀ i, 0 ≤ i → gives (exportLoop buf pe t n i) (λ l, Forall (exportOk t) l ∧ len l ≤ Z.of_nat n).
Proof using Hok Hlen.
  intros Hpe Ht. induction n as [|n IH]; intros i Hi; cbn [exportLoop]; [by apply gives_ret|]. eapply gives_bind; [by apply exportAt_ok|]. intros e He. cbv beta in He. destruct e as [e|]; [|apply gives_ret; split; [done|rewrite len_nil; lia]].
  eapply gives_bind; [apply IH; lia|]. intros rest [Hr Hl]. apply gives_ret. rewrite len_app. destruct e as [e|]; cbn [option_list]; [split; [constructor; [by apply He|done]|cbn; unfold len in *; cbn; lia]|]. split; [done|]. unfold len in *. cbn. lia.
Qed.
Definition exportsOk (l : list PEExport) : Prop := len l ≤ 1000000 ∧ (l = [] ∨ ∃ t, tablesOk t ∧ Forall (exportOk t) l).
Lemma parsePEExports_ok : gives (parsePEExports buf) exportsOk.
Proof using Hok Hlen.
  assert (Hnil : exportsOk []) by (split; [rewrite len_nil; lia|by left]). unfold parsePEExports. eapply gives_bind; [apply loadPe_ok|]. intros l Hl. cbv beta in Hl. destruct l as [[pe dirs]|]; [|by apply gives_ret]. destruct (Hl _ _ eq_refl) as [Hpe (H1 & H2 & _)]. unfold is_u32' in *.
  cbv zeta. destruct (_ =? 0); [by apply gives_ret|]. destruct (_ || _); [by apply gives_ret|]. destruct (rvaToOff buf pe (d_exportRva dirs) 40) as [ed|] eqn:E; [|by apply gives_ret]. apply rvaToOff_ok in E as [E1 E2]; [|done|lia|lia].
  eapply gives_bind; [apply u32_ok; lia|]. intros base Hbase. eapply gives_bind; [apply u32_ok; lia|]. intros nFuncs HnFuncs. eapply gives_bind; [apply u32_ok; lia|]. intros nNames HnNames.
  eapply gives_bind; [apply u32_ok; lia|]. intros addrFuncs HaFuncs. eapply gives_bind; [apply u32_ok; lia|]. intros addrNames HaNames. eapply gives_bind; [apply u32_ok; lia|]. intros addrOrds HaOrds.
  destruct (_ <? nFuncs); [by apply gives_ret|]. destruct (Z.ltb_spec 1000000 nNames); cbn [orb]; [by apply gives_ret|].
  assert (Ht : tablesOk (mkTables (d_exportRva dirs) (d_exportSize dirs) base nFuncs addrFuncs addrNames addrOrds)) by by split_and!.
  eapply gives_mono; [apply exportLoop_ok; [done|exact Ht|lia]|]. intros l [Hall Hn]. unfold is_u32' in HnNames. split; [lia|]. right. by eexists.
Qed.

(** ** Imports *)

Definition importOk (e : PEImport) : Prop := im_dll e ≠ [] ∧ nameOk 512 (im_dll e) ∧ 0 ≤ im_iatRva e < 2 ^ 32 ∧
  (im_name e = [] ∧ 0 ≤ im_ordinal e < 65536 ∨ im_ordinal e = 0 ∧ im_name e ≠ [] ∧ nameOk 512 (im_name e)).
Lemma importAt_ok pe pe64 dll iltRva ft i : peOk pe → dll ≠ [] → nameOk 512 dll → is_u32' iltRva → is_u32' ft → 0 ≤ i → gives (importAt buf pe pe64 dll iltRva ft i) (λ r, ∀ e, r = Some e → importOk e).
Proof using Hok Hlen.
  intros Hpe Hd Hdn Hilt Hft Hi. unfold is_u32' in *. unfold importAt. cbv zeta. set (size := if pe64 then 8 else 4). assert (Hs : 4 ≤ size ≤ 8) by (unfold size; destruct pe64; lia).
  eapply gives_bind; [apply atRva_ok; [done|nia|lia]|]. intros thunk Ht. cbv beta in Ht. destruct thunk as [thunk|]; [|by apply gives_ret]. specialize (Ht _ eq_refl). destruct (thunk =? 0); [by apply gives_ret|]. destruct (Z.ltb_spec UINT32_MAX (ft + i * size)) as [|Hiat]; [by apply gives_ret|]. unfold UINT32_MAX in *.
  assert (Hr : 0 ≤ ft + i * size < 2 ^ 32) by nia. destruct (Z.testbit _ _).
  { apply gives_ret. intros e [= <-]. split; [done|]. split; [done|]. split; [done|]. left. split; [done|]. cbn. change 65535 with (Z.ones 16). rewrite Z.land_ones by lia. apply Z.mod_pos_bound. lia. }
  destruct (Z.ltb_spec (4294967295 - 2) thunk); [by apply gives_ret|]. eapply gives_bind; [apply atRva_ok; [done|lia|lia]|]. intros hint _. destruct hint; [|by apply gives_ret].
  eapply gives_bind; [apply (cstrAtRva_ok pe (thunk + 2) 512); [done|lia|lia]|]. intros name Hn. apply gives_ret. intros e. case_bool_decide as Hne; intros [= <-]. split; [done|]. split; [done|]. split; [done|]. by right.
Qed.
Definition importsOk (l : list PEImport) : Prop := Forall importOk l ∧ len l ≤ kMaxImports.
Lemma thunkLoop_ok pe pe64 dll iltRva ft n : peOk pe → dll ≠ [] → nameOk 512 dll → is_u32' iltRva → is_u32' ft → ∀ i out, 0 ≤ i → importsOk out → gives (thunkLoop buf pe pe64 dll iltRva ft n i out) importsOk.
Proof using Hok Hlen.
  intros Hpe Hd Hdn Hilt Hft. induction n as [|n IH]; intros i out Hi [Ho Hl]; cbn [thunkLoop]; [by apply gives_ret|]. destruct (Z.leb_spec kMaxImports (len out)); [by apply gives_ret|].
  eapply gives_bind; [by apply importAt_ok|]. intros e He. cbv beta in He. destruct e as [e|]; [|by apply gives_ret]. apply IH; [lia|]. split; [apply Forall_app_2; [done|]; constructor; [by apply He|done]|]. rewrite len_app. unfold len in *. cbn. lia.
Qed.
Lemma descriptorLoop_ok pe dirs n : peOk pe → dirsOk dirs → ∀ d seen out, 0 ≤ d → importsOk out → gives (descriptorLoop buf pe dirs n d seen out) importsOk.
Proof using Hok Hlen.
  intros Hpe Hdirs. induction n as [|n IH]; intros d seen out Hd Hout; cbn [descriptorLoop]; [by apply gives_ret|]. destruct (_ <=? len out); [by apply gives_ret|]. destruct Hdirs as (_ & _ & Hi & _). unfold is_u32' in *. cbv zeta.
  destruct (rvaToOff _ _ _ 20); [|by apply gives_ret]. eapply gives_bind; [apply atRva_ok; [done|lia|lia]|]. intros oft H1. eapply gives_bind; [apply atRva_ok; [done|lia|lia]|]. intros nameRva H2. eapply gives_bind; [apply atRva_ok; [done|lia|lia]|]. intros ft H3. cbv beta in H1, H2, H3.
  destruct oft as [oft|]; [|by apply gives_ret]. destruct nameRva as [nameRva|]; [|by apply gives_ret]. destruct ft as [ft|]; [|by apply gives_ret]. specialize (H1 _ eq_refl). specialize (H2 _ eq_refl). specialize (H3 _ eq_refl). change (2 ^ (8 * 4)) with (2 ^ 32) in *.
  destruct (_ && _ && _); [by apply gives_ret|]. eapply gives_bind; [apply (cstrAtRva_ok pe nameRva 512); [done|lia|lia]|]. intros dll Hdll. destruct (bool_decide_reflect (dll = [])); cbn [orb]; [apply IH; [lia|done]|]. destruct (ft =? 0); [apply IH; [lia|done]|].
  case_bool_decide; [apply IH; [lia|done]|]. eapply gives_bind; [apply thunkLoop_ok; try done; unfold is_u32'; destruct (oft =? 0); lia|]. intros out' Hout'. apply IH; [lia|done].
Qed.
Lemma parsePEImports_ok : gives (parsePEImports buf) importsOk.
Proof using Hok Hlen.
  assert (Hnil : importsOk []) by (split; [done|rewrite len_nil; unfold kMaxImports; lia]). unfold parsePEImports. eapply gives_bind; [apply loadPe_ok|]. intros l Hl. cbv beta in Hl. destruct l as [[pe dirs]|]; [|by apply gives_ret]. destruct (Hl _ _ eq_refl) as [Hpe Hd].
  destruct (_ =? 0); [by apply gives_ret|]. destruct (_ <? _); [by apply gives_ret|]. by apply descriptorLoop_ok.
Qed.
End Pe.
