(* ===== verification/Il2CppMetadata.v ===== *)
(** * Unity's il2cpp metadata

    Models the parser of [src/analysis/il2cpp_metadata.cpp] on the bytes of a
    [global-metadata.dat], an untrusted input.  Reads through the raw pointer are [Undefined]
    outside the file, and so is the overflow of a signed index.  A loop that ran out of fuel would
    be [Undefined] too, so that a parse shown to return shows its fuel enough. *)

From S2P Require Import Prelude.
#[local] Open Scope Z_scope.

Record Il2CppFieldDef := mkField { fd_name : bytes; fd_typeIndex : Z; fd_token : Z }.
Record Il2CppMethodDef := mkMethod { md_name : bytes; md_token : Z }.
Record Il2CppTypeDef := mkType {
  td_name : bytes; td_namespaceName : bytes; td_fields : list Il2CppFieldDef; td_methods : list Il2CppMethodDef; td_token : Z; td_parentTypeIndex : Z }.
Record Il2CppImageDef := mkImage { id_name : bytes; id_typeStart : Z; id_typeCount : Z }.
Record Il2CppMetadata := mkMetadata {
  me_version : Z; me_strings : list bytes; me_stringLiterals : list bytes; me_tablesDecoded : bool; me_types : list Il2CppTypeDef; me_images : list Il2CppImageDef }.

(** [kLayoutByrefless], the only layout: the sizes of the records and their fields. *)
Definition typeDefSize : Z := 88.
Definition imageSize : Z := 40.
Definition kFieldRecSize : Z := 12.
Definition layoutFor (version : Z) : bool := (27 <=? version) && (version <=? 31).
Definition kIl2CppMagic : Z := 4205910959.

Section Metadata.
Context (data : bytes).

Definition rd (n o : Z) : outcome Z := let* s := subspan data o n in Ret (le_val s).
Notation rdU16 := (rd 2).
Notation rdU32 := (rd 4).
Definition rdI32 (o : Z) : outcome Z := let* v := rdU32 o in Ret (i32 v).
Definition regionValid (off size : Z) : bool := (0 <=? off) && (0 <=? size) && (off + size <=? len data).
(** [strnlen] and the copy: the bytes at [o] up to a NUL, [n] at most. *)
Fixpoint beforeNul (s : bytes) : bytes := match s with [] => [] | c :: s => if c =? 0 then [] else c :: beforeNul s end.
Definition stringAt (strOff strSize idx : Z) : outcome bytes :=
  if (idx <? 0) || (strSize <=? idx) then Ret [] else let* s := subspan data (strOff + idx) (Z.min (strSize - idx) 1024) in Ret (beforeNul s).

(** A loop over [n] records that collects what each gives, from index [k]. *)
Fixpoint recordLoop {A} (body : Z → outcome A) (n : nat) (k : Z) : outcome (list A) :=
  match n with
  | O => Ret []
  | S n => let* a := body k in let* rest := recordLoop body n (k + 1) in Ret (a :: rest)
  end.
Definition sumLoop (body : Z → outcome Z) (n : nat) : outcome Z := let* l := recordLoop body n 0 in Ret (foldr Z.add 0 l).

Section Tables.
Context (strOff strSize : Z).
Definition fieldAt (fieldsOff k : Z) : outcome Il2CppFieldDef :=
  let rec := fieldsOff + k * kFieldRecSize in
  let* nameIndex := rdI32 rec in
  let* name := stringAt strOff strSize nameIndex in
  let* typeIndex := rdI32 (rec + 4) in
  let* token := rdU32 (rec + 8) in
  Ret (mkField name typeIndex token).
(** The types from [k] on; [copied] counts the fields copied so far. *)
Fixpoint typeLoop (tdOff nFields : Z) (allFields : list Il2CppFieldDef) (n : nat) (k copied : Z) : outcome (list Il2CppTypeDef) :=
  match n with
  | O => Ret []
  | S n =>
      let rec := tdOff + k * typeDefSize in
      let* nameIndex := rdI32 rec in
      let* name := stringAt strOff strSize nameIndex in
      let* namespaceIndex := rdI32 (rec + 4) in
      let* namespaceName := stringAt strOff strSize namespaceIndex in
      let* token := rdU32 (rec + 84) in
      let* parent := rdI32 (rec + 16) in
      let* fieldStart := rdI32 (rec + 32) in
      let* fieldCount := rdU16 (rec + 68) in
      let copies := (0 <=? fieldStart) && (fieldStart + fieldCount <=? nFields) && (copied + fieldCount <=? nFields) in
      let* fields := if copies then subspan allFields fieldStart fieldCount else Ret [] in
      let* rest := typeLoop tdOff nFields allFields n (k + 1) (if copies then copied + fieldCount else copied) in
      Ret (mkType name namespaceName fields [] token parent :: rest)
  end.
(** The offset of a method's token in the first record. *)
Fixpoint tokenLoop (fuel : nat) (mOff recSize o : Z) : outcome (option Z) :=
  match fuel with
  | O => Undefined
  | S fuel =>
      if (8 <=? recSize) && (o + 4 <=? recSize) then
        let* v := rdU32 (mOff + o) in
        if (Z.shiftr v 24 =? 6) && negb (Z.land v 16777215 =? 0) then Ret (Some o) else tokenLoop fuel mOff recSize (o + 4)
      else Ret None
  end.
Definition methodAt (mOff recSize tokenOff mStart j : Z) : outcome Il2CppMethodDef :=
  let mrec := mOff + (mStart + j) * recSize in
  let* nameIndex := rdI32 mrec in
  let* name := stringAt strOff strSize nameIndex in
  let* token := rdU32 (mrec + tokenOff) in
  Ret (mkMethod name token).
Definition withMethods (t : Il2CppTypeDef) (methods : list Il2CppMethodDef) : Il2CppTypeDef :=
  mkType (td_name t) (td_namespaceName t) (td_fields t) methods (td_token t) (td_parentTypeIndex t).
Definition kMaxMethodNameBytes : Z := 268435456.
Fixpoint methodLoop (tdOff mOff recSize tokenOff totalMethods : Z) (types : list Il2CppTypeDef) (k nameBytes : Z) : outcome (list Il2CppTypeDef) :=
  match types with
  | [] => Ret []
  | t :: rest =>
      if kMaxMethodNameBytes <=? nameBytes then Ret types else
      let trec := tdOff + k * typeDefSize in
      let* mStart := rdI32 (trec + 36) in
      let* mCount := rdU16 (trec + 64) in
      if (mStart <? 0) || (totalMethods <? mStart + mCount) then
        let* rest := methodLoop tdOff mOff recSize tokenOff totalMethods rest (k + 1) nameBytes in Ret (t :: rest)
      else
        let* methods := recordLoop (methodAt mOff recSize tokenOff mStart) (Z.to_nat mCount) 0 in
        let nameBytes := nameBytes + foldr Z.add 0 ((λ m, len (md_name m)) <$> methods) in
        let* rest := methodLoop tdOff mOff recSize tokenOff totalMethods rest (k + 1) nameBytes in Ret (withMethods t methods :: rest)
  end.
Definition decodeMethods (tdOff : Z) (types : list Il2CppTypeDef) : outcome (list Il2CppTypeDef) :=
  if len data <? 56 then Ret types else
  let* mOff := rdI32 48 in
  let* mSize := rdI32 52 in
  if negb (regionValid mOff mSize) || (mSize <=? 0) then Ret types else
  let* totalMethods := sumLoop (λ k, rdU16 (tdOff + k * typeDefSize + 64)) (length types) in
  if (totalMethods <=? 0) || negb (mSize mod totalMethods =? 0) then Ret types else
  let recSize := mSize / totalMethods in
  let* tokenOff := tokenLoop (S (Z.to_nat recSize)) mOff recSize 0 in
  match tokenOff with
  | None => Ret types
  | Some tokenOff => methodLoop tdOff mOff recSize tokenOff totalMethods types 0 0
  end.
Definition imageAt (imgOff nTypes k : Z) : outcome Il2CppImageDef :=
  let rec := imgOff + k * imageSize in
  let* nameIndex := rdI32 rec in
  let* name := stringAt strOff strSize nameIndex in
  let* typeStart := rdU32 (rec + 8) in
  let* typeCount := rdU32 (rec + 12) in
  Ret (if typeStart + typeCount <=? nTypes then mkImage name typeStart typeCount else mkImage name 0 0).
(** The types and images, [None] when the tables are not decoded. *)
Definition decodeTables (version : Z) : outcome (option (list Il2CppTypeDef * list Il2CppImageDef)) :=
  if negb (layoutFor version) || (len data <? 176) then Ret None else
  let* fieldsOff := rdI32 96 in
  let* fieldsSize := rdI32 100 in
  let* tdOff := rdI32 160 in
  let* tdSize := rdI32 164 in
  let* imgOff := rdI32 168 in
  let* imgSize := rdI32 172 in
  if negb (regionValid fieldsOff fieldsSize) || negb (regionValid tdOff tdSize) || negb (regionValid imgOff imgSize) then Ret None else
  let nImages := imgSize / imageSize in
  let* totalTypes := sumLoop (λ k, rdU32 (imgOff + k * imageSize + 12)) (Z.to_nat nImages) in
  if totalTypes =? 0 then Ret None else
  if tdSize / typeDefSize <? totalTypes then Ret None else
  if negb (tdSize =? totalTypes * typeDefSize) then Ret None else
  let nFields := fieldsSize / kFieldRecSize in
  let* allFields := recordLoop (fieldAt fieldsOff) (Z.to_nat nFields) 0 in
  let* types := typeLoop tdOff nFields allFields (Z.to_nat totalTypes) 0 0 in
  let* types := decodeMethods tdOff types in
  let* images := recordLoop (imageAt imgOff totalTypes) (Z.to_nat nImages) 0 in
  Ret (Some (types, images)).
End Tables.

Definition isIl2CppMetadata : outcome bool := if len data <? 4 then Ret false else let* m := rdU32 0 in Ret (m =? kIl2CppMagic).
Definition il2cppTablesSupported (version : Z) : bool := layoutFor version.
Definition kMaxStrings : Z := 8388608.
(** The identifiers from index [i] on; [count] of them were found. *)
Fixpoint poolLoop (fuel : nat) (strOff strSize i count : Z) : outcome (list bytes) :=
  match fuel with
  | O => Undefined
  | S fuel =>
      if (i <? strSize) && (count <? kMaxStrings) then
        let maxLen := strSize - i in
        let* s := subspan data (strOff + i) maxLen in
        let t := beforeNul s in
        let here := if len t =? 0 then [] else [t] in
        if len t =? maxLen then Ret here else
        let* rest := poolLoop fuel strOff strSize (i + len t + 1) (count + len here) in Ret (here ++ rest)
      else Ret []
  end.
Fixpoint literalLoop (fuel : nat) (litOff litSize litDataOff litDataSize i copied : Z) : outcome (list bytes) :=
  match fuel with
  | O => Undefined
  | S fuel =>
      if 2 ^ 31 <=? i + 8 then Undefined else
      if i + 8 <=? litSize then
        let* length := rdU32 (litOff + i) in
        let* dataIndex := rdI32 (litOff + i + 4) in
        if (dataIndex <? 0) || (litDataSize <? dataIndex + length) then literalLoop fuel litOff litSize litDataOff litDataSize (i + 8) copied else
        if litDataSize <? copied + length then Ret [] else
        let* s := subspan data (litDataOff + dataIndex) length in
        let* rest := literalLoop fuel litOff litSize litDataOff litDataSize (i + 8) (copied + length) in Ret (s :: rest)
      else Ret []
  end.
Definition parseIl2CppMetadata : outcome (option Il2CppMetadata) :=
  if len data <? 32 then Ret None else
  let* magic := rdU32 0 in
  if negb (magic =? kIl2CppMagic) then Ret None else
  let* version := rdI32 4 in
  let* strOff := rdI32 24 in
  let* strSize := rdI32 28 in
  if negb (regionValid strOff strSize) then Ret None else
  let* strings := poolLoop (S (Z.to_nat strSize)) strOff strSize 0 0 in
  let* litOff := rdI32 8 in
  let* litSize := rdI32 12 in
  let* litDataOff := rdI32 16 in
  let* litDataSize := rdI32 20 in
  let* literals := if regionValid litOff litSize && regionValid litDataOff litDataSize
    then literalLoop (S (Z.to_nat (litSize / 8))) litOff litSize litDataOff litDataSize 0 0 else Ret [] in
  let* tables := decodeTables strOff strSize version in
  Ret (Some (match tables with
             | Some (types, images) => mkMetadata version strings literals true types images
             | None => mkMetadata version strings literals false [] []
             end)).
End Metadata.
