(* ===== verification/Il2CppMetadataSpec.v ===== *)
(** * Parsing il2cpp metadata is safe, and its result no larger than the file

    The file may name the same bytes any number of times: what the parser copies of them is
    bounded by the size of the file all the same. *)

From S2P Require Import Prelude Returns Il2CppMetadata.
#[local] Open Scope Z_scope.

(** The sum of a measure over a list. *)
Definition sumOf {A} (f : A → Z) (l : list A) : Z := foldr Z.add 0 (f <$> l).
Lemma sumOf_cons {A} (f : A → Z) x l : sumOf f (x :: l) = f x + sumOf f l.
Proof. done. Qed.
Lemma sumOf_app {A} (f : A → Z) l k : sumOf f (l ++ k) = sumOf f l + sumOf f k.
Proof. induction l as [|x l IH]; [done|]. cbn [app]. rewrite !sumOf_cons, IH. lia. Qed.
Lemma sumOf_bound {A} (f : A → Z) m l : Forall (λ x, f x ≤ m) l → sumOf f l ≤ m * len l.
Proof. induction 1; [unfold len; cbn; lia|]. rewrite sumOf_cons, len_cons. lia. Qed.
Lemma sumOf_nonneg {A} (f : A → Z) l : Forall (λ x, 0 ≤ f x) l → 0 ≤ sumOf f l.
Proof. induction 1; [done|]. rewrite sumOf_cons. lia. Qed.

Section Metadata.
Context (data : bytes) (Hok : bytes_ok data).

Lemma rd_ok n o : 0 ≤ n → 0 ≤ o → o + n ≤ len data → gives (rd data n o) (λ v, 0 ≤ v < 2 ^ (8 * n)).
Proof using Hok.
  intros Hn Ho Hr. unfold rd. destruct (subspan_defined data o n) as [-> L]; [done..|]. cbn [obind]. apply gives_ret.
  pose proof (le_val_bound (slice data o n) ltac:(by apply bytes_ok_slice)) as H. rewrite L in H. by rewrite (Z.pow_mul_r 2 8 n) by lia.
Qed.
Lemma rdU32_ok o : 0 ≤ o → o + 4 ≤ len data → gives (rd data 4 o) (λ v, 0 ≤ v < 2 ^ 32).
Proof using Hok. intros. by apply rd_ok. Qed.
(** The words of the header and of the records, unsigned and signed. *)
Definition word (o : Z) : Z := le_val (slice data o 4).
Definition field (o : Z) : Z := i32 (word o).
Lemma rdU32_word o : 0 ≤ o → o + 4 ≤ len data → rd data 4 o = Ret (word o) ∧ 0 ≤ word o < 2 ^ 32.
Proof using Hok.
  intros Ho Hr. destruct (rdU32_ok o Ho Hr) as (v & E & Hv). unfold rd in *.
  destruct (subspan_defined data o 4) as [E' _]; [done..|]. rewrite E' in *. by injection E as <-.
Qed.
Lemma rdI32_field o : 0 ≤ o → o + 4 ≤ len data → rdI32 data o = Ret (field o).
Proof using Hok. intros Ho Hr. unfold rdI32. by destruct (rdU32_word o Ho Hr) as [-> _]. Qed.
Lemma rdU16_ok o : 0 ≤ o → o + 2 ≤ len data → gives (rd data 2 o) (λ v, 0 ≤ v < 2 ^ 16).
Proof using Hok. intros. by apply rd_ok. Qed.
Lemma rdI32_ok o : 0 ≤ o → o + 4 ≤ len data → gives (rdI32 data o) (λ v, - 2 ^ 31 ≤ v < 2 ^ 31).
Proof using Hok. intros. unfold rdI32. eapply gives_bind; [by apply rdU32_ok|]. intros v _. apply gives_ret. by apply (to_signed_bound 32). Qed.
Lemma regionValid_spec off size : regionValid data off size = true ↔ 0 ≤ off ∧ 0 ≤ size ∧ off + size ≤ len data.
Proof using. unfold regionValid. rewrite !andb_true_iff, !Z.leb_le. tauto. Qed.
Lemma beforeNul_spec s : len (beforeNul s) ≤ len s ∧ Forall (λ c, c ≠ 0) (beforeNul s).
Proof using. induction s as [|c s [IH1 IH2]]; cbn [beforeNul]; [done|]. pose proof (len_nonneg s). destruct (Z.eqb_spec c 0); rewrite ?len_cons; [split; [rewrite len_nil; lia|done]|]. split; [lia|by constructor]. Qed.

(** A name: no NUL in it, [limit] bytes at most. *)
Definition nameWithin (limit : Z) (s : bytes) : Prop := Forall (λ c, c ≠ 0) s ∧ len s ≤ limit.
Lemma stringAt_ok strOff strSize idx : regionValid data strOff strSize = true → gives (stringAt data strOff strSize idx) (nameWithin 1024).
Proof using.
  intros (H1 & H2 & H3)%regionValid_spec. unfold stringAt. destruct (_ || _) eqn:E; [by apply gives_ret|]. rewrite orb_false_iff, Z.ltb_ge, Z.leb_gt in E.
  destruct (subspan_defined data (strOff + idx) (Z.min (strSize - idx) 1024)) as [-> L]; [lia..|]. cbn [obind]. apply gives_ret. destruct (beforeNul_spec (slice data (strOff + idx) (Z.min (strSize - idx) 1024))). split; [done|lia].
Qed.

(** ** Loops over records *)

Lemma recordLoop_ok {A} (body : Z → outcome A) P n : ∀ k, (∀ i, k ≤ i < k + Z.of_nat n → gives (body i) P) → gives (recordLoop body n k) (λ l, Forall P l ∧ length l = n).
Proof using.
  induction n as [|n IH]; intros k H; cbn [recordLoop]; [by apply gives_ret|]. eapply gives_bind; [apply H; lia|]. intros a Ha.
  eapply gives_bind; [apply IH; intros; apply H; lia|]. intros l [Hl <-]. apply gives_ret. split; [by constructor|done].
Qed.
Lemma sumLoop_ok (body : Z → outcome Z) m n : (∀ i, 0 ≤ i < Z.of_nat n → gives (body i) (λ v, 0 ≤ v < m)) → gives (sumLoop body n) (λ s, 0 ≤ s ∧ ∃ l, recordLoop body n 0 = Ret l ∧ s = foldr Z.add 0 l ∧ Forall (λ v, 0 ≤ v < m) l).
Proof using.
  intros H. unfold sumLoop. eapply gives_bind; [apply gives_eq, (recordLoop_ok _ (λ v, 0 ≤ v < m)); intros; apply H; lia|]. intros l (E & Hl & _). apply gives_ret. split; [|by exists l]. clear E. induction Hl; cbn; lia.
Qed.

Section Tables.
Context (strOff strSize : Z) (Hstr : regionValid data strOff strSize = true).

Definition fieldOk (f : Il2CppFieldDef) : Prop := nameWithin 1024 (fd_name f).
Lemma fieldAt_ok fieldsOff k : 0 ≤ fieldsOff → 0 ≤ k → fieldsOff + (k + 1) * 12 ≤ len data → gives (fieldAt data strOff strSize fieldsOff k) fieldOk.
Proof using Hok Hstr.
  intros. unfold fieldAt, kFieldRecSize. eapply gives_bind; [apply rdI32_ok; lia|]. intros nameIndex _. eapply gives_bind; [by apply stringAt_ok|]. intros name Hn.
  eapply gives_bind; [apply rdI32_ok; lia|]. intros ty _. eapply gives_bind; [apply rdU32_ok; lia|]. intros token _. by apply gives_ret.
Qed.
Definition namesOk (t : Il2CppTypeDef) : Prop := nameWithin 1024 (td_name t) ∧ nameWithin 1024 (td_namespaceName t) ∧ Forall fieldOk (td_fields t).
Lemma typeLoop_ok tdOff nFields allFields n : 0 ≤ tdOff → Forall fieldOk allFields → len allFields = nFields → ∀ k copied, 0 ≤ k → tdOff + (k + Z.of_nat n) * 88 ≤ len data → 0 ≤ copied ≤ nFields →
  gives (typeLoop data strOff strSize tdOff nFields allFields n k copied) (λ l, Forall (λ t, namesOk t ∧ td_methods t = []) l ∧ length l = n ∧ copied + sumOf (λ t, len (td_fields t)) l ≤ nFields).
Proof using Hok Hstr.
  intros Htd Hall Hlen. induction n as [|n IH]; intros k copied Hk Hr Hc; cbn [typeLoop]; [apply gives_ret; split_and!; [done..|cbn; lia]|]. unfold typeDefSize.
  eapply gives_bind; [apply rdI32_ok; lia|]. intros nameIndex _. eapply gives_bind; [by apply stringAt_ok|]. intros name Hname. eapply gives_bind; [apply rdI32_ok; lia|]. intros nsIndex _. eapply gives_bind; [by apply stringAt_ok|]. intros ns Hns.
  eapply gives_bind; [apply rdU32_ok; lia|]. intros token _. eapply gives_bind; [apply rdI32_ok; lia|]. intros parent _. eapply gives_bind; [apply rdI32_ok; lia|]. intros start _. eapply gives_bind; [apply rdU16_ok; lia|]. intros count Hcount. cbv beta zeta in *.
  set (copies := _ && _ && _). assert (Hcopies : copies = true → 0 ≤ start ∧ start + count ≤ nFields ∧ copied + count ≤ nFields) by (unfold copies; rewrite !andb_true_iff, !Z.leb_le; tauto).
  apply (gives_bind _ _ (λ fields, Forall fieldOk fields ∧ len fields = if copies then count else 0)).
  { destruct copies; [|by apply gives_ret]. destruct (subspan_defined allFields start count) as [-> L]; [lia..|]. apply gives_ret. split; [by apply Forall_take, Forall_drop|done]. }
  intros fields [Hf Hl]. eapply gives_bind; [apply (IH (k + 1) (if copies then copied + count else copied)); [lia|lia|destruct copies; lia]|]. intros rest (Hrest & <- & Ht). apply gives_ret.
  split_and!; [by constructor|done|]. rewrite sumOf_cons. cbn [td_fields]. rewrite Hl. destruct copies; lia.
Qed.

(** ** Methods *)

Lemma tokenLoop_ok mOff recSize fuel : 0 ≤ mOff → mOff + recSize ≤ len data → ∀ o, 0 ≤ o → Z.max 0 (recSize - o) < Z.of_nat fuel →
  gives (tokenLoop data fuel mOff recSize o) (λ r, ∀ t, r = Some t → 0 ≤ t ∧ t + 4 ≤ recSize ∧ 8 ≤ recSize).
Proof using Hok.
  intros Hm Hr. induction fuel as [|fuel IH]; intros o Ho Hf; [lia|]. cbn [tokenLoop]. destruct (_ && _) eqn:E; [|by apply gives_ret]. rewrite andb_true_iff, !Z.leb_le in E.
  eapply gives_bind; [apply rdU32_ok; lia|]. intros v _. destruct (_ && _); [|apply IH; lia]. apply gives_ret. intros t [= <-]. lia.
Qed.
Definition methodOk (m : Il2CppMethodDef) : Prop := nameWithin 1024 (md_name m).
Lemma methodAt_ok mOff recSize tokenOff mStart j : 0 ≤ mOff → 0 ≤ mStart → 0 ≤ j → 0 ≤ tokenOff → tokenOff + 4 ≤ recSize → mOff + (mStart + j + 1) * recSize ≤ len data →
  gives (methodAt data strOff strSize mOff recSize tokenOff mStart j) methodOk.
Proof using Hok Hstr.
  intros. unfold methodAt. assert (0 ≤ (mStart + j) * recSize) by nia. eapply gives_bind; [apply rdI32_ok; nia|]. intros nameIndex _. eapply gives_bind; [by apply stringAt_ok|]. intros name Hn.
  eapply gives_bind; [apply rdU32_ok; nia|]. intros token _. by apply gives_ret.
Qed.
Definition fieldsOf (t : Il2CppTypeDef) : Z := len (td_fields t).
Definition methodsOf (t : Il2CppTypeDef) : Z := len (td_methods t).
Definition nameBytesOf (t : Il2CppTypeDef) : Z := sumOf (λ m, len (md_name m)) (td_methods t).
Definition typeOk (t : Il2CppTypeDef) : Prop := namesOk t ∧ Forall methodOk (td_methods t).
(** The bytes the names of the methods may still take when [nameBytes] of them are copied. *)
Definition namesLeft (nameBytes : Z) : Z := if kMaxMethodNameBytes <=? nameBytes then 0 else kMaxMethodNameBytes - nameBytes + 2 ^ 26.
Lemma sumOf_zero {A} (f : A → Z) l : Forall (λ x, f x = 0) l → sumOf f l = 0.
Proof using. induction 1 as [|x l Hx _ IH]; [done|]. rewrite sumOf_cons. lia. Qed.
Lemma recordLoop_cons {A} (body : Z → outcome A) n k l : recordLoop body (S n) k = Ret l → ∃ a rest, body k = Ret a ∧ recordLoop body n (k + 1) = Ret rest ∧ l = a :: rest.
Proof using. cbn [recordLoop]. intros (a & Ha & (rest & Hr & [= <-])%obind_Ret)%obind_Ret. by exists a, rest. Qed.
Lemma methodsOk_names ms : Forall methodOk ms → len ms ≤ 65535 → 0 ≤ sumOf (λ m, len (md_name m)) ms ≤ 2 ^ 26.
Proof using.
  intros H Hl. split; [apply sumOf_nonneg, Forall_true; intros; apply len_nonneg|]. etransitivity; [apply (sumOf_bound _ 1024)|lia]. eapply Forall_impl; [exact H|]. by intros m [_ ?].
Qed.
Lemma methodLoop_ok tdOff mOff recSize tokenOff totalMethods types : 0 ≤ tdOff → 0 ≤ mOff → 0 ≤ tokenOff → tokenOff + 4 ≤ recSize → mOff + totalMethods * recSize ≤ len data →
  Forall (λ t, namesOk t ∧ td_methods t = []) types → ∀ k nameBytes counts, 0 ≤ k → tdOff + (k + len types) * 88 ≤ len data →
  recordLoop (λ k, rd data 2 (tdOff + k * typeDefSize + 64)) (length types) k = Ret counts → Forall (λ v, 0 ≤ v < 2 ^ 16) counts →
  gives (methodLoop data strOff strSize tdOff mOff recSize tokenOff totalMethods types k nameBytes)
    (λ l, Forall typeOk l ∧ length l = length types ∧ sumOf fieldsOf l = sumOf fieldsOf types ∧ sumOf methodsOf l ≤ foldr Z.add 0 counts ∧ sumOf nameBytesOf l ≤ namesLeft nameBytes).
Proof using Hok Hstr.
  intros Htd Hm Htok Hrec Hr. induction 1 as [|t types [Hn Hnil] Hall IH]; intros k nameBytes counts Hk Hlen E Hc.
  { cbn [methodLoop]. apply gives_ret. cbn in E. injection E as <-. split_and!; [done..|]. unfold namesLeft. cbn. destruct (Z.leb_spec kMaxMethodNameBytes nameBytes); lia. }
  cbn [length] in E. apply recordLoop_cons in E as (count & counts' & Ea & E & ->). apply Forall_cons in Hc as [Hcount Hc]. rewrite len_cons in Hlen. pose proof (len_nonneg types). cbn [methodLoop].
  destruct (Z.leb_spec kMaxMethodNameBytes nameBytes) as [|Hlt].
  { apply gives_ret. assert (Hz : Forall (λ t, td_methods t = []) (t :: types)) by (constructor; [done|]; eapply Forall_impl; [exact Hall|]; by intros ? []).
    split_and!; [|done|done| |].
    - constructor; [split; [done|by rewrite Hnil]|]. eapply Forall_impl; [exact Hall|]. intros u [? Hu]. split; [done|by rewrite (Hu : td_methods u = [])].
    - rewrite sumOf_zero by (eapply Forall_impl; [exact Hz|]; intros u Hu; unfold methodsOf; by rewrite (Hu : td_methods u = [])). cbn. enough (0 ≤ foldr Z.add 0 counts') by lia. clear -Hc. induction Hc; cbn; lia.
    - rewrite sumOf_zero by (eapply Forall_impl; [exact Hz|]; intros u Hu; unfold nameBytesOf; by rewrite (Hu : td_methods u = [])). unfold namesLeft. destruct (Z.leb_spec kMaxMethodNameBytes nameBytes); lia. }
  unfold typeDefSize in *. eapply gives_bind; [apply rdI32_ok; lia|]. intros mStart _. apply (gives_bind _ _ (λ v, v = count)); [by exists count|]. intros ? ->. cbv beta zeta. destruct (_ || _) eqn:Ec.
  - eapply gives_bind; [apply (IH (k + 1) nameBytes counts'); [lia|lia|exact E|exact Hc]|]. intros rest (H1 & H2 & H3 & H4 & H5). apply gives_ret. rewrite !sumOf_cons. split_and!.
    + constructor; [split; [done|by rewrite Hnil]|done].
    + cbn. by rewrite H2.
    + by rewrite H3.
    + unfold methodsOf at 1. rewrite Hnil, len_nil. cbn. lia.
    + unfold nameBytesOf at 1. rewrite Hnil. cbn. lia.
  - rewrite orb_false_iff, !Z.ltb_ge in Ec. eapply gives_bind; [apply (recordLoop_ok _ methodOk); intros i Hi; apply methodAt_ok; nia|]. intros methods [Hms Hl]. assert (Hlm : len methods = count) by (unfold len; lia). cbv zeta.
    change (foldr Z.add 0 ((λ m, len (md_name m)) <$> methods)) with (sumOf (λ m, len (md_name m)) methods). destruct (methodsOk_names methods) as [Hx1 Hx2]; [done|lia|]. set (x := sumOf _ methods) in *.
    eapply gives_bind; [apply (IH (k + 1) (nameBytes + x) counts'); [lia|lia|exact E|exact Hc]|]. intros rest (H1 & H2 & H3 & H4 & H5). apply gives_ret. rewrite !sumOf_cons. split_and!.
    + constructor; [by split|done].
    + cbn. by rewrite H2.
    + by rewrite H3.
    + unfold methodsOf at 1. cbn. lia.
    + unfold nameBytesOf at 1. cbn [td_methods withMethods]. fold x. unfold namesLeft in *. destruct (Z.leb_spec kMaxMethodNameBytes nameBytes); [lia|]. destruct (Z.leb_spec kMaxMethodNameBytes (nameBytes + x)); lia.
Qed.

(** The methods of all types together: as many as the table holds, with bounded names. *)
Definition methodsWithin (l : list Il2CppTypeDef) : Prop := 8 * sumOf methodsOf l ≤ len data ∧ sumOf nameBytesOf l ≤ namesLeft 0.
Lemma decodeMethods_ok tdOff types : 0 ≤ tdOff → tdOff + len types * 88 ≤ len data → Forall (λ t, namesOk t ∧ td_methods t = []) types →
  gives (decodeMethods data strOff strSize tdOff types) (λ l, Forall typeOk l ∧ length l = length types ∧ sumOf fieldsOf l = sumOf fieldsOf types ∧ methodsWithin l).
Proof using Hok Hstr.
  intros Htd Hr Hall. assert (Hnone : gives (Ret types) (λ l, Forall typeOk l ∧ length l = length types ∧ sumOf fieldsOf l = sumOf fieldsOf types ∧ methodsWithin l)).
  { apply gives_ret. split_and!; [|done|done|split].
    - eapply Forall_impl; [exact Hall|]. intros u [? Hu]. split; [done|]. by rewrite (Hu : td_methods u = []).
    - rewrite sumOf_zero; [pose proof (len_nonneg data); lia|]. eapply Forall_impl; [exact Hall|]. intros u [? Hu]. unfold methodsOf. by rewrite (Hu : td_methods u = []).
    - rewrite sumOf_zero; [done|]. eapply Forall_impl; [exact Hall|]. intros u [? Hu]. unfold nameBytesOf. by rewrite (Hu : td_methods u = []). }
  unfold decodeMethods. destruct (Z.ltb_spec (len data) 56); [done|]. eapply gives_bind; [apply rdI32_ok; lia|]. intros mOff _. eapply gives_bind; [apply rdI32_ok; lia|]. intros mSize _.
  destruct (regionValid data mOff mSize) eqn:E; cbn [negb orb]; [|done]. apply regionValid_spec in E as (H1 & H2 & H3). destruct (Z.leb_spec mSize 0); [done|].
  eapply gives_bind; [apply (sumLoop_ok _ (2 ^ 16)); intros i Hi; unfold typeDefSize; apply rdU16_ok; unfold len in *; lia|]. intros totalMethods (Ht & counts & E & Hsum & Hc). destruct (Z.leb_spec totalMethods 0); cbn [orb]; [done|].
  destruct (Z.eqb_spec (mSize mod totalMethods) 0) as [Hmod|]; cbn [negb]; [|done]. cbv zeta. assert (Hsize : mSize = totalMethods * (mSize / totalMethods)) by (pose proof (Z.div_mod mSize totalMethods); lia). set (recSize := mSize / totalMethods) in *.
  assert (0 ≤ recSize) by (apply Z.div_pos; lia). eapply gives_bind; [apply tokenLoop_ok; nia|]. intros [tokenOff|] Htok; [|done]. cbv beta in Htok. destruct (Htok _ eq_refl) as (Htok1 & Htok2 & Hrec).
  eapply gives_mono; [apply (methodLoop_ok _ _ _ _ _ _) with (counts := counts); try done; lia|]. intros l (Hl1 & Hl2 & Hl3 & Hl4 & Hl5). split_and!; [done..|]. split; [nia|done].
Qed.

(** ** Images and tables *)

(** The run of types of an image lies among the types. *)
Definition imageOk (nTypes : Z) (i : Il2CppImageDef) : Prop := nameWithin 1024 (id_name i) ∧ 0 ≤ id_typeStart i ∧ 0 ≤ id_typeCount i ∧ id_typeStart i + id_typeCount i ≤ nTypes.
Lemma imageAt_ok imgOff nTypes k : 0 ≤ nTypes → 0 ≤ imgOff → 0 ≤ k → imgOff + (k + 1) * 40 ≤ len data → gives (imageAt data strOff strSize imgOff nTypes k) (imageOk nTypes).
Proof using Hok Hstr.
  intros. unfold imageAt, imageSize. eapply gives_bind; [apply rdI32_ok; lia|]. intros nameIndex _. eapply gives_bind; [by apply stringAt_ok|]. intros name Hn. eapply gives_bind; [apply rdU32_ok; lia|]. intros start Hs. eapply gives_bind; [apply rdU32_ok; lia|]. intros count Hc.
  cbv beta in Hs, Hc. apply gives_ret. destruct (Z.leb_spec (start + count) nTypes); (split; [done|]); cbn [id_typeStart id_typeCount]; lia.
Qed.
Definition tablesOk (types : list Il2CppTypeDef) (images : list Il2CppImageDef) : Prop :=
  Forall typeOk types ∧ 88 * len types ≤ len data ∧ 12 * sumOf fieldsOf types ≤ len data ∧ methodsWithin types ∧ Forall (imageOk (len types)) images ∧ 40 * len images ≤ len data.
Lemma decodeTables_ok version : gives (decodeTables data strOff strSize version) (λ r, ∀ types images, r = Some (types, images) → tablesOk types images).
Proof using Hok Hstr.
  unfold decodeTables. destruct (Z.ltb_spec (len data) 176); [rewrite orb_true_r; by apply gives_ret|]. rewrite orb_false_r. destruct (negb _); [by apply gives_ret|].
  eapply gives_bind; [apply rdI32_ok; lia|]. intros fieldsOff _. eapply gives_bind; [apply rdI32_ok; lia|]. intros fieldsSize _. eapply gives_bind; [apply rdI32_ok; lia|]. intros tdOff _. eapply gives_bind; [apply rdI32_ok; lia|]. intros tdSize _. eapply gives_bind; [apply rdI32_ok; lia|]. intros imgOff _. eapply gives_bind; [apply rdI32_ok; lia|]. intros imgSize _.
  destruct (regionValid data fieldsOff fieldsSize) eqn:E1; cbn [negb orb]; [|by apply gives_ret]. destruct (regionValid data tdOff tdSize) eqn:E2; cbn [negb orb]; [|by apply gives_ret]. destruct (regionValid data imgOff imgSize) eqn:E3; cbn [negb]; [|by apply gives_ret].
  apply regionValid_spec in E1, E2, E3. unfold imageSize, typeDefSize, kFieldRecSize. pose proof (Z.mul_div_le imgSize 40 ltac:(lia)) as Hi. pose proof (Z.mul_div_le fieldsSize 12 ltac:(lia)) as Hf. pose proof (Z.div_pos imgSize 40 ltac:(lia) ltac:(lia)). pose proof (Z.div_pos fieldsSize 12 ltac:(lia) ltac:(lia)). cbv zeta. set (nImages := imgSize / 40) in *. set (nFields := fieldsSize / 12) in *.
  eapply gives_bind; [apply (sumLoop_ok _ (2 ^ 32)); intros i Hin; apply rdU32_ok; lia|]. intros nTypes (Hn & _). destruct (nTypes =? 0); [by apply gives_ret|]. destruct (_ <? nTypes); [by apply gives_ret|]. destruct (Z.eqb_spec tdSize (nTypes * 88)) as [->|]; cbn [negb]; [|by apply gives_ret].
  eapply gives_bind; [apply (recordLoop_ok _ fieldOk); intros i Hin; apply fieldAt_ok; lia|]. intros allFields [Hall Hlen]. assert (Hlf : len allFields = nFields) by (unfold len; lia).
  eapply gives_bind; [apply (typeLoop_ok tdOff nFields allFields (Z.to_nat nTypes)); try done; lia|]. intros types (Ht1 & Ht2 & Ht3). assert (Hlt : len types = nTypes) by (unfold len; lia).
  eapply gives_bind; [apply (decodeMethods_ok tdOff types); [lia|lia|done]|]. intros types' (G1 & G2 & G3 & G4). assert (Hlt' : len types' = nTypes) by (unfold len in *; lia).
  eapply gives_bind; [apply (recordLoop_ok _ (imageOk nTypes)); intros i Hin; apply imageAt_ok; lia|]. intros images [Hi1 Hi2]. apply gives_ret. intros ? ? [= <- <-].
  unfold tablesOk. rewrite Hlt', G3. change (sumOf fieldsOf types) with (sumOf (λ t, len (td_fields t)) types). split_and!; [done|lia|lia|done|done|unfold len in *; lia].
Qed.
End Tables.

(** ** The pools of strings *)

(** The maximal runs without a NUL of a region, the last of them begun by [cur]. *)
Definition run (cur : bytes) : list bytes := if bool_decide (cur = []) then [] else [cur].
Fixpoint runs (cur s : bytes) : list bytes :=
  match s with
  | [] => run cur
  | c :: s => if c =? 0 then run cur ++ runs [] s else runs (cur ++ [c]) s
  end.
Lemma runs_before cur s : runs cur s = run (cur ++ beforeNul s) ++ (if len (beforeNul s) =? len s then [] else runs [] (drop (S (length (beforeNul s))) s)).
Proof using.
  revert cur. induction s as [|c s IH]; intros cur; cbn [runs beforeNul]; [by rewrite !app_nil_r|]. pose proof (len_nonneg s). destruct (c =? 0).
  - rewrite app_nil_r, len_nil, len_cons. by destruct (Z.eqb_spec 0 (1 + len s)); [lia|].
  - rewrite IH, <- app_assoc. cbn [app length]. rewrite !len_cons. f_equal. destruct (Z.eqb_spec (len (beforeNul s)) (len s)), (Z.eqb_spec (1 + len (beforeNul s)) (1 + len s)); lia || done.
Qed.
Lemma runs_nonempty cur s : Forall (λ c, c ≠ 0) cur → Forall (λ t, t ≠ [] ∧ Forall (λ c, c ≠ 0) t) (runs cur s).
Proof using.
  assert (Hrun : ∀ cur, Forall (λ c, c ≠ 0) cur → Forall (λ t, t ≠ [] ∧ Forall (λ c, c ≠ 0) t) (run cur)) by (intros u Hu; unfold run; case_bool_decide; by repeat constructor).
  revert cur. induction s as [|c s IH]; intros cur Hc; cbn [runs]; [by apply Hrun|]. destruct (Z.eqb_spec c 0); [apply Forall_app_2; [by apply Hrun|by apply IH]|]. apply IH, Forall_app_2; [done|by constructor].
Qed.
Lemma runs_total cur s : sumOf len (runs cur s) ≤ len cur + len s.
Proof using.
  assert (Hrun : ∀ cur : bytes, sumOf len (run cur) = len cur) by (intros u; unfold run; case_bool_decide; [by subst|cbn; lia]).
  revert cur. induction s as [|c s IH]; intros cur; cbn [runs]; [rewrite Hrun, len_nil; lia|]. rewrite len_cons. destruct (c =? 0); [rewrite sumOf_app, Hrun; specialize (IH []); rewrite len_nil in IH; lia|]. specialize (IH (cur ++ [c])). rewrite len_app in IH. cbn in IH. unfold len in *. cbn in IH. lia.
Qed.

Lemma poolLoop_ok strOff strSize fuel : regionValid data strOff strSize = true → ∀ i count, 0 ≤ i ≤ strSize → strSize - i < Z.of_nat fuel → 0 ≤ count →
  poolLoop data fuel strOff strSize i count = Ret (take (Z.to_nat (kMaxStrings - count)) (runs [] (slice data (strOff + i) (strSize - i)))).
Proof using.
  intros (H1 & H2 & H3)%regionValid_spec. induction fuel as [|fuel IH]; intros i count Hi Hf Hc; [lia|]. cbn [poolLoop]. destruct (Z.ltb_spec i strSize) as [Hlt|]; cbn [andb].
  2: { rewrite (Z.le_antisymm i strSize), Z.sub_diag by lia. unfold slice. rewrite take_0. cbn [runs]. unfold run. rewrite bool_decide_true by done. by rewrite take_nil. }
  destruct (Z.ltb_spec count kMaxStrings); [|by rewrite (Z2Nat.nonpos (kMaxStrings - count)) by lia]. destruct (subspan_defined data (strOff + i) (strSize - i)) as [-> L]; [lia..|]. cbn [obind]. set (s := slice data (strOff + i) (strSize - i)) in *.
  rewrite runs_before. cbn [app]. set (t := beforeNul s). destruct (beforeNul_spec s) as [Ht _]. fold t in Ht. pose proof (len_nonneg t). rewrite L. rewrite L in Ht. cbv zeta.
  assert (Hhere : (if len t =? 0 then [] else [t]) = run t) by (unfold run; destruct t as [|c u]; [done|rewrite len_cons; pose proof (len_nonneg u); by destruct (Z.eqb_spec (1 + len u) 0); [lia|]]). rewrite Hhere.
  assert (Hlen : len (run t) = 0 ∨ len (run t) = 1) by (unfold run; case_bool_decide; [by left|by right]). assert (Hbig : len (run t) ≤ kMaxStrings - count) by lia.
  destruct (Z.eqb_spec (len t) (strSize - i)); [rewrite app_nil_r, take_ge; [done|unfold len in *; lia]|]. rewrite IH by lia. cbn [obind].
  assert (Hd : drop (S (length t)) s = slice data (strOff + (i + len t + 1)) (strSize - (i + len t + 1))).
  { unfold s, slice. rewrite skipn_firstn_comm, drop_drop. unfold len in *. f_equal; [lia|f_equal; lia]. }
  rewrite Hd. rewrite take_app. f_equal. f_equal; [symmetry; apply take_ge; unfold len in *; lia|]. f_equal. unfold len in *. lia.
Qed.

(** The literals that [n] records of the table from byte [i] on name inside the data region,
    in order; and those copied before their total passes [m]. *)
Fixpoint declared (litOff litDataOff litDataSize : Z) (n : nat) (i : Z) : list bytes :=
  match n with
  | O => []
  | S n =>
      let length := word (litOff + i) in
      let dataIndex := field (litOff + i + 4) in
      (if (0 <=? dataIndex) && (dataIndex + length <=? litDataSize) then [slice data (litDataOff + dataIndex) length] else []) ++
      declared litOff litDataOff litDataSize n (i + 8)
  end.
Fixpoint whileWithin (m : Z) (l : list bytes) : list bytes :=
  match l with [] => [] | s :: l => if m <? len s then [] else s :: whileWithin (m - len s) l end.
Lemma whileWithin_total m l : 0 ≤ m → sumOf len (whileWithin m l) ≤ m.
Proof using. revert m. induction l as [|s l IH]; intros m Hm; cbn [whileWithin]; [done|]. destruct (Z.ltb_spec m (len s)); [done|]. rewrite sumOf_cons. specialize (IH (m - len s)). lia. Qed.
Lemma whileWithin_len m l : len (whileWithin m l) ≤ len l.
Proof using. revert m. induction l as [|s l IH]; intros m; cbn [whileWithin]; [done|]. pose proof (len_nonneg l). destruct (m <? len s); rewrite ?len_cons; [rewrite len_nil; lia|]. specialize (IH (m - len s)). lia. Qed.
Lemma declared_len litOff litDataOff litDataSize n : ∀ i, len (declared litOff litDataOff litDataSize n i) ≤ Z.of_nat n.
Proof using. induction n as [|n IH]; intros i; cbn [declared]; [done|]. rewrite len_app. specialize (IH (i + 8)). destruct (_ && _); unfold len in *; cbn [length] in *; lia. Qed.
Lemma literalLoop_ret litOff litSize litDataOff litDataSize : regionValid data litOff litSize = true → regionValid data litDataOff litDataSize = true → litSize < 2 ^ 31 - 8 →
  ∀ n fuel i copied, (n < fuel)%nat → 0 ≤ i → 8 * Z.of_nat n ≤ litSize - i < 8 * Z.of_nat n + 8 → 0 ≤ copied ≤ litDataSize →
  literalLoop data fuel litOff litSize litDataOff litDataSize i copied = Ret (whileWithin (litDataSize - copied) (declared litOff litDataOff litDataSize n i)).
Proof using Hok.
  intros (H1 & H2 & H3)%regionValid_spec (G1 & G2 & G3)%regionValid_spec Hsmall. induction n as [|n IH]; intros [|fuel] i copied Hf Hi Hn Hc; [lia| |lia|]; cbn [literalLoop declared].
  { destruct (Z.leb_spec (2 ^ 31) (i + 8)); [lia|]. by destruct (Z.leb_spec (i + 8) litSize); [lia|]. }
  destruct (Z.leb_spec (2 ^ 31) (i + 8)); [lia|]. destruct (Z.leb_spec (i + 8) litSize); [|lia].
  destruct (rdU32_word (litOff + i)) as [-> Hl]; [lia..|]. rewrite rdI32_field by lia. cbn [obind]. cbv zeta. set (length := word _) in *. set (dataIndex := field _).
  destruct (Z.leb_spec 0 dataIndex), (Z.leb_spec (dataIndex + length) litDataSize); destruct (Z.ltb_spec dataIndex 0), (Z.ltb_spec litDataSize (dataIndex + length)); try lia; cbn [orb andb app]; try (apply IH; lia).
  destruct (subspan_defined data (litDataOff + dataIndex) length) as [-> L]; [lia..|]. cbn [obind whileWithin]. rewrite L.
  destruct (Z.ltb_spec litDataSize (copied + length)), (Z.ltb_spec (litDataSize - copied) length); try lia; [done|].
  rewrite IH by lia. cbn [obind]. do 3 f_equal. lia.
Qed.

(** ** The whole file *)

(** The version, the identifiers and the literals are those the header names: the first runs
    without a NUL of the string pool, and the literals of the table inside the data region, as
    many as that region is large.  The tables take no more than the file has. *)
Definition literalsOf : list bytes :=
  if regionValid data (field 8) (field 12) && regionValid data (field 16) (field 20)
  then whileWithin (field 20) (declared (field 8) (field 16) (field 20) (Z.to_nat (field 12 / 8)) 0) else [].
Definition metadataOk (md : Il2CppMetadata) : Prop :=
  me_version md = field 4 ∧ regionValid data (field 24) (field 28) = true ∧
  me_strings md = take (Z.to_nat kMaxStrings) (runs [] (slice data (field 24) (field 28))) ∧
  me_stringLiterals md = literalsOf ∧ sumOf len (me_stringLiterals md) ≤ len data ∧ 8 * len (me_stringLiterals md) ≤ len data ∧
  tablesOk (me_types md) (me_images md) ∧ (me_tablesDecoded md = false → me_types md = [] ∧ me_images md = []).
(** The signed index of the loop over literals does not pass its range: the table of literals
    that the header declares is shorter than 2^31 - 8 bytes, or the file is. *)
Definition literalTableIndexed : Prop := len data < 2 ^ 31 - 8 ∨ field 12 < 2 ^ 31 - 8.
Lemma tablesOk_nil : tablesOk [] [].
Proof using. pose proof (len_nonneg data). unfold tablesOk, methodsWithin. unfold len, namesLeft in *. cbn. split_and!; try done; lia. Qed.
Lemma literalsOf_bound : sumOf len literalsOf ≤ len data ∧ 8 * len literalsOf ≤ len data.
Proof using.
  pose proof (len_nonneg data). unfold literalsOf. destruct (_ && _) eqn:E; [|unfold len in *; cbn; lia].
  apply andb_true_iff in E as [(H1 & H2 & H3)%regionValid_spec (G1 & G2 & G3)%regionValid_spec]. set (l := declared _ _ _ _ _).
  pose proof (whileWithin_total (field 20) l ltac:(lia)). pose proof (whileWithin_len (field 20) l). pose proof (declared_len (field 8) (field 16) (field 20) (Z.to_nat (field 12 / 8)) 0) as Hl. fold l in Hl.
  pose proof (Z.mul_div_le (field 12) 8 ltac:(lia)). pose proof (Z.div_pos (field 12) 8 ltac:(lia) ltac:(lia)). lia.
Qed.
Lemma parseIl2CppMetadata_ok : literalTableIndexed → gives (parseIl2CppMetadata data) (λ r, ∀ md, r = Some md → metadataOk md).
Proof using Hok.
  intros Hsmall. unfold parseIl2CppMetadata. destruct (Z.ltb_spec (len data) 32); [by apply gives_ret|]. destruct (rdU32_word 0) as [-> _]; [lia..|]. cbn [obind]. destruct (negb _); [by apply gives_ret|].
  rewrite !rdI32_field by lia. cbn [obind]. destruct (regionValid data (field 24) (field 28)) eqn:E; cbn [negb]; [|by apply gives_ret]. pose proof (proj1 (regionValid_spec _ _) E) as (H1 & H2 & H3).
  rewrite poolLoop_ok by (done || lia). cbn [obind]. rewrite Z.add_0_r, !Z.sub_0_r.
  assert ((if regionValid data (field 8) (field 12) && regionValid data (field 16) (field 20) then literalLoop data (S (Z.to_nat (field 12 / 8))) (field 8) (field 12) (field 16) (field 20) 0 0 else Ret []) = Ret literalsOf) as ->.
  { unfold literalsOf. destruct (_ && _) eqn:E2; [|done]. apply andb_true_iff in E2 as [E2 E3]. pose proof (proj1 (regionValid_spec _ _) E2). pose proof (proj1 (regionValid_spec _ _) E3).
    pose proof (Z.mul_succ_div_gt (field 12) 8 ltac:(lia)). pose proof (Z.mul_div_le (field 12) 8 ltac:(lia)). pose proof (Z.div_pos (field 12) 8 ltac:(lia) ltac:(lia)).
    rewrite (literalLoop_ret _ _ _ _ E2 E3) with (n := Z.to_nat (field 12 / 8)); [by rewrite Z.sub_0_r|unfold literalTableIndexed in Hsmall; lia|lia|lia|lia|lia]. }
  cbn [obind]. destruct literalsOf_bound as [Hl1 Hl2].
  eapply gives_bind; [by apply decodeTables_ok|]. intros tables Ht. apply gives_ret. intros md [= <-]. destruct tables as [[types images]|]; split_and!; try done; try (by apply Ht); apply tablesOk_nil.
Qed.
End Metadata.
