(* ===== verification/FileParsers.v ===== *)
(** * Parsers of untrusted files

    What the parsers of executables, of the tables of Windows modules and of il2cpp metadata
    promise together: they are run on files of the target, which may be truncated or crafted. *)

From S2P Require Import Prelude TargetMachine Returns PeExports PeExportsSpec Il2CppMetadata Il2CppMetadataSpec.
#[local] Open Scope Z_scope.

(** A PE32 file with one section, in it the tables of one export. *)
Definition words (l : list Z) : bytes := l ≫= le_bytes 4.
Definition samplePe : bytes :=
  bs "MZ" ++ replicate 58 0 ++ words [64] ++ bs "PE" ++ [0; 0] ++ le_bytes 2 332 ++ le_bytes 2 1 ++ words [0; 0; 0] ++ le_bytes 2 112 ++ le_bytes 2 0 ++
  words (267 :: replicate 14 0 ++ [240] ++ replicate 7 0 ++ [2; 4096; 54; 0; 0]) ++
  words [0; 0; 54; 4096; 54; 240; 0; 0; 0; 0] ++
  words [0; 0; 0; 0; 5; 1; 1; 4136; 4140; 4144; 8192; 4146] ++ le_bytes 2 0 ++ bs "run" ++ [0].
(** Metadata with an image of one type, which has one field, and with three literals, one
    of them outside its region. *)
Definition sampleMetadata : bytes :=
  words ([kIl2CppMagic; 31; 330; 24; 176; 5; 176; 14] ++ replicate 16 0 ++ [190; 12] ++ replicate 14 0 ++ [202; 88; 290; 40]) ++
  bs "Hero" ++ [0] ++ bs "hp" ++ [0] ++ bs "a.dll" ++ [0] ++
  words [5; 9; 67108865] ++
  words ([0; 13] ++ replicate 2 0 ++ [7] ++ replicate 3 0 ++ [0] ++ replicate 8 0 ++ [1] ++ replicate 3 0 ++ [33554433]) ++
  words [8; 0; 0; 1; 0; 0; 0; 0; 0; 0] ++ words [3; 0; 9; 0; 2; 2].

(** C23: Whatever bytes a file holds, parsing its headers and tables reads nothing outside them:
    the headers of ELF and PE files end with a machine or an error; the exports and imports of
    a PE file are a list of at most a million well-formed entries.  Il2cpp metadata whose
    declared table of literals is shorter than 2^31 - 8 bytes (past that the code's signed index
    overflows) gives nothing or a result: its version, identifiers and literals are those at the
    offsets of the header, the identifiers exactly the runs of the string pool, the literals
    exactly those that lie in their region; every name is short and free of NULs, the images own
    runs of the types there are, and the literals, fields and methods copied are no more than
    the file has room for, even when its records overlap. *)
Theorem untrusted_files_parsed file : bytes_ok file → len file < 2 ^ 62 →
  (defined (parseElfTarget file) ∧ defined (parsePeTarget file) ∧ defined (peLoadConfigDirectory file)) ∧
  gives (parsePEExports file) exportsOk ∧ gives (parsePEImports file) importsOk ∧
  (literalTableIndexed file → gives (parseIl2CppMetadata file) (λ r, ∀ md, r = Some md → metadataOk file md)).
Proof.
  intros Hok Hlen. split; [auto using parseElfTarget_defined, parsePeTarget_defined, peLoadConfigDirectory_defined|].
  split; [by apply parsePEExports_ok|]. split; [by apply parsePEImports_ok|]. by apply parseIl2CppMetadata_ok.
Qed.

Lemma untrusted_files_parsed_witness :
  gives (parsePEExports samplePe) exportsOk ∧ parsePEExports samplePe = Ret [mkExport (bs "run") 5 8192 []] ∧
  gives (parseIl2CppMetadata sampleMetadata) (λ r, ∀ md, r = Some md → metadataOk sampleMetadata md) ∧
  parseIl2CppMetadata sampleMetadata = Ret (Some (mkMetadata 31 [bs "Hero"; bs "hp"; bs "a.dll"] [bs "Her"; bs "ro"] true
    [mkType (bs "Hero") [] [mkField (bs "hp") 9 67108865] [] 33554433 7] [mkImage (bs "a.dll") 0 1])).
Proof.
  split; [apply untrusted_files_parsed; [by apply (bool_decide_unpack _); vm_compute|by vm_compute]|]. split; [by vm_compute|].
  split; [apply untrusted_files_parsed; [by apply (bool_decide_unpack _); vm_compute|by vm_compute|by right; vm_compute]|]. by vm_compute.
Defined.
