(* ===== verification/JsonText.v ===== *)
(** * JSON values, the writer and a reference parser

    Models the value tree, its accessors, the writer and the escaping of arbitrary bytes
    of [src/core/json.cpp], and states the grammar of the program's parser over the text
    that remains: a reference parser, which has no positions and so no bounds.  The
    parser of the program, with its positions, is in [Json] and refines this one. *)

From S2P Require Import Prelude Numeral Loops.

(** [Value]: one constructor per [Value::Type].  [members] lists the [unordered_map]
    [objectValue] in its iteration order, [order] is [objectOrder]. *)
Inductive Value : Type :=
  | JNull
  | JBool (b : bool)
  | JNumber (text : bytes)
  | JString (s : bytes)
  | JArray (items : list Value)
  | JObject (members : list (bytes * Value)) (order : list bytes).

(** ** Object members *)

Definition mapFind (ms : list (bytes * Value)) (k : bytes) : option Value :=
  match List.find (λ kv, bytes_eqb kv.1 k) ms with Some kv => Some kv.2 | None => None end.
(** [insert_or_assign]; a new key is placed last in the modelled iteration order. *)
Fixpoint mapAssign (ms : list (bytes * Value)) (k : bytes) (v : Value) : list (bytes * Value) :=
  match ms with
  | [] => [(k, v)]
  | (k', v') :: ms => if bytes_eqb k' k then (k', v) :: ms else (k', v') :: mapAssign ms k v
  end.
Definition mapHas (ms : list (bytes * Value)) (k : bytes) : bool :=
  match mapFind ms k with Some _ => true | None => false end.
Definition addMember (ms : list (bytes * Value)) (order : list bytes) (k : bytes) (v : Value)
  : list (bytes * Value) * list bytes :=
  (mapAssign ms k v, if mapHas ms k then order else order ++ [k]).

(** [Value::set] and [Value::push] on a value that is empty or of their type. *)
Definition set (o : Value) (k : bytes) (v : Value) : Value :=
  match o with
  | JObject ms order => let '(ms, order) := addMember ms order k v in JObject ms order
  | _ => JObject [(k, v)] [k]
  end.
Definition push (a v : Value) : Value :=
  match a with JArray items => JArray (items ++ [v]) | _ => JArray [v] end.

Definition get (o : Value) (k : bytes) : option Value :=
  match o with JObject ms _ => mapFind ms k | _ => None end.
Definition getString (o : Value) (k : bytes) : option bytes :=
  match get o k with Some (JString s) => Some s | _ => None end.
(** [strtoll] with [errno || *end]: an empty text reads as zero. *)
Definition getInt (o : Value) (k : bytes) : option Z :=
  match get o k with
  | Some (JNumber t) => match strto 10 (c_str t) with None => if bool_decide (c_str t = []) then Some 0 else None
                        | Some _ => strtoll_all 10 t end
  | _ => None
  end.
Definition getBool (o : Value) (k : bytes) : option bool :=
  match get o k with Some (JBool b) => Some b | _ => None end.
(** [Value::number] of an integer. *)
Definition number (n : Z) : Value := JNumber (to_string n).

(** ** The writer *)

(** The length a lead byte announces and the range of the second byte; 0 for none. *)
Definition utf8Lead (lead : Z) : Z * Z * Z :=
  if between 194 lead 223 then (2, 128, 191)
  else if between 224 lead 239 then
    (3, if lead =? 224 then 160 else 128, if lead =? 237 then 159 else 191)
  else if between 240 lead 244 then
    (4, if lead =? 240 then 144 else 128, if lead =? 244 then 143 else 191)
  else (0, 0, 0).
(** [utf8Sequence(s, i)] on the suffix [s + i]. *)
Definition utf8Sequence (s : bytes) : Z :=
  match s with
  | [] => 0
  | lead :: rest =>
      let '(length, low, high) := utf8Lead lead in
      if length =? 0 then 0
      else if len s <? length then 0
      else match rest with
           | b1 :: more =>
               if (b1 <? low) || (high <? b1) then 0
               else if forallb (λ b, Z.land b 192 =? 128) (take (Z.to_nat (length - 2)) more)
               then length else 0
           | [] => 0
           end
  end.

Definition hexDigit (d : Z) : Z := digit_char d.
(** The [switch] of [escape] for a byte below 0x80. *)
Definition escapeChar (c : Z) : bytes :=
  if c =? "\"%chr then bs "\\"
  else if c =? 34 then [92; 34]
  else if c =? 10 then bs "\n"
  else if c =? 13 then bs "\r"
  else if c =? 9 then bs "\t"
  else if c =? 8 then bs "\b"
  else if c =? 12 then bs "\f"
  else if c <? 32 then bs "\u00" ++ [hexDigit (Z.shiftr c 4); hexDigit (Z.land c 15)]
  else [c].

(** [escape]: [skip] bytes of a UTF-8 sequence remain to be copied
    ([out.append(s, i, length); i += length - 1]). *)
Fixpoint escapeFrom (skip : nat) (s : bytes) : bytes :=
  match s with
  | [] => []
  | c :: s' =>
      match skip with
      | S skip => c :: escapeFrom skip s'
      | O =>
          if 128 <=? c then
            let length := utf8Sequence s in
            if length =? 0 then bs "\ufffd" ++ escapeFrom 0 s'
            else c :: escapeFrom (Z.to_nat (length - 1)) s'
          else escapeChar c ++ escapeFrom 0 s'
      end
  end.
Definition escape (s : bytes) : bytes := escapeFrom 0 s.

Definition quoted (s : bytes) : bytes := 34 :: escape s ++ [34].
Fixpoint joinComma (l : list bytes) : bytes :=
  match l with
  | [] => []
  | [a] => a
  | a :: l => a ++ ","%chr :: joinComma l
  end.

(** [write] / [dump]: ordered members first, then those without an order. *)
Fixpoint dump (v : Value) : bytes :=
  match v with
  | JNull => bs "null"
  | JBool b => if b then bs "true" else bs "false"
  | JNumber t => if bool_decide (t = []) then bs "0" else t
  | JString s => quoted s
  | JArray items => "["%chr :: joinComma (dump <$> items) ++ bs "]"
  | JObject ms order =>
      let texts := (λ kv : bytes * Value, (kv.1, quoted kv.1 ++ ":"%chr :: dump kv.2)) <$> ms in
      let find k := match List.find (λ kt : bytes * bytes, bytes_eqb kt.1 k) texts with
                    | Some kt => [kt.2] | None => [] end in
      let listed := mjoin (find <$> order) in
      let unlisted :=
        if len order =? len ms then []
        else snd <$> List.filter (λ kt : bytes * bytes, negb (bool_decide (kt.1 ∈ order))) texts in
      "{"%chr :: joinComma (listed ++ unlisted) ++ bs "}"
  end.

(** ** The reference parser *)

Definition isWs (c : Z) : bool := (c =? " "%chr) || (c =? 9) || (c =? 13) || (c =? 10).
Fixpoint skipWs (s : bytes) : bytes :=
  match s with c :: s' => if isWs c then skipWs s' else s | [] => [] end.
Definition reject {A} : outcome A := Fail ""%string.
Definition consume (expected : Z) (s : bytes) : outcome bytes :=
  match skipWs s with
  | c :: s' => if c =? expected then Ret s' else reject
  | [] => reject
  end.

Definition hexValue (h : Z) : option Z :=
  if between "0"%chr h "9"%chr then Some (h - "0"%chr)
  else if between "a"%chr h "f"%chr then Some (h - "a"%chr + 10)
  else if between "A"%chr h "F"%chr then Some (h - "A"%chr + 10)
  else None.
(** The lambda [unit]: four hexadecimal digits. *)
Definition parseUnit (s : bytes) : option (Z * bytes) :=
  match s with
  | a :: b :: c :: d :: s =>
      let? a := hexValue a in
      let? b := hexValue b in
      let? c := hexValue c in
      let? d := hexValue d in
      let push code digit := Z.lor (u32 (Z.shiftl code 4)) digit in
      Some (push (push (push (push 0 a) b) c) d, s)
  | _ => None
  end.
(** The UTF-8 bytes of a code point. *)
Definition utf8Encode (code : Z) : bytes :=
  if code <=? 127 then [code]
  else
    (if code <=? 2047 then [Z.lor 192 (Z.shiftr code 6)]
     else (if code <=? 65535 then [Z.lor 224 (Z.shiftr code 12)]
           else [Z.lor 240 (Z.shiftr code 18); Z.lor 128 (Z.land (Z.shiftr code 12) 63)])
          ++ [Z.lor 128 (Z.land (Z.shiftr code 6) 63)])
    ++ [Z.lor 128 (Z.land code 63)].
(** A [\u] escape: the bytes it stands for and what follows. *)
Definition parseUnicode (s : bytes) : option (bytes * bytes) :=
  let? (code, s) := parseUnit s in
  if between 55296 code 56319 then
    match s with
    | b :: u :: s =>
        if (b =? "\"%chr) && (u =? "u"%chr) then
          let? (low, s) := parseUnit s in
          if (low <? 56320) || (57343 <? low) then None
          else Some (utf8Encode (65536 + Z.shiftl (code - 55296) 10 + (low - 56320)), s)
        else None
    | _ => None
    end
  else if between 56320 code 57343 then None
  else Some (utf8Encode code, s).

Definition simpleEscape (esc : Z) : option Z :=
  if esc =? 34 then Some 34
  else if esc =? "\"%chr then Some "\"%chr
  else if esc =? "/"%chr then Some "/"%chr
  else if esc =? "b"%chr then Some 8
  else if esc =? "f"%chr then Some 12
  else if esc =? "n"%chr then Some 10
  else if esc =? "r"%chr then Some 13
  else if esc =? "t"%chr then Some 9
  else None.

(** The loop of [parseString], after the opening quote. *)
Fixpoint stringLoop (fuel : nat) (value s : bytes) : outcome (bytes * bytes) :=
  match fuel with
  | O => Undefined
  | S fuel =>
      match s with
      | [] => reject
      | c :: s =>
          if c =? 34 then Ret (value, s)
          else if negb (c =? "\"%chr) then
            if c <? 32 then reject else stringLoop fuel (value ++ [c]) s
          else match s with
          | [] => reject
          | esc :: s =>
              match simpleEscape esc with
              | Some c => stringLoop fuel (value ++ [c]) s
              | None =>
                  if esc =? "u"%chr then
                    match parseUnicode s with
                    | Some (text, s) => stringLoop fuel (value ++ text) s
                    | None => reject
                    end
                  else reject
              end
          end
      end
  end.
Definition parseString (s : bytes) : outcome (bytes * bytes) :=
  match s with
  | c :: s => if c =? 34 then stringLoop (S (length s)) [] s else reject
  | [] => reject
  end.

Fixpoint digitRun (s : bytes) : bytes * bytes :=
  match s with
  | c :: s' => if isdigit c then let '(d, r) := digitRun s' in (c :: d, r) else ([], s)
  | [] => ([], [])
  end.
(** At least one digit. *)
Definition digits1 (s : bytes) : option (bytes * bytes) :=
  match digitRun s with ([], _) => None | (d, r) => Some (d, r) end.
(** The optional sign, fraction and exponent of a number: what is read and what follows. *)
Definition takeMinus (s : bytes) : bytes * bytes :=
  match s with
  | c :: s' => if c =? "-"%chr then ([c], s') else ([], s)
  | [] => ([], s)
  end.
Definition fracPart (s : bytes) : option (bytes * bytes) :=
  match s with
  | c :: s' => if c =? "."%chr then let? (d, r) := digits1 s' in Some (c :: d, r) else Some ([], s)
  | [] => Some ([], s)
  end.
Definition takeSign (s : bytes) : bytes * bytes :=
  match s with
  | c :: t => if (c =? "+"%chr) || (c =? "-"%chr) then ([c], t) else ([], s)
  | [] => ([], s)
  end.
Definition expPart (s : bytes) : option (bytes * bytes) :=
  match s with
  | e :: s' =>
      if (e =? "e"%chr) || (e =? "E"%chr) then
        let '(sg, s'') := takeSign s' in
        let? (d, r) := digits1 s'' in Some (e :: sg ++ d, r)
      else Some ([], s)
  | [] => Some ([], s)
  end.
(** [parseNumber]: the text of the number and what follows it. *)
Definition parseNumber (s : bytes) : option (bytes * bytes) :=
  let '(sign, s) := takeMinus s in
  let? (whole, s) := digits1 s in
  if bool_decide (head whole = Some "0"%chr) && (1 <? len whole) then None else
  let? (frac, s) := fracPart s in
  let? (expo, s) := expPart s in
  Some (sign ++ whole ++ frac ++ expo, s).

Definition kMaxDepth : Z := 128.

(** [parseValue] with [depth] values already open; the loops of [parseArray] and
    [parseObject] are [itemLoop] and [memberLoop]. *)
Fixpoint parseValue (fuel : nat) (depth : Z) (s : bytes) : outcome (Value * bytes) :=
  match fuel with
  | O => Undefined
  | S fuel =>
      if kMaxDepth <? depth + 1 then reject else
      match skipWs s with
      | [] => reject
      | c :: rest =>
          let s := c :: rest in
          if c =? 34 then let* (str, s) := parseString s in Ret (JString str, s)
          else if c =? "{"%chr then
            match skipWs rest with
            | d :: r =>
                if d =? "}"%chr then Ret (JObject [] [], r)
                else memberLoop fuel (depth + 1) [] [] rest
            | [] => memberLoop fuel (depth + 1) [] [] rest
            end
          else if c =? "["%chr then
            match skipWs rest with
            | d :: r =>
                if d =? "]"%chr then Ret (JArray [], r)
                else itemLoop fuel (depth + 1) [] rest
            | [] => itemLoop fuel (depth + 1) [] rest
            end
          else if (c =? "-"%chr) || isdigit c then
            match parseNumber s with
            | Some (t, s) => Ret (JNumber t, s)
            | None => reject
            end
          else if starts_with (bs "true") s then Ret (JBool true, drop 4 s)
          else if starts_with (bs "false") s then Ret (JBool false, drop 5 s)
          else if starts_with (bs "null") s then Ret (JNull, drop 4 s)
          else reject
      end
  end
with itemLoop (fuel : nat) (depth : Z) (items : list Value) (s : bytes) : outcome (Value * bytes) :=
  match fuel with
  | O => Undefined
  | S fuel =>
      let* (item, s) := parseValue fuel depth s in
      match skipWs s with
      | c :: r =>
          if c =? "]"%chr then Ret (JArray (items ++ [item]), r)
          else let* s := consume ","%chr s in itemLoop fuel depth (items ++ [item]) s
      | [] => reject
      end
  end
with memberLoop (fuel : nat) (depth : Z) (ms : list (bytes * Value)) (order : list bytes) (s : bytes)
  : outcome (Value * bytes) :=
  match fuel with
  | O => Undefined
  | S fuel =>
      let* (key, s) := parseString (skipWs s) in
      let* s := consume ":"%chr s in
      let* (v, s) := parseValue fuel depth s in
      let '(ms, order) := addMember ms order key v in
      match skipWs s with
      | c :: r =>
          if c =? "}"%chr then Ret (JObject ms order, r)
          else let* s := consume ","%chr s in memberLoop fuel depth ms order s
      | [] => reject
      end
  end.

Definition skipBom (input : bytes) : bytes :=
  if starts_with [239; 187; 191] input then drop 3 input else input.
(** Two steps of fuel per character are enough ([text_parse_total]). *)
Definition parseFuel (s : bytes) : nat := (2 * length s + 2)%nat.
Definition parse (input : bytes) : outcome Value :=
  let s := skipWs (skipBom input) in
  let* (v, s) := parseValue (parseFuel s) 0 s in
  match skipWs s with [] => Ret v | _ => reject end.

(** ** Termination of the parser *)

(** A parser step that is defined and leaves less text than [n] characters. *)
Definition consumes {A} (m : outcome (A * bytes)) (n : nat) : Prop :=
  match m with
  | Ret (_, r) => (length r < n)%nat
  | Fail _ => True
  | Undefined => False
  end.

Lemma consumes_weaken {A} (m : outcome (A * bytes)) n k : consumes m n → (n ≤ k)%nat → consumes m k.
Proof. destruct m as [[]| |]; simpl; lia || done. Qed.

Lemma consumes_bind {A B} (m : outcome (A * bytes)) (k : A * bytes → outcome (B * bytes)) n :
  consumes m n → (∀ a r, (length r < n)%nat → consumes (k (a, r)) n) → consumes (obind m k) n.
Proof. destruct m as [[a r]| |]; simpl; auto. Qed.

Lemma skipWs_length s : (length (skipWs s) ≤ length s)%nat.
Proof. induction s as [|c s IH]; [done|]. cbn [skipWs]. destruct (isWs c); simpl; lia. Qed.

Lemma consume_length c s r : consume c s = Ret r → (length r < length s)%nat.
Proof.
  unfold consume, reject. pose proof (skipWs_length s). destruct (skipWs s) as [|d t]; [done|].
  destruct (d =? c); [|done]. intros [= ->]. simpl in *. lia.
Qed.

Lemma consume_defined c s : consume c s ≠ Undefined.
Proof. unfold consume, reject. destruct (skipWs s); [done|]. by case_match. Qed.

Lemma parseUnit_length s c r : parseUnit s = Some (c, r) → (length r < length s)%nat.
Proof.
  destruct s as [|x1 [|x2 [|x3 [|x4 s]]]]; simpl; try done.
  destruct (hexValue x1), (hexValue x2), (hexValue x3), (hexValue x4); simpl; try done.
  intros [= _ <-]. lia.
Qed.

Lemma parseUnicode_length s t r : parseUnicode s = Some (t, r) → (length r < length s)%nat.
Proof.
  unfold parseUnicode. destruct (parseUnit s) as [[code s1]|] eqn:H1; simpl; [|done].
  apply parseUnit_length in H1.
  destruct (between 55296 code 56319).
  - destruct s1 as [|b [|u s1]]; [done..|]. case_match; [|done].
    destruct (parseUnit s1) as [[low s2]|] eqn:H2; simpl; [|done].
    apply parseUnit_length in H2. case_match; [done|]. intros [= _ <-]. simpl in *. lia.
  - case_match; [done|]. intros [= _ <-]. lia.
Qed.

Lemma stringLoop_consumes fuel : ∀ value s,
  (length s < fuel)%nat → consumes (stringLoop fuel value s) (S (length s)).
Proof.
  induction fuel as [|fuel IH]; intros value s Hf; [lia|]. cbn [stringLoop].
  destruct s as [|c s]; [done|]. simpl in Hf. destruct (c =? 34); [simpl; lia|].
  destruct (negb (c =? "\"%chr)).
  - case_match; [done|]. eapply consumes_weaken; [apply IH; lia|simpl; lia].
  - destruct s as [|esc s]; [done|]. simpl in Hf.
    destruct (simpleEscape esc) as [d|].
    + eapply consumes_weaken; [apply IH; lia|simpl; lia].
    + case_match; [|done]. destruct (parseUnicode s) as [[text r]|] eqn:Hu; [|done].
      apply parseUnicode_length in Hu. eapply consumes_weaken; [apply IH; lia|simpl; lia].
Qed.

Lemma parseString_consumes s : consumes (parseString s) (length s).
Proof.
  unfold parseString. destruct s as [|c s]; [done|]. case_match; [|done].
  eapply consumes_weaken; [apply stringLoop_consumes; lia|simpl; lia].
Qed.

Lemma takeMinus_app s a r : takeMinus s = (a, r) → s = a ++ r.
Proof. destruct s; simpl; [by intros [= <- <-]|]. case_match; by intros [= <- <-]. Qed.
Lemma takeSign_app s a r : takeSign s = (a, r) → s = a ++ r.
Proof. destruct s; simpl; [by intros [= <- <-]|]. case_match; by intros [= <- <-]. Qed.
Lemma digitRun_app s d r : digitRun s = (d, r) → s = d ++ r.
Proof.
  revert d r. induction s as [|c s IH]; intros d r; simpl; [by intros [= <- <-]|].
  destruct (isdigit c); [|by intros [= <- <-]].
  destruct (digitRun s) as [d' r'] eqn:Hd. intros [= <- <-]. by rewrite (IH d' r' eq_refl).
Qed.
Lemma digits1_app s d r : digits1 s = Some (d, r) → s = d ++ r ∧ d ≠ [].
Proof.
  unfold digits1. destruct (digitRun s) as [d' r'] eqn:Hd. apply digitRun_app in Hd.
  destruct d'; [done|]. by intros [= <- <-].
Qed.
Lemma fracPart_app s a r : fracPart s = Some (a, r) → s = a ++ r.
Proof.
  destruct s as [|c s]; simpl; [by intros [= <- <-]|]. destruct (c =? "."%chr); [|by intros [= <- <-]].
  destruct (digits1 s) as [[d r']|] eqn:Hd; simpl; [|done]. apply digits1_app in Hd as [-> _]. by intros [= <- <-].
Qed.
Lemma expPart_app s a r : expPart s = Some (a, r) → s = a ++ r.
Proof.
  destruct s as [|c s]; simpl; [by intros [= <- <-]|]. destruct (_ || _); [|by intros [= <- <-]].
  destruct (takeSign s) as [sg s''] eqn:Hs. apply takeSign_app in Hs as ->.
  destruct (digits1 s'') as [[d r']|] eqn:Hd; simpl; [|done]. apply digits1_app in Hd as [-> _].
  intros [= <- <-]. simpl. by rewrite <- app_assoc.
Qed.

(** A number is a nonempty prefix of the input. *)
Lemma parseNumber_app s t r : parseNumber s = Some (t, r) → s = t ++ r ∧ t ≠ [].
Proof.
  unfold parseNumber. destruct (takeMinus s) as [sign s0] eqn:Hs. apply takeMinus_app in Hs as ->.
  destruct (digits1 s0) as [[whole s1]|] eqn:Hw; simpl; [|done]. apply digits1_app in Hw as [-> Hne].
  destruct (_ && _); [done|].
  destruct (fracPart s1) as [[frac s2]|] eqn:Hf; simpl; [|done]. apply fracPart_app in Hf as ->.
  destruct (expPart s2) as [[expo s3]|] eqn:He; simpl; [|done]. apply expPart_app in He as ->.
  intros [= <- <-]. rewrite <- !app_assoc. split; [done|]. destruct sign, whole; done.
Qed.

Lemma parseNumber_length s t r : parseNumber s = Some (t, r) → (length r < length s)%nat.
Proof. intros [-> Hne]%parseNumber_app. rewrite length_app. destruct t; [done|simpl; lia]. Qed.

Lemma starts_with_length p s : starts_with p s = true → (length p ≤ length s)%nat.
Proof.
  revert s. induction p as [|c p IH]; intros [|d s]; simpl; try (done || lia).
  intros [_ H%IH]%andb_true_iff. lia.
Qed.

Lemma parse_loops_total fuel :
  (∀ depth s, (2 * length s + 2 ≤ fuel)%nat → consumes (parseValue fuel depth s) (length s)) ∧
  (∀ depth items s, (2 * length s + 3 ≤ fuel)%nat → consumes (itemLoop fuel depth items s) (length s)) ∧
  (∀ depth ms order s, (2 * length s + 3 ≤ fuel)%nat → consumes (memberLoop fuel depth ms order s) (length s)).
Proof.
  induction fuel as [|fuel (IHv & IHi & IHm)]; [split_and!; intros; lia|].
  split_and!; intros depth *; intros Hf; cbn [parseValue itemLoop memberLoop].
  - case_match; [done|]. pose proof (skipWs_length s) as Hws. destruct (skipWs s) as [|c rest]; [done|].
    simpl in Hws. pose proof (skipWs_length rest) as Hwr.
    destruct (c =? 34).
    { apply (consumes_bind _ _ (length s)); [|simpl; lia].
      eapply consumes_weaken; [apply parseString_consumes|simpl; lia]. }
    destruct (c =? "{"%chr).
    { assert (consumes (memberLoop fuel (depth + 1) [] [] rest) (length s))
        by (eapply consumes_weaken; [apply IHm; lia|lia]).
      destruct (skipWs rest) as [|d r]; [done|]. destruct (d =? _); [simpl in *; lia|done]. }
    destruct (c =? "["%chr).
    { assert (consumes (itemLoop fuel (depth + 1) [] rest) (length s))
        by (eapply consumes_weaken; [apply IHi; lia|lia]).
      destruct (skipWs rest) as [|d r]; [done|]. destruct (d =? _); [simpl in *; lia|done]. }
    case_match.
    { destruct (parseNumber (c :: rest)) as [[t r]|] eqn:Hn; [|done].
      apply parseNumber_length in Hn. simpl in *. lia. }
    repeat case_match; try done;
      match goal with H : starts_with _ _ = true |- _ => apply starts_with_length in H; cbn in H end;
      cbn [consumes]; rewrite length_drop; cbn [length]; lia.
  - apply (consumes_bind _ _ (length s)); [apply IHv; lia|]. intros item r Hr.
    pose proof (skipWs_length r). destruct (skipWs r) as [|c t] eqn:Ht; [done|].
    case_match; [simpl in *; lia|].
    destruct (consume ","%chr r) as [r'| |] eqn:Hc; [|exact I|by apply consume_defined in Hc].
    apply consume_length in Hc. simpl in *. eapply consumes_weaken; [apply IHi; lia|lia].
  - apply (consumes_bind _ _ (length s)).
    { eapply consumes_weaken; [apply parseString_consumes|apply skipWs_length]. }
    intros key r Hr. destruct (consume ":"%chr r) as [r1| |] eqn:Hc1; [|exact I|by apply consume_defined in Hc1].
    apply consume_length in Hc1. cbn [obind]. apply (consumes_bind _ _ (length s)).
    { eapply consumes_weaken; [apply IHv; lia|lia]. }
    intros v r2 Hr2. destruct (addMember ms order key v) as [ms' order'].
    pose proof (skipWs_length r2). destruct (skipWs r2) as [|c t] eqn:Ht; [done|].
    case_match; [simpl in *; lia|].
    destruct (consume ","%chr r2) as [r'| |] eqn:Hc; [|exact I|by apply consume_defined in Hc].
    apply consume_length in Hc. simpl in *. eapply consumes_weaken; [apply IHm; lia|lia].
Qed.

(** The fuel of the reference parser never runs out. *)
Lemma text_parse_total input : defined (parse input).
Proof.
  unfold parse. set (s := skipWs (skipBom input)).
  pose proof (parse_loops_total (parseFuel s)) as (Hv & _). specialize (Hv 0 s ltac:(unfold parseFuel; lia)).
  destruct (parseValue _ _ _) as [[v r]| |]; [|done|done]. cbn [obind]. by case_match.
Qed.

(** ** Strings survive a round trip *)

(** What a reader gets back: every byte that is not part of well-formed UTF-8 becomes
    U+FFFD. *)
Fixpoint sanitizeFrom (skip : nat) (s : bytes) : bytes :=
  match s with
  | [] => []
  | c :: s' =>
      match skip with
      | S skip => c :: sanitizeFrom skip s'
      | O =>
          if 128 <=? c then
            let length := utf8Sequence s in
            if length =? 0 then [239; 191; 189] ++ sanitizeFrom 0 s'
            else c :: sanitizeFrom (Z.to_nat (length - 1)) s'
          else c :: sanitizeFrom 0 s'
      end
  end.
Definition sanitize (s : bytes) : bytes := sanitizeFrom 0 s.
(** Well-formed UTF-8. *)
Definition utf8_ok (s : bytes) : Prop := bytes_ok s ∧ sanitize s = s.

Lemma stringLoop_escapeChar c fuel value t :
  is_byte c → c < 128 →
  stringLoop (S fuel) value (escapeChar c ++ t) = stringLoop fuel (value ++ [c]) t.
Proof.
  unfold in_width. intros Hb Hc. unfold escapeChar.
  destruct (Z.eqb_spec c "\"%chr) as [->|H1]; [done|].
  destruct (Z.eqb_spec c 34) as [->|H2]; [done|].
  destruct (Z.eqb_spec c 10) as [->|H3]; [done|].
  destruct (Z.eqb_spec c 13) as [->|H4]; [done|].
  destruct (Z.eqb_spec c 9) as [->|H5]; [done|].
  destruct (Z.eqb_spec c 8) as [->|H6]; [done|].
  destruct (Z.eqb_spec c 12) as [->|H7]; [done|].
  destruct (Z.ltb_spec c 32) as [Hlo|Hhi].
  - assert (c ∈ seqZ 0 32) as Hin by (apply elem_of_seqZ; lia). cbn in Hin.
    repeat (apply elem_of_cons in Hin as [->|Hin]; [reflexivity|]). by apply elem_of_nil in Hin.
  - cbn [app stringLoop]. rewrite (proj2 (Z.eqb_neq c 34)), (proj2 (Z.eqb_neq c _)) by done.
    cbn [negb]. by rewrite (proj2 (Z.ltb_ge c 32)) by lia.
Qed.

Lemma land_192 b : is_byte b → (Z.land b 192 =? 128) = true → 128 ≤ b.
Proof.
  intros Hb Hl%Z.eqb_eq. destruct (Z.le_gt_cases 128 b) as [|Hlt]; [done|].
  assert (Z.testbit (Z.land b 192) 7 = true) as Ht by (rewrite Hl; done).
  rewrite Z.land_spec in Ht. rewrite (testbit_high 7 b 7) in Ht by (unfold in_width in *; lia || lia). done.
Qed.

(** The bytes that a UTF-8 sequence still has to copy are all above 0x7f. *)
Lemma utf8Sequence_high c s n :
  bytes_ok (c :: s) → utf8Sequence (c :: s) = n → n ≠ 0 →
  2 ≤ n ∧ (Z.to_nat (n - 1) ≤ length s)%nat ∧ Forall (λ b, 128 ≤ b) (take (Z.to_nat (n - 1)) s).
Proof.
  intros Hok. inversion Hok as [|? ? Hc Hs]; subst. unfold utf8Sequence.
  destruct (utf8Lead c) as [[l lo] hi] eqn:Hx.
  assert (l ≠ 0 → 2 ≤ l ∧ 128 ≤ lo) as Hl.
  { unfold utf8Lead in Hx. repeat case_match; simplify_eq; lia. }
  clear Hx. destruct (Z.eqb_spec l 0); [done|]. destruct (Z.ltb_spec (len (c :: s)) l); [done|].
  destruct s as [|b1 more]; [done|]. destruct (Z.ltb_spec b1 lo), (Z.ltb_spec hi b1); cbn [orb]; try done.
  destruct (forallb _ _) eqn:Hall; [|done]. intros <- _. destruct (Hl ltac:(done)).
  rewrite !len_cons in *. unfold len in *.
  split; [lia|]. split; [simpl; lia|].
  replace (Z.to_nat (l - 1)) with (S (Z.to_nat (l - 2))) by lia. cbn [take]. constructor; [lia|].
  inversion Hs as [|? ? _ Hmore]; subst. apply Forall_forall. intros b Hb.
  rewrite forallb_forall in Hall. apply (land_192 b).
  - apply (Forall_forall (λ b, is_byte b) more); [done|]. eapply elem_of_subseteq; [|done]. apply subseteq_take.
  - apply Hall. by apply list_elem_of_In.
Qed.

Lemma stringLoop_escape s : ∀ skip fuel value t,
  bytes_ok s → (skip ≤ length s)%nat → Forall (λ b, 128 ≤ b) (take skip s) →
  (length (escapeFrom skip s) < fuel)%nat →
  stringLoop fuel value (escapeFrom skip s ++ 34 :: t) = Ret (value ++ sanitizeFrom skip s, t).
Proof.
  induction s as [|c s IH]; intros skip fuel value t Hok Hskip Hhigh Hf.
  { destruct fuel; [simpl in Hf; lia|]. simpl. by rewrite app_nil_r. }
  inversion Hok as [|? ? Hc Hs]; subst. cbn [escapeFrom sanitizeFrom] in *.
  assert (∀ fuel u, 128 ≤ c → stringLoop (S fuel) value (c :: u) = stringLoop fuel (value ++ [c]) u) as Hraw.
  { intros fu u Hge. cbn [stringLoop]. rewrite (proj2 (Z.eqb_neq c 34)), (proj2 (Z.eqb_neq c _)) by lia.
    cbn [negb]. by rewrite (proj2 (Z.ltb_ge c 32)) by lia. }
  destruct skip as [|skip].
  - destruct (Z.leb_spec 128 c) as [Hge|Hlt].
    + destruct (Z.eqb_spec (utf8Sequence (c :: s)) 0) as [H0|H0].
      * destruct fuel as [|fuel]; [lia|]. rewrite <- app_assoc.
        transitivity (stringLoop fuel (value ++ [239; 191; 189]) (escapeFrom 0 s ++ 34 :: t)); [reflexivity|].
        rewrite IH; [by rewrite <- app_assoc|done|lia|by rewrite take_0|].
        rewrite length_app in Hf. cbn in Hf. lia.
      * destruct (utf8Sequence_high c s _ Hok eq_refl H0) as (H2 & Hlen & Hall).
        destruct fuel as [|fuel]; [lia|]. cbn [app]. rewrite Hraw by done.
        rewrite IH; [by rewrite <- app_assoc|done|done|done|]. cbn [length] in Hf. lia.
    + destruct fuel as [|fuel]; [lia|]. rewrite <- app_assoc, stringLoop_escapeChar by done.
      rewrite IH; [by rewrite <- app_assoc|done|lia|by rewrite take_0|].
      rewrite length_app in Hf. assert (0 < length (escapeChar c))%nat; [|lia].
      unfold escapeChar. repeat case_match; simpl; lia.
  - cbn [take] in Hhigh. inversion Hhigh as [|? ? Hge Hrest]; subst. simpl in Hskip, Hf.
    destruct fuel as [|fuel]; [lia|]. cbn [app]. rewrite Hraw by done.
    rewrite IH; [by rewrite <- app_assoc|done|lia|done|lia].
Qed.

(** Escaping is lossless on text.  For every byte string, reading the quoted escape
    back gives the string with each malformed UTF-8 byte replaced by U+FFFD. *)
Theorem parse_escape s t : bytes_ok s → parseString (quoted s ++ t) = Ret (sanitize s, t).
Proof.
  intros Hs. unfold quoted, parseString. cbn [app]. change (34 =? 34) with true. cbv iota.
  rewrite <- app_assoc. cbn [app]. unfold escape. rewrite stringLoop_escape; try done.
  - lia.
  - rewrite length_app. simpl. lia.
Qed.

Lemma parse_escape_witness :
  parseString (quoted [65; 34; 10; 195; 169; 255] ++ [44]) = Ret ([65; 34; 10; 195; 169; 239; 191; 189], [44]).
Proof. rewrite parse_escape; [reflexivity|]. repeat constructor; unfold in_width; lia. Defined.

(** ** Values survive a round trip *)

(** Nesting depth, as [depth_] of the parser counts it. *)
Fixpoint height (v : Value) : Z :=
  match v with
  | JArray items => 1 + foldr (λ v n, Z.max (height v) n) 0 items
  | JObject ms _ => 1 + foldr (λ kv n, Z.max (height kv.2) n) 0 ms
  | _ => 1
  end.
(** Values built by [set], [push] and [number]: valid texts, distinct keys in order. *)
Fixpoint wf (v : Value) : Prop :=
  match v with
  | JNumber t => parseNumber t = Some (t, [])
  | JString s => utf8_ok s
  | JArray items => foldr (λ v P, wf v ∧ P) True items
  | JObject ms order =>
      order = ms.*1 ∧ NoDup order ∧ foldr (λ kv P, utf8_ok kv.1 ∧ wf kv.2 ∧ P) True ms
  | _ => True
  end.
(** What may follow a value: nothing, or [,], []] or [}]. *)
Definition stops (rest : bytes) : Prop :=
  match rest with [] => True | c :: _ => c = ","%chr ∨ c = "]"%chr ∨ c = "}"%chr end.

Lemma stops_skipWs rest : stops rest → skipWs rest = rest.
Proof. destruct rest as [|c rest]; [done|]. by intros [->|[->| ->]]. Qed.

Lemma digitRun_stops s d r rest :
  stops rest → digitRun s = (d, r) → digitRun (s ++ rest) = (d, r ++ rest).
Proof.
  intros Hst. revert d r. induction s as [|c s IH]; intros d r; cbn [digitRun app].
  { intros [= <- <-]. destruct rest as [|c rest]; [done|]. cbn [digitRun]. by destruct Hst as [->|[->| ->]]. }
  destruct (isdigit c); [|by intros [= <- <-]].
  destruct (digitRun s) as [d' r']. rewrite (IH d' r') by done. by intros [= <- <-].
Qed.

Lemma digits1_stops s d r rest :
  stops rest → digits1 s = Some (d, r) → digits1 (s ++ rest) = Some (d, r ++ rest).
Proof.
  unfold digits1. intros Hst. destruct (digitRun s) as [d' r'] eqn:Hd.
  rewrite (digitRun_stops _ _ _ _ Hst Hd). destruct d'; [done|]. by intros [= <- <-].
Qed.

Lemma fracPart_stops s a r rest :
  stops rest → fracPart s = Some (a, r) → fracPart (s ++ rest) = Some (a, r ++ rest).
Proof.
  intros Hst. destruct s as [|c s]; cbn [fracPart app].
  { intros [= <- <-]. destruct rest as [|c rest]; [done|]. cbn [fracPart]. by destruct Hst as [->|[->| ->]]. }
  destruct (c =? "."%chr); [|by intros [= <- <-]].
  destruct (digits1 s) as [[d r']|] eqn:Hd; simpl; [|done].
  rewrite (digits1_stops _ _ _ _ Hst Hd). simpl. by intros [= <- <-].
Qed.

Lemma takeSign_stops s a r rest : s ≠ [] → takeSign s = (a, r) → takeSign (s ++ rest) = (a, r ++ rest).
Proof. destruct s; [done|]. intros _. cbn [takeSign app]. case_match; by intros [= <- <-]. Qed.

Lemma expPart_stops s a r rest :
  stops rest → expPart s = Some (a, r) → expPart (s ++ rest) = Some (a, r ++ rest).
Proof.
  intros Hst. destruct s as [|c s]; cbn [expPart app].
  { intros [= <- <-]. destruct rest as [|c rest]; [done|]. cbn [expPart]. by destruct Hst as [->|[->| ->]]. }
  destruct (_ || _); [|by intros [= <- <-]].
  destruct (decide (s = [])) as [->|Hne]; [done|].
  destruct (takeSign s) as [sg s''] eqn:Hs. rewrite (takeSign_stops _ _ _ _ Hne Hs).
  destruct (digits1 s'') as [[d r']|] eqn:Hd; simpl; [|done].
  rewrite (digits1_stops _ _ _ _ Hst Hd). simpl. by intros [= <- <-].
Qed.

Lemma takeMinus_stops s a r rest : s ≠ [] → takeMinus s = (a, r) → takeMinus (s ++ rest) = (a, r ++ rest).
Proof. destruct s; [done|]. intros _. cbn [takeMinus app]. case_match; by intros [= <- <-]. Qed.

(** A number ends where it ended, whatever stops it. *)
Lemma parseNumber_stops s t r rest :
  stops rest → parseNumber s = Some (t, r) → parseNumber (s ++ rest) = Some (t, r ++ rest).
Proof.
  intros Hst Hp. assert (s ≠ []) as Hne by by intros ->. revert Hp. unfold parseNumber.
  destruct (takeMinus s) as [sign s0] eqn:Hs. rewrite (takeMinus_stops _ _ _ _ Hne Hs).
  destruct (digits1 s0) as [[whole s1]|] eqn:Hw; simpl; [|done].
  rewrite (digits1_stops _ _ _ _ Hst Hw). simpl. destruct (_ && _); [done|].
  destruct (fracPart s1) as [[frac s2]|] eqn:Hf; simpl; [|done].
  rewrite (fracPart_stops _ _ _ _ Hst Hf). simpl.
  destruct (expPart s2) as [[expo s3]|] eqn:He; simpl; [|done].
  rewrite (expPart_stops _ _ _ _ Hst He). simpl. by intros [= <- <-].
Qed.

Lemma digits1_head s d r : digits1 s = Some (d, r) → ∃ c s', s = c :: s' ∧ isdigit c = true.
Proof.
  unfold digits1. destruct s as [|c s]; simpl; [done|]. destruct (isdigit c) eqn:Hc; [|done]. eauto.
Qed.

Lemma parseNumber_head s t r :
  parseNumber s = Some (t, r) → ∃ c s', s = c :: s' ∧ ((c =? "-"%chr) || isdigit c) = true.
Proof.
  unfold parseNumber. destruct s as [|c s]; [done|]. simpl.
  destruct (Z.eqb_spec c "-"%chr) as [->|]; [by eauto|].
  destruct (digits1 (c :: s)) as [[d r']|] eqn:Hd; simpl; [|done].
  apply digits1_head in Hd as (c' & s' & [= -> ->] & Hd). intros _. exists c', s'. by rewrite Hd, orb_true_r.
Qed.

(** The first character of a value's text. *)
Lemma dump_head v : wf v → ∃ c s, dump v = c :: s ∧ isWs c = false ∧ c ≠ "]"%chr ∧ c ≠ "}"%chr ∧ c ≠ 239.
Proof.
  destruct v as [|b|t|s|items|ms order]; simpl.
  - intros _. by eexists _, _.
  - intros _. destruct b; by eexists _, _.
  - intros Hn. apply parseNumber_head in Hn as (c & s' & -> & Hc). simpl. exists c, s'. split; [done|].
    unfold isWs, isdigit, between in *. destruct (Z.eqb_spec c "-"%chr) as [->|]; [done|].
    simpl in Hc. bool_to_prop. rewrite !(proj2 (Z.eqb_neq c _)) by lia. split_and!; [done|lia..].
  - intros _. by eexists _, _.
  - intros _. by eexists _, _.
  - intros _. by eexists _, _.
Qed.

Lemma skipWs_dump v s : wf v → skipWs (dump v ++ s) = dump v ++ s.
Proof. intros (c & t & -> & Hc & _)%dump_head. cbn [app skipWs]. by rewrite Hc. Qed.

Definition memberText (kv : bytes * Value) : bytes := quoted kv.1 ++ ":"%chr :: dump kv.2.

Lemma find_texts_notin k (ms : list (bytes * Value)) :
  k ∉ ms.*1 →
  List.find (λ kt : bytes * bytes, bytes_eqb kt.1 k) ((λ kv, (kv.1, memberText kv)) <$> ms) = None.
Proof.
  induction ms as [|[k' v] ms IH]; [done|]. cbn. rewrite not_elem_of_cons. intros [Hne Hni].
  unfold bytes_eqb. rewrite bool_decide_eq_false_2 by congruence. by apply IH.
Qed.

Lemma length_fmap_len {A B} (f : A → B) l : len (f <$> l) = len l.
Proof. unfold len. by rewrite length_fmap. Qed.

(** An object in insertion order is written member by member. *)
Lemma dump_object ms :
  NoDup ms.*1 →
  dump (JObject ms ms.*1) = "{"%chr :: joinComma (memberText <$> ms) ++ bs "}".
Proof.
  intros Hnd. cbn [dump]. rewrite length_fmap_len, Z.eqb_refl, app_nil_r. do 3 f_equal.
  change (λ kv : bytes * Value, (kv.1, quoted kv.1 ++ ":"%chr :: dump kv.2))
    with (λ kv : bytes * Value, (kv.1, memberText kv)).
  induction ms as [|[k v] ms IH]; [done|]. cbn in Hnd. apply NoDup_cons in Hnd as [Hni Hnd].
  cbn [fmap list_fmap mjoin list_join List.find fst]. unfold bytes_eqb at 1.
  rewrite bool_decide_eq_true_2 by done. cbn [app snd]. f_equal.
  etransitivity; [|by apply IH]. apply mjoin_fmap_ext. intros k' Hk'. cbn [List.find fst].
  unfold bytes_eqb at 1. rewrite bool_decide_eq_false_2; [done|]. intros ->. by apply Hni.
Qed.

Lemma parse_quoted k t : utf8_ok k → parseString (quoted k ++ t) = Ret (k, t).
Proof. intros [Hok Hs]. by rewrite parse_escape, Hs. Qed.

Lemma addMember_fresh ms k v :
  k ∉ ms.*1 → addMember ms ms.*1 k v = (ms ++ [(k, v)], (ms ++ [(k, v)]).*1).
Proof.
  intros Hni. unfold addMember, mapHas, mapFind. rewrite fmap_app.
  assert (mapAssign ms k v = ms ++ [(k, v)] ∧ List.find (λ kv, bytes_eqb kv.1 k) ms = None) as [-> ->]; [|done].
  induction ms as [|[k' v'] ms IH]; [done|]. cbn in *. apply not_elem_of_cons in Hni as [Hne Hni].
  unfold bytes_eqb. rewrite bool_decide_eq_false_2 by congruence.
  destruct (IH Hni) as [-> Hf]. done.
Qed.

Lemma height_pos v : 1 ≤ height v.
Proof.
  destruct v as [| | | |items|ms order]; cbn [height]; try lia.
  - assert (0 ≤ foldr (λ v n, Z.max (height v) n) 0 items) by (induction items; simpl; lia). lia.
  - assert (0 ≤ foldr (λ kv n, Z.max (height kv.2) n) 0 ms) by (induction ms; simpl; lia). lia.
Qed.

(** The round trip of one value, for every enclosing depth and what follows. *)
Definition reads_back (v : Value) : Prop :=
  ∀ fuel depth rest, wf v → 0 ≤ depth → depth + height v ≤ kMaxDepth → stops rest →
    (2 * length (dump v ++ rest) + 2 ≤ fuel)%nat →
    parseValue fuel depth (dump v ++ rest) = Ret (v, rest).

Lemma joinComma_cons a l : l ≠ [] → joinComma (a :: l) = a ++ ","%chr :: joinComma l.
Proof. by destruct l. Qed.

Lemma items_read_back items : ∀ fuel depth acc rest,
  items ≠ [] → Forall reads_back items → foldr (λ v P, wf v ∧ P) True items → 0 ≤ depth →
  depth + foldr (λ v n, Z.max (height v) n) 0 items ≤ kMaxDepth →
  (2 * length (joinComma (dump <$> items) ++ "]"%chr :: rest) + 3 ≤ fuel)%nat →
  itemLoop fuel depth acc (joinComma (dump <$> items) ++ "]"%chr :: rest) = Ret (JArray (acc ++ items), rest).
Proof.
  induction items as [|v items IH]; intros fuel depth acc rest Hne Hall Hwf Hd Hh Hf; [done|].
  inversion Hall as [|? ? Hv Hrest]; subst. destruct Hwf as [Hwv Hwi]. cbn [foldr] in Hh.
  destruct fuel as [|fuel]; [lia|]. cbn [itemLoop fmap list_fmap].
  destruct (decide (items = [])) as [->|Hni].
  - cbn [fmap list_fmap joinComma] in *. rewrite Hv; [|done|lia|lia|by simpl; auto|lia].
    done.
  - cbn [fmap list_fmap] in Hf. change (list_fmap _ _ dump items) with (dump <$> items) in *.
    rewrite joinComma_cons in Hf |- * by (by destruct items).
    rewrite <- app_assoc in Hf |- *. cbn [app] in *.
    rewrite Hv; [|done|lia|lia|by simpl; auto|lia]. cbn [obind skipWs].
    change (isWs ","%chr) with false. cbv iota. change (","%chr =? "]"%chr) with false. cbv iota.
    unfold consume. cbn [skipWs]. change (isWs ","%chr) with false. cbv iota. rewrite Z.eqb_refl. cbn [obind].
    rewrite IH; [by rewrite <- app_assoc|done|done|done|done|lia|].
    rewrite length_app in Hf. cbn [length] in Hf. lia.
Qed.

Lemma members_read_back ms : ∀ fuel depth acc rest,
  ms ≠ [] → Forall (λ kv, reads_back kv.2) ms →
  foldr (λ kv P, utf8_ok kv.1 ∧ wf kv.2 ∧ P) True ms → 0 ≤ depth →
  depth + foldr (λ kv n, Z.max (height kv.2) n) 0 ms ≤ kMaxDepth → NoDup (acc ++ ms).*1 →
  (2 * length (joinComma (memberText <$> ms) ++ "}"%chr :: rest) + 3 ≤ fuel)%nat →
  memberLoop fuel depth acc acc.*1 (joinComma (memberText <$> ms) ++ "}"%chr :: rest)
  = Ret (JObject (acc ++ ms) (acc ++ ms).*1, rest).
Proof.
  induction ms as [|[k v] ms IH]; intros fuel depth acc rest Hne Hall Hwf Hd Hh Hnd Hf; [done|].
  inversion Hall as [|? ? Hv Hrest]; subst. destruct Hwf as (Hk & Hwv & Hwi). cbn [foldr fst snd] in *.
  assert (k ∉ acc.*1) as Hfresh.
  { rewrite fmap_app in Hnd. apply NoDup_app in Hnd as (_ & Hdis & _). intros Hin.
    apply (Hdis k Hin). cbn. left. }
  destruct fuel as [|fuel]; [lia|]. cbn [memberLoop].
  set (tail := if decide (ms = []) then "}"%chr :: rest
               else ","%chr :: joinComma (memberText <$> ms) ++ "}"%chr :: rest).
  assert (joinComma (memberText <$> (k, v) :: ms) ++ "}"%chr :: rest
          = quoted k ++ ":"%chr :: dump v ++ tail) as Htext.
  { subst tail. cbn [fmap list_fmap]. change (list_fmap _ _ memberText ms) with (memberText <$> ms).
    destruct (decide (ms = [])) as [->|Hni].
    - cbn [joinComma fmap list_fmap]. unfold memberText. cbn [fst snd]. by rewrite <- app_assoc.
    - rewrite joinComma_cons by (by destruct ms). unfold memberText at 1. cbn [fst snd].
      by repeat first [rewrite <- !app_assoc | progress cbn [app]]. }
  rewrite Htext in Hf |- *. rewrite length_app in Hf. cbn [length] in Hf.
  assert (skipWs (quoted k ++ ":"%chr :: dump v ++ tail) = quoted k ++ ":"%chr :: dump v ++ tail) as -> by done.
  rewrite parse_quoted by done. cbn [obind]. unfold consume at 1. cbn [skipWs].
  change (isWs ":"%chr) with false. cbv iota. rewrite Z.eqb_refl. cbn [obind].
  assert (2 ≤ length (quoted k))%nat by (unfold quoted; simpl; rewrite length_app; simpl; lia).
  rewrite Hv; [|done|lia|lia| |lia].
  2: { subst tail. case_decide; simpl; auto. }
  cbn [obind]. rewrite addMember_fresh by done.
  subst tail. destruct (decide (ms = [])) as [->|Hni]; [done|].
  cbn [skipWs]. change (isWs ","%chr) with false. cbv iota. change (","%chr =? "}"%chr) with false. cbv iota.
  unfold consume. cbn [skipWs]. change (isWs ","%chr) with false. cbv iota. rewrite Z.eqb_refl. cbn [obind].
  rewrite IH; [by rewrite <- app_assoc|done|done|done|done|lia|by rewrite <- app_assoc|].
  rewrite length_app in Hf. cbn [length] in Hf. lia.
Qed.

Lemma read_back_step n : ∀ v, height v ≤ Z.of_nat n → reads_back v.
Proof.
  induction n as [|n IH]; intros v Hn; [pose proof (height_pos v); lia|].
  intros fuel depth rest Hwf Hd Hh Hst Hf.
  destruct fuel as [|fuel]; [lia|]. cbn [parseValue].
  rewrite (proj2 (Z.ltb_ge _ _)) by (pose proof (height_pos v); lia).
  rewrite skipWs_dump by done.
  destruct v as [|[]|t|s|items|ms order].
  - done.
  - done.
  - done.
  - cbn [wf dump] in *. pose proof (parseNumber_head _ _ _ Hwf) as (c & s' & -> & Hc).
    change (bool_decide (c :: s' = [])) with false. cbv iota. cbn [app].
    assert (c =? 34 = false ∧ c =? "{"%chr = false ∧ c =? "["%chr = false) as (H1 & H2 & H3).
    { unfold isdigit, between in Hc. rewrite !Z.eqb_neq. destruct (Z.eqb_spec c "-"%chr) as [->|]; [done|].
      simpl in Hc. bool_to_prop. lia. }
    rewrite H1, H2, H3, Hc. change (c :: s' ++ rest) with ((c :: s') ++ rest). rewrite (parseNumber_stops (c :: s') _ _ rest Hst Hwf). done.
  - cbn [wf dump] in *. unfold quoted. cbn [app]. change (34 =? 34) with true. cbv iota.
    change (34 :: (escape s ++ [34]) ++ rest) with (quoted s ++ rest). by rewrite parse_quoted.
  - cbn [wf dump height] in *. cbn [app].
    change ("["%chr =? 34) with false. change ("["%chr =? "{"%chr) with false.
    change ("["%chr =? "["%chr) with true. cbv iota.
    destruct (decide (items = [])) as [->|Hne]; [done|].
    rewrite <- app_assoc. change (bs "]" ++ rest) with ("]"%chr :: rest).
    assert (skipWs (joinComma (dump <$> items) ++ "]"%chr :: rest) = joinComma (dump <$> items) ++ "]"%chr :: rest ∧
      ∃ c r, joinComma (dump <$> items) ++ "]"%chr :: rest = c :: r ∧ c ≠ "]"%chr) as (-> & c & r & Hcr & Hc).
    { destruct items as [|v items]; [done|]. destruct Hwf as [Hv _].
      destruct (dump_head v Hv) as (c & s & Hdv & Hws & Hc & _). cbn [fmap list_fmap].
      destruct items as [|w items]; cbn [fmap list_fmap joinComma]; rewrite Hdv; cbn [app skipWs]; rewrite Hws;
        (split; [done|by eexists _, _]). }
    rewrite Hcr. rewrite (proj2 (Z.eqb_neq c _)) by done. rewrite <- Hcr.
    rewrite items_read_back; [done|done| |done|lia|lia|].
    + apply Forall_forall. intros v Hv. apply IH.
      assert (height v ≤ foldr (λ v n, Z.max (height v) n) 0 items); [|lia].
      clear -Hv. induction Hv; simpl; lia.
    + cbn [app length] in Hf. rewrite <- app_assoc in Hf. change (bs "]" ++ rest) with ("]"%chr :: rest) in Hf. lia.
  - destruct Hwf as (-> & Hnd & Hms). rewrite (dump_object ms Hnd) in Hf |- *. cbn [height app] in *.
    change ("{"%chr =? 34) with false. change ("{"%chr =? "{"%chr) with true. cbv iota.
    destruct (decide (ms = [])) as [->|Hne]; [done|].
    rewrite <- app_assoc in Hf |- *. change (bs "}" ++ rest) with ("}"%chr :: rest) in *.
    assert (∃ r, joinComma (memberText <$> ms) ++ "}"%chr :: rest = 34 :: r) as [r Hr].
    { destruct ms as [|[k v] [|kv ms]]; [done|by eexists|by eexists]. }
    rewrite Hr. cbn [skipWs]. change (isWs 34) with false. cbv iota. change (34 =? "}"%chr) with false. cbv iota.
    rewrite <- Hr. change (@nil bytes) with (@nil (bytes * Value)).*1 at 1.
    rewrite members_read_back; [done|done| |done|lia|lia|done|cbn [length] in Hf; lia].
    apply Forall_forall. intros kv Hkv. apply IH.
    assert (height kv.2 ≤ foldr (λ kv n, Z.max (height kv.2) n) 0 ms); [|lia].
    clear -Hkv. induction Hkv; simpl; lia.
Qed.

(** What the writer wrote is read back. *)
Lemma text_parse_dump v : wf v → height v ≤ kMaxDepth → parse (dump v) = Ret v.
Proof.
  intros Hwf Hh. unfold parse. destruct (dump_head v Hwf) as (c & s & Hd & Hc & _ & _ & Hbom).
  assert (skipWs (skipBom (dump v)) = dump v) as ->.
  { rewrite Hd. unfold skipBom. cbn [starts_with]. rewrite (proj2 (Z.eqb_neq _ _)) by done. cbn [andb skipWs].
    by rewrite Hc. }
  pose proof (read_back_step (Z.to_nat (height v)) v ltac:(lia) (parseFuel (dump v)) 0 [] Hwf
    ltac:(lia) ltac:(lia) I) as Hrb.
  rewrite app_nil_r in Hrb. rewrite Hrb; [done|]. unfold parseFuel. lia.
Qed.

(** ** Numbers *)

Lemma digitRun_all s : Forall (λ c, isdigit c = true) s → digitRun s = (s, []).
Proof. induction 1 as [|c s Hc Hs IH]; [done|]. cbn [digitRun]. by rewrite Hc, IH. Qed.

Lemma to_digits_isdigit n : 0 ≤ n → Forall (λ c, isdigit c = true) (to_digits 10 n).
Proof.
  intros Hn. eapply Forall_impl; [apply to_digits_valid; lia|].
  intros c (d & Hd & ->). pose proof (digit_char_range10 d Hd). unfold isdigit. apply between_spec.
  simpl. lia.
Qed.

Lemma to_digits_no_lead n :
  0 ≤ n → bool_decide (head (to_digits 10 n) = Some "0"%chr) && (1 <? len (to_digits 10 n)) = false.
Proof.
  intros Hn. destruct (decide (n = 0)) as [->|Hnz]; [done|].
  destruct (to_digits_lead 10 n) as (d & s & -> & Hd); [lia..|].
  apply andb_false_iff. left. apply bool_decide_eq_false. intros [= He].
  pose proof (digit_char_not_zero d ltac:(lia)) as Hz. apply Z.eqb_neq in Hz. simpl in *. lia.
Qed.

(** A printed integer is a JSON number. *)
Lemma parseNumber_to_string n : parseNumber (to_string n) = Some (to_string n, []).
Proof.
  assert (∀ k, 0 ≤ k → digits1 (to_digits 10 k) = Some (to_digits 10 k, [])) as Hd1.
  { intros k Hk. unfold digits1. rewrite digitRun_all by by apply to_digits_isdigit.
    by destruct (to_digits_cons 10 k ltac:(lia) Hk) as (c & s & -> & _). }
  unfold to_string, parseNumber. destruct (Z.ltb_spec n 0).
  - cbn [takeMinus]. change ("-"%chr =? "-"%chr) with true. cbv iota.
    rewrite Hd1 by lia. simpl mbind. rewrite to_digits_no_lead by lia. simpl. by rewrite app_nil_r.
  - assert (takeMinus (to_digits 10 n) = ([], to_digits 10 n)) as ->.
    { destruct (to_digits_cons 10 n) as (c & s & -> & d & Hd & ->); [lia..|]. simpl.
      by destruct (digit_char_plain d ltac:(lia)) as (_ & -> & _). }
    rewrite Hd1 by lia. simpl mbind. rewrite to_digits_no_lead by lia. simpl. by rewrite app_nil_r.
Qed.

Lemma mapFind_assign ms k v : mapFind (mapAssign ms k v) k = Some v.
Proof.
  unfold mapFind. induction ms as [|[k' v'] ms IH]; cbn [mapAssign List.find fst].
  - unfold bytes_eqb. by rewrite bool_decide_eq_true_2.
  - destruct (bytes_eqb k' k) eqn:He; cbn [List.find fst]; rewrite He; [done|]. exact IH.
Qed.

Lemma mapAssign_keys ms k v :
  (mapAssign ms k v).*1 = if mapHas ms k then ms.*1 else ms.*1 ++ [k].
Proof.
  unfold mapHas, mapFind. induction ms as [|[k' v'] ms IH]; [done|]. cbn [mapAssign List.find fst].
  destruct (bytes_eqb k' k); [done|]. cbn. rewrite IH. by case_match.
Qed.

Lemma mapHas_keys ms k : mapHas ms k = false → k ∉ ms.*1.
Proof.
  unfold mapHas, mapFind. induction ms as [|[k' v'] ms IH]; cbn [List.find fst]; [by intros _ Hn%elem_of_nil|].
  destruct (bytes_eqb k' k) eqn:He; [done|]. intros Hf%IH. cbn. rewrite not_elem_of_cons. split; [|done].
  unfold bytes_eqb in He. apply bool_decide_eq_false in He. congruence.
Qed.

Lemma wf_assign ms k v :
  utf8_ok k → wf v → foldr (λ kv P, utf8_ok kv.1 ∧ wf kv.2 ∧ P) True ms →
  foldr (λ kv P, utf8_ok kv.1 ∧ wf kv.2 ∧ P) True (mapAssign ms k v).
Proof.
  intros Hk Hv. induction ms as [|[k' v'] ms IH]; [done|]. cbn [mapAssign foldr fst snd].
  intros (Hk' & Hv' & Hms). destruct (bytes_eqb k' k); cbn [foldr fst snd]; auto.
Qed.

(** Building values keeps them writable: setting a member of an object, appending
    to an array and printing an integer give values that round-trip, and a 64-bit
    integer set under a key is read back exactly by [getInt]. *)
Theorem builders_ok o a k v n :
  wf o → wf a → utf8_ok k → wf v → - 2 ^ 63 ≤ n < 2 ^ 63 →
  wf (set o k v) ∧ wf (push a v) ∧ wf (number n) ∧
  get (set o k v) k = Some v ∧ getInt (set o k (number n)) k = Some n.
Proof.
  intros Ho Ha Hk Hv Hn.
  assert (∀ w, wf w → wf (set o k w) ∧ get (set o k w) k = Some w) as Hset.
  { intros w Hw. destruct o as [| | | | |ms order];
      try (split; [|unfold get, mapFind; cbn; unfold bytes_eqb; by rewrite bool_decide_eq_true_2];
           cbn; split_and!; try done; apply NoDup_singleton).
    destruct Ho as (-> & Hnd & Hms). unfold set, addMember. split; [|apply mapFind_assign].
    cbn [wf]. split_and!; [by rewrite mapAssign_keys| |by apply wf_assign].
    destruct (mapHas ms k) eqn:Hh; [done|]. apply NoDup_app. split_and!; [done| |apply NoDup_singleton].
    intros x Hx ->%list_elem_of_singleton. by apply (mapHas_keys ms k). }
  split_and!; [by apply Hset| |apply parseNumber_to_string|by apply Hset|].
  - destruct a as [| | | |items|]; try done. cbn [push wf] in *.
    induction items as [|x items IH]; [done|]. cbn in *. destruct Ha as [Hx Hi]. auto.
  - unfold getInt. destruct (Hset (number n)) as [_ ->]; [apply parseNumber_to_string|].
    unfold number. rewrite c_str_to_string, strto_to_string. by apply strtoll_to_string.
Qed.

Lemma builders_ok_witness :
  getInt (set (JObject [] []) (bs "address") (number 9223372036854775807)) (bs "address") = Some 9223372036854775807.
Proof.
  apply (builders_ok (JObject [] []) (JArray []) (bs "address") JNull); try done.
  - split_and!; [done|constructor|done].
  - split; [apply bs_ok|reflexivity].
Defined.
