(* ===== verification/Json.v ===== *)
(** * The JSON parser

    Models the class [Parser] of [src/core/json.cpp]: a text [input_], a position [pos_]
    in it and the depth of the nesting, every read of the text written out as [at_]
    ([input_[pos_]], [Undefined] outside the text, its terminator included) and every
    [compare] as [compareAt].  A [false] of the parser is [Fail]; a loop out of fuel is
    [Undefined].  The parser is related, function by function, to the reference parser of
    [JsonText], which works on the text that remains: so no read is ever out of bounds,
    every loop ends, and what the writer wrote is read back. *)

From S2P Require Import Prelude Numeral Loops JsonText.

(** [a - b] of two [size_t]. *)
Definition sizeMinus (a b : Z) : Z := if a <? b then a - b + 2 ^ 64 else a - b.

Section Parser.
Context (input : bytes).
Notation size := (len input).

(** [input_.compare(pos_, n, lit) == 0]: out of range when [pos_] is past the end. *)
Definition compareAt (pos n : Z) (lit : bytes) : outcome bool :=
  if size <? pos then Undefined else Ret (bytes_eqb (slice input pos n) lit).

(** The byte order mark. *)
Definition skipBom : outcome Z :=
  let* bom := compareAt 0 3 [239; 187; 191] in Ret (if bom then 3 else 0).

(** Enough fuel for a loop that moves forward from [pos]. *)
Definition fuelFrom (pos : Z) : nat := S (Z.to_nat (size - pos)).

Fixpoint wsLoop (fuel : nat) (pos : Z) : outcome Z :=
  match fuel with
  | O => Undefined
  | S fuel =>
      if pos <? size then
        let* c := at_ input pos in
        if isWs c then wsLoop fuel (pos + 1) else Ret pos
      else Ret pos
  end.
Definition skipWs (pos : Z) : outcome Z := wsLoop (fuelFrom pos) pos.

Definition consume (expected pos : Z) : outcome Z :=
  let* pos := skipWs pos in
  if size <=? pos then reject
  else let* c := at_ input pos in
       if negb (c =? expected) then reject else Ret (pos + 1).

(** [pos_ < input_.size() && input_[pos_] == c]. *)
Definition isAt (c pos : Z) : outcome bool :=
  if pos <? size then let* d := at_ input pos in Ret (d =? c) else Ret false.

(** The loop of the lambda [unit]: [n] more digits of [code]. *)
Fixpoint unitLoop (n : nat) (code pos : Z) : outcome (Z * Z) :=
  match n with
  | O => Ret (code, pos)
  | S n =>
      let* h := at_ input pos in
      match hexValue h with
      | None => reject
      | Some digit => unitLoop n (Z.lor (u32 (Z.shiftl code 4)) digit) (pos + 1)
      end
  end.
Definition parseUnit (pos : Z) : outcome (Z * Z) :=
  if sizeMinus size pos <? 4 then reject else unitLoop 4 0 pos.

(** [input_.size()-pos_<2 || input_[pos_]!='\\' || input_[pos_+1]!='u']. *)
Definition noLowUnit (pos : Z) : outcome bool :=
  if sizeMinus size pos <? 2 then Ret true
  else let* b := at_ input pos in
       if negb (b =? "\"%chr) then Ret true
       else let* u := at_ input (pos + 1) in Ret (negb (u =? "u"%chr)).

(** The [case 'u']: the bytes appended to the value and the position after them. *)
Definition parseUnicode (pos : Z) : outcome (bytes * Z) :=
  let* (code, pos) := parseUnit pos in
  if between 55296 code 56319 then
    let* bad := noLowUnit pos in
    if bad : bool then reject
    else
      let* (low, pos) := parseUnit (pos + 2) in
      if (low <? 56320) || (57343 <? low) then reject
      else Ret (utf8Encode (65536 + Z.shiftl (code - 55296) 10 + (low - 56320)), pos)
  else if between 56320 code 57343 then reject
  else Ret (utf8Encode code, pos).

(** The loop of [parseString], after the opening quote. *)
Fixpoint stringLoop (fuel : nat) (value : bytes) (pos : Z) : outcome (bytes * Z) :=
  match fuel with
  | O => Undefined
  | S fuel =>
      if size <=? pos then reject else
      let* c := at_ input pos in
      let pos := pos + 1 in
      if c =? 34 then Ret (value, pos)
      else if negb (c =? "\"%chr) then
        if c <? 32 then reject else stringLoop fuel (value ++ [c]) pos
      else if size <=? pos then reject else
      let* esc := at_ input pos in
      let pos := pos + 1 in
      match simpleEscape esc with
      | Some c => stringLoop fuel (value ++ [c]) pos
      | None =>
          if esc =? "u"%chr then
            let* (text, pos) := parseUnicode pos in
            stringLoop fuel (value ++ text) pos
          else reject
      end
  end.
Definition parseString (pos : Z) : outcome (bytes * Z) :=
  if size <=? pos then reject
  else let* c := at_ input pos in
       if negb (c =? 34) then reject else stringLoop (fuelFrom (pos + 1)) [] (pos + 1).

(** The lambda [digit] and the loops [while (digit()) ++pos_]. *)
Definition digit (pos : Z) : outcome bool :=
  if pos <? size then let* c := at_ input pos in Ret (isdigit c) else Ret false.
Fixpoint digitLoop (fuel : nat) (pos : Z) : outcome Z :=
  match fuel with
  | O => Undefined
  | S fuel =>
      let* d := digit pos in
      if d : bool then digitLoop fuel (pos + 1) else Ret pos
  end.
(** [if (!digit()) return false; while (digit()) ++pos_;] *)
Definition someDigits (pos : Z) : outcome Z :=
  let* d := digit pos in
  if d : bool then digitLoop (fuelFrom pos) pos else reject.

(** The fraction and the exponent of a number. *)
Definition fraction (pos : Z) : outcome Z :=
  let* dot := isAt "."%chr pos in
  if dot : bool then someDigits (pos + 1) else Ret pos.
Definition exponent (pos : Z) : outcome Z :=
  let* isE := (if pos <? size then let* c := at_ input pos in Ret ((c =? "e"%chr) || (c =? "E"%chr)) else Ret false) in
  if isE : bool then
    let pos := pos + 1 in
    let* sign := (if pos <? size then let* c := at_ input pos in Ret ((c =? "+"%chr) || (c =? "-"%chr)) else Ret false) in
    someDigits (if sign : bool then pos + 1 else pos)
  else Ret pos.
(** [parseNumber]: the digits before the point, up to the position where the number ends,
    and the whole. *)
Definition wholeEnd (pos : Z) : outcome Z :=
  let* d := digit pos in
  if negb d then reject else
  let* c := at_ input pos in
  if c =? "0"%chr then
    let* d := digit (pos + 1) in
    if d : bool then reject else Ret (pos + 1)
  else digitLoop (fuelFrom pos) pos.
Definition numberEnd (start : Z) : outcome Z :=
  let* c := at_ input start in
  let pos := if c =? "-"%chr then start + 1 else start in
  let* pos := wholeEnd pos in
  let* pos := fraction pos in
  exponent pos.
Definition parseNumber (start : Z) : outcome (bytes * Z) :=
  let* pos := numberEnd start in
  Ret (slice input start (pos - start), pos).

(** [parseValue] with [depth] values already open; the loops of [parseArray] and
    [parseObject] are [itemLoop] and [memberLoop]. *)
Fixpoint parseValue (fuel : nat) (depth pos : Z) : outcome (Value * Z) :=
  match fuel with
  | O => Undefined
  | S fuel =>
      if kMaxDepth <? depth + 1 then reject else
      let* pos := skipWs pos in
      if size <=? pos then reject else
      let* c := at_ input pos in
      if c =? 34 then let* (str, pos) := parseString pos in Ret (JString str, pos)
      else if c =? "{"%chr then
        let* pos := consume "{"%chr pos in
        let* after := skipWs pos in
        let* closed := isAt "}"%chr after in
        if closed : bool then Ret (JObject [] [], after + 1)
        else memberLoop fuel (depth + 1) [] [] after
      else if c =? "["%chr then
        let* pos := consume "["%chr pos in
        let* after := skipWs pos in
        let* closed := isAt "]"%chr after in
        if closed : bool then Ret (JArray [], after + 1)
        else itemLoop fuel (depth + 1) [] after
      else if (c =? "-"%chr) || isdigit c then
        let* (text, pos) := parseNumber pos in Ret (JNumber text, pos)
      else
        let* isTrue := compareAt pos 4 (bs "true") in
        if isTrue : bool then Ret (JBool true, pos + 4) else
        let* isFalse := compareAt pos 5 (bs "false") in
        if isFalse : bool then Ret (JBool false, pos + 5) else
        let* isNull := compareAt pos 4 (bs "null") in
        if isNull : bool then Ret (JNull, pos + 4)
        else reject
  end
with itemLoop (fuel : nat) (depth : Z) (items : list Value) (pos : Z) : outcome (Value * Z) :=
  match fuel with
  | O => Undefined
  | S fuel =>
      let* (item, pos) := parseValue fuel depth pos in
      let items := items ++ [item] in
      let* pos := skipWs pos in
      let* closed := isAt "]"%chr pos in
      if closed : bool then Ret (JArray items, pos + 1)
      else let* pos := consume ","%chr pos in itemLoop fuel depth items pos
  end
with memberLoop (fuel : nat) (depth : Z) (ms : list (bytes * Value)) (order : list bytes) (pos : Z)
  : outcome (Value * Z) :=
  match fuel with
  | O => Undefined
  | S fuel =>
      let* pos := skipWs pos in
      let* (key, pos) := parseString pos in
      let* pos := consume ":"%chr pos in
      let* (value, pos) := parseValue fuel depth pos in
      let '(ms, order) := addMember ms order key value in
      let* pos := skipWs pos in
      let* closed := isAt "}"%chr pos in
      if closed : bool then Ret (JObject ms order, pos + 1)
      else let* pos := consume ","%chr pos in memberLoop fuel depth ms order pos
  end.

(** The constructor and [Parser::parse]; two steps of fuel per character are enough
    ([parse_total]). *)
Definition parse : outcome Value :=
  let* pos := skipBom in
  let* pos := skipWs pos in
  let* (v, pos) := parseValue (2 * fuelFrom pos) 0 pos in
  let* pos := skipWs pos in
  if pos =? size then Ret v else reject.

(** ** The positions and the text that remains *)

(** The text that remains at a position inside the text or at its end. *)
Definition rest (pos : Z) (s : bytes) : Prop := 0 ≤ pos ≤ size ∧ drop (Z.to_nat pos) input = s.

(** The two parsers do the same: same values, the position at the text that remains. *)
Definition sim {A} (m : outcome (A * Z)) (k : outcome (A * bytes)) : Prop :=
  match m, k with
  | Ret (a, pos), Ret (b, s) => a = b ∧ rest pos s
  | Fail _, Fail _ | Undefined, Undefined => True
  | _, _ => False
  end.
(** The same for a step that only moves, against a total function or an option. *)
Definition simPos (m : outcome Z) (k : outcome bytes) : Prop :=
  match m, k with
  | Ret pos, Ret s => rest pos s
  | Fail _, Fail _ | Undefined, Undefined => True
  | _, _ => False
  end.
Definition orReject {A} (o : option A) : outcome A := match o with Some a => Ret a | None => reject end.

Lemma sim_bind {A B} (m : outcome (A * Z)) (k : outcome (A * bytes)) (f : A * Z → outcome (B * Z))
  (g : A * bytes → outcome (B * bytes)) :
  sim m k → (∀ a pos s, rest pos s → sim (f (a, pos)) (g (a, s))) → sim (obind m f) (obind k g).
Proof. destruct m as [[a p]| |], k as [[b s]| |]; simpl; try done. intros [-> Hr] Hf. by apply Hf. Qed.

Lemma simPos_bind {B} m k (f : Z → outcome (B * Z)) (g : bytes → outcome (B * bytes)) :
  simPos m k → (∀ pos s, rest pos s → sim (f pos) (g s)) → sim (obind m f) (obind k g).
Proof. destruct m, k; simpl; try done. intros Hr Hf. by apply Hf. Qed.

Lemma rest_len pos s : rest pos s → size - pos = len s.
Proof. unfold rest, len. intros [Hp <-]. rewrite length_drop. lia. Qed.

Lemma rest_fuel pos s : rest pos s → fuelFrom pos = S (length s).
Proof. intros Hr. pose proof (rest_len _ _ Hr). unfold fuelFrom, len in *. lia. Qed.

Lemma rest_nil pos : rest pos [] → pos = size.
Proof. intros Hr. pose proof (rest_len _ _ Hr). unfold len in *. simpl in *. destruct Hr. unfold len in *. lia. Qed.

Lemma rest_drop pos s n : rest pos s → 0 ≤ n ≤ len s → rest (pos + n) (drop (Z.to_nat n) s).
Proof.
  intros Hr Hn. pose proof (rest_len _ _ Hr). destruct Hr as [Hp <-]. split; [lia|].
  rewrite drop_drop. f_equal. lia.
Qed.

Lemma rest_cons pos c s : rest pos (c :: s) → pos < size ∧ at_ input pos = Ret c ∧ rest (pos + 1) s.
Proof.
  intros Hr. pose proof (rest_len _ _ Hr) as Hl. rewrite len_cons in Hl. assert (0 ≤ len s) by (unfold len; lia).
  split; [lia|]. split.
  - destruct Hr as [Hp Hd]. apply at_lget. unfold lget. rewrite (proj2 (Z.leb_le 0 pos)) by lia.
    rewrite <- (Nat.add_0_r (Z.to_nat pos)), <- lookup_drop, Hd. done.
  - apply (rest_drop _ _ 1 Hr). rewrite len_cons. lia.
Qed.

Lemma rest_slice pos s n : rest pos s → slice input pos n = take (Z.to_nat n) s.
Proof. intros [_ <-]. done. Qed.

(** ** Each step refines the reference *)

Lemma isAt_nil c pos : rest pos [] → isAt c pos = Ret false.
Proof. intros ->%rest_nil. unfold isAt. by rewrite Z.ltb_irrefl. Qed.

Lemma isAt_cons c pos d s : rest pos (d :: s) → isAt c pos = Ret (d =? c).
Proof. intros (Hp & Ha & _)%rest_cons. unfold isAt. rewrite (proj2 (Z.ltb_lt _ _)) by done. by rewrite Ha. Qed.

Lemma digit_rest pos s : rest pos s → digit pos = Ret (match s with c :: _ => isdigit c | [] => false end).
Proof.
  unfold digit. destruct s as [|c s].
  - intros ->%rest_nil. by rewrite Z.ltb_irrefl.
  - intros (Hp & Ha & _)%rest_cons. rewrite (proj2 (Z.ltb_lt _ _)) by done. by rewrite Ha.
Qed.

Lemma skipWs_sim pos s : rest pos s → ∃ pos', skipWs pos = Ret pos' ∧ rest pos' (JsonText.skipWs s).
Proof.
  intros Hr. unfold skipWs. rewrite (rest_fuel _ _ Hr). revert pos Hr.
  induction s as [|c s IH]; intros pos Hr; cbn [length]; cbn [wsLoop].
  - rewrite (rest_nil _ Hr), Z.ltb_irrefl. exists size. by rewrite <- (rest_nil _ Hr).
  - pose proof (rest_cons _ _ _ Hr) as (Hp & -> & Hr'). rewrite (proj2 (Z.ltb_lt _ _)) by done.
    cbn [obind JsonText.skipWs]. destruct (isWs c); [by apply IH|by exists pos].
Qed.

Lemma skipWs_bind {B} pos s (f : Z → outcome (B * Z)) (k : outcome (B * bytes)) :
  rest pos s → (∀ pos', rest pos' (JsonText.skipWs s) → sim (f pos') k) → sim (obind (skipWs pos) f) k.
Proof. intros (pos' & -> & Hr)%skipWs_sim Hf. by apply Hf. Qed.

Lemma consume_sim c pos s : rest pos s → simPos (consume c pos) (JsonText.consume c s).
Proof.
  intros (pos' & Hws & Hr)%skipWs_sim. unfold consume, JsonText.consume. rewrite Hws. cbn [obind].
  destruct (JsonText.skipWs s) as [|d t].
  - rewrite (rest_nil _ Hr), Z.leb_refl. done.
  - apply rest_cons in Hr as (Hp & -> & Hr'). rewrite (proj2 (Z.leb_gt _ _)) by done. cbn [obind].
    by destruct (d =? c).
Qed.

Lemma sizeMinus_rest pos s : rest pos s → sizeMinus size pos = len s.
Proof.
  intros Hr. rewrite <- (rest_len _ _ Hr). destruct Hr as [Hp _]. unfold sizeMinus.
  by rewrite (proj2 (Z.ltb_ge _ _)) by lia.
Qed.

Lemma parseUnit_sim pos s : rest pos s → sim (parseUnit pos) (orReject (JsonText.parseUnit s)).
Proof.
  intros Hr. unfold parseUnit. rewrite (sizeMinus_rest _ _ Hr).
  destruct s as [|a [|b [|c [|d s]]]]; [done..|]. unfold len at 1. rewrite (proj2 (Z.ltb_ge _ _)) by (cbn [length]; lia).
  apply rest_cons in Hr as (_ & Ha & Hr). apply rest_cons in Hr as (_ & Hb & Hr).
  apply rest_cons in Hr as (_ & Hc & Hr). apply rest_cons in Hr as (_ & Hd & Hr).
  cbn [unitLoop JsonText.parseUnit]. rewrite Ha. cbn [obind]. destruct (hexValue a); [|done].
  rewrite Hb. cbn [obind]. destruct (hexValue b); [|done].
  rewrite Hc. cbn [obind]. destruct (hexValue c); [|done].
  rewrite Hd. cbn [obind]. by destruct (hexValue d).
Qed.

Lemma parseUnicode_sim pos s : rest pos s → sim (parseUnicode pos) (orReject (JsonText.parseUnicode s)).
Proof.
  intros Hr. unfold parseUnicode, JsonText.parseUnicode. pose proof (parseUnit_sim _ _ Hr) as Hu.
  destruct (JsonText.parseUnit s) as [[code s1]|]; cbn [orReject sim mbind option_bind obind] in *;
    destruct (parseUnit pos) as [[code' p1]| |]; try done.
  destruct Hu as [-> Hr1]. cbn [obind]. destruct (between 55296 code 56319); [|by destruct (between 56320 code 57343)].
  unfold noLowUnit. rewrite (sizeMinus_rest _ _ Hr1).
  destruct s1 as [|b [|u s1]]; [done..|]. unfold len at 1. rewrite (proj2 (Z.ltb_ge _ _)) by (cbn [length]; lia).
  pose proof (rest_drop _ _ 2 Hr1 ltac:(unfold len; cbn [length]; lia)) as Hr3.
  change (drop (Z.to_nat 2) (b :: u :: s1)) with s1 in Hr3.
  apply rest_cons in Hr1 as (_ & Hb & Hr2). apply rest_cons in Hr2 as (_ & Hu & _).
  rewrite Hb. cbn [obind]. destruct (b =? "\"%chr); [|done]. cbn [negb andb]. rewrite Hu. cbn [obind].
  destruct (u =? "u"%chr); [|done]. cbn [negb]. pose proof (parseUnit_sim _ _ Hr3) as Hl.
  destruct (JsonText.parseUnit s1) as [[low s2]|]; cbn [orReject sim mbind option_bind obind] in *;
    destruct (parseUnit (p1 + 2)) as [[low' p2]| |]; try done.
  destruct Hl as [-> Hr4]. cbn [obind]. by destruct (_ || _).
Qed.

Lemma stringLoop_sim fuel : ∀ value pos s,
  rest pos s → sim (stringLoop fuel value pos) (JsonText.stringLoop fuel value s).
Proof.
  induction fuel as [|fuel IH]; intros value pos s Hr; [done|]. cbn [stringLoop JsonText.stringLoop].
  destruct s as [|c s]; [by rewrite (rest_nil _ Hr), Z.leb_refl|].
  apply rest_cons in Hr as (Hp & -> & Hr). rewrite (proj2 (Z.leb_gt _ _)) by done. cbn [obind].
  destruct (c =? 34); [done|]. destruct (negb (c =? _)); [by destruct (c <? 32); [|apply IH]|].
  destruct s as [|esc s]; [by rewrite (rest_nil _ Hr), Z.leb_refl|].
  apply rest_cons in Hr as (Hp' & -> & Hr). rewrite (proj2 (Z.leb_gt _ _)) by done. cbn [obind].
  destruct (simpleEscape esc); [by apply IH|]. destruct (esc =? _); [|done].
  pose proof (parseUnicode_sim _ _ Hr) as Hu.
  destruct (JsonText.parseUnicode s) as [[text s1]|]; cbn [orReject sim] in Hu;
    destruct (parseUnicode (pos + 1 + 1)) as [[text' p1]| |]; try done.
  destruct Hu as [-> Hr1]. by apply IH.
Qed.

Lemma parseString_sim pos s : rest pos s → sim (parseString pos) (JsonText.parseString s).
Proof.
  intros Hr. unfold parseString, JsonText.parseString.
  destruct s as [|c s]; [by rewrite (rest_nil _ Hr), Z.leb_refl|].
  apply rest_cons in Hr as (Hp & -> & Hr). rewrite (proj2 (Z.leb_gt _ _)) by done. cbn [obind].
  destruct (c =? 34); [|done]. cbn [negb]. rewrite (rest_fuel _ _ Hr). by apply stringLoop_sim.
Qed.

(** ** Numbers *)

Lemma digitLoop_sim s : ∀ pos, rest pos s → ∃ pos', digitLoop (S (length s)) pos = Ret pos' ∧ rest pos' (digitRun s).2.
Proof.
  induction s as [|c s IH]; intros pos Hr; cbn [length]; cbn [digitLoop]; rewrite (digit_rest _ _ Hr); cbn [obind digitRun].
  - by exists pos.
  - destruct (isdigit c); [|by exists pos]. apply rest_cons in Hr as (_ & _ & Hr).
    destruct (IH _ Hr) as (pos' & Hl & Hr'). exists pos'. split; [exact Hl|]. by destruct (digitRun s).
Qed.

(** A step of [parseNumber] moves over what the reference reads. *)
Definition over (m : outcome Z) (k : option (bytes * bytes)) : Prop :=
  match m, k with Ret pos, Some (_, r) => rest pos r | Fail _, None => True | _, _ => False end.

Lemma digits_sim pos s : rest pos s → over (someDigits pos) (digits1 s).
Proof.
  intros Hr. unfold someDigits, digits1. rewrite (digit_rest _ _ Hr). cbn [obind].
  destruct s as [|c s]; [done|]. pose proof (digitLoop_sim _ _ Hr) as (pos' & Hl & Hr'). rewrite (rest_fuel _ _ Hr), Hl.
  cbn [digitRun] in *. destruct (isdigit c); [|done]. by destruct (digitRun s).
Qed.

Lemma fraction_sim pos s : rest pos s → over (fraction pos) (fracPart s).
Proof.
  intros Hr. unfold fraction, fracPart. destruct s as [|c s]; [by rewrite (isAt_nil _ _ Hr)|].
  rewrite (isAt_cons _ _ _ _ Hr). cbn [obind]. destruct (c =? "."%chr); [|done].
  apply rest_cons in Hr as (_ & _ & Hr). pose proof (digits_sim _ _ Hr) as Hd.
  destruct (digits1 s) as [[d r]|]; [|done]. done.
Qed.

Lemma exponent_sim pos s : rest pos s → over (exponent pos) (expPart s).
Proof.
  intros Hr. unfold exponent, expPart. destruct s as [|c s]; [by rewrite (rest_nil _ Hr), Z.ltb_irrefl; rewrite <- (rest_nil _ Hr)|].
  pose proof (rest_cons _ _ _ Hr) as (Hp & -> & Hr1). rewrite (proj2 (Z.ltb_lt _ _)) by done. cbn [obind].
  destruct (_ || _); [|done].
  assert (∃ p', (let* sign := (if pos + 1 <? size then let* c := at_ input (pos + 1) in Ret ((c =? "+"%chr) || (c =? "-"%chr)) else Ret false)
      in someDigits (if sign : bool then pos + 1 + 1 else pos + 1)) = someDigits p' ∧ rest p' (takeSign s).2) as (p' & -> & Hr2).
  { destruct s as [|d s]; [rewrite (rest_nil _ Hr1), Z.ltb_irrefl, <- (rest_nil _ Hr1); by eexists|].
    pose proof (rest_cons _ _ _ Hr1) as (Hp1 & -> & Hr2). rewrite (proj2 (Z.ltb_lt _ _)) by done. cbn [obind takeSign].
    destruct (_ || _); by eexists. }
  destruct (takeSign s) as [sg s'']. pose proof (digits_sim _ _ Hr2) as Hd. cbn [snd] in Hd.
  by destruct (digits1 s'') as [[d r]|].
Qed.

Lemma over_bind m k (f : Z → outcome Z) (g : bytes * bytes → option (bytes * bytes)) :
  over m k → (∀ pos t r, rest pos r → over (f pos) (g (t, r))) → over (obind m f) (k ≫= g).
Proof. destruct m, k as [[t r]|]; simpl; try done. intros Hr Hf. by apply Hf. Qed.

(** The sign and the digits before the point. *)
Lemma whole_sim pos s :
  rest pos s → over (wholeEnd pos)
    (let? (whole, s) := digits1 s in
     if bool_decide (head whole = Some "0"%chr) && (1 <? len whole) then None else Some (whole, s)).
Proof.
  intros Hr. unfold wholeEnd. rewrite (digit_rest _ _ Hr). cbn [obind]. destruct s as [|c s]; [done|].
  pose proof (digitLoop_sim _ _ Hr) as (pos' & Hl & Hr'). rewrite (rest_fuel _ _ Hr), Hl.
  apply rest_cons in Hr as (_ & -> & Hr). unfold digits1. cbn [obind digitRun] in *.
  destruct (isdigit c); [|done]. cbn [negb]. destruct (Z.eqb_spec c "0"%chr) as [->|Hc].
  - rewrite (digit_rest _ _ Hr). cbn [obind]. destruct s as [|d s]; [done|].
    cbn [digitRun]. destruct (isdigit d); [|done]. destruct (digitRun s) as [ds r]. cbn [mbind option_bind head].
    rewrite bool_decide_eq_true_2 by done. rewrite (proj2 (Z.ltb_lt _ _)); [done|]. rewrite !len_cons. unfold len. lia.
  - destruct (digitRun s) as [ds r]. cbn [mbind option_bind head].
    by rewrite bool_decide_eq_false_2 by congruence.
Qed.

Lemma numberEnd_sim pos s : rest pos s → s ≠ [] → over (numberEnd pos) (JsonText.parseNumber s).
Proof.
  intros Hr Hne. unfold numberEnd, JsonText.parseNumber. destruct s as [|c s]; [done|].
  pose proof (rest_cons _ _ _ Hr) as (_ & -> & Hr1). cbn [obind].
  assert (∃ sign s0 p0, takeMinus (c :: s) = (sign, s0) ∧ (if c =? "-"%chr then pos + 1 else pos) = p0 ∧ rest p0 s0)
    as (sign & s0 & p0 & -> & -> & Hr0).
  { cbn [takeMinus]. destruct (c =? "-"%chr); by eexists _, _, _. }
  pose proof (whole_sim _ _ Hr0) as Hw.
  destruct (digits1 s0) as [[whole s1]|]; cbn [mbind option_bind] in *; [|by destruct (wholeEnd p0)].
  destruct (_ && _); [by destruct (wholeEnd p0)|]. destruct (wholeEnd p0) as [p1| |]; cbn [over obind] in *; [|done..].
  apply over_bind; [by apply fraction_sim|]. intros p2 frac s2 Hr2.
  pose proof (exponent_sim _ _ Hr2) as He. destruct (expPart s2) as [[expo s3]|]; exact He.
Qed.

Lemma parseNumber_sim pos s : rest pos s → s ≠ [] → sim (parseNumber pos) (orReject (JsonText.parseNumber s)).
Proof.
  intros Hr Hne. pose proof (numberEnd_sim _ _ Hr Hne) as He. unfold parseNumber.
  destruct (JsonText.parseNumber s) as [[t r]|] eqn:Hn; cbn [orReject]; destruct (numberEnd pos) as [p| |]; try done.
  cbn [over obind sim] in *. split; [|done]. apply parseNumber_app in Hn as [-> _].
  pose proof (rest_len _ _ Hr) as Hl. pose proof (rest_len _ _ He) as Hl'. rewrite len_app in Hl.
  rewrite (rest_slice _ _ _ Hr). replace (p - pos) with (len t) by lia. unfold len. rewrite Nat2Z.id.
  apply take_app_length.
Qed.

(** ** Values *)

Lemma compareAt_sim lit pos s :
  rest pos s → compareAt pos (len lit) lit = Ret (starts_with lit s).
Proof.
  intros Hr. unfold compareAt. rewrite (proj2 (Z.ltb_ge _ _)) by (destruct Hr; lia). f_equal.
  rewrite (rest_slice _ _ _ Hr). unfold len. rewrite Nat2Z.id. unfold bytes_eqb. clear Hr.
  revert s. induction lit as [|c lit IH]; intros s; [done|]. destruct s as [|d s]; [done|].
  cbn [length take starts_with]. rewrite <- IH. destruct (Z.eqb_spec c d) as [->|Hcd]; cbn [andb].
  - apply bool_decide_ext. split; [by intros [=]|by intros ->].
  - apply bool_decide_eq_false. congruence.
Qed.

Lemma skipWs_idem s : JsonText.skipWs (JsonText.skipWs s) = JsonText.skipWs s.
Proof. induction s as [|c s IH]; [done|]. cbn [JsonText.skipWs]. destruct (isWs c) eqn:Hc; [done|]. cbn [JsonText.skipWs]. by rewrite Hc. Qed.

Lemma consume_skipWs c s : JsonText.consume c (JsonText.skipWs s) = JsonText.consume c s.
Proof. unfold JsonText.consume. by rewrite skipWs_idem. Qed.

Lemma parseValue_skipWs fuel depth s :
  JsonText.parseValue fuel depth (JsonText.skipWs s) = JsonText.parseValue fuel depth s.
Proof. destruct fuel; [done|]. cbn [JsonText.parseValue]. by rewrite skipWs_idem. Qed.

Lemma itemLoop_skipWs fuel depth items s :
  JsonText.itemLoop fuel depth items (JsonText.skipWs s) = JsonText.itemLoop fuel depth items s.
Proof. destruct fuel; [done|]. cbn [JsonText.itemLoop]. by rewrite parseValue_skipWs. Qed.

Lemma memberLoop_skipWs fuel depth ms order s :
  JsonText.memberLoop fuel depth ms order (JsonText.skipWs s) = JsonText.memberLoop fuel depth ms order s.
Proof. destruct fuel; [done|]. cbn [JsonText.memberLoop]. by rewrite skipWs_idem. Qed.

(** The bracket that opens a value is consumed. *)
Lemma consume_open c pos s : rest pos (c :: s) → isWs c = false → consume c pos = Ret (pos + 1).
Proof.
  intros Hr Hc. pose proof (consume_sim c _ _ Hr) as Hs. unfold JsonText.consume in Hs. cbn [JsonText.skipWs] in Hs.
  rewrite Hc, Z.eqb_refl in Hs. destruct (consume c pos) as [p| |]; [|done..]. f_equal.
  apply rest_len in Hs. apply rest_len in Hr. rewrite len_cons in Hr. lia.
Qed.

(** What follows a value in a container: its closing bracket, or a comma and more. *)
Lemma closing_sim {A} c (v : A) pos s (more : Z → outcome (A * Z)) (more' : bytes → outcome (A * bytes)) :
  rest pos s → (∀ p t, rest p t → sim (more p) (more' t)) →
  sim (let* pos := skipWs pos in
       let* closed := isAt c pos in
       if closed : bool then Ret (v, pos + 1) else let* pos := consume ","%chr pos in more pos)
      (match JsonText.skipWs s with
       | d :: r => if d =? c then Ret (v, r) else let* s := JsonText.consume ","%chr s in more' s
       | [] => reject
       end).
Proof.
  intros Hr Hm. apply (skipWs_bind _ _ _ _ Hr). intros p Hp. pose proof (consume_sim ","%chr _ _ Hp) as Hc.
  rewrite consume_skipWs in Hc. destruct (JsonText.skipWs s) as [|d r] eqn:Hs.
  - rewrite (isAt_nil _ _ Hp). cbn [obind]. unfold JsonText.consume in Hc. rewrite Hs in Hc.
    by destruct (consume _ p).
  - rewrite (isAt_cons _ _ _ _ Hp). cbn [obind]. destruct (d =? c).
    + split; [done|]. by apply rest_cons in Hp as (_ & _ & ?).
    + by apply simPos_bind.
Qed.

(** The opening bracket of a container, and the container when it is empty. *)
Lemma opening_sim o c (v : Value) pos s (more : Z → outcome (Value * Z)) (more' : bytes → outcome (Value * bytes)) :
  rest pos (o :: s) → isWs o = false → (∀ t, more' (JsonText.skipWs t) = more' t) →
  (∀ p t, rest p t → sim (more p) (more' t)) →
  sim (let* pos := consume o pos in
       let* after := skipWs pos in
       let* closed := isAt c after in
       if closed : bool then Ret (v, after + 1) else more after)
      (match JsonText.skipWs s with
       | d :: r => if d =? c then Ret (v, r) else more' s
       | [] => more' s
       end).
Proof.
  intros Hr Ho Hws Hm. rewrite (consume_open _ _ _ Hr Ho). cbn [obind].
  apply rest_cons in Hr as (_ & _ & Hr). apply (skipWs_bind _ _ _ _ Hr). intros p Hp.
  pose proof (Hm _ _ Hp) as Hsim. rewrite Hws in Hsim.
  destruct (JsonText.skipWs s) as [|d r]; [by rewrite (isAt_nil _ _ Hp)|].
  rewrite (isAt_cons _ _ _ _ Hp). cbn [obind]. destruct (d =? c); [|done].
  split; [done|]. by apply rest_cons in Hp as (_ & _ & ?).
Qed.

Lemma literals_sim pos s :
  rest pos s →
  sim (let* isTrue := compareAt pos 4 (bs "true") in
       if isTrue : bool then Ret (JBool true, pos + 4) else
       let* isFalse := compareAt pos 5 (bs "false") in
       if isFalse : bool then Ret (JBool false, pos + 5) else
       let* isNull := compareAt pos 4 (bs "null") in
       if isNull : bool then Ret (JNull, pos + 4) else reject)
      (if starts_with (bs "true") s then Ret (JBool true, drop 4 s)
       else if starts_with (bs "false") s then Ret (JBool false, drop 5 s)
       else if starts_with (bs "null") s then Ret (JNull, drop 4 s)
       else reject).
Proof.
  intros Hr. change 4 with (len (bs "true")) at 1. rewrite (compareAt_sim _ _ _ Hr).
  change 5 with (len (bs "false")) at 1. rewrite (compareAt_sim _ _ _ Hr).
  change 4 with (len (bs "null")) at 2. rewrite (compareAt_sim _ _ _ Hr). cbn [obind].
  repeat (case_match; [match goal with H : starts_with _ _ = true |- _ => apply starts_with_length in H; cbn in H end;
    split; [done|]; first [apply (rest_drop _ _ 4 Hr) | apply (rest_drop _ _ 5 Hr)]; unfold len; lia|]).
  done.
Qed.

Lemma loops_sim fuel :
  (∀ depth pos s, rest pos s → sim (parseValue fuel depth pos) (JsonText.parseValue fuel depth s)) ∧
  (∀ depth items pos s, rest pos s → sim (itemLoop fuel depth items pos) (JsonText.itemLoop fuel depth items s)) ∧
  (∀ depth ms order pos s, rest pos s →
     sim (memberLoop fuel depth ms order pos) (JsonText.memberLoop fuel depth ms order s)).
Proof.
  induction fuel as [|fuel (IHv & IHi & IHm)]; [done|].
  split_and!; intros depth *; intros Hr; cbn [parseValue itemLoop memberLoop
    JsonText.parseValue JsonText.itemLoop JsonText.memberLoop].
  - case_match; [done|]. apply (skipWs_bind _ _ _ _ Hr). intros p Hp.
    destruct (JsonText.skipWs s) as [|c rst]; [by rewrite (rest_nil _ Hp), Z.leb_refl|].
    pose proof (rest_cons _ _ _ Hp) as (Hlt & -> & _). rewrite (proj2 (Z.leb_gt _ _)) by done. cbn [obind].
    destruct (c =? 34).
    { apply sim_bind; [by apply parseString_sim|done]. }
    destruct (Z.eqb_spec c "{"%chr) as [->|_].
    { apply opening_sim; [done..|apply memberLoop_skipWs|auto]. }
    destruct (Z.eqb_spec c "["%chr) as [->|_].
    { apply opening_sim; [done..|apply itemLoop_skipWs|auto]. }
    destruct (_ || _); [|by apply literals_sim].
    pose proof (parseNumber_sim _ _ Hp ltac:(done)) as Hn.
    destruct (JsonText.parseNumber (c :: rst)) as [[t r]|]; cbn [orReject] in Hn;
      destruct (parseNumber p) as [[t' p']| |]; try done. by destruct Hn as [-> ?].
  - apply sim_bind; [by apply IHv|]. intros item p t Hp. apply closing_sim; [done|]. auto.
  - apply (skipWs_bind _ _ _ _ Hr). intros p Hp. apply sim_bind; [by apply parseString_sim|].
    intros key p1 s1 Hr1. apply simPos_bind; [by apply consume_sim|]. intros p2 s2 Hr2.
    apply sim_bind; [by apply IHv|]. intros v p3 s3 Hr3.
    destruct (addMember ms order key v) as [ms' order']. apply closing_sim; [done|]. auto.
Qed.

(** The program's parser and the reference parser give the same result. *)
Definition same {A} (m k : outcome A) : Prop :=
  match m, k with
  | Ret a, Ret b => a = b
  | Fail _, Fail _ | Undefined, Undefined => True
  | _, _ => False
  end.
Lemma parse_refines : same parse (JsonText.parse input).
Proof.
  unfold parse, JsonText.parse.
  assert (rest 0 input) as H0 by (split; [unfold len; lia|done]).
  assert (∃ p, skipBom = Ret p ∧ rest p (JsonText.skipBom input)) as (p & -> & Hp).
  { unfold skipBom, JsonText.skipBom. change 3 with (len [239; 187; 191]) at 1. rewrite (compareAt_sim _ _ _ H0).
    cbn [obind]. destruct (starts_with _ input) eqn:Hb; [|by exists 0]. exists 3. split; [done|].
    apply starts_with_length in Hb. apply (rest_drop _ _ 3 H0). unfold len. cbn in Hb. lia. }
  cbn [obind]. destruct (skipWs_sim _ _ Hp) as (p1 & -> & Hp1). cbn [obind].
  rewrite (rest_fuel _ _ Hp1). replace (2 * S (length (JsonText.skipWs (JsonText.skipBom input))))%nat
    with (parseFuel (JsonText.skipWs (JsonText.skipBom input))) by (unfold parseFuel; lia).
  destruct (loops_sim (parseFuel (JsonText.skipWs (JsonText.skipBom input)))) as (Hv & _ & _).
  specialize (Hv 0 _ _ Hp1).
  destruct (JsonText.parseValue _ _ _) as [[v s]| |], (parseValue _ _ _) as [[v' p2]| |]; try done.
  destruct Hv as [-> Hp2]. cbn [obind]. destruct (skipWs_sim _ _ Hp2) as (p3 & -> & Hp3). cbn [obind].
  destruct (JsonText.skipWs s) as [|c r].
  - by rewrite (rest_nil _ Hp3), Z.eqb_refl.
  - apply rest_cons in Hp3 as (Hlt & _). by rewrite (proj2 (Z.eqb_neq _ _)) by lia.
Qed.
End Parser.

(** C34: the parser accepts or rejects every text: all its loops and recursions end,
    [pos_] stays inside the text, and no character outside it is read, in escapes cut
    short by the end of the text, in numbers and in literals. *)
Theorem parse_total input : defined (parse input).
Proof.
  pose proof (parse_refines input) as Hr. pose proof (text_parse_total input) as Ht.
  by destruct (parse input), (JsonText.parse input).
Qed.

(** C33: writing and parsing a value is the identity.  Every value made of valid UTF-8
    texts, valid numbers and objects with distinct keys, nested at most 128 deep, is
    read back exactly, object order and 64-bit number texts included. *)
Theorem parse_dump v : wf v → height v ≤ kMaxDepth → parse (dump v) = Ret v.
Proof.
  intros Hwf Hh. pose proof (parse_refines (dump v)) as Hr. rewrite text_parse_dump in Hr by done.
  destruct (parse (dump v)); [by f_equal|done..].
Qed.

Definition sampleValue : Value :=
  set (set (JObject [] []) (bs "name") (JString [120; 34; 92; 195; 169])) (bs "list")
    (JArray [number (-12); JBool true; JNull]).
Lemma parse_dump_witness :
  sampleValue = JObject [(bs "name", JString [120; 34; 92; 195; 169]);
    (bs "list", JArray [JNumber (bs "-12"); JBool true; JNull])] [bs "name"; bs "list"] ∧
  parse (dump sampleValue) = Ret sampleValue.
Proof.
  split; [reflexivity|]. apply (parse_dump sampleValue); [|discriminate].
  cbn. repeat split; try reflexivity; try (repeat constructor; unfold in_width; lia).
  apply NoDup_cons. split; [|apply NoDup_singleton]. rewrite list_elem_of_singleton. discriminate.
Defined.

(** An escape cut short, a lone high surrogate, a leading zero and a literal cut short are
    rejected; a surrogate pair and a byte order mark are read. *)
Example parse_cut : parse (bs "[" ++ [34] ++ bs "\u12") = reject ∧ parse ([34] ++ bs "\ud83d\") = reject ∧
  parse (bs "-01") = reject ∧ parse (bs "[-") = reject ∧ parse (bs "nul") = reject ∧
  parse ([239; 187; 191; 34] ++ bs "\ud83d\ude00" ++ [34]) = Ret (JString [240; 159; 152; 128]).
Proof. by vm_compute. Qed.
