(* ===== verification/Snapshot.v ===== *)
(** * Memory snapshots

    Models [src/scanner/snapshot.cpp]: capture under a byte budget, recapture, diff of
    two snapshots, restore, and the [CESNAP01] file.  The process is its list of
    regions and its [read]; [restore] yields the writes it asks for, in order.  Files
    are their contents: a failing [fopen], [fwrite] or [fseek] is not modelled. *)

From S2P Require Import Prelude TargetMachine Types Loops Files.
From stdpp Require Import sorting.
#[local] Open Scope Z_scope.

Record SnapshotRegion := mkSnap {
  snap_base : Z; snap_size : Z; snap_protection : Z; snap_bytes : bytes
}.
Record Snapshot := mkSnapshot { regions : list SnapshotRegion; truncated : bool }.

(** [overlap]: the common range, when it is not empty. *)
Definition overlap (aBase aLen bBase bLen : Z) : option (Z * Z) :=
  let top := UINT64_MAX in
  let aEnd := aBase + Z.min aLen (top - aBase) in
  let bEnd := bBase + Z.min bLen (top - bBase) in
  let lo := Z.max aBase bBase in
  let hi := Z.min aEnd bEnd in
  if lo <? hi then Some (lo, hi) else None.

Section Process.
(** [proc.queryRegions()] and [proc.read(address, buffer, size)]: the bytes read, at
    most [size] of them, or [None] for an error. *)
Context (queryRegions : list MemoryRegion) (read : Z → Z → option bytes).

Definition writable (r : MemoryRegion) : bool := protHas (region_protection r) ProtWrite.

(** The loop of [capture]. *)
Fixpoint captureLoop (rs : list MemoryRegion) (budget : Z) (snap : Snapshot) : Snapshot :=
  match rs with
  | [] => snap
  | r :: rs =>
      if negb (writable r) then captureLoop rs budget snap
      else if region_size r =? 0 then captureLoop rs budget snap
      else if budget =? 0 then mkSnapshot (regions snap) true
      else
        let take := Z.min (region_size r) budget in
        let snap := mkSnapshot (regions snap) (truncated snap || (take <? region_size r)) in
        match read (region_base r) take with
        | None | Some [] => captureLoop rs budget snap
        | Some got =>
            captureLoop rs (budget - len got)
              (mkSnapshot (regions snap ++
                [mkSnap (region_base r) (region_size r) (region_protection r) got]) (truncated snap))
        end
  end.
Definition capture (maxBytes : Z) : Snapshot := captureLoop queryRegions maxBytes (mkSnapshot [] false).

(** One pair of [recapture]. *)
Definition recapturePart (saved : SnapshotRegion) (r : MemoryRegion) : option SnapshotRegion :=
  if negb (writable r) || (region_size r =? 0) then None else
  match overlap (snap_base saved) (len (snap_bytes saved)) (region_base r) (region_size r) with
  | None => None
  | Some (lo, hi) =>
      match read lo (hi - lo) with
      | None | Some [] => None
      | Some got => Some (mkSnap lo (hi - lo) (region_protection r) got)
      end
  end.
Definition recapture (s : Snapshot) : Snapshot :=
  mkSnapshot (mjoin ((λ saved, omap (recapturePart saved) queryRegions) <$> regions s)) false.

Definition restoreTarget (r : MemoryRegion) : bool :=
  writable r && negb (protHas (region_protection r) ProtExec) && negb (region_size r =? 0).
(** One pair of [restore]: the write it makes. *)
Definition restorePart (saved : SnapshotRegion) (t : MemoryRegion) : outcome (list (Z * bytes)) :=
  match overlap (snap_base saved) (len (snap_bytes saved)) (region_base t) (region_size t) with
  | None => Ret []
  | Some (lo, hi) => let* data := subspan (snap_bytes saved) (lo - snap_base saved) (hi - lo) in
                     Ret [(lo, data)]
  end.
(** The writes of [restore], in order. *)
Fixpoint concatM {A B} (f : A → outcome (list B)) (l : list A) : outcome (list B) :=
  match l with
  | [] => Ret []
  | x :: l => let* a := f x in let* b := concatM f l in Ret (a ++ b)
  end.
Definition restore (s : Snapshot) : outcome (list (Z * bytes)) :=
  let targets := List.filter restoreTarget queryRegions in
  concatM (λ saved, concatM (restorePart saved) targets) (regions s).
End Process.

Definition byteCount (s : Snapshot) : Z := foldr (λ r n, u64 (len (snap_bytes r) + n)) 0 (regions s).

(** ** Diff *)

Definition ByteDiff : Type := Z * Z * Z.

Definition byBase (a b : SnapshotRegion) : Prop := snap_base a ≤ snap_base b.
#[export] Instance byBase_dec a b : Decision (byBase a b).
Proof. unfold byBase. apply _. Defined.
Definition byAddress (x y : ByteDiff) : Prop := x.1.1 ≤ y.1.1.
#[export] Instance byAddress_dec x y : Decision (byAddress x y).
Proof. unfold byAddress. apply _. Defined.

(** The lambda [sorted]: the regions that hold bytes, by base. *)
Definition sortedRegions (rs : list SnapshotRegion) : list SnapshotRegion :=
  merge_sort byBase (filter (λ r, snap_bytes r ≠ []) rs).
Definition endOf (r : SnapshotRegion) : Z :=
  snap_base r + Z.min (len (snap_bytes r)) (UINT64_MAX - snap_base r).

(** The differing bytes of two regions, in address order. *)
Definition diffRegions (a b : SnapshotRegion) : outcome (list ByteDiff) :=
  match overlap (snap_base a) (len (snap_bytes a)) (snap_base b) (len (snap_bytes b)) with
  | None => Ret []
  | Some (lo, hi) =>
      forEach (hi - lo) 1 (λ k,
        let* before := at_ (snap_bytes a) (lo - snap_base a + k) in
        let* after := at_ (snap_bytes b) (lo - snap_base b + k) in
        Ret (if before =? after then [] else [(lo + k, before, after)])) 0
  end.

(** The walk over both sorted lists; one region is finished per step. *)
Fixpoint diffWalk (fuel : nat) (a b : list SnapshotRegion) : outcome (list ByteDiff) :=
  match a, b with
  | x :: a', y :: b' =>
      match fuel with
      | O => Undefined
      | S fuel =>
          let* d := diffRegions x y in
          let* rest := if endOf x <=? endOf y then diffWalk fuel a' b else diffWalk fuel a b' in
          Ret (d ++ rest)
      end
  | _, _ => Ret []
  end.

(** The recorded differences (the first [maxDiffs]) and the count of all. *)
Definition recordDiff (maxDiffs : Z) (acc : list ByteDiff * Z) (d : ByteDiff) : list ByteDiff * Z :=
  (if len acc.1 <? maxDiffs then acc.1 ++ [d] else acc.1, acc.2 + 1).
Definition diff (s later : Snapshot) (maxDiffs : Z) : outcome (list ByteDiff * Z) :=
  let a := sortedRegions (regions s) in
  let b := sortedRegions (regions later) in
  let* ds := diffWalk (length a + length b) a b in
  let '(out, changed) := foldl (recordDiff maxDiffs) ([], 0) ds in
  Ret (merge_sort byAddress out, changed).

(** ** The file *)

Definition kSnapshotMagic : bytes := bs "CESNAP01".
Definition saveRegion (r : SnapshotRegion) : bytes :=
  le_bytes 8 (snap_base r) ++ le_bytes 8 (snap_size r) ++ le_bytes 4 (snap_protection r)
  ++ le_bytes 4 (len (snap_bytes r)) ++ snap_bytes r.
Definition save (s : Snapshot) : option bytes :=
  if UINT32_MAX <? len (regions s) then None
  else if existsb (λ r, UINT32_MAX <? len (snap_bytes r)) (regions s) then None
  else Some (kSnapshotMagic ++ le_bytes 4 (len (regions s)) ++ mjoin (saveRegion <$> regions s)).

Definition loadRegion (f : bytes) : outcome (SnapshotRegion * bytes) :=
  match readAll 8 f with
  | None => Fail "truncated record"
  | Some (b, f) =>
  match readAll 8 f with
  | None => Fail "truncated record"
  | Some (s, f) =>
  match readAll 4 f with
  | None => Fail "truncated record"
  | Some (p, f) =>
  match readAll 4 f with
  | None => Fail "truncated record"
  | Some (c, f) =>
      let base := le_val b in
      let size := le_val s in
      let byteCount := le_val c in
      if len f <? byteCount then Fail "truncated bytes"
      else if (size <? byteCount) || (negb (size =? 0) && (UINT64_MAX - base <? size - 1))
      then Fail "invalid region bounds"
      else match readAll byteCount f with
           | None => Fail "truncated bytes"
           | Some (data, f) => Ret (mkSnap base size (le_val p) data, f)
           end
  end end end end.
Fixpoint loadRegions (n : nat) (f : bytes) : outcome (list SnapshotRegion) :=
  match n with
  | O => Ret []
  | S n => let* (r, f) := loadRegion f in let* rs := loadRegions n f in Ret (r :: rs)
  end.
(** The regions of a complete, validated file. *)
Definition loadFile (f : bytes) : outcome (list SnapshotRegion) :=
  match readAll 8 f with
  | None => Fail "bad magic"
  | Some (magic, f) =>
      if negb (bytes_eqb magic kSnapshotMagic) then Fail "bad magic" else
      match readAll 4 f with
      | None => Fail "truncated header"
      | Some (c, f) =>
          let count := le_val c in
          if Z.shiftl 1 24 <? count then Fail "region count too large"
          else if len f / 24 <? count then Fail "truncated records"
          else loadRegions (Z.to_nat count) f
      end
  end.
(** [load]: replaces the regions, and nothing on failure. *)
Definition load (s : Snapshot) (f : bytes) : outcome Snapshot :=
  let* rs := loadFile f in Ret (mkSnapshot rs (truncated s)).

(** ** The file round trip *)

(** What a capture produces and the file can hold. *)
Definition region_ok (r : SnapshotRegion) : Prop :=
  is_u64 (snap_base r) ∧ is_u64 (snap_size r) ∧ is_u32 (snap_protection r) ∧ bytes_ok (snap_bytes r) ∧
  len (snap_bytes r) ≤ snap_size r ∧ (snap_size r = 0 ∨ snap_size r - 1 ≤ UINT64_MAX - snap_base r).

Lemma loadRegion_save r f :
  region_ok r → len (snap_bytes r) ≤ UINT32_MAX → loadRegion (saveRegion r ++ f) = Ret (r, f).
Proof.
  intros (Hb & Hs & Hp & Hok & Hle & Hend) Hmax. unfold loadRegion, saveRegion.
  pose proof (len_nonneg (snap_bytes r)). pose proof (len_nonneg f).
  rewrite <- !app_assoc. rewrite !readAll_app by apply len_le_bytes.
  rewrite !le_val_8, !le_val_4 by (done || lia_w).
  rewrite len_app, (proj2 (Z.ltb_ge _ (len (snap_bytes r)))) by lia.
  rewrite (proj2 (Z.ltb_ge (snap_size r) _)) by lia.
  assert (negb (snap_size r =? 0) && (UINT64_MAX - snap_base r <? snap_size r - 1) = false) as ->.
  { destruct (Z.eqb_spec (snap_size r) 0); [done|]. simpl. apply Z.ltb_ge. lia. }
  cbn [orb]. rewrite readAll_app by done. by destruct r.
Qed.

Lemma loadRegions_save rs f :
  Forall region_ok rs → existsb (λ r, UINT32_MAX <? len (snap_bytes r)) rs = false →
  loadRegions (length rs) (mjoin (saveRegion <$> rs) ++ f) = Ret rs.
Proof.
  induction 1 as [|r rs Hr Hrs IH]; [done|]. cbn [existsb]. intros [Hm%Z.ltb_ge Hms]%orb_false_iff.
  change (mjoin (saveRegion <$> r :: rs)) with (saveRegion r ++ mjoin (saveRegion <$> rs)).
  cbn [length loadRegions]. rewrite <- app_assoc.
  rewrite loadRegion_save by done. cbn [obind]. by rewrite IH.
Qed.

Lemma saveRegions_size rs : 24 * len rs ≤ len (mjoin (saveRegion <$> rs)).
Proof.
  induction rs as [|r rs IH]; [done|].
  change (mjoin (saveRegion <$> r :: rs)) with (saveRegion r ++ mjoin (saveRegion <$> rs)). rewrite len_cons, len_app.
  unfold saveRegion at 1. rewrite !len_app, !len_le_bytes. pose proof (len_nonneg (snap_bytes r)). lia.
Qed.

(** C35: a saved snapshot loads back exactly.  Every snapshot of well-formed regions that
    [save] accepts, of at most [2^24] regions, is read back region for region. *)
Theorem save_load s s0 f :
  Forall region_ok (regions s) → len (regions s) ≤ 2 ^ 24 → save s = Some f →
  load s0 f = Ret (mkSnapshot (regions s) (truncated s0)).
Proof.
  intros Hok Hn. unfold save. destruct (Z.ltb_spec UINT32_MAX (len (regions s))); [done|].
  destruct (existsb _ _) eqn:Hex; [done|]. intros Hf.
  apply (inj Some) in Hf as <-. unfold load, loadFile.
  pose proof (len_nonneg (regions s)).
  rewrite readAll_app by done. change (negb (bytes_eqb kSnapshotMagic kSnapshotMagic)) with false. cbv iota.
  rewrite readAll_app by apply len_le_bytes. rewrite le_val_4 by lia_w.
  rewrite (proj2 (Z.ltb_ge _ (len (regions s)))) by done.
  pose proof (saveRegions_size (regions s)).
  rewrite (proj2 (Z.ltb_ge _ (len (regions s)))) by (apply Z.div_le_lower_bound; lia).
  unfold len at 1. rewrite Nat2Z.id. rewrite <- (app_nil_r (mjoin _)), loadRegions_save by done. done.
Qed.

Definition sampleSnapshot : Snapshot :=
  mkSnapshot [mkSnap 4096 4096 3 [1; 2; 255]; mkSnap 18446744073709547520 4096 3 [7]] true.
Lemma save_load_witness :
  ∃ f, save sampleSnapshot = Some f ∧ load (mkSnapshot [] false) f = Ret (mkSnapshot (regions sampleSnapshot) false).
Proof.
  eexists. split; [reflexivity|]. apply (save_load sampleSnapshot); [|discriminate|reflexivity].
  assert (∀ b s p d, is_u64 b → is_u64 s → is_u32 p → bytes_ok d → len d ≤ s → s - 1 ≤ UINT64_MAX - b →
    region_ok (mkSnap b s p d)) as Hr by (intros; unfold region_ok; simpl; auto 10).
  apply Forall_cons_2; [|apply Forall_cons_2; [|apply Forall_nil_2]]; apply Hr;
    first [unfold in_width; lia | discriminate | repeat constructor; unfold in_width; lia].
Defined.

Lemma loadRegion_ok f r f' : bytes_ok f → loadRegion f = Ret (r, f') → region_ok r ∧ bytes_ok f'.
Proof.
  intros Hok. unfold loadRegion.
  destruct (readAll 8 f) as [[b f1]|] eqn:H1; [|done]. apply readAll_spec in H1 as [Lb ->]; [|done].
  destruct (readAll 8 f1) as [[s f2]|] eqn:H2; [|done]. apply readAll_spec in H2 as [Ls ->]; [|done].
  destruct (readAll 4 f2) as [[p f3]|] eqn:H3; [|done]. apply readAll_spec in H3 as [Lp ->]; [|done].
  destruct (readAll 4 f3) as [[c f4]|] eqn:H4; [|done]. apply readAll_spec in H4 as [Lc ->]; [|done].
  rewrite !bytes_ok_app in Hok. destruct Hok as (Ob & Os & Op & Oc & Of).
  destruct (Z.ltb_spec (len f4) (le_val c)); [done|].
  destruct (_ || _) eqn:Hv; [done|]. apply orb_false_iff in Hv as [Hsz%Z.ltb_ge Hend].
  pose proof (le_val_bound c Oc). pose proof (le_val_bound b Ob). pose proof (le_val_bound s Os).
  pose proof (le_val_bound p Op). rewrite Lb, Ls, Lp, Lc in *.
  destruct (readAll (le_val c) f4) as [[data f5]|] eqn:H5; [|done]. apply readAll_spec in H5 as [Ld ->]; [|lia].
  apply bytes_ok_app in Of as [Od Of]. intros [= <- <-]. split; [|done].
  change (256 ^ 8) with (2 ^ 64) in *. change (256 ^ 4) with (2 ^ 32) in *.
  unfold region_ok. simpl. rewrite Ld. split_and!; try done.
  destruct (Z.eqb_spec (le_val s) 0); [by left|right]. simpl in Hend. by apply Z.ltb_ge.
Qed.

(** C36: loading validates.  Whatever the file holds, [load] terminates without reading
    past it, and every region it accepts has its bytes inside its declared size and an
    end within the address space; a rejected file changes nothing. *)
Theorem load_validates s f :
  bytes_ok f → defined (load s f) ∧ ∀ s', load s f = Ret s' → Forall region_ok (regions s').
Proof.
  intros Hok. unfold load, loadFile.
  destruct (readAll 8 f) as [[magic f1]|] eqn:H1; [|done]. apply readAll_spec in H1 as [_ ->]; [|done].
  destruct (negb _); [done|].
  destruct (readAll 4 f1) as [[c f2]|] eqn:H2; [|done]. apply readAll_spec in H2 as [_ ->]; [|done].
  rewrite !bytes_ok_app in Hok. destruct Hok as (_ & _ & Hok).
  destruct (_ <? _); [done|]. destruct (_ <? _); [done|].
  enough (∀ n f, bytes_ok f → defined (loadRegions n f) ∧ ∀ rs, loadRegions n f = Ret rs → Forall region_ok rs) as Hl.
  { specialize (Hl (Z.to_nat (le_val c)) f2 Hok) as [Hd Hr]. destruct (loadRegions _ _) as [rs| |]; [|done|done].
    split; [done|]. intros s' [= <-]. by apply Hr. }
  clear. induction n as [|n IH]; intros f Hok; cbn [loadRegions]; [split; [done|]; by intros rs [= <-]|].
  destruct (loadRegion f) as [[r f']| |] eqn:Hr; cbn [obind].
  - apply loadRegion_ok in Hr as [Hrok Hf]; [|done]. destruct (IH f' Hf) as [Hd Hrs].
    destruct (loadRegions n f') as [rs| |]; [|done|done]. split; [done|]. intros rs' [= <-]. constructor; [done|]. by apply Hrs.
  - done.
  - exfalso. clear -Hr. unfold loadRegion in Hr. repeat case_match; done.
Qed.

Lemma load_validates_witness :
  Forall region_ok (regions (mkSnapshot [mkSnap 1 2 3 [9]] false)).
Proof.
  refine (proj2 (load_validates (mkSnapshot [] false)
    (bs "CESNAP01" ++ [1;0;0;0] ++ saveRegion (mkSnap 1 2 3 [9])) _) _ _); [|reflexivity].
  decide_by_compute.
Defined.

(** ** Overlap *)

Lemma overlap_spec aBase aLen bBase bLen lo hi :
  0 ≤ aBase ≤ UINT64_MAX → 0 ≤ bBase ≤ UINT64_MAX →
  overlap aBase aLen bBase bLen = Some (lo, hi) →
  lo < hi ≤ UINT64_MAX ∧ aBase ≤ lo ∧ bBase ≤ lo ∧ hi ≤ aBase + aLen ∧ hi ≤ bBase + bLen.
Proof. unfold overlap. intros. case_match; [|done]. simplify_eq. bool_to_prop. lia. Qed.

(** ** Diff *)

(** Regions of a snapshot lie below the top of the address space and do not overlap. *)
Definition placed (r : SnapshotRegion) : Prop :=
  0 ≤ snap_base r ∧ snap_base r + len (snap_bytes r) ≤ UINT64_MAX.
Definition before (a b : SnapshotRegion) : Prop := snap_base a + len (snap_bytes a) ≤ snap_base b.
Definition disjoint_regions (rs : list SnapshotRegion) : Prop :=
  ∀ i j a b, rs !! i = Some a → rs !! j = Some b → i ≠ j → before a b ∨ before b a.
(** The byte a snapshot holds at an address. *)
Definition holds (rs : list SnapshotRegion) (addr x : Z) : Prop :=
  ∃ r, r ∈ rs ∧ lget (snap_bytes r) (addr - snap_base r) = Some x.

Lemma endOf_placed r : placed r → endOf r = snap_base r + len (snap_bytes r).
Proof. unfold placed, endOf. intros. lia. Qed.

(** The differences of two regions: exactly the addresses both hold with other bytes. *)
Definition differ (a b : SnapshotRegion) (d : ByteDiff) : Prop :=
  lget (snap_bytes a) (d.1.1 - snap_base a) = Some d.1.2 ∧
  lget (snap_bytes b) (d.1.1 - snap_base b) = Some d.2 ∧ d.1.2 ≠ d.2.

Lemma diffRegions_spec a b :
  placed a → placed b → ∃ ds, diffRegions a b = Ret ds ∧ (∀ d, d ∈ ds ↔ differ a b d) ∧
    StronglySorted (λ x y : ByteDiff, x.1.1 < y.1.1) ds.
Proof.
  intros [Ha0 Ha] [Hb0 Hb]. pose proof (len_nonneg (snap_bytes a)). pose proof (len_nonneg (snap_bytes b)).
  unfold diffRegions.
  destruct (overlap _ _ _ _) as [[lo hi]|] eqn:Ho.
  - unfold overlap in Ho. case_match; [|done]. simplify_eq.
    set (lo := Z.max (snap_base a) (snap_base b)) in *.
    set (hi := Z.min _ _) in *. bool_to_prop.
    set (f := λ k, match lget (snap_bytes a) (lo - snap_base a + k), lget (snap_bytes b) (lo - snap_base b + k) with
      | Some x, Some y => if x =? y then [] else [(lo + k, x, y)] | _, _ => [] end).
    rewrite (forEach_spec _ _ _ f); [|lia|lia|lia_w|].
    2: { intros k Hk%elem_of_stride. subst f. cbn beta.
         destruct (at_defined (snap_bytes a) (lo - snap_base a + k)) as (x & -> & ->); [lia|].
         destruct (at_defined (snap_bytes b) (lo - snap_base b + k)) as (y & -> & ->); [lia|]. done. }
    rewrite stride_1, Z.sub_0_r. eexists. split; [done|]. split.
    + intros [[addr x] y]. rewrite list_elem_of_join. unfold differ. cbn [fst snd]. split.
      * intros (l & Hin & (k & -> & Hk%elem_of_seqZ)%list_elem_of_fmap). subst f. cbn beta in Hin.
        destruct (lget (snap_bytes a) _) as [x'|] eqn:Hx; [|by apply elem_of_nil in Hin].
        destruct (lget (snap_bytes b) _) as [y'|] eqn:Hy; [|by apply elem_of_nil in Hin].
        destruct (Z.eqb_spec x' y'); [by apply elem_of_nil in Hin|].
        apply list_elem_of_singleton in Hin as [= -> -> ->].
        replace (lo + k - snap_base a) with (lo - snap_base a + k) by lia.
        by replace (lo + k - snap_base b) with (lo - snap_base b + k) by lia.
      * intros (Hx & Hy & Hne). pose proof (lget_Some_lt _ _ _ Hx). pose proof (lget_Some_lt _ _ _ Hy).
        exists (f (addr - lo)). split.
        { subst f. cbn beta. replace (lo - snap_base a + (addr - lo)) with (addr - snap_base a) by lia.
          replace (lo - snap_base b + (addr - lo)) with (addr - snap_base b) by lia.
          rewrite Hx, Hy, (proj2 (Z.eqb_neq x y)) by done. apply list_elem_of_singleton. f_equal. f_equal. lia. }
        apply list_elem_of_fmap. exists (addr - lo). split; [done|]. apply elem_of_seqZ. lia.
    + assert (∀ n k, StronglySorted (λ x y : ByteDiff, x.1.1 < y.1.1) (mjoin (f <$> seqZ k n)) ∧
        Forall (λ x : ByteDiff, lo + k ≤ x.1.1) (mjoin (f <$> seqZ k n))) as Hs; [|by apply Hs].
      intros n. induction n as [|n Hn0 IH|n] using (Z.succ_pred_induction 0); intros k.
      * rewrite seqZ_nil by lia. split; constructor.
      * rewrite seqZ_cons by lia. replace (Z.pred (Z.succ n)) with n by lia.
        rewrite mjoin_fmap_cons. specialize (IH (Z.succ k)) as [IHs IHf].
        assert (Forall (λ x : ByteDiff, lo + k ≤ x.1.1) (mjoin (f <$> seqZ (Z.succ k) n)))
          by (eapply Forall_impl; [done|]; intros; simpl in *; lia).
        assert (f k = [] ∨ ∃ x y, f k = [(lo + k, x, y)]) as [->|(x & y & ->)]
          by (subst f; cbn beta; repeat case_match; eauto); [done|].
        split; [constructor; [done|]|constructor; [simpl; lia|done]].
        eapply Forall_impl; [exact IHf|]. intros; simpl in *; lia.
      * rewrite seqZ_nil by lia. split; constructor.
  - exists []. split; [done|]. split; [|constructor]. intros d. split; [by intros ?%elem_of_nil|].
    unfold differ. intros (Hx%lget_Some_lt & Hy%lget_Some_lt & _). unfold overlap in Ho.
    case_match; [done|]. bool_to_prop. lia.
Qed.

(** Regions in address order. *)
Definition in_order (rs : list SnapshotRegion) : Prop :=
  StronglySorted before rs ∧ Forall placed rs ∧ Forall (λ r, snap_bytes r ≠ []) rs.

Lemma in_order_cons r rs : in_order (r :: rs) → placed r ∧ in_order rs ∧ Forall (before r) rs.
Proof.
  intros (Hs & Hp & Hn). inversion Hs; subst. inversion Hp; subst. inversion Hn; subst.
  unfold in_order. auto.
Qed.

Lemma diffWalk_spec fuel : ∀ a b, in_order a → in_order b → (length a + length b ≤ fuel)%nat →
  ∃ ds, diffWalk fuel a b = Ret ds ∧
    (∀ d, d ∈ ds ↔ ∃ x y, x ∈ a ∧ y ∈ b ∧ differ x y d) ∧
    StronglySorted (λ x y : ByteDiff, x.1.1 < y.1.1) ds.
Proof.
  induction fuel as [|fuel IH]; intros a b Ha Hb Hf.
  { destruct a; [|simpl in Hf; lia]. exists []. split; [done|]. split; [|constructor].
    intros d. split; [by intros ?%elem_of_nil|]. by intros (x & y & ?%elem_of_nil & _). }
  destruct a as [|x a]; [exists []; split; [done|]; split; [|constructor]; intros d;
    (split; [by intros ?%elem_of_nil|by intros (? & ? & ?%elem_of_nil & _)])|].
  destruct b as [|y b]; [exists []; split; [done|]; split; [|constructor]; intros d;
    (split; [by intros ?%elem_of_nil|by intros (? & ? & _ & ?%elem_of_nil & _)])|].
  destruct (in_order_cons _ _ Ha) as (Hpx & Ha' & Hax). destruct (in_order_cons _ _ Hb) as (Hpy & Hb' & Hby).
  destruct (diffRegions_spec x y Hpx Hpy) as (ds & Hds & Hin & Hsort).
  cbn [diffWalk]. rewrite Hds. cbn [obind].
  assert (∀ d, differ x y d → d.1.1 < endOf x ∧ d.1.1 < endOf y) as Hbelow.
  { intros d (Hx%lget_Some_lt & Hy%lget_Some_lt & _). rewrite !endOf_placed by done. lia. }
  assert (∀ rs z, in_order rs → Forall (before z) rs → ∀ r d, r ∈ rs → placed z →
    (∃ v, lget (snap_bytes r) (d - snap_base r) = Some v) → endOf z ≤ d) as Habove.
  { intros rs z Hrs Hz r d Hr Hpz [v Hv%lget_Some_lt]. rewrite endOf_placed by done.
    rewrite Forall_forall in Hz. specialize (Hz r Hr). unfold before in Hz. lia. }
  assert (∀ rest, StronglySorted (λ x y : ByteDiff, x.1.1 < y.1.1) rest →
    (∀ d, d ∈ rest → Z.min (endOf x) (endOf y) ≤ d.1.1) →
    StronglySorted (λ x y : ByteDiff, x.1.1 < y.1.1) (ds ++ rest)) as Happ.
  { intros rest Hs Hge. apply StronglySorted_app_2; [|done|done].
    intros d d' Hd Hd'. apply Hin in Hd. specialize (Hge d' Hd'). specialize (Hbelow d Hd). lia. }
  destruct (Z.leb_spec (endOf x) (endOf y)) as [Hle|Hgt].
  - destruct (IH a (y :: b)) as (rest & -> & Hrin & Hrs); [done|done|simpl in *; lia|].
    exists (ds ++ rest). split; [done|]. split; [|apply Happ; [done|]].
    + intros d. rewrite elem_of_app, Hin, Hrin. split.
      * intros [Hd|(u & v & Hu & Hv & Hd)]; [exists x, y|exists u, v]; rewrite ?elem_of_cons in *; auto.
      * intros (u & v & [->|Hu]%elem_of_cons & Hv & Hd); [|right; exists u, v; auto].
        apply elem_of_cons in Hv as [->|Hv]; [by left|]. exfalso.
        destruct Hd as (Hx & Hy & _). pose proof (Habove b y Hb' Hby v d.1.1 Hv Hpy ltac:(eauto)).
        apply lget_Some_lt in Hx. rewrite endOf_placed in Hle by done. lia.
    + intros d (u & v & Hu & _ & (Hx & _ & _))%Hrin.
      pose proof (Habove a x Ha' Hax u d.1.1 Hu Hpx ltac:(eauto)). lia.
  - destruct (IH (x :: a) b) as (rest & -> & Hrin & Hrs); [done|done|simpl in *; lia|].
    exists (ds ++ rest). split; [done|]. split; [|apply Happ; [done|]].
    + intros d. rewrite elem_of_app, Hin, Hrin. split.
      * intros [Hd|(u & v & Hu & Hv & Hd)]; [exists x, y|exists u, v]; rewrite ?elem_of_cons in *; auto.
      * intros (u & v & Hu & [->|Hv]%elem_of_cons & Hd); [|right; exists u, v; auto].
        apply elem_of_cons in Hu as [->|Hu]; [by left|]. exfalso.
        destruct Hd as (Hx & Hy & _). pose proof (Habove a x Ha' Hax u d.1.1 Hu Hpx ltac:(eauto)).
        apply lget_Some_lt in Hy. rewrite (endOf_placed y) in Hgt by done. lia.
    + intros d (u & v & _ & Hv & (_ & Hy & _))%Hrin.
      pose proof (Habove b y Hb' Hby v d.1.1 Hv Hpy ltac:(eauto)). lia.
Qed.

Definition separate (rs : list SnapshotRegion) : Prop :=
  NoDup rs ∧ Forall placed rs ∧ ∀ a b, a ∈ rs → b ∈ rs → a ≠ b → before a b ∨ before b a.

#[export] Instance byBase_trans : Transitive byBase.
Proof. intros x y z. unfold byBase. lia. Qed.
#[export] Instance byBase_total : Total byBase.
Proof. intros x y. unfold byBase. lia. Qed.
#[export] Instance byAddress_trans : Transitive byAddress.
Proof. intros x y z. unfold byAddress. lia. Qed.
#[export] Instance byAddress_total : Total byAddress.
Proof. intros x y. unfold byAddress. lia. Qed.

Lemma elem_of_sortedRegions rs r : r ∈ sortedRegions rs ↔ r ∈ rs ∧ snap_bytes r ≠ [].
Proof.
  unfold sortedRegions. rewrite merge_sort_Permutation, list_elem_of_filter. tauto.
Qed.

Lemma sortedRegions_in_order rs : separate rs → in_order (sortedRegions rs).
Proof.
  intros (Hnd & Hp & Hsep).
  pose proof (StronglySorted_merge_sort byBase
    (filter (λ r, snap_bytes r ≠ []) rs)) as Hs.
  change (merge_sort _ _) with (sortedRegions rs) in Hs.
  assert (NoDup (sortedRegions rs)) as Hnd'.
  { unfold sortedRegions. rewrite merge_sort_Permutation. by apply NoDup_filter. }
  assert (∀ r, r ∈ sortedRegions rs → r ∈ rs ∧ snap_bytes r ≠ []) as Hel by (intros r; apply elem_of_sortedRegions).
  split_and!.
  - induction Hs as [|r l Hl IH Hr]; [constructor|]. apply NoDup_cons in Hnd' as [Hni Hnd'].
    constructor; [apply IH; [done|]; intros; apply Hel; by right|].
    apply Forall_forall. intros r' Hr'. rewrite Forall_forall in Hr. specialize (Hr r' Hr').
    destruct (Hel r) as [Hin Hne]; [by left|]. destruct (Hel r') as [Hin' Hne']; [by right|].
    destruct (Hsep r r' Hin Hin') as [|Hb]; [by intros ->|done|].
    unfold before, byBase in *. enough (1 ≤ len (snap_bytes r')) by lia.
    destruct (snap_bytes r'); [done|]. rewrite len_cons. pose proof (len_nonneg l0). lia.
  - apply Forall_forall. intros r [Hr _]%Hel. by rewrite Forall_forall in Hp; apply Hp.
  - apply Forall_forall. by intros r [_ Hr]%Hel.
Qed.

Lemma recordDiffs maxDiffs ds acc n :
  0 ≤ maxDiffs → len acc ≤ maxDiffs →
  foldl (recordDiff maxDiffs) (acc, n) ds = (acc ++ take (Z.to_nat (maxDiffs - len acc)) ds, n + len ds).
Proof.
  intros Hm. revert acc n. induction ds as [|d ds IH]; intros acc n Ha; cbn [foldl].
  { by rewrite take_nil, app_nil_r, Z.add_0_r. }
  unfold recordDiff at 2. cbn [fst snd]. rewrite len_cons. destruct (Z.ltb_spec (len acc) maxDiffs).
  - rewrite IH by (rewrite len_snoc; lia). rewrite len_snoc.
    replace (Z.to_nat (maxDiffs - len acc)) with (S (Z.to_nat (maxDiffs - (len acc + 1)))) by lia.
    cbn [take]. rewrite <- app_assoc. f_equal. lia.
  - rewrite IH by done. replace (maxDiffs - len acc) with 0 by lia. cbn [take Z.to_nat]. f_equal. lia.
Qed.

Lemma merge_sort_sorted (ds : list ByteDiff) :
  StronglySorted (λ x y : ByteDiff, x.1.1 < y.1.1) ds → merge_sort byAddress ds = ds.
Proof.
  intros Hs. apply (StronglySorted_unique_strong byAddress).
  - intros x y Hx Hy Hxy Hyx. rewrite merge_sort_Permutation in Hx. unfold byAddress in *.
    revert x y Hx Hy Hxy Hyx. induction Hs as [|d ds Hs IH Hd]; intros x y; [by intros ?%elem_of_nil|].
    rewrite Forall_forall in Hd. intros [->|Hx]%elem_of_cons [->|Hy]%elem_of_cons Hxy Hyx; [done| | |by apply IH].
    + specialize (Hd _ Hy). cbn in Hd. lia.
    + specialize (Hd _ Hx). cbn in Hd. lia.
  - apply (StronglySorted_merge_sort _).
  - induction Hs as [|d ds Hs IH Hd]; constructor; [done|]. eapply Forall_impl; [exact Hd|].
    intros. unfold byAddress. cbn in *. lia.
  - apply merge_sort_Permutation.
Qed.

Lemma StronglySorted_take {A} (R : A → A → Prop) l n : StronglySorted R l → StronglySorted R (take n l).
Proof. intros Hs. rewrite <- (take_drop n l) in Hs. by apply StronglySorted_app_1_l in Hs. Qed.

(** A diff is exact.  For snapshots of disjoint regions, however their regions are
    split and in whatever order, [diff] reads only captured bytes; all differences are
    exactly the addresses both snapshots hold with different bytes, in ascending order;
    the result is their first [maxDiffs] and [changedBytes] counts them all. *)
Theorem diff_spec s later maxDiffs :
  separate (regions s) → separate (regions later) → 0 ≤ maxDiffs →
  ∃ all, diff s later maxDiffs = Ret (take (Z.to_nat maxDiffs) all, len all) ∧
    StronglySorted (λ x y : ByteDiff, x.1.1 < y.1.1) all ∧
    ∀ addr x y, (addr, x, y) ∈ all ↔ holds (regions s) addr x ∧ holds (regions later) addr y ∧ x ≠ y.
Proof.
  intros Hs Hl Hm. unfold diff.
  destruct (diffWalk_spec (length (sortedRegions (regions s)) + length (sortedRegions (regions later)))
    _ _ (sortedRegions_in_order _ Hs) (sortedRegions_in_order _ Hl) ltac:(lia)) as (all & -> & Hin & Hsort).
  exists all. cbn [obind]. rewrite recordDiffs by done. rewrite Z.sub_0_r.
  rewrite merge_sort_sorted by by apply StronglySorted_take.
  split; [done|]. split; [done|]. intros addr x y. rewrite Hin. unfold holds, differ. cbn [fst snd]. split.
  - intros (a & b & Ha & Hb & Hx & Hy & Hne). apply elem_of_sortedRegions in Ha as [Ha _], Hb as [Hb _]. eauto 10.
  - intros ((a & Ha & Hx) & (b & Hb & Hy) & Hne). exists a, b.
    assert (∀ l i v, lget l i = Some v → l ≠ @nil Z) as Hne' by (intros l i v Hv%lget_Some_lt ->; unfold len in Hv; simpl in Hv; lia).
    rewrite !elem_of_sortedRegions. eauto 10.
Qed.

Definition earlierSample := mkSnapshot [mkSnap 8192 4 3 [1; 2; 3; 4]; mkSnap 4096 2 3 [5; 6]] false.
Definition laterSample := mkSnapshot [mkSnap 4096 1 3 [9]; mkSnap 8194 2 3 [3; 7]] false.
Lemma separate_two a b : placed a → placed b → before a b ∨ before b a → a ≠ b → separate [a; b].
Proof.
  intros Ha Hb Hab Hne. split_and!; [|auto|].
  - apply NoDup_cons. split; [|apply NoDup_singleton]. by rewrite list_elem_of_singleton.
  - intros x y. rewrite !elem_of_cons, !elem_of_nil. naive_solver.
Qed.
Lemma diff_spec_witness :
  diff earlierSample laterSample 10 = Ret ([(4096, 5, 9); (8195, 4, 7)], 2) ∧
  ∃ all, diff earlierSample laterSample 10 = Ret (take (Z.to_nat 10) all, len all) ∧
    StronglySorted (λ x y : ByteDiff, x.1.1 < y.1.1) all ∧
    ∀ addr x y, (addr, x, y) ∈ all ↔
      holds (regions earlierSample) addr x ∧ holds (regions laterSample) addr y ∧ x ≠ y.
Proof.
  split; [reflexivity|]. apply (diff_spec earlierSample laterSample 10).
  - apply separate_two; [split; vm_compute; discriminate|split; vm_compute; discriminate| |discriminate].
    right. vm_compute. discriminate.
  - apply separate_two; [split; vm_compute; discriminate|split; vm_compute; discriminate| |discriminate].
    left. vm_compute. discriminate.
  - lia.
Defined.

(** ** Capture and restore *)

Section ProcessLemmas.
Context (queryRegions : list MemoryRegion) (read : Z → Z → option bytes).
(** [ProcessHandle::read] returns at most the bytes asked for. *)
Context (read_bounded : ∀ a n got, 0 ≤ n → read a n = Some got → len got ≤ n).

Definition total (rs : list SnapshotRegion) : Z := foldr (λ r n, len (snap_bytes r) + n) 0 rs.

Lemma total_app a b : total (a ++ b) = total a + total b.
Proof. unfold total. induction a as [|r a IH]; simpl; lia. Qed.

Lemma captureLoop_spec rs : ∀ budget snap,
  Forall (λ r, is_u64 (region_size r)) rs → 0 ≤ budget →
  let s := captureLoop read rs budget snap in
  ∃ added, regions s = regions snap ++ added ∧ total added ≤ budget ∧
    (truncated snap = true → truncated s = true) ∧
    Forall (λ x, ∃ r, r ∈ rs ∧ writable r = true ∧ snap_base x = region_base r ∧
      snap_size x = region_size r ∧ 0 < len (snap_bytes x) ≤ region_size r) added ∧
    (truncated s = false → ∀ r got, r ∈ rs → writable r = true → region_size r ≠ 0 →
      read (region_base r) (region_size r) = Some got → got ≠ [] →
      mkSnap (region_base r) (region_size r) (region_protection r) got ∈ added).
Proof using read_bounded.
  induction rs as [|r rs IH]; intros budget snap Hsz Hb; cbv zeta.
  { exists []. cbn. rewrite app_nil_r. split_and!; [done|lia|done|constructor|].
    by intros _ r got Hr%elem_of_nil. }
  inversion Hsz as [|? ? Hr Hrs]; subst. unfold in_width in Hr. cbn [captureLoop].
  assert (∀ added, Forall (λ x, ∃ r0, r0 ∈ rs ∧ writable r0 = true ∧ snap_base x = region_base r0 ∧
      snap_size x = region_size r0 ∧ 0 < len (snap_bytes x) ≤ region_size r0) added →
    Forall (λ x, ∃ r0, r0 ∈ r :: rs ∧ writable r0 = true ∧ snap_base x = region_base r0 ∧
      snap_size x = region_size r0 ∧ 0 < len (snap_bytes x) ≤ region_size r0) added) as Hmono.
  { intros added H. eapply Forall_impl; [exact H|]. intros x (r0 & ? & ?). exists r0. rewrite elem_of_cons. auto. }
  destruct (writable r) eqn:Hw; cbn [negb]; cycle 1.
  { destruct (IH budget snap Hrs Hb) as (added & ? & ? & ? & ? & Hall). exists added. split_and!; auto.
    intros Ht r0 got [->|Hin]%elem_of_cons; [congruence|eauto]. }
  destruct (Z.eqb_spec (region_size r) 0) as [Hz|Hnz].
  { destruct (IH budget snap Hrs Hb) as (added & ? & ? & ? & ? & Hall). exists added. split_and!; auto.
    intros Ht r0 got [->|Hin]%elem_of_cons; [congruence|eauto]. }
  destruct (Z.eqb_spec budget 0) as [->|Hbnz].
  { exists []. cbn. rewrite app_nil_r. split_and!; [done|lia|done|constructor|done]. }
  set (tk := Z.min (region_size r) budget).
  set (snap' := mkSnapshot (regions snap) (truncated snap || (tk <? region_size r))).
  assert (truncated snap = true → truncated snap' = true) as Htr by (intros Ht; subst snap'; simpl; by rewrite Ht).
  assert (truncated snap' = false → tk = region_size r) as Hfull.
  { subst snap'. cbn [truncated]. intros [_ Hlt%Z.ltb_ge]%orb_false_iff. subst tk. lia. }
  destruct (read (region_base r) tk) as [[|b got]|] eqn:Hread.
  - destruct (IH budget snap' Hrs Hb) as (added & ? & ? & Ht' & ? & Hall). exists added. split_and!; auto.
    intros Ht r0 got [->|Hin]%elem_of_cons; [|eauto]. intros _ _ Hg. 
    destruct (truncated snap') eqn:Hs'; [by rewrite Ht' in Ht|]. rewrite Hfull in Hread by done. congruence.
  - pose proof (read_bounded _ tk _ ltac:(subst tk; lia) Hread) as Hlen. pose proof (len_nonneg got). rewrite len_cons in Hlen.
    set (rec := mkSnap (region_base r) (region_size r) (region_protection r) (b :: got)).
    destruct (IH (budget - len (b :: got)) (mkSnapshot (regions snap' ++ [rec]) (truncated snap')) Hrs)
      as (added & Hreg & Htot & Ht' & Hok & Hall); [rewrite len_cons; lia|].
    exists (rec :: added). cbn [regions truncated] in *. rewrite <- app_assoc in Hreg. split_and!; [done| |auto| |].
    + cbn. fold (total added). rewrite len_cons in *. lia.
    + constructor; [|auto]. exists r. subst rec. cbn. rewrite elem_of_cons, len_cons.
      split_and!; auto; lia.
    + intros Ht r0 got' [->|Hin]%elem_of_cons; [|rewrite elem_of_cons; eauto 10]. intros _ _ Hg _.
      destruct (truncated snap') eqn:Hs'; [by rewrite Ht' in Ht|]. rewrite Hfull in Hread by done.
      rewrite Hread in Hg. injection Hg as <-. rewrite elem_of_cons. by left.
  - destruct (IH budget snap' Hrs Hb) as (added & ? & ? & Ht' & ? & Hall). exists added. split_and!; auto.
    intros Ht r0 got [->|Hin]%elem_of_cons; [|eauto]. intros _ _ Hg.
    destruct (truncated snap') eqn:Hs'; [by rewrite Ht' in Ht|]. rewrite Hfull in Hread by done. congruence.
Qed.

(** C37: a capture respects its budget and admits what it left out.  The captured bytes
    total at most [maxBytes]; every captured region is a writable region of the
    process with at most its size of bytes; and unless [truncated] is set every
    writable region that could be read is captured in full. *)
Theorem capture_spec maxBytes :
  Forall (λ r, is_u64 (region_size r)) queryRegions → 0 ≤ maxBytes →
  let s := capture queryRegions read maxBytes in
  total (regions s) ≤ maxBytes ∧
  Forall (λ x, ∃ r, r ∈ queryRegions ∧ writable r = true ∧ snap_base x = region_base r ∧
      snap_size x = region_size r ∧ 0 < len (snap_bytes x) ≤ region_size r) (regions s) ∧
  (truncated s = false → ∀ r got, r ∈ queryRegions → writable r = true → region_size r ≠ 0 →
      read (region_base r) (region_size r) = Some got → got ≠ [] →
      mkSnap (region_base r) (region_size r) (region_protection r) got ∈ regions s).
Proof using read_bounded.
  intros Hsz Hm. cbv zeta. unfold capture.
  destruct (captureLoop_spec queryRegions maxBytes (mkSnapshot [] false) Hsz Hm)
    as (added & Hreg & Htot & _ & Hok & Hall). rewrite Hreg. auto.
Qed.

Lemma concatM_spec {A B} (f : A → outcome (list B)) (P : A → B → Prop) l :
  (∀ x, x ∈ l → ∃ b, f x = Ret b ∧ Forall (P x) b) →
  ∃ out, concatM f l = Ret out ∧ Forall (λ y, ∃ x, x ∈ l ∧ P x y) out.
Proof.
  induction l as [|x l IH]; intros Hf; [exists []; split; [done|constructor]|].
  destruct (Hf x) as (b & Hb & HPb); [left|].
  destruct IH as (out & Hout & HP); [intros; apply Hf; by right|].
  exists (b ++ out). cbn [concatM]. rewrite Hb, Hout. split; [done|]. apply Forall_app_2.
  - eapply Forall_impl; [exact HPb|]. intros y Hy. exists x. split; [left|done].
  - eapply Forall_impl; [exact HP|]. intros y (x' & Hx' & Hy). exists x'. split; [by right|done].
Qed.

(** C38: a restore writes only data.  Every write of [restore] puts back captured bytes
    at the address they were captured from, inside a region that is writable and not
    executable now, and [restore] reads only captured bytes. *)
Theorem restore_safe s :
  Forall placed (regions s) →
  Forall (λ r, 0 ≤ region_base r ∧ 0 ≤ region_size r ∧ region_base r + region_size r ≤ UINT64_MAX) queryRegions →
  ∃ writes, restore queryRegions s = Ret writes ∧
    Forall (λ w : Z * bytes, ∃ saved t, saved ∈ regions s ∧ t ∈ queryRegions ∧
      protHas (region_protection t) ProtWrite = true ∧ protHas (region_protection t) ProtExec = false ∧
      region_base t ≤ w.1 ∧ w.1 + len w.2 ≤ region_base t + region_size t ∧
      w.2 = slice (snap_bytes saved) (w.1 - snap_base saved) (len w.2) ∧
      0 ≤ w.1 - snap_base saved ∧ w.1 - snap_base saved + len w.2 ≤ len (snap_bytes saved)) writes.
Proof.
  intros Hp Hq. unfold restore. rewrite Forall_forall in Hp. rewrite Forall_forall in Hq.
  set (good := λ saved t (w : Z * bytes), protHas (region_protection t) ProtWrite = true ∧
      protHas (region_protection t) ProtExec = false ∧
      region_base t ≤ w.1 ∧ w.1 + len w.2 ≤ region_base t + region_size t ∧
      w.2 = slice (snap_bytes saved) (w.1 - snap_base saved) (len w.2) ∧
      0 ≤ w.1 - snap_base saved ∧ w.1 - snap_base saved + len w.2 ≤ len (snap_bytes saved)).
  destruct (concatM_spec
    (λ saved, concatM (restorePart saved) (List.filter restoreTarget queryRegions))
    (λ saved w, ∃ t, t ∈ List.filter restoreTarget queryRegions ∧ good saved t w) (regions s)) as (out & -> & Hout).
  - intros saved Hs. apply concatM_spec. intros t Ht. unfold restorePart.
    rewrite list_elem_of_In, filter_In, <- list_elem_of_In in Ht. destruct Ht as [Ht Hrt].
    apply andb_true_iff in Hrt as [[Hw Hx%negb_true_iff]%andb_true_iff _].
    destruct (Hp saved Hs) as [Hb0 Hb1]. destruct (Hq t Ht) as (Ht0 & Hts & Ht1).
    destruct (overlap _ _ _ _) as [[lo hi]|] eqn:Ho; [|exists []; split; [done|constructor]].
    apply overlap_spec in Ho as (Hlt & H1 & H2 & H3 & H4); [|pose proof (len_nonneg (snap_bytes saved)); lia|lia].
    destruct (subspan_defined (snap_bytes saved) (lo - snap_base saved) (hi - lo)) as [-> Hl]; [lia..|].
    eexists. split; [done|]. constructor; [|constructor]. unfold good. cbn [fst snd]. rewrite Hl.
    split_and!; try done; lia.
  - exists out. split; [done|]. eapply Forall_impl; [exact Hout|]. intros w (saved & Hs & t & Ht & Hg).
    rewrite list_elem_of_In, filter_In, <- list_elem_of_In in Ht. destruct Ht as [Ht _].
    exists saved, t. unfold good in Hg. tauto.
Qed.
End ProcessLemmas.

Definition sampleRegions : list MemoryRegion :=
  [mkMemoryRegion 4096 4 3 MemPrivate MemCommitted [] None;
   mkMemoryRegion 8192 4 5 MemImage MemCommitted [] None;
   mkMemoryRegion 12288 8 3 MemPrivate MemCommitted [] None].
Definition sampleRead (a n : Z) : option bytes := Some (replicate (Z.to_nat n) (a / 4096)).
Lemma capture_spec_witness :
  regions (capture sampleRegions sampleRead 6) = [mkSnap 4096 4 3 [1;1;1;1]; mkSnap 12288 8 3 [3;3]] ∧
  total (regions (capture sampleRegions sampleRead 6)) ≤ 6.
Proof.
  split; [reflexivity|]. apply (capture_spec sampleRegions sampleRead).
  - intros a n got Hn [= <-]. unfold len. rewrite length_replicate. lia.
  - repeat constructor; vm_compute; discriminate.
  - lia.
Defined.
Lemma restore_safe_witness :
  restore sampleRegions (mkSnapshot [mkSnap 4094 8 3 [1;2;3;4;5;6;7;8]; mkSnap 8192 1 3 [9]] false)
  = Ret [(4096, [3;4;5;6])] ∧
  ∃ writes, restore sampleRegions (mkSnapshot [mkSnap 4094 8 3 [1;2;3;4;5;6;7;8]; mkSnap 8192 1 3 [9]] false)
    = Ret writes.
Proof.
  split; [reflexivity|].
  edestruct (restore_safe sampleRegions (mkSnapshot [mkSnap 4094 8 3 [1;2;3;4;5;6;7;8]; mkSnap 8192 1 3 [9]] false))
    as (w & Hw & _); [| |exists w; exact Hw].
  - apply Forall_cons_2; [|apply Forall_cons_2; [|apply Forall_nil_2]]; split; vm_compute; discriminate.
  - apply Forall_cons_2; [|apply Forall_cons_2; [|apply Forall_cons_2; [|apply Forall_nil_2]]]; split_and!; vm_compute; discriminate.
Defined.
