(* ===== verification/AddressList.v ===== *)
(** * The address list

    Models the pure functions of [src/core/address_list.hpp]: the rows of a cheat table with
    their depths, the rows nested under a group, which of them a collapsed group hides, what a
    drag moves, what grouping a selection makes of the list, and what deleting removes. *)

From S2P Require Import Prelude.
From stdpp Require Import sorting.
#[local] Open Scope Z_scope.

(** The first row from [row] on that is not deeper than [parent]; [rest] are the depths from there. *)
Fixpoint descendantEnd (parent : Z) (rest : list Z) (row : nat) : nat :=
  match rest with
  | [] => row
  | d :: rest => if parent <? d then descendantEnd parent rest (S row) else row
  end.
Definition descendantRange (indents : list Z) (row : nat) : nat * nat :=
  match indents !! row with
  | None => (S row, S row)
  | Some parent => (S row, descendantEnd parent (drop (S row) indents) (S row))
  end.

(** The groups that no longer reach a row of depth [d] leave the stack, its top first. *)
Fixpoint popTo (d : Z) (stack : list Z) : list Z :=
  match stack with
  | [] => []
  | top :: stack => if d <=? top then popTo d stack else top :: stack
  end.
Fixpoint hiddenLoop (rest : list Z) (collapsed : list bool) (stack : list Z) : list bool :=
  match rest with
  | [] => []
  | d :: rest =>
      let stack := popTo d stack in
      let hidden := negb (bool_decide (stack = [])) in
      let stack := match head collapsed with Some true => d :: stack | _ => stack end in
      hidden :: hiddenLoop rest (tail collapsed) stack
  end.
Definition hiddenByCollapse (indents : list Z) (collapsed : list bool) : list bool := hiddenLoop indents collapsed [].

(** How many of the remaining rows come before [dest]. *)
Fixpoint insertPos (rest : list Z) (dest : Z) : nat :=
  match rest with
  | [] => O
  | r :: rest => if r <? dest then S (insertPos rest dest) else O
  end.
Definition moveRangePermutation (count start length dest : Z) : list Z :=
  if (count <=? 0) || (length <=? 0) || (start <? 0) || (count <? start) || (count - start <? length) || (dest <? 0) || (count <? dest)
  then seqZ 0 count
  else
    let rest := filter (λ i, i < start ∨ start + length ≤ i) (seqZ 0 count) in
    let at_ := insertPos rest dest in
    take at_ rest ++ seqZ start length ++ drop at_ rest.

(** A row of the plan: its old index, [-1] for the new header, and its depth. *)
Record GroupSelectionPlan := mkPlan { gs_order : list Z; gs_indent : list Z; gs_ok : bool }.
(** [std::unique] of a sorted list. *)
Fixpoint uniqueSorted (l : list nat) : list nat :=
  match l with
  | x :: (y :: _) as rest => if bool_decide (x = y) then uniqueSorted rest else x :: uniqueSorted rest
  | _ => l
  end.
(** [while (!selected.empty() && selected.back() >= n) selected.pop_back()], on the list reversed. *)
Fixpoint popOutside (n : nat) (l : list nat) : list nat :=
  match l with
  | [] => []
  | x :: rest => if bool_decide (n ≤ x)%nat then popOutside n rest else l
  end.
Definition sortedSelection (n : nat) (selected : list nat) : list nat := reverse (popOutside n (reverse (uniqueSorted (merge_sort Nat.le selected)))).
Fixpoint groupLoop (indents : list Z) (sel : list nat) (insertAt : nat) (minSel : Z) (rest : list nat) : list (Z * Z) :=
  match rest with
  | [] => []
  | i :: rest =>
      (if bool_decide (i = insertAt) then (-1, minSel) :: ((λ s, (Z.of_nat s, default 0 (indents !! s) + 1)) <$> sel) else []) ++
      (if bool_decide (i ∈ sel) then [] else [(Z.of_nat i, default 0 (indents !! i))]) ++
      groupLoop indents sel insertAt minSel rest
  end.
Definition groupSelection (indents : list Z) (selected : list nat) : GroupSelectionPlan :=
  let n := length indents in
  match sortedSelection n selected with
  | [] => mkPlan [] [] false
  | (first :: _) as sel =>
      let minSel := foldl (λ m s, Z.min m (default 0 (indents !! s))) (default 0 (indents !! first)) sel in
      let rows := groupLoop indents sel first minSel (seq 0 n) in
      mkPlan rows.*1 rows.*2 true
  end.

Definition markRow (indents : list Z) (mark : list bool) (r : nat) : list bool :=
  if bool_decide (length indents ≤ r)%nat then mark else
  let '(first, last) := descendantRange indents r in
  foldl (λ mark i, <[i := true]> mark) (<[r := true]> mark) (seq first (last - first)).
Definition expandGroupDeletion (indents : list Z) (selected : list nat) : list nat :=
  let mark := foldl (markRow indents) (replicate (length indents) false) selected in
  filter (λ i, mark !! i = Some true) (seq 0 (length indents)).
