(* ===== verification/AddressListSpec.v ===== *)
(** * The rows of the address list

    What is nested under a row, and that collapsing hides, deleting removes, dragging moves and
    grouping rearranges exactly that. *)

From S2P Require Import Prelude Loops AddressList.
From stdpp Require Import sorting.
#[local] Open Scope Z_scope.

(** Every row from the one after [i] to [j] is deeper than [i]. *)
Definition nested (indents : list Z) (i j : nat) : Prop :=
  (i < j)%nat ∧ ∃ d, indents !! i = Some d ∧ ∀ k, (i < k ≤ j)%nat → ∃ e, indents !! k = Some e ∧ d < e.
Lemma nested_trans indents i j k : nested indents i j → nested indents j k → nested indents i k.
Proof.
  intros (Hij & d & Hd & H1) (Hjk & e & He & H2). split; [lia|]. exists d. split; [done|]. intros m Hm. destruct (decide (m ≤ j)%nat); [apply H1; lia|].
  destruct (H2 m ltac:(lia)) as (x & Hx & Hex). destruct (H1 j ltac:(lia)) as (y & Hy & Hdy). exists x. split; [done|]. assert (y = e) by congruence. lia.
Qed.
Lemma descendantEnd_spec indents p rest : ∀ row, drop row indents = rest → (row ≤ length indents)%nat →
  let e := descendantEnd p rest row in (row ≤ e ≤ length indents)%nat ∧ (∀ k, (row ≤ k < e)%nat → ∃ x, indents !! k = Some x ∧ p < x) ∧ (∀ x, indents !! e = Some x → x ≤ p).
Proof.
  induction rest as [|d rest IH]; intros row Hd Hl; cbn.
  { assert (length indents = row) by (apply (f_equal length) in Hd; rewrite length_drop in Hd; cbn in Hd; lia). split; [lia|]. split; [lia|]. intros x Hx%lookup_lt_Some. lia. }
  assert (Hrow : indents !! row = Some d) by (rewrite <- (Nat.add_0_r row), <- lookup_drop, Hd; done). destruct (Z.ltb_spec p d).
  - destruct (IH (S row)) as (H1 & H2 & H3); [by rewrite <- (drop_drop indents row 1), Hd || (rewrite <- Nat.add_1_r, <- drop_drop, Hd; done)|apply lookup_lt_Some in Hrow; lia|]. split; [lia|]. split; [|done].
    intros k Hk. destruct (decide (k = row)) as [->|]; [by exists d|]. apply H2. lia.
  - split; [lia|]. split; [lia|]. intros x. rewrite Hrow. intros [= <-]. lia.
Qed.
Lemma descendantRange_spec indents i j : (let '(first, last) := descendantRange indents i in (first ≤ j < last)%nat) ↔ nested indents i j.
Proof.
  unfold descendantRange. destruct (indents !! i) as [p|] eqn:Ei.
  - destruct (descendantEnd_spec indents p _ (S i) eq_refl) as (H1 & H2 & H3); [by apply lookup_lt_Some in Ei|]. set (e := descendantEnd _ _ _) in *. split.
    + intros Hj. split; [lia|]. exists p. split; [done|]. intros k Hk. apply H2. lia.
    + intros (Hij & d & Hd & H). split; [lia|]. destruct (decide (j < e)%nat); [done|]. destruct (H e ltac:(lia)) as (x & Hx & Hdx). apply H3 in Hx. assert (d = p) by congruence. lia.
  - split; [lia|]. intros (_ & d & Hd & _). congruence.
Qed.

(** ** Collapsed groups *)

Section Collapse.
Context (indents : list Z) (collapsed : list bool).
(** The stack before row [i]: the depths of the collapsed groups that reach the rows before it. *)
Definition scopes (i : nat) (stack : list Z) : Prop :=
  StronglySorted (λ a b, b < a) stack ∧
  ∀ x, x ∈ stack ↔ ∃ g, (g < i)%nat ∧ collapsed !! g = Some true ∧ indents !! g = Some x ∧ ∀ k, (g < k < i)%nat → ∃ e, indents !! k = Some e ∧ x < e.
Lemma popTo_spec d stack : StronglySorted (λ a b, b < a) stack → StronglySorted (λ a b, b < a) (popTo d stack) ∧ ∀ x, x ∈ popTo d stack ↔ x ∈ stack ∧ x < d.
Proof using.
  induction 1 as [|top stack Hs IH Ht]; cbn [popTo]; [split; [constructor|]; set_solver|]. destruct (Z.leb_spec d top).
  - destruct IH as [IH1 IH2]. split; [done|]. intros x. rewrite IH2. set_unfold. split; [tauto|]. intros [[->|?] ?]; [lia|done].
  - split; [by constructor|]. intros x. rewrite elem_of_cons. split; [|tauto]. intros [->|Hx]; [by split; [left|]|]. split; [by right|]. rewrite Forall_forall in Ht. specialize (Ht _ Hx). lia.
Qed.
Lemma hiddenLoop_spec rest : ∀ i stack, drop i indents = rest → scopes i stack →
  length (hiddenLoop rest (drop i collapsed) stack) = length rest ∧
  ∀ j, (i + j < length indents)%nat → hiddenLoop rest (drop i collapsed) stack !! j = Some true ↔ ∃ g, collapsed !! g = Some true ∧ nested indents g (i + j).
Proof using.
  induction rest as [|d rest IH]; intros i stack Hd [Hs Hin]; cbn [hiddenLoop].
  { split; [done|]. intros j Hj. apply (f_equal length) in Hd. rewrite length_drop in Hd. cbn in Hd. lia. }
  assert (Hi : indents !! i = Some d) by (rewrite <- (Nat.add_0_r i), <- lookup_drop, Hd; done). assert (Hd' : drop (S i) indents = rest) by (rewrite <- Nat.add_1_r, <- drop_drop, Hd; done).
  destruct (popTo_spec d stack Hs) as [Hs' Hin']. set (stack' := popTo d stack) in *.
  assert (Hreach : ∀ x, x ∈ stack' ↔ ∃ g, (g < i)%nat ∧ collapsed !! g = Some true ∧ indents !! g = Some x ∧ ∀ k, (g < k < S i)%nat → ∃ e, indents !! k = Some e ∧ x < e).
  { intros x. rewrite Hin', Hin. split.
    - intros [(g & Hg & Hc & Hx & H) Hlt]. exists g. split; [done|]. split; [done|]. split; [done|]. intros k Hk. destruct (decide (k = i)) as [->|]; [by exists d|]. apply H. lia.
    - intros (g & Hg & Hc & Hx & H). split; [|destruct (H i ltac:(lia)) as (e & He & Hlt); assert (e = d) as -> by congruence; done]. exists g. split; [done|]. split; [done|]. split; [done|]. intros k Hk. apply H. lia. }
  assert (Hnext : scopes (S i) (match head (drop i collapsed) with Some true => d :: stack' | _ => stack' end)).
  { assert (Hold : ∀ x, x ∈ stack' → ∃ g, (g < S i)%nat ∧ collapsed !! g = Some true ∧ indents !! g = Some x ∧ ∀ k, (g < k < S i)%nat → ∃ e, indents !! k = Some e ∧ x < e).
    { intros x (g & Hg & H)%Hreach. exists g. split; [lia|done]. }
    rewrite head_lookup, lookup_drop, Nat.add_0_r. destruct (collapsed !! i) as [[]|] eqn:Ec; split.
    - constructor; [done|]. apply Forall_forall. intros x [_ Hx]%Hin'. done.
    - intros x. rewrite elem_of_cons. split; [intros [->|Hx]; [|by apply Hold]; exists i; split; [lia|]; split; [done|]; split; [done|]; lia|].
      intros (g & Hg & Hc & Hx & H). destruct (decide (g = i)) as [->|]; [left; congruence|]. right. apply Hreach. exists g. by split; [lia|].
    - done.
    - intros x. split; [apply Hold|]. intros (g & Hg & Hc & Hx & H). apply Hreach. exists g. split; [|done]. assert (g ≠ i) by (intros ->; congruence). lia.
    - done.
    - intros x. split; [apply Hold|]. intros (g & Hg & Hc & Hx & H). apply Hreach. exists g. split; [|done]. assert (g ≠ i) by (intros ->; congruence). lia. }
  replace (tail (drop i collapsed)) with (drop (S i) collapsed) by (rewrite <- Nat.add_1_r, <- drop_drop; by destruct (drop i collapsed)).
  destruct (IH _ _ Hd' Hnext) as [Hlen Hall]. split; [cbn; by rewrite Hlen|]. intros [|j] Hj; cbn [lookup list_lookup].
  - rewrite Nat.add_0_r. split.
    + intros [= H%negb_true_iff%bool_decide_eq_false_1]. destruct stack' as [|x k0] eqn:E; [done|]. destruct (proj1 (Hreach x) ltac:(by left)) as (g & Hg & Hc & Hx & H'). exists g. split; [done|]. split; [done|]. exists x. split; [done|]. intros k Hk. apply H'. lia.
    + intros (g & Hc & Hg & x & Hx & H). f_equal. apply negb_true_iff, bool_decide_eq_false. intros E. assert (Hmem : x ∈ stack') by (apply Hreach; exists g; split_and!; [done..|]; intros k Hk; apply H; lia). rewrite E in Hmem. by apply not_elem_of_nil in Hmem.
  - rewrite Hall by lia. by replace (S i + j)%nat with (i + S j)%nat by lia.
Qed.
Lemma hiddenByCollapse_spec : length (hiddenByCollapse indents collapsed) = length indents ∧
  ∀ j, (j < length indents)%nat → hiddenByCollapse indents collapsed !! j = Some true ↔ ∃ g, collapsed !! g = Some true ∧ nested indents g j.
Proof using.
  unfold hiddenByCollapse. apply (hiddenLoop_spec indents 0 []); [done|]. split; [constructor|]. intros x. split; [by intros ?%not_elem_of_nil|]. intros (g & Hg & _). lia.
Qed.
End Collapse.

(** ** Deleting *)

Lemma foldl_insert_true l : ∀ (mark : list bool) i, foldl (λ mark i, <[i := true]> mark) mark l !! i = Some true ↔ (i < length mark)%nat ∧ (mark !! i = Some true ∨ i ∈ l).
Proof.
  induction l as [|x l IH]; intros mark i; cbn [foldl].
  - split; [intros H; split; [by apply lookup_lt_Some in H|by left]|]. intros [_ [H|?%not_elem_of_nil]]; done.
  - rewrite IH, length_insert, elem_of_cons. split; intros [Hi H]; (split; [done|]); destruct (decide (i = x)) as [->|Hne].
    + right. by left.
    + rewrite list_lookup_insert_ne in H by done. tauto.
    + left. by apply list_lookup_insert_eq.
    + rewrite list_lookup_insert_ne by done. tauto.
Qed.
Lemma markRow_spec indents mark r i : length mark = length indents →
  length (markRow indents mark r) = length indents ∧
  (markRow indents mark r !! i = Some true ↔ mark !! i = Some true ∨ ((i < length indents)%nat ∧ (r = i ∨ nested indents r i))).
Proof.
  intros Hl. unfold markRow. case_bool_decide as Hr.
  { split; [done|]. split; [by left|]. intros [?|[Hi [->|(_ & d & Hd & _)]]]; [done|lia|apply lookup_lt_Some in Hd; lia]. }
  destruct (descendantRange indents r) as [first last] eqn:E. pose proof (descendantRange_spec indents r i) as Hn. rewrite E in Hn. split.
  { clear Hn. assert (H : ∀ l m, length (foldl (λ (mark : list bool) i, <[i := true]> mark) m l) = length m) by (induction l as [|x l IH]; intros m; cbn; [done|]; by rewrite IH, length_insert). by rewrite H, length_insert. }
  rewrite foldl_insert_true, length_insert, Hl, elem_of_seq. split.
  - intros [Hi [H|H]]; [|right; split; [done|]; right; apply Hn; lia]. destruct (decide (r = i)) as [->|]; [right; by split; [|left]|]. rewrite list_lookup_insert_ne in H by done. by left.
  - intros H. assert (Hi : (i < length indents)%nat) by (destruct H as [H|H]; [apply lookup_lt_Some in H; lia|tauto]). split; [done|]. destruct H as [H|[_ [->|H]]].
    + left. destruct (decide (r = i)) as [->|]; [by apply list_lookup_insert_eq; lia|by rewrite list_lookup_insert_ne].
    + left. apply list_lookup_insert_eq. lia.
    + right. apply Hn in H. lia.
Qed.
Lemma expandGroupDeletion_spec indents selected i : i ∈ expandGroupDeletion indents selected ↔ (i < length indents)%nat ∧ ∃ r, r ∈ selected ∧ (r = i ∨ nested indents r i).
Proof.
  unfold expandGroupDeletion. rewrite list_elem_of_filter, elem_of_seq.
  assert (H : ∀ mark, length mark = length indents → foldl (markRow indents) mark selected !! i = Some true ↔ mark !! i = Some true ∨ ((i < length indents)%nat ∧ ∃ r, r ∈ selected ∧ (r = i ∨ nested indents r i))).
  { induction selected as [|r selected IH]; intros mark Hm; cbn [foldl]; [split; [by left|]; intros [?|(_ & r & ?%not_elem_of_nil & _)]; done|].
    destruct (markRow_spec indents mark r i Hm) as [Hl Hs]. rewrite IH, Hs by done. setoid_rewrite elem_of_cons. split.
    - intros [[?|[Hi H]]|(Hi & r' & Hr & H)]; [by left|right; split; [done|]; exists r; split; [by left|done]|right; split; [done|]; exists r'; split; [by right|done]].
    - intros [?|(Hi & r' & [->|Hr] & H)]; [by left; left|left; right; by split|right; split; [done|]; by exists r']. }
  rewrite H by by rewrite length_replicate. split; [|intros [Hi Hr]; split; [by right|lia]]. intros [[Hrep|Hr] Hi]; [|done]. by apply lookup_replicate in Hrep as [? _].
Qed.

(** C20: Collapsing and deleting act on whole subtrees.  A row is hidden exactly when a collapsed
    group has it nested under it, at any depth; what a deletion removes is exactly the selected
    rows and all that is nested under them, and nothing under a removed row is left. *)
Theorem subtrees indents collapsed selected :
  (length (hiddenByCollapse indents collapsed) = length indents ∧
   ∀ j, (j < length indents)%nat → hiddenByCollapse indents collapsed !! j = Some true ↔ ∃ g, collapsed !! g = Some true ∧ nested indents g j) ∧
  (∀ i, i ∈ expandGroupDeletion indents selected ↔ (i < length indents)%nat ∧ ∃ r, r ∈ selected ∧ (r = i ∨ nested indents r i)) ∧
  (∀ i j, i ∈ expandGroupDeletion indents selected → nested indents i j → j ∈ expandGroupDeletion indents selected).
Proof.
  split; [apply hiddenByCollapse_spec|]. split; [apply expandGroupDeletion_spec|]. intros i j (Hi & r & Hr & H)%expandGroupDeletion_spec Hij. apply expandGroupDeletion_spec.
  pose proof Hij as (Hlt & d & _ & Hj). destruct (Hj j ltac:(lia)) as (e & He & _). split; [by apply lookup_lt_Some in He|]. exists r. split; [done|]. right. destruct H as [->|H]; [done|by eapply nested_trans].
Qed.

Lemma subtrees_witness : 2%nat ∈ expandGroupDeletion [0; 1; 2; 0] [1%nat] ∧ hiddenByCollapse [0; 1; 2; 0] [true; false; false; true] = [false; true; true; false].
Proof.
  split; [|vm_compute; reflexivity]. apply (subtrees [0; 1; 2; 0] [] [1%nat]) with (i := 1%nat); [vm_compute; left|]. split; [lia|]. exists 1. split; [reflexivity|]. intros k Hk. assert (k = 2)%nat as -> by lia. exists 2. split; [reflexivity|lia].
Defined.

(** ** Moving a block *)

Definition outside (start length : Z) (i : Z) : Prop := i < start ∨ start + length ≤ i.
#[local] Instance outside_dec start length i : Decision (outside start length i).
Proof. unfold outside. apply _. Defined.
Lemma insertPos_split rest dest : StronglySorted Z.lt rest → Forall (λ x, x < dest) (take (insertPos rest dest) rest) ∧ Forall (λ x, dest ≤ x) (drop (insertPos rest dest) rest).
Proof.
  induction 1 as [|x rest Hs IH Hx]; cbn; [done|]. destruct (Z.ltb_spec x dest); cbn; [destruct IH as [? ?]; split; [by constructor|done]|]. split; [constructor|]. constructor; [done|]. eapply Forall_impl; [exact Hx|]. cbn. lia.
Qed.
Lemma seqZ_sorted n : ∀ m, StronglySorted Z.lt (seqZ m n).
Proof.
  destruct (Z.le_gt_cases 0 n) as [Hn|]; [|intros; rewrite seqZ_nil by lia; constructor]. pattern n. apply natlike_ind; [intros; rewrite seqZ_nil by lia; constructor| |done].
  clear n Hn. intros n Hn IH m. rewrite seqZ_cons by lia. rewrite Z.pred_succ. constructor; [apply IH|]. apply Forall_forall. intros x Hx%elem_of_seqZ. lia.
Qed.
Lemma sorted_app_filter (P : Z → Prop) `{!∀ x, Decision (P x)} l : StronglySorted Z.lt l → StronglySorted Z.lt (filter P l).
Proof.
  induction 1 as [|x l Hs IH Hx]; [constructor|]. rewrite filter_cons. case_decide; [|done]. constructor; [done|]. apply Forall_forall. intros y [_ Hy]%list_elem_of_filter. by rewrite Forall_forall in Hx; apply Hx.
Qed.
Lemma block_split count start length : 0 ≤ start → 0 ≤ length → start + length ≤ count →
  seqZ 0 count = seqZ 0 start ++ seqZ start length ++ seqZ (start + length) (count - start - length).
Proof. intros. replace count with (start + (length + (count - start - length))) at 1 by lia. rewrite seqZ_app by lia. rewrite Z.add_0_l, seqZ_app by lia. done. Qed.
Lemma filter_outside count start length : 0 ≤ start → 0 ≤ length → start + length ≤ count →
  filter (outside start length) (seqZ 0 count) = seqZ 0 start ++ seqZ (start + length) (count - start - length).
Proof.
  intros. rewrite (block_split count start length) by done. rewrite !filter_app. rewrite (filter_all _ (seqZ 0 start)), (filter_all _ (seqZ (start + length) _)), (filter_none _ (seqZ start length)); [done|apply Forall_forall|..].
  all: intros x Hx%elem_of_seqZ; unfold outside; lia.
Qed.
Lemma moveRange_valid count start length dest : 0 < length → 0 ≤ start → start + length ≤ count → 0 ≤ dest ≤ count →
  ∃ a b, moveRangePermutation count start length dest = a ++ seqZ start length ++ b ∧ a ++ b = filter (outside start length) (seqZ 0 count) ∧
    Forall (λ x, x < dest) a ∧ Forall (λ x, dest ≤ x) b.
Proof.
  intros Hl Hs Hc Hd. unfold moveRangePermutation. destruct (_ || _) eqn:G.
  { exfalso. rewrite !orb_true_iff, !Z.leb_le, !Z.ltb_lt in G. lia. }
  change (filter _ (seqZ 0 count)) with (filter (outside start length) (seqZ 0 count)).
  set (rest := filter (outside start length) (seqZ 0 count)). destruct (insertPos_split rest dest) as [H1 H2]; [by apply sorted_app_filter, seqZ_sorted|].
  eexists _, _. split; [reflexivity|]. split; [apply take_drop|done].
Qed.
Lemma moveRange_perm count start length dest : moveRangePermutation count start length dest ≡ₚ seqZ 0 count.
Proof.
  destruct (decide (0 < length ∧ 0 ≤ start ∧ start + length ≤ count ∧ 0 ≤ dest ≤ count)) as [(Hl & Hs & Hc & Hd)|Hno].
  - destruct (moveRange_valid count start length dest) as (a & b & -> & Hab & _); [done..|]. rewrite (Permutation_app_comm a), <- app_assoc, (Permutation_app_comm b), Hab, filter_outside by lia.
    rewrite (block_split count start length) by lia. by rewrite Permutation_app_swap_app.
  - unfold moveRangePermutation. destruct (_ || _) eqn:G; [done|]. exfalso. apply Hno. rewrite !orb_false_iff, !Z.leb_gt, !Z.ltb_ge in G. lia.
Qed.

(** ** Grouping a selection *)

Lemma uniqueSorted_spec l : StronglySorted Nat.le l → StronglySorted lt (uniqueSorted l) ∧ ∀ x, x ∈ uniqueSorted l ↔ x ∈ l.
Proof.
  induction 1 as [|x l Hs IH Hx]; [split; [constructor|done]|]. destruct l as [|y l]; [split; [repeat constructor|done]|]. destruct IH as [IH1 IH2].
  change (uniqueSorted (x :: y :: l)) with (if bool_decide (x = y) then uniqueSorted (y :: l) else x :: uniqueSorted (y :: l)). case_bool_decide as E.
  - subst y. split; [done|]. intros z. rewrite IH2, !elem_of_cons. tauto.
  - split; [|intros z; by rewrite elem_of_cons, IH2, !elem_of_cons]. constructor; [done|]. apply Forall_forall. intros z Hz%IH2. rewrite Forall_forall in Hx. pose proof (Hx y ltac:(by left)). inversion Hs as [|? ? _ Hy]; subst. rewrite Forall_forall in Hy.
    apply elem_of_cons in Hz as [->|Hz]; [unfold Nat.le in *; lia|]. specialize (Hy _ Hz). unfold Nat.le in *. lia.
Qed.
Lemma popOutside_split n l : ∃ dropped, l = dropped ++ popOutside n l ∧ Forall (λ x, n ≤ x)%nat dropped ∧ ∀ x, head (popOutside n l) = Some x → (x < n)%nat.
Proof.
  induction l as [|x l (dropped & E & Hd & Hh)]; cbn; [by exists []|]. case_bool_decide; [exists (x :: dropped); split; [by rewrite E at 1|]; split; [by constructor|done]|].
  exists []. split; [done|]. split; [constructor|]. intros y [= <-]. lia.
Qed.
Lemma sortedSelection_spec n selected : StronglySorted lt (sortedSelection n selected) ∧ ∀ x, x ∈ sortedSelection n selected ↔ x ∈ selected ∧ (x < n)%nat.
Proof.
  unfold sortedSelection. destruct (uniqueSorted_spec (merge_sort Nat.le selected)) as [Hs Hin]; [apply (StronglySorted_merge_sort Nat.le)|].
  set (u := uniqueSorted _) in *. destruct (popOutside_split n (reverse u)) as (dropped & E & Hd & Hh). set (kept := popOutside n (reverse u)) in *.
  assert (Eu : u = reverse kept ++ reverse dropped) by (rewrite <- reverse_app, <- E; by rewrite reverse_involutive). rewrite Eu in Hs. split; [by apply StronglySorted_app_1_l in Hs|].
  intros x. rewrite <- (merge_sort_Permutation Nat.le selected), <- Hin, Eu, elem_of_app. split; [|intros [[?|Hx] Hn]; [done|rewrite elem_of_reverse in Hx; rewrite Forall_forall in Hd; apply Hd in Hx; lia]].
  intros Hx. split; [by left|]. apply StronglySorted_app_1_l in Hs. destruct kept as [|y kept]; [by apply not_elem_of_nil in Hx|]. specialize (Hh y eq_refl). rewrite reverse_cons in Hx, Hs.
  apply elem_of_app in Hx as [Hx|Hx%list_elem_of_singleton]; [|by subst]. pose proof (StronglySorted_app_1_elem_of lt _ [y] x y Hs Hx ltac:(by left)). lia.
Qed.

(** The rows of a plan before and after its header: the ones that were not selected. *)
Definition plainRows (indents : list Z) (sel l : list nat) : list (Z * Z) := (λ i, (Z.of_nat i, default 0 (indents !! i))) <$> filter (λ i, i ∉ sel) l.
Definition memberRows (indents : list Z) (sel : list nat) : list (Z * Z) := (λ s, (Z.of_nat s, default 0 (indents !! s) + 1)) <$> sel.
Lemma groupLoop_app indents sel first m a b : groupLoop indents sel first m (a ++ b) = groupLoop indents sel first m a ++ groupLoop indents sel first m b.
Proof. induction a as [|i a IH]; cbn [groupLoop app]; [done|]. by rewrite IH, !app_assoc. Qed.
Lemma groupLoop_plain indents sel first m l : first ∉ l → groupLoop indents sel first m l = plainRows indents sel l.
Proof.
  induction l as [|i l IH]; cbn [groupLoop]; [done|]. rewrite not_elem_of_cons. intros [Hne Hl]. rewrite bool_decide_false by done. unfold plainRows. rewrite filter_cons, IH by done.
  case_bool_decide as Hi; [by rewrite decide_False by tauto|]. by rewrite decide_True.
Qed.
Lemma seq_split n i : (i < n)%nat → seq 0 n = seq 0 i ++ i :: seq (S i) (n - S i).
Proof. intros. replace n with (i + S (n - S i))%nat at 1 by lia. by rewrite seq_app. Qed.
Lemma foldl_min_in (f : nat → Z) l : ∀ m, foldl (λ m s, Z.min m (f s)) m l = m ∨ ∃ s, s ∈ l ∧ foldl (λ m s, Z.min m (f s)) m l = f s.
Proof.
  induction l as [|x l IH]; intros m; cbn [foldl]; [by left|]. destruct (IH (Z.min m (f x))) as [->|(s & Hs & ->)]; [|right; exists s; split; [by right|done]].
  destruct (Z.min_spec m (f x)) as [[_ ->]|[_ ->]]; [by left|right; exists x; split; [by left|done]].
Qed.
Lemma foldl_min (f : nat → Z) l : ∀ m, (∀ s, s ∈ l → foldl (λ m s, Z.min m (f s)) m l ≤ f s) ∧ foldl (λ m s, Z.min m (f s)) m l ≤ m.
Proof.
  induction l as [|x l IH]; intros m; cbn [foldl]; [split; [by intros s ?%not_elem_of_nil|lia]|]. destruct (IH (Z.min m (f x))) as [H1 H2]. split; [|lia].
  intros s [->|Hs]%elem_of_cons; [lia|by apply H1].
Qed.
(** The plan: the header stands where the first selected row was, the members follow it. *)
Lemma groupSelection_rows indents selected first rest : let n := length indents in let sel := sortedSelection n selected in
  sel = first :: rest → ∃ m, (∃ s, s ∈ sel ∧ m = default 0 (indents !! s)) ∧ (∀ s, s ∈ sel → m ≤ default 0 (indents !! s)) ∧
  let rows := plainRows indents sel (seq 0 first) ++ (-1, m) :: memberRows indents sel ++ plainRows indents sel (seq (S first) (n - S first)) in
  groupSelection indents selected = mkPlan rows.*1 rows.*2 true.
Proof.
  cbv zeta. unfold groupSelection. set (n := length indents). destruct (sortedSelection_spec n selected) as [_ Hin]. intros Esel. rewrite Esel in *. set (sel := first :: rest) in *.
  assert (Hfirst : (first < n)%nat) by (apply (Hin first); by left). set (m := foldl (λ m s, Z.min m (default 0 (indents !! s))) (default 0 (indents !! first)) sel). exists m.
  split; [destruct (foldl_min_in (λ s, default 0 (indents !! s)) sel (default 0 (indents !! first))) as [E|(s & Hs & E)]; [exists first; split; [by left|exact E]|by exists s]|]. split; [apply foldl_min|].
  assert (E : groupLoop indents sel first m (seq 0 n) = plainRows indents sel (seq 0 first) ++ (-1, m) :: memberRows indents sel ++ plainRows indents sel (seq (S first) (n - S first))).
  2:{ transitivity (mkPlan (groupLoop indents sel first m (seq 0 n)).*1 (groupLoop indents sel first m (seq 0 n)).*2 true); [reflexivity|by rewrite E]. }
  rewrite (seq_split n first Hfirst), groupLoop_app, groupLoop_plain by (rewrite elem_of_seq; lia). f_equal. cbn [groupLoop]. rewrite bool_decide_true by done. rewrite bool_decide_true by by left.
  rewrite groupLoop_plain by (rewrite elem_of_seq; lia). by rewrite app_nil_l.
Qed.
Lemma plainRows_order indents sel l : (plainRows indents sel l).*1 = Z.of_nat <$> filter (λ i, i ∉ sel) l.
Proof. unfold plainRows. by rewrite <- list_fmap_compose. Qed.
Lemma memberRows_order indents sel : (memberRows indents sel).*1 = Z.of_nat <$> sel.
Proof. unfold memberRows. by rewrite <- list_fmap_compose. Qed.
Lemma lt_sorted_NoDup l : StronglySorted lt l → NoDup l.
Proof. induction 1 as [|x l Hs IH Hx]; constructor; [|done]. intros Hin. rewrite Forall_forall in Hx. specialize (Hx _ Hin). lia. Qed.
Lemma selection_perm n sel first : (∀ x, x ∈ sel → (x < n)%nat) → first ∈ sel → NoDup sel →
  filter (λ i, i ∉ sel) (seq 0 first) ++ sel ++ filter (λ i, i ∉ sel) (seq (S first) (n - S first)) ≡ₚ seq 0 n.
Proof.
  intros Hn Hf Hd. rewrite Permutation_app_swap_app. rewrite <- (filter_app_complement (λ i, i ∈ sel) (seq 0 n)). apply Permutation_app.
  - apply NoDup_Permutation; [done|apply NoDup_filter, NoDup_seq|]. intros x. rewrite list_elem_of_filter, elem_of_seq. split; [intros H; specialize (Hn _ H); split; [done|lia]|tauto].
  - rewrite (seq_split n first) by by apply Hn. rewrite filter_app, filter_cons_False by tauto. done.
Qed.

(** Every row of the plan but the header keeps its depth, or is one deeper when it was selected. *)
Lemma rows_depth indents sel l s d : (Z.of_nat s, d) ∈ plainRows indents sel l ++ memberRows indents sel → d = default 0 (indents !! s) + (if bool_decide (s ∈ sel) then 1 else 0).
Proof.
  rewrite elem_of_app. unfold plainRows, memberRows. intros [H|H]; apply list_elem_of_fmap in H as (i & [= Ei ->] & Hi); assert (i = s) as -> by lia.
  - apply list_elem_of_filter in Hi as [Hi _]. rewrite bool_decide_false by done. lia.
  - by rewrite bool_decide_true.
Qed.

(** *** What the new group holds *)

Lemma descendantEnd_app p a b : ∀ row, Forall (λ d, p < d) a → descendantEnd p (a ++ b) row = descendantEnd p b (row + length a).
Proof.
  induction a as [|d a IH]; intros row Ha; cbn [app length descendantEnd]; [by rewrite Nat.add_0_r|]. inversion Ha; subst. rewrite (proj2 (Z.ltb_lt _ _)) by done. rewrite IH by done. f_equal. lia.
Qed.
Lemma descendantEnd_stop p b row : (∀ d, head b = Some d → d ≤ p) → descendantEnd p b row = row.
Proof. destruct b as [|d b]; [done|]. intros H. cbn [descendantEnd]. by rewrite (proj2 (Z.ltb_ge _ _)) by by apply H. Qed.
(** The leading rows that are deeper than [m], and the others. *)
Lemma deeper_split m (l : list (Z * Z)) : ∃ taken others, l = taken ++ others ∧ Forall (λ r, m < r.2) taken ∧ ∀ r, head others = Some r → r.2 ≤ m.
Proof.
  induction l as [|r l (taken & others & -> & Ht & Ho)]; [by exists [], []|]. destruct (Z.le_gt_cases r.2 m); [|by exists (r :: taken), others; split; [|split; [constructor|]]].
  exists [], (r :: taken ++ others). split; [done|]. split; [constructor|]. by intros ? [= <-].
Qed.
Lemma group_holds indents sel m before taken others : (∀ s, s ∈ sel → m ≤ default 0 (indents !! s)) → Forall (λ r, m < r.2) taken → (∀ r, head others = Some r → r.2 ≤ m) →
  descendantRange (before ++ (-1, m) :: memberRows indents sel ++ taken ++ others).*2 (length before) = (S (length before), S (length before) + length sel + length taken)%nat.
Proof.
  intros Hm Ht Ho. unfold descendantRange. rewrite fmap_app, fmap_cons, !fmap_app. rewrite lookup_app_r by (by rewrite length_fmap). rewrite length_fmap, Nat.sub_diag. cbn [lookup list_lookup snd].
  rewrite drop_app_ge by (rewrite length_fmap; lia). rewrite length_fmap. replace (S (length before) - length before)%nat with 1%nat by lia. cbn [drop]. rewrite drop_0. f_equal.
  rewrite app_assoc, descendantEnd_app.
  - rewrite length_app, !length_fmap. unfold memberRows. rewrite length_fmap, Nat.add_assoc. apply descendantEnd_stop. intros d. destruct others as [|r others]; [done|]. cbn. intros [= <-]. by apply Ho.
  - apply Forall_app. split; [|by apply Forall_fmap]. unfold memberRows. rewrite <- list_fmap_compose. apply Forall_fmap, Forall_forall. intros s Hs. specialize (Hm s Hs). cbn. lia.
Qed.

(** A row that was not selected and is deeper than the header ends up under it. *)
Example group_takes_deeper_row : groupSelection [0; 1; 0] [0; 2]%nat = mkPlan [-1; 0; 2; 1] [0; 1; 1; 1] true.
Proof. vm_compute. reflexivity. Qed.
