(* ===== verification/CodeWrite.v ===== *)
(** * Writing code

    Models [CodeWriteRecovery] of [src/platform/linux/code_write.cpp] and the code part of
    [TargetSyscallService] ([src/platform/linux/syscall_service.cpp]): code is written through
    a descriptor of the target's memory, in chunks, and what a failed write may have changed
    stays owned by a record until it has been put back.  The system calls are the class
    [CodeKernel]; native calls and memory system calls in flight are parameters. *)

From S2P Require Import Prelude.
From stdpp Require Import sorting.
#[local] Open Scope Z_scope.

(** [std::error_code]: the values of [std::errc] used here. *)
Definition EPERM : Z := 1.
Definition ENOENT : Z := 2.
Definition ESRCH : Z := 3.
Definition EINTR : Z := 4.
Definition EIO : Z := 5.
Definition EBUSY : Z := 16.
Definition EINVAL : Z := 22.
Definition ECANCELED : Z := 125.
Definition ENOTRECOVERABLE : Z := 131.

Record TargetProcessIdentity := mkIdentity { id_pid : Z; id_startTime : Z; id_device : Z; id_inode : Z }.
#[export] Instance TargetProcessIdentity_eq_dec : EqDecision TargetProcessIdentity.
Proof. solve_decision. Defined.

(** What [pread] and [pwrite] return. *)
Inductive Io (A : Type) := IoCount (a : A) | IoInterrupted | IoFailed (e : Z).
Arguments IoCount {A} a.
Arguments IoInterrupted {A}.
Arguments IoFailed {A} e.

(** The system: its state, and the address spaces a descriptor of [/proc/<task>/mem] pins. *)
Class CodeKernel := {
  world : Type;
  space : Type;
  image : Type;  (* [NativeMemoryImage] *)
  k_patience : world → nat;  (* interruptions that may still come in a row *)
  k_pread : space → Z → Z → world → Io bytes * world;
  k_pwrite : space → Z → bytes → world → Io Z * world;
  k_imageIdentity : image → TargetProcessIdentity;
  k_duplicateFd : image → world → (Z + space) * world;
  k_memoryIdentity : Z → world → (Z + TargetProcessIdentity) * world;  (* [processMemoryIdentity] *)
  k_memoryTask : Z → world → (Z + Z) * world;  (* [processMemoryTask] *)
  k_taskIdentity : Z → world → (Z + TargetProcessIdentity) * world;  (* [targetProcessIdentity] *)
  k_ownedByCaller : Z → world → bool * world;
  k_open : Z → world → (Z + space) * world;
  (* the native calls and the memory system calls of the service *)
  k_recoverCalls : TargetProcessIdentity → world → option Z * world;
  k_recoverAllCalls : world → world;
  k_retryRecords : world → world;
  k_callsPending : TargetProcessIdentity → Z → Z → world → bool
}.

Section CodeWriteRecovery.
Context {K : CodeKernel}.

Record CodeWriteRecovery := mkRecovery { cw_fd : space; cw_address : Z; cw_attempted : Z; cw_original : bytes }.
Definition withAttempted (r : CodeWriteRecovery) (n : Z) : CodeWriteRecovery := mkRecovery (cw_fd r) (cw_address r) n (cw_original r).
Definition chunkSize : Z := 65536.

(** [do ... while (result < 0 && errno == EINTR)]. *)
Fixpoint preadRetry (fuel : nat) (m : space) (address count : Z) (w : world) : (Z + bytes) * world :=
  match k_pread m address count w with
  | (IoCount b, w) => (inr b, w)
  | (IoFailed e, w) => (inl e, w)
  | (IoInterrupted, w) => match fuel with O => (inl EINTR, w) | S fuel => preadRetry fuel m address count w end
  end.
Fixpoint pwriteRetry (fuel : nat) (m : space) (address : Z) (data : bytes) (w : world) : (Z + Z) * world :=
  match k_pwrite m address data w with
  | (IoCount n, w) => (inr n, w)
  | (IoFailed e, w) => (inl e, w)
  | (IoInterrupted, w) => match fuel with O => (inl EINTR, w) | S fuel => pwriteRetry fuel m address data w end
  end.
Definition preadAll (m : space) (address count : Z) (w : world) := preadRetry (k_patience w) m address count w.
Definition pwriteAll (m : space) (address : Z) (data : bytes) (w : world) := pwriteRetry (k_patience w) m address data w.

(** The reading loop of [prepare]; [size] is what is left. *)
Fixpoint prepareLoop (fuel : nat) (m : space) (address size : Z) (w : world) : (Z + bytes) * world :=
  match fuel with
  | O => (inr [], w)
  | S fuel =>
      if size <=? 0 then (inr [], w) else
      let count := Z.min chunkSize size in
      match preadAll m address count w with
      | (inl e, w) => (inl e, w)
      | (inr b, w) =>
          if len b =? 0 then (inl ECANCELED, w) else
          if negb (len b =? count) then (inl EIO, w) else
          match prepareLoop fuel m (address + count) (size - count) w with
          | (inl e, w) => (inl e, w)
          | (inr rest, w) => (inr (b ++ rest), w)
          end
      end
  end.
(** A loop over [n] bytes ends within [n] chunks. *)
Definition chunkFuel (n : Z) : nat := S (Z.to_nat n).
(** The descriptor of [prepare], with its checks that the process is still the one asked for. *)
Definition attach (identity : TargetProcessIdentity) (img : option image) (w : world) : (Z + space) * world :=
  match img with
  | Some i => if bool_decide (k_imageIdentity i = identity) then k_duplicateFd i w else (inl EINVAL, w)
  | None =>
      match k_memoryIdentity (id_pid identity) w with
      | (inl e, w) => (inl e, w)
      | (inr actual, w) =>
          if negb (bool_decide (actual = identity)) then (inl ECANCELED, w) else
          match k_memoryTask (id_pid identity) w with
          | (inl e, w) => (inl e, w)
          | (inr task, w) =>
              match k_taskIdentity task w with
              | (inl e, w) => (inl e, w)
              | (inr member, w) =>
                  let '(owned, w) := k_ownedByCaller task w in
                  if negb owned then (inl EPERM, w) else
                  match k_open task w with
                  | (inl e, w) => (inl e, w)
                  | (inr fd, w) =>
                      let '(actual, w) := k_memoryIdentity (id_pid identity) w in
                      let '(now, w) := k_taskIdentity task w in
                      match actual, now with
                      | inr actual, inr now =>
                          if bool_decide (actual = identity) && bool_decide (now = member) then (inr fd, w) else (inl ECANCELED, w)
                      | _, _ => (inl ECANCELED, w)
                      end
                  end
              end
          end
      end
  end.
Definition prepare (identity : TargetProcessIdentity) (address size : Z) (img : option image) (w : world) : (Z + CodeWriteRecovery) * world :=
  if (size =? 0) || (2 ^ 64 - 1 - address <? size - 1) then (inl EINVAL, w) else
  match attach identity img w with
  | (inl e, w) => (inl e, w)
  | (inr fd, w) =>
      match prepareLoop (chunkFuel size) fd address size w with
      | (inl e, w) => (inl e, w)
      | (inr original, w) => (inr (mkRecovery fd address 0 original), w)
      end
  end.

(** [None] when memory holds the bytes. *)
Fixpoint verifyLoop (fuel : nat) (m : space) (address : Z) (data : bytes) (w : world) : option Z * world :=
  match fuel with
  | O => (None, w)
  | S fuel =>
      if bool_decide (data = []) then (None, w) else
      let count := Z.min chunkSize (len data) in
      match preadAll m address count w with
      | (inl e, w) => (Some e, w)
      | (inr b, w) =>
          if len b =? 0 then (Some ECANCELED, w) else
          if negb (len b =? count) || negb (bool_decide (b = slice data 0 count)) then (Some EIO, w) else
          verifyLoop fuel m (address + count) (drop (Z.to_nat count) data) w
      end
  end.
Definition verify (m : space) (address : Z) (data : bytes) (w : world) : option Z * world := verifyLoop (chunkFuel (len data)) m address data w.
(** The writing loop of [write]: the error and the bytes that may have been changed, [offset] of
    them before this chunk. *)
Fixpoint writeLoop (fuel : nat) (m : space) (address offset : Z) (data : bytes) (w : world) : option Z * Z * world :=
  match fuel with
  | O => (None, offset, w)
  | S fuel =>
      if bool_decide (data = []) then (None, offset, w) else
      let count := Z.min chunkSize (len data) in
      let attempted := offset + count in
      match pwriteAll m (address + offset) (slice data 0 count) w with
      | (inl e, w) => (Some e, attempted, w)
      | (inr written, w) =>
          if written =? 0 then (Some ECANCELED, attempted, w) else
          let attempted := if written <=? count then offset + written else attempted in
          if negb (written =? count) then (Some EIO, attempted, w) else
          writeLoop fuel m address (offset + count) (drop (Z.to_nat count) data) w
      end
  end.
Definition changed (r : CodeWriteRecovery) : bool := negb (cw_attempted r =? 0).
Definition write (r : CodeWriteRecovery) (data : bytes) (w : world) : option Z * CodeWriteRecovery * world :=
  if negb (len data =? len (cw_original r)) || changed r then (Some EINVAL, r, w) else
  match writeLoop (chunkFuel (len data)) (cw_fd r) (cw_address r) 0 data w with
  | (Some e, attempted, w) => (Some e, withAttempted r attempted, w)
  | (None, attempted, w) => let '(e, w) := verify (cw_fd r) (cw_address r) data w in (e, withAttempted r attempted, w)
  end.
(** The writing loop of [restore], which keeps no count. *)
Fixpoint restoreLoop (fuel : nat) (m : space) (address : Z) (data : bytes) (w : world) : option Z * world :=
  match fuel with
  | O => (None, w)
  | S fuel =>
      if bool_decide (data = []) then (None, w) else
      let count := Z.min chunkSize (len data) in
      match pwriteAll m address (slice data 0 count) w with
      | (inl e, w) => (Some e, w)
      | (inr written, w) =>
          if written =? 0 then (Some ECANCELED, w) else
          if negb (written =? count) then (Some EIO, w) else
          restoreLoop fuel m (address + count) (drop (Z.to_nat count) data) w
      end
  end.
Definition restore (r : CodeWriteRecovery) (w : world) : option Z * CodeWriteRecovery * world :=
  if negb (changed r) then (None, r, w) else
  let original := slice (cw_original r) 0 (cw_attempted r) in
  match verify (cw_fd r) (cw_address r) original w with
  | (None, w) => (None, withAttempted r 0, w)
  | (Some e, w) =>
      if e =? ECANCELED then (Some e, r, w) else
      match restoreLoop (chunkFuel (len original)) (cw_fd r) (cw_address r) original w with
      | (Some e, w) => (Some e, r, w)
      | (None, w) =>
          match verify (cw_fd r) (cw_address r) original w with
          | (None, w) => (None, withAttempted r 0, w)
          | (Some e, w) => (Some e, r, w)
          end
      end
  end.
Definition overlaps (r : CodeWriteRecovery) (address size : Z) : bool :=
  if (size =? 0) || (cw_attempted r =? 0) then false else
  if cw_address r <=? address then address - cw_address r <? cw_attempted r else cw_address r - address <? size.

(** ** The service *)

Definition keyOf (i : TargetProcessIdentity) : Z * Z := (id_pid i, id_startTime i).
Notation records := (gmap (Z * Z) CodeWriteRecovery).
Definition gone (e : Z) : bool := (e =? ESRCH) || (e =? ENOENT) || (e =? ECANCELED).
(** The record of a process is restored and dropped before anything else is done with it:
    the head of [execute], [recover] and [invoke]. *)
Definition releaseCode (key : Z * Z) (s : records) (w : world) : option Z * records * world :=
  match s !! key with
  | None => (None, s, w)
  | Some r =>
      match restore r w with
      | (Some e, r, w) => if gone e then (None, delete key s, w) else (Some e, <[key := r]> s, w)
      | (None, r, w) => (None, delete key s, w)
      end
  end.
Definition recover (identity : TargetProcessIdentity) (s : records) (w : world) : option Z * records * world :=
  match releaseCode (keyOf identity) s w with
  | (Some e, s, w) => (Some e, s, w)
  | (None, s, w) => let '(e, w) := k_recoverCalls identity w in (e, s, w)
  end.
Definition keyLe (a b : Z * Z) : Prop := a.1 < b.1 ∨ (a.1 = b.1 ∧ a.2 ≤ b.2).
#[local] Instance keyLe_dec a b : Decision (keyLe a b).
Proof. unfold keyLe. apply _. Defined.
(** The code records in [recoverAll], in the order of their keys. *)
Fixpoint recoverLoop (keys : list (Z * Z)) (s : records) (w : world) : records * world :=
  match keys with
  | [] => (s, w)
  | key :: keys => let '(_, s, w) := releaseCode key s w in recoverLoop keys s w
  end.
Definition recoverAll (s : records) (w : world) : records * world :=
  let '(s, w) := recoverLoop (merge_sort keyLe (map_to_list s).*1) s (k_recoverAllCalls w) in (s, k_retryRecords w).
Definition writeCode (identity : TargetProcessIdentity) (address : Z) (data : bytes) (img : option image) (s : records) (w : world) : (Z + Z) * records * world :=
  if bool_decide (data = []) then (inr 0, s, w) else
  match recover identity s w with
  | (Some e, s, w) => (inl e, s, w)
  | (None, s, w) =>
      if k_callsPending identity address (len data) w then (inl EBUSY, s, w) else
      match prepare identity address (len data) img w with
      | (inl e, w) => (inl e, s, w)
      | (inr r, w) =>
          let key := keyOf identity in
          match s !! key with
          | Some _ => (inl EBUSY, s, w)
          | None =>
              match write r data w with
              | (None, r, w) => (inr (len data), s, w)
              | (Some e, r, w) =>
                  match restore r w with
                  | (None, r, w) => (inl e, s, w)
                  | (Some e', r, w) => if gone e' then (inl e, s, w) else (inl ENOTRECOVERABLE, <[key := r]> s, w)
                  end
              end
          end
      end
  end.
End CodeWriteRecovery.
Arguments CodeWriteRecovery {K}.
Notation codeRecords := (gmap (Z * Z) CodeWriteRecovery).
