(* ===== verification/CodeWriteSpec.v ===== *)
(** * Code is written whole or put back

    The contract of the kernel, and what every operation of the service keeps: a byte of code
    differs from the last write that succeeded only where a record still owns it. *)

From S2P Require Import Prelude CodeWrite.
#[local] Open Scope Z_scope.

(** ** The kernel *)

(** Memory and its life.  A byte is stable when nothing but these descriptors writes it: the
    code of a target whose execution the callers coordinate. *)
Class CodeMemory (K : CodeKernel) := {
  k_byte : world → space → Z → Z;
  k_alive : world → space → Prop;
  k_stable : space → Z → Prop;
  k_owner : space → Z * Z;
  k_space_eq :: EqDecision space
}.
(** What stays between two states, outside [P]: nothing dead comes back. *)
Definition keepsBut {K : CodeKernel} {M : CodeMemory K} (P : space → Z → Prop) (w w' : world) : Prop :=
  ∀ m, k_alive w' m → k_alive w m ∧ ∀ a, k_stable m a → ¬ P m a → k_byte w' m a = k_byte w m a.
Notation keeps := (keepsBut (λ _ _, False)).
Definition within {K : CodeKernel} (m : space) (a n : Z) (m' : space) (a' : Z) : Prop := m' = m ∧ a ≤ a' < a + n.
Definition holds {K : CodeKernel} {M : CodeMemory K} (w : world) (m : space) (a : Z) (data : bytes) : Prop :=
  k_alive w m → ∀ i x, data !! i = Some x → k_stable m (a + Z.of_nat i) → k_byte w m (a + Z.of_nat i) = x.
(** [proc_pid_mem(5)], [pread(2)] and [pwrite(2)]: what is returned was read or written; zero says
    that the address space is gone; an interrupted call did nothing; a write that failed otherwise
    may have changed what it was given. *)
Class CodeKernelLaws (K : CodeKernel) (M : CodeMemory K) : Prop := {
  k_pread_ok m a n w : let r := k_pread m a n w in keeps w r.2 ∧
    match r.1 with
    | IoCount b => holds r.2 m a b ∧ (b = [] → ¬ k_alive r.2 m)
    | IoInterrupted => (k_patience r.2 < k_patience w)%nat
    | IoFailed e => gone e = true → ¬ k_alive r.2 m
    end;
  k_pwrite_ok m a d w : let r := k_pwrite m a d w in
    match r.1 with
    | IoCount n => 0 ≤ n ≤ len d ∧ keepsBut (within m a n) w r.2 ∧ holds r.2 m a (slice d 0 n) ∧ (n = 0 → ¬ k_alive r.2 m)
    | IoInterrupted => keeps w r.2 ∧ (k_patience r.2 < k_patience w)%nat
    | IoFailed e => keepsBut (within m a (len d)) w r.2 ∧ (gone e = true → ¬ k_alive r.2 m)
    end;
  k_observe_ok w : (∀ i, keeps w (k_duplicateFd i w).2) ∧ (∀ p, keeps w (k_memoryIdentity p w).2) ∧ (∀ p, keeps w (k_memoryTask p w).2) ∧
    (∀ t, keeps w (k_taskIdentity t w).2) ∧ (∀ t, keeps w (k_ownedByCaller t w).2) ∧ (∀ t, keeps w (k_open t w).2);
  k_calls_ok w : (∀ i, keeps w (k_recoverCalls i w).2) ∧ keeps w (k_recoverAllCalls w) ∧ keeps w (k_retryRecords w);
  (* what passes the checks of [attach] is the memory of the process that was asked for *)
  k_attach_ok identity img w m w' : attach identity img w = (inr m, w') → k_owner m = keyOf identity
}.

Section Kernel.
Context {K : CodeKernel} {M : CodeMemory K} {laws : CodeKernelLaws K M}.
Lemma keepsBut_refl P w : keepsBut P w w.
Proof using. intros m Hm. split; [done|]. done. Qed.
Lemma keepsBut_trans P w1 w2 w3 : keepsBut P w1 w2 → keepsBut P w2 w3 → keepsBut P w1 w3.
Proof using. intros H1 H2 m [Ha Hb]%H2. destruct (H1 m Ha) as [Hc Hd]. split; [done|]. intros a Hs Hp. by rewrite Hb, Hd. Qed.
Lemma keepsBut_mono (P Q : space → Z → Prop) w w' : (∀ m a, P m a → Q m a) → keepsBut P w w' → keepsBut Q w w'.
Proof using. intros HPQ H m [Ha Hb]%H. split; [done|]. intros a Hs Hq. apply Hb; eauto. Qed.
Lemma keeps_any P w w' : keeps w w' → keepsBut P w w'.
Proof using. by apply keepsBut_mono. Qed.
Lemma holds_keeps w w' m a data : keeps w w' → holds w m a data → holds w' m a data.
Proof using. intros H Hd [Ha Hb]%H i x Hi Hs. rewrite Hb by (done || tauto). by apply Hd. Qed.

(** ** Retries *)

Lemma preadRetry_ok fuel m a n w r w' : preadRetry fuel m a n w = (r, w') → keeps w w' ∧
  match r with inr b => holds w' m a b ∧ (b = [] → ¬ k_alive w' m) | inl e => gone e = true → ¬ k_alive w' m end.
Proof using laws.
  revert w. induction fuel as [|fuel IH]; intros w; cbn [preadRetry]; pose proof (k_pread_ok m a n w) as [Hk Hr]; destruct (k_pread m a n w) as [[b| |e] w1]; cbn [fst snd] in *; intros E.
  1,3,4,6: injection E as <- <-; by split.
  - injection E as <- <-. by split.
  - destruct (IH _ E) as [Hk' H]. split; [by eapply keepsBut_trans|done].
Qed.
Lemma pwriteRetry_ok fuel m a d w r w' : pwriteRetry fuel m a d w = (r, w') →
  match r with
  | inr n => 0 ≤ n ≤ len d ∧ keepsBut (within m a n) w w' ∧ holds w' m a (slice d 0 n) ∧ (n = 0 → ¬ k_alive w' m)
  | inl e => keepsBut (within m a (len d)) w w' ∧ (gone e = true → ¬ k_alive w' m)
  end.
Proof using laws.
  revert w. induction fuel as [|fuel IH]; intros w; cbn [pwriteRetry]; pose proof (k_pwrite_ok m a d w) as Hr; destruct (k_pwrite m a d w) as [[n| |e] w1]; cbn [fst snd] in *; intros E.
  1,4: by injection E as <- <-.
  2,4: by injection E as <- <-.
  - injection E as <- <-. destruct Hr as [Hk _]. split; [by apply keeps_any|done].
  - destruct Hr as [Hk _]. apply IH in E. destruct r as [e|n]; [destruct E as [H1 H2]|destruct E as (H0 & H1 & H2)]; repeat (split; [done || (eapply keepsBut_trans; [by apply keeps_any|done])|]); done.
Qed.
(** The interruptions end before the retries do. *)
Lemma preadRetry_same m a n f1 : ∀ f2 w, (k_patience w ≤ f1)%nat → (k_patience w ≤ f2)%nat → preadRetry f1 m a n w = preadRetry f2 m a n w.
Proof using laws.
  induction f1 as [|f1 IH]; intros [|f2] w H1 H2; cbn [preadRetry]; pose proof (k_pread_ok m a n w) as [_ Hr]; destruct (k_pread m a n w) as [[b| |e] w1]; cbn [fst snd] in *; try done; try lia.
  apply IH; lia.
Qed.
Lemma preadRetry_enough m a n w fuel : (k_patience w ≤ fuel)%nat → preadRetry fuel m a n w = preadAll m a n w.
Proof using laws. intros. by apply preadRetry_same. Qed.
Lemma pwriteRetry_same m a d f1 : ∀ f2 w, (k_patience w ≤ f1)%nat → (k_patience w ≤ f2)%nat → pwriteRetry f1 m a d w = pwriteRetry f2 m a d w.
Proof using laws.
  induction f1 as [|f1 IH]; intros [|f2] w H1 H2; cbn [pwriteRetry]; pose proof (k_pwrite_ok m a d w) as Hr; destruct (k_pwrite m a d w) as [[n| |e] w1]; cbn [fst snd] in *; try done; try (destruct Hr; lia).
  apply IH; destruct Hr; lia.
Qed.
Lemma pwriteRetry_enough m a d w fuel : (k_patience w ≤ fuel)%nat → pwriteRetry fuel m a d w = pwriteAll m a d w.
Proof using laws. intros. by apply pwriteRetry_same. Qed.

(** ** The loops *)

Lemma holds_app w m a d1 d2 : holds w m a d1 → holds w m (a + len d1) d2 → holds w m a (d1 ++ d2).
Proof using.
  intros H1 H2 Ha i x Hi Hs. apply lookup_app_Some in Hi as [Hi|[Hle Hi]]; [by apply H1|].
  replace (a + Z.of_nat i) with (a + len d1 + Z.of_nat (i - length d1)) in * by (unfold len; lia). by apply H2.
Qed.
Lemma slice_drop_eq (d : bytes) n : 0 ≤ n → slice d 0 n ++ drop (Z.to_nat n) d = d.
Proof using. intros. unfold slice. apply take_drop. Qed.
Lemma chunk_facts (d : bytes) : d ≠ [] → let n := Z.min chunkSize (len d) in
  0 < n ≤ len d ∧ len (slice d 0 n) = n ∧ (length (drop (Z.to_nat n) d) < length d)%nat ∧ len (drop (Z.to_nat n) d) = len d - n.
Proof using.
  intros Hd n. assert (0 < len d) by (destruct d; [done|rewrite len_cons; pose proof (len_nonneg d); lia]). assert (Hn : 0 < n ≤ len d) by (unfold n, chunkSize; lia).
  split; [done|]. split; [apply len_slice; lia|]. unfold len in *. rewrite length_drop. lia.
Qed.
Lemma prepareLoop_ok fuel m : ∀ a n w r w', 0 ≤ n → (Z.to_nat n < fuel)%nat → prepareLoop fuel m a n w = (r, w') → keeps w w' ∧
  match r with inr b => len b = n ∧ holds w' m a b | inl e => True end.
Proof using laws.
  induction fuel as [|fuel IH]; intros a n w r w' Hn Hf; [lia|]. cbn [prepareLoop]. destruct (Z.leb_spec n 0).
  { intros [= <- <-]. split; [apply keepsBut_refl|]. split; [unfold len; cbn; lia|]. by intros ? i x Hi. }
  unfold preadAll. destruct (preadRetry _ m a _ w) as [[e|b] w1] eqn:E1; apply preadRetry_ok in E1 as [K1 H1]; [by intros [= <- <-]|]. destruct (len b =? 0); [by intros [= <- <-]|].
  destruct (Z.eqb_spec (len b) (Z.min chunkSize n)) as [L|]; cbn [negb]; [|by intros [= <- <-]]. set (c := Z.min chunkSize n) in *. assert (0 < c ≤ n) by (unfold c, chunkSize; lia).
  destruct (prepareLoop fuel m _ _ w1) as [[e|rest] w2] eqn:E2; (apply IH in E2 as [K2 H2]; [|lia..]); intros [= <- <-]; (split; [by eapply keepsBut_trans|]); [done|].
  destruct H2 as [L2 H2], H1 as [H1 _]. split; [rewrite len_app; lia|]. apply holds_app; [by eapply holds_keeps|by rewrite L].
Qed.
Lemma verifyLoop_ok fuel m : ∀ a d w e w', (length d < fuel)%nat → verifyLoop fuel m a d w = (e, w') → keeps w w' ∧
  (e = None → holds w' m a d) ∧ (∀ e', e = Some e' → gone e' = true → ¬ k_alive w' m).
Proof using laws.
  induction fuel as [|fuel IH]; intros a d w e w' Hf; [lia|]. cbn [verifyLoop]. destruct (bool_decide_reflect (d = [])) as [->|Hd].
  { intros [= <- <-]. split; [apply keepsBut_refl|]. split; [by intros _ ? i x Hi|done]. }
  destruct (chunk_facts d Hd) as (Hn & L & Hdrop & _). set (n := Z.min chunkSize (len d)) in *.
  unfold preadAll. destruct (preadRetry _ m a n w) as [[e1|b] w1] eqn:E1; apply preadRetry_ok in E1 as [K1 H1]; [intros [= <- <-]; split; [done|]; split; [done|]; by intros ? [= <-]|].
  destruct (Z.eqb_spec (len b) 0) as [Hb|_]. { destruct b; [|rewrite len_cons in Hb; pose proof (len_nonneg b); lia]. intros [= <- <-]. split; [done|]. split; [done|]. intros ? [= <-] _. by apply H1. }
  destruct (_ || _) eqn:G; [by intros [= <- <-]; split; [done|]; split; [done|]; intros ? [= <-]|]. apply orb_false_iff in G as [_ G%negb_false_iff%bool_decide_eq_true_1]. subst b.
  intros E2. apply IH in E2 as (K2 & H2 & H3); [|lia]. split; [by eapply keepsBut_trans|]. split; [|done]. intros ->. rewrite <- (slice_drop_eq d n) by lia. apply holds_app; [eapply holds_keeps; [exact K2|apply H1]|rewrite L; by apply H2].
Qed.
Lemma writeLoop_ok fuel m a : ∀ offset d w e att w', (length d < fuel)%nat → writeLoop fuel m a offset d w = (e, att, w') →
  offset ≤ att ≤ offset + len d ∧ keepsBut (within m (a + offset) (att - offset)) w w' ∧ (e = None → att = offset + len d) ∧ (∀ e', e = Some e' → gone e' = true → ¬ k_alive w' m).
Proof using laws.
  induction fuel as [|fuel IH]; intros offset d w e att w' Hf; [lia|]. cbn [writeLoop]. destruct (bool_decide_reflect (d = [])) as [->|Hd].
  { intros [= <- <- <-]. rewrite len_nil. split; [lia|]. split; [apply keepsBut_refl|]. split; [lia|done]. }
  destruct (chunk_facts d Hd) as (Hn & L & Hdrop & Ldrop). set (n := Z.min chunkSize (len d)) in *.
  unfold pwriteAll. destruct (pwriteRetry _ m (a + offset) _ w) as [[e1|written] w1] eqn:E1; apply pwriteRetry_ok in E1; rewrite ?L in E1.
  { destruct E1 as [K1 H1]. intros [= <- <- <-]. split; [lia|]. split; [by replace (offset + n - offset) with n by lia|]. split; [done|]. by intros ? [= <-]. }
  destruct E1 as (Hw & K1 & _ & H0). destruct (Z.eqb_spec written 0) as [->|Hz].
  { intros [= <- <- <-]. split; [lia|]. split; [eapply keepsBut_mono; [|exact K1]; unfold within; intuition lia|]. split; [done|]. intros ? [= <-] _. by apply H0. }
  rewrite (proj2 (Z.leb_le written n)) by lia. destruct (Z.eqb_spec written n) as [->|]; cbn [negb].
  - intros E2. apply IH in E2 as (Hatt & K2 & H2 & H3); [|lia]. rewrite Ldrop in Hatt, H2. split; [lia|]. split; [|split; [intros ->; rewrite H2 by done; lia|done]].
    eapply keepsBut_trans; (eapply keepsBut_mono; [|eassumption]); unfold within; intuition lia.
  - intros [= <- <- <-]. split; [lia|]. split; [by replace (offset + written - offset) with written by lia|]. split; [done|]. by intros ? [= <-].
Qed.
Lemma restoreLoop_ok fuel m : ∀ a d w e w', (length d < fuel)%nat → restoreLoop fuel m a d w = (e, w') →
  keepsBut (within m a (len d)) w w' ∧ (∀ e', e = Some e' → gone e' = true → ¬ k_alive w' m).
Proof using laws.
  induction fuel as [|fuel IH]; intros a d w e w' Hf; [lia|]. cbn [restoreLoop]. destruct (bool_decide_reflect (d = [])) as [->|Hd].
  { intros [= <- <-]. split; [apply keepsBut_refl|done]. }
  destruct (chunk_facts d Hd) as (Hn & L & Hdrop & Ldrop). set (n := Z.min chunkSize (len d)) in *.
  unfold pwriteAll. destruct (pwriteRetry _ m a _ w) as [[e1|written] w1] eqn:E1; apply pwriteRetry_ok in E1; rewrite ?L in E1.
  { destruct E1 as [K1 H1]. intros [= <- <-]. split; [eapply keepsBut_mono; [|exact K1]; unfold within; intuition lia|]. by intros ? [= <-]. }
  destruct E1 as (Hw & K1 & _ & H0). assert (K1' : keepsBut (within m a (len d)) w w1) by (eapply keepsBut_mono; [|exact K1]; unfold within; intuition lia).
  destruct (Z.eqb_spec written 0) as [->|Hz]; [intros [= <- <-]; split; [done|]; intros ? [= <-] _; by apply H0|].
  destruct (negb _); [intros [= <- <-]; split; [done|]; by intros ? [= <-]|]. intros E2. apply IH in E2 as (K2 & H2); [|lia]. split; [|done].
  eapply keepsBut_trans; [exact K1'|]. eapply keepsBut_mono; [|exact K2]. unfold within. intuition lia.
Qed.

(** ** One record *)

(** The record holds what memory should hold over its range, and memory holds what it should
    where the record does not own it. *)
Definition owned (committed : space → Z → Z) (w : world) (r : CodeWriteRecovery) : Prop :=
  0 ≤ cw_attempted r ≤ len (cw_original r) ∧
  (k_alive w (cw_fd r) →
    (∀ i x, cw_original r !! i = Some x → k_stable (cw_fd r) (cw_address r + Z.of_nat i) → committed (cw_fd r) (cw_address r + Z.of_nat i) = x) ∧
    (∀ a, k_stable (cw_fd r) a → ¬ (cw_address r ≤ a < cw_address r + cw_attempted r) → k_byte w (cw_fd r) a = committed (cw_fd r) a)).
Definition touches (r : CodeWriteRecovery) (n : Z) : space → Z → Prop := within (cw_fd r) (cw_address r) n.
Lemma owned_keeps committed w w' r : owned committed w r → keepsBut (touches r (cw_attempted r)) w w' → owned committed w' r.
Proof using.
  intros [Hl Ho] Hk. split; [done|]. intros Ha. destruct (Hk _ Ha) as [Ha' Hb]. destruct (Ho Ha') as [H1 H2]. split; [done|]. intros a Hs Hn. rewrite Hb by (unfold touches, within; tauto). by apply H2.
Qed.
(** Once memory holds the bytes the record owns, the record is done. *)
Lemma owned_released committed w r : owned committed w r → holds w (cw_fd r) (cw_address r) (slice (cw_original r) 0 (cw_attempted r)) → owned committed w (withAttempted r 0).
Proof using.
  intros [Hl Ho] Hh. split; [cbn; lia|]. cbn. intros Ha. destruct (Ho Ha) as [H1 H2]. split; [done|]. intros a Hst _.
  destruct (decide (cw_address r ≤ a < cw_address r + cw_attempted r)) as [Hin|]; [|by apply H2].
  set (i := Z.to_nat (a - cw_address r)). assert (Ei : a = cw_address r + Z.of_nat i) by lia. unfold holds in Hh.
  destruct (lookup_lt_is_Some_2 (slice (cw_original r) 0 (cw_attempted r)) i) as [x Hx]; [pose proof (len_slice (cw_original r) 0 (cw_attempted r)) as Ls; unfold len in *; lia|].
  rewrite Ei in *. rewrite (Hh Ha i x Hx Hst). symmetry. unfold slice in Hx. apply lookup_take_Some in Hx as [Hx _]. by apply H1.
Qed.
Lemma restore_ok committed w r e r' w' : owned committed w r → restore r w = (e, r', w') →
  owned committed w' r' ∧ keepsBut (touches r (cw_attempted r)) w w' ∧ cw_fd r' = cw_fd r ∧ (e = None → cw_attempted r' = 0) ∧ (∀ e', e = Some e' → gone e' = true → ¬ k_alive w' (cw_fd r)).
Proof using laws.
  intros Ho. unfold restore, changed. destruct (Z.eqb_spec (cw_attempted r) 0) as [H0|_]; cbn [negb].
  { intros [= <- <- <-]. split; [done|]. split; [apply keepsBut_refl|]. done. }
  set (original := slice _ 0 _). assert (Lo : len original = cw_attempted r) by (apply len_slice; destruct Ho as [Hl _]; lia). unfold verify, chunkFuel.
  destruct (verifyLoop _ _ _ original w) as [[e1|] w1] eqn:E1; (apply verifyLoop_ok in E1 as (K1 & H1 & G1); [|unfold len; lia]); pose proof (keeps_any (touches r (cw_attempted r)) _ _ K1) as K1'; pose proof (owned_keeps _ _ _ _ Ho K1') as Ho1.
  2:{ intros [= <- <- <-]. split; [by apply owned_released; [|apply H1]|]. by split. }
  destruct (e1 =? ECANCELED). { intros [= <- <- <-]. split; [done|]. split; [done|]. split; [done|]. split; [done|]. intros ? [= <-]. by apply G1. }
  destruct (restoreLoop _ _ _ original w1) as [e2 w2] eqn:E2. apply restoreLoop_ok in E2 as [K2 G2]; [|unfold chunkFuel, len; lia]. rewrite Lo in K2. fold (touches r (cw_attempted r)) in K2.
  pose proof (keepsBut_trans _ _ _ _ K1' K2) as K2'. pose proof (owned_keeps _ _ _ _ Ho K2') as Ho2. destruct e2 as [e2|]; [intros [= <- <- <-]; split; [done|]; split; [done|]; split; [done|]; split; [done|]; intros ? [= <-]; by apply G2|].
  destruct (verifyLoop _ _ _ original w2) as [e3 w3] eqn:E3. apply verifyLoop_ok in E3 as (K3 & H3 & G3); [|unfold len; lia]. pose proof (keeps_any (touches r (cw_attempted r)) _ _ K3) as K3'.
  pose proof (keepsBut_trans _ _ _ _ K2' K3') as Kall. pose proof (owned_keeps _ _ _ _ Ho Kall) as Ho3. destruct e3 as [e3|]; intros [= <- <- <-].
  - split; [done|]. split; [done|]. split; [done|]. split; [done|]. intros ? [= <-]. by apply G3.
  - split; [by apply owned_released; [|apply H3]|]. by split.
Qed.
Lemma codeWrite_ok committed w r data e r' w' : owned committed w r → write r data w = (e, r', w') →
  owned committed w' r' ∧ keepsBut (touches r (len (cw_original r))) w w' ∧ cw_fd r' = cw_fd r ∧ (e = None → cw_attempted r = 0 ∧ len (cw_original r) = len data ∧ holds w' (cw_fd r) (cw_address r) data).
Proof using laws.
  intros Ho. unfold write, changed. destruct (_ || _) eqn:G; [intros [= <- <- <-]; split; [done|]; split; [apply keepsBut_refl|]; done|]. apply orb_false_iff in G as [G1%negb_false_iff%Z.eqb_eq G2%negb_false_iff%Z.eqb_eq].
  destruct (writeLoop _ _ _ 0 data w) as [[e1 att] w1] eqn:E1. apply writeLoop_ok in E1 as (Hatt & K1 & H1 & _); [|unfold chunkFuel, len; lia]. rewrite Z.add_0_r, Z.sub_0_r in K1.
  assert (Ho1 : ∀ w2, keepsBut (within (cw_fd r) (cw_address r) att) w w2 → owned committed w2 (withAttempted r att)).
  { intros w2 K2. apply (owned_keeps _ w); [|done]. destruct Ho as [Hl Ho]. split; [cbn; lia|]. cbn. intros Ha. destruct (Ho Ha) as [Hc Hd]. split; [done|]. intros a Hs _. apply Hd; [done|lia]. }
  assert (Hwide : ∀ w2, keepsBut (within (cw_fd r) (cw_address r) att) w w2 → keepsBut (touches r (len (cw_original r))) w w2).
  { intros w2. apply keepsBut_mono. unfold touches, within. intuition lia. }
  destruct e1 as [e1|]; [intros [= <- <- <-]; split; [by apply Ho1|]; split; [by apply Hwide|]; done|].
  unfold verify, chunkFuel. destruct (verifyLoop _ _ _ data w1) as [e2 w2] eqn:E2. apply verifyLoop_ok in E2 as (K2 & H2 & _); [|unfold len; lia]. intros [= <- <- <-]. pose proof (keepsBut_trans _ _ _ _ K1 (keeps_any _ _ _ K2)) as Kall.
  split; [by apply Ho1|]. split; [by apply Hwide|]. split; [done|]. intros He. split; [done|]. split; [lia|]. by apply H2.
Qed.
Ltac observed := repeat match goal with
  | |- keeps ?w ?w => apply keepsBut_refl
  | H : ?t = (_, ?w') |- keeps _ ?w' => replace w' with t.2 by (by rewrite H); eapply keepsBut_trans; [|apply k_observe_ok]; clear H
  end.
Lemma attach_keeps identity img w r w' : attach identity img w = (r, w') → keeps w w'.
Proof using laws.
  unfold attach. destruct img as [i|]; [case_bool_decide; [|intros [= <- <-]; observed]; intros E; observed|].
  destruct (k_memoryIdentity _ w) as [[e|actual] w1] eqn:E1; [intros [= <- <-]; observed|]. destruct (negb _); [intros [= <- <-]; observed|].
  destruct (k_memoryTask _ w1) as [[e|task] w2] eqn:E2; [intros [= <- <-]; observed|]. destruct (k_taskIdentity task w2) as [[e|member] w3] eqn:E3; [intros [= <- <-]; observed|].
  destruct (k_ownedByCaller task w3) as [o w4] eqn:E4. destruct (negb o); [intros [= <- <-]; observed|]. destruct (k_open task w4) as [[e|fd] w5] eqn:E5; [intros [= <- <-]; observed|].
  destruct (k_memoryIdentity _ w5) as [a1 w6] eqn:E6. destruct (k_taskIdentity task w6) as [a2 w7] eqn:E7. intros E. assert (w' = w7) as -> by (destruct a1, a2; [..|destruct (_ && _)]; congruence). observed.
Qed.
Lemma prepare_ok identity address size img w r w' : 0 < size → prepare identity address size img w = (r, w') → keeps w w' ∧
  ∀ rec, r = inr rec → cw_address rec = address ∧ cw_attempted rec = 0 ∧ len (cw_original rec) = size ∧ holds w' (cw_fd rec) address (cw_original rec) ∧ k_owner (cw_fd rec) = keyOf identity.
Proof using laws.
  intros Hs. unfold prepare. destruct (_ || _); [intros [= <- <-]; split; [apply keepsBut_refl|done]|]. destruct (attach identity img w) as [[e|fd] w1] eqn:E1; [intros [= <- <-]; split; [by eapply attach_keeps|done]|].
  pose proof (k_attach_ok _ _ _ _ _ E1) as Hown. apply attach_keeps in E1. destruct (prepareLoop _ fd address size w1) as [[e|original] w2] eqn:E2; (apply prepareLoop_ok in E2 as [K2 H2]; [|lia|unfold chunkFuel; lia]); intros [= <- <-]; (split; [by eapply keepsBut_trans|]); [done|].
  intros rec [= <-]. cbn. destruct H2 as [L H2]. by split_and!.
Qed.

(** ** The service *)

(** What [committed] says holds in every live address space, but for what a record owns. *)
Definition codeInv (s : codeRecords) (w : world) (committed : space → Z → Z) : Prop :=
  (∀ key r, s !! key = Some r → k_owner (cw_fd r) = key ∧ owned committed w r) ∧
  (∀ m a, k_alive w m → k_stable m a → (∀ r, s !! k_owner m = Some r → cw_fd r ≠ m) → k_byte w m a = committed m a).
Lemma owned_other committed committed' P w w' r : owned committed w r → keepsBut P w w' → (∀ a, ¬ P (cw_fd r) a) → (∀ a, committed' (cw_fd r) a = committed (cw_fd r) a) → owned committed' w' r.
Proof using.
  intros [Hl Ho] Hk HP HC. split; [done|]. intros [Ha Hb]%Hk. destruct (Ho Ha) as [H1 H2]. split; [intros; rewrite HC; by apply H1|]. intros a Hs Hn. rewrite HC, Hb by auto. by apply H2.
Qed.
(** A step that concerns one address space. *)
Lemma codeInv_at s w w' committed committed' m o : codeInv s w committed → keepsBut (λ m' _, m' = m) w w' → (∀ r, s !! k_owner m = Some r → cw_fd r = m) →
  (∀ m' a, m' ≠ m → committed' m' a = committed m' a) →
  match o with Some r => cw_fd r = m ∧ owned committed' w' r | None => ∀ a, k_alive w' m → k_stable m a → k_byte w' m a = committed' m a end →
  codeInv (partial_alter (λ _, o) (k_owner m) s) w' committed'.
Proof using.
  intros [Hr Hm] Hk Hone HC Ho. split.
  - intros key r. destruct (decide (key = k_owner m)) as [->|Hne]; [rewrite lookup_partial_alter_eq; intros ->; by destruct Ho as [-> Ho]|]. rewrite lookup_partial_alter_ne by done. intros Hkey. destruct (Hr _ _ Hkey) as [Hown H]. split; [done|].
    assert (cw_fd r ≠ m) by congruence. eapply owned_other; [exact H|exact Hk|done|]. intros a. by apply HC.
  - intros m' a Ha Hs Hrec. destruct (decide (m' = m)) as [->|Hne].
    + rewrite lookup_partial_alter_eq in Hrec. destruct o as [r|]; [destruct Ho as [Hfd _]; by destruct (Hrec r eq_refl)|by apply Ho].
    + destruct (Hk _ Ha) as [Ha' Hb]. rewrite Hb, HC by done. apply Hm; [done..|]. intros r Hr'. destruct (decide (k_owner m' = k_owner m)) as [E|E]; [rewrite E in Hr'; rewrite (Hone _ Hr'); congruence|]. apply Hrec. by rewrite lookup_partial_alter_ne.
Qed.
Lemma codeInv_keeps s w w' committed : codeInv s w committed → keeps w w' → codeInv s w' committed.
Proof using.
  intros [Hr Hm] Hk. split; [intros key r Hkey; destruct (Hr _ _ Hkey) as [Hown H]; split; [done|]; eapply owned_other; [exact H|exact Hk|tauto|done]|].
  intros m a Ha Hs Hrec. destruct (Hk _ Ha) as [Ha' Hb]. rewrite Hb by tauto. by apply Hm.
Qed.
Lemma touches_at r n m a : touches r n m a → m = cw_fd r.
Proof using. by intros [-> _]. Qed.
Lemma releaseCode_ok committed key s w e s' w' : codeInv s w committed → releaseCode key s w = (e, s', w') →
  codeInv s' w' committed ∧ (e = None → s' !! key = None).
Proof using laws.
  intros Hi. unfold releaseCode. destruct (s !! key) as [r|] eqn:Ekey; [|by intros [= <- <- <-]]. destruct (proj1 Hi _ _ Ekey) as [Hown Ho].
  destruct (restore r w) as [[e1 r1] w1] eqn:E1. destruct (restore_ok _ _ _ _ _ _ Ho E1) as (Ho1 & K1 & Hfd & Hn & Hg). subst key.
  assert (Hat : ∀ o, match o with Some r' => cw_fd r' = cw_fd r ∧ owned committed w1 r' | None => ∀ a, k_alive w1 (cw_fd r) → k_stable (cw_fd r) a → k_byte w1 (cw_fd r) a = committed (cw_fd r) a end →
    codeInv (partial_alter (λ _, o) (k_owner (cw_fd r)) s) w1 committed).
  { intros o. apply (codeInv_at _ w _ committed); [done|eapply keepsBut_mono; [|exact K1]; apply touches_at|intros r2 Hr2; congruence|done]. }
  destruct e1 as [e1|]; [destruct (gone e1) eqn:Eg|]; intros [= <- <- <-].
  - split; [|intros; apply lookup_delete_eq]. apply (Hat None). intros a Ha. by destruct (Hg e1 eq_refl Eg).
  - split; [|done]. by apply (Hat (Some r1)).
  - split; [|intros; apply lookup_delete_eq]. apply (Hat None). intros a Ha Hs. rewrite <- Hfd in *. destruct Ho1 as [_ H]. apply (H Ha); [done|]. rewrite (Hn eq_refl). lia.
Qed.
Lemma recover_ok committed identity s w e s' w' : codeInv s w committed → recover identity s w = (e, s', w') →
  codeInv s' w' committed ∧ (e = None → s' !! keyOf identity = None).
Proof using laws.
  intros Hi. unfold recover. destruct (releaseCode _ s w) as [[[e1|] s1] w1] eqn:E1; destruct (releaseCode_ok _ _ _ _ _ _ _ Hi E1) as [H1 H2]; [by intros [= <- <- <-]|].
  pose proof (proj1 (k_calls_ok w1) identity) as Hk. destruct (k_recoverCalls identity w1) as [e2 w2]. intros [= <- <- <-]. split; [by eapply codeInv_keeps|by intros _; apply H2].
Qed.
Lemma recoverLoop_ok committed keys : ∀ s w s' w', codeInv s w committed → recoverLoop keys s w = (s', w') → codeInv s' w' committed.
Proof using laws.
  induction keys as [|key keys IH]; intros s w s' w' Hi; cbn [recoverLoop]; [by intros [= <- <-]|]. destruct (releaseCode key s w) as [[e1 s1] w1] eqn:E1. intros E. eapply IH; [|exact E]. by eapply releaseCode_ok.
Qed.
Lemma recoverAll_ok committed s w s' w' : codeInv s w committed → recoverAll s w = (s', w') → codeInv s' w' committed.
Proof using laws.
  intros Hi. unfold recoverAll. destruct (recoverLoop _ s _) as [s1 w1] eqn:E1. intros [= <- <-]. eapply codeInv_keeps; [|apply k_calls_ok]. eapply recoverLoop_ok; [|exact E1]. eapply codeInv_keeps; [done|apply k_calls_ok].
Qed.
(** What memory should hold once the bytes have been written. *)
Definition commit (committed : space → Z → Z) (m : space) (address : Z) (data : bytes) : space → Z → Z :=
  λ m' a, if decide (m' = m ∧ address ≤ a < address + len data) then default 0 (lget data (a - address)) else committed m' a.
Lemma writeCode_ok committed identity address data img s w r s' w' : codeInv s w committed → writeCode identity address data img s w = (r, s', w') →
  match r with
  | inl _ => codeInv s' w' committed
  | inr n => n = len data ∧ (data = [] ∧ codeInv s' w' committed ∨ ∃ m, k_owner m = keyOf identity ∧ codeInv s' w' (commit committed m address data))
  end.
Proof using laws.
  intros Hi. unfold writeCode. destruct (bool_decide_reflect (data = [])) as [->|Hd]; [intros [= <- <- <-]; split; [done|]; by left|].
  destruct (recover identity s w) as [[[e1|] s1] w1] eqn:E1; destruct (recover_ok _ _ _ _ _ _ _ Hi E1) as [H1 Hnone]; [by intros [= <- <- <-]|]. destruct (k_callsPending _ _ _ w1); [by intros [= <- <- <-]|].
  assert (Hlen : 0 < len data) by (destruct (chunk_facts data Hd) as [? _]; lia). destruct (prepare identity address (len data) img w1) as [[e2|rec] w2] eqn:E2; apply prepare_ok in E2 as [K2 Hrec]; try done; (assert (H2 : codeInv s1 w2 committed) by by eapply codeInv_keeps); [by intros [= <- <- <-]|].
  destruct (Hrec rec eq_refl) as (Haddr & Hatt & Horig & Hholds & Hown). rewrite (Hnone eq_refl). rewrite <- Hown in *. specialize (Hnone eq_refl).
  assert (Hclean : ∀ a, k_alive w2 (cw_fd rec) → k_stable (cw_fd rec) a → k_byte w2 (cw_fd rec) a = committed (cw_fd rec) a) by (intros a Ha Hs; apply (proj2 H2); [done..|]; intros r'; by rewrite Hnone).
  assert (Ho : owned committed w2 rec).
  { split; [lia|]. intros Ha. split; [|intros a Hs _; by apply Hclean]. intros i x Hx Hs. rewrite <- Hclean by done. rewrite Haddr in *. by apply Hholds. }
  assert (Hone : ∀ r', s1 !! k_owner (cw_fd rec) = Some r' → cw_fd r' = cw_fd rec) by (intros r'; by rewrite Hnone).
  destruct (write rec data w2) as [[e3 r3] w3] eqn:E3. destruct (codeWrite_ok _ _ _ _ _ _ _ Ho E3) as (Ho3 & K3 & Hfd3 & Hok). destruct e3 as [e3|].
  - destruct (restore r3 w3) as [[e4 r4] w4] eqn:E4. destruct (restore_ok _ _ _ _ _ _ Ho3 E4) as (Ho4 & K4 & Hfd4 & Hn4 & Hg4).
    assert (Kall : keepsBut (λ m' _, m' = cw_fd rec) w2 w4) by (eapply keepsBut_trans; (eapply keepsBut_mono; [|eassumption]); intros m' a ->%touches_at; congruence).
    assert (Hdrop : (∀ a, k_alive w4 (cw_fd rec) → k_stable (cw_fd rec) a → k_byte w4 (cw_fd rec) a = committed (cw_fd rec) a) → codeInv s1 w4 committed).
    { intros H. rewrite <- (delete_id s1 (k_owner (cw_fd rec))) by done. by apply (codeInv_at _ w2 _ committed _ _ None). }
    destruct e4 as [e4|]; [destruct (gone e4) eqn:Eg|]; intros [= <- <- <-].
    + apply Hdrop. intros a Ha. rewrite <- Hfd3 in Ha. by destruct (Hg4 e4 eq_refl Eg).
    + apply (codeInv_at _ w2 _ committed _ _ (Some r4)); [done..|]. split; [congruence|done].
    + apply Hdrop. intros a Ha Hs. assert (Hfd : cw_fd r4 = cw_fd rec) by congruence. rewrite <- Hfd in *. apply (proj2 Ho4 Ha); [done|]. rewrite (Hn4 eq_refl). lia.
  - intros [= <- <- <-]. destruct (Hok eq_refl) as (_ & _ & Hw). split; [done|]. right. exists (cw_fd rec). split; [done|]. rewrite <- (delete_id s1 (k_owner (cw_fd rec))) by done.
    apply (codeInv_at _ w2 _ committed _ _ None); [done|eapply keepsBut_mono; [|exact K3]; apply touches_at|done|unfold commit; intros m' a Hne; rewrite decide_False by tauto; done|].
    intros a Ha Hs. unfold commit. destruct (K3 _ Ha) as [Ha2 Hb]. case_decide as Hin.
    + destruct Hin as [_ Hin]. rewrite Haddr in Hw. set (i := Z.to_nat (a - address)). assert (Ei : a = address + Z.of_nat i) by lia. destruct (lookup_lt_is_Some_2 data i) as [x Hx]; [unfold len in *; lia|].
      replace (a - address) with (Z.of_nat i) by lia. rewrite lget_nat, Hx. rewrite Ei in *. by apply Hw.
    + rewrite Hb; [by apply Hclean|done|]. unfold touches, within. rewrite Haddr, Horig. tauto.
Qed.

(** ** Restoring on a kernel that answers *)

(** From here on every read and write of the space is whole. *)
Definition responsive (m : space) (w : world) : Prop := ∃ Good : world → Prop, Good w ∧ ∀ w, Good w →
  k_alive w m ∧ (∀ a n, 0 < n → ∃ b w1, k_pread m a n w = (IoCount b, w1) ∧ len b = n ∧ Good w1) ∧
  (∀ a d, d ≠ [] → ∃ w1, k_pwrite m a d w = (IoCount (len d), w1) ∧ Good w1).
Section Responsive.
Context (m : space) (Good : world → Prop) (HGood : ∀ w, Good w →
  k_alive w m ∧ (∀ a n, 0 < n → ∃ b w1, k_pread m a n w = (IoCount b, w1) ∧ len b = n ∧ Good w1) ∧
  (∀ a d, d ≠ [] → ∃ w1, k_pwrite m a d w = (IoCount (len d), w1) ∧ Good w1)).
Lemma verifyLoop_responsive fuel : ∀ a d w, (length d < fuel)%nat → Good w → (∀ i, 0 ≤ i < len d → k_stable m (a + i)) → ∃ e w', verifyLoop fuel m a d w = (e, w') ∧ Good w' ∧
  (holds w m a d → e = None) ∧ (∀ e', e = Some e' → e' = EIO).
Proof using HGood laws.
  induction fuel as [|fuel IH]; intros a d w Hf Hg Hst; [lia|]. cbn [verifyLoop]. destruct (bool_decide_reflect (d = [])) as [->|Hd]; [by exists None, w|].
  destruct (chunk_facts d Hd) as (Hn & L & Hdrop & Ldrop). set (n := Z.min chunkSize (len d)) in *.
  destruct (HGood w Hg) as (_ & Hread & _). destruct (Hread a n) as (b & w1 & E & Lb & Hg1); [lia|]. pose proof (k_pread_ok m a n w) as [Hk Hr]. rewrite E in Hk, Hr. cbn [fst snd] in *.
  unfold preadAll. assert (E' : preadRetry (k_patience w) m a n w = (inr b, w1)) by (destruct (k_patience w); cbn [preadRetry]; by rewrite E). rewrite E'. rewrite (proj2 (Z.eqb_neq (len b) 0)) by lia. rewrite Lb, Z.eqb_refl. cbn [negb orb].
  destruct (bool_decide_reflect (b = slice d 0 n)) as [->|Hne]; cbn [negb].
  - destruct (IH (a + n) (drop (Z.to_nat n) d) w1) as (e & w2 & E2 & Hg2 & H2 & H3); [lia|done|intros i Hi; rewrite <- Z.add_assoc; apply Hst; lia|]. exists e, w2. split; [done|]. split; [done|]. split; [|done].
    intros Hh. apply H2. intros Ha1 i x Hi Hs. destruct (Hk _ Ha1) as [Ha Hb]. rewrite Hb by (done || tauto). rewrite lookup_drop in Hi. specialize (Hh Ha _ _ Hi).
    replace (a + Z.of_nat (Z.to_nat n + i)) with (a + n + Z.of_nat i) in Hh by lia. by apply Hh.
  - exists (Some EIO), w1. split; [done|]. split; [done|]. split; [|by intros ? [= <-]]. intros Hh. exfalso. apply Hne. apply list_eq. intros i. destruct (HGood w1 Hg1) as [Ha1 _]. destruct (Hk _ Ha1) as [Ha Hb].
    destruct (decide (i < length b)%nat) as [Hi|]; [|rewrite !lookup_ge_None_2; [done|unfold len in *; lia|lia]].
    destruct (lookup_lt_is_Some_2 b i Hi) as [x Hx]. destruct (lookup_lt_is_Some_2 (slice d 0 n) i) as [y Hy]; [unfold len in *; lia|]. rewrite Hx, Hy. f_equal.
    assert (Hs : k_stable m (a + Z.of_nat i)) by (apply Hst; unfold len in *; lia). destruct Hr as [Hr _]. specialize (Hr Ha1 _ _ Hx Hs). unfold slice in Hy. apply lookup_take_Some in Hy as [Hy _]. specialize (Hh Ha _ _ Hy Hs). rewrite Hb in Hr by (done || tauto). congruence.
Qed.
Lemma restoreLoop_responsive fuel : ∀ a d w, (length d < fuel)%nat → Good w → ∃ w', restoreLoop fuel m a d w = (None, w') ∧ Good w' ∧ holds w' m a d.
Proof using HGood laws.
  induction fuel as [|fuel IH]; intros a d w Hf Hg; [lia|]. cbn [restoreLoop]. destruct (bool_decide_reflect (d = [])) as [->|Hd]; [exists w; split; [done|]; split; [done|]; by intros ? i x Hi|].
  destruct (chunk_facts d Hd) as (Hn & L & Hdrop & Ldrop). set (n := Z.min chunkSize (len d)) in *.
  destruct (HGood w Hg) as (_ & _ & Hwrite). destruct (Hwrite a (slice d 0 n)) as (w1 & E & Hg1); [intros E0; rewrite E0, len_nil in L; lia|].
  unfold pwriteAll. assert (E' : pwriteRetry (k_patience w) m a (slice d 0 n) w = (inr n, w1)) by (destruct (k_patience w); cbn [pwriteRetry]; by rewrite E, L). rewrite E'. apply pwriteRetry_ok in E' as (_ & _ & Hh & _).
  rewrite (proj2 (Z.eqb_neq n 0)), Z.eqb_refl by lia. cbn [negb]. destruct (IH (a + n) (drop (Z.to_nat n) d) w1) as (w2 & E2 & Hg2 & Hh2); [lia|done|]. exists w2. split; [done|]. split; [done|].
  rewrite <- (slice_drop_eq d n) by lia. apply holds_app; [|by rewrite L]. apply restoreLoop_ok in E2 as [K2 _]; [|lia]. intros Ha2 i x Hi Hs. destruct (K2 _ Ha2) as [Ha1 Hb]. rewrite Hb; [|done|].
  - pose proof (slice_all (slice d 0 n)) as Es. rewrite L in Es. rewrite Es in Hh. by apply Hh.
  - unfold within. intros [_ Hin]. apply lookup_lt_Some in Hi. unfold len in *. lia.
Qed.
End Responsive.
Lemma restore_responsive r w : 0 ≤ cw_attempted r ≤ len (cw_original r) → responsive (cw_fd r) w → (∀ i, 0 ≤ i < cw_attempted r → k_stable (cw_fd r) (cw_address r + i)) →
  ∃ r' w', restore r w = (None, r', w').
Proof using laws.
  intros Hl (Good & Hg & HG) Hst. unfold restore. destruct (negb (changed r)); [by do 2 eexists|]. set (original := slice _ 0 _). assert (Lo : len original = cw_attempted r) by (apply len_slice; lia). rewrite <- Lo in Hst.
  unfold verify. destruct (verifyLoop_responsive _ Good HG (chunkFuel (len original)) (cw_address r) original w) as (e1 & w1 & -> & Hg1 & _ & He1); [unfold chunkFuel, len; lia|done..|]. destruct e1 as [e1|]; [|by do 2 eexists].
  rewrite (He1 _ eq_refl). destruct (restoreLoop_responsive _ Good HG (chunkFuel (len original)) (cw_address r) original w1) as (w2 & -> & Hg2 & Hh2); [unfold chunkFuel, len; lia|done|]. change (EIO =? ECANCELED) with false. cbv iota.
  destruct (verifyLoop_responsive _ Good HG (chunkFuel (len original)) (cw_address r) original w2) as (e3 & w3 & -> & _ & H3 & _); [unfold chunkFuel, len; lia|done..|]. rewrite (H3 Hh2). by do 2 eexists.
Qed.

(** ** The service as a step relation *)

(** A write of code that succeeded. *)
Record CodeEvent := mkEvent { ev_key : Z * Z; ev_address : Z; ev_data : bytes }.
(** [execute], [recover] and [invoke] release the record of a process first; every job is
    followed by [recoverAll]; the target and the other system calls change what is not stable. *)
Inductive codeStep : codeRecords * world → option CodeEvent → codeRecords * world → Prop :=
  | WritesCode identity address data img s w n s' w' : writeCode identity address data img s w = (inr n, s', w') → codeStep (s, w) (Some (mkEvent (keyOf identity) address data)) (s', w')
  | FailsToWrite identity address data img s w e s' w' : writeCode identity address data img s w = (inl e, s', w') → codeStep (s, w) None (s', w')
  | Recovers identity s w e s' w' : recover identity s w = (e, s', w') → codeStep (s, w) None (s', w')
  | Releases key s w e s' w' : releaseCode key s w = (e, s', w') → codeStep (s, w) None (s', w')
  | RecoversAll s w s' w' : recoverAll s w = (s', w') → codeStep (s, w) None (s', w')
  | TargetRuns s w w' : keeps w w' → codeStep (s, w) None (s, w').
Inductive serves : codeRecords * world → list CodeEvent → codeRecords * world → Prop :=
  | ServesNothing c : serves c [] c
  | ServesMore c events c' o c'' : serves c events c' → codeStep c' o c'' → serves c (events ++ option_list o) c''.
(** What memory should hold after these writes: each is whole, in the order given. *)
Inductive committedBy (c : space → Z → Z) : list CodeEvent → (space → Z → Z) → Prop :=
  | CommittedNone : committedBy c [] c
  | CommittedMore events c' m e : committedBy c events c' → k_owner m = ev_key e → committedBy c (events ++ [e]) (commit c' m (ev_address e) (ev_data e))
  | CommittedEmpty events c' key address : committedBy c events c' → committedBy c (events ++ [mkEvent key address []]) c'.
Lemma serves_inv s w events s' w' : serves (s, w) events (s', w') → codeInv s w (k_byte w) → ∃ committed, committedBy (k_byte w) events committed ∧ codeInv s' w' committed.
Proof using laws.
  intros H Hi. remember (s, w) as c eqn:Ec. remember (s', w') as c' eqn:Ec'. revert s' w' Ec'. induction H as [c|c events c' o c'' _ IH Hs]; intros s' w' ->; [injection Ec as -> ->; exists (k_byte w); split; [constructor|done]|]. destruct c' as [s1 w1].
  destruct (IH Ec _ _ eq_refl) as (C & HC & Hi1). inversion Hs; subst; cbn [option_list]; rewrite ?app_nil_r.
  - destruct (writeCode_ok _ _ _ _ _ _ _ _ _ _ Hi1 ltac:(eassumption)) as [_ [[-> H]|(m & Hm & H)]]; [exists C; by split; [constructor|]|]. eexists. split; [|exact H]. by apply (CommittedMore _ _ _ m (mkEvent _ _ _)).
  - exists C. split; [done|]. match goal with E : writeCode _ _ _ _ _ _ = _ |- _ => exact (writeCode_ok _ _ _ _ _ _ _ _ _ _ Hi1 E) end.
  - exists C. split; [done|]. by eapply recover_ok.
  - exists C. split; [done|]. by eapply releaseCode_ok.
  - exists C. split; [done|]. by eapply recoverAll_ok.
  - exists C. split; [done|]. by eapply codeInv_keeps.
Qed.
Lemma codeInv_begins w : codeInv ∅ w (k_byte w).
Proof using. by split. Qed.
(** After a record was restored, its space holds what it should. *)
Lemma record_restored committed s w r r' w' : codeInv s w committed → s !! k_owner (cw_fd r) = Some r → restore r w = (None, r', w') →
  ∀ a, k_alive w' (cw_fd r) → k_stable (cw_fd r) a → k_byte w' (cw_fd r) a = committed (cw_fd r) a.
Proof using laws.
  intros Hi Hr E a Ha Hs. destruct (proj1 Hi _ _ Hr) as [_ Ho]. destruct (restore_ok _ _ _ _ _ _ Ho E) as (Ho' & _ & Hfd & H0 & _). rewrite <- Hfd in *. apply (proj2 Ho' Ha); [done|]. rewrite (H0 eq_refl). lia.
Qed.

(** C14: However the calls of the kernel fail, stop short or are interrupted, writing code is all
    or nothing: in every state the service reaches, the code of a live process holds exactly
    the writes that were reported as done, each whole and in order, unless a record is pending
    for it; a pending record covers every byte that may differ, restoring it makes all of the
    code what it should be, and restoring succeeds as soon as the kernel answers again. *)
Theorem code_writes_atomic w events s' w' : serves (∅, w) events (s', w') → ∃ committed, committedBy (k_byte w) events committed ∧
  ∀ m, k_alive w' m →
    (∀ a, k_stable m a → (∀ r, s' !! k_owner m = Some r → cw_fd r = m → ¬ (cw_address r ≤ a < cw_address r + cw_attempted r)) → k_byte w' m a = committed m a) ∧
    ∀ r, s' !! k_owner m = Some r → cw_fd r = m →
      (∀ r'' w'', restore r w' = (None, r'', w'') → ∀ a, k_alive w'' m → k_stable m a → k_byte w'' m a = committed m a) ∧
      (responsive m w' → (∀ i, 0 ≤ i < cw_attempted r → k_stable m (cw_address r + i)) → ∃ r'' w'', restore r w' = (None, r'', w'')).
Proof using laws.
  intros H. destruct (serves_inv _ _ _ _ _ H (codeInv_begins w)) as (C & HC & Hi). exists C. split; [done|]. intros m Ha. split.
  - intros a Hs Hout. destruct (s' !! k_owner m) as [r|] eqn:Er; [destruct (decide (cw_fd r = m)) as [<-|Hne]|].
    + destruct (proj1 Hi _ _ Er) as [_ Ho]. apply (proj2 Ho Ha); [done|]. by apply Hout.
    + apply (proj2 Hi); [done..|]. intros r2 Hr2. congruence.
    + apply (proj2 Hi); [done..|]. intros r2 Hr2. congruence.
  - intros r Er <-. destruct (proj1 Hi _ _ Er) as [_ Ho]. split; [intros r'' w'' E a; by eapply record_restored|]. apply restore_responsive, Ho.
Qed.
End Kernel.

(** ** A kernel whose writes fail *)

(** Eight bytes of code; each fault lets a write change so many bytes and then fail. *)
Record FaultyWorld := mkFaulty { fw_code : bytes; fw_faults : list Z }.
Definition faultyIdentity : TargetProcessIdentity := mkIdentity 7 100 1 1.
Definition faultyPatch (code : bytes) (a : Z) (d : bytes) : bytes := take (Z.to_nat a) code ++ d ++ drop (Z.to_nat (a + len d)) code.
Definition faultyPread (_ : unit) (a n : Z) (w : FaultyWorld) : Io bytes * FaultyWorld :=
  if (0 <=? a) && (0 <? n) && (a + n <=? len (fw_code w)) then (IoCount (slice (fw_code w) a n), w) else (IoFailed EIO, w).
Definition faultyPwrite (_ : unit) (a : Z) (d : bytes) (w : FaultyWorld) : Io Z * FaultyWorld :=
  if (0 <=? a) && (0 <? len d) && (a + len d <=? len (fw_code w)) then
    match fw_faults w with
    | [] => (IoCount (len d), mkFaulty (faultyPatch (fw_code w) a d) [])
    | k :: faults => (IoFailed EIO, mkFaulty (faultyPatch (fw_code w) a (take (Z.to_nat k) d)) faults)
    end
  else (IoFailed EIO, w).
#[export] Instance faultyKernel : CodeKernel := {|
  world := FaultyWorld; space := unit; image := unit; k_patience := λ _, O; k_pread := faultyPread; k_pwrite := faultyPwrite;
  k_imageIdentity := λ _, faultyIdentity; k_duplicateFd := λ _ w, (inr (), w); k_memoryIdentity := λ _ w, (inr faultyIdentity, w); k_memoryTask := λ p w, (inr p, w);
  k_taskIdentity := λ _ w, (inr faultyIdentity, w); k_ownedByCaller := λ _ w, (true, w); k_open := λ _ w, (inr (), w); k_recoverCalls := λ _ w, (None, w);
  k_recoverAllCalls := λ w, w; k_retryRecords := λ w, w; k_callsPending := λ _ _ _ _, false |}.
#[export] Instance faultyMemory : CodeMemory faultyKernel := {|
  k_byte := λ w _ a, default 0 (lget (fw_code w) a); k_alive := λ _ _, True; k_stable := λ _ a, 0 ≤ a < 8; k_owner := λ _, (7, 100); k_space_eq := unit_eq_dec |}.
Lemma faultyPatch_outside code a d x : 0 ≤ a → a + len d ≤ len code → ¬ (a ≤ x < a + len d) → lget (faultyPatch code a d) x = lget code x.
Proof.
  intros Ha Hl Hx. unfold faultyPatch. unfold lget. destruct (Z.leb_spec 0 x); [|done]. pose proof (len_nonneg d). unfold len in *. destruct (decide (x < a)).
  - rewrite lookup_app_l by (rewrite length_take; lia). apply lookup_take_lt. lia.
  - rewrite lookup_app_r by (rewrite length_take; lia). rewrite length_take_le by lia. rewrite lookup_app_r by lia. rewrite lookup_drop. f_equal. lia.
Qed.
Lemma faultyPatch_inside code a d i : 0 ≤ a → a + len d ≤ len code → (i < length d)%nat → lget (faultyPatch code a d) (a + Z.of_nat i) = d !! i.
Proof.
  intros Ha Hl Hi. unfold faultyPatch, lget. rewrite (proj2 (Z.leb_le 0 _)) by lia. unfold len in *. rewrite lookup_app_r by (rewrite length_take; lia). rewrite length_take_le by lia. rewrite lookup_app_l by lia. f_equal. lia.
Qed.
#[export] Instance faultyLaws : CodeKernelLaws faultyKernel faultyMemory.
Proof.
  split; cbn.
  - intros m a n w. unfold faultyPread. destruct (_ && _) eqn:G; cbn; (split; [apply keepsBut_refl|]); [|done]. apply andb_true_iff in G as [[G1%Z.leb_le G2%Z.ltb_lt]%andb_true_iff G3%Z.leb_le]. split.
    + intros _ i x Hi _. cbn. assert (Hin : (i < Z.to_nat n)%nat) by (apply lookup_lt_Some in Hi; unfold slice in Hi; rewrite length_take in Hi; lia).
      rewrite <- lget_nat, lget_slice in Hi by lia. by rewrite Hi.
    + intros E. assert (L : len (slice (fw_code w) a n) = n) by (apply len_slice; lia). rewrite E, len_nil in L. lia.
  - intros m a d w. unfold faultyPwrite. destruct (_ && _) eqn:G; cbn; [|split; [apply keepsBut_refl|done]]. apply andb_true_iff in G as [[G1%Z.leb_le G2%Z.ltb_lt]%andb_true_iff G3%Z.leb_le].
    assert (Hk : ∀ d' faults, len d' ≤ len d → keepsBut (within m a (len d)) w (mkFaulty (faultyPatch (fw_code w) a d') faults)).
    { intros d' faults Hd m' _. split; [done|]. intros x _ Hx. cbn. destruct m, m'. rewrite faultyPatch_outside; [done|done|lia|]. intros Hin. apply Hx. split; [done|lia]. }
    destruct (fw_faults w) as [|k faults]; cbn.
    + split; [lia|]. split; [by apply Hk|]. split; [|lia]. intros _ i x Hi _. cbn. rewrite slice_all in Hi. pose proof (lookup_lt_Some _ _ _ Hi). by rewrite faultyPatch_inside, Hi by done.
    + split; [|done]. apply Hk. unfold len. rewrite length_take. lia.
  - intros w. repeat split; done.
  - intros w. repeat split; done.
  - intros identity img w m w'. unfold attach. destruct img as [[]|]; cbn; case_bool_decide as E; cbn; try done; intros _; by rewrite <- E.
Qed.
(** A write that changes one byte and fails, with a restore that fails as well: the record is pending. *)
Lemma code_writes_atomic_witness :
  let w := mkFaulty [1; 2; 3; 4; 5; 6; 7; 8] [1; 0] in
  ∃ s' w', serves (∅, w) [] (s', w') ∧ fw_code w' = [1; 2; 90; 4; 5; 6; 7; 8] ∧ cw_attempted <$> (s' !! (7, 100)) = Some 3 ∧
    ∃ committed, committedBy (k_byte w) [] committed ∧
      ∀ m, k_alive w' m →
        (∀ a, k_stable m a → (∀ r, s' !! k_owner m = Some r → cw_fd r = m → ¬ (cw_address r ≤ a < cw_address r + cw_attempted r)) → k_byte w' m a = committed m a) ∧
        ∀ r, s' !! k_owner m = Some r → cw_fd r = m →
          (∀ r'' w'', restore r w' = (None, r'', w'') → ∀ a, k_alive w'' m → k_stable m a → k_byte w'' m a = committed m a) ∧
          (responsive m w' → (∀ i, 0 ≤ i < cw_attempted r → k_stable m (cw_address r + i)) → ∃ r'' w'', restore r w' = (None, r'', w'')).
Proof.
  cbv zeta. set (w := mkFaulty _ _). eexists _, _.
  assert (H : serves (K := faultyKernel) (∅, w) [] ({[ (7, 100) := mkRecovery () 2 3 [3; 4; 5] ]}, mkFaulty [1; 2; 90; 4; 5; 6; 7; 8] [])).
  { apply (ServesMore (K := faultyKernel) _ [] (∅, w) None); [constructor|]. apply (FailsToWrite (K := faultyKernel) faultyIdentity 2 [90; 91; 92] None _ _ ENOTRECOVERABLE). vm_compute. reflexivity. }
  split; [exact H|]. split; [reflexivity|]. split; [reflexivity|]. apply (code_writes_atomic (K := faultyKernel) w [] _ _ H).
Defined.
