(* ===== verification/PerfRing.v ===== *)
(** * The perf ring buffers

    Models [src/debug/perf_ring.cpp]: what the branch tracer takes out of the ring the kernel
    fills.  The control page of a mapping is a record of its fields; the rest of the mapping is
    its bytes.  Records and branch entries have the layout of the Linux perf ABI. *)

From S2P Require Import Prelude.
#[local] Open Scope Z_scope.

(** [perf_event_mmap_page]. *)
Record Control := mkControl { pc_data_offset : Z; pc_data_size : Z; pc_data_head : Z; pc_data_tail : Z; pc_aux_offset : Z; pc_aux_size : Z; pc_aux_head : Z; pc_aux_tail : Z }.
Definition withDataTail (c : Control) (tail : Z) : Control :=
  mkControl (pc_data_offset c) (pc_data_size c) (pc_data_head c) tail (pc_aux_offset c) (pc_aux_size c) (pc_aux_head c) (pc_aux_tail c).
Definition withAuxTail (c : Control) (tail : Z) : Control :=
  mkControl (pc_data_offset c) (pc_data_size c) (pc_data_head c) (pc_data_tail c) (pc_aux_offset c) (pc_aux_size c) (pc_aux_head c) tail.
(** The mapping: its control page, whether it is aligned, and all its bytes. *)
Record Mapping := mkMapping { mp_control : Control; mp_aligned : bool; mp_bytes : bytes }.
Record LbrEntry := mkLbr { lbr_from : Z; lbr_to : Z; lbr_mispred : bool; lbr_predicted : bool }.

(** [sizeof] of the control page, a record header and a branch entry, and the type of a sample. *)
Definition controlBytes : Z := 1088.
Definition headerBytes : Z := 8.
Definition entryBytes : Z := 24.
Definition PERF_RECORD_SAMPLE : Z := 9.

Definition has_single_bit (n : Z) : bool := (0 <? n) && (Z.land n (n - 1) =? 0).
(** [dataRing]: the offset and the bytes of the data ring. *)
Definition dataRing (m : Mapping) (pageSize : Z) : outcome (option (Z * bytes)) :=
  if (pageSize <? controlBytes) || negb (has_single_bit pageSize) || (len (mp_bytes m) <? pageSize) || negb (mp_aligned m) then Ret None else
  let '(offset, size) := (pc_data_offset (mp_control m), pc_data_size (mp_control m)) in
  let '(offset, size) := if (offset =? 0) && (size =? 0) then (pageSize, len (mp_bytes m) - pageSize) else (offset, size) in
  if (offset <? pageSize) || negb (offset mod pageSize =? 0) || (len (mp_bytes m) <? offset) || (size =? 0) || negb (has_single_bit size)
    || (len (mp_bytes m) - offset <? size) || negb (size mod pageSize =? 0) then Ret None else
  let* ring := subspan (mp_bytes m) offset size in Ret (Some (offset, ring)).
Definition copyRing (ring : bytes) (position count : Z) : outcome bytes :=
  let offset := position mod len ring in
  let first := Z.min count (len ring - offset) in
  let* a := subspan ring offset first in
  let* b := if first <? count then subspan ring 0 (count - first) else Ret [] in
  Ret (a ++ b).
Definition perfMappingSize (pageSize pages : Z) : option (Z * Z) :=
  if (pages <=? 0) || (pageSize <? controlBytes) || negb (has_single_bit pageSize) then None else
  let rounded := 2 ^ Z.log2_up pages in
  if SIZE_MAX / pageSize - 1 <? rounded then None else Some (rounded * pageSize, (rounded + 1) * pageSize).
(** One [perf_branch_entry]. *)
Definition branchEntry (b : bytes) : LbrEntry :=
  let flags := le_val (slice b 16 8) in mkLbr (le_val (slice b 0 8)) (le_val (slice b 8 8)) (bit flags 0) (bit flags 1).
Fixpoint entryLoop (ring : bytes) (position : Z) (n : nat) : outcome (list LbrEntry) :=
  match n with
  | O => Ret []
  | S n =>
      let* b := copyRing ring position entryBytes in
      let* rest := entryLoop ring (u64 (position + entryBytes)) n in Ret (branchEntry b :: rest)
  end.
(** The loop over the records: what was drained and the new tail. *)
Fixpoint drainLoop (ring : bytes) (head : Z) (fuel : nat) (tail available : Z) : outcome (list LbrEntry * Z) :=
  match fuel with
  | O => Undefined
  | S fuel =>
      if available <? headerBytes then Ret ([], if negb (available =? 0) then head else tail) else
      let* header := copyRing ring tail headerBytes in
      let type := le_val (slice header 0 4) in
      let size := le_val (slice header 6 2) in
      if (size <? headerBytes) || (available <? size) || (len ring <? size) then Ret ([], head) else
      let* entries :=
        if (type =? PERF_RECORD_SAMPLE) && (headerBytes + 8 <=? size) then
          let* c := copyRing ring (u64 (tail + headerBytes)) 8 in
          let count := le_val c in
          if count <=? (size - headerBytes - 8) / entryBytes then entryLoop ring (u64 (tail + headerBytes + 8)) (Z.to_nat count) else Ret []
        else Ret [] in
      let* rest := drainLoop ring head fuel (u64 (tail + size)) (available - size) in
      Ret (entries ++ rest.1, rest.2)
  end.
Definition drainPerfBranches (m : Mapping) (pageSize : Z) : outcome (list LbrEntry * Mapping) :=
  let* r := dataRing m pageSize in
  match r with
  | None => Ret ([], m)
  | Some (_, ring) =>
      let c := mp_control m in
      let head := pc_data_head c in
      let tail := pc_data_tail c in
      let available := u64 (head - tail) in
      if len ring <? available then Ret ([], mkMapping (withDataTail c head) (mp_aligned m) (mp_bytes m)) else
      let* r := drainLoop ring head (Z.to_nat (available / headerBytes + 1)) tail available in
      Ret (r.1, mkMapping (withDataTail c r.2) (mp_aligned m) (mp_bytes m))
  end.
Definition drainPerfAux (m : Mapping) (auxiliary : bytes) (pageSize : Z) : outcome (bytes * Mapping) :=
  let* r := dataRing m pageSize in
  match r with
  | None => Ret ([], m)
  | Some (offset, ring) =>
      let c := mp_control m in
      if bool_decide (auxiliary = []) || negb (has_single_bit (len auxiliary)) || negb (len auxiliary mod pageSize =? 0) then Ret ([], m) else
      let dataEnd := offset + len ring in
      if negb (pc_aux_size c =? len auxiliary) || (pc_aux_offset c <? dataEnd) || negb (pc_aux_offset c mod pageSize =? 0) then Ret ([], m) else
      let head := pc_aux_head c in
      let tail := pc_aux_tail c in
      let available := u64 (head - tail) in
      let* out := if available <=? len auxiliary then (if available =? 0 then Ret [] else copyRing auxiliary tail available) else Ret [] in
      Ret (out, mkMapping (withDataTail (withAuxTail c head) (pc_data_head c)) (mp_aligned m) (mp_bytes m))
  end.
