(* ===== verification/PerfRingSpec.v ===== *)
(** * The perf ring buffers: kernel and reader

    The kernel writes records into the ring while the reader drains it: every branch sampled
    is drained once, in order, however often the ring and its counters wrap. *)

From S2P Require Import Prelude PerfRing.
#[local] Open Scope Z_scope.

(** ** Powers of two *)

Lemma has_single_bit_pow n : has_single_bit n = true → ∃ k, 0 ≤ k ∧ n = 2 ^ k.
Proof.
  unfold has_single_bit. rewrite andb_true_iff, Z.ltb_lt, Z.eqb_eq. intros [Hn Hl]. exists (Z.log2 n). pose proof (Z.log2_nonneg n). split; [done|].
  destruct (Z.log2_spec n Hn) as [H1 H2]. destruct (Z.eq_dec n (2 ^ Z.log2 n)) as [|Hne]; [done|]. exfalso.
  assert (E : Z.log2 (n - 1) = Z.log2 n) by (apply Z.log2_unique; lia). assert (Hb : Z.testbit (Z.land n (n - 1)) (Z.log2 n) = true).
  { rewrite Z.land_spec, Z.bit_log2 by done. rewrite <- E at 1. apply Z.bit_log2. pose proof (Z.pow_pos_nonneg 2 (Z.log2 n)). lia. }
  by rewrite Hl, Z.bits_0 in Hb.
Qed.
Lemma pow_mod_u64 n p : has_single_bit n = true → n < 2 ^ 64 → u64 p mod n = p mod n.
Proof.
  intros (k & Hk & ->)%has_single_bit_pow Hn. apply Z.pow_lt_mono_r_iff in Hn; [|lia|lia]. unfold wrap. symmetry. apply Znumtheory.Zmod_div_mod; [apply Z.pow_pos_nonneg; lia|lia|].
  exists (2 ^ (64 - k)). rewrite <- Z.pow_add_r by lia. f_equal. lia.
Qed.

(** ** Copies *)

Definition ringByte (ring : bytes) (a : Z) : Z := default 0 (lget ring (a mod len ring)).
Definition window (ring : bytes) (p n : Z) : bytes := bytesAt (ringByte ring) p n.
Lemma lget_bytesAt mem a n i : 0 ≤ i < n → lget (bytesAt mem a n) i = Some (mem (a + i)).
Proof. intros Hi. unfold lget, bytesAt. rewrite (proj2 (Z.leb_le 0 i)) by lia. rewrite list_lookup_fmap, lookup_seqZ_lt by lia. cbn. do 2 f_equal. lia. Qed.
Lemma list_lget_eq (l k : bytes) : len l = len k → (∀ i, 0 ≤ i < len l → lget l i = lget k i) → l = k.
Proof.
  intros Hl H. apply list_eq. intros i. rewrite <- !lget_nat. destruct (Z.lt_ge_cases (Z.of_nat i) (len l)); [apply H; lia|]. rewrite !lget_ge by lia. done.
Qed.
Lemma mod_sub a n : 0 < n → a mod n + n - n * 1 = a mod n.
Proof. lia. Qed.
Lemma copyRing_window ring p n : 0 < len ring → 0 ≤ n ≤ len ring → copyRing ring p n = Ret (window ring p n).
Proof.
  intros Hr Hn. unfold copyRing. set (off := p mod len ring). assert (Ho : 0 ≤ off < len ring) by (apply Z.mod_pos_bound; lia). set (first := Z.min n (len ring - off)).
  destruct (subspan_defined ring off first) as [-> _]; [lia..|]. cbn [obind].
  assert (E : (if first <? n then subspan ring 0 (n - first) else Ret []) = Ret (slice ring 0 (n - first))).
  { destruct (Z.ltb_spec first n); [by destruct (subspan_defined ring 0 (n - first)) as [-> _]; [lia..|]|]. assert (n - first = 0) as -> by lia. done. }
  rewrite E. cbn [obind]. f_equal. assert (L1 : len (slice ring off first) = first) by (apply len_slice; lia). assert (L2 : len (slice ring 0 (n - first)) = n - first) by (apply len_slice; lia).
  assert (LW : len (window ring p n) = n) by (apply len_bytesAt; lia). apply list_lget_eq; [rewrite len_app; lia|]. rewrite len_app, L1, L2. intros i Hi. unfold window. rewrite lget_bytesAt by lia. unfold ringByte.
  pose proof (Z.div_mod p (len ring) ltac:(lia)) as Hd. fold off in Hd.
  destruct (Z.lt_ge_cases i first) as [Hif|Hif].
  - rewrite lget_app_l by lia. rewrite lget_slice by lia. replace ((p + i) mod len ring) with (off + i); [|apply (Z.mod_unique_pos _ _ (p / len ring)); lia].
    unfold lget. rewrite (proj2 (Z.leb_le 0 (off + i))) by lia. destruct (lookup_lt_is_Some_2 ring (Z.to_nat (off + i))) as [b ->]; [unfold len in *; lia|done].
  - rewrite lget_app_r by lia. rewrite L1. rewrite lget_slice by lia. replace ((p + i) mod len ring) with (0 + (i - first)); [|apply (Z.mod_unique_pos _ _ (p / len ring + 1)); lia].
    unfold lget. rewrite (proj2 (Z.leb_le 0 (0 + (i - first)))) by lia. destruct (lookup_lt_is_Some_2 ring (Z.to_nat (0 + (i - first)))) as [b ->]; [unfold len in *; lia|done].
Qed.
Lemma window_u64 ring p n : has_single_bit (len ring) = true → len ring < 2 ^ 64 → window ring (u64 p) n = window ring p n.
Proof.
  intros H1 H2. unfold window, bytesAt. apply list_fmap_ext. intros i j _. unfold ringByte. f_equal. f_equal.
  rewrite <- (Z.add_mod_idemp_l (u64 p)), pow_mod_u64, Z.add_mod_idemp_l; try done; apply has_single_bit_pow in H1 as (k & Hk & ->); pose proof (Z.pow_pos_nonneg 2 k); lia.
Qed.

(** ** Records *)

(** A branch as the kernel writes it, with the bits of its flags the reader ignores. *)
Definition encodeEntry (e : LbrEntry * Z) : bytes :=
  le_bytes 8 (lbr_from e.1) ++ le_bytes 8 (lbr_to e.1) ++ le_bytes 8 (Z.b2z (lbr_mispred e.1) + 2 * Z.b2z (lbr_predicted e.1) + 4 * e.2).
Definition entryOk (e : LbrEntry * Z) : Prop := is_u64 (lbr_from e.1) ∧ is_u64 (lbr_to e.1) ∧ 0 ≤ e.2 < 2 ^ 62.
Inductive Record_ :=
  | Sample (misc : Z) (entries : list (LbrEntry * Z))
  | Other (type misc : Z) (payload : bytes).
Definition payloadOf (r : Record_) : bytes := match r with Sample _ es => le_bytes 8 (len es) ++ mjoin (encodeEntry <$> es) | Other _ _ payload => payload end.
Definition typeOf (r : Record_) : Z := match r with Sample _ _ => PERF_RECORD_SAMPLE | Other type _ _ => type end.
Definition miscOf (r : Record_) : Z := match r with Sample misc _ => misc | Other _ misc _ => misc end.
Definition recordBytes (r : Record_) : Z := headerBytes + len (payloadOf r).
Definition encodeRecord (r : Record_) : bytes := le_bytes 4 (typeOf r) ++ le_bytes 2 (miscOf r) ++ le_bytes 2 (recordBytes r) ++ payloadOf r.
Definition branchesOf (r : Record_) : list LbrEntry := match r with Sample _ es => es.*1 | Other _ _ _ => [] end.
(** Records other than samples have another type; a size has 16 bits. *)
Definition recordOk (r : Record_) : Prop := recordBytes r < 65536 ∧ match r with Sample _ es => Forall entryOk es | Other type _ _ => 0 ≤ type < 2 ^ 32 ∧ type ≠ PERF_RECORD_SAMPLE end.
Lemma len_le n z : len (le_bytes n z) = Z.of_nat n.
Proof. unfold len. by rewrite length_le_bytes. Qed.
Lemma len_encodeRecord r : len (encodeRecord r) = recordBytes r.
Proof. unfold encodeRecord. rewrite !len_app, !len_le. unfold recordBytes, headerBytes. lia. Qed.
Lemma slice_app_skip (a b : bytes) off n : off = len a → 0 ≤ n ≤ len b → slice (a ++ b) off n = slice b 0 n.
Proof. intros -> Hn. unfold slice, len. change (Z.to_nat 0) with 0%nat. by rewrite Nat2Z.id, drop_app_length. Qed.
Lemma slice_app_exact (a b : bytes) n : n = len a → slice (a ++ b) 0 n = a.
Proof. intros ->. unfold slice, len. rewrite Nat2Z.id. change (Z.to_nat 0) with 0%nat. by rewrite drop_0, take_app_length. Qed.
Lemma len_encodeEntry e : len (encodeEntry e) = entryBytes.
Proof. unfold encodeEntry. by rewrite !len_app, !len_le. Qed.
Lemma branchEntry_encode e : entryOk e → branchEntry (encodeEntry e) = e.1.
Proof.
  destruct e as [[from to mis pre] rest]. intros (H1 & H2 & H3). cbn [fst snd lbr_from lbr_to] in *. unfold branchEntry, encodeEntry. cbn [fst snd lbr_from lbr_to lbr_mispred lbr_predicted].
  set (flags := Z.b2z mis + 2 * Z.b2z pre + 4 * rest). rewrite slice_app_exact by by rewrite len_le.
  assert (E2 : slice (le_bytes 8 from ++ le_bytes 8 to ++ le_bytes 8 flags) 8 8 = le_bytes 8 to) by (rewrite slice_app_skip by (rewrite ?len_app, ?len_le; lia); by rewrite slice_app_exact by by rewrite len_le).
  assert (E3 : slice (le_bytes 8 from ++ le_bytes 8 to ++ le_bytes 8 flags) 16 8 = le_bytes 8 flags).
  { rewrite app_assoc. rewrite slice_app_skip by (rewrite ?len_app, ?len_le; lia). rewrite <- (app_nil_r (le_bytes 8 flags)) at 1. by rewrite slice_app_exact by by rewrite len_le. }
  rewrite E2, E3, !le_val_le_bytes. change (256 ^ Z.of_nat 8) with (2 ^ 64). unfold in_width in *. assert (Hf : 0 ≤ flags < 2 ^ 64) by (unfold flags; destruct mis, pre; cbn [Z.b2z]; lia).
  rewrite !Z.mod_small by done. f_equal; unfold bit.
  - unfold flags. replace (Z.b2z mis + 2 * Z.b2z pre + 4 * rest) with (Z.b2z mis + 2 * (Z.b2z pre + 2 * rest)) by lia. apply Z.add_b2z_double_bit0.
  - unfold flags. replace (Z.b2z mis + 2 * Z.b2z pre + 4 * rest) with (2 * (Z.b2z pre + 2 * rest) + Z.b2z mis) by lia. change 1 with (Z.succ 0). rewrite Z.testbit_succ_r by done. apply Z.add_b2z_double_bit0.
Qed.

(** ** Windows of the ring *)

Lemma len_window ring p n : 0 ≤ n → len (window ring p n) = n.
Proof. apply len_bytesAt. Qed.
Lemma slice_window ring p n off k : 0 ≤ off → 0 ≤ k → off + k ≤ n → slice (window ring p n) off k = window ring (p + off) k.
Proof. apply slice_bytesAt. Qed.
Lemma window_split ring p n a b : window ring p n = a ++ b → 0 ≤ n → window ring p (len a) = a ∧ window ring (p + len a) (n - len a) = b.
Proof.
  intros E Hn. assert (L : len a + len b = n) by (rewrite <- len_app, <- E; by apply len_window). assert (0 ≤ len a ∧ 0 ≤ len b) as [? ?] by (unfold len; lia). split.
  - rewrite <- (Z.add_0_r p), <- (slice_window _ _ n) by lia. rewrite E. by apply slice_app_exact.
  - rewrite <- (slice_window _ _ n) by lia. rewrite E, slice_app_skip by lia. replace (n - len a) with (len b) by lia. apply slice_all.
Qed.

(** ** Draining what was written *)

Lemma mjoin_cons {A} (x : list A) l : mjoin (x :: l) = x ++ mjoin l.
Proof. done. Qed.

Section Drain.
Context (ring : bytes) (Hbit : has_single_bit (len ring) = true) (Hlen : len ring < 2 ^ 64).
Lemma ring_nonempty : 0 < len ring.
Proof using Hbit. apply has_single_bit_pow in Hbit as (k & Hk & ->). apply Z.pow_pos_nonneg; lia. Qed.
Lemma copyRing_u64 p n : 0 ≤ n ≤ len ring → copyRing ring (u64 p) n = Ret (window ring p n).
Proof using Hbit Hlen. intros Hn. rewrite copyRing_window by (pose proof ring_nonempty; lia). by rewrite window_u64. Qed.
Lemma entryLoop_entries es p : entryBytes * len es ≤ len ring → Forall entryOk es → window ring p (entryBytes * len es) = mjoin (encodeEntry <$> es) →
  entryLoop ring (u64 p) (length es) = Ret es.*1.
Proof using Hbit Hlen.
  revert p. induction es as [|e es IH]; intros p Hl Hes E; [done|]. inversion Hes; subst. rewrite len_cons in *. assert (0 ≤ len es) by (unfold len; lia). unfold entryBytes in *. rewrite fmap_cons, mjoin_cons in E.
  apply window_split in E as [E1 E2]; [|lia]. rewrite len_encodeEntry in E1, E2. unfold entryBytes in *. cbn [length entryLoop]. unfold entryBytes at 1. rewrite copyRing_u64 by lia. rewrite E1. cbn [obind]. rewrite branchEntry_encode by done.
  unfold entryBytes. rewrite wrap_add_idem_l. rewrite IH; [done|lia|done|]. rewrite <- E2. f_equal. lia.
Qed.
Lemma header_window tail avail r rest : recordOk r → 0 ≤ avail ≤ len ring → window ring tail avail = encodeRecord r ++ rest →
  ∃ header, copyRing ring (u64 tail) headerBytes = Ret header ∧ le_val (slice header 0 4) = typeOf r ∧ le_val (slice header 6 2) = recordBytes r ∧
    headerBytes ≤ recordBytes r ≤ avail ∧ window ring (tail + headerBytes) (len (payloadOf r)) = payloadOf r.
Proof using Hbit Hlen.
  intros Hr Ha E. assert (L : recordBytes r + len rest = avail) by (rewrite <- len_encodeRecord, <- len_app, <- E; apply len_window; lia). assert (0 ≤ len rest) by (unfold len; lia).
  assert (Hs : headerBytes ≤ recordBytes r < 2 ^ 16) by (unfold recordBytes, headerBytes; destruct Hr as [Hr _]; unfold recordBytes, headerBytes in Hr; unfold len in *; lia).
  assert (Ht : 0 ≤ typeOf r < 2 ^ 32) by (destruct r as [|type]; cbn; [unfold PERF_RECORD_SAMPLE; lia|]; by destruct Hr as (_ & ? & _)).
  set (hd := le_bytes 4 (typeOf r) ++ le_bytes 2 (miscOf r) ++ le_bytes 2 (recordBytes r)). assert (Lh : len hd = headerBytes) by (unfold hd; by rewrite !len_app, !len_le).
  assert (E' : window ring tail avail = hd ++ (payloadOf r ++ rest)) by (rewrite E; unfold hd, encodeRecord; by rewrite <- !app_assoc).
  apply window_split in E' as [E1 E2]; [|lia]. rewrite Lh in E1, E2. apply window_split in E2 as [E2 _]; [|lia].
  exists hd. split; [rewrite copyRing_u64 by (unfold headerBytes in *; lia); by rewrite E1|]. split; [|split; [|by split; [lia|]]].
  - unfold hd. rewrite slice_app_exact by by rewrite len_le. rewrite le_val_le_bytes. apply Z.mod_small. exact Ht.
  - unfold hd. rewrite app_assoc, slice_app_skip by (rewrite ?len_app, !len_le; lia). rewrite <- (app_nil_r (le_bytes 2 _)), slice_app_exact by by rewrite len_le.
    rewrite le_val_le_bytes. apply Z.mod_small. unfold headerBytes in Hs. change (256 ^ Z.of_nat 2) with (2 ^ 16). lia.
Qed.
Lemma sampleEntries tail avail misc es : recordOk (Sample misc es) → recordBytes (Sample misc es) ≤ avail ≤ len ring →
  window ring (tail + headerBytes) (len (payloadOf (Sample misc es))) = payloadOf (Sample misc es) →
  ∃ c, copyRing ring (u64 (u64 tail + headerBytes)) 8 = Ret c ∧ le_val c = len es ∧ (recordBytes (Sample misc es) - headerBytes - 8) / entryBytes = len es ∧
    entryLoop ring (u64 (u64 tail + headerBytes + 8)) (length es) = Ret es.*1.
Proof using Hbit Hlen.
  intros [Hs Hes] Ha E. assert (Lm : len (mjoin (encodeEntry <$> es)) = entryBytes * len es).
  { clear. induction es as [|e es IH]; [done|]. rewrite fmap_cons, mjoin_cons, len_app, IH, len_encodeEntry, len_cons. lia. }
  assert (Lp : recordBytes (Sample misc es) = 16 + entryBytes * len es) by (unfold recordBytes, headerBytes; cbn [payloadOf]; rewrite len_app, len_le, Lm; lia). rewrite Lp in *. assert (0 ≤ len es) by (unfold len; lia). unfold entryBytes in *.
  cbn [payloadOf] in E. apply window_split in E as [E1 E2]; [|unfold len; lia]. rewrite len_app, !len_le, Lm in E2. rewrite len_le in E1. change (Z.of_nat 8) with 8 in *.
  exists (le_bytes 8 (len es)). rewrite !wrap_add_idem_l. split; [rewrite copyRing_u64 by lia; by rewrite E1|]. split; [rewrite le_val_le_bytes; apply Z.mod_small; change (256 ^ Z.of_nat 8) with (2 ^ 64); lia|]. split.
  - unfold headerBytes. replace (16 + 24 * len es - 8 - 8) with (len es * 24) by lia. apply Z.div_mul. lia.
  - rewrite <- Z.add_assoc, wrap_add_idem_l, Z.add_assoc. apply entryLoop_entries; [unfold entryBytes; lia|done|]. rewrite <- E2. unfold entryBytes. f_equal. lia.
Qed.
Lemma drainLoop_record head fuel tail avail r rest :
  recordOk r → 0 ≤ avail ≤ len ring → window ring tail avail = encodeRecord r ++ rest →
  drainLoop ring head (S fuel) (u64 tail) avail =
    (let* k := drainLoop ring head fuel (u64 (tail + recordBytes r)) (avail - recordBytes r) in Ret (branchesOf r ++ k.1, k.2)).
Proof using Hbit Hlen.
  intros Hr Ha E. destruct (header_window _ _ _ _ Hr Ha E) as (hd & E1 & Et & Es & Hs & Ep). cbn [drainLoop]. rewrite (proj2 (Z.ltb_ge avail headerBytes)), E1 by lia. cbn [obind]. rewrite Et, Es.
  rewrite (proj2 (Z.ltb_ge (recordBytes r) headerBytes)), (proj2 (Z.ltb_ge avail (recordBytes r))), (proj2 (Z.ltb_ge (len ring) (recordBytes r))) by lia. cbn [orb].
  destruct r as [misc es|type misc payload].
  - destruct (sampleEntries tail avail misc es Hr) as (c & C1 & C2 & C3 & C4); [lia|done|]. cbn [typeOf]. rewrite Z.eqb_refl. rewrite (proj2 (Z.leb_le (headerBytes + 8) _)).
    + cbn [andb]. rewrite C1. cbn [obind]. rewrite C2, C3, Z.leb_refl. unfold len at 1. rewrite Nat2Z.id, C4. cbn [obind]. by rewrite wrap_add_idem_l.
    + unfold recordBytes. cbn [payloadOf]. rewrite len_app, len_le. unfold len. lia.
  - destruct Hr as (_ & _ & Hne). cbn [typeOf]. rewrite (proj2 (Z.eqb_neq _ _) Hne). cbn [andb obind]. by rewrite wrap_add_idem_l.
Qed.
Lemma drainLoop_records head rs : ∀ fuel tail avail, Forall recordOk rs → avail ≤ len ring → avail = len (mjoin (encodeRecord <$> rs)) →
  window ring tail avail = mjoin (encodeRecord <$> rs) → (length rs < fuel)%nat →
  drainLoop ring head fuel (u64 tail) avail = Ret (mjoin (branchesOf <$> rs), u64 (tail + avail)).
Proof using Hbit Hlen.
  induction rs as [|r rs IH]; intros [|fuel] tail avail Hrs Ha Hl E Hf; rewrite ?fmap_cons, ?mjoin_cons in *; cbn [length] in Hf; try lia.
  - subst. cbn. by rewrite Z.add_0_r.
  - apply Forall_cons in Hrs as [Hr Hrs]. rewrite len_app, len_encodeRecord in Hl. assert (headerBytes ≤ recordBytes r ∧ 0 ≤ len (mjoin (encodeRecord <$> rs))) as [? ?] by (unfold recordBytes, len; lia). unfold headerBytes in *.
    rewrite (drainLoop_record head fuel tail avail r _ Hr ltac:(lia) E). apply window_split in E as [_ E]; [|lia]. rewrite len_encodeRecord in E.
    rewrite (IH fuel (tail + recordBytes r) (avail - recordBytes r)); [|done|unfold recordBytes, headerBytes, len in *; lia|lia|done|lia].
    cbn [obind fst snd]. do 3 f_equal. lia.
Qed.
End Drain.

(** ** Any mapping at all *)

(** [dataRing] gives a ring inside the mapping, whose size is a power of two and at least a page. *)
Definition ringOf (m : Mapping) (pageSize offset : Z) (ring : bytes) : Prop :=
  has_single_bit (len ring) = true ∧ controlBytes ≤ len ring ∧ 0 ≤ offset ∧ offset + len ring ≤ len (mp_bytes m) ∧ ring = slice (mp_bytes m) offset (len ring) ∧
  ∀ m', pc_data_offset (mp_control m') = pc_data_offset (mp_control m) → pc_data_size (mp_control m') = pc_data_size (mp_control m) → mp_aligned m' = mp_aligned m →
    len (mp_bytes m') = len (mp_bytes m) → dataRing m' pageSize = Ret (Some (offset, slice (mp_bytes m') offset (len ring))).
Lemma dataRing_facts m pageSize : ∃ r, dataRing m pageSize = Ret r ∧ ∀ offset ring, r = Some (offset, ring) → ringOf m pageSize offset ring.
Proof.
  unfold dataRing. destruct ((pageSize <? controlBytes) || _ || _ || _) eqn:G1; [by exists None|]. destruct (if _ && _ then _ else _) as [offset size] eqn:Ep. destruct ((offset <? pageSize) || _ || _ || _ || _ || _ || _) eqn:G2; [by exists None|].
  pose proof G1 as G1'. pose proof G2 as G2'. apply orb_false_iff in G1 as [[[Hp%Z.ltb_ge _]%orb_false_iff _]%orb_false_iff _].
  apply orb_false_iff in G2 as [[[[[[Ho%Z.ltb_ge _]%orb_false_iff _]%orb_false_iff _]%orb_false_iff Hb%negb_false_iff]%orb_false_iff Hs%Z.ltb_ge]%orb_false_iff Hd%negb_false_iff%Z.eqb_eq]. unfold controlBytes in Hp.
  assert (0 < size) by (apply has_single_bit_pow in Hb as (k & Hk & ->); apply Z.pow_pos_nonneg; lia). pose proof (Z.div_mod size pageSize ltac:(lia)) as Hdm. rewrite Hd in Hdm.
  assert (1 ≤ size / pageSize) by nia. assert (pageSize ≤ size) by nia.
  destruct (subspan_defined (mp_bytes m) offset size) as [-> L]; [lia..|]. cbn [obind]. eexists. split; [done|]. intros ? ? [= <- <-]. unfold ringOf. rewrite L. split; [done|]. split; [unfold controlBytes; lia|]. split; [lia|]. split; [lia|]. split; [done|].
  intros m' E1 E2 E3 Lm. unfold dataRing. rewrite E1, E2, E3, Lm, G1', Ep, G2'. by destruct (subspan_defined (mp_bytes m') offset size) as [-> _]; [lia..|].
Qed.
Lemma entryLoop_defined ring n : entryBytes ≤ len ring → has_single_bit (len ring) = true → ∀ p, ∃ es, entryLoop ring p n = Ret es.
Proof.
  intros Hl Hb. induction n as [|n IH]; intros p; cbn [entryLoop]; [by eexists|]. unfold entryBytes in *. rewrite copyRing_window by lia. cbn [obind]. destruct (IH (u64 (p + 24))) as [es ->]. by eexists.
Qed.
Lemma drainLoop_defined ring head fuel : has_single_bit (len ring) = true → controlBytes ≤ len ring → ∀ tail avail,
  0 ≤ avail ≤ len ring → avail < headerBytes * Z.of_nat fuel → ∃ r, drainLoop ring head fuel tail avail = Ret r.
Proof.
  intros Hb Hl. unfold controlBytes in *. induction fuel as [|fuel IH]; intros tail avail Ha Hf; cbn [drainLoop]; unfold headerBytes in *.
  - lia.
  - destruct (Z.ltb_spec avail 8); [by eexists|]. rewrite copyRing_window by lia. cbn [obind]. set (size := le_val (slice _ 6 2)).
    destruct (_ || _) eqn:G; [by eexists|]. apply orb_false_iff in G as [[G1%Z.ltb_ge G2%Z.ltb_ge]%orb_false_iff _].
    match goal with |- ∃ r, obind ?e _ = _ => assert (∃ es, e = Ret es) as [es ->] end.
    { destruct (_ && _); [|by eexists]. rewrite copyRing_window by lia. cbn [obind]. destruct (_ <=? _); [|by eexists]. apply entryLoop_defined; [unfold entryBytes; lia|done]. }
    cbn [obind]. destruct (IH (u64 (tail + size)) (avail - size)) as [r ->]; [lia..|]. by eexists.
Qed.
Lemma drainPerfBranches_defined m pageSize : ∃ out m', drainPerfBranches m pageSize = Ret (out, m').
Proof.
  unfold drainPerfBranches. destruct (dataRing_facts m pageSize) as ([[offset ring]|] & -> & H); cbn [obind]; [|by do 2 eexists]. destruct (H _ _ eq_refl) as (Hb & Hl & _).
  destruct (Z.ltb_spec (len ring) (u64 (pc_data_head (mp_control m) - pc_data_tail (mp_control m)))) as [|Ha]; [by do 2 eexists|]. set (avail := u64 _) in *. assert (Hv : 0 ≤ avail < 2 ^ 64) by by apply wrap_bound.
  edestruct (drainLoop_defined ring (pc_data_head (mp_control m))) with (fuel := Z.to_nat (avail / headerBytes + 1)) (tail := pc_data_tail (mp_control m)) (avail := avail) as [r ->]; [done|done|lia| |by do 2 eexists]. pose proof (Z.div_mod avail headerBytes ltac:(done)). pose proof (Z.mod_pos_bound avail headerBytes ltac:(done)).
  assert (0 ≤ avail / headerBytes) by (apply Z.div_pos; [lia|done]). rewrite Z2Nat.id by lia. lia.
Qed.
Lemma drainPerfAux_defined m auxiliary pageSize : ∃ out m', drainPerfAux m auxiliary pageSize = Ret (out, m').
Proof.
  unfold drainPerfAux. destruct (dataRing_facts m pageSize) as ([[offset ring]|] & -> & H); cbn [obind]; [|by do 2 eexists]. destruct (bool_decide _ || _ || _) eqn:G; [by do 2 eexists|]. match goal with |- context [if ?c then Ret ([], m) else _] => destruct c; [by do 2 eexists|] end.
  apply orb_false_iff in G as [[_ (k & Hk & Ek)%negb_false_iff%has_single_bit_pow]%orb_false_iff _]. pose proof (Z.pow_pos_nonneg 2 k). set (avail := u64 _). assert (Hv : 0 ≤ avail < 2 ^ 64) by by apply wrap_bound.
  destruct (Z.leb_spec avail (len auxiliary)); [|by do 2 eexists]. destruct (avail =? 0); [by do 2 eexists|]. rewrite copyRing_window by lia. by do 2 eexists.
Qed.

(** ** The kernel and the reader *)

(** The kernel puts a record at its counter, around the end of the ring if need be. *)
Definition ringPut (ring : bytes) (p : Z) (b : bytes) : bytes :=
  bytesAt (λ j, let k := (j - p) mod len ring in if k <? len b then default 0 (lget b k) else ringByte ring j) 0 (len ring).
Definition withDataHead (c : Control) (head : Z) : Control :=
  mkControl (pc_data_offset c) (pc_data_size c) head (pc_data_tail c) (pc_aux_offset c) (pc_aux_size c) (pc_aux_head c) (pc_aux_tail c).
Definition kernelWrites (m : Mapping) (offset : Z) (ring : bytes) (r : Record_) : Mapping :=
  let head := pc_data_head (mp_control m) in
  mkMapping (withDataHead (mp_control m) (u64 (head + recordBytes r))) (mp_aligned m)
    (slice (mp_bytes m) 0 offset ++ ringPut ring head (encodeRecord r) ++ drop (Z.to_nat (offset + len ring)) (mp_bytes m)).
(** The mapping, the head a reader has loaded, and what has been written and drained so far. *)
Record System := mkSystem { sy_mapping : Mapping; sy_loaded : option Z; sy_written : list Record_; sy_drained : list LbrEntry }.
(** The kernel may write between a reader's load of the head and the rest of its drain. *)
Inductive ringStep (pageSize : Z) : relation System :=
  | KernelWrites m loaded written drained offset ring r :
      dataRing m pageSize = Ret (Some (offset, ring)) → recordOk r → u64 (pc_data_head (mp_control m) - pc_data_tail (mp_control m)) + recordBytes r ≤ len ring →
      ringStep pageSize (mkSystem m loaded written drained) (mkSystem (kernelWrites m offset ring r) loaded (written ++ [r]) drained)
  | ReaderLoads m written drained : ringStep pageSize (mkSystem m None written drained) (mkSystem m (Some (pc_data_head (mp_control m))) written drained)
  | ReaderDrains m head written drained out m' :
      drainPerfBranches (mkMapping (withDataHead (mp_control m) head) (mp_aligned m) (mp_bytes m)) pageSize = Ret (out, m') →
      ringStep pageSize (mkSystem m (Some head) written drained)
        (mkSystem (mkMapping (withDataTail (mp_control m) (pc_data_tail (mp_control m'))) (mp_aligned m) (mp_bytes m)) None written (drained ++ out)).
Definition ringBegins (pageSize : Z) (s : System) : Prop :=
  sy_loaded s = None ∧ sy_written s = [] ∧ sy_drained s = [] ∧ len (mp_bytes (sy_mapping s)) < 2 ^ 64 ∧
  is_u64 (pc_data_head (mp_control (sy_mapping s))) ∧ pc_data_tail (mp_control (sy_mapping s)) = pc_data_head (mp_control (sy_mapping s)) ∧
  is_Some (match dataRing (sy_mapping s) pageSize with Ret r => r | _ => None end).
Definition encoded (rs : list Record_) : bytes := mjoin (encodeRecord <$> rs).
Definition branches (rs : list Record_) : list LbrEntry := mjoin (branchesOf <$> rs).
(** The records not drained yet are in the ring between the counters; a head that was loaded ends one of them. *)
Definition pendingIn (m : Mapping) (pageSize : Z) (loaded : option Z) (pending : list Record_) : Prop :=
  ∃ offset ring tail, dataRing m pageSize = Ret (Some (offset, ring)) ∧ len (mp_bytes m) < 2 ^ 64 ∧ Forall recordOk pending ∧ len (encoded pending) ≤ len ring ∧
    pc_data_tail (mp_control m) = u64 tail ∧ pc_data_head (mp_control m) = u64 (tail + len (encoded pending)) ∧ window ring tail (len (encoded pending)) = encoded pending ∧
    ∀ head, loaded = Some head → ∃ p q, pending = p ++ q ∧ head = u64 (tail + len (encoded p)).
Definition ringInv (pageSize : Z) (s : System) : Prop :=
  ∃ done pending, sy_written s = done ++ pending ∧ sy_drained s = branches done ∧ pendingIn (sy_mapping s) pageSize (sy_loaded s) pending.

Lemma encoded_app a b : encoded (a ++ b) = encoded a ++ encoded b.
Proof. unfold encoded. by rewrite fmap_app, join_app. Qed.
Lemma branches_app a b : branches (a ++ b) = branches a ++ branches b.
Proof. unfold branches. by rewrite fmap_app, join_app. Qed.
Lemma encoded_length rs : headerBytes * Z.of_nat (length rs) ≤ len (encoded rs).
Proof. induction rs as [|r rs IH]; [done|]. change (encoded (r :: rs)) with (encodeRecord r ++ encoded rs). rewrite len_app, len_encodeRecord. cbn [length]. unfold recordBytes, headerBytes in *. unfold len at 1. lia. Qed.

(** A drain with a head that ends one of the pending records. *)
Lemma drain_prefix m pageSize loaded pending p q : pendingIn m pageSize loaded pending → pending = p ++ q →
    let head := u64 (pc_data_tail (mp_control m) + len (encoded p)) in
    let m' := mkMapping (withDataHead (mp_control m) head) (mp_aligned m) (mp_bytes m) in
    drainPerfBranches m' pageSize = Ret (branches p, mkMapping (withDataTail (mp_control m') head) (mp_aligned m) (mp_bytes m)) ∧
    pendingIn (mkMapping (withDataTail (mp_control m) head) (mp_aligned m) (mp_bytes m)) pageSize None q.
Proof.
  intros (offset & ring & tail & Er & Hb & Hrs & Hl & Et & Eh & Ew & _) ->. cbv zeta. rewrite Et, wrap_add_idem_l. destruct (dataRing_facts m pageSize) as (r & E & Hf). assert (r = Some (offset, ring)) as -> by congruence. clear E. destruct (Hf _ _ eq_refl) as (Hbit & Hring & Ho & Hin & Hsl & Hsame).
  set (head := u64 (tail + len (encoded p))). rewrite encoded_app, len_app in Hl, Eh, Ew. assert (0 ≤ len (encoded p) ∧ 0 ≤ len (encoded q)) as [Lp Lq] by (unfold len; lia). apply window_split in Ew as [Wp Wq]; [|lia]. apply Forall_app in Hrs as [Hp Hq].
  assert (Eavail : u64 (head - u64 tail) = len (encoded p)). { unfold head. rewrite wrap_sub_idem_l, wrap_sub_idem_r. replace (tail + len (encoded p) - tail) with (len (encoded p)) by lia. apply wrap_small. unfold in_width. lia. }
  split.
  - unfold drainPerfBranches. rewrite Hsame by done. cbn [mp_bytes]. rewrite <- Hsl. cbn [obind mp_control mp_aligned mp_bytes withDataHead pc_data_head pc_data_tail]. fold head. rewrite Et, Eavail. rewrite (proj2 (Z.ltb_ge _ _)) by lia.
    rewrite (drainLoop_records ring Hbit ltac:(lia) head p _ tail (len (encoded p))); [done|done|lia|done|done|].
    pose proof (encoded_length p). unfold headerBytes in *. assert (Z.of_nat (length p) ≤ len (encoded p) / 8) by (apply Z.div_le_lower_bound; lia). lia.
  - exists offset, ring, (tail + len (encoded p)). split; [rewrite Hsame by done; cbn [mp_bytes]; by rewrite <- Hsl|]. split; [done|]. split; [done|]. split; [lia|]. split; [done|]. split; [cbn; rewrite Eh; f_equal; lia|]. split; [|done].
    rewrite <- Wq at 2. f_equal. lia.
Qed.

(** ** The kernel's writes *)

Lemma len_ringPut ring p b : len (ringPut ring p b) = len ring.
Proof. apply len_bytesAt. unfold len. lia. Qed.
Lemma ringByte_put ring p b a : 0 < len ring → ringByte (ringPut ring p b) a =
  let k := (a - p) mod len ring in if k <? len b then default 0 (lget b k) else ringByte ring a.
Proof.
  intros Hr. unfold ringByte at 1. rewrite len_ringPut. unfold ringPut. pose proof (Z.mod_pos_bound a (len ring) Hr). rewrite lget_bytesAt by lia. cbn [default]. rewrite Z.add_0_l. cbv zeta. cbn [from_option id].
  rewrite Zminus_mod_idemp_l. destruct (_ <? _); [done|]. unfold ringByte. by rewrite Z.mod_mod by lia.
Qed.
Lemma window_put ring h tail avail b : has_single_bit (len ring) = true → len ring < 2 ^ 64 → 0 ≤ avail → avail + len b ≤ len ring → h = u64 (tail + avail) →
  window (ringPut ring h b) tail (avail + len b) = window ring tail avail ++ b.
Proof.
  intros Hb Hl Ha Hr ->. assert (Hpos : 0 < len ring) by (apply has_single_bit_pow in Hb as (k & ? & ->); apply Z.pow_pos_nonneg; lia). assert (0 ≤ len b) by (unfold len; lia).
  assert (Hmod : ∀ i, (tail + i - u64 (tail + avail)) mod len ring = (i - avail) mod len ring).
  { intros i. rewrite <- Zminus_mod_idemp_r, pow_mod_u64, Zminus_mod_idemp_r by done. f_equal. lia. }
  apply list_lget_eq; [rewrite len_app, !len_window; lia|]. rewrite len_window by lia. intros i Hi. unfold window at 1. rewrite lget_bytesAt by lia. rewrite ringByte_put by done. cbv zeta. rewrite Hmod.
  destruct (Z.lt_ge_cases i avail) as [Hlt|Hge].
  - rewrite lget_app_l by (rewrite len_window; lia). unfold window. rewrite lget_bytesAt by lia. replace ((i - avail) mod len ring) with (i - avail + len ring) by (apply (Z.mod_unique_pos _ _ (-1)); lia).
    by rewrite (proj2 (Z.ltb_ge _ _)) by lia.
  - rewrite lget_app_r by (rewrite len_window; lia). rewrite len_window by lia. rewrite (Z.mod_small (i - avail)) by lia. rewrite (proj2 (Z.ltb_lt _ _)) by lia.
    unfold lget. rewrite (proj2 (Z.leb_le 0 (i - avail))) by lia. by destruct (lookup_lt_is_Some_2 b (Z.to_nat (i - avail))) as [x ->]; [unfold len in *; lia|].
Qed.
Lemma pending_write m pageSize loaded pending offset ring r : pendingIn m pageSize loaded pending → dataRing m pageSize = Ret (Some (offset, ring)) → recordOk r →
  u64 (pc_data_head (mp_control m) - pc_data_tail (mp_control m)) + recordBytes r ≤ len ring → pendingIn (kernelWrites m offset ring r) pageSize loaded (pending ++ [r]).
Proof.
  intros (offset' & ring' & tail & Er & Hb & Hrs & Hl & Et & Eh & Ew & Hload) Er' Hr Hroom. assert (offset' = offset ∧ ring' = ring) as [-> ->] by (split; congruence). clear Er'.
  destruct (dataRing_facts m pageSize) as (x & E & Hf). assert (x = Some (offset, ring)) as -> by congruence. clear E. destruct (Hf _ _ eq_refl) as (Hbit & Hring & Ho & Hin & Hsl & Hsame). unfold controlBytes in Hring.
  assert (0 ≤ len (encoded pending)) by (unfold len; lia). assert (Er1 : encoded [r] = encodeRecord r) by apply app_nil_r.
  assert (Eavail : u64 (pc_data_head (mp_control m) - pc_data_tail (mp_control m)) = len (encoded pending)).
  { rewrite Et, Eh, wrap_sub_idem_l, wrap_sub_idem_r. replace (tail + len (encoded pending) - tail) with (len (encoded pending)) by lia. apply wrap_small. unfold in_width. lia. }
  rewrite Eavail in Hroom. set (ring' := ringPut ring (pc_data_head (mp_control m)) (encodeRecord r)). assert (L : len (slice (mp_bytes m) 0 offset) = offset) by (apply len_slice; lia).
  assert (Hpost : len (drop (Z.to_nat (offset + len ring)) (mp_bytes m)) = len (mp_bytes m) - (offset + len ring)) by (unfold len in *; rewrite length_drop; lia).
  assert (Lb : len (mp_bytes (kernelWrites m offset ring r)) = len (mp_bytes m)) by (cbn; rewrite !len_app, len_ringPut, L, Hpost; lia).
  assert (Hnew : slice (mp_bytes (kernelWrites m offset ring r)) offset (len ring) = ring').
  { cbn. rewrite slice_app_skip by (rewrite ?len_app, ?len_ringPut; unfold len in *; lia). by rewrite slice_app_exact by by rewrite len_ringPut. }
  exists offset, ring', tail. split; [rewrite Hsame by done; by rewrite Hnew|]. rewrite Lb. split; [done|]. split; [by apply Forall_app_2; [|constructor]|].
  rewrite encoded_app, len_app, Er1, len_encodeRecord. unfold ring'. rewrite len_ringPut. split; [lia|]. split; [done|]. split; [cbn; rewrite Eh, wrap_add_idem_l; f_equal; lia|]. split.
  - rewrite <- (len_encodeRecord r), window_put with (avail := len (encoded pending)) by (rewrite ?len_encodeRecord; (done || lia)). by rewrite Ew.
  - intros head (p & q & -> & ->)%Hload. exists p, (q ++ [r]). by rewrite app_assoc.
Qed.

(** ** Every branch, once, in order *)

Lemma ringInv_begins pageSize s : ringBegins pageSize s → ringInv pageSize s.
Proof.
  destruct s as [m loaded written drained]. unfold ringBegins. cbn. intros (-> & -> & -> & Hb & Hh & Et & Hr). exists [], []. split; [done|]. split; [done|].
  destruct (dataRing_facts m pageSize) as ([[offset ring]|] & E & _); rewrite E in Hr; [|by inversion Hr].
  exists offset, ring, (pc_data_head (mp_control m)). cbn. rewrite Z.add_0_r, wrap_small by done. split; [done|]. split; [done|]. split; [done|]. split; [unfold len; cbn [length]; lia|]. done.
Qed.
Lemma ringInv_step pageSize s t : ringStep pageSize s t → ringInv pageSize s → ringInv pageSize t.
Proof.
  intros H (done & pending & Ew & Ed & Hp). destruct H as [m loaded written drained offset ring r Er Hr Hroom|m written drained|m head written drained out m' Edr]; cbn in *; subst.
  - exists done, (pending ++ [r]). split; [by rewrite app_assoc|]. split; [reflexivity|]. by apply pending_write.
  - exists done, pending. split; [reflexivity|]. split; [reflexivity|]. destruct Hp as (offset & ring & tail & H1 & H2 & H3 & H4 & H5 & H6 & H7 & _). exists offset, ring, tail.
    split_and!; try assumption. intros head [= <-]. exists pending, []. by rewrite app_nil_r.
  - pose proof Hp as (offset & ring & tail & _ & _ & _ & _ & Et & _ & _ & Hload). destruct (Hload head eq_refl) as (p & q & -> & ->).
    destruct (drain_prefix m pageSize _ _ p q Hp eq_refl) as [E Hq]. rewrite Et, wrap_add_idem_l in E, Hq. rewrite Edr in E. injection E as -> ->.
    exists (done ++ p), q. split; [by rewrite app_assoc|]. split; [by rewrite branches_app|]. exact Hq.
Qed.
Lemma ringInv_reachable pageSize s0 s : ringBegins pageSize s0 → rtc (ringStep pageSize) s0 s → ringInv pageSize s.
Proof. intros H0 H. apply ringInv_begins in H0. induction H; eauto using ringInv_step. Qed.
Lemma ringInv_drains pageSize s : ringInv pageSize s →
  ∃ out m, drainPerfBranches (sy_mapping s) pageSize = Ret (out, m) ∧ sy_drained s ++ out = branches (sy_written s) ∧
    pc_data_tail (mp_control m) = pc_data_head (mp_control (sy_mapping s)).
Proof.
  destruct s as [m loaded written drained]. intros (done & pending & Ew & Ed & Hp). cbn in *. subst. destruct (drain_prefix m pageSize _ _ pending [] Hp) as [E _]; [by rewrite app_nil_r|].
  destruct Hp as (offset & ring & tail & _ & _ & _ & _ & Et & Eh & _). rewrite Et, wrap_add_idem_l, <- Eh in E.
  assert (E' : mkMapping (withDataHead (mp_control m) (pc_data_head (mp_control m))) (mp_aligned m) (mp_bytes m) = m) by by destruct m as [[] ? ?].
  rewrite E' in E. do 2 eexists. split; [exact E|]. cbn [sy_drained sy_written sy_mapping]. split; [symmetry; apply branches_app|done].
Qed.

(** C19: The kernel writes records into the ring whenever there is room, at any moment between a
    reader's load of the head and the rest of its drain, and readers drain.  In every state that
    is reached, a drain is defined, frees the whole ring, and completes the drained branches to
    exactly the branches of every sample the kernel has written, each once and in the order
    written; the ring may have wrapped, inside a record too, and so may the 64-bit counters. *)
Theorem drains_every_branch pageSize s0 s : ringBegins pageSize s0 → rtc (ringStep pageSize) s0 s →
  ∃ out m, drainPerfBranches (sy_mapping s) pageSize = Ret (out, m) ∧ sy_drained s ++ out = branches (sy_written s) ∧
    pc_data_tail (mp_control m) = pc_data_head (mp_control (sy_mapping s)).
Proof. intros H0 H. apply ringInv_drains. by eapply ringInv_reachable. Qed.

(** Whatever bytes and counters a mapping holds, both drains end and read inside the ring. *)
Theorem drains_defined m auxiliary pageSize :
  (∃ out m', drainPerfBranches m pageSize = Ret (out, m')) ∧ (∃ out m', drainPerfAux m auxiliary pageSize = Ret (out, m')).
Proof. split; [apply drainPerfBranches_defined|apply drainPerfAux_defined]. Qed.

(** A ring whose counters start twelve bytes before they wrap: the record crosses the end of the
    ring and of the counters while a reader holds the head it loaded. *)
Definition sampleMapping (head : Z) : Mapping := mkMapping (mkControl 0 0 head head 0 0 0 0) true (replicate 8192 0).
Definition sampleRecord : Record_ := Sample 0 [(mkLbr 16 32 true false, 5); (mkLbr 48 64 false true, 0)].
Lemma drains_every_branch_witness :
  let m := sampleMapping (2 ^ 64 - 12) in let ring := replicate 4096 0 in
  ∃ s, rtc (ringStep 4096) (mkSystem m None [] []) s ∧ sy_written s = [sampleRecord] ∧
    (∃ out m', drainPerfBranches (sy_mapping s) 4096 = Ret (out, m') ∧ sy_drained s ++ out = branches (sy_written s) ∧
      pc_data_tail (mp_control m') = pc_data_head (mp_control (sy_mapping s))).
Proof.
  cbv zeta. set (m := sampleMapping _). exists (mkSystem (kernelWrites m 4096 (replicate 4096 0) sampleRecord) (Some (pc_data_head (mp_control m))) [sampleRecord] []).
  assert (H : rtc (ringStep 4096) (mkSystem m None [] []) (mkSystem (kernelWrites m 4096 (replicate 4096 0) sampleRecord) (Some (pc_data_head (mp_control m))) [sampleRecord] [])).
  { eapply rtc_l; [apply ReaderLoads|]. eapply rtc_l; [|apply rtc_refl]. apply (KernelWrites 4096 m _ [] []); [vm_compute; reflexivity| |vm_compute; discriminate].
    split; [vm_compute; reflexivity|]. repeat constructor; vm_compute; (discriminate || reflexivity). }
  split; [exact H|]. split; [reflexivity|]. apply (drains_every_branch 4096 (mkSystem m None [] [])); [|exact H].
  split; [reflexivity|]. split; [reflexivity|]. split; [reflexivity|]. split; [vm_compute; reflexivity|]. split; [split; vm_compute; (discriminate || reflexivity)|]. split; [reflexivity|]. vm_compute. eexists. reflexivity.
Defined.

(** The size of a mapping: the pages asked for, rounded up to a power of two and no more than
    doubled, and one control page; nothing wraps. *)
Lemma perfMappingSize_spec pageSize pages data total : perfMappingSize pageSize pages = Some (data, total) →
  (∃ k, 0 ≤ k ∧ data = 2 ^ k * pageSize) ∧ pages * pageSize ≤ data < 2 * (pages * pageSize) ∧ total = data + pageSize ∧ total ≤ SIZE_MAX.
Proof.
  unfold perfMappingSize. destruct (_ || _ || _) eqn:G; [done|]. apply orb_false_iff in G as [[G1%Z.leb_gt G2%Z.ltb_ge]%orb_false_iff _]. unfold controlBytes in G2.
  destruct (Z.ltb_spec (SIZE_MAX / pageSize - 1) (2 ^ Z.log2_up pages)) as [|H]; [done|]. intros [= <- <-]. pose proof (Z.log2_up_nonneg pages). split; [by eexists|].
  assert (Hb : pages ≤ 2 ^ Z.log2_up pages < 2 * pages).
  { destruct (Z.eq_dec pages 1) as [->|]; [cbn; lia|]. pose proof (Z.log2_up_spec pages ltac:(lia)) as [Hlo Hhi]. split; [lia|]. rewrite <- Z.sub_1_r in Hlo. pose proof (Z.log2_up_pos pages ltac:(lia)).
    replace (Z.log2_up pages) with (1 + (Z.log2_up pages - 1)) by lia. rewrite Z.pow_add_r by lia. change (2 ^ 1) with 2. lia. }
  split; [nia|]. split; [lia|]. pose proof (Z.mul_div_le SIZE_MAX pageSize ltac:(lia)). nia.
Qed.
