(* ===== verification/Registers.v ===== *)
(** * CPU registers and flags

    Models [CpuContext] of [src/core/types.hpp], the register banks shown and edited by
    the debugger ([src/core/cpu_registers.cpp]) and the flag tests of conditional jumps
    ([src/arch/cpu_flags.hpp]). *)

From S2P Require Import Prelude Numeral TargetMachine.

(** ** The context of a thread *)

Record CpuContext := mkCpu {
  rax : Z; rbx : Z; rcx : Z; rdx : Z; rsi : Z; rdi : Z; rbp : Z; rsp : Z;
  r8 : Z; r9 : Z; r10 : Z; r11 : Z; r12 : Z; r13 : Z; r14 : Z; r15 : Z;
  rip : Z; rflags : Z;
  segments : list Z;  (* cs, ss, ds, es, fs, gs *)
  debugRegs : list Z;  (* dr0, dr1, dr2, dr3, dr6, dr7 *)
  cpu_architecture : CpuArchitecture;
  x : list Z;  (* 31 words *)
  sp : Z; pc : Z; pstate : Z;
  debugRegistersValid : bool
}.

Definition hasArmRegisters (c : CpuContext) : bool :=
  match cpu_architecture c with Arm64 | Arm32 => true | _ => false end.
(** [x[i]] of the 31-word array: out of bounds is undefined. *)
Definition xAt (c : CpuContext) (i : Z) : Z := default 0 (lget (x c) i).
Definition instructionPointer (c : CpuContext) : Z := if hasArmRegisters c then pc c else rip c.
Definition stackPointer (c : CpuContext) : Z := if hasArmRegisters c then sp c else rsp c.
Definition framePointer (c : CpuContext) : Z :=
  match cpu_architecture c with Arm32 => xAt c 11 | Arm64 => xAt c 29 | _ => rbp c end.

(** Field updates. *)
Definition withX86 (c : CpuContext) (row v : Z) : CpuContext :=
  let put i old := if row =? i then v else old in
  mkCpu (put 3 (rax c)) (put 4 (rbx c)) (put 5 (rcx c)) (put 6 (rdx c)) (put 7 (rsi c)) (put 8 (rdi c))
    (put 2 (rbp c)) (put 1 (rsp c)) (put 10 (r8 c)) (put 11 (r9 c)) (put 12 (r10 c)) (put 13 (r11 c))
    (put 14 (r12 c)) (put 15 (r13 c)) (put 16 (r14 c)) (put 17 (r15 c)) (put 0 (rip c)) (put 9 (rflags c))
    (segments c) (debugRegs c) (cpu_architecture c) (x c) (sp c) (pc c) (pstate c) (debugRegistersValid c).
Definition withArm (c : CpuContext) (x' : list Z) (sp' pc' pstate' : Z) : CpuContext :=
  mkCpu (rax c) (rbx c) (rcx c) (rdx c) (rsi c) (rdi c) (rbp c) (rsp c) (r8 c) (r9 c) (r10 c) (r11 c)
    (r12 c) (r13 c) (r14 c) (r15 c) (rip c) (rflags c) (segments c) (debugRegs c) (cpu_architecture c)
    x' sp' pc' pstate' (debugRegistersValid c).
Definition setX (c : CpuContext) (i v : Z) : CpuContext :=
  withArm c (<[Z.to_nat i := v]> (x c)) (sp c) (pc c) (pstate c).
Definition setSp (c : CpuContext) (v : Z) : CpuContext := withArm c (x c) v (pc c) (pstate c).
Definition setPc (c : CpuContext) (v : Z) : CpuContext := withArm c (x c) (sp c) v (pstate c).
Definition setPstate (c : CpuContext) (v : Z) : CpuContext := withArm c (x c) (sp c) (pc c) v.
Definition setInstructionPointer (c : CpuContext) (v : Z) : CpuContext :=
  if hasArmRegisters c then setPc c v else withX86 c 0 v.

(** ** The displayed bank *)

(** [CpuRegisterValue]: name, value, width. *)
Definition CpuRegisterValue : Type := bytes * Z * Z.
Definition reg_value (r : CpuRegisterValue) : Z := r.1.2.

(** [x86Members], in their order. *)
Definition x86Values (c : CpuContext) : list Z :=
  [rip c; rsp c; rbp c; rax c; rbx c; rcx c; rdx c; rsi c; rdi c; rflags c;
   r8 c; r9 c; r10 c; r11 c; r12 c; r13 c; r14 c; r15 c].
Definition x64Names : list bytes :=
  bs <$> ["RIP"; "RSP"; "RBP"; "RAX"; "RBX"; "RCX"; "RDX"; "RSI"; "RDI"; "RFLAGS";
   "R8"; "R9"; "R10"; "R11"; "R12"; "R13"; "R14"; "R15"]%string.
Definition x32Names : list bytes :=
  bs <$> ["EIP"; "ESP"; "EBP"; "EAX"; "EBX"; "ECX"; "EDX"; "ESI"; "EDI"; "EFLAGS"]%string.

Definition cpuRegisterValues (c : CpuContext) : list CpuRegisterValue :=
  match cpu_architecture c with
  | Arm64 =>
      [(bs "PC", pc c, 64); (bs "SP", sp c, 64); (bs "X29", xAt c 29, 64); (bs "X30", xAt c 30, 64)]
      ++ ((λ i, (bs "X" ++ to_string i, xAt c i, 64)) <$> seqZ 0 29)
      ++ [(bs "PSTATE", pstate c, 64)]
  | Arm32 =>
      [(bs "PC", u32 (pc c), 32); (bs "SP", u32 (sp c), 32); (bs "R11", u32 (xAt c 11), 32);
       (bs "LR", u32 (xAt c 14), 32)]
      ++ ((λ i, (bs "R" ++ to_string i, u32 (xAt c i), 32)) <$> filter (λ i, i ≠ 11) (seqZ 0 13))
      ++ [(bs "CPSR", u32 (pstate c), 32)]
  | X86_32 => zip_with (λ n v, (n, u32 v, 32)) x32Names (x86Values c)
  | X86_64 => zip_with (λ n v, (n, u64 v, 64)) x64Names (x86Values c)
  | _ => []
  end.

(** [setCpuRegisterValue]: the new context, or [None] when it returns false. *)
Definition setCpuRegisterValue (c : CpuContext) (row value : Z) : option CpuContext :=
  match cpu_architecture c with
  | Arm32 =>
      if (UINT32_MAX <? value) || (16 <? row) then None
      else Some (if row =? 0 then setPc c value
                 else if row =? 1 then setSp c value
                 else if row =? 2 then setX c 11 value
                 else if row =? 3 then setX c 14 value
                 else if row <? 15 then setX c (row - 4) value
                 else if row =? 15 then setX c 12 value
                 else setPstate c value)
  | Arm64 =>
      if row =? 0 then Some (setPc c value)
      else if row =? 1 then Some (setSp c value)
      else if row =? 2 then Some (setX c 29 value)
      else if row =? 3 then Some (setX c 30 value)
      else if row <? 33 then Some (setX c (row - 4) value)
      else if row =? 33 then Some (setPstate c value)
      else None
  | X86_32 => if (10 <=? row) || (UINT32_MAX <? value) then None else Some (withX86 c row value)
  | X86_64 => if 18 <=? row then None else Some (withX86 c row value)
  | _ => None
  end.

(** The loop of [mergeCpuRegisterEdits]. *)
Fixpoint mergeRows (merged : CpuContext) (row : Z) (values : list Z) (registers : list CpuRegisterValue)
  : outcome CpuContext :=
  match values, registers with
  | v :: values, r :: registers =>
      if v =? reg_value r then mergeRows merged (row + 1) values registers
      else match setCpuRegisterValue merged row v with
           | Some merged => mergeRows merged (row + 1) values registers
           | None => Fail (str (r.1.1) +:+ " requires a " +:+ str (to_string r.2) +:+ "-bit value")
           end
  | _, _ => Ret merged
  end.
Definition mergeCpuRegisterEdits (current displayed : CpuContext) (values : list Z) : outcome CpuContext :=
  if negb (bool_decide (cpu_architecture current = cpu_architecture displayed))
  then Fail "Thread register mode changed; refresh before applying edits"
  else if bool_decide (cpu_architecture current = Arm32) &&
          negb (Z.land (Z.lxor (pstate current) (pstate displayed)) 32 =? 0)
  then Fail "Thread ARM/Thumb mode changed; refresh before applying edits"
  else
    let registers := cpuRegisterValues displayed in
    if bool_decide (registers = []) || negb (len registers =? len values)
    then Fail "Register snapshot is unavailable or incomplete"
    else mergeRows current 0 values registers.

(** ** Flags *)

Definition joinFlags (l : list bytes) : bytes :=
  match l with
  | [] => []
  | a :: l => a ++ mjoin ((λ f, " "%chr :: f) <$> l)
  end.
Definition bitText (v i : Z) (name : string) : bytes := bs name ++ "="%chr :: if bit v i then bs "1" else bs "0".
Definition describeEflags (flags : Z) : bytes :=
  joinFlags (omap (λ f : Z * string, if bit flags f.1 then Some (bs f.2) else None)
    [(0, "CF"); (2, "PF"); (4, "AF"); (6, "ZF"); (7, "SF"); (8, "TF"); (9, "IF"); (10, "DF"); (11, "OF")]%string).
Definition describeEflagsVerbose (flags : Z) : bytes :=
  joinFlags ((λ f : Z * string, bitText flags f.1 f.2) <$>
    [(0, "CF"); (2, "PF"); (4, "AF"); (6, "ZF"); (7, "SF"); (10, "DF"); (11, "OF")]%string).
Definition describeCpuStatusFlags (c : CpuContext) : bytes :=
  match cpu_architecture c with
  | Arm32 => joinFlags ((λ f : Z * string, bitText (pstate c) f.1 f.2) <$>
      [(31, "N"); (30, "Z"); (29, "C"); (28, "V"); (27, "Q"); (5, "T"); (9, "E")]%string)
  | Arm64 => joinFlags ((λ f : Z * string, bitText (pstate c) f.1 f.2) <$>
      [(31, "N"); (30, "Z"); (29, "C"); (28, "V")]%string)
  | X86_32 | X86_64 => describeEflagsVerbose (rflags c)
  | _ => []
  end.

Definition isOneOf (m : bytes) (names : list string) : bool :=
  existsb (λ n, bytes_eqb m (bs n)) names.
Definition conditionalJumpTaken (m : bytes) (flags : Z) : option bool :=
  let cf := bit flags 0 in let pf := bit flags 2 in let zf := bit flags 6 in
  let sf := bit flags 7 in let ofl := bit flags 11 in
  if isOneOf m ["jmp"]%string then Some true
  else if isOneOf m ["je"; "jz"]%string then Some zf
  else if isOneOf m ["jne"; "jnz"]%string then Some (negb zf)
  else if isOneOf m ["js"]%string then Some sf
  else if isOneOf m ["jns"]%string then Some (negb sf)
  else if isOneOf m ["jo"]%string then Some ofl
  else if isOneOf m ["jno"]%string then Some (negb ofl)
  else if isOneOf m ["jp"; "jpe"]%string then Some pf
  else if isOneOf m ["jnp"; "jpo"]%string then Some (negb pf)
  else if isOneOf m ["jc"; "jb"; "jnae"]%string then Some cf
  else if isOneOf m ["jnc"; "jae"; "jnb"]%string then Some (negb cf)
  else if isOneOf m ["ja"; "jnbe"]%string then Some (negb cf && negb zf)
  else if isOneOf m ["jbe"; "jna"]%string then Some (cf || zf)
  else if isOneOf m ["jg"; "jnle"]%string then Some (negb zf && eqb sf ofl)
  else if isOneOf m ["jge"; "jnl"]%string then Some (eqb sf ofl)
  else if isOneOf m ["jl"; "jnge"]%string then Some (xorb sf ofl)
  else if isOneOf m ["jle"; "jng"]%string then Some (zf || xorb sf ofl)
  else None.
Definition conditionalArm64JumpTaken (m : bytes) (ps : Z) : option bool :=
  let n := bit ps 31 in let z := bit ps 30 in let c := bit ps 29 in let v := bit ps 28 in
  if isOneOf m ["b.eq"]%string then Some z
  else if isOneOf m ["b.ne"]%string then Some (negb z)
  else if isOneOf m ["b.cs"; "b.hs"]%string then Some c
  else if isOneOf m ["b.cc"; "b.lo"]%string then Some (negb c)
  else if isOneOf m ["b.mi"]%string then Some n
  else if isOneOf m ["b.pl"]%string then Some (negb n)
  else if isOneOf m ["b.vs"]%string then Some v
  else if isOneOf m ["b.vc"]%string then Some (negb v)
  else if isOneOf m ["b.hi"]%string then Some (c && negb z)
  else if isOneOf m ["b.ls"]%string then Some (negb c || z)
  else if isOneOf m ["b.ge"]%string then Some (eqb n v)
  else if isOneOf m ["b.lt"]%string then Some (xorb n v)
  else if isOneOf m ["b.gt"]%string then Some (negb z && eqb n v)
  else if isOneOf m ["b.le"]%string then Some (z || xorb n v)
  else if isOneOf m ["b"; "b.al"; "b.nv"]%string then Some true
  else None.

(** ** The banks are lenses *)

Definition context_ok (c : CpuContext) : Prop :=
  len (x c) = 31 ∧ Forall (λ v, is_u64 v) (x c) ∧ Forall (λ v, is_u64 v) (x86Values c) ∧
  is_u64 (sp c) ∧ is_u64 (pc c) ∧ is_u64 (pstate c).
Definition known_bank (c : CpuContext) : Prop :=
  cpu_architecture c = X86_32 ∨ cpu_architecture c = X86_64 ∨
  cpu_architecture c = Arm32 ∨ cpu_architecture c = Arm64.

(** Writing row [row] of bank [c]: accepted exactly for a row of the bank and a value of
    its width, and then only that row of the displayed bank changes. *)
Definition row_spec (c : CpuContext) (row v : Z) : Prop :=
  match lget (cpuRegisterValues c) row with
  | Some (n, _, w) =>
      if v <? 2 ^ w then
        ∃ c', setCpuRegisterValue c row v = Some c' ∧ cpu_architecture c' = cpu_architecture c ∧
          context_ok c' ∧ cpuRegisterValues c' = <[Z.to_nat row := (n, v, w)]> (cpuRegisterValues c)
      else setCpuRegisterValue c row v = None
  | None => setCpuRegisterValue c row v = None
  end.

Lemma setX_ok c i v : context_ok c → is_u64 v → context_ok (setX c i v).
Proof.
  intros (Hl & Hx & H) Hv. unfold setX, context_ok. cbn. split_and!; try tauto.
  - unfold len in *. by rewrite length_insert.
  - by apply Forall_insert.
Qed.

Lemma setScalar_ok c v : context_ok c → is_u64 v →
  context_ok (setPc c v) ∧ context_ok (setSp c v) ∧ context_ok (setPstate c v).
Proof. intros (? & ? & ? & ? & ? & ?) Hv. unfold context_ok. cbn. tauto. Qed.

Lemma withX86_ok c row v : context_ok c → is_u64 v → context_ok (withX86 c row v).
Proof.
  intros (Hl & Hx & Hr & H) Hv. unfold context_ok. split_and!; try tauto.
  unfold x86Values in *. repeat (apply Forall_cons in Hr as [? Hr]).
  repeat (apply Forall_cons_2; [cbn; by case_match|]). apply Forall_nil_2.
Qed.

(** A context stays well formed, and keeps its bank. *)
Lemma set_ok c row v c' :
  context_ok c → is_u64 v → setCpuRegisterValue c row v = Some c' →
  context_ok c' ∧ cpu_architecture c' = cpu_architecture c.
Proof.
  intros Hok Hv. pose proof (withX86_ok c row v Hok Hv). pose proof (setX_ok c) as HX.
  pose proof (setScalar_ok c v Hok Hv) as (? & ? & ?). unfold setCpuRegisterValue.
  destruct (cpu_architecture c) eqn:Ha; try done; repeat case_match; intros [= <-]; (split; [auto|exact Ha]).
Qed.

(** The number of rows of each bank. *)
Lemma bank_length c : known_bank c →
  len (cpuRegisterValues c) =
  match cpu_architecture c with X86_32 => 10 | X86_64 => 18 | Arm32 => 17 | _ => 34 end.
Proof. unfold known_bank, cpuRegisterValues. by intros [->|[->|[->| ->]]]. Qed.

Ltac row_cases row :=
  match goal with
  | H : 0 ≤ row < ?n |- _ =>
      let Hin := fresh "Hin" in
      assert (row ∈ seqZ 0 n) as Hin by (apply elem_of_seqZ; lia);
      vm_compute in Hin;
      repeat (apply elem_of_cons in Hin as [->|Hin]); [..|by apply elem_of_nil in Hin]; clear H
  end.
(** Splits a list of known length into its elements. *)
Ltac explode l :=
  repeat (destruct l as [|? l]; [discriminate|]);
  destruct l; [|discriminate].

(** The new bank, up to the mask of the display. *)
Ltac bank_step :=
  match goal with |- ?l = <[?i := (?n, ?v, ?w)]> ?b =>
    first [reflexivity
          |transitivity (<[i := (n, wrap w v, w)]> b); [reflexivity|by rewrite (wrap_small w v) by lia_w]]
  end.

(** The effect of a row's edit on the displayed bank. *)
Definition row_effect (c : CpuContext) (row v : Z) : Prop :=
  ∃ n old w, lget (cpuRegisterValues c) row = Some (n, old, w) ∧
    if v <? 2 ^ w then ∃ c', setCpuRegisterValue c row v = Some c' ∧
        cpuRegisterValues c' = <[Z.to_nat row := (n, v, w)]> (cpuRegisterValues c)
    else setCpuRegisterValue c row v = None.

Lemma wide_rows c row v :
  cpu_architecture c = X86_64 ∨ cpu_architecture c = Arm64 → length (x c) = 31%nat → is_u64 v →
  0 ≤ row < len (cpuRegisterValues c) → row_effect c row v.
Proof.
  intros Ha Hlen Hv Hrow. rewrite bank_length in Hrow by (unfold known_bank; tauto).
  assert (v <? 2 ^ 64 = true) as Hlt by (apply Z.ltb_lt, Hv).
  destruct c as [? ? ? ? ? ? ? ? ? ? ? ? ? ? ? ? ? ? ? ? ar xs s p ps d]. simpl in Ha, Hlen, Hrow. explode xs.
  destruct Ha as [->| ->]; row_cases row; do 3 eexists; (split; [reflexivity|]); rewrite Hlt;
    eexists; (split; [reflexivity|]); bank_step.
Qed.

Lemma narrow_rows c row v :
  cpu_architecture c = X86_32 ∨ cpu_architecture c = Arm32 → length (x c) = 31%nat → is_u64 v →
  0 ≤ row < len (cpuRegisterValues c) → row_effect c row v.
Proof.
  intros Ha Hlen Hv Hrow. rewrite bank_length in Hrow by (unfold known_bank; tauto).
  destruct c as [? ? ? ? ? ? ? ? ? ? ? ? ? ? ? ? ? ? ? ? ar xs s p ps d]. simpl in Ha, Hlen, Hrow. explode xs.
  destruct Ha as [->| ->]; row_cases row; do 3 eexists; (split; [reflexivity|]);
    (destruct (Z.ltb_spec v (2 ^ 32)) as [Hlt|Hge];
     [eexists; split;
       [cbv [setCpuRegisterValue cpu_architecture]; rewrite (proj2 (Z.ltb_ge UINT32_MAX v)) by lia_w; reflexivity
       |bank_step]
     |cbv [setCpuRegisterValue cpu_architecture]; by rewrite (proj2 (Z.ltb_lt UINT32_MAX v)) by lia_w]).
Qed.

(** Editing a register bank.  For x86, x86-64, ARM and ARM64 contexts the rows shown
    by [cpuRegisterValues] are lenses: [setCpuRegisterValue] accepts exactly the rows of
    the bank and the values of the row's width, changes that row to the value, and
    leaves every other row as it was. *)
Theorem register_rows c row v :
  known_bank c → context_ok c → is_u64 v → 0 ≤ row → row_spec c row v.
Proof.
  intros Hk Hok Hv Hrow. unfold row_spec.
  destruct (Z.lt_ge_cases row (len (cpuRegisterValues c))) as [Hlt|Hge].
  - assert (length (x c) = 31%nat) as Hlen by (destruct Hok as [Hl _]; unfold len in Hl; lia).
    assert (row_effect c row v) as (n & old & w & -> & He).
    { destruct Hk as [Ha|[Ha|[Ha|Ha]]]; [apply narrow_rows|apply wide_rows|apply narrow_rows|apply wide_rows]; auto. }
    destruct (v <? 2 ^ w); [|done]. destruct He as (c' & Hs & Hb). exists c'.
    destruct (set_ok c row v c' Hok Hv Hs). auto.
  - rewrite lget_ge by done. rewrite bank_length in Hge by done. unfold setCpuRegisterValue.
    destruct Hk as [Ha|[Ha|[Ha|Ha]]]; rewrite Ha in *.
    + by rewrite (proj2 (Z.leb_le _ _)) by lia.
    + by rewrite (proj2 (Z.leb_le _ _)) by lia.
    + rewrite (proj2 (Z.ltb_lt 16 row)) by lia. by rewrite orb_true_r.
    + rewrite !(proj2 (Z.eqb_neq row _)) by lia. by rewrite (proj2 (Z.ltb_ge row 33)) by lia.
Qed.

Definition sampleContext (a : CpuArchitecture) : CpuContext :=
  mkCpu 1 2 3 4 5 6 7 8 9 10 11 12 13 14 15 16 17 18 [] [] a (seqZ 100 31) 200 201 202 false.
Lemma sample_ok a : context_ok (sampleContext a).
Proof. unfold context_ok. split_and!; first [reflexivity|decide_by_compute]. Qed.

Lemma register_rows_witness :
  ∃ c', setCpuRegisterValue (sampleContext Arm32) 15 4294967295 = Some c' ∧
    lget (cpuRegisterValues c') 15 = Some (bs "R12", 4294967295, 32).
Proof.
  pose proof (register_rows (sampleContext Arm32) 15 4294967295) as H. unfold row_spec in H.
  destruct H as (c' & Hs & _ & _ & Hb).
  - unfold known_bank. auto.
  - apply sample_ok.
  - decide_by_compute.
  - lia.
  - exists c'. split; [exact Hs|]. rewrite Hb. reflexivity.
Defined.

(** ** Merging edits *)

(** The banks of two contexts of one architecture have the same rows. *)
Lemma bank_names c c' : cpu_architecture c = cpu_architecture c' →
  (λ r : CpuRegisterValue, (r.1.1, r.2)) <$> cpuRegisterValues c =
  (λ r : CpuRegisterValue, (r.1.1, r.2)) <$> cpuRegisterValues c'.
Proof. unfold cpuRegisterValues. intros ->. by destruct (cpu_architecture c'). Qed.

Lemma known_bank_nonempty c : cpuRegisterValues c ≠ [] → known_bank c.
Proof. unfold cpuRegisterValues, known_bank. destruct (cpu_architecture c); auto; done. Qed.

(** The bank after the edits of rows [k ..]. *)
Definition editedBank (bank : list CpuRegisterValue) (displayed : list CpuRegisterValue) (values : list Z)
  : list CpuRegisterValue :=
  zip_with (λ (b : CpuRegisterValue) (dv : CpuRegisterValue * Z),
    if dv.2 =? reg_value dv.1 then b else (b.1.1, dv.2, b.2)) bank (zip displayed values).

Lemma mergeRows_spec values : ∀ displayed merged m pre,
  known_bank merged → context_ok merged → Forall (λ v, is_u64 v) values →
  length displayed = length values → length (cpuRegisterValues merged) = (length pre + length values)%nat →
  take (length pre) (cpuRegisterValues merged) = pre →
  mergeRows merged (len pre) values displayed = Ret m →
  cpu_architecture m = cpu_architecture merged ∧ context_ok m ∧
  cpuRegisterValues m = pre ++ editedBank (drop (length pre) (cpuRegisterValues merged)) displayed values.
Proof.
  induction values as [|v values IH]; intros [|r displayed] merged m pre Hk Hok Hv Hd Hlen Hpre; try done.
  { intros [= <-]. split_and!; [done|done|]. rewrite drop_ge by (simpl in Hlen; lia). unfold editedBank. cbn.
    rewrite app_nil_r. etransitivity; [|exact Hpre]. symmetry. apply take_ge. simpl in Hlen. lia. }
  inversion Hv as [|? ? Hv1 Hvs]; subst. simpl in Hd, Hlen. cbn [mergeRows].
  destruct (drop (length pre) (cpuRegisterValues merged)) as [|b rest] eqn:Hdrop.
  { apply (f_equal length) in Hdrop. rewrite length_drop in Hdrop. simpl in Hdrop. lia. }
  assert (cpuRegisterValues merged = pre ++ b :: rest) as Hbank .
  { etransitivity; [symmetry; apply (take_drop (length pre))|]. by rewrite Hpre, Hdrop. }
  assert (∀ b' merged', known_bank merged' → context_ok merged' → cpuRegisterValues merged' = pre ++ b' :: rest →
    cpu_architecture merged' = cpu_architecture merged →
    mergeRows merged' (len pre + 1) values displayed = Ret m →
    cpu_architecture m = cpu_architecture merged ∧ context_ok m ∧
    cpuRegisterValues m = pre ++ b' :: editedBank rest displayed values) as Hgo.
  { intros b' merged' Hk' Hok' Hb' Ha' Hm. assert (length (pre ++ [b']) = S (length pre)) as Hpl by (rewrite length_app; simpl; lia).
    assert (pre ++ b' :: rest = (pre ++ [b']) ++ rest) as Hsplit by by rewrite <- app_assoc.
    destruct (IH displayed merged' m (pre ++ [b'])) as (H1 & H2 & H3); try done.
    - congruence.
    - rewrite Hb', Hpl, length_app. rewrite Hbank, length_app in Hlen. simpl in *. lia.
    - rewrite Hb', Hsplit. apply take_app_length.
    - by rewrite len_snoc.
    - split_and!; [congruence|done|]. rewrite H3, Hb'. rewrite Hsplit, drop_app_length.
      by rewrite <- app_assoc. }
  unfold editedBank in *. cbn [zip zip_with fst snd]. change (zip_with pair displayed values) with (zip displayed values).
  destruct (Z.eqb_spec v (reg_value r)) as [|Hne].
  - intros Hm. by apply (Hgo b merged).
  - assert (lget (cpuRegisterValues merged) (len pre) = Some b) as Hget.
    { rewrite Hbank. unfold lget, len. rewrite (proj2 (Z.leb_le _ _)) by lia. rewrite Nat2Z.id.
      by rewrite list_lookup_middle. }
    pose proof (register_rows merged (len pre) v Hk Hok Hv1 (len_nonneg pre)) as Hrow.
    unfold row_spec in Hrow. rewrite Hget in Hrow. destruct b as [[n old] w].
    destruct (v <? 2 ^ w); [|by rewrite Hrow].
    destruct Hrow as (c' & -> & Ha & Hok' & Hb'). intros Hm. apply (Hgo (n, v, w) c'); try done.
    + unfold known_bank in *. by rewrite Ha.
    + rewrite Hb', Hbank. unfold len. rewrite Nat2Z.id. rewrite insert_app_r_alt by done. by rewrite Nat.sub_diag.
Qed.

(** Merging edits into a live context.  When [mergeCpuRegisterEdits] succeeds, the
    resulting bank holds the edited value in exactly the rows whose value was changed
    from the displayed snapshot, and the live value of the current context in every
    other row. *)
Theorem merge_edits current displayed values m :
  context_ok current → Forall (λ v, is_u64 v) values →
  mergeCpuRegisterEdits current displayed values = Ret m →
  cpu_architecture m = cpu_architecture current ∧ context_ok m ∧
  cpuRegisterValues m = editedBank (cpuRegisterValues current) (cpuRegisterValues displayed) values.
Proof.
  intros Hok Hv. unfold mergeCpuRegisterEdits. case_bool_decide as Ha; [|done]. cbn [negb].
  case_match; [done|]. case_match eqn:He; [done|]. apply orb_false_iff in He as [Hne Hl].
  apply bool_decide_eq_false in Hne. apply negb_false_iff, Z.eqb_eq in Hl.
  pose proof (bank_names _ _ Ha) as Hn. apply (f_equal length) in Hn. rewrite !length_fmap in Hn.
  intros Hm. destruct (mergeRows_spec values (cpuRegisterValues displayed) current m []) as (H1 & H2 & H3); try done.
  - apply known_bank_nonempty. intros Hc. rewrite Hc in Hn. by destruct (cpuRegisterValues displayed).
  - unfold len in Hl. lia.
  - unfold len in Hl. simpl. lia.
Qed.

Lemma merge_edits_witness :
  ∃ m, mergeCpuRegisterEdits (setPc (sampleContext Arm64) 4096) (sampleContext Arm64)
      (<[5%nat := 7]> (reg_value <$> cpuRegisterValues (sampleContext Arm64))) = Ret m ∧
    reg_value <$> take 6 (cpuRegisterValues m) = [4096; 200; 129; 130; 100; 7].
Proof.
  eexists. split; [reflexivity|].
  edestruct (merge_edits (setPc (sampleContext Arm64) 4096) (sampleContext Arm64)
    (<[5%nat := 7]> (reg_value <$> cpuRegisterValues (sampleContext Arm64)))) as (_ & _ & H).
  - apply setScalar_ok; [apply sample_ok|decide_by_compute].
  - decide_by_compute.
  - reflexivity.
  - rewrite H. reflexivity.
Defined.

(** ** Conditional jumps decide comparisons *)

(** The flags of [cmp a, b] on [w]-bit operands, as the x86 manuals define them. *)
Definition x86_cmp (w a b flags : Z) : Prop :=
  let d := to_signed w a - to_signed w b in
  bit flags 0 = (a <? b) ∧ bit flags 6 = (a =? b) ∧
  bit flags 7 = Z.testbit (wrap w (a - b)) (w - 1) ∧
  bit flags 11 = negb ((- 2 ^ (w - 1) <=? d) && (d <? 2 ^ (w - 1))).
(** The flags of [cmp a, b] on ARM: carry is the absence of borrow. *)
Definition arm_cmp (w a b ps : Z) : Prop :=
  let d := to_signed w a - to_signed w b in
  bit ps 29 = negb (a <? b) ∧ bit ps 30 = (a =? b) ∧
  bit ps 31 = Z.testbit (wrap w (a - b)) (w - 1) ∧
  bit ps 28 = negb ((- 2 ^ (w - 1) <=? d) && (d <? 2 ^ (w - 1))).

Lemma sign_overflow w a b :
  0 < w → in_width w a → in_width w b →
  let d := to_signed w a - to_signed w b in
  xorb (Z.testbit (wrap w (a - b)) (w - 1)) (negb ((- 2 ^ (w - 1) <=? d) && (d <? 2 ^ (w - 1))))
  = (to_signed w a <? to_signed w b).
Proof.
  intros Hw Ha Hb d. assert (2 ^ w = 2 * 2 ^ (w - 1)) as He.
  { rewrite <- Z.pow_succ_r by lia. f_equal. lia. }
  assert (Z.testbit (wrap w (a - b)) (w - 1) = negb (wrap w (a - b) <? 2 ^ (w - 1))) as ->.
  { pose proof (wrap_bound w (a - b) ltac:(lia)) as Hd. unfold in_width in Hd.
    rewrite <- (Z.add_0_l (w - 1)) at 1. rewrite <- Z.div_pow2_bits by lia.
    destruct (Z.ltb_spec (wrap w (a - b)) (2 ^ (w - 1))).
    - by rewrite Z.div_small by lia.
    - replace (wrap w (a - b) / 2 ^ (w - 1)) with 1; [done|]. apply Z.div_unique with (wrap w (a - b) - 2 ^ (w - 1)); lia. }
  unfold in_width in Ha, Hb. subst d. unfold to_signed. rewrite (wrap_small w a), (wrap_small w b) by done.
  assert (wrap w (a - b) = if a <? b then a - b + 2 ^ w else a - b) as ->.
  { unfold wrap. destruct (Z.ltb_spec a b).
    - symmetry. apply Z.mod_unique with (-1); lia.
    - symmetry. apply Z.mod_unique with 0; lia. }
  generalize dependent (2 ^ (w - 1)). intros h He. rewrite He in *.
  destruct (Z.ltb_spec a h), (Z.ltb_spec b h), (Z.ltb_spec a b); cbn [xorb negb];
    repeat match goal with |- context [?x <? ?y] => destruct (Z.ltb_spec x y)
                         | |- context [?x <=? ?y] => destruct (Z.leb_spec x y) end; simpl; try done; lia.
Qed.

Lemma signed_eqb w a b : 0 < w → in_width w a → in_width w b → (to_signed w a =? to_signed w b) = (a =? b).
Proof.
  intros Hw Ha Hb. apply Bool.eq_iff_eq_true. rewrite !Z.eqb_eq. split; [|by intros ->].
  intros He. rewrite <- (wrap_small w a), <- (wrap_small w b) by done.
  rewrite <- (wrap_to_signed w a), <- (wrap_to_signed w b) by lia. by rewrite He.
Qed.

(** The shown branch outcome is the comparison.  After comparing two [w]-bit values,
    the x86 unsigned and signed conditional jumps, and the ARM64 conditions, are
    reported taken exactly when the corresponding relation holds between the values. *)
Theorem conditional_jumps w a b flags ps :
  0 < w → in_width w a → in_width w b → x86_cmp w a b flags → arm_cmp w a b ps →
  let sa := to_signed w a in let sb := to_signed w b in
  (conditionalJumpTaken (bs "je") flags = Some (a =? b) ∧ conditionalJumpTaken (bs "jb") flags = Some (a <? b) ∧
   conditionalJumpTaken (bs "jbe") flags = Some (a <=? b) ∧ conditionalJumpTaken (bs "ja") flags = Some (b <? a) ∧
   conditionalJumpTaken (bs "jae") flags = Some (b <=? a) ∧ conditionalJumpTaken (bs "jl") flags = Some (sa <? sb) ∧
   conditionalJumpTaken (bs "jle") flags = Some (sa <=? sb) ∧ conditionalJumpTaken (bs "jg") flags = Some (sb <? sa) ∧
   conditionalJumpTaken (bs "jge") flags = Some (sb <=? sa)) ∧
  (conditionalArm64JumpTaken (bs "b.eq") ps = Some (a =? b) ∧ conditionalArm64JumpTaken (bs "b.lo") ps = Some (a <? b) ∧
   conditionalArm64JumpTaken (bs "b.ls") ps = Some (a <=? b) ∧ conditionalArm64JumpTaken (bs "b.hi") ps = Some (b <? a) ∧
   conditionalArm64JumpTaken (bs "b.hs") ps = Some (b <=? a) ∧ conditionalArm64JumpTaken (bs "b.lt") ps = Some (sa <? sb) ∧
   conditionalArm64JumpTaken (bs "b.le") ps = Some (sa <=? sb) ∧ conditionalArm64JumpTaken (bs "b.gt") ps = Some (sb <? sa) ∧
   conditionalArm64JumpTaken (bs "b.ge") ps = Some (sb <=? sa)).
Proof.
  intros Hw Ha Hb (Hc & Hz & Hs & Ho) (Hc' & Hz' & Hs' & Ho') sa sb.
  pose proof (sign_overflow w a b Hw Ha Hb) as Hlt. cbv zeta in Hlt.
  rewrite <- Hs, <- Ho in Hlt. pose proof Hlt as Hlt'. rewrite Hs, Ho, <- Hs', <- Ho' in Hlt'.
  pose proof (signed_eqb w a b Hw Ha Hb) as Heq. fold sa sb in Hlt, Hlt', Heq.
  assert (∀ p q, eqb p q = negb (xorb p q)) as Hxor by (by intros [] []).
  unfold conditionalJumpTaken, conditionalArm64JumpTaken. cbv [isOneOf existsb].
  repeat match goal with |- context [bytes_eqb ?m ?n] =>
    let b := eval vm_compute in (bytes_eqb m n) in change (bytes_eqb m n) with b end.
  cbn [orb]. rewrite !Hxor, Hlt, Hlt', Hc, Hz, Hc', Hz'.
  repeat match goal with |- context [?x <=? ?y] => rewrite (Z.leb_antisym y x) end.
  split_and!; f_equal;
    destruct (Z.ltb_spec a b), (Z.eqb_spec a b), (Z.ltb_spec b a), (Z.ltb_spec sa sb), (Z.ltb_spec sb sa),
      (Z.eqb_spec sa sb); simpl; try done; lia.
Qed.

Lemma conditional_jumps_witness :
  conditionalJumpTaken (bs "jl") (0x81) = Some true ∧ conditionalJumpTaken (bs "jb") (0x81) = Some true.
Proof.
  destruct (conditional_jumps 8 1 2 0x81 0x80000000) as ((_ & Hb & _ & _ & _ & Hl & _) & _).
  - lia.
  - decide_by_compute.
  - decide_by_compute.
  - unfold x86_cmp. repeat split.
  - unfold arm_cmp. repeat split.
  - split; [exact Hl|exact Hb].
Defined.
