(* ===== verification/Breakpoints.v ===== *)
(** * Breakpoints

    Models [BreakpointManager] of [src/debug/breakpoint_manager.hpp] and [.cpp]: the
    breakpoint table, the four hardware registers, programming a thread, and recording
    hits.  Every method holds the mutex for its whole body except [recordHit], which
    releases it while the Lua condition runs; its two critical sections are separate
    steps, so any interleaving with other threads is covered.  The Lua condition
    ([conditionMatches]) and the debugger are parameters. *)

From S2P Require Import Prelude TargetMachine Registers.

Inductive BpType : Set := BpExecute | BpWrite | BpRead | BpAccess.
Inductive BpAction : Set := ActBreak | ActFindCode | ActFindAccess | ActTrace | ActOnBreakpoint.
Inductive BpMethod : Set := Hardware | Software.
#[export] Instance BpMethod_eq_dec : EqDecision BpMethod.
Proof. solve_decision. Defined.

Record Breakpoint := mkBp {
  bp_id : Z; bp_address : Z; bp_type : BpType; bp_action : BpAction; bp_method : BpMethod;
  bp_hwRegister : Z; bp_size : Z; bp_enabled : bool; bp_oneShot : bool; bp_threadFilter : Z;
  bp_condition : bytes; bp_description : bytes; bp_hitCount : Z
}.
Record BreakpointHit := mkHit {
  hit_bpId : Z; hit_address : Z; hit_rip : Z; hit_tid : Z; hit_context : CpuContext;
  hit_instructionBytes : bytes; hit_instructionText : bytes
}.
Record Manager := mkManager {
  bps : list Breakpoint; hitLog : gmap Z (list BreakpointHit); nextId : Z; hasCallback : bool
}.

Definition INT_MAX : Z := 2147483647.
Definition initial : Manager := mkManager [] ∅ 1 false.

(** Field updates. *)
Definition withId (b : Breakpoint) (i : Z) : Breakpoint :=
  mkBp i (bp_address b) (bp_type b) (bp_action b) (bp_method b) (bp_hwRegister b) (bp_size b) (bp_enabled b)
    (bp_oneShot b) (bp_threadFilter b) (bp_condition b) (bp_description b) (bp_hitCount b).
Definition withRegister (b : Breakpoint) (r : Z) : Breakpoint :=
  mkBp (bp_id b) (bp_address b) (bp_type b) (bp_action b) (bp_method b) r (bp_size b) (bp_enabled b)
    (bp_oneShot b) (bp_threadFilter b) (bp_condition b) (bp_description b) (bp_hitCount b).
Definition withEnabled (b : Breakpoint) (e : bool) : Breakpoint :=
  mkBp (bp_id b) (bp_address b) (bp_type b) (bp_action b) (bp_method b) (bp_hwRegister b) (bp_size b) e
    (bp_oneShot b) (bp_threadFilter b) (bp_condition b) (bp_description b) (bp_hitCount b).
Definition withHitCount (b : Breakpoint) (n : Z) : Breakpoint :=
  mkBp (bp_id b) (bp_address b) (bp_type b) (bp_action b) (bp_method b) (bp_hwRegister b) (bp_size b)
    (bp_enabled b) (bp_oneShot b) (bp_threadFilter b) (bp_condition b) (bp_description b) n.

Definition isHardware (b : Breakpoint) : bool := bool_decide (bp_method b = Hardware).
(** The breakpoint occupies a debug register now. *)
Definition occupies (b : Breakpoint) : bool := bp_enabled b && isHardware b.

(** [findFreeHwRegisterUnlocked]. *)
Definition usedRegister (bs : list Breakpoint) (i : Z) : bool :=
  existsb (λ b, occupies b && (bp_hwRegister b =? i)) bs.
Definition findFreeHwRegister (bs : list Breakpoint) : Z :=
  match List.find (λ i, negb (usedRegister bs i)) [0; 1; 2; 3] with Some i => i | None => -1 end.

(** ** Operations on the table *)

(** [add]: the new manager and the id, or -1. *)
Definition add (m : Manager) (bp : Breakpoint) : Manager * Z :=
  let b := if isHardware bp && (bp_hwRegister bp <? 0)
           then withRegister bp (findFreeHwRegister (bps m)) else bp in
  let refused := isHardware b &&
    ((bp_enabled b && ((bp_hwRegister b <? 0) || (3 <? bp_hwRegister b)))
     || (3 <? bp_hwRegister b)
     || existsb (λ other, bp_enabled b && occupies other && (bp_hwRegister other =? bp_hwRegister b)) (bps m)) in
  if refused then (m, -1)
  else if nextId m =? INT_MAX then (m, -1)
  else let b := withId b (nextId m) in
       (mkManager (bps m ++ [b]) (hitLog m) (nextId m + 1) (hasCallback m), nextId m).

Definition remove (m : Manager) (id : Z) : Manager :=
  mkManager (List.filter (λ b, negb (bp_id b =? id)) (bps m)) (delete id (hitLog m)) (nextId m) (hasCallback m).

Fixpoint updateFirst (f : Breakpoint → Breakpoint) (id : Z) (bs : list Breakpoint) : list Breakpoint :=
  match bs with
  | [] => []
  | b :: bs => if bp_id b =? id then f b :: bs else b :: updateFirst f id bs
  end.
(** The body of the loop of [setEnabled], for the first breakpoint of that id. *)
Definition enableOne (all : list Breakpoint) (enabled : bool) (b : Breakpoint) : Breakpoint :=
  if enabled && negb (bp_enabled b) && isHardware b then
    let b := withRegister b (findFreeHwRegister all) in
    if bp_hwRegister b <? 0 then b else withEnabled b enabled
  else withEnabled b enabled.
Definition setEnabled (m : Manager) (id : Z) (enabled : bool) : Manager :=
  mkManager (updateFirst (enableOne (bps m) enabled) id (bps m)) (hitLog m) (nextId m) (hasCallback m).

Definition get (m : Manager) (id : Z) : option Breakpoint := List.find (λ b, bp_id b =? id) (bps m).
Definition getHits (m : Manager) (id : Z) : list BreakpointHit := default [] (hitLog m !! id).
Definition clearHits (m : Manager) (id : Z) : Manager :=
  mkManager (bps m) (delete id (hitLog m)) (nextId m) (hasCallback m).
Definition setHitCallback (m : Manager) (present : bool) : Manager :=
  mkManager (bps m) (hitLog m) (nextId m) present.

(** ** Programming a thread *)

(** A call [dbg.setBreakpoint(tid, register, address, type, size)]. *)
Definition SetCall : Type := Z * Z * Z * Z.
Definition hwType (t : BpType) : Z :=
  match t with BpExecute => 0 | BpWrite => 1 | BpRead | BpAccess => 3 end.
Definition hwSize (size : Z) : option Z :=
  if size =? 1 then Some 0 else if size =? 2 then Some 1
  else if size =? 4 then Some 3 else if size =? 8 then Some 2 else None.
(** Whether [applyToThread] programs the breakpoint for the thread. *)
Definition appliesTo (tid : Z) (b : Breakpoint) : bool :=
  isHardware b && bp_enabled b && (0 <=? bp_hwRegister b)
  && ((bp_threadFilter b =? 0) || (bp_threadFilter b =? tid)).

Section Debugger.
(** Whether the debugger accepts a call. *)
Context (setBreakpoint : Z → SetCall → bool) (removeBreakpoint : Z → Z → bool).

(** The calls made, in order, and the result. *)
Fixpoint applyToThread (tid : Z) (bs : list Breakpoint) : list SetCall * bool :=
  match bs with
  | [] => ([], true)
  | bp :: bs =>
      if negb (appliesTo tid bp) then applyToThread tid bs else
      match hwSize (bp_size bp) with
      | None => ([], false)
      | Some size =>
          if negb (hwType (bp_type bp) =? 0) && (1 <? bp_size bp)
             && negb (Z.land (bp_address bp) (bp_size bp - 1) =? 0)
          then ([], false)
          else
            let call := (bp_hwRegister bp, bp_address bp, hwType (bp_type bp), size) in
            if setBreakpoint tid call
            then let '(calls, ok) := applyToThread tid bs in (call :: calls, ok)
            else ([call], false)
      end
  end.

Fixpoint removeFromThread (tid : Z) (bs : list Breakpoint) : list Z * bool :=
  match bs with
  | [] => ([], true)
  | bp :: bs =>
      let '(calls, ok) := removeFromThread tid bs in
      if appliesTo tid bp
      then (bp_hwRegister bp :: calls, removeBreakpoint tid (bp_hwRegister bp) && ok)
      else (calls, ok)
  end.
End Debugger.

(** ** Recording hits *)

(** The hit concerns the thread. *)
Definition accepts (b : Breakpoint) (hit : BreakpointHit) : bool :=
  bp_enabled b && ((bp_threadFilter b =? 0) || (bp_threadFilter b =? hit_tid hit)).

(** First critical section of [recordHit]: the snapshot of the breakpoint. *)
Definition recordBegin (m : Manager) (id : Z) (hit : BreakpointHit) : option Breakpoint :=
  match get m id with
  | Some b => if accepts b hit then Some b else None
  | None => None
  end.

Fixpoint eraseFirst (id : Z) (bs : list Breakpoint) : list Breakpoint :=
  match bs with
  | [] => []
  | b :: bs => if bp_id b =? id then bs else b :: eraseFirst id bs
  end.
Definition maxLog : Z := 10000.
(** Appends to a log, dropping the 5000 oldest entries of a full one. *)
Definition pushHit (log : list BreakpointHit) (hit : BreakpointHit) : list BreakpointHit :=
  let log := log ++ [hit] in if maxLog <? len log then drop 5000 log else log.

(** Second critical section: the new manager, whether the hit is delivered, and the
    arguments of the callback when one is installed. *)
Definition recordCommit (m : Manager) (id : Z) (hit : BreakpointHit)
  : Manager * bool * option (Breakpoint * BreakpointHit) :=
  match get m id with
  | Some b =>
      if negb (accepts b hit) then (m, false, None) else
      let b := if bp_hitCount b <? INT_MAX then withHitCount b (bp_hitCount b + 1) else b in
      let callbackBp := if bp_oneShot b then withEnabled b false else b in
      let bs := if bp_oneShot b then eraseFirst id (bps m) else updateFirst (λ _, b) id (bps m) in
      (mkManager bs (<[id := pushHit (getHits m id) hit]> (hitLog m)) (nextId m) (hasCallback m), true,
       if hasCallback m then Some (callbackBp, hit) else None)
  | None => (m, false, None)
  end.

Section Record.
(** [conditionMatches(bp, hit)]. *)
Context (conditionMatches : Breakpoint → BreakpointHit → bool).

(** [recordHit] with no other thread in between. *)
Definition recordHit (m : Manager) (id : Z) (hit : BreakpointHit)
  : Manager * bool * option (Breakpoint * BreakpointHit) :=
  match recordBegin m id hit with
  | None => (m, false, None)
  | Some b => if negb (conditionMatches b hit) then (m, false, None) else recordCommit m id hit
  end.

(** The manager with the hits whose condition has matched and whose second critical
    section is still to come. *)
Definition Shared : Type := Manager * list (Z * BreakpointHit).

Inductive step : Shared → Shared → Prop :=
  | step_add m p bp : bp_hitCount bp ≤ INT_MAX → step (m, p) ((add m bp).1, p)
  | step_remove m p id : step (m, p) (remove m id, p)
  | step_setEnabled m p id e : step (m, p) (setEnabled m id e, p)
  | step_clearHits m p id : step (m, p) (clearHits m id, p)
  | step_setHitCallback m p c : step (m, p) (setHitCallback m c, p)
  | step_recordBegin m p id hit b :
      recordBegin m id hit = Some b → conditionMatches b hit = true →
      step (m, p) (m, p ++ [(id, hit)])
  | step_recordCommit m p1 p2 id hit :
      step (m, p1 ++ (id, hit) :: p2) ((recordCommit m id hit).1.1, p1 ++ p2).
Definition reachable (s s' : Shared) : Prop := rtc step s s'.
End Record.

(** ** The table invariant *)

Definition table_ok (bs : list Breakpoint) (next : Z) : Prop :=
  NoDup (bp_id <$> bs) ∧
  (∀ b, b ∈ bs → 1 ≤ bp_id b < next ∧ bp_hitCount b ≤ INT_MAX ∧ (occupies b = true → 0 ≤ bp_hwRegister b ≤ 3)) ∧
  (∀ b1 b2, b1 ∈ bs → b2 ∈ bs → occupies b1 = true → occupies b2 = true →
     bp_hwRegister b1 = bp_hwRegister b2 → bp_id b1 = bp_id b2).
Definition manager_ok (m : Manager) : Prop :=
  1 ≤ nextId m ≤ INT_MAX ∧ table_ok (bps m) (nextId m) ∧
  ∀ id log, hitLog m !! id = Some log → 1 ≤ id < nextId m ∧ len log ≤ maxLog.

Lemma findFree_spec bs :
  findFreeHwRegister bs = -1 ∨
  (0 ≤ findFreeHwRegister bs ≤ 3 ∧ ∀ b, b ∈ bs → occupies b = true → bp_hwRegister b ≠ findFreeHwRegister bs).
Proof.
  unfold findFreeHwRegister. destruct (List.find _ _) as [i|] eqn:Hf; [right|by left].
  apply List.find_some in Hf as [Hin Hu%negb_true_iff]. split.
  - apply list_elem_of_In in Hin. rewrite !elem_of_cons, elem_of_nil in Hin. lia.
  - intros b Hb Ho He. unfold usedRegister in Hu.
    assert (existsb (λ b, occupies b && (bp_hwRegister b =? i)) bs = true); [|congruence].
    apply existsb_exists. exists b. rewrite <- list_elem_of_In. split; [done|].
    rewrite Ho, He. simpl. apply Z.eqb_refl.
Qed.

Lemma elem_of_updateFirst f id bs b :
  NoDup (bp_id <$> bs) → b ∈ updateFirst f id bs →
  (b ∈ bs ∧ bp_id b ≠ id) ∨ ∃ b0, b0 ∈ bs ∧ bp_id b0 = id ∧ b = f b0.
Proof.
  induction bs as [|c bs IH]; cbn [updateFirst fmap list_fmap]; [by intros _ ?%elem_of_nil|].
  intros [Hni Hnd]%NoDup_cons. destruct (Z.eqb_spec (bp_id c) id) as [Hc|Hc].
  - intros [->|Hb]%elem_of_cons; [right; exists c; rewrite elem_of_cons; auto|].
    left. rewrite elem_of_cons. split; [auto|]. intros He. apply Hni. rewrite Hc, <- He.
    by apply list_elem_of_fmap_2.
  - intros [->|Hb]%elem_of_cons; [left; rewrite elem_of_cons; auto|].
    destruct (IH Hnd Hb) as [[? ?]|(b0 & ? & ? & ?)]; [left|right; exists b0]; rewrite elem_of_cons; auto.
Qed.

Lemma updateFirst_ids f id bs : (∀ b, bp_id (f b) = bp_id b ∨ bp_id (f b) = id) → bp_id <$> updateFirst f id bs = bp_id <$> bs.
Proof.
  intros Hf. induction bs as [|c bs IH]; [done|]. cbn [updateFirst].
  destruct (Z.eqb_spec (bp_id c) id) as [Hc|]; cbn; [|cbn in IH; by rewrite IH].
  f_equal. destruct (Hf c); congruence.
Qed.

(** Any part of a valid table is valid. *)
Lemma table_ok_sub bs bs' next : bs' `sublist_of` bs → table_ok bs next → table_ok bs' next.
Proof.
  intros Hs (Hnd & Hall & Hreg). assert (∀ b, b ∈ bs' → b ∈ bs) as Hin by (intros b; by eapply sublist_subseteq).
  split_and!; [|auto|auto 10]. eapply sublist_NoDup; [exact Hnd|]. by apply fmap_sublist.
Qed.

Lemma table_ok_next bs next next' : next ≤ next' → table_ok bs next → table_ok bs next'.
Proof. intros Hle (Hnd & Hall & Hreg). split_and!; [done| |done]. intros b Hb. destruct (Hall b Hb) as (? & ? & ?). split_and!; [lia..|done]. Qed.

(** Replacing the breakpoint of an id, keeping its id and a free register. *)
Lemma table_ok_update f id bs next :
  table_ok bs next → (∀ b, b ∈ bs → bp_id b = id → bp_id (f b) = id ∧ bp_hitCount (f b) ≤ INT_MAX ∧
    (occupies (f b) = true →
      0 ≤ bp_hwRegister (f b) ≤ 3 ∧
      ∀ c, c ∈ bs → bp_id c ≠ id → occupies c = true → bp_hwRegister c ≠ bp_hwRegister (f b))) →
  (∀ b, bp_id (f b) = bp_id b ∨ bp_id (f b) = id) → table_ok (updateFirst f id bs) next.
Proof.
  intros (Hnd & Hall & Hreg) Hf Hid. split_and!.
  - by rewrite updateFirst_ids.
  - intros b Hb. destruct (elem_of_updateFirst _ _ _ _ Hnd Hb) as [[Hb' _]|(b0 & Hb0 & Hid0 & ->)]; [by apply Hall|].
    destruct (Hf b0 Hb0 Hid0) as (Hi & Hh & Ho). destruct (Hall b0 Hb0) as (? & _ & _).
    split_and!; [lia..|]. intros Hocc. by apply Ho.
  - intros b1 b2 H1 H2 Ho1 Ho2 He.
    destruct (elem_of_updateFirst _ _ _ _ Hnd H1) as [[H1' Hn1]|(c1 & Hc1 & Hi1 & ->)];
    destruct (elem_of_updateFirst _ _ _ _ Hnd H2) as [[H2' Hn2]|(c2 & Hc2 & Hi2 & ->)].
    + by apply Hreg.
    + destruct (Hf c2 Hc2 Hi2) as (_ & _ & Hr). exfalso. by apply (proj2 (Hr Ho2) b1).
    + destruct (Hf c1 Hc1 Hi1) as (_ & _ & Hr). exfalso. by apply (proj2 (Hr Ho1) b2).
    + destruct (Hf c1 Hc1 Hi1) as (-> & _ & _), (Hf c2 Hc2 Hi2) as (-> & _ & _). done.
Qed.

Lemma get_Some m id b : get m id = Some b → b ∈ bps m ∧ bp_id b = id.
Proof. unfold get. intros [Hin He%Z.eqb_eq]%List.find_some. by rewrite list_elem_of_In. Qed.

Lemma eraseFirst_sublist id bs : eraseFirst id bs `sublist_of` bs.
Proof.
  induction bs as [|b bs IH]; [done|]. cbn [eraseFirst]. case_match; [by apply sublist_cons|by apply sublist_skip].
Qed.

Lemma filter_sublist' (p : Breakpoint → bool) bs : List.filter p bs `sublist_of` bs.
Proof. induction bs as [|b bs IH]; [done|]. cbn. case_match; [by apply sublist_skip|by apply sublist_cons]. Qed.

Lemma manager_ok_initial : manager_ok initial.
Proof.
  split_and!; cbn; [lia|unfold INT_MAX; lia| |]; [split_and!; [apply NoDup_nil_2|by intros ? ?%elem_of_nil|by intros ? ? ?%elem_of_nil]|].
  intros id log. by rewrite lookup_empty.
Qed.

Lemma add_ok m bp : bp_hitCount bp ≤ INT_MAX → manager_ok m → manager_ok (add m bp).1.
Proof.
  intros Hh Hok. pose proof Hok as (Hn & (Hnd & Hall & Hreg) & Hl). unfold add.
  set (b := if _ && _ then _ else bp). assert (bp_hitCount b = bp_hitCount bp) as Hc by (subst b; by case_match).
  destruct (isHardware b && _) eqn:Href; [done|].
  destruct (nextId m =? INT_MAX) eqn:Hmax; [done|]. apply Z.eqb_neq in Hmax.
  assert (occupies (withId b (nextId m)) = true →
          0 ≤ bp_hwRegister b ≤ 3 ∧
          ∀ c, c ∈ bps m → occupies c = true → bp_hwRegister c ≠ bp_hwRegister b) as Hocc.
  { intros [He Hw]%andb_true_iff. cbn in He. change (isHardware b = true) in Hw.
    rewrite Hw, He in Href. cbn in Href.
    apply orb_false_iff in Href as [[[H1%Z.ltb_ge H2%Z.ltb_ge]%orb_false_iff _]%orb_false_iff H3]. split; [lia|].
    intros c Hin Ho Heq. assert (existsb (λ other, occupies other && (bp_hwRegister other =? bp_hwRegister b)) (bps m) = true); [|congruence].
    apply existsb_exists. exists c. split; [by apply list_elem_of_In|]. by rewrite Ho, Heq, Z.eqb_refl. }
  split_and!; cbn; [lia|lia| |].
  - split_and!.
    + rewrite fmap_app. apply NoDup_app. split_and!; [done| |apply NoDup_singleton].
      intros i Hi%list_elem_of_fmap [=]%list_elem_of_singleton. destruct Hi as (c & -> & Hin). destruct (Hall c Hin). cbn in *; lia.
    + intros c [Hin| ->%list_elem_of_singleton]%elem_of_app.
      * destruct (Hall c Hin) as (? & ? & ?). split_and!; [lia..|done].
      * cbn. split_and!; [lia..|]. intros Ho. by apply Hocc.
    + intros c1 c2 [H1| ->%list_elem_of_singleton]%elem_of_app [H2| ->%list_elem_of_singleton]%elem_of_app Ho1 Ho2 He;
        [by apply Hreg| | |done]; exfalso.
      * by apply (proj2 (Hocc Ho2) c1).
      * by apply (proj2 (Hocc Ho1) c2).
  - intros id log Hlog. destruct (Hl id log Hlog). lia.
Qed.

Lemma log_delete (logs : gmap Z (list BreakpointHit)) id (P : Z → list BreakpointHit → Prop) :
  (∀ i l, logs !! i = Some l → P i l) → ∀ i l, delete id logs !! i = Some l → P i l.
Proof. intros H i l [_ Hl]%lookup_delete_Some. auto. Qed.

Lemma remove_ok m id : manager_ok m → manager_ok (remove m id).
Proof.
  intros (Hn & Ht & Hl). split_and!; cbn; [lia|lia| |].
  - eapply table_ok_sub; [apply filter_sublist'|done].
  - by apply log_delete.
Qed.

Lemma enableOne_id all e b : bp_id (enableOne all e b) = bp_id b.
Proof. unfold enableOne. by repeat case_match. Qed.

Lemma setEnabled_ok m id e : manager_ok m → manager_ok (setEnabled m id e).
Proof.
  intros (Hn & Ht & Hl). split_and!; cbn; [lia|lia| |done]. apply table_ok_update; [done| |].
  - intros b Hb Hid. rewrite enableOne_id. split; [done|]. destruct Ht as (Hnd & Hall & Hreg), (Hall b Hb) as (_ & Hh & Ho).
    unfold enableOne. destruct (_ && _) eqn:Hc.
    + apply andb_true_iff in Hc as [[-> He%negb_true_iff]%andb_true_iff Hw].
      case_match eqn:Hr; cbn in *; (split; [done|]).
      * unfold occupies. cbn. by rewrite He.
      * intros _. destruct (findFree_spec (bps m)) as [Hf|[Hf Hfree]]; [rewrite Hf in Hr; done|].
        split; [done|]. intros c Hin _ Hoc. by apply Hfree.
    + split; [done|]. unfold occupies. cbn. intros [-> Hw]%andb_true_iff. change (isHardware b = true) in Hw.
      rewrite Hw, andb_true_r in Hc. cbn in Hc. apply negb_false_iff in Hc.
      assert (occupies b = true) as Hob by (unfold occupies; by rewrite Hc, Hw).
      split; [auto|]. intros c Hin Hne Hoc Heq. apply Hne. rewrite <- Hid. by apply Hreg.
  - intros b. left. apply enableOne_id.
Qed.

Lemma pushHit_len log hit : len log ≤ maxLog → len (pushHit log hit) ≤ maxLog.
Proof.
  unfold pushHit, maxLog. intros H. case_match eqn:E; [|by apply Z.ltb_ge in E].
  unfold len in *. rewrite length_drop, length_app in *. cbn in *. lia.
Qed.

Lemma log_insert (logs : gmap Z (list BreakpointHit)) id log (P : Z → list BreakpointHit → Prop) :
  P id log → (∀ i l, logs !! i = Some l → P i l) → ∀ i l, <[id := log]> logs !! i = Some l → P i l.
Proof. intros H1 H2 i l [[<- <-]|[_ Hl]]%lookup_insert_Some; auto. Qed.

Lemma getHits_len m id : manager_ok m → len (getHits m id) ≤ maxLog.
Proof.
  intros (_ & _ & Hl). unfold getHits. destruct (hitLog m !! id) as [l|] eqn:E; [by apply (Hl id)|done].
Qed.

Lemma recordCommit_ok m id hit : manager_ok m → manager_ok (recordCommit m id hit).1.1.
Proof.
  intros Hok. pose proof Hok as (Hn & Ht & Hl). unfold recordCommit.
  destruct (get m id) as [b|] eqn:Hg; [|done]. destruct (negb _); [done|].
  apply get_Some in Hg as [Hb <-]. destruct Ht as (Hnd & Hall & Hreg). destruct (Hall b Hb) as (Hi & Hh & Ho).
  split_and!; cbn; [lia|lia| |].
  - set (b' := if bp_hitCount b <? INT_MAX then _ else b).
    assert (bp_oneShot b' = bp_oneShot b) as -> by (subst b'; by case_match).
    assert (bp_hwRegister b' = bp_hwRegister b) as Hr by (subst b'; by case_match).
    assert (occupies b' = occupies b) as Hob by (subst b'; by case_match).
    assert (bp_id b' = bp_id b) as Hid by (subst b'; by case_match).
    assert (bp_hitCount b' ≤ INT_MAX) as Hcount by (subst b'; case_match eqn:E; [apply Z.ltb_lt in E; cbn; lia|done]).
    destruct (bp_oneShot b); [by eapply table_ok_sub; [apply eraseFirst_sublist|]|].
    apply table_ok_update; [done| |intros ?; by right]. intros c Hc Hcid. split_and!; [done|done|].
    rewrite Hob, Hr. intros Hocc. split; [by apply Ho|]. intros d Hd Hne Hod He. by apply Hne, Hreg.
  - apply log_insert; [|done]. split; [lia|]. apply pushHit_len. by apply getHits_len.
Qed.

Lemma step_ok cond s s' : step cond s s' → manager_ok s.1 → manager_ok s'.1.
Proof.
  intros [] Hok; cbn in *; [by apply add_ok|by apply remove_ok|by apply setEnabled_ok| |done|done|by apply recordCommit_ok].
  destruct Hok as (Hn & Ht & Hl). split_and!; cbn; [lia|lia|done|]. by apply log_delete.
Qed.

Lemma reachable_ok cond s s' : reachable cond s s' → manager_ok s.1 → manager_ok s'.1.
Proof. induction 1; [done|]. eauto using step_ok. Qed.

(** ** Ids are never reused *)

(** The id was given out and its breakpoint is gone. *)
Definition gone (id : Z) (m : Manager) : Prop := get m id = None ∧ id < nextId m.

Lemma find_None_iff id bs : List.find (λ b, bp_id b =? id) bs = None ↔ ∀ b, b ∈ bs → bp_id b ≠ id.
Proof.
  split.
  - intros H b Hb%list_elem_of_In. by apply (List.find_none _ _ H), Z.eqb_neq in Hb.
  - intros H. destruct (List.find _ bs) as [b|] eqn:E; [|done].
    apply List.find_some in E as [Hb%list_elem_of_In He%Z.eqb_eq]. by destruct (H b).
Qed.

Lemma gone_step cond id s s' : manager_ok s.1 → step cond s s' → gone id s.1 → gone id s'.1 ∧
  (hitLog s.1 !! id = None → hitLog s'.1 !! id = None).
Proof.
  intros Hok Hs [Hg Hlt]. unfold gone, get in *. rewrite find_None_iff in Hg.
  destruct Hs as [m p bp _|m p i|m p i e|m p i|m p c|m p i hit b _ _|m p1 p2 i hit]; cbn in *.
  - unfold add. set (nb := if _ && _ then _ else bp).
    destruct (isHardware nb && _); [by rewrite find_None_iff|]. destruct (_ =? INT_MAX); [by rewrite find_None_iff|].
    cbn. split; [|done]. rewrite find_None_iff. split; [|lia].
    intros b [Hb| ->%list_elem_of_singleton]%elem_of_app; [auto|cbn; lia].
  - rewrite find_None_iff. split; [split; [|done]|].
    + intros b Hb%list_elem_of_In%List.filter_In. apply Hg. by apply list_elem_of_In, Hb.
    + intros Hl. apply lookup_delete_None. auto.
  - rewrite find_None_iff. split; [split; [|done]|done]. intros b Hb.
    destruct Hok as (_ & (Hnd & _) & _).
    destruct (elem_of_updateFirst _ _ _ _ Hnd Hb) as [[? _]|(b0 & Hb0 & _ & ->)]; [auto|]. rewrite enableOne_id. auto.
  - rewrite find_None_iff. split; [done|]. intros Hl. apply lookup_delete_None. auto.
  - by rewrite find_None_iff.
  - by rewrite find_None_iff.
  - unfold recordCommit. destruct (get m i) as [b|] eqn:Hb; [|cbn; by rewrite find_None_iff].
    destruct (negb _); [cbn; by rewrite find_None_iff|]. cbn. rewrite find_None_iff.
    apply get_Some in Hb as [Hb <-]. pose proof (Hg b Hb) as Hne. split; [split; [|done]|].
    + intros c Hc. set (b' := if bp_hitCount b <? INT_MAX then _ else b) in Hc.
      assert (bp_id b' = bp_id b) as Hid by (subst b'; destruct (_ <? _); done).
      destruct (bp_oneShot b'); [apply Hg; exact (sublist_subseteq _ _ (eraseFirst_sublist _ _) _ Hc)|].
      destruct Hok as (_ & (Hnd & _) & _).
      destruct (elem_of_updateFirst _ _ _ _ Hnd Hc) as [[? _]|(b0 & Hb0 & _ & ->)]; [auto|congruence].
    + intros Hl. by rewrite lookup_insert_ne.
Qed.

Lemma gone_forever cond id s s' : reachable cond s s' → manager_ok s.1 → gone id s.1 →
  gone id s'.1 ∧ (hitLog s.1 !! id = None → hitLog s'.1 !! id = None).
Proof.
  induction 1 as [|s1 s2 s3 Hs _ IH]; [done|]. intros Hok Hg.
  destruct (gone_step _ _ _ _ Hok Hs Hg) as [Hg2 Hl2]. destruct IH as [? ?]; eauto using step_ok.
Qed.

(** The breakpoint after a delivered hit. *)
Definition bumped (b : Breakpoint) : Breakpoint :=
  withHitCount b (if bp_hitCount b <? INT_MAX then bp_hitCount b + 1 else bp_hitCount b).
Lemma bumped_commit b : (if bp_hitCount b <? INT_MAX then withHitCount b (bp_hitCount b + 1) else b) = bumped b.
Proof. unfold bumped. case_match; [done|]. by destruct b. Qed.

Lemma find_updateFirst f id i bs : (∀ b, bp_id b = id → bp_id (f b) = id) →
  List.find (λ b, bp_id b =? i) (updateFirst f id bs) =
  (if i =? id then f <$> List.find (λ b, bp_id b =? i) bs else List.find (λ b, bp_id b =? i) bs).
Proof.
  intros Hf. induction bs as [|b bs IH]; [by case_match|]. cbn [updateFirst List.find].
  destruct (Z.eqb_spec (bp_id b) id) as [He|He]; cbn [List.find].
  - rewrite (Hf b He), He. destruct (Z.eqb_spec id i) as [->|]; [by rewrite Z.eqb_refl|].
    by destruct (Z.eqb_spec i id).
  - rewrite IH. destruct (Z.eqb_spec (bp_id b) i); [|done]. by destruct (Z.eqb_spec i id); [congruence|].
Qed.

Lemma find_eraseFirst id i bs : NoDup (bp_id <$> bs) →
  List.find (λ b, bp_id b =? i) (eraseFirst id bs) = (if i =? id then None else List.find (λ b, bp_id b =? i) bs).
Proof.
  induction bs as [|b bs IH]; [by case_match|]. cbn [eraseFirst fmap list_fmap List.find].
  intros [Hni Hnd]%NoDup_cons. destruct (Z.eqb_spec (bp_id b) id) as [He|He].
  - destruct (Z.eqb_spec i id) as [->|]; [|by destruct (Z.eqb_spec (bp_id b) i); [congruence|]].
    rewrite find_None_iff. intros c Hc Hci. apply Hni. rewrite He, <- Hci. by apply list_elem_of_fmap_2.
  - cbn [List.find]. rewrite (IH Hnd). destruct (Z.eqb_spec (bp_id b) i); [|done]. by destruct (Z.eqb_spec i id); [congruence|].
Qed.

(** Lookups after the second critical section delivers. *)
Lemma recordCommit_get m id hit b : manager_ok m → get m id = Some b → accepts b hit = true →
  ∃ m' cb, recordCommit m id hit = (m', true, cb) ∧
    (∀ i, get m' i = if i =? id then if bp_oneShot b then None else Some (bumped b) else get m i) ∧
    (∀ i, getHits m' i = if i =? id then pushHit (getHits m id) hit else getHits m i) ∧
    cb = (if hasCallback m then Some (if bp_oneShot b then withEnabled (bumped b) false else bumped b, hit) else None).
Proof.
  intros (_ & (Hnd & _) & _) Hg Ha. unfold recordCommit. rewrite Hg, Ha. cbn [negb].
  rewrite bumped_commit. change (bp_oneShot (bumped b)) with (bp_oneShot b). do 2 eexists. split_and!; [done| | |done].
  - intros i. unfold get in *. cbn. pose proof (proj2 (get_Some m id b Hg)) as Hid. destruct (bp_oneShot b).
    + by apply find_eraseFirst.
    + rewrite find_updateFirst by done. destruct (Z.eqb_spec i id) as [->|]; [by rewrite Hg|done].
  - intros i. unfold getHits. cbn. destruct (Z.eqb_spec i id) as [->|]; [by rewrite lookup_insert_eq|].
    by rewrite lookup_insert_ne.
Qed.

(** ** Properties *)

Definition sampleBp (one : bool) : Breakpoint :=
  mkBp 0 4096 BpWrite ActFindCode Hardware (-1) 4 true one 0 [] [] 0.
Definition sampleHit : BreakpointHit := mkHit 1 4096 4200 7 (sampleContext X86_64) [] [].
Definition always (b : Breakpoint) (hit : BreakpointHit) : bool := true.

(** C24: In every state that any interleaving of the manager's operations reaches, ids are
    unique, enabled hardware breakpoints hold distinct debug registers among DR0..DR3, every
    hit log has at most 10000 entries and no hit counter exceeds the largest [int]. *)
Theorem reachable_manager_ok (cond : Breakpoint → BreakpointHit → bool) s :
  reachable cond (initial, []) s → manager_ok s.1.
Proof. intros Hr. apply (reachable_ok _ _ _ Hr), manager_ok_initial. Qed.

Definition sampleState : Shared := ((add initial (sampleBp true)).1, []).
Lemma sampleState_reachable cond : reachable cond (initial, []) sampleState.
Proof. eapply rtc_l; [apply (step_add cond initial [] (sampleBp true)); done|apply rtc_refl]. Qed.
Lemma reachable_manager_ok_witness :
  manager_ok sampleState.1 ∧ bp_hwRegister <$> bps sampleState.1 = [0].
Proof. split; [apply (reachable_manager_ok always), sampleState_reachable|reflexivity]. Defined.

(** C25: A breakpoint that was removed never comes back: in every later state, whatever hits
    were still being recorded by other threads at the time, its id has no breakpoint and no
    log, and recording one more hit delivers nothing. *)
Theorem removed_never_returns (cond : Breakpoint → BreakpointHit → bool) m p id s' :
  reachable cond (initial, []) (m, p) → id < nextId m → reachable cond (remove m id, p) s' →
  get s'.1 id = None ∧ getHits s'.1 id = [] ∧
  ∀ hit, recordCommit s'.1 id hit = (s'.1, false, None) ∧ recordHit cond s'.1 id hit = (s'.1, false, None).
Proof.
  intros H1 Hlt H2. pose proof (reachable_ok _ _ _ H1 manager_ok_initial) as Hok. cbn in Hok.
  destruct (gone_forever cond id _ _ H2) as [[Hg _] Hl]; [by apply remove_ok| |].
  - split; [|done]. unfold get. apply find_None_iff. intros b Hb%list_elem_of_In%List.filter_In.
    cbn in Hb. destruct Hb as [_ Hb%negb_true_iff%Z.eqb_neq]. done.
  - split_and!; [done| |].
    + unfold getHits. rewrite Hl; [done|]. apply lookup_delete_eq.
    + intros hit. unfold recordHit, recordBegin, recordCommit. by rewrite Hg.
Qed.
(** Witness: a hit whose condition matched before the removal commits after it. *)
Lemma removed_never_returns_witness :
  get (recordCommit (remove sampleState.1 1) 1 sampleHit).1.1 1 = None ∧
  getHits (recordCommit (remove sampleState.1 1) 1 sampleHit).1.1 1 = [].
Proof.
  destruct (removed_never_returns always sampleState.1 [(1, sampleHit)] 1
    ((recordCommit (remove sampleState.1 1) 1 sampleHit).1.1, [])) as (H1 & H2 & _); [| |by eapply rtc_once; apply (step_recordCommit always _ [] [] 1 sampleHit)|done].
  - eapply rtc_r; [apply sampleState_reachable|].
    by apply (step_recordBegin always sampleState.1 [] 1 sampleHit (withId (withRegister (sampleBp true) 0) 1)).
  - vm_compute. reflexivity.
Defined.

(** C26: A one-shot breakpoint is delivered at most once: after the delivery, in every later
    state, no hit of its id is delivered again, even one whose condition matched before. *)
Theorem one_shot_once (cond : Breakpoint → BreakpointHit → bool) m p1 p2 id hit b s' :
  reachable cond (initial, []) (m, p1 ++ (id, hit) :: p2) →
  get m id = Some b → bp_oneShot b = true → accepts b hit = true →
  (recordCommit m id hit).1.2 = true ∧
  (reachable cond ((recordCommit m id hit).1.1, p1 ++ p2) s' →
   get s'.1 id = None ∧ ∀ hit', (recordCommit s'.1 id hit').1.2 = false ∧ (recordHit cond s'.1 id hit').1.2 = false).
Proof.
  intros H1 Hg Ho Ha. pose proof (reachable_ok _ _ _ H1 manager_ok_initial) as Hok. cbn in Hok.
  destruct (recordCommit_get m id hit b Hok Hg Ha) as (m' & cb & Hc & Hget & _). split; [by rewrite Hc|].
  intros H2. destruct (gone_forever cond id _ _ H2) as [[Hg' _] _]; [by apply recordCommit_ok| |].
  - cbn. split; [rewrite Hc; cbn; rewrite Hget, Z.eqb_refl; by rewrite Ho|].
    apply get_Some in Hg as [Hb <-]. destruct Hok as (_ & (_ & Hall & _) & _). destruct (Hall b Hb) as ([_ Hi] & _).
    unfold recordCommit. by repeat case_match.
  - split; [done|]. intros hit'. unfold recordHit, recordBegin, recordCommit. by rewrite Hg'.
Qed.
Lemma one_shot_once_witness :
  let m' := (recordCommit sampleState.1 1 sampleHit).1.1 in
  (recordCommit sampleState.1 1 sampleHit).1.2 = true ∧ get m' 1 = None ∧ (recordCommit m' 1 sampleHit).1.2 = false.
Proof.
  destruct (one_shot_once always sampleState.1 [] [(1, sampleHit)] 1 sampleHit (withId (withRegister (sampleBp true) 0) 1)
    ((recordCommit sampleState.1 1 sampleHit).1.1, [(1, sampleHit)])) as [H1 H2]; [|done..|].
  - eapply rtc_r; [eapply rtc_r; [apply sampleState_reachable|]|].
    + by apply (step_recordBegin always sampleState.1 [] 1 sampleHit (withId (withRegister (sampleBp true) 0) 1)).
    + by apply (step_recordBegin always sampleState.1 [(1, sampleHit)] 1 sampleHit (withId (withRegister (sampleBp true) 0) 1)).
  - destruct (H2 (rtc_refl _ _)) as [H3 H4]. split_and!; [done|done|apply H4].
Defined.

(** [recordHit] on every branch: a hit is delivered exactly when the breakpoint exists,
    is enabled, admits the thread and its condition matches; a delivered hit becomes the
    newest entry of its log (the oldest 5000 being dropped from a full log), bumps the
    counter up to the largest [int], removes a one-shot breakpoint and calls the callback
    with the breakpoint as it was at delivery (a one-shot shown disabled); all other
    breakpoints and logs are untouched, and an undelivered hit changes nothing. *)
Theorem recordHit_spec (cond : Breakpoint → BreakpointHit → bool) m id hit : manager_ok m →
  if match get m id with Some b => accepts b hit && cond b hit | None => false end
  then ∃ b m' cb, get m id = Some b ∧ recordHit cond m id hit = (m', true, cb) ∧
    (∀ i, get m' i = if i =? id then if bp_oneShot b then None else Some (bumped b) else get m i) ∧
    (∀ i, i ≠ id → getHits m' i = getHits m i) ∧
    getHits m' id = (if len (getHits m id) <? maxLog then getHits m id ++ [hit] else drop 5000 (getHits m id) ++ [hit]) ∧
    len (getHits m' id) ≤ maxLog ∧
    cb = (if hasCallback m then Some (if bp_oneShot b then withEnabled (bumped b) false else bumped b, hit) else None)
  else recordHit cond m id hit = (m, false, None).
Proof.
  intros Hok. unfold recordHit, recordBegin. destruct (get m id) as [b|] eqn:Hg; [|done].
  destruct (accepts b hit) eqn:Ha; [|done]. destruct (cond b hit) eqn:Hc; [|done]. cbn [andb negb].
  destruct (recordCommit_get m id hit b Hok Hg Ha) as (m' & cb & -> & Hget & Hhits & ->).
  exists b, m'. eexists. pose proof (getHits_len m id Hok) as Hlen. split_and!; [done|done|done| | | |done].
  - intros i Hi. rewrite Hhits. by destruct (Z.eqb_spec i id).
  - rewrite Hhits, Z.eqb_refl. unfold pushHit. rewrite len_snoc.
    destruct (Z.ltb_spec (len (getHits m id)) maxLog), (Z.ltb_spec maxLog (len (getHits m id) + 1)); [lia|done| |lia].
    apply drop_app_le. unfold len, maxLog in *. lia.
  - rewrite Hhits, Z.eqb_refl. by apply pushHit_len.
Qed.
Lemma recordHit_spec_witness :
  ∃ m' cb, recordHit always sampleState.1 1 sampleHit = (m', true, cb) ∧ getHits m' 1 = [sampleHit].
Proof.
  pose proof (recordHit_spec always sampleState.1 1 sampleHit (reachable_ok always _ _ (sampleState_reachable always) manager_ok_initial)) as H.
  cbn in H. destruct H as (b & m' & cb & _ & H1 & _ & _ & H2 & _). exists m', cb. split; [exact H1|]. rewrite H2. reflexivity.
Defined.

(** The length in bytes that a DR7 length code selects. *)
Definition codeBytes (code : Z) : Z := if code =? 0 then 1 else if code =? 1 then 2 else if code =? 2 then 8 else 4.
(** A call the processor accepts: a register DR0..DR3, a DR7 condition and length, and an
    aligned address for data breakpoints. *)
Definition call_ok (c : SetCall) : Prop :=
  let '(r, a, t, s) := c in 0 ≤ r ≤ 3 ∧ (t = 0 ∨ t = 1 ∨ t = 3) ∧ 0 ≤ s ≤ 3 ∧ (t ≠ 0 → a mod codeBytes s = 0).
Definition registerOf (c : SetCall) : Z := c.1.1.1.

Lemma hwSize_spec size code : hwSize size = Some code → 0 ≤ code ≤ 3 ∧ codeBytes code = size ∧ ∃ k, 0 ≤ k ∧ size = 2 ^ k.
Proof.
  unfold hwSize. repeat case_match; intros [= <-]; match goal with H : (_ =? _) = true |- _ => apply Z.eqb_eq in H end; subst;
    (split_and!; [lia|lia|done|]); [exists 0|exists 1|exists 2|exists 3]; done.
Qed.

Lemma aligned_mod a k : 0 ≤ k → Z.land a (2 ^ k - 1) = 0 → a mod 2 ^ k = 0.
Proof. intros Hk. replace (2 ^ k - 1) with (Z.ones k) by (rewrite Z.ones_equiv; lia). by rewrite Z.land_ones. Qed.

Lemma appliesTo_occupies tid b : appliesTo tid b = true → occupies b = true.
Proof. unfold appliesTo, occupies. destruct (isHardware b), (bp_enabled b); done. Qed.

Lemma apply_calls setBP tid bs next : table_ok bs next →
  let '(calls, ok) := applyToThread setBP tid bs in
  Forall call_ok calls ∧ NoDup (registerOf <$> calls) ∧
  (∀ c, c ∈ calls → ∃ b, b ∈ bs ∧ appliesTo tid b = true ∧ hwSize (bp_size b) = Some c.2 ∧
      c.1 = (bp_hwRegister b, bp_address b, hwType (bp_type b))) ∧
  (ok = true → registerOf <$> calls = bp_hwRegister <$> List.filter (appliesTo tid) bs).
Proof.
  induction bs as [|b bs IH]; [intros _; split_and!; [constructor|apply NoDup_nil_2|by intros ? ?%elem_of_nil|done]|].
  intros Ht. pose proof (table_ok_sub (b :: bs) bs next (sublist_cons b bs bs (reflexivity bs)) Ht) as Ht'. specialize (IH Ht').
  destruct Ht as (Hnd & Hall & Hreg). cbn [applyToThread List.filter]. destruct (appliesTo tid b) eqn:Ha; cbn [negb].
  2:{ destruct (applyToThread setBP tid bs) as [calls ok]. destruct IH as (H1 & H2 & H3 & H4). split_and!; [done|done| |done].
      intros c Hc. destruct (H3 c Hc) as (d & ? & ?). exists d. rewrite elem_of_cons. auto. }
  destruct (hwSize (bp_size b)) as [code|] eqn:Hs; [|split_and!; [constructor|apply NoDup_nil_2|by intros ? ?%elem_of_nil|done]].
  destruct (_ && _) eqn:Hal; [split_and!; [constructor|apply NoDup_nil_2|by intros ? ?%elem_of_nil|done]|].
  pose proof (appliesTo_occupies tid b Ha) as Hocc.
  assert (call_ok (bp_hwRegister b, bp_address b, hwType (bp_type b), code)) as Hok.
  { destruct (hwSize_spec _ _ Hs) as (Hcode & Hb & k & Hk & Hpow).
    split_and!; [by apply Hall; [left|]|by apply Hall; [left|]|destruct (bp_type b); cbn; auto|lia|lia|].
    intros Ht. rewrite Hb. apply Z.eqb_neq in Ht. rewrite Ht in Hal. cbn in Hal.
    destruct (Z.ltb_spec 1 (bp_size b)) as [Hgt|Hle]; cbn in Hal.
    - apply negb_false_iff, Z.eqb_eq in Hal. rewrite Hpow in *. by apply aligned_mod.
    - assert (bp_size b = 1) as -> by (pose proof (Z.pow_pos_nonneg 2 k); lia). apply Z.mod_1_r. }
  destruct (setBP tid _); [|split_and!; [by constructor|apply NoDup_singleton| |done]].
  2:{ intros c ->%list_elem_of_singleton. exists b. rewrite elem_of_cons. auto. }
  destruct (applyToThread setBP tid bs) as [calls ok]. destruct IH as (H1 & H2 & H3 & H4). split_and!.
  - by constructor.
  - apply NoDup_cons. split; [|done]. intros (c & Hc & Hin)%list_elem_of_fmap.
    destruct (H3 c Hin) as (d & Hd & Hda & _ & Hdc). apply NoDup_cons in Hnd as [Hni _]. apply Hni.
    apply list_elem_of_fmap. exists d. split; [|done]. apply Hreg; [left|by right|done|by eapply appliesTo_occupies|].
    unfold registerOf in Hc. rewrite Hdc in Hc. done.
  - intros c [->|Hc]%elem_of_cons; [exists b; rewrite elem_of_cons; auto|].
    destruct (H3 c Hc) as (d & ? & ?). exists d. rewrite elem_of_cons. auto.
  - intros Ho. cbn. f_equal. by apply H4.
Qed.

Lemma remove_calls removeBP tid bs : (removeFromThread removeBP tid bs).1 = bp_hwRegister <$> List.filter (appliesTo tid) bs ∧
  (removeFromThread removeBP tid bs).2 = forallb (removeBP tid) (removeFromThread removeBP tid bs).1.
Proof.
  induction bs as [|b bs [IH1 IH2]]; [done|]. cbn [removeFromThread List.filter].
  destruct (removeFromThread removeBP tid bs) as [calls ok]. cbn in *. destruct (appliesTo tid b); cbn; [|done].
  by rewrite IH1, IH2, <- IH1.
Qed.

(** Programming a thread from a reachable table: every call names a register DR0..DR3,
    a DR7 condition and length the processor defines, and an address aligned to the length
    for data breakpoints; no register is programmed twice; and when the whole table was
    accepted, [removeFromThread] clears exactly the registers that were programmed. *)
Theorem applyToThread_spec setBP removeBP tid m : manager_ok m →
  let calls := (applyToThread setBP tid (bps m)).1 in
  Forall call_ok calls ∧ NoDup (registerOf <$> calls) ∧
  (∀ c, c ∈ calls → ∃ b, b ∈ bps m ∧ appliesTo tid b = true ∧ codeBytes c.2 = bp_size b ∧
      c.1 = (bp_hwRegister b, bp_address b, hwType (bp_type b))) ∧
  ((applyToThread setBP tid (bps m)).2 = true →
     registerOf <$> calls = (removeFromThread removeBP tid (bps m)).1) ∧
  ((removeFromThread removeBP tid (bps m)).2 = true ↔
     Forall (λ r, removeBP tid r = true) (removeFromThread removeBP tid (bps m)).1).
Proof.
  intros (_ & Ht & _). pose proof (apply_calls setBP tid _ _ Ht) as H. destruct (remove_calls removeBP tid (bps m)) as [H1 H2].
  destruct (applyToThread setBP tid (bps m)) as [calls ok]. destruct H as (? & ? & H3 & ?). split_and!; [done|done| | |].
  - intros c Hc. destruct (H3 c Hc) as (b & ? & ? & Hs & ?). apply hwSize_spec in Hs as (_ & ? & _). eauto 10.
  - cbn. rewrite H1. done.
  - rewrite H2, forallb_forall, Forall_forall. by setoid_rewrite list_elem_of_In.
Qed.
Lemma applyToThread_spec_witness :
  let calls := (applyToThread (λ _ _, true) 7 (bps sampleState.1)).1 in calls = [(0, 4096, 1, 3)] ∧ Forall call_ok calls.
Proof.
  split; [reflexivity|].
  apply (applyToThread_spec (λ _ _, true) (λ _ _, true) 7), (reachable_ok always _ _ (sampleState_reachable always) manager_ok_initial).
Defined.
