(* ===== verification/GdbRemote.v ===== *)
(** * The GDB remote client

    Models [GdbRemoteClient] of [src/debug/gdb_remote.cpp]: the framing of packets with
    their checksums, acknowledgments and retransmissions, the expansion of escapes and
    run-length data, the negotiation of features, object transfers, the description of the
    target, and the register and memory accesses built on them.

    The socket is the class [Peer]: what sending and receiving do to the other side, with
    the errors of the system, the deadline and cancellation among the results.  The XML
    library is the class [XmlReader]. *)

From S2P Require Import Prelude Numeral TargetMachine StdAlgo.
#[local] Open Scope Z_scope.

(** ** The socket and the client *)

(** [waitReady] with [send] or [recv]: the deadline, cancellation and the peer decide. *)
Class Peer := {
  peer : Type;
  peer_send : bytes → peer → option bytes * peer;  (* an error *)
  peer_recv : peer → (bytes + Z) * peer;  (* an error, or one byte *)
  peer_cancelled : peer → bool;
  peer_expired : peer → bool  (* the end time of a longer transfer has passed *)
}.

Record GdbRegisterDescription := mkGdbRegister { gr_name : bytes; gr_number : Z; gr_bits : Z; gr_type : bytes }.
#[export] Instance GdbRegisterDescription_eq_dec : EqDecision GdbRegisterDescription.
Proof. solve_decision. Defined.

(** The members of [GdbRemoteClient]; [c_connected] is [fd_ >= 0]. *)
Record Client := mkClient {
  c_connected : bool;
  c_noAck : bool;
  c_packetSize : Z;
  c_features : list bytes;
  c_registerLayout : list GdbRegisterDescription;
  c_individualReads : bool;
  c_individualWrites : bool
}.
(** [GdbRemoteClient::close]. *)
Definition closedClient : Client := mkClient false false 1024 [] [] true true.
(** What [connectTcp] leaves when it succeeds. *)
Definition connectedClient : Client := mkClient true false 1024 [] [] true true.
Definition withNoAck (c : Client) : Client :=
  mkClient (c_connected c) true (c_packetSize c) (c_features c) (c_registerLayout c) (c_individualReads c) (c_individualWrites c).
Definition withPacketSize (n : Z) (c : Client) : Client :=
  mkClient (c_connected c) (c_noAck c) n (c_features c) (c_registerLayout c) (c_individualReads c) (c_individualWrites c).
Definition withFeatures (l : list bytes) (c : Client) : Client :=
  mkClient (c_connected c) (c_noAck c) (c_packetSize c) l (c_registerLayout c) (c_individualReads c) (c_individualWrites c).
Definition withLayout (l : list GdbRegisterDescription) (c : Client) : Client :=
  mkClient (c_connected c) (c_noAck c) (c_packetSize c) (c_features c) l (c_individualReads c) (c_individualWrites c).
Definition withoutIndividualReads (c : Client) : Client :=
  mkClient (c_connected c) (c_noAck c) (c_packetSize c) (c_features c) (c_registerLayout c) false (c_individualWrites c).
Definition withoutIndividualWrites (c : Client) : Client :=
  mkClient (c_connected c) (c_noAck c) (c_packetSize c) (c_features c) (c_registerLayout c) (c_individualReads c) false.

(** [std::expected<A, std::string>] with the client and the peer. *)
Definition gdb {P : Peer} (A : Type) : Type := Client * peer → (bytes + A) * (Client * peer).
#[export] Instance gdb_ret {P : Peer} : MRet gdb := λ A a s, (inr a, s).
#[export] Instance gdb_bind {P : Peer} : MBind gdb := λ A B k m s,
  match m s with (inl e, s) => (inl e, s) | (inr a, s) => k a s end.

Definition maxWire : Z := 2 ^ 20.
Definition maxDecoded : Z := 16 * 2 ^ 20.
Definition maxObject : Z := 4 * 2 ^ 20.

(** ** Hexadecimal text *)

Definition hexValue (c : Z) : Z :=
  if ("0"%chr <=? c) && (c <=? "9"%chr) then c - "0"%chr
  else if ("a"%chr <=? c) && (c <=? "f"%chr) then c - "a"%chr + 10
  else if ("A"%chr <=? c) && (c <=? "F"%chr) then c - "A"%chr + 10
  else -1.
Definition hexNumber (n : Z) : bytes := to_digits 16 n.
Definition hexByte (b : Z) : bytes := [digit_char (Z.shiftr b 4); digit_char (Z.land b 15)].
Definition hexBytes (l : bytes) : bytes := mjoin (hexByte <$> l).
Fixpoint decodePairs (text : bytes) : bytes + bytes :=
  match text with
  | x :: y :: text =>
      let a := hexValue x in
      let b := hexValue y in
      if (a <? 0) || (b <? 0) then inl (bs "Unavailable or non-hexadecimal response data")
      else match decodePairs text with inl e => inl e | inr l => inr (u8 (Z.lor (Z.shiftl a 4) b) :: l) end
  | _ => inr []
  end.
Definition decodeHex (text : bytes) : bytes + bytes :=
  if negb (len text mod 2 =? 0) then inl (bs "Odd hexadecimal response length") else decodePairs text.
Definition number (text : bytes) (base : Z) : option Z :=
  match from_chars 32 base text with Some (v, []) => Some v | _ => None end.
Definition token (text : bytes) (empty : bool) : bool :=
  (empty || negb (bool_decide (text = []))) && (len text <=? 256)
  && forallb (λ c, (33 <=? c) && (c <? 127) && negb (c =? ":"%chr) && negb (c =? ","%chr) && negb (c =? ";"%chr)) text.

(** ** Packets *)

(** The expansion of the raw text of a packet. *)
Fixpoint decodeRaw (raw decoded : bytes) : bytes + bytes :=
  match raw with
  | [] => inr decoded
  | c :: raw =>
      if c =? "}"%chr then
        match raw with
        | [] => inl (bs "Truncated GDB escape")
        | e :: raw =>
            if maxDecoded <=? len decoded then inl (bs "Decoded GDB packet exceeds size limit") else decodeRaw raw (decoded ++ [Z.lxor e 32])
        end
      else if c =? "*"%chr then
        match last decoded, raw with
        | Some b, count :: raw =>
            if (count <? 32) || (126 <? count) || (count =? "$"%chr) || (count =? "#"%chr) then inl (bs "Invalid GDB run-length count")
            else
              let repeat := count - 29 in
              if maxDecoded - len decoded <? repeat then inl (bs "Decoded GDB packet exceeds size limit")
              else decodeRaw raw (decoded ++ replicate (Z.to_nat repeat) b)
        | _, _ => inl (bs "Invalid GDB run-length data")
        end
      else if maxDecoded <=? len decoded then inl (bs "Decoded GDB packet exceeds size limit")
      else decodeRaw raw (decoded ++ [c])
  end.
(** The raw text of a payload; [None] when it exceeds the packet size. *)
Fixpoint escapeLoop (packetSize : Z) (payload raw : bytes) : option bytes :=
  match payload with
  | [] => Some raw
  | c :: payload =>
      let raw := raw ++ (if (c =? "$"%chr) || (c =? "#"%chr) || (c =? "}"%chr) || (c =? "*"%chr) then ["}"%chr; Z.lxor c 32] else [c]) in
      if packetSize <? len raw then None else escapeLoop packetSize payload raw
  end.
Definition checksumOf (raw : bytes) : Z := foldl (λ sum c, u8 (sum + c)) 0 raw.
Definition frame (raw : bytes) : bytes := "$"%chr :: raw ++ "#"%chr :: hexByte (checksumOf raw).

Section Client.
Context {P : Peer}.

Definition failWith {A} (e : bytes) : gdb A := λ s, (inl e, s).
Definition getClient : gdb Client := λ s, (inr s.1, s).
Definition setClient (c : Client) : gdb unit := λ s, (inr (), (c, s.2)).
Definition modify (f : Client → Client) : gdb unit := λ s, (inr (), (f s.1, s.2)).
Definition close : gdb unit := setClient closedClient.
Definition sendAll (data : bytes) : gdb unit := λ s,
  match peer_send data s.2 with (Some e, p) => (inl e, (s.1, p)) | (None, p) => (inr (), (s.1, p)) end.
Definition readByte : gdb Z := λ s,
  match peer_recv s.2 with (r, p) => (r, (s.1, p)) end.
(** The error as a value. *)
Definition attempt {A} (m : gdb A) : gdb (bytes + A) := λ s, match m s with (r, s) => (inr r, s) end.
Definition lift {A} (r : bytes + A) : gdb A := λ s, (r, s).
(** The lambda [failure]: the connection is closed on an error. *)
Definition closing {A} (m : gdb A) : gdb A :=
  r ← attempt m; match r with inl e => close;; failWith e | inr a => mret a end.

Fixpoint readPrefix (fuel : nat) (ignored : Z) : gdb unit :=
  match fuel with
  | O => failWith (bs "Unexpected GDB packet prefix")
  | S fuel =>
      c ← readByte;
      if c =? "$"%chr then mret ()
      else if negb (c =? "+"%chr) || (16 <? ignored) then failWith (bs "Unexpected GDB packet prefix")
      else readPrefix fuel (ignored + 1)
  end.
Fixpoint readRaw (fuel : nat) (raw : bytes) (checksum : Z) : gdb (bytes * Z) :=
  match fuel with
  | O => failWith (bs "GDB packet exceeds size limit")
  | S fuel =>
      c ← readByte;
      if c =? "#"%chr then mret (raw, checksum)
      else if maxWire <=? len raw then failWith (bs "GDB packet exceeds size limit")
      else readRaw fuel (raw ++ [c]) (u8 (checksum + c))
  end.
(** One attempt of [readPacket]: [None] asks for the packet again. *)
Definition readAttempt : gdb (option bytes) :=
  readPrefix 18 0;;
  '(raw, checksum) ← readRaw (S (Z.to_nat maxWire)) [] 0;
  hi ← attempt readByte;
  lo ← attempt readByte;
  hi ← lift hi;
  lo ← lift lo;
  let a := hexValue hi in
  let b := hexValue lo in
  client ← getClient;
  if (a <? 0) || (b <? 0) || negb (checksum =? Z.lor (Z.shiftl a 4) b) then
    if c_noAck client then failWith (bs "Invalid GDB checksum") else
    sent ← attempt (sendAll [("-"%chr : Z)]);
    match sent with inl _ => failWith (bs "Invalid GDB checksum") | inr _ => mret None end
  else
    decoded ← lift (decodeRaw raw []);
    if c_noAck client then mret (Some decoded) else
    sendAll [("+"%chr : Z)];;
    mret (Some decoded).
Fixpoint readPacketLoop (attempts : nat) : gdb bytes :=
  match attempts with
  | O => failWith (bs "Repeated GDB checksum failures")
  | S attempts =>
      r ← readAttempt;
      match r with Some decoded => mret decoded | None => readPacketLoop attempts end
  end.
Definition readPacket : gdb bytes := readPacketLoop 3.

(** Sending a packet until it is accepted. *)
Fixpoint transmit (attempts : nat) (packet : bytes) : gdb bool :=
  match attempts with
  | O => mret false
  | S attempts =>
      closing (sendAll packet);;
      client ← getClient;
      if c_noAck client then mret true else
      ack ← closing readByte;
      if ack =? "+"%chr then mret true
      else if negb (ack =? "-"%chr) then closing (failWith (bs "Unexpected GDB acknowledgment"))
      else transmit attempts packet
  end.
Definition isErrorReply (response : bytes) : bool :=
  match response with
  | [e; x; y] => (e =? "E"%chr) && (0 <=? hexValue x) && (0 <=? hexValue y)
  | _ => false
  end || starts_with (bs "E.") response.
Definition isConsole (response : bytes) : bool :=
  match response with
  | o :: text => negb (bool_decide (text = [])) && (o =? "O"%chr) && (len text mod 2 =? 0) && forallb (λ c, 0 <=? hexValue c) text
  | [] => false
  end.
Fixpoint responseLoop (outputs : nat) : gdb bytes :=
  match outputs with
  | O => closing (failWith (bs "Too many GDB console packets"))
  | S outputs =>
      response ← closing readPacket;
      if isErrorReply response then failWith (bs "GDB error response: " ++ response)
      else if isConsole response then responseLoop outputs
      else mret response
  end.
Definition sendPacket (payload : bytes) : gdb bytes :=
  client ← getClient;
  if negb (c_connected client) then failWith (bs "GDB transport is not connected") else
  cancelled ← (λ s, (inr (peer_cancelled s.2), s) : (bytes + bool) * (Client * peer));
  if cancelled : bool then close;; failWith (bs "GDB operation canceled") else
  match escapeLoop (c_packetSize client) payload [] with
  | None => failWith (bs "Request exceeds negotiated GDB packet size")
  | Some raw =>
      accepted ← transmit 3 (frame raw);
      if negb accepted then closing (failWith (bs "Repeated GDB request rejection")) else
      responseLoop 64
  end.
End Client.

(** ** Features and objects *)

(** The pieces of a text between [';'] characters. *)
Fixpoint splitEntries (s entry : bytes) : list bytes :=
  match s with
  | [] => [entry]
  | c :: s => if c =? ";"%chr then entry :: splitEntries s [] else splitEntries s (entry ++ [c])
  end.
(** The text before the first [c], when there is one. *)
Fixpoint beforeFirst (c : Z) (s : bytes) : option bytes :=
  match s with
  | [] => None
  | x :: s => if x =? c then Some [] else let? l := beforeFirst c s in Some (x :: l)
  end.
Definition featureName (entry : bytes) : bytes :=
  match beforeFirst "="%chr entry with
  | Some name => name
  | None =>
      match last entry with
      | Some c => if (c =? "+"%chr) || (c =? "-"%chr) || (c =? "?"%chr) then take (length entry - 1) entry else entry
      | None => entry
      end
  end.
Definition supportsFeature (c : Client) (feature : bytes) : bool := existsb (λ f, bytes_eqb f (feature ++ bs "+")) (c_features c).

Section Objects.
Context {P : Peer}.

Fixpoint negotiateLoop (entries : list bytes) (names : list bytes) : gdb unit :=
  match entries with
  | [] => mret ()
  | entry :: entries =>
      if bool_decide (entry = []) then negotiateLoop entries names else
      let name := featureName entry in
      if bool_decide (name = []) || existsb (bytes_eqb name) names then close;; failWith (bs "Conflicting GDB features") else
      (if starts_with (bs "PacketSize=") entry then
         match number (drop 11 entry) 16 with
         | Some n => if n <? 64 then close;; failWith (bs "Invalid GDB PacketSize") else modify (withPacketSize (Z.min n maxWire))
         | None => close;; failWith (bs "Invalid GDB PacketSize")
         end
       else mret ());;
      modify (λ c, withFeatures (c_features c ++ [entry]) c);;
      negotiateLoop entries (name :: names)
  end.
Definition negotiate : gdb unit :=
  response ← sendPacket (bs "qSupported:qXfer:features:read+");
  modify (withFeatures []);;
  negotiateLoop (splitEntries response []) [];;
  client ← getClient;
  if supportsFeature client (bs "QStartNoAckMode") then
    mode ← sendPacket (bs "QStartNoAckMode");
    if bytes_eqb mode (bs "OK") then modify withNoAck
    else if bool_decide (mode = []) then mret ()
    else close;; failWith (bs "Invalid no-ack negotiation response")
  else mret ().

Definition expired : gdb bool := λ s, (inr (peer_expired s.2), s).
Fixpoint objectLoop (fuel : nat) (object annex : bytes) (chunk : Z) (data : bytes) : gdb bytes :=
  match fuel with
  | O => failWith (bs "GDB object exceeds size limit")
  | S fuel =>
      late ← expired;
      if late : bool then failWith (bs "GDB object transfer timed out") else
      response ← sendPacket (bs "qXfer:" ++ object ++ bs ":read:" ++ annex ++ bs ":" ++ hexNumber (len data) ++ bs "," ++ hexNumber chunk);
      match response with
      | [] => failWith (bs "Invalid GDB object chunk")
      | kind :: text =>
          if (negb (kind =? "m"%chr) && negb (kind =? "l"%chr)) || (chunk <? len text) || (bool_decide (text = []) && (kind =? "m"%chr))
          then failWith (bs "Invalid GDB object chunk")
          else if maxObject - len data <? len text then failWith (bs "GDB object exceeds size limit")
          else
            let data := data ++ text in
            if kind =? "l"%chr then mret data else objectLoop fuel object annex chunk data
      end
  end.
(** Every chunk but the last has a byte, so [maxObject + 1] rounds are enough. *)
Definition readObject (object annex : bytes) : gdb bytes :=
  if negb (token object false) || negb (token annex true) then failWith (bs "Invalid GDB object or annex") else
  client ← getClient;
  if negb (supportsFeature client (bs "qXfer:" ++ object ++ bs ":read")) then failWith (bs "GDB stub does not advertise this object") else
  objectLoop (S (S (Z.to_nat maxObject))) object annex (Z.min 4096 ((c_packetSize client - 1) / 2)) [].
End Objects.

(** ** The description of the target *)

(** What the XML library makes of a document. *)
Inductive XmlElement := xmlElement (name : bytes) (attributes : list (bytes * bytes)) (text : option bytes) (children : list XmlElement).
Class XmlReader := { xml_parse : bytes → option (list XmlElement)  (* the outermost elements of a document it accepts *) }.
Definition xmlName (e : XmlElement) : bytes := let 'xmlElement name _ _ _ := e in name.
Definition xmlAttribute (e : XmlElement) (key : bytes) : option bytes :=
  let 'xmlElement _ attributes _ _ := e in snd <$> List.find (λ p, bytes_eqb p.1 key) attributes.
Definition xmlText (e : XmlElement) : option bytes := let 'xmlElement _ _ text _ := e in text.

(** The element and the elements around it, innermost first. *)
Definition xmlInclude (element : XmlElement) (around : list XmlElement) : bool :=
  let name := xmlName element in
  let prefix := beforeFirst ":"%chr name in
  let local := match prefix with Some p => drop (S (length p)) name | None => name end in
  if negb (bytes_eqb local (bs "include")) then false else
  let declaration := match prefix with Some p => bs "xmlns:" ++ p | None => bs "xmlns" end in
  match List.find (λ node, bool_decide (is_Some (xmlAttribute node declaration))) (element :: around) with
  | Some node => bool_decide (xmlAttribute node declaration = Some (bs "http://www.w3.org/2001/XInclude"))
  | None => bytes_eqb name (bs "xi:include")
  end.

Definition targetMachine (architecture osAbi : bytes) : TargetMachine :=
  let named name := bytes_eqb architecture (bs name) in
  let linux := bytes_eqb osAbi (bs "GNU/Linux") in
  let i386 := named "i386" in
  let wide := named "i386:x86-64" in
  let x32 := named "i386:x64-32" in
  if i386 || wide || x32 then
    mkTargetMachine (if i386 then X86_32 else X86_64) Little
      (if linux then if i386 then LinuxI386 else if x32 then LinuxX32 else LinuxX86_64 else AbiUnknown)
      (if i386 then ModeX86_32 else ModeX86_64) (if wide then 8 else 4) Little
  else if named "aarch64" || named "aarch64:ilp32" then
    mkTargetMachine Arm64 OrderUnknown (if linux && named "aarch64" then LinuxAarch64 else AbiUnknown) ModeAarch64 (if named "aarch64" then 8 else 4) Little
  else if named "arm" then mkTargetMachine Arm32 OrderUnknown (if linux then LinuxArmEabi else AbiUnknown) ModeUnknown 4 OrderUnknown
  else if named "riscv:rv32" || named "riscv:rv64" then
    mkTargetMachine (if named "riscv:rv32" then RiscV32 else RiscV64) OrderUnknown (if linux then LinuxRiscV else AbiUnknown) ModeUnknown (if named "riscv:rv32" then 4 else 8) OrderUnknown
  else mkTargetMachine (if bool_decide (architecture = []) then ArchUnknown else ArchOther) OrderUnknown AbiUnknown ModeUnknown 0 OrderUnknown.

(** [GdbTargetDescription] while it is read, with the sets and counters of [describeTarget]. *)
Record Described := mkDescribed {
  d_architecture : bytes; d_osAbi : bytes; d_registers : list GdbRegisterDescription;
  d_active : list bytes; d_next : Z; d_documents : Z; d_total : Z
}.
Definition withArchitecture (v : bytes) (d : Described) : Described :=
  mkDescribed v (d_osAbi d) (d_registers d) (d_active d) (d_next d) (d_documents d) (d_total d).
Definition withOsAbi (v : bytes) (d : Described) : Described :=
  mkDescribed (d_architecture d) v (d_registers d) (d_active d) (d_next d) (d_documents d) (d_total d).
Definition withRegister (r : GdbRegisterDescription) (d : Described) : Described :=
  mkDescribed (d_architecture d) (d_osAbi d) (d_registers d ++ [r]) (d_active d) (gr_number r + 1) (d_documents d) (d_total d).
Definition withActive (l : list bytes) (d : Described) : Described :=
  mkDescribed (d_architecture d) (d_osAbi d) (d_registers d) l (d_next d) (d_documents d) (d_total d).
Definition withDocument (total : Z) (d : Described) : Described :=
  mkDescribed (d_architecture d) (d_osAbi d) (d_registers d) (d_active d) (d_next d) (d_documents d + 1) total.

Definition xmlBlank (c : Z) : bool := (c =? 32) || (c =? 13) || (c =? 10) || (c =? 9).
Fixpoint dropXmlBlanks (s : bytes) : bytes :=
  match s with
  | c :: s' => if xmlBlank c then dropXmlBlanks s' else s
  | [] => []
  end.
Definition trimXml (s : bytes) : bytes := reverse (dropXmlBlanks (reverse (dropXmlBlanks s))).
Definition textElement (name : bytes) (element : XmlElement) (d : Described) : bytes + Described :=
  match xmlText element with
  | None => inl (bs "Invalid GDB architecture or OS ABI")
  | Some text =>
      if 256 <? len text then inl (bs "Invalid GDB architecture or OS ABI") else
      let value := trimXml text in
      if bool_decide (value = []) then inl (bs "Empty GDB architecture or OS ABI") else
      let isArchitecture := bytes_eqb name (bs "architecture") in
      let destination := if isArchitecture then d_architecture d else d_osAbi d in
      if negb (bool_decide (destination = [])) && negb (bytes_eqb destination value) then inl (bs "Conflicting GDB target descriptions")
      else inr (if isArchitecture then withArchitecture value d else withOsAbi value d)
  end.
Definition registerElement (element : XmlElement) (d : Described) : bytes + Described :=
  match xmlAttribute element (bs "name"), (let? bits := xmlAttribute element (bs "bitsize") in number bits 10) with
  | Some regName, Some bits =>
      if bool_decide (regName = []) || (256 <? len regName) || (bits =? 0) || (524288 <? bits) then inl (bs "Invalid GDB register description") else
      match (match xmlAttribute element (bs "regnum") with Some regNum => number regNum 10 | None => Some (d_next d) end) with
      | None => inl (bs "Invalid GDB register number")
      | Some n =>
          if (65535 <? n) || (2048 <=? len (d_registers d)) || existsb (λ r, gr_number r =? n) (d_registers d)
             || existsb (λ r, bytes_eqb (gr_name r) regName) (d_registers d)
          then inl (bs "Duplicate or excessive GDB register description")
          else inr (withRegister (mkGdbRegister regName n bits (default [] (xmlAttribute element (bs "type")))) d)
      end
  | _, _ => inl (bs "Invalid GDB register description")
  end.

Section Describe.
Context {P : Peer} {X : XmlReader}.

(** The lambda [visit], with the lambda [load] it calls for an inclusion. *)
Fixpoint visit (load : bytes → Described → gdb Described) (around : list XmlElement) (nesting : Z) (element : XmlElement) (d : Described) {struct element}
  : gdb Described :=
  if 64 <? nesting then failWith (bs "GDB XML nesting limit") else
  let name := xmlName element in
  if xmlInclude element around then
    match xmlAttribute element (bs "href") with
    | None => failWith (bs "Missing GDB XML include name")
    | Some href => load href d
    end
  else
    d ← lift (if bytes_eqb name (bs "architecture") || bytes_eqb name (bs "osabi") then textElement name element d
              else if bytes_eqb name (bs "reg") then registerElement element d else inr d);
    let 'xmlElement _ _ _ children := element in
    (fix visitAll (l : list XmlElement) (d : Described) : gdb Described :=
       match l with
       | [] => mret d
       | child :: l => d ← visit load (element :: around) (nesting + 1) child d; visitAll l d
       end) children d.
(** The lambda [load]; [depth > 8] is refused, so nine levels of fuel are enough. *)
Fixpoint load (fuel : nat) (depth : Z) (annex : bytes) (d : Described) : gdb Described :=
  match fuel with
  | O => failWith (bs "GDB XML inclusion cycle or depth limit")
  | S fuel =>
      late ← expired;
      if late : bool then failWith (bs "GDB description transfer timed out") else
      if (8 <? depth) || (128 <? d_documents d + 1) || existsb (bytes_eqb annex) (d_active d) then failWith (bs "GDB XML inclusion cycle or depth limit") else
      xml ← readObject (bs "features") annex;
      let total := d_total d + len xml in
      if maxObject <? total then failWith (bs "GDB XML exceeds total size limit") else
      match xml_parse xml with
      | Some (root :: _) =>
          let active := d_active d in
          d ← visit (load fuel (depth + 1)) [] 0 root (withActive (annex :: active) (withDocument total d));
          mret (withActive active d)
      | _ => failWith (bs "Invalid GDB target XML")
      end
  end.
Definition nothingDescribed : Described := mkDescribed [] [] [] [] 0 0 0.
(** The architecture, the OS ABI, the machine and the registers of the target. *)
Definition describeTarget `{!StdSort} : gdb (bytes * bytes * TargetMachine * list GdbRegisterDescription) :=
  modify (withLayout []);;
  d ← load 10 0 (bs "target.xml") nothingDescribed;
  if bool_decide (d_architecture d = []) || bool_decide (d_registers d = []) then failWith (bs "Incomplete GDB target description") else
  modify (withLayout (std_sort (byKey gr_number) (d_registers d)));;
  mret (d_architecture d, d_osAbi d, targetMachine (d_architecture d) (d_osAbi d), d_registers d).
End Describe.

(** ** Registers and memory *)

Definition fieldWidth (r : GdbRegisterDescription) : Z := 2 * ((gr_bits r + 7) / 8).
(** The walk over the layout: the total and, when it is there, the place of the register. *)
Fixpoint bankLayout (layout : list GdbRegisterDescription) (reg : GdbRegisterDescription) (total : Z) (found : option (Z * Z)) : bytes + Z * option (Z * Z) :=
  match layout with
  | [] => inr (total, found)
  | field :: layout =>
      let width := fieldWidth field in
      if maxDecoded - total <? width then inl (bs "GDB register bank exceeds size limit")
      else if gr_number field =? gr_number reg then
        if negb (bytes_eqb (gr_name field) (gr_name reg)) || negb (gr_bits field =? gr_bits reg) then inl (bs "Register does not match target XML")
        else bankLayout layout reg (total + width) (Some (total, width))
      else bankLayout layout reg (total + width) found
  end.
(** The end of the first registers that reach [size]. *)
Fixpoint bankBoundary (layout : list GdbRegisterDescription) (size boundary : Z) : Z :=
  match layout with
  | [] => boundary
  | field :: layout => if boundary =? size then boundary else bankBoundary layout size (boundary + fieldWidth field)
  end.
Fixpoint bankText (data : bytes) : bool :=
  match data with
  | x :: y :: data => (((0 <=? hexValue x) && (0 <=? hexValue y)) || ((x =? "x"%chr) && (y =? "x"%chr))) && bankText data
  | _ => true
  end.
(** [std::string::replace]. *)
Definition replaceAt (s : bytes) (offset width : Z) (text : bytes) : bytes := take (Z.to_nat offset) s ++ text ++ drop (Z.to_nat (offset + width)) s.

Section Access.
Context {P : Peer}.

Definition readRegisters : gdb bytes := sendPacket (bs "g").
(** The data of the bank, and the place of the register in it. *)
Definition readRegisterBank (reg : GdbRegisterDescription) : gdb (bytes * Z * Z) :=
  client ← getClient;
  let layout := c_registerLayout client in
  if bool_decide (layout = []) then failWith (bs "Whole-register access requires a target XML layout") else
  '(total, found) ← lift (bankLayout layout reg 0 None);
  match found with
  | None => failWith (bs "Register absent from GDB target XML")
  | Some (offset, width) =>
      response ← readRegisters;
      if (total <? len response) || negb (len response mod 2 =? 0) then failWith (bs "GDB register bank size does not match target XML")
      else if negb (bankBoundary layout (len response) 0 =? len response) then failWith (bs "GDB register bank ends inside a register")
      else if negb (bankText response) then failWith (bs "Invalid GDB register bank data")
      else if (len response <? offset) || (len response - offset <? width) then failWith (bs "Register unavailable in the GDB register bank")
      else mret (response, offset, width)
  end.
Definition readRegister (reg : GdbRegisterDescription) : gdb bytes :=
  if (gr_bits reg =? 0) || (524288 <? gr_bits reg) then failWith (bs "Invalid GDB register width") else
  client ← getClient;
  let whole :=
    bank ← readRegisterBank reg;
    lift (decodeHex (slice bank.1.1 bank.1.2 bank.2)) in
  if c_individualReads client then
    response ← sendPacket (bs "p" ++ hexNumber (gr_number reg));
    if negb (bool_decide (response = [])) then
      bytes ← lift (decodeHex response);
      if negb (len bytes =? (gr_bits reg + 7) / 8) then failWith (bs "GDB register size does not match target XML") else mret bytes
    else modify withoutIndividualReads;; whole
  else whole.
Definition writeRegister (reg : GdbRegisterDescription) (value : bytes) : gdb unit :=
  if (gr_bits reg =? 0) || (524288 <? gr_bits reg) || negb (len value =? (gr_bits reg + 7) / 8) then failWith (bs "GDB register write size mismatch") else
  client ← getClient;
  let whole :=
    bank ← readRegisterBank reg;
    client ← getClient;
    if c_packetSize client <? len bank.1.1 + 1 then failWith (bs "Whole-register write exceeds negotiated GDB packet size") else
    let data := replaceAt bank.1.1 bank.1.2 bank.2 (hexBytes value) in
    if negb (forallb (λ c, 0 <=? hexValue c) data) then failWith (bs "Whole-register write cannot preserve unavailable registers") else
    response ← sendPacket (bs "G" ++ data);
    if negb (bytes_eqb response (bs "OK")) then failWith (bs "GDB whole-register write was not confirmed") else mret () in
  if c_individualWrites client then
    response ← sendPacket (bs "P" ++ hexNumber (gr_number reg) ++ bs "=" ++ hexBytes value);
    if bytes_eqb response (bs "OK") then mret ()
    else if negb (bool_decide (response = [])) then failWith (bs "GDB register write was not confirmed")
    else modify withoutIndividualWrites;; whole
  else whole.

(** Every round adds at least a byte or is the last, so [size] rounds are enough. *)
Fixpoint readLoop (fuel : nat) (address size : Z) (bytes : bytes) : gdb (list Z) :=
  match fuel with
  | O => mret bytes
  | S fuel =>
      if len bytes <? size then
        client ← getClient;
        let count := Z.min (size - len bytes) (c_packetSize client / 2) in
        response ← attempt (sendPacket (bs "m" ++ hexNumber (u64 (address + len bytes)) ++ bs "," ++ hexNumber count));
        match response with
        | inl e => if bool_decide (bytes = []) then failWith e else mret bytes
        | inr response =>
            block ← lift (decodeHex response);
            if count <? len block then failWith (bs "GDB memory reply exceeds requested size")
            else
              let bytes := bytes ++ block in
              if len block <? count then mret bytes else readLoop fuel address size bytes
        end
      else mret bytes
  end.
Definition readMemory (address size : Z) : gdb bytes :=
  if (maxDecoded <? size) || (negb (size =? 0) && (UINTPTR_MAX - address <? size - 1)) then failWith (bs "GDB memory read size or address overflow")
  else readLoop (S (Z.to_nat size)) address size [].
Fixpoint writeLoop (fuel : nat) (address : Z) (data : bytes) (done : Z) : gdb Z :=
  match fuel with
  | O => mret done
  | S fuel =>
      if done <? len data then
        client ← getClient;
        let count := Z.min (len data - done) ((c_packetSize client - 40) / 2) in
        response ← attempt (sendPacket (bs "M" ++ hexNumber (u64 (address + done)) ++ bs "," ++ hexNumber count ++ bs ":" ++ hexBytes (slice data done count)));
        match response with
        | inl e => if done =? 0 then failWith e else mret done
        | inr response =>
            if negb (bytes_eqb response (bs "OK")) then
              if done =? 0 then failWith (bs "GDB memory write was not confirmed") else mret done
            else writeLoop fuel address data (done + count)
        end
      else mret done
  end.
Definition writeMemory (address : Z) (data : bytes) : gdb Z :=
  if (maxDecoded <? len data) || (negb (bool_decide (data = [])) && (UINTPTR_MAX - address <? len data - 1)) then failWith (bs "GDB memory write size or address overflow")
  else writeLoop (S (length data)) address data 0.
End Access.
