(* ===== verification/GdbSocket.v ===== *)
(** * The socket under the GDB client

    Models [waitReady], [sendAll] and [readByte] of [src/debug/gdb_remote.cpp]: the loops
    over [poll], [send] and [recv] that make whole transfers out of partial ones, within a
    deadline.  The system calls are the class [Socket]; the loops are an instance of the
    class [Peer] the client is written against. *)

From S2P Require Import Prelude GdbRemote.
#[local] Open Scope Z_scope.

(** ** The system calls *)

Inductive Events : Set := POLLIN | POLLOUT.
Inductive PollResult := PollReady (wanted : bool) | PollNone | PollInterrupted | PollError (e : bytes).
(** What [send] and [recv] return: how much, nothing yet ([EINTR], [EAGAIN]), the end, an error. *)
Inductive IoResult A := IoDone (a : A) | IoRetry | IoEnd | IoError (e : bytes).
Arguments IoDone {A} a.
Arguments IoRetry {A}.
Arguments IoEnd {A}.
Arguments IoError {A} e.
Class Socket := {
  socket : Type;
  sys_cancelled : socket → bool;  (* [cancellation_.stop_requested()] *)
  sys_canCancel : socket → bool;
  sys_remaining : socket → Z;  (* [deadline_] less the time, in nanoseconds *)
  sys_poll : Events → Z → socket → PollResult * socket;
  sys_send : bytes → socket → IoResult Z * socket;
  sys_recv : socket → IoResult Z * socket
}.

(** ** Transfers *)

Section Transfers.
Context {K : Socket}.

(** [None] when the descriptor is ready. *)
Fixpoint waitReady (fuel : nat) (events : Events) (k : socket) : option bytes * socket :=
  match fuel with
  | O => (Some (bs "GDB operation timed out"), k)
  | S fuel =>
      if sys_cancelled k then (Some (bs "GDB operation canceled"), k) else
      let remaining := sys_remaining k in
      if remaining <=? 0 then (Some (bs "GDB operation timed out"), k) else
      let ms := (remaining + 999999) / 1000000 in
      let pollMs := Z.min ms (if sys_canCancel k then 50 else 2 ^ 31 - 1) in
      match sys_poll events pollMs k with
      | (PollReady true, k) => (None, k)
      | (PollReady false, k) => (Some (bs "GDB peer disconnected"), k)
      | (PollInterrupted, k) | (PollNone, k) => waitReady fuel events k
      | (PollError e, k) => (Some (bs "poll: " ++ e), k)
      end
  end.
(** Every call takes time, so the time that remains bounds the rounds of every loop. *)
Definition timeFuel (k : socket) : nat := S (Z.to_nat (sys_remaining k)).
Definition wait (events : Events) (k : socket) : option bytes * socket := waitReady (timeFuel k) events k.
Fixpoint sendLoop (fuel : nat) (data : bytes) (k : socket) : option bytes * socket :=
  match fuel with
  | O => (Some (bs "GDB operation timed out"), k)
  | S fuel =>
      if bool_decide (data = []) then (None, k) else
      match wait POLLOUT k with
      | (Some e, k) => (Some e, k)
      | (None, k) =>
          match sys_send data k with
          | (IoDone n, k) => sendLoop fuel (drop (Z.to_nat n) data) k
          | (IoRetry, k) => sendLoop fuel data k
          | (IoEnd, k) => (Some (bs "GDB peer disconnected"), k)
          | (IoError e, k) => (Some (bs "send: " ++ e), k)
          end
      end
  end.
Definition sendWhole (data : bytes) (k : socket) : option bytes * socket := sendLoop (timeFuel k) data k.
Fixpoint recvLoop (fuel : nat) (k : socket) : (bytes + Z) * socket :=
  match fuel with
  | O => (inl (bs "GDB operation timed out"), k)
  | S fuel =>
      match wait POLLIN k with
      | (Some e, k) => (inl e, k)
      | (None, k) =>
          match sys_recv k with
          | (IoDone c, k) => (inr c, k)
          | (IoRetry, k) => recvLoop fuel k
          | (IoEnd, k) => (inl (bs "GDB peer disconnected"), k)
          | (IoError e, k) => (inl (bs "recv: " ++ e), k)
          end
      end
  end.
Definition recvByte (k : socket) : (bytes + Z) * socket := recvLoop (timeFuel k) k.
End Transfers.

(** The socket as the peer of the client.  A new request sets a new deadline, and a longer
    transfer has one of its own: both are part of the state of the socket. *)
#[export] Instance socket_peer {K : Socket} (expired : socket → bool) : Peer := {|
  peer := socket; peer_send := sendWhole; peer_recv := recvByte; peer_cancelled := sys_cancelled; peer_expired := expired |}.

(** ** What the loops guarantee *)

(** The calls take time; what was sent and what was received is recorded. *)
Class SocketLaws (K : Socket) := {
  sys_sent : socket → bytes;
  sys_received : socket → bytes;
  sys_poll_time events ms k : sys_remaining (sys_poll events ms k).2 < sys_remaining k;
  sys_poll_sent events ms k : sys_sent (sys_poll events ms k).2 = sys_sent k;
  sys_poll_received events ms k : sys_received (sys_poll events ms k).2 = sys_received k;
  sys_send_time data k : sys_remaining (sys_send data k).2 < sys_remaining k;
  sys_send_sent data k : sys_sent (sys_send data k).2 = sys_sent k ++ match (sys_send data k).1 with IoDone n => take (Z.to_nat n) data | _ => [] end;
  sys_send_received data k : sys_received (sys_send data k).2 = sys_received k;
  sys_recv_time k : sys_remaining (sys_recv k).2 < sys_remaining k;
  sys_recv_sent k : sys_sent (sys_recv k).2 = sys_sent k;
  sys_recv_received k : sys_received (sys_recv k).2 = sys_received k ++ match (sys_recv k).1 with IoDone c => [c] | _ => [] end
}.

Section Laws.
Context {K : Socket} {laws : SocketLaws K}.

Lemma waitReady_fuel fuel fuel' events k : (Z.to_nat (sys_remaining k) < fuel)%nat → (Z.to_nat (sys_remaining k) < fuel')%nat → waitReady fuel events k = waitReady fuel' events k.
Proof using laws.
  revert fuel' k. induction fuel as [|fuel IH]; intros fuel' k Hf Hf'; [lia|]. destruct fuel' as [|fuel']; [lia|]. cbn [waitReady]. destruct (sys_cancelled k); [done|].
  destruct (Z.leb_spec (sys_remaining k) 0); [done|]. match goal with |- context [sys_poll events ?ms k] => pose proof (sys_poll_time events ms k) as Ht; destruct (sys_poll events ms k) as [[[]| | |e] k'] end;
    try done; cbn in Ht; apply IH; lia.
Qed.
Lemma waitReady_spec fuel events k : let r := waitReady fuel events k in
  sys_sent r.2 = sys_sent k ∧ sys_received r.2 = sys_received k ∧ sys_remaining r.2 ≤ sys_remaining k ∧ (r.1 = None → 0 < sys_remaining k ∧ sys_remaining r.2 < sys_remaining k).
Proof using laws.
  cbv zeta. revert k. induction fuel as [|fuel IH]; intros k; cbn [waitReady]; [by split_and!|]. destruct (sys_cancelled k); [by split_and!|].
  destruct (Z.leb_spec (sys_remaining k) 0); [by split_and!|]. match goal with |- context [sys_poll events ?ms k] => pose proof (sys_poll_time events ms k) as Ht;
    pose proof (sys_poll_sent events ms k) as Hs; pose proof (sys_poll_received events ms k) as Hr; destruct (sys_poll events ms k) as [[[]| | |e] k'] end; cbn [fst snd] in *; split_and!; try done || lia.
  all: destruct (IH k') as (H1 & H2 & H3 & H4); try congruence; try lia; intros Hn; destruct (H4 Hn); lia.
Qed.
Lemma sendLoop_fuel fuel fuel' data k : (Z.to_nat (sys_remaining k) < fuel)%nat → (Z.to_nat (sys_remaining k) < fuel')%nat → sendLoop fuel data k = sendLoop fuel' data k.
Proof using laws.
  revert fuel' data k. induction fuel as [|fuel IH]; intros fuel' data k Hf Hf'; [lia|]. destruct fuel' as [|fuel']; [lia|]. cbn [sendLoop]. case_bool_decide; [done|].
  unfold wait. destruct (waitReady_spec (timeFuel k) POLLOUT k) as (_ & _ & _ & Ht). destruct (waitReady (timeFuel k) POLLOUT k) as [[e|] k']; [done|]. destruct (Ht eq_refl). cbn [fst snd] in *.
  pose proof (sys_send_time data k') as Ht'. destruct (sys_send data k') as [[n| | |e] k'']; try done; cbn in Ht'; apply IH; lia.
Qed.
Lemma sendLoop_spec fuel data k : let r := sendLoop fuel data k in
  sys_received r.2 = sys_received k ∧ ∃ n, sys_sent r.2 = sys_sent k ++ take n data ∧ (r.1 = None → take n data = data).
Proof using laws.
  cbv zeta. revert data k. induction fuel as [|fuel IH]; intros data k; cbn [sendLoop]; [split; [done|]; exists O; by rewrite take_0, app_nil_r|].
  case_bool_decide as Hd; [split; [done|]; exists O; subst data; by rewrite take_0, app_nil_r|].
  unfold wait. destruct (waitReady_spec (timeFuel k) POLLOUT k) as (Hs & Hr & _). destruct (waitReady (timeFuel k) POLLOUT k) as [[e|] k']; cbn [fst snd] in *.
  { split; [done|]. exists O. by rewrite take_0, app_nil_r. }
  pose proof (sys_send_sent data k') as Hs'. pose proof (sys_send_received data k') as Hr'. rewrite Hs in Hs'. rewrite Hr in Hr'.
  destruct (sys_send data k') as [[n| | |e] k'']; cbn [fst snd] in *; rewrite ?app_nil_r in Hs'.
  - destruct (IH (drop (Z.to_nat n) data) k'') as (Hr'' & m & Hs'' & Hm). split; [by rewrite Hr''|]. exists (Z.to_nat n + m)%nat.
    rewrite Hs'', Hs', <- app_assoc, (take_take_drop data (Z.to_nat n) m). split; [done|]. intros E. rewrite <- (take_take_drop data (Z.to_nat n) m), Hm by done. apply take_drop.
  - destruct (IH data k'') as (Hr'' & m & Hs'' & Hm). split; [by rewrite Hr''|]. exists m. by rewrite Hs'', Hs'.
  - split; [done|]. exists O. by rewrite take_0, app_nil_r.
  - split; [done|]. exists O. by rewrite take_0, app_nil_r.
Qed.
Lemma recvLoop_fuel fuel fuel' k : (Z.to_nat (sys_remaining k) < fuel)%nat → (Z.to_nat (sys_remaining k) < fuel')%nat → recvLoop fuel k = recvLoop fuel' k.
Proof using laws.
  revert fuel' k. induction fuel as [|fuel IH]; intros fuel' k Hf Hf'; [lia|]. destruct fuel' as [|fuel']; [lia|]. cbn [recvLoop].
  unfold wait. destruct (waitReady_spec (timeFuel k) POLLIN k) as (_ & _ & _ & Ht). destruct (waitReady (timeFuel k) POLLIN k) as [[e|] k']; [done|]. destruct (Ht eq_refl). cbn [fst snd] in *.
  pose proof (sys_recv_time k') as Ht'. destruct (sys_recv k') as [[n| | |e] k'']; try done. cbn in Ht'. apply IH; lia.
Qed.
Lemma recvLoop_spec fuel k : let r := recvLoop fuel k in
  sys_sent r.2 = sys_sent k ∧ sys_received r.2 = sys_received k ++ match r.1 with inr c => [c] | inl _ => [] end.
Proof using laws.
  cbv zeta. revert k. induction fuel as [|fuel IH]; intros k; cbn [recvLoop]; [by rewrite app_nil_r|].
  unfold wait. destruct (waitReady_spec (timeFuel k) POLLIN k) as (Hs & Hr & _). destruct (waitReady (timeFuel k) POLLIN k) as [[e|] k']; cbn [fst snd] in *; [by rewrite app_nil_r|].
  pose proof (sys_recv_received k') as Hr'. pose proof (sys_recv_sent k') as Hs'. rewrite Hs in Hs'. rewrite Hr in Hr'.
  destruct (sys_recv k') as [[n| | |e] k'']; cbn [fst snd] in *; rewrite ?app_nil_r in *; try done. destruct (IH k'') as [H1 H2]. by rewrite H1, H2, Hs', Hr'.
Qed.
End Laws.

(** C31: a send returns, has transmitted a prefix of the data, and the whole of it when it
    reports no error; a receive returns, and has consumed exactly the byte it reports. The
    rounds of both are bounded by the time that remains, however many calls are interrupted
    or transfer only a part. *)
Theorem transfers_whole {K : Socket} {laws : SocketLaws K} data k :
  (let r := sendWhole data k in sys_received r.2 = sys_received k ∧ ∃ n, sys_sent r.2 = sys_sent k ++ take n data ∧ (r.1 = None → take n data = data)) ∧
  (let r := recvByte k in sys_sent r.2 = sys_sent k ∧ sys_received r.2 = sys_received k ++ match r.1 with inr c => [c] | inl _ => [] end) ∧
  ∀ fuel, (timeFuel k ≤ fuel)%nat → sendLoop fuel data k = sendWhole data k ∧ recvLoop fuel k = recvByte k.
Proof.
  split; [apply sendLoop_spec|]. split; [apply recvLoop_spec|]. unfold timeFuel. intros fuel Hf. split; [apply sendLoop_fuel|apply recvLoop_fuel]; unfold timeFuel; lia.
Qed.

(** ** A socket *)

(** A socket that takes three bytes at a time, is interrupted every other call, and echoes
    what it was sent until its time is over. *)
Record EchoSocket := mkEcho { ec_time : Z; ec_sent : bytes; ec_received : bytes; ec_queue : bytes }.
Definition echoLater (k : EchoSocket) : EchoSocket := mkEcho (ec_time k - 1) (ec_sent k) (ec_received k) (ec_queue k).
#[export] Instance echoSocket : Socket := {|
  socket := EchoSocket; sys_cancelled _ := false; sys_canCancel _ := true; sys_remaining := ec_time;
  sys_poll events _ k := ((if Z.even (ec_time k) then PollReady true else PollInterrupted), echoLater k);
  sys_send data k := if Z.even (ec_time k / 2) then (IoRetry, echoLater k)
    else (IoDone (Z.min 3 (len data)), mkEcho (ec_time k - 1) (ec_sent k ++ take 3 data) (ec_received k) (ec_queue k ++ take 3 data));
  sys_recv k := match ec_queue k with
    | c :: queue => (IoDone c, mkEcho (ec_time k - 1) (ec_sent k) (ec_received k ++ [c]) queue)
    | [] => (IoRetry, echoLater k)
    end |}.
#[export] Instance echoLaws : SocketLaws echoSocket.
Proof.
  apply (Build_SocketLaws echoSocket ec_sent ec_received); try done; try (intros; cbn; lia).
  - intros data k. cbn. destruct (Z.even _); cbn; lia.
  - intros data k. cbn. destruct (Z.even _); cbn; [by rewrite app_nil_r|]. f_equal. unfold len. destruct (Nat.le_gt_cases 3 (length data)); [f_equal; lia|]. rewrite !take_ge by lia. done.
  - intros data k. cbn. by destruct (Z.even _).
  - intros k. cbn. destruct (ec_queue k); cbn; lia.
  - intros k. cbn. by destruct (ec_queue k).
  - intros k. cbn. destruct (ec_queue k); cbn; [by rewrite app_nil_r|done].
Defined.
Definition echoStart : EchoSocket := mkEcho 1000 [] [] [].
Lemma transfers_whole_witness : (∃ n, sys_sent (sendWhole (bs "qSupported") echoStart).2 = take n (bs "qSupported")) ∧ (sendWhole (bs "qSupported") echoStart).1 = None.
Proof.
  destruct (transfers_whole (K := echoSocket) (bs "qSupported") echoStart) as ((_ & n & E & _) & _). split; [by exists n|by vm_compute].
Defined.
