(* ===== verification/GdbWire.v ===== *)
(** * Packets over a noisy line

    What the framing of [GdbRemote] delivers: the expansion of raw text is the one the
    protocol defines, and [sendPacket] over a conforming stub, which may reject requests,
    damage replies and print on the console, returns the reply of the stub. *)

From S2P Require Import Prelude Numeral GdbRemote.
#[local] Open Scope Z_scope.

(** ** Escapes and run lengths *)

(** The expansion of raw text after what is expanded already. *)
Inductive expands : bytes → bytes → bytes → Prop :=
  | expands_nil out : expands out [] out
  | expands_char pre c raw out : c ≠ "}"%chr → c ≠ "*"%chr → expands (pre ++ [c]) raw out → expands pre (c :: raw) out
  | expands_escape pre e raw out : expands (pre ++ [Z.lxor e 32]) raw out → expands pre ("}"%chr :: e :: raw) out
  | expands_run pre b n raw out : last pre = Some b → 32 ≤ n ≤ 126 → n ≠ "$"%chr → n ≠ "#"%chr →
      expands (pre ++ replicate (Z.to_nat (n - 29)) b) raw out → expands pre ("*"%chr :: n :: raw) out.

Lemma expands_extends pre raw out : expands pre raw out → len pre ≤ len out.
Proof.
  induction 1 as [|pre c raw out _ _ _ IH|pre e raw out _ IH|pre b n raw out _ _ _ _ _ IH]; [lia|rewrite len_snoc in IH; lia..|].
  rewrite len_app in IH. pose proof (len_nonneg (replicate (Z.to_nat (n - 29)) b)). lia.
Qed.
(** The expansion of a packet is accepted exactly when it is legal and fits. *)
Lemma decodeRaw_spec raw pre out : len pre ≤ maxDecoded → decodeRaw raw pre = inr out ↔ expands pre raw out ∧ len out ≤ maxDecoded.
Proof.
  remember (length raw) as n eqn:Hn. revert raw pre Hn. induction (lt_wf n) as [n _ IH]. intros raw pre -> Hpre.
  destruct raw as [|c raw]; cbn [decodeRaw].
  { split; [intros [= <-]; split; [constructor|done]|]. intros [H _]. inversion H; by subst. }
  destruct (Z.eqb_spec c "}"%chr) as [->|Hc].
  { destruct raw as [|e raw]; [split; [done|intros [H _]; inversion H; done]|]. destruct (Z.leb_spec maxDecoded (len pre)).
    - split; [done|]. intros [H1 H2]. inversion H1; subst; try done. match goal with Hx : expands (pre ++ [_]) _ _ |- _ => apply expands_extends in Hx; rewrite len_snoc in Hx; lia end.
    - rewrite (IH (length raw)); [|cbn; lia|done|rewrite len_snoc; lia]. split; intros [H1 H2]; (split; [|done]); [by constructor|]. by inversion H1; subst. }
  destruct (Z.eqb_spec c "*"%chr) as [->|Hc'].
  { destruct (last pre) as [b|] eqn:Hl; [|split; [done|intros [H _]; inversion H; subst; congruence]].
    destruct raw as [|k raw]; [split; [done|intros [H _]; inversion H; done]|].
    assert (expands pre ("*"%chr :: k :: raw) out ↔ (32 ≤ k ≤ 126 ∧ k ≠ "$"%chr ∧ k ≠ "#"%chr) ∧ expands (pre ++ replicate (Z.to_nat (k - 29)) b) raw out) as ->.
    { split; [intros H; inversion H; subst; [done|]; by simplify_eq|]. intros [(? & ? & ?) ?]. by econstructor. }
    destruct (Z.ltb_spec k 32) as [?|?], (Z.ltb_spec 126 k) as [?|?]; cbn [orb]; [split; [done|lia]..|].
    destruct (Z.eqb_spec k "$"%chr); [split; [done|tauto]|]. destruct (Z.eqb_spec k "#"%chr); [split; [done|tauto]|]. cbn [orb].
    assert (len (pre ++ replicate (Z.to_nat (k - 29)) b) = len pre + (k - 29)) as Hlen by (rewrite len_app; unfold len at 2; rewrite length_replicate; lia).
    destruct (Z.ltb_spec (maxDecoded - len pre) (k - 29)).
    - split; [done|]. intros [[_ Hx] ?]. apply expands_extends in Hx. lia.
    - rewrite (IH (length raw)); [|cbn; lia|done|lia]. split; [intros [? ?]; split_and!; done || lia|intros [[_ ?] ?]; done]. }
  destruct (Z.leb_spec maxDecoded (len pre)).
  - split; [done|]. intros [H1 H2]. inversion H1; subst; try done. match goal with Hx : expands (pre ++ [_]) _ _ |- _ => apply expands_extends in Hx; rewrite len_snoc in Hx; lia end.
  - rewrite (IH (length raw)); [|cbn; lia|done|rewrite len_snoc; lia]. split; intros [H1 H2]; (split; [|done]); [by constructor|]. by inversion H1; subst.
Qed.

(** The raw text of a payload. *)
Definition escapeChar (c : Z) : bytes := if (c =? "$"%chr) || (c =? "#"%chr) || (c =? "}"%chr) || (c =? "*"%chr) then ["}"%chr; Z.lxor c 32] else [c].
Definition escape (payload : bytes) : bytes := mjoin (escapeChar <$> payload).
Lemma escape_cons c payload : escape (c :: payload) = escapeChar c ++ escape payload.
Proof. done. Qed.
Lemma escapeLoop_spec packetSize payload raw : len raw ≤ packetSize →
  escapeLoop packetSize payload raw = if len (raw ++ escape payload) <=? packetSize then Some (raw ++ escape payload) else None.
Proof.
  revert raw. induction payload as [|c payload IH]; intros raw Hraw; cbn [escapeLoop]; [by rewrite app_nil_r, (proj2 (Z.leb_le _ _))|].
  fold (escapeChar c). rewrite escape_cons, app_assoc. destruct (Z.ltb_spec packetSize (len (raw ++ escapeChar c))); [|by apply IH].
  rewrite (proj2 (Z.leb_gt _ _)); [done|]. rewrite len_app. pose proof (len_nonneg (escape payload)). lia.
Qed.
Lemma escape_expands payload pre : expands pre (escape payload) (pre ++ payload).
Proof.
  revert pre. induction payload as [|c payload IH]; intros pre; [rewrite app_nil_r; constructor|]. rewrite escape_cons. unfold escapeChar.
  replace (pre ++ c :: payload) with ((pre ++ [c]) ++ payload) by (by rewrite <- app_assoc).
  destruct (_ || _) eqn:E; cbn [app].
  - apply expands_escape. replace (Z.lxor (Z.lxor c 32) 32) with c by (by rewrite Z.lxor_assoc, Z.lxor_nilpotent, Z.lxor_0_r). apply IH.
  - rewrite !orb_false_iff, !Z.eqb_neq in E. apply expands_char; [tauto..|apply IH].
Qed.
Lemma escape_no_frame payload : Forall (λ c, c ≠ "$"%chr ∧ c ≠ "#"%chr) (escape payload).
Proof.
  induction payload as [|c payload IH]; [constructor|]. rewrite escape_cons. apply Forall_app. split; [|done]. unfold escapeChar.
  destruct (Z.eqb_spec c "$"%chr) as [->|]; [repeat constructor; done|]. destruct (Z.eqb_spec c "#"%chr) as [->|]; [repeat constructor; done|].
  destruct (Z.eqb_spec c "}"%chr) as [->|]; [repeat constructor; done|]. destruct (Z.eqb_spec c "*"%chr) as [->|]; [repeat constructor; done|].
  by repeat constructor.
Qed.

(** ** A conforming stub *)

(** A frame that delivers a packet, in any legal encoding. *)
Inductive delivers_packet (packet : bytes) : bytes → Prop :=
  | delivers raw h l : Forall (λ c, c ≠ "#"%chr) raw → len raw ≤ maxWire → expands [] raw packet → len packet ≤ maxDecoded →
      0 ≤ hexValue h → 0 ≤ hexValue l → Z.lor (Z.shiftl (hexValue h) 4) (hexValue l) = checksumOf raw →
      delivers_packet packet ("$"%chr :: raw ++ ["#"%chr; h; l]).
(** A frame whose checksum does not match. *)
Inductive damaged : bytes → Prop :=
  | damaged_intro raw h l : Forall (λ c, c ≠ "#"%chr) raw → len raw ≤ maxWire →
      hexValue h < 0 ∨ hexValue l < 0 ∨ Z.lor (Z.shiftl (hexValue h) 4) (hexValue l) ≠ checksumOf raw →
      damaged ("$"%chr :: raw ++ ["#"%chr; h; l]).
(** What the stub sends for some packets: each one after at most two damaged tries, and
    none of those when acknowledgments are off. *)
Inductive transmission (acks : bool) : list bytes → list bytes → Prop :=
  | transmission_nil : transmission acks [] []
  | transmission_cons tries f packet packets sends : Forall damaged tries → (length tries ≤ if acks then 2 else 0)%nat →
      delivers_packet packet f → transmission acks packets sends → transmission acks (packet :: packets) (tries ++ f :: sends).

(** The text a stub receives: [$raw#hh] with a matching checksum. *)
Definition unframe (data : bytes) : option bytes :=
  match data with
  | d :: rest =>
      if d =? "$"%chr then
        let? raw := beforeFirst "#"%chr rest in
        if bool_decide (rest = raw ++ "#"%chr :: hexByte (checksumOf raw))
        then match decodeRaw raw [] with inr payload => Some payload | inl _ => None end else None
      else None
  | [] => None
  end.

(** The other end: a state, whether it waits for acknowledgments, how often it rejects a
    request first, what it prints and replies, and the frames that carry this. *)
Class Stub := {
  stub : Type;
  stub_acks : stub → bool;
  stub_rejects : stub → bytes → nat;
  stub_handle : stub → bytes → stub * (list bytes * bytes);
  stub_sends : stub → list bytes → list bytes
}.
Record Line {Sb : Stub} := mkLine { ln_stub : stub; ln_queue : bytes; ln_pending : list bytes; ln_rejected : nat }.
Arguments mkLine {Sb} ln_stub ln_queue ln_pending ln_rejected.

(** What the stub does with what arrives. *)
Definition lineSend {Sb : Stub} (data : bytes) (l : Line) : option bytes * Line :=
  (None,
   if bool_decide (data = ["+"%chr]) || bool_decide (data = ["-"%chr])
   then mkLine (ln_stub l) (ln_queue l ++ default [] (head (ln_pending l))) (tail (ln_pending l)) (ln_rejected l)
   else match unframe data with
   | None => l
   | Some payload =>
       if stub_acks (ln_stub l) && bool_decide (ln_rejected l < stub_rejects (ln_stub l) payload)%nat
       then mkLine (ln_stub l) (ln_queue l ++ ["-"%chr]) (ln_pending l) (S (ln_rejected l))
       else
         let r := stub_handle (ln_stub l) payload in
         let sends := stub_sends (ln_stub l) (r.2.1 ++ [r.2.2]) in
         if stub_acks (ln_stub l)
         then mkLine r.1 (ln_queue l ++ "+"%chr :: default [] (head sends)) (tail sends) 0
         else mkLine r.1 (ln_queue l ++ mjoin sends) [] 0
   end).
Definition lineRecv {Sb : Stub} (l : Line) : (bytes + Z) * Line :=
  match ln_queue l with
  | [] => (inl (bs "GDB operation timed out"), l)
  | c :: queue => (inr c, mkLine (ln_stub l) queue (ln_pending l) (ln_rejected l))
  end.
#[export] Instance stub_peer {Sb : Stub} : Peer := {|
  peer := Line; peer_send := lineSend; peer_recv := lineRecv; peer_cancelled _ := false; peer_expired _ := false |}.

(** The stub sends what it has to, whole. *)
Class StubLaws (Sb : Stub) : Prop := {
  stub_sends_ok s packets : Forall (λ p, len (escape p) ≤ maxWire) packets → transmission (stub_acks s) packets (stub_sends s packets)
}.
(** Nothing is on its way. *)
Definition idle {Sb : Stub} (s : stub) : Line := mkLine s [] [] 0.
(** The rest of a transmission, on its way or waiting for acknowledgments. *)
Definition onLine {Sb : Stub} (acks : bool) (s : stub) (sends : list bytes) : Line :=
  if acks then mkLine s (default [] (head sends)) (tail sends) 0 else mkLine s (mjoin sends) [] 0.

(** ** Reading what the stub sends *)

Section Line.
Context {Sb : Stub}.
Implicit Types c : Client.

Lemma readByte_queue c s x queue pending k : readByte (c, mkLine s (x :: queue) pending k) = (inr x, (c, mkLine s queue pending k)).
Proof. done. Qed.
Lemma readRaw_queue fuel c s raw rest pending k acc sum : Forall (λ x, x ≠ "#"%chr) raw → len acc + len raw ≤ maxWire → (length raw < fuel)%nat →
  readRaw fuel acc sum (c, mkLine s (raw ++ "#"%chr :: rest) pending k) = (inr (acc ++ raw, foldl (λ a x, u8 (a + x)) sum raw), (c, mkLine s rest pending k)).
Proof.
  intros Hraw. revert fuel acc sum. induction Hraw as [|x raw Hx _ IH]; intros fuel acc sum Hlen Hfuel; (destruct fuel as [|fuel]; [cbn in Hfuel; lia|]).
  { cbn. by rewrite app_nil_r. }
  cbn [readRaw app]. unfold mbind, gdb_bind. rewrite readByte_queue, (proj2 (Z.eqb_neq _ _)) by done. rewrite len_cons in Hlen. pose proof (len_nonneg raw).
  rewrite (proj2 (Z.leb_gt _ _)) by lia. rewrite IH; [by rewrite <- app_assoc|rewrite len_snoc; lia|cbn in Hfuel; lia].
Qed.
(** One frame is read to its end. *)
Lemma readFrame c s raw h l rest pending k (kont : Z → Z → bytes → Z → gdb (option bytes)) : Forall (λ x, x ≠ "#"%chr) raw → len raw ≤ maxWire →
  (readPrefix 18 0;; '(raw, checksum) ← readRaw (Datatypes.S (Z.to_nat maxWire)) [] 0; hi ← attempt readByte; lo ← attempt readByte; hi ← lift hi; lo ← lift lo; kont hi lo raw checksum)
    (c, mkLine s (("$"%chr :: raw ++ ["#"%chr; h; l]) ++ rest) pending k)
  = kont h l raw (checksumOf raw) (c, mkLine s rest pending k).
Proof.
  intros Hraw Hlen. cbn [app]. rewrite <- app_assoc. cbn [app]. unfold mbind, gdb_bind. cbn [readPrefix]. unfold mbind, gdb_bind. rewrite readByte_queue.
  change ("$"%chr =? "$"%chr) with true. cbn [mret gdb_ret]. rewrite readRaw_queue; [done|done|rewrite (len_nil (A:=Z)); lia|unfold len in Hlen; lia].
Qed.
Lemma lineSend_ack x c s queue pending k : x = "+"%chr ∨ x = "-"%chr →
  sendAll [x] (c, mkLine s queue pending k) = (inr (), (c, mkLine s (queue ++ default [] (head pending)) (tail pending) k)).
Proof. intros [->| ->]; done. Qed.

Lemma onLine_cons acks s f sends : onLine acks s (f :: sends) = mkLine s (f ++ if acks then [] else mjoin sends) (if acks then sends else []) 0.
Proof. destruct acks; [cbn; by rewrite app_nil_r|done]. Qed.
Lemma onLine_ack x c s sends : x = "+"%chr ∨ x = "-"%chr → sendAll [x] (c, mkLine s [] sends 0) = (inr (), (c, onLine true s sends)).
Proof. intros Hx. by rewrite lineSend_ack. Qed.

Lemma readAttempt_good c s f packet sends : delivers_packet packet f →
  readAttempt (c, onLine (negb (c_noAck c)) s (f :: sends)) = (inr (Some packet), (c, onLine (negb (c_noAck c)) s sends)).
Proof.
  intros [raw h l Hraw Hlen Hexp Hout Hh Hl Hsum]. rewrite onLine_cons. unfold readAttempt. rewrite readFrame by done.
  unfold mbind, gdb_bind at 1, getClient. cbn [fst snd]. rewrite !(proj2 (Z.ltb_ge _ _)) by done. rewrite <- Hsum, Z.eqb_refl. cbn [orb negb].
  unfold gdb_bind at 1, lift. rewrite (proj2 (decodeRaw_spec raw [] packet ltac:(done))) by done.
  destruct (c_noAck c); cbn [negb]; [done|]. unfold gdb_bind. by rewrite onLine_ack by (by left).
Qed.
Lemma readAttempt_damaged c s f sends : c_noAck c = false → damaged f →
  readAttempt (c, onLine (negb (c_noAck c)) s (f :: sends)) = (inr None, (c, onLine (negb (c_noAck c)) s sends)).
Proof.
  intros Hack [raw h l Hraw Hlen Hbad]. rewrite onLine_cons. unfold readAttempt. rewrite readFrame by done.
  unfold mbind, gdb_bind at 1, getClient. cbn [fst snd]. rewrite Hack. cbn [negb].
  assert ((hexValue h <? 0) || (hexValue l <? 0) || negb (checksumOf raw =? Z.lor (Z.shiftl (hexValue h) 4) (hexValue l)) = true) as ->.
  { rewrite !orb_true_iff, !Z.ltb_lt, negb_true_iff, Z.eqb_neq. destruct Hbad as [|[|]]; auto. }
  unfold gdb_bind, attempt. by rewrite onLine_ack by (by right).
Qed.
Lemma readPacket_delivers c s tries f packet sends attempts : Forall damaged tries → (length tries ≤ if negb (c_noAck c) then 2 else 0)%nat → (length tries < attempts)%nat →
  delivers_packet packet f → readPacketLoop attempts (c, onLine (negb (c_noAck c)) s (tries ++ f :: sends)) = (inr packet, (c, onLine (negb (c_noAck c)) s sends)).
Proof.
  intros Htries Hmax Hattempts Hf. revert attempts Hattempts. induction Htries as [|d tries Hd _ IH]; intros attempts Hattempts; (destruct attempts as [|attempts]; [cbn in Hattempts; lia|]); cbn [readPacketLoop app].
  - unfold mbind, gdb_bind. by rewrite (readAttempt_good _ _ _ packet).
  - assert (c_noAck c = false) as Hack by (destruct (c_noAck c); [cbn in Hmax; lia|done]). unfold mbind, gdb_bind. rewrite readAttempt_damaged by done.
    apply IH; [rewrite Hack in *; cbn in *; lia|cbn in Hattempts; lia].
Qed.
Lemma closing_ok {A} (m : gdb A) st a st' : m st = (inr a, st') → closing m st = (inr a, st').
Proof. intros E. unfold closing, mbind, gdb_bind, attempt. by rewrite E. Qed.

(** The responses: what is printed is skipped, then the reply is the result. *)
Lemma responseLoop_delivers c s consoles reply sends fuel : (length consoles < fuel)%nat → Forall (λ p, isConsole p = true) consoles → isConsole reply = false →
  transmission (negb (c_noAck c)) (consoles ++ [reply]) sends →
  responseLoop fuel (c, onLine (negb (c_noAck c)) s sends)
  = ((if isErrorReply reply then inl (bs "GDB error response: " ++ reply) else inr reply), (c, onLine (negb (c_noAck c)) s [])).
Proof.
  intros Hfuel Hconsoles Hreply. revert fuel sends Hfuel. induction Hconsoles as [|p consoles Hp _ IH]; intros fuel sends Hfuel Hsends;
    (destruct fuel as [|fuel]; [cbn in Hfuel; lia|]); cbn [responseLoop app] in *; inversion Hsends as [|tries f packet packets sends' Htries Hlen Hf Hrest]; subst;
    unfold mbind, gdb_bind; (erewrite closing_ok; [|apply readPacket_delivers; [done|done|destruct (negb _); lia|done]]).
  - inversion Hrest; subst. destruct (isErrorReply reply); [done|]. by rewrite Hreply.
  - assert (isErrorReply p = false) as ->.
    { unfold isErrorReply. destruct p as [|o [|x [|y [|z p]]]]; try done; unfold isConsole in Hp; destruct (Z.eqb_spec o "O"%chr) as [->|]; try done; by rewrite andb_false_r in Hp. }
    rewrite Hp. apply IH; [cbn in Hfuel; lia|done].
Qed.
End Line.

(** ** An exchange *)

Lemma beforeFirst_app x l rest : Forall (λ c, c ≠ x) l → beforeFirst x (l ++ x :: rest) = Some l.
Proof. induction 1 as [|c l Hc _ IH]; cbn; [by rewrite Z.eqb_refl|]. rewrite (proj2 (Z.eqb_neq _ _)) by done. by rewrite IH. Qed.
Lemma escape_length payload : len payload ≤ len (escape payload).
Proof.
  induction payload as [|c payload IH]; [done|]. rewrite escape_cons, len_app, len_cons. unfold escapeChar. destruct (_ || _); rewrite ?len_cons, (len_nil (A:=Z)); lia.
Qed.
Lemma unframe_frame payload : len payload ≤ maxDecoded → unframe (frame (escape payload)) = Some payload.
Proof.
  intros Hlen. unfold frame, unframe. change ("$"%chr =? "$"%chr) with true. cbv iota. rewrite beforeFirst_app.
  - cbn [mbind option_bind]. rewrite bool_decide_true by done. by rewrite (proj2 (decodeRaw_spec _ [] payload ltac:(done))) by (by split; [apply (escape_expands payload [])|]).
  - eapply Forall_impl; [apply escape_no_frame|]. by intros c [_ ?].
Qed.

(** A reply a client can take: what the console prints is bounded and recognised, the reply
    is not taken for console output, and each packet fits the line. *)
Record exchange_ok (consoles : list bytes) (reply : bytes) : Prop := {
  ex_count : (length consoles < 64)%nat;
  ex_consoles : Forall (λ p, isConsole p = true) consoles;
  ex_reply : isConsole reply = false;
  ex_fit : Forall (λ p, len (escape p) ≤ maxWire) (consoles ++ [reply])
}.
(** The client and the stub agree on acknowledgments. *)
Definition agree {Sb : Stub} (c : Client) (s : stub) : Prop := c_connected c = true ∧ c_noAck c = negb (stub_acks s) ∧ 64 ≤ c_packetSize c ≤ maxWire.

Section Exchange.
Context {Sb : Stub} {laws : StubLaws Sb}.
Context (c : Client) (s : stub) (payload : bytes) (Hagree : agree c s) (Hfit : len (escape payload) ≤ c_packetSize c).

Lemma payload_fits : len payload ≤ maxDecoded.
Proof using Hagree Hfit. pose proof (escape_length payload). destruct Hagree as (_ & _ & ?). assert (maxWire ≤ maxDecoded) by done. lia. Qed.
Lemma transmit_accepted attempts k : (stub_rejects s payload ≤ k + attempts - 1)%nat → (0 < attempts)%nat →
  let r := stub_handle s payload in
  transmit attempts (frame (escape payload)) (c, mkLine s [] [] k)
  = (inr true, (c, onLine (negb (c_noAck c)) r.1 (stub_sends s (r.2.1 ++ [r.2.2])))).
Proof using Hagree Hfit.
  cbv zeta. set (r := stub_handle s payload). pose proof payload_fits as Hlen. destruct Hagree as (_ & Hack & _).
  revert k. induction attempts as [|attempts IH]; intros k Hrej Hpos; [lia|]. cbn [transmit]. unfold mbind, gdb_bind at 1.
  set (packet := frame (escape payload)). assert (∀ k, sendAll packet (c, mkLine s [] [] k) = (inr (), (c, (lineSend packet (mkLine s [] [] k)).2))) as Hsend by done.
  rewrite (closing_ok _ _ _ _ (Hsend k)). unfold lineSend. rewrite !bool_decide_false by done. cbn [orb snd ln_stub ln_queue ln_pending ln_rejected].
  assert (unframe packet = Some payload) as -> by (by apply unframe_frame). fold r. unfold gdb_bind at 1, getClient. cbn [fst]. rewrite Hack.
  destruct (stub_acks s) eqn:Hacks; cbn [negb andb]; [|done].
  case_bool_decide as Hk; unfold gdb_bind; rewrite app_nil_l.
  - rewrite (closing_ok _ _ _ _ (readByte_queue _ _ _ _ _ _)). change ("-"%chr =? "+"%chr) with false. change (negb ("-"%chr =? "-"%chr)) with false. cbv iota.
    rewrite Hack in IH. cbn [negb] in IH. apply IH; lia.
  - by rewrite (closing_ok _ _ _ _ (readByte_queue _ _ _ _ _ _)).
Qed.
Lemma sendPacket_ret : (stub_rejects s payload ≤ 2)%nat → let r := stub_handle s payload in exchange_ok r.2.1 r.2.2 →
  sendPacket payload (c, idle s) = ((if isErrorReply r.2.2 then inl (bs "GDB error response: " ++ r.2.2) else inr r.2.2), (c, idle r.1)).
Proof using Hagree Hfit laws.
  cbv zeta. intros Hrej [Hcount Hconsoles Hreply Hwire]. pose proof (transmit_accepted 3 0 ltac:(lia) ltac:(lia)) as Ht. cbv zeta in Ht. set (r := stub_handle s payload) in *.
  pose proof (stub_sends_ok s _ Hwire) as Hsends. destruct Hagree as (Hconn & Hack & Hsize).
  unfold sendPacket. unfold mbind, gdb_bind at 1, getClient. cbn [fst]. rewrite Hconn. cbn [negb]. unfold gdb_bind at 1. cbn [snd peer_cancelled stub_peer].
  rewrite escapeLoop_spec by (rewrite (len_nil (A:=Z)); lia). rewrite app_nil_l, (proj2 (Z.leb_le _ _)) by done. unfold gdb_bind. unfold idle at 1. rewrite Ht. cbn [negb].
  assert (stub_acks s = negb (c_noAck c)) as Eacks by (by rewrite Hack, negb_involutive). rewrite Eacks in Hsends.
  rewrite (responseLoop_delivers c r.1 r.2.1 r.2.2) by done. by destruct (negb (c_noAck c)).
Qed.
End Exchange.
