(* ===== verification/GdbStub.v ===== *)
(** * Memory and registers through a stub

    The accesses of [GdbRemote] against the memory and the registers of a stub that answers
    as the protocol says: what is read is what is there, what is written changes nothing
    else, whatever the packet size and the noise on the line. *)

From S2P Require Import Prelude Numeral GdbRemote GdbWire.
#[local] Open Scope Z_scope.

(** ** Hexadecimal text *)

Lemma hexValue_digit d : 0 ≤ d < 16 → hexValue (digit_char d) = d.
Proof. intros Hd. unfold hexValue, digit_char. change ("0"%chr) with 48. change ("a"%chr) with 97. change ("9"%chr) with 57. change ("f"%chr) with 102. destruct (Z.ltb_spec d 10).
  - destruct (Z.leb_spec 48 (48 + d)), (Z.leb_spec (48 + d) 57); cbn [andb]; lia.
  - destruct (Z.leb_spec 48 (97 + (d - 10))), (Z.leb_spec (97 + (d - 10)) 57); cbn [andb]; try lia. destruct (Z.leb_spec 97 (97 + (d - 10))), (Z.leb_spec (97 + (d - 10)) 102); cbn [andb]; lia.
Qed.
Lemma nibbles b : is_byte b → 0 ≤ Z.shiftr b 4 < 16 ∧ 0 ≤ Z.land b 15 < 16 ∧ Z.lor (Z.shiftl (Z.shiftr b 4) 4) (Z.land b 15) = b.
Proof.
  intros Hb. unfold in_width in Hb. change 15 with (Z.ones 4). rewrite Z.shiftr_div_pow2, Z.land_ones by lia. change (2 ^ 4) with 16. change (2 ^ 8) with 256 in Hb.
  pose proof (Z.mod_pos_bound b 16 ltac:(lia)). pose proof (Z.div_mod b 16 ltac:(lia)). split; [split; [apply Z.div_pos; lia|apply Z.div_lt_upper_bound; lia]|]. split; [done|].
  rewrite <- (Z.land_ones b 4) at 1 by lia. replace (b / 16) with (Z.shiftr b 4) by (by rewrite Z.shiftr_div_pow2 by lia). 
  apply Z.bits_inj'. intros i Hi. rewrite Z.lor_spec, Z.shiftl_spec, Z.land_spec by lia. destruct (Z.ltb_spec i 4).
  - rewrite Z.testbit_neg_r by lia. rewrite Z.ones_spec_low by lia. by rewrite andb_true_r.
  - rewrite Z.shiftr_spec by lia. rewrite Z.ones_spec_high by lia. rewrite andb_false_r, orb_false_r. f_equal. lia.
Qed.
Lemma hexBytes_cons b l : hexBytes (b :: l) = digit_char (Z.shiftr b 4) :: digit_char (Z.land b 15) :: hexBytes l.
Proof. done. Qed.
Lemma len_hexBytes l : len (hexBytes l) = 2 * len l.
Proof. induction l as [|b l IH]; [done|]. rewrite hexBytes_cons, !len_cons, IH. lia. Qed.
Lemma hexBytes_app l k : hexBytes (l ++ k) = hexBytes l ++ hexBytes k.
Proof. unfold hexBytes. by rewrite fmap_app, join_app. Qed.
Lemma decodeHex_hexBytes l : bytes_ok l → decodeHex (hexBytes l) = inr l.
Proof.
  intros Hl. unfold decodeHex. rewrite len_hexBytes, Z.mul_comm, Z_mod_mult. cbn [Z.eqb negb].
  induction Hl as [|b l Hb _ IH]; [done|]. rewrite hexBytes_cons. cbn [decodePairs]. destruct (nibbles b Hb) as (H1 & H2 & H3). rewrite !hexValue_digit by done.
  rewrite !(proj2 (Z.ltb_ge _ 0)) by lia. cbn [orb]. rewrite IH, H3. f_equal. f_equal. by apply wrap_small.
Qed.
(** Text a request or a reply is made of: no escape and no console. *)
Definition plain (c : Z) : Prop := 44 ≤ c ≤ 58 ∨ 61 ≤ c ≤ 122.
Lemma escape_plain l : Forall plain l → escape l = l.
Proof.
  induction 1 as [|c l Hc _ IH]; [done|]. rewrite escape_cons, IH. unfold escapeChar. unfold plain in Hc. change ("$"%chr) with 36. change ("#"%chr) with 35. change ("}"%chr) with 125. change ("*"%chr) with 42.
  by rewrite !(proj2 (Z.eqb_neq c _)) by lia.
Qed.
Lemma digit_plain d : 0 ≤ d < 16 → plain (digit_char d) ∧ digit_char d ≠ "O"%chr ∧ digit_char d ≠ "E"%chr ∧ 0 <=? hexValue (digit_char d) = true.
Proof.
  intros Hd. rewrite hexValue_digit by done. rewrite (proj2 (Z.leb_le 0 d)) by lia. unfold plain, digit_char. change ("0"%chr) with 48. change ("a"%chr) with 97. change ("O"%chr) with 79. change ("E"%chr) with 69.
  destruct (Z.ltb_spec d 10); lia.
Qed.
Lemma hexBytes_text l : bytes_ok l → Forall (λ c, plain c ∧ c ≠ "O"%chr ∧ c ≠ "E"%chr ∧ 0 <=? hexValue c = true) (hexBytes l).
Proof. induction 1 as [|b l Hb _ IH]; [constructor|]. destruct (nibbles b Hb) as (H1 & H2 & _). rewrite hexBytes_cons. by repeat (apply Forall_cons_2; [by apply digit_plain|]). Qed.
Lemma hexBytes_plain l : bytes_ok l → Forall plain (hexBytes l).
Proof. intros H. eapply Forall_impl; [by apply hexBytes_text|]. by intros c [? _]. Qed.
Lemma hexBytes_reply l : bytes_ok l → isErrorReply (hexBytes l) = false ∧ isConsole (hexBytes l) = false.
Proof.
  intros H. pose proof (hexBytes_text l H) as Ht. destruct (hexBytes l) as [|c k] eqn:E; [done|]. apply Forall_cons_1 in Ht as [(_ & H1 & H2 & _) _].
  split.
  - unfold isErrorReply. change (starts_with (bs "E.") (c :: k)) with (("E"%chr =? c) && starts_with (bs ".") k). rewrite (proj2 (Z.eqb_neq "E"%chr c)) by congruence.
    destruct k as [|x [|y [|z k]]]; try done. by rewrite (proj2 (Z.eqb_neq c _)).
  - unfold isConsole. rewrite (proj2 (Z.eqb_neq c _)) by done. by rewrite andb_false_r.
Qed.

Lemma digits_fuel_length fuel base n k : 2 ≤ base → 0 ≤ n < base ^ Z.of_nat k → (0 < k)%nat → (length (digits_fuel fuel base n []) ≤ k)%nat.
Proof.
  intros Hb. revert n k. induction fuel as [|fuel IH]; intros n k Hn Hk; cbn [digits_fuel]; [cbn; lia|]. destruct (Z.eqb_spec (n / base) 0); [cbn; lia|].
  rewrite digits_fuel_app, length_app. destruct k as [|k]; [lia|]. destruct k as [|k].
  - exfalso. change (Z.of_nat 1) with 1 in Hn. rewrite Z.pow_1_r in Hn. by rewrite Z.div_small in n0.
  - rewrite Nat2Z.inj_succ, Z.pow_succ_r in Hn by lia. specialize (IH (n / base) (S k)). cbn [length]. enough (length (digits_fuel fuel base (n / base) []) ≤ S k)%nat by lia.
    apply IH; [|lia]. split; [apply Z.div_pos; lia|apply Z.div_lt_upper_bound; lia].
Qed.
Lemma hexNumber_text n : 0 ≤ n < 2 ^ 64 → Forall plain (hexNumber n) ∧ len (hexNumber n) ≤ 16.
Proof.
  intros Hn. split.
  - eapply Forall_impl; [apply to_digits_valid; lia|]. intros c (d & Hd & ->). by apply digit_plain.
  - unfold len, hexNumber, to_digits. pose proof (digits_fuel_length (S (Z.to_nat (Z.log2 n))) 16 n 16 ltac:(lia) Hn ltac:(lia)). lia.
Qed.

(** ** Memory *)

(** The requests for memory, as text. *)
Definition readRequest (address count : Z) : bytes := bs "m" ++ hexNumber address ++ bs "," ++ hexNumber count.
Definition writeRequest (address : Z) (data : bytes) : bytes := bs "M" ++ hexNumber address ++ bs "," ++ hexNumber (len data) ++ bs ":" ++ hexBytes data.
Lemma readRequest_text a n : 0 ≤ a < 2 ^ 64 → 0 ≤ n < 2 ^ 64 → Forall plain (readRequest a n) ∧ len (readRequest a n) ≤ 34.
Proof.
  intros Ha Hn. destruct (hexNumber_text a Ha) as [P1 L1]. destruct (hexNumber_text n Hn) as [P2 L2]. unfold readRequest. split.
  - repeat (apply Forall_app; split); try done; repeat constructor; unfold plain; cbn; lia.
  - rewrite !len_app. change (len (bs "m")) with 1. change (len (bs ",")) with 1. lia.
Qed.
Lemma writeRequest_text a data : 0 ≤ a < 2 ^ 64 → len data < 2 ^ 64 → bytes_ok data → Forall plain (writeRequest a data) ∧ len (writeRequest a data) ≤ 35 + 2 * len data.
Proof.
  intros Ha Hn Hd. destruct (hexNumber_text a Ha) as [P1 L1]. destruct (hexNumber_text (len data)) as [P2 L2]; [split; [apply len_nonneg|done]|]. unfold writeRequest. split.
  - repeat (apply Forall_app; split); try done; try (by apply hexBytes_plain); repeat constructor; unfold plain; cbn; lia.
  - rewrite !len_app, len_hexBytes. change (len (bs "M")) with 1. change (len (bs ",")) with 1. change (len (bs ":")) with 1. lia.
Qed.

(** The bytes from an address that can be read, at most [n]. *)
Fixpoint readable (byte : Z → option Z) (address : Z) (n : nat) : bytes :=
  match n with
  | O => []
  | S n => match byte address with Some b => b :: readable byte (address + 1) n | None => [] end
  end.
Definition refusal (reply : bytes) : Prop := isErrorReply reply = true ∧ isConsole reply = false ∧ len (escape reply) ≤ maxWire.
(** Memory behind a stub: a request is served as far as memory can be read, or refused; a
    write is done and confirmed, or refused, and then any part of its data may have been
    written, as the protocol says of [E NN]. *)
Class MemoryStub (Sb : Stub) := {
  stub_byte : stub → Z → option Z;
  stub_writable : stub → Z → bytes → bool;
  stub_byte_ok s a b : stub_byte s a = Some b → is_byte b;
  stub_patient s payload : (stub_rejects s payload ≤ 2)%nat;
  stub_read s a n : 0 ≤ a < 2 ^ 64 → 0 < n < 2 ^ 64 → ∃ consoles reply, stub_handle s (readRequest a n) = (s, (consoles, reply)) ∧
    (length consoles < 64)%nat ∧ Forall (λ p, isConsole p = true ∧ len (escape p) ≤ maxWire) consoles ∧
    let l := readable (stub_byte s) a (Z.to_nat n) in if bool_decide (l = []) then refusal reply else reply = hexBytes l;
  stub_write s a data : 0 ≤ a < 2 ^ 64 → data ≠ [] → len data < 2 ^ 64 → bytes_ok data → ∃ s' consoles reply, stub_handle s (writeRequest a data) = (s', (consoles, reply)) ∧
    (length consoles < 64)%nat ∧ Forall (λ p, isConsole p = true ∧ len (escape p) ≤ maxWire) consoles ∧ stub_acks s' = stub_acks s ∧
    if stub_writable s a data
    then reply = bs "OK" ∧ ∀ x, stub_byte s' x = if (a <=? x) && (x <? a + len data) then lget data (x - a) else stub_byte s x
    else refusal reply ∧ ∀ x, stub_byte s' x = stub_byte s x ∨ (a ≤ x < a + len data ∧ stub_byte s' x = lget data (x - a))
}.

Lemma readable_app byte a n m : readable byte a (n + m) = if bool_decide (length (readable byte a n) = n) then readable byte a n ++ readable byte (a + Z.of_nat n) m else readable byte a n.
Proof.
  revert a. induction n as [|n IH]; intros a; [by rewrite Z.add_0_r|]. cbn [readable Nat.add]. destruct (byte a) as [b|]; [|by rewrite bool_decide_false].
  rewrite IH. replace (a + 1 + Z.of_nat n) with (a + Z.of_nat (S n)) by lia. cbn [length]. destruct (decide (length (readable byte (a + 1) n) = n)).
  - by rewrite !bool_decide_true by lia.
  - by rewrite !bool_decide_false by lia.
Qed.
Lemma readable_le byte a n : (length (readable byte a n) ≤ n)%nat.
Proof. revert a. induction n as [|n IH]; intros a; cbn; [lia|]. destruct (byte a); cbn; [|lia]. specialize (IH (a + 1)). lia. Qed.
Lemma readable_ok byte a n : (∀ x b, byte x = Some b → is_byte b) → bytes_ok (readable byte a n).
Proof. intros H. revert a. induction n as [|n IH]; intros a; cbn; [constructor|]. destruct (byte a) eqn:E; [|constructor]. apply Forall_cons_2; [by eapply H|apply IH]. Qed.

Lemma exchange_plain consoles reply : (length consoles < 64)%nat → Forall (λ p, isConsole p = true ∧ len (escape p) ≤ maxWire) consoles →
  isConsole reply = false → len (escape reply) ≤ maxWire → exchange_ok consoles reply.
Proof.
  intros Hc Hall Hr Hl. split; [done|by eapply Forall_impl; [exact Hall|intros ? []]|done|]. apply Forall_app. split; [by eapply Forall_impl; [exact Hall|intros ? []]|by constructor].
Qed.

Section Memory.
Context {Sb : Stub} {laws : StubLaws Sb} {memory : MemoryStub Sb}.

(** One block: what is readable, or an error. *)
Lemma readBlock c s a n : agree c s → 0 ≤ a < 2 ^ 64 → 0 < n → 2 * n ≤ maxWire →
  let l := readable (stub_byte s) a (Z.to_nat n) in
  ∃ e, sendPacket (readRequest a n) (c, idle s) = ((if bool_decide (l = []) then inl e else inr (hexBytes l)), (c, idle s)).
Proof using laws memory.
  cbv zeta. intros Hag Ha Hn Hfit. assert (n < 2 ^ 64) as Hw by (change maxWire with 1048576 in Hfit; lia). destruct (stub_read s a n Ha (conj Hn Hw)) as (consoles & reply & Hh & Hc & Hall & Hreply). cbv zeta in Hreply. set (l := readable _ _ _) in *.
  destruct (readRequest_text a n) as [Hp Hl]; [done|lia|].
  assert (bytes_ok l) as Hlok by (apply readable_ok, stub_byte_ok).
  assert (len l ≤ n) as Hln by (pose proof (readable_le (stub_byte s) a (Z.to_nat n)); unfold len, l; lia).
  assert (isConsole reply = false ∧ len (escape reply) ≤ maxWire) as [Hr1 Hr2].
  { case_bool_decide; [by destruct Hreply as (_ & ? & ?)|]. subst reply. split; [by apply hexBytes_reply|]. rewrite escape_plain, len_hexBytes by (by apply hexBytes_plain). lia. }
  pose proof Hag as (_ & _ & Hsize). pose proof (sendPacket_ret c s (readRequest a n) Hag ltac:(rewrite escape_plain by done; lia) (stub_patient s _)) as Hx. cbv zeta in Hx. rewrite Hh in Hx.
  specialize (Hx (exchange_plain _ _ Hc Hall Hr1 Hr2)). cbn [fst snd] in Hx. rewrite Hx. case_bool_decide.
  - destruct Hreply as (-> & _). by eexists.
  - subst reply. exists []. by rewrite (proj1 (hexBytes_reply l Hlok)).
Qed.
Lemma readLoop_exact c s address size fuel (done_ : nat) : agree c s → 0 ≤ address → address + size ≤ 2 ^ 64 → 0 < size → Z.of_nat done_ ≤ size →
  length (readable (stub_byte s) address done_) = done_ → (Z.to_nat size - done_ < fuel)%nat →
  let l := readable (stub_byte s) address (Z.to_nat size) in
  ∃ e, readLoop fuel address size (readable (stub_byte s) address done_) (c, idle s) = ((if bool_decide (l = []) then inl e else inr l), (c, idle s)).
Proof using laws memory.
  cbv zeta. intros Hag Ha Hw Hsize Hdone Hfull Hfuel. revert done_ Hdone Hfull Hfuel. induction fuel as [|fuel IH]; intros done_ Hdone Hfull Hfuel; [lia|].
  cbn [readLoop]. pose proof Hag as (_ & _ & Hps). assert (len (readable (stub_byte s) address done_) = Z.of_nat done_) as Hlen by (unfold len; by rewrite Hfull). rewrite Hlen. destruct (Z.ltb_spec (Z.of_nat done_) size) as [Hlt|Hge].
  - unfold mbind, gdb_bind at 1, getClient. cbn [fst]. set (count := Z.min (size - Z.of_nat done_) (c_packetSize c / 2)).
    assert (32 ≤ c_packetSize c / 2) by (apply Z.div_le_lower_bound; lia). assert (2 * (c_packetSize c / 2) ≤ c_packetSize c) by (apply Z.mul_div_le; lia).
    assert (0 < count ∧ 2 * count ≤ maxWire ∧ count ≤ size - Z.of_nat done_) as (Hc & Hcw & Hcs) by (unfold count; lia). clearbody count.
    unfold gdb_bind at 1, attempt. rewrite wrap_small by lia_w. fold (readRequest (address + Z.of_nat done_) count).
    destruct (readBlock c s (address + Z.of_nat done_) count Hag ltac:(lia) Hc Hcw) as (e & ->). set (l := readable (stub_byte s) (address + Z.of_nat done_) (Z.to_nat count)).
    assert (readable (stub_byte s) address (done_ + Z.to_nat count) = readable (stub_byte s) address done_ ++ l) as Happ by (by rewrite readable_app, bool_decide_true).
    assert (∀ m, length (readable (stub_byte s) address (done_ + Z.to_nat count)) ≠ (done_ + Z.to_nat count)%nat → readable (stub_byte s) address (done_ + Z.to_nat count + m) = readable (stub_byte s) address done_ ++ l) as Hshort.
    { intros m Hm. by rewrite readable_app, bool_decide_false. }
    assert (∃ m, Z.to_nat size = (done_ + Z.to_nat count + m)%nat) as [m Hm] by (exists (Z.to_nat size - done_ - Z.to_nat count)%nat; lia).
    assert (len l ≤ count) as Hll by (pose proof (readable_le (stub_byte s) (address + Z.of_nat done_) (Z.to_nat count)); unfold len, l; lia).
    assert (bytes_ok l) as Hlok by (apply readable_ok, stub_byte_ok).
    destruct (bool_decide_reflect (l = [])) as [Hl|Hl].
    + assert (readable (stub_byte s) address (Z.to_nat size) = readable (stub_byte s) address done_) as ->.
      { rewrite Hm, Hshort; [by rewrite Hl, app_nil_r|]. rewrite Happ, Hl, app_nil_r, Hfull. lia. }
      exists e. by destruct (bool_decide (readable (stub_byte s) address done_ = [])).
    + unfold gdb_bind, lift. rewrite decodeHex_hexBytes by done. rewrite (proj2 (Z.ltb_ge _ _)) by done. rewrite <- Happ. destruct (Z.ltb_spec (len l) count) as [Hs|Hs].
      * exists []. rewrite Hm, Hshort; [|rewrite Happ, length_app, Hfull; unfold len in Hs; lia]. rewrite <- Happ. rewrite bool_decide_false; [done|]. rewrite Happ. by intros [_ ?]%app_nil.
      * apply IH; [lia|rewrite Happ, length_app, Hfull; unfold len in *; lia|lia].
  - assert (Z.to_nat size = done_) as -> by lia. exists []. rewrite bool_decide_false; [done|]. intros E. rewrite E in Hfull. cbn in Hfull. lia.
Qed.
Lemma readMemory_ret c s address size : agree c s → 0 ≤ address → 0 ≤ size ≤ maxDecoded → address + size ≤ 2 ^ 64 →
  let l := readable (stub_byte s) address (Z.to_nat size) in
  ∃ e, readMemory address size (c, idle s) = ((if (0 <? size) && bool_decide (l = []) then inl e else inr l), (c, idle s)).
Proof using laws memory.
  cbv zeta. intros Hag Ha Hsize Hw. unfold readMemory. rewrite (proj2 (Z.ltb_ge _ _)) by lia. cbn [orb].
  assert (negb (size =? 0) && (UINTPTR_MAX - address <? size - 1) = false) as -> by (apply andb_false_iff; right; apply Z.ltb_ge; lia_w).
  destruct (Z.ltb_spec 0 size) as [Hpos|]; cbn [andb].
  - by apply (readLoop_exact c s address size _ 0); [done|done|done|done|lia|done|lia].
  - assert (size = 0) as -> by lia. by exists [].
Qed.

(** *** Writing *)

(** The first [n] bytes of some data are at an address, and nothing else has changed. *)
Record wrote (s s' : stub) (address : Z) (data : bytes) (n : Z) : Prop := {
  wr_acks : stub_acks s' = stub_acks s;
  wr_range : 0 ≤ n ≤ len data;
  wr_byte x : stub_byte s' x = if (address <=? x) && (x <? address + n) then lget data (x - address) else stub_byte s x
}.
(** Every part of some data can be written at its place. *)
Definition accepts (address : Z) (data : bytes) : Prop := ∀ s off k, 0 ≤ off → 0 < k → off + k ≤ len data → stub_writable s (address + off) (slice data off k) = true.
Lemma accepts_part address data off n : accepts address data → 0 ≤ off → off + n ≤ len data → 0 ≤ n → accepts (address + off) (slice data off n).
Proof using.
  intros H Ho Hn Hp s off' k Ho' Hk Hf. rewrite len_slice in Hf by lia. rewrite slice_slice, <- Z.add_assoc by lia. apply H; lia.
Qed.
Lemma wrote_nothing s address data : wrote s s address data 0.
Proof. split; [done|pose proof (len_nonneg data); lia|]. intros x. destruct (Z.leb_spec address x), (Z.ltb_spec x (address + 0)); cbn [andb]; done || lia. Qed.
Lemma wrote_more s s' s'' address data done_ n : wrote s s' address data done_ → done_ + n ≤ len data → 0 ≤ n → stub_acks s'' = stub_acks s' →
  (∀ x, stub_byte s'' x = if (address + done_ <=? x) && (x <? address + done_ + n) then lget (slice data done_ n) (x - (address + done_)) else stub_byte s' x) →
  wrote s s'' address data (done_ + n).
Proof.
  intros [Hacks Hr Hb] Hn Hpos Hacks' Hb'. split; [congruence|lia|]. intros x. rewrite Hb', Hb.
  destruct (Z.leb_spec (address + done_) x), (Z.ltb_spec x (address + done_ + n)), (Z.leb_spec address x), (Z.ltb_spec x (address + done_)), (Z.ltb_spec x (address + (done_ + n))); cbn [andb]; try lia; try done.
  rewrite lget_slice by lia. f_equal. lia.
Qed.
(** The first [n] bytes are at the address; of the [block] bytes after them, those of a
    request that was refused, each may have been written or not; the rest is as before. *)
Record wroteSome (s s' : stub) (address : Z) (data : bytes) (n block : Z) : Prop := {
  ws_acks : stub_acks s' = stub_acks s;
  ws_range : 0 ≤ n ≤ len data;
  ws_byte x : if (address <=? x) && (x <? address + n) then stub_byte s' x = lget data (x - address)
              else stub_byte s' x = stub_byte s x ∨
                (address + n ≤ x < address + Z.min (len data) (n + block) ∧ stub_byte s' x = lget data (x - address))
}.
Lemma wrote_some s s' address data n block : wrote s s' address data n → wroteSome s s' address data n block.
Proof. intros [Hacks Hr Hb]. split; [done|done|]. intros x. rewrite Hb. destruct (_ && _); [done|by left]. Qed.
(** When all is written nothing is in doubt. *)
Lemma wroteSome_all s s' address data block : wroteSome s s' address data (len data) block → wrote s s' address data (len data).
Proof.
  intros [Hacks Hr Hb]. split; [done|done|]. intros x. specialize (Hb x). destruct (_ && _); [done|]. destruct Hb as [|[Hx _]]; [done|]. lia.
Qed.
(** A part that was written in part. *)
Lemma wroteSome_part s s' s'' address data written count n block : wrote s s' address data written → written + count ≤ len data → 0 ≤ count →
  wroteSome s' s'' (address + written) (slice data written count) n block → wroteSome s s'' address data (written + n) block.
Proof.
  intros [Hacks Hr Hb] Hfit Hc [Hacks' Hr' Hb']. rewrite len_slice in Hr' by lia. split; [congruence|lia|]. intros x. specialize (Hb' x). rewrite len_slice in Hb' by lia. rewrite Hb in Hb'.
  destruct (Z.leb_spec (address + written) x), (Z.ltb_spec x (address + written + n)), (Z.leb_spec address x), (Z.ltb_spec x (address + written)), (Z.ltb_spec x (address + (written + n)));
    cbn [andb] in *; try lia; try done; try (by destruct Hb' as [?|[? _]]; [|lia]).
  - rewrite lget_slice in Hb' by lia. rewrite Hb'. f_equal. lia.
  - destruct Hb' as [?|[Hx Hb']]; [by left|]. right. split; [lia|]. rewrite Hb', lget_slice by lia. f_equal. lia.
  - destruct Hb' as [?|[Hx Hb']]; [by left|lia].
Qed.
(** A request that was refused. *)
Lemma wroteSome_refused s s' address data count block : stub_acks s' = stub_acks s → len data = count → count ≤ block →
  (∀ x, stub_byte s' x = stub_byte s x ∨ (address ≤ x < address + count ∧ stub_byte s' x = lget data (x - address))) → wroteSome s s' address data 0 block.
Proof.
  intros Hacks Hl Hc Hb. pose proof (len_nonneg data). split; [done|lia|]. intros x. destruct (Z.leb_spec address x), (Z.ltb_spec x (address + 0)); cbn [andb]; try lia;
    (destruct (Hb x) as [?|[? ?]]; [by left|first [lia|right; split; [lia|done]]]).
Qed.
Definition blockSize (c : Client) : Z := (c_packetSize c - 40) / 2.
Lemma writeBlock c s a data : agree c s → 0 ≤ a < 2 ^ 64 → data ≠ [] → bytes_ok data → len (writeRequest a data) ≤ c_packetSize c →
  ∃ s', agree c s' ∧ stub_acks s' = stub_acks s ∧
    if stub_writable s a data
    then sendPacket (writeRequest a data) (c, idle s) = (inr (bs "OK"), (c, idle s')) ∧ ∀ x, stub_byte s' x = if (a <=? x) && (x <? a + len data) then lget data (x - a) else stub_byte s x
    else (∃ e, sendPacket (writeRequest a data) (c, idle s) = (inl e, (c, idle s'))) ∧ ∀ x, stub_byte s' x = stub_byte s x ∨ (a ≤ x < a + len data ∧ stub_byte s' x = lget data (x - a)).
Proof using laws memory.
  intros Hag Ha Hne Hok Hfit.
  assert (len data < 2 ^ 64) as Hl by (pose proof Hag as (_ & _ & ?); unfold writeRequest in Hfit; rewrite !len_app, len_hexBytes in Hfit; change maxWire with 1048576 in *;
    pose proof (len_nonneg (bs "M")); pose proof (len_nonneg (hexNumber a)); pose proof (len_nonneg (bs ",")); pose proof (len_nonneg (hexNumber (len data))); pose proof (len_nonneg (bs ":")); lia).
  destruct (stub_write s a data Ha Hne Hl Hok) as (s' & consoles & reply & Hh & Hc & Hall & Hacks & Hreply).
  destruct (writeRequest_text a data) as [Hp _]; [done|done|done|]. exists s'. split; [destruct Hag as (? & ? & ?); split_and!; congruence || lia|]. split; [done|].
  assert (isConsole reply = false ∧ len (escape reply) ≤ maxWire) as [Hr1 Hr2].
  { destruct (stub_writable s a data); [by destruct Hreply as [-> _]|by destruct Hreply as [(_ & ? & ?) _]]. }
  pose proof (sendPacket_ret c s (writeRequest a data) Hag ltac:(by rewrite escape_plain) (stub_patient s _)) as Hx. cbv zeta in Hx. rewrite Hh in Hx.
  specialize (Hx (exchange_plain _ _ Hc Hall Hr1 Hr2)). cbn [fst snd] in Hx. destruct (stub_writable s a data).
  - destruct Hreply as [-> Hb]. by split.
  - destruct Hreply as [(He & _) Hb]. rewrite He in Hx. split; [by eexists|done].
Qed.
Lemma writeLoop_exact c s0 s address data fuel done_ : agree c s → 0 ≤ address → address + len data ≤ 2 ^ 64 → bytes_ok data → wrote s0 s address data done_ →
  (Z.to_nat (len data - done_) < fuel)%nat →
  ∃ s' n r, writeLoop fuel address data done_ (c, idle s) = (r, (c, idle s')) ∧ agree c s' ∧ wroteSome s0 s' address data n (blockSize c) ∧
    (r = inr n ∨ n = 0 ∧ ∃ e, r = inl e) ∧ (accepts address data → r = inr (len data)).
Proof using laws memory.
  intros Hag Ha Hw Hok Hwrote Hfuel. revert s done_ Hag Hwrote Hfuel. induction fuel as [|fuel IH]; intros s done_ Hag Hwrote Hfuel; [lia|]. cbn [writeLoop].
  pose proof (wr_range _ _ _ _ _ Hwrote) as Hr. destruct (Z.ltb_spec done_ (len data)) as [Hlt|Hge].
  - unfold mbind, gdb_bind at 1, getClient. cbn [fst]. pose proof Hag as (_ & _ & Hps). set (count := Z.min (len data - done_) ((c_packetSize c - 40) / 2)).
    assert (12 ≤ (c_packetSize c - 40) / 2) by (apply Z.div_le_lower_bound; lia). assert (2 * ((c_packetSize c - 40) / 2) ≤ c_packetSize c - 40) by (apply Z.mul_div_le; lia).
    assert (0 < count ∧ 2 * count ≤ c_packetSize c - 40 ∧ done_ + count ≤ len data ∧ count ≤ blockSize c) as (Hc & Hcw & Hcs & Hcb) by (unfold count, blockSize; lia). clearbody count.
    assert (len (slice data done_ count) = count) as Hls by (unfold len, slice in *; rewrite length_take, length_drop; lia).
    unfold gdb_bind at 1, attempt. rewrite wrap_small by lia_w. pose proof (bytes_ok_slice data done_ count Hok) as Hsok.
    assert (slice data done_ count ≠ []) as Hsne by (intros E; rewrite E, (len_nil (A:=Z)) in Hls; lia).
    destruct (writeRequest_text (address + done_) (slice data done_ count)) as [_ Htext]; [lia|change maxWire with 1048576 in *; lia|done|].
    destruct (writeBlock c s (address + done_) (slice data done_ count) Hag ltac:(lia) Hsne Hsok ltac:(lia)) as (s' & Hag' & Hacks' & Hw').
    unfold writeRequest in Hw'. rewrite Hls in Hw'. destruct (stub_writable s (address + done_) (slice data done_ count)) eqn:Hwritable.
    + destruct Hw' as [-> Hb]. change (negb (bytes_eqb (bs "OK") (bs "OK"))) with false. cbv iota. apply IH; [done| |lia]. by eapply wrote_more; [done|lia|lia|done|].
    + destruct Hw' as [[e ->] Hb]. assert (wroteSome s0 s' address data done_ (blockSize c)) as Hsome.
      { pose proof (wroteSome_part s0 s s' address data done_ count 0 (blockSize c) Hwrote Hcs ltac:(lia)) as Hp. rewrite Z.add_0_r in Hp. apply Hp. by apply (wroteSome_refused _ _ _ _ count). }
      destruct (Z.eqb_spec done_ 0) as [->|].
      * exists s', 0, (inl e). split_and!; try done; [by right; split; [|by eexists]|]. intros Hall. by rewrite Hall in Hwritable by lia.
      * exists s', done_, (inr done_). split_and!; try done; [by left|]. intros Hall. by rewrite Hall in Hwritable by lia.
  - assert (done_ = len data) as -> by lia. exists s, (len data), (inr (len data)). split_and!; try done; [by apply wrote_some|by left].
Qed.
Lemma writeMemory_ret c s address data : agree c s → 0 ≤ address → address + len data ≤ 2 ^ 64 → len data ≤ maxDecoded → bytes_ok data →
  ∃ s' n r, writeMemory address data (c, idle s) = (r, (c, idle s')) ∧ agree c s' ∧ wroteSome s s' address data n (blockSize c) ∧
    (r = inr n ∨ n = 0 ∧ ∃ e, r = inl e) ∧ (accepts address data → r = inr (len data)).
Proof using laws memory.
  intros Hag Ha Hw Hmax Hok. unfold writeMemory. rewrite (proj2 (Z.ltb_ge _ _)) by lia. cbn [orb].
  assert (negb (bool_decide (data = [])) && (UINTPTR_MAX - address <? len data - 1) = false) as -> by (apply andb_false_iff; right; apply Z.ltb_ge; lia_w).
  apply writeLoop_exact; try done; [apply wrote_nothing|unfold len; lia].
Qed.
(** Written memory reads back. *)
Lemma readable_data byte address data : (∀ i : nat, (i < length data)%nat → byte (address + Z.of_nat i) = data !! i) → readable byte address (length data) = data.
Proof.
  revert address. induction data as [|b data IH]; intros address H; [done|]. cbn [length readable]. pose proof (H 0%nat ltac:(cbn; lia)) as H0. rewrite Z.add_0_r in H0. rewrite H0. cbn.
  f_equal. apply IH. intros i Hi. specialize (H (S i) ltac:(cbn; lia)). replace (address + 1 + Z.of_nat i) with (address + Z.of_nat (S i)) by lia. done.
Qed.
End Memory.

(** ** Registers *)

(** The registers behind a stub that only knows the whole bank, the minimum the protocol
    asks for: [g] reads it, [G] writes it, other packets get the empty reply. *)
Class RegisterStub (Sb : Stub) := {
  stub_bank : stub → bytes;
  stub_bank_ok s : bytes_ok (stub_bank s);
  stub_calm s payload : (stub_rejects s payload ≤ 2)%nat;
  stub_readBank s : stub_handle s (bs "g") = (s, ([], hexBytes (stub_bank s)));
  stub_writeBank s data : bytes_ok data → len data = len (stub_bank s) → ∃ s', stub_handle s (bs "G" ++ hexBytes data) = (s', ([], bs "OK")) ∧
    stub_bank s' = data ∧ stub_acks s' = stub_acks s;
  stub_noRead s n : stub_handle s (bs "p" ++ hexNumber n) = (s, ([], []));
  stub_noWrite s n text : stub_handle s (bs "P" ++ hexNumber n ++ bs "=" ++ text) = (s, ([], []))
}.
(** The bytes of some registers. *)
Definition layoutBytes (layout : list GdbRegisterDescription) : Z := foldr Z.add 0 ((λ r, (gr_bits r + 7) / 8) <$> layout).
Lemma layoutBytes_cons r layout : layoutBytes (r :: layout) = (gr_bits r + 7) / 8 + layoutBytes layout.
Proof. done. Qed.
Lemma layoutBytes_app l k : layoutBytes (l ++ k) = layoutBytes l + layoutBytes k.
Proof. induction l as [|r l IH]; [done|]. cbn [app]. rewrite !layoutBytes_cons, IH. lia. Qed.
Lemma layoutBytes_nonneg l : Forall (λ r, 0 ≤ gr_bits r) l → 0 ≤ layoutBytes l.
Proof. induction 1 as [|r l Hr _ IH]; [done|]. rewrite layoutBytes_cons. pose proof (Z.div_pos (gr_bits r + 7) 8). lia. Qed.
Lemma bankLayout_skip layout reg total found : Forall (λ r, gr_number r ≠ gr_number reg) layout → Forall (λ r, 0 ≤ gr_bits r) layout → 0 ≤ total →
  total + 2 * layoutBytes layout ≤ maxDecoded → bankLayout layout reg total found = inr (total + 2 * layoutBytes layout, found).
Proof.
  intros Hne. revert total. induction Hne as [|r layout Hr _ IH]; intros total Hbits Ht Hmax; [cbn; do 2 f_equal; lia|]. apply Forall_cons_1 in Hbits as [Hb Hbits].
  rewrite layoutBytes_cons in *. pose proof (layoutBytes_nonneg layout Hbits). pose proof (Z.div_pos (gr_bits r + 7) 8 ltac:(lia) ltac:(lia)). cbn [bankLayout].
  rewrite (proj2 (Z.ltb_ge _ _)) by (unfold fieldWidth; lia). rewrite (proj2 (Z.eqb_neq _ _)) by done. rewrite IH by (done || (unfold fieldWidth; lia)). do 2 f_equal. unfold fieldWidth. lia.
Qed.
Lemma bankLayout_found l1 reg l2 total : NoDup (gr_number <$> l1 ++ reg :: l2) → Forall (λ r, 0 ≤ gr_bits r) (l1 ++ reg :: l2) → 0 ≤ total →
  total + 2 * layoutBytes (l1 ++ reg :: l2) ≤ maxDecoded →
  bankLayout (l1 ++ reg :: l2) reg total None = inr (total + 2 * layoutBytes (l1 ++ reg :: l2), Some (total + 2 * layoutBytes l1, fieldWidth reg)).
Proof.
  revert total. induction l1 as [|r l1 IH]; intros total Hnd Hbits Ht Hmax; cbn [app] in *; rewrite fmap_cons in Hnd; apply NoDup_cons in Hnd as [Hni Hnd]; apply Forall_cons_1 in Hbits as [Hb Hbits].
  - rewrite layoutBytes_cons in *. pose proof (layoutBytes_nonneg l2 Hbits). pose proof (Z.div_pos (gr_bits reg + 7) 8 ltac:(lia) ltac:(lia)). cbn [bankLayout].
    rewrite (proj2 (Z.ltb_ge _ _)) by (unfold fieldWidth; lia). rewrite Z.eqb_refl. unfold bytes_eqb. rewrite bool_decide_true, Z.eqb_refl by done. cbn [negb orb].
    rewrite bankLayout_skip; [| |done|unfold fieldWidth; lia|unfold fieldWidth; lia].
    + change (layoutBytes []) with 0. unfold fieldWidth. f_equal. f_equal; [lia|]. do 2 f_equal. lia.
    + apply Forall_forall. intros r Hr E. apply Hni. rewrite <- E. by apply list_elem_of_fmap_2.
  - rewrite layoutBytes_cons in *. pose proof (layoutBytes_nonneg _ Hbits). pose proof (Z.div_pos (gr_bits r + 7) 8 ltac:(lia) ltac:(lia)). cbn [bankLayout].
    rewrite (proj2 (Z.ltb_ge _ _)) by (unfold fieldWidth; lia). rewrite (proj2 (Z.eqb_neq _ _)).
    + rewrite IH by (done || (unfold fieldWidth; lia)). rewrite (layoutBytes_cons r l1). do 2 f_equal; unfold fieldWidth; [lia|do 2 f_equal; lia].
    + intros E. apply Hni. rewrite E, fmap_app, fmap_cons. apply elem_of_app. right. by left.
Qed.
Lemma bankBoundary_full layout size boundary : Forall (λ r, 0 ≤ gr_bits r) layout → boundary + 2 * layoutBytes layout = size → bankBoundary layout size boundary = size.
Proof.
  intros Hbits. revert boundary. induction Hbits as [|r layout Hr Hl IH]; intros boundary Hb; cbn [bankBoundary]; [cbn in Hb; lia|]. destruct (Z.eqb_spec boundary size); [done|].
  apply IH. rewrite layoutBytes_cons in Hb. unfold fieldWidth. lia.
Qed.
Lemma bankText_hex l : bytes_ok l → bankText (hexBytes l) = true.
Proof.
  induction 1 as [|b l Hb _ IH]; [done|]. destruct (nibbles b Hb) as (H1 & H2 & _). rewrite hexBytes_cons. cbn [bankText].
  by rewrite (proj2 (proj2 (proj2 (digit_plain _ H1)))), (proj2 (proj2 (proj2 (digit_plain _ H2)))).
Qed.
Lemma take_hexBytes n l : 0 ≤ n → take (Z.to_nat (2 * n)) (hexBytes l) = hexBytes (take (Z.to_nat n) l).
Proof.
  intros Hn. rewrite <- (take_drop (Z.to_nat n) l) at 1. rewrite hexBytes_app. destruct (Z.le_gt_cases n (len l)).
  - rewrite take_app_length'; [done|]. pose proof (len_hexBytes (take (Z.to_nat n) l)). unfold len in *. rewrite length_take in *. lia.
  - rewrite (take_ge l), (drop_ge l) by (unfold len in *; lia). rewrite app_nil_r. apply take_ge. pose proof (len_hexBytes l). unfold len in *. lia.
Qed.
Lemma drop_hexBytes n l : 0 ≤ n → drop (Z.to_nat (2 * n)) (hexBytes l) = hexBytes (drop (Z.to_nat n) l).
Proof.
  intros Hn. apply (app_inv_head (take (Z.to_nat (2 * n)) (hexBytes l))). rewrite take_drop, take_hexBytes by done. by rewrite <- hexBytes_app, take_drop.
Qed.

(** What [describeTarget] guarantees of a register. *)
Definition field_ok (r : GdbRegisterDescription) : Prop := 0 < gr_bits r ≤ 524288 ∧ 0 ≤ gr_number r ≤ 65535.
Section Registers.
Context {Sb : Stub} {laws : StubLaws Sb} {registers : RegisterStub Sb}.
Context (l1 l2 : list GdbRegisterDescription) (reg : GdbRegisterDescription).
Context (Hnumbers : NoDup (gr_number <$> l1 ++ reg :: l2)) (Hbits : Forall field_ok (l1 ++ reg :: l2)).
Local Notation layout := (l1 ++ reg :: l2).
Local Notation offset := (layoutBytes l1).
Local Notation width := ((gr_bits reg + 7) / 8).

(** The client with the layout, in agreement with a stub whose bank it describes. *)
Definition described (c' : Client) (s : stub) : Prop :=
  agree c' s ∧ c_registerLayout c' = layout ∧ layoutBytes layout = len (stub_bank s) ∧ 2 * len (stub_bank s) + 20 ≤ c_packetSize c'.
Lemma bits_nonneg : Forall (λ r, 0 ≤ gr_bits r) layout.
Proof using Hbits. eapply Forall_impl; [exact Hbits|]. intros r [Hr _]. lia. Qed.
Lemma width_ok : 0 < width ∧ 0 ≤ offset ∧ offset + width ≤ layoutBytes layout.
Proof using Hbits.
  pose proof bits_nonneg as Hb. apply Forall_app in Hb as [H1 H2]. apply Forall_cons_1 in H2 as [_ H2]. pose proof (layoutBytes_nonneg _ H1). pose proof (layoutBytes_nonneg _ H2).
  apply Forall_app in Hbits as [_ H3]. apply Forall_cons_1 in H3 as [[H3 _] _]. rewrite layoutBytes_app, layoutBytes_cons. split; [apply Z.div_str_pos; lia|lia].
Qed.
Lemma ask c' s payload s' reply : agree c' s → len (escape payload) ≤ c_packetSize c' → stub_handle s payload = (s', ([], reply)) →
  isErrorReply reply = false → isConsole reply = false → len (escape reply) ≤ maxWire → sendPacket payload (c', idle s) = (inr reply, (c', idle s')).
Proof using laws registers.
  intros Hag Hfit Hh He Hc Hl. pose proof (sendPacket_ret c' s payload Hag Hfit (stub_calm s _)) as Hx. cbv zeta in Hx. rewrite Hh in Hx.
  specialize (Hx (exchange_plain [] reply ltac:(cbn; lia) ltac:(constructor) Hc Hl)). cbn [fst snd] in Hx. by rewrite He in Hx.
Qed.
Lemma readRegisterBank_ret c' s : described c' s → readRegisterBank reg (c', idle s) = (inr (hexBytes (stub_bank s), 2 * offset, fieldWidth reg), (c', idle s)).
Proof using laws Hnumbers Hbits.
  intros (Hag & Hl & Hsum & Hfit). pose proof Hag as (_ & _ & Hps). pose proof width_ok. pose proof (stub_bank_ok s) as Hbank. unfold readRegisterBank. unfold mbind, gdb_bind at 1, getClient. cbn [fst]. rewrite Hl.
  rewrite bool_decide_false by (by destruct l1). unfold gdb_bind at 1, lift. rewrite bankLayout_found; [|done|apply bits_nonneg|lia|rewrite Hsum; change maxWire with 1048576 in *; change maxDecoded with 16777216; lia].
  cbv iota beta. unfold gdb_bind, readRegisters. rewrite (ask c' s (bs "g") s (hexBytes (stub_bank s))); [|done|change (len (escape (bs "g"))) with 1; lia|apply stub_readBank|by apply hexBytes_reply|by apply hexBytes_reply|].
  2:{ rewrite escape_plain, len_hexBytes by (by apply hexBytes_plain). lia. }
  rewrite len_hexBytes, Hsum, Z.add_0_l, (proj2 (Z.ltb_ge _ _)) by lia. assert ((2 * len (stub_bank s)) mod 2 = 0) as -> by (rewrite Z.mul_comm; apply Z_mod_mult). cbn [orb negb Z.eqb].
  rewrite bankBoundary_full, Z.eqb_refl by (apply bits_nonneg || (rewrite Hsum; lia)). cbn [negb]. rewrite bankText_hex by done. cbn [negb].
  rewrite !(proj2 (Z.ltb_ge _ _)) by (unfold fieldWidth; lia). cbn [orb]. by rewrite Z.add_0_l.
Qed.

Lemma field_slice s : slice (hexBytes (stub_bank s)) (2 * offset) (fieldWidth reg) = hexBytes (slice (stub_bank s) offset width).
Proof using Hbits. pose proof width_ok. unfold slice, fieldWidth. rewrite drop_hexBytes, take_hexBytes by lia. done. Qed.

Lemma reg_ok : 0 < gr_bits reg ≤ 524288 ∧ Forall plain (hexNumber (gr_number reg)) ∧ len (hexNumber (gr_number reg)) ≤ 16.
Proof using Hbits. apply Forall_app in Hbits as [_ H]. apply Forall_cons_1 in H as [[H1 H2] _]. split; [done|]. apply hexNumber_text. lia_w. Qed.
(** A register read from the bank, after the single read is refused or without it. *)
Lemma readRegister_ret c s : described c s → ∃ c', readRegister reg (c, idle s) = (inr (slice (stub_bank s) offset width), (c', idle s)) ∧ described c' s.
Proof using laws Hnumbers Hbits.
  intros Hd. pose proof Hd as (Hag & Hl & Hsum & Hfit). pose proof Hag as (_ & _ & Hps). pose proof (stub_bank_ok s) as Hbank. destruct reg_ok as (Hb & Hpl & Hlen).
  assert (∀ c', described c' s → (bank ← readRegisterBank reg; lift (decodeHex (slice bank.1.1 bank.1.2 bank.2))) (c', idle s) = (inr (slice (stub_bank s) offset width), (c', idle s))) as Hwhole.
  { intros c' Hd'. unfold mbind, gdb_bind. rewrite readRegisterBank_ret by done. cbn [fst snd]. unfold lift. rewrite field_slice, decodeHex_hexBytes by (by apply bytes_ok_slice). done. }
  unfold readRegister. rewrite (proj2 (Z.eqb_neq _ _)), (proj2 (Z.ltb_ge _ _)) by lia. cbn [orb]. unfold mbind at 1, gdb_bind at 1, getClient. cbn [fst]. destruct (c_individualReads c).
  - unfold mbind at 1, gdb_bind at 1. rewrite (ask c s _ s []); [|done|rewrite escape_plain|apply stub_noRead|done|done|by vm_compute].
    + cbn [negb bool_decide]. rewrite bool_decide_true by done. cbn [negb]. unfold mbind at 1, gdb_bind at 1, modify. cbn [fst snd]. eexists. split; [by apply Hwhole|done].
    + rewrite len_app. change (len (bs "p")) with 1. lia.
    + apply Forall_app. split; [repeat constructor; unfold plain; cbn; lia|done].
  - eexists. split; [by apply Hwhole|done].
Qed.
(** A register written through the bank: it changes, the other registers do not. *)
Lemma writeRegister_ret c s value : described c s → bytes_ok value → len value = width →
  ∃ c' s', writeRegister reg value (c, idle s) = (inr (), (c', idle s')) ∧ described c' s' ∧
    stub_bank s' = take (Z.to_nat offset) (stub_bank s) ++ value ++ drop (Z.to_nat (offset + width)) (stub_bank s).
Proof using laws Hnumbers Hbits.
  intros Hd Hv Hlv. pose proof Hd as (Hag & Hl & Hsum & Hfit). pose proof Hag as (_ & _ & Hps). pose proof (stub_bank_ok s) as Hbank. pose proof width_ok as Hwidth. destruct reg_ok as (Hb & Hpl & Hlen).
  set (bank' := take (Z.to_nat offset) (stub_bank s) ++ value ++ drop (Z.to_nat (offset + width)) (stub_bank s)).
  assert (bytes_ok bank') as Hok' by (apply Forall_app; split; [by apply bytes_ok_take|]; apply Forall_app; split; [done|by apply bytes_ok_drop]).
  assert (len bank' = len (stub_bank s)) as Hl' by (unfold bank'; rewrite !len_app; unfold len in *; rewrite length_take, length_drop; lia).
  destruct (stub_writeBank s bank' Hok' Hl') as (s' & Hh & Hbank' & Hacks).
  assert (∀ c', described c' s → c_registerLayout c' = layout ∧ described c' s') as Hnext.
  { intros c' ((? & ? & ?) & ? & ? & ?). split; [done|]. split; [split_and!; congruence || lia|]. split; [done|]. rewrite Hbank', Hl'. by split. }
  assert (∀ c', described c' s → (bank ← readRegisterBank reg;
    client ← getClient;
    if c_packetSize client <? len bank.1.1 + 1 then failWith (bs "Whole-register write exceeds negotiated GDB packet size") else
    let data := replaceAt bank.1.1 bank.1.2 bank.2 (hexBytes value) in
    if negb (forallb (λ c, 0 <=? hexValue c) data) then failWith (bs "Whole-register write cannot preserve unavailable registers") else
    response ← sendPacket (bs "G" ++ data);
    if negb (bytes_eqb response (bs "OK")) then failWith (bs "GDB whole-register write was not confirmed") else mret ()) (c', idle s) = (inr (), (c', idle s'))) as Hwhole.
  { intros c' Hd'. pose proof Hd' as (Hag' & _ & _ & Hfit'). unfold mbind, gdb_bind at 1. rewrite readRegisterBank_ret by done. unfold gdb_bind at 1, getClient. cbn [fst snd].
    rewrite len_hexBytes, (proj2 (Z.ltb_ge _ _)) by lia. cbv zeta.
    assert (replaceAt (hexBytes (stub_bank s)) (2 * offset) (fieldWidth reg) (hexBytes value) = hexBytes bank') as ->.
    { unfold replaceAt, bank', fieldWidth. rewrite take_hexBytes by lia. replace (2 * offset + 2 * width) with (2 * (offset + width)) by lia. rewrite drop_hexBytes by lia. by rewrite !hexBytes_app. }
    assert (forallb (λ c, 0 <=? hexValue c) (hexBytes bank') = true) as ->.
    { apply forallb_forall. intros x Hx%list_elem_of_In. pose proof (hexBytes_text bank' Hok') as Ht. rewrite Forall_forall in Ht. by apply Ht. }
    cbn [negb]. unfold gdb_bind. rewrite (ask c' s _ s' (bs "OK")); [done|done| |done|done|done|by vm_compute].
    rewrite escape_plain by (apply Forall_app; split; [repeat constructor; unfold plain; cbn; lia|by apply hexBytes_plain]). rewrite len_app, len_hexBytes. change (len (bs "G")) with 1. lia. }
  unfold writeRegister. rewrite (proj2 (Z.eqb_neq _ _)), (proj2 (Z.ltb_ge _ _)), Hlv, Z.eqb_refl by lia. cbn [orb negb]. unfold mbind at 1, gdb_bind at 1, getClient. cbn [fst]. destruct (c_individualWrites c).
  - unfold mbind at 1, gdb_bind at 1. rewrite (ask c s _ s []); [|done|rewrite escape_plain|apply stub_noWrite|done|done|by vm_compute].
    + change (bytes_eqb [] (bs "OK")) with false. rewrite bool_decide_true by done. cbn [negb]. unfold mbind at 1, gdb_bind at 1, modify. cbn [fst snd].
      exists (withoutIndividualWrites c), s'. split; [by apply Hwhole|]. split; [by apply Hnext|done].
    + rewrite !len_app, len_hexBytes. change (len (bs "P")) with 1. change (len (bs "=")) with 1. lia.
    + apply Forall_app. split; [repeat constructor; unfold plain; cbn; lia|]. apply Forall_app. split; [done|]. apply Forall_app. split; [repeat constructor; unfold plain; cbn; lia|by apply hexBytes_plain].
  - exists c, s'. split; [by apply Hwhole|]. split; [by apply Hnext|done].
Qed.
End Registers.
