(* ===== verification/GdbSample.v ===== *)
(** * A stub on a noisy line

    A small conforming stub, with memory and a register bank, that rejects every request
    once, prints before it answers a read, sends a damaged frame before every packet and
    writes what fits of a write that it refuses. The
    theorems about the client over any conforming stub, and their instances at this one. *)

From S2P Require Import Prelude Numeral GdbRemote GdbWire GdbStub.
#[local] Open Scope Z_scope.

(** ** The stub *)

Record SampleStub := mkSample { sm_memory : bytes; sm_bank : bytes; sm_ok : bool_decide (bytes_ok sm_memory ∧ bytes_ok sm_bank) = true }.
Definition sampleBase : Z := 4096.
Definition sampleRead (m : bytes) (a : Z) : option Z := if sampleBase <=? a then lget m (a - sampleBase) else None.
Definition sampleInside (m : bytes) (a n : Z) : bool := (sampleBase <=? a) && (a + n <=? sampleBase + len m).
Definition sampleStore (m : bytes) (a : Z) (data : bytes) : bytes := take (Z.to_nat (a - sampleBase)) m ++ data ++ drop (Z.to_nat (a - sampleBase + len data)) m.
(** The first bytes of some data, those that are inside. *)
Definition samplePart (m : bytes) (a : Z) (data : bytes) : bytes := if sampleBase <=? a then take (Z.to_nat (sampleBase + len m - a)) data else [].
Lemma sampleStore_bytes m a data : bytes_ok m → bytes_ok data → bytes_ok (sampleStore m a data).
Proof. intros Hm Hd. apply Forall_app. split; [by apply bytes_ok_take|]. apply Forall_app. split; [done|by apply bytes_ok_drop]. Qed.
Definition sampleError : bytes := bs "E01".
Definition greeting : bytes := bs "O6869".
(** A new state, when its bytes are bytes. *)
Definition updated (s : SampleStub) (memory bank : bytes) : SampleStub :=
  match decide (bytes_ok memory ∧ bytes_ok bank) with
  | left H => mkSample memory bank (bool_decide_eq_true_2 _ H)
  | right _ => s
  end.
Definition sampleHandle (s : SampleStub) (request : bytes) : SampleStub * (list bytes * bytes) :=
  match request with
  | kind :: rest =>
      if bool_decide (request = bs "g") then (s, ([], hexBytes (sm_bank s)))
      else if kind =? "G"%chr then
        match decodeHex rest with inr bank => (updated s (sm_memory s) bank, ([], bs "OK")) | inl _ => (s, ([], sampleError)) end
      else if (kind =? "m"%chr) || (kind =? "M"%chr) then
        match from_chars 64 16 rest with
        | Some (a, _ :: rest) =>
            match from_chars 64 16 rest with
            | Some (n, rest) =>
                if kind =? "m"%chr then
                  let l := readable (sampleRead (sm_memory s)) a (Z.to_nat n) in
                  (s, ([greeting], if bool_decide (l = []) then sampleError else hexBytes l))
                else
                  match decodeHex (tail rest) with
                  | inr data => if sampleInside (sm_memory s) a (len data) then (updated s (sampleStore (sm_memory s) a data) (sm_bank s), ([], bs "OK"))
                                else (updated s (sampleStore (sm_memory s) a (samplePart (sm_memory s) a data)) (sm_bank s), ([], sampleError))
                  | inl _ => (s, ([], sampleError))
                  end
            | None => (s, ([], sampleError))
            end
        | _ => (s, ([], sampleError))
        end
      else (s, ([], []))
  | [] => (s, ([], []))
  end.
Definition noise : bytes := bs "$x#00".
Definition sampleSends (packets : list bytes) : list bytes := mjoin ((λ p, [noise; frame (escape p)]) <$> packets).
#[export] Instance sampleStub : Stub := {|
  stub := SampleStub; stub_acks _ := true; stub_rejects _ _ := 1%nat; stub_handle := sampleHandle; stub_sends _ := sampleSends |}.

(** ** It conforms *)

Lemma checksum_byte raw : is_byte (checksumOf raw).
Proof. unfold checksumOf. assert (is_byte 0) as H0 by done. revert H0. generalize 0. induction raw as [|c raw IH]; intros z Hz; [done|]. apply IH. by apply wrap_bound. Qed.
Lemma frame_delivers p : len (escape p) ≤ maxWire → delivers_packet p (frame (escape p)).
Proof.
  intros Hl. unfold frame, hexByte. destruct (nibbles _ (checksum_byte (escape p))) as (H1 & H2 & H3). apply delivers.
  - eapply Forall_impl; [apply escape_no_frame|]. by intros c [_ ?].
  - done.
  - apply (escape_expands p []).
  - pose proof (escape_length p). assert (maxWire ≤ maxDecoded) by done. lia.
  - rewrite hexValue_digit by done. lia.
  - rewrite hexValue_digit by done. lia.
  - by rewrite !hexValue_digit.
Qed.
Lemma noise_damaged : damaged noise.
Proof. change noise with ("$"%chr :: ["x"%chr] ++ ["#"%chr; "0"%chr; "0"%chr]). constructor; [repeat constructor; done|done|right; right; by vm_compute]. Qed.
#[export] Instance sampleLaws : StubLaws sampleStub.
Proof.
  split. intros s packets H. change (transmission true packets (sampleSends packets)). induction H as [|p packets Hp _ IH]; [constructor|].
  change (sampleSends (p :: packets)) with ([noise] ++ frame (escape p) :: sampleSends packets). constructor; [repeat constructor; apply noise_damaged|cbn; lia|by apply frame_delivers|done].
Qed.
Lemma updated_ok s memory bank : bytes_ok memory → bytes_ok bank → sm_memory (updated s memory bank) = memory ∧ sm_bank (updated s memory bank) = bank.
Proof. intros. unfold updated. destruct (decide _) as [H'|H']; [done|]. destruct H'. done. Qed.
Lemma sample_bytes (s : SampleStub) : bytes_ok (sm_memory s) ∧ bytes_ok (sm_bank s).
Proof. exact (bool_decide_eq_true_1 _ (sm_ok s)). Qed.
Lemma no_digit_char c l : base_digit 16 c = None → no_digit 16 (c :: l).
Proof. done. Qed.
Lemma sampleRead_request s a n : 0 ≤ a < 2 ^ 64 → 0 ≤ n < 2 ^ 64 →
  sampleHandle s (readRequest a n) = let l := readable (sampleRead (sm_memory s)) a (Z.to_nat n) in (s, ([greeting], if bool_decide (l = []) then sampleError else hexBytes l)).
Proof.
  intros Ha Hn. unfold readRequest. change (bs "m") with ["m"%chr]. change (bs ",") with [","%chr]. cbn [app sampleHandle].
  rewrite bool_decide_false by done. change ("m"%chr =? "G"%chr) with false. change ("m"%chr =? "m"%chr) with true. cbn [orb]. unfold hexNumber.
  rewrite (from_chars_to_digits 64 16 a) by (done || lia). rewrite <- (app_nil_r (to_digits 16 n)). by rewrite (from_chars_to_digits 64 16 n) by (done || lia).
Qed.
Lemma sampleWrite_request s a data : 0 ≤ a < 2 ^ 64 → len data < 2 ^ 64 → bytes_ok data →
  sampleHandle s (writeRequest a data) = if sampleInside (sm_memory s) a (len data) then (updated s (sampleStore (sm_memory s) a data) (sm_bank s), ([], bs "OK"))
                                else (updated s (sampleStore (sm_memory s) a (samplePart (sm_memory s) a data)) (sm_bank s), ([], sampleError)).
Proof.
  intros Ha Hn Hd. unfold writeRequest. change (bs "M") with ["M"%chr]. change (bs ",") with [","%chr]. change (bs ":") with [":"%chr]. cbn [app sampleHandle].
  rewrite bool_decide_false by done. change ("M"%chr =? "G"%chr) with false. change ("M"%chr =? "m"%chr) with false. change ("M"%chr =? "M"%chr) with true. cbn [orb]. unfold hexNumber.
  rewrite (from_chars_to_digits 64 16 a) by (done || lia). pose proof (len_nonneg data). rewrite (from_chars_to_digits 64 16 (len data)) by (done || lia). cbn [tail]. by rewrite decodeHex_hexBytes.
Qed.
Lemma sampleStore_read m a data x : sampleInside m a (len data) = true →
  sampleRead (sampleStore m a data) x = if (a <=? x) && (x <? a + len data) then lget data (x - a) else sampleRead m x.
Proof.
  unfold sampleInside. intros [H1 H2]%andb_true_iff. apply Z.leb_le in H1, H2. unfold sampleRead, sampleStore, lget. unfold len in *.
  destruct (Z.leb_spec sampleBase x), (Z.leb_spec a x), (Z.ltb_spec x (a + Z.of_nat (length data))); cbn [andb]; try lia; try done; rewrite ?(proj2 (Z.leb_le 0 _)) by lia.
  - rewrite lookup_app_r by (rewrite length_take; lia). rewrite lookup_app_l by (rewrite length_take; lia). f_equal. rewrite length_take. lia.
  - rewrite lookup_app_r by (rewrite length_take; lia). rewrite lookup_app_r by (rewrite length_take; lia). rewrite lookup_drop. f_equal. rewrite length_take. lia.
  - rewrite lookup_app_l by (rewrite length_take; lia). rewrite lookup_take. by destruct (decide _); [|lia].
Qed.
Lemma samplePart_bytes m a data : bytes_ok data → bytes_ok (samplePart m a data).
Proof. intros. unfold samplePart. destruct (_ <=? _); [by apply bytes_ok_take|constructor]. Qed.
Lemma samplePart_read m a data x : sampleRead (sampleStore m a (samplePart m a data)) x = sampleRead m x ∨
  (a ≤ x < a + len data ∧ sampleRead (sampleStore m a (samplePart m a data)) x = lget data (x - a)).
Proof.
  assert (sampleRead (sampleStore m a []) x = sampleRead m x) as Hnil by (unfold sampleStore; rewrite len_nil, Z.add_0_r; cbn [app]; by rewrite take_drop).
  unfold samplePart. destruct (Z.leb_spec sampleBase a); [|by left]. destruct (Z.le_gt_cases (sampleBase + len m) a).
  { rewrite Z2Nat.nonpos by lia. left. exact Hnil. }
  set (part := take _ data). assert (len part ≤ sampleBase + len m - a ∧ len part ≤ len data) as [Hp Hpd] by (unfold part, len in *; rewrite length_take; lia).
  rewrite sampleStore_read by (unfold sampleInside; rewrite andb_true_iff, !Z.leb_le; lia). destruct (Z.leb_spec a x), (Z.ltb_spec x (a + len part)); cbn [andb]; try (by left).
  right. split; [lia|]. unfold lget, part. rewrite (proj2 (Z.leb_le 0 _)) by lia. rewrite lookup_take, decide_True; [done|]. unfold part, len in *. rewrite length_take in *. lia.
Qed.
Lemma greeting_ok : (length [greeting] < 64)%nat ∧ Forall (λ p, isConsole p = true ∧ len (escape p) ≤ maxWire) [greeting].
Proof. split; [cbn; lia|]. repeat constructor; by vm_compute. Qed.
Lemma sampleError_refusal : refusal sampleError.
Proof. split; [done|split; [done|by vm_compute]]. Qed.
Lemma sampleByte_ok (s : SampleStub) a b : sampleRead (sm_memory s) a = Some b → is_byte b.
Proof.
  unfold sampleRead. destruct (sampleBase <=? a); [|done]. unfold lget. destruct (0 <=? _); [|done]. intros Hb. destruct (sample_bytes s) as [Hm _].
  unfold bytes_ok in Hm. rewrite Forall_lookup in Hm. by eapply Hm.
Qed.
#[export] Instance sampleMemory : MemoryStub sampleStub.
Proof.
  apply (Build_MemoryStub sampleStub (λ s, sampleRead (sm_memory s)) (λ s a data, sampleInside (sm_memory s) a (len data))).
  - exact sampleByte_ok.
  - intros s payload. cbn. lia.
  - intros s a n Ha Hn. exists [greeting]. eexists. split; [apply sampleRead_request; lia|]. destruct greeting_ok. split; [done|split; [done|]]. cbv zeta. case_bool_decide; [apply sampleError_refusal|done].
  - intros s a data Ha Hne Hl Hok. cbn [stub_handle sampleStub]. rewrite sampleWrite_request by done. destruct (sampleInside (sm_memory s) a (len data)) eqn:Hin.
    + eexists _, [], _. split; [done|]. split; [cbn; lia|]. split; [constructor|]. split; [done|]. split; [done|]. intros x. destruct (sample_bytes s) as [Hm Hb].
      rewrite (proj1 (updated_ok s _ _ (sampleStore_bytes _ _ _ Hm Hok) Hb)). by apply sampleStore_read.
    + eexists _, [], sampleError. split; [done|]. split; [cbn; lia|]. split; [constructor|]. split; [done|]. split; [apply sampleError_refusal|]. intros x. destruct (sample_bytes s) as [Hm Hb].
      rewrite (proj1 (updated_ok s _ _ (sampleStore_bytes _ _ _ Hm (samplePart_bytes _ _ _ Hok)) Hb)). by apply samplePart_read.
Defined.
#[export] Instance sampleRegisters : RegisterStub sampleStub.
Proof.
  apply (Build_RegisterStub sampleStub sm_bank).
  - intros s. apply sample_bytes.
  - intros s payload. cbn. lia.
  - done.
  - intros s data Hok Hl. cbn [stub_handle sampleStub]. exists (updated s (sm_memory s) data). split; [|split; [|done]].
    + change (bs "G") with ["G"%chr]. cbn [app sampleHandle]. rewrite bool_decide_false by done. change ("G"%chr =? "G"%chr) with true. cbv iota. by rewrite decodeHex_hexBytes.
    + by apply updated_ok; [apply sample_bytes|].
  - done.
  - done.
Defined.

(** ** What the client does over any conforming stub *)

(** The raw text of a packet is expanded exactly when it is legal: escapes, run lengths
    of a printable count after some character, and at most 16 MB of text. *)
Theorem packet_expansion raw out : decodeRaw raw [] = inr out ↔ expands [] raw out ∧ len out ≤ maxDecoded.
Proof. by apply decodeRaw_spec. Qed.

(** C29: a request gets the reply of the stub, in any legal encoding, although the stub may
    reject it twice, damage each packet twice and print up to 63 times; the line is idle
    afterwards, the client unchanged, and an error reply is reported as an error. *)
Theorem sendPacket_delivers {Sb : Stub} {laws : StubLaws Sb} c s payload : agree c s → len (escape payload) ≤ c_packetSize c → (stub_rejects s payload ≤ 2)%nat →
  let r := stub_handle s payload in exchange_ok r.2.1 r.2.2 →
  sendPacket payload (c, idle s) = ((if isErrorReply r.2.2 then inl (bs "GDB error response: " ++ r.2.2) else inr r.2.2), (c, idle r.1)).
Proof. intros. by apply sendPacket_ret. Qed.

(** ** Instances *)

Definition exampleBytes : bytes := mjoin (replicate 5 [1; 35; 42; 125; 36; 255; 0; 7]).
Definition exampleBank : bytes := [16; 0; 1; 2; 3; 4; 5; 6; 7; 32; 0].
Definition exampleStub : SampleStub := mkSample exampleBytes exampleBank eq_refl.
Definition exampleClient : Client := withPacketSize 64 connectedClient.
Lemma example_agrees : agree (Sb := sampleStub) exampleClient exampleStub.
Proof. split_and!; done. Qed.
Lemma packet_expansion_witness : decodeRaw (bs "0* }]1") [] = inr (bs "0000}1").
Proof. apply packet_expansion. split; [|by vm_compute]. apply (decodeRaw_spec (bs "0* }]1") [] (bs "0000}1")); [done|by vm_compute]. Defined.
Lemma example_read : stub_handle (Stub := sampleStub) exampleStub (readRequest 4097 3) = (exampleStub, ([greeting], bs "232a7d")).
Proof. by vm_compute. Qed.
Lemma sendPacket_delivers_witness :
  sendPacket (P := stub_peer) (readRequest 4097 3) (exampleClient, idle (Sb := sampleStub) exampleStub) = (inr (bs "232a7d"), (exampleClient, idle (Sb := sampleStub) exampleStub)).
Proof.
  pose proof (sendPacket_delivers (Sb := sampleStub) exampleClient exampleStub (readRequest 4097 3) example_agrees) as H. cbv zeta in H. rewrite example_read in H. cbn [fst snd] in H.
  change (isErrorReply (bs "232a7d")) with false in H. apply H.
  - by vm_compute.
  - cbn. lia.
  - split; [cbn; lia|decide_by_compute|done|decide_by_compute].
Defined.
Definition exampleLayout : list GdbRegisterDescription := [mkGdbRegister (bs "pc") 3 8 []; mkGdbRegister (bs "r0") 5 64 []; mkGdbRegister (bs "cpsr") 9 13 []].
