(* ===== verification/GdbDescribe.v ===== *)
(** * Invariants of the GDB client

    What every operation of [GdbRemote] keeps of the client, whatever the other side does,
    and what a description of the target that is accepted guarantees. *)

From S2P Require Import Prelude Numeral TargetMachine StdAlgo GdbRemote GdbWire GdbStub.
#[local] Open Scope Z_scope.

(** ** A logic of computations with the client *)

Section Logic.
Context {P : Peer}.

(** An invariant of the client and what is true of the value. *)
Definition keeps {A} (I : Client → Prop) (m : gdb A) (Q : A → Prop) : Prop :=
  ∀ s, I s.1 → I (m s).2.1 ∧ match (m s).1 with inr a => Q a | inl _ => True end.
Lemma keeps_weaken {A} I (m : gdb A) (Q Q' : A → Prop) : keeps I m Q → (∀ a, Q a → Q' a) → keeps I m Q'.
Proof. intros H HQ s Hs. destruct (H s Hs) as [? Hr]. split; [done|]. destruct (m s) as [[e|a] s']; cbn in *; auto. Qed.
Lemma keeps_ret {A} (I : Client → Prop) (a : A) (Q : A → Prop) : Q a → keeps I (mret a) Q.
Proof. by intros H s Hs. Qed.
Lemma keeps_bind {A B} I (m : gdb A) (k : A → gdb B) (Q : A → Prop) (R : B → Prop) : keeps I m Q → (∀ a, Q a → keeps I (k a) R) → keeps I (m ≫= k) R.
Proof.
  intros Hm Hk s Hs. destruct (Hm s Hs) as [Hs' Hr]. unfold mbind, gdb_bind. destruct (m s) as [[e|a] s'] eqn:E; cbn in *; [done|]. by apply Hk.
Qed.
Lemma keeps_fail {A} (I : Client → Prop) e (Q : A → Prop) : keeps I (failWith e) Q.
Proof. by intros s Hs. Qed.
Lemma keeps_get (I : Client → Prop) : keeps I getClient I.
Proof. by intros s Hs. Qed.
Lemma keeps_modify (I : Client → Prop) f : (∀ c, I c → I (f c)) → keeps I (modify f) (λ _, True).
Proof. intros H s Hs. split; [by apply H|done]. Qed.
Lemma keeps_close (I : Client → Prop) : I closedClient → keeps I close (λ _, True).
Proof. by intros H s Hs. Qed.
Lemma keeps_lift {A} (I : Client → Prop) (r : bytes + A) (Q : A → Prop) : (∀ a, r = inr a → Q a) → keeps I (lift r) Q.
Proof. intros H s Hs. split; [done|]. destruct r; cbn; auto. Qed.
Lemma keeps_send (I : Client → Prop) data : keeps I (sendAll data) (λ _, True).
Proof. intros s Hs. unfold sendAll. by destruct (peer_send data s.2) as [[?|] ?]. Qed.
Lemma keeps_recv (I : Client → Prop) : keeps I readByte (λ _, True).
Proof. intros s Hs. unfold readByte. destruct (peer_recv s.2) as [[?|] ?]; by split. Qed.
Lemma keeps_attempt {A} I (m : gdb A) Q : keeps I m Q → keeps I (attempt m) (λ r, match r with inr a => Q a | inl _ => True end).
Proof. intros H s Hs. destruct (H s Hs) as [? Hr]. unfold attempt. destruct (m s) as [r s']. by split. Qed.
Lemma keeps_observe {A} (I : Client → Prop) (f : Client * peer → A) : keeps I (λ s, (inr (f s), s)) (λ _, True).
Proof. by intros s Hs. Qed.
Lemma keeps_true {A} I (m : gdb A) (Q : A → Prop) : keeps I m Q → keeps I m (λ _, True).
Proof. intros H. by eapply keeps_weaken. Qed.
Lemma keeps_step {A B} I (m : gdb A) (k : A → gdb B) (R : B → Prop) : keeps I m (λ _, True) → (∀ a, keeps I (k a) R) → keeps I (m ≫= k) R.
Proof. intros Hm Hk. eapply keeps_bind; [exact Hm|]. intros a _. apply Hk. Qed.
Lemma keeps_client (I : Client → Prop) : keeps I getClient (λ _, True).
Proof. by intros s Hs. Qed.
Lemma keeps_caught {A} I (m : gdb A) : keeps I m (λ _, True) → keeps I (attempt m) (λ _, True).
Proof. intros H s Hs. destruct (H s Hs) as [? Hr]. unfold attempt. destruct (m s) as [r s']. by split. Qed.
End Logic.

(** Goes through a computation whose value plays no part. *)
Ltac keep :=
  repeat match goal with
  | |- keeps _ (mbind _ _) _ => apply keeps_step; [|intros ?]
  | |- keeps _ (mret _) _ => apply keeps_ret; exact I
  | |- keeps _ (failWith _) _ => apply keeps_fail
  | |- keeps _ getClient _ => apply keeps_client
  | |- keeps _ close _ => apply keeps_close
  | |- keeps _ (sendAll _) _ => apply keeps_send
  | |- keeps _ readByte _ => apply keeps_recv
  | |- keeps _ (lift _) _ => apply (keeps_lift _ _ (λ _, True)); done
  | |- keeps _ (attempt _) _ => apply keeps_caught
  | |- keeps _ (if ?b then _ else _) _ => destruct b
  | |- keeps _ (match ?x with _ => _ end) _ => destruct x
  | |- keeps _ expired _ => apply keeps_observe
  end.

Section Invariant.
Context {P : Peer} (I : Client → Prop) (Hclosed : I closedClient).

Lemma keeps_closing {A} (m : gdb A) (Q : A → Prop) : keeps I m Q → keeps I (closing m) Q.
Proof using Hclosed.
  intros Hm. unfold closing. eapply keeps_bind; [by apply keeps_attempt|]. intros [e|a] Ha; cbn in Ha; [keep; done|by apply keeps_ret].
Qed.
Lemma keeps_readPacket : keeps I readPacket (λ _, True).
Proof.
  unfold readPacket. generalize 3%nat. intros n. induction n as [|n IH]; cbn [readPacketLoop]; keep; [|done].
  unfold readAttempt. assert (∀ fuel k, keeps I (readPrefix fuel k) (λ _, True)) as Hp by (intros fuel; induction fuel as [|fuel IHf]; intros k; cbn [readPrefix]; keep; apply IHf).
  assert (∀ fuel raw sum, keeps I (readRaw fuel raw sum) (λ _, True)) as Hr by (intros fuel; induction fuel as [|fuel IHf]; intros raw sum; cbn [readRaw]; keep; apply IHf).
  apply keeps_step; [apply Hp|intros _]. apply keeps_step; [apply Hr|intros [raw sum]]. keep.
Qed.
Lemma keeps_sendPacket payload : keeps I (sendPacket payload) (λ _, True).
Proof using Hclosed.
  unfold sendPacket. eapply keeps_bind; [apply keeps_get|intros c _]. destruct (negb _); [keep|]. eapply keeps_bind; [apply (keeps_observe I (λ s, peer_cancelled s.2))|intros [] _]; [keep; done|].
  destruct (escapeLoop _ _ _) as [raw|]; [|keep].
  assert (∀ n packet, keeps I (transmit n packet) (λ _, True)) as Ht.
  { intros n packet. induction n as [|n IH]; cbn [transmit]; keep; try apply keeps_closing; keep; exact IH. }
  assert (∀ n, keeps I (responseLoop n) (λ _, True)) as Hr.
  { intros n. induction n as [|n IH]; cbn [responseLoop]; keep; try apply keeps_closing; keep; try apply keeps_readPacket. exact IH. }
  eapply keeps_bind; [apply Ht|intros [] _]; cbn [negb]; [apply Hr|apply keeps_closing; keep].
Qed.
End Invariant.

(** ** The invariant of the client *)

(** The registers of a description: unique numbers and names, sane widths, not too many. *)
Definition registers_ok (l : list GdbRegisterDescription) : Prop :=
  NoDup (gr_number <$> l) ∧ NoDup (gr_name <$> l) ∧ Forall field_ok l ∧ len l ≤ 2048.
Record client_ok (c : Client) : Prop := {
  cl_packet : 64 ≤ c_packetSize c ≤ maxWire;
  cl_layout : registers_ok (c_registerLayout c);
  cl_sorted : sortedBy gr_number (c_registerLayout c)
}.
Lemma registers_nil : registers_ok [].
Proof. split_and!; [constructor..|done]. Qed.
Lemma closed_ok : client_ok closedClient.
Proof. split; [done|exact registers_nil|constructor]. Qed.
Lemma number_bound text base n : 2 ≤ base → number text base = Some n → 0 ≤ n < 2 ^ 32.
Proof.
  intros Hb. unfold number, from_chars. pose proof (scan_digits_ge base 0 text Hb ltac:(lia)) as Hge. destruct (scan_digits base 0 text) as [v rest]. case_bool_decide; [done|].
  destruct (Z.ltb_spec v (2 ^ 32)); [|done]. destruct rest; [|done]. intros [= <-]. cbn in Hge. lia.
Qed.

Section Operations.
Context {P : Peer} {X : XmlReader}.
Local Notation preserved m := (keeps client_ok m (λ _, True)).

Lemma negotiate_keeps : preserved negotiate.
Proof.
  unfold negotiate. apply keeps_step; [apply keeps_sendPacket, closed_ok|intros response].
  assert (∀ l, preserved (modify (withFeatures l))) as Hf by (intros l; apply keeps_modify; by intros c [? ? ?]).
  assert (∀ entry, preserved (modify (λ c, withFeatures (c_features c ++ [entry]) c))) as Hfa by (intros l; apply keeps_modify; by intros c [? ? ?]).
  assert (∀ entries names, preserved (negotiateLoop entries names)) as Hl.
  { intros entries. induction entries as [|entry entries IH]; intros names; cbn [negotiateLoop]; [by apply keeps_ret|]. destruct (bool_decide _); [apply IH|]. cbv zeta.
    destruct (_ || _); [keep; apply closed_ok|]. apply keeps_step; [|intros _; apply keeps_step; [apply Hfa|intros _; apply IH]].
    destruct (starts_with _ _); [|by apply keeps_ret]. destruct (number _ 16) as [n|] eqn:En; [|keep; apply closed_ok]. apply number_bound in En; [|lia].
    destruct (Z.ltb_spec n 64); [keep; apply closed_ok|]. apply keeps_modify. intros c [? ? ?]. split; cbn; [|done|done]. unfold maxWire. lia. }
  apply keeps_step; [apply Hf|intros _]. apply keeps_step; [apply Hl|intros _]. apply keeps_step; [apply keeps_client|intros c]. destruct (supportsFeature _ _); [|by apply keeps_ret].
  apply keeps_step; [apply keeps_sendPacket, closed_ok|intros mode]. destruct (bytes_eqb _ _); [apply keeps_modify; by intros c' [? ? ?]|]. destruct (bool_decide _); keep. apply closed_ok.
Qed.
Lemma readObject_keeps object annex : preserved (readObject object annex).
Proof.
  unfold readObject. assert (∀ fuel chunk data, preserved (objectLoop fuel object annex chunk data)) as Hl.
  { intros fuel. induction fuel as [|fuel IH]; intros chunk data; cbn [objectLoop]; keep; try (apply keeps_sendPacket, closed_ok). apply IH. }
  keep. apply Hl.
Qed.

(** A description while it is read. *)
Record described_ok (d : Described) : Prop := {
  do_registers : registers_ok (d_registers d);
  do_next : 0 ≤ d_next d ≤ 65536
}.
Lemma registerElement_ok element d d' : described_ok d → registerElement element d = inr d' → described_ok d'.
Proof.
  intros [(H1 & H2 & H3 & H4) Hn]. unfold registerElement. destruct (xmlAttribute element (bs "name")) as [name|]; [|done].
  destruct (let? bits := xmlAttribute element (bs "bitsize") in number bits 10) as [bits|] eqn:Eb; [|done].
  destruct (_ || _ || _ || _) eqn:Hbad; [done|]. rewrite !orb_false_iff, Z.eqb_neq, Z.ltb_ge in Hbad.
  assert (0 ≤ bits) as Hbits by (destruct (xmlAttribute element (bs "bitsize")); [|done]; apply number_bound in Eb; lia).
  destruct (match xmlAttribute element (bs "regnum") with Some regNum => number regNum 10 | None => Some (d_next d) end) as [n|] eqn:En; [|done].
  assert (0 ≤ n) as Hn0 by (destruct (xmlAttribute element (bs "regnum")); [apply number_bound in En; lia|simplify_eq; lia]).
  destruct (_ || _ || _ || _) eqn:Hdup; [done|]. rewrite !orb_false_iff, Z.ltb_ge, Z.leb_gt in Hdup. destruct Hdup as [[[Hmax Hlen] Hnum] Hname]. intros [= <-].
  pose proof (λ r, existsb_elem _ _ r Hnum) as Hnum'. pose proof (λ r, existsb_elem _ _ r Hname) as Hname'. split; cbn; [|lia]. split_and!.
  - rewrite fmap_app. apply NoDup_app. split; [done|]. split; [|apply NoDup_singleton]. intros x (r & -> & Hr)%list_elem_of_fmap Hx%list_elem_of_singleton. specialize (Hnum' _ Hr). cbn in Hx, Hnum'. rewrite Z.eqb_neq in Hnum'. lia.
  - rewrite fmap_app. apply NoDup_app. split; [done|]. split; [|apply NoDup_singleton]. intros x (r & -> & Hr)%list_elem_of_fmap Hx%list_elem_of_singleton. specialize (Hname' _ Hr). unfold bytes_eqb in Hname'. by apply bool_decide_eq_false_1 in Hname'.
  - apply Forall_app. split; [done|]. constructor; [|constructor]. split; cbn; lia.
  - rewrite len_snoc. lia.
Qed.
Lemma textElement_ok name element d d' : described_ok d → textElement name element d = inr d' → described_ok d'.
Proof.
  intros [H1 H2]. unfold textElement. destruct (xmlText element); [|done]. destruct (_ <? _); [done|]. case_bool_decide; [done|]. destruct (_ && _); [done|].
  intros [= <-]. by destruct (bytes_eqb name _).
Qed.
(** The induction over a document and its parts. *)
Lemma XmlElement_rect' (Q : XmlElement → Prop) : (∀ name attributes text children, Forall Q children → Q (xmlElement name attributes text children)) → ∀ e, Q e.
Proof.
  intros H. fix IH 1. intros [name attributes text children]. apply H. induction children as [|c children IHc]; constructor; [apply IH|exact IHc].
Qed.
Lemma visit_ok (ld : bytes → Described → gdb Described) element : (∀ annex d, described_ok d → keeps client_ok (ld annex d) described_ok) →
  ∀ around nesting d, described_ok d → keeps client_ok (visit ld around nesting element d) described_ok.
Proof.
  intros Hld. induction element as [name attributes text children IH] using XmlElement_rect'. intros around nesting d Hd. cbn [visit]. destruct (64 <? nesting); [apply keeps_fail|]. cbv zeta.
  destruct (xmlInclude _ _); [destruct (xmlAttribute _ _); [by apply Hld|apply keeps_fail]|]. eapply keeps_bind; [apply keeps_lift|].
  - intros d' E. destruct (_ || _); [by eapply textElement_ok|]. destruct (bytes_eqb _ _); [by eapply registerElement_ok|]. injection E as <-. exact Hd.
  - intros d' Hd'. cbv beta in Hd'. revert d' Hd'. generalize (xmlElement name attributes text children). intros e. induction IH as [|child children Hchild _ IHc]; intros d' Hd'; [by apply keeps_ret|].
    eapply keeps_bind; [by apply Hchild|]. intros d'' Hd''. by apply IHc.
Qed.
Lemma load_ok fuel depth annex d : described_ok d → keeps client_ok (load fuel depth annex d) described_ok.
Proof.
  revert depth annex d. induction fuel as [|fuel IH]; intros depth annex d Hd; cbn [load]; [apply keeps_fail|]. apply keeps_step; [apply keeps_observe|intros late].
  destruct late; [apply keeps_fail|]. destruct (_ || _); [apply keeps_fail|]. apply keeps_step; [apply readObject_keeps|intros xml]. cbv zeta. destruct (_ <? _); [apply keeps_fail|].
  destruct (xml_parse xml) as [[|root ?]|]; [apply keeps_fail| |apply keeps_fail]. eapply keeps_bind; [apply visit_ok; [intros; by apply IH|by destruct Hd]|]. intros d' [? ?]. by apply keeps_ret.
Qed.
Lemma describeTarget_ok `{!StdSort} : keeps client_ok describeTarget (λ d, registers_ok d.2 ∧ d.2 ≠ [] ∧ d.1.1.1 ≠ []).
Proof.
  unfold describeTarget. apply keeps_step; [apply keeps_modify; intros c [? ? ?]; split; cbn; [done|exact registers_nil|constructor]|intros _].
  eapply keeps_bind; [apply load_ok; split; [exact registers_nil|done]|]. intros d [(H1 & H2 & H3 & H4) _]. destruct (bool_decide_reflect (d_architecture d = [])), (bool_decide_reflect (d_registers d = [])); cbn [orb]; try apply keeps_fail.
  apply keeps_step; [apply keeps_modify|intros _; by apply keeps_ret]. intros c [? ? ?]. pose proof (std_sort_perm (byKey gr_number) (d_registers d)) as Hp. split; cbn; [done| |apply std_sort_key].
  unfold registers_ok, len. rewrite Hp. done.
Qed.
Lemma readRegisterBank_keeps reg : preserved (readRegisterBank reg).
Proof. unfold readRegisterBank. keep; try apply keeps_sendPacket, closed_ok. Qed.
Lemma readRegister_keeps reg : preserved (readRegister reg).
Proof.
  unfold readRegister. assert (preserved (modify withoutIndividualReads)) as Hm by (apply keeps_modify; by intros c [? ? ?]).
  keep; try exact Hm; try apply keeps_sendPacket, closed_ok; apply readRegisterBank_keeps.
Qed.
Lemma writeRegister_keeps reg value : preserved (writeRegister reg value).
Proof.
  unfold writeRegister. assert (preserved (modify withoutIndividualWrites)) as Hm by (apply keeps_modify; by intros c [? ? ?]).
  keep; try exact Hm; try apply keeps_sendPacket, closed_ok; apply readRegisterBank_keeps.
Qed.
Lemma readMemory_keeps address size : preserved (readMemory address size).
Proof.
  unfold readMemory. assert (∀ fuel data, preserved (readLoop fuel address size data)) as Hl.
  { intros fuel. induction fuel as [|fuel IH]; intros data; cbn [readLoop]; keep; try apply keeps_sendPacket, closed_ok. apply IH. }
  keep. apply Hl.
Qed.
Lemma writeMemory_keeps address data : preserved (writeMemory address data).
Proof.
  unfold writeMemory. assert (∀ fuel n, preserved (writeLoop fuel address data n)) as Hl.
  { intros fuel. induction fuel as [|fuel IH]; intros n; cbn [writeLoop]; keep; try apply keeps_sendPacket, closed_ok. apply IH. }
  keep. apply Hl.
Qed.

(** ** The client over its life *)

(** A call of a public operation, a new connection or a close; the other side may change in
    any way between two calls. *)
Inductive called `{!StdSort} : Client * peer → Client * peer → Prop :=
  | called_peer c p p' : called (c, p) (c, p')
  | called_connect c p : called (c, p) (connectedClient, p)
  | called_close s : called s (close s).2
  | called_send payload s : called s (sendPacket payload s).2
  | called_negotiate s : called s (negotiate s).2
  | called_object object annex s : called s (readObject object annex s).2
  | called_describe s : called s (describeTarget s).2
  | called_readRegister reg s : called s (readRegister reg s).2
  | called_writeRegister reg value s : called s (writeRegister reg value s).2
  | called_readMemory address size s : called s (readMemory address size s).2
  | called_writeMemory address data s : called s (writeMemory address data s).2.
Lemma connected_ok : client_ok connectedClient.
Proof. split; [done|exact registers_nil|constructor]. Qed.
Lemma called_ok `{!StdSort} s s' : called s s' → client_ok s.1 → client_ok s'.1.
Proof.
  intros [] Hs; [exact Hs|exact connected_ok|exact closed_ok|..]; revert Hs.
  all: match goal with |- _ → client_ok (?m ?s).2.1 => intros Hs; enough (∃ Q, keeps client_ok m Q) as [Q Hkeeps] by (by apply (Hkeeps s Hs)); eexists end.
  - apply keeps_sendPacket, closed_ok.
  - apply negotiate_keeps.
  - apply readObject_keeps.
  - apply describeTarget_ok.
  - apply readRegister_keeps.
  - apply writeRegister_keeps.
  - apply readMemory_keeps.
  - apply writeMemory_keeps.
Qed.
End Operations.

(** ** The layout and the client *)

Section Layout.
Context {P : Peer} {X : XmlReader} `{!StdSort}.

Lemma load_end (s : Client * peer) r s' : describeTarget s = (inr r, s') →
  ∃ d c p, load 10 0 (bs "target.xml") nothingDescribed (withLayout [] s.1, s.2) = (inr d, (c, p)) ∧
    r = (d_architecture d, d_osAbi d, targetMachine (d_architecture d) (d_osAbi d), d_registers d) ∧ s' = (withLayout (std_sort (byKey gr_number) (d_registers d)) c, p).
Proof.
  unfold describeTarget, modify, mbind at 1, gdb_bind at 1. cbn [fst snd]. unfold mbind at 1, gdb_bind at 1. destruct (load _ _ _ _ _) as [[e|d] [c p]]; [done|]. destruct (_ || _); [done|].
  intros [= <- <-]. by exists d, c, p.
Qed.
Lemma describeTarget_layout c p architecture osAbi machine registers c' p' : client_ok c → describeTarget (c, p) = (inr (architecture, osAbi, machine, registers), (c', p')) →
  registers_ok registers ∧ registers ≠ [] ∧ machine = targetMachine architecture osAbi ∧ c_registerLayout c' ≡ₚ registers ∧ sortedBy gr_number (c_registerLayout c').
Proof.
  intros Hc E. destruct (describeTarget_ok (c, p) Hc) as [_ Hd]. rewrite E in Hd. cbn in Hd. destruct Hd as (Hr & Hne & _).
  apply load_end in E as (d & c0 & p0 & _ & [= -> -> -> ->] & [= -> ->]). split_and!; [done|done|done|apply std_sort_perm|apply std_sort_key].
Qed.
End Layout.

Lemma reachable_client {P : Peer} {X : XmlReader} `{!StdSort} (a b : Client * peer) : rtc called a b → client_ok a.1 → client_ok b.1.
Proof. induction 1 as [|??? Hcall _ IH]; [done|]. intros ?. by eapply IH, called_ok. Qed.

(** C30: whatever is called, in whatever order and whatever the other side answers, the
    packet size stays between 64 and the largest packet, and the layout of the registers
    keeps distinct numbers and names, widths from 1 to 524288 bits, and the order of the
    numbers. *)
Theorem client_invariant {P : Peer} {X : XmlReader} `{!StdSort} c p p0 : rtc called (closedClient, p0) (c, p) → client_ok c.
Proof. intros Hs. exact (reachable_client _ _ Hs closed_ok). Qed.

(** A description of the target that is accepted has at least one register, distinct
    register numbers and names and sane widths; the machine is the one of the architecture
    and OS ABI, and the layout of the register bank is these registers in the order of
    their numbers. *)
Theorem describeTarget_accepts {P : Peer} {X : XmlReader} `{!StdSort} c p architecture osAbi machine registers c' p' :
  client_ok c → describeTarget (c, p) = (inr (architecture, osAbi, machine, registers), (c', p')) →
  registers_ok registers ∧ registers ≠ [] ∧ machine = targetMachine architecture osAbi ∧ c_registerLayout c' ≡ₚ registers ∧ sortedBy gr_number (c_registerLayout c').
Proof. by apply describeTarget_layout. Qed.

(** ** Instances *)

(** A peer that sends a script, and a reader of two documents. *)
#[local] Instance scriptPeer : Peer := {|
  peer := bytes; peer_send _ p := (None, p);
  peer_recv p := match p with [] => (inl (bs "GDB connection closed"), []) | c :: p => (inr c, p) end;
  peer_cancelled _ := false; peer_expired _ := false |}.
Definition element (name : string) (attributes : list (string * string)) (text : bytes) (children : list XmlElement) : XmlElement :=
  xmlElement (bs name) ((λ p, (bs p.1, bs p.2)) <$> attributes) (Some text) children.
Definition sampleTarget : XmlElement :=
  element "target" [] [] [
    element "architecture" [] (bs " i386:x86-64 ") []; element "osabi" [] (bs "GNU/Linux") [];
    element "feature" [("name", "core")] [] [
      element "reg" [("name", "rsp"); ("bitsize", "64"); ("regnum", "7")] [] [];
      element "reg" [("name", "rip"); ("bitsize", "64"); ("type", "code_ptr")] [] [];
      element "reg" [("name", "rax"); ("bitsize", "64"); ("regnum", "0")] [] []]].
Definition sampleMap : XmlElement :=
  element "memory-map" [] [] [
    element "memory" [("type", "rom"); ("start", "0x2000"); ("length", "0x1000")] [] [];
    element "memory" [("type", "ram"); ("start", "4096"); ("length", "0x1000")] [] []].
#[local] Instance sampleReader : XmlReader := {| xml_parse text := Some [if bytes_eqb text (bs "<target/>") then sampleTarget else sampleMap] |}.
Definition reply (text : string) : bytes := "+"%chr :: frame (bs text).
Definition script : bytes := reply "PacketSize=1000;qXfer:features:read+" ++ reply "l<target/>".
Definition negotiated : Client * peer := (negotiate (connectedClient, script)).2.
Definition describedTarget `{!StdSort} := describeTarget negotiated.
Example negotiated_features : c_features negotiated.1 = [bs "PacketSize=1000"; bs "qXfer:features:read+"] ∧ c_packetSize negotiated.1 = 4096.
Proof. split; by vm_compute. Qed.
Lemma client_invariant_witness : client_ok describedTarget.2.1.
Proof.
  apply (client_invariant _ describedTarget.2.2 script). rewrite <- surjective_pairing. unfold describedTarget, negotiated.
  eapply rtc_l; [apply called_connect|]. eapply rtc_l; [apply called_negotiate|]. apply rtc_once, called_describe.
Defined.
Lemma described_value : describedTarget = (inr (bs "i386:x86-64", bs "GNU/Linux", mkTargetMachine X86_64 Little LinuxX86_64 ModeX86_64 8 Little,
  [mkGdbRegister (bs "rsp") 7 64 []; mkGdbRegister (bs "rip") 8 64 (bs "code_ptr"); mkGdbRegister (bs "rax") 0 64 []]),
  (withLayout [mkGdbRegister (bs "rax") 0 64 []; mkGdbRegister (bs "rsp") 7 64 []; mkGdbRegister (bs "rip") 8 64 (bs "code_ptr")] negotiated.1, [])).
Proof. by vm_compute. Qed.
Lemma negotiated_ok : client_ok negotiated.1.
Proof. apply (reachable_client (P := scriptPeer) (closedClient, script)); [|exact closed_ok]. eapply rtc_l; [exact (called_connect (P := scriptPeer) closedClient script)|]. apply rtc_once. exact (called_negotiate (P := scriptPeer) (connectedClient, script)). Qed.
Lemma describeTarget_accepts_witness : ∃ registers, describedTarget.1 = inr (bs "i386:x86-64", bs "GNU/Linux", targetMachine (bs "i386:x86-64") (bs "GNU/Linux"), registers) ∧
  registers_ok registers ∧ sortedBy gr_number (c_registerLayout describedTarget.2.1).
Proof.
  destruct negotiated as [c p] eqn:E. pose proof negotiated_ok as Hok. rewrite E in Hok. pose proof described_value as Hv. unfold describedTarget in Hv. rewrite E in Hv.
  destruct (describeTarget_accepts c p _ _ _ _ _ _ Hok Hv) as (Hr & _ & _ & _ & Hs). eexists. split; [rewrite described_value; reflexivity|]. split; [exact Hr|]. rewrite described_value. exact Hs.
Defined.
