(* ===== verification/GdbProcess.v ===== *)
(** * A process behind a GDB stub

    Models [GdbProcessHandle] of [src/platform/gdb_process.cpp]: the connection to a stopped
    target, its memory map, and the reads, writes and registers of the process in terms of
    the client of [GdbRemote]. *)

From S2P Require Import Prelude Numeral TargetMachine Types StdAlgo GdbRemote.
#[local] Open Scope Z_scope.

(** ** Data *)

Inductive TargetTransport : Set := TransportLocal | CEServer | Gdb | TransportUnknown.
Inductive TargetRuntime : Set := RuntimeNative | Wine | Emulated | RuntimeUnknown.
Record TargetDescription := mkTargetDescription { td_program : TargetMachine; td_transport : TargetTransport; td_runtime : TargetRuntime; td_live : bool }.

Record GdbTargetDescription := mkGdbTarget { gt_architecture : bytes; gt_osAbi : bytes; gt_machine : TargetMachine; gt_registers : list GdbRegisterDescription }.
(** [GdbProcessOptions]; the timeout and the cancellation are the peer's. *)
Record GdbProcessOptions := mkGdbOptions { op_byteOrder : ByteOrder; op_pointerWidth : Z; op_runtime : TargetRuntime; op_regions : list MemoryRegion }.
(** [GdbProcessHandle]. *)
Record GdbProcess := mkGdbProcess {
  h_client : Client; h_target : GdbTargetDescription; h_runtime : TargetRuntime; h_regions : list MemoryRegion; h_error : bytes; h_ownsSession : bool
}.
Definition withClient (c : Client) (h : GdbProcess) : GdbProcess :=
  mkGdbProcess c (h_target h) (h_runtime h) (h_regions h) (h_error h) (h_ownsSession h).
Definition withError (e : bytes) (h : GdbProcess) : GdbProcess :=
  mkGdbProcess (h_client h) (h_target h) (h_runtime h) (h_regions h) e (h_ownsSession h).

(** The [std::errc] values of a [Result] of the reads and writes. *)
Inductive Errc : Set := InvalidArgument | IoError.

Definition addressNumber (text : option bytes) : option Z :=
  match text with
  | None | Some [] => None
  | Some s =>
      let '(s, base) := if starts_with (bs "0x") s || starts_with (bs "0X") s then (drop 2 s, 16) else (s, 10) in
      match from_chars 64 base s with Some (v, []) => Some v | _ => None end
  end.
Definition validRegion (r : MemoryRegion) : bool := negb (region_size r =? 0) && (region_size r <=? UINTPTR_MAX - region_base r).
Definition stoppedReply (reply : bytes) : bool :=
  match reply with
  | kind :: x :: y :: rest => isxdigit x && isxdigit y && (((kind =? "S"%chr) && bool_decide (rest = [])) || (kind =? "T"%chr))
  | _ => false
  end.

(** ** Connecting *)

(** One [memory] element of the map; [count] regions are there already. *)
Definition mapRegion (memory : XmlElement) (count : Z) : bytes + MemoryRegion :=
  match addressNumber (xmlAttribute memory (bs "start")), addressNumber (xmlAttribute memory (bs "length")) with
  | Some base, Some length =>
      let named text := bool_decide (xmlAttribute memory (bs "type") = Some (bs text)) in
      if negb (named "ram" || named "rom" || named "flash") then inl (bs "Unknown GDB memory map type") else
      let region := mkMemoryRegion base length (if named "ram" then Z.lor ProtRead ProtWrite else ProtRead) MemPrivate MemCommitted [] None in
      if negb (validRegion region) || (4096 <=? count) then inl (bs "Invalid or excessive GDB memory map") else inr region
  | _, _ => inl (bs "Invalid GDB memory map range")
  end.
Fixpoint mapRegions (memories : list XmlElement) (regions : list MemoryRegion) : bytes + list MemoryRegion :=
  match memories with
  | [] => inr regions
  | memory :: memories =>
      match mapRegion memory (len regions) with inl e => inl e | inr region => mapRegions memories (regions ++ [region]) end
  end.
(** The children of a name ([FirstChildElement], [NextSiblingElement]). *)
Definition xmlNamed (name : bytes) (l : list XmlElement) : list XmlElement := List.filter (λ e, bytes_eqb (xmlName e) name) l.
Definition xmlChildren (e : XmlElement) : list XmlElement := let 'xmlElement _ _ _ children := e in children.
(** Two regions in a row where the first reaches into the second. *)
Fixpoint overlappingRegions (regions : list MemoryRegion) : bool :=
  match regions with
  | r :: (r' :: _) as rest => (region_base r' <? u64 (region_base r + region_size r)) || overlappingRegions rest
  | _ => false
  end.
(** The machine of the description with the options; [None] on a conflict. *)
Definition machineWith (o : GdbProcessOptions) (m : TargetMachine) : option TargetMachine :=
  let? m :=
    if bool_decide (op_byteOrder o = OrderUnknown) then Some m
    else if negb (bool_decide (byteOrder m = OrderUnknown)) && negb (bool_decide (byteOrder m = op_byteOrder o)) then None
    else Some (mkTargetMachine (architecture m) (op_byteOrder o) (abi m) (instructionMode m) (pointerWidth m) (instructionByteOrder m)) in
  if op_pointerWidth o =? 0 then Some m
  else Some (mkTargetMachine (architecture m) (byteOrder m) (if op_pointerWidth o =? pointerWidth m then abi m else AbiUnknown) (instructionMode m) (op_pointerWidth o) (instructionByteOrder m)).

Section Connect.
Context {P : Peer} {X : XmlReader} `{!StdSort}.

(** The regions of the target when none were given. *)
Definition memoryMap (given : list MemoryRegion) : gdb (list MemoryRegion) :=
  client ← getClient;
  if bool_decide (given = []) && supportsFeature client (bs "qXfer:memory-map:read") then
    xml ← readObject (bs "memory-map") [];
    match (let? top := xml_parse xml in head (xmlNamed (bs "memory-map") top)) with
    | None => failWith (bs "Invalid GDB memory map XML")
    | Some map => lift (mapRegions (xmlNamed (bs "memory") (xmlChildren map)) [])
    end
  else mret given.
(** [connect] once the socket is open. *)
Definition session (o : GdbProcessOptions) : gdb GdbProcess :=
  negotiate;;
  stopped ← sendPacket (bs "?");
  if negb (stoppedReply stopped) then failWith (bs "GDB memory adapter requires a stopped target") else
  '(architecture, osAbi, machine, registers) ← describeTarget;
  match machineWith o machine with
  | None => failWith (bs "Explicit byte order conflicts with the described target architecture")
  | Some machine =>
      given ← memoryMap (op_regions o);
      let regions := std_sort (byKey region_base) given in
      if overlappingRegions regions then failWith (bs "Overlapping GDB memory map ranges") else
      cancelled ← (λ s, (inr (peer_cancelled s.2), s) : (bytes + bool) * (Client * peer));
      if cancelled : bool then failWith (bs "GDB connection canceled") else
      client ← getClient;
      mret (mkGdbProcess client (mkGdbTarget architecture osAbi machine registers) (op_runtime o) regions [] true)
  end.
(** [endpoint] is what [connectTcp] gives: an error or an open socket. *)
Definition connect (endpoint : bytes + peer) (o : GdbProcessOptions) : bytes + GdbProcess * peer :=
  if negb (op_pointerWidth o =? 0) && negb (op_pointerWidth o =? 4) && negb (op_pointerWidth o =? 8) then inl (bs "GDB pointer width must be 4 or 8")
  else if existsb (λ r, negb (validRegion r)) (op_regions o) then inl (bs "Invalid GDB guest memory range")
  else if 4096 <? len (op_regions o) then inl (bs "Too many explicit GDB guest ranges")
  else match endpoint with
  | inl e => inl e
  | inr p => match session o (connectedClient, p) with (inl e, _) => inl e | (inr h, (_, p)) => inr (h, p) end
  end.
End Connect.

(** ** The process *)

(** A computation with the client, on the process. *)
Section Process.
Context {P : Peer}.

Definition viaClient {A} (m : gdb A) (s : GdbProcess * peer) : (bytes + A) * (GdbProcess * peer) :=
  match m (h_client s.1, s.2) with (r, (c, p)) => (r, (withClient c s.1, p)) end.
Definition failed (e : bytes) (s : GdbProcess * peer) : GdbProcess * peer := (withError e s.1, s.2).
Definition disconnect (s : GdbProcess * peer) : GdbProcess * peer := (withClient closedClient s.1, s.2).

Definition targetDescription (s : GdbProcess * peer) : TargetDescription * (GdbProcess * peer) :=
  let description live := mkTargetDescription (gt_machine (h_target s.1)) Gdb (h_runtime s.1) live in
  if c_connected (h_client s.1) then
    match viaClient (sendPacket (bs "?")) s with
    | (inr stop, s) => if stoppedReply stop then (description true, s) else (description false, disconnect (failed (bs "GDB target is no longer stopped or has exited") s))
    | (inl e, s) => (description false, disconnect (failed e s))
    end
  else (description false, s).

Definition kGdbTransferChunk : Z := 2 ^ 20.
(** Every chunk but the last is whole, so one round more than there are whole chunks, and
    one that finds nothing left, are enough. *)
Definition transferFuel (size : Z) : nat := S (S (Z.to_nat (size / kGdbTransferChunk))).
Fixpoint readChunks (fuel : nat) (address size : Z) (done : bytes) (s : GdbProcess * peer) : (Errc + bytes) * (GdbProcess * peer) :=
  match fuel with
  | O => (inr done, s)
  | S fuel =>
      if len done <? size then
        let count := Z.min (size - len done) kGdbTransferChunk in
        match viaClient (readMemory (u64 (address + len done)) count) s with
        | (inl e, s) => ((if bool_decide (done = []) then inl IoError else inr done), failed e s)
        | (inr block, s) => let done := done ++ block in if len block <? count then (inr done, s) else readChunks fuel address size done s
        end
      else (inr done, s)
  end.
(** The bytes read into the buffer; [buffer] tells whether there is one. *)
Definition read (buffer : bool) (address size : Z) (s : GdbProcess * peer) : (Errc + bytes) * (GdbProcess * peer) :=
  if negb (size =? 0) && negb buffer then (inl InvalidArgument, s)
  else if negb (size =? 0) && (UINTPTR_MAX - address <? size - 1) then (inl InvalidArgument, s)
  else readChunks (transferFuel size) address size [] s.
Fixpoint writeChunks (fuel : nat) (address : Z) (data : bytes) (done : Z) (s : GdbProcess * peer) : (Errc + Z) * (GdbProcess * peer) :=
  match fuel with
  | O => (inr done, s)
  | S fuel =>
      if done <? len data then
        let count := Z.min (len data - done) kGdbTransferChunk in
        match viaClient (writeMemory (u64 (address + done)) (slice data done count)) s with
        | (inl e, s) => ((if done =? 0 then inl IoError else inr done), failed e s)
        | (inr written, s) => let done := done + written in if written <? count then (inr done, s) else writeChunks fuel address data done s
        end
      else (inr done, s)
  end.
(** [data] is the buffer of [size] bytes, [None] without one. *)
Definition write (address size : Z) (data : option bytes) (s : GdbProcess * peer) : (Errc + Z) * (GdbProcess * peer) :=
  match data with
  | None => if negb (size =? 0) then (inl InvalidArgument, s) else (inr 0, s)
  | Some data =>
      if negb (size =? 0) && (UINTPTR_MAX - address <? size - 1) then (inl InvalidArgument, s)
      else writeChunks (transferFuel size) address data 0 s
  end.

Definition queryRegions (h : GdbProcess) : list MemoryRegion := if c_connected (h_client h) then h_regions h else [].
Definition queryRegion (h : GdbProcess) (address : Z) : option MemoryRegion :=
  List.find (λ r, (region_base r <=? address) && (address - region_base r <? region_size r)) (queryRegions h).

Definition findRegister (h : GdbProcess) (name : bytes) : option GdbRegisterDescription :=
  List.find (λ r, bytes_eqb (gr_name r) name) (gt_registers (h_target h)).
Definition readRegisterNamed (name : bytes) (s : GdbProcess * peer) : (bytes + bytes) * (GdbProcess * peer) :=
  match findRegister s.1 name with
  | None => (inl (bs "Register absent from GDB target XML"), s)
  | Some reg => viaClient (readRegister reg) s
  end.
Definition writeRegisterNamed (name value : bytes) (s : GdbProcess * peer) : (bytes + unit) * (GdbProcess * peer) :=
  match findRegister s.1 name with
  | None => (inl (bs "Register absent from GDB target XML"), s)
  | Some reg => viaClient (writeRegister reg value) s
  end.
Definition remoteCommand (command : bytes) (s : GdbProcess * peer) : (bytes + bytes) * (GdbProcess * peer) :=
  match viaClient (sendPacket command) s with
  | (inl e, s) => (inl e, failed e s)
  | (inr response, s) =>
      (inr response,
       match response with
       | kind :: _ :: _ :: _ => if (kind =? "W"%chr) || (kind =? "X"%chr) then disconnect s else s
       | _ => s
       end)
  end.
Definition detach (s : GdbProcess * peer) : (bytes + unit) * (GdbProcess * peer) :=
  if negb (c_connected (h_client s.1)) then (inr (), s) else
  match viaClient (sendPacket (bs "D")) s with
  | (inl e, s) => (inl e, failed e (disconnect s))
  | (inr result, s) =>
      if bytes_eqb result (bs "OK") then (inr (), disconnect s)
      else (inl (bs "GDB detach was not confirmed"), failed (bs "GDB detach was not confirmed") (disconnect s))
  end.
End Process.
