(* ===== verification/GdbSession.v ===== *)
(** * Reads, writes and registers of a process behind a stub

    What [GdbProcess] promises a debugger: a read returns exactly the bytes that can be read
    and a write changes exactly the bytes it reports, however they are cut into transfers
    and packets; a register written by its name holds the value and no other register
    changes; the regions of an accepted target are disjoint. *)

From S2P Require Import Prelude Numeral TargetMachine Types StdAlgo GdbRemote GdbWire GdbStub GdbSample GdbDescribe GdbProcess.
From stdpp Require Import sorting.
#[local] Open Scope Z_scope.

(** ** Memory *)

Section Memory.
Context {Sb : Stub} {laws : StubLaws Sb} {memory : MemoryStub Sb}.

Definition ready (h : GdbProcess) (s : stub) : Prop := agree (h_client h) s.
Lemma withClient_same h : withClient (h_client h) h = h.
Proof. by destruct h. Qed.
Lemma viaClient_same {A} (m : gdb A) h s r s' : m (h_client h, idle s) = (r, (h_client h, idle s')) → viaClient m (h, idle s) = (r, (h, idle s')).
Proof.
  intros E. pose proof (f_equal (λ x : _ * (Client * Line), match x with (r, (c, p)) => (r, (withClient c h, p)) end) E) as E'. cbv beta iota in E'. by rewrite withClient_same in E'.
Qed.
(** The process is as before but for the last error. *)
Definition sameButError (h h' : GdbProcess) : Prop := ∃ e, h' = withError e h.
Lemma same_refl h : sameButError h h.
Proof. exists (h_error h). by destruct h. Qed.
Lemma same_failed h e : sameButError h (withError e h).
Proof. by exists e. Qed.

Lemma transferFuel_enough size : 0 ≤ size → size ≤ Z.of_nat (transferFuel size - 1) * kGdbTransferChunk.
Proof using.
  intros Hs. unfold transferFuel. change kGdbTransferChunk with 1048576. pose proof (Z.mul_succ_div_gt size 1048576 ltac:(done)). pose proof (Z.div_pos size 1048576 Hs ltac:(done)). lia.
Qed.
Lemma readChunks_exact h s address size fuel (n : nat) : ready h s → 0 ≤ address → address + size ≤ 2 ^ 64 → Z.of_nat n ≤ size →
  length (readable (stub_byte s) address n) = n → size - Z.of_nat n ≤ Z.of_nat (fuel - 1) * kGdbTransferChunk → (0 < fuel)%nat →
  ∃ h', sameButError h h' ∧
    readChunks fuel address size (readable (stub_byte s) address n) (h, idle s)
    = ((if (0 <? size) && bool_decide (readable (stub_byte s) address (Z.to_nat size) = []) then inl IoError else inr (readable (stub_byte s) address (Z.to_nat size))), (h', idle s)).
Proof using laws memory.
  intros Hr Ha Hw. revert n. assert (kGdbTransferChunk = 1048576) as HK by done. induction fuel as [|fuel IH]; intros n Hn Hfull Hfuel Hpos; [lia|]. cbn [readChunks].
  assert (len (readable (stub_byte s) address n) = Z.of_nat n) as -> by (unfold len; by rewrite Hfull). destruct (Z.ltb_spec (Z.of_nat n) size) as [Hlt|Hge].
  - set (count := Z.min (size - Z.of_nat n) kGdbTransferChunk). assert (0 < kGdbTransferChunk ≤ maxDecoded) by done.
    assert (0 < count ≤ size - Z.of_nat n ∧ count ≤ maxDecoded) as [Hc Hcm] by lia. rewrite (proj2 (Z.ltb_lt 0 size)) by lia. rewrite wrap_small by lia_w. cbn [andb].
    destruct (readMemory_ret (h_client h) s (address + Z.of_nat n) count Hr ltac:(lia) ltac:(lia) ltac:(lia)) as [e E]. apply viaClient_same in E. rewrite E. clear E.
    rewrite (proj2 (Z.ltb_lt 0 count)) by lia. cbn [andb]. set (block := readable (stub_byte s) (address + Z.of_nat n) (Z.to_nat count)).
    assert (∃ m, Z.to_nat size = (n + Z.to_nat count + m)%nat) as [m Hm] by (exists (Z.to_nat size - n - Z.to_nat count)%nat; lia).
    assert (readable (stub_byte s) address (n + Z.to_nat count) = readable (stub_byte s) address n ++ block) as Happ by (by rewrite readable_app, bool_decide_true).
    assert (len block < count → readable (stub_byte s) address (Z.to_nat size) = readable (stub_byte s) address n ++ block) as Hshort.
    { intros Hs. rewrite Hm, readable_app, bool_decide_false; [done|]. rewrite Happ, length_app, Hfull. unfold len in Hs. lia. }
    pose proof (readable_le (stub_byte s) (address + Z.of_nat n) (Z.to_nat count)) as Hle. fold block in Hle.
    destruct (bool_decide_reflect (block = [])) as [Hb|Hb].
    + exists (withError e h). split; [by exists e|]. rewrite Hshort, Hb, app_nil_r by (rewrite Hb, (len_nil (A:=Z)); lia). unfold failed. cbn [fst snd].
      by destruct (bool_decide (readable (stub_byte s) address n = [])).
    + destruct (Z.ltb_spec (len block) count) as [Hs|Hs].
      * exists h. split; [apply same_refl|]. rewrite Hshort by done. rewrite bool_decide_false; [done|]. by intros [_ ?]%app_nil.
      * rewrite <- Happ. destruct (IH (n + Z.to_nat count)%nat) as (h' & Hh' & E); [lia|rewrite Happ, length_app, Hfull; unfold len in Hs; lia|rewrite HK in *; unfold count in *; lia..|].
        exists h'. split; [done|]. rewrite E. by rewrite (proj2 (Z.ltb_lt 0 size)) by lia.
  - assert (Z.to_nat size = n) as <- by lia. exists h. split; [apply same_refl|]. destruct (Z.ltb_spec 0 size); [|done]. cbn [andb].
    rewrite bool_decide_false; [done|]. intros E. rewrite E in Hfull. cbn in Hfull. lia.
Qed.
Lemma read_ret h s address size : ready h s → 0 ≤ address → 0 ≤ size → address + size ≤ 2 ^ 64 →
  let l := readable (stub_byte s) address (Z.to_nat size) in
  ∃ h', sameButError h h' ∧ read true address size (h, idle s) = ((if (0 <? size) && bool_decide (l = []) then inl IoError else inr l), (h', idle s)).
Proof using laws memory.
  intros Hr Ha Hs Hw. unfold read. cbn [negb]. rewrite andb_false_r. assert (negb (size =? 0) && (UINTPTR_MAX - address <? size - 1) = false) as ->.
  { apply andb_false_iff. destruct (Z.eq_dec size 0) as [->|]; [by left|right; apply Z.ltb_ge; lia_w]. }
  apply (readChunks_exact h s address size _ 0); try done; [|unfold transferFuel; lia]. rewrite Z.sub_0_r. by apply transferFuel_enough.
Qed.

(** A transfer of a part adds to what is written already. *)
Lemma wrote_part s s' s'' address data (written count : Z) : wrote s s' address data written → written + count ≤ len data → 0 ≤ count →
  wrote s' s'' (address + written) (slice data written count) count → wrote s s'' address data (written + count).
Proof using.
  intros Hw Hfit Hc [Hacks Hr Hb]. pose proof (wr_range _ _ _ _ _ Hw). rewrite len_slice in Hr by lia. apply (wrote_more s s'); [done|lia|lia|done|]. intros x. rewrite Hb.
  destruct (Z.leb_spec (address + written) x), (Z.ltb_spec x (address + written + count)); cbn [andb]; done.
Qed.
Lemma writeChunks_exact h s0 s address data fuel written : ready h s → 0 ≤ address → address + len data ≤ 2 ^ 64 → bytes_ok data → wrote s0 s address data written →
  len data - written ≤ Z.of_nat (fuel - 1) * kGdbTransferChunk → (0 < fuel)%nat →
  ∃ h' s' n r, writeChunks fuel address data written (h, idle s) = (r, (h', idle s')) ∧ sameButError h h' ∧ agree (h_client h) s' ∧ wroteSome s0 s' address data n (blockSize (h_client h)) ∧
    (r = inr n ∨ n = 0 ∧ r = inl IoError) ∧ (accepts address data → r = inr (len data)).
Proof using laws memory.
  intros Hr Ha Hw Hok. revert s written Hr. assert (kGdbTransferChunk = 1048576) as HK by done. assert (1048576 ≤ maxDecoded) as HM by done.
  induction fuel as [|fuel IH]; intros s written Hr Hwrote Hfuel Hpos; [lia|]. cbn [writeChunks]. pose proof (wr_range _ _ _ _ _ Hwrote) as Hrange.
  destruct (Z.ltb_spec written (len data)) as [Hlt|Hge].
  - set (count := Z.min (len data - written) kGdbTransferChunk). assert (0 < count ∧ written + count ≤ len data ∧ count ≤ maxDecoded) as (Hc & Hfit & Hcm) by (unfold count; rewrite HK; lia).
    rewrite wrap_small by lia_w. assert (len (slice data written count) = count) as Hls by (apply len_slice; lia).
    destruct (writeMemory_ret (h_client h) s (address + written) (slice data written count) Hr ltac:(lia) ltac:(lia) ltac:(lia) (bytes_ok_slice _ _ _ Hok)) as (s' & n & r & E & Hag & Hw' & Hrn & Hall).
    apply viaClient_same in E. rewrite E. clear E. pose proof (ws_range _ _ _ _ _ _ Hw') as Hn. rewrite Hls in Hn, Hall. pose proof (wroteSome_part _ _ _ _ _ _ _ _ _ Hwrote Hfit ltac:(lia) Hw') as Hsum.
    assert (accepts address data → r = inr count) as Hall'.
    { intros Hyes. apply Hall. apply accepts_part; done || lia. }
    destruct Hrn as [->|[-> [e ->]]].
    + destruct (Z.ltb_spec n count) as [Hs|Hs].
      * exists h, s', (written + n), (inr (written + n)). split_and!; [done|apply same_refl|done|done|by left|]. intros Hyes. specialize (Hall' Hyes). injection Hall' as ->. lia.
      * assert (n = count) as -> by lia. apply IH; [done| |rewrite HK in *; unfold count in *; lia|rewrite HK in *; lia].
        apply (wrote_part s0 s); [done|done|lia|]. rewrite <- Hls at 2. apply (wroteSome_all _ _ _ _ (blockSize (h_client h))). by rewrite Hls.
    + rewrite Z.add_0_r in Hsum. exists (withError e h), s', written, (if written =? 0 then inl IoError else inr written). split_and!; [done|by exists e|done|done| |by intros Hyes; discriminate (Hall' Hyes)].
      destruct (Z.eqb_spec written 0) as [->|]; [by right|by left].
  - assert (written = len data) as -> by lia. exists h, s, (len data), (inr (len data)). split_and!; [done|apply same_refl|done|by apply wrote_some|by left|done].
Qed.
Lemma write_ret h s address data : ready h s → 0 ≤ address → address + len data ≤ 2 ^ 64 → bytes_ok data →
  ∃ h' s' n r, write address (len data) (Some data) (h, idle s) = (r, (h', idle s')) ∧ sameButError h h' ∧ agree (h_client h) s' ∧ wroteSome s s' address data n (blockSize (h_client h)) ∧
    (r = inr n ∨ n = 0 ∧ r = inl IoError) ∧ (accepts address data → r = inr (len data)).
Proof using laws memory.
  intros Hr Ha Hw Hok. unfold write. assert (negb (len data =? 0) && (UINTPTR_MAX - address <? len data - 1) = false) as ->.
  { apply andb_false_iff. destruct (Z.eq_dec (len data) 0) as [->|]; [by left|right; apply Z.ltb_ge; lia_w]. }
  apply (writeChunks_exact h s s address data _ 0); try done; [apply wrote_nothing|rewrite Z.sub_0_r; apply transferFuel_enough, len_nonneg|unfold transferFuel; lia].
Qed.
End Memory.

(** ** Registers by name *)

Lemma slice_outside (l v : bytes) o p n : 0 ≤ o → o + len v ≤ len l → 0 ≤ p → 0 ≤ n → p + n ≤ o ∨ o + len v ≤ p →
  slice (take (Z.to_nat o) l ++ v ++ drop (Z.to_nat (o + len v)) l) p n = slice l p n.
Proof.
  intros Ho Hl Hp Hn Hout. unfold slice, len in *. destruct Hout as [Hout|Hout].
  - rewrite drop_app_le by (rewrite length_take; lia). rewrite take_app_le by (rewrite length_drop, length_take; lia). rewrite skipn_firstn_comm, take_take. f_equal. lia.
  - rewrite drop_app_ge by (rewrite length_take; lia). rewrite length_take, drop_app_ge by lia. rewrite drop_drop. do 2 f_equal. lia.
Qed.
(** Two registers of a layout have bytes of their own. *)
Lemma apart l1 l2 k1 k2 r q : l1 ++ r :: l2 = k1 ++ q :: k2 → r ≠ q → Forall (λ x, 0 ≤ gr_bits x) (l1 ++ r :: l2) →
  layoutBytes k1 + (gr_bits q + 7) / 8 ≤ layoutBytes l1 ∨ layoutBytes l1 + (gr_bits r + 7) / 8 ≤ layoutBytes k1.
Proof.
  intros E Hne Hb. pose proof Hb as Hb'. rewrite E in Hb'. apply Forall_app in Hb as [H1 _]. apply Forall_app in Hb' as [H2 _].
  apply app_eq_inv in E as [(k & -> & Ek)|(k & -> & Ek)]; destruct k as [|x k]; cbn in Ek; injection Ek as Ek1 Ek2; subst; try done.
  - left. rewrite layoutBytes_app, layoutBytes_cons. apply Forall_app in H1 as [_ H1]. apply Forall_cons_1 in H1 as [_ H1]. pose proof (layoutBytes_nonneg k H1). lia.
  - right. rewrite layoutBytes_app, layoutBytes_cons. apply Forall_app in H2 as [_ H2]. apply Forall_cons_1 in H2 as [_ H2]. pose proof (layoutBytes_nonneg k H2). lia.
Qed.

Section Registers.
Context {Sb : Stub} {laws : StubLaws Sb} {registers : RegisterStub Sb}.

(** The description and the layout agree with each other and with the bank of the stub. *)
Record banked (h : GdbProcess) (s : stub) : Prop := {
  bk_agree : agree (h_client h) s;
  bk_registers : registers_ok (gt_registers (h_target h));
  bk_layout : c_registerLayout (h_client h) ≡ₚ gt_registers (h_target h);
  bk_bank : layoutBytes (c_registerLayout (h_client h)) = len (stub_bank s);
  bk_fits : 2 * len (stub_bank s) + 20 ≤ c_packetSize (h_client h)
}.
Lemma banked_split h s reg : banked h s → reg ∈ gt_registers (h_target h) → ∃ l1 l2, c_registerLayout (h_client h) = l1 ++ reg :: l2 ∧
  NoDup (gr_number <$> l1 ++ reg :: l2) ∧ Forall field_ok (l1 ++ reg :: l2) ∧ described l1 l2 reg (h_client h) s.
Proof using.
  intros [Hag (Hn & _ & Hf & _) Hl Hb Hfit] Hin. rewrite <- Hl in Hin, Hn, Hf. apply list_elem_of_split in Hin as (l1 & l2 & E). exists l1, l2. rewrite E in *.
  split_and!; [done..|]. by split_and!.
Qed.
Lemma findRegister_Some h name reg : findRegister h name = Some reg → reg ∈ gt_registers (h_target h) ∧ gr_name reg = name.
Proof using. unfold findRegister. intros [Hin Hn]%find_some. rewrite list_elem_of_In. unfold bytes_eqb in Hn. by rewrite bool_decide_eq_true in Hn. Qed.
Lemma viaClient_eq {A} (m : gdb A) h p r c p' : m (h_client h, p) = (r, (c, p')) → viaClient m (h, p) = (r, (withClient c h, p')).
Proof using. intros E. unfold viaClient. cbn [fst snd]. by rewrite E. Qed.

(** The value of a register in the bank. *)
Lemma readNamed h s name reg l1 l2 : banked h s → findRegister h name = Some reg → c_registerLayout (h_client h) = l1 ++ reg :: l2 →
  (readRegisterNamed name (h, idle s)).1 = inr (slice (stub_bank s) (layoutBytes l1) ((gr_bits reg + 7) / 8)).
Proof using laws.
  intros Hb Hfind Hl. destruct Hb as [Hag (Hn & _ & Hf & _) Hperm Hbank Hfit]. rewrite <- Hperm, Hl in Hn, Hf. rewrite Hl in Hbank.
  destruct (readRegister_ret l1 l2 reg Hn Hf (h_client h) s) as (c' & E & _); [by split_and!|]. unfold readRegisterNamed. cbn [fst]. rewrite Hfind. exact (f_equal fst (viaClient_eq _ _ _ _ _ _ E)).
Qed.
Lemma writeNamed h s name reg value : banked h s → findRegister h name = Some reg → bytes_ok value → len value = (gr_bits reg + 7) / 8 →
  ∃ h' s', writeRegisterNamed name value (h, idle s) = (inr (), (h', idle s')) ∧ banked h' s' ∧
    (readRegisterNamed name (h', idle s')).1 = inr value ∧ ∀ other, other ≠ name → (readRegisterNamed other (h', idle s')).1 = (readRegisterNamed other (h, idle s)).1.
Proof using laws.
  intros Hb Hfind Hv Hlv. destruct (findRegister_Some _ _ _ Hfind) as [Hin Hname]. destruct (banked_split h s reg Hb Hin) as (l1 & l2 & Hl & Hn & Hf & Hd).
  destruct (writeRegister_ret l1 l2 reg Hn Hf (h_client h) s value Hd Hv Hlv) as (c' & s' & E & (Hag' & Hl' & Hsum' & Hfit') & Hbank).
  assert (banked (withClient c' h) s') as Hb'.
  { destruct Hb as [? ? Hperm ? ?]. split; cbn [withClient h_client h_target]; try done; rewrite Hl'; [by rewrite <- Hl|done]. }
  exists (withClient c' h), s'. split; [unfold writeRegisterNamed; cbn [fst]; rewrite Hfind; by apply viaClient_eq|]. split; [done|].
  destruct (width_ok l1 l2 reg Hf) as (Hw1 & Hw2 & Hw3). destruct Hd as (_ & _ & Hsum & _). split.
  - rewrite (readNamed _ _ _ reg l1 l2); [|done|done|done]. rewrite Hbank. f_equal. unfold slice. rewrite drop_app_length' by (rewrite length_take; unfold len in *; lia).
    by rewrite take_app_length' by (unfold len in *; lia).
  - intros other Hne. destruct (findRegister h other) as [q|] eqn:Hq; [|unfold readRegisterNamed; cbn [fst]; change (findRegister (withClient c' h) other) with (findRegister h other); by rewrite Hq].
    destruct (findRegister_Some _ _ _ Hq) as [Hqin Hqname]. destruct (banked_split h s q Hb Hqin) as (k1 & k2 & Hk & Hkn & Hkf & _).
    rewrite (readNamed _ _ _ q k1 k2 Hb' Hq) by (by rewrite <- Hk, Hl). rewrite (readNamed _ _ _ q k1 k2 Hb Hq) by done. rewrite Hbank. f_equal. rewrite <- Hlv.
    destruct (width_ok k1 k2 q Hkf) as (? & ? & ?). apply slice_outside; try lia. rewrite Hlv. apply (apart l1 l2 k1 k2); [congruence|congruence|]. eapply Forall_impl; [exact Hf|]. intros x [? _]. lia.
Qed.
End Registers.

(** ** Connecting *)

Section Steady.
Context {P : Peer}.

(** A computation that leaves an open client as it is when it succeeds. *)
Definition steady {A} (m : gdb A) : Prop := ∀ s a s', m s = (inr a, s') → s'.1 = s.1.
Lemma steady_bind {A B} (m : gdb A) (k : A → gdb B) : steady m → (∀ a, steady (k a)) → steady (m ≫= k).
Proof.
  intros Hm Hk s b s' E. unfold mbind, gdb_bind in E. destruct (m s) as [[e|a] s1] eqn:E1; [done|]. rewrite <- (Hm _ _ _ E1). by eapply Hk.
Qed.
Lemma steady_ret {A} (a : A) : steady (mret a).
Proof. by intros s b s' [= _ <-]. Qed.
Lemma steady_fail {A} e : steady (failWith (A := A) e).
Proof. by intros s a s'. Qed.
Lemma steady_lift {A} (r : bytes + A) : steady (lift r).
Proof. by intros s a s' [= _ <-]. Qed.
Lemma steady_observe {A} (f : Client * peer → A) : steady (λ s, (inr (f s), s)).
Proof. by intros s a s' [= _ <-]. Qed.
Lemma steady_keeps {A} (m : gdb A) : (∀ c, keeps (λ c', c' = c) m (λ _, True)) → steady m.
Proof. intros H s a s' E. destruct (H s.1 s eq_refl) as [Hc _]. by rewrite E in Hc. Qed.
Lemma closing_inr {A} (m : gdb A) s a s' : closing m s = (inr a, s') → m s = (inr a, s').
Proof. unfold closing, mbind, gdb_bind, attempt. destruct (m s) as [[e|b] s1]; [done|]. by intros [= -> ->]. Qed.
Lemma steady_closing {A} (m : gdb A) : steady m → steady (closing m).
Proof. intros H s a s' E%closing_inr. by eapply H. Qed.
Lemma steady_send data : steady (sendAll data).
Proof. apply steady_keeps. intros c. apply keeps_send. Qed.
Lemma steady_recv : steady readByte.
Proof. apply steady_keeps. intros c. apply keeps_recv. Qed.
Lemma steady_get : steady getClient.
Proof. apply steady_observe. Qed.
Lemma steady_reject {A} e : steady (close;; failWith (A := A) e).
Proof. by intros s a s'. Qed.
End Steady.
Ltac steady :=
  repeat match goal with
  | |- steady (mbind _ close) => apply steady_reject
  | |- steady (mbind _ _) => apply steady_bind; [|intros ?]
  | |- steady (mret _) => apply steady_ret
  | |- steady (failWith _) => apply steady_fail
  | |- steady getClient => apply steady_get
  | |- steady (sendAll _) => apply steady_send
  | |- steady readByte => apply steady_recv
  | |- steady (lift _) => apply steady_lift
  | |- steady expired => apply steady_observe
  | |- steady (λ s, (inr _, s)) => apply steady_observe
  | |- steady (closing _) => apply steady_closing
  | |- steady (if ?b then _ else _) => destruct b
  | |- steady (match ?x with _ => _ end) => destruct x
  end.

Section Session.
Context {P : Peer} {X : XmlReader} `{!StdSort}.

Lemma steady_sendPacket payload : steady (sendPacket payload).
Proof.
  assert (∀ n packet, steady (transmit n packet)) as Ht by (intros n packet; induction n as [|n IH]; cbn [transmit]; steady; exact IH).
  assert (∀ n, steady (responseLoop n)) as Hr.
  { intros n. induction n as [|n IH]; cbn [responseLoop]; steady; [apply steady_keeps; intros c; apply keeps_readPacket|exact IH]. }
  unfold sendPacket. steady; apply Ht || apply Hr.
Qed.
Lemma sendPacket_connected payload s a s' : sendPacket payload s = (inr a, s') → c_connected s.1 = true.
Proof. unfold sendPacket. unfold mbind, gdb_bind, getClient. cbn [fst]. by destruct (c_connected s.1). Qed.
Lemma steady_objectLoop fuel object annex chunk data : steady (objectLoop fuel object annex chunk data).
Proof. revert data. induction fuel as [|fuel IH]; intros data; cbn [objectLoop]; steady; [apply steady_sendPacket|apply IH]. Qed.
Lemma steady_readObject object annex : steady (readObject object annex).
Proof. unfold readObject. steady. apply steady_objectLoop. Qed.
Lemma steady_visit (ld : bytes → Described → gdb Described) : (∀ annex d, steady (ld annex d)) → ∀ element around nesting d, steady (visit ld around nesting element d).
Proof.
  intros Hld element. induction element as [name attributes text children IH] using XmlElement_rect'. intros around nesting d. cbn [visit]. steady; [apply Hld|].
  match goal with |- steady (_ _ ?x) => generalize x end. generalize (xmlElement name attributes text children). intros e.
  induction IH as [|child children Hchild _ IHl]; intros x; [apply steady_ret|]. apply steady_bind; [apply Hchild|apply IHl].
Qed.
Lemma steady_load fuel depth annex d : steady (load fuel depth annex d).
Proof.
  revert depth annex d. induction fuel as [|fuel IH]; intros depth annex d; cbn [load]; steady; [apply steady_readObject|]. by apply steady_visit.
Qed.
(** What succeeds has spoken to the other side. *)
Lemma bind_inr {A B} (m : gdb A) (k : A → gdb B) s b s' : (m ≫= k) s = (inr b, s') → ∃ a s1, m s = (inr a, s1) ∧ k a s1 = (inr b, s').
Proof. unfold mbind, gdb_bind. destruct (m s) as [[e|a] s1]; [done|]. intros E. by exists a, s1. Qed.
Lemma objectLoop_connected fuel object annex chunk data s r s' : objectLoop fuel object annex chunk data s = (inr r, s') → c_connected s.1 = true.
Proof.
  destruct fuel as [|fuel]; [done|]. cbn [objectLoop]. intros (late & s1 & [= <- <-] & E)%bind_inr. destruct (peer_expired s.2); [done|].
  apply bind_inr in E as (response & s2 & E & _). by eapply sendPacket_connected.
Qed.
Lemma readObject_connected object annex s r s' : readObject object annex s = (inr r, s') → c_connected s.1 = true.
Proof.
  unfold readObject. generalize (Datatypes.S (Datatypes.S (Z.to_nat maxObject))). intros fuel. destruct (_ || _); [done|]. intros (c & s1 & [= <- <-] & E)%bind_inr. destruct (negb _); [done|].
  by eapply objectLoop_connected.
Qed.
Lemma load_connected fuel depth annex d s r s' : load fuel depth annex d s = (inr r, s') → c_connected s.1 = true.
Proof.
  destruct fuel as [|fuel]; [done|]. cbn [load]. intros (late & s1 & [= <- <-] & E)%bind_inr. destruct (peer_expired s.2); [done|]. destruct (_ || _); [done|].
  apply bind_inr in E as (xml & s1 & E & _). by eapply readObject_connected.
Qed.

(** ** The regions of a target *)

Definition region_ok (r : MemoryRegion) : Prop := 0 ≤ region_base r ∧ 0 < region_size r ∧ region_base r + region_size r ≤ UINTPTR_MAX.
Definition before (r r' : MemoryRegion) : Prop := region_base r + region_size r ≤ region_base r'.
Lemma validRegion_ok r : 0 ≤ region_base r → 0 ≤ region_size r → validRegion r = true → region_ok r.
Proof. unfold validRegion. rewrite andb_true_iff, negb_true_iff, Z.eqb_neq, Z.leb_le. unfold region_ok. lia. Qed.
Lemma from_chars_bound w base text v rest : 2 ≤ base → from_chars w base text = Some (v, rest) → 0 ≤ v < 2 ^ w.
Proof.
  intros Hb. unfold from_chars. pose proof (scan_digits_ge base 0 text Hb ltac:(lia)) as Hge. destruct (scan_digits base 0 text) as [n rest']. case_bool_decide; [done|].
  destruct (Z.ltb_spec n (2 ^ w)); [|done]. intros [= -> ->]. cbn in Hge. lia.
Qed.
Lemma addressNumber_bound text v : addressNumber text = Some v → is_u64 v.
Proof.
  unfold addressNumber. destruct text as [[|c s]|]; [done| |done]. destruct (_ || _); (destruct (from_chars 64 _ _) as [[n [|]]|] eqn:E; [|done..]); intros [= <-]; by apply from_chars_bound in E.
Qed.
Lemma mapRegion_ok memory count r : mapRegion memory count = inr r → region_ok r ∧ count < 4096.
Proof.
  unfold mapRegion. destruct (addressNumber (xmlAttribute memory (bs "start"))) as [base|] eqn:Eb; [|done]. destruct (addressNumber (xmlAttribute memory (bs "length"))) as [length|] eqn:El; [|done].
  destruct (negb _); [done|]. destruct (negb (validRegion _) || _) eqn:E; [done|]. apply orb_false_iff in E as [Hv Hc]. apply negb_false_iff in Hv. apply Z.leb_gt in Hc. intros [= <-].
  apply addressNumber_bound in Eb, El. split; [|lia]. apply validRegion_ok; cbn; [lia_w|lia_w|exact Hv].
Qed.
Lemma mapRegions_ok memories regions l : mapRegions memories regions = inr l → Forall region_ok regions → len regions ≤ 4096 → Forall region_ok l ∧ len l ≤ 4096.
Proof.
  revert regions. induction memories as [|memory memories IH]; intros regions; cbn [mapRegions]; [by intros [= <-]|]. destruct (mapRegion memory _) as [e|r] eqn:E; [done|]. apply mapRegion_ok in E as [Hr Hc].
  intros El Hok Hlen. apply (IH (regions ++ [r])); [done| |rewrite len_snoc; lia]. apply Forall_app. split; [done|by apply Forall_singleton].
Qed.
(** Sorted regions of which none reaches into the next one are disjoint. *)
Lemma overlapping_before l : sortedBy region_base l → Forall region_ok l → overlappingRegions l = false → StronglySorted before l.
Proof.
  induction 1 as [|r l Hs IH Hr]; [constructor|]. intros [Hok Hoks]%Forall_cons_1 Hov. destruct l as [|r' l]; [repeat constructor|]. cbn [overlappingRegions] in Hov. apply orb_false_iff in Hov as [Hlt Hov].
  destruct Hok as (? & ? & ?). rewrite wrap_small in Hlt by lia_w. apply Z.ltb_ge in Hlt. specialize (IH Hoks Hov). constructor; [done|]. constructor; [done|].
  apply StronglySorted_inv in Hs as [_ Hs]. eapply Forall_impl; [exact Hs|]. intros x Hx. cbn in Hx. unfold before. lia.
Qed.
(** The lookup of an address finds the region it is in. *)
Lemma find_region l address r : StronglySorted before l → Forall region_ok l →
  List.find (λ r, (region_base r <=? address) && (address - region_base r <? region_size r)) l = Some r ↔ r ∈ l ∧ region_base r ≤ address < region_base r + region_size r.
Proof.
  intros Hs Hok. split.
  - intros [Hin Hr]%find_some. rewrite list_elem_of_In. rewrite andb_true_iff, Z.leb_le, Z.ltb_lt in Hr. split; [done|lia].
  - intros [Hin Hr]. induction Hs as [|x l Hs IH Hx]; [by apply not_elem_of_nil in Hin|]. apply Forall_cons_1 in Hok as [(Hx1 & Hx2 & Hx3) Hok]. cbn [List.find].
    apply elem_of_cons in Hin as [->|Hin].
    + rewrite (proj2 (Z.leb_le _ _)), (proj2 (Z.ltb_lt _ _)) by lia. done.
    + rewrite Forall_forall in Hx. specialize (Hx r Hin). unfold before in Hx. rewrite (proj2 (Z.ltb_ge _ _)), andb_false_r by lia. by apply IH.
Qed.

(** What [connect] guarantees of a process. *)
Record accepted (o : GdbProcessOptions) (h : GdbProcess) : Prop := {
  ac_client : client_ok (h_client h);
  ac_connected : c_connected (h_client h) = true;
  ac_registers : registers_ok (gt_registers (h_target h)) ∧ gt_registers (h_target h) ≠ [];
  ac_layout : c_registerLayout (h_client h) ≡ₚ gt_registers (h_target h);
  ac_machine : machineWith o (targetMachine (gt_architecture (h_target h)) (gt_osAbi (h_target h))) = Some (gt_machine (h_target h));
  ac_regions : StronglySorted before (h_regions h) ∧ Forall region_ok (h_regions h) ∧ len (h_regions h) ≤ 4096;
  ac_given : op_regions o ≠ [] → h_regions h ≡ₚ op_regions o
}.
Lemma memoryMap_ok given s l s' : memoryMap given s = (inr l, s') → Forall region_ok given → len given ≤ 4096 →
  s'.1 = s.1 ∧ Forall region_ok l ∧ len l ≤ 4096 ∧ (given ≠ [] → l = given).
Proof.
  intros E Hg Hlen. assert (steady (memoryMap given)) as Hst by (unfold memoryMap; steady; apply steady_readObject). split; [by eapply Hst|]. revert E. unfold memoryMap.
  intros (c & s1 & [= <- <-] & E)%bind_inr. destruct (bool_decide_reflect (given = [])) as [->|Hne]; cbn [andb] in E; [|by injection E as <- <-].
  destruct (supportsFeature _ _); [|by injection E as <- <-]. apply bind_inr in E as (xml & s2 & _ & E). destruct (let? top := _ in _) as [map|]; [|done].
  injection E as E <-. destruct (mapRegions_ok _ _ _ E) as [? ?]; [constructor|done|]. by split_and!.
Qed.
Lemma session_accepts o s h s' : client_ok s.1 → session o s = (inr h, s') → Forall region_ok (op_regions o) → len (op_regions o) ≤ 4096 → accepted o h ∧ s'.1 = h_client h.
Proof.
  intros Hs E Hg Hlen. unfold session in E. apply bind_inr in E as ([] & s1 & E1 & E). pose proof (negotiate_keeps s Hs) as [H1 _]. rewrite E1 in H1. cbn [fst snd] in H1.
  apply bind_inr in E as (stopped & s2 & E2 & E). apply steady_sendPacket in E2. destruct (negb (stoppedReply stopped)); [done|]. rewrite <- E2 in H1. clear E1 E2.
  apply bind_inr in E as ([[[architecture osAbi] machine] registers] & [c3 p3] & E3 & E). destruct s2 as [c2 p2]. pose proof (describeTarget_ok (c2, p2) H1) as [H3 _]. rewrite E3 in H3. cbn [fst snd] in H3.
  destruct (describeTarget_layout _ _ _ _ _ _ _ _ H1 E3) as (Hr & Hne & -> & Hl & _).
  assert (c_connected c3 = true) as Hc3. { apply load_end in E3 as (d & c & p & E3 & _ & [= -> _]). pose proof (load_connected _ _ _ _ _ _ _ E3) as Hc. apply steady_load in E3. cbn [fst] in E3, Hc. cbn. by rewrite E3. }
  destruct (machineWith o _) as [machine|] eqn:Em; [|done]. apply bind_inr in E as (given & [c4 p4] & E4 & E). destruct (memoryMap_ok _ _ _ _ E4 Hg Hlen) as (Hc4 & Hgok & Hglen & Hgiven). cbn [fst] in Hc4. subst c4.
  destruct (overlappingRegions _) eqn:Eo; [done|]. apply bind_inr in E as (cancelled & s5 & [= <- <-] & E). destruct (peer_cancelled _); [done|].
  apply bind_inr in E as (c & s6 & [= <- <-] & [= <- <-]). pose proof (std_sort_perm (byKey region_base) given) as Hp. split; [|done]. split; cbn; try done.
  - assert (Forall region_ok (std_sort (byKey region_base) given)) as Hsok by (by rewrite Hp). split; [|split; [done|unfold len in *; by rewrite Hp]].
    apply overlapping_before; [apply std_sort_key|done|done].
  - intros Hne'. by rewrite Hp, Hgiven.
Qed.
Lemma connect_accepts endpoint o h p : Forall (λ r, 0 ≤ region_base r ∧ 0 ≤ region_size r) (op_regions o) → connect endpoint o = inr (h, p) → accepted o h.
Proof.
  intros Hu. unfold connect. destruct (_ && _); [done|]. destruct (existsb _ _) eqn:Ev; [done|]. destruct (Z.ltb_spec 4096 (len (op_regions o))); [done|]. destruct endpoint as [e|p0]; [done|].
  destruct (session _ _) as [[e|h'] [c p']] eqn:E; [done|]. intros [= -> ->]. apply session_accepts in E as [? _]; [done|exact connected_ok| |done].
  apply Forall_forall. intros r Hr. rewrite Forall_forall in Hu. destruct (Hu r Hr). apply (existsb_elem _ _ r) in Ev; [|done]. apply negb_false_iff in Ev. by apply validRegion_ok.
Qed.
End Session.

(** ** What a process promises *)

(** C27: a read of a process behind a conforming stub returns the bytes that can be read from
    the address on, whatever the transfers and packets it takes, and an I/O error when there
    are none; only the last error of the process changes. *)
Theorem read_exact {Sb : Stub} {laws : StubLaws Sb} {memory : MemoryStub Sb} h s address size :
  ready h s → 0 ≤ address → 0 ≤ size → address + size ≤ 2 ^ 64 →
  let l := readable (stub_byte s) address (Z.to_nat size) in
  ∃ h', sameButError h h' ∧ read true address size (h, idle s) = ((if (0 <? size) && bool_decide (l = []) then inl IoError else inr l), (h', idle s)).
Proof. apply read_ret. Qed.

Lemma wrote_readable {Sb : Stub} {memory : MemoryStub Sb} s s' address data : wrote s s' address data (len data) → readable (stub_byte s') address (length data) = data.
Proof.
  intros [_ _ Hb]. apply readable_data. intros i Hi. rewrite Hb. unfold lget, len in *. rewrite (proj2 (Z.leb_le _ _)), (proj2 (Z.ltb_lt _ _)) by lia. cbn [andb].
  rewrite (proj2 (Z.leb_le 0 _)) by lia. f_equal. lia.
Qed.
(** C28: a write reports how much it wrote: that much of the data is in memory, and no byte
    outside the data has changed; of the data after it only the bytes of one request, which
    the stub refused, may have been written in part, as the protocol allows.  A write that
    reports everything has changed exactly the bytes of the data, and a read gives them
    back; and where the stub accepts every part of the data everything is written. *)
Theorem write_reads_back {Sb : Stub} {laws : StubLaws Sb} {memory : MemoryStub Sb} h s address data :
  ready h s → 0 ≤ address → address + len data ≤ 2 ^ 64 → bytes_ok data →
  ∃ h' s' n r, write address (len data) (Some data) (h, idle s) = (r, (h', idle s')) ∧
    wroteSome s s' address data n (blockSize (h_client h)) ∧ (r = inr n ∨ n = 0 ∧ r = inl IoError) ∧
    (accepts address data → r = inr (len data)) ∧
    (r = inr (len data) → wrote s s' address data (len data) ∧ (read true address (len data) (h', idle s')).1 = inr data).
Proof.
  intros Hr Ha Hw Hok. destruct (write_ret h s address data Hr Ha Hw Hok) as (h' & s' & n & r & E & [e ->] & Hag & Hwr & Hrn & Hall). eexists _, s', n, r. split; [exact E|].
  split_and!; [done|done|done|]. intros ->. assert (n = len data) as -> by (destruct Hrn as [[= ->]|[_ Hrn]]; done). apply wroteSome_all in Hwr. split; [done|]. pose proof (wrote_readable _ _ _ _ Hwr) as Hread.
  destruct (read_ret (withError e h) s' address (len data) Hag Ha (len_nonneg data) Hw) as (h'' & _ & E''). rewrite E''. unfold len. rewrite Nat2Z.id, Hread. cbn [fst].
  destruct data; [done|]. by rewrite bool_decide_false, andb_false_r.
Qed.

(** A register written by its name, on a stub that only knows the whole bank, holds the
    value afterwards, and what a read of any other name gives does not change. *)
Theorem writeRegister_frame {Sb : Stub} {laws : StubLaws Sb} {registers : RegisterStub Sb} h s name reg value :
  banked h s → findRegister h name = Some reg → bytes_ok value → len value = (gr_bits reg + 7) / 8 →
  ∃ h' s', writeRegisterNamed name value (h, idle s) = (inr (), (h', idle s')) ∧ banked h' s' ∧
    (readRegisterNamed name (h', idle s')).1 = inr value ∧ ∀ other, other ≠ name → (readRegisterNamed other (h', idle s')).1 = (readRegisterNamed other (h, idle s)).1.
Proof. apply writeNamed. Qed.

(** A process that is connected has described its registers, knows their bank in the
    order of their numbers, has the machine its description and the options agree on, and
    at most 4096 disjoint regions, in order, that do not wrap; an address is looked up in
    the one region it is in. *)
Theorem connected_process {P : Peer} {X : XmlReader} `{!StdSort} endpoint o h p :
  Forall (λ r, 0 ≤ region_base r ∧ 0 ≤ region_size r) (op_regions o) → connect endpoint o = inr (h, p) →
  accepted o h ∧ ∀ address r, queryRegion h address = Some r ↔ r ∈ h_regions h ∧ region_base r ≤ address < region_base r + region_size r.
Proof.
  intros Hu E. pose proof (connect_accepts _ _ _ _ Hu E) as Hac. split; [done|]. intros address r. destruct (ac_regions _ _ Hac) as (Hs & Hok & _).
  unfold queryRegion, queryRegions. rewrite (ac_connected _ _ Hac). by apply find_region.
Qed.

(** ** Instances *)

Definition exampleProcess : GdbProcess :=
  mkGdbProcess (withLayout exampleLayout exampleClient) (mkGdbTarget (bs "arm") [] (targetMachine (bs "arm") []) exampleLayout) RuntimeUnknown [] [] true.
Lemma example_ready : ready (Sb := sampleStub) exampleProcess exampleStub.
Proof. split_and!; done. Qed.
Lemma example_readable : readable (stub_byte (Sb := sampleStub) exampleStub) 4130 (Z.to_nat 40) = [42; 125; 36; 255; 0; 7].
Proof. by vm_compute. Qed.
Lemma read_exact_witness : ∃ h', read (P := stub_peer) true 4130 40 (exampleProcess, idle (Sb := sampleStub) exampleStub) = (inr [42; 125; 36; 255; 0; 7], (h', idle (Sb := sampleStub) exampleStub)).
Proof.
  pose proof (read_exact (Sb := sampleStub) exampleProcess exampleStub 4130 40 example_ready) as H. cbv zeta in H. rewrite example_readable in H.
  destruct H as (h' & _ & H); [lia|lia|by vm_compute|]. exists h'. exact H.
Defined.
(** A write that is done; and one that runs past the end of the memory: it fails, and the
    stub has stored the two bytes that fit. *)
Lemma write_reads_back_witness :
  (∃ h' s' n r, write (P := stub_peer) 4100 3 (Some [9; 8; 7]) (exampleProcess, idle (Sb := sampleStub) exampleStub) = (r, (h', idle (Sb := sampleStub) s')) ∧
    wroteSome (Sb := sampleStub) exampleStub s' 4100 [9; 8; 7] n 12) ∧
  (∃ h' s', write (P := stub_peer) 4134 4 (Some [1; 2; 3; 4]) (exampleProcess, idle (Sb := sampleStub) exampleStub) = (inl IoError, (h', idle (Sb := sampleStub) s')) ∧
    wroteSome (Sb := sampleStub) exampleStub s' 4134 [1; 2; 3; 4] 0 12 ∧ stub_byte (Sb := sampleStub) s' 4135 = Some 2).
Proof.
  split.
  - destruct (write_reads_back (Sb := sampleStub) exampleProcess exampleStub 4100 [9; 8; 7] example_ready) as (h' & s' & n & r & E & Hw & _);
      [lia|by vm_compute|repeat constructor; by vm_compute|]. exists h', s', n, r. exact (conj E Hw).
  - destruct (write_reads_back (Sb := sampleStub) exampleProcess exampleStub 4134 [1; 2; 3; 4] example_ready) as (h' & s' & n & r & E & Hw & Hr & _);
      [lia|by vm_compute|repeat constructor; by vm_compute|].
    assert (r = inl IoError) as -> by (change r with (fst (r, (h', idle (Sb := sampleStub) s'))); rewrite <- E; by vm_compute).
    assert (n = 0) as -> by (by destruct Hr as [?|[? _]]). exists h', s'. split; [exact E|]. split; [exact Hw|].
    change s' with (ln_stub (snd (snd ((inl IoError, (h', idle (Sb := sampleStub) s')) : (Errc + Z) * (GdbProcess * Line))))). rewrite <- E. by vm_compute.
Defined.
Lemma example_banked : banked (Sb := sampleStub) exampleProcess exampleStub.
Proof.
  split; [exact example_ready| |done|done|done]. split; [decide_by_compute|]. split; [decide_by_compute|]. split; [repeat constructor; done|done].
Qed.
Lemma writeRegister_frame_witness : ∃ h' s', writeRegisterNamed (P := stub_peer) (bs "r0") [1; 1; 2; 2; 3; 3; 4; 4] (exampleProcess, idle (Sb := sampleStub) exampleStub) = (inr (), (h', idle (Sb := sampleStub) s')) ∧
  (readRegisterNamed (P := stub_peer) (bs "cpsr") (h', idle (Sb := sampleStub) s')).1 = (readRegisterNamed (P := stub_peer) (bs "cpsr") (exampleProcess, idle (Sb := sampleStub) exampleStub)).1.
Proof.
  destruct (writeRegister_frame (Sb := sampleStub) exampleProcess exampleStub (bs "r0") (mkGdbRegister (bs "r0") 5 64 []) [1; 1; 2; 2; 3; 3; 4; 4] example_banked) as (h' & s' & E & _ & _ & Hother);
    [by vm_compute|repeat constructor; done|done|]. exists h', s'. exact (conj E (Hother (bs "cpsr") ltac:(by vm_compute))).
Defined.
Definition sessionScript : bytes := reply "PacketSize=1000;qXfer:features:read+;qXfer:memory-map:read+" ++ reply "T05thread:1;" ++ reply "l<target/>" ++ reply "l<memory-map/>".
Definition sampleOptions : GdbProcessOptions := mkGdbOptions OrderUnknown 0 RuntimeUnknown [].
Definition sampleSession : bytes + GdbProcess * bytes := connect (P := scriptPeer) (X := sampleReader) (inr sessionScript) sampleOptions.
Definition sampleProcess : GdbProcess := match sampleSession with inr (h, _) => h | inl _ => exampleProcess end.
Lemma sampleSession_value : sampleSession = inr (sampleProcess, []).
Proof. by vm_compute. Qed.
Lemma connected_process_witness : queryRegion sampleProcess 4100 = Some (mkMemoryRegion 4096 4096 3 MemPrivate MemCommitted [] None) ∧ accepted sampleOptions sampleProcess.
Proof.
  destruct (connected_process (P := scriptPeer) (X := sampleReader) (inr sessionScript) sampleOptions sampleProcess [] ltac:(constructor) sampleSession_value) as [Hac Hq].
  split; [|exact Hac]. apply Hq. split; [|done]. by vm_compute; left.
Defined.
