(* ===== verification/Aarch64.v ===== *)
(** * A fragment of the A64 instruction set

    The instructions the relocator of [src/arch/aarch64_relocator.cpp] reads and writes, with
    the meaning the architecture gives them: the specification [Relocator] is proved
    against.  A field of an instruction is named by its lowest bit and its length. *)

From S2P Require Import Prelude.
#[local] Open Scope Z_scope.

(** ** Fields *)

Definition field (w lo n : Z) : Z := Z.land (Z.shiftr w lo) (Z.ones n).
(** The signed value of an [n]-bit field. *)
Definition signExtend (v n : Z) : Z := if Z.testbit v (n - 1) then v - 2 ^ n else v.

Lemma field_bound w lo n : 0 ≤ n → 0 ≤ field w lo n < 2 ^ n.
Proof. intros Hn. unfold field. rewrite Z.land_ones by done. apply Z.mod_pos_bound. apply Z.pow_pos_nonneg; lia. Qed.
Lemma testbit_field w lo n i : 0 ≤ lo → 0 ≤ n → 0 ≤ i → Z.testbit (field w lo n) i = (i <? n) && Z.testbit w (lo + i).
Proof.
  intros Hlo Hn Hi. unfold field. rewrite Z.land_spec, Z.shiftr_spec by done. rewrite Z.testbit_ones_nonneg by done. rewrite andb_comm. f_equal. f_equal. lia.
Qed.
Lemma field_lor a b lo n : field (Z.lor a b) lo n = Z.lor (field a lo n) (field b lo n).
Proof. unfold field. by rewrite Z.shiftr_lor, Z.land_lor_distr_l. Qed.
Lemma field_lxor a b lo n : 0 ≤ lo → 0 ≤ n → field (Z.lxor a b) lo n = Z.lxor (field a lo n) (field b lo n).
Proof. intros Hlo Hn. bits i. rewrite Z.lxor_spec, !testbit_field by done. rewrite Z.lxor_spec. by destruct (i <? n). Qed.
Lemma field_ldiff a b lo n : 0 ≤ lo → 0 ≤ n → field (Z.land a (Z.lnot b)) lo n = Z.ldiff (field a lo n) (field b lo n).
Proof. intros Hlo Hn. bits i. rewrite Z.ldiff_spec, !testbit_field, Z.land_spec, Z.lnot_spec by lia. by destruct (i <? n). Qed.
(** A field that was put at a place. *)
Lemma field_shiftl v k lo n : 0 ≤ v < 2 ^ n → 0 ≤ n → lo = k → 0 ≤ k → field (Z.shiftl v k) lo n = v.
Proof. intros Hv Hn -> Hk. unfold field. rewrite Z.shiftr_shiftl_l, Z.sub_diag, Z.shiftl_0_r by done. rewrite Z.land_ones by done. by apply Z.mod_small. Qed.
Lemma field_shiftl_above v k lo n : lo + n ≤ k → 0 ≤ lo → 0 ≤ n → field (Z.shiftl v k) lo n = 0.
Proof.
  intros Hk Hlo Hn. bits i. rewrite testbit_field, Z.bits_0 by done. destruct (Z.ltb_spec i n); [|done]. cbn [andb]. rewrite Z.shiftl_spec by lia. apply Z.testbit_neg_r. lia.
Qed.
Lemma field_shiftl_below v k m lo n : 0 ≤ v < 2 ^ m → 0 ≤ k → 0 ≤ m → k + m ≤ lo → 0 ≤ n → field (Z.shiftl v k) lo n = 0.
Proof.
  intros Hv Hk Hm Hlo Hn. bits i. rewrite testbit_field, Z.bits_0 by lia. destruct (i <? n); [|done]. cbn [andb]. rewrite Z.shiftl_spec by lia. apply (testbit_high m); [done|lia].
Qed.
Lemma field_small v lo n m : 0 ≤ v < 2 ^ m → 0 ≤ m → m ≤ lo → 0 ≤ n → field v lo n = 0.
Proof. intros. rewrite <- (Z.shiftl_0_r v). apply (field_shiftl_below v 0 m); lia. Qed.
Lemma field_self v n : 0 ≤ v < 2 ^ n → 0 ≤ n → field v 0 n = v.
Proof. intros. rewrite <- (Z.shiftl_0_r v) at 1. by apply field_shiftl. Qed.
(** The test of a contiguous mask. *)
Lemma land_mask w lo n : 0 ≤ lo → 0 ≤ n → Z.land w (Z.shiftl (Z.ones n) lo) = Z.shiftl (field w lo n) lo.
Proof.
  intros Hlo Hn. bits i. rewrite Z.land_spec, !Z.shiftl_spec by done. destruct (Z.leb_spec lo i).
  - rewrite testbit_field, Z.testbit_ones_nonneg by lia. rewrite andb_comm. f_equal. f_equal. lia.
  - rewrite !(Z.testbit_neg_r _ (i - lo)) by lia. apply andb_false_r.
Qed.
Lemma mask_field w lo n v : 0 ≤ lo → 0 ≤ n → Z.land w (Z.shiftl (Z.ones n) lo) = Z.shiftl v lo → field w lo n = v.
Proof. intros Hlo Hn. rewrite land_mask by done. rewrite !Z.shiftl_mul_pow2 by done. intros E. apply Z.mul_cancel_r in E; [done|]. apply Z.pow_nonzero; lia. Qed.

(** ** Machines *)

(** The state but for the general registers and the program counter, with the conditions of
    its flags, what a load gives an X register and what a load or a prefetch changes. *)
Class A64Env := {
  env : Type;
  env_condition : Z → env → bool;
  env_value : Z → Z → env → Z;  (* of [opc], at an address *)
  env_access : bool → Z → Z → Z → env → env  (* of V, [opc], the register field, at an address *)
}.
(** Conditions come in pairs, but the last two always hold. *)
Class A64Laws (E : A64Env) : Prop := {
  condition_opposite c e : 0 ≤ c < 14 → env_condition (Z.lxor c 1) e = negb (env_condition c e);
  condition_always c e : 14 ≤ c < 16 → env_condition c e = true
}.
Record Cpu {E : A64Env} := mkCpu { xs : Z → Z; pc : Z; other : env }.
Arguments mkCpu {E} xs pc other.

Section Semantics.
Context {E : A64Env}.

Definition getX (s : Cpu) (r : Z) : Z := if r =? 31 then 0 else xs s r.
Definition setX (r v : Z) (x : Z → Z) : Z → Z := if r =? 31 then x else λ k, if k =? r then v else x k.
Definition next (s : Cpu) : Z := u64 (pc s + 4).
Definition jump (s : Cpu) (words : Z) : Z := u64 (pc s + 4 * words).

(** When the conditional branches are taken. *)
Definition takenConditional (w : Z) (s : Cpu) : bool := env_condition (field w 0 4) (other s).
Definition takenCompare (w : Z) (s : Cpu) : bool :=
  let v := if field w 31 1 =? 0 then field (getX s (field w 0 5)) 0 32 else getX s (field w 0 5) in Bool.eqb (v =? 0) (field w 24 1 =? 0).
Definition takenTest (w : Z) (s : Cpu) : bool :=
  Bool.eqb (negb (Z.testbit (getX s (field w 0 5)) (field w 31 1 * 32 + field w 19 5))) (field w 24 1 =? 0).

(** The loads of a whole register from an address without an offset: V and the [opc] of the
    literal form. *)
Definition loadForm (size v opc : Z) : option (bool * Z) :=
  match size, v, opc with
  | 2, 0, 1 => Some (false, 0)
  | 3, 0, 1 => Some (false, 1)
  | 2, 0, 2 => Some (false, 2)
  | 3, 0, 2 => Some (false, 3)
  | 2, 1, 1 => Some (true, 0)
  | 3, 1, 1 => Some (true, 1)
  | 0, 1, 3 => Some (true, 2)
  | _, _, _ => None
  end.
(** The instruction [w]; [None] outside the fragment. *)
Definition execute (w : Z) (s : Cpu) : option Cpu :=
  let rd := field w 0 5 in
  let rn := field w 5 5 in
  let imm19 := signExtend (field w 5 19) 19 in
  let go taken words := Some (mkCpu (xs s) (if taken : bool then jump s words else next s) (other s)) in
  if w =? 0xd503201f then Some (mkCpu (xs s) (next s) (other s))
  else if field w 24 5 =? 16 then
    let imm := signExtend (field w 5 19 * 4 + field w 29 2) 21 in
    let v := if field w 31 1 =? 0 then u64 (pc s + imm) else u64 ((pc s - pc s mod 4096) + 4096 * imm) in
    Some (mkCpu (setX rd v (xs s)) (next s) (other s))
  else if field w 26 6 =? 5 then go true (signExtend (field w 0 26) 26)
  else if field w 26 6 =? 37 then Some (mkCpu (setX 30 (next s) (xs s)) (jump s (signExtend (field w 0 26) 26)) (other s))
  else if field w 24 8 =? 84 then go (takenConditional w s) imm19
  else if field w 25 6 =? 26 then go (takenCompare w s) imm19
  else if field w 25 6 =? 27 then go (takenTest w s) (signExtend (field w 5 14) 14)
  else if (field w 27 3 =? 3) && (field w 24 2 =? 0) then
    let v := negb (field w 26 1 =? 0) in
    let opc := field w 30 2 in
    let a := jump s imm19 in
    if v && (opc =? 3) then None else
    Some (mkCpu (if negb v && (opc <? 3) then setX rd (env_value opc a (other s)) (xs s) else xs s) (next s) (env_access v opc rd a (other s)))
  else if field w 23 9 =? 421 then
    Some (mkCpu (setX rd (Z.shiftl (field w 5 16) (16 * field w 21 2)) (xs s)) (next s) (other s))
  else if field w 23 9 =? 485 then
    let k := 16 * field w 21 2 in
    Some (mkCpu (setX rd (Z.lor (Z.land (getX s rd) (Z.lnot (Z.shiftl 65535 k))) (Z.shiftl (field w 5 16) k)) (xs s)) (next s) (other s))
  else if (field w 10 22 =? 3508160) && (rd =? 0) then
    Some (mkCpu (xs s) (getX s rn) (other s))
  else if (field w 10 22 =? 3510208) && (rd =? 0) then
    Some (mkCpu (setX 30 (next s) (xs s)) (getX s rn) (other s))
  else if (field w 27 3 =? 7) && (field w 24 2 =? 1) && (field w 10 12 =? 0) && negb (rn =? 31) then
    let? r := loadForm (field w 30 2) (field w 26 1) (field w 22 2) in
    let a := getX s rn in
    Some (mkCpu (if negb r.1 && (r.2 <? 3) then setX rd (env_value r.2 a (other s)) (xs s) else xs s) (next s) (env_access r.1 r.2 rd a (other s)))
  else None.

(** ** Every class of instructions by its fields *)

Definition branchTo (taken : bool) (words : Z) (s : Cpu) : option Cpu := Some (mkCpu (xs s) (if taken then jump s words else next s) (other s)).
Lemma field_testbit w lo n v i : field w lo n = v → 0 ≤ lo → lo ≤ i < lo + n → Z.testbit w i = Z.testbit v (i - lo).
Proof. intros <- Hlo Hi. rewrite testbit_field by lia. rewrite (proj2 (Z.ltb_lt _ _)) by lia. cbn [andb]. f_equal. lia. Qed.
Lemma field_differs w lo n v lo' n' v' i : field w lo n = v → 0 ≤ lo → lo ≤ i < lo + n → 0 ≤ lo' → lo' ≤ i < lo' + n' → Z.testbit v (i - lo) ≠ Z.testbit v' (i - lo') → (field w lo' n' =? v') = false.
Proof. intros H Hlo Hi Hlo' Hi' Hne. apply Z.eqb_neq. intros H'. apply Hne. by rewrite <- (field_testbit _ _ _ _ i H), <- (field_testbit _ _ _ _ i H'). Qed.
Lemma word_differs w lo n v c : field w lo n = v → field c lo n ≠ v → (w =? c) = false.
Proof. intros H Hne. apply Z.eqb_neq. by intros ->. Qed.
End Semantics.

(** Decides tests of fields from one field. *)
Ltac differs H :=
  repeat (rewrite (word_differs _ _ _ _ _ H) by (by vm_compute));
  repeat match goal with
  | |- context [field ?w ?lo ?n =? ?v] =>
      first [erewrite (field_differs w _ _ _ lo n v 31 H) by first [lia|by vm_compute]
            |erewrite (field_differs w _ _ _ lo n v 30 H) by first [lia|by vm_compute]
            |erewrite (field_differs w _ _ _ lo n v 29 H) by first [lia|by vm_compute]
            |erewrite (field_differs w _ _ _ lo n v 28 H) by first [lia|by vm_compute]
            |erewrite (field_differs w _ _ _ lo n v 27 H) by first [lia|by vm_compute]
            |erewrite (field_differs w _ _ _ lo n v 26 H) by first [lia|by vm_compute]
            |erewrite (field_differs w _ _ _ lo n v 25 H) by first [lia|by vm_compute]
            |erewrite (field_differs w _ _ _ lo n v 24 H) by first [lia|by vm_compute]
            |erewrite (field_differs w _ _ _ lo n v 23 H) by first [lia|by vm_compute]]
  end.

Section Classes.
Context {E : A64Env}.
Implicit Types s : Cpu.

Lemma execute_nop s : execute 0xd503201f s = Some (mkCpu (xs s) (next s) (other s)).
Proof. done. Qed.
Lemma execute_movz w s : field w 23 9 = 421 → execute w s = Some (mkCpu (setX (field w 0 5) (Z.shiftl (field w 5 16) (16 * field w 21 2)) (xs s)) (next s) (other s)).
Proof. intros H. unfold execute. differs H. cbn [andb]. rewrite H. done. Qed.
Lemma execute_movk w s : field w 23 9 = 485 → let k := 16 * field w 21 2 in
  execute w s = Some (mkCpu (setX (field w 0 5) (Z.lor (Z.land (getX s (field w 0 5)) (Z.lnot (Z.shiftl 65535 k))) (Z.shiftl (field w 5 16) k)) (xs s)) (next s) (other s)).
Proof. intros H. unfold execute. differs H. cbn [andb]. rewrite H. done. Qed.
Lemma execute_address w s : field w 24 5 = 16 → let imm := signExtend (field w 5 19 * 4 + field w 29 2) 21 in
  execute w s = Some (mkCpu (setX (field w 0 5) (if field w 31 1 =? 0 then u64 (pc s + imm) else u64 ((pc s - pc s mod 4096) + 4096 * imm)) (xs s)) (next s) (other s)).
Proof. intros H. unfold execute. differs H. rewrite H. done. Qed.
Lemma execute_b w s : field w 26 6 = 5 → execute w s = branchTo true (signExtend (field w 0 26) 26) s.
Proof. intros H. unfold execute. differs H. rewrite H. done. Qed.
Lemma execute_bl w s : field w 26 6 = 37 → execute w s = Some (mkCpu (setX 30 (next s) (xs s)) (jump s (signExtend (field w 0 26) 26)) (other s)).
Proof. intros H. unfold execute. differs H. rewrite H. done. Qed.
Lemma execute_conditional w s : field w 24 8 = 84 → execute w s = branchTo (takenConditional w s) (signExtend (field w 5 19) 19) s.
Proof. intros H. unfold execute. differs H. rewrite H. done. Qed.
Lemma execute_compare w s : field w 25 6 = 26 → execute w s = branchTo (takenCompare w s) (signExtend (field w 5 19) 19) s.
Proof. intros H. unfold execute. differs H. rewrite H. done. Qed.
Lemma execute_test w s : field w 25 6 = 27 → execute w s = branchTo (takenTest w s) (signExtend (field w 5 14) 14) s.
Proof. intros H. unfold execute. differs H. rewrite H. done. Qed.
Lemma execute_literal w s : field w 27 3 = 3 → field w 24 2 = 0 →
  let v := negb (field w 26 1 =? 0) in
  let opc := field w 30 2 in
  let a := jump s (signExtend (field w 5 19) 19) in
  execute w s = if v && (opc =? 3) then None
    else Some (mkCpu (if negb v && (opc <? 3) then setX (field w 0 5) (env_value opc a (other s)) (xs s) else xs s) (next s) (env_access v opc (field w 0 5) a (other s))).
Proof. intros H H'. unfold execute. differs H. differs H'. rewrite H, H'. done. Qed.
Lemma execute_br w s : field w 10 22 = 3508160 → field w 0 5 = 0 → execute w s = Some (mkCpu (xs s) (getX s (field w 5 5)) (other s)).
Proof. intros H H'. unfold execute. differs H. cbn [andb]. rewrite H, H'. done. Qed.
Lemma execute_blr w s : field w 10 22 = 3510208 → field w 0 5 = 0 → execute w s = Some (mkCpu (setX 30 (next s) (xs s)) (getX s (field w 5 5)) (other s)).
Proof. intros H H'. unfold execute. differs H. cbn [andb]. rewrite H, H'. done. Qed.
Lemma execute_load w s r : field w 27 3 = 7 → field w 24 2 = 1 → field w 10 12 = 0 → field w 5 5 ≠ 31 → loadForm (field w 30 2) (field w 26 1) (field w 22 2) = Some r →
  let a := getX s (field w 5 5) in
  execute w s = Some (mkCpu (if negb r.1 && (r.2 <? 3) then setX (field w 0 5) (env_value r.2 a (other s)) (xs s) else xs s) (next s) (env_access r.1 r.2 (field w 0 5) a (other s))).
Proof.
  intros H1 H2 H3 H4 H5. unfold execute. differs H1. differs H2. rewrite H1, H2, H3, H5. cbn [andb Z.eqb]. rewrite (proj2 (Z.eqb_neq _ _)) by done. done.
Qed.

(** ** Code in memory *)

(** [n] instructions from the program counter on. *)
Fixpoint run (fetch : Z → option Z) (n : nat) (s : Cpu) : option Cpu :=
  match n with
  | O => Some s
  | S n => let? w := fetch (pc s) in let? s := execute w s in run fetch n s
  end.
Definition placed (fetch : Z → option Z) (a : Z) (words : list Z) : Prop := ∀ i w, words !! i = Some w → fetch (a + 4 * Z.of_nat i) = Some w.
Lemma run_app fetch n m s : run fetch (n + m) s = (let? s' := run fetch n s in run fetch m s').
Proof. revert s. induction n as [|n IH]; intros s; [done|]. cbn [Nat.add run]. destruct (fetch (pc s)); [|done]. cbn [mbind option_bind]. destruct (execute _ s); [|done]. cbn [mbind option_bind]. apply IH. Qed.
Lemma run_one fetch s w s' : fetch (pc s) = Some w → execute w s = Some s' → run fetch 1 s = Some s'.
Proof. intros H1 H2. cbn. rewrite H1. cbn. by rewrite H2. Qed.
Lemma placed_app fetch a l k : placed fetch a (l ++ k) ↔ placed fetch a l ∧ placed fetch (a + 4 * Z.of_nat (length l)) k.
Proof.
  unfold placed. split.
  - intros H. split; intros i w Hi; [apply H; by apply lookup_app_l_Some|]. replace (a + 4 * Z.of_nat (length l) + 4 * Z.of_nat i) with (a + 4 * Z.of_nat (length l + i)) by lia. apply H. rewrite lookup_app_r by lia. by replace (length l + i - length l)%nat with i by lia.
  - intros [H1 H2] i w [Hi|[Hl Hi]]%lookup_app_Some; [by apply H1|]. replace (a + 4 * Z.of_nat i) with (a + 4 * Z.of_nat (length l) + 4 * Z.of_nat (i - length l)) by lia. by apply H2.
Qed.
Lemma placed_cons fetch a w l : placed fetch a (w :: l) ↔ fetch a = Some w ∧ placed fetch (a + 4) l.
Proof.
  rewrite (placed_app fetch a [w] l). cbn [length]. change (4 * Z.of_nat 1) with 4. split; intros [H1 H2]; (split; [|done]).
  - specialize (H1 O w eq_refl). by rewrite Z.mul_0_r, Z.add_0_r in H1.
  - intros [|i] x; [|done]. intros [= <-]. by rewrite Z.mul_0_r, Z.add_0_r.
Qed.
End Classes.
