(* ===== verification/Relocator.v ===== *)
(** * Relocation of AArch64 code

    Models [relocateAarch64] of [src/arch/aarch64_relocator.cpp]: whole instructions are
    moved to another address, those that use their own address are rewritten, each into a
    slot of fixed size. *)

From S2P Require Import Prelude Aarch64.
#[local] Open Scope Z_scope.

(** ** Words *)

Definition nop : Z := 0xd503201f.
Inductive Kind : Set := Copy | Address | Branch | Conditional | Compare | Test | Literal.
#[export] Instance Kind_eq_dec : EqDecision Kind.
Proof. solve_decision. Defined.
Definition kind (word : Z) : Kind :=
  if Z.land word 0x1f000000 =? 0x10000000 then Address
  else if Z.land word 0x7c000000 =? 0x14000000 then Branch
  else if Z.land word 0xff000000 =? 0x54000000 then Conditional
  else if Z.land word 0x7e000000 =? 0x34000000 then Compare
  else if Z.land word 0x7e000000 =? 0x36000000 then Test
  else if Z.land word 0x3b000000 =? 0x18000000 then Literal
  else Copy.
Definition slot (type : Kind) : Z :=
  match type with Copy => 4 | Address => 16 | Branch | Literal => 20 | _ => 24 end.
Definition wordAt (bytes : bytes) (offset : Z) : Z := le_val (slice bytes offset 4).
Definition emit (bytes : bytes) (word : Z) : list Z := bytes ++ le_bytes 4 word.
Definition emitAll (bytes : bytes) (words : list Z) : list Z := foldl emit bytes words.

(** The words of [constant]. *)
Definition constant (reg value : Z) : list Z :=
  (λ i, Z.lor (Z.lor (Z.lor (if i =? 0 then 0xd2800000 else 0xf2800000) (Z.shiftl i 21)) (Z.shiftl (Z.land (Z.shiftr value (16 * i)) 65535) 5)) reg) <$> [0; 1; 2; 3].
Definition signedField (value bits : Z) : Z :=
  let sign := Z.shiftl 1 (bits - 1) in Z.lxor value sign - sign.
Definition absolute (pc offset : Z) : bytes + Z :=
  if 0 <=? offset then
    if UINT64_MAX - pc <? offset then inl (bs "AArch64 source operand overflows its address space") else inr (pc + offset)
  else
    let magnitude := - (offset + 1) + 1 in
    if pc <? magnitude then inl (bs "AArch64 source operand underflows its address space") else inr (pc - magnitude).
Definition relative (from to bits : Z) : option Z :=
  if negb (Z.land from 3 =? Z.land to 3) then None else
  let units := (if from <=? to then to - from else from - to) / 4 in
  let limit := Z.shiftl 1 (bits - 1) in
  if (if from <=? to then limit - 1 else limit) <? units then None
  else Some (Z.land (wrap 32 (if from <=? to then units else - units)) (Z.shiftl 1 bits - 1)).

(** [Aarch64RelocationOptions]. *)
Record Options := mkOptions { scratchRegister : option Z; allowIndirectBranches : bool }.
Definition branch (pc target : Z) (link : bool) (options : Options) : bytes + list Z :=
  match relative pc target 26 with
  | Some rel => inr [Z.lor (if link then 0x94000000 else 0x14000000) rel]
  | None =>
      if negb (allowIndirectBranches options) then inl (bs "Far AArch64 branch requires an explicitly allowed indirect veneer and a compatible landing site")
      else match (if link then Some 30 else scratchRegister options) with
      | None => inl (bs "Far AArch64 branch requires an explicitly permitted scratch register")
      | Some reg => inr (constant reg target ++ [Z.lor (if link then 0xd63f0000 else 0xd61f0000) (Z.shiftl reg 5)])
      end
  end.

(** ** One instruction *)

(** The words that [word] at [oldPc] becomes at [newPc], before its slot is filled. *)
Definition relocateWord (options : Options) (mapBranch : Z → Z) (word oldPc newPc : Z) : bytes + list Z :=
  let type := kind word in
  match type with
  | Address =>
      let immediate := signedField (Z.land (Z.shiftr word 5) 0x7ffff * 4 + Z.land (Z.shiftr word 29) 3) 21 in
      let page := negb (Z.shiftr word 31 =? 0) in
      match absolute (if page then Z.land oldPc (Z.lnot 4095) else oldPc) (if page then immediate * 4096 else immediate) with
      | inl e => inl e
      | inr target => inr (constant (Z.land word 31) target)
      end
  | Branch | Conditional | Compare | Test =>
      let bits := match type with Branch => 26 | Test => 14 | _ => 19 end in
      let immediate := match type with Branch => Z.land word 0x3ffffff | _ => Z.land (Z.shiftr word 5) (Z.shiftl 1 bits - 1) end in
      match absolute oldPc (signedField immediate bits * 4) with
      | inl e => inl e
      | inr target =>
          let mapped := mapBranch target in
          let always := bool_decide (type = Conditional) && (14 <=? Z.land word 15) in
          let skip :=
            if negb (bool_decide (type = Branch)) && negb always then
              let mask := Z.shiftl (Z.shiftl 1 bits - 1) 5 in
              [Z.lor (Z.lxor (Z.land word (Z.lnot mask)) (if bool_decide (type = Conditional) then 1 else 0x01000000)) (Z.shiftl (slot type / 4) 5)]
            else [] in
          match branch (newPc + 4 * len skip) mapped (bool_decide (type = Branch) && negb (Z.shiftr word 31 =? 0)) options with
          | inl e => inl e
          | inr words => inr (skip ++ words)
          end
      end
  | Literal =>
      match absolute oldPc (signedField (Z.land (Z.shiftr word 5) 0x7ffff) 19 * 4) with
      | inl e => inl e
      | inr target =>
          match relative newPc target 19 with
          | Some rel => inr [Z.lor (Z.land word (Z.lnot 0x00ffffe0)) (Z.shiftl rel 5)]
          | None =>
              let opc := Z.shiftr word 30 in
              let rt := Z.land word 31 in
              let vector := negb (Z.land word (Z.shiftl 1 26) =? 0) in
              match (if negb vector && (opc <? 3) && negb (rt =? 31) then Some rt else scratchRegister options) with
              | None => inl (bs "Far AArch64 literal requires an explicitly permitted scratch register")
              | Some reg =>
                  let load :=
                    if vector then if opc =? 0 then 0xbd400000 else if opc =? 1 then 0xfd400000 else 0x3dc00000
                    else if opc =? 0 then 0xb9400000 else if opc =? 1 then 0xf9400000 else if opc =? 2 then 0xb9800000 else 0xf9800000 in
                  inr (constant reg target ++ [Z.lor (Z.lor load (Z.shiftl reg 5)) rt])
              end
          end
      end
  | Copy => inr [word]
  end.
(** The slot is filled with [nop]s. *)
Definition fillSlot (type : Kind) (words : list Z) : list Z := words ++ replicate (Z.to_nat (slot type / 4) - length words) nop.

(** ** A block *)

Record Relocated := mkRelocated { rl_bytes : bytes; rl_instructionOffsets : list Z }.
(** The offset of every slot, and the size of all. *)
Fixpoint layout (same : bool) (words : list Z) (size : Z) : list Z * Z :=
  match words with
  | [] => ([], size)
  | word :: words => let r := layout same words (size + (if same then 4 else slot (kind word))) in (size :: r.1, r.2)
  end.
Fixpoint relocateWords (options : Options) (mapBranch : Z → Z) (destination : Z) (words : list Z) (oldPc : Z) (out : bytes) : bytes + bytes :=
  match words with
  | [] => inr out
  | word :: words =>
      match relocateWord options mapBranch word oldPc (destination + len out) with
      | inl e => inl e
      | inr new => relocateWords options mapBranch destination words (oldPc + 4) (emitAll out (fillSlot (kind word) new))
      end
  end.
(** The lambda [mapBranch] of the source block at [source], of [length] bytes. *)
Definition mapBranch (source length destination : Z) (offsets : list Z) (target : Z) : Z :=
  if (source <=? target) && (target - source <? length) then destination + default 0 (lget offsets ((target - source) / 4)) else target.
Definition sourceWords (code : bytes) : list Z := (λ i, wordAt code (4 * i)) <$> seqZ 0 (len code / 4).
(** [decode]: the sizes of the instructions the disassembler finds. *)
Definition relocateAarch64 (decode : Z → bytes → list Z) (code : bytes) (source destination : Z) (options : Options) : bytes + Relocated :=
  if bool_decide (code = []) || negb (len code mod 4 =? 0) || negb (source mod 4 =? 0) || negb (destination mod 4 =? 0)
  then inl (bs "AArch64 relocation requires aligned whole instructions")
  else if (1024 * 1024 <? len code) || (UINT64_MAX - source <? len code) then inl (bs "AArch64 source block size or address overflow")
  else if match scratchRegister options with Some r => 30 <? r | None => false end then inl (bs "AArch64 scratch register must be X0 through X30")
  else
    let decoded := decode source code in
    if negb (len decoded =? len code / 4) || existsb (λ n, negb (n =? 4)) decoded then inl (bs "AArch64 source block contains an invalid or unsupported encoding") else
    let '(offsets, size) := layout (source =? destination) (sourceWords code) 0 in
    if UINT64_MAX - destination <? size then inl (bs "AArch64 relocated block overflows its address space") else
    if source =? destination then inr (mkRelocated code offsets) else
    match relocateWords options (mapBranch source (len code) destination offsets) destination (sourceWords code) source [] with
    | inl e => inl e
    | inr out => inr (mkRelocated out offsets)
    end.
