(* ===== verification/RelocatorSpec.v ===== *)
(** * What relocated AArch64 code does

    The words [Relocator] emits, executed by the instruction set of [Aarch64]. *)

From S2P Require Import Prelude Aarch64 Relocator.
#[local] Open Scope Z_scope.

(** ** Fields of the emitted words *)

(** Rewrites fields of words put together from shifted fields and constants. *)
Ltac fields :=
  rewrite ?field_lor;
  repeat match goal with
  | |- context [field (Z.shiftl ?v ?k) ?lo ?n] =>
      first [rewrite (field_shiftl v k lo n) by lia | rewrite (field_shiftl_above v k lo n) by lia
            | rewrite (field_shiftl_below v k 16 lo n) by lia | rewrite (field_shiftl_below v k 5 lo n) by lia
            | rewrite (field_shiftl_below v k 2 lo n) by lia]
  | |- context [field (Zpos ?c) ?lo ?n] => let x := eval vm_compute in (field (Zpos c) lo n) in change (field (Zpos c) lo n) with x
  | |- context [field ?v 0 5] => rewrite (field_self v 5) by lia
  | |- context [field ?v ?lo ?n] => is_var v; rewrite (field_small v lo n 5) by lia
  end;
  rewrite ?Z.lor_0_l, ?Z.lor_0_r.

Lemma chunk_bound v i : 0 ≤ Z.land (Z.shiftr v i) 65535 < 2 ^ 16.
Proof. apply (field_bound v i 16). lia. Qed.
Lemma move_fields c i v reg : c = 0xd2800000 ∨ c = 0xf2800000 → 0 ≤ i < 4 → 0 ≤ v < 2 ^ 16 → 0 ≤ reg < 32 →
  let w := Z.lor (Z.lor (Z.lor c (Z.shiftl i 21)) (Z.shiftl v 5)) reg in
  field w 23 9 = field c 23 9 ∧ field w 21 2 = i ∧ field w 5 16 = v ∧ field w 0 5 = reg.
Proof. intros [-> | ->] Hi Hv Hr w; unfold w; repeat split; by fields. Qed.

(** ** The constants *)

Lemma testbit_ones_at n k i : 0 ≤ k → 0 ≤ n → 0 ≤ i → Z.testbit (Z.shiftl (Z.ones n) k) i = (k <=? i) && (i <? k + n).
Proof.
  intros Hk Hn Hi. rewrite Z.shiftl_spec by done. rewrite Z.testbit_ones by done. f_equal; [|].
  - apply eq_true_iff_eq. rewrite !Z.leb_le. lia.
  - apply eq_true_iff_eq. rewrite !Z.ltb_lt. lia.
Qed.
Lemma testbit_chunk v k i : 0 ≤ k → 0 ≤ i → Z.testbit (Z.shiftl (Z.land (Z.shiftr v k) 65535) k) i = (k <=? i) && (i <? k + 16) && Z.testbit v i.
Proof.
  intros Hk Hi. change 65535 with (Z.ones 16). rewrite <- testbit_ones_at by lia. rewrite !Z.shiftl_spec, Z.land_spec by done. rewrite andb_comm.
  destruct (Z.ltb_spec i k); [by rewrite !(Z.testbit_neg_r _ (i - k)) by lia|]. rewrite Z.shiftr_spec by lia. f_equal. f_equal. lia.
Qed.
(** The 16 bits at [k] of a value, put into another. *)
Definition insert16 (v x k : Z) : Z := Z.lor (Z.land x (Z.lnot (Z.shiftl 65535 k))) (Z.shiftl (Z.land (Z.shiftr v k) 65535) k).
Lemma testbit_insert16 v x k i : 0 ≤ k → 0 ≤ i → Z.testbit (insert16 v x k) i = if (k <=? i) && (i <? k + 16) then Z.testbit v i else Z.testbit x i.
Proof.
  intros Hk Hi. unfold insert16. rewrite Z.lor_spec, Z.land_spec, Z.lnot_spec, testbit_chunk by done. change 65535 with (Z.ones 16). rewrite testbit_ones_at by lia.
  destruct ((k <=? i) && (i <? k + 16)); cbn; [by rewrite andb_false_r|]. by rewrite andb_true_r, orb_false_r.
Qed.
Lemma chunks v : 0 ≤ v < 2 ^ 64 → insert16 v (insert16 v (insert16 v (Z.land (Z.shiftr v 0) 65535) 16) 32) 48 = v.
Proof.
  intros Hv. bits i. rewrite !testbit_insert16 by lia. change 65535 with (Z.ones 16). rewrite Z.shiftr_0_r, Z.land_ones by done. change (v mod 2 ^ 16) with (wrap 16 v). rewrite testbit_wrap by lia.
  repeat match goal with |- context [?a <=? ?b] => destruct (Z.leb_spec a b) | |- context [?a <? ?b] => destruct (Z.ltb_spec a b) end; cbn; try done; try lia.
  symmetry. apply (testbit_high 64); [done|lia].
Qed.

Section Constants.
Context {E : A64Env}.
Implicit Types s : Cpu.

Lemma setX_same r v x : r ≠ 31 → setX r v x r = v.
Proof. intros H. unfold setX. rewrite (proj2 (Z.eqb_neq _ _)) by done. by rewrite Z.eqb_refl. Qed.
Lemma setX_other r v x k : k ≠ r → setX r v x k = x k.
Proof. intros H. unfold setX. destruct (r =? 31); [done|]. by rewrite (proj2 (Z.eqb_neq _ _)). Qed.
Lemma next_small s : 0 ≤ pc s → pc s + 4 < 2 ^ 64 → next s = pc s + 4.
Proof. intros. unfold next. apply wrap_small. unfold in_width. lia. Qed.

(** One step of [constant]. *)
Lemma run_movz fetch reg v s : 0 ≤ reg < 32 → 0 ≤ v < 2 ^ 16 → fetch (pc s) = Some (Z.lor (Z.lor (Z.lor 0xd2800000 (Z.shiftl 0 21)) (Z.shiftl v 5)) reg) → 0 ≤ pc s → pc s + 4 < 2 ^ 64 →
  run fetch 1 s = Some (mkCpu (setX reg v (xs s)) (pc s + 4) (other s)).
Proof.
  intros Hr Hv Hf Hp Hp'. destruct (move_fields 0xd2800000 0 v reg) as (H1 & H2 & H3 & H4); [by left|lia|done|done|].
  apply (run_one _ _ _ _ Hf). rewrite execute_movz by done. rewrite H2, H3, H4, next_small by done. by rewrite Z.shiftl_0_r.
Qed.
Lemma run_movk fetch reg i v x p o : 0 ≤ reg < 32 → 0 ≤ i < 4 → 0 ≤ v < 2 ^ 16 → fetch p = Some (Z.lor (Z.lor (Z.lor 0xf2800000 (Z.shiftl i 21)) (Z.shiftl v 5)) reg) → 0 ≤ p → p + 4 < 2 ^ 64 →
  run fetch 1 (mkCpu x p o) = Some (mkCpu (setX reg (Z.lor (Z.land (getX (mkCpu x p o) reg) (Z.lnot (Z.shiftl 65535 (16 * i)))) (Z.shiftl v (16 * i))) x) (p + 4) o).
Proof.
  intros Hr Hi Hv Hf Hp Hp'. destruct (move_fields 0xf2800000 i v reg) as (H1 & H2 & H3 & H4); [by right|lia|done|done|].
  eapply run_one; [exact Hf|]. rewrite execute_movk by done. by rewrite H2, H3, H4, next_small.
Qed.
Lemma run_constant fetch reg v s : 0 ≤ reg < 32 → 0 ≤ v < 2 ^ 64 → placed fetch (pc s) (constant reg v) → 0 ≤ pc s → pc s + 16 < 2 ^ 64 →
  ∃ x, run fetch 4 s = Some (mkCpu x (pc s + 16) (other s)) ∧ ∀ k, x k = setX reg v (xs s) k.
Proof.
  intros Hr Hv Hf Hp Hp'. unfold constant in Hf. cbn [fmap list_fmap Z.eqb] in Hf. rewrite !placed_cons in Hf. destruct Hf as (F0 & F1 & F2 & F3 & _).
  eexists. split_and!.
  - change 4%nat with (1 + (1 + (1 + 1)))%nat.
    rewrite run_app, (run_movz _ _ _ _ Hr (chunk_bound _ _) F0) by lia. cbn [mbind option_bind].
    rewrite run_app, (run_movk _ _ _ _ _ _ _ Hr (ltac:(lia) : 0 ≤ 1 < 4) (chunk_bound _ _) F1) by lia. cbn [mbind option_bind pc other].
    rewrite run_app, (run_movk _ _ _ _ _ _ _ Hr (ltac:(lia) : 0 ≤ 2 < 4) (chunk_bound _ _) F2) by lia. cbn [mbind option_bind pc other].
    rewrite (run_movk _ _ _ _ _ _ _ Hr (ltac:(lia) : 0 ≤ 3 < 4) (chunk_bound _ _) F3) by lia. cbn [mbind option_bind pc other].
    f_equal. f_equal. lia.
  - intros k. destruct (Z.eq_dec reg 31) as [->|Hne]; [done|]. destruct (Z.eq_dec k reg) as [->|Hk]; [|by rewrite !setX_other].
    unfold getX. cbn [xs]. rewrite (proj2 (Z.eqb_neq _ _)) by done. rewrite !setX_same by done. by apply chunks.
Qed.

(** ** Filling *)

Lemma run_nops fetch n s : placed fetch (pc s) (replicate n nop) → 0 ≤ pc s → pc s + 4 * Z.of_nat n < 2 ^ 64 → run fetch n s = Some (mkCpu (xs s) (pc s + 4 * Z.of_nat n) (other s)).
Proof.
  revert s. induction n as [|n IH]; intros [x p o] Hf Hp Hp'; cbn [pc xs other replicate] in *; [cbn; f_equal; f_equal; lia|].
  apply placed_cons in Hf as [F0 F1]. change (S n) with (1 + n)%nat at 1. rewrite run_app. erewrite run_one; [|done|apply execute_nop]. cbn [mbind option_bind]. rewrite next_small by (cbn [pc]; lia). cbn [pc xs other].
  rewrite IH by (cbn [pc]; first [done|lia]). cbn [pc xs other]. f_equal. f_equal. lia.
Qed.
End Constants.

(** ** Operands *)

Lemma land_pow2 v m : 0 ≤ m → Z.testbit v m = false → Z.land v (2 ^ m) = 0.
Proof.
  intros Hm Hv. bits i. rewrite Z.land_spec, Z.bits_0, Z.pow2_bits_eqb by done. destruct (Z.eqb_spec m i); [subst; by rewrite Hv|by rewrite andb_false_r].
Qed.
Lemma signedField_extend v n : 0 < n → signedField v n = signExtend v n.
Proof.
  intros Hn. unfold signedField, signExtend. rewrite Z.shiftl_1_l. assert (E : 2 ^ n = 2 * 2 ^ (n - 1)) by (rewrite <- Z.pow_succ_r by lia; f_equal; lia).
  rewrite E. set (m := n - 1) in *. destruct (Z.testbit v m) eqn:Hb.
  - enough (Z.lxor v (2 ^ m) + 2 ^ m = v) by lia. rewrite Z.add_nocarry_lxor.
    + by rewrite Z.lxor_assoc, Z.lxor_nilpotent, Z.lxor_0_r.
    + apply land_pow2; [lia|]. rewrite Z.lxor_spec, Hb, Z.pow2_bits_true by lia. done.
  - rewrite <- Z.add_nocarry_lxor by (apply land_pow2; [lia|done]). lia.
Qed.
Lemma signExtend_pos k n : 0 < n → 0 ≤ k < 2 ^ (n - 1) → signExtend k n = k.
Proof. intros Hn Hk. unfold signExtend. by rewrite (testbit_high (n - 1)) by (done || lia). Qed.
Lemma signExtend_neg k n : 0 < n → 0 < k ≤ 2 ^ (n - 1) → signExtend (2 ^ n - k) n = - k.
Proof.
  intros Hn Hk. unfold signExtend. assert (E : 2 ^ n = 2 * 2 ^ (n - 1)) by (rewrite <- Z.pow_succ_r by lia; f_equal; lia).
  replace (Z.testbit (2 ^ n - k) (n - 1)) with true; [lia|]. symmetry. apply Z.testbit_true; [lia|]. rewrite E.
  replace (2 * 2 ^ (n - 1) - k) with (2 ^ (n - 1) - k + 1 * 2 ^ (n - 1)) by lia. rewrite Z.div_add, Z.div_small by lia. done.
Qed.
(** The address is exact: it never wraps. *)
Lemma absolute_spec pc offset target : 0 ≤ pc < 2 ^ 64 → absolute pc offset = inr target → target = pc + offset ∧ 0 ≤ target < 2 ^ 64.
Proof. intros Hp. unfold absolute, UINT64_MAX. split_ifs; intros [= <-]; lia. Qed.
Lemma quarter a b : a mod 4 = b mod 4 → 4 * ((b - a) / 4) = b - a.
Proof. intros H. symmetry. apply Z.div_exact; [done|]. by rewrite Zminus_mod, H, Z.sub_diag. Qed.
(** The distance in words, where the field has room for it. *)
Lemma relative_spec from to bits rel : 0 < bits < 32 → 0 ≤ from < 2 ^ 64 → 0 ≤ to < 2 ^ 64 → relative from to bits = Some rel →
  0 ≤ rel < 2 ^ bits ∧ from + 4 * signExtend rel bits = to.
Proof.
  intros Hb Hf Ht. unfold relative. change 3 with (Z.ones 2). rewrite !Z.land_ones, !Z.shiftl_1_l by lia. change (2 ^ 2) with 4.
  assert (E : 2 ^ bits = 2 * 2 ^ (bits - 1)) by (rewrite <- Z.pow_succ_r by lia; f_equal; lia). assert (0 < 2 ^ (bits - 1)) by (apply Z.pow_pos_nonneg; lia).
  destruct (Z.eqb_spec (from mod 4) (to mod 4)) as [Hm|]; [|done]. cbn [negb].
  assert (M : ∀ u, Z.land (wrap 32 u) (2 ^ bits - 1) = wrap bits u).
  { intros u. replace (2 ^ bits - 1) with (Z.ones bits) by (rewrite Z.ones_equiv; lia). rewrite Z.land_ones by lia. change (wrap bits (wrap 32 u) = wrap bits u). apply wrap_wrap. lia. }
  rewrite M. clear M. destruct (Z.leb_spec from to).
  - pose proof (quarter from to Hm). set (u := (to - from) / 4) in *. destruct (Z.ltb_spec (2 ^ (bits - 1) - 1) u); [done|]. intros [= <-].
    rewrite wrap_small by (unfold in_width; lia). rewrite signExtend_pos by lia. lia.
  - pose proof (quarter to from (eq_sym Hm)). set (u := (from - to) / 4) in *. destruct (Z.ltb_spec (2 ^ (bits - 1)) u); [done|]. intros [= <-].
    assert (W : wrap bits (- u) = 2 ^ bits - u). { unfold wrap. replace (- u) with (2 ^ bits - u + (-1) * 2 ^ bits) by lia. rewrite Z.mod_add by lia. apply Z.mod_small. lia. }
    rewrite W, signExtend_neg by lia. lia.
Qed.

(** ** The kinds *)

(** The instructions of every kind, by the fields the architecture gives them. *)
Lemma kind_field w : match kind w with
  | Address => field w 24 5 = 16
  | Branch => field w 26 5 = 5
  | Conditional => field w 24 8 = 84
  | Compare => field w 25 6 = 26
  | Test => field w 25 6 = 27
  | Literal => field w 27 3 = 3 ∧ field w 24 2 = 0
  | Copy => True
  end.
Proof.
  unfold kind. repeat match goal with |- context [?a =? ?b] => destruct (Z.eqb_spec a b) as [K|K]; cbn match; [try by apply mask_field|clear K] end; [|done].
  split; (apply mask_field; [done|done|]); [change (Z.shiftl (Z.ones 3) 27) with (Z.land 0x3b000000 (Z.shiftl (Z.ones 3) 27))|change (Z.shiftl (Z.ones 2) 24) with (Z.land 0x3b000000 (Z.shiftl (Z.ones 2) 24))];
    by rewrite Z.land_assoc, K.
Qed.

(** ** Rewritten words *)

(** A field of a word with bits cleared, flipped and set. *)
Lemma field_patched w m b c lo n : 0 ≤ lo → 0 ≤ n →
  field (Z.lor (Z.lxor (Z.land w (Z.lnot m)) b) c) lo n = Z.lor (Z.lxor (Z.ldiff (field w lo n) (field m lo n)) (field b lo n)) (field c lo n).
Proof. intros. by rewrite field_lor, field_lxor, field_ldiff. Qed.
Lemma field_kept w m b c lo n : 0 ≤ lo → 0 ≤ n → field m lo n = 0 → field b lo n = 0 → field c lo n = 0 →
  field (Z.lor (Z.lxor (Z.land w (Z.lnot m)) b) c) lo n = field w lo n.
Proof. intros Hlo Hn Hm Hb Hc. by rewrite field_patched, Hm, Hb, Hc, Z.ldiff_0_r, Z.lxor_0_r, Z.lor_0_r. Qed.
Lemma field_flipped w m b c lo n x : 0 ≤ lo → 0 ≤ n → field m lo n = 0 → field b lo n = x → field c lo n = 0 →
  field (Z.lor (Z.lxor (Z.land w (Z.lnot m)) b) c) lo n = Z.lxor (field w lo n) x.
Proof. intros Hlo Hn Hm Hb Hc. by rewrite field_patched, Hm, Hb, Hc, Z.ldiff_0_r, Z.lor_0_r. Qed.
Lemma field_replaced w m b c lo n x : 0 ≤ lo → 0 ≤ n → field m lo n = Z.ones n → field b lo n = 0 → field c lo n = x →
  field (Z.lor (Z.lxor (Z.land w (Z.lnot m)) b) c) lo n = x.
Proof.
  intros Hlo Hn Hm Hb Hc. rewrite field_patched, Hm, Hb, Hc by done. rewrite Z.lxor_0_r.
  replace (Z.ldiff _ _) with 0; [done|]. symmetry. bits i. rewrite Z.ldiff_spec, testbit_field, Z.testbit_ones_nonneg, Z.bits_0 by done. by destruct (i <? n), (Z.testbit w (lo + i)).
Qed.

Section Skips.
Context {E : A64Env} {L : A64Laws E}.
Implicit Types s : Cpu.

(** The conditional branch over a slot: the opposite condition, six words ahead. *)
Definition skipOver (type : Kind) (word : Z) : Z :=
  let bits := if bool_decide (type = Test) then 14 else 19 in
  Z.lor (Z.lxor (Z.land word (Z.lnot (Z.shiftl (Z.shiftl 1 bits - 1) 5))) (if bool_decide (type = Conditional) then 1 else 0x01000000)) (Z.shiftl (slot type / 4) 5).
Definition taken (word : Z) (s : Cpu) : bool :=
  match kind word with
  | Conditional => takenConditional word s
  | Compare => takenCompare word s
  | Test => takenTest word s
  | _ => true
  end.
Lemma lxor_bit (b : bool) : Z.lxor (Z.b2z b) 1 = Z.b2z (negb b).
Proof. by destruct b. Qed.
Lemma field1 w lo : 0 ≤ lo → field w lo 1 = Z.b2z (Z.testbit w lo).
Proof. intros. unfold field. by rewrite Z.land_ones, <- Z.bit0_mod, Z.shiftr_spec, Z.add_0_l by lia. Qed.
Lemma flip1 w lo : 0 ≤ lo → (Z.lxor (field w lo 1) 1 =? 0) = negb (field w lo 1 =? 0).
Proof. intros. rewrite field1, lxor_bit by done. by destruct (Z.testbit w lo). Qed.

Lemma skip_conditional word s : kind word = Conditional → field word 0 4 < 14 → execute (skipOver Conditional word) s = branchTo (negb (takenConditional word s)) 6 s.
Proof using L.
  intros Hk Hc. pose proof (kind_field word) as F. rewrite Hk in F. unfold skipOver. cbn [bool_decide decide_rel slot].
  rewrite execute_conditional by (rewrite field_kept; [done|done..]). unfold takenConditional. rewrite (field_flipped _ _ _ _ 0 4 1), (field_replaced _ _ _ _ 5 19 6) by done.
  pose proof (field_bound word 0 4 ltac:(done)). by rewrite condition_opposite by lia.
Qed.
Lemma skip_compare word s : kind word = Compare → execute (skipOver Compare word) s = branchTo (negb (takenCompare word s)) 6 s.
Proof using.
  intros Hk. pose proof (kind_field word) as F. rewrite Hk in F. unfold skipOver. cbn [bool_decide decide_rel slot].
  rewrite execute_compare by (rewrite field_kept; [done|done..]). unfold takenCompare.
  rewrite (field_flipped _ _ _ _ 24 1 1), (field_replaced _ _ _ _ 5 19 6), (field_kept _ _ _ _ 31 1), (field_kept _ _ _ _ 0 5), flip1 by done.
  f_equal. by destruct (_ =? 0), (field word 24 1 =? 0).
Qed.
Lemma skip_test word s : kind word = Test → execute (skipOver Test word) s = branchTo (negb (takenTest word s)) 6 s.
Proof using.
  intros Hk. pose proof (kind_field word) as F. rewrite Hk in F. unfold skipOver. cbn [bool_decide decide_rel slot].
  rewrite execute_test by (rewrite field_kept; [done|done..]). unfold takenTest.
  rewrite (field_flipped _ _ _ _ 24 1 1), (field_replaced _ _ _ _ 5 14 6), (field_kept _ _ _ _ 31 1), (field_kept _ _ _ _ 19 5), (field_kept _ _ _ _ 0 5), flip1 by done.
  f_equal. by destruct (Z.testbit _ _), (field word 24 1 =? 0).
Qed.
End Skips.

Lemma high_bit w : in_width 32 w → Z.shiftr w 31 = field w 31 1.
Proof. intros Hw. bits i. rewrite testbit_field, Z.shiftr_spec by lia. destruct (Z.ltb_spec i 1); [cbn [andb]; f_equal; lia|]. apply (testbit_high 32); [done|lia]. Qed.
Lemma page_start a : Z.land a (Z.lnot 4095) = a - a mod 4096.
Proof. change (Z.ldiff a (Z.ones 12) = a - a mod 2 ^ 12). rewrite Z.ldiff_ones_r, Z.shiftl_mul_pow2, Z.shiftr_div_pow2 by done. rewrite Z.mod_eq by done. rewrite (Z.mul_comm (a / _)). lia. Qed.

Lemma branch_field w : field w 26 5 = 5 → field w 26 6 = if field w 31 1 =? 0 then 5 else 37.
Proof.
  intros F. rewrite field1 by done. bits i. rewrite testbit_field by lia. destruct (Z.ltb_spec i 5).
  - rewrite (field_testbit _ _ _ _ (26 + i) F) by lia. replace (26 + i - 26) with i by lia. rewrite (proj2 (Z.ltb_lt i 6)) by lia. cbn [andb].
    assert (i = 0 ∨ i = 1 ∨ i = 2 ∨ i = 3 ∨ i = 4) as Hi by lia. by destruct (Z.testbit w 31), Hi as [-> |[-> |[-> |[-> | ->]]]].
  - destruct (Z.ltb_spec i 6); [replace i with 5 by lia; change (26 + 5) with 31; by destruct (Z.testbit w 31)|]. symmetry. apply (testbit_high 6); [destruct (Z.testbit w 31); unfold in_width; cbn; lia|lia].
Qed.

(** ** Branches *)

Section Resumes.
Context {E : A64Env} {L : A64Laws E}.
Context (options : Options) (fetch : Z → option Z).
Context (scratch_ok : ∀ r, scratchRegister options = Some r → 0 ≤ r ≤ 30).
Implicit Types s : Cpu.

Lemma br_fields c reg : c = 0xd63f0000 ∨ c = 0xd61f0000 → 0 ≤ reg < 32 → let w := Z.lor c (Z.shiftl reg 5) in
  field w 10 22 = field c 10 22 ∧ field w 0 5 = 0 ∧ field w 5 5 = reg.
Proof using. intros [-> | ->] Hr w; unfold w; repeat split; by fields. Qed.
Lemma near_fields c rel : c = 0x94000000 ∨ c = 0x14000000 → 0 ≤ rel < 2 ^ 26 → let w := Z.lor c rel in
  field w 26 6 = field c 26 6 ∧ field w 0 26 = rel.
Proof using. intros [-> | ->] Hr w; unfold w; rewrite !field_lor; rewrite (field_small rel 26 6 26), (field_self rel 26) by lia; done. Qed.

(** A branch of at most five words reaches its target, with the registers it may not use. *)
Lemma run_branch p target link ws s : branch p target link options = inr ws → placed fetch p ws → pc s = p → 0 ≤ p → p + 20 < 2 ^ 64 → 0 ≤ target < 2 ^ 64 →
  0 < len ws ≤ 5 ∧ ∃ n x, run fetch n s = Some (mkCpu x target (other s)) ∧
    (∀ k, scratchRegister options ≠ Some k → (link = true → k ≠ 30) → x k = xs s k) ∧ (link = true → x 30 = p + 4 * len ws).
Proof using scratch_ok.
  intros H Hf <- Hp Hp' Ht. unfold branch in H. destruct (relative (pc s) target 26) as [rel|] eqn:Hrel.
  - injection H as <-. split; [done|]. apply relative_spec in Hrel as [Hb Hrel]; [|lia..]. apply placed_cons in Hf as [F0 _].
    assert (J : jump s (signExtend rel 26) = target) by (unfold jump; rewrite Hrel; apply wrap_small; unfold in_width; lia).
    exists 1%nat. destruct link.
    + destruct (near_fields 0x94000000 rel) as [H1 H2]; [by left|done|]. eexists. split_and!; [apply (run_one _ _ _ _ F0); rewrite execute_bl by done; by rewrite H2, J|..].
      * intros k _ Hk. apply setX_other. auto.
      * intros _. rewrite setX_same by done. rewrite next_small by lia. done.
    + destruct (near_fields 0x14000000 rel) as [H1 H2]; [by right|done|]. eexists. split_and!; [apply (run_one _ _ _ _ F0); rewrite execute_b by done; unfold branchTo; by rewrite H2, J|done..].
  - destruct (allowIndirectBranches options); [|done]. cbn [negb] in H. destruct (if link then Some 30 else scratchRegister options) as [reg|] eqn:Hreg; [|done]. apply (inj inr) in H as <-.
    assert (Hr : 0 ≤ reg ≤ 30) by (destruct link; [by simplify_eq|by apply scratch_ok]).
    split; [done|]. apply placed_app in Hf as [F0 F1]. change (4 * Z.of_nat (length (constant reg target))) with 16 in F1. apply placed_cons in F1 as [F1 _].
    destruct (run_constant fetch reg target s) as (x & R & X); [lia|done|done|done|lia|]. assert (O : ∀ k, k ≠ reg → x k = xs s k) by (intros; by rewrite X, setX_other). specialize (X reg). rewrite setX_same in X by lia.
    exists (4 + 1)%nat. rewrite run_app, R. cbn [mbind option_bind].
    assert (G : getX (mkCpu x (pc s + 16) (other s)) reg = target) by (unfold getX; rewrite (proj2 (Z.eqb_neq _ _)) by lia; done).
    destruct link.
    + destruct (br_fields 0xd63f0000 reg) as (H1 & H2 & H3); [by left|lia|]. eexists. split_and!; [eapply run_one; [exact F1|]; rewrite execute_blr by done; rewrite H3, G; done|..].
      * intros k _ Hk. rewrite setX_other by auto. cbn [xs]. apply O. simplify_eq. auto.
      * intros _. rewrite setX_same by done. rewrite next_small by (cbn [pc]; lia). cbn [pc]. change (len _) with 5. lia.
    + destruct (br_fields 0xd61f0000 reg) as (H1 & H2 & H3); [by right|lia|]. eexists. split_and!; [eapply run_one; [exact F1|]; rewrite execute_br by done; rewrite H3, G; done|..].
      * intros k Hk _. cbn [xs]. apply O. congruence.
      * done.
Qed.

(** ** One instruction *)

Context (mapBranch : Z → Z) (map_ok : ∀ t, 0 ≤ t < 2 ^ 64 → 0 ≤ mapBranch t < 2 ^ 64).

Definition isLink (word : Z) : bool := bool_decide (kind word = Branch) && negb (Z.shiftr word 31 =? 0).
(** Where the word branches when it does not fall through. *)
Definition isBranch (word : Z) : bool := bool_decide (kind word ∈ [Branch; Conditional; Compare; Test]).
(** [t'] is after the slot at [newPc] what [s'] is after the instruction: it is where the
    target was moved to or at the end of the slot, nothing but the permitted scratch register
    differs, and a call returns into the slot, where only [nop]s are left. *)
Record Resumes (word newPc : Z) (s s' t' : Cpu) : Prop := {
  resumes_other : other t' = other s';
  resumes_pc : pc t' = newPc + slot (kind word) ∧ pc s' = next s ∨ isBranch word = true ∧ pc t' = mapBranch (pc s');
  resumes_xs : ∀ k, scratchRegister options ≠ Some k → (isLink word = true → k ≠ 30) → xs t' k = xs s' k;
  resumes_link : isLink word = true → xs s' 30 = next s ∧
    ∃ n, ∀ t, pc t = xs t' 30 → run fetch n t = Some (mkCpu (xs t) (newPc + slot (kind word)) (other t))
}.
Lemma placed_fill p type ws : placed fetch p (fillSlot type ws) → placed fetch p ws ∧ placed fetch (p + 4 * len ws) (replicate (Z.to_nat (slot type / 4) - length ws) nop).
Proof using. apply placed_app. Qed.
(** From the end of the words to the end of the slot. *)
Lemma run_fill p type ws s : placed fetch p (fillSlot type ws) → 4 * len ws ≤ slot type → 0 ≤ p → p + slot type < 2 ^ 64 → pc s = p + 4 * len ws →
  run fetch (Z.to_nat (slot type / 4) - length ws) s = Some (mkCpu (xs s) (p + slot type) (other s)).
Proof using.
  intros [_ F]%placed_fill Hl Hp Hp' Hs. rewrite <- Hs in F. assert (4 * (slot type / 4) = slot type) by (by destruct type). unfold len in *.
  rewrite run_nops by (done || lia). f_equal. f_equal. lia.
Qed.

Lemma resumes_address word oldPc newPc ws s s' : kind word = Address → relocateWord options mapBranch word oldPc newPc = inr ws → placed fetch newPc (fillSlot (kind word) ws) →
  in_width 32 word → 0 ≤ oldPc < 2 ^ 64 - 4 → 0 ≤ newPc → newPc + slot (kind word) < 2 ^ 64 → pc s = oldPc → execute word s = Some s' →
  ∃ n t', run fetch n (mkCpu (xs s) newPc (other s)) = Some t' ∧ Resumes word newPc s s' t'.
Proof using.
  intros Hk H [Hf _]%placed_fill Hw Hold Hn Hn' Hs Hx. unfold relocateWord in H. pose proof (kind_field word) as F. rewrite Hk in *.
  rewrite execute_address in Hx by done. rewrite signedField_extend in H by done. change 0x7ffff with (Z.ones 19) in H. change 3 with (Z.ones 2) in H. fold (field word 5 19) (field word 29 2) in H.
  set (imm := signExtend _ 21) in *. rewrite (high_bit word) in H by done. destruct (absolute _ _) as [|target] eqn:Ha; [done|]. apply (inj inr) in H as <-.
  change (Z.land word 31) with (field word 0 5) in Hf.
  assert (Ht : target = (if field word 31 1 =? 0 then u64 (pc s + imm) else u64 ((pc s - pc s mod 4096) + 4096 * imm)) ∧ 0 ≤ target < 2 ^ 64).
  { assert (Hp : oldPc mod 4096 ≤ oldPc) by (apply Z.mod_le; lia). rewrite page_start in Ha. rewrite Hs. pose proof (Z.mod_pos_bound oldPc 4096 ltac:(lia)).
    apply absolute_spec in Ha as [Ha Hb]; [|destruct (negb _); lia]. split; [|done]. rewrite <- (wrap_small 64 target) by done.
    destruct (field word 31 1 =? 0); cbn [negb] in Ha; rewrite Ha; [done|]. by rewrite (Z.mul_comm imm). }
  destruct Ht as [Ht Hb]. apply (inj Some) in Hx as <-.
  destruct (run_constant fetch (field word 0 5) target (mkCpu (xs s) newPc (other s))) as (x & R & X); [by apply (field_bound word 0 5)|done|done|done|cbn [pc slot] in *; lia|].
  exists 4%nat. eexists. split; [exact R|]. constructor; cbn [xs pc other]; [done|by left; rewrite Hk|intros; by rewrite X, Ht|unfold isLink; by rewrite Hk].
Qed.

(** Where a direct branch goes. *)
Lemma jump_target s k target : 0 ≤ target < 2 ^ 64 → target = pc s + 4 * k → jump s k = target.
Proof using. intros Hb Ht. unfold jump. rewrite <- Ht. by apply wrap_small. Qed.

Lemma resumes_branch word oldPc newPc ws s s' : kind word = Branch → relocateWord options mapBranch word oldPc newPc = inr ws → placed fetch newPc (fillSlot (kind word) ws) →
  in_width 32 word → 0 ≤ oldPc < 2 ^ 64 - 4 → 0 ≤ newPc → newPc + slot (kind word) < 2 ^ 64 → pc s = oldPc → execute word s = Some s' →
  ∃ n t', run fetch n (mkCpu (xs s) newPc (other s)) = Some t' ∧ Resumes word newPc s s' t'.
Proof using map_ok scratch_ok.
  intros Hk H Hfill Hw Hold Hn Hn' Hs Hx. unfold relocateWord in H. pose proof (kind_field word) as F. pose proof (placed_fill _ _ _ Hfill) as [Hf _]. assert (HL : isLink word = negb (field word 31 1 =? 0)) by (unfold isLink; by rewrite Hk, high_bit).
  rewrite Hk in *. change (bool_decide (Branch = Branch)) with true in H. cbn [negb andb app] in H. rewrite signedField_extend in H by done. change (Z.land word 0x3ffffff) with (field word 0 26) in H.
  destruct (absolute _ _) as [|target] eqn:Ha; [done|]. apply absolute_spec in Ha as [Ha Hb]; [|lia]. rewrite high_bit in H by done.
  destruct (branch _ _ _ _) as [|words] eqn:Hbr; [discriminate H|]. apply (inj inr) in H. cbn [app] in H. subst words.
  change (len []) with 0 in Hbr. rewrite Z.mul_0_r, Z.add_0_r in Hbr. cbn [slot] in Hn'.
  assert (J : jump s (signExtend (field word 0 26) 26) = target) by (apply jump_target; [done|lia]).
  assert (Hs' : s' = mkCpu (if negb (field word 31 1 =? 0) then setX 30 (next s) (xs s) else xs s) target (other s)).
  { apply branch_field in F. destruct (field word 31 1 =? 0).
    - rewrite execute_b in Hx by done. unfold branchTo in Hx. rewrite J in Hx. by apply (inj Some) in Hx.
    - rewrite execute_bl, J in Hx by done. by apply (inj Some) in Hx. }
  destruct (run_branch _ _ _ _ (mkCpu (xs s) newPc (other s)) Hbr Hf eq_refl) as (Hl & n & x & R & X & X30); [lia|lia|by apply map_ok|].
  exists n. eexists. split; [exact R|]. subst s'. constructor; rewrite ?HL, ?Hk; cbn [xs pc other] in *.
  - done.
  - right. split; [|done]. unfold isBranch. by rewrite Hk.
  - intros k Hk1 Hk2. rewrite X by done. destruct (negb _); [|done]. rewrite setX_other by auto. done.
  - intros Hlink. rewrite Hlink. split; [by apply setX_same|]. eexists. intros t Ht. apply (run_fill _ _ _ _ Hfill); cbn [slot]; [lia|lia|lia|]. rewrite Ht. auto.
Qed.

(** A branch behind the skip it needs when it is not always taken. *)
Lemma resumes_skip word newPc target k taken skip ws s s' : kind word ∈ [Conditional; Compare; Test] →
  branch (newPc + 4 * len skip) (mapBranch target) false options = inr ws → placed fetch newPc (skip ++ ws) →
  0 ≤ newPc → newPc + 24 < 2 ^ 64 → 0 ≤ target < 2 ^ 64 → target = pc s + k * 4 → execute word s = branchTo taken k s →
  (skip = [] ∧ taken = true ∨ ∃ w, skip = [w] ∧ ∀ t, xs t = xs s → other t = other s → execute w t = branchTo (negb taken) 6 t) →
  execute word s = Some s' → ∃ n t', run fetch n (mkCpu (xs s) newPc (other s)) = Some t' ∧ Resumes word newPc s s' t'.
Proof using map_ok scratch_ok.
  intros Hk Hbr Hf Hn Hn' Hb Ht He Hskip Hx. apply placed_app in Hf as [F0 F1]. fold (len skip) in F1.
  assert (Hslot : slot (kind word) = 24) by (rewrite !elem_of_cons, elem_of_nil in Hk; by destruct Hk as [-> |[-> |[-> |[]]]]).
  assert (HL : isLink word = false) by (unfold isLink; rewrite !elem_of_cons, elem_of_nil in Hk; by destruct Hk as [-> |[-> |[-> |[]]]]).
  assert (HB : isBranch word = true) by (unfold isBranch; rewrite !elem_of_cons, elem_of_nil in Hk; by destruct Hk as [-> |[-> |[-> |[]]]]).
  assert (Hl : 0 ≤ len skip ≤ 1) by (destruct Hskip as [[-> _]|(w & -> & _)]; done).
  rewrite He in Hx. unfold branchTo in Hx. apply (inj Some) in Hx as <-. rewrite (jump_target _ _ target) by (done || lia).
  destruct taken.
  - assert (S : ∃ m, run fetch m (mkCpu (xs s) newPc (other s)) = Some (mkCpu (xs s) (newPc + 4 * len skip) (other s))).
    { destruct Hskip as [[-> _]|(w & -> & Hw)]; [exists 0%nat; cbn; by rewrite Z.add_0_r|]. exists 1%nat. apply placed_cons in F0 as [F0 _]. eapply run_one; [exact F0|].
      rewrite Hw by done. unfold branchTo. cbn [negb]. by rewrite next_small by (cbn [pc]; lia). }
    destruct S as [m S].
    destruct (run_branch _ _ _ _ (mkCpu (xs s) (newPc + 4 * len skip) (other s)) Hbr F1 eq_refl) as (_ & n & x & R & X & _); [lia|lia|by apply map_ok|].
    exists (m + n)%nat. eexists. split; [by rewrite run_app, S|]. constructor; cbn [xs pc other] in *; rewrite ?HL; [done|by right|intros k' Hk1 _; by apply X|done].
  - destruct Hskip as [[_ ?]|(w & -> & Hw)]; [done|]. apply placed_cons in F0 as [F0 _]. exists 1%nat. eexists. split; [eapply run_one; [exact F0|by apply Hw]|].
    constructor; cbn [xs pc other negb]; rewrite ?HL, ?Hslot; [done| |done|done]. left. split; [|done]. apply jump_target; cbn [pc]; lia.
Qed.
Lemma resumes_conditional word oldPc newPc ws s s' : kind word ∈ [Conditional; Compare; Test] → relocateWord options mapBranch word oldPc newPc = inr ws → placed fetch newPc (fillSlot (kind word) ws) →
  in_width 32 word → 0 ≤ oldPc < 2 ^ 64 - 4 → 0 ≤ newPc → newPc + slot (kind word) < 2 ^ 64 → pc s = oldPc → execute word s = Some s' →
  ∃ n t', run fetch n (mkCpu (xs s) newPc (other s)) = Some t' ∧ Resumes word newPc s s' t'.
Proof using map_ok scratch_ok L.
  intros Hk H [Hf _]%placed_fill Hw Hold Hn Hn' Hs Hx. unfold relocateWord in H. pose proof (kind_field word) as F. pose proof Hk as Hk'.
  rewrite !elem_of_cons, elem_of_nil in Hk'. destruct Hk' as [E1|[E1|[E1|[]]]]; rewrite E1 in F, H, Hn'; cbn [slot] in Hn'.
  - change (bool_decide (Conditional = Branch)) with false in H. change (bool_decide (Conditional = Conditional)) with true in H. cbn [negb andb] in H.
    rewrite signedField_extend in H by done. change (Z.land (Z.shiftr word 5) (Z.shiftl 1 19 - 1)) with (field word 5 19) in H. change (Z.land word 15) with (field word 0 4) in H.
    destruct (absolute _ _) as [|target] eqn:Ha; [discriminate H|]. apply absolute_spec in Ha as [Ha Hb]; [|lia].
    destruct (Z.leb_spec 14 (field word 0 4)); cbn [negb] in H.
    + destruct (branch _ _ _ _) as [|words] eqn:Hbr; [discriminate H|]. apply (inj inr) in H. subst ws.
      eapply (resumes_skip word newPc target); [done|done|done|done|lia|done|rewrite Hs; exact Ha|by apply execute_conditional| |done].
      left. split; [done|]. apply condition_always. pose proof (field_bound word 0 4 ltac:(done)). lia.
    + destruct (branch _ _ _ _) as [|words] eqn:Hbr; [discriminate H|]. apply (inj inr) in H. subst ws.
      eapply (resumes_skip word newPc target); [done|exact Hbr|done|done|lia|done|rewrite Hs; exact Ha|by apply execute_conditional| |done].
      right. eexists. split; [done|]. intros t Ht Ht'. etrans; [by apply (skip_conditional word t)|]. unfold takenConditional. by rewrite Ht'.
  - change (bool_decide (Compare = Branch)) with false in H. change (bool_decide (Compare = Conditional)) with false in H. cbn [negb andb] in H.
    rewrite signedField_extend in H by done. change (Z.land (Z.shiftr word 5) (Z.shiftl 1 19 - 1)) with (field word 5 19) in H.
    destruct (absolute _ _) as [|target] eqn:Ha; [discriminate H|]. apply absolute_spec in Ha as [Ha Hb]; [|lia].
    destruct (branch _ _ _ _) as [|words] eqn:Hbr; [discriminate H|]. apply (inj inr) in H. subst ws.
    eapply (resumes_skip word newPc target); [done|exact Hbr|done|done|lia|done|rewrite Hs; exact Ha|by apply execute_compare| |done].
    right. eexists. split; [done|]. intros t Ht Ht'. etrans; [by apply (skip_compare word t)|]. unfold takenCompare, getX. by rewrite Ht.
  - change (bool_decide (Test = Branch)) with false in H. change (bool_decide (Test = Conditional)) with false in H. cbn [negb andb] in H.
    rewrite signedField_extend in H by done. change (Z.land (Z.shiftr word 5) (Z.shiftl 1 14 - 1)) with (field word 5 14) in H.
    destruct (absolute _ _) as [|target] eqn:Ha; [discriminate H|]. apply absolute_spec in Ha as [Ha Hb]; [|lia].
    destruct (branch _ _ _ _) as [|words] eqn:Hbr; [discriminate H|]. apply (inj inr) in H. subst ws.
    eapply (resumes_skip word newPc target); [done|exact Hbr|done|done|lia|done|rewrite Hs; exact Ha|by apply execute_test| |done].
    right. eexists. split; [done|]. intros t Ht Ht'. etrans; [by apply (skip_test word t)|]. unfold takenTest, getX. by rewrite Ht.
Qed.

Lemma literal_fields word rel : 0 ≤ rel < 2 ^ 19 → let w := Z.lor (Z.land word (Z.lnot 0x00ffffe0)) (Z.shiftl rel 5) in
  field w 27 3 = field word 27 3 ∧ field w 24 2 = field word 24 2 ∧ field w 26 1 = field word 26 1 ∧ field w 30 2 = field word 30 2 ∧ field w 0 5 = field word 0 5 ∧ field w 5 19 = rel.
Proof using.
  intros Hr w. assert (W : w = Z.lor (Z.lxor (Z.land word (Z.lnot 0x00ffffe0)) 0) (Z.shiftl rel 5)) by (by rewrite Z.lxor_0_r). rewrite W.
  split_and!; [rewrite field_kept; [done|done..|] ..|apply field_replaced; [done..|]]; rewrite ?(field_shiftl_below rel 5 19), ?field_shiftl_above by lia; try done.
  by apply field_shiftl.
Qed.
Lemma load_word (v : bool) opc reg rt s : 0 ≤ opc < 4 → v && (opc =? 3) = false → 0 ≤ reg ≤ 30 → 0 ≤ rt < 32 →
  let load := if v then if opc =? 0 then 0xbd400000 else if opc =? 1 then 0xfd400000 else 0x3dc00000
    else if opc =? 0 then 0xb9400000 else if opc =? 1 then 0xf9400000 else if opc =? 2 then 0xb9800000 else 0xf9800000 in
  execute (Z.lor (Z.lor load (Z.shiftl reg 5)) rt) s =
    Some (mkCpu (if negb v && (opc <? 3) then setX rt (env_value opc (getX s reg) (other s)) (xs s) else xs s) (next s) (env_access v opc rt (getX s reg) (other s))).
Proof using.
  intros Ho Hv Hr Ht. assert (opc = 0 ∨ opc = 1 ∨ opc = 2 ∨ opc = 3) as Hc by lia.
  destruct v, Hc as [-> |[-> |[-> | ->]]]; try discriminate Hv; cbn [Z.eqb];
    (erewrite execute_load; [| | | | |]; [|by fields|by fields|by fields|fields; lia|]; [|by fields]); cbn zeta; fields; done.
Qed.
Lemma vector_bit w : negb (Z.land w (Z.shiftl 1 26) =? 0) = negb (field w 26 1 =? 0).
Proof using. change (Z.shiftl 1 26) with (Z.shiftl (Z.ones 1) 26). rewrite land_mask, field1 by done. by destruct (Z.testbit w 26). Qed.
Lemma high_bits w : in_width 32 w → Z.shiftr w 30 = field w 30 2.
Proof using. intros Hw. bits i. rewrite testbit_field, Z.shiftr_spec by lia. destruct (Z.ltb_spec i 2); [cbn [andb]; f_equal; lia|]. apply (testbit_high 32); [done|lia]. Qed.
(** The rest of a slot, after words that do not branch. *)
Lemma resumes_fill word newPc ws s s' n t : isLink word = false → placed fetch newPc (fillSlot (kind word) ws) → 4 * len ws ≤ slot (kind word) → 0 ≤ newPc → newPc + slot (kind word) < 2 ^ 64 →
  run fetch n (mkCpu (xs s) newPc (other s)) = Some t → pc t = newPc + 4 * len ws → other t = other s' → pc s' = next s →
  (∀ k, scratchRegister options ≠ Some k → xs t k = xs s' k) → ∃ n t', run fetch n (mkCpu (xs s) newPc (other s)) = Some t' ∧ Resumes word newPc s s' t'.
Proof using.
  intros HL Hf Hl Hn Hn' R Hp Ho Hs Hx. exists (n + (Z.to_nat (slot (kind word) / 4) - length ws))%nat. eexists. split.
  - rewrite run_app, R. cbn [mbind option_bind]. by apply run_fill.
  - constructor; cbn [xs pc other]; rewrite ?HL; [done|by left|intros; by apply Hx|done].
Qed.
Lemma resumes_literal word oldPc newPc ws s s' : kind word = Literal → relocateWord options mapBranch word oldPc newPc = inr ws → placed fetch newPc (fillSlot (kind word) ws) →
  in_width 32 word → 0 ≤ oldPc < 2 ^ 64 - 4 → 0 ≤ newPc → newPc + slot (kind word) < 2 ^ 64 → pc s = oldPc → execute word s = Some s' →
  ∃ n t', run fetch n (mkCpu (xs s) newPc (other s)) = Some t' ∧ Resumes word newPc s s' t'.
Proof using scratch_ok.
  intros Hk H Hfill Hw Hold Hn Hn' Hs Hx. unfold relocateWord in H. pose proof (kind_field word) as F. rewrite Hk in *. destruct F as [F1 F2].
  rewrite signedField_extend in H by done. change (Z.land (Z.shiftr word 5) 0x7ffff) with (field word 5 19) in H.
  destruct (absolute _ _) as [|target] eqn:Ha; [discriminate H|]. apply absolute_spec in Ha as [Ha Hb]; [|lia].
  rewrite execute_literal, (jump_target s _ target) in Hx by (done || lia).
  destruct (relative newPc target 19) as [rel|] eqn:Hrel.
  - apply (inj inr) in H as <-. apply relative_spec in Hrel as [Hr1 Hr2]; [|done|cbn [slot] in Hn'; lia|done].
    destruct (literal_fields word rel Hr1) as (L1 & L2 & L3 & L4 & L5 & L6). pose proof (placed_fill _ _ _ Hfill) as [[F0 _]%placed_cons _].
    destruct (negb _ && (field word 30 2 =? 3)) eqn:Hv; [done|]. apply (inj Some) in Hx as <-.
    eapply (resumes_fill word newPc); rewrite ?Hk; [unfold isLink; by rewrite Hk|exact Hfill|done|done|done| | | | |].
    + eapply run_one; [exact F0|]. rewrite execute_literal by by (rewrite ?L1, ?L2). rewrite L3, L4, L5, L6, (jump_target _ _ target) by (cbn [pc]; done || lia). by rewrite Hv.
    + cbn [pc]. apply next_small; cbn [pc slot] in *; lia.
    + done.
    + done.
    + done.
  - rewrite vector_bit, high_bits in H by done. change (Z.land word 31) with (field word 0 5) in H. set (v := negb (field word 26 1 =? 0)) in *. set (opc := field word 30 2) in *. set (rt := field word 0 5) in *.
    pose proof (field_bound word 0 5 ltac:(done) : 0 ≤ rt < 32) as Hrt. pose proof (field_bound word 30 2 ltac:(done) : 0 ≤ opc < 4) as Hopc.
    destruct (v && (opc =? 3)) eqn:Hv; [done|]. apply (inj Some) in Hx as <-.
    destruct (if negb v && (opc <? 3) && negb (rt =? 31) then Some rt else scratchRegister options) as [reg|] eqn:Hreg; [|discriminate H]. apply (inj inr) in H. 
    subst ws.
    assert (Hr : 0 ≤ reg ≤ 30).
    { destruct (negb v && (opc <? 3) && negb (rt =? 31)) eqn:Hb'; [|by apply scratch_ok]. apply (inj Some) in Hreg. bool_to_prop. lia. }
    pose proof (placed_fill _ _ _ Hfill) as [[F0 [F3 _]%placed_cons]%placed_app _].
    destruct (run_constant fetch reg target (mkCpu (xs s) newPc (other s))) as (x & R & X); [lia|done|exact F0|done|cbn [pc slot] in *; lia|].
    assert (G : ∀ p, getX (mkCpu x p (other s)) reg = target).
    { intros p. unfold getX. rewrite (proj2 (Z.eqb_neq _ _)) by lia. cbn [xs]. rewrite X. apply setX_same. lia. }
    eapply (resumes_fill word newPc _ _ _ (4 + 1)); rewrite ?Hk; [unfold isLink; by rewrite Hk|exact Hfill|done|done|done| | | | |].
    + rewrite run_app, R. cbn [mbind option_bind]. eapply run_one; [exact F3|]. rewrite load_word by done. by rewrite G.
    + cbn [pc]. rewrite next_small by (cbn [pc slot] in *; lia). cbn [pc]. change (len _) with 5. lia.
    + done.
    + done.
    + intros k Hks. cbn [xs].
      assert (O : scratchRegister options = Some reg → x k = xs s k) by (intros HS; rewrite X; apply setX_other; congruence).
      destruct (negb v && (opc <? 3)); [|by apply O]. destruct (Z.eqb_spec rt 31) as [E1|E1]; cbn [andb negb] in Hreg.
      * rewrite E1. by apply O.
      * apply (inj Some) in Hreg. subst reg. destruct (Z.eq_dec k rt) as [->|Hne]; [by rewrite !setX_same|]. by rewrite !setX_other, X, setX_other.
Qed.

(** Every relocated instruction. *)
Lemma relocateWord_resumes word oldPc newPc ws s s' : kind word ≠ Copy → relocateWord options mapBranch word oldPc newPc = inr ws → placed fetch newPc (fillSlot (kind word) ws) →
  in_width 32 word → 0 ≤ oldPc < 2 ^ 64 - 4 → 0 ≤ newPc → newPc + slot (kind word) < 2 ^ 64 → pc s = oldPc → execute word s = Some s' →
  ∃ n t', run fetch n (mkCpu (xs s) newPc (other s)) = Some t' ∧ Resumes word newPc s s' t'.
Proof using map_ok scratch_ok L.
  intros Hc H Hf Hw Ho Hn Hn' Hs Hx. destruct (kind word) eqn:Hk; rewrite <- Hk in *.
  - by destruct Hc.
  - eapply resumes_address; eassumption.
  - eapply resumes_branch; eassumption.
  - eapply resumes_conditional; try eassumption. rewrite Hk. by left.
  - eapply resumes_conditional; try eassumption. rewrite Hk. by right; left.
  - eapply resumes_conditional; try eassumption. rewrite Hk. by right; right; left.
  - eapply resumes_literal; eassumption.
Qed.
End Resumes.

(** ** A block *)

Lemma emitAll_app out l : emitAll out l = out ++ emitAll [] l.
Proof. unfold emitAll. revert out. induction l as [|w l IH]; intros out; cbn [foldl]; [by rewrite app_nil_r|]. rewrite IH, (IH (emit [] w)). unfold emit. cbn [app]. by rewrite <- app_assoc. Qed.
Lemma emitAll_cons w l : emitAll [] (w :: l) = le_bytes 4 w ++ emitAll [] l.
Proof. unfold emitAll at 1. cbn [foldl]. fold (emitAll (emit [] w) l). by rewrite emitAll_app. Qed.
Lemma len_emitAll l : len (emitAll [] l) = 4 * len l.
Proof. induction l as [|w l IH]; [done|]. rewrite emitAll_cons, len_app, IH, len_cons. unfold len. rewrite length_le_bytes. lia. Qed.
Lemma emitAll_ok l out : bytes_ok out → bytes_ok (emitAll out l).
Proof. revert out. induction l as [|w l IH]; intros out Ho; [done|]. apply IH, bytes_ok_app. split; [done|apply le_bytes_ok]. Qed.
Lemma slice_skip {A} (l k : list A) off n : len l ≤ off → slice (l ++ k) off n = slice k (off - len l) n.
Proof. intros H. unfold slice, len in *. rewrite drop_app_ge by lia. do 2 f_equal. lia. Qed.
Lemma slice_here {A} (l k m : list A) n : n = len k → slice (l ++ k ++ m) (len l) n = k.
Proof. intros ->. rewrite slice_skip by done. rewrite Z.sub_diag. unfold slice, len. rewrite Nat2Z.id, drop_0. by rewrite take_app_length. Qed.
Lemma wordAt_emitAll l j w : Forall (in_width 32) l → l !! j = Some w → wordAt (emitAll [] l) (4 * Z.of_nat j) = w.
Proof.
  intros Hl. revert j. induction Hl as [|x l Hx Hl IH]; intros [|j]; cbn [lookup list_lookup]; try done.
  - intros [= <-]. rewrite emitAll_cons. unfold wordAt. rewrite <- (app_nil_l (_ ++ _)), (slice_here [] (le_bytes 4 x)) by done. rewrite le_val_le_bytes. by apply (wrap_small 32).
  - intros Hj. rewrite emitAll_cons. unfold wordAt. rewrite slice_skip by (unfold len; rewrite length_le_bytes; lia). rewrite <- (IH j) by done. unfold wordAt. do 2 f_equal. unfold len. rewrite length_le_bytes. lia.
Qed.
Lemma wordAt_slice res o n j : 0 ≤ o → 0 ≤ j → j + 4 ≤ n → wordAt res (o + j) = wordAt (slice res o n) j.
Proof. intros. unfold wordAt. by rewrite slice_slice by lia. Qed.

Section Block.
Context (options : Options) (mapBranch : Z → Z).

Lemma branch_length p target link ws : branch p target link options = inr ws → len ws ≤ 5.
Proof using. unfold branch. intros H. repeat case_match; try discriminate H; by apply (inj inr) in H as <-. Qed.
Lemma skip_length (c : bool) (x : Z) : len (if c then [x] else []) ≤ 1.
Proof using. by destruct c. Qed.
Lemma relocateWord_length word oldPc newPc ws : relocateWord options mapBranch word oldPc newPc = inr ws → 4 * len ws ≤ slot (kind word).
Proof using.
  unfold relocateWord. intros H. destruct (kind word) eqn:Hk; cbn [slot].
  - by apply (inj inr) in H as <-.
  - destruct (absolute _ _); [discriminate H|]. by apply (inj inr) in H as <-.
  - destruct (absolute _ _); [discriminate H|]. destruct (branch _ _ _ _) eqn:Hb; [discriminate H|]. apply branch_length in Hb. apply (inj inr) in H as <-. change (bool_decide (Branch = Branch)) with true. cbn [negb andb app]. lia.
  - destruct (absolute _ _); [discriminate H|]. destruct (branch _ _ _ _) eqn:Hb; [discriminate H|]. apply branch_length in Hb. apply (inj inr) in H as <-. rewrite len_app. match goal with |- context [len (if ?c then [?x] else [])] => pose proof (skip_length c x) end. lia.
  - destruct (absolute _ _); [discriminate H|]. destruct (branch _ _ _ _) eqn:Hb; [discriminate H|]. apply branch_length in Hb. apply (inj inr) in H as <-. rewrite len_app. match goal with |- context [len (if ?c then [?x] else [])] => pose proof (skip_length c x) end. lia.
  - destruct (absolute _ _); [discriminate H|]. destruct (branch _ _ _ _) eqn:Hb; [discriminate H|]. apply branch_length in Hb. apply (inj inr) in H as <-. rewrite len_app. match goal with |- context [len (if ?c then [?x] else [])] => pose proof (skip_length c x) end. lia.
  - destruct (absolute _ _); [discriminate H|]. destruct (relative _ _ _); [by apply (inj inr) in H as <-|]. destruct (if _ : bool then _ else _); [|discriminate H]. by apply (inj inr) in H as <-.
Qed.

(** Every emitted word has 32 bits. *)
Lemma in_width_shiftl v m k : 0 ≤ v < 2 ^ m → 0 ≤ k → 0 ≤ m → m + k ≤ 32 → in_width 32 (Z.shiftl v k).
Proof using. intros Hv Hk Hm Hmk. apply in_width_bits; [done|apply Z.shiftl_nonneg; lia|]. intros i Hi. rewrite Z.shiftl_spec by lia. apply (testbit_high m); [done|lia]. Qed.
Lemma in_width_small v m : 0 ≤ v < 2 ^ m → 0 ≤ m ≤ 32 → in_width 32 v.
Proof using. intros Hv Hm. unfold in_width. assert (2 ^ m ≤ 2 ^ 32) by (apply Z.pow_le_mono_r; lia). lia. Qed.
Lemma in_width_clear w m : in_width 32 w → in_width 32 (Z.land w (Z.lnot m)).
Proof using. intros Hw. apply in_width_bits; [done|apply Z.land_nonneg; left; by destruct Hw|]. intros i Hi. by rewrite Z.land_spec, (testbit_high 32 w) by done. Qed.
Lemma constant_u32 reg v : 0 ≤ reg < 32 → Forall (in_width 32) (constant reg v).
Proof using.
  intros Hr. assert (S : ∀ c i, 0 ≤ c < 2 ^ 32 → 0 ≤ i < 4 → in_width 32 (Z.lor (Z.lor (Z.lor c (Z.shiftl i 21)) (Z.shiftl (Z.land (Z.shiftr v (16 * i)) 65535) 5)) reg)).
  { intros c i Hc Hi. repeat apply in_width_lor; first [lia|exact Hc|apply (in_width_shiftl i 2); lia|apply (in_width_shiftl _ 16); [apply chunk_bound|lia..]|apply (in_width_small reg 5); lia]. }
  unfold constant. cbn [fmap list_fmap]. repeat (apply Forall_cons; split; [by apply S|]). by apply Forall_nil.
Qed.
Lemma branch_u32 p target link ws : (∀ r, scratchRegister options = Some r → 0 ≤ r ≤ 30) → branch p target link options = inr ws → 0 ≤ p < 2 ^ 64 → 0 ≤ target < 2 ^ 64 → Forall (in_width 32) ws.
Proof using.
  intros HS H Hp Ht. unfold branch in H. destruct (relative p target 26) as [rel|] eqn:Hrel.
  - apply (inj inr) in H as <-. apply relative_spec in Hrel as [Hr _]; [|done..]. apply Forall_singleton, in_width_lor; [done|by destruct link|]. by apply (in_width_small rel 26).
  - destruct (negb _); [discriminate H|]. destruct (if link then Some 30 else scratchRegister options) as [reg|] eqn:Hreg; [|discriminate H]. apply (inj inr) in H as <-.
    assert (Hr : 0 ≤ reg ≤ 30) by (destruct link; [by simplify_eq|by apply HS]).
    apply Forall_app. split; [apply constant_u32; lia|]. apply Forall_singleton, in_width_lor; [done|by destruct link|]. apply (in_width_shiftl reg 5); lia.
Qed.
Context (scratch_ok : ∀ r, scratchRegister options = Some r → 0 ≤ r ≤ 30) (map_ok : ∀ t, 0 ≤ t < 2 ^ 64 → 0 ≤ mapBranch t < 2 ^ 64).
Lemma skip_u32 (c : bool) type w m (b : bool) : in_width 32 w → Forall (in_width 32) (if c then [Z.lor (Z.lxor (Z.land w (Z.lnot m)) (if b then 1 else 0x01000000)) (Z.shiftl (slot type / 4) 5)] else []).
Proof using.
  intros Hw. destruct c; [|by apply Forall_nil]. apply Forall_singleton, in_width_lor; [done|apply in_width_lxor; [done|by apply in_width_clear|by destruct b]|by destruct type].
Qed.
Lemma relocateWord_u32 word oldPc newPc ws : in_width 32 word → 0 ≤ oldPc < 2 ^ 64 → 0 ≤ newPc → newPc + slot (kind word) < 2 ^ 64 → relocateWord options mapBranch word oldPc newPc = inr ws → Forall (in_width 32) ws.
Proof using scratch_ok map_ok.
  unfold relocateWord. intros Hw Ho Hn Hn' H. pose proof (field_bound word 0 5 ltac:(done)) as Hrt. change (Z.land word 31) with (field word 0 5) in H.
  destruct (kind word) eqn:Hk; cbn [slot] in Hn'; [apply (inj inr) in H as <-; by apply Forall_singleton| | | | | |];
    (destruct (absolute _ _) as [|target] eqn:Ha; [discriminate H|]); try (apply absolute_spec in Ha as [_ Hb]; [|done]).
  1: by apply (inj inr) in H as <-; apply constant_u32.
  1-4: (destruct (branch _ _ _ _) as [|words] eqn:Hbr; [discriminate H|]); apply (inj inr) in H as <-; apply Forall_app; (split; [by apply skip_u32|]);
    apply branch_u32 in Hbr; [done|done| |by apply map_ok];
    match goal with |- context [len (if ?c then [?x] else [])] => pose proof (skip_length c x); pose proof (len_nonneg (if c then [x] else [])) end; lia.
  destruct (relative _ _ _) as [rel|] eqn:Hrel.
  - apply relative_spec in Hrel as [Hr _]; [|done|lia|done]. apply (inj inr) in H as <-. apply Forall_singleton, in_width_lor; [done|by apply in_width_clear|]. by apply (in_width_shiftl rel 19).
  - destruct (if _ : bool then _ else _) as [reg|] eqn:Hreg; [|discriminate H]. apply (inj inr) in H as <-.
    assert (Hr : 0 ≤ reg ≤ 30). { destruct (_ && _) eqn:Hb' in Hreg; [|by apply scratch_ok]. apply (inj Some) in Hreg. bool_to_prop. lia. }
    apply Forall_app. split; [apply constant_u32; lia|]. apply Forall_singleton. repeat apply in_width_lor; first [lia|apply (in_width_shiftl reg 5); lia|apply (in_width_small _ 5); lia|by repeat case_match].
Qed.

Lemma fill_length word oldPc newPc ws : relocateWord options mapBranch word oldPc newPc = inr ws → 4 * len (fillSlot (kind word) ws) = slot (kind word).
Proof using.
  intros H%relocateWord_length. unfold fillSlot. rewrite len_app. unfold len in *. rewrite length_replicate. assert (4 * (slot (kind word) / 4) = slot (kind word)) by (by destruct (kind word)). lia.
Qed.
Lemma slot_pos type : 4 ≤ slot type.
Proof using. by destruct type. Qed.
Lemma layout_size same words size : size ≤ (layout same words size).2.
Proof using. revert size. induction words as [|w words IH]; intros size; [done|]. cbn [layout snd]. pose proof (IH (size + (if same then 4 else slot (kind w)))). pose proof (slot_pos (kind w)). destruct same; lia. Qed.
(** The slot of every instruction: where it is, and what it holds. *)
Lemma relocateWords_slots destination words oldPc out res : relocateWords options mapBranch destination words oldPc out = inr res →
  let r := layout false words (len out) in
  (∃ tail, res = out ++ tail) ∧ len res = r.2 ∧
  ∀ i word, words !! i = Some word → ∃ o ws, r.1 !! i = Some o ∧ (r.1 ++ [r.2]) !! S i = Some (o + slot (kind word)) ∧ (len out ≤ o ∧ o + slot (kind word) ≤ r.2) ∧ (o - len out) mod 4 = 0 ∧
    relocateWord options mapBranch word (oldPc + 4 * Z.of_nat i) (destination + o) = inr ws ∧ slice res o (slot (kind word)) = emitAll [] (fillSlot (kind word) ws).
Proof using.
  revert oldPc out. induction words as [|w words IH]; intros oldPc out H; cbn [relocateWords] in H.
  - apply (inj inr) in H as <-. split_and!; [exists []; by rewrite app_nil_r|done|done].
  - destruct (relocateWord _ _ _ _ _) as [|ws] eqn:Hw; [discriminate H|]. rewrite emitAll_app in H. pose proof (fill_length _ _ _ _ Hw) as Hl. rewrite <- len_emitAll in Hl.
    apply IH in H as ((tail & Ht) & Hlen & Hslots). rewrite len_app, Hl in *. cbn [layout fst snd]. split_and!.
    + exists (emitAll [] (fillSlot (kind w) ws) ++ tail). by rewrite Ht, <- app_assoc.
    + done.
    + intros [|i] x; cbn [lookup list_lookup].
      * intros [= <-]. exists (len out), ws. rewrite Z.mul_0_r, Z.add_0_r, Z.sub_diag. split_and!; [done| |done|apply layout_size|done|done|].
        -- destruct words; cbn [layout fst snd app]; done.
        -- rewrite Ht, <- app_assoc. by apply slice_here.
      * intros Hi. destruct (Hslots _ _ Hi) as (o & ws' & H1 & H2 & [H3 H3'] & H4 & H5 & H6). exists o, ws'. split_and!; [done|done|pose proof (slot_pos (kind w)); lia|done| |by rewrite <- H5; f_equal; lia|done].
        assert (S : slot (kind w) mod 4 = 0) by (by destruct (kind w)). rewrite <- H4. replace (o - len out) with (o - (len out + slot (kind w)) + slot (kind w)) by lia. by rewrite Z.add_mod, S, Z.add_0_r, Z.mod_mod by done.
Qed.
End Block.

Lemma layout_length same words size : length (layout same words size).1 = length words.
Proof. revert size. induction words as [|w words IH]; intros size; [done|]. cbn [layout fst length]. by rewrite IH. Qed.
Lemma layout_bound same words size i o : (layout same words size).1 !! i = Some o → size ≤ o ≤ (layout same words size).2.
Proof.
  revert size i. induction words as [|w words IH]; intros size [|i]; cbn [layout fst snd]; try done.
  - intros [= <-]. pose proof (layout_size same words (size + (if same then 4 else slot (kind w)))). pose proof (slot_pos (kind w)). destruct same; lia.
  - intros H. specialize (IH _ _ H). pose proof (slot_pos (kind w)). destruct same; lia.
Qed.
Lemma mapBranch_u64 source length destination offsets size : 0 ≤ destination → 0 ≤ size → destination + size < 2 ^ 64 → (∀ i o, offsets !! i = Some o → 0 ≤ o ≤ size) →
  ∀ t, 0 ≤ t < 2 ^ 64 → 0 ≤ mapBranch source length destination offsets t < 2 ^ 64.
Proof.
  intros Hd Hs Hds Ho t Ht. unfold mapBranch. destruct (_ && _); [|done]. destruct (lget offsets _) as [o|] eqn:E; cbn; [|lia].
  unfold lget in E. destruct (0 <=? _); [|done]. apply Ho in E. lia.
Qed.
Lemma sourceWords_u32 code i w : bytes_ok code → sourceWords code !! i = Some w → in_width 32 w ∧ 4 * Z.of_nat i + 4 ≤ len code.
Proof.
  intros Hc. unfold sourceWords. rewrite list_lookup_fmap. intros (j & Hj & ->)%fmap_Some. apply lookup_seqZ in Hj as [-> Hi].
  assert (4 * Z.of_nat i + 4 ≤ len code) by (pose proof (Z.mul_div_le (len code) 4 ltac:(done)); lia). split; [|lia].
  unfold wordAt. pose proof (le_val_bound (slice code (4 * (0 + Z.of_nat i)) 4) (bytes_ok_slice _ _ _ Hc)) as B. rewrite len_slice in B by lia. exact B.
Qed.
(** The result of a relocation that moves the code. *)
Lemma relocateAarch64_ok decode code source destination options result : relocateAarch64 decode code source destination options = inr result → source ≠ destination →
  let r := layout false (sourceWords code) 0 in
  rl_instructionOffsets result = r.1 ∧ destination + r.2 < 2 ^ 64 ∧ source + len code < 2 ^ 64 ∧ (∀ r, scratchRegister options = Some r → r ≤ 30) ∧
  (source mod 4 = 0 ∧ destination mod 4 = 0) ∧ relocateWords options (mapBranch source (len code) destination r.1) destination (sourceWords code) source [] = inr (rl_bytes result).
Proof.
  intros H Hne. unfold relocateAarch64 in H. rewrite (proj2 (Z.eqb_neq _ _) Hne) in H. destruct (layout false (sourceWords code) 0) as [offsets size] eqn:Hlay.
  destruct (_ || _ || _ || _) eqn:G1 in H; [discriminate H|]. destruct ((_ <? _) || _) eqn:G2 in H; [discriminate H|].
  destruct (match scratchRegister options with Some r => 30 <? r | None => false end) eqn:G3; [discriminate H|].
  destruct (_ || _) in H; [discriminate H|]. destruct (_ <? size) eqn:G4 in H; [discriminate H|].
  destruct (relocateWords _ _ _ _ _ _) as [|out] eqn:Hr; [discriminate H|]. apply (inj inr) in H as <-. cbn [rl_instructionOffsets rl_bytes fst snd]. unfold UINT64_MAX in *. bool_to_prop.
  split_and!; [done|lia|lia| |done|done|done]. intros r E. rewrite E in G3. bool_to_prop. lia.
Qed.

(** C13: The relocated block: the slots follow each other, an instruction that does not use its
    address is copied, and any other does in its slot what it did, on every memory that holds
    the block at the destination. *)
Theorem relocated_code_resumes {E : A64Env} {L : A64Laws E} decode code source destination options result :
  relocateAarch64 decode code source destination options = inr result → source ≠ destination → bytes_ok code → 0 ≤ source → 0 ≤ destination → (∀ r, scratchRegister options = Some r → 0 ≤ r) →
  let offsets := rl_instructionOffsets result in
  length offsets = length (sourceWords code) ∧
  ∀ i word, sourceWords code !! i = Some word → ∃ o, offsets !! i = Some o ∧ (offsets ++ [len (rl_bytes result)]) !! S i = Some (o + slot (kind word)) ∧
    (kind word = Copy → wordAt (rl_bytes result) o = word) ∧
    (kind word ≠ Copy → ∀ fetch, (∀ k, 0 ≤ k → k + 4 ≤ len (rl_bytes result) → k mod 4 = 0 → fetch (destination + k) = Some (wordAt (rl_bytes result) k)) →
      ∀ s s' : Cpu, pc s = source + 4 * Z.of_nat i → execute word s = Some s' →
      ∃ n t', run fetch n (mkCpu (xs s) (destination + o) (other s)) = Some t' ∧ Resumes options fetch (mapBranch source (len code) destination offsets) word (destination + o) s s' t').
Proof.
  intros H Hne Hc Hs Hd Hscr offsets. apply relocateAarch64_ok in H as (Hoff & Hsize & Hend & Hscr' & [Hs4 Hd4] & Hrun); [|done].
  pose proof (relocateWords_slots _ _ _ _ _ _ _ Hrun) as (_ & Hlen & Hslots). cbn zeta in Hslots. change (len []) with 0 in *. unfold offsets. rewrite Hoff. split; [apply layout_length|].
  intros i word Hi. destruct (Hslots _ _ Hi) as (o & ws & H1 & H2 & [H3 H3'] & H4 & H5 & H6). clear Hslots. exists o. rewrite Hlen. destruct (sourceWords_u32 _ _ _ Hc Hi) as [Hw Hi4].
  assert (Hso : ∀ r, scratchRegister options = Some r → 0 ≤ r ≤ 30) by (intros r Er; by split; [apply Hscr|apply Hscr']).
  pose proof (layout_size false (sourceWords code) 0) as Hl0.
  assert (Hmap : ∀ t, 0 ≤ t < 2 ^ 64 → 0 ≤ mapBranch source (len code) destination (layout false (sourceWords code) 0).1 t < 2 ^ 64).
  { apply (mapBranch_u64 _ _ _ _ (layout false (sourceWords code) 0).2); [done|done|done|]. intros j oj Hj. by apply layout_bound in Hj. }
  rewrite Z.sub_0_r in H4. pose proof (fill_length _ _ _ _ _ _ H5) as Hfl.
  assert (Hws : Forall (in_width 32) (fillSlot (kind word) ws)).
  { apply Forall_app. split; [|by apply Forall_replicate]. eapply (relocateWord_u32 options _ Hso Hmap word); [done| |..|exact H5]; lia. }
  assert (Hword : ∀ j w, fillSlot (kind word) ws !! j = Some w → wordAt (rl_bytes result) (o + 4 * Z.of_nat j) = w).
  { intros j w Hj. rewrite (wordAt_slice _ _ (slot (kind word))) by (apply lookup_lt_Some in Hj; unfold len in Hfl; lia). rewrite H6. by apply wordAt_emitAll. }
  split_and!; [done|done| |].
  - intros Hk. rewrite <- (Z.add_0_r o). change 0 with (4 * Z.of_nat 0). apply Hword. unfold relocateWord in H5. rewrite Hk in *. by apply (inj inr) in H5 as <-.
  - intros Hk fetch Hfetch s s' Hpc Hx. eapply (relocateWord_resumes options fetch Hso _ Hmap word (source + 4 * Z.of_nat i)); [done|exact H5| |done|lia|lia|lia|done|done].
    intros j w Hj. rewrite <- (Hword _ _ Hj), <- Z.add_assoc. apply lookup_lt_Some in Hj. apply Hfetch; [lia|unfold len in Hfl; lia|].
    by rewrite Z.mul_comm, Z.mod_add.
Qed.

(** A machine without memory, whose conditions read four flags. *)
#[local] Instance flags : A64Env := {|
  env := Z;
  env_condition c e := if 14 <=? c then true else xorb (Z.testbit e (c / 2)) (Z.testbit c 0);
  env_value _ a _ := a;
  env_access _ _ _ _ e := e
|}.
#[local] Instance flags_laws : A64Laws flags.
Proof.
  split; intros c e Hc; cbn [env_condition flags].
  - assert (c = 0 ∨ c = 1 ∨ c = 2 ∨ c = 3 ∨ c = 4 ∨ c = 5 ∨ c = 6 ∨ c = 7 ∨ c = 8 ∨ c = 9 ∨ c = 10 ∨ c = 11 ∨ c = 12 ∨ c = 13) as H by lia.
    by repeat destruct H as [->|H]; try (cbn; by destruct (Z.testbit e _)); subst c; cbn; destruct (Z.testbit e _).
  - by rewrite (proj2 (Z.leb_le _ _)) by lia.
Qed.
(** [b.eq +8; nop; cbz x3, -8; bl +64], moved far away. *)
Definition sampleCode : bytes := emitAll [] [0x54000040; nop; 0xb4ffffc3; 0x94000010].
Definition sampleOptions : Options := mkOptions (Some 17) true.
Definition sampleDecode (address : Z) (code : bytes) : list Z := replicate (Z.to_nat (len code / 4)) 4.
Definition sampleResult : Relocated :=
  match relocateAarch64 sampleDecode sampleCode 4096 (2 ^ 40) sampleOptions with inr r => r | inl _ => mkRelocated [] [] end.
Example sample_offsets : rl_instructionOffsets sampleResult = [0; 24; 28; 52] ∧ len (rl_bytes sampleResult) = 72.
Proof. by vm_compute. Qed.
Definition sampleFetch (a : Z) : option Z := Some (wordAt (rl_bytes sampleResult) (a - 2 ^ 40)).
Lemma relocated_code_resumes_witness : relocateAarch64 sampleDecode sampleCode 4096 (2 ^ 40) sampleOptions = inr sampleResult ∧
  ∃ n t', run sampleFetch n (mkCpu (λ k, k) (2 ^ 40 + 52) 6) = Some t' ∧ pc t' = 4172.
Proof.
  assert (E : relocateAarch64 sampleDecode sampleCode 4096 (2 ^ 40) sampleOptions = inr sampleResult) by (by vm_compute). split; [exact E|].
  destruct (relocated_code_resumes (E := flags) _ _ _ _ _ _ E ltac:(done) (emitAll_ok _ [] ltac:(constructor)) ltac:(done) ltac:(done) ltac:(by intros ? [= <-])) as [_ H].
  destruct (H 3%nat 0x94000010 ltac:(by vm_compute)) as (o & Ho & _ & _ & Hs). rewrite (proj1 sample_offsets) in Ho. injection Ho as <-.
  destruct (Hs ltac:(by vm_compute) sampleFetch) with (s := @mkCpu flags (λ k, k) 4108 6) (s' := @mkCpu flags (setX 30 4112 (λ k, k)) 4172 6) as (n & t' & R & [_ P _ _]); [|done|by vm_compute|].
  - intros k _ _ _. unfold sampleFetch. do 2 f_equal. lia.
  - exists n, t'. split; [exact R|]. destruct P as [[_ P]|[_ P]]; [done|]. rewrite P. by vm_compute.
Defined.
