(* ===== verification/AutoUndo.v ===== *)
(** * The auto assembler: undoing a script

    Models what [src/core/autoasm.cpp] keeps of an enabled script and how [cleanup] takes it
    back: the original bytes under overlapping writes, the check that code is still its own,
    the hand-over of originals to newer scripts, and the memory it frees.  Shared pointers
    ([DisableInfo::Ownership], the flags of released allocations) are numbers into a store;
    the process and its pinned image are a parameter.  The log is left out, and an error is a
    value for each message. *)

From stdpp Require Import sorting.
From S2P Require Import Prelude Types.
#[local] Open Scope Z_scope.

(** ** Saved state *)

(** [DisableInfo] and its parts.  An image, an ownership and a released flag are the numbers
    of the shared objects. *)
Record OriginalBytes := mkOriginal {
  ob_address : Z; ob_bytes : bytes; ob_written : bytes; ob_executable : bool;
  ob_allocationReleased : option nat; ob_verifyOwnership : bool
}.
Record AllocEntry := mkAlloc {
  al_name : bytes; al_address : Z; al_size : Z; al_released : option nat; al_owner : option nat; al_image : option nat
}.
Record Protection := mkProtection { pr_address : Z; pr_size : Z; pr_protection : Z; pr_allocationReleased : option nat }.
Record DisableInfo := mkDisable {
  di_allocs : list AllocEntry; di_originals : list OriginalBytes; di_symbols : gmap bytes Z; di_protections : list Protection;
  di_image : option nat; di_ownership : option nat; di_scriptSymbols : gmap bytes Z; di_runDisableSection : bool
}.
Definition emptyInfo : DisableInfo := mkDisable [] [] ∅ [] None None ∅ false.
Definition withOriginals (i : DisableInfo) (l : list OriginalBytes) : DisableInfo :=
  mkDisable (di_allocs i) l (di_symbols i) (di_protections i) (di_image i) (di_ownership i) (di_scriptSymbols i) (di_runDisableSection i).
Definition withProtections (i : DisableInfo) (l : list Protection) : DisableInfo :=
  mkDisable (di_allocs i) (di_originals i) (di_symbols i) l (di_image i) (di_ownership i) (di_scriptSymbols i) (di_runDisableSection i).
Definition withAllocs (i : DisableInfo) (l : list AllocEntry) : DisableInfo :=
  mkDisable l (di_originals i) (di_symbols i) (di_protections i) (di_image i) (di_ownership i) (di_scriptSymbols i) (di_runDisableSection i).
(** [DisableInfo::Ownership]; [ow_locked]: another thread holds its mutex. *)
Record Ownership := mkOwnership { ow_locked : bool; ow_complete : bool; ow_restoreOverrides : list (Z * bytes) }.
Record LivePatch := mkLive { lp_owner : nat; lp_image : option nat; lp_pid : Z; lp_ranges : list (Z * Z) }.

(** Every message of a failure. *)
Inductive UndoError : Set :=
  | InProgress | OtherProcess | ImageFailed | ThreadRunning | RangeOverflow | CannotInspect (address : Z)
  | OwnershipChanged (address : Z) | CannotRestore (address : Z) | VerificationFailed (address : Z)
  | CannotProtect (address : Z) | CannotFree (name : bytes) | ScriptFailed (message : bytes) | RollbackIncomplete.
Record AutoAsmResult := mkResult { ar_success : bool; ar_error : list UndoError; ar_disableInfo : DisableInfo }.

(** ** The target *)

(** A write: how much was transferred, refused because a thread runs there, or another error. *)
Inductive Transfer : Set := Wrote (n : Z) | WriteBusy | WriteFailed.
#[export] Instance Transfer_eq_dec : EqDecision Transfer.
Proof. solve_decision. Defined.
Inductive ImageState : Set := ImageLive | ImageRetired | ImageBroken.
(** [ProcessHandle], and [os::NativeMemoryImage] when the image is pinned: a read gives the
    bytes it transferred, a write how many, and what may change the target gives it back. *)
Class AaTarget := {
  target : Type;
  tg_pid : Z;
  tg_pin : target → option (option nat);
  tg_imagePid : nat → Z;
  tg_identity : nat → Z;
  tg_check : nat → target → ImageState;
  tg_read : option nat → Z → Z → target → option bytes;
  tg_write : option nat → bool → Z → bytes → target → Transfer * target;  (* as code or as data *)
  tg_region : Z → target → option MemoryRegion;
  tg_protect : option nat → Z → Z → Z → target → bool * target;
  tg_allocate : option nat → Z → Z → target → option Z * target;
  tg_free : option nat → Z → Z → target → bool * target;
  tg_busy : Z → Z → target → bool;
  tg_pageSize : Z;
  tg_isX86 : Z → target → bool  (* the machine of code at an address *)
}.

(** ** Bytes over bytes *)

(** [std::copy_n] of the part of [src], at [from], that lies inside [dst], at [address]. *)
Definition copyOver (dst : bytes) (address : Z) (src : bytes) (from : Z) : bytes :=
  let lo := Z.max address from in
  let hi := Z.min (address + (len dst - 1)) (from + (len src - 1)) in
  if lo <=? hi then take (Z.to_nat (lo - address)) dst ++ slice src (lo - from) (hi - lo + 1) ++ drop (Z.to_nat (hi - address + 1)) dst else dst.
(** The range is empty or runs over the end of the address space. *)
Definition noRange (address : Z) (b : bytes) : bool := bool_decide (b = []) || (UINTPTR_MAX - address <? len b - 1).
Definition withBytes (p : OriginalBytes) (b : bytes) : OriginalBytes :=
  mkOriginal (ob_address p) b (ob_written p) (ob_executable p) (ob_allocationReleased p) (ob_verifyOwnership p).
Definition overrideOriginals (originals : list OriginalBytes) (address : Z) (b : bytes) : list OriginalBytes :=
  if noRange address b then originals else
  (λ p, if noRange (ob_address p) (ob_bytes p) then p else withBytes p (copyOver (ob_bytes p) (ob_address p) b address)) <$> originals.
(** The lambda [piece] of [dropRange]. *)
Definition pieceOf (p : OriginalBytes) (from to : Z) : OriginalBytes :=
  let offset := from - ob_address p in
  let count := to - from + 1 in
  mkOriginal from (slice (ob_bytes p) offset count) (if len (ob_written p) =? len (ob_bytes p) then slice (ob_written p) offset count else [])
    (ob_executable p) (ob_allocationReleased p) (ob_verifyOwnership p).
Definition dropRange (originals : list OriginalBytes) (first last : Z) : list OriginalBytes :=
  originals ≫= λ p,
    let stop := if bool_decide (ob_bytes p = []) then ob_address p else ob_address p + (len (ob_bytes p) - 1) in
    if bool_decide (ob_bytes p = []) || (last <? ob_address p) || (stop <? first) then [p] else
    (if ob_address p <? first then [pieceOf p (ob_address p) (first - 1)] else []) ++ (if last <? stop then [pieceOf p (last + 1) stop] else []).

(** ** The assembler *)

Section Undo.
Context {T : AaTarget}.

Record Asm := mkAsm {
  as_globalSymbols : gmap bytes Z; as_symbolOwners : gmap bytes nat; as_knownAllocations : gmap bytes AllocEntry; as_globalAllocations : gset bytes;
  as_cleanedAllocations : gset (Z * Z); as_livePatches : list LivePatch; as_ownerships : gmap nat Ownership; as_released : gset nat; as_fresh : nat; as_target : target
}.
Definition withTarget (s : Asm) (t : target) : Asm :=
  mkAsm (as_globalSymbols s) (as_symbolOwners s) (as_knownAllocations s) (as_globalAllocations s) (as_cleanedAllocations s) (as_livePatches s) (as_ownerships s) (as_released s) (as_fresh s) t.
Definition withLive (s : Asm) (l : list LivePatch) : Asm :=
  mkAsm (as_globalSymbols s) (as_symbolOwners s) (as_knownAllocations s) (as_globalAllocations s) (as_cleanedAllocations s) l (as_ownerships s) (as_released s) (as_fresh s) (as_target s).
Definition withOwnerships (s : Asm) (o : gmap nat Ownership) : Asm :=
  mkAsm (as_globalSymbols s) (as_symbolOwners s) (as_knownAllocations s) (as_globalAllocations s) (as_cleanedAllocations s) (as_livePatches s) o (as_released s) (as_fresh s) (as_target s).
Definition withSymbols (s : Asm) (g : gmap bytes Z) (o : gmap bytes nat) : Asm :=
  mkAsm g o (as_knownAllocations s) (as_globalAllocations s) (as_cleanedAllocations s) (as_livePatches s) (as_ownerships s) (as_released s) (as_fresh s) (as_target s).
Definition withAllocations (s : Asm) (known : gmap bytes AllocEntry) (globals : gset bytes) (cleaned : gset (Z * Z)) (released : gset nat) : Asm :=
  mkAsm (as_globalSymbols s) (as_symbolOwners s) known globals cleaned (as_livePatches s) (as_ownerships s) released (as_fresh s) (as_target s).

(** A number no shared object has, and the state without it. *)
Definition withFresh (s : Asm) : Asm :=
  mkAsm (as_globalSymbols s) (as_symbolOwners s) (as_knownAllocations s) (as_globalAllocations s) (as_cleanedAllocations s) (as_livePatches s) (as_ownerships s) (as_released s) (S (as_fresh s)) (as_target s).
Definition isReleased (s : Asm) (flag : option nat) : bool := match flag with Some f => bool_decide (f ∈ as_released s) | None => false end.
(** [recordReleased]. *)
Definition recordReleased (s : Asm) (p : OriginalBytes) : bool := isReleased s (ob_allocationReleased p).
Definition ownershipOf (s : Asm) (i : DisableInfo) : option Ownership := let? o := di_ownership i in as_ownerships s !! o.

(** Something of it can be read, or a region holds it. *)
Definition mapped (s : Asm) (address size : Z) : bool :=
  match tg_read None address (Z.min size 64) (as_target s) with
  | Some (_ :: _) => true
  | _ => match tg_region address (as_target s) with
    | Some r => (region_base r <=? address) && (address - region_base r <? region_size r)
    | None => false
    end
  end.
Definition withoutUnmapped (s : Asm) (saved : DisableInfo) : DisableInfo :=
  if match di_image saved with Some im => tg_imagePid im =? tg_pid | None => true end then
    withProtections
      (withOriginals saved (filter (λ p, noRange (ob_address p) (ob_bytes p) || mapped s (ob_address p) (len (ob_bytes p))) (di_originals saved)))
      (filter (λ p, mapped s (pr_address p) (pr_size p)) (di_protections saved))
  else saved.

(** One saved state accepts the byte at [x]. *)
Definition acceptsByte (s : Asm) (state : OriginalBytes) (x actual : Z) : bool :=
  if recordReleased s state || bool_decide (ob_bytes state = []) then false
  else if (x <? ob_address state) || (len (ob_bytes state) <=? x - ob_address state) then false
  else
    let index := x - ob_address state in
    bool_decide (lget (ob_bytes state) index = Some actual) || bool_decide (lget (ob_written state) index = Some actual).
(** The chunks of one patch, from [offset] on. *)
Fixpoint conflictLoop (s : Asm) (info : DisableInfo) (patch : OriginalBytes) (fuel : nat) (offset : Z) : option UndoError :=
  match fuel with
  | O => None
  | S fuel =>
      if len (ob_bytes patch) <=? offset then None else
      let count := Z.min 65536 (len (ob_bytes patch) - offset) in
      let address := ob_address patch + offset in
      match tg_read (di_image info) address count (as_target s) with
      | Some actual =>
          if negb (len actual =? count) then Some (CannotInspect address)
          else match list_find (λ i, ¬ existsb (λ state, acceptsByte s state (address + Z.of_nat i) (default 0 (actual !! i))) (di_originals info)) (seq 0 (Z.to_nat count)) with
          | Some (_, i) => Some (OwnershipChanged (address + Z.of_nat i))
          | None => conflictLoop s info patch fuel (offset + count)
          end
      | None => Some (CannotInspect address)
      end
  end.
Fixpoint codeOwnershipConflict (s : Asm) (info : DisableInfo) (patches : list OriginalBytes) : option UndoError :=
  match patches with
  | [] => None
  | p :: patches =>
      if negb (ob_verifyOwnership p) || recordReleased s p || negb (len (ob_written p) =? len (ob_bytes p)) then codeOwnershipConflict s info patches
      else match conflictLoop s info p (Z.to_nat (len (ob_bytes p) / 65536 + 1)) 0 with
      | Some e => Some e
      | None => codeOwnershipConflict s info patches
      end
  end.

(** ** Handing originals over *)

Record Handover := mkHandover { ho_to : nat; ho_address : Z; ho_bytes : bytes }.
(** The ownership behind a weak pointer still exists and its undo is not complete. *)
Definition liveOwner (s : Asm) (o : nat) : bool := match as_ownerships s !! o with Some w => negb (ow_complete w) | None => false end.
Definition imageUsable (s : Asm) (image : option nat) : bool :=
  match image with Some im => match tg_check im (as_target s) with ImageLive => true | _ => false end | None => true end.
(** What is restored at [[first, last]]: the earliest write's original. *)
Definition originalAt (s : Asm) (originals : list OriginalBytes) (first last : Z) : bytes :=
  foldl (λ b p, if bool_decide (ob_bytes p = []) || recordReleased s p then b else copyOver b first (ob_bytes p) (ob_address p))
    (replicate (Z.to_nat (last - first + 1)) 0) (reverse originals).
(** One range of a newer script against one that is still open of a patch, and against all. *)
Definition claimOpen (original : Z → Z → bytes) (owner : nat) (range : Z * Z) (st : list Handover * list (Z * Z) * list (Z * Z)) (r : Z * Z) : list Handover * list (Z * Z) * list (Z * Z) :=
  let '(handovers, claimed, rest) := st in
  let lo := Z.max r.1 range.1 in
  let hi := Z.min r.2 (range.1 + (range.2 - 1)) in
  if hi <? lo then (handovers, claimed, rest ++ [r])
  else (handovers ++ [mkHandover owner lo (original lo hi)], claimed ++ [(lo, hi)],
        rest ++ (if r.1 <? lo then [(r.1, lo - 1)] else []) ++ (if hi <? r.2 then [(hi + 1, r.2)] else [])).
Definition claimRange (original : Z → Z → bytes) (owner : nat) (range : Z * Z) (st : list Handover * list (Z * Z) * list (Z * Z)) : list Handover * list (Z * Z) * list (Z * Z) :=
  if range.2 =? 0 then st else foldl (claimOpen original owner range) (st.1.1, st.1.2, []) st.2.
Definition claimPatch (original : Z → Z → bytes) (newer : list LivePatch) (patch : OriginalBytes) (st : list Handover * list (Z * Z)) : list Handover * list (Z * Z) :=
  if ob_verifyOwnership patch || bool_decide (is_Some (ob_allocationReleased patch)) || bool_decide (ob_bytes patch = []) then st else
  (foldl (λ st live, foldl (λ st range, claimRange original (lp_owner live) range st) st (lp_ranges live))
    (st.1, st.2, [(ob_address patch, ob_address patch + (len (ob_bytes patch) - 1))]) newer).1.
(** The scripts after [o] in the list that still own something here. *)
Definition newerThan (s : Asm) (o : nat) (live : list LivePatch) : option (list LivePatch) :=
  let? r := list_find (λ l, lp_owner l = o) live in
  Some (filter (λ l, (lp_pid l =? tg_pid) && imageUsable s (lp_image l) && negb (bool_decide (lp_ranges l = []))) (drop (S r.1) live)).
Definition planHandovers (s : Asm) (info : DisableInfo) : list Handover * DisableInfo * Asm :=
  let live := filter (λ l, liveOwner s (lp_owner l)) (as_livePatches s) in
  let s := withLive s live in
  match (let? o := di_ownership info in newerThan s o live) with
  | None | Some [] => ([], info, s)
  | Some newer =>
      let '(handovers, claimed) := foldl (λ st p, claimPatch (originalAt s (di_originals info)) newer p st) ([], []) (di_originals info) in
      (handovers, withOriginals info (foldl (λ l r, dropRange l r.1 r.2) (di_originals info) claimed), s)
  end.

(** ** Restoring *)

Definition rangeLe (a b : Z * Z) : Prop := a.1 < b.1 ∨ a.1 = b.1 ∧ a.2 ≤ b.2.
#[local] Instance rangeLe_dec : RelDecision rangeLe.
Proof. intros a b. unfold rangeLe. apply _. Defined.
(** The sorted ranges merged, the last one first. *)
Definition mergeRange (merged : list (Z * Z)) (range : Z * Z) : list (Z * Z) :=
  match merged with
  | back :: merged' =>
      if (range.1 <=? back.2) || (negb (back.2 =? UINTPTR_MAX) && (range.1 =? back.2 + 1)) then (back.1, Z.max back.2 range.2) :: merged' else range :: merged
  | [] => [range]
  end.
Definition mergedRanges (ranges : list (Z * Z)) : list (Z * Z) := reverse (foldl mergeRange [] (merge_sort rangeLe ranges)).
Definition skipPatch (s : Asm) (p : OriginalBytes) : bool := bool_decide (ob_bytes p = []) || recordReleased s p.
(** The bytes wanted in a chunk. *)
Definition wantedAt (s : Asm) (originals : list OriginalBytes) (address count : Z) : bytes :=
  foldl (λ b p, if skipPatch s p then b else copyOver b address (ob_bytes p) (ob_address p)) (replicate (Z.to_nat count) 0) (reverse originals).
Fixpoint mismatchLoop (s : Asm) (info : DisableInfo) (fuel : nat) (address last : Z) : option Z :=
  match fuel with
  | O => None
  | S fuel =>
      let count := if 65535 <=? last - address then 65536 else last - address + 1 in
      if bool_decide (tg_read (di_image info) address count (as_target s) = Some (wantedAt s (di_originals info) address count)) then
        if count - 1 =? last - address then None else mismatchLoop s info fuel (address + count) last
      else Some address
  end.
Fixpoint firstMismatch (s : Asm) (info : DisableInfo) (merged : list (Z * Z)) : option Z :=
  match merged with
  | [] => None
  | (first, last) :: merged =>
      match mismatchLoop s info (Z.to_nat ((last - first) / 65536 + 1)) first last with
      | Some address => Some address
      | None => firstMismatch s info merged
      end
  end.
(** The last write is taken back first. *)
Definition restoreOne (info : DisableInfo) (st : Asm * list UndoError) (p : OriginalBytes) : Asm * list UndoError :=
  let s := st.1 in
  if recordReleased s p then st else
  let executable := match di_image info with
    | Some _ => ob_executable p
    | None => match tg_region (ob_address p) (as_target s) with Some r => protHas (region_protection r) ProtExec | None => false end
    end in
  let '(written, t) := tg_write (di_image info) executable (ob_address p) (ob_bytes p) (as_target s) in
  (withTarget s t, st.2 ++ (if bool_decide (written = Wrote (len (ob_bytes p))) then [] else [CannotRestore (ob_address p)])).
Definition restoreBytes (s : Asm) (info : DisableInfo) (merged : list (Z * Z)) : Asm * list UndoError :=
  match firstMismatch s info merged with
  | None => (s, [])
  | Some _ =>
      let '(s, errors) := foldl (restoreOne info) (s, []) (reverse (di_originals info)) in
      (s, errors ++ match firstMismatch s info merged with Some address => [VerificationFailed address] | None => [] end)
  end.
Definition restoreProtection (info : DisableInfo) (st : Asm * list UndoError) (p : Protection) : Asm * list UndoError :=
  let s := st.1 in
  if isReleased s (pr_allocationReleased p) then st else
  let '(restored, t) := tg_protect (di_image info) (pr_address p) (pr_size p) (pr_protection p) (as_target s) in
  (withTarget s t, st.2 ++ if restored : bool then [] else [CannotProtect (pr_address p)]).

(** ** Cleaning up *)

(** An allocation of this name is this one. *)
Definition forgetAllocation (known : gmap bytes AllocEntry) (a : AllocEntry) : gmap bytes AllocEntry :=
  match known !! al_name a with
  | Some tracked => if (al_address tracked =? al_address a) && (bool_decide (al_owner a = None) || bool_decide (al_owner tracked = al_owner a)) then delete (al_name a) known else known
  | None => known
  end.
(** The lambda [eraseSymbols]. *)
Definition eraseSymbol (o : option nat) (st : gmap bytes Z * gmap bytes nat) (symbol : bytes * Z) : gmap bytes Z * gmap bytes nat :=
  if (bool_decide (o = None) || bool_decide (st.2 !! symbol.1 = o)) && bool_decide (st.1 !! symbol.1 = Some symbol.2)
  then (delete symbol.1 st.1, delete symbol.1 st.2) else st.
Definition eraseSymbols (s : Asm) (info : DisableInfo) : Asm :=
  let '(g, o) := foldl (eraseSymbol (di_ownership info)) (as_globalSymbols s, as_symbolOwners s) (map_to_list (di_symbols info)) in withSymbols s g o.
Definition setComplete (s : Asm) (o : option nat) : Asm :=
  match o with Some o => withOwnerships s (alter (λ w, mkOwnership (ow_locked w) true (ow_restoreOverrides w)) o (as_ownerships s)) | None => s end.
Definition releaseFlag (released : gset nat) (flag : option nat) : gset nat := match flag with Some f => {[f]} ∪ released | None => released end.
(** The address space is gone with everything in it. *)
Definition discard (s : Asm) (info : DisableInfo) : Asm :=
  let s := foldl (λ s a, withAllocations s (forgetAllocation (as_knownAllocations s) a) (as_globalAllocations s) (as_cleanedAllocations s) (releaseFlag (as_released s) (al_released a))) s (di_allocs info) in
  setComplete (eraseSymbols s info) (di_ownership info).
(** Frees one allocation; what cannot be freed is kept. *)
Definition freeOne (info : DisableInfo) (st : Asm * list AllocEntry * list UndoError) (a : AllocEntry) : Asm * list AllocEntry * list UndoError :=
  let '(s, pending, errors) := st in
  if match al_released a with Some f => bool_decide (f ∈ as_released s) | None => bool_decide ((al_address a, al_size a) ∈ as_cleanedAllocations s) end then st else
  let '(freed, t) := tg_free (match al_image a with Some im => Some im | None => di_image info end) (al_address a) (al_size a) (as_target s) in
  let s := withTarget s t in
  if freed : bool then
    (withAllocations s (forgetAllocation (as_knownAllocations s) a) (as_globalAllocations s) ({[(al_address a, al_size a)]} ∪ as_cleanedAllocations s) (releaseFlag (as_released s) (al_released a)), pending, errors)
  else (s, pending ++ [a], errors ++ [CannotFree (al_name a)]).
Definition deliver (s : Asm) (h : Handover) : Asm :=
  withOwnerships s (alter (λ w, mkOwnership (ow_locked w) (ow_complete w) (ow_restoreOverrides w ++ [(ho_address h, ho_bytes h)])) (ho_to h) (as_ownerships s)).
Definition failed (info : DisableInfo) (errors : list UndoError) : AutoAsmResult := mkResult false errors info.
Definition done : AutoAsmResult := mkResult true [] emptyInfo.
Definition busyError (s : Asm) (info : DisableInfo) : bool :=
  existsb (λ a, negb (isReleased s (al_released a)) && tg_busy (al_address a) (al_size a) (as_target s)) (di_allocs info)
  || existsb (λ p, negb (recordReleased s p) && tg_busy (ob_address p) (len (ob_bytes p)) (as_target s)) (di_originals info)
  || existsb (λ p, negb (isReleased s (pr_allocationReleased p)) && tg_busy (pr_address p) (pr_size p) (as_target s)) (di_protections info).
(** From the restoring on: bytes, protections, hand-overs, memory, symbols. *)
Definition restoreAll (s : Asm) (saved info : DisableInfo) (handovers : list Handover) : AutoAsmResult * Asm :=
  let ranges := (λ p, (ob_address p, ob_address p + (len (ob_bytes p) - 1))) <$> filter (λ p, skipPatch s p = false) (di_originals info) in
  let '(s, errors) := restoreBytes s info (mergedRanges ranges) in
  if negb (bool_decide (errors = [])) then (failed saved errors, s) else
  let '(s, errors) := foldl (restoreProtection info) (s, []) (reverse (di_protections info)) in
  if negb (bool_decide (errors = [])) then (failed saved errors, s) else
  let s := foldl deliver s handovers in
  let saved := withProtections (withOriginals saved []) [] in
  let s := match di_ownership info with Some o => withLive s (filter (λ l, lp_owner l ≠ o) (as_livePatches s)) | None => s end in
  let '(s, pending, errors) := foldl (freeOne info) (s, [], []) (di_allocs info) in
  if negb (bool_decide (errors = [])) then (failed (withAllocs saved pending) errors, s) else
  (done, setComplete (eraseSymbols s info) (di_ownership info)).
Definition cleanup (saved : DisableInfo) (s : Asm) : AutoAsmResult * Asm :=
  let pruned := withoutUnmapped s saved in
  match ownershipOf s pruned with
  | Some (mkOwnership true _ _) => (failed saved [InProgress], s)
  | Some (mkOwnership _ true _) => (done, s)
  | w =>
      let overrides := match w with Some w => ow_restoreOverrides w | None => [] end in
      let pruned := withOriginals pruned (foldl (λ l o, overrideOriginals l o.1 o.2) (di_originals pruned) overrides) in
      let usable := match di_image pruned with
        | Some im => if negb (tg_imagePid im =? tg_pid) then Some (failed saved [OtherProcess], s) else
            match tg_check im (as_target s) with
            | ImageLive => None
            | ImageBroken => Some (failed saved [ImageFailed], s)
            | ImageRetired => Some (done, discard s pruned)
            end
        | None => None
        end in
      match usable with
      | Some r => r
      | None =>
          if busyError s pruned then (failed saved [ThreadRunning], s)
          else if existsb (λ p, negb (bool_decide (ob_bytes p = [])) && noRange (ob_address p) (ob_bytes p)) (di_originals pruned) then (failed saved [RangeOverflow], s)
          else match codeOwnershipConflict s pruned (di_originals pruned) with
          | Some e => (failed saved [e], s)
          | None => let '(handovers, pruned, s) := planHandovers s pruned in restoreAll s saved pruned handovers
          end
      end
  end.
End Undo.
