(* ===== verification/AutoRun.v ===== *)
(** * The auto assembler: running a script

    Models how [AutoAssembler::run] of [src/core/autoasm.cpp] carries out what a script asks
    for: memory it allocates, bytes it patches, pages it opens, symbols it registers, the
    rollback of a script that fails, and [disable] with the [[DISABLE]] section.  What the
    lines of a script mean is a parameter: a [Script] is the requests they make, each of which
    may depend on all that was done before.  Threads and libraries are not modelled. *)

From S2P Require Import Prelude Types AutoUndo.
#[local] Open Scope Z_scope.

(** What is left to do when every line has succeeded. *)
Record Ending := mkEnding {
  en_deallocs : list bytes; en_unregisters : list bytes; en_registered : list (bytes * Z); en_labels : list (bytes * Z); en_hooks : list (bytes * Z)
}.
Record NewGlobalBlock := mkGlobalBlock { gb_name : bytes; gb_address : Z; gb_previous : option AllocEntry; gb_wasGlobal : bool }.
(** A name of [allocs] with its address. *)
Record Alloc := mkNamed { nm_name : bytes; nm_address : Z; nm_global : bool }.

Section Run.
Context {T : AaTarget}.

Inductive Script :=
  | Finish (ending : Ending)
  | Stop (message : bytes)
  | Look (next : Asm → DisableInfo → Script)
  | Allocate (name : bytes) (size preferred : Z) (global : bool) (next : Z → Script)
  | Patch (address : Z) (data : bytes) (mutableData : bool) (next : Script)
  | FullAccess (address size : Z) (next : Script).
(** The state of a run. *)
Record Activation := mkActivation { ac_asm : Asm; ac_info : DisableInfo; ac_blocks : list NewGlobalBlock; ac_allocs : list Alloc }.
Definition withInfo (a : Activation) (i : DisableInfo) : Activation := mkActivation (ac_asm a) i (ac_blocks a) (ac_allocs a).
Definition withAsm (a : Activation) (s : Asm) : Activation := mkActivation s (ac_info a) (ac_blocks a) (ac_allocs a).

(** A block of memory that was made in this address space. *)
Definition liveBlock (info : DisableInfo) (block : AllocEntry) : bool :=
  match al_image block, di_image info with
  | Some a, Some b => tg_identity a =? tg_identity b
  | a, b => bool_decide (a = b)
  end.
(** [globalalloc] blocks whose address space is gone are forgotten. *)
Definition forgetBlock (s : Asm) (name : bytes) : Asm :=
  match as_knownAllocations s !! name with
  | Some known =>
      if imageUsable s (al_image known) then s else
      let symbols := if bool_decide (as_globalSymbols s !! name = Some (al_address known)) then (delete name (as_globalSymbols s), delete name (as_symbolOwners s)) else (as_globalSymbols s, as_symbolOwners s) in
      let s := withSymbols s symbols.1 symbols.2 in
      withAllocations s (delete name (as_knownAllocations s)) (as_globalAllocations s ∖ {[name]}) (as_cleanedAllocations s) (as_released s)
  | None => s
  end.
Definition forgetBlocks (s : Asm) : Asm := foldl forgetBlock s (elements (as_globalAllocations s)).

(** ** Requests *)

Definition containsRange (s : Asm) (address size : Z) (a : AllocEntry) : bool :=
  bool_decide (is_Some (al_released a)) && negb (isReleased s (al_released a)) && (al_address a <=? address)
  && (address - al_address a <=? al_size a) && (size <=? al_size a - (address - al_address a)).
Definition allocationRelease (s : Asm) (info : DisableInfo) (address size : Z) : option nat :=
  match List.find (containsRange s address size) (di_allocs info) with
  | Some a => al_released a
  | None =>
      let? a := List.find (λ a, containsRange s address size a && match al_image a with Some im => (tg_imagePid im =? tg_pid) && imageUsable s (Some im) | None => true end)
        (map_to_list (as_knownAllocations s)).*2 in al_released a
  end.
Definition inGlobalBlock (s : Asm) (info : DisableInfo) (address size : Z) : bool :=
  existsb (λ name, match as_knownAllocations s !! name with
    | Some known => liveBlock info known && (al_address known <=? address) && (address - al_address known <? al_size known) && (size <=? al_size known - (address - al_address known))
    | None => false
    end) (elements (as_globalAllocations s)).
(** Opens the pages of a range, saving the protection of each region. *)
Fixpoint openPages (inspect : bytes) (protection : Z → Z) (fuel : nat) (address remaining : Z) (a : Activation) : option bytes * Activation :=
  match fuel with
  | O => (None, a)
  | S fuel =>
      if remaining <=? 0 then (None, a) else
      let s := ac_asm a in
      match tg_region address (as_target s) with
      | Some r =>
          if (address <? region_base r) || (region_size r <=? address - region_base r) then (Some inspect, a) else
          let count := Z.min remaining (region_size r - (address - region_base r)) in
          let info := ac_info a in
          let info := withProtections info (di_protections info ++ [mkProtection address count (region_protection r) (allocationRelease s info address count)]) in
          let '(opened, t) := tg_protect (di_image info) address count (protection (region_protection r)) (as_target s) in
          let a := withAsm (withInfo a info) (withTarget s t) in
          if opened : bool then openPages inspect protection fuel (address + count) (remaining - count) a else (Some (bs "Cannot change page protection"), a)
      | None => (Some inspect, a)
      end
  end.
(** One write of [patchMemory]; a thread that runs in the memory refuses it through the image,
    but not a plain write of data. *)
Definition writeOnce (executable : bool) (address : Z) (data : bytes) (a : Activation) : Transfer * Activation :=
  let '(r, t) := tg_write (di_image (ac_info a)) executable address data (as_target (ac_asm a)) in (r, withAsm a (withTarget (ac_asm a) t)).
Definition writeData (address : Z) (data : bytes) (a : Activation) : Transfer * Activation :=
  let '(r, t) := tg_write None false address data (as_target (ac_asm a)) in (r, withAsm a (withTarget (ac_asm a) t)).
Definition wroteAll (data : bytes) (r : Transfer) : bool := match r with Wrote n => len data <=? n | _ => false end.
Definition saveOriginal (executable : bool) (address : Z) (data : bytes) (mutableData : bool) (a : Activation) : option bytes * Activation :=
  let s := ac_asm a in
  let info := ac_info a in
  if inGlobalBlock s info address (len data) then (None, a) else
  match tg_read (di_image info) address (len data) (as_target s) with
  | Some original =>
      if len original <? len data then (Some (bs "original-byte read failed"), a)
      else (None, withInfo a (withOriginals info (di_originals info ++ [mkOriginal address original data executable (allocationRelease s info address (len data)) (executable && negb mutableData)])))
  | None => (Some (bs "original-byte read failed"), a)
  end.
Definition patchMemory (address : Z) (data : bytes) (mutableData : bool) (a : Activation) : option bytes * Activation :=
  if negb (bool_decide (data = [])) && (UINTPTR_MAX - address <? len data - 1) then (Some (bs "Patch range overflows the address space"), a) else
  let executable := match tg_region address (as_target (ac_asm a)) with Some r => protHas (region_protection r) ProtExec | None => false end in
  match saveOriginal executable address data mutableData a with
  | (Some e, a) => (Some e, a)
  | (None, a) =>
      let '(r, a) := writeOnce executable address data a in
      let '(r, a) := match r with
        | WriteBusy => if mutableData && bool_decide (is_Some (di_image (ac_info a))) && imageUsable (ac_asm a) (di_image (ac_info a)) then writeData address data a else (r, a)
        | _ => (r, a)
        end in
      if wroteAll data r then (None, a)
      else if executable && negb (tg_isX86 address (as_target (ac_asm a))) then (Some (bs "Code write failed"), a)
      else match openPages (bs "Cannot inspect original page protection") (λ p, Z.lor p ProtWrite) (Z.to_nat (len data)) address (len data) a with
      | (Some e, a) => (Some e, a)
      | (None, a) => let '(r, a) := writeOnce executable address data a in if wroteAll data r then (None, a) else (Some (bs "memory write failed"), a)
      end
  end.
Definition fullAccess (address size : Z) (a : Activation) : option bytes * Activation :=
  if (address =? 0) || (size =? 0) then (Some (bs "Invalid FULLACCESS target"), a)
  else if UINTPTR_MAX - address <? size - 1 then (Some (bs "FULLACCESS range overflows the address space"), a)
  else openPages (bs "Cannot inspect FULLACCESS page protection") (λ _, 7) (Z.to_nat size) address size a.
(** One name of [allocs]: the memory of the activation that is undone, an existing global
    block, or new memory. *)
Definition allocate (undo : option DisableInfo) (name : bytes) (size preferred : Z) (global : bool) (a : Activation) : (bytes + Z) * Activation :=
  let s := ac_asm a in
  let info := ac_info a in
  let named address := withInfo (mkActivation s info (ac_blocks a) (ac_allocs a ++ [mkNamed name address global])) info in
  match undo, global with
  | Some undo, false =>
      let address := match List.find (λ e, bytes_eqb (al_name e) name) (di_allocs undo) with Some e => al_address e | None => default 0 (di_scriptSymbols undo !! name) end in
      if address =? 0 then (inl (bs "[DISABLE] can only name memory that [ENABLE] allocated"), a) else (inr address, named address)
  | _, _ =>
      let shared := if global && bool_decide (name ∈ as_globalAllocations s) then
          let? address := as_globalSymbols s !! name in
          let? known := as_knownAllocations s !! name in
          if (al_address known =? address) && (size <=? al_size known) && liveBlock info known then Some address else None
        else None in
      match shared with
      | Some address => (inr address, named address)
      | None =>
          let '(r, t) := tg_allocate (di_image info) size preferred (as_target s) in
          let s := withTarget s t in
          match r with
          | None => (inl (bs "Failed to allocate memory"), withAsm a s)
          | Some address =>
              let mappedSize := if di_image info then size + (tg_pageSize - size mod tg_pageSize) mod tg_pageSize else size in
              let entry := mkAlloc name address mappedSize (Some (as_fresh s)) (di_ownership info) (di_image info) in
              let blocks := if global then ac_blocks a ++ [mkGlobalBlock name address (as_knownAllocations s !! name) (bool_decide (name ∈ as_globalAllocations s))] else ac_blocks a in
              let s := withFresh (withAllocations s (<[name := entry]> (as_knownAllocations s)) (if global then {[name]} ∪ as_globalAllocations s else as_globalAllocations s)
                (as_cleanedAllocations s ∖ {[(address, size)]}) (as_released s)) in
              (inr address, mkActivation s (withAllocs info (di_allocs info ++ [entry])) blocks (ac_allocs a ++ [mkNamed name address global]))
          end
      end
  end.

(** ** The end of a run *)

(** One deferred [dealloc]. *)
Definition deallocOne (name : bytes) (s : Asm) : option bytes * Asm :=
  match as_knownAllocations s !! name with
  | None => (None, s)
  | Some known =>
      if match al_image known with Some im => negb (tg_imagePid im =? tg_pid) | None => false end then (Some (bs "DEALLOC belongs to another process"), s)
      else if match (let? o := al_owner known in as_ownerships s !! o) with Some w => ow_locked w | None => false end then (Some (bs "Allocation cleanup is already in progress"), s)
      else
        let '(freed, t) := match al_image known with
          | Some im => match tg_check im (as_target s) with
            | ImageRetired => (true, as_target s)
            | ImageBroken => (false, as_target s)
            | ImageLive => tg_free (Some im) (al_address known) (al_size known) (as_target s)
            end
          | None => tg_free None (al_address known) (al_size known) (as_target s)
          end in
        let s := withTarget s t in
        if freed : bool then (None, withAllocations s (delete name (as_knownAllocations s)) (as_globalAllocations s ∖ {[name]}) (as_cleanedAllocations s) (releaseFlag (as_released s) (al_released known)))
        else (Some (bs "DEALLOC failed"), s)
  end.
Fixpoint deallocAll (names : list bytes) (s : Asm) : option bytes * Asm :=
  match names with
  | [] => (None, s)
  | name :: names => match deallocOne name s with (Some e, s) => (Some e, s) | (None, s) => deallocAll names s end
  end.
Definition unregisterOne (undo : option DisableInfo) (s : Asm) (name : bytes) : Asm :=
  if match undo with Some undo => bool_decide (is_Some (di_symbols undo !! name)) | None => false end then s
  else withSymbols s (delete name (as_globalSymbols s)) (delete name (as_symbolOwners s)).
Definition registerGlobal (s : Asm) (n : Alloc) : Asm :=
  if nm_global n && negb (nm_address n =? 0) then withSymbols s (<[nm_name n := nm_address n]> (as_globalSymbols s)) (delete (nm_name n) (as_symbolOwners s)) else s.
Definition registerOne (undo : option DisableInfo) (a : Activation) (symbol : bytes * Z) : Activation :=
  let '(name, address) := symbol in
  if address =? 0 then a else
  let s := ac_asm a in
  let info := ac_info a in
  let g := <[name := address]> (as_globalSymbols s) in
  match undo with
  | Some _ => withAsm a (withSymbols s g (delete name (as_symbolOwners s)))
  | None =>
      let owners := match di_ownership info with Some o => <[name := o]> (as_symbolOwners s) | None => as_symbolOwners s end in
      withInfo (withAsm a (withSymbols s g owners))
        (mkDisable (di_allocs info) (di_originals info) (<[name := address]> (di_symbols info)) (di_protections info) (di_image info) (di_ownership info) (di_scriptSymbols info) (di_runDisableSection info))
  end.
(** What [disable] will need of a successful activation. *)
Definition keepActivation (e : Ending) (a : Activation) : Activation :=
  let s := ac_asm a in
  let info := ac_info a in
  let named := foldl (λ m n, if nm_address n =? 0 then m else <[nm_name n := nm_address n]> m) (di_scriptSymbols info) (ac_allocs a) in
  let named := foldl (λ m l, if l.2 =? 0 then m else <[l.1 := l.2]> m) named (en_labels e) in
  let named := foldl (λ m h, if m !! h.1 then m else <[h.1 := h.2]> m) named (en_hooks e) in
  let info := mkDisable (di_allocs info) (di_originals info) (di_symbols info) (di_protections info) (di_image info) (di_ownership info) named true in
  match di_ownership info with
  | Some o =>
      if bool_decide (di_originals info = []) then withInfo a info else
      let live := mkLive o (di_image info) tg_pid ((λ p, (ob_address p, len (ob_bytes p))) <$> filter (λ p, ob_bytes p ≠ []) (di_originals info)) in
      withInfo (withAsm a (withLive s (filter (λ l, liveOwner s (lp_owner l)) (as_livePatches s) ++ [live]))) info
  | None => withInfo a info
  end.
Definition finish (undo : option DisableInfo) (e : Ending) (a : Activation) : option bytes * Activation :=
  match deallocAll (if undo then [] else en_deallocs e) (ac_asm a) with
  | (Some e, s) => (Some e, withAsm a s)
  | (None, s) =>
      let s := foldl (unregisterOne undo) s (en_unregisters e) in
      let s := foldl registerGlobal s (ac_allocs a) in
      let a := foldl (registerOne undo) (withAsm a s) (en_registered e) in
      let info := ac_info a in
      let a := withInfo a (withAllocs info (filter (λ e, existsb (λ b, gb_address b =? al_address e) (ac_blocks a) = false) (di_allocs info))) in
      (None, if undo then a else keepActivation e a)
  end.
(** The requests in order, up to the first failure. *)
Fixpoint perform (undo : option DisableInfo) (script : Script) (a : Activation) : option bytes * Activation :=
  match script with
  | Finish e => finish undo e a
  | Stop message => (Some message, a)
  | Look next => perform undo (next (ac_asm a) (ac_info a)) a
  | Allocate name size preferred global next =>
      match allocate undo name size preferred global a with
      | (inl e, a) => (Some e, a)
      | (inr address, a) => perform undo (next address) a
      end
  | Patch address data mutableData next =>
      match patchMemory address data mutableData a with
      | (Some e, a) => (Some e, a)
      | (None, a) => perform undo next a
      end
  | FullAccess address size next =>
      match fullAccess address size a with
      | (Some e, a) => (Some e, a)
      | (None, a) => perform undo next a
      end
  end.
(** The lambda [rollback]: a failed script is taken back at once. *)
Definition forgetNew (left : DisableInfo) (s : Asm) (b : NewGlobalBlock) : Asm :=
  if existsb (λ e, al_address e =? gb_address b) (di_allocs left) then s else
  let known := match gb_previous b with
    | Some previous => if bool_decide (is_Some (as_knownAllocations s !! gb_name b)) then as_knownAllocations s else <[gb_name b := previous]> (as_knownAllocations s)
    | None => as_knownAllocations s
    end in
  withAllocations s known (if gb_wasGlobal b then as_globalAllocations s else as_globalAllocations s ∖ {[gb_name b]}) (as_cleanedAllocations s) (as_released s).
Definition rollback (error : bytes) (a : Activation) : AutoAsmResult * Asm :=
  let '(restored, s) := cleanup (ac_info a) (ac_asm a) in
  let s := foldl (forgetNew (ar_disableInfo restored)) s (ac_blocks a) in
  if ar_success restored then (mkResult false [ScriptFailed error] emptyInfo, s)
  else (mkResult false (ScriptFailed error :: RollbackIncomplete :: ar_error restored) (ar_disableInfo restored), s).
(** A new [Ownership]. *)
Definition newOwnership (s : Asm) : nat * Asm :=
  (as_fresh s, withFresh (withOwnerships s (<[as_fresh s := mkOwnership false false []]> (as_ownerships s)))).
Definition run (undo : option DisableInfo) (script : Script) (s : Asm) : AutoAsmResult * Asm :=
  let '(o, s) := newOwnership s in
  let owned image := mkDisable [] [] ∅ [] image (Some o) ∅ false in
  match (match (let? u := undo in di_image u) with Some im => Some (Some im) | None => tg_pin (as_target s) end) with
  | None => (mkResult false [ScriptFailed (bs "Cannot pin original address space")] (owned None), s)
  | Some image =>
      match perform undo script (mkActivation (forgetBlocks s) (owned image) [] []) with
      | (Some e, a) => rollback e a
      | (None, a) => (mkResult true [] (ac_info a), ac_asm a)
      end
  end.

(** ** Disabling *)

(** What the [[DISABLE]] section wrote is what is restored there. *)
Definition keepWritten (info : DisableInfo) (st : Asm * DisableInfo) (w : OriginalBytes) : Asm * DisableInfo :=
  match di_ownership info with
  | Some o => (deliver st.1 (mkHandover o (ob_address w) (ob_written w)), st.2)
  | None => (st.1, withOriginals st.2 (overrideOriginals (di_originals st.2) (ob_address w) (ob_written w)))
  end.
Definition runDisableSection (section : option Script) (info saved : DisableInfo) (s : Asm) : option (list UndoError) * DisableInfo * Asm :=
  match section with
  | None => (None, saved, s)
  | Some script =>
      if match ownershipOf s info with Some w => ow_complete w | None => false end then (None, saved, s)
      else if match di_image info with Some im => negb (tg_imagePid im =? tg_pid) || negb (imageUsable s (Some im)) | None => false end then (None, saved, s)
      else
        let view := withoutUnmapped s info in
        let overrides := match ownershipOf s info with Some w => ow_restoreOverrides w | None => [] end in
        let view := withOriginals view (foldl (λ l o, overrideOriginals l o.1 o.2) (di_originals view) overrides) in
        match codeOwnershipConflict s view (di_originals view) with
        | Some e => (Some [e], saved, s)
        | None =>
            let '(r, s) := run (Some info) script s in
            let left := ar_disableInfo r in
            if ar_success r then
              let '(s, saved) := foldl (keepWritten info) (s, saved) (di_originals left) in (None, saved, s)
            else if bool_decide (di_originals left = []) && bool_decide (di_allocs left = []) && bool_decide (di_protections left = []) then (None, saved, s)
            else (Some (RollbackIncomplete :: ar_error r), saved, s)
        end
  end.
Definition disable (section : option Script) (info : DisableInfo) (s : Asm) : AutoAsmResult * Asm :=
  let saved := mkDisable (di_allocs info) (di_originals info) (di_symbols info) (di_protections info) (di_image info) (di_ownership info) (di_scriptSymbols info) false in
  if di_runDisableSection info then
    match runDisableSection section info saved s with
    | (Some errors, _, s) => (failed info errors, s)
    | (None, saved, s) => cleanup saved s
    end
  else cleanup saved s.
Definition execute (script : Script) (s : Asm) : AutoAsmResult * Asm := run None script s.
End Run.
