(* ===== verification/AutoOriginals.v ===== *)
(** * The auto assembler: what saved originals restore

    The byte a list of saved originals restores at an address, and what the operations of
    [AutoUndo] on such lists do to it. *)

From S2P Require Import Prelude Types AutoUndo.
#[local] Open Scope Z_scope.

(** ** Copies *)

Lemma len_take {A} (l : list A) n : 0 ≤ n ≤ len l → len (take (Z.to_nat n) l) = n.
Proof. intros. unfold len in *. rewrite length_take. lia. Qed.
Lemma lget_take {A} (l : list A) n i : i < n → lget (take (Z.to_nat n) l) i = lget l i.
Proof. intros H. unfold lget. destruct (Z.leb_spec 0 i); [|done]. apply lookup_take_lt. lia. Qed.
Lemma lget_drop {A} (l : list A) n i : 0 ≤ n → 0 ≤ i → lget (drop (Z.to_nat n) l) i = lget l (n + i).
Proof. intros Hn Hi. unfold lget. rewrite !(proj2 (Z.leb_le _ _)) by lia. rewrite lookup_drop. f_equal. lia. Qed.

Definition inside (x address size : Z) : Prop := address ≤ x < address + size.
#[export] Instance inside_dec x address size : Decision (inside x address size).
Proof. unfold inside. apply _. Defined.

Lemma len_copyOver dst a src from : len (copyOver dst a src from) = len dst.
Proof.
  unfold copyOver. destruct (Z.leb_spec (Z.max a from) (Z.min (a + (len dst - 1)) (from + (len src - 1)))); [|done].
  rewrite !len_app, len_take, len_slice by lia. unfold len in *. rewrite length_drop. lia.
Qed.
Lemma lget_copyOver dst a src from x : inside x a (len dst) →
  lget (copyOver dst a src from) (x - a) = if decide (inside x from (len src)) then lget src (x - from) else lget dst (x - a).
Proof.
  intros Hx. unfold inside in *. unfold copyOver. set (lo := Z.max a from). set (hi := Z.min (a + (len dst - 1)) (from + (len src - 1))).
  destruct (Z.leb_spec lo hi) as [H|H]; [|destruct (decide _); [lia|done]].
  destruct (decide (from ≤ x < from + len src)) as [Hin|Hout].
  - rewrite lget_app_r by (rewrite len_take; lia). rewrite len_take by lia. rewrite lget_app_l by (rewrite len_slice; lia).
    rewrite lget_slice by lia. f_equal. lia.
  - destruct (Z.lt_ge_cases x lo).
    + rewrite lget_app_l by (rewrite len_take; lia). apply lget_take. lia.
    + rewrite lget_app_r, len_take by (rewrite ?len_take; lia). rewrite lget_app_r by (rewrite len_slice; lia). rewrite len_slice by lia.
      rewrite lget_drop by lia. f_equal. lia.
Qed.

(** ** What is restored *)

Definition covers (x : Z) (p : OriginalBytes) : Prop := inside x (ob_address p) (len (ob_bytes p)).
#[export] Instance covers_dec x p : Decision (covers x p).
Proof. unfold covers. apply _. Defined.
(** The byte of the earliest write over [x]. *)
Fixpoint restoreAt (x : Z) (l : list OriginalBytes) : option Z :=
  match l with
  | [] => None
  | p :: l => if decide (covers x p) then lget (ob_bytes p) (x - ob_address p) else restoreAt x l
  end.
(** The ranges over [x] are well formed. *)
Definition saneAt (x : Z) (l : list OriginalBytes) : Prop := Forall (λ p, covers x p → noRange (ob_address p) (ob_bytes p) = false) l.

Lemma covers_byte x p : covers x p → ∃ b, lget (ob_bytes p) (x - ob_address p) = Some b.
Proof.
  intros [H1 H2]. unfold lget. rewrite (proj2 (Z.leb_le _ _)) by lia. apply lookup_lt_is_Some. unfold len in H2. lia.
Qed.
Lemma restoreAt_None x l : restoreAt x l = None ↔ Forall (λ p, ¬ covers x p) l.
Proof.
  induction l as [|p l IH]; cbn [restoreAt]; [by split|]. rewrite Forall_cons. destruct (decide (covers x p)) as [H|H]; [|tauto].
  destruct (covers_byte _ _ H) as [b ->]. split; [done|tauto].
Qed.
Lemma restoreAt_Some x l : is_Some (restoreAt x l) ↔ Exists (covers x) l.
Proof.
  induction l as [|p l IH]; cbn [restoreAt]; [rewrite Exists_nil; split; [by intros []|done]|]. rewrite Exists_cons. destruct (decide (covers x p)) as [H|H]; [|tauto].
  destruct (covers_byte _ _ H) as [b ->]. split; [by left|done].
Qed.
Lemma restoreAt_app x l k : restoreAt x (l ++ k) = match restoreAt x l with Some b => Some b | None => restoreAt x k end.
Proof.
  induction l as [|p l IH]; [done|]. cbn [app restoreAt]. destruct (decide (covers x p)) as [H|H]; [|done]. by destruct (covers_byte _ _ H) as [b ->].
Qed.
Lemma noRange_false address b : noRange address b = false ↔ b ≠ [] ∧ address + (len b - 1) ≤ UINTPTR_MAX.
Proof. unfold noRange. rewrite orb_false_iff, bool_decide_eq_false, Z.ltb_ge. intuition lia. Qed.
Lemma covers_withBytes x p b : len b = len (ob_bytes p) → covers x (withBytes p b) ↔ covers x p.
Proof. intros H. unfold covers, withBytes. cbn. by rewrite H. Qed.

Lemma overrideOriginals_forall (P Q : OriginalBytes → Prop) l address b : (∀ p k, P p → len k = len (ob_bytes p) → Q (withBytes p k)) → (∀ p, P p → Q p) → Forall P l → Forall Q (overrideOriginals l address b).
Proof.
  intros H1 H2 Hl. unfold overrideOriginals. destruct (noRange address b); [by eapply Forall_impl|]. apply Forall_fmap. eapply Forall_impl; [exact Hl|]. intros p Hp. cbn.
  destruct (noRange _ _); [by apply H2|]. apply H1; [done|apply len_copyOver].
Qed.
Lemma restoreAt_override x l address b : saneAt x l → noRange address b = false ∨ ¬ inside x address (len b) →
  restoreAt x (overrideOriginals l address b) = match restoreAt x l with Some c => if decide (inside x address (len b)) then lget b (x - address) else Some c | None => None end.
Proof.
  intros Hs Hr. unfold overrideOriginals. destruct (noRange address b) eqn:Hn.
  { destruct Hr as [|Hr]; [done|]. destruct (restoreAt x l); [|done]. by destruct (decide _). }
  clear Hr. induction Hs as [|p l Hp Hs IH]; [done|]. cbn [fmap list_fmap restoreAt]. destruct (decide (covers x p)) as [Hc|Hc].
  - rewrite Hp by done. destruct (decide (covers x (withBytes p _))) as [_|Hc']; [|destruct Hc'; apply covers_withBytes; [apply len_copyOver|done]].
    cbn [withBytes ob_bytes ob_address]. rewrite lget_copyOver by done. destruct (covers_byte _ _ Hc) as [c Hc']. rewrite Hc'. done.
  - destruct (noRange (ob_address p) (ob_bytes p)); [by destruct (decide (covers x p))|].
    destruct (decide (covers x (withBytes p _))) as [Hc'|_]; [|done]. apply covers_withBytes in Hc'; [done|apply len_copyOver].
Qed.
Lemma saneAt_override x l address b : saneAt x l → saneAt x (overrideOriginals l address b).
Proof.
  intros Hs. eapply overrideOriginals_forall; [| |exact Hs]; [|done]. intros p k Hp Hk. rewrite covers_withBytes by done. intros Hc.
  specialize (Hp Hc). apply noRange_false in Hp as [H1 H2]. apply noRange_false. cbn. rewrite Hk. split; [|done]. apply len_positive. rewrite Hk. by apply len_positive.
Qed.

(** The pieces of a patch outside a range. *)
Lemma piece_covers x p from to : ob_address p ≤ from → to ≤ ob_address p + (len (ob_bytes p) - 1) → from ≤ to → covers x (pieceOf p from to) ↔ from ≤ x ≤ to.
Proof. intros H1 H2 H3. unfold covers, inside, pieceOf. cbn. rewrite len_slice by lia. lia. Qed.
Lemma piece_byte x p from to : ob_address p ≤ from → from ≤ x ≤ to → lget (ob_bytes (pieceOf p from to)) (x - ob_address (pieceOf p from to)) = lget (ob_bytes p) (x - ob_address p).
Proof. intros H1 H2. cbn. rewrite lget_slice by lia. f_equal. lia. Qed.
Lemma restoreAt_dropRange x l first last : restoreAt x (dropRange l first last) = if decide (first ≤ x ≤ last) then None else restoreAt x l.
Proof.
  induction l as [|p l IH]; [by destruct (decide _)|]. unfold dropRange in *. cbn [mbind list_bind]. rewrite restoreAt_app, IH. clear IH.
  set (stop := if bool_decide (ob_bytes p = []) then _ else _).
  destruct (bool_decide (ob_bytes p = []) || (last <? ob_address p) || (stop <? first)) eqn:Hout.
  - cbn [restoreAt]. destruct (decide (covers x p)) as [Hc|Hc]; [|done]. destruct (decide (first ≤ x ≤ last)) as [Hx|_]; [|by destruct (covers_byte _ _ Hc) as [? ->]].
    unfold covers, inside in Hc. subst stop. case_bool_decide as He; [rewrite He, len_nil in Hc; lia|]. cbn [orb] in Hout. apply orb_true_iff in Hout as [Hout|Hout]; apply Z.ltb_lt in Hout; lia.
  - subst stop. destruct (bool_decide (ob_bytes p = [])) eqn:He; [done|]. cbn [orb] in Hout. apply orb_false_iff in Hout as [H1 H2]. rewrite Z.ltb_ge in H1, H2.
    assert (Hl : 0 < len (ob_bytes p)) by (by apply bool_decide_eq_false, len_positive in He).
    assert (P1 : restoreAt x (if ob_address p <? first then [pieceOf p (ob_address p) (first - 1)] else []) = if decide (covers x p ∧ x < first) then lget (ob_bytes p) (x - ob_address p) else None).
    { destruct (Z.ltb_spec (ob_address p) first) as [Ha|Ha]; [|destruct (decide _) as [[[] ?]|]; [lia|done]]. cbn [restoreAt].
      destruct (decide (covers x (pieceOf _ _ _))) as [Hc|Hc], (decide (covers x p ∧ x < first)) as [Hd|Hd]; rewrite piece_covers in Hc by lia; unfold covers, inside in Hd; try lia; [|done]. by rewrite piece_byte by lia. }
    assert (P2 : restoreAt x (if last <? ob_address p + (len (ob_bytes p) - 1) then [pieceOf p (last + 1) (ob_address p + (len (ob_bytes p) - 1))] else []) = if decide (covers x p ∧ last < x) then lget (ob_bytes p) (x - ob_address p) else None).
    { destruct (Z.ltb_spec last (ob_address p + (len (ob_bytes p) - 1))) as [Ha|Ha]; [|destruct (decide (covers x p ∧ last < x)) as [[[] ?]|]; [lia|done]]. cbn [restoreAt].
      destruct (decide (covers x (pieceOf _ _ _))) as [Hc|Hc], (decide (covers x p ∧ last < x)) as [Hd|Hd]; rewrite piece_covers in Hc by lia; unfold covers, inside in Hd; try lia; [|done]. by rewrite piece_byte by lia. }
    rewrite restoreAt_app, P1, P2. cbn [restoreAt]. destruct (decide (covers x p)) as [Hc|Hc].
    + destruct (covers_byte _ _ Hc) as [b ->]. destruct (decide (_ ∧ x < first)), (decide (_ ∧ last < x)), (decide (first ≤ x ≤ last)); try done; intuition lia.
    + rewrite !decide_False by tauto. done.
Qed.
(** What is wanted in a chunk is what is restored there. *)
Section Wanted.
Context {T : AaTarget}.
Implicit Types s : Asm.

Lemma len_wantedAt s l a n : 0 ≤ n → len (wantedAt s l a n) = n.
Proof.
  intros Hn. unfold wantedAt. generalize (reverse l). intros k. assert (H : len (replicate (Z.to_nat n) 0) = n) by (unfold len; rewrite length_replicate; lia).
  revert H. generalize (replicate (Z.to_nat n) 0). induction k as [|p k IH]; intros b Hb; [done|]. cbn [foldl]. apply IH. case_match; [done|]. by rewrite len_copyOver.
Qed.
Lemma wantedAt_restores s l a n x : Forall (λ p, covers x p → recordReleased s p = false) l → inside x a n →
  lget (wantedAt s l a n) (x - a) = Some (default 0 (restoreAt x l)).
Proof.
  intros Hr Hx. unfold inside in Hx. induction Hr as [|p l Hp Hr IH].
  - unfold wantedAt. cbn. unfold lget. rewrite (proj2 (Z.leb_le _ _)) by lia. apply lookup_replicate. split; [done|lia].
  - unfold wantedAt in *. rewrite reverse_cons, foldl_app. cbn [foldl restoreAt]. pose proof (len_wantedAt s l a n ltac:(lia)) as Hl. unfold wantedAt in Hl. fold (wantedAt s l a n) in *.
    destruct (decide (covers x p)) as [Hc|Hc].
    + unfold skipPatch. rewrite (Hp Hc), orb_false_r. case_bool_decide as He; [unfold covers, inside in Hc; rewrite He, len_nil in Hc; lia|].
      rewrite lget_copyOver by (unfold inside; lia). rewrite decide_True by done. destruct (covers_byte _ _ Hc) as [b ->]. done.
    + destruct (skipPatch s p); [done|]. rewrite lget_copyOver by (unfold inside; lia). by rewrite decide_False by done.
Qed.
End Wanted.
