(* ===== verification/AutoUndoSpec.v ===== *)
(** * The auto assembler: what an undo restores

    The contract of the target and, for one address of its static memory, what every step of
    [cleanup] does to the byte there, to what the script restores there and to what other
    scripts restore there. *)

From stdpp Require Import sorting.
From S2P Require Import Prelude Types AutoUndo AutoOriginals.
#[local] Open Scope Z_scope.

(** The target keeps its address space; [static] memory stays mapped, and no allocation lies
    in it.  Transfers may fail and be short, but they only touch what they were asked to. *)
Class AaLaws (T : AaTarget) := {
  mem : target → Z → Z;
  static : Z → Prop;
  read_mem im a n t b : tg_read im a n t = Some b → len b ≤ n ∧ ∀ i c, lget b i = Some c → c = mem t (a + i);
  write_frame im e a b t r t' : tg_write im e a b t = (r, t') → ∀ x, ¬ inside x a (len b) → mem t' x = mem t x;
  protect_frame im a n p t r t' : tg_protect im a n p t = (r, t') → ∀ x, mem t' x = mem t x;
  allocate_frame im n p t r t' : tg_allocate im n p t = (r, t') →
    ∀ x, static x → mem t' x = mem t x ∧ ∀ a, r = Some a → ¬ inside x a (n + (tg_pageSize - n mod tg_pageSize) mod tg_pageSize);
  free_frame im a n t r t' : tg_free im a n t = (r, t') → ∀ x, ¬ inside x a n → mem t' x = mem t x;
  static_mapped a t : static a → ∃ r, tg_region a t = Some r ∧ inside a (region_base r) (region_size r);
  image_live im t : tg_check im t = ImageLive;
  image_pid im : tg_imagePid im = tg_pid;
  page_positive : 0 < tg_pageSize
}.

Section Effects.
Context {T : AaTarget} {L : AaLaws T} (x : Z) (Hx : static x).
Implicit Types (s : Asm) (info : DisableInfo).

Definition memAt s : Z := mem (as_target s) x.
(** A patch over [x] starts in static memory and is not in an allocation. *)
Definition patchOk (p : OriginalBytes) : Prop := covers x p → noRange (ob_address p) (ob_bytes p) = false ∧ static (ob_address p) ∧ ob_allocationReleased p = None.
Definition allocOk (a : AllocEntry) : Prop := ¬ inside x (al_address a) (al_size a).
Definition infoOk info : Prop := Forall patchOk (di_originals info) ∧ Forall allocOk (di_allocs info).

Lemma patchOk_sane l : Forall patchOk l → saneAt x l.
Proof using. intros H. eapply Forall_impl; [exact H|]. intros p Hp Hc. by apply Hp. Qed.
Definition patchHeld (p : OriginalBytes) : Prop := covers x p → ob_allocationReleased p = None.
Lemma patchOk_held l : Forall patchOk l → Forall patchHeld l.
Proof using. intros H. eapply Forall_impl; [exact H|]. intros p Hp Hc. by apply Hp. Qed.
Lemma patchHeld_released s l : Forall patchHeld l → Forall (λ p, covers x p → recordReleased s p = false) l.
Proof using. intros H. eapply Forall_impl; [exact H|]. intros p Hp Hc. unfold recordReleased. by rewrite Hp. Qed.

(** ** Pruning and overrides *)

Lemma restoreAt_filter (P : OriginalBytes → Prop) `{∀ p, Decision (P p)} l : Forall (λ p, covers x p → P p) l → restoreAt x (filter P l) = restoreAt x l.
Proof using.
  intros HP. induction HP as [|p l Hp HP IH]; [done|]. rewrite filter_cons. cbn [restoreAt]. destruct (decide (covers x p)) as [Hc|Hc].
  - rewrite decide_True by auto. cbn [restoreAt]. by rewrite decide_True.
  - destruct (decide (P p)); [|done]. cbn [restoreAt]. by rewrite decide_False.
Qed.
Lemma filter_Forall {A} (P Q : A → Prop) `{∀ a, Decision (Q a)} l : Forall P l → Forall P (filter Q l).
Proof using. rewrite !Forall_forall. intros H1 a [_ Ha]%list_elem_of_filter. auto. Qed.
Lemma withoutUnmapped_restores s info : Forall patchOk (di_originals info) → restoreAt x (di_originals (withoutUnmapped s info)) = restoreAt x (di_originals info).
Proof using.
  intros Ho. unfold withoutUnmapped. destruct (match di_image info with Some im => _ | None => _ end); [|done]. cbn [di_originals withProtections withOriginals].
  apply restoreAt_filter. eapply Forall_impl; [exact Ho|]. intros p Hp Hc. destruct (Hp Hc) as (_ & Hs & _). apply Is_true_true, orb_true_iff. right.
  unfold mapped. destruct (static_mapped _ (as_target s) Hs) as (r & -> & H1 & H2). assert (E : (region_base r <=? ob_address p) && (ob_address p - region_base r <? region_size r) = true).
  { apply andb_true_iff. rewrite Z.leb_le, Z.ltb_lt. lia. }
  rewrite E. by repeat case_match.
Qed.
Lemma withoutUnmapped_ok s info : infoOk info → infoOk (withoutUnmapped s info).
Proof using.
  intros [H1 H2]. unfold withoutUnmapped. destruct (match di_image info with Some im => _ | None => _ end); [|done]. split; [|done]. cbn. by apply filter_Forall.
Qed.
Lemma override_ok l a b : Forall patchOk l → Forall patchOk (overrideOriginals l a b).
Proof using.
  intros H. eapply overrideOriginals_forall; [| |exact H]; [|done]. intros p k Hp Hk. unfold patchOk. rewrite covers_withBytes by done. intros Hc. destruct (Hp Hc) as (H1 & H2 & H3).
  split_and!; [|done|done]. apply noRange_false in H1 as [H1 H1']. apply noRange_false. cbn. rewrite Hk. split; [|done]. apply len_positive. rewrite Hk. by apply len_positive.
Qed.
(** The last override over [x], else what was saved. *)
Definition overrideAt (b : Z) (overrides : list (Z * bytes)) : Z :=
  foldl (λ b o, if decide (inside x o.1 (len o.2)) then default b (lget o.2 (x - o.1)) else b) b overrides.
Definition overridesSane (overrides : list (Z * bytes)) : Prop := Forall (λ o, inside x o.1 (len o.2) → noRange o.1 o.2 = false) overrides.
Lemma inside_byte a (b : bytes) : inside x a (len b) → is_Some (lget b (x - a)).
Proof using. unfold inside. intros [H1 H2]. unfold lget. rewrite (proj2 (Z.leb_le _ _)) by lia. apply lookup_lt_is_Some. unfold len in H2. lia. Qed.
Lemma overrides_ok l overrides : Forall patchOk l → Forall patchOk (foldl (λ l o, overrideOriginals l o.1 o.2) l overrides).
Proof using. revert l. induction overrides as [|o os IH]; intros l Hl; [done|]. cbn. by apply IH, override_ok. Qed.
Lemma restoreAt_overrides l overrides : Forall patchOk l → overridesSane overrides →
  restoreAt x (foldl (λ l o, overrideOriginals l o.1 o.2) l overrides) = (λ b, overrideAt b overrides) <$> restoreAt x l.
Proof using.
  intros Hl Ho. revert l Hl. induction Ho as [|o os Ho Hos IH]; intros l Hl; [cbn; by destruct (restoreAt x l)|]. cbn [foldl]. rewrite IH by by apply override_ok.
  rewrite restoreAt_override by (first [by apply patchOk_sane|destruct (decide (inside x o.1 (len o.2))); auto]). unfold overrideAt. cbn [foldl]. destruct (restoreAt x l) as [b|]; [|done]. cbn.
  destruct (decide (inside x o.1 (len o.2))) as [Hi|Hi]; [|done]. by destruct (inside_byte _ _ Hi) as [c ->].
Qed.

(** ** Verification *)

Definition inRanges (l : list (Z * Z)) : Prop := Exists (λ r, r.1 ≤ x ≤ r.2) l.
(** The accumulator of the merge starts no later than what is to come. *)
Lemma mergeRange_covers merged l : StronglySorted rangeLe l → (∀ r b, head merged = Some b → r ∈ l → b.1 ≤ r.1) → inRanges merged ∨ inRanges l → inRanges (foldl mergeRange merged l).
Proof using.
  intros Hs. revert merged. induction Hs as [|r l Hs IH Hr]; intros merged Hb Hin; [destruct Hin as [|H%Exists_nil]; done|]. cbn [foldl].
  assert (Hr' : ∀ r', r' ∈ l → r.1 ≤ r'.1) by (intros r' H; rewrite Forall_forall in Hr; destruct (Hr _ H) as [|[]]; lia).
  apply IH.
  - intros r' b Hh Hr1. specialize (Hr' _ Hr1). destruct merged as [|back merged]; [by simplify_eq/=|]. cbn [mergeRange] in Hh. specialize (Hb r back eq_refl ltac:(left)). case_match; simplify_eq/=; lia.
  - unfold inRanges in *. rewrite Exists_cons in Hin. destruct merged as [|back merged]; cbn [mergeRange].
    + rewrite Exists_nil in Hin. rewrite Exists_cons. tauto.
    + specialize (Hb r back eq_refl ltac:(left)). rewrite Exists_cons in Hin. case_match; rewrite !Exists_cons; cbn [fst snd]; destruct Hin as [[Hin|Hin]|[Hin|Hin]]; auto; left; lia.
Qed.
Lemma mergedRanges_covers l : inRanges l → inRanges (mergedRanges l).
Proof using.
  intros H. unfold mergedRanges, inRanges. rewrite Exists_exists. setoid_rewrite elem_of_reverse. rewrite <- Exists_exists. apply mergeRange_covers; [|done|right].
  - apply StronglySorted_merge_sort; [intros a b c; unfold rangeLe; lia|intros a b; unfold rangeLe; lia].
  - unfold inRanges in *. by rewrite merge_sort_Permutation.
Qed.
(** A chunk that matches holds what is restored. *)
Lemma mismatchLoop_matches s info fuel a last b : Forall patchHeld (di_originals info) → mismatchLoop s info fuel a last = None → a ≤ x ≤ last → last - a < 65536 * Z.of_nat fuel →
  restoreAt x (di_originals info) = Some b → memAt s = b.
Proof using L.
  intros Ho. revert a. induction fuel as [|fuel IH]; intros a H Hax Hf Hb; [lia|]. cbn [mismatchLoop] in H. set (count := if 65535 <=? last - a then 65536 else last - a + 1) in *.
  case_bool_decide as Hr; [|done]. assert (Hcount : 0 < count ≤ 65536) by (unfold count; destruct (Z.leb_spec 65535 (last - a)); lia).
  destruct (Z.lt_ge_cases x (a + count)) as [Hin|Hin].
  - apply read_mem in Hr as [_ Hr]. specialize (Hr (x - a) b). unfold memAt. replace x with (a + (x - a)) by lia. symmetry. apply Hr. rewrite wantedAt_restores; [by rewrite Hb|by apply patchHeld_released|unfold inside; lia].
  - destruct (Z.eqb_spec (count - 1) (last - a)); [lia|]. apply (IH (a + count)); [done|lia| |done]. unfold count in *. destruct (Z.leb_spec 65535 (last - a)); lia.
Qed.
Lemma firstMismatch_matches s info merged b : Forall patchHeld (di_originals info) → firstMismatch s info merged = None → inRanges merged → restoreAt x (di_originals info) = Some b → memAt s = b.
Proof using L.
  intros Ho. unfold inRanges. induction merged as [|[first last] merged IH]; intros H Hin Hb; [by apply Exists_nil in Hin|]. cbn [firstMismatch] in H.
  destruct (mismatchLoop _ _ _ _ _) eqn:Hm; [done|]. apply Exists_cons in Hin as [Hin|Hin]; [|by apply IH]. cbn in Hin.
  eapply (mismatchLoop_matches s info _ first last); try done. pose proof (Z.div_mod (last - first) 65536 ltac:(done)). pose proof (Z.mod_pos_bound (last - first) 65536 ltac:(done)).
  pose proof (Z.div_pos (last - first) 65536). rewrite Z2Nat.id by lia. lia.
Qed.
(** Every restored range is verified. *)
Lemma ranges_cover s l : Forall patchHeld l → is_Some (restoreAt x l) →
  inRanges (mergedRanges ((λ p, (ob_address p, ob_address p + (len (ob_bytes p) - 1))) <$> filter (λ p, skipPatch s p = false) l)).
Proof using.
  intros Ho [p [Hp Hc]]%restoreAt_Some%Exists_exists. apply mergedRanges_covers. unfold inRanges. apply Exists_fmap, Exists_exists. exists p. split.
  - apply list_elem_of_filter. split; [|done]. unfold skipPatch. rewrite (proj1 (Forall_forall _ _) (patchHeld_released s _ Ho) p Hp Hc), orb_false_r. apply bool_decide_eq_false, len_positive. unfold covers, inside in Hc. lia.
  - unfold covers, inside in Hc. cbn. lia.
Qed.

(** ** Writing back *)

(** Only the target changes. *)
Definition sameBooks s s' : Prop := s' = withTarget s (as_target s').
Lemma sameBooks_refl s : sameBooks s s.
Proof using. by destruct s. Qed.
Lemma sameBooks_trans s s' s'' : sameBooks s s' → sameBooks s' s'' → sameBooks s s''.
Proof using. intros H1 H2. unfold sameBooks in *. rewrite H2, H1. done. Qed.
Lemma sameBooks_fields s s' : sameBooks s s' → (as_livePatches s' = as_livePatches s ∧ as_ownerships s' = as_ownerships s ∧ as_fresh s' = as_fresh s) ∧ as_knownAllocations s' = as_knownAllocations s.
Proof using. intros ->. done. Qed.
Lemma restoreOne_frame info st p : sameBooks st.1 (restoreOne info st p).1 ∧ (¬ covers x p → memAt (restoreOne info st p).1 = memAt st.1).
Proof using L.
  destruct st as [s e]. unfold restoreOne. cbn [fst snd]. destruct (recordReleased s p); [by split; [apply sameBooks_refl|]|].
  destruct (tg_write _ _ _ _ _) as [r t] eqn:Hw. cbn [fst]. split; [done|]. intros Hc. unfold memAt. cbn. by eapply write_frame.
Qed.
Lemma foldl_books {A} (f : Asm * list UndoError → A → Asm * list UndoError) (Q : A → Prop) :
  (∀ st a, sameBooks st.1 (f st a).1 ∧ (Q a → memAt (f st a).1 = memAt st.1)) → ∀ l st, sameBooks st.1 (foldl f st l).1 ∧ (Forall Q l → memAt (foldl f st l).1 = memAt st.1).
Proof using.
  intros Hf l. induction l as [|a l IH]; intros st; [by split; [apply sameBooks_refl|]|]. cbn [foldl]. destruct (IH (f st a)) as [H1 H2], (Hf st a) as [H3 H4]. split; [by eapply sameBooks_trans|].
  intros [Ha Hl]%Forall_cons. by rewrite H2, H4.
Qed.
Lemma restoreBytes_effect s info merged s' e : Forall patchHeld (di_originals info) → restoreBytes s info merged = (s', e) →
  sameBooks s s' ∧ (restoreAt x (di_originals info) = None → memAt s' = memAt s) ∧ (e = [] → inRanges merged → ∀ b, restoreAt x (di_originals info) = Some b → memAt s' = b).
Proof using L.
  intros Ho H. unfold restoreBytes in H. destruct (firstMismatch s info merged) eqn:Hm.
  - pose proof (foldl_books (restoreOne info) _ (restoreOne_frame info) (reverse (di_originals info)) (s, [])) as [H1 H2].
    destruct (foldl (restoreOne info) (s, []) (reverse (di_originals info))) as [s1 e1]. cbn [fst] in *. injection H as <- <-. split_and!; [done| |].
    + intros Hn%restoreAt_None. apply H2. by apply Forall_reverse.
    + intros [_ He]%app_eq_nil Hin b Hb. destruct (firstMismatch s1 info merged) eqn:Hm'; [done|]. by eapply firstMismatch_matches.
  - injection H as <- <-. split_and!; [apply sameBooks_refl|done|]. intros _ Hin b Hb. by eapply firstMismatch_matches.
Qed.
Lemma restoreProtections_effect s info l s' e : foldl (restoreProtection info) (s, []) l = (s', e) → sameBooks s s' ∧ memAt s' = memAt s.
Proof using L.
  intros H. destruct (foldl_books (restoreProtection info) (λ _, True)) with (l := l) (st := (s, [] : list UndoError)) as [H1 H2].
  - intros [s1 e1] p. unfold restoreProtection. cbn [fst snd]. destruct (isReleased s1 _); [by split; [apply sameBooks_refl|]|]. destruct (tg_protect _ _ _ _ _) as [r t] eqn:Hp. cbn. split; [done|]. intros _. unfold memAt. cbn. by eapply protect_frame.
  - rewrite H in *. split; [done|]. apply H2. by apply Forall_true.
Qed.

(** ** Freeing *)

(** The memory of an undo that is freed is not static, and the bookkeeping of scripts stays. *)
Definition sameScripts s s' : Prop := as_livePatches s' = as_livePatches s ∧ as_ownerships s' = as_ownerships s ∧ as_fresh s' = as_fresh s.
Definition knownOk s : Prop := ∀ name a, as_knownAllocations s !! name = Some a → allocOk a.
Lemma forgetAllocation_lookup known a name b : forgetAllocation known a !! name = Some b → known !! name = Some b.
Proof using.
  unfold forgetAllocation. destruct (known !! al_name a); [|done]. destruct (_ && _); [|done]. by intros [_ ?]%lookup_delete_Some.
Qed.
Lemma freeOne_frame info s pending e a s' pending' e' : freeOne info (s, pending, e) a = (s', pending', e') → allocOk a →
  sameScripts s s' ∧ memAt s' = memAt s ∧ (knownOk s → knownOk s') ∧ (Forall allocOk pending → Forall allocOk pending').
Proof using L.
  intros H Ha. unfold freeOne in H. destruct (match al_released a with Some f => _ | None => _ end); [by injection H as <- <- <-|].
  destruct (tg_free _ _ _ _) as [freed t] eqn:Hf. assert (Hm : mem t x = mem (as_target s) x) by (by eapply free_frame).
  destruct freed; injection H as <- <- <-; (split; [done|split; [exact Hm|split]]).
  - intros Hk name b Hb. cbn in Hb. apply forgetAllocation_lookup in Hb. by eapply Hk.
  - done.
  - done.
  - intros Hp. apply Forall_app. split; [done|]. by apply Forall_singleton.
Qed.
Lemma freeAll_frame info l s pending e s' pending' e' : foldl (freeOne info) (s, pending, e) l = (s', pending', e') → Forall allocOk l →
  sameScripts s s' ∧ memAt s' = memAt s ∧ (knownOk s → knownOk s') ∧ (Forall allocOk pending → Forall allocOk pending').
Proof using L.
  intros H Hl. revert s pending e H. induction Hl as [|a l Ha Hl IH]; intros s pending e H; [injection H as <- <- <-; done|]. cbn [foldl] in H.
  destruct (freeOne info (s, pending, e) a) as [[s1 p1] e1] eqn:H1. apply freeOne_frame in H1 as ((A1 & A2 & A3) & A4 & A5 & A6); [|done]. apply IH in H as ((B1 & B2 & B3) & B4 & B5 & B6).
  split_and!; [split_and!; congruence|congruence|auto|auto].
Qed.

(** ** Handing over *)

Lemma inRanges_app l k : inRanges (l ++ k) ↔ inRanges l ∨ inRanges k.
Proof using. apply Exists_app. Qed.
Lemma inRanges_one r : inRanges [r] ↔ r.1 ≤ x ≤ r.2.
Proof using. unfold inRanges. rewrite Exists_cons, Exists_nil. tauto. Qed.
Lemma inRanges_nil : ¬ inRanges [].
Proof using. by intros ?%Exists_nil. Qed.
Lemma inRanges_if (c : bool) r : inRanges (if c then [r] else []) ↔ c = true ∧ r.1 ≤ x ≤ r.2.
Proof using. destruct c; [rewrite inRanges_one; tauto|]. pose proof inRanges_nil. split; [done|by intros []]. Qed.

Section Claims.
Context (b0 : Z) (original : Z → Z → bytes) (original_len : ∀ lo hi, lo ≤ hi → len (original lo hi) = hi - lo + 1) (original_byte : ∀ lo hi, lo ≤ x ≤ hi → lget (original lo hi) (x - lo) = Some b0).

Definition hits (h : Handover) : Prop := inside x (ho_address h) (len (ho_bytes h)).
Definition gives (h : Handover) : Prop := lget (ho_bytes h) (x - ho_address h) = Some b0 ∧ noRange (ho_address h) (ho_bytes h) = false.
(** Between two states: when [c], the byte at [x] is claimed, for [o] only. *)
Definition Claims (o : option nat) (c : Prop) (hs : list Handover) (cl : list (Z * Z)) (hs' : list Handover) (cl' : list (Z * Z)) : Prop :=
  (∀ h, h ∈ hs' → h ∈ hs ∨ (hits h → c ∧ Some (ho_to h) = o ∧ gives h)) ∧ hs ⊆ hs' ∧ (c → ∃ h, h ∈ hs' ∧ hits h ∧ Some (ho_to h) = o) ∧ (inRanges cl' ↔ inRanges cl ∨ c).
Lemma Claims_none o c hs cl : ¬ c → Claims o c hs cl hs cl.
Proof using. intros Hc. split_and!; [auto|done|by intros ?|tauto]. Qed.
Lemma Claims_iff o c c' hs cl hs' cl' : (c ↔ c') → Claims o c hs cl hs' cl' → Claims o c' hs cl hs' cl'.
Proof using. intros Hc (H1 & H2 & H3 & H4). split_and!; [intros h Hh; destruct (H1 h Hh); tauto|done|tauto|tauto]. Qed.
Lemma Claims_owner o o' c hs cl hs' cl' : (c → o = o') → Claims o c hs cl hs' cl' → Claims o' c hs cl hs' cl'.
Proof using.
  intros Ho (H1 & H2 & H3 & H4). split_and!; [|done| |done].
  - intros h Hh. destruct (H1 h Hh) as [|H]; [by left|]. right. intros Hi. destruct (H Hi) as (Hc & Ht & Hg). split_and!; [done|by rewrite <- Ho|done].
  - intros Hc. destruct (H3 Hc) as (h & ? & ? & ?). exists h. by rewrite <- Ho.
Qed.
Lemma Claims_trans o c c' hs cl hs' cl' hs'' cl'' : Claims o c hs cl hs' cl' → Claims o c' hs' cl' hs'' cl'' → Claims o (c ∨ c') hs cl hs'' cl''.
Proof using.
  intros (A1 & A2 & A3 & A4) (B1 & B2 & B3 & B4). split_and!.
  - intros h Hh. destruct (B1 h Hh) as [Hh'|H]; [destruct (A1 h Hh') as [|H]; [by left|right; intros Hi; destruct (H Hi); tauto]|right; intros Hi; destruct (H Hi); tauto].
  - by etrans.
  - intros [Hc|Hc]; [destruct (A3 Hc) as (h & Hh & ?); exists h; split; [by apply B2|done]|by apply B3].
  - tauto.
Qed.
Definition bounded (pa pe : Z) (open : list (Z * Z)) : Prop := Forall (λ r, pa ≤ r.1 ∧ r.2 ≤ pe) open.
Context (pa pe : Z) (patch_end : pa ≤ x ≤ pe → pe ≤ UINTPTR_MAX).

Lemma claimOpen_spec owner range hs cl rest r hs' cl' rest' : claimOpen original owner range (hs, cl, rest) r = (hs', cl', rest') → range.2 ≠ 0 → pa ≤ r.1 ∧ r.2 ≤ pe → bounded pa pe rest →
  Claims (Some owner) (r.1 ≤ x ≤ r.2 ∧ inside x range.1 range.2) hs cl hs' cl' ∧ (inRanges rest' ↔ inRanges rest ∨ r.1 ≤ x ≤ r.2 ∧ ¬ inside x range.1 range.2) ∧ bounded pa pe rest'.
Proof using original_len original_byte patch_end.
  intros H Hz Hr Hb. unfold claimOpen in H. set (lo := Z.max r.1 range.1) in *. set (hi := Z.min r.2 (range.1 + (range.2 - 1))) in *. unfold inside. destruct (Z.ltb_spec hi lo) as [Hlh|Hlh]; injection H as <- <- <-.
  - split_and!; [apply Claims_none; lia| |].
    { rewrite inRanges_app, inRanges_one. assert (r.1 ≤ x ≤ r.2 → ¬ (range.1 ≤ x < range.1 + range.2)) by lia. tauto. }
    apply Forall_app. split; [done|by apply Forall_singleton].
  - split_and!.
    + split_and!; [|by intros h Hh; apply elem_of_app; left| |].
      * intros h [Hh|Hh%list_elem_of_singleton]%elem_of_app; [by left|]. right. subst h. unfold hits, gives, inside. cbn [ho_address ho_bytes ho_to]. rewrite original_len by done. intros Hi.
        split_and!; [lia|lia|lia|lia|done|apply original_byte; lia|]. apply noRange_false. rewrite len_positive, original_len by done. lia.
      * intros Hc. exists (mkHandover owner lo (original lo hi)). split_and!; [by apply elem_of_app; right; apply list_elem_of_singleton| |done]. unfold hits, inside. cbn. rewrite original_len by done. lia.
      * rewrite inRanges_app, inRanges_one. cbn [fst snd]. assert (lo ≤ x ≤ hi ↔ r.1 ≤ x ≤ r.2 ∧ range.1 ≤ x < range.1 + range.2) by lia. tauto.
    + rewrite !inRanges_app, !inRanges_if. cbn [fst snd]. rewrite !Z.ltb_lt.
      assert (r.1 < lo ∧ r.1 ≤ x ≤ lo - 1 ∨ hi < r.2 ∧ hi + 1 ≤ x ≤ r.2 ↔ r.1 ≤ x ≤ r.2 ∧ ¬ (range.1 ≤ x < range.1 + range.2)) by lia. tauto.
    + unfold bounded in *. rewrite !Forall_app. split_and!; [done|destruct (Z.ltb_spec r.1 lo)|destruct (Z.ltb_spec hi r.2)]; first [apply Forall_nil; done|apply Forall_singleton; cbn; lia].
Qed.

Lemma claimAll_spec owner range open hs cl rest hs' cl' rest' : foldl (claimOpen original owner range) (hs, cl, rest) open = (hs', cl', rest') → range.2 ≠ 0 → bounded pa pe open → bounded pa pe rest →
  Claims (Some owner) (inRanges open ∧ inside x range.1 range.2) hs cl hs' cl' ∧ (inRanges rest' ↔ inRanges rest ∨ inRanges open ∧ ¬ inside x range.1 range.2) ∧ bounded pa pe rest'.
Proof using original_len original_byte patch_end.
  intros H Hz Hopen. revert hs cl rest H. induction Hopen as [|r open Hr Hopen IH]; intros hs cl rest H Hrest; cbn [foldl] in H.
  - injection H as <- <- <-. pose proof inRanges_nil. split_and!; [apply Claims_none; tauto|tauto|done].
  - destruct (claimOpen original owner range (hs, cl, rest) r) as [[hs1 cl1] rest1] eqn:H1. apply claimOpen_spec in H1 as (A1 & A2 & A3); [|done..]. apply IH in H as (B1 & B2 & B3); [|done].
    assert (C : inRanges (r :: open) ↔ r.1 ≤ x ≤ r.2 ∨ inRanges open) by apply Exists_cons. split_and!; [|tauto|done]. eapply Claims_iff; [|exact (Claims_trans _ _ _ _ _ _ _ _ _ A1 B1)]. tauto.
Qed.
Lemma claimRange_spec owner range open hs cl hs' cl' open' : claimRange original owner range (hs, cl, open) = (hs', cl', open') → bounded pa pe open →
  Claims (Some owner) (inRanges open ∧ inside x range.1 range.2) hs cl hs' cl' ∧ (inRanges open' ↔ inRanges open ∧ ¬ inside x range.1 range.2) ∧ bounded pa pe open'.
Proof using original_len original_byte patch_end.
  intros H Hopen. unfold claimRange in H. cbn [fst snd] in H. destruct (Z.eqb_spec range.2 0) as [Hz|Hz].
  - injection H as <- <- <-. assert (¬ inside x range.1 range.2) by (unfold inside; lia). split_and!; [apply Claims_none; tauto|tauto|done].
  - apply claimAll_spec in H as (A1 & A2 & A3); [|done|done|by apply Forall_nil]. pose proof inRanges_nil. split_and!; [done|tauto|done].
Qed.
Lemma claimRanges_spec owner ranges open hs cl hs' cl' open' : foldl (λ st range, claimRange original owner range st) (hs, cl, open) ranges = (hs', cl', open') → bounded pa pe open →
  Claims (Some owner) (inRanges open ∧ Exists (λ r, inside x r.1 r.2) ranges) hs cl hs' cl' ∧ (inRanges open' ↔ inRanges open ∧ ¬ Exists (λ r, inside x r.1 r.2) ranges) ∧ bounded pa pe open'.
Proof using original_len original_byte patch_end.
  revert hs cl open. induction ranges as [|r ranges IH]; intros hs cl open H Hopen; cbn [foldl] in H.
  - injection H as <- <- <-. assert (N : ¬ Exists (λ r, inside x r.1 r.2) []) by by intros ?%Exists_nil. split_and!; [apply Claims_none; tauto|tauto|done].
  - destruct (claimRange original owner r (hs, cl, open)) as [[hs1 cl1] open1] eqn:H1. apply claimRange_spec in H1 as (A1 & A2 & A3); [|done]. apply IH in H as (B1 & B2 & B3); [|done].
    pose proof (Exists_cons (λ r, inside x r.1 r.2) r ranges) as C. cbn beta in C. split_and!; [|tauto|done]. eapply Claims_iff; [|exact (Claims_trans _ _ _ _ _ _ _ _ _ A1 B1)]. destruct (decide (inside x r.1 r.2)); tauto.
Qed.
Definition overX (l : LivePatch) : Prop := Exists (λ r, inside x r.1 r.2) (lp_ranges l).
#[local] Instance overX_dec l : Decision (overX l).
Proof using. unfold overX. apply _. Defined.
(** The oldest of the scripts over [x]. *)
Fixpoint firstOver (live : list LivePatch) : option nat :=
  match live with
  | [] => None
  | l :: live => if decide (overX l) then Some (lp_owner l) else firstOver live
  end.
Lemma firstOver_Some live : is_Some (firstOver live) ↔ Exists overX live.
Proof using. induction live as [|l live IH]; cbn [firstOver]; [rewrite Exists_nil; split; [by intros []|done]|]. rewrite Exists_cons. destruct (decide (overX l)) as [H|H]; [split; [by left|done]|]. rewrite IH. split; [by right|by intros []]. Qed.
Lemma claimNewer_spec newer open hs cl hs' cl' open' : foldl (λ st live, foldl (λ st range, claimRange original (lp_owner live) range st) st (lp_ranges live)) (hs, cl, open) newer = (hs', cl', open') → bounded pa pe open →
  Claims (firstOver newer) (inRanges open ∧ Exists overX newer) hs cl hs' cl'.
Proof using original_len original_byte patch_end.
  revert hs cl open. induction newer as [|l newer IH]; intros hs cl open H Hopen; cbn [foldl] in H.
  - injection H as <- <- <-. assert (N : ¬ Exists overX []) by by intros ?%Exists_nil. apply Claims_none. tauto.
  - destruct (foldl _ (hs, cl, open) (lp_ranges l)) as [[hs1 cl1] open1] eqn:H1. apply claimRanges_spec in H1 as (A1 & A2 & A3); [|done]. apply IH in H; [|done]. fold (overX l) in *.
    pose proof (Exists_cons overX l newer) as C. cbn [firstOver]. destruct (decide (overX l)) as [Hl|Hl].
    + eapply Claims_iff; [|eapply Claims_trans; [exact A1|eapply Claims_owner; [|exact H]]]; tauto.
    + eapply Claims_iff; [|eapply Claims_trans; [eapply Claims_owner; [|exact A1]|exact H]]; tauto.
Qed.

Lemma claimPatch_spec newer p hs cl hs' cl' : claimPatch original newer p (hs, cl) = (hs', cl') → ob_address p = pa → pe = pa + (len (ob_bytes p) - 1) → (covers x p → ob_allocationReleased p = None) →
  Claims (firstOver newer) ((covers x p ∧ ob_verifyOwnership p = false) ∧ Exists overX newer) hs cl hs' cl'.
Proof using original_len original_byte patch_end.
  intros H Hpa Hpe Hr. unfold claimPatch in H. destruct (ob_verifyOwnership p || bool_decide (is_Some (ob_allocationReleased p)) || bool_decide (ob_bytes p = [])) eqn:Hskip.
  - injection H as <- <-. apply Claims_none. intros [[Hc Hv] _]. rewrite Hv in Hskip. cbn [orb] in Hskip. apply orb_true_iff in Hskip as [Hs|Hs]; apply bool_decide_eq_true in Hs.
    + rewrite (Hr Hc) in Hs. by destruct Hs.
    + unfold covers, inside in Hc. rewrite Hs, len_nil in Hc. lia.
  - apply orb_false_iff in Hskip as [Hskip He]. apply orb_false_iff in Hskip as [Hv _]. apply bool_decide_eq_false, len_positive in He. cbn [fst snd] in H.
    destruct (foldl _ _ newer) as [[hs1 cl1] open1] eqn:H1. injection H as <- <-. apply claimNewer_spec in H1; [|apply Forall_singleton; cbn; lia].
    eapply Claims_iff; [|exact H1]. rewrite inRanges_one. cbn [fst snd]. assert (covers x p ↔ ob_address p ≤ x ≤ ob_address p + (len (ob_bytes p) - 1)) by (unfold covers, inside; lia). tauto.
Qed.
End Claims.

Lemma claimPatches_spec b0 original newer l hs cl hs' cl' : (∀ lo hi, lo ≤ hi → len (original lo hi) = hi - lo + 1) → (∀ lo hi, lo ≤ x ≤ hi → lget (original lo hi) (x - lo) = Some b0) → Forall patchOk l →
  foldl (λ st p, claimPatch original newer p st) (hs, cl) l = (hs', cl') →
  Claims b0 (firstOver newer) (Exists (λ p, covers x p ∧ ob_verifyOwnership p = false) l ∧ Exists overX newer) hs cl hs' cl'.
Proof using.
  intros Hlen Hb Hl. revert hs cl. induction Hl as [|p l Hp Hl IH]; intros hs cl H; cbn [foldl] in H.
  - injection H as <- <-. apply Claims_none. by intros [?%Exists_nil _].
  - destruct (claimPatch original newer p (hs, cl)) as [hs1 cl1] eqn:H1.
    eapply (claimPatch_spec b0 original Hlen Hb (ob_address p) (ob_address p + (len (ob_bytes p) - 1))) in H1; [|intros Hi; destruct (Hp ltac:(unfold covers, inside; lia)) as [Hn _]; apply noRange_false in Hn as [_ Hn]; exact Hn|done|done|intros Hc; by apply Hp].
    apply IH in H. pose proof (Exists_cons (λ p, covers x p ∧ ob_verifyOwnership p = false) p l) as C. cbn beta in C. eapply Claims_iff; [|exact (Claims_trans _ _ _ _ _ _ _ _ _ _ H1 H)]. tauto.
Qed.
Lemma dropAll_restores l claimed : restoreAt x (foldl (λ l r, dropRange l r.1 r.2) l claimed) = None ∧ inRanges claimed ∨ restoreAt x (foldl (λ l r, dropRange l r.1 r.2) l claimed) = restoreAt x l ∧ ¬ inRanges claimed.
Proof using.
  revert l. induction claimed as [|r claimed IH]; intros l; [right; split; [done|apply inRanges_nil]|]. cbn [foldl]. specialize (IH (dropRange l r.1 r.2)). rewrite restoreAt_dropRange in IH. unfold inRanges in *. rewrite Exists_cons.
  destruct (decide (r.1 ≤ x ≤ r.2)), IH as [[IH1 IH2]|[IH1 IH2]]; auto.
  right. split; [done|]. by intros [].
Qed.
Lemma dropRange_held l first last : Forall patchHeld l → Forall patchHeld (dropRange l first last).
Proof using.
  intros H. unfold dropRange. apply Forall_bind. eapply Forall_impl; [exact H|]. intros p Hp. unfold compose. cbn beta zeta.
  set (stop := if bool_decide (ob_bytes p = []) then ob_address p else ob_address p + (len (ob_bytes p) - 1)). destruct (bool_decide (ob_bytes p = []) || (last <? ob_address p) || (stop <? first)) eqn:Hout; [by apply Forall_singleton|].
  assert (S : ∀ a b, ob_address p ≤ a → b ≤ stop → patchHeld (pieceOf p a b)).
  { intros a b Ha Hb Hc. cbn. apply Hp. subst stop. apply orb_false_iff in Hout as [Hout _]. apply orb_false_iff in Hout as [Hout _]. rewrite Hout in Hb.
    unfold covers, inside in *. cbn [pieceOf ob_address ob_bytes] in Hc. unfold slice, len in Hc. rewrite length_take, length_drop in Hc. unfold len in *. lia. }
  apply Forall_app. split; case_match; first [by apply Forall_nil|apply Forall_singleton, S; bool_to_prop; lia].
Qed.
Lemma dropAll_held l claimed : Forall patchHeld l → Forall patchHeld (foldl (λ l r, dropRange l r.1 r.2) l claimed).
Proof using. revert l. induction claimed as [|r claimed IH]; intros l Hl; [done|]. cbn [foldl]. by apply IH, dropRange_held. Qed.

(** The newer scripts that originals may be handed to. *)
Definition liveOf s : list LivePatch := filter (λ l, liveOwner s (lp_owner l)) (as_livePatches s).
Definition newerOf s info : list LivePatch := default [] (let? o := di_ownership info in newerThan (withLive s (liveOf s)) o (liveOf s)).
Definition isData (l : list OriginalBytes) : Prop := Forall (λ p, covers x p → ob_verifyOwnership p = false) l.
Lemma original_bytes s l : Forall patchOk l →
  (∀ lo hi, lo ≤ hi → len (originalAt s l lo hi) = hi - lo + 1) ∧ ∀ lo hi, lo ≤ x ≤ hi → lget (originalAt s l lo hi) (x - lo) = Some (default 0 (restoreAt x l)).
Proof using.
  intros Hl. split.
  - intros lo hi Hlh. apply (len_wantedAt s l lo (hi - lo + 1)). lia.
  - intros lo hi Hlh. apply (wantedAt_restores s l lo (hi - lo + 1)); [by apply patchHeld_released, patchOk_held|unfold inside; lia].
Qed.
Definition noHits (hs : list Handover) : Prop := Forall (λ h, ¬ hits h) hs.
Lemma Claims_noHits b o hs cl : Claims b o False [] [] hs cl → noHits hs ∧ ¬ inRanges cl.
Proof using.
  intros (H1 & _ & _ & H2). split; [|rewrite H2; intros [?%inRanges_nil|]; done]. apply Forall_forall. intros h Hh Hi. destruct (H1 h Hh) as [?%elem_of_nil|H]; [done|]. by destruct (H Hi).
Qed.
Lemma planHandovers_effect s info hs info' s' : planHandovers s info = (hs, info', s') → Forall patchOk (di_originals info) →
  s' = withLive s (liveOf s) ∧ info' = withOriginals info (di_originals info') ∧ Forall patchHeld (di_originals info') ∧
  (restoreAt x (di_originals info) = None → restoreAt x (di_originals info') = None ∧ noHits hs) ∧
  (¬ Exists overX (newerOf s info) → restoreAt x (di_originals info') = restoreAt x (di_originals info) ∧ noHits hs) ∧
  (∀ b, restoreAt x (di_originals info) = Some b → isData (di_originals info) → Exists overX (newerOf s info) →
    restoreAt x (di_originals info') = None ∧ (∀ h, h ∈ hs → hits h → Some (ho_to h) = firstOver (newerOf s info) ∧ gives b h) ∧ ∃ h, h ∈ hs ∧ hits h).
Proof using.
  intros H Ho. unfold planHandovers in H. change (filter (λ l, liveOwner s (lp_owner l)) (as_livePatches s)) with (liveOf s) in H. unfold newerOf.
  set (newer := let? o := di_ownership info in newerThan (withLive s (liveOf s)) o (liveOf s)) in *.
  assert (Hnone : default [] newer = [] → hs = [] ∧ info' = info ∧ s' = withLive s (liveOf s)).
  { intros E. destruct newer as [[|]|]; simplify_eq/=; done. }
  destruct (default [] newer) as [|n ns] eqn:Hnewer.
  - destruct (Hnone eq_refl) as (-> & -> & ->). split_and!; [done|by destruct info|by apply patchOk_held|by split; [|apply Forall_nil]|by split; [|apply Forall_nil]|by intros b _ _ ?%Exists_nil].
  - destruct newer as [newer|]; [|done]. cbn in Hnewer. subst newer.
    destruct (foldl _ _ _) as [hs1 cl1] eqn:Hf. injection H as <- <- <-. cbn [di_originals withOriginals]. destruct (original_bytes (withLive s (liveOf s)) _ Ho) as [O1 O2].
    apply (claimPatches_spec _ _ _ _ _ _ _ _ O1 O2 Ho) in Hf. pose proof (dropAll_restores (di_originals info) cl1) as D. split_and!; [done|done|by apply dropAll_held, patchOk_held| | |].
    + intros Hr. apply Claims_iff with (c' := False) in Hf; [|split; [|done]; intros [He _]; apply restoreAt_None in Hr; apply Exists_exists in He as (p & Hp & Hc & _); by apply (proj1 (Forall_forall _ _) Hr p Hp)].
      apply Claims_noHits in Hf as [? ?]. destruct D as [[? ?]|[? ?]]; [done|]. split; congruence.
    + intros Hn. apply Claims_iff with (c' := False) in Hf; [|tauto]. apply Claims_noHits in Hf as [? ?]. destruct D as [[? ?]|[? ?]]; done.
    + intros b Hr Hd He. rewrite Hr in Hf. cbn [default] in Hf. assert (Hc : Exists (λ p, covers x p ∧ ob_verifyOwnership p = false) (di_originals info)).
      { assert (Hs : is_Some (restoreAt x (di_originals info))) by by rewrite Hr. apply restoreAt_Some, Exists_exists in Hs as (p & Hp & Hpc). apply Exists_exists. exists p. split; [done|]. split; [done|]. by apply (proj1 (Forall_forall _ _) Hd p Hp). }
      destruct Hf as (F1 & _ & F3 & F4). split_and!.
      * destruct D as [[? ?]|[_ D]]; [done|]. destruct D. apply F4. by right.
      * intros h Hh Hi. destruct (F1 h Hh) as [?%elem_of_nil|F]; [done|]. destruct (F Hi) as (_ & ? & ?). done.
      * destruct F3 as (h & ? & ? & _); [done|]. by exists h.
Qed.

(** ** The whole undo *)

Definition deliverTo (ow : gmap nat Ownership) (h : Handover) : gmap nat Ownership :=
  alter (λ w, mkOwnership (ow_locked w) (ow_complete w) (ow_restoreOverrides w ++ [(ho_address h, ho_bytes h)])) (ho_to h) ow.
Definition completeIn (ow : gmap nat Ownership) (o : option nat) : gmap nat Ownership :=
  match o with Some o => alter (λ w, mkOwnership (ow_locked w) true (ow_restoreOverrides w)) o ow | None => ow end.
Definition overridesOf s info : list (Z * bytes) := match ownershipOf s info with Some w => ow_restoreOverrides w | None => [] end.
(** What the undo of a script restores at [x], hand-overs included. *)
Definition effAt s info : option Z := (λ b, overrideAt b (overridesOf s info)) <$> restoreAt x (di_originals info).
Definition ownersSane s : Prop := map_Forall (λ _ w, overridesSane (ow_restoreOverrides w)) (as_ownerships s).

(** The bytes are back, or their originals are with a newer script. *)
Definition RestoredAt s info s' (hs : list Handover) : Prop :=
  (effAt s info = None → memAt s' = memAt s ∧ noHits hs) ∧
  (∀ b, effAt s info = Some b → ¬ Exists overX (newerOf s info) → memAt s' = b ∧ noHits hs) ∧
  (∀ b, effAt s info = Some b → isData (di_originals info) → Exists overX (newerOf s info) →
    memAt s' = memAt s ∧ (∀ h, h ∈ hs → hits h → Some (ho_to h) = firstOver (newerOf s info) ∧ gives b h) ∧ ∃ h, h ∈ hs ∧ hits h).
Definition liveAfter s info : list LivePatch := match di_ownership info with Some o => filter (λ l, lp_owner l ≠ o) (liveOf s) | None => liveOf s end.
(** How an undo ends: nothing was released, or everything is back and memory could not be
    freed, or it is complete. *)
Inductive UndoOutcome s info : AutoAsmResult → Asm → Prop :=
  | undo_kept r s' : ar_success r = false → ar_disableInfo r = info → as_ownerships s' = as_ownerships s → as_livePatches s' ∈ [as_livePatches s; liveOf s] →
      (effAt s info = None → memAt s' = memAt s) → UndoOutcome s info r s'
  | undo_pending r s' hs : ar_success r = false → di_originals (ar_disableInfo r) = [] → di_ownership (ar_disableInfo r) = di_ownership info → Forall allocOk (di_allocs (ar_disableInfo r)) →
      as_ownerships s' = foldl deliverTo (as_ownerships s) hs → as_livePatches s' = liveAfter s info → RestoredAt s info s' hs → UndoOutcome s info r s'
  | undo_done r s' hs : ar_success r = true → ar_disableInfo r = emptyInfo →
      as_ownerships s' = completeIn (foldl deliverTo (as_ownerships s) hs) (di_ownership info) → as_livePatches s' = liveAfter s info → RestoredAt s info s' hs → UndoOutcome s info r s'.

Lemma deliverAll_frame hs s : let s' := foldl deliver s hs in
  as_livePatches s' = as_livePatches s ∧ as_ownerships s' = foldl deliverTo (as_ownerships s) hs ∧ as_fresh s' = as_fresh s ∧ as_knownAllocations s' = as_knownAllocations s ∧ as_target s' = as_target s.
Proof using. revert s. induction hs as [|h hs IH]; intros s; [done|]. cbn [foldl]. destruct (IH (deliver s h)) as (H1 & H2 & H3 & H4 & H5). by rewrite H1, H2, H3, H4, H5. Qed.
Lemma eraseSymbols_frame s info : sameScripts s (eraseSymbols s info) ∧ as_knownAllocations (eraseSymbols s info) = as_knownAllocations s ∧ as_target (eraseSymbols s info) = as_target s.
Proof using. unfold eraseSymbols. by destruct (foldl _ _ _). Qed.
Lemma setComplete_frame s o : as_livePatches (setComplete s o) = as_livePatches s ∧ as_ownerships (setComplete s o) = completeIn (as_ownerships s) o ∧ as_fresh (setComplete s o) = as_fresh s ∧
  as_knownAllocations (setComplete s o) = as_knownAllocations s ∧ as_target (setComplete s o) = as_target s.
Proof using. by destruct o. Qed.

(** From the restoring on. *)
Lemma restoreAll_outcome s saved info hs r s' : restoreAll s saved info hs = (r, s') → Forall patchHeld (di_originals info) → Forall allocOk (di_allocs info) → di_ownership info = di_ownership saved → knownOk s →
  as_fresh s' = as_fresh s ∧ knownOk s' ∧ (restoreAt x (di_originals info) = None → memAt s' = memAt s) ∧
  (ar_success r = false ∧ ar_disableInfo r = saved ∧ as_ownerships s' = as_ownerships s ∧ as_livePatches s' = as_livePatches s
   ∨ (∀ b, restoreAt x (di_originals info) = Some b → memAt s' = b) ∧
     as_livePatches s' = match di_ownership info with Some o => filter (λ l, lp_owner l ≠ o) (as_livePatches s) | None => as_livePatches s end ∧
     (ar_success r = false ∧ di_originals (ar_disableInfo r) = [] ∧ di_ownership (ar_disableInfo r) = di_ownership saved ∧ Forall allocOk (di_allocs (ar_disableInfo r)) ∧ as_ownerships s' = foldl deliverTo (as_ownerships s) hs
      ∨ ar_success r = true ∧ ar_disableInfo r = emptyInfo ∧ as_ownerships s' = completeIn (foldl deliverTo (as_ownerships s) hs) (di_ownership info))).
Proof using L.
  intros H Ho Ha How Hk. unfold restoreAll in H. destruct (restoreBytes s info _) as [s1 e1] eqn:H1. apply restoreBytes_effect in H1 as (B1 & M1 & R1); [|done].
  apply sameBooks_fields in B1 as ((V1 & W1 & F1) & K1). destruct (bool_decide (e1 = [])) eqn:He1; cbn [negb] in H; [apply bool_decide_eq_true in He1|injection H as <- <-; split_and!; [done|unfold knownOk; by rewrite K1|done|by left]].
  destruct (foldl (restoreProtection info) (s1, []) _) as [s2 e2] eqn:H2. apply restoreProtections_effect in H2 as [B2 M2].
  apply sameBooks_fields in B2 as ((V2 & W2 & F2) & K2). destruct (bool_decide (e2 = [])) eqn:He2; cbn [negb] in H; [|injection H as <- <-; split_and!; [congruence|unfold knownOk; by rewrite K2, K1|intros; rewrite M2; auto|left; split_and!; first [done|congruence]]].
  pose proof (deliverAll_frame hs s2) as D. cbn zeta in D. set (s3 := foldl deliver s2 hs) in *. destruct D as (V3 & W3 & F3 & K3 & T3).
  set (s4 := match di_ownership info with Some o => withLive s3 (filter (λ l, lp_owner l ≠ o) (as_livePatches s3)) | None => s3 end) in *.
  assert (S4 : as_livePatches s4 = match di_ownership info with Some o => filter (λ l, lp_owner l ≠ o) (as_livePatches s) | None => as_livePatches s end ∧ as_ownerships s4 = as_ownerships s3 ∧ as_fresh s4 = as_fresh s3 ∧ as_knownAllocations s4 = as_knownAllocations s3 ∧ as_target s4 = as_target s3).
  { unfold s4. destruct (di_ownership info); cbn; split_and!; congruence. }
  destruct S4 as (V4 & W4 & F4 & K4 & T4). destruct (foldl (freeOne info) (s4, [], []) (di_allocs info)) as [[s5 pending] e5] eqn:H5.
  apply freeAll_frame in H5 as ((V5 & W5 & F5) & M5 & K5 & P5); [|done].
  assert (Hk4 : knownOk s4) by (unfold knownOk; by rewrite K4, K3, K2, K1). specialize (K5 Hk4). specialize (P5 ltac:(by apply Forall_nil)).
  assert (M : memAt s5 = memAt s1) by (rewrite M5; unfold memAt in *; congruence).
  assert (R : ∀ b, restoreAt x (di_originals info) = Some b → memAt s5 = b).
  { intros b Hb. rewrite M. apply R1; [done| |done]. apply ranges_cover; [done|by rewrite Hb]. }
  destruct (bool_decide (e5 = [])) eqn:He5; cbn [negb] in H; injection H as <- <-.
  - destruct (eraseSymbols_frame s5 info) as ((V6 & W6 & F6) & K6 & T6). destruct (setComplete_frame (eraseSymbols s5 info) (di_ownership info)) as (V7 & W7 & F7 & K7 & T7).
    split_and!; [congruence|unfold knownOk; by rewrite K7, K6|intros; unfold memAt in *; rewrite T7, T6, M; auto|right]. split_and!; [intros; unfold memAt in *; rewrite T7, T6; auto|congruence|right].
    split_and!; [done|done|]. rewrite W7. congruence.
  - split_and!; [congruence|done|intros; rewrite M; auto|right]. split_and!; [done|congruence|left]. split_and!; [done|done|done|done|congruence].
Qed.

Lemma override_data l a b : isData l → isData (overrideOriginals l a b).
Proof using.
  intros H. eapply overrideOriginals_forall; [| |exact H]; [|done]. intros p k Hp Hk. rewrite covers_withBytes by done. exact Hp.
Qed.
Lemma overrides_data l overrides : isData l → isData (foldl (λ l o, overrideOriginals l o.1 o.2) l overrides).
Proof using. revert l. induction overrides as [|o os IH]; intros l Hl; [done|]. cbn. by apply IH, override_data. Qed.
Lemma withoutUnmapped_same s info : di_allocs (withoutUnmapped s info) = di_allocs info ∧ di_ownership (withoutUnmapped s info) = di_ownership info ∧ di_image (withoutUnmapped s info) = di_image info ∧
  (isData (di_originals info) → isData (di_originals (withoutUnmapped s info))).
Proof using. unfold withoutUnmapped. destruct (match di_image info with Some im => _ | None => _ end); split_and!; try done. intros H. by apply filter_Forall. Qed.
(** [cleanup] of an undo that is not complete. *)
Lemma cleanup_outcome s info r s' : cleanup info s = (r, s') → infoOk info → knownOk s → ownersSane s → (∀ w, ownershipOf s info = Some w → ow_complete w = false) →
  as_fresh s' = as_fresh s ∧ knownOk s' ∧ UndoOutcome s info r s'.
Proof using L Hx.
  intros H Hi Hk Hs Hc. unfold cleanup in H. destruct (withoutUnmapped_same s info) as (U1 & U2 & U3 & U4). pose proof (withoutUnmapped_restores s info (proj1 Hi)) as U5. destruct (withoutUnmapped_ok s info Hi) as [U6 U7].
  set (pruned := withoutUnmapped s info) in *. assert (EO : ownershipOf s pruned = ownershipOf s info) by (unfold ownershipOf; by rewrite U2). rewrite EO in H.
  assert (Kept : ∀ e, (failed info e, s) = (r, s') → as_fresh s' = as_fresh s ∧ knownOk s' ∧ UndoOutcome s info r s').
  { intros e [= <- <-]. split_and!; [done|done|]. apply undo_kept; [done|done|done|by left|done]. }
  assert (Hov : overridesSane (overridesOf s info)).
  { unfold overridesOf. destruct (ownershipOf s info) as [w|] eqn:E; [|by apply Forall_nil]. unfold ownershipOf in E. destruct (di_ownership info); [|done]. cbn in E. by eapply Hs. }
  set (pruned' := withOriginals pruned (foldl (λ l o, overrideOriginals l o.1 o.2) (di_originals pruned) (overridesOf s info))) in *.
  assert (Main : (if busyError s pruned' then (failed info [ThreadRunning], s)
      else if existsb (λ p, negb (bool_decide (ob_bytes p = [])) && noRange (ob_address p) (ob_bytes p)) (di_originals pruned') then (failed info [RangeOverflow], s)
      else match codeOwnershipConflict s pruned' (di_originals pruned') with
      | Some e => (failed info [e], s)
      | None => let '(handovers, pruned, s) := planHandovers s pruned' in restoreAll s info pruned handovers
      end) = (r, s') → as_fresh s' = as_fresh s ∧ knownOk s' ∧ UndoOutcome s info r s').
  { clear H. intros H. destruct (busyError s pruned'); [by eapply Kept|]. destruct (existsb _ _); [by eapply Kept|]. destruct (codeOwnershipConflict s pruned' _); [by eapply Kept|]. clear Kept.
    destruct (planHandovers s pruned') as [[hs info'] s1] eqn:Hp. assert (Ho' : Forall patchOk (di_originals pruned')) by by apply overrides_ok.
    apply planHandovers_effect in Hp as (P1 & P2 & P3 & P4 & P5 & P6); [|done].
    assert (EN : newerOf s pruned' = newerOf s info) by (unfold newerOf; cbn; by rewrite U2). rewrite EN in P5, P6.
    assert (Eeff : restoreAt x (di_originals pruned') = effAt s info) by (unfold effAt; rewrite <- U5; by apply restoreAt_overrides). rewrite Eeff in P4, P5, P6.
    assert (Hsame : di_ownership info' = di_ownership info ∧ di_allocs info' = di_allocs info) by (rewrite P2; cbn; by rewrite U1, U2). destruct Hsame as [S1 S2].
    apply restoreAll_outcome in H as (R1 & R2 & R3 & R4); [|done|rewrite S2; apply Hi|done|by rewrite P1].
    rewrite P1 in R1, R3, R4. cbn [as_fresh as_livePatches as_ownerships withLive memAt as_target] in R1, R3, R4. change (memAt (withLive s (liveOf s))) with (memAt s) in *.
    split_and!; [done|done|]. destruct R4 as [(A1 & A2 & A3 & A4)|(B1 & B2 & B3)].
    - apply undo_kept; [done|done|done|rewrite A4; by right; left|]. intros He. by apply R3, P4.
    - rewrite S1 in B2. assert (HR : RestoredAt s info s' hs).
      { split_and!.
        - intros He. split; [by apply R3, P4|by apply P4].
        - intros b He Hn. destruct (P5 Hn) as [P5a P5b]. split; [|done]. apply B1. by rewrite P5a.
        - intros b He Hd Hn. destruct (P6 b He (overrides_data _ _ (U4 Hd)) Hn) as (Q1 & Q2 & Q3). split_and!; [by apply R3|done|done]. }
      destruct B3 as [(C1 & C2 & C3 & C4 & C5)|(C1 & C2 & C3)]; [by eapply undo_pending|]. rewrite S1 in C3. by eapply undo_done. }
  assert (Eov : overridesOf s info = match ownershipOf s info with Some w => ow_restoreOverrides w | None => [] end) by done. destruct (ownershipOf s info) as [[locked complete overrides]|] eqn:Eo.
  - assert (complete = false) as -> by exact (Hc _ eq_refl). destruct locked; [by eapply Kept|]. cbn [ow_restoreOverrides] in Eov, H. rewrite <- Eov in H.
    fold pruned' in H. change (di_image pruned') with (di_image pruned) in H. destruct (di_image pruned) as [im|]; [|by apply Main]. rewrite image_pid, Z.eqb_refl in H. cbn [negb] in H. rewrite image_live in H. by apply Main.
  - rewrite <- Eov in H. fold pruned' in H. change (di_image pruned') with (di_image pruned) in H.
    destruct (di_image pruned) as [im|]; [|by apply Main]. rewrite image_pid, Z.eqb_refl in H. cbn [negb] in H. rewrite image_live in H. by apply Main.
Qed.
End Effects.
