(* ===== verification/AutoCode.v ===== *)
(** * The auto assembler: code that is taken back

    Before code is restored it is compared: every byte of it that an undo changes is one the
    script wrote or one it restores. *)

From S2P Require Import Prelude Types AutoUndo AutoOriginals AutoUndoSpec.
#[local] Open Scope Z_scope.

(** ** Overrides keep the patches *)

Definition overridden (p q : OriginalBytes) : Prop := ∃ b, q = withBytes p b ∧ len b = len (ob_bytes p).
Definition withOverrides (l : list OriginalBytes) (overrides : list (Z * bytes)) : list OriginalBytes := foldl (λ l o, overrideOriginals l o.1 o.2) l overrides.
Lemma overridden_refl p : overridden p p.
Proof. exists (ob_bytes p). by destruct p. Qed.
Lemma overridden_trans p q r : overridden p q → overridden q r → overridden p r.
Proof. intros (b & -> & Hb) (c & -> & Hc). exists c. split; [done|]. cbn in Hc. congruence. Qed.
Lemma override_elem l a b p : p ∈ l → ∃ q, q ∈ overrideOriginals l a b ∧ overridden p q.
Proof.
  intros Hp. unfold overrideOriginals. destruct (noRange a b); [exists p; split; [done|apply overridden_refl]|]. eexists. split; [apply list_elem_of_fmap_2, Hp|]. cbn.
  destruct (noRange _ _); [apply overridden_refl|]. eexists. split; [done|]. apply len_copyOver.
Qed.
Lemma override_subset l l' a b : l ⊆ l' → overrideOriginals l a b ⊆ overrideOriginals l' a b.
Proof. intros H. unfold overrideOriginals. destruct (noRange a b); [done|]. intros q (p & -> & Hp)%list_elem_of_fmap. apply list_elem_of_fmap. exists p. auto. Qed.
Lemma withOverrides_elem l overrides p : p ∈ l → ∃ q, q ∈ withOverrides l overrides ∧ overridden p q.
Proof.
  unfold withOverrides. revert l p. induction overrides as [|o os IH]; intros l p Hp; [exists p; split; [done|apply overridden_refl]|]. cbn.
  destruct (override_elem l o.1 o.2 p Hp) as (q & Hq & H1). destruct (IH _ _ Hq) as (r & Hr & H2). exists r. split; [done|]. by eapply overridden_trans.
Qed.
Lemma withOverrides_subset l l' overrides : l ⊆ l' → withOverrides l overrides ⊆ withOverrides l' overrides.
Proof. unfold withOverrides. revert l l'. induction overrides as [|o os IH]; intros l l' H; [done|]. cbn. by apply IH, override_subset. Qed.

Lemma withOverrides_one l overrides q : q ∈ withOverrides l overrides → ∃ p, p ∈ l ∧ withOverrides [p] overrides = [q] ∧ ob_written q = ob_written p ∧ ob_address q = ob_address p.
Proof.
  unfold withOverrides. revert l. induction overrides as [|o os IH]; intros l Hq; [by exists q|]. cbn [foldl] in *. apply IH in Hq as (r & Hr & E & W & A). unfold overrideOriginals in Hr |- *.
  destruct (noRange o.1 o.2); [by exists r|]. apply list_elem_of_fmap in Hr as (p & -> & Hp). exists p. split; [done|]. split; [exact E|]. rewrite W, A. by destruct (noRange (ob_address p) _).
Qed.

Section Code.
Context {T : AaTarget} {L : AaLaws T} (x : Z) (Hx : static x).
Implicit Types (s : Asm) (info : DisableInfo).

(** The byte at [x] is one [q] has written or restores. *)
Definition ownByte s (q : OriginalBytes) : Prop := covers x q ∧ (lget (ob_bytes q) (x - ob_address q) = Some (memAt x s) ∨ lget (ob_written q) (x - ob_address q) = Some (memAt x s)).
Lemma acceptsByte_own s q : acceptsByte s q x (memAt x s) = true → ownByte s q.
Proof using.
  unfold acceptsByte, ownByte, covers, inside. destruct (_ || _); [done|]. destruct ((x <? ob_address q) || (len (ob_bytes q) <=? x - ob_address q)) eqn:E; [done|].
  apply orb_false_iff in E as [E1 E2]. rewrite Z.ltb_ge in E1. rewrite Z.leb_gt in E2. rewrite orb_true_iff, !bool_decide_eq_true. intros H. split; [lia|done].
Qed.
Lemma conflictLoop_own s info p fuel offset : conflictLoop s info p fuel offset = None → 0 ≤ offset → ob_address p + offset ≤ x → covers x p → len (ob_bytes p) - offset < 65536 * Z.of_nat fuel →
  ∃ q, q ∈ di_originals info ∧ ownByte s q.
Proof using L.
  revert offset. induction fuel as [|fuel IH]; intros offset H Ho Hax Hc Hf; unfold covers, inside in Hc; [lia|]. cbn [conflictLoop] in H. destruct (Z.leb_spec (len (ob_bytes p)) offset) as [|Hlen]; [lia|].
  set (count := Z.min 65536 (len (ob_bytes p) - offset)) in *. set (address := ob_address p + offset) in *. destruct (tg_read _ address count _) as [actual|] eqn:Hr; [|done].
  destruct (Z.eqb_spec (len actual) count) as [Hl|]; [|done]. cbn [negb] in H. destruct (list_find _ (seq 0 (Z.to_nat count))) as [[j i]|] eqn:Hfind; [done|].
  destruct (Z.lt_ge_cases x (address + count)) as [Hin|Hin]; [|assert (count = 65536) by (unfold count, address in *; lia); apply (IH (offset + count)); unfold covers, inside, address in *; first [exact H|lia]].
  apply list_find_None in Hfind. assert (Hi : Z.to_nat (x - address) ∈ seq 0 (Z.to_nat count)) by (apply elem_of_seq; lia). eapply Forall_forall in Hi; [|exact Hfind]. cbn beta in Hi.
  apply dec_stable in Hi. apply Is_true_true, existsb_exists in Hi as (q & Hq & Hacc). exists q. split; [by apply list_elem_of_In|]. apply acceptsByte_own.
  apply read_mem in Hr as [_ Hr]. destruct (lookup_lt_is_Some_2 actual (Z.to_nat (x - address))) as [c Hcx]; [unfold len in Hl; lia|]. rewrite Hcx in Hacc. cbn in Hacc.
  assert (Ec : c = memAt x s). { rewrite (Hr (x - address) c); [unfold memAt; f_equal; lia|]. unfold lget. rewrite (proj2 (Z.leb_le _ _)) by lia. done. }
  rewrite Ec in Hacc. replace (address + Z.of_nat (Z.to_nat (x - address))) with x in Hacc by lia. done.
Qed.
Lemma conflict_own s info l p : codeOwnershipConflict s info l = None → p ∈ l → covers x p → ob_verifyOwnership p = true → recordReleased s p = false → len (ob_written p) = len (ob_bytes p) →
  ∃ q, q ∈ di_originals info ∧ ownByte s q.
Proof using L.
  intros H Hp Hc Hv Hr Hw. induction l as [|p' l IH]; [by apply elem_of_nil in Hp|]. cbn [codeOwnershipConflict] in H. apply elem_of_cons in Hp as [<-|Hp].
  - rewrite Hv, Hr, Hw, Z.eqb_refl in H. cbn [negb orb] in H. destruct (conflictLoop s info p _ 0) eqn:Hloop; [done|]. eapply conflictLoop_own; [exact Hloop|done|unfold covers, inside in Hc; lia|done|].
    pose proof (Z.div_mod (len (ob_bytes p)) 65536 ltac:(done)). pose proof (Z.mod_pos_bound (len (ob_bytes p)) 65536 ltac:(done)). pose proof (Z.div_pos (len (ob_bytes p)) 65536). pose proof (len_nonneg (ob_bytes p)). rewrite Z2Nat.id by lia. lia.
  - destruct (_ || _); [by apply IH|]. destruct (conflictLoop s info p' _ 0); [done|by apply IH].
Qed.
(** An undo of checked code finds it unchanged since, or it is refused, or it was done before. *)
Definition isComplete s info : Prop := ∃ w, ownershipOf s info = Some w ∧ ow_complete w = true.
Lemma cleanup_code s info r s' p : cleanup info s = (r, s') → infoOk x info → p ∈ di_originals info → covers x p → ob_verifyOwnership p = true → len (ob_written p) = len (ob_bytes p) →
  (∃ q, q ∈ withOverrides (di_originals info) (overridesOf s info) ∧ ownByte s q) ∨ s' = s ∧ ((∃ e, r = failed info e) ∨ isComplete s info).
Proof using L Hx.
  intros H [Hok _] Hp Hc Hv Hw. unfold cleanup in H. destruct (withoutUnmapped_same x s info) as (_ & U2 & U3 & _). set (pruned := withoutUnmapped s info) in *.
  assert (EO : ownershipOf s pruned = ownershipOf s info) by (unfold ownershipOf; by rewrite U2). rewrite EO in H.
  assert (Kept : ∀ e, (failed info e, s) = (r, s') → (∃ q, q ∈ withOverrides (di_originals info) (overridesOf s info) ∧ ownByte s q) ∨ s' = s ∧ ((∃ e, r = failed info e) ∨ isComplete s info)) by (intros e [= <- <-]; right; split; [done|left; by eexists]).
  assert (Hsub : di_originals pruned ⊆ di_originals info).
  { unfold pruned, withoutUnmapped. destruct (match di_image info with Some im => _ | None => _ end); [|done]. cbn. intros q Hq. by apply list_elem_of_filter in Hq as [_ Hq]. }
  assert (Hpr : p ∈ di_originals pruned).
  { unfold pruned, withoutUnmapped. destruct (match di_image info with Some im => _ | None => _ end); [|done]. cbn. apply list_elem_of_filter. split; [|done]. eapply Forall_forall in Hok; [|exact Hp]. destruct (Hok Hc) as (_ & Hst & _).
    apply Is_true_true, orb_true_iff. right. unfold mapped. destruct (static_mapped _ (as_target s) Hst) as (rg & -> & H1 & H2). assert (E : (region_base rg <=? ob_address p) && (ob_address p - region_base rg <? region_size rg) = true) by (apply andb_true_iff; rewrite Z.leb_le, Z.ltb_lt; lia).
    rewrite E. by repeat case_match. }
  set (pruned' := withOriginals pruned (foldl (λ l o, overrideOriginals l o.1 o.2) (di_originals pruned) (overridesOf s info))).
  assert (Main : codeOwnershipConflict s pruned' (di_originals pruned') = None → ∃ q, q ∈ withOverrides (di_originals info) (overridesOf s info) ∧ ownByte s q).
  { intros HN. destruct (withOverrides_elem (di_originals pruned) (overridesOf s info) p Hpr) as (q & Hq & b & -> & Hb). destruct (conflict_own s pruned' _ (withBytes p b) HN Hq) as (q & Hq' & Hown); [by apply covers_withBytes|done| |cbn; congruence|].
    - unfold recordReleased. cbn. eapply Forall_forall in Hok; [|exact Hp]. by destruct (Hok Hc) as (_ & _ & ->).
    - exists q. split; [|done]. exact (withOverrides_subset _ _ _ Hsub q Hq'). }
  assert (Body : (if busyError s pruned' then (failed info [ThreadRunning], s)
      else if existsb (λ p, negb (bool_decide (ob_bytes p = [])) && noRange (ob_address p) (ob_bytes p)) (di_originals pruned') then (failed info [RangeOverflow], s)
      else match codeOwnershipConflict s pruned' (di_originals pruned') with
      | Some e => (failed info [e], s)
      | None => let '(handovers, pruned, s) := planHandovers s pruned' in restoreAll s info pruned handovers
      end) = (r, s') → (∃ q, q ∈ withOverrides (di_originals info) (overridesOf s info) ∧ ownByte s q) ∨ s' = s ∧ ((∃ e, r = failed info e) ∨ isComplete s info)).
  { clear H. intros H. destruct (busyError s pruned'); [by eapply Kept|]. destruct (existsb _ _); [by eapply Kept|]. destruct (codeOwnershipConflict s pruned' _); [by eapply Kept|]. left. by apply Main. }
  assert (Eov : overridesOf s info = match ownershipOf s info with Some w => ow_restoreOverrides w | None => [] end) by done. unfold pruned' in Body. change (di_image (withOriginals pruned _)) with (di_image pruned) in H.
  assert (Hcomplete : ∀ w, ownershipOf s info = Some w → ow_complete w = true → isComplete s info) by (intros w Hw1 Hw2; by exists w).
  destruct (ownershipOf s info) as [[locked complete overrides]|]; [destruct locked; [by eapply Kept|]; destruct complete; [injection H as <- <-; right; split; [done|right; by eapply Hcomplete]|]; cbn [ow_restoreOverrides] in Eov, H|]; rewrite <- Eov in H;
    (destruct (di_image pruned) as [im|]; [|by apply Body]); rewrite image_pid, Z.eqb_refl in H; cbn [negb] in H; rewrite image_live in H; by apply Body.
Qed.
Lemma cleanup_own s info r s' p : cleanup info s = (r, s') → infoOk x info → p ∈ di_originals info → covers x p → ob_verifyOwnership p = true → len (ob_written p) = len (ob_bytes p) → memAt x s' ≠ memAt x s →
  ∃ q, q ∈ withOverrides (di_originals info) (overridesOf s info) ∧ ownByte s q.
Proof using L Hx. intros H Hi Hp Hc Hv Hw Hm. destruct (cleanup_code s info r s' p) as [?|[-> _]]; done. Qed.

(** The byte at [x] is of checked code of the script, and is neither one the script wrote
    there nor one it restores: another script has patched it. *)
Definition patchedOver s info : Prop :=
  Exists (λ p, covers x p ∧ ob_verifyOwnership p = true ∧ len (ob_written p) = len (ob_bytes p)) (di_originals info) ∧
  Forall (λ p, covers x p → ∀ b, lget (ob_bytes p) (x - ob_address p) = Some b →
    overrideAt x b (overridesOf s info) ≠ memAt x s ∧ lget (ob_written p) (x - ob_address p) ≠ Some (memAt x s)) (di_originals info).
(** Then its undo is refused. *)
Lemma cleanup_refused s info r s' : cleanup info s = (r, s') → infoOk x info → overridesSane x (overridesOf s info) → ¬ isComplete s info → patchedOver s info → s' = s ∧ ∃ e, r = failed info e.
Proof using L Hx.
  intros H Hi Ho Hn [Hex Hall]. apply Exists_exists in Hex as (p & Hp & Hc & Hv & Hw). destruct (cleanup_code s info r s' p) as [(q & Hq & Hcq & Hb)|[? [?|?]]]; try done. exfalso.
  apply withOverrides_one in Hq as (p' & Hp' & E & W & A). destruct Hi as [Hok _]. rewrite Forall_forall in Hok, Hall.
  pose proof (restoreAt_overrides x [p'] (overridesOf s info) ltac:(apply Forall_singleton; by apply Hok) Ho) as R. fold (withOverrides [p'] (overridesOf s info)) in R. rewrite E in R. cbn [restoreAt] in R. rewrite decide_True in R by done.
  destruct (decide (covers x p')) as [Hc'|Hc']; [|by destruct (covers_byte _ _ Hcq) as [? E']; rewrite E' in R].
  destruct (covers_byte _ _ Hc') as [b Eb]. destruct (Hall p' Hp' Hc' b Eb) as [H1 H2]. rewrite Eb in R. cbn in R. rewrite R, W, A in Hb. destruct Hb as [[= Hb]|Hb]; done.
Qed.
End Code.
