(* ===== verification/AutoRunSpec.v ===== *)
(** * The auto assembler: what a run saves

    Whatever a script asks for, and wherever it fails, the originals a run has saved restore
    the byte that was there before it. *)

From S2P Require Import Prelude Types AutoUndo AutoRun AutoOriginals AutoUndoSpec.
#[local] Open Scope Z_scope.

Section Frames.
(** [may]: the script may patch [x]. *)
Context {T : AaTarget} {L : AaLaws T} (x : Z) (Hx : static x) (may : Prop).
Implicit Types (s : Asm) (a : Activation) (info : DisableInfo).

(** A script that patches [x] does it from static memory on. *)
Fixpoint okScript (script : Script) : Prop :=
  match script with
  | Finish _ | Stop _ => True
  | Look next => ∀ s info, okScript (next s info)
  | Allocate _ _ _ _ next => ∀ address, okScript (next address)
  | Patch address data _ next => (inside x address (len data) → may ∧ static address) ∧ okScript next
  | FullAccess _ _ next => okScript next
  end.
(** The byte before the run is there, or it is saved. *)
Definition Saved (m : Z) s (l : list OriginalBytes) : Prop := restoreAt x l = None ∧ memAt x s = m ∨ may ∧ restoreAt x l = Some m.
Record RunOk (m : Z) a : Prop := {
  run_known : knownOk x (ac_asm a);
  run_info : infoOk x (ac_info a);
  run_blocks : Forall (λ b, ∀ e, gb_previous b = Some e → allocOk x e) (ac_blocks a);
  run_saved : Saved m (ac_asm a) (di_originals (ac_info a));
  run_written : Forall (λ p, len (ob_written p) = len (ob_bytes p)) (di_originals (ac_info a))
}.
(** The scripts that are enabled stay as they are. *)
Definition Scripts a a' : Prop :=
  as_ownerships (ac_asm a') = as_ownerships (ac_asm a) ∧ as_livePatches (ac_asm a') = as_livePatches (ac_asm a) ∧ (as_fresh (ac_asm a) ≤ as_fresh (ac_asm a'))%nat ∧
  di_ownership (ac_info a') = di_ownership (ac_info a).
Lemma Scripts_refl a : Scripts a a.
Proof using. done. Qed.
Lemma Scripts_trans a a' a'' : Scripts a a' → Scripts a' a'' → Scripts a a''.
Proof using. intros (A1 & A2 & A3 & A4) (B1 & B2 & B3 & B4). split_and!; [congruence|congruence|lia|congruence]. Qed.

Lemma containsRange_covers s address size e : containsRange s address size e = true → inside x address size → inside x (al_address e) (al_size e).
Proof using. unfold containsRange, inside. rewrite !andb_true_iff, !Z.leb_le. lia. Qed.
Lemma allocationRelease_none s info address size : knownOk x s → Forall (allocOk x) (di_allocs info) → inside x address size → allocationRelease s info address size = None.
Proof using.
  intros Hk Hi Hin. unfold allocationRelease. destruct (List.find (containsRange s address size) (di_allocs info)) as [e|] eqn:E1.
  - apply find_some in E1 as [E1 E2]. eapply containsRange_covers in E2; [|done]. rewrite Forall_forall in Hi. exfalso. by apply (Hi e); [apply list_elem_of_In|].
  - destruct (List.find _ (map_to_list _).*2) as [e|] eqn:E2; [|done]. apply find_some in E2 as [E2 E3]. apply andb_true_iff in E3 as [E3 _]. eapply containsRange_covers in E3; [|done].
    apply list_elem_of_In, list_elem_of_fmap in E2 as ([name e'] & -> & E2). apply elem_of_map_to_list in E2. by destruct (Hk _ _ E2).
Qed.
Lemma inGlobalBlock_false s info address size : knownOk x s → inside x address size → inGlobalBlock s info address size = false.
Proof using.
  intros Hk Hin. unfold inGlobalBlock. apply not_true_iff_false. intros (name & _ & H)%existsb_exists. destruct (as_knownAllocations s !! name) as [known|] eqn:E; [|done].
  revert H. rewrite !andb_true_iff, !Z.leb_le, Z.ltb_lt. intros H. apply (Hk _ _ E). unfold inside in *. lia.
Qed.

(** ** Patching *)

Lemma protect_step a info t t' : (∀ y, mem t' y = mem t y) → as_target (ac_asm a) = t → di_originals info = di_originals (ac_info a) → di_allocs info = di_allocs (ac_info a) → di_ownership info = di_ownership (ac_info a) →
  ∀ m, RunOk m a → let a' := withAsm (withInfo a info) (withTarget (ac_asm a) t') in RunOk m a' ∧ Scripts a a' ∧ memAt x (ac_asm a') = memAt x (ac_asm a).
Proof using.
  intros Ht <- E1 E2 E3 m [H1 H2 H3 H4 H5] a'. assert (M : memAt x (ac_asm a') = memAt x (ac_asm a)) by apply Ht. split_and!; [|done|done].
  split; [done|unfold infoOk; cbn; by rewrite E1, E2|done| |cbn; by rewrite E1]. unfold Saved in *. rewrite M. cbn. by rewrite E1.
Qed.
Lemma openPages_spec inspect p fuel address remaining a e a' m : openPages inspect p fuel address remaining a = (e, a') → RunOk m a → RunOk m a' ∧ Scripts a a' ∧ memAt x (ac_asm a') = memAt x (ac_asm a) ∧ di_originals (ac_info a') = di_originals (ac_info a).
Proof using.
  revert address remaining a. induction fuel as [|fuel IH]; intros address remaining a H Ha; cbn [openPages] in H; [by injection H as <- <-|].
  destruct (remaining <=? 0); [by injection H as <- <-|]. destruct (tg_region address _) as [r|]; [|by injection H as <- <-]. destruct (_ || _); [by injection H as <- <-|].
  cbn zeta in H. set (info := withProtections _ _) in *. destruct (tg_protect _ _ _ _ _) as [opened t] eqn:Hp.
  destruct (protect_step a info _ t (protect_frame _ _ _ _ _ _ _ Hp) eq_refl eq_refl eq_refl eq_refl m Ha) as (A1 & A2 & A3).
  destruct opened; [|by injection H as <- <-]. apply IH in H as (B1 & B2 & B3 & B4); [|done]. split_and!; [done|by eapply Scripts_trans|congruence|done].
Qed.
Lemma write_step executable address data a r a' : writeOnce executable address data a = (r, a') ∨ writeData address data a = (r, a') → 
  a' = withAsm a (withTarget (ac_asm a) (as_target (ac_asm a'))) ∧ (¬ inside x address (len data) → memAt x (ac_asm a') = memAt x (ac_asm a)).
Proof using.
  intros [H|H]; [unfold writeOnce in H|unfold writeData in H]; destruct (tg_write _ _ _ _ _) as [r1 t] eqn:Hw; injection H as <- <-; (split; [done|]); intros Hn; by eapply write_frame.
Qed.
(** A write over [x] needs the byte to be saved. *)
Lemma write_ok executable address data a r a' m : writeOnce executable address data a = (r, a') ∨ writeData address data a = (r, a') → RunOk m a → (inside x address (len data) → may ∧ restoreAt x (di_originals (ac_info a)) = Some m) →
  RunOk m a' ∧ Scripts a a' ∧ ac_info a' = ac_info a.
Proof using.
  intros [E M]%write_step [H1 H2 H3 H4 H5] Hin. rewrite E. split_and!; [|done..]. split; [done|done|done| |done]. unfold Saved in *. rewrite E in M. cbn in *.
  destruct (decide (inside x address (len data))) as [Hi|Hi]; [right; auto|]. rewrite (M Hi). done.
Qed.
Lemma saveOriginal_spec executable address data mutableData a e a' m : saveOriginal executable address data mutableData a = (e, a') → RunOk m a → (inside x address (len data) → may ∧ static address ∧ noRange address data = false) →
  RunOk m a' ∧ Scripts a a' ∧ ac_asm a' = ac_asm a ∧ (e = None → inside x address (len data) → may ∧ restoreAt x (di_originals (ac_info a')) = Some m).
Proof using.
  intros H [H1 [H2 H2'] H3 H4 H5] Hok. unfold saveOriginal in H.
  destruct (inGlobalBlock _ _ _ _) eqn:Hg.
  { injection H as <- <-. split_and!; try done. intros _ Hin. by rewrite inGlobalBlock_false in Hg. }
  destruct (tg_read _ _ _ _) as [original|] eqn:Hr; [|by injection H as <- <-]. destruct (Z.ltb_spec (len original) (len data)) as [Hl|Hl]; [by injection H as <- <-|].
  injection H as <- <-. apply read_mem in Hr as [Hr1 Hr2]. assert (El : len original = len data) by lia.
  set (p := mkOriginal _ _ _ _ _ _). assert (Hcov : covers x p ↔ inside x address (len data)) by (unfold covers; cbn; by rewrite El).
  assert (Hp : patchOk x p).
  { intros Hc. apply Hcov in Hc. destruct (Hok Hc) as (_ & Hst & Hn). split_and!; [|done|by apply allocationRelease_none]. apply noRange_false in Hn as [Hn1 Hn2]. apply noRange_false. cbn. rewrite El. split; [|done]. apply len_positive. rewrite El. by apply len_positive. }
  assert (Hs : restoreAt x (di_originals (ac_info a) ++ [p]) = match restoreAt x (di_originals (ac_info a)) with Some b => Some b | None => if decide (covers x p) then Some (memAt x (ac_asm a)) else None end).
  { rewrite restoreAt_app. destruct (restoreAt x (di_originals (ac_info a))); [done|]. cbn [restoreAt]. destruct (decide (covers x p)) as [Hc|]; [|done].
    destruct (covers_byte _ _ Hc) as [b Hb]. rewrite Hb. cbn in Hb. rewrite (Hr2 _ _ Hb). unfold memAt. do 2 f_equal. lia. }
  split_and!; [|done|done|].
  - split; [done|split; [|done]|done| |].
    + cbn. apply Forall_app. split; [done|by apply Forall_singleton].
    + unfold Saved in *. cbn. rewrite Hs. destruct H4 as [[H4 H4']|[H4' H4]]; rewrite H4; [|by right]. destruct (decide (covers x p)) as [Hc|]; [right; rewrite H4'; split; [by apply Hok, Hcov|done]|by left].
    + cbn. apply Forall_app. split; [done|]. by apply Forall_singleton.
  - intros _ Hin. split; [by apply Hok|]. cbn. rewrite Hs. destruct H4 as [[H4 H4']|[H4' H4]]; rewrite H4; [|done]. rewrite decide_True by by apply Hcov. by rewrite H4'.
Qed.
Lemma patchMemory_spec address data mutableData a e a' m : patchMemory address data mutableData a = (e, a') → RunOk m a → (inside x address (len data) → may ∧ static address) → RunOk m a' ∧ Scripts a a'.
Proof using.
  intros H Ha Hst. unfold patchMemory in H. destruct (negb _ && _) eqn:Hn; [by injection H as <- <-|].
  assert (Hrange : inside x address (len data) → may ∧ static address ∧ noRange address data = false).
  { intros Hi. destruct (Hst Hi). split_and!; [done|done|]. unfold inside in Hi. assert (data ≠ []) by (apply len_positive; lia). rewrite bool_decide_eq_false_2 in Hn by done. cbn [negb andb] in Hn. unfold noRange. by rewrite bool_decide_eq_false_2. }
  set (executable := match tg_region address _ with Some r => _ | None => _ end) in *.
  destruct (saveOriginal executable address data mutableData a) as [e1 a1] eqn:H1. apply (saveOriginal_spec _ _ _ _ _ _ _ m) in H1 as (A1 & A2 & _ & A3); [|done|done].
  destruct e1 as [e1|]; [by injection H as <- <-|]. specialize (A3 eq_refl).
  destruct (writeOnce executable address data a1) as [r2 a2] eqn:H2. apply or_introl with (B := writeData address data a1 = (r2, a2)) in H2. apply (write_ok _ _ _ _ _ _ m) in H2 as (B1 & B2 & B3); [|done|done].
  rewrite <- B3 in A3.
  destruct (match r2 with WriteBusy => _ | _ => _ end) as [r3 a3] eqn:H3.
  assert (C : RunOk m a3 ∧ Scripts a2 a3 ∧ ac_info a3 = ac_info a2).
  { destruct r2; try (injection H3 as <- <-; by split_and!). destruct (_ && _ && _); [|injection H3 as <- <-; by split_and!].
    apply or_intror with (A := writeOnce false address data a2 = (r3, a3)) in H3. by apply (write_ok _ _ _ _ _ _ m) in H3. }
  destruct C as (C1 & C2 & C3). assert (S3 : Scripts a a3) by (eapply Scripts_trans; [exact A2|eapply Scripts_trans; eassumption]). rewrite <- C3 in A3.
  destruct (wroteAll data r3); [by injection H as <- <-|]. destruct (executable && _); [by injection H as <- <-|].
  destruct (openPages _ _ _ _ _ a3) as [e4 a4] eqn:H4. apply (openPages_spec _ _ _ _ _ _ _ _ m) in H4 as (D1 & D2 & _ & D3); [|done]. assert (S4 : Scripts a a4) by by eapply Scripts_trans.
  destruct e4; [by injection H as <- <-|]. destruct (writeOnce executable address data a4) as [r5 a5] eqn:H5. apply or_introl with (B := writeData address data a4 = (r5, a5)) in H5.
  apply (write_ok _ _ _ _ _ _ m) in H5 as (F1 & F2 & _); [|done|by rewrite D3]. assert (S5 : Scripts a a5) by by eapply Scripts_trans.
  destruct (wroteAll data r5); by injection H as <- <-.
Qed.
Lemma fullAccess_spec address size a e a' m : fullAccess address size a = (e, a') → RunOk m a → RunOk m a' ∧ Scripts a a'.
Proof using.
  intros H Ha. unfold fullAccess in H. destruct (_ || _); [by injection H as <- <-|]. destruct (_ <? _); [by injection H as <- <-|]. apply (openPages_spec _ _ _ _ _ _ _ _ m) in H as (A1 & A2 & _); done.
Qed.

(** ** Allocating *)

Lemma run_named a m n : RunOk m a → let a' := withInfo (mkActivation (ac_asm a) (ac_info a) (ac_blocks a) (ac_allocs a ++ [n])) (ac_info a) in RunOk m a' ∧ Scripts a a'.
Proof using. intros [H1 H2 H3 H4 H5]. by split. Qed.
Lemma allocate_spec undo name size preferred global a r a' m : allocate undo name size preferred global a = (r, a') → RunOk m a → RunOk m a' ∧ Scripts a a'.
Proof using Hx.
  intros H Ha. unfold allocate in H.
  assert (Fresh : (let '(r, t) := tg_allocate (di_image (ac_info a)) size preferred (as_target (ac_asm a)) in
          let s := withTarget (ac_asm a) t in
          match r with
          | None => (inl (bs "Failed to allocate memory"), withAsm a s)
          | Some address =>
              let mappedSize := if di_image (ac_info a) then size + (tg_pageSize - size mod tg_pageSize) mod tg_pageSize else size in
              let entry := mkAlloc name address mappedSize (Some (as_fresh s)) (di_ownership (ac_info a)) (di_image (ac_info a)) in
              let blocks := if global then ac_blocks a ++ [mkGlobalBlock name address (as_knownAllocations s !! name) (bool_decide (name ∈ as_globalAllocations s))] else ac_blocks a in
              let s := withFresh (withAllocations s (<[name := entry]> (as_knownAllocations s)) (if global then {[name]} ∪ as_globalAllocations s else as_globalAllocations s)
                (as_cleanedAllocations s ∖ {[(address, size)]}) (as_released s)) in
              (inr address, mkActivation s (withAllocs (ac_info a) (di_allocs (ac_info a) ++ [entry])) blocks (ac_allocs a ++ [mkNamed name address global]))
          end) = (r, a') → RunOk m a' ∧ Scripts a a').
  { clear H. destruct Ha as [H1 [H2 H2'] H3 H4 H5]. destruct (tg_allocate _ _ _ _) as [[address|] t] eqn:Hal; intros H; injection H as <- <-; destruct (allocate_frame _ _ _ _ _ _ Hal x Hx) as [M A].
    - specialize (A _ eq_refl). set (entry := mkAlloc _ _ _ _ _ _).
      assert (He : allocOk x entry). { intros Hi. apply A. unfold inside in *. cbn in Hi. pose proof (Z.mod_pos_bound (tg_pageSize - size mod tg_pageSize) tg_pageSize page_positive). destruct (di_image (ac_info a)); lia. }
      split; [|split_and!; [done|done|cbn; lia|done]]. split; cbn.
      + intros name' e'. cbn. destruct (decide (name' = name)) as [->|Hne]; [rewrite lookup_insert_eq; by intros [= <-]|rewrite lookup_insert_ne by done; apply H1].
      + split; cbn; [done|]. apply Forall_app. split; [done|by apply Forall_singleton].
      + destruct global; [|done]. apply Forall_app. split; [done|]. apply Forall_singleton. cbn. apply H1.
      + unfold Saved, memAt in *. cbn. by rewrite M.
      + done.
    - split; [|done]. split; [done|done|done| |done]. unfold Saved, memAt in *. cbn. by rewrite M. }
  cbn zeta in H, Fresh. destruct undo as [u|], global; try (apply Fresh; exact H);
    try (destruct (_ =? 0); [by injection H as <- <-|injection H as <- <-; by apply run_named]);
    (destruct (if _ && _ then _ else None) as [address|]; [injection H as <- <-; by apply run_named|apply Fresh; exact H]).
Qed.

(** ** The end of a run *)

(** The tables that undoing does not read may change. *)
Definition TablesOnly s s' : Prop := sameScripts s s' ∧ memAt x s' = memAt x s ∧ (knownOk x s → knownOk x s').
Lemma TablesOnly_refl s : TablesOnly s s.
Proof using. by split. Qed.
Lemma TablesOnly_trans s s' s'' : TablesOnly s s' → TablesOnly s' s'' → TablesOnly s s''.
Proof using. intros ((A1 & A2 & A3) & A4 & A5) ((B1 & B2 & B3) & B4 & B5). split; [split_and!; congruence|split; [congruence|auto]]. Qed.
Lemma foldl_tables {A} (f : Asm → A → Asm) l : (∀ s y, TablesOnly s (f s y)) → ∀ s, TablesOnly s (foldl f s l).
Proof using. intros Hf. induction l as [|y l IH]; intros s; [apply TablesOnly_refl|]. cbn. eapply TablesOnly_trans; [apply Hf|apply IH]. Qed.
Lemma withSymbols_tables s g o : TablesOnly s (withSymbols s g o).
Proof using. by split. Qed.
Lemma unregisterOne_tables undo s name : TablesOnly s (unregisterOne undo s name).
Proof using. unfold unregisterOne. destruct (match undo with Some _ => _ | None => _ end); [apply TablesOnly_refl|apply withSymbols_tables]. Qed.
Lemma registerGlobal_tables s n : TablesOnly s (registerGlobal s n).
Proof using. unfold registerGlobal. destruct (_ && _); [apply withSymbols_tables|apply TablesOnly_refl]. Qed.
Lemma deallocOne_tables name s e s' : knownOk x s → deallocOne name s = (e, s') → TablesOnly s s'.
Proof using L.
  intros Hk H. unfold deallocOne in H. destruct (as_knownAllocations s !! name) as [known|] eqn:Hn; [|injection H as <- <-; apply TablesOnly_refl].
  destruct (match al_image known with Some im => _ | None => _ end); [injection H as <- <-; apply TablesOnly_refl|].
  destruct (match (let? o := al_owner known in as_ownerships s !! o) with Some w => _ | None => _ end); [injection H as <- <-; apply TablesOnly_refl|].
  destruct (match al_image known with Some im => _ | None => _ end) as [freed t] eqn:Hf.
  assert (Hm : mem t x = mem (as_target s) x).
  { pose proof (Hk _ _ Hn) as Ha. destruct (al_image known); [|by eapply free_frame]. destruct (tg_check _ _); [by eapply free_frame|by injection Hf as <- <-|by injection Hf as <- <-]. }
  destruct freed; injection H as <- <-; (split; [done|split; [exact Hm|]]); [|done]. intros _ name' e'. cbn. intros [_ ?]%lookup_delete_Some. by eapply Hk.
Qed.
Lemma deallocAll_tables names s e s' : knownOk x s → deallocAll names s = (e, s') → TablesOnly s s'.
Proof using L.
  revert s. induction names as [|name names IH]; intros s Hk H; cbn [deallocAll] in H; [injection H as <- <-; apply TablesOnly_refl|].
  destruct (deallocOne name s) as [e1 s1] eqn:H1. apply deallocOne_tables in H1; [|done]. destruct e1; [by injection H as <- <-|]. eapply TablesOnly_trans; [exact H1|]. apply IH; [by apply H1|done].
Qed.
Lemma run_tables a s m : RunOk m a → TablesOnly (ac_asm a) s → RunOk m (withAsm a s) ∧ Scripts a (withAsm a s).
Proof using.
  intros [H1 H2 H3 H4 H5] ((V & W & F) & M & K). split; [|split_and!; [done|done|cbn; lia|done]]. split; [by apply K|done|done| |done]. unfold Saved in *. cbn. by rewrite M.
Qed.
Lemma registerOne_spec undo a y m : RunOk m a → RunOk m (registerOne undo a y) ∧ Scripts a (registerOne undo a y).
Proof using.
  intros Ha. unfold registerOne. destruct y as [name address]. destruct (address =? 0); [done|]. destruct Ha as [H1 H2 H3 H4 H5]. destruct undo; (split; [|done]); by split.
Qed.
Lemma registerAll_spec undo l a m : RunOk m a → RunOk m (foldl (registerOne undo) a l) ∧ Scripts a (foldl (registerOne undo) a l).
Proof using.
  revert a. induction l as [|y l IH]; intros a Ha; [done|]. cbn. destruct (registerOne_spec undo a y m Ha) as [A1 A2]. destruct (IH _ A1) as [B1 B2]. split; [done|]. by eapply Scripts_trans.
Qed.
Definition Ended (undo : option DisableInfo) (m : Z) a (e : option bytes) a' : Prop :=
  ∃ a1, RunOk m a1 ∧ Scripts a a1 ∧ match e, undo with None, None => ∃ ending, a' = keepActivation ending a1 | _, _ => a' = a1 end.
Lemma finish_spec undo ending a e a' m : finish undo ending a = (e, a') → RunOk m a → Ended undo m a e a'.
Proof using.
  intros H Ha. unfold finish in H. destruct (deallocAll _ _) as [e1 s1] eqn:H1. apply deallocAll_tables in H1; [|by apply Ha].
  destruct e1; [injection H as <- <-; destruct (run_tables a s1 m Ha H1); by eexists|].
  set (s2 := foldl (unregisterOne undo) s1 _) in *. set (s3 := foldl registerGlobal s2 _) in *.
  assert (H3 : TablesOnly (ac_asm a) s3).
  { eapply TablesOnly_trans; [exact H1|]. eapply TablesOnly_trans; [apply (foldl_tables (unregisterOne undo) (en_unregisters ending) (unregisterOne_tables undo))|apply (foldl_tables registerGlobal (ac_allocs a) registerGlobal_tables)]. }
  destruct (run_tables a s3 m Ha H3) as [A1 A2]. destruct (registerAll_spec undo (en_registered ending) _ m A1) as [B1 B2]. set (a4 := foldl (registerOne undo) _ _) in *.
  cbn zeta in H. set (a5 := withInfo a4 _) in *. assert (A5 : RunOk m a5 ∧ Scripts a4 a5).
  { destruct B1 as [C1 [C2 C2'] C3 C4 C5]. split; [|done]. split; [done|split; [done|]|done|done|done]. cbn. by apply filter_Forall. }
  destruct A5 as [A5 S5]. injection H as <- <-. exists a5. split; [done|]. split; [eapply Scripts_trans; [exact A2|eapply Scripts_trans; eassumption]|]. destruct undo; [done|]. by eexists.
Qed.
Lemma perform_spec undo script a e a' m : perform undo script a = (e, a') → RunOk m a → okScript script → Ended undo m a e a'.
Proof using Hx.
  revert a. induction script as [ending|message|next IH|name size preferred global next IH|address data mutableData next IH|address size next IH]; intros a H Ha Hok; cbn [perform] in H.
  - by eapply finish_spec.
  - injection H as <- <-. exists a. split_and!; done.
  - by eapply IH.
  - destruct (allocate _ _ _ _ _ a) as [[e1|address] a1] eqn:H1; apply (allocate_spec _ _ _ _ _ _ _ _ m) in H1 as [A1 A2]; try done; [injection H as <- <-; by exists a1|].
    destruct (IH address a1 H A1 (Hok address)) as (a2 & B1 & B2 & B3). exists a2. split_and!; [done|by eapply Scripts_trans|done].
  - destruct (patchMemory _ _ _ a) as [[e1|] a1] eqn:H1; destruct Hok as [Hst Hok]; apply (patchMemory_spec _ _ _ _ _ _ m) in H1 as [A1 A2]; try done; [injection H as <- <-; by exists a1|].
    destruct (IH a1 H A1 Hok) as (a2 & B1 & B2 & B3). exists a2. split_and!; [done|by eapply Scripts_trans|done].
  - destruct (fullAccess _ _ a) as [[e1|] a1] eqn:H1; apply (fullAccess_spec _ _ _ _ _ m) in H1 as [A1 A2]; try done; [injection H as <- <-; by exists a1|].
    destruct (IH a1 H A1 Hok) as (a2 & B1 & B2 & B3). exists a2. split_and!; [done|by eapply Scripts_trans|done].
Qed.
End Frames.
