(* ===== verification/AutoSample.v ===== *)
(** * The auto assembler: a sample target

    A process with one writable data region and one code region, in which every access
    succeeds. *)

From S2P Require Import Prelude Types AutoUndo AutoRun AutoOriginals AutoUndoSpec.
#[local] Open Scope Z_scope.

(** Data from 4096 on, code from 8192 on; allocations are elsewhere. *)
Definition sampleRegion (a : Z) : option MemoryRegion :=
  if (4096 <=? a) && (a <? 8192) then Some (mkMemoryRegion 4096 4096 3 MemPrivate MemCommitted [] None)
  else if (8192 <=? a) && (a <? 12288) then Some (mkMemoryRegion 8192 4096 7 MemPrivate MemCommitted [] None) else None.
Definition samplePut (m : gmap Z Z) (a : Z) (b : bytes) : gmap Z Z := foldl (λ m i, <[a + Z.of_nat i := default 0 (b !! i)]> m) m (seq 0 (length b)).
Definition sampleAt (m : gmap Z Z) (x : Z) : Z := default 144 (m !! x).
Definition sampleTarget : AaTarget := {|
  target := gmap Z Z;
  tg_pid := 7;
  tg_pin _ := Some None;
  tg_imagePid _ := 7;
  tg_identity := Z.of_nat;
  tg_check _ _ := ImageLive;
  tg_read _ a n t := if n <? 0 then None else Some ((λ i, sampleAt t (a + Z.of_nat i)) <$> seq 0 (Z.to_nat n));
  tg_write _ _ a b t := (Wrote (len b), samplePut t a b);
  tg_region a _ := sampleRegion a;
  tg_protect _ _ _ _ t := (true, t);
  tg_allocate _ _ _ t := (Some 65536, t);
  tg_free _ _ _ t := (true, t);
  tg_busy _ _ _ := false;
  tg_pageSize := 4096;
  tg_isX86 _ _ := true
|}.
Lemma samplePut_frame m a b x : ¬ inside x a (len b) → sampleAt (samplePut m a b) x = sampleAt m x.
Proof.
  intros Hx. unfold samplePut. assert (H : Forall (λ i, (i < length b)%nat) (seq 0 (length b))) by (apply Forall_forall; intros i Hi%elem_of_seq; lia).
  revert m. induction H as [|i l Hi H IH]; intros m; [done|]. cbn [foldl]. rewrite IH. unfold sampleAt. rewrite lookup_insert_ne; [done|]. unfold inside, len in Hx. lia.
Qed.
#[export] Instance sampleLaws : AaLaws sampleTarget.
Proof.
  refine {| mem := (sampleAt : @target sampleTarget → Z → Z); static x := 4096 ≤ x < 12288 |}; cbn.
  - intros _ a n t b. destruct (Z.ltb_spec n 0); [done|]. intros [= <-]. unfold len, lget. rewrite length_fmap, length_seq. split; [lia|]. intros i c. destruct (Z.leb_spec 0 i); [|done].
    rewrite list_lookup_fmap. destruct (seq 0 (Z.to_nat n) !! Z.to_nat i) as [j|] eqn:E; [|done]. apply lookup_seq in E as [-> _]. cbn. intros [= <-]. do 2 f_equal. lia.
  - intros _ _ a b t r t' [= <- <-] x Hx. by apply samplePut_frame.
  - by intros _ a n p t r t' [= <- <-].
  - intros _ n p t r t' [= <- <-] x Hx. split; [done|]. intros a [= <-]. unfold inside. lia.
  - by intros _ a n t r t' [= <- <-].
  - intros a _ Ha. unfold sampleRegion, inside. destruct (Z.ltb_spec a 8192).
    + rewrite (proj2 (Z.leb_le 4096 a)) by lia. eexists. split; [done|]. cbn. lia.
    + rewrite andb_false_r, (proj2 (Z.leb_le 8192 a)), (proj2 (Z.ltb_lt a 12288)) by lia. eexists. split; [done|]. cbn. lia.
  - done.
  - done.
  - done.
Defined.

(** ** Three scripts *)

(** [4100] is data of the first two; the third one fails after it has patched [4101].  The
    first one patches code too. *)
Definition samplePatch (a : Z) (b : bytes) (next : Script) : Script (T := sampleTarget) := Patch a b false next.
Definition sampleEnd : Script (T := sampleTarget) := Finish (mkEnding [] [] [] [] []).
Definition sampleFirst : Script := samplePatch 4098 [1; 2; 3; 4] (samplePatch 8200 [235; 9] sampleEnd).
Definition sampleSecond : Script := samplePatch 4100 [5; 6; 7] sampleEnd.
Definition sampleFailing : Script := samplePatch 4100 [8; 9] (Stop (bs "bad line")).
Definition sampleStart : Asm (T := sampleTarget) := mkAsm ∅ ∅ ∅ ∅ ∅ [] ∅ ∅ 0 (<[4100 := 33]> ∅).
(** The first is disabled before the second, with a [[DISABLE]] section that patches elsewhere. *)
Definition sampleSection : Script := samplePatch 4200 [1] sampleEnd.
Definition run1 := execute sampleFirst sampleStart.
Definition run2 := execute sampleSecond run1.2.
Definition run3 := execute sampleFailing run2.2.
Definition run4 := disable (Some sampleSection) (ar_disableInfo run1.1) run3.2.
Definition run5 := disable None (ar_disableInfo run2.1) run4.2.

(** Code that is patched twice: the first script is refused while the second one's bytes are
    there, and taken back after it. *)
Definition codeOld : Script := samplePatch 8200 [235; 9] sampleEnd.
Definition codeNew : Script := samplePatch 8200 [1; 2] sampleEnd.
Definition code1 := execute codeOld sampleStart.
Definition code2 := execute codeNew code1.2.
Definition code3 := disable None (ar_disableInfo code1.1) code2.2.
Definition code4 := disable None (ar_disableInfo code2.1) code3.2.
Definition code5 := disable None (ar_disableInfo code3.1) code4.2.

(** ** Limits of the hand-over *)

(** Equal code of two scripts passes the check: the first one disabled takes the patch of the
    other away, which then is refused. *)
Definition codeTwice : Script := samplePatch 8200 [144; 2] sampleEnd.
Definition codeFirst := execute codeTwice sampleStart.
Definition codeSecond := execute codeTwice codeFirst.2.
Definition codeUndone := disable None (ar_disableInfo codeFirst.1) codeSecond.2.
Lemma equal_code_not_refused : ar_success codeUndone.1 = true ∧ ar_error (disable None (ar_disableInfo codeSecond.1) codeUndone.2).1 = [OwnershipChanged 8201].
Proof. by vm_compute. Qed.
(** A newer script that writes the original code back hides the patch of the older one: the older
    one is taken back, and then the newer one brings the patch back. *)
Definition codeHide : Script := samplePatch 8200 [144; 144] sampleEnd.
Definition hidden2 := execute codeHide code1.2.
Definition hidden3 := disable None (ar_disableInfo code1.1) hidden2.2.
Definition hidden4 := disable None (ar_disableInfo hidden2.1) hidden3.2.
Lemma hidden_patch_comes_back : ar_success hidden3.1 && ar_success hidden4.1 = true ∧ sampleAt (as_target hidden4.2 : gmap Z Z) 8200 = 235 ∧ sampleAt (as_target sampleStart : gmap Z Z) 8200 = 144.
Proof. by vm_compute. Qed.
(** The third write, that of a rollback, fails.  What the rollback left is not among the live
    patches, so the older script hands nothing over and the retry brings its byte back. *)
Definition faultyTarget : AaTarget := {|
  target := gmap Z Z;
  tg_pid := 7;
  tg_pin _ := Some None;
  tg_imagePid _ := 7;
  tg_identity := Z.of_nat;
  tg_check _ _ := ImageLive;
  tg_read _ a n t := if n <? 0 then None else Some ((λ i, sampleAt t (a + Z.of_nat i)) <$> seq 0 (Z.to_nat n));
  tg_write _ _ a b t := let n := default 0 (t !! 0) in if n =? 2 then (WriteFailed, <[0 := 3]> t) else (Wrote (len b), samplePut (<[0 := n + 1]> t) a b);
  tg_region a _ := sampleRegion a;
  tg_protect _ _ _ _ t := (true, t);
  tg_allocate _ _ _ t := (None, t);
  tg_free _ _ _ t := (true, t);
  tg_busy _ _ _ := false;
  tg_pageSize := 4096;
  tg_isX86 _ _ := true
|}.
Definition faultyStart : Asm (T := faultyTarget) := mkAsm ∅ ∅ ∅ ∅ ∅ [] ∅ ∅ 0 (<[4100 := 33]> ∅).
Definition faultyFirst := execute (T := faultyTarget) (Patch 4100 [1] false (Finish (mkEnding [] [] [] [] []))) faultyStart.
Definition faultySecond := execute (T := faultyTarget) (Patch 4100 [2] false (Stop (bs "bad line"))) faultyFirst.2.
Definition faultyUndone := disable None (ar_disableInfo faultyFirst.1) faultySecond.2.
Definition faultyRetried := disable None (ar_disableInfo faultySecond.1) faultyUndone.2.
Lemma failed_rollback_not_handed : ar_success faultyUndone.1 && ar_success faultyRetried.1 = true ∧ sampleAt (as_target faultyUndone.2 : gmap Z Z) 4100 = 33 ∧ sampleAt (as_target faultyRetried.2 : gmap Z Z) 4100 = 1.
Proof. by vm_compute. Qed.
