(* ===== verification/AutoScripts.v ===== *)
(** * The auto assembler: scripts in any order

    Scripts are enabled and disabled, overlap, fail, and are disabled again after a failure: data
    in any order, code in any order too unless a byte of it that a newer script holds happens to
    equal one the older script wrote or restores ([AutoSample] shows what happens then).  An
    address of static memory that no script holds any more has the byte it had before all of
    them. *)

From stdpp Require Import sorting.
From S2P Require Import Prelude Types AutoUndo AutoRun AutoOriginals AutoUndoSpec AutoCode AutoRunSpec AutoSample.
#[local] Open Scope Z_scope.

Section Scripts.
Context {T : AaTarget} {L : AaLaws T} (x : Z).
Implicit Types (s : Asm) (info : DisableInfo) (a : Activation) (o : nat).

(** ** Steps *)

(** The caller keeps the [DisableInfo] of every script it has to disable, here by the number
    of its ownership. *)
Notation Held := (gmap nat DisableInfo).
Definition holds info : Prop := is_Some (restoreAt x (di_originals info)).
(** What may be asked for: data at [x] is taken back in any order, and so is code that no newer
    script holds; code that a newer script holds may be tried as well when the newer byte is
    told from those of the older script ([patchedOver]: the undo is refused). *)
Definition mayUndo (held : Held) s o info : Prop :=
  isData x (di_originals info) ∨ (∀ o' info', held !! o' = Some info' → (o < o')%nat → ¬ holds info') ∨ patchedOver x s info.
Definition keep (held : Held) info : Held := match di_ownership info with Some o => <[o := info]> held | None => held end.
Definition noTables s : Prop := as_livePatches s = [] ∧ as_ownerships s = ∅ ∧ as_knownAllocations s = ∅.

(** A script is enabled, and what it leaves to be disabled is kept; if it fails, its rollback
    has restored the byte at [x].  A script that is held is disabled; its [[DISABLE]] section
    does not patch [x]. *)
Inductive Step : Held * Asm → Held * Asm → Prop :=
  | step_enable held s script r s' : okScript x True script → execute script s = (r, s') → (ar_success r = false → ¬ holds (ar_disableInfo r)) →
      Step (held, s) (keep held (ar_disableInfo r), s')
  | step_disable held s o info section r s' : held !! o = Some info → default True (okScript x False <$> section) → mayUndo held s o info →
      disable section info s = (r, s') → Step (held, s) (if ar_success r then delete o held else <[o := ar_disableInfo r]> held, s').

(** ** The bookkeeping of other scripts *)

(** The overrides of an ownership mean the same at [x]. *)
Definition sameOwner (w w' : Ownership) : Prop := ow_complete w = ow_complete w' ∧ ∀ b, overrideAt x b (ow_restoreOverrides w) = overrideAt x b (ow_restoreOverrides w').
Definition ownersBelow s : Prop := ∀ o w, as_ownerships s !! o = Some w → (o < as_fresh s)%nat.
Lemma sameOwner_refl w : sameOwner w w.
Proof using. done. Qed.
(** Nothing the earlier scripts rely on has changed. *)
Record Books s s' : Prop := {
  bk_known : knownOk x s → knownOk x s';
  bk_sane : ownersSane x s → ownersSane x s';
  bk_fresh : (as_fresh s ≤ as_fresh s')%nat;
  bk_below : ownersBelow s → ownersBelow s';
  bk_owners o : (o < as_fresh s)%nat → option_Forall2 sameOwner (as_ownerships s !! o) (as_ownerships s' !! o);
  bk_patches : as_livePatches s' = as_livePatches s ∨ as_livePatches s' = liveOf s
}.
Definition patchesBelow s : Prop := Forall (λ l, (lp_owner l < as_fresh s)%nat) (as_livePatches s).
Lemma sameOwners_refl (w : option Ownership) : option_Forall2 sameOwner w w.
Proof using. destruct w; by constructor. Qed.
Lemma Books_refl s : Books s s.
Proof using. split; try done; [intros; apply sameOwners_refl|by left]. Qed.
(** Scripts stay live. *)
Lemma Books_live s s' : Books s s' → patchesBelow s → liveOf s' = liveOf s.
Proof using.
  intros HB Hp. assert (E : filter (λ l, liveOwner s' (lp_owner l)) (as_livePatches s) = liveOf s).
  { unfold liveOf. clear - Hp HB. unfold patchesBelow in Hp. induction Hp as [|l ls Hl Hp IH]; [done|]. rewrite !filter_cons, IH.
    assert (El : liveOwner s' (lp_owner l) = liveOwner s (lp_owner l)); [|by rewrite El]. unfold liveOwner. destruct (bk_owners _ _ HB _ Hl) as [w w' [Hc _]|]; [by rewrite Hc|done]. }
  destruct (bk_patches _ _ HB) as [Ep|Ep]; unfold liveOf at 1; rewrite Ep; [done|]. rewrite <- E. by apply list_filter_filter_l.
Qed.
Lemma Books_patchesBelow s s' : Books s s' → patchesBelow s → patchesBelow s'.
Proof using.
  intros HB Hp. assert (H : Forall (λ l, (lp_owner l < as_fresh s')%nat) (as_livePatches s)) by (eapply Forall_impl; [exact Hp|]; intros l Hl; cbn in *; pose proof (bk_fresh _ _ HB); lia).
  unfold patchesBelow. destruct (bk_patches _ _ HB) as [Ep|Ep]; rewrite Ep; [done|]. by apply filter_Forall.
Qed.
Lemma sameOwner_trans (w w' w'' : option Ownership) : option_Forall2 sameOwner w w' → option_Forall2 sameOwner w' w'' → option_Forall2 sameOwner w w''.
Proof using. intros [v v' [A1 A2]|] H; inversion H as [? v'' [B1 B2]|]; subst; constructor. split; [congruence|]. intros b. by rewrite A2. Qed.
Lemma Books_trans s s' s'' : patchesBelow s → Books s s' → Books s' s'' → Books s s''.
Proof using.
  intros Hp A B. split.
  - intros H. by apply (bk_known _ _ B), (bk_known _ _ A).
  - intros H. by apply (bk_sane _ _ B), (bk_sane _ _ A).
  - pose proof (bk_fresh _ _ A). pose proof (bk_fresh _ _ B). lia.
  - intros H. by apply (bk_below _ _ B), (bk_below _ _ A).
  - intros o Ho. eapply sameOwner_trans; [by apply (bk_owners _ _ A)|]. apply (bk_owners _ _ B). pose proof (bk_fresh _ _ A). lia.
  - destruct (bk_patches _ _ B) as [E|E]; rewrite E; [apply (bk_patches _ _ A)|]. right. by apply Books_live.
Qed.
Lemma TablesOnly_Books s s' : TablesOnly x s s' → Books s s' ∧ memAt x s' = memAt x s.
Proof using.
  intros ((V & W & F) & M & K). split; [|done]. split; [done|unfold ownersSane; by rewrite W|lia|unfold ownersBelow; rewrite W, F; auto|intros o Ho; rewrite W; apply sameOwners_refl|by left].
Qed.

(** ** Hand-overs *)

Lemma deliverTo_same ow h o : ¬ hits x h → option_Forall2 sameOwner (ow !! o) (deliverTo ow h !! o).
Proof using.
  intros Hh. unfold deliverTo. destruct (decide (o = ho_to h)) as [->|Hne]; [rewrite lookup_alter_eq|rewrite lookup_alter_ne by done; apply sameOwners_refl].
  destruct (ow !! ho_to h) as [w|]; constructor. split; [done|]. intros b. cbn. unfold overrideAt. rewrite foldl_app. cbn. by rewrite decide_False.
Qed.
Lemma deliverAll_same ow hs o : noHits x hs → option_Forall2 sameOwner (ow !! o) (foldl deliverTo ow hs !! o).
Proof using.
  intros H. revert ow. induction H as [|h hs Hh H IH]; intros ow; [apply sameOwners_refl|]. cbn. eapply sameOwner_trans; [by apply deliverTo_same|apply IH].
Qed.
Lemma deliverTo_sane (ow : gmap nat Ownership) h : (hits x h → noRange (ho_address h) (ho_bytes h) = false) →
  map_Forall (λ _ w, overridesSane x (ow_restoreOverrides w)) ow → map_Forall (λ _ w, overridesSane x (ow_restoreOverrides w)) (deliverTo ow h).
Proof using.
  intros Hh H o w. unfold deliverTo. destruct (decide (o = ho_to h)) as [->|Hne]; [rewrite lookup_alter_eq|rewrite lookup_alter_ne by done; apply H].
  destruct (ow !! ho_to h) as [w'|] eqn:E; [|done]. cbn. intros [= <-]. cbn. apply Forall_app. split; [by eapply H|]. by apply Forall_singleton.
Qed.
Lemma deliverAll_sane hs (ow : gmap nat Ownership) : (∀ h, h ∈ hs → hits x h → noRange (ho_address h) (ho_bytes h) = false) →
  map_Forall (λ _ w, overridesSane x (ow_restoreOverrides w)) ow → map_Forall (λ _ w, overridesSane x (ow_restoreOverrides w)) (foldl deliverTo ow hs).
Proof using.
  revert ow. induction hs as [|h hs IH]; intros ow Hh H; [done|]. cbn. apply IH; [intros h' Hh'; apply Hh; by right|]. apply deliverTo_sane; [apply Hh; by left|done].
Qed.
Lemma deliverAll_keys hs (ow : gmap nat Ownership) o : is_Some (foldl deliverTo ow hs !! o) ↔ is_Some (ow !! o).
Proof using.
  revert ow. induction hs as [|h hs IH]; intros ow; [done|]. cbn. rewrite IH. unfold deliverTo. by rewrite lookup_alter_is_Some.
Qed.
Lemma deliverAll_complete hs (ow : gmap nat Ownership) o : ow_complete <$> (foldl deliverTo ow hs !! o) = ow_complete <$> (ow !! o).
Proof using.
  revert ow. induction hs as [|h hs IH]; intros ow; [done|]. cbn. rewrite IH. unfold deliverTo. destruct (decide (o = ho_to h)) as [->|Hne]; [rewrite lookup_alter_eq|by rewrite lookup_alter_ne]. by destruct (ow !! ho_to h).
Qed.
(** Hand-overs of [b] that reach [x] go to [o], whose override is then [b]. *)
Lemma deliverAll_gives hs (ow : gmap nat Ownership) o b c : (∀ h, h ∈ hs → hits x h → ho_to h = o ∧ lget (ho_bytes h) (x - ho_address h) = Some b) →
  ∀ w, foldl deliverTo ow hs !! o = Some w → ∃ w0, ow !! o = Some w0 ∧ overrideAt x c (ow_restoreOverrides w) = if decide (Exists (hits x) hs) then b else overrideAt x c (ow_restoreOverrides w0).
Proof using.
  induction hs as [|h hs IH] using rev_ind; intros Hh w Hw; [exists w; split; [done|]; rewrite decide_False; [done|by intros ?%Exists_nil]|].
  rewrite foldl_app in Hw. cbn in Hw. unfold deliverTo at 1 in Hw.
  assert (IH' := IH ltac:(intros h' Hh'; apply Hh, elem_of_app; by left)).
  assert (Hh1 := Hh h ltac:(apply elem_of_app; right; by left)).
  destruct (decide (o = ho_to h)) as [E|Hne].
  - rewrite <- E, lookup_alter_eq in Hw. destruct (foldl deliverTo ow hs !! o) as [w1|] eqn:E1; [|done]. injection Hw as <-. destruct (IH' _ eq_refl) as (w0 & H0 & H1). exists w0. split; [done|]. cbn. unfold overrideAt in *. rewrite foldl_app. cbn.
    destruct (decide (inside x (ho_address h) (len (ho_bytes h)))) as [Hi|Hi].
    + destruct (Hh1 Hi) as [_ ->]. rewrite decide_True; [done|]. apply Exists_app. right. by left.
    + rewrite H1. destruct (decide (Exists (hits x) hs)) as [Hd|Hd]; [rewrite decide_True; [done|]; apply Exists_app; by left|]. rewrite decide_False; [done|]. intros [|[|?%Exists_nil]%Exists_cons]%Exists_app; done.
  - rewrite lookup_alter_ne in Hw by done. destruct (IH' _ Hw) as (w0 & H0 & H1). exists w0. split; [done|]. rewrite H1.
    assert (Hi : ¬ hits x h) by (intros Hi; destruct (Hh1 Hi); congruence).
    destruct (decide (Exists (hits x) hs)) as [Hd|Hd]; [rewrite decide_True; [done|]; apply Exists_app; by left|]. rewrite decide_False; [done|]. intros [|[|?%Exists_nil]%Exists_cons]%Exists_app; done.
Qed.

Lemma RestoredAt_cases s info s' hs : RestoredAt x s info s' hs → isData x (di_originals info) ∨ effAt x s info = None ∨ firstOver x (newerOf s info) = None →
  noHits x hs ∧ (effAt x s info = None ∧ memAt x s' = memAt x s ∨ ∃ b, effAt x s info = Some b ∧ memAt x s' = b ∧ firstOver x (newerOf s info) = None)
  ∨ ∃ b o, effAt x s info = Some b ∧ firstOver x (newerOf s info) = Some o ∧ (∀ h, h ∈ hs → hits x h → ho_to h = o ∧ gives x b h) ∧ Exists (hits x) hs.
Proof using.
  intros (R1 & R2 & R3) Hd. destruct (effAt x s info) as [b|] eqn:E; [|left; destruct (R1 eq_refl); auto].
  destruct (firstOver x (newerOf s info)) as [o|] eqn:F.
  - assert (Hn : Exists (overX x) (newerOf s info)) by by apply firstOver_Some. destruct Hd as [Hd|[|]]; [|done..]. destruct (R3 b eq_refl Hd Hn) as (_ & H1 & h & Hh & Hi). right. exists b, o. split_and!; [done|done| |].
    + intros h' Hh' Hi'. destruct (H1 h' Hh' Hi') as [Ht Hg]. by injection Ht.
    + apply Exists_exists. by exists h.
  - assert (Hn : ¬ Exists (overX x) (newerOf s info)) by (intros Hn%firstOver_Some; rewrite F in Hn; by destruct Hn). destruct (R2 b eq_refl Hn) as [Hm Hh]. left. split; [done|]. right. eauto.
Qed.
Lemma RestoredAt_sane s info s' hs : RestoredAt x s info s' hs → isData x (di_originals info) ∨ effAt x s info = None ∨ firstOver x (newerOf s info) = None → ∀ h, h ∈ hs → hits x h → noRange (ho_address h) (ho_bytes h) = false.
Proof using.
  intros HR Hd h Hh Hi. destruct (RestoredAt_cases _ _ _ _ HR Hd) as [[Hn _]|(b & o & _ & _ & H & _)]; [by destruct (proj1 (Forall_forall _ _) Hn h Hh)|]. by apply (H h Hh Hi).
Qed.
Lemma completeIn_other (ow : gmap nat Ownership) o o' : o' ≠ o → completeIn ow (Some o) !! o' = ow !! o'.
Proof using. intros. cbn. by rewrite lookup_alter_ne. Qed.
Lemma completeIn_sane (ow : gmap nat Ownership) (o : option nat) : map_Forall (λ _ w, overridesSane x (ow_restoreOverrides w)) ow → map_Forall (λ _ w, overridesSane x (ow_restoreOverrides w)) (completeIn ow o).
Proof using.
  intros H. destruct o as [o|]; [|done]. intros o' w. cbn. destruct (decide (o' = o)) as [->|Hne]; [rewrite lookup_alter_eq|rewrite lookup_alter_ne by done; apply H]. destruct (ow !! o) as [w'|] eqn:E; [|done]. intros [= <-]. cbn. by eapply H.
Qed.

(** ** A run *)

Context (Hx : static x).
Section Running.
Context (may : Prop).

(** A run, up to its end. *)
Record Ran m s a : Prop := {
  ran_books : Books s (ac_asm a);
  ran_ok : RunOk x may m a;
  ran_owner : di_ownership (ac_info a) = Some (as_fresh s);
  ran_new : as_ownerships (ac_asm a) !! as_fresh s = Some (mkOwnership false false []);
  ran_fresh : (as_fresh s < as_fresh (ac_asm a))%nat;
  ran_live : as_livePatches (ac_asm a) = as_livePatches s
}.
Lemma forgetBlock_tables s name : TablesOnly x s (forgetBlock s name).
Proof using.
  unfold forgetBlock. destruct (as_knownAllocations s !! name) as [known|]; [|apply TablesOnly_refl]. destruct (imageUsable s _); [apply TablesOnly_refl|].
  split; [done|split; [done|]]. intros Hk name' e. cbn. intros [_ ?]%lookup_delete_Some. by eapply Hk.
Qed.
Lemma newOwnership_books s : Books s (newOwnership s).2.
Proof using.
  split; cbn; [done| |lia| | |by left].
  - intros H o w. cbn. destruct (decide (o = as_fresh s)) as [->|Hne]; [rewrite lookup_insert_eq|rewrite lookup_insert_ne by done; apply H]. intros [= <-]. by apply Forall_nil.
  - intros H o w. cbn. destruct (decide (o = as_fresh s)) as [->|Hne]; [lia|rewrite lookup_insert_ne by done]. intros ?%H. lia.
  - intros o Ho. cbn. rewrite lookup_insert_ne by lia. apply sameOwners_refl.
Qed.
Lemma Scripts_books a a' : Scripts a a' → knownOk x (ac_asm a') → Books (ac_asm a) (ac_asm a').
Proof using.
  intros (W & V & F & _) Hk. split; [done|unfold ownersSane; by rewrite W|done|unfold ownersBelow; rewrite W; intros H o w Ho; specialize (H o w Ho); lia|intros o Ho; rewrite W; apply sameOwners_refl|by left].
Qed.
Lemma run_ran undo script s r s' : run undo script s = (r, s') → okScript x may script → knownOk x s → patchesBelow s →
  ar_success r = false ∧ ar_disableInfo r = mkDisable [] [] ∅ [] None (Some (as_fresh s)) ∅ false ∧ s' = (newOwnership s).2
  ∨ ∃ a, Ran (memAt x s) s a ∧
    ((∃ e, rollback e a = (r, s')) ∨ match undo with Some _ => r = mkResult true [] (ac_info a) ∧ s' = ac_asm a | None => ∃ ending, r = mkResult true [] (ac_info (keepActivation ending a)) ∧ s' = ac_asm (keepActivation ending a) end).
Proof using Hx.
  intros H Hok Hk Hp. unfold run in H. destruct (newOwnership s) as [o s1] eqn:Hn. assert (o = as_fresh s ∧ s1 = (newOwnership s).2) as [-> E1] by (rewrite Hn; unfold newOwnership in Hn; by injection Hn as <- <-).
  destruct (match (let? u := undo in di_image u) with Some im => _ | None => _ end) as [image|]; [|injection H as <- <-; by left]. right.
  destruct (perform _ _ _) as [e a'] eqn:Hperf. set (a := mkActivation (forgetBlocks s1) _ [] []) in *.
  destruct (TablesOnly_Books s1 (forgetBlocks s1)) as [B1 M1]; [apply foldl_tables, forgetBlock_tables|].
  assert (B0 : Books s s1) by (rewrite E1; apply newOwnership_books). assert (Ba : Books s (ac_asm a)) by by eapply Books_trans.
  assert (T1 : TablesOnly x s1 (forgetBlocks s1)) by apply foldl_tables, forgetBlock_tables. destruct T1 as ((V1 & W1 & F1) & _ & _).
  apply (perform_spec x Hx may _ _ _ _ _ (memAt x s)) in Hperf as (a1 & R1 & S1 & R2); [| |done].
  - destruct S1 as (W2 & V2 & F2 & O2). exists a1. split.
    + split; [|done|done| | |].
      * eapply Books_trans; [done|exact Ba|]. apply Scripts_books; [done|apply R1].
      * rewrite W2. cbn. rewrite W1, E1. cbn. apply lookup_insert_eq.
      * cbn in F2. rewrite F1, E1 in F2. cbn in F2. lia.
      * rewrite V2. cbn. rewrite V1, E1. done.
    + destruct e as [e|]; [left; exists e; by subst a'|]. right. destruct undo; [subst a'|destruct R2 as [ending ->]; exists ending]; by injection H as <- <-.
  - split; [by apply (bk_known _ _ Ba)|by split; apply Forall_nil|by apply Forall_nil| |by apply Forall_nil]. left. split; [done|]. cbn. rewrite M1, E1. done.
Qed.

(** A run has no newer scripts. *)
Lemma Ran_newest m s a : Ran m s a → patchesBelow s →
  newerOf (ac_asm a) (ac_info a) = [] ∧ liveAfter (ac_asm a) (ac_info a) = liveOf (ac_asm a) ∧ effAt x (ac_asm a) (ac_info a) = restoreAt x (di_originals (ac_info a)).
Proof using.
  intros [HB HR HO HN HF HL] Hp. assert (Hne : Forall (λ l, lp_owner l ≠ as_fresh s) (liveOf (ac_asm a))).
  { apply filter_Forall. rewrite HL. eapply Forall_impl; [exact Hp|]. intros l Hl. cbn in *. lia. }
  unfold newerOf, liveAfter, effAt, overridesOf, ownershipOf. rewrite HO. cbn [mbind option_bind]. rewrite HN. cbn [ow_restoreOverrides]. split_and!.
  - unfold newerThan. destruct (list_find _ _) as [[i l]|] eqn:E; [|done]. apply list_find_Some in E as (E1 & E2 & _). apply list_elem_of_lookup_2 in E1. by destruct (proj1 (Forall_forall _ _) Hne l E1).
  - clear - Hne. induction Hne as [|l ls Hl Hne IH]; [done|]. rewrite filter_cons, decide_True by done. by rewrite IH.
  - destruct (restoreAt x _); [|done]. done.
Qed.
(** What a failed script leaves to be undone. *)
Definition Left (m : Z) s info s' : Prop :=
  (¬ holds info → memAt x s' = m) ∧ (∀ b, restoreAt x (di_originals info) = Some b → may ∧ b = m) ∧ (di_ownership info = None ∧ ¬ holds info ∨ di_ownership info = Some (as_fresh s) ∧ infoOk x info ∧ liveOwner s' (as_fresh s) = true).
Lemma not_holds_nil info : di_originals info = [] → ¬ holds info.
Proof using. intros E [b Hb]. by rewrite E in Hb. Qed.
Lemma holds_None info : ¬ holds info ↔ restoreAt x (di_originals info) = None.
Proof using. unfold holds. by rewrite eq_None_not_Some. Qed.
Lemma forgetNew_tables left s b : (∀ e, gb_previous b = Some e → allocOk x e) → TablesOnly x s (forgetNew left s b).
Proof using.
  intros Hb. unfold forgetNew. destruct (existsb _ _); [apply TablesOnly_refl|]. split; [done|split; [done|]]. intros Hk. destruct (gb_previous b) as [e|]; [|done]. destruct (bool_decide _); [done|].
  intros name e'. cbn. destruct (decide (name = gb_name b)) as [->|Hne]; [rewrite lookup_insert_eq; intros [= <-]; by apply Hb|rewrite lookup_insert_ne by done; apply Hk].
Qed.
Lemma forgetNews_tables left s l : Forall (λ b, ∀ e, gb_previous b = Some e → allocOk x e) l → TablesOnly x s (foldl (forgetNew left) s l).
Proof using.
  intros H. revert s. induction H as [|b l Hb H IH]; intros s; [apply TablesOnly_refl|]. cbn. eapply TablesOnly_trans; [by apply forgetNew_tables|apply IH].
Qed.
Lemma completeIn_live (ow : gmap nat Ownership) o o' : o' ≠ o → ow_complete <$> (completeIn ow (Some o) !! o') = ow_complete <$> (ow !! o').
Proof using. intros H. by rewrite completeIn_other. Qed.
Lemma liveOwner_iff s o : liveOwner s o = true ↔ ow_complete <$> (as_ownerships s !! o) = Some false.
Proof using. unfold liveOwner. destruct (as_ownerships s !! o) as [w|]; cbn; [|split; done]. destruct (ow_complete w); split; done. Qed.
(** The rollback: what it does not restore is left. *)
Lemma cleanup_ran m s a r s' : cleanup (ac_info a) (ac_asm a) = (r, s') → Ran m s a → patchesBelow s → ownersSane x s → Books s s' ∧ Left m s (ar_disableInfo r) s' ∧ (ar_success r = true → ar_disableInfo r = emptyInfo).
Proof using Hx.
  intros H HR Hp Hs. destruct (Ran_newest _ _ _ HR Hp) as (N1 & N2 & N3). destruct HR as [HB HR HO HN HF HL]. pose proof (bk_sane _ _ HB Hs) as Hsane.
  apply (cleanup_outcome x Hx) in H as (C1 & C2 & C3); [|apply HR|apply HR|done|intros w Hw; unfold ownershipOf in Hw; rewrite HO in Hw; cbn in Hw; rewrite HN in Hw; by injection Hw as <-].
  assert (Hlive : as_livePatches s' ∈ [as_livePatches (ac_asm a); liveOf (ac_asm a)] → as_livePatches s' = as_livePatches s ∨ as_livePatches s' = liveOf s).
  { rewrite !elem_of_cons, elem_of_nil. intros [E|[E|[]]]; rewrite E; [left; done|right]. by apply Books_live. }
  assert (Hsaved : restoreAt x (di_originals (ac_info a)) = None → memAt x (ac_asm a) = m) by (intros E; destruct (run_saved _ _ _ _ HR) as [[_ ?]|[_ ?]]; [done|congruence]).
  assert (HBk : ∀ (ow : gmap nat Ownership), as_ownerships s' = ow → (∀ o, o ≠ as_fresh s → option_Forall2 sameOwner (as_ownerships (ac_asm a) !! o) (ow !! o)) → (∀ o, is_Some (ow !! o) ↔ is_Some (as_ownerships (ac_asm a) !! o)) →
    map_Forall (λ _ w, overridesSane x (ow_restoreOverrides w)) ow → as_livePatches s' ∈ [as_livePatches (ac_asm a); liveOf (ac_asm a)] → Books s s').
  { intros ow Eow H1 H2 H3 H4. split; [done|intros _; unfold ownersSane; by rewrite Eow|lia| | |by apply Hlive].
    - intros Hb o w Ho. rewrite Eow in Ho. destruct (proj1 (H2 o) (mk_is_Some _ _ Ho)) as [w' Hw']. rewrite C1. by apply (bk_below _ _ HB Hb) in Hw'.
    - intros o Ho. rewrite Eow. eapply sameOwner_trans; [by apply (bk_owners _ _ HB)|]. apply H1. lia. }
  assert (Hrest : ∀ hs, RestoredAt x (ac_asm a) (ac_info a) s' hs → memAt x s' = m ∧ noHits x hs).
  { intros hs HRs. destruct (RestoredAt_cases _ _ _ _ HRs) as [[Hn [[E1 E2]|(b & E1 & E2 & _)]]|(b & o & _ & F & _)]; [right; right; by rewrite N1| | |by rewrite N1 in F]; split; [|done| |done].
    - rewrite E2. apply Hsaved. by rewrite <- N3.
    - rewrite N3 in E1. destruct (run_saved _ _ _ _ HR) as [[? _]|[_ ?]]; congruence. }
  destruct C3 as [r s' K1 K2 K3 K4 K5|r s' hs K1 K2 K3 K4 K5 K6 K7|r s' hs K1 K2 K3 K4 K5].
  - split; [eapply HBk; [exact K3|intros; apply sameOwners_refl|done|exact Hsane|done]|]. split; [|by rewrite K1]. rewrite K2. split_and!.
    + intros E%holds_None. rewrite K5 by (by rewrite N3). by apply Hsaved.
    + intros b Hb. destruct (run_saved _ _ _ _ HR) as [[? _]|[? ?]]; [congruence|]. split; [done|congruence].
    + right. split_and!; [done|apply HR|]. unfold liveOwner. by rewrite K3, HN.
  - destruct (Hrest _ K7) as [M1 M2]. split; [eapply HBk; [exact K5|intros; by apply deliverAll_same|intros; apply deliverAll_keys| |rewrite K6, N2; right; left]|].
    + apply deliverAll_sane; [|exact Hsane]. intros h Hh Hi. by destruct (proj1 (Forall_forall _ _) M2 h Hh).
    + split; [|by rewrite K1]. split_and!; [done|intros b Hb; by rewrite K2 in Hb|]. right. split_and!; [by rewrite K3|split; [rewrite K2; by apply Forall_nil|done]|]. apply liveOwner_iff. rewrite K5, deliverAll_complete, HN. done.
  - destruct (Hrest _ K5) as [M1 M2]. rewrite HO in K3. split; [eapply HBk; [exact K3| | | |rewrite K4, N2; right; left]|].
    + intros o Ho. rewrite completeIn_other by done. by apply deliverAll_same.
    + intros o. cbn. rewrite lookup_alter_is_Some. apply deliverAll_keys.
    + apply completeIn_sane, deliverAll_sane; [|exact Hsane]. intros h Hh Hi. by destruct (proj1 (Forall_forall _ _) M2 h Hh).
    + split; [|done]. rewrite K2. split_and!; [done|intros ? Hh; discriminate Hh|]. left. split; [done|]. by apply not_holds_nil.
Qed.
Lemma Left_tables m s info s' s'' : Left m s info s' → TablesOnly x s' s'' → Left m s info s''.
Proof using. intros (A1 & A2 & A3) ((V & W & _) & M & _). split_and!; [by rewrite M|done|]. unfold liveOwner in *. by rewrite W. Qed.
Lemma rollback_ran m s e a r s' : rollback e a = (r, s') → Ran m s a → patchesBelow s → ownersSane x s → ar_success r = false ∧ Books s s' ∧ Left m s (ar_disableInfo r) s'.
Proof using Hx.
  intros H HR Hp Hs. unfold rollback in H. destruct (cleanup _ _) as [restored s1] eqn:H1. apply (cleanup_ran m s) in H1 as (B1 & L1 & E1); [|done..].
  pose proof (forgetNews_tables (ar_disableInfo restored) s1 _ (run_blocks _ _ _ _ (ran_ok _ _ _ HR))) as HT. destruct (TablesOnly_Books _ _ HT) as [B2 M2].
  assert (B : Books s (foldl (forgetNew (ar_disableInfo restored)) s1 (ac_blocks a))) by by eapply Books_trans. pose proof (Left_tables _ _ _ _ _ L1 HT) as L2.
  destruct (ar_success restored); injection H as <- <-; (split; [done|split; [done|]]); cbn [ar_disableInfo]; [|done]. rewrite (E1 eq_refl) in L2 |- *. exact L2.
Qed.
(** A run that could not start, or failed, leaves the byte or what restores it. *)
Lemma run_cases undo script s r s' : run undo script s = (r, s') → okScript x may script → knownOk x s → patchesBelow s → ownersSane x s →
  (ar_success r = false ∧ Books s s' ∧ Left (memAt x s) s (ar_disableInfo r) s')
  ∨ ∃ a, Ran (memAt x s) s a ∧ match undo with Some _ => r = mkResult true [] (ac_info a) ∧ s' = ac_asm a | None => ∃ ending, r = mkResult true [] (ac_info (keepActivation ending a)) ∧ s' = ac_asm (keepActivation ending a) end.
Proof using Hx.
  intros H Hok Hk Hp Hs. apply run_ran in H as [(E1 & E2 & E3)|(a & HR & [[e H]|H])]; [left|left|right; by exists a|done..].
  - split_and!; [done|rewrite E3; apply newOwnership_books|]. rewrite E2, E3. split_and!; [done|intros ? Hh; discriminate Hh|]. right. split_and!; [done|split; by apply Forall_nil|]. unfold liveOwner. cbn. by rewrite lookup_insert_eq.
  - by eapply rollback_ran.
Qed.
End Running.

(** A [[DISABLE]] section that does not patch [x]. *)
Lemma section_run undo script s r s' : run (Some undo) script s = (r, s') → okScript x False script → knownOk x s → patchesBelow s → ownersSane x s →
  Books s s' ∧ memAt x s' = memAt x s ∧ (ar_success r = true → Forall (λ w, ¬ inside x (ob_address w) (len (ob_written w))) (di_originals (ar_disableInfo r))).
Proof using Hx.
  intros H Hok Hk Hp Hs. apply (run_cases False) in H as [(E1 & E2 & E3 & E4 & _)|(a & HR & -> & ->)]; [| |done..].
  - assert (Hn : ¬ holds (ar_disableInfo r)) by (intros [b Hb]; by destruct (E4 b Hb)). split; [done|split; [by apply E3|by rewrite E1]].
  - pose proof (ran_ok _ _ _ _ HR) as [_ _ _ H4 H5]. destruct H4 as [[H4 H4']|[[] _]]. split_and!; [by eapply ran_books|done|]. intros _. cbn. apply restoreAt_None in H4.
    rewrite Forall_forall in *. intros w Hw. rewrite H5 by done. by apply H4.
Qed.
(** A script that is enabled. *)
Lemma execute_cases script s r s' : execute script s = (r, s') → okScript x True script → knownOk x s → patchesBelow s → ownersSane x s →
  (ar_success r = false ∧ Books s s' ∧ Left True (memAt x s) s (ar_disableInfo r) s')
  ∨ ar_success r = true ∧ di_ownership (ar_disableInfo r) = Some (as_fresh s) ∧ infoOk x (ar_disableInfo r) ∧ Saved x True (memAt x s) s' (di_originals (ar_disableInfo r)) ∧ ∃ s1, Books s s1 ∧
    as_ownerships s1 !! as_fresh s = Some (mkOwnership false false []) ∧ (as_fresh s < as_fresh s1)%nat ∧
    (s' = s1 ∧ ¬ holds (ar_disableInfo r)
     ∨ ∃ l, s' = withLive s1 (liveOf s1 ++ [l]) ∧ lp_owner l = as_fresh s ∧ lp_pid l = tg_pid ∧ (overX x l ↔ holds (ar_disableInfo r))).
Proof using Hx.
  intros H Hok Hk Hp Hs. apply (run_cases True) in H as [?|(a & HR & ending & -> & ->)]; [by left|right|done..].
  destruct HR as [HB HR HO HN HF HL]. unfold keepActivation. rewrite HO. split; [done|]. destruct (bool_decide _) eqn:E; cbn [ar_disableInfo ac_info withInfo withAsm ac_asm di_ownership di_originals di_allocs].
  - apply bool_decide_eq_true in E. split; [done|split; [apply HR|split; [apply HR|]]]. exists (ac_asm a). split_and!; [done|done|done|left]. split; [done|]. by apply not_holds_nil.
  - split; [done|split; [apply HR|split; [apply HR|]]]. exists (ac_asm a). split_and!; [done|done|done|right]. eexists. split_and!; [reflexivity|done|done|].
    unfold overX, holds. cbn [lp_ranges di_originals]. rewrite restoreAt_Some, Exists_fmap, !Exists_exists. unfold covers, compose. cbn. split.
    + intros (p & Hp1 & Hp2). apply list_elem_of_filter in Hp1 as [_ Hp1]. by exists p.
    + intros (p & Hp1 & Hp2). exists p. split; [|done]. apply list_elem_of_filter. split; [|done]. apply len_positive. unfold inside in Hp2. lia.
Qed.

(** ** The invariant *)

Definition older (l l' : LivePatch) : Prop := (lp_owner l < lp_owner l')%nat.
(** Live scripts, oldest first, and those that are held match. *)
Record Inv (held : Held) s : Prop := {
  iv_known : knownOk x s;
  iv_sane : ownersSane x s;
  iv_below : ownersBelow s;
  iv_sorted : StronglySorted older (as_livePatches s);
  iv_patches : patchesBelow s;
  iv_pid : Forall (λ l, lp_pid l = tg_pid) (as_livePatches s);
  iv_held o info : held !! o = Some info → di_ownership info = Some o ∧ infoOk x info ∧ liveOwner s o = true ∧ (holds info → ∃ l, l ∈ liveOf s ∧ lp_owner l = o);
  iv_live l : l ∈ liveOf s → ∃ info, held !! lp_owner l = Some info ∧ (overX x l ↔ holds info)
}.
(** What the oldest script over [x] restores is the first byte; without one it is there. *)
Definition Value (m : Z) (held : Held) s : Prop :=
  match firstOver x (liveOf s) with None => memAt x s = m | Some o => ∃ info, held !! o = Some info ∧ effAt x s info = Some m end.

Lemma sorted_filter (P : LivePatch → Prop) `{∀ l, Decision (P l)} l : StronglySorted older l → StronglySorted older (filter P l).
Proof using. induction 1 as [|p l Hs IH Hp]; [constructor|]. rewrite filter_cons. destruct (decide (P p)); [|done]. constructor; [done|by apply filter_Forall]. Qed.
Lemma firstOver_elem live o : firstOver x live = Some o → ∃ l, l ∈ live ∧ overX x l ∧ lp_owner l = o.
Proof using. induction live as [|l live IH]; cbn [firstOver]; [done|]. destruct (decide (overX x l)) as [H|H]; [intros [= <-]; exists l; split; [by left|done]|]. intros (l' & ? & ?)%IH. exists l'. split; [by right|done]. Qed.
Lemma firstOver_app live live' : firstOver x (live ++ live') = match firstOver x live with Some o => Some o | None => firstOver x live' end.
Proof using. induction live as [|l live IH]; [done|]. cbn. by destruct (decide (overX x l)). Qed.
Lemma held_below held s o info : Inv held s → held !! o = Some info → (o < as_fresh s)%nat.
Proof using. intros HI Ho. apply (iv_held _ _ HI) in Ho as (_ & _ & Ho & _). apply liveOwner_iff in Ho. destruct (as_ownerships s !! o) as [w|] eqn:E; [|done]. by eapply iv_below. Qed.
Lemma live_below held s l : Inv held s → l ∈ liveOf s → (lp_owner l < as_fresh s)%nat.
Proof using. intros HI (info & H & _)%(iv_live _ _ HI). by eapply held_below. Qed.
Lemma books_owner s s' o : Books s s' → (o < as_fresh s)%nat → liveOwner s' o = liveOwner s o.
Proof using. intros HB Ho. unfold liveOwner. destruct (bk_owners _ _ HB _ Ho) as [w w' [Hc _]|]; [by rewrite Hc|done]. Qed.
Lemma effAt_owner s s' info o : di_ownership info = Some o → option_Forall2 sameOwner (as_ownerships s !! o) (as_ownerships s' !! o) → effAt x s' info = effAt x s info.
Proof using.
  intros Ho HB. unfold effAt, overridesOf, ownershipOf. rewrite Ho. cbn [mbind option_bind]. destruct HB as [w w' [_ Hw]|]; [|done]. destruct (restoreAt x _); [|done]. cbn. by rewrite Hw.
Qed.
Lemma Inv_books held s s' : Inv held s → Books s s' → Inv held s'.
Proof using.
  intros HI HB. pose proof (Books_live _ _ HB (iv_patches _ _ HI)) as EL. split.
  - apply (bk_known _ _ HB), HI.
  - apply (bk_sane _ _ HB), HI.
  - apply (bk_below _ _ HB), HI.
  - destruct (bk_patches _ _ HB) as [E|E]; rewrite E; [|apply sorted_filter]; apply HI.
  - eapply Books_patchesBelow; [exact HB|apply HI].
  - destruct (bk_patches _ _ HB) as [E|E]; rewrite E; [|apply filter_Forall]; apply HI.
  - intros o info Ho. rewrite EL. pose proof (held_below _ _ _ _ HI Ho). apply (iv_held _ _ HI) in Ho as (H1 & H2 & H3 & H4). split_and!; try done. by rewrite (books_owner _ _ _ HB).
  - rewrite EL. apply HI.
Qed.
Lemma Value_books m held s s' : Inv held s → Books s s' → (firstOver x (liveOf s) = None → memAt x s' = memAt x s) → Value m held s → Value m held s'.
Proof using.
  intros HI HB HM. unfold Value. rewrite (Books_live _ _ HB (iv_patches _ _ HI)). destruct (firstOver x (liveOf s)) as [o|]; [|by rewrite HM]. intros (info & Ho & He). exists info. split; [done|].
  rewrite <- He. apply (effAt_owner _ _ _ o); [by apply (iv_held _ _ HI)|]. apply (bk_owners _ _ HB). by eapply held_below.
Qed.

(** ** Enabling *)

Lemma Inv_insert held s info o : Inv held s → held !! o = None → di_ownership info = Some o → infoOk x info → liveOwner s o = true → ¬ holds info → Inv (<[o := info]> held) s.
Proof using.
  intros HI Hn Ho Hi Hl Hh. destruct HI as [I1 I2 I3 I4 I5 I6 I7 I8]. split; try done.
  - intros o' info'. destruct (decide (o' = o)) as [->|Hne]; [rewrite lookup_insert_eq; intros [= <-]; by split_and!|rewrite lookup_insert_ne by done; apply I7].
  - intros l Hl'. destruct (I8 l Hl') as (info' & H1 & H2). exists info'. split; [|done]. rewrite lookup_insert_ne; [done|]. intros ->. congruence.
Qed.
Lemma Value_insert m held s info o : held !! o = None → Value m held s → Value m (<[o := info]> held) s.
Proof using. intros Hn. unfold Value. destruct (firstOver x (liveOf s)) as [o'|]; [|done]. intros (info' & Ho & He). exists info'. split; [|done]. rewrite lookup_insert_ne; [done|]. intros ->. congruence. Qed.
(** A failed script changes nothing. *)
Lemma enable_failed m held s s' info : Inv held s → Value m held s → Books s s' → Left True (memAt x s) s info s' → ¬ holds info → Inv (keep held info) s' ∧ Value m (keep held info) s'.
Proof using.
  intros HI HV HB (L1 & _ & L2) Hh. assert (Hn : held !! as_fresh s = None). { destruct (held !! as_fresh s) as [i|] eqn:E; [|done]. apply (held_below _ _ _ _ HI) in E. lia. }
  assert (HI' : Inv held s') by by eapply Inv_books. assert (HV' : Value m held s') by exact (Value_books m held s s' HI HB (λ _, L1 Hh) HV).
  unfold keep. destruct L2 as [[Ho _]|(Ho & Hok & Hlive)]; rewrite Ho; [done|]. split; [by apply Inv_insert|by apply Value_insert].
Qed.
(** A script that is enabled is the newest. *)
Lemma liveOf_app s1 s l : patchesBelow s1 → liveOwner s1 (lp_owner l) = true → s = withLive s1 (liveOf s1 ++ [l]) → liveOf s = liveOf s1 ++ [l].
Proof using.
  intros Hp Hl ->. unfold liveOf at 1. cbn [as_livePatches withLive]. rewrite filter_app. f_equal; [by apply list_filter_filter_l|].
  rewrite filter_cons, decide_True by by apply Is_true_true. done.
Qed.
Lemma Inv_newest held s info o l s' : Inv held s → held !! o = None → s' = withLive s (liveOf s ++ [l]) → lp_owner l = o → lp_pid l = tg_pid → (∀ l', l' ∈ liveOf s → (lp_owner l' < o)%nat) →
  di_ownership info = Some o → infoOk x info → liveOwner s o = true → (overX x l ↔ holds info) → Inv (<[o := info]> held) s'.
Proof using.
  intros HI Hn Es Hlo Hpid Hnew Ho Hi Hl Hh. assert (EL : liveOf s' = liveOf s ++ [l]) by (apply liveOf_app; [apply HI|by rewrite Hlo|done]). assert (Hb : (o < as_fresh s)%nat).
  { apply liveOwner_iff in Hl. destruct (as_ownerships s !! o) as [w|] eqn:E; [|done]. by eapply (iv_below _ _ HI). }
  destruct HI as [I1 I2 I3 I4 I5 I6 I7 I8]. subst s'. split; try done.
  - cbn. apply StronglySorted_app. split_and!; [|by apply sorted_filter|repeat constructor]. intros l1 l2 H1 ->%list_elem_of_singleton. unfold older. rewrite Hlo. by apply Hnew.
  - unfold patchesBelow. cbn. apply Forall_app. split; [by apply filter_Forall|]. apply Forall_singleton. by rewrite Hlo.
  - cbn. apply Forall_app. split; [by apply filter_Forall|]. by apply Forall_singleton.
  - intros o' info'. rewrite EL. destruct (decide (o' = o)) as [->|Hne].
    + rewrite lookup_insert_eq. intros [= <-]. split; [done|split; [done|split; [done|]]]. intros _. exists l. split; [apply elem_of_app; right; by left|done].
    + rewrite lookup_insert_ne by done. intros (A1 & A2 & A3 & A4)%I7. split; [done|split; [done|split; [done|]]]. intros (l' & ? & ?)%A4. exists l'. split; [apply elem_of_app; by left|done].
  - intros l'. rewrite EL. intros [Hl'|Hl'%list_elem_of_singleton]%elem_of_app.
    + destruct (I8 l' Hl') as (info' & H1 & H2). exists info'. split; [|done]. rewrite lookup_insert_ne; [done|]. intros ->. congruence.
    + subst l'. exists info. rewrite Hlo, lookup_insert_eq. done.
Qed.
Lemma enable_step m held s script r s' : Inv held s → Value m held s → execute script s = (r, s') → okScript x True script → (ar_success r = false → ¬ holds (ar_disableInfo r)) →
  Inv (keep held (ar_disableInfo r)) s' ∧ Value m (keep held (ar_disableInfo r)) s'.
Proof using Hx.
  intros HI HV H Hok Hf. apply execute_cases in H as [(E1 & E2 & E3)|(E1 & E2 & E3 & E4 & s1 & B1 & N1 & F1 & Hs1)]; [| |done|apply HI..]; [by apply (enable_failed m held s s'); auto|].
  set (info := ar_disableInfo r) in *. set (o := as_fresh s) in *. assert (Hn : held !! o = None). { destruct (held !! o) as [i|] eqn:E; [|done]. apply (held_below _ _ _ _ HI) in E. unfold o in E. lia. }
  pose proof (Inv_books _ _ _ HI B1) as HI1. pose proof (Books_live _ _ B1 (iv_patches _ _ HI)) as EL. assert (Hlive : liveOwner s1 o = true) by (unfold liveOwner; by rewrite N1).
  unfold keep. rewrite E2. destruct Hs1 as [[-> Hh]|(l & Es & Hlo & Hpid & Hover)].
  - split; [by apply Inv_insert|]. apply Value_insert; [done|]. apply (Value_books m held s); try done. destruct E4 as [[_ ?]|[_ E4]]; [done|]. by rewrite holds_None, E4 in Hh.
  - split; [eapply Inv_newest; try done; intros l' Hl'; rewrite EL in Hl'; by eapply live_below|].
    assert (EL' : liveOf s' = liveOf s ++ [l]) by (rewrite <- EL; apply liveOf_app; [apply HI1|by rewrite Hlo|done]). unfold Value in *. rewrite EL', firstOver_app. destruct (firstOver x (liveOf s)) as [o1|] eqn:F.
    + destruct HV as (info1 & Ho1 & He1). exists info1. split; [rewrite lookup_insert_ne; [done|intros <-; congruence]|]. rewrite <- He1. apply (effAt_owner _ _ _ o1); [by apply (iv_held _ _ HI)|].
      rewrite Es. apply (bk_owners _ _ B1). by eapply held_below.
    + cbn [firstOver]. destruct (decide (overX x l)) as [Hd|Hd].
      * rewrite Hlo. exists info. rewrite lookup_insert_eq. split; [done|]. apply Hover in Hd. destruct E4 as [[E4 _]|[_ E4]]; [by apply holds_None in E4|].
        unfold effAt, overridesOf, ownershipOf. rewrite E2, E4, Es. cbn. rewrite N1, HV. done.
      * rewrite Hover in Hd. destruct E4 as [[_ E4]|[_ E4]]; [congruence|]. by rewrite holds_None, E4 in Hd.
Qed.

(** ** Disabling *)

Lemma deliver_books s hs : noHits x hs → Books s (foldl deliver s hs) ∧ memAt x (foldl deliver s hs) = memAt x s.
Proof using.
  intros Hn. destruct (deliverAll_frame hs s) as (V & W & F & K & M). split; [|unfold memAt; by rewrite M]. split.
  - unfold knownOk. by rewrite K.
  - unfold ownersSane. rewrite W. apply deliverAll_sane. intros h Hh Hi. by destruct (proj1 (Forall_forall _ _) Hn h Hh).
  - lia.
  - intros H o w. rewrite W, F. intros Ho%mk_is_Some. apply deliverAll_keys in Ho as [w' Ho]. by eapply H.
  - intros o _. rewrite W. by apply deliverAll_same.
  - by left.
Qed.
Lemma keepWritten_deliver info o s saved l : di_ownership info = Some o →
  foldl (keepWritten info) (s, saved) l = (foldl deliver s ((λ w, mkHandover o (ob_address w) (ob_written w)) <$> l), saved).
Proof using. intros Ho. revert s. induction l as [|w l IH]; intros s; [done|]. cbn [foldl fmap list_fmap]. unfold keepWritten at 2. rewrite Ho. cbn [fst snd]. apply IH. Qed.
Lemma section_step held s o info section saved e saved' s' : Inv held s → held !! o = Some info → runDisableSection section info saved s = (e, saved', s') → default True (okScript x False <$> section) →
  Books s s' ∧ memAt x s' = memAt x s ∧ saved' = saved.
Proof using Hx.
  intros HI Ho H Hok. assert (Same : Books s s ∧ memAt x s = memAt x s ∧ saved = saved) by (split; [apply Books_refl|done]). unfold runDisableSection in H. destruct section as [script|]; [|by injection H as <- <- <-].
  destruct (match ownershipOf s info with Some w => _ | None => _ end); [by injection H as <- <- <-|]. destruct (match di_image info with Some im => _ | None => _ end); [by injection H as <- <- <-|]. cbn zeta in H.
  destruct (codeOwnershipConflict _ _ _); [by injection H as <- <- <-|]. clear Same. destruct (run (Some info) script s) as [r s1] eqn:H1. apply section_run in H1 as (B1 & M1 & W1); [|done|apply HI..].
  destruct (ar_success r); [|destruct (_ && _ && _); injection H as <- <- <-; by split_and!]. specialize (W1 eq_refl).
  rewrite (keepWritten_deliver _ o) in H by by apply (iv_held _ _ HI). injection H as <- <- <-. destruct (deliver_books s1 ((λ w, mkHandover o (ob_address w) (ob_written w)) <$> di_originals (ar_disableInfo r))) as [B2 M2].
  { apply Forall_fmap. eapply Forall_impl; [exact W1|]. intros w Hw. exact Hw. }
  split; [|split; [congruence|done]]. eapply Books_trans; [apply HI|done|done].
Qed.
Lemma firstOver_filter (P : LivePatch → Prop) `{∀ l, Decision (P l)} live : (∀ l, l ∈ live → overX x l → P l) → firstOver x (filter P live) = firstOver x live.
Proof using.
  induction live as [|l live IH]; intros HP; [done|]. rewrite filter_cons. cbn [firstOver]. assert (IH' := IH ltac:(intros l' Hl'; apply HP; by right)). destruct (decide (overX x l)) as [Hl|Hl].
  - rewrite decide_True by (apply HP; [by left|done]). cbn [firstOver]. by rewrite decide_True.
  - destruct (decide (P l)); [|done]. cbn [firstOver]. by rewrite decide_False.
Qed.
Lemma filter_every (P : LivePatch → Prop) `{∀ l, Decision (P l)} (live : list LivePatch) : (∀ l, l ∈ live → P l) → filter P live = live.
Proof using. induction live as [|l live IH]; intros HP; [done|]. rewrite filter_cons, decide_True by (apply HP; by left). f_equal. apply IH. intros l' Hl'. apply HP. by right. Qed.
(** The script among the live ones. *)
Lemma live_cases held s o info : Inv held s → held !! o = Some info →
  ¬ holds info ∧ firstOver x (liveAfter s info) = firstOver x (liveOf s)
  ∨ holds info ∧ ∃ k1 l k2, liveOf s = k1 ++ l :: k2 ∧ overX x l ∧ lp_owner l = o ∧ liveAfter s info = k1 ++ k2 ∧ firstOver x (newerOf s info) = firstOver x k2 ∧ Forall (λ l', older l' l) k1 ∧ Forall (older l) k2.
Proof using.
  intros HI Ho. destruct (iv_held _ _ HI _ _ Ho) as (How & _ & _ & Hl). unfold liveAfter. rewrite How. destruct (decide (Exists (covers x) (di_originals info))) as [Hh|Hh]; rewrite <- restoreAt_Some in Hh; fold (holds info) in Hh.
  - right. split; [done|]. destruct (Hl Hh) as (l & Hl1 & Hl2). destruct (iv_live _ _ HI _ Hl1) as (info' & Hi1 & Hi2). rewrite Hl2, Ho in Hi1. injection Hi1 as <-.
    pose proof (sorted_filter (λ l, liveOwner s (lp_owner l)) _ (iv_sorted _ _ HI)) as Hs. fold (liveOf s) in Hs. apply list_elem_of_split in Hl1 as (k1 & k2 & E). rewrite E in Hs. apply StronglySorted_app in Hs as (S1 & S2 & S3).
    apply StronglySorted_cons in S3 as [S3 S4]. assert (K1 : Forall (λ l', older l' l) k1) by (apply Forall_forall; intros l' Hl'; apply S1; [done|by left]).
    exists k1, l, k2. split_and!; try done; [by apply Hi2| |].
    + rewrite E, filter_app, filter_cons, decide_False by (intros Hne; done). f_equal; apply filter_every; intros l' Hl'; (eapply Forall_forall in Hl'; [|eassumption]); unfold older in Hl'; lia.
    + unfold newerOf. rewrite How. cbn [mbind option_bind]. unfold newerThan. assert (Ef : list_find (λ l, lp_owner l = o) (liveOf s) = Some (length k1, l)).
      { rewrite E. apply list_find_Some. split_and!; [by apply list_lookup_middle|done|]. intros j l' Hj Hlt. rewrite lookup_app_l in Hj by done. apply list_elem_of_lookup_2 in Hj. eapply Forall_forall in Hj; [|exact K1]. unfold older in Hj. cbn in Hj. lia. }
      rewrite Ef. cbn [mbind option_bind default fst]. rewrite E, cons_middle, app_assoc, drop_app_length' by (rewrite length_app; cbn; lia). apply firstOver_filter. intros l' Hl' Hov. apply Is_true_true, andb_true_iff. split; [apply andb_true_iff; split|].
      * apply Z.eqb_eq. assert (Hin : l' ∈ liveOf s) by (rewrite E; apply elem_of_app; right; by right). apply list_elem_of_filter in Hin as [_ Hin]. by apply (proj1 (Forall_forall _ _) (iv_pid _ _ HI)).
      * unfold imageUsable. destruct (lp_image l'); [|done]. by rewrite image_live.
      * apply negb_true_iff, bool_decide_eq_false. intros En. unfold overX in Hov. rewrite En in Hov. by apply Exists_nil in Hov.
  - left. split; [done|]. apply firstOver_filter. intros l Hl1 Hov Heq. destruct (iv_live _ _ HI _ Hl1) as (info' & Hi1 & Hi2). rewrite Heq, Ho in Hi1. injection Hi1 as <-. by apply Hi2 in Hov.
Qed.

(** The state after the bytes of [o] are back: [o] is not live any more. *)
Record After s o info (held' : Held) hs s' : Prop := {
  af_known : knownOk x s';
  af_fresh : as_fresh s' = as_fresh s;
  af_live : as_livePatches s' = liveAfter s info;
  af_owners o' : o' ≠ o → as_ownerships s' !! o' = foldl deliverTo (as_ownerships s) hs !! o';
  af_keys : is_Some (as_ownerships s' !! o) → is_Some (as_ownerships s !! o);
  af_sane : ownersSane x s';
  af_held : held' !! o = None ∨ ∃ info', held' !! o = Some info' ∧ di_ownership info' = Some o ∧ infoOk x info' ∧ ¬ holds info' ∧ liveOwner s' o = true
}.
Lemma after_owner s o info held' hs s' o' : After s o info held' hs s' → o' ≠ o → liveOwner s' o' = liveOwner s o'.
Proof using.
  intros HA Ho. pose proof (deliverAll_complete hs (as_ownerships s) o') as H. unfold liveOwner. rewrite (af_owners _ _ _ _ _ _ HA _ Ho).
  destruct (foldl deliverTo (as_ownerships s) hs !! o') as [w|], (as_ownerships s !! o') as [w'|]; try done. cbn in H. injection H as H. by rewrite H.
Qed.
Lemma after_live held s o info held' hs s' : Inv held s → held !! o = Some info → After s o info held' hs s' → liveOf s' = liveAfter s info ∧ ∀ l, l ∈ liveOf s' ↔ l ∈ liveOf s ∧ lp_owner l ≠ o.
Proof using.
  intros HI Ho HA. assert (E : ∀ l, l ∈ liveAfter s info ↔ l ∈ liveOf s ∧ lp_owner l ≠ o) by (intros l; unfold liveAfter; rewrite (proj1 (iv_held _ _ HI _ _ Ho)), list_elem_of_filter; tauto).
  assert (EL : liveOf s' = liveAfter s info); [|by rewrite EL]. unfold liveOf at 1. rewrite (af_live _ _ _ _ _ _ HA). apply filter_every. intros l [Hl Hne]%E.
  rewrite (after_owner _ _ _ _ _ _ _ HA Hne). by apply list_elem_of_filter in Hl as [? _].
Qed.
Lemma Inv_after held s o info held' hs s' : Inv held s → held !! o = Some info → After s o info held' hs s' → (∀ o', o' ≠ o → held' !! o' = held !! o') → Inv held' s'.
Proof using.
  intros HI Ho HA He. destruct (after_live _ _ _ _ _ _ _ HI Ho HA) as [_ EL]. assert (Hsub : ∀ P : LivePatch → Prop, Forall P (as_livePatches s) → Forall P (as_livePatches s')).
  { intros P HP. rewrite (af_live _ _ _ _ _ _ HA). unfold liveAfter. rewrite (proj1 (iv_held _ _ HI _ _ Ho)). by apply filter_Forall, filter_Forall. }
  split; [by eapply af_known|by eapply af_sane| | | |by apply Hsub, HI| |].
  - intros o' w Hw. rewrite (af_fresh _ _ _ _ _ _ HA). destruct (decide (o' = o)) as [->|Hne]; [by eapply held_below|]. rewrite (af_owners _ _ _ _ _ _ HA _ Hne) in Hw. apply mk_is_Some, deliverAll_keys in Hw as [w' Hw]. by apply (iv_below _ _ HI) in Hw.
  - rewrite (af_live _ _ _ _ _ _ HA). unfold liveAfter. rewrite (proj1 (iv_held _ _ HI _ _ Ho)). apply sorted_filter, sorted_filter, HI.
  - unfold patchesBelow. rewrite (af_fresh _ _ _ _ _ _ HA). apply Hsub, HI.
  - intros o' info' Hi. destruct (decide (o' = o)) as [->|Hne].
    + destruct (af_held _ _ _ _ _ _ HA) as [Hn|(info1 & H1 & H2 & H3 & H4 & H5)]; [congruence|]. rewrite Hi in H1. injection H1 as <-. split_and!; try done; by apply H3.
    + rewrite He in Hi by done. apply (iv_held _ _ HI) in Hi as (H1 & H2 & H3 & H4). split; [done|split; [done|split]]; [by rewrite (after_owner _ _ _ _ _ _ _ HA Hne)|]. intros (l & Hl & Hlo)%H4. exists l. split; [|done]. apply EL. by rewrite Hlo.
  - intros l [Hl Hne]%EL. rewrite He by done. by apply (iv_live _ _ HI).
Qed.
(** The byte, or what is restored there, after the bytes of [o] are back. *)
Lemma Value_after m held s o info held' hs s' : Inv held s → Value m held s → held !! o = Some info → After s o info held' hs s' → (∀ o', o' ≠ o → held' !! o' = held !! o') →
  RestoredAt x s info s' hs → isData x (di_originals info) ∨ effAt x s info = None ∨ firstOver x (newerOf s info) = None → Value m held' s'.
Proof using.
  intros HI HV Ho HA He HR Hd. destruct (after_live _ _ _ _ _ _ _ HI Ho HA) as [EL EL']. apply RestoredAt_cases in HR; [|done].
  assert (Other : ∀ o' info', o' ≠ o → held !! o' = Some info' → effAt x s info' = Some m → (∀ h, h ∈ hs → hits x h → ho_to h ≠ o') → ∃ info', held' !! o' = Some info' ∧ effAt x s' info' = Some m).
  { intros o' info' Hne Hi Heff Hh. exists info'. rewrite He by done. split; [done|]. rewrite <- Heff. apply (effAt_owner _ _ _ o'); [by apply (iv_held _ _ HI)|]. rewrite (af_owners _ _ _ _ _ _ HA _ Hne).
    clear - Hh. revert Hh. generalize (as_ownerships s). induction hs as [|h hs IH]; intros ow Hh; [apply sameOwners_refl|]. cbn. eapply sameOwner_trans; [|apply IH; intros h' Hh'; apply Hh; by right].
    destruct (decide (hits x h)) as [Hi|Hi]; [|by apply deliverTo_same]. unfold deliverTo. rewrite lookup_alter_ne by (apply Hh; [by left|done]). apply sameOwners_refl. }
  unfold Value in *. rewrite EL. destruct (live_cases _ _ _ _ HI Ho) as [[Hh F]|(Hh & k1 & l & k2 & E & Hov & Hlo & EA & EN & K1 & K2)].
  - rewrite F. destruct HR as [[Hn [[_ M]|(b & Eb & _)]]|(b & o1 & Eb & _)]; [|unfold effAt in Eb; apply holds_None in Hh; by rewrite Hh in Eb..].
    destruct (firstOver x (liveOf s)) as [o1|] eqn:F1; [|congruence]. destruct HV as (info1 & Hi1 & He1). apply (Other o1 info1); try done.
    + intros ->. rewrite Hi1 in Ho. injection Ho as ->. unfold effAt in He1. apply holds_None in Hh. by rewrite Hh in He1.
    + intros h Hh1 Hh2. by destruct (proj1 (Forall_forall _ _) Hn h Hh1).
  - rewrite EA, firstOver_app. rewrite E, firstOver_app in HV. cbn [firstOver] in HV. rewrite (decide_True _ _ Hov) in HV. rewrite EN in HR. destruct (firstOver x k1) as [o1|] eqn:F1.
    + destruct HV as (info1 & Hi1 & He1). apply firstOver_elem in F1 as (l1 & Hl1 & _ & Hlo1). rewrite Forall_forall in K1, K2. apply K1 in Hl1. unfold older in Hl1.
      apply (Other o1 info1); [lia|done|done|]. intros h Hh1 Hh2. destruct HR as [[Hn _]|(b & o2 & _ & F2 & Hg & _)]; [by destruct (proj1 (Forall_forall _ _) Hn h Hh1)|].
      destruct (Hg h Hh1 Hh2) as [-> _]. apply firstOver_elem in F2 as (l2 & Hl2 & _ & Hlo2). apply K2 in Hl2. unfold older in Hl2. lia.
    + destruct HV as (info1 & Hi1 & He1). rewrite Hlo, Ho in Hi1. injection Hi1 as <-.
      destruct HR as [[Hn [[Eb _]|(b & Eb & M & F2)]]|(b & o2 & Eb & F2 & Hg & Hex)]; [congruence|rewrite F2; congruence|]. rewrite F2. rewrite Eb in He1. injection He1 as ->.
      apply firstOver_elem in F2 as (l2 & Hl2 & Hov2 & Hlo2). assert (Hin : l2 ∈ liveOf s) by (rewrite E; apply elem_of_app; right; by right). destruct (iv_live _ _ HI _ Hin) as (info2 & Hi2 & Hh2). apply Hh2 in Hov2. rewrite Hlo2 in Hi2.
      assert (Hne : o2 ≠ o) by (rewrite Forall_forall in K2; apply K2 in Hl2; unfold older in Hl2; lia). exists info2. rewrite He by done. split; [done|].
      destruct Hov2 as [c Hc]. destruct (iv_held _ _ HI _ _ Hi2) as (How & _ & _ & _). unfold effAt, overridesOf, ownershipOf. rewrite How, Hc. cbn [mbind option_bind fmap option_fmap option_map]. rewrite (af_owners _ _ _ _ _ _ HA _ Hne).
      destruct (foldl deliverTo (as_ownerships s) hs !! o2) as [w|] eqn:Ew.
      * destruct (deliverAll_gives hs (as_ownerships s) o2 m c) with (w := w) as (w0 & _ & ->); [|done|by rewrite decide_True]. intros h Hh1 Hi1. destruct (Hg h Hh1 Hi1) as [? [? _]]. done.
      * destruct (iv_held _ _ HI _ _ Hi2) as (_ & _ & Hlive & _). apply liveOwner_iff in Hlive. destruct (as_ownerships s !! o2) as [w|] eqn:Ew'; [|done]. assert (Hs : is_Some (foldl deliverTo (as_ownerships s) hs !! o2)) by (apply deliverAll_keys; by rewrite Ew'). rewrite Ew in Hs. by destruct Hs.
Qed.
Lemma holds_over held s o info : Inv held s → held !! o = Some info → holds info → is_Some (firstOver x (liveOf s)).
Proof using.
  intros HI Ho Hh. destruct (iv_held _ _ HI _ _ Ho) as (_ & _ & _ & Hl). destruct (Hl Hh) as (l & Hl1 & Hlo). destruct (iv_live _ _ HI _ Hl1) as (info' & Hi & Hov). rewrite Hlo, Ho in Hi. injection Hi as <-.
  apply firstOver_Some, Exists_exists. exists l. split; [done|]. by apply Hov.
Qed.
Lemma mayUndo_newer held s o info : Inv held s → held !! o = Some info → mayUndo held s o info →
  (isData x (di_originals info) ∨ effAt x s info = None ∨ firstOver x (newerOf s info) = None) ∨ patchedOver x s info.
Proof using.
  intros HI Ho [Hd|[Hn|Hc]]; [by left; left|left; right|by right]. destruct (live_cases _ _ _ _ HI Ho) as [[Hh _]|(_ & k1 & l & k2 & E & _ & Hlo & _ & EN & _ & K2)]; [left; apply holds_None in Hh; unfold effAt; by rewrite Hh|right].
  rewrite EN. destruct (firstOver x k2) as [o2|] eqn:F; [|done]. apply firstOver_elem in F as (l2 & Hl2 & Hov & Hlo2). assert (Hin : l2 ∈ liveOf s) by (rewrite E; apply elem_of_app; right; by right).
  destruct (iv_live _ _ HI _ Hin) as (info2 & Hi2 & Hov2). rewrite Forall_forall in K2. apply K2 in Hl2. unfold older in Hl2. rewrite Hlo in Hl2. exfalso. by eapply Hn; [exact Hi2|exact Hl2|apply Hov2].
Qed.
(** [cleanup] of a held script. *)
Lemma cleanup_step m held s o info r s' : Inv held s → Value m held s → held !! o = Some info → mayUndo held s o info → cleanup info s = (r, s') →
  let held' := if ar_success r then delete o held else <[o := ar_disableInfo r]> held in Inv held' s' ∧ Value m held' s'.
Proof using Hx.
  intros HI HV Ho Hm H. destruct (iv_held _ _ HI _ _ Ho) as (How & Hok & Hlive & _). apply liveOwner_iff in Hlive. destruct (mayUndo_newer _ _ _ _ HI Ho Hm) as [Hm'|Hc].
  2:{ apply (cleanup_refused x Hx) in H as [-> [e ->]]; [cbn; by rewrite insert_id|done| | |done].
      - unfold overridesOf, ownershipOf. rewrite How. cbn [mbind option_bind]. destruct (as_ownerships s !! o) as [w|] eqn:E; [|by apply Forall_nil]. by eapply (iv_sane _ _ HI).
      - intros (w & Hw & Hwc). unfold ownershipOf in Hw. rewrite How in Hw. cbn [mbind option_bind] in Hw. rewrite Hw in Hlive. cbn in Hlive. congruence. }
  clear Hm. rename Hm' into Hm.
  apply (cleanup_outcome x Hx) in H as (C1 & C2 & C3); [|done|apply HI..|intros w Hw; unfold ownershipOf in Hw; rewrite How in Hw; cbn in Hw; rewrite Hw in Hlive; by injection Hlive].
  assert (Done : ∀ held' hs, After s o info held' hs s' → (∀ o', o' ≠ o → held' !! o' = held !! o') → RestoredAt x s info s' hs → Inv held' s' ∧ Value m held' s') by (intros held' hs HA He HR; split; [by eapply Inv_after|by eapply Value_after]).
  assert (Sane : ∀ hs, RestoredAt x s info s' hs → map_Forall (λ _ w, overridesSane x (ow_restoreOverrides w)) (foldl deliverTo (as_ownerships s) hs)) by (intros hs HR; apply deliverAll_sane; [by eapply RestoredAt_sane|apply HI]).
  destruct C3 as [r s' K1 K2 K3 K4 K5|r s' hs K1 K2 K3 K4 K5 K6 K7|r s' hs K1 K2 K3 K4 K5]; cbn zeta; rewrite K1.
  - rewrite K2, insert_id by done. assert (HB : Books s s').
    { split; [done|unfold ownersSane; by rewrite K3|lia|unfold ownersBelow; by rewrite K3, C1|intros; rewrite K3; apply sameOwners_refl|]. apply elem_of_cons in K4 as [K4|K4%list_elem_of_singleton]; [by left|by right]. }
    split; [by eapply Inv_books|]. eapply Value_books; [exact HI|exact HB| |done]. intros F. apply K5. unfold effAt. destruct (restoreAt x (di_originals info)) eqn:E; [|done]. destruct (holds_over _ _ _ _ HI Ho); [unfold holds; by rewrite E|congruence].
  - apply (Done _ hs); [|intros; by rewrite lookup_insert_ne|done]. split; [done|done|done|by intros; rewrite K5|by rewrite K5, deliverAll_keys|unfold ownersSane; rewrite K5; auto|].
    right. exists (ar_disableInfo r). rewrite lookup_insert_eq. split; [done|]. split; [by rewrite K3|]. split; [split; [rewrite K2; by apply Forall_nil|done]|]. split; [by apply not_holds_nil|]. apply liveOwner_iff. by rewrite K5, deliverAll_complete.
  - rewrite How in K3. apply (Done _ hs); [|intros; by rewrite lookup_delete_ne|done]. split; [done|done|done| | | |left; apply lookup_delete_eq].
    + intros o' Hne. rewrite K3. by apply completeIn_other.
    + rewrite K3. cbn. by rewrite lookup_alter_is_Some, deliverAll_keys.
    + unfold ownersSane. rewrite K3. apply completeIn_sane. auto.
Qed.
Lemma Inv_replace m held s o info info' : Inv held s → Value m held s → held !! o = Some info → di_originals info' = di_originals info → di_allocs info' = di_allocs info → di_ownership info' = di_ownership info →
  Inv (<[o := info']> held) s ∧ Value m (<[o := info']> held) s.
Proof using.
  intros HI HV Ho E1 E2 E3. assert (EH : holds info' ↔ holds info) by (unfold holds; by rewrite E1). split.
  - destruct HI as [I1 I2 I3 I4 I5 I6 I7 I8]. split; try done.
    + intros o' info1. destruct (decide (o' = o)) as [->|Hne]; [rewrite lookup_insert_eq; intros [= <-]; apply I7 in Ho as (A1 & [A2 A2'] & A3 & A4)|rewrite lookup_insert_ne by done; apply I7].
      split; [congruence|split; [split; congruence|split; [done|]]]. intros Hh. by apply A4, EH.
    + intros l Hl. destruct (I8 l Hl) as (info1 & H1 & H2). destruct (decide (lp_owner l = o)) as [E|Hne]; [|exists info1; by rewrite lookup_insert_ne].
      rewrite E, Ho in H1. injection H1 as <-. exists info'. rewrite E, lookup_insert_eq. split; [done|]. by rewrite EH.
  - unfold Value in *. destruct (firstOver x (liveOf s)) as [o1|]; [|done]. destruct HV as (info1 & H1 & H2). destruct (decide (o1 = o)) as [->|Hne]; [|exists info1; by rewrite lookup_insert_ne].
    rewrite Ho in H1. injection H1 as <-. exists info'. rewrite lookup_insert_eq. split; [done|]. unfold effAt, overridesOf, ownershipOf in *. by rewrite E1, E3.
Qed.
(** What the [[DISABLE]] section does elsewhere changes none of this. *)
Lemma overridesOf_books held s s' o info b : Inv held s → held !! o = Some info → Books s s' → overrideAt x b (overridesOf s' info) = overrideAt x b (overridesOf s info).
Proof using.
  intros HI Ho HB. pose proof (bk_owners _ _ HB o ltac:(by eapply held_below)) as H. unfold overridesOf, ownershipOf. rewrite (proj1 (iv_held _ _ HI _ _ Ho)). cbn [mbind option_bind].
  destruct H as [w w' [_ Hw]|]; [by rewrite Hw|done].
Qed.
Lemma mayUndo_books held s s' o info : Inv held s → held !! o = Some info → Books s s' → memAt x s' = memAt x s → mayUndo held s o info → mayUndo held s' o info.
Proof using.
  intros HI Ho HB HM [Hd|[Hn|[Hex Hall]]]; [by left|by right; left|]. right; right. split; [done|]. rewrite HM. eapply Forall_impl; [exact Hall|]. intros p Hp Hc b Hb. rewrite (overridesOf_books _ _ _ _ _ _ HI Ho HB). by apply Hp.
Qed.
Lemma disable_step m held s o info section r s' : Inv held s → Value m held s → held !! o = Some info → default True (okScript x False <$> section) → mayUndo held s o info → disable section info s = (r, s') →
  let held' := if ar_success r then delete o held else <[o := ar_disableInfo r]> held in Inv held' s' ∧ Value m held' s'.
Proof using Hx.
  intros HI HV Ho Hok Hm H. unfold disable in H. set (saved := mkDisable _ _ _ _ _ _ _ false) in *.
  assert (Clean : ∀ s1, Inv held s1 → Value m held s1 → mayUndo held s1 o info → cleanup saved s1 = (r, s') → let held' := if ar_success r then delete o held else <[o := ar_disableInfo r]> held in Inv held' s' ∧ Value m held' s').
  { clear Hm. intros s1 HI1 HV1 Hm H1. destruct (Inv_replace m held s1 o info saved HI1 HV1 Ho eq_refl eq_refl eq_refl) as [HI2 HV2].
    pose proof (cleanup_step m (<[o := saved]> held) s1 o saved r s' HI2 HV2 (lookup_insert_eq _ _ _)) as HC. rewrite delete_insert_eq, insert_insert_eq in HC. apply HC; [|done].
    destruct Hm as [Hd|[Hn|Hc]]; [by left| |by right; right]. right; left. intros o' info' Ho' Hlt. rewrite lookup_insert_ne in Ho' by lia. by eapply Hn. }
  destruct (di_runDisableSection info); [|by apply (Clean s)]. destruct (runDisableSection section info saved s) as [[e saved'] s1] eqn:H1.
  eapply section_step in H1 as (B1 & M1 & ->); [|exact HI|exact Ho|done]. assert (HI1 : Inv held s1) by by eapply Inv_books. assert (HV1 : Value m held s1) by (eapply Value_books; [exact HI|exact B1|done|done]).
  destruct e as [errors|]; [|apply (Clean s1); [done|done|by apply (mayUndo_books held s)|done]]. injection H as <- <-. cbn [ar_success failed ar_disableInfo]. by rewrite insert_id.
Qed.
Lemma Step_preserves m w w' : Step w w' → Inv w.1 w.2 → Value m w.1 w.2 → Inv w'.1 w'.2 ∧ Value m w'.1 w'.2.
Proof using Hx.
  intros [held s script r s' Hok H Hf|held s o info section r s' Ho Hok Hm H] HI HV; cbn [fst snd] in *; [by eapply enable_step|by eapply disable_step].
Qed.
(** Whatever happens while a script runs, the byte is there or its undo restores it. *)
Lemma execute_saves script s r s' : execute script s = (r, s') → okScript x True script → knownOk x s → patchesBelow s → ownersSane x s →
  (¬ holds (ar_disableInfo r) → memAt x s' = memAt x s) ∧ ∀ b, restoreAt x (di_originals (ar_disableInfo r)) = Some b → b = memAt x s.
Proof using Hx.
  intros H Hok Hk Hp Hs. apply execute_cases in H as [(_ & _ & L1 & L2 & _)|(_ & _ & _ & E & _)]; [| |done..].
  - split; [done|]. intros b Hb. by apply L2.
  - destruct E as [[E1 E2]|[_ E1]]; (split; [intros Hh|intros b Hb]); try congruence. by rewrite holds_None, E1 in Hh.
Qed.
Lemma Inv_initial s : noTables s → Inv ∅ s ∧ Value (memAt x s) ∅ s.
Proof using.
  intros (E1 & E2 & E3). assert (EL : liveOf s = []) by (unfold liveOf; by rewrite E1). split; [|unfold Value; by rewrite EL].
  split; [unfold knownOk; by rewrite E3|unfold ownersSane; by rewrite E2|unfold ownersBelow; by rewrite E2|rewrite E1; constructor|unfold patchesBelow; rewrite E1; by apply Forall_nil|rewrite E1; by apply Forall_nil|done|].
  rewrite EL. by intros l ?%elem_of_nil.
Qed.
Lemma Steps_preserve m w w' : rtc Step w w' → Inv w.1 w.2 → Value m w.1 w.2 → Inv w'.1 w'.2 ∧ Value m w'.1 w'.2.
Proof using Hx.
  induction 1 as [|w w1 w2 H1 _ IH]; intros HI HV; [done|]. destruct (Step_preserves m _ _ H1 HI HV). by apply IH.
Qed.
Lemma Steps_restored s0 held s : noTables s0 → rtc Step (∅, s0) (held, s) → (∀ o info, held !! o = Some info → ¬ holds info) → memAt x s = memAt x s0.
Proof using Hx.
  intros Hn Hs Hh. destruct (Inv_initial s0 Hn) as [HI HV]. destruct (Steps_preserve (memAt x s0) _ _ Hs HI HV) as [HI' HV']. cbn [fst snd] in *. unfold Value in HV'.
  destruct (firstOver x (liveOf s)) as [o|] eqn:F; [|done]. destruct HV' as (info & Ho & He). exfalso. apply (Hh o info Ho), dec_stable. intros Hc. unfold effAt in He. apply holds_None in Hc. by rewrite Hc in He.
Qed.
End Scripts.

(** ** Theorems *)

Section Reachable.
Context {T : AaTarget} {L : AaLaws T}.

(** C16: However a script ends, at whatever line it fails and whatever the target refuses, the
    byte at a static address is what it was, or the undo the caller is given restores it. *)
Theorem execute_undoable (x : Z) (s0 s s' : Asm) (held : gmap nat DisableInfo) (script : Script) (r : AutoAsmResult) : static x → noTables s0 → rtc (Step x) (∅, s0) (held, s) → okScript x True script → execute script s = (r, s') →
  match restoreAt x (di_originals (ar_disableInfo r)) with Some b => b = mem (as_target s) x | None => mem (as_target s') x = mem (as_target s) x end.
Proof.
  intros Hx H0 Hs Hok H. destruct (Inv_initial x s0 H0) as [HI HV]. destruct (Steps_preserve x Hx _ _ _ Hs HI HV) as [HI' _]. cbn [snd fst] in HI'.
  destruct (execute_saves x Hx _ _ _ _ H Hok (iv_known _ _ _ HI') (iv_patches _ _ _ HI') (iv_sane _ _ _ HI')) as [H1 H2]. destruct (restoreAt x _) as [b|] eqn:E; [by apply H2|]. apply H1. unfold holds. rewrite E. by intros [].
Qed.
(** C17: An undo that changes a byte of code finds there a byte that the script wrote or that it
    would restore: code patched since by anything else stays. *)
Theorem cleanup_checks_code (x : Z) (s0 s s' : Asm) (held : gmap nat DisableInfo) (o : nat) (info : DisableInfo) (p : OriginalBytes) (r : AutoAsmResult) : static x → noTables s0 → rtc (Step x) (∅, s0) (held, s) → held !! o = Some info →
  p ∈ di_originals info → covers x p → ob_verifyOwnership p = true → len (ob_written p) = len (ob_bytes p) → cleanup info s = (r, s') → mem (as_target s') x ≠ mem (as_target s) x →
  ∃ q, q ∈ withOverrides (di_originals info) (overridesOf s info) ∧ covers x q ∧
    (lget (ob_bytes q) (x - ob_address q) = Some (mem (as_target s) x) ∨ lget (ob_written q) (x - ob_address q) = Some (mem (as_target s) x)).
Proof.
  intros Hx H0 Hs Ho Hp Hc Hv Hw H Hm. destruct (Inv_initial x s0 H0) as [HI HV]. destruct (Steps_preserve x Hx _ _ _ Hs HI HV) as [HI' _]. cbn [snd fst] in HI'.
  destruct (iv_held _ _ _ HI' _ _ Ho) as (_ & Hok & _). exact (cleanup_own x Hx s info r s' p H Hok Hp Hc Hv Hw Hm).
Qed.
End Reachable.

(** ** The sample *)

Lemma sample_data info : Forall (λ p, (ob_address p <? 4200) = true → ob_verifyOwnership p = false) (di_originals info) → isData 4100 (di_originals info).
Proof. intros H. eapply Forall_impl; [exact H|]. intros p Hp Hc. apply Hp, Z.ltb_lt. unfold covers, inside in Hc. lia. Qed.
Lemma sampleScripts_ok x (script : Script (T := sampleTarget)) : script ∈ [sampleFirst; sampleSecond; sampleFailing] → 4096 ≤ x < 12288 → okScript x True script.
Proof. rewrite !elem_of_cons, elem_of_nil. intros [->|[->|[->|[]]]] Hx; cbn; unfold inside; split_and!; lia || done. Qed.
Definition sampleHeld3 : gmap nat DisableInfo := keep (keep (keep ∅ (ar_disableInfo run1.1)) (ar_disableInfo run2.1)) (ar_disableInfo run3.1).
Definition sampleHeld4 : gmap nat DisableInfo := if ar_success run4.1 then delete 0%nat sampleHeld3 else <[0%nat := ar_disableInfo run4.1]> sampleHeld3.
Definition sampleHeld5 : gmap nat DisableInfo := if ar_success run5.1 then delete 1%nat sampleHeld4 else <[1%nat := ar_disableInfo run5.1]> sampleHeld4.
Lemma enable_one {T : AaTarget} {L : AaLaws T} x held (s : Asm) script : okScript x True script → (ar_success (execute script s).1 = false → restoreAt x (di_originals (ar_disableInfo (execute script s).1)) = None) →
  Step x (held, s) (keep held (ar_disableInfo (execute script s).1), (execute script s).2).
Proof. intros Hok Hf. apply step_enable with script; [done|apply surjective_pairing|]. intros E [b Hb]. by rewrite Hf in Hb. Qed.
Lemma disable_one {T : AaTarget} {L : AaLaws T} x held (s : Asm) o info section : held !! o = Some info → default True (okScript x False <$> section) → mayUndo x held s o info →
  Step x (held, s) (if ar_success (disable section info s).1 then delete o held else <[o := ar_disableInfo (disable section info s).1]> held, (disable section info s).2).
Proof. intros Ho Hok Hm. eapply step_disable; try done. apply surjective_pairing. Qed.
Lemma sample_step1 x : 4096 ≤ x < 12288 → Step x (∅, sampleStart) (keep ∅ (ar_disableInfo run1.1), run1.2).
Proof. intros Hx. apply enable_one; [apply sampleScripts_ok; [by left|done]|]. intros Hf. vm_compute in Hf. discriminate Hf. Qed.
Lemma sample_step2 x : 4096 ≤ x < 12288 → Step x (keep ∅ (ar_disableInfo run1.1), run1.2) (keep (keep ∅ (ar_disableInfo run1.1)) (ar_disableInfo run2.1), run2.2).
Proof. intros Hx. apply enable_one; [apply sampleScripts_ok; [right; by left|done]|]. intros Hf. vm_compute in Hf. discriminate Hf. Qed.
Lemma sample_step3 x : 4096 ≤ x < 12288 → Step x (keep (keep ∅ (ar_disableInfo run1.1)) (ar_disableInfo run2.1), run2.2) (sampleHeld3, run3.2).
Proof.
  intros Hx. apply enable_one; [apply sampleScripts_ok; [right; right; by left|done]|]. intros _. assert (E : di_originals (ar_disableInfo (execute sampleFailing run2.2).1) = []) by by vm_compute. by rewrite E.
Qed.
Lemma sample_step4 : Step 4100 (sampleHeld3, run3.2) (sampleHeld4, run4.2).
Proof. apply disable_one; [by vm_compute|cbn; unfold inside; split; [lia|done]|]. left. apply sample_data. vm_compute. repeat constructor; intros H; first [reflexivity|discriminate H]. Qed.
Lemma sample_step5 : Step 4100 (sampleHeld4, run4.2) (sampleHeld5, run5.2).
Proof. apply disable_one; [by vm_compute|done|]. left. apply sample_data. vm_compute. repeat constructor; intros H; first [reflexivity|discriminate H]. Qed.
Lemma sample_enabled x : 4096 ≤ x < 12288 → rtc (Step x) (∅, sampleStart) (sampleHeld3, run3.2).
Proof. intros Hx. eapply rtc_l; [by apply sample_step1|]. eapply rtc_l; [by apply sample_step2|]. apply rtc_once. by apply sample_step3. Qed.
Lemma sample_disabled : rtc (Step 4100) (∅, sampleStart) (sampleHeld5, run5.2).
Proof. eapply rtc_trans; [by apply sample_enabled|]. eapply rtc_l; [apply sample_step4|apply rtc_once, sample_step5]. Qed.
(** The code that is patched twice, step by step. *)
Definition codeHeld2 : gmap nat DisableInfo := keep (keep ∅ (ar_disableInfo code1.1)) (ar_disableInfo code2.1).
Definition codeHeld3 : gmap nat DisableInfo := if ar_success code3.1 then delete 0%nat codeHeld2 else <[0%nat := ar_disableInfo code3.1]> codeHeld2.
Definition codeHeld4 : gmap nat DisableInfo := if ar_success code4.1 then delete 1%nat codeHeld3 else <[1%nat := ar_disableInfo code4.1]> codeHeld3.
Definition codeHeld5 : gmap nat DisableInfo := if ar_success code5.1 then delete 0%nat codeHeld4 else <[0%nat := ar_disableInfo code5.1]> codeHeld4.
Lemma newest_mayUndo x (held : gmap nat DisableInfo) (s : Asm) (k : nat) info : (∀ o, o ∈ dom held → o ≤ k)%nat → mayUndo (L := sampleLaws) x held s k info.
Proof. intros H. right; left. intros o' info' Ho' Hlt. apply elem_of_dom_2, H in Ho'. lia. Qed.
Lemma code_ok (script : Script (T := sampleTarget)) : script ∈ [codeOld; codeNew] → okScript 8200 True script.
Proof. rewrite !elem_of_cons, elem_of_nil. intros [->|[->|[]]]; cbn; unfold inside; split_and!; lia || done. Qed.
Lemma code_step1 : Step 8200 (∅, sampleStart) (keep ∅ (ar_disableInfo code1.1), code1.2).
Proof. apply enable_one; [apply code_ok; by left|]. intros Hf. vm_compute in Hf. discriminate Hf. Qed.
Lemma code_step2 : Step 8200 (keep ∅ (ar_disableInfo code1.1), code1.2) (codeHeld2, code2.2).
Proof. apply enable_one; [apply code_ok; right; by left|]. intros Hf. vm_compute in Hf. discriminate Hf. Qed.
Lemma code_over : patchedOver 8200 code2.2 (ar_disableInfo code1.1).
Proof.
  assert (E : di_originals (ar_disableInfo code1.1) = [mkOriginal 8200 [144; 144] [235; 9] true None true]) by by vm_compute. unfold patchedOver. rewrite E. split.
  - apply Exists_cons_hd. split; [by apply (bool_decide_unpack _); vm_compute|done].
  - apply Forall_singleton. intros _ b Hb. cbn in Hb. injection Hb as <-. split; vm_compute; discriminate.
Qed.
Lemma code_step3 : Step 8200 (codeHeld2, code2.2) (codeHeld3, code3.2).
Proof. apply disable_one; [by vm_compute|done|]. right; right. apply code_over. Qed.
Lemma code_step4 : Step 8200 (codeHeld3, code3.2) (codeHeld4, code4.2).
Proof. apply disable_one; [by vm_compute|done|]. apply newest_mayUndo. assert (E : dom codeHeld3 = {[0%nat; 1%nat]}) by by vm_compute. rewrite E. set_unfold. lia. Qed.
Lemma code_step5 : Step 8200 (codeHeld4, code4.2) (codeHeld5, code5.2).
Proof. apply disable_one; [by vm_compute|done|]. apply newest_mayUndo. assert (E : dom codeHeld4 = {[0%nat]}) by by vm_compute. rewrite E. set_unfold. lia. Qed.
Lemma code_steps : rtc (Step 8200) (∅, sampleStart) (codeHeld5, code5.2).
Proof. eapply rtc_l; [apply code_step1|]. eapply rtc_l; [apply code_step2|]. eapply rtc_l; [apply code_step3|]. eapply rtc_l; [apply code_step4|]. apply rtc_once, code_step5. Qed.
Lemma execute_undoable_witness : ar_success run3.1 = false ∧ mem (AaLaws := sampleLaws) (as_target run3.2) 4100 = mem (AaLaws := sampleLaws) (as_target run2.2) 4100.
Proof.
  split; [by vm_compute|]. assert (Hs : rtc (Step 4100) (∅, sampleStart) (keep (keep ∅ (ar_disableInfo run1.1)) (ar_disableInfo run2.1), run2.2)) by (eapply rtc_l; [by apply sample_step1|apply rtc_once; by apply sample_step2]).
  assert (H := execute_undoable (L := sampleLaws) 4100 sampleStart run2.2 run3.2 (keep (keep ∅ (ar_disableInfo run1.1)) (ar_disableInfo run2.1)) sampleFailing run3.1 ltac:(cbn; lia) ltac:(done) Hs ltac:(apply sampleScripts_ok; [right; right; by left|done]) (surjective_pairing _)).
  assert (E : di_originals (ar_disableInfo run3.1) = []) by by vm_compute. rewrite E in H. exact H.
Defined.
Lemma cleanup_checks_code_witness : ∃ q : OriginalBytes, covers 8200 q ∧ (lget (ob_bytes q) (8200 - ob_address q) = Some 235 ∨ lget (ob_written q) (8200 - ob_address q) = Some 235).
Proof.
  destruct (cleanup_checks_code (L := sampleLaws) 8200 sampleStart run1.2 (cleanup (ar_disableInfo run1.1) run1.2).2 (keep ∅ (ar_disableInfo run1.1)) 0 (ar_disableInfo run1.1) (mkOriginal 8200 [144; 144] [235; 9] true None true) (cleanup (ar_disableInfo run1.1) run1.2).1) as (q & _ & Hc & Hb).
  - cbn. lia.
  - done.
  - apply rtc_once. by apply sample_step1.
  - by vm_compute.
  - apply list_elem_of_lookup. exists 1%nat. by vm_compute.
  - by apply (bool_decide_unpack _); vm_compute.
  - done.
  - done.
  - apply surjective_pairing.
  - vm_compute. discriminate.
  - exists q. split; [exact Hc|]. assert (E : mem (AaLaws := sampleLaws) (as_target run1.2) 8200 = 235) by by vm_compute. rewrite E in Hb. exact Hb.
Defined.
