(* ===== verification/Expression.v ===== *)
(** * Address expressions

    Models [ExpressionParser] of [src/core/expression.cpp]: the tokens, the dereferences and
    the left-to-right arithmetic of expressions such as [game.exe+100] or [[p]+8*4].  A
    position in the text is the text from it on. *)

From S2P Require Import Prelude Numeral TargetMachine Types.
#[local] Open Scope Z_scope.

(** ** What an expression is resolved against *)

(** The process and the symbol resolver, as far as the parser asks them; it asks for the
    modules and the width once and keeps the answers. *)
Class ExprTarget := {
  ex_proc : bool;  (* there is a process *)
  ex_modules : list ModuleInfo;  (* [proc_->modules()], none without a process *)
  ex_lookup : bytes → option Z;  (* [resolver_->lookup], none without a resolver *)
  ex_width : Z;  (* [proc_->pointerWidth()] *)
  ex_is64bit : bool;
  ex_widthAt : Z → Z;  (* [proc_->pointerWidth(address)] *)
  ex_orderAt : Z → ByteOrder;
  ex_read : Z → Z → option bytes  (* the bytes [proc_->read] transfers *)
}.

(** ** Text *)

Definition isBlank (c : Z) : bool := (c =? 32) || (c =? 9).
Definition isSign (c : Z) : bool := (c =? "+"%chr) || (c =? "-"%chr).
Definition isOperator (c : Z) : bool := isSign c || (c =? "*"%chr).
Fixpoint skipSpaces (s : bytes) : bytes :=
  match s with
  | c :: s' => if isBlank c then skipSpaces s' else s
  | [] => []
  end.
Definition trim (s : bytes) : bytes := reverse (skipSpaces (reverse (skipSpaces s))).
(** How many characters from the start satisfy a test. *)
Fixpoint spanOf (p : Z → bool) (s : bytes) : nat :=
  match s with
  | c :: s => if p c then S (spanOf p s) else O
  | [] => O
  end.
Definition sameNameIgnoringCase (a b : bytes) : bool := bool_decide (tolower <$> a = tolower <$> b).

(** ** Tokens *)

Section Parser.
Context {T : ExprTarget}.

Definition moduleBase (name : bytes) : option Z :=
  match List.find (λ m, bytes_eqb (mod_name m) name) ex_modules with
  | Some m => Some (mod_base m)
  | None => mod_base <$> List.find (λ m, sameNameIgnoringCase (mod_name m) name) ex_modules
  end.
(** The lambda [number] of [resolveToken]: [std::stoull] on digits. *)
Definition numberOf (text : bytes) (base : Z) : option Z :=
  if bool_decide (text = []) then None
  else if negb (forallb (λ c, if base =? 16 then isxdigit c else isdigit c) text) then None
  else strtoull_all base text.
Definition resolveToken (token : bytes) : option Z :=
  match token with
  | [] => None
  | c :: rest =>
      if (2 <=? len token) && ((c =? 34) || (c =? 39)) && bool_decide (last token = Some c) then
        let name := slice token 1 (len token - 2) in
        match ex_lookup name with Some a => Some a | None => moduleBase name end
      else if (2 <=? len token) && (c =? "0"%chr) && match rest with x :: _ => (x =? "x"%chr) || (x =? "X"%chr) | [] => false end then numberOf (drop 2 token) 16
      else if c =? "#"%chr then numberOf rest 10
      else
        let allHex := forallb isxdigit token in
        let allDigit := forallb isdigit token in
        if allHex && ((2 <=? len token) || allDigit) then numberOf token 16
        else match ex_lookup token with
        | Some a => Some a
        | None =>
            match moduleBase token with
            | Some base => Some base
            | None => if allHex then numberOf token 16 else None
            end
        end
  end.

(** ** Arithmetic *)

Definition mixedWidth : bool := ex_proc && (ex_width =? 4) && ex_is64bit.
Definition mask : Z := if ex_proc && (ex_width =? 4) && negb mixedWidth then UINT32_MAX else UINTPTR_MAX.
Definition combine (left right op : Z) : Z :=
  let value := Z.land (u64 (if op =? "-"%chr then left - right else if op =? "*"%chr then left * right else left + right)) mask in
  if mixedWidth && (left <=? UINT32_MAX) && (right <=? UINT32_MAX) && (UINT32_MAX <? value) then Z.land value UINT32_MAX else value.

(** ** Factors *)

(** The text up to the bracket that closes, and what follows it. *)
Fixpoint closeBracket (depth : nat) (s : bytes) : option (bytes * bytes) :=
  match s with
  | [] => None
  | c :: s =>
      if c =? "["%chr then let? r := closeBracket (S depth) s in Some (c :: r.1, r.2)
      else if c =? "]"%chr then
        match depth with
        | S (S depth) => let? r := closeBracket (S depth) s in Some (c :: r.1, r.2)
        | _ => Some ([], s)
        end
      else let? r := closeBracket depth s in Some (c :: r.1, r.2)
  end.
Definition loadPointer (address : Z) : option Z :=
  let ptrSize := ex_widthAt address in
  if negb (ptrSize =? 4) && negb (ptrSize =? 8) then None else
  let? data := ex_read address ptrSize in
  if negb (len data =? ptrSize) then None else
  match decodeTargetUnsigned data (ex_orderAt address) with Ret ptr => Some ptr | _ => None end.
(** The lambda [ends]. *)
Definition endsAt (s : bytes) : bool := match s with [] => true | c :: _ => isOperator c || isBlank c end.
Definition plainNumber (head : bytes) : bool :=
  match head with
  | [] => false
  | c :: _ => (c =? "#"%chr) || forallb isxdigit (drop (if starts_with (bs "0x") head || starts_with (bs "0X") head then 2 else 0) head)
  end.
(** [modLen]: the longest module name here that ends where a token may end. *)
Definition moduleLength (s : bytes) (modules : list ModuleInfo) : nat :=
  foldl (λ modLen m,
    let n := length (mod_name m) in
    if bool_decide (mod_name m = []) || bool_decide (n ≤ modLen)%nat || bool_decide (length s < n)%nat || negb (sameNameIgnoringCase (take n s) (mod_name m)) then modLen
    else if endsAt (drop n s) then n else modLen) O modules.
(** [s.rfind('*', n)]. *)
Fixpoint rfindStar (s : bytes) (n : nat) : option nat :=
  if bool_decide (s !! n = Some ("*"%chr : Z)) then Some n else match n with O => None | S n => rfindStar s n end.
(** The loop over the ends of a symbol that holds ['*']; every end is before the last one. *)
Fixpoint spanLoop (fuel : nat) (s : bytes) (last firstStar : nat) : option (Z * bytes) :=
  match fuel with
  | O => None
  | S fuel =>
      if bool_decide (last ≤ firstStar)%nat then None else
      match resolveToken (trim (take last s)) with
      | Some value => Some (value, drop last s)
      | None =>
          match rfindStar s (last - 1) with
          | Some n => if bool_decide (n < firstStar)%nat then None else spanLoop fuel s n firstStar
          | None => None
          end
      end
  end.
(** A number, a symbol or a module name. *)
Definition wordFactor (s : bytes) : option (Z * bytes) :=
  let head := take (spanOf (λ c, negb (isOperator c || isBlank c)) s) s in
  let plain := plainNumber head in
  let modLen := moduleLength s (if plain then [] else ex_modules) in
  if negb (bool_decide (modLen = O)) then let? v := resolveToken (trim (take modLen s)) in Some (v, drop modLen s) else
  let spanEnd := spanOf (λ c, negb (isSign c)) s in
  let firstStar := spanOf (λ c, negb (c =? "*"%chr)) s in
  match (if negb plain && bool_decide (firstStar < spanEnd)%nat then spanLoop (S spanEnd) s spanEnd firstStar else None) with
  | Some r => Some r
  | None => let n := spanOf (λ c, negb (isOperator c)) s in let? v := resolveToken (trim (take n s)) in Some (v, drop n s)
  end.
(** The lambda [factor]; [inner] is the recursive call for a bracket. *)
Definition factor (inner : bytes → option Z) (s : bytes) : option (Z * bytes) :=
  let s := skipSpaces s in
  match s with
  | [] => None
  | c :: rest =>
      if isOperator c then None
      else if c =? "["%chr then
        let? r := closeBracket 1 rest in
        if negb ex_proc then None else
        let? address := inner r.1 in
        let? ptr := loadPointer address in
        Some (ptr, r.2)
      else if (c =? 34) || (c =? 39) then
        let n := spanOf (λ x, negb (x =? c)) rest in
        if bool_decide (length rest ≤ n)%nat then None else
        let? v := resolveToken (take (n + 2) s) in Some (v, drop (n + 2) s)
      else wordFactor s
  end.

(** ** Terms and sums *)

(** Every factor takes a character, so the length of the text bounds the rounds of both
    loops. *)
Fixpoint termLoop (fuel : nat) (inner : bytes → option Z) (value : Z) (s : bytes) : option (Z * bytes) :=
  match fuel with
  | O => None
  | S fuel =>
      match skipSpaces s with
      | c :: next =>
          if c =? "*"%chr then let? r := factor inner next in termLoop fuel inner (combine value r.1 "*"%chr) r.2
          else Some (value, s)
      | [] => Some (value, s)
      end
  end.
Definition term (inner : bytes → option Z) (s : bytes) : option (Z * bytes) :=
  let? r := factor inner s in termLoop (S (length r.2)) inner r.1 r.2.
Fixpoint sumLoop (fuel : nat) (inner : bytes → option Z) (result op : Z) (s : bytes) : option Z :=
  match fuel with
  | O => None
  | S fuel =>
      let? r := term inner s in
      let result := combine result r.1 op in
      match skipSpaces r.2 with
      | [] => Some result
      | c :: rest =>
          if negb (isSign c) then None
          else if bool_decide (rest = []) then None
          else sumLoop fuel inner result c rest
      end
  end.
Definition kMaxDepth : nat := 64.
(** [parseImpl] at a depth from which [levels] more are allowed. *)
Fixpoint parseImpl (levels : nat) (expr : bytes) : option Z :=
  match levels with
  | O => None
  | S levels =>
      match trim expr with
      | [] => None
      | (c :: rest) as s =>
          let '(op, s) := if isSign c then (c, rest) else ("+"%chr, s) in
          sumLoop (S (length s)) (parseImpl levels) 0 op s
      end
  end.
Definition parse (expr : bytes) : option Z := parseImpl (S kMaxDepth) expr.
End Parser.
