(* ===== verification/ExpressionSpec.v ===== *)
(** * The grammar of address expressions

    The grammar the parser of [Expression] implements, as a relation between texts and
    values, and the proof that the parser computes the value of every text of the grammar. *)

From S2P Require Import Prelude Numeral TargetMachine Types Expression.
#[local] Open Scope Z_scope.

(** ** Spaces *)

Definition blanks (b : bytes) : Prop := Forall (λ c, isBlank c = true) b.
Lemma skipSpaces_blanks b s : blanks b → skipSpaces (b ++ s) = skipSpaces s.
Proof. induction 1 as [|c b Hc _ IH]; [done|]. cbn. by rewrite Hc. Qed.
Lemma skipSpaces_nil b : blanks b → skipSpaces b = [].
Proof. intros H. rewrite <- (app_nil_r b). by rewrite skipSpaces_blanks. Qed.
Lemma skipSpaces_idem s : skipSpaces (skipSpaces s) = skipSpaces s.
Proof. induction s as [|c s IH]; [done|]. cbn. destruct (isBlank c) eqn:E; [exact IH|]. cbn. by rewrite E. Qed.
Lemma skipSpaces_split s : ∃ b, blanks b ∧ s = b ++ skipSpaces s.
Proof.
  induction s as [|c s (b & Hb & E)]; [exists []; split; [constructor|done]|]. cbn. destruct (isBlank c) eqn:Hc; [|exists []; split; [constructor|done]].
  exists (c :: b). split; [by constructor|]. cbn. by rewrite <- E.
Qed.
Lemma skipSpaces_length s : (length (skipSpaces s) ≤ length s)%nat.
Proof. destruct (skipSpaces_split s) as (b & _ & E). rewrite E at 2. rewrite length_app. lia. Qed.
Lemma skipSpaces_head c s : isBlank c = false → skipSpaces (c :: s) = c :: s.
Proof. intros E. cbn. by rewrite E. Qed.

(** A text that starts and ends with a character that is not a blank. *)
Definition tight (s : bytes) : Prop := (∃ c, head s = Some c ∧ isBlank c = false) ∧ (∃ c, last s = Some c ∧ isBlank c = false).
Lemma tight_cons s : tight s → ∃ c s', s = c :: s' ∧ isBlank c = false.
Proof. intros [(c & Hc & Hb) _]. destruct s as [|x s']; [done|]. injection Hc as ->. by exists c, s'. Qed.
Lemma tight_skip s r : tight s → skipSpaces (s ++ r) = s ++ r.
Proof. intros (c & s' & -> & Hc)%tight_cons. cbn. by rewrite Hc. Qed.
Lemma tight_reverse s : tight s → tight (reverse s).
Proof. intros [H1 H2]. split; [by rewrite head_reverse|by rewrite last_reverse]. Qed.
Lemma trim_tight b1 s b2 : blanks b1 → tight s → blanks b2 → trim (b1 ++ s ++ b2) = s.
Proof.
  intros H1 Hs H2. unfold trim. rewrite skipSpaces_blanks by done. rewrite tight_skip by done. rewrite reverse_app, skipSpaces_blanks by (by apply Forall_reverse).
  pose proof (tight_skip (reverse s) [] (tight_reverse s Hs)) as E. rewrite app_nil_r in E. by rewrite E, reverse_involutive.
Qed.
Lemma tight_app s m t : tight s → tight t → tight (s ++ m ++ t).
Proof.
  intros [(c & Hc & Hb) _] [_ (d & Hd & Hb')]. split; [exists c; split; [|done]; by destruct s|]. exists d. split; [|done]. rewrite !last_app, Hd. done.
Qed.

Lemma skipSpaces_app a c : skipSpaces a ≠ [] → skipSpaces (a ++ c) = skipSpaces a ++ c.
Proof. induction a as [|x a IH]; [done|]. cbn. by destruct (isBlank x). Qed.
Lemma skipSpaces_append a c : tight c → ∃ z, skipSpaces (a ++ c) = z ++ c.
Proof.
  intros Hc. destruct (skipSpaces a) as [|x l] eqn:E.
  - exists []. destruct (skipSpaces_split a) as (b & Hb & Ea). rewrite E, app_nil_r in Ea. rewrite Ea, skipSpaces_blanks by done. pose proof (tight_skip c [] Hc) as Hs. by rewrite app_nil_r in Hs.
  - exists (x :: l). by rewrite skipSpaces_app, E by (by rewrite E).
Qed.
(** Trimming a text that starts tight cuts only after it. *)
Lemma trim_prefix s y : tight s → ∃ y', trim (s ++ y) = s ++ y'.
Proof.
  intros Hs. unfold trim. rewrite tight_skip by done. rewrite reverse_app. destruct (skipSpaces_append (reverse y) (reverse s) (tight_reverse s Hs)) as [z ->].
  exists (reverse z). by rewrite reverse_app, reverse_involutive.
Qed.

(** ** Spans *)

Lemma spanOf_app p l r : Forall (λ c, p c = true) l → spanOf p (l ++ r) = (length l + spanOf p r)%nat.
Proof. induction 1 as [|c l Hc _ IH]; [done|]. cbn. by rewrite Hc, IH. Qed.
Lemma spanOf_stop p c r : p c = false → spanOf p (c :: r) = O.
Proof. intros E. cbn. by rewrite E. Qed.
Lemma spanOf_le p s : (spanOf p s ≤ length s)%nat.
Proof. induction s as [|c s IH]; [done|]. cbn. destruct (p c); lia. Qed.
Lemma take_app_exact {A} (l r : list A) : take (length l) (l ++ r) = l.
Proof. by rewrite take_app_length. Qed.

Section Grammar.
Context {T : ExprTarget}.

(** ** Every factor takes a character *)

Lemma closeBracket_length depth s r : closeBracket depth s = Some r → (length r.2 < length s)%nat.
Proof.
  revert depth r. induction s as [|c s IH]; intros depth r; [done|]. cbn [closeBracket].
  assert (∀ d, (let? r := closeBracket d s in Some (c :: r.1, r.2)) = Some r → (length r.2 < length (c :: s))%nat) as Hrec.
  { intros d. destruct (closeBracket d s) as [r'|] eqn:E; [|done]. intros [= <-]. apply IH in E. cbn in *. lia. }
  destruct (_ =? _); [apply Hrec|]. destruct (_ =? _); [|apply Hrec]. destruct depth as [|[|depth]]; [intros [= <-]; cbn; lia..|apply Hrec].
Qed.
Lemma spanLoop_length fuel s n firstStar v r : spanLoop fuel s n firstStar = Some (v, r) → s ≠ [] → (length r < length s)%nat.
Proof.
  intros E Hs. revert n E. induction fuel as [|fuel IH]; intros n E; [done|]. cbn [spanLoop] in E. destruct (bool_decide_reflect (n ≤ firstStar)%nat); [done|].
  destruct (resolveToken _); [|destruct (rfindStar s (n - 1)) as [m|]; [|done]; destruct (bool_decide _); [done|by apply (IH m)]]. injection E as <- <-. rewrite length_drop. destruct s; [done|cbn; lia].
Qed.
Lemma wordFactor_length c s v r : isOperator c = false → wordFactor (c :: s) = Some (v, r) → (length r < length (c :: s))%nat.
Proof.
  intros Hc. unfold wordFactor. set (plain := plainNumber _). set (n := moduleLength _ _). clearbody n plain. destruct (bool_decide_reflect (n = O)) as [_|Hm]; cbn [negb].
  - destruct (if _ && _ then _ else _) as [[v' r']|] eqn:E.
    + intros [= <- <-]. destruct (_ && _); [|done]. by eapply spanLoop_length.
    + destruct (resolveToken _); [|done]. intros [= <- <-]. rewrite length_drop. cbn [spanOf]. rewrite Hc. cbn. lia.
  - destruct (resolveToken _); [|done]. intros [= <- <-]. rewrite length_drop. cbn [length] in *. lia.
Qed.
Lemma factor_length inner s v r : factor inner s = Some (v, r) → (length r < length s)%nat.
Proof.
  unfold factor. pose proof (skipSpaces_length s) as Hl. destruct (skipSpaces s) as [|c rest]; [done|]. destruct (isOperator c) eqn:Hc; [done|]. cbn [length] in Hl.
  destruct (c =? "["%chr).
  { destruct (closeBracket 1 rest) as [r'|] eqn:E; [|done]. apply closeBracket_length in E. cbn. destruct (negb ex_proc); [done|]. destruct (inner r'.1); [|done]. cbn. destruct (loadPointer _); [|done]. intros [= <- <-]. lia. }
  destruct (_ || _).
  - cbn zeta. destruct (bool_decide _); [done|]. destruct (resolveToken _); [|done]. intros [= <- <-]. rewrite length_drop. cbn. lia.
  - intros E. apply wordFactor_length in E; [cbn in E; lia|done].
Qed.

(** ** The loops have rounds enough *)

(** The value, and what follows without its spaces. *)
Definition norm (r : option (Z * bytes)) : option (Z * bytes) := (λ x, (x.1, skipSpaces x.2)) <$> r.
Lemma termLoop_fuel inner fuel fuel' value s : (length s < fuel)%nat → (length s < fuel')%nat → termLoop fuel inner value s = termLoop fuel' inner value s.
Proof.
  revert fuel' value s. induction fuel as [|fuel IH]; intros fuel' value s Hf Hf'; [lia|]. destruct fuel' as [|fuel']; [lia|]. cbn [termLoop]. pose proof (skipSpaces_length s) as Hl.
  destruct (skipSpaces s) as [|c next]; [done|]. destruct (c =? _); [|done]. destruct (factor inner next) as [[v r]|] eqn:E; [|done]. cbn. apply factor_length in E. cbn [length] in Hl. apply IH; lia.
Qed.
Definition termTail (inner : bytes → option Z) (value : Z) (s : bytes) : option (Z * bytes) := norm (termLoop (S (length s)) inner value s).
Lemma termLoop_tail inner fuel value s : (length s < fuel)%nat → norm (termLoop fuel inner value s) = termTail inner value s.
Proof. intros Hf. unfold termTail. f_equal. apply termLoop_fuel; lia. Qed.
Lemma termTail_skip inner value s s' : skipSpaces s = skipSpaces s' → termTail inner value s = termTail inner value s'.
Proof.
  intros E. unfold termTail. cbn [termLoop]. pose proof (skipSpaces_length s) as Hl. pose proof (skipSpaces_length s') as Hl'. rewrite <- E in *. destruct (skipSpaces s) as [|c next] eqn:Es; [unfold norm; cbn; by rewrite Es, <- E|].
  destruct (c =? _); [|unfold norm; cbn; by rewrite Es, <- E]. destruct (factor inner next) as [[v r]|] eqn:Ef; [|done]. cbn. apply factor_length in Ef. cbn [length] in *. f_equal. apply termLoop_fuel; lia.
Qed.
Lemma termTail_stop inner value s : match skipSpaces s with [] => True | c :: _ => c ≠ "*"%chr end → termTail inner value s = Some (value, skipSpaces s).
Proof.
  unfold termTail. cbn [termLoop]. destruct (skipSpaces s) as [|c next] eqn:E; [intros _; unfold norm; cbn; by rewrite E|]. intros Hc. rewrite (proj2 (Z.eqb_neq _ _)) by done. unfold norm. cbn. by rewrite E.
Qed.
Lemma term_norm inner s v r : norm (factor inner s) = Some (v, r) → norm (term inner s) = termTail inner v r.
Proof.
  unfold term. destruct (factor inner s) as [[v' r']|]; [|done]. unfold norm at 1. cbn [fmap option_fmap option_map mbind option_bind fst snd]. intros [= -> <-]. rewrite termLoop_tail by lia. apply termTail_skip. by rewrite skipSpaces_idem.
Qed.
Lemma termTail_star inner value b s v r : blanks b → norm (factor inner s) = Some (v, r) → termTail inner value (b ++ "*"%chr :: s) = termTail inner (combine value v "*"%chr) r.
Proof.
  intros Hb E. rewrite (termTail_skip _ _ _ ("*"%chr :: s)) by (by rewrite skipSpaces_blanks). unfold termTail at 1. cbn [termLoop]. rewrite skipSpaces_head by done. rewrite Z.eqb_refl.
  destruct (factor inner s) as [[v' r']|] eqn:Ef; [|done]. unfold norm in E. cbn in E. injection E as -> <-. cbn [mbind option_bind fst snd]. apply factor_length in Ef. rewrite termLoop_tail by (cbn; lia).
  apply termTail_skip. by rewrite skipSpaces_idem.
Qed.
Lemma termTail_star_None inner value b s : blanks b → factor inner s = None → termTail inner value (b ++ "*"%chr :: s) = None.
Proof.
  intros Hb E. rewrite (termTail_skip _ _ _ ("*"%chr :: s)) by (by rewrite skipSpaces_blanks). unfold termTail. cbn [termLoop]. rewrite skipSpaces_head by done. by rewrite Z.eqb_refl, E.
Qed.
Lemma termLoop_length inner fuel value s v r : termLoop fuel inner value s = Some (v, r) → (length r ≤ length s)%nat.
Proof.
  revert value s. induction fuel as [|fuel IH]; intros value s; [done|]. cbn [termLoop]. pose proof (skipSpaces_length s) as Hl. destruct (skipSpaces s) as [|c next]; [intros [= _ <-]; lia|].
  destruct (c =? _); [|intros [= _ <-]; lia]. destruct (factor inner next) as [[v' r']|] eqn:E; [|done]. cbn [mbind option_bind fst snd]. apply factor_length in E. intros Ht%IH. cbn [length] in Hl. lia.
Qed.
Lemma term_length inner s v r : term inner s = Some (v, r) → (length r < length s)%nat.
Proof.
  unfold term. destruct (factor inner s) as [[v' r']|] eqn:E; [|done]. cbn [mbind option_bind fst snd]. apply factor_length in E. intros Ht%termLoop_length. lia.
Qed.
Lemma sumLoop_fuel inner fuel fuel' result op s : (length s < fuel)%nat → (length s < fuel')%nat → sumLoop fuel inner result op s = sumLoop fuel' inner result op s.
Proof.
  revert fuel' result op s. induction fuel as [|fuel IH]; intros fuel' result op s Hf Hf'; [lia|]. destruct fuel' as [|fuel']; [lia|]. cbn [sumLoop].
  destruct (term inner s) as [[v r]|] eqn:E; [|done]. cbn [mbind option_bind fst snd]. apply term_length in E. pose proof (skipSpaces_length r) as Hl. destruct (skipSpaces r) as [|c rest]; [done|]. cbn [length] in Hl.
  destruct (negb _); [done|]. destruct (bool_decide _); [done|]. apply IH; lia.
Qed.
(** A sum after a term. *)
Definition sumTail (inner : bytes → option Z) (result : Z) (s : bytes) : option Z :=
  match skipSpaces s with
  | [] => Some result
  | c :: rest => if negb (isSign c) then None else if bool_decide (rest = []) then None else sumLoop (S (length rest)) inner result c rest
  end.
Lemma sumLoop_term inner fuel result op s v r : (length s < fuel)%nat → norm (term inner s) = Some (v, r) → sumLoop fuel inner result op s = sumTail inner (combine result v op) r.
Proof.
  intros Hf E. destruct fuel as [|fuel]; [lia|]. cbn [sumLoop]. unfold sumTail. destruct (term inner s) as [[v' r']|] eqn:Et; [|done]. unfold norm in E. cbn [fmap option_fmap option_map fst snd] in E. injection E as -> <-.
  cbn [mbind option_bind fst snd]. rewrite skipSpaces_idem. apply term_length in Et. pose proof (skipSpaces_length r') as Hl. destruct (skipSpaces r') as [|c rest]; [done|]. cbn [length] in Hl.
  destruct (negb _); [done|]. destruct (bool_decide _); [done|]. apply sumLoop_fuel; lia.
Qed.
Lemma sumLoop_None inner fuel result op s : norm (term inner s) = None → sumLoop fuel inner result op s = None.
Proof. destruct fuel as [|fuel]; [done|]. cbn [sumLoop]. by destruct (term inner s) as [[v r]|]. Qed.

(** ** Names *)

Definition isEnd (c : Z) : bool := isOperator c || isBlank c.
(** The text of a token stops before this. *)
Definition stops (rest : bytes) : Prop := match skipSpaces rest with [] => True | c :: _ => isOperator c = true end.
Lemma isEnd_cases c : isEnd c = true → c = 43 ∨ c = 45 ∨ c = 42 ∨ c = 32 ∨ c = 9.
Proof. unfold isEnd, isOperator, isSign, isBlank. change ("+"%chr) with 43. change ("-"%chr) with 45. change ("*"%chr) with 42. rewrite !orb_true_iff, !Z.eqb_eq. tauto. Qed.
Lemma stops_endsAt rest : stops rest → endsAt rest = true.
Proof.
  unfold stops. destruct rest as [|c rest]; [done|]. cbn. destruct (isBlank c); [by rewrite orb_true_r|]. by intros ->.
Qed.
Lemma tolower_end c d : isEnd c = true → tolower d = tolower c → d = c.
Proof.
  intros Hc. apply isEnd_cases in Hc. unfold tolower, between. change ("A"%chr) with 65. change ("Z"%chr) with 90. destruct (Z.leb_spec 65 d), (Z.leb_spec d 90), (Z.leb_spec 65 c), (Z.leb_spec c 90); cbn [andb]; lia.
Qed.

(** The modules that count for a length: a name of this length that ends where a token may. *)
Definition counts (s : bytes) (m : ModuleInfo) : Prop :=
  mod_name m ≠ [] ∧ (length (mod_name m) ≤ length s)%nat ∧ sameNameIgnoringCase (take (length (mod_name m)) s) (mod_name m) = true ∧ endsAt (drop (length (mod_name m)) s) = true.
Lemma moduleLength_spec s modules : (moduleLength s modules = O ∨ ∃ m, m ∈ modules ∧ counts s m ∧ moduleLength s modules = length (mod_name m)) ∧
  ∀ m, m ∈ modules → counts s m → (length (mod_name m) ≤ moduleLength s modules)%nat.
Proof.
  unfold moduleLength. induction modules as [|m modules [IH1 IH2]] using rev_ind; [split; [by left|by intros m ?%not_elem_of_nil]|]. rewrite foldl_app. cbn [foldl].
  match goal with |- context [foldl ?f O modules] => set (n := foldl f O modules) in * end. clearbody n.
  assert (counts s m ↔ bool_decide (mod_name m = []) = false ∧ bool_decide (length s < length (mod_name m))%nat = false ∧ sameNameIgnoringCase (take (length (mod_name m)) s) (mod_name m) = true ∧ endsAt (drop (length (mod_name m)) s) = true) as Hcounts.
  { unfold counts. rewrite !bool_decide_eq_false. split; intros (? & ? & ? & ?); split_and!; done || lia. }
  destruct (bool_decide_reflect (mod_name m = [])), (bool_decide_reflect (length (mod_name m) ≤ n)%nat), (bool_decide_reflect (length s < length (mod_name m))%nat), (sameNameIgnoringCase _ _), (endsAt _); cbn [orb negb];
    split; try (destruct IH1 as [?|(m' & ? & ? & ?)]; [by left|right; exists m'; split; [apply elem_of_app; by left|done]]);
    try (intros m' [Hm'|Hm'%list_elem_of_singleton]%elem_of_app; [by apply IH2|subst m']; intros Hm'; apply Hcounts in Hm' as (? & ? & ? & ?); done || lia).
  - right. exists m. split; [apply elem_of_app; right; by apply list_elem_of_singleton|]. split; [by apply Hcounts|done].
  - intros m' [Hm'|Hm'%list_elem_of_singleton]%elem_of_app; [|by subst m']. intros Hc. specialize (IH2 m' Hm' Hc). lia.
Qed.

Definition headOf (s : bytes) : bytes := take (spanOf (λ c, negb (isEnd c)) s) s.
(** A token: one word, or the name of a module, whatever it holds; no module has a longer
    name that could be meant. *)
Record name_ok (t : bytes) : Prop := {
  nm_tight : tight t;
  nm_first : ∃ c s, t = c :: s ∧ isOperator c = false ∧ c ≠ "["%chr ∧ c ≠ 34 ∧ c ≠ 39;
  nm_brackets : Forall (λ c, c ≠ "["%chr ∧ c ≠ "]"%chr) t;
  nm_longest m : plainNumber (headOf t) = false → m ∈ ex_modules → (length t < length (mod_name m))%nat → sameNameIgnoringCase (take (length t) (mod_name m)) t = true →
    endsAt (drop (length t) (mod_name m)) = false;
  nm_word : Forall (λ c, isEnd c = false) t ∨ plainNumber (headOf t) = false ∧ ∃ m, m ∈ ex_modules ∧ sameNameIgnoringCase (mod_name m) t = true
}.
Lemma spanOf_app_stop p t rest : match rest with [] => True | c :: _ => p c = false end → spanOf p (t ++ rest) = spanOf p t.
Proof.
  intros Hr. induction t as [|c t IH]; cbn; [destruct rest as [|c rest]; [done|]; cbn; by rewrite Hr|]. destruct (p c); [by rewrite IH|done].
Qed.
Lemma endsAt_head rest : endsAt rest = true → match rest with [] => True | c :: _ => isEnd c = true end.
Proof. by destruct rest. Qed.
Lemma headOf_app t rest : endsAt rest = true → headOf (t ++ rest) = headOf t.
Proof.
  intros Hr%endsAt_head. unfold headOf. rewrite spanOf_app_stop; [|destruct rest; [done|by rewrite Hr]]. pose proof (spanOf_le (λ c, negb (isEnd c)) t). by rewrite take_app_le.
Qed.
Lemma same_sym a b : sameNameIgnoringCase a b = true → sameNameIgnoringCase b a = true.
Proof. unfold sameNameIgnoringCase. rewrite !bool_decide_eq_true. done. Qed.
Lemma same_length a b : sameNameIgnoringCase a b = true → length a = length b.
Proof. unfold sameNameIgnoringCase. rewrite bool_decide_eq_true. intros E%(f_equal length). by rewrite !length_fmap in E. Qed.
(** A name that goes on after a token does so with a character that ends a token. *)
Lemma same_longer t rest name : sameNameIgnoringCase (t ++ rest) name = true → rest ≠ [] → endsAt rest = true →
  (length t < length name)%nat ∧ sameNameIgnoringCase (take (length t) name) t = true ∧ endsAt (drop (length t) name) = true.
Proof.
  intros Hs Hne He. pose proof (same_length _ _ Hs) as Hl. rewrite length_app in Hl. assert (0 < length rest)%nat by (destruct rest; [done|cbn; lia]). split; [lia|].
  unfold sameNameIgnoringCase in *. rewrite bool_decide_eq_true in *. rewrite <- (take_drop (length t) name) in Hs. rewrite !fmap_app in Hs. apply app_inj_1 in Hs as [H1 H2]; [|rewrite !length_fmap, length_take; lia].
  split; [done|]. destruct rest as [|c rest]; [done|]. apply endsAt_head in He. destruct (drop (length t) name) as [|d l]; [done|]. cbn in H2. injection H2 as H2 _. symmetry in H2. apply (tolower_end c d He) in H2 as ->. exact He.
Qed.
Lemma moduleLength_name t rest : name_ok t → endsAt rest = true → let n := moduleLength (t ++ rest) (if plainNumber (headOf t) then [] else ex_modules) in
  n = length t ∨ n = O ∧ Forall (λ c, isEnd c = false) t.
Proof.
  intros [Ht Hfirst _ Hlong Hword] Hr. cbv zeta. destruct (plainNumber (headOf t)) eqn:Hp; [destruct Hword as [Hw|[? _]]; [by right|done]|]. specialize (λ m, Hlong m eq_refl).
  destruct (moduleLength_spec (t ++ rest) ex_modules) as [H1 H2]. set (n := moduleLength _ _) in *. clearbody n.
  assert (∀ m, m ∈ ex_modules → counts (t ++ rest) m → (length (mod_name m) ≤ length t)%nat) as Hle.
  { intros m Hm (Hne & Hlen & Hs & He). destruct (Nat.le_gt_cases (length (mod_name m)) (length t)) as [?|Hgt]; [done|]. exfalso. rewrite take_app_ge in Hs by lia.
    assert (take (length (mod_name m) - length t) rest ≠ []) as Hne' by (intros E%(f_equal length); rewrite length_take in E; rewrite length_app in Hlen; cbn in E; lia).
    assert (endsAt (take (length (mod_name m) - length t) rest) = true) as He' by (destruct rest, (length (mod_name m) - length t)%nat; done).
    destruct (same_longer t _ _ Hs Hne' He') as (Ha & Hb & Hc). by rewrite Hlong in Hc. }
  destruct Hword as [Hw|[_ (m & Hm & Hs)]].
  - destruct H1 as [?|(m & Hm & Hc & Hn)]; [by right|]. left. pose proof (Hle m Hm Hc). destruct Hc as (Hne & Hlen & Hs & He). destruct (decide (length (mod_name m) = length t)) as [E|Hlt]; [congruence|].
    exfalso. rewrite drop_app_le in He by lia. destruct (drop (length (mod_name m)) t) as [|c l] eqn:E; [apply (f_equal length) in E; rewrite length_drop in E; cbn in E; lia|].
    assert (c ∈ t) as Hc by (rewrite <- (take_drop (length (mod_name m)) t), E; apply elem_of_app; right; left). rewrite Forall_forall in Hw. specialize (Hw c Hc). unfold isEnd in Hw. cbn in He. congruence.
  - left. pose proof (same_length _ _ Hs) as Hl. assert (length t ≤ n)%nat as Hge.
    { rewrite <- Hl. apply H2; [done|]. split_and!.
      - intros E. rewrite E in Hl. destruct Hfirst as (c & t' & -> & _). done.
      - rewrite length_app. lia.
      - rewrite Hl, take_app_length. by apply same_sym.
      - by rewrite Hl, drop_app_length. }
    destruct H1 as [Hz|(m' & Hm' & Hc & Hn)]; [destruct Hfirst as (c & t' & -> & _); cbn in Hge; lia|]. specialize (Hle m' Hm' Hc). lia.
Qed.

(** *** Longer names *)

(** A text with a star in it that no symbol and no module is called is no token. *)
Definition unnamed (u : bytes) : Prop := ex_lookup u = None ∧ moduleBase u = None.
Lemma star_unnamed c u : c ≠ 34 → c ≠ 39 → ("*"%chr : Z) ∈ c :: u → unnamed (c :: u) → resolveToken (c :: u) = None.
Proof.
  intros Hq1 Hq2 Hin [Hl Hm].
  assert (∀ p l, p ("*"%chr : Z) = false → ("*"%chr : Z) ∈ l → forallb p l = false) as Hx.
  { intros p l Hp Hl'. destruct (forallb p l) eqn:E; [|done]. rewrite forallb_forall in E. specialize (E ("*"%chr : Z)). rewrite <- list_elem_of_In in E. rewrite Hp in E. discriminate (E Hl'). }
  unfold resolveToken. rewrite (proj2 (Z.eqb_neq c 34)), (proj2 (Z.eqb_neq c 39)), andb_false_r by done. cbn [andb]. destruct (_ && _) eqn:E0x.
  - apply andb_true_iff in E0x as [[_ Hzero]%andb_true_iff Hox]. apply Z.eqb_eq in Hzero as ->. destruct u as [|x u]; [done|]. change (drop 2 ("0"%chr :: x :: u)) with u.
    unfold numberOf. case_bool_decide; [done|]. change (forallb _ u) with (forallb isxdigit u). rewrite Hx; [done|done|]. apply elem_of_cons in Hin as [|[Hin|Hin]%elem_of_cons]; [done| |done].
    rewrite <- Hin in Hox. done.
  - destruct (Z.eqb_spec c "#"%chr) as [->|_].
    + apply elem_of_cons in Hin as [|Hin]; [done|]. unfold numberOf. case_bool_decide; [done|]. change (forallb _ u) with (forallb isdigit u). by rewrite Hx.
    + rewrite Hx by done. cbn [andb]. by rewrite Hl, Hm.
Qed.
(** No longer text than [t] is a name, of those the parser asks for where a star follows:
    texts that end at a later star or at the next sign. *)
Definition longest (t rest : bytes) : Prop :=
  plainNumber (headOf t) = false → (∀ m, m ∈ ex_modules → ¬ counts (t ++ rest) m) →
  ∀ n, let stop := spanOf (λ c, negb (isSign c)) (t ++ rest) in
    (length t + spanOf isBlank rest < n ≤ stop)%nat → n = stop ∨ (t ++ rest) !! n = Some ("*"%chr : Z) → unnamed (trim (take n (t ++ rest))).

Lemma rfindStar_spec s n : match rfindStar s n with
  | Some m => (m ≤ n)%nat ∧ s !! m = Some ("*"%chr : Z) ∧ ∀ k, (m < k ≤ n)%nat → s !! k ≠ Some ("*"%chr : Z)
  | None => ∀ k, (k ≤ n)%nat → s !! k ≠ Some ("*"%chr : Z)
  end.
Proof.
  induction n as [|n IH]; cbn [rfindStar].
  - case_bool_decide as H; [split; [lia|split; [done|lia]]|]. intros k Hk. by assert (k = O) as -> by lia.
  - case_bool_decide as H; [split; [lia|split; [done|lia]]|]. destruct (rfindStar s n) as [m|].
    + destruct IH as (H1 & H2 & H3). split; [lia|split; [done|]]. intros k Hk. destruct (decide (k = S n)) as [->|]; [done|]. apply H3. lia.
    + intros k Hk. destruct (decide (k = S n)) as [->|]; [done|]. apply IH. lia.
Qed.
Lemma tight_star t b : tight t → tight (t ++ b ++ ["*"%chr : Z]).
Proof. intros Ht. apply tight_app; [done|]. split; by eexists. Qed.

Section Span.
Context (t b r : bytes) (Ht : tight t) (Hb : blanks b).
Context (Hfirst : ∃ c t', t = c :: t' ∧ c ≠ 34 ∧ c ≠ 39).
Notation s := (t ++ b ++ r).
Notation here := (length t + length b)%nat.
Context (stop : nat) (Hlong : ∀ n, (here < n ≤ stop)%nat → n = stop ∨ s !! n = Some ("*"%chr : Z) → unnamed (trim (take n s))).
Context (Hstar : (here < stop)%nat → head r = Some ("*"%chr : Z)).
(** What the loop over the ends of a symbol asks for beyond the text is no token. *)
Lemma span_beyond n : (here < n ≤ stop)%nat → n = stop ∨ s !! n = Some ("*"%chr : Z) → resolveToken (trim (take n s)) = None.
Proof using All.
  intros Hn Hc. pose proof (Hlong n Hn Hc) as Hu. specialize (Hstar ltac:(lia)). destruct r as [|c y]; [done|]. injection Hstar as ->.
  assert (take n (t ++ b ++ "*"%chr :: y) = (t ++ b ++ ["*"%chr]) ++ take (n - (here + 1)) y) as E.
  { replace (t ++ b ++ "*"%chr :: y) with ((t ++ b ++ ["*"%chr : Z]) ++ y) by (by rewrite <- !app_assoc). rewrite take_app_ge by (rewrite !length_app; cbn; lia). f_equal. f_equal. rewrite !length_app. cbn. lia. }
  rewrite E in *. destruct (trim_prefix (t ++ b ++ ["*"%chr]) (take (n - (here + 1)) y)) as [y' E']; [by apply tight_star|]. rewrite E' in *.
  destruct Hfirst as (c & t' & -> & Hq1 & Hq2). cbn [app] in *. apply star_unnamed; [done|done| |done]. right. rewrite <- app_assoc. apply elem_of_app. right. apply elem_of_app. left. apply elem_of_app. right. by left.
Qed.
Lemma spanLoop_None fuel : ∀ n, (n ≤ stop)%nat → n = stop ∨ s !! n = Some ("*"%chr : Z) → spanLoop fuel s n here = None.
Proof using All.
  induction fuel as [|fuel IH]; intros n Hn Hc; [done|]. cbn [spanLoop]. destruct (bool_decide_reflect (n ≤ here)%nat); [done|]. rewrite span_beyond by (done || lia).
  pose proof (rfindStar_spec s (n - 1)) as Hr. destruct (rfindStar _ _) as [m|]; [|done]. destruct (bool_decide _); [done|]. apply IH; [lia|right; apply Hr].
Qed.
Lemma spanLoop_Some v firstStar fuel : resolveToken t = Some v → (firstStar < here)%nat → (here ≤ stop)%nat → ∀ n, (here ≤ n ≤ stop)%nat → n = stop ∨ s !! n = Some ("*"%chr : Z) → (n - here < fuel)%nat →
  spanLoop fuel s n firstStar = Some (v, r).
Proof using All.
  intros Hv Hf Hstop. induction fuel as [|fuel IH]; intros n Hn Hc Hfuel; [lia|]. cbn [spanLoop]. rewrite bool_decide_false by lia. destruct (decide (n = here)) as [->|Hne].
  - rewrite app_assoc, <- length_app, take_app_length, drop_app_length. pose proof (trim_tight [] t b ltac:(constructor) Ht Hb) as E. cbn [app] in E. by rewrite E, Hv.
  - rewrite span_beyond by (done || lia). pose proof (rfindStar_spec s (n - 1)) as Hr.
    assert (s !! here = Some ("*"%chr : Z)) as Hs by (rewrite app_assoc, <- length_app, lookup_app_r, Nat.sub_diag by lia; rewrite <- head_lookup; apply Hstar; lia).
    destruct (rfindStar _ _) as [m|]; [|by destruct (Hr here ltac:(lia))]. destruct Hr as (H1 & H2 & H3). assert (here ≤ m)%nat by (destruct (Nat.le_gt_cases here m); [done|]; by destruct (H3 here ltac:(lia))).
    rewrite bool_decide_false by lia. apply IH; [lia|by right|lia].
Qed.
End Span.
Definition inWord (c : Z) : Prop := isOperator c = false ∧ isSign c = false ∧ (c =? "*"%chr) = false.
Lemma word_char c : isEnd c = false → inWord c.
Proof. unfold isEnd, inWord, isOperator. rewrite !orb_false_iff. tauto. Qed.
Lemma blank_char c : isBlank c = true → inWord c.
Proof. unfold isBlank. rewrite orb_true_iff, !Z.eqb_eq. by intros [->| ->]. Qed.
Lemma spanOf_blanks b r : blanks b → match r with [] => True | c :: _ => isBlank c = false end → spanOf isBlank (b ++ r) = length b.
Proof. intros Hb Hr. rewrite spanOf_app by done. destruct r as [|c r]; [cbn; lia|]. rewrite spanOf_stop by done. lia. Qed.
Lemma skipSpaces_not_blank s : match skipSpaces s with [] => True | c :: _ => isBlank c = false end.
Proof. induction s as [|c s IH]; [done|]. cbn [skipSpaces]. by destruct (isBlank c) eqn:E. Qed.
Lemma spanOf_member (p : Z → bool) l r c : c ∈ l → p c = false → (spanOf p (l ++ r) < length l)%nat.
Proof.
  induction l as [|d l IH]; [by intros ?%not_elem_of_nil|]. cbn [app spanOf length]. intros [->|Hc]%elem_of_cons Hp; [rewrite Hp; lia|]. specialize (IH Hc Hp). destruct (p d); lia.
Qed.
(** A text where no module is named: what the parser takes of it ends with the text. *)
Lemma wordFactor_free t rest : tight t → (∃ c t', t = c :: t' ∧ c ≠ 34 ∧ c ≠ 39) → Forall (λ c, isSign c = false) t →
  moduleLength (t ++ rest) (if plainNumber (headOf t) then [] else ex_modules) = O → stops rest → longest t rest →
  (("*"%chr : Z) ∈ t → plainNumber (headOf t) = false ∧ is_Some (resolveToken t)) →
  norm (wordFactor (t ++ rest)) = (λ v, (v, skipSpaces rest)) <$> resolveToken t.
Proof.
  intros Ht Hfirst Hsigns Hm Hr Hlong Hstarred. pose proof (stops_endsAt rest Hr) as He. unfold wordFactor.
  change (take (spanOf (λ c, negb (isOperator c || isBlank c)) (t ++ rest)) (t ++ rest)) with (headOf (t ++ rest)). rewrite headOf_app, Hm by done. rewrite bool_decide_true by done. cbn [negb].
  destruct (skipSpaces_split rest) as (b & Hb & Erest). pose proof (skipSpaces_not_blank rest) as Hnb. set (r := skipSpaces rest) in *.
  assert (spanOf isBlank rest = length b) as Hblank by (rewrite Erest; by apply spanOf_blanks).
  assert (∀ p, Forall (λ c, p c = true) t → (∀ c, inWord c → p c = true) → spanOf p (t ++ rest) = (length t + length b + spanOf p r)%nat) as Hspan.
  { intros p Hp Hpb. rewrite Erest at 1. rewrite app_assoc, spanOf_app, length_app; [done|]. apply Forall_app. split; [done|]. eapply Forall_impl; [exact Hb|]. intros c ?. by apply Hpb, blank_char. }
  pose proof (Hspan (λ c, negb (isSign c)) ltac:(eapply Forall_impl; [exact Hsigns|]; by intros c ->) ltac:(intros c (_ & -> & _); done)) as Hstop. cbv beta in Hstop.
  assert (Hcand : plainNumber (headOf t) = false → ∀ n, (length t + length b < n ≤ spanOf (λ c, negb (isSign c)) (t ++ rest))%nat →
    n = spanOf (λ c, negb (isSign c)) (t ++ rest) ∨ (t ++ b ++ r) !! n = Some ("*"%chr : Z) → unnamed (trim (take n (t ++ b ++ r)))).
  { intros Hp n Hn Hc. rewrite <- Erest in *. apply Hlong; [done| |by rewrite Hblank|done]. rewrite Hp in Hm. intros m Hin Hcnt. pose proof (proj2 (moduleLength_spec (t ++ rest) ex_modules) m Hin Hcnt) as Hle. rewrite Hm in Hle. destruct Hcnt as [Hne _]. destruct (mod_name m); [done|cbn in Hle; lia]. }
  assert (Hhead : (length t + length b < spanOf (λ c, negb (isSign c)) (t ++ rest))%nat → head r = Some ("*"%chr : Z)).
  { rewrite Hstop. unfold stops in Hr. fold r in Hr. destruct r as [|c y]; [cbn; lia|]. intros Hlt. unfold isOperator in Hr. cbn [spanOf] in Hlt. destruct (isSign c); [cbn in Hlt; lia|]. cbn [orb] in Hr. apply Z.eqb_eq in Hr as ->. done. }
  destruct (decide (("*"%chr : Z) ∈ t)) as [Hin|Hin].
  - destruct (Hstarred Hin) as [Hp [v Hv]]. rewrite Hp, Hv. cbn [negb andb]. pose proof (spanOf_member (λ c, negb (c =? "*"%chr)) t rest "*"%chr Hin eq_refl) as Hfs.
    set (stop := spanOf (λ c, negb (isSign c)) (t ++ rest)) in *. set (first := spanOf (λ c, negb (c =? "*"%chr)) (t ++ rest)) in *. clearbody stop first. rewrite bool_decide_true by lia.
    assert (spanLoop (S stop) (t ++ rest) stop first = Some (v, r)) as ->; [|unfold norm; cbn; unfold r; by rewrite skipSpaces_idem].
    rewrite Erest. apply (spanLoop_Some t b r Ht Hb Hfirst stop (Hcand Hp) Hhead v); [done|lia|lia|lia|by left|lia].
  - assert (Forall (λ c, negb (c =? "*"%chr) = true) t) as Hns by (apply Forall_forall; intros c Hc; apply negb_true_iff, Z.eqb_neq; by intros ->).
    pose proof (Hspan (λ c, negb (c =? "*"%chr)) Hns ltac:(intros c (_ & _ & ->); done)) as Hfs. cbv beta in Hfs.
    assert (Forall (λ c, negb (isOperator c) = true) t) as Hno by (apply Forall_forall; intros c Hc; rewrite Forall_forall in Hsigns, Hns; unfold isOperator; rewrite (Hsigns c Hc); specialize (Hns c Hc); by destruct (c =? _)).
    pose proof (Hspan (λ c, negb (isOperator c)) Hno ltac:(intros c (-> & _ & _); done)) as Hop. cbv beta in Hop.
    assert (spanOf (λ c, negb (isOperator c)) r = O) as Hop0 by (unfold stops in Hr; fold r in Hr; destruct r as [|c y]; [done|]; by rewrite spanOf_stop by (by rewrite Hr)). rewrite Hop0, Nat.add_0_r in Hop.
    assert ((if negb (plainNumber (headOf t)) && bool_decide (spanOf (λ c, negb (c =? "*"%chr)%Z) (t ++ rest) < spanOf (λ c, negb (isSign c)) (t ++ rest))%nat
      then spanLoop (S (spanOf (λ c, negb (isSign c)) (t ++ rest))) (t ++ rest) (spanOf (λ c, negb (isSign c)) (t ++ rest)) (spanOf (λ c, negb (c =? "*"%chr)) (t ++ rest)) else None) = None) as ->.
    { destruct (plainNumber (headOf t)) eqn:Hp; [done|]. cbn [negb andb]. case_bool_decide as Hlt; [|done]. specialize (Hhead ltac:(lia)). destruct r as [|c y]; [done|]. injection Hhead as ->. change (spanOf _ ("*"%chr :: y)) with O in Hfs. rewrite Nat.add_0_r in Hfs. rewrite Hfs.
      set (stop := spanOf (λ c, negb (isSign c)) (t ++ rest)) in *. clearbody stop. rewrite Erest. apply (spanLoop_None t b ("*"%chr :: y) Ht Hb Hfirst stop); [by apply Hcand|done|lia|by left]. }
    rewrite Hop. cbv zeta. assert (t ++ rest = (t ++ b) ++ r) as -> by (rewrite Erest at 1; by rewrite app_assoc). rewrite <- length_app, take_app_length, drop_app_length.
    pose proof (trim_tight [] t b ltac:(constructor) Ht Hb) as Etrim. cbn [app] in Etrim. rewrite Etrim. destruct (resolveToken t); [|done]. unfold norm. cbn [fmap option_fmap option_map mbind option_bind fst snd]. unfold r. by rewrite skipSpaces_idem.
Qed.
Lemma wordFactor_name t rest : name_ok t → stops rest → longest t rest → norm (wordFactor (t ++ rest)) = (λ v, (v, skipSpaces rest)) <$> resolveToken t.
Proof.
  intros Hn Hr Hlong. pose proof (stops_endsAt rest Hr) as He. pose proof (moduleLength_name t rest Hn He) as Hm. cbv zeta in Hm. pose proof (nm_tight t Hn) as Ht.
  destruct (nm_first t Hn) as (c0 & t0 & Et & _ & _ & Hq1 & Hq2). destruct Hm as [Hm|[Hm Hw]].
  - unfold wordFactor. change (take (spanOf (λ c, negb (isOperator c || isBlank c)) (t ++ rest)) (t ++ rest)) with (headOf (t ++ rest)). rewrite headOf_app by done.
    assert (trim t = t) as Htrim by (pose proof (trim_tight [] t [] ltac:(constructor) Ht ltac:(constructor)) as E; by rewrite app_nil_r in E).
    rewrite Hm, bool_decide_false by (by rewrite Et). cbn [negb]. rewrite take_app_length, drop_app_length, Htrim. by destruct (resolveToken t).
  - apply wordFactor_free; [done|by exists c0, t0| |done|done|done|].
    + eapply Forall_impl; [exact Hw|]. intros c Hc. by apply word_char in Hc as (_ & ? & _).
    + intros Hin. rewrite Forall_forall in Hw. by specialize (Hw _ Hin).
Qed.
(** A symbol whose name is a phrase: it holds blanks, or the stars of the parameters of a
    demangled C++ name, but no signs and no brackets, and no module is meant. *)
Record phrase_ok (t rest : bytes) : Prop := {
  ph_tight : tight t;
  ph_first : ∃ c s, t = c :: s ∧ isOperator c = false ∧ c ≠ "["%chr ∧ c ≠ 34 ∧ c ≠ 39;
  ph_chars : Forall (λ c, isSign c = false ∧ c ≠ "["%chr ∧ c ≠ "]"%chr) t;
  ph_module : plainNumber (headOf t) = false → ∀ m, m ∈ ex_modules → ¬ counts (t ++ rest) m;
  ph_star : ("*"%chr : Z) ∈ t → plainNumber (headOf t) = false
}.
Lemma wordFactor_phrase t rest : phrase_ok t rest → is_Some (resolveToken t) → stops rest → longest t rest → norm (wordFactor (t ++ rest)) = (λ v, (v, skipSpaces rest)) <$> resolveToken t.
Proof.
  intros [Ht (c & t' & Et & Hop & Hbr & Hq1 & Hq2) Hc Hm Hs] Hv Hr Hlong. apply wordFactor_free; [done|by exists c, t'|eapply Forall_impl; [exact Hc|]; by intros x [? _]| |done|done|auto].
  destruct (plainNumber (headOf t)) eqn:Hp; [done|]. destruct (proj1 (moduleLength_spec (t ++ rest) ex_modules)) as [?|(m & Hin & Hcnt & _)]; [done|]. by destruct (Hm eq_refl m Hin).
Qed.
Lemma factor_word inner b t rest : blanks b → tight t → (∃ c s, t = c :: s ∧ isOperator c = false ∧ c ≠ "["%chr ∧ c ≠ 34 ∧ c ≠ 39) →
  factor inner (b ++ t ++ rest) = wordFactor (t ++ rest).
Proof.
  intros Hb Ht (c & t' & -> & Hop & Hbr & Hq1 & Hq2). unfold factor. rewrite skipSpaces_blanks, tight_skip by done.
  cbn [app]. rewrite Hop, (proj2 (Z.eqb_neq c "["%chr)), (proj2 (Z.eqb_neq c 34)), (proj2 (Z.eqb_neq c 39)) by done. done.
Qed.
Lemma factor_name inner b t rest : blanks b → name_ok t → stops rest → longest t rest → norm (factor inner (b ++ t ++ rest)) = (λ v, (v, skipSpaces rest)) <$> resolveToken t.
Proof. intros Hb Hn Hr Hl. rewrite factor_word by (done || apply Hn). by apply wordFactor_name. Qed.
Lemma factor_phrase inner b t rest : blanks b → phrase_ok t rest → is_Some (resolveToken t) → stops rest → longest t rest → norm (factor inner (b ++ t ++ rest)) = (λ v, (v, skipSpaces rest)) <$> resolveToken t.
Proof. intros Hb Hn Hv Hr Hl. rewrite factor_word by (done || apply Hn). by apply wordFactor_phrase. Qed.
(** Numbers are never continued. *)
Lemma number_longest t rest : plainNumber (headOf t) = true → longest t rest.
Proof. intros E Hp. congruence. Qed.

(** ** The grammar *)

(** Arithmetic wraps at the width of the target's addresses; where 32-bit code runs in a
    64-bit process, at 32 bits when both sides fit. *)
Definition arithWidth (left right : Z) : Z :=
  if ex_proc && (ex_width =? 4) && (negb ex_is64bit || ((left <? 2 ^ 32) && (right <? 2 ^ 32))) then 32 else 64.
Definition arith (left op right : Z) : Z :=
  wrap (arithWidth left right) (if op =? "-"%chr then left - right else if op =? "*"%chr then left * right else left + right).
Lemma land_ones_wrap w z : 0 ≤ w → Z.land z (2 ^ w - 1) = wrap w z.
Proof. intros Hw. rewrite Z.sub_1_r, <- Z.ones_equiv. by apply Z.land_ones. Qed.
Lemma combine_arith left right op : combine left right op = arith left op right.
Proof.
  unfold combine, arith, arithWidth, mask, mixedWidth. set (z := if op =? "-"%chr then left - right else _). destruct ex_proc, (ex_width =? 4), ex_is64bit; cbn [andb orb negb];
    try (change UINTPTR_MAX with (2 ^ 64 - 1); rewrite land_ones_wrap by done; by rewrite wrap_idem); [|change UINT32_MAX with (2 ^ 32 - 1); rewrite land_ones_wrap by done; by apply wrap_wrap].
  change UINTPTR_MAX with (2 ^ 64 - 1). rewrite land_ones_wrap, wrap_idem by done. change UINT32_MAX with (2 ^ 32 - 1).
  destruct (Z.leb_spec left (2 ^ 32 - 1)), (Z.ltb_spec left (2 ^ 32)), (Z.leb_spec right (2 ^ 32 - 1)), (Z.ltb_spec right (2 ^ 32)); cbn [andb]; try lia; try done.
  destruct (Z.ltb_spec (2 ^ 32 - 1) (wrap 64 z)); [rewrite land_ones_wrap by done; by apply wrap_wrap|]. pose proof (wrap_bound 64 z ltac:(lia)) as Hb. rewrite <- (wrap_wrap 32 64 z) by lia. symmetry. apply wrap_small. lia_w.
Qed.

(** No number in any of the forms. *)
Definition wordy (t : bytes) : Prop := match t with [] => False | c :: _ => c ≠ "#"%chr end ∧ starts_with (bs "0x") t = false ∧ starts_with (bs "0X") t = false ∧ forallb isxdigit t = false.
Definition dereferenced (v : option Z) : option Z := if ex_proc then v ≫= loadPointer else None.
(** The texts of a nesting of at most [d] brackets, each with the text that follows it up to
    the end of the brackets it is in, and their values.  What follows matters to names only:
    a name goes on as long as some symbol has the longer name. *)
Inductive denotesFactor : nat → bytes → bytes → option Z → Prop :=
  | dn_hex d n rest : is_u64 n → denotesFactor d (bs "0x" ++ to_digits 16 n) rest (Some n)
  | dn_bare d n rest : is_u64 n → n < 10 ∨ 16 ≤ n → denotesFactor d (to_digits 16 n) rest (Some n)
  | dn_dec d n rest : is_u64 n → denotesFactor d (bs "#" ++ to_digits 10 n) rest (Some n)
  | dn_symbol d t a rest : name_ok t → wordy t → ex_lookup t = Some a → longest t rest → denotesFactor d t rest (Some a)
  | dn_module d t rest : name_ok t → wordy t → ex_lookup t = None → longest t rest → denotesFactor d t rest (moduleBase t)
  | dn_phrase d t a rest : phrase_ok t rest → wordy t → ex_lookup t = Some a → longest t rest → denotesFactor d t rest (Some a)
  | dn_quoted d q t rest : q = 34 ∨ q = 39 → Forall (λ c, c ≠ q ∧ c ≠ "["%chr ∧ c ≠ "]"%chr) t →
      denotesFactor d (q :: t ++ [q]) rest (match ex_lookup t with Some a => Some a | None => moduleBase t end)
  | dn_deref d b1 t b2 v rest : blanks b1 → blanks b2 → denotesSum d t [] v → denotesFactor (S d) ("["%chr :: b1 ++ t ++ b2 ++ ["]"%chr]) rest (dereferenced v)
with denotesTerm : nat → bytes → bytes → option Z → Prop :=
  | dt_factor d t rest v : denotesFactor d t rest v → denotesTerm d t rest v
  | dt_mul d t v b1 b2 t' v' rest : denotesTerm d t (b1 ++ "*"%chr :: b2 ++ t' ++ rest) v → blanks b1 → blanks b2 → denotesFactor d t' rest v' →
      denotesTerm d (t ++ b1 ++ "*"%chr :: b2 ++ t') rest (let? x := v in let? y := v' in Some (arith x "*"%chr y))
with denotesSum : nat → bytes → bytes → option Z → Prop :=
  | ds_term d t v rest : denotesTerm d t rest v → denotesSum d t rest (let? x := v in Some (arith 0 "+"%chr x))
  | ds_signed d op b t v rest : isSign op = true → blanks b → denotesTerm d t rest v → denotesSum d (op :: b ++ t) rest (let? x := v in Some (arith 0 op x))
  | ds_add d t v op b1 b2 t' v' rest : denotesSum d t (b1 ++ op :: b2 ++ t' ++ rest) v → isSign op = true → blanks b1 → blanks b2 → denotesTerm d t' rest v' →
      denotesSum d (t ++ b1 ++ op :: b2 ++ t') rest (let? x := v in let? y := v' in Some (arith x op y)).
Scheme denotesFactor_mut := Minimality for denotesFactor Sort Prop
with denotesTerm_mut := Minimality for denotesTerm Sort Prop
with denotesSum_mut := Minimality for denotesSum Sort Prop.
Combined Scheme denotes_mut from denotesFactor_mut, denotesTerm_mut, denotesSum_mut.

(** ** Numbers *)

Lemma hex_not_x d : 0 ≤ d < 16 → (digit_char d =? "x"%chr) = false ∧ (digit_char d =? "X"%chr) = false.
Proof using.
  intros Hd. unfold digit_char. change ("0"%chr) with 48. change ("a"%chr) with 97. change ("x"%chr) with 120. change ("X"%chr) with 88. rewrite !Z.eqb_neq. destruct (Z.ltb_spec d 10); lia.
Qed.
Lemma strtoull_hex_digits n : is_u64 n → strtoull_all 16 (to_digits 16 n) = Some n.
Proof using.
  intros Hn. unfold in_width in Hn. unfold strtoull_all, strto. rewrite c_str_id by (apply to_digits_no_nul; lia). pose proof (scan_to_digits 16 n [] ltac:(lia) ltac:(lia) I) as Hs. rewrite app_nil_r in Hs.
  pose proof (to_digits_valid 16 n ltac:(lia) ltac:(lia)) as Hv. destruct (to_digits_cons 16 n) as (c & s & He & d & Hd & ->); [lia..|]. rewrite He, skip_read_digit by lia. rewrite <- He.
  assert (read_prefix 16 (to_digits 16 n) = (16, to_digits 16 n)) as ->.
  { rewrite He in *. apply Forall_cons_1 in Hv as [_ Hv]. destruct s as [|x s]; [done|]. apply Forall_cons_1 in Hv as [(e & Hx & ->) _]. destruct (hex_not_x e Hx) as [H1 H2].
    unfold read_prefix. rewrite H1, H2. destruct s; [done|]. cbn [orb]. rewrite andb_false_r. done. }
  rewrite Hs, bool_decide_false by (by rewrite He). by rewrite (proj2 (Z.leb_le _ _)) by (change UINT64_MAX with (2 ^ 64 - 1); lia).
Qed.
Lemma hex_digits n : is_u64 n → Forall (λ c, isxdigit c = true) (to_digits 16 n) ∧ to_digits 16 n ≠ [].
Proof using.
  intros Hn. unfold in_width in Hn. split; [|by destruct (to_digits_cons 16 n) as (c & s & -> & _); [lia..|]]. eapply Forall_impl; [apply to_digits_valid; lia|]. intros c (d & Hd & ->). by apply isxdigit_char.
Qed.
Lemma dec_digits n : is_u64 n → Forall (λ c, isdigit c = true) (to_digits 10 n) ∧ to_digits 10 n ≠ [].
Proof using.
  intros Hn. unfold in_width in Hn. split; [|by destruct (to_digits_cons 10 n) as (c & s & -> & _); [lia..|]]. eapply Forall_impl; [apply to_digits_valid; lia|]. intros c (d & Hd & ->).
  apply between_spec. by apply digit_char_range10.
Qed.
Lemma numberOf_digits base text n : text ≠ [] → Forall (λ c, (if base =? 16 then isxdigit c else isdigit c) = true) text → strtoull_all base text = Some n → numberOf text base = Some n.
Proof using.
  intros Hne Hall Hs. unfold numberOf. rewrite bool_decide_false by done. assert (forallb (λ c, if base =? 16 then isxdigit c else isdigit c) text = true) as ->; [|done].
  apply forallb_forall. intros c Hc%list_elem_of_In. rewrite Forall_forall in Hall. by apply Hall.
Qed.

(** The characters of numbers. *)
Definition numChar (c : Z) : Prop := isxdigit c = true ∨ c = "x"%chr ∨ c = "#"%chr.
Lemma numChar_plain c : numChar c → isEnd c = false ∧ isOperator c = false ∧ isBlank c = false ∧ c ≠ "["%chr ∧ c ≠ "]"%chr ∧ c ≠ 34 ∧ c ≠ 39.
Proof using.
  unfold numChar, isEnd, isOperator, isSign, isBlank, isxdigit, isdigit, between. change ("["%chr) with 91. change ("]"%chr) with 93. change ("x"%chr) with 120. change ("#"%chr) with 35. change ("+"%chr) with 43. change ("-"%chr) with 45. change ("*"%chr) with 42.
  change ("0"%chr) with 48. change ("9"%chr) with 57. change ("a"%chr) with 97. change ("f"%chr) with 102. change ("A"%chr) with 65. change ("F"%chr) with 70.
  rewrite !orb_true_iff, !andb_true_iff, !Z.leb_le, !orb_false_iff, !Z.eqb_neq. lia.
Qed.
Lemma word_head t : Forall (λ c, isEnd c = false) t → headOf t = t.
Proof using.
  intros Hw. unfold headOf. rewrite <- (app_nil_r t) at 1. rewrite spanOf_app; [|eapply Forall_impl; [exact Hw|]; by intros x ->]. cbn [spanOf]. rewrite Nat.add_0_r. by rewrite firstn_all.
Qed.
Lemma number_name_ok t : t ≠ [] → Forall numChar t → plainNumber t = true → name_ok t ∧ plainNumber (headOf t) = true.
Proof using.
  intros Hne Hall Hp. assert (Forall (λ c, isEnd c = false) t) as Hw by (eapply Forall_impl; [exact Hall|]; intros c Hc; by apply numChar_plain).
  assert (∀ c, c ∈ t → isBlank c = false) as Hb by (intros c Hc; rewrite Forall_forall in Hall; by apply numChar_plain, Hall).
  pose proof (word_head t Hw) as Hh. rewrite Hh. split; [split; rewrite ?Hh|done].
  - split; [destruct t as [|c t]; [done|]; exists c; split; [done|apply Hb; by left]|]. destruct (last t) as [c|] eqn:E; [|by apply last_None in E]. exists c. split; [done|]. apply Hb. apply last_Some in E as [l ->]. apply elem_of_app. right. by left.
  - destruct t as [|c t]; [done|]. apply Forall_cons_1 in Hall as [Hc _]. exists c, t. apply numChar_plain in Hc. tauto.
  - eapply Forall_impl; [exact Hall|]. intros c Hc%numChar_plain. tauto.
  - congruence.
  - by left.
Qed.
Lemma forallb_Forall {A} (p : A → bool) l : Forall (λ c, p c = true) l → forallb p l = true.
Proof using. intros H. apply forallb_forall. intros c Hc%list_elem_of_In. rewrite Forall_forall in H. by apply H. Qed.
Lemma not_quote c : c ≠ 34 → c ≠ 39 → (c =? 34) || (c =? 39) = false.
Proof using. intros. by rewrite !(proj2 (Z.eqb_neq _ _)). Qed.
Lemma hex_name n : is_u64 n → (name_ok (bs "0x" ++ to_digits 16 n) ∧ plainNumber (headOf (bs "0x" ++ to_digits 16 n)) = true) ∧ resolveToken (bs "0x" ++ to_digits 16 n) = Some n.
Proof using.
  intros Hn. destruct (hex_digits n Hn) as [Hx Hne]. split.
  - apply number_name_ok; [done| |].
    + apply Forall_app. split; [constructor; [by left|constructor; [by right; left|constructor]]|]. eapply Forall_impl; [exact Hx|]. by left.
    + change (forallb isxdigit (to_digits 16 n) = true). by apply forallb_Forall.
  - change (bs "0x" ++ to_digits 16 n) with ("0"%chr :: "x"%chr :: to_digits 16 n). unfold resolveToken. rewrite !len_cons. pose proof (len_nonneg (to_digits 16 n)). rewrite (proj2 (Z.leb_le 2 _)) by lia.
    cbn [andb]. change (drop 2 ("0"%chr :: "x"%chr :: to_digits 16 n)) with (to_digits 16 n). apply numberOf_digits; [done|done|by apply strtoull_hex_digits].
Qed.
Lemma prefix_0x t : starts_with (bs "0x") t || starts_with (bs "0X") t = match t with c :: x :: _ => (c =? "0"%chr) && ((x =? "x"%chr) || (x =? "X"%chr)) | _ => false end.
Proof using.
  change (bs "0x") with ["0"%chr : Z; "x"%chr]. change (bs "0X") with ["0"%chr : Z; "X"%chr]. destruct t as [|c [|x t]]; [done|cbn [starts_with]; by rewrite !andb_false_r|].
  cbn [starts_with]. rewrite !andb_true_r, (Z.eqb_sym c), (Z.eqb_sym x "x"%chr), (Z.eqb_sym x "X"%chr). by destruct (_ =? c).
Qed.
Lemma no_prefix_0x c s : starts_with (bs "0x") (c :: s) || starts_with (bs "0X") (c :: s) = false →
  (2 <=? len (c :: s)) && (c =? "0"%chr) && match s with x :: _ => (x =? "x"%chr) || (x =? "X"%chr) | [] => false end = false.
Proof using. rewrite prefix_0x. destruct s as [|x s]; [by rewrite andb_false_r|]. rewrite <- andb_assoc. intros ->. by rewrite andb_false_r. Qed.
Lemma long_bare_name n : is_u64 n → 16 ≤ n → (name_ok (to_digits 16 n) ∧ plainNumber (headOf (to_digits 16 n)) = true) ∧ resolveToken (to_digits 16 n) = Some n.
Proof using.
  intros Hn Hge. destruct (hex_digits n Hn) as [Hx Hne]. pose proof (strtoull_hex_digits n Hn) as Hs. unfold in_width in Hn.
  assert (2 ≤ len (to_digits 16 n)) as Hlen.
  { unfold to_digits. cbn [digits_fuel]. rewrite (proj2 (Z.eqb_neq (n / 16) 0)) by (pose proof (Z.div_str_pos n 16 ltac:(lia)); lia). rewrite digits_fuel_app, len_app. change (len [digit_char (n mod 16)]) with 1.
    enough (1 ≤ len (digits_fuel (Z.to_nat (Z.log2 n)) 16 (n / 16) [])) by lia. assert (4 ≤ Z.log2 n) by (apply (Z.log2_le_pow2 n 4); lia).
    destruct (Z.to_nat (Z.log2 n)) as [|k] eqn:Ek; [lia|]. cbn [digits_fuel]. destruct (_ =? _); [done|]. rewrite digits_fuel_app, len_app. change (len [digit_char ((n / 16) mod 16)]) with 1. pose proof (len_nonneg (digits_fuel k 16 (n / 16 / 16) [])). lia. }
  assert (∀ c, c ∈ to_digits 16 n → isxdigit c = true) as Hc by (by apply Forall_forall).
  assert (starts_with (bs "0x") (to_digits 16 n) || starts_with (bs "0X") (to_digits 16 n) = false) as H0x.
  { pose proof (to_digits_valid 16 n ltac:(lia) ltac:(lia)) as Hv. destruct (to_digits 16 n) as [|c [|x s]]; [done|by cbn in Hlen|]. apply Forall_cons_1 in Hv as [_ [(d & Hd & ->) _]%Forall_cons_1]. destruct (hex_not_x d Hd) as [H1 H2].
    rewrite prefix_0x, H1, H2. by rewrite andb_false_r. }
  split.
  - apply number_name_ok; [done|eapply Forall_impl; [exact Hx|]; by left|]. unfold plainNumber. destruct (to_digits 16 n) as [|c s] eqn:E; [done|]. rewrite H0x. change (drop 0 (c :: s)) with (c :: s). rewrite (forallb_Forall _ _ Hx). by rewrite orb_true_r.
  - destruct (to_digits 16 n) as [|c s] eqn:E; [done|]. unfold resolveToken. rewrite not_quote by (apply (numChar_plain c); left; apply Hc; by left). rewrite andb_false_r. cbn [andb].
    rewrite no_prefix_0x by done.
    assert ((c =? "#"%chr) = false) as ->. { apply Z.eqb_neq. intros ->. discriminate (Hc ("#"%chr : Z) ltac:(by left)). }
    rewrite (forallb_Forall _ _ Hx), (proj2 (Z.leb_le _ _)) by done. cbn [andb orb]. by apply numberOf_digits.
Qed.
Lemma bare_name n : is_u64 n → n < 10 ∨ 16 ≤ n → (name_ok (to_digits 16 n) ∧ plainNumber (headOf (to_digits 16 n)) = true) ∧ resolveToken (to_digits 16 n) = Some n.
Proof using.
  intros Hn [Hlt|Hge]; [|by apply long_bare_name]. assert (n ∈ seqZ 0 10) as Hin by (apply elem_of_seqZ; unfold in_width in Hn; lia). revert Hin. clear.
  assert (Forall (λ n, (name_ok (to_digits 16 n) ∧ plainNumber (headOf (to_digits 16 n)) = true) ∧ resolveToken (to_digits 16 n) = Some n) (seqZ 0 10)) as Hall; [|by rewrite Forall_forall in Hall; apply Hall].
  change (seqZ 0 10) with [0; 1; 2; 3; 4; 5; 6; 7; 8; 9]. repeat constructor; try done; apply number_name_ok; try done; repeat constructor.
Qed.
Lemma dec_name n : is_u64 n → (name_ok (bs "#" ++ to_digits 10 n) ∧ plainNumber (headOf (bs "#" ++ to_digits 10 n)) = true) ∧ resolveToken (bs "#" ++ to_digits 10 n) = Some n.
Proof using.
  intros Hn. destruct (dec_digits n Hn) as [Hx Hne]. split.
  - apply number_name_ok; [done| |done]. constructor; [by right; right|]. eapply Forall_impl; [exact Hx|]. intros c Hc. left. unfold isxdigit. by rewrite Hc.
  - change (bs "#" ++ to_digits 10 n) with ("#"%chr :: to_digits 10 n). unfold resolveToken. rewrite not_quote, andb_false_r by done. cbn [andb]. rewrite no_prefix_0x by done. change ("#"%chr =? "#"%chr) with true. cbv iota.
    apply numberOf_digits; [done|done|]. apply strtoull_to_digits. change UINT64_MAX with (2 ^ 64 - 1). unfold in_width in Hn. lia.
Qed.
Lemma wordy_resolves t : (∃ c s, t = c :: s ∧ isOperator c = false ∧ c ≠ "["%chr ∧ c ≠ 34 ∧ c ≠ 39) → wordy t → resolveToken t = match ex_lookup t with Some a => Some a | None => moduleBase t end.
Proof using.
  intros (c & s & -> & _ & _ & Hq1 & Hq2) (Hhash & H0x & H0X & Hx). unfold resolveToken. rewrite not_quote by done. rewrite andb_false_r. cbn [andb].
  rewrite no_prefix_0x by (by rewrite H0x, H0X).
  rewrite (proj2 (Z.eqb_neq _ _)) by done. rewrite Hx. cbn [andb]. destruct (ex_lookup (c :: s)); [done|]. by destruct (moduleBase (c :: s)).
Qed.

(** ** Quotes and brackets *)

Lemma quoted_resolves q t : q = 34 ∨ q = 39 → resolveToken (q :: t ++ [q]) = match ex_lookup t with Some a => Some a | None => moduleBase t end.
Proof using.
  intros Hq. unfold resolveToken. assert ((q =? 34) || (q =? 39) = true) as -> by (destruct Hq as [-> | ->]; done). rewrite len_cons, len_snoc. pose proof (len_nonneg t). rewrite (proj2 (Z.leb_le _ _)) by lia.
  rewrite bool_decide_true by (by rewrite app_comm_cons, last_snoc). cbn [andb]. assert (slice (q :: t ++ [q]) 1 (1 + (len t + 1) - 2) = t) as ->; [|done].
  unfold slice, len. change (drop (Z.to_nat 1) (q :: t ++ [q])) with (t ++ [q]). replace (Z.to_nat _) with (length t) by lia. apply take_app_length.
Qed.
Lemma factor_quoted inner b q t rest : blanks b → q = 34 ∨ q = 39 → Forall (λ c, c ≠ q) t →
  norm (factor inner (b ++ (q :: t ++ [q]) ++ rest)) = (λ v, (v, skipSpaces rest)) <$> (match ex_lookup t with Some a => Some a | None => moduleBase t end).
Proof using.
  intros Hb Hq Ht. unfold factor. rewrite skipSpaces_blanks by done. rewrite <- quoted_resolves with (q := q) by done. cbn [app]. rewrite skipSpaces_head by (by destruct Hq as [-> | ->]).
  assert (isOperator q = false ∧ (q =? "["%chr) = false ∧ (q =? 34) || (q =? 39) = true) as (-> & -> & ->) by (destruct Hq as [-> | ->]; done). cbv zeta. rewrite <- app_assoc. cbn [app].
  rewrite spanOf_app by (eapply Forall_impl; [exact Ht|]; intros c Hc; by rewrite (proj2 (Z.eqb_neq _ _))). rewrite spanOf_stop, Nat.add_0_r by (by rewrite Z.eqb_refl). rewrite bool_decide_false by (rewrite length_app; cbn; lia).
  replace (q :: t ++ q :: rest) with ((q :: t ++ [q]) ++ rest) by (cbn; by rewrite <- app_assoc). replace (length t + 2)%nat with (length (q :: t ++ [q])) by (cbn; rewrite length_app; cbn; lia). rewrite take_app_length, drop_app_length.
  by destruct (resolveToken _).
Qed.
(** The brackets of a text match. *)
Definition balanced (t : bytes) : Prop := ∀ k rest, closeBracket (S k) (t ++ rest) = (λ r, (t ++ r.1, r.2)) <$> closeBracket (S k) rest.
Lemma balanced_plain t : Forall (λ c, c ≠ "["%chr ∧ c ≠ "]"%chr) t → balanced t.
Proof using.
  intros H k rest. induction H as [|c t [H1 H2] _ IH]; [cbn; by destruct (closeBracket (S k) rest) as [[? ?]|]|]. cbn [app closeBracket]. rewrite !(proj2 (Z.eqb_neq _ _)) by done. rewrite IH. by destruct (closeBracket (S k) rest).
Qed.
Lemma balanced_app t t' : balanced t → balanced t' → balanced (t ++ t').
Proof using.
  intros H H' k rest. rewrite <- app_assoc, H, H'. destruct (closeBracket (S k) rest) as [r|]; [|done]. cbn. by rewrite <- app_assoc.
Qed.
Lemma balanced_bracket t : balanced t → balanced ("["%chr :: t ++ ["]"%chr]).
Proof using.
  intros H k rest. cbn [app closeBracket]. change ("["%chr =? "["%chr) with true. cbv iota. rewrite <- app_assoc, H. cbn [app closeBracket]. change ("]"%chr =? "["%chr) with false. change ("]"%chr =? "]"%chr) with true. cbv iota.
  destruct (closeBracket (S k) rest) as [r|]; [|done]. cbn. by rewrite <- app_assoc.
Qed.
Lemma closeBracket_balanced t rest : balanced t → closeBracket 1 (t ++ "]"%chr :: rest) = Some (t, rest).
Proof using. intros H. rewrite (H O). cbn. by rewrite app_nil_r. Qed.
Lemma blank_bracket b : blanks b → balanced b.
Proof using. intros Hb. apply balanced_plain. eapply Forall_impl; [exact Hb|]. intros c. unfold isBlank. rewrite orb_true_iff, !Z.eqb_eq. by intros [->| ->]. Qed.

(** What the texts of the grammar have in common. *)
Definition text_ok (t : bytes) : Prop := tight t ∧ balanced t.
Definition operand (t : bytes) : Prop := ∃ c s, t = c :: s ∧ isOperator c = false.
Lemma operator_ok b1 op b2 t t' : text_ok t → text_ok t' → isOperator op = true → blanks b1 → blanks b2 → text_ok (t ++ b1 ++ op :: b2 ++ t').
Proof using.
  intros [T1 B1] [T2 B2] Hop H1 H2. replace (t ++ b1 ++ op :: b2 ++ t') with (t ++ (b1 ++ op :: b2) ++ t') by (by rewrite <- app_assoc). split; [by apply tight_app|].
  apply balanced_app; [done|]. apply balanced_app; [|done]. apply balanced_app; [by apply blank_bracket|]. apply (balanced_app [op] b2); [|by apply blank_bracket]. apply balanced_plain. constructor; [|done].
  unfold isOperator, isSign in Hop. rewrite !orb_true_iff, !Z.eqb_eq in Hop. destruct Hop as [[->| ->]| ->]; done.
Qed.
Lemma name_text t : name_ok t → text_ok t ∧ operand t.
Proof using. intros Hn. split; [split; [by apply nm_tight|by apply balanced_plain, nm_brackets]|]. destruct (nm_first t Hn) as (c & s & -> & ? & _). by exists c, s. Qed.
Lemma phrase_text t rest : phrase_ok t rest → text_ok t ∧ operand t.
Proof using.
  intros Hn. split; [split; [by eapply ph_tight|apply balanced_plain; eapply Forall_impl; [by eapply ph_chars|]; by intros c [_ ?]]|]. destruct (ph_first t rest Hn) as (c & s & -> & ? & _). by exists c, s.
Qed.
Lemma denotes_text :
  (∀ d t rest v, denotesFactor d t rest v → text_ok t ∧ operand t) ∧ (∀ d t rest v, denotesTerm d t rest v → text_ok t ∧ operand t) ∧ (∀ d t rest v, denotesSum d t rest v → text_ok t).
Proof using.
  apply denotes_mut.
  - intros d n rest Hn. by apply name_text, hex_name.
  - intros d n rest Hn Hge. by apply name_text, bare_name.
  - intros d n rest Hn. by apply name_text, dec_name.
  - intros. by apply name_text.
  - intros. by apply name_text.
  - intros. by eapply phrase_text.
  - intros d q t rest Hq Ht. assert (isBlank q = false ∧ isOperator q = false ∧ q ≠ "["%chr ∧ q ≠ "]"%chr) as (H1 & H2 & H3 & H4) by (destruct Hq as [-> | ->]; done). split; [split|].
    + split; [by exists q|]. exists q. by rewrite app_comm_cons, last_snoc.
    + apply balanced_plain. constructor; [done|]. apply Forall_app. split; [eapply Forall_impl; [exact Ht|]; by intros c (_ & ? & ?)|by repeat constructor].
    + by exists q, (t ++ [q]).
  - intros d b1 t b2 v rest H1 H2 _ [Ht Hb]. split; [split|].
    + split; [by eexists|]. exists "]"%chr. split; [|done]. rewrite !app_assoc, app_comm_cons. by rewrite last_snoc.
    + replace (b1 ++ t ++ b2 ++ ["]"%chr : Z]) with ((b1 ++ t ++ b2) ++ ["]"%chr : Z]) by (by rewrite <- !app_assoc). apply balanced_bracket. apply balanced_app; [by apply blank_bracket|]. apply balanced_app; [done|by apply blank_bracket].
    + by eexists _, _.
  - done.
  - intros d t v b1 b2 t' v' rest _ [Ht (c & s & -> & Hc)] H1 H2 _ [Ht' _]. split; [by apply operator_ok|]. by eexists c, _.
  - intros d t v rest _ [Ht _]. done.
  - intros d op b t v rest Hop Hb _ [[Ht Hbt] (c & s & -> & Hc)]. assert (isBlank op = false ∧ op ≠ "["%chr ∧ op ≠ "]"%chr) as (H1 & H2 & H3) by (unfold isSign in Hop; rewrite orb_true_iff, !Z.eqb_eq in Hop; destruct Hop as [->| ->]; done). split.
    + apply (tight_app [op] b (c :: s)); [|done]. split; by exists op.
    + apply (balanced_app [op]); [apply balanced_plain; by repeat constructor|]. apply balanced_app; [by apply blank_bracket|done].
  - intros d t v op b1 b2 t' v' rest _ Ht Hop H1 H2 _ [Ht' _]. apply operator_ok; try done. unfold isOperator. by rewrite Hop.
Qed.

(** ** The parser computes the values of the grammar *)

(** What a sum may be followed by. *)
Definition stopsSum (rest : bytes) : Prop := match skipSpaces rest with [] => True | c :: _ => isSign c = true end.
Lemma stopsSum_stops rest : stopsSum rest → stops rest ∧ match skipSpaces rest with [] => True | c :: _ => c ≠ "*"%chr end.
Proof using. unfold stopsSum, stops, isOperator. destruct (skipSpaces rest) as [|c r]; [done|]. intros Hc. rewrite Hc. split; [done|]. by intros ->. Qed.
Lemma operator_blank op : isOperator op = true → isBlank op = false.
Proof using. unfold isOperator, isSign. rewrite !orb_true_iff, !Z.eqb_eq. by intros [[->| ->]| ->]. Qed.
Lemma stops_operator b op r : blanks b → isOperator op = true → stops (b ++ op :: r).
Proof using. intros Hb Hop. unfold stops. rewrite skipSpaces_blanks, skipSpaces_head by (done || by apply operator_blank). done. Qed.
Lemma stopsSum_sign b op r : blanks b → isSign op = true → stopsSum (b ++ op :: r).
Proof using. intros Hb Hop. unfold stopsSum. rewrite skipSpaces_blanks, skipSpaces_head by (done || apply operator_blank; unfold isOperator; by rewrite Hop). done. Qed.
(** [parseImpl] after trimming. *)
Definition sumOf (inner : bytes → option Z) (s : bytes) : option Z :=
  match s with
  | [] => None
  | c :: rest => let '(op, s) := if isSign c then (c, rest) else ("+"%chr, s) in sumLoop (S (length s)) inner 0 op s
  end.
Lemma parseImpl_sumOf levels expr : parseImpl (S levels) expr = sumOf (parseImpl levels) (trim expr).
Proof using. cbn [parseImpl]. unfold sumOf. by destruct (trim expr). Qed.
Lemma sumTail_skip inner x rest : sumTail inner x (skipSpaces rest) = sumTail inner x rest.
Proof using. unfold sumTail. by rewrite skipSpaces_idem. Qed.
(** A term with nothing after it, then the rest of the sum. *)
Lemma sumLoop_value inner result op s v rest : stopsSum rest → norm (term inner s) = (v ≫= λ x, termTail inner x rest) →
  sumLoop (S (length s)) inner result op s = (let? x := v in sumTail inner (arith result op x) rest).
Proof using.
  intros Hr E. destruct v as [x|]; cbn [mbind option_bind] in *; [|by apply sumLoop_None]. rewrite termTail_stop in E by (by apply stopsSum_stops). rewrite (sumLoop_term _ _ _ _ _ _ _ (Nat.lt_succ_diag_r _) E).
  by rewrite sumTail_skip, combine_arith.
Qed.
Lemma expression_denotes :
  (∀ d t rest v, denotesFactor d t rest v → ∀ levels b, (d ≤ levels)%nat → blanks b → stops rest → norm (factor (parseImpl levels) (b ++ t ++ rest)) = (λ x, (x, skipSpaces rest)) <$> v) ∧
  (∀ d t rest v, denotesTerm d t rest v → ∀ levels b, (d ≤ levels)%nat → blanks b → stops rest → norm (term (parseImpl levels) (b ++ t ++ rest)) = (v ≫= λ x, termTail (parseImpl levels) x rest)) ∧
  (∀ d t rest v, denotesSum d t rest v → ∀ levels, (d ≤ levels)%nat → stopsSum rest → sumOf (parseImpl levels) (t ++ rest) = (v ≫= λ x, sumTail (parseImpl levels) x rest)).
Proof using.
  apply denotes_mut.
  - intros d n rest Hn levels b _ Hb Hr. destruct (hex_name n Hn) as [[Hok Hp] E]. by rewrite factor_name, E by auto using number_longest.
  - intros d n rest Hn Hge levels b _ Hb Hr. destruct (bare_name n Hn Hge) as [[Hok Hp] E]. by rewrite factor_name, E by auto using number_longest.
  - intros d n rest Hn levels b _ Hb Hr. destruct (dec_name n Hn) as [[Hok Hp] E]. by rewrite factor_name, E by auto using number_longest.
  - intros d t a rest Hok Hw Ha Hl levels b _ Hb Hr. by rewrite factor_name, wordy_resolves, Ha by (done || by apply nm_first).
  - intros d t rest Hok Hw Ha Hl levels b _ Hb Hr. by rewrite factor_name, wordy_resolves, Ha by (done || by apply nm_first).
  - intros d t a rest Hok Hw Ha Hl levels b _ Hb Hr. assert (resolveToken t = Some a) as E by (by rewrite wordy_resolves, Ha by (done || by eapply ph_first)). by rewrite factor_phrase, E by (done || by eexists).
  - intros d q t rest Hq Ht levels b _ Hb Hr. apply factor_quoted; [done|done|]. eapply Forall_impl; [exact Ht|]. tauto.
  - intros d b1 t b2 v rest H1 H2 Hsum IH levels b Hd Hb Hr. destruct levels as [|levels]; [lia|]. pose proof (proj2 (proj2 denotes_text) _ _ _ _ Hsum) as [Ht Hbal].
    unfold factor. rewrite skipSpaces_blanks by done. cbn [app]. rewrite skipSpaces_head by done. change (isOperator "["%chr) with false. change ("["%chr =? "["%chr) with true. cbv iota.
    replace ((b1 ++ t ++ b2 ++ ["]"%chr : Z]) ++ rest) with ((b1 ++ t ++ b2) ++ "]"%chr :: rest) by (by rewrite <- !app_assoc).
    rewrite closeBracket_balanced by (apply balanced_app; [by apply blank_bracket|]; apply balanced_app; [done|by apply blank_bracket]). cbn [mbind option_bind fst snd]. unfold dereferenced. destruct ex_proc; [|done]. cbn [negb].
    rewrite parseImpl_sumOf, trim_tight by done. specialize (IH levels ltac:(lia) I). rewrite app_nil_r in IH. rewrite IH. destruct v as [x|]; [|done]. cbn. by destruct (loadPointer x).
  - intros d t rest v _ IH levels b Hd Hb Hr. specialize (IH levels b Hd Hb Hr). destruct v as [x|]; cbn [fmap option_fmap option_map mbind option_bind] in *.
    + rewrite (term_norm _ _ _ _ IH). apply termTail_skip. by rewrite skipSpaces_idem.
    + unfold term. by destruct (factor _ _).
  - intros d t v b1 b2 t' v' rest _ IH H1 H2 _ IH' levels b Hd Hb Hr.
    replace ((t ++ b1 ++ "*"%chr :: b2 ++ t') ++ rest) with (t ++ b1 ++ "*"%chr :: b2 ++ t' ++ rest) by (rewrite <- !app_assoc; cbn; by rewrite <- !app_assoc).
    rewrite IH by (done || by apply stops_operator). destruct v as [x|]; [|done]. cbn [mbind option_bind]. specialize (IH' levels b2 Hd H2 Hr). destruct v' as [y|]; cbn [fmap option_fmap option_map mbind option_bind] in *.
    + rewrite (termTail_star _ _ _ _ _ _ H1 IH'), combine_arith. apply termTail_skip. by rewrite skipSpaces_idem.
    + apply termTail_star_None; [done|]. by destruct (factor _ _).
  - intros d t v rest Ht IH levels Hd Hr. pose proof (proj1 (proj2 denotes_text) _ _ _ _ Ht) as [_ (c & s & Et & Hc)]. specialize (IH levels [] Hd ltac:(constructor) (proj1 (stopsSum_stops rest Hr))). cbn [app] in IH.
    unfold sumOf. rewrite Et in *. cbn [app] in *. assert (isSign c = false) as -> by (unfold isOperator in Hc; by apply orb_false_iff in Hc as [? _]). rewrite (sumLoop_value _ _ _ _ v rest Hr IH). by destruct v.
  - intros d op b t v rest Hop Hb _ IH levels Hd Hr. specialize (IH levels b Hd Hb (proj1 (stopsSum_stops rest Hr))). unfold sumOf. cbn [app]. rewrite Hop. rewrite <- app_assoc.
    rewrite (sumLoop_value _ _ _ _ v rest Hr IH). by destruct v.
  - intros d t v op b1 b2 t' v' rest _ IH Hop H1 H2 Ht' IH' levels Hd Hr.
    replace ((t ++ b1 ++ op :: b2 ++ t') ++ rest) with (t ++ b1 ++ op :: b2 ++ t' ++ rest) by (rewrite <- !app_assoc; cbn; by rewrite <- !app_assoc).
    rewrite IH by (done || by apply stopsSum_sign). destruct v as [x|]; [|done]. cbn [mbind option_bind]. specialize (IH' levels b2 Hd H2 (proj1 (stopsSum_stops rest Hr))).
    unfold sumTail at 1. rewrite skipSpaces_blanks, skipSpaces_head by (done || apply operator_blank; unfold isOperator; by rewrite Hop). rewrite Hop. cbn [negb].
    rewrite bool_decide_false by (pose proof (proj1 (proj2 denotes_text) _ _ _ _ Ht') as [_ (c & s & -> & _)]; by destruct b2). rewrite (sumLoop_value _ _ _ _ v' rest Hr IH'). by destruct v'.
Qed.
End Grammar.

(** C12: an expression of the grammar, with at most 64 brackets inside one another, evaluates
    to what the grammar says: products before sums, sums from the left, each step wrapped at
    the width of the target's addresses, and the operators in a module's name part of the
    name.  The name of a symbol may hold blanks and stars, as the demangled names of C++ do;
    where a star follows a name, the longest text up to a later star or the next sign that
    names something is taken, so that [name*2] is a product unless something is called
    that. *)
Theorem parse_grammar {T : ExprTarget} d t v b1 b2 : (d ≤ kMaxDepth)%nat → denotesSum d t [] v → blanks b1 → blanks b2 → parse (b1 ++ t ++ b2) = v.
Proof.
  intros Hd Ht H1 H2. unfold parse. rewrite parseImpl_sumOf, trim_tight by (done || by apply (proj2 (proj2 denotes_text) _ _ _ _ Ht)).
  pose proof (proj2 (proj2 expression_denotes) _ _ _ _ Ht kMaxDepth Hd I) as E. rewrite app_nil_r in E. rewrite E. by destruct v.
Qed.

Lemma arith_bound {T : ExprTarget} l op r : is_u64 (arith l op r) ∧ (ex_proc = true → ex_width = 4 → ex_is64bit = false → arith l op r < 2 ^ 32).
Proof.
  unfold arith, arithWidth. split; [|intros -> -> ->; cbn [andb orb negb Z.eqb]; by apply wrap_bound]. destruct (_ && _); [|by apply wrap_bound].
  match goal with |- in_width 64 (wrap 32 ?z) => pose proof (wrap_bound 32 z ltac:(lia)) end. lia_w.
Qed.
Lemma sumLoop_bound {T : ExprTarget} fuel inner result op s v : sumLoop fuel inner result op s = Some v → ∃ l op r, v = arith l op r.
Proof.
  revert result op s. induction fuel as [|fuel IH]; intros result op s; [done|]. cbn [sumLoop]. destruct (term inner s) as [[x r]|]; [|done]. cbn [mbind option_bind fst snd].
  destruct (skipSpaces r) as [|c rest]; [intros [= <-]; rewrite combine_arith; by eexists _, _, _|]. destruct (negb _); [done|]. destruct (bool_decide _); [done|]. apply IH.
Qed.
(** An address an expression evaluates to has 64 bits, and 32 on a target whose
    addresses have 32. *)
Theorem parse_bound {T : ExprTarget} expr v : parse expr = Some v → is_u64 v ∧ (ex_proc = true → ex_width = 4 → ex_is64bit = false → v < 2 ^ 32).
Proof.
  unfold parse. rewrite parseImpl_sumOf. unfold sumOf. destruct (trim expr) as [|c s]; [done|]. destruct (if isSign c then _ else _) as [op s']. intros (l & op' & r & ->)%sumLoop_bound. apply arith_bound.
Qed.

(** ** Instances *)

Definition sampleModule : ModuleInfo := mkModuleInfo 4194304 4096 (bs "game-1.exe") (bs "/game-1.exe") true (mkTargetMachine X86_64 Little LinuxX86_64 ModeX86_64 8 Little).
#[local] Instance sampleExpr : ExprTarget := {|
  ex_proc := true; ex_modules := [sampleModule];
  ex_lookup name := if bytes_eqb name (bs "player") || bytes_eqb name (bs "Game::hit(Player*, int)") then Some 4096 else None;
  ex_width := 8; ex_is64bit := true; ex_widthAt _ := 8; ex_orderAt _ := Little;
  ex_read a n := if a =? 4194320 then Some (le_bytes (Z.to_nat n) 65536) else None |}.
Lemma sample_word t : match t with c :: _ => negb (isOperator c) && negb (c =? "["%chr) && negb (c =? 34) && negb (c =? 39) | [] => false end &&
    forallb (λ c, negb (c =? "["%chr) && negb (c =? "]"%chr) && negb (isBlank c)) t && (10 <=? len t) = true →
  Forall (λ c, isEnd c = false) t ∨ plainNumber (headOf t) = false ∧ sameNameIgnoringCase (bs "game-1.exe") t = true → name_ok t.
Proof.
  rewrite !andb_true_iff. intros [[Hfirst Hall] Hlen] Hword. rewrite forallb_forall in Hall. apply Z.leb_le in Hlen.
  assert (∀ c, c ∈ t → c ≠ "["%chr ∧ c ≠ "]"%chr ∧ isBlank c = false) as Hc.
  { intros c Hc%list_elem_of_In%Hall. rewrite !andb_true_iff, !negb_true_iff, !Z.eqb_neq in Hc. tauto. }
  destruct t as [|c s]; [done|]. rewrite !andb_true_iff, !negb_true_iff, !Z.eqb_neq in Hfirst. split.
  - split; [exists c; split; [done|apply Hc; by left]|]. destruct (last (c :: s)) as [x|] eqn:E; [|by apply last_None in E]. exists x. split; [done|]. apply Hc. apply last_Some in E as [l ->]. apply elem_of_app. right. by left.
  - exists c, s. tauto.
  - apply Forall_forall. intros x Hx. destruct (Hc x Hx) as (? & ? & _). done.
  - intros m _ Hm%list_elem_of_singleton. subst m. change (mod_name sampleModule) with (bs "game-1.exe"). intros Hl. change (length (bs "game-1.exe")) with 10%nat in Hl. unfold len in Hlen. lia.
  - destruct Hword as [?|[? ?]]; [by left|right]. split; [done|]. exists sampleModule. split; [by left|done].
Qed.
Definition noNameAt (s : bytes) (stop n : nat) : bool :=
  negb ((n =? stop)%nat || match s !! n with Some c => c =? "*"%chr | None => false end) ||
  match ex_lookup (trim (take n s)), moduleBase (trim (take n s)) with None, None => true | _, _ => false end.
Lemma longest_by t rest : let s := t ++ rest in let stop := spanOf (λ c, negb (isSign c)) s in let from := S (length t + spanOf isBlank rest) in
  forallb (noNameAt s stop) (seq from (S stop - from)) = true → longest t rest.
Proof.
  cbv zeta. intros H _ _ n stop Hn Hc. unfold stop in *. rewrite forallb_forall in H. specialize (H n). rewrite in_seq in H. specialize (H ltac:(lia)). unfold noNameAt in H.
  assert ((n =? spanOf (λ c, negb (isSign c)) (t ++ rest))%nat || match (t ++ rest) !! n with Some c => c =? "*"%chr | None => false end = true) as E by (destruct Hc as [->| ->]; [by rewrite Nat.eqb_refl|by rewrite Z.eqb_refl, orb_true_r]).
  rewrite E in H. cbn [negb orb] in H. unfold unnamed. by destruct (ex_lookup _), (moduleBase _).
Qed.
Lemma sample_phrase : phrase_ok (bs "Game::hit(Player*, int)") (bs "*2").
Proof.
  split.
  - split; by eexists.
  - eexists _, _. by split_and!.
  - by repeat constructor.
  - intros _ m Hm%list_elem_of_singleton (_ & _ & Hs & _). subst m. by vm_compute in Hs.
  - done.
Qed.
Lemma parse_grammar_witness : parse (bs "Game::hit(Player*, int)*2") = Some 8192 ∧ parse (bs " [game-1.exe + 0x10]*2 - #4") = Some 131068.
Proof.
  assert (name_ok (bs "game-1.exe")) as Hname by (apply sample_word; [by vm_compute|right; split; by vm_compute]).
  assert (blanks [32]) as Hb by (by repeat constructor). assert (blanks []) as Hb0 by constructor. split.
  - refine (parse_grammar 0 _ _ [] [] _ (ds_term 0 _ _ _ (dt_mul 0 _ _ [] [] (to_digits 16 2) (Some 2) [] (dt_factor 0 _ _ _ (dn_phrase 0 (bs "Game::hit(Player*, int)") 4096 _ sample_phrase _ _ _)) Hb0 Hb0 (dn_bare 0 2 [] _ _))) Hb0 Hb0);
      [unfold kMaxDepth; lia|by vm_compute|by vm_compute|apply longest_by; by vm_compute|by vm_compute|lia].
  - pose proof (dn_module 0 (bs "game-1.exe") (bs " + 0x10") Hname ltac:(by vm_compute) ltac:(by vm_compute) ltac:(apply longest_by; by vm_compute)) as Hmod.
    pose proof (ds_add 0 _ _ "+"%chr [32] [32] (bs "0x" ++ to_digits 16 16) (Some 16) [] (ds_term 0 _ _ _ (dt_factor 0 _ _ _ Hmod)) eq_refl Hb Hb (dt_factor 0 _ _ _ (dn_hex 0 16 [] ltac:(by vm_compute)))) as Hin.
    pose proof (dt_mul 1 _ _ [] [] (to_digits 16 2) (Some 2) (bs " - #4") (dt_factor 1 _ _ _ (dn_deref 0 [] _ [] _ _ Hb0 Hb0 Hin)) Hb0 Hb0 (dn_bare 1 2 _ ltac:(by vm_compute) ltac:(lia))) as Hmul.
    pose proof (ds_add 1 _ _ "-"%chr [32] [32] (bs "#" ++ to_digits 10 4) (Some 4) [] (ds_term 1 _ _ _ Hmul) eq_refl Hb Hb (dt_factor 1 _ _ _ (dn_dec 1 4 [] ltac:(by vm_compute)))) as Hsum.
    refine (parse_grammar 1 _ _ [32] [] _ Hsum Hb Hb0). unfold kMaxDepth; lia.
Defined.
Lemma parse_bound_witness : is_u64 131068.
Proof. apply (parse_bound (bs " [game-1.exe + 0x10]*2 - #4") 131068). by vm_compute. Defined.
