(* ===== verification/PointerMap.v ===== *)
(** * Pointer maps and pointer paths

    Models the data of [src/scanner/pointer_scanner.hpp] and, from [pointer_scanner.cpp],
    the readable spans, the pointer map with its two indices and its file, path
    resolution against a map, and the spelling and file of pointer paths.  A failing
    [fopen], [fwrite] or [fclose] is not modelled. *)

From stdpp Require Import sorting.
From S2P Require Import Prelude Numeral TargetMachine Types Loops Files StdAlgo.
#[local] Open Scope Z_scope.

Record PointerPath := mkPath {
  path_module : bytes; path_moduleBase : Z; path_baseOffset : Z; path_offsets : list Z
}.
#[export] Instance PointerPath_eq_dec : EqDecision PointerPath.
Proof. solve_decision. Defined.

Record PointerScanConfig := mkConfig {
  targetAddress : Z; maxDepth : Z; maxOffset : Z; negativeOffsets : bool; alignedOnly : bool;
  staticOnly : bool; shardIndex : Z; shardCount : Z; useGpu : bool; gpuMinRegionBytes : Z;
  maxResults : Z; maxVisits : Z; maxMapEntries : Z
}.
Definition withShard (c : PointerScanConfig) (i n : Z) : PointerScanConfig :=
  mkConfig (targetAddress c) (maxDepth c) (maxOffset c) (negativeOffsets c) (alignedOnly c) (staticOnly c)
    i n (useGpu c) (gpuMinRegionBytes c) (maxResults c) (maxVisits c) (maxMapEntries c).

Definition makePointerScanShards (base : PointerScanConfig) (count : Z) : outcome (list PointerScanConfig) :=
  if count =? 0 then Fail "pointer scan shard count must be greater than zero"
  else Ret ((λ i, withShard base i count) <$> seqZ 0 count).

(** ** Spelling of a path *)

Definition isalnum (c : Z) : bool := isdigit c || between "a"%chr c "z"%chr || between "A"%chr c "Z"%chr.
Definition plainChar (c : Z) : bool := isalnum c || (c =? "_"%chr) || (c =? "."%chr) || (c =? "-"%chr).
(** One offset: [+0x%x], or [-0x%x] of the magnitude negated in 64 bits. *)
Definition offsetString (off : Z) : bytes :=
  if 0 <=? off then bs "+0x" ++ to_digits 16 (u32 off) else bs "-0x" ++ to_digits 16 (u32 (- off)).
Definition toString (p : PointerPath) : bytes :=
  let m := path_module p in
  replicate (length (path_offsets p)) "["%chr
  ++ (if forallb plainChar m then m else [34] ++ m ++ [34])
  ++ (if bool_decide (m = []) then [] else bs "+") ++ to_digits 16 (path_baseOffset p)
  ++ mjoin ((λ off, bs "]" ++ offsetString off) <$> path_offsets p).

(** ** Readable spans *)

Record Span := mkSpan { sp_first : Z; sp_last : Z }.
Definition spanOf (r : MemoryRegion) : option Span :=
  if negb (protHas (region_protection r) ProtRead) || (region_size r =? 0) then None
  else Some (mkSpan (region_base r)
    (if UINTPTR_MAX - region_base r <? region_size r - 1 then UINTPTR_MAX
     else region_base r + (region_size r - 1))).
(** The merging loop; the accumulator is [spans_] with its back first. *)
Definition mergeSpan (acc : list Span) (s : Span) : list Span :=
  match acc with
  | back :: acc' =>
      if (sp_last back =? UINTPTR_MAX) || (sp_first s <=? sp_last back + 1)
      then mkSpan (sp_first back) (Z.max (sp_last back) (sp_last s)) :: acc'
      else s :: acc
  | [] => [s]
  end.
Definition readableSpans `{!StdSort} (regions : list MemoryRegion) : list Span :=
  reverse (foldl mergeSpan [] (std_sort (byKey sp_first) (omap spanOf regions))).
Definition contains (spans : list Span) (value : Z) : bool :=
  match spans, last spans with
  | front :: _, Some back =>
      if (value <? sp_first front) || (sp_last back <? value) then false
      else match last (take (upper_bound sp_first spans value) spans) with
           | Some s => value <=? sp_last s
           | None => false
           end
  | _, _ => false
  end.

(** ** Pointer maps *)

Record Entry := mkEntry { pointsTo : Z; locatedAt : Z }.
#[export] Instance Entry_eq_dec : EqDecision Entry.
Proof. solve_decision. Defined.
Record PointerMap := mkMap {
  byTarget : list Entry; byLocated : list Z; map_modules : list ModuleInfo; map_truncated : bool
}.
Definition emptyMap : PointerMap := mkMap [] [] [] false.

(** [byTarget_[idx].locatedAt]; the indices are in range ([indices_ok] below). *)
Definition locationOf (entries : list Entry) (idx : Z) : Z :=
  match lget entries idx with Some e => locatedAt e | None => 0 end.
Definition setEntries `{!StdSort} (m : PointerMap) (entries : list Entry) : PointerMap :=
  let sorted := std_sort (byKey pointsTo) entries in
  mkMap sorted (std_sort (byKey (locationOf sorted)) (u32 <$> seqZ 0 (len sorted)))
    (map_modules m) (map_truncated m).
Definition setModules (m : PointerMap) (ms : list ModuleInfo) : PointerMap :=
  mkMap (byTarget m) (byLocated m) ms (map_truncated m).
Definition setTruncated (m : PointerMap) (t : bool) : PointerMap :=
  mkMap (byTarget m) (byLocated m) (map_modules m) t.

Definition valueAt (m : PointerMap) (addr : Z) : option Z :=
  match byLocated m !! lower_bound (locationOf (byTarget m)) (byLocated m) addr with
  | Some idx =>
      if locationOf (byTarget m) idx =? addr
      then pointsTo <$> lget (byTarget m) idx
      else None
  | None => None
  end.
Definition moduleBase (m : PointerMap) (name : bytes) : Z :=
  match List.find (λ x, bytes_eqb (mod_name x) name) (map_modules m) with
  | Some x => mod_base x | None => 0
  end.
Fixpoint resolveOffsets (m : PointerMap) (addr : Z) (offs : list Z) : Z :=
  match offs with
  | [] => addr
  | off :: offs =>
      match valueAt m addr with
      | Some v => if v =? 0 then 0 else resolveOffsets m (u64 (v + off)) offs
      | None => 0
      end
  end.
Definition resolve (m : PointerMap) (p : PointerPath) : Z :=
  if bool_decide (path_module p = []) then resolveOffsets m (path_baseOffset p) (path_offsets p)
  else let base := moduleBase m (path_module p) in
       if base =? 0 then 0 else resolveOffsets m (u64 (base + path_baseOffset p)) (path_offsets p).

(** ** The map file *)

Definition kPointerMapMagic : bytes := bs "PMAP0001".
Definition saveEntry (e : Entry) : bytes := le_bytes 8 (pointsTo e) ++ le_bytes 8 (locatedAt e).
Definition saveModule (m : ModuleInfo) : bytes :=
  le_bytes 8 (mod_base m) ++ le_bytes 8 (mod_size m) ++ le_bytes 4 (len (mod_name m))
  ++ [if mod_is64bit m then 1 else 0] ++ slice (mod_name m) 0 (u32 (len (mod_name m))).
Definition saveMap (m : PointerMap) : bytes :=
  kPointerMapMagic ++ le_bytes 8 (len (byTarget m)) ++ le_bytes 8 (len (map_modules m))
  ++ mjoin (saveEntry <$> byTarget m) ++ mjoin (saveModule <$> map_modules m).

(** A record reader: the value and what is left of the file. *)
Definition reader (A : Type) : Type := bytes → outcome (A * bytes).
Definition fread (msg : string) (n : Z) : reader bytes :=
  λ f, match readAll n f with Some r => Ret r | None => Fail msg end.
Fixpoint readMany {A} (r : reader A) (n : nat) : reader (list A) :=
  λ f, match n with
       | O => Ret ([], f)
       | S n => let* (x, f) := r f in let* (xs, f) := readMany r n f in Ret (x :: xs, f)
       end.

Definition loadEntry : reader Entry := λ f,
  let* (pt, f) := fread "truncated entries" 8 f in
  let* (la, f) := fread "truncated entries" 8 f in
  Ret (mkEntry (le_val pt) (le_val la), f).
(** The path and the machine of a loaded module keep their defaults. *)
Definition defaultMachine : TargetMachine := mkTargetMachine ArchUnknown OrderUnknown AbiUnknown ModeUnknown 0 OrderUnknown.
Definition loadModule : reader ModuleInfo := λ f,
  let* (base, f) := fread "truncated module" 8 f in
  let* (size, f) := fread "truncated module" 8 f in
  let* (nameLen, f) := fread "truncated module" 4 f in
  let* (is64, f) := fread "truncated module" 1 f in
  if Z.shiftl 1 16 <? le_val nameLen then Fail "module name too long"
  else let* (name, f) := fread "truncated module name" (le_val nameLen) f in
       Ret (mkModuleInfo (le_val base) (le_val size) name [] (negb (le_val is64 =? 0)) defaultMachine, f).
Definition loadMap `{!StdSort} (f : bytes) : outcome PointerMap :=
  let* (magic, f) := fread "bad magic" 8 f in
  if negb (bytes_eqb magic kPointerMapMagic) then Fail "bad magic" else
  let* (n, f) := fread "truncated header" 8 f in
  let* (k, f) := fread "truncated header" 8 f in
  if (Z.shiftl 1 32 <? le_val n) || (Z.shiftl 1 20 <? le_val k) then Fail "counts too large" else
  let* (entries, f) := readMany loadEntry (Z.to_nat (le_val n)) f in
  let* (modules, f) := readMany loadModule (Z.to_nat (le_val k)) f in
  Ret (setEntries (setModules emptyMap modules) entries).

(** ** The path file *)

Definition kPointerScanMagic : bytes := bs "PSCAN001".
Definition kPointerScanVersion : Z := 1.
Definition savePath (p : PointerPath) : bytes :=
  le_bytes 8 (path_moduleBase p) ++ le_bytes 8 (path_baseOffset p)
  ++ le_bytes 4 (len (path_offsets p)) ++ le_bytes 4 (len (path_module p))
  ++ slice (path_module p) 0 (u32 (len (path_module p)))
  ++ mjoin (le_bytes 4 <$> slice (path_offsets p) 0 (u32 (len (path_offsets p)))).
Definition savePointerPaths (ps : list PointerPath) : bytes :=
  kPointerScanMagic ++ le_bytes 4 kPointerScanVersion ++ le_bytes 4 (len ps) ++ mjoin (savePath <$> ps).

(** The [int32_t] array that [offCount * 4] bytes hold. *)
Fixpoint int32s (n : nat) (b : bytes) : list Z :=
  match n with
  | O => []
  | S n => to_signed 32 (le_val (take 4 b)) :: int32s n (drop 4 b)
  end.
Definition loadPath : reader PointerPath := λ f,
  let* (base, f) := fread "truncated record header" 8 f in
  let* (baseOff, f) := fread "truncated record header" 8 f in
  let* (offCount, f) := fread "truncated record header" 4 f in
  let* (nameLen, f) := fread "truncated record header" 4 f in
  if (64 <? le_val offCount) || (Z.shiftl 1 16 <? le_val nameLen) then Fail "record fields out of range" else
  let* (name, f) := fread "truncated module name" (le_val nameLen) f in
  let* (offs, f) := fread "truncated offset list" (le_val offCount * 4) f in
  Ret (mkPath name (le_val base) (le_val baseOff) (int32s (Z.to_nat (le_val offCount)) offs), f).
Definition loadPointerPaths (f : bytes) : outcome (list PointerPath) :=
  let* (magic, f) := fread "bad magic" 8 f in
  if negb (bytes_eqb magic kPointerScanMagic) then Fail "bad magic" else
  let* (version, f) := fread "unsupported version" 4 f in
  if negb (le_val version =? kPointerScanVersion) then Fail "unsupported version" else
  let* (count, f) := fread "truncated header" 4 f in
  if Z.shiftl 1 28 <? le_val count then Fail "path count too large" else
  let* (paths, f) := readMany loadPath (Z.to_nat (le_val count)) f in
  Ret paths.

(** ** Readable spans *)

Definition inSpan (v : Z) (s : Span) : Prop := sp_first s ≤ v ≤ sp_last s.
Definition covers (ss : list Span) (v : Z) : Prop := ∃ s, s ∈ ss ∧ inSpan v s.
(** Spans with their back first: disjoint, not even adjacent, inside the address space. *)
Definition spans_ok (ss : list Span) : Prop :=
  StronglySorted (λ a b, sp_last b + 1 < sp_first a) ss ∧
  Forall (λ s, sp_first s ≤ sp_last s ≤ UINTPTR_MAX) ss.

Lemma covers_cons s ss v : covers (s :: ss) v ↔ inSpan v s ∨ covers ss v.
Proof.
  split.
  - intros (x & [->|Hx]%elem_of_cons & Hv); [by left|]. right. by exists x.
  - intros [Hv|(x & Hx & Hv)]; [exists s|exists x]; by rewrite elem_of_cons; auto.
Qed.

#[export] Instance covers_proper : Proper ((≡ₚ) ==> eq ==> iff) covers.
Proof. intros ss ss' Hss v ? <-. unfold covers. by setoid_rewrite Hss. Qed.

Lemma mergeSpan_ok acc s : spans_ok acc → sp_first s ≤ sp_last s ≤ UINTPTR_MAX →
  (∀ b, head acc = Some b → sp_first b ≤ sp_first s) →
  spans_ok (mergeSpan acc s) ∧ (∀ v, covers (mergeSpan acc s) v ↔ covers acc v ∨ inSpan v s) ∧
  (∀ b, head (mergeSpan acc s) = Some b → sp_first b ≤ sp_first s).
Proof.
  intros [Hs Hall] Hok Hhead. unfold mergeSpan. destruct acc as [|b acc].
  { split; [split; repeat constructor; lia|]. split; [|by intros ? [= <-]].
    intros v. rewrite covers_cons. naive_solver. }
  inversion_clear Hs as [|?? Hs' Hb]. inversion_clear Hall as [|?? Hbok Hall'].
  specialize (Hhead b eq_refl). destruct (_ || _) eqn:Hm.
  - split; [split; constructor; cbn; [done|done|lia|done]|]. split; [|by intros ? [= <-]].
    intros v. rewrite !covers_cons. unfold inSpan. cbn. bool_to_prop. naive_solver lia.
  - apply orb_false_iff in Hm as [_ Hm%Z.leb_gt]. split; [|split; [intros v; rewrite !covers_cons; naive_solver|by intros ? [= <-]]].
    split; constructor; [by constructor| |done|by constructor]. constructor; [lia|].
    eapply Forall_impl; [exact Hb|]. cbn. lia.
Qed.

Lemma mergeSpans_ok ss acc : sortedBy sp_first ss → Forall (λ s, sp_first s ≤ sp_last s ≤ UINTPTR_MAX) ss →
  spans_ok acc → (∀ b s, head acc = Some b → s ∈ ss → sp_first b ≤ sp_first s) →
  spans_ok (foldl mergeSpan acc ss) ∧ ∀ v, covers (foldl mergeSpan acc ss) v ↔ covers acc v ∨ covers ss v.
Proof.
  intros Hs. revert acc. induction Hs as [|s ss Hs IH Hle]; intros acc Hall Hacc Hhead; cbn.
  { split; [done|]. intros v. split; [by left|]. by intros [?|(x & ?%elem_of_nil & _)]. }
  inversion_clear Hall as [|?? Hok Hall'].
  destruct (mergeSpan_ok acc s Hacc Hok) as (H1 & H2 & H3).
  { intros b Hb. apply (Hhead b s Hb). by left. }
  destruct (IH (mergeSpan acc s) Hall' H1) as [H4 H5].
  { intros b x Hb Hx. specialize (H3 b Hb). rewrite Forall_forall in Hle. specialize (Hle x Hx). lia. }
  split; [done|]. intros v. rewrite H5, H2, covers_cons. naive_solver.
Qed.

(** The merged spans in order. *)
Definition disjoint (ss : list Span) : Prop :=
  StronglySorted (λ a b, sp_last a + 1 < sp_first b) ss ∧ Forall (λ s, sp_first s ≤ sp_last s ≤ UINTPTR_MAX) ss.

Lemma disjoint_reverse ss : spans_ok ss → disjoint (reverse ss).
Proof.
  intros [Hs Hall]. split; [|by rewrite Forall_reverse]. by apply StronglySorted_reverse.
Qed.

Lemma binary_search_spec ss v : disjoint ss →
  match last (take (upper_bound sp_first ss v) ss) with Some s => v <=? sp_last s | None => false end = true ↔ covers ss v.
Proof.
  intros [Hs Hall]. unfold upper_bound. induction Hs as [|x l Hs IH Hx]; [split; [done|by intros (s & ?%elem_of_nil & _)]|].
  inversion_clear Hall as [|?? Hxok Hall']. specialize (IH Hall'). cbn [partitionPoint]. rewrite covers_cons. unfold inSpan.
  rewrite Forall_forall in Hx. destruct (Z.ltb_spec v (sp_first x)) as [Hlt|Hge]; cbn [negb take].
  - split; [done|]. intros [?|(y & Hy & ? & _)]; [lia|]. specialize (Hx y Hy). lia.
  - rewrite last_cons. destruct (last (take _ l)) as [z|] eqn:Hz.
    + rewrite IH. split; [by right|]. intros [[_ Hv]|?]; [|done]. exfalso.
      apply last_Some_elem_of in Hz. pose proof (partitionPoint_before _ _ _ Hz) as Hp.
      apply elem_of_take in Hz as (i & Hz%list_elem_of_lookup_2 & _). specialize (Hx z Hz). apply negb_true_iff, Z.ltb_ge in Hp. lia.
    + rewrite Z.leb_le. split; [left; lia|]. intros [?|Hc]; [lia|]. by apply IH in Hc.
Qed.

Lemma contains_spec ss v : disjoint ss → contains ss v = true ↔ covers ss v.
Proof.
  intros Hd. pose proof (binary_search_spec ss v Hd) as Hb. destruct Hd as [Hs Hall].
  unfold contains. destruct ss as [|f l]; [split; [done|by intros (s & ?%elem_of_nil & _)]|].
  set (ss := f :: l) in *. destruct (last ss) as [b|] eqn:Hl; [|by apply last_None in Hl].
  destruct (_ || _) eqn:Hout; [|exact Hb]. split; [done|]. intros (y & Hy & Hv1 & Hv2). exfalso.
  rewrite Forall_forall in Hall. pose proof (Hall y Hy).
  assert (sp_first f ≤ sp_first y).
  { subst ss. inversion_clear Hs as [|?? _ Hf]. apply elem_of_cons in Hy as [->|Hy]; [lia|].
    rewrite Forall_forall in Hf. specialize (Hf y Hy). assert (f ∈ f :: l) as Hfin by left. specialize (Hall f Hfin). lia. }
  assert (sp_last y ≤ sp_last b); [|bool_to_prop; lia].
  apply last_Some in Hl as [l' Hl']. rewrite Hl' in *. apply elem_of_app in Hy as [Hy| ->%list_elem_of_singleton]; [|lia].
  assert (b ∈ l' ++ [b]) as Hbin by (apply elem_of_app; right; by left).
  pose proof (Hall b Hbin). pose proof (StronglySorted_app_1_elem_of _ l' [b] y b Hs Hy) as Hyb.
  specialize (Hyb ltac:(by left)). cbn in Hyb. lia.
Qed.

(** The test for "could be a pointer": whatever the order, overlap or adjacency of the
    regions, and whatever order [std::sort] leaves equal bases in, the merged spans hold an
    address exactly when some readable, non-empty region does. *)
Theorem readable_spans_spec `{!StdSort} regions v :
  Forall (λ r, is_u64 (region_base r) ∧ is_u64 (region_size r)) regions → is_u64 v →
  contains (readableSpans regions) v = true ↔
  ∃ r, r ∈ regions ∧ protHas (region_protection r) ProtRead = true ∧
       region_base r ≤ v < region_base r + region_size r.
Proof.
  intros Hok Hv. unfold readableSpans.
  assert (Forall (λ s, sp_first s ≤ sp_last s ≤ UINTPTR_MAX) (omap spanOf regions)) as Hss.
  { apply Forall_forall. intros s (r & Hr & Hs)%list_elem_of_omap. rewrite Forall_forall in Hok.
    destruct (Hok r Hr) as [Hb Hz]. unfold spanOf in Hs. destruct (_ || _) eqn:E; [done|].
    apply orb_false_iff in E as [_ E%Z.eqb_neq]. injection Hs as <-. cbn.
    destruct (Z.ltb_spec (UINTPTR_MAX - region_base r) (region_size r - 1)); lia_w. }
  destruct (mergeSpans_ok (std_sort (byKey sp_first) (omap spanOf regions)) []) as [H1 H2].
  - apply std_sort_key.
  - by rewrite std_sort_perm.
  - split; constructor.
  - done.
  - rewrite contains_spec by by apply disjoint_reverse.
    transitivity (covers (omap spanOf regions) v).
    + rewrite reverse_Permutation, H2, std_sort_perm. split; [|by right]. by intros [(x & ?%elem_of_nil & _)|].
    + unfold covers. setoid_rewrite list_elem_of_omap. rewrite Forall_forall in Hok. split.
      * intros (s & (r & Hr & Hs) & Hin). exists r. split; [done|]. destruct (Hok r Hr) as [Hb Hz].
        unfold spanOf in Hs. destruct (_ || _) eqn:E; [done|]. apply orb_false_iff in E as [E1%negb_false_iff E2%Z.eqb_neq].
        split; [done|]. injection Hs as <-. unfold inSpan in Hin. cbn in Hin.
        destruct (Z.ltb_spec (UINTPTR_MAX - region_base r) (region_size r - 1)); lia_w.
      * intros (r & Hr & Hp & Hin). destruct (Hok r Hr) as [Hb Hz]. eexists. split.
        { exists r. split; [done|]. unfold spanOf. rewrite Hp. destruct (Z.eqb_spec (region_size r) 0); [lia|]. reflexivity. }
        unfold inSpan. cbn. destruct (Z.ltb_spec (UINTPTR_MAX - region_base r) (region_size r - 1)); lia_w.
Qed.
Definition sampleRegion (base size prot : Z) : MemoryRegion :=
  mkMemoryRegion base size prot MemPrivate MemCommitted [] None.
Lemma readable_spans_spec_witness :
  contains (readableSpans [sampleRegion 8192 4096 3; sampleRegion 4096 4096 1; sampleRegion 65536 16 2]) 8191 = true.
Proof.
  apply readable_spans_spec; [repeat constructor; cbn; lia_w|lia_w|].
  exists (sampleRegion 4096 4096 1). split; [right; left|]. split; [reflexivity|cbn; lia].
Defined.

(** ** Lookups by location *)

Lemma byLocated_perm `{!StdSort} m es : len es ≤ 2 ^ 32 →
  byLocated (setEntries m es) ≡ₚ seqZ 0 (len (byTarget (setEntries m es))).
Proof.
  intros Hlen. unfold setEntries. cbn [byLocated byTarget]. rewrite std_sort_perm. apply Permutation_refl'.
  assert (len (std_sort (byKey pointsTo) es) = len es) as -> by (unfold len; by rewrite std_sort_perm).
  etransitivity; [|apply list_fmap_id]. apply list_fmap_ext. intros i z Hz.
  apply list_elem_of_lookup_2, elem_of_seqZ in Hz. apply wrap_small. unfold id. lia_w.
Qed.

Lemma locationOf_seq l : locationOf l <$> seqZ 0 (len l) = locatedAt <$> l.
Proof.
  apply list_eq. intros i. rewrite !list_lookup_fmap. destruct (l !! i) as [e|] eqn:He.
  - pose proof (lookup_lt_Some _ _ _ He). rewrite lookup_seqZ_lt by (unfold len; lia).
    rewrite Z.add_0_l. unfold locationOf. cbn [fmap option_fmap option_map]. by rewrite lget_nat, He.
  - apply lookup_ge_None in He. by rewrite lookup_seqZ_ge by (unfold len; lia).
Qed.

Lemma valueAt_find m addr : sortedBy (locationOf (byTarget m)) (byLocated m) →
  valueAt m addr = match List.find (λ idx, locationOf (byTarget m) idx =? addr) (byLocated m) with
                   | Some idx => pointsTo <$> lget (byTarget m) idx | None => None end.
Proof.
  intros Hs. rewrite <- (lower_bound_find _ _ addr Hs). unfold valueAt.
  destruct (_ !! _) as [idx|]; [|done]. by destruct (_ =? addr).
Qed.

Lemma entry_unique l e e' : NoDup (locatedAt <$> l) → e ∈ l → e' ∈ l → locatedAt e = locatedAt e' → e = e'.
Proof.
  intros Hnd [i Hi]%list_elem_of_lookup [j Hj]%list_elem_of_lookup He.
  assert (i = j) as <-; [|by simplify_eq]. eapply (NoDup_lookup (locatedAt <$> l)); [done|..]; rewrite list_lookup_fmap.
  - by rewrite Hi.
  - by rewrite Hj, He.
Qed.

Lemma valueAt_entry `{!StdSort} m es addr v :
  NoDup (locatedAt <$> es) → len es ≤ 2 ^ 32 →
  valueAt (setEntries m es) addr = Some v ↔ mkEntry v addr ∈ es.
Proof.
  intros Hnd Hlen. set (m' := setEntries m es).
  assert (∀ e, e ∈ byTarget m' ↔ e ∈ es) as Hin by (intros e; cbn; by rewrite std_sort_perm).
  pose proof (byLocated_perm m es Hlen) as Hp. fold m' in Hp.
  rewrite valueAt_find by apply std_sort_key.
  destruct (List.find _ (byLocated m')) as [idx|] eqn:Hf.
  - apply List.find_some in Hf as [Hidx%list_elem_of_In Ha%Z.eqb_eq].
    rewrite Hp, elem_of_seqZ in Hidx. unfold locationOf in Ha.
    destruct (lget (byTarget m') idx) as [e|] eqn:He; [|apply lget_None_ge in He; lia]. cbn. subst addr.
    assert (e ∈ es) as Hein by (apply Hin; unfold lget in He; destruct (0 <=? idx); [by eapply list_elem_of_lookup_2|done]).
    split; [intros [= <-]; by destruct e|]. intros Hv. f_equal.
    by rewrite (entry_unique es e _ Hnd Hein Hv eq_refl).
  - split; [done|]. intros [i Hi]%Hin%list_elem_of_lookup. exfalso. rewrite <- lget_nat in Hi.
    assert (Z.of_nat i ∈ byLocated m') as Hii%list_elem_of_In.
    { rewrite Hp, elem_of_seqZ. apply lget_Some_lt in Hi. lia. }
    apply (List.find_none _ _ Hf) in Hii. unfold locationOf in Hii. rewrite Hi in Hii. cbn in Hii.
    by rewrite Z.eqb_refl in Hii.
Qed.

(** The two indices agree: when no two entries share a location, looking an address up
    through the by-location index finds exactly the pointer recorded there. *)
Theorem valueAt_spec `{!StdSort} m es addr v :
  NoDup (locatedAt <$> es) → len es ≤ 2 ^ 32 →
  valueAt (setEntries m es) addr = Some v ↔ mkEntry v addr ∈ es.
Proof. apply valueAt_entry. Qed.
Definition sampleEntries : list Entry := [mkEntry 4200 5000; mkEntry 4100 6000; mkEntry 4200 4800].
Lemma valueAt_spec_witness : valueAt (setEntries emptyMap sampleEntries) 4800 = Some 4200.
Proof. apply valueAt_spec; [|done|]; decide_by_compute. Defined.

(** ** Round trips *)

Lemma fread_app msg a f n : len a = n → fread msg n (a ++ f) = Ret (a, f).
Proof. intros H. unfold fread. by rewrite readAll_app. Qed.

Lemma readMany_app {A B} (r : reader B) (enc : A → bytes) (g : A → B) xs f :
  Forall (λ x, ∀ f, r (enc x ++ f) = Ret (g x, f)) xs →
  readMany r (length xs) (mjoin (enc <$> xs) ++ f) = Ret (g <$> xs, f).
Proof.
  induction 1 as [|x xs Hx _ IH]; [done|]. cbn [length readMany]. rewrite mjoin_fmap_cons, <- app_assoc, Hx.
  cbn [obind]. by rewrite IH.
Qed.

Definition entry_ok (e : Entry) : Prop := is_u64 (pointsTo e) ∧ is_u64 (locatedAt e).
#[export] Instance entry_ok_dec e : Decision (entry_ok e).
Proof. unfold entry_ok. apply _. Defined.
Lemma loadEntry_save e f : entry_ok e → loadEntry (saveEntry e ++ f) = Ret (e, f).
Proof.
  intros [H1 H2]. unfold loadEntry, saveEntry. rewrite <- !app_assoc.
  rewrite fread_app by apply len_le_bytes. cbn [obind]. rewrite fread_app by apply len_le_bytes. cbn [obind].
  rewrite !le_val_8 by done. by destruct e.
Qed.

(** A module the file can hold, and what the file keeps of it. *)
Definition module_ok (m : ModuleInfo) : Prop :=
  is_u64 (mod_base m) ∧ is_u64 (mod_size m) ∧ len (mod_name m) ≤ 2 ^ 16.
#[export] Instance module_ok_dec m : Decision (module_ok m).
Proof. unfold module_ok. apply _. Defined.
Definition savedModule (m : ModuleInfo) : ModuleInfo :=
  mkModuleInfo (mod_base m) (mod_size m) (mod_name m) [] (mod_is64bit m) defaultMachine.
Lemma loadModule_save m f : module_ok m → loadModule (saveModule m ++ f) = Ret (savedModule m, f).
Proof.
  intros (H1 & H2 & H3). pose proof (len_nonneg (mod_name m)). unfold loadModule, saveModule.
  assert (is_u32 (len (mod_name m))) as H4 by lia_w. rewrite (wrap_small 32), slice_all by done. rewrite <- !app_assoc.
  do 3 (rewrite fread_app by apply len_le_bytes; cbn [obind]).
  rewrite fread_app by done. cbn [obind]. rewrite !le_val_8, le_val_4 by done.
  destruct (Z.ltb_spec (Z.shiftl 1 16) (len (mod_name m))) as [Hl|_]; [change (Z.shiftl 1 16) with (2 ^ 16) in Hl; lia|].
  rewrite fread_app by done. cbn [obind]. unfold savedModule. by destruct (mod_is64bit m).
Qed.

Lemma resolve_ext m m' : (∀ addr, valueAt m addr = valueAt m' addr) → (∀ n, moduleBase m n = moduleBase m' n) →
  ∀ p, resolve m p = resolve m' p.
Proof.
  intros Hv Hm p. unfold resolve. rewrite Hm.
  assert (∀ offs addr, resolveOffsets m addr offs = resolveOffsets m' addr offs) as Ho; [|by rewrite !Ho].
  induction offs as [|off offs IH]; intros addr; [done|]. cbn [resolveOffsets]. rewrite Hv.
  destruct (valueAt m' addr); [|done]. by rewrite IH.
Qed.

Lemma moduleBase_saved `{!StdSort} m m' es es' n :
  moduleBase (setEntries (setModules m' (savedModule <$> map_modules m)) es') n = moduleBase (setEntries m es) n.
Proof.
  unfold moduleBase. cbn [map_modules setEntries setModules]. induction (map_modules m) as [|x l IH]; [done|].
  cbn. destruct (bytes_eqb _ _); [done|]. apply IH.
Qed.

(** C39: A pointer map survives its file: every saved map within the loader's limits loads
    back with the same entries sorted by target and the same modules, and every path that
    the original resolves, the loaded map resolves to the same address. *)
Theorem map_save_load `{!StdSort} m es :
  Forall entry_ok es → NoDup (locatedAt <$> es) → len es ≤ 2 ^ 32 → Forall module_ok (map_modules m) → len (map_modules m) ≤ 2 ^ 20 →
  ∃ m', loadMap (saveMap (setEntries m es)) = Ret m' ∧
    byTarget m' ≡ₚ es ∧ sortedBy pointsTo (byTarget m') ∧ map_modules m' = savedModule <$> map_modules m ∧
    ∀ p, resolve m' p = resolve (setEntries m es) p.
Proof.
  intros Hes Hnd Hn Hms Hk. set (s := setEntries m es). set (es' := byTarget s).
  assert (es' ≡ₚ es) as Hperm by (cbn; apply std_sort_perm).
  assert (len es' = len es) as Hlen by (unfold len; by rewrite Hperm).
  exists (setEntries (setModules emptyMap (savedModule <$> map_modules m)) es'). split; [|split_and!].
  - unfold loadMap, saveMap. fold es'. rewrite fread_app by done. cbn [obind].
    change (negb (bytes_eqb kPointerMapMagic kPointerMapMagic)) with false. cbv iota.
    do 2 (rewrite fread_app by apply len_le_bytes; cbn [obind]).
    pose proof (len_nonneg es'). pose proof (len_nonneg (map_modules m)).
    change (map_modules s) with (map_modules m). rewrite !le_val_8 by lia_w.
    destruct (Z.ltb_spec (Z.shiftl 1 32) (len es')) as [Hl|_]; [change (Z.shiftl 1 32) with (2 ^ 32) in Hl; lia|].
    destruct (Z.ltb_spec (Z.shiftl 1 20) (len (map_modules m))) as [Hl|_]; [change (Z.shiftl 1 20) with (2 ^ 20) in Hl; lia|].
    cbn [orb]. unfold len. rewrite !Nat2Z.id, (readMany_app _ _ id).
    + cbn [obind]. rewrite <- (app_nil_r (mjoin (saveModule <$> _))), (readMany_app _ _ savedModule).
      * cbn [obind]. by rewrite list_fmap_id.
      * eapply Forall_impl; [exact Hms|]. intros x Hx f. by apply loadModule_save.
    + rewrite Hperm. eapply Forall_impl; [exact Hes|]. intros x Hx f. by apply loadEntry_save.
  - cbn. rewrite std_sort_perm. apply std_sort_perm.
  - apply std_sort_key.
  - done.
  - apply resolve_ext; [|apply moduleBase_saved]. intros addr. apply option_eq. intros v.
    unfold s. rewrite !valueAt_entry; [by rewrite Hperm|done|done|by rewrite Hperm|by rewrite Hlen].
Qed.
Definition sampleModule : ModuleInfo := mkModuleInfo 4096 8192 (bs "game") (bs "/opt/game") true nativeTargetMachine.
Definition sampleMap : PointerMap := setModules emptyMap [sampleModule].
Lemma map_save_load_witness :
  ∃ m', loadMap (saveMap (setEntries sampleMap sampleEntries)) = Ret m' ∧
    resolve m' (mkPath (bs "game") 4096 904 [600; 100]) = resolve (setEntries sampleMap sampleEntries) (mkPath (bs "game") 4096 904 [600; 100]).
Proof.
  destruct (map_save_load sampleMap sampleEntries) as (m' & H1 & _ & _ & _ & H2); [decide_by_compute..|].
  exists m'. split; [exact H1|apply H2].
Defined.

Lemma int32s_save offs : Forall (λ o, - 2 ^ 31 ≤ o < 2 ^ 31) offs → int32s (length offs) (mjoin (le_bytes 4 <$> offs)) = offs.
Proof.
  induction 1 as [|o offs Ho _ IH]; [done|]. cbn [length int32s]. rewrite mjoin_fmap_cons.
  rewrite take_app_le, take_ge by (rewrite length_le_bytes; done). rewrite drop_app_ge by (rewrite length_le_bytes; done).
  rewrite length_le_bytes, drop_0, IH. f_equal. rewrite le_val_le_bytes.
  change (256 ^ Z.of_nat 4) with (2 ^ 32). change (o mod 2 ^ 32) with (wrap 32 o).
  rewrite <- (to_signed_small 32 o) at 2 by (change (32 - 1) with 31; lia).
  unfold to_signed. by rewrite wrap_idem by done.
Qed.

Definition path_ok (p : PointerPath) : Prop :=
  is_u64 (path_moduleBase p) ∧ is_u64 (path_baseOffset p) ∧ len (path_module p) ≤ 2 ^ 16 ∧
  len (path_offsets p) ≤ 64 ∧ Forall (λ o, - 2 ^ 31 ≤ o < 2 ^ 31) (path_offsets p).
#[export] Instance path_ok_dec p : Decision (path_ok p).
Proof. unfold path_ok. apply _. Defined.

Lemma len_mjoin_int32 offs : len (mjoin (le_bytes 4 <$> offs)) = len offs * 4.
Proof. induction offs as [|o offs IH]; [done|]. rewrite mjoin_fmap_cons, len_app, len_le_bytes, IH, len_cons. lia. Qed.

Lemma loadPath_save p f : path_ok p → loadPath (savePath p ++ f) = Ret (p, f).
Proof.
  intros (H1 & H2 & H3 & H4 & H5). pose proof (len_nonneg (path_module p)). pose proof (len_nonneg (path_offsets p)).
  unfold loadPath, savePath. rewrite !(wrap_small 32), !slice_all by lia_w. rewrite <- !app_assoc.
  do 4 (rewrite fread_app by apply len_le_bytes; cbn [obind]). rewrite !le_val_8, !le_val_4 by (done || lia_w).
  destruct (Z.ltb_spec 64 (len (path_offsets p))) as [|_]; [lia|].
  destruct (Z.ltb_spec (Z.shiftl 1 16) (len (path_module p))) as [Hl|_]; [change (Z.shiftl 1 16) with (2 ^ 16) in Hl; lia|].
  cbn [orb]. rewrite fread_app by done. cbn [obind]. rewrite fread_app by apply len_mjoin_int32. cbn [obind].
  unfold len at 1. rewrite Nat2Z.id, int32s_save by done. by destruct p.
Qed.

(** The path file round trip: every list of at most [2^28] paths whose chains and names
    are within the loader's limits (64 links, 65536 bytes) loads back exactly, negative
    offsets included. *)
Theorem paths_save_load ps :
  Forall path_ok ps → len ps ≤ 2 ^ 28 → loadPointerPaths (savePointerPaths ps) = Ret ps.
Proof.
  intros Hps Hn. pose proof (len_nonneg ps). unfold loadPointerPaths, savePointerPaths.
  rewrite fread_app by done. cbn [obind]. change (negb (bytes_eqb kPointerScanMagic kPointerScanMagic)) with false. cbv iota.
  rewrite fread_app by apply len_le_bytes. cbn [obind]. change (negb (le_val (le_bytes 4 kPointerScanVersion) =? kPointerScanVersion)) with false. cbv iota.
  rewrite fread_app by apply len_le_bytes. cbn [obind]. rewrite le_val_4 by lia_w.
  destruct (Z.ltb_spec (Z.shiftl 1 28) (len ps)) as [Hl|_]; [change (Z.shiftl 1 28) with (2 ^ 28) in Hl; lia|].
  unfold len. rewrite Nat2Z.id, <- (app_nil_r (mjoin _)), (readMany_app _ _ id).
  - cbn [obind]. by rewrite list_fmap_id.
  - eapply Forall_impl; [exact Hps|]. intros p Hp f. by apply loadPath_save.
Qed.
Definition samplePaths : list PointerPath :=
  [mkPath (bs "game") 4096 904 [600; -100]; mkPath [] 0 140737488355328 [-2147483648; 2147483647]].
Lemma paths_save_load_witness : loadPointerPaths (savePointerPaths samplePaths) = Ret samplePaths.
Proof. apply paths_save_load; decide_by_compute. Defined.
