(* ===== verification/PointerScan.v ===== *)
(** * The pointer scan

    Models [PointerScanner::scanWithMap] of [src/scanner/pointer_scanner.cpp]: naming a
    static base, the search window, and the iterative-deepening search with its explicit
    stack, its caps and its cancellation.  [scanWithMap] is the machine as the code runs
    it, one loop iteration per [iter]; [reference] is what it must find.  A cancellation
    is an oracle that answers the polls in order.  The stores to [progress_] are not
    modelled. *)

From stdpp Require Import sorting.
From S2P Require Import Prelude Numeral TargetMachine Types Loops Files StdAlgo PointerMap.
#[local] Open Scope Z_scope.

(** ** Limits *)

Inductive PointerScanLimit : Set := LimitNone | LimitResults | LimitWork | LimitMapEntries.
Definition limitIndex (l : PointerScanLimit) : Z :=
  match l with LimitNone => 0 | LimitResults => 1 | LimitWork => 2 | LimitMapEntries => 3 end.
Definition limitBit (l : PointerScanLimit) : Z :=
  match l with LimitNone => 0 | _ => Z.shiftl 1 (limitIndex l) end.
Definition reachLimit (limits : Z) (l : PointerScanLimit) : Z := Z.lor limits (limitBit l).
Definition limitHit (limits : Z) (l : PointerScanLimit) : bool := negb (Z.land limits (limitBit l) =? 0).
Definition limitReached (limits : Z) : PointerScanLimit :=
  match List.find (limitHit limits) [LimitResults; LimitWork; LimitMapEntries] with
  | Some l => l | None => LimitNone
  end.

(** ** Static bases *)

Definition Base : Type := Z * ModuleInfo.  (* index in the module list, module *)
Definition baseOf (b : Base) : Z := mod_base b.2.
(** The modules that can name a base: the first of each name, with their indices. *)
Fixpoint nameableFrom (seen : list bytes) (i : Z) (ms : list ModuleInfo) : list Base :=
  match ms with
  | [] => []
  | m :: ms =>
      if bool_decide (mod_name m ≠ []) && (0 <? mod_size m) && bool_decide (mod_name m ∉ seen)
      then (i, m) :: nameableFrom (mod_name m :: seen) (i + 1) ms
      else nameableFrom seen (i + 1) ms
  end.
Definition nameable (ms : list ModuleInfo) : list Base := nameableFrom [] 0 ms.
(** The loop over neighbours by base. *)
Fixpoint overlapping (bs : list Base) : bool :=
  match bs with
  | a :: (b :: _) as rest => (u64 (baseOf b - baseOf a) <? mod_size a.2) || overlapping rest
  | _ => false
  end.
Definition holds (addr : Z) (b : Base) : bool :=
  (baseOf b <=? addr) && (u64 (addr - baseOf b) <? mod_size b.2).
Definition findModule `{!StdSort} (ms : list ModuleInfo) (addr : Z) : option Base :=
  let named := nameable ms in
  let byBase := std_sort (byKey baseOf) named in
  if overlapping byBase then List.find (holds addr) named
  else match last (take (upper_bound baseOf byBase addr) byBase) with
       | Some b => if u64 (addr - baseOf b) <? mod_size b.2 then Some b else None
       | None => None
       end.

Section Scan.
Context `{!StdSort} (map : PointerMap) (config : PointerScanConfig) (cancelled : nat → bool).

(** ** The window *)

Definition searchMin (address : Z) : Z :=
  if maxOffset config <? address then address - maxOffset config else 0.
Definition searchMax (address : Z) : Z :=
  if negativeOffsets config then address + Z.min (maxOffset config) (UINTPTR_MAX - address) else address.
Definition window (address : Z) : nat * nat :=
  (lower_bound pointsTo (byTarget map) (searchMin address), upper_bound pointsTo (byTarget map) (searchMax address)).

(** ** Recording a path *)

(** The path that [record] would add for a slot: [None] when it belongs to another shard
    or is not static. *)
Definition recordPath (locatedAt : Z) (offsets : list Z) : option PointerPath :=
  match findModule (map_modules map) locatedAt with
  | Some (i, m) =>
      if (1 <? shardCount config) && negb (i mod shardCount config =? shardIndex config) then None
      else Some (mkPath (mod_name m) (mod_base m) (u64 (locatedAt - mod_base m)) offsets)
  | None =>
      if staticOnly config then None
      else if (1 <? shardCount config) && negb (Z.shiftr locatedAt 12 mod shardCount config =? shardIndex config) then None
      else Some (mkPath [] 0 locatedAt offsets)
  end.

(** ** The search machine *)

Record Core := mkCore {
  results : list PointerPath; visits : Z; polls : nat; limits : Z; deeper : bool; stop : bool
}.
Record Frame := mkFrame { address : Z; next : nat; end_ : nat }.
(** [stack], [chain] and [ancestors] have their back first. *)
Record Search := mkSearch { stack : list Frame; chain : list Z; ancestors : list Z; core : Core }.

Definition withStop (c : Core) : Core :=
  mkCore (results c) (visits c) (polls c) (limits c) (deeper c) true.
Definition withDeeper (c : Core) (d : bool) : Core :=
  mkCore (results c) (visits c) (polls c) (limits c) d (stop c).
Definition poll (c : Core) : Core * bool :=
  (mkCore (results c) (visits c) (S (polls c)) (limits c) (deeper c) (stop c), cancelled (polls c)).

(** The work cap, the visit counter and the poll every 1024 visits. *)
Definition tick (c : Core) : Core :=
  if maxVisits config <=? visits c
  then withStop (mkCore (results c) (visits c) (polls c) (reachLimit (limits c) LimitWork) (deeper c) (stop c))
  else
    let c := mkCore (results c) (visits c + 1) (polls c) (limits c) (deeper c) (stop c) in
    if Z.land (visits c) 1023 =? 0
    then let '(c, stopNow) := poll c in if stopNow then withStop c else c
    else c.
(** The lambda [record]; its [false] is [stop]. *)
Definition record (e : Entry) (offsets : list Z) (c : Core) : Core :=
  match recordPath (locatedAt e) offsets with
  | None => c
  | Some path =>
      if maxResults config <=? len (results c)
      then withStop (mkCore (results c) (visits c) (polls c) (reachLimit (limits c) LimitResults) (deeper c) (stop c))
      else mkCore (results c ++ [path]) (visits c) (polls c) (limits c) (deeper c) (stop c)
  end.
Definition offsetFrom (address : Z) (e : Entry) : Z := to_signed 32 (u64 (address - pointsTo e)).
Definition fresh (ancestors : list Z) (e : Entry) : bool := negb (bool_decide (locatedAt e ∈ ancestors)).

(** One iteration of the [while] loop of a pass. *)
Definition iter (pass : Z) (s : Search) : Search :=
  match stack s with
  | [] => s
  | frame :: rest =>
      if Nat.eqb (next frame) (end_ frame) then
        match rest with
        | [] => mkSearch [] (chain s) (ancestors s) (core s)
        | _ => mkSearch rest (tail (chain s)) (tail (ancestors s)) (core s)
        end
      else
        let c := tick (core s) in
        if stop c then mkSearch (stack s) (chain s) (ancestors s) c else
        match byTarget map !! next frame with
        | None => s  (* not reached: the frames stay inside the entries *)
        | Some e =>
            let stack := mkFrame (address frame) (S (next frame)) (end_ frame) :: rest in
            let offset := offsetFrom (address frame) e in
            let isFresh := fresh (ancestors s) e in
            if len rest + 1 =? pass then
              let c := record e (offset :: chain s) c in
              mkSearch stack (chain s) (ancestors s)
                (if stop c then c else withDeeper c (deeper c || isFresh))
            else if isFresh then
              let '(lo, hi) := window (locatedAt e) in
              mkSearch (mkFrame (locatedAt e) lo hi :: stack) (offset :: chain s) (locatedAt e :: ancestors s) c
            else mkSearch stack (chain s) (ancestors s) c
        end
  end.
Definition running (s : Search) : bool :=
  negb (stop (core s)) && negb (bool_decide (stack s = [])).
Fixpoint walk (fuel : nat) (pass : Z) (s : Search) : option Search :=
  if negb (running s) then Some s
  else match fuel with
       | O => None
       | S fuel => walk fuel pass (iter pass s)
       end.
Definition startPass (c : Core) : Search :=
  let '(lo, hi) := window (targetAddress config) in
  mkSearch [mkFrame (targetAddress config) lo hi] [] [targetAddress config] (withDeeper c false).
(** The passes left, [n] of them, the next being [pass]. *)
Fixpoint passes (fuel n : nat) (pass : Z) (c : Core) : option Core :=
  match n with
  | O => Some c
  | S n =>
      if stop c then Some c else
      let '(c, stopNow) := poll c in
      if stopNow then Some c else
      match walk fuel pass (startPass c) with
      | None => None
      | Some s => if negb (deeper (core s)) then Some (core s) else passes fuel n (pass + 1) (core s)
      end
  end.

(** The paths and the limits hit; [None] when the fuel runs out. *)
Definition badConfig : bool :=
  (shardCount config =? 0) || (shardCount config <=? shardIndex config)
  || (maxDepth config <=? 0) || (maxOffset config <? 0).
Definition scanWithMap (fuel : nat) : option (list PointerPath * Z) :=
  if badConfig then Some ([], 0) else
  let limit := if map_truncated map then reachLimit 0 LimitMapEntries else 0 in
  match passes fuel (Z.to_nat (maxDepth config)) 1 (mkCore [] 0 O limit false false) with
  | None => None
  | Some c => Some (if cancelled (polls c) then [] else results c, limits c)
  end.
End Scan.

(** ** What the scan must find *)

Section Reference.
Context `{!StdSort} (map : PointerMap) (config : PointerScanConfig).

(** The recorded pointers that land in the window of an address, in entry order. *)
Definition pointing (a : Z) : list Entry :=
  List.filter (λ e, (searchMin config a <=? pointsTo e) && (pointsTo e <=? searchMax config a)) (byTarget map).
(** The chains that reach [a] over [n] slots, in depth-first order. *)
Fixpoint links (n : nat) (a : Z) (chain ancestors : list Z) : list (Z * list Z) :=
  match n with
  | O => (λ e, (locatedAt e, offsetFrom a e :: chain)) <$> pointing a
  | S n => mjoin ((λ e, if fresh ancestors e
                        then links n (locatedAt e) (offsetFrom a e :: chain) (locatedAt e :: ancestors)
                        else []) <$> pointing a)
  end.
Definition pathOf (l : Z * list Z) : option PointerPath := recordPath map config l.1 l.2.
Definition level (n : nat) : list (Z * list Z) := links n (targetAddress config) [] [targetAddress config].
(** All the paths, shortest first. *)
Definition reference : list PointerPath :=
  omap pathOf (mjoin (level <$> seq 0 (Z.to_nat (maxDepth config)))).
End Reference.

(** ** The machine computes a recursive search *)

Section Machine.
Context `{!StdSort} (map : PointerMap) (config : PointerScanConfig) (cancelled : nat → bool).
#[local] Abbreviation tick := (tick config cancelled).
#[local] Abbreviation record := (record map config).
#[local] Abbreviation iter := (iter map config cancelled).
#[local] Abbreviation pointing := (pointing map config).
#[local] Abbreviation links := (links map config).

(** A loop that ends when the state stops. *)
Fixpoint untilStop (body : Core → Entry → Core) (es : list Entry) (c : Core) : Core :=
  match es with
  | [] => c
  | e :: es => let c := body c e in if stop c then c else untilStop body es c
  end.
Definition leaf (a : Z) (chain anc : list Z) (c : Core) (e : Entry) : Core :=
  let c := tick c in
  if stop c then c else
  let c := record e (offsetFrom a e :: chain) c in
  if stop c then c else withDeeper c (deeper c || fresh anc e).
Definition inner (sub : Z → list Z → list Z → Core → Core) (a : Z) (chain anc : list Z) (c : Core) (e : Entry) : Core :=
  let c := tick c in
  if stop c then c else
  if fresh anc e then sub (locatedAt e) (offsetFrom a e :: chain) (locatedAt e :: anc) c else c.
Fixpoint explore (n : nat) (a : Z) (chain anc : list Z) (c : Core) : Core :=
  match n with
  | O => untilStop (leaf a chain anc) (pointing a) c
  | S n => untilStop (inner (explore n) a chain anc) (pointing a) c
  end.
Definition exploreBody (n : nat) : Z → list Z → list Z → Core → Entry → Core :=
  match n with O => leaf | S n => inner (explore n) end.

Inductive machineStep (pass : Z) : Search → Search → Prop :=
  | machine_step s : running s = true → machineStep pass s (iter pass s).

(** The window of an address is the slice of its pointers. *)
Definition slice_of (i j : nat) : list Entry := drop i (take j (byTarget map)).

Lemma window_slice a : sortedBy pointsTo (byTarget map) → 0 ≤ maxOffset config → 0 ≤ a ≤ UINTPTR_MAX →
  let '(lo, hi) := window map config a in slice_of lo hi = pointing a ∧ (lo ≤ hi ≤ length (byTarget map))%nat.
Proof.
  intros Hs Hm Ha. assert (searchMin config a ≤ searchMax config a) as Hle
    by (unfold searchMin, searchMax; repeat case_match; lia).
  unfold window, slice_of, pointing. split; [by apply bounds_filter|]. split; [|apply partitionPoint_le].
  apply partitionPoint_mono. intros e He%Z.ltb_lt. apply negb_true_iff, Z.ltb_ge. lia.
Qed.

Lemma slice_cons i j e es : slice_of i j = e :: es →
  i ≠ j ∧ byTarget map !! i = Some e ∧ slice_of (S i) j = es.
Proof.
  intros Hs. unfold slice_of in *. assert (drop i (take j (byTarget map)) !! 0%nat = Some e) as Hl by by rewrite Hs.
  rewrite lookup_drop, Nat.add_0_r in Hl. pose proof (lookup_lt_Some _ _ _ Hl) as Hlt. rewrite length_take in Hlt.
  split_and!; [lia|by apply lookup_take_Some in Hl as [? _]|].
  replace (S i) with (i + 1)%nat by lia. by rewrite <- drop_drop, Hs.
Qed.

Lemma slice_nil i j : (i ≤ j ≤ length (byTarget map))%nat → slice_of i j = [] → i = j.
Proof. intros Hij Hs. apply (f_equal length) in Hs. unfold slice_of in Hs. rewrite length_drop, length_take in Hs. cbn in Hs. lia. Qed.

(** The map is sorted and its addresses are machine words. *)
Context (Hsorted : sortedBy pointsTo (byTarget map)) (Hok : Forall entry_ok (byTarget map)) (Hmax : 0 ≤ maxOffset config).

Lemma iter_visit pass a i j rest ch anc c e : i ≠ j → byTarget map !! i = Some e →
  iter pass (mkSearch (mkFrame a i j :: rest) ch anc c) =
    let c1 := tick c in
    if stop c1 then mkSearch (mkFrame a i j :: rest) ch anc c1 else
    let stack := mkFrame a (S i) j :: rest in
    if len rest + 1 =? pass then
      let c2 := record e (offsetFrom a e :: ch) c1 in
      mkSearch stack ch anc (if stop c2 then c2 else withDeeper c2 (deeper c2 || fresh anc e))
    else if fresh anc e then
      let '(lo, hi) := window map config (locatedAt e) in
      mkSearch (mkFrame (locatedAt e) lo hi :: stack) (offsetFrom a e :: ch) (locatedAt e :: anc) c1
    else mkSearch stack ch anc c1.
Proof. intros Hij He. unfold iter, PointerScan.iter. cbn. rewrite (proj2 (Nat.eqb_neq i j)) by done. by rewrite He. Qed.

Lemma iter_pop pass a j f rest ch anc c :
  iter pass (mkSearch (mkFrame a j j :: f :: rest) ch anc c) = mkSearch (f :: rest) (tail ch) (tail anc) c.
Proof. unfold iter, PointerScan.iter. cbn. by rewrite Nat.eqb_refl. Qed.

Lemma run_frame n : ∀ es a ch anc i j rest c pass,
  stop c = false → slice_of i j = es → (i ≤ j ≤ length (byTarget map))%nat → len rest + 1 + Z.of_nat n = pass →
  ∃ s, rtc (machineStep pass) (mkSearch (mkFrame a i j :: rest) ch anc c) s ∧
    core s = untilStop (exploreBody n a ch anc) es c ∧
    (stop (core s) = false → s = mkSearch (mkFrame a j j :: rest) ch anc (core s)).
Proof using Hsorted Hok Hmax.
  induction n as [n IHn] using lt_wf_ind. induction es as [|e es IHes]; intros a ch anc i j rest c pass Hc Hs Hij Hp.
  { apply slice_nil in Hs as ->; [|done]. eexists. split; [apply rtc_refl|]. done. }
  destruct (slice_cons i j e es Hs) as (Hne & He & Hs').
  assert (running (mkSearch (mkFrame a i j :: rest) ch anc c) = true) as Hrun by (unfold running; cbn; by rewrite Hc).
  pose proof (machine_step pass _ Hrun) as Hstep. rewrite (iter_visit pass a i j rest ch anc c e Hne He) in Hstep.
  cbn [untilStop]. destruct n as [|n]; cbn [exploreBody]; unfold leaf, inner; cbv zeta in Hstep |- *.
  - destruct (stop (tick c)) eqn:Ht; [eexists; split; [by apply rtc_once|]; cbn; rewrite Ht; split; [done|congruence]|].
    rewrite (proj2 (Z.eqb_eq _ _)) in Hstep by lia.
    destruct (stop (record e (offsetFrom a e :: ch) (tick c))) eqn:Hr.
    + eexists; split; [by apply rtc_once|]. cbn. rewrite Hr. split; [done|congruence].
    + assert (stop (withDeeper (record e (offsetFrom a e :: ch) (tick c)) (deeper (record e (offsetFrom a e :: ch) (tick c)) || fresh anc e)) = false) as Hd by exact Hr.
      rewrite Hd. destruct (IHes a ch anc (S i) j rest _ pass Hd Hs' ltac:(lia) Hp) as (s & H1 & H2 & H3).
      exists s. split; [by eapply rtc_l|]. done.
  - destruct (stop (tick c)) eqn:Ht; [eexists; split; [by apply rtc_once|]; cbn; rewrite Ht; split; [done|congruence]|].
    rewrite (proj2 (Z.eqb_neq _ _)) in Hstep by lia. destruct (fresh anc e).
    2:{ rewrite Ht. destruct (IHes a ch anc (S i) j rest _ pass Ht Hs' ltac:(lia) Hp) as (s & H1 & H2 & H3).
        exists s. split; [by eapply rtc_l|]. done. }
    assert (0 ≤ locatedAt e ≤ UINTPTR_MAX) as Hloc.
    { rewrite Forall_lookup in Hok. destruct (Hok i e He). lia_w. }
    pose proof (window_slice (locatedAt e) Hsorted Hmax Hloc) as Hw.
    destruct (window map config (locatedAt e)) as [lo hi]. destruct Hw as [Hw Hlh].
    destruct (IHn n ltac:(lia) _ (locatedAt e) (offsetFrom a e :: ch) (locatedAt e :: anc) lo hi
                (mkFrame a (S i) j :: rest) (tick c) pass Ht Hw Hlh) as (s1 & H1 & H2 & H3); [rewrite len_cons; lia|].
    assert (core s1 = explore n (locatedAt e) (offsetFrom a e :: ch) (locatedAt e :: anc) (tick c)) as Hcore by (rewrite H2; by destruct n).
    rewrite <- Hcore. destruct (stop (core s1)) eqn:Hst.
    { exists s1. split; [by eapply rtc_l|]. split; [done|congruence]. }
    specialize (H3 eq_refl). assert (running s1 = true) as Hrun1 by (rewrite H3; unfold running; cbn; by rewrite Hst).
    pose proof (machine_step pass _ Hrun1) as Hstep1.
    assert (iter pass s1 = mkSearch (mkFrame a (S i) j :: rest) ch anc (core s1)) as Hpop by (rewrite H3; apply iter_pop).
    rewrite Hpop in Hstep1.
    destruct (IHes a ch anc (S i) j rest _ pass Hst Hs' ltac:(lia) Hp) as (s & H4 & H5 & H6).
    exists s. split; [|done]. eapply rtc_l; [exact Hstep|]. etransitivity; [exact H1|]. by eapply rtc_l.
Qed.

Lemma walk_done fuel pass s : running s = false → walk map config cancelled fuel pass s = Some s.
Proof. intros Hnr. destruct fuel; cbn [walk]; by rewrite Hnr. Qed.

Lemma walk_rtc pass s s' : rtc (machineStep pass) s s' → running s' = false →
  ∃ n, ∀ fuel, (n ≤ fuel)%nat → walk map config cancelled fuel pass s = Some s'.
Proof.
  intros Hr Hf. induction Hr as [s|s s1 s' [s0 Hrun] _ IH]; [exists O; intros; by apply walk_done|].
  destruct (IH Hf) as [n Hn]. exists (S n). intros [|fuel] Hfuel; [lia|]. cbn [walk]. rewrite Hrun. cbn. apply Hn. lia.
Qed.

(** One pass of the machine is one call of the recursive search. *)
Lemma walk_pass n c : stop c = false → 0 ≤ targetAddress config ≤ UINTPTR_MAX →
  ∃ k, ∀ fuel, (k ≤ fuel)%nat → ∃ s,
    walk map config cancelled fuel (Z.of_nat n + 1) (startPass map config c) = Some s ∧
    core s = explore n (targetAddress config) [] [targetAddress config] (withDeeper c false).
Proof using Hsorted Hok Hmax.
  intros Hc Ha. set (t := targetAddress config) in *. pose proof (window_slice t Hsorted Hmax Ha) as Hw.
  unfold startPass. fold t. destruct (window map config t) as [lo hi]. destruct Hw as [Hw Hlh].
  destruct (run_frame n _ t [] [t] lo hi [] (withDeeper c false) (Z.of_nat n + 1) Hc Hw Hlh) as (s & H1 & H2 & H3);
    [rewrite len_nil; lia|].
  assert (core s = explore n t [] [t] (withDeeper c false)) as Hcore by (rewrite H2; by destruct n).
  destruct (stop (core s)) eqn:Hst.
  - destruct (walk_rtc _ _ _ H1) as [k Hk]; [unfold running; by rewrite Hst|]. exists k. intros fuel Hf. exists s. by rewrite Hk.
  - specialize (H3 eq_refl). assert (running s = true) as Hrun by (rewrite H3; unfold running; cbn; by rewrite Hst).
    pose proof (machine_step (Z.of_nat n + 1) _ Hrun) as Hstep.
    assert (iter (Z.of_nat n + 1) s = mkSearch [] [] [t] (core s)) as Hpop
      by (rewrite H3; unfold PointerScan.iter; cbn; by rewrite Nat.eqb_refl).
    rewrite Hpop in Hstep. destruct (walk_rtc _ _ _ (rtc_r _ _ _ H1 Hstep)) as [k Hk].
    { unfold running. cbn. by rewrite andb_false_r. }
    exists k. intros fuel Hf. exists (mkSearch [] [] [t] (core s)). by rewrite Hk.
Qed.

(** ** The recursive search yields a prefix of the reference *)

#[local] Abbreviation pathOf := (pathOf map config).
Definition hits (c : Core) : bool := limitHit (limits c) LimitResults || limitHit (limits c) LimitWork.
(** [c'] continues [c] with a prefix of the paths of [ls], all of them unless it stopped;
    stopping means a limit or a cancellation. *)
Definition extends (c c' : Core) (ls : list (Z * list Z)) : Prop :=
  (∃ l, l `prefix_of` ls ∧ results c' = results c ++ omap pathOf l ∧ (stop c' = false → l = ls)) ∧
  (stop c = false → stop c' = true → hits c' = true ∨ ∃ k, cancelled k = true) ∧
  (hits c = true → hits c' = true).

Lemma limitHit_testbit l k : k ≠ LimitNone → limitHit l k = Z.testbit l (limitIndex k).
Proof.
  intros Hk. unfold limitHit. assert (0 ≤ limitIndex k) as Hi by by destruct k.
  assert (limitBit k = 2 ^ limitIndex k) as -> by by destruct k.
  destruct (Z.testbit l (limitIndex k)) eqn:Hb.
  - apply negb_true_iff, Z.eqb_neq. intros Hz. apply (f_equal (λ z, Z.testbit z (limitIndex k))) in Hz.
    rewrite Z.land_spec, Z.pow2_bits_true, Hb, Z.bits_0 in Hz by done. done.
  - apply negb_false_iff, Z.eqb_eq. bits i. rewrite Z.land_spec, Z.bits_0.
    destruct (decide (i = limitIndex k)) as [->|]; [by rewrite Hb|]. rewrite Z.pow2_bits_false by done. apply andb_false_r.
Qed.
Lemma limitHit_reach l k k' : k ≠ LimitNone → k' ≠ LimitNone →
  limitHit (reachLimit l k') k = limitHit l k || (limitIndex k =? limitIndex k').
Proof.
  intros Hk Hk'. rewrite !limitHit_testbit by done. unfold reachLimit. rewrite Z.lor_spec. f_equal.
  by destruct k, k'.
Qed.

Lemma extends_refl c : extends c c [].
Proof. split; [exists []; cbn; by rewrite app_nil_r|]. split; [intros; congruence|done]. Qed.

Lemma extends_trans c c1 c2 l1 l2 :
  extends c c1 l1 → stop c1 = false → extends c1 c2 l2 → extends c c2 (l1 ++ l2).
Proof.
  intros ((m1 & Hp1 & Hr1 & He1) & Hs1 & Hh1) Hst ((m2 & Hp2 & Hr2 & He2) & Hs2 & Hh2).
  rewrite (He1 Hst) in Hr1. split; [|split; auto]. exists (l1 ++ m2). split; [by apply prefix_app|].
  split; [by rewrite omap_app, app_assoc, <- Hr1|]. intros H'. by rewrite (He2 H').
Qed.

Lemma extends_stop c c1 l1 l2 : extends c c1 l1 → stop c1 = true → extends c c1 (l1 ++ l2).
Proof.
  intros ((m1 & Hp1 & Hr1 & _) & Hs1 & Hh1) Hst. split; [|done]. exists m1.
  split; [by apply prefix_app_r|]. split; [done|congruence].
Qed.

Lemma tick_extends c : extends c (tick c) [].
Proof.
  unfold PointerScan.tick. destruct (_ <=? _).
  { split; [exists []; cbn; by rewrite app_nil_r|]. unfold hits. cbn. rewrite !limitHit_reach by done.
    cbn. rewrite !orb_true_r. auto. }
  cbv zeta. destruct (_ =? 0); cbn; [destruct (cancelled (polls c)) eqn:Hx|].
  all: split; [exists []; cbn; by rewrite app_nil_r|]; (split; [|done]); cbn; try (intros; congruence).
  intros _ _. right. by exists (polls c).
Qed.

Lemma record_extends c e offs : extends c (record e offs c) [(locatedAt e, offs)].
Proof.
  unfold PointerScan.record. unfold extends, PointerScan.pathOf. cbn [omap list_omap fst snd].
  destruct (recordPath map config (locatedAt e) offs) as [p|] eqn:Hp.
  - destruct (_ <=? _).
    + split; [exists []; cbn; rewrite app_nil_r; split; [apply prefix_nil|done]|]. unfold hits. cbn.
      rewrite !limitHit_reach by done. cbn. rewrite !orb_true_r. auto.
    + split; [|split; [cbn; intros; congruence|done]]. exists [(locatedAt e, offs)]. cbn. by rewrite Hp.
  - split; [|split; [cbn; intros; congruence|done]]. exists [(locatedAt e, offs)]. cbn. by rewrite Hp, app_nil_r.
Qed.

Lemma untilStop_extends body es (f : Entry → list (Z * list Z)) c :
  (∀ c e, stop c = false → extends c (body c e) (f e)) → stop c = false →
  extends c (untilStop body es c) (mjoin (f <$> es)).
Proof.
  intros Hb. revert c. induction es as [|e es IH]; intros c Hc; [apply extends_refl|].
  cbn [untilStop]. rewrite mjoin_fmap_cons. pose proof (Hb c e Hc) as Hx. destruct (stop (body c e)) eqn:Hst.
  - by apply extends_stop.
  - eapply extends_trans; [exact Hx|done|]. by apply IH.
Qed.

Lemma explore_extends n a ch anc c : stop c = false → extends c (explore n a ch anc c) (links n a ch anc).
Proof.
  revert a ch anc c. induction n as [|n IH]; intros a ch anc c Hc; cbn [explore PointerScan.links].
  - replace ((λ e, (locatedAt e, offsetFrom a e :: ch)) <$> pointing a)
      with (mjoin ((λ e, [(locatedAt e, offsetFrom a e :: ch)]) <$> pointing a)).
    + apply untilStop_extends; [|done]. intros c0 e Hc0. unfold leaf. pose proof (tick_extends c0) as Ht.
      destruct (stop (tick c0)) eqn:Hst; [by apply (extends_stop _ _ [])|].
      pose proof (extends_trans _ _ _ _ _ Ht Hst (record_extends (tick c0) e (offsetFrom a e :: ch))) as Hr.
      by destruct (stop (record e (offsetFrom a e :: ch) (tick c0))) eqn:Hs2.
    + induction (pointing a) as [|e es IHes]; [done|]. rewrite mjoin_fmap_cons, IHes. done.
  - apply untilStop_extends; [|done]. intros c0 e Hc0. unfold inner. pose proof (tick_extends c0) as Ht.
    destruct (stop (tick c0)) eqn:Hst; [by apply (extends_stop _ _ [])|].
    destruct (fresh anc e); [|done]. apply (extends_trans _ _ _ _ _ Ht Hst). by apply IH.
Qed.

(** ** Stopping early because no slot is fresh *)

(** Some chain of [n + 1] links ends at a slot that could be walked further. *)
Fixpoint freshLeaf (n : nat) (a : Z) (anc : list Z) : bool :=
  match n with
  | O => existsb (fresh anc) (pointing a)
  | S n => existsb (λ e, fresh anc e && freshLeaf n (locatedAt e) (locatedAt e :: anc)) (pointing a)
  end.

Lemma untilStop_deeper body es g c :
  (∀ c e, stop c = false → stop (body c e) = false → deeper (body c e) = deeper c || g e) →
  stop c = false → stop (untilStop body es c) = false → deeper (untilStop body es c) = deeper c || existsb g es.
Proof.
  intros Hb. revert c. induction es as [|e es IH]; intros c Hc Hs; cbn in *; [by rewrite orb_false_r|].
  destruct (stop (body c e)) eqn:Hst; [congruence|]. rewrite IH by done. rewrite Hb by done. by rewrite orb_assoc.
Qed.

Lemma tick_deeper c : deeper (tick c) = deeper c.
Proof. unfold PointerScan.tick. repeat (case_match; simplify_eq/=; try done). Qed.
Lemma record_deeper e offs c : deeper (record e offs c) = deeper c.
Proof. unfold PointerScan.record. repeat case_match; done. Qed.

Lemma explore_deeper n a ch anc c : stop c = false → stop (explore n a ch anc c) = false →
  deeper (explore n a ch anc c) = deeper c || freshLeaf n a anc.
Proof.
  revert a ch anc c. induction n as [|n IH]; intros a ch anc c Hc Hs; cbn [explore freshLeaf] in *.
  - apply untilStop_deeper; [|done|done]. intros c0 e Hc0. unfold leaf. destruct (stop (tick c0)) eqn:Ht; [congruence|].
    destruct (stop (record e (offsetFrom a e :: ch) (tick c0))) eqn:Hr; [congruence|]. intros _. cbn.
    by rewrite record_deeper, tick_deeper.
  - apply untilStop_deeper; [|done|done]. intros c0 e Hc0. unfold inner. destruct (stop (tick c0)) eqn:Ht; [congruence|].
    destruct (fresh anc e); cbn; intros Hx; [rewrite IH by done|]; rewrite tick_deeper; [done|by rewrite orb_false_r].
Qed.

Lemma links_nil n k a ch anc : freshLeaf n a anc = false → links (S n + k) a ch anc = [].
Proof.
  revert a ch anc. induction n as [|n IH]; intros a ch anc Hf; cbn [freshLeaf] in Hf; cbn [Nat.add PointerScan.links];
    apply mjoin_nil_all, Forall_forall; intros e He; pose proof (existsb_elem _ _ _ Hf He) as Hx; cbn in Hx.
  - by rewrite Hx.
  - destruct (fresh anc e); [|done]. cbn in Hx. exact (IH (locatedAt e) (offsetFrom a e :: ch) (locatedAt e :: anc) Hx).
Qed.

(** ** A limit is reported only when it was reached *)

Definition justified (c : Core) : Prop :=
  (limitHit (limits c) LimitResults = true → maxResults config ≤ len (results c)) ∧
  (limitHit (limits c) LimitWork = true → maxVisits config ≤ visits c).

Lemma untilStop_ind (P : Core → Prop) body es c : (∀ c e, P c → P (body c e)) → P c → P (untilStop body es c).
Proof. intros Hb. revert c. induction es as [|e es IH]; intros c Hc; cbn; [done|]. case_match; auto. Qed.

Lemma tick_justified c : justified c → justified (tick c).
Proof.
  intros [H1 H2]. unfold PointerScan.tick. destruct (Z.leb_spec (maxVisits config) (visits c)) as [Hv|Hv].
  - split; cbn; rewrite limitHit_reach by done; cbn; [by rewrite orb_false_r|done].
  - assert (justified (mkCore (results c) (visits c + 1) (polls c) (limits c) (deeper c) (stop c))) as Hj.
    { split; [done|]. cbn. intros Hw. specialize (H2 Hw). lia. }
    cbv zeta. destruct (_ =? 0); [|done]. cbn. by destruct (cancelled _).
Qed.
Lemma record_justified e offs c : justified c → justified (record e offs c).
Proof.
  intros [H1 H2]. unfold PointerScan.record. destruct (recordPath _ _ _ _); [|done].
  destruct (Z.leb_spec (maxResults config) (len (results c))).
  - split; cbn; rewrite limitHit_reach by done; cbn; [done|by rewrite orb_false_r].
  - split; [|done]. cbn. rewrite len_snoc. intros Hr. specialize (H1 Hr). lia.
Qed.
Lemma explore_justified n a ch anc c : justified c → justified (explore n a ch anc c).
Proof.
  revert a ch anc c. induction n as [|n IH]; intros a ch anc c Hc; cbn [explore]; (apply untilStop_ind; [|done]); intros c0 e Hc0.
  - unfold leaf. pose proof (record_justified e (offsetFrom a e :: ch) _ (tick_justified _ Hc0)).
    destruct (stop (tick c0)); [by apply tick_justified|]. by destruct (stop (record _ _ _)).
  - unfold inner. pose proof (tick_justified _ Hc0). destruct (stop (tick c0)); [done|]. destruct (fresh anc e); auto.
Qed.

(** The candidates a pass examines. *)
Fixpoint work (n : nat) (a : Z) (anc : list Z) : Z :=
  match n with
  | O => len (pointing a)
  | S n => foldr (λ e acc, 1 + (if fresh anc e then work n (locatedAt e) (locatedAt e :: anc) else 0) + acc) 0 (pointing a)
  end.
Lemma tick_visits c : visits (tick c) ≤ visits c + 1.
Proof.
  unfold PointerScan.tick. destruct (_ <=? _); [cbn; lia|]. cbv zeta. destruct (_ =? 0); cbn; [|lia]. destruct (cancelled _); cbn; lia.
Qed.
Lemma record_visits e offs c : visits (record e offs c) = visits c.
Proof. unfold PointerScan.record. by repeat case_match. Qed.
Lemma untilStop_visits body es g c : (∀ c e, visits (body c e) ≤ visits c + g e) → (∀ e, 0 ≤ g e) →
  visits (untilStop body es c) ≤ visits c + foldr (λ e acc, g e + acc) 0 es.
Proof.
  intros Hb Hg. revert c. induction es as [|e es IH]; intros c; cbn; [lia|]. pose proof (Hb c e).
  assert (∀ es : list Entry, 0 ≤ foldr (λ e acc, g e + acc) 0 es) as Hn
    by (intros l; induction l as [|x l IHl]; cbn; [lia|pose proof (Hg x); lia]).
  case_match; [pose proof (Hn es); lia|]. specialize (IH (body c e)). lia.
Qed.
Lemma work_nonneg n a anc : 0 ≤ work n a anc.
Proof.
  revert a anc. induction n as [|n IH]; intros a anc; cbn [work]; [apply len_nonneg|].
  induction (pointing a) as [|e es IHes]; cbn [foldr]; [lia|]. destruct (fresh anc e); [|lia]. pose proof (IH (locatedAt e) (locatedAt e :: anc)). lia.
Qed.
Lemma explore_visits n a ch anc c : visits (explore n a ch anc c) ≤ visits c + work n a anc.
Proof.
  revert a ch anc c. induction n as [|n IH]; intros a ch anc c; cbn [explore work].
  - replace (len (pointing a)) with (foldr (λ (e : Entry) acc, 1 + acc) 0 (pointing a))
      by (induction (pointing a) as [|e es IHes]; [done|]; cbn [foldr]; by rewrite IHes, len_cons).
    apply untilStop_visits; [|done]. intros c0 e. unfold leaf. pose proof (tick_visits c0).
    pose proof (record_visits e (offsetFrom a e :: ch) (tick c0)). repeat case_match; cbn; lia.
  - apply (untilStop_visits _ _ (λ e, 1 + (if fresh anc e then work n (locatedAt e) (locatedAt e :: anc) else 0))).
    + intros c0 e. unfold inner. pose proof (tick_visits c0). pose proof (work_nonneg n (locatedAt e) (locatedAt e :: anc)).
      pose proof (IH (locatedAt e) (offsetFrom a e :: ch) (locatedAt e :: anc) (tick c0)). repeat case_match; lia.
    + intros e. pose proof (work_nonneg n (locatedAt e) (locatedAt e :: anc)). case_match; lia.
Qed.

(** ** All the passes *)

Definition levelWork (n : nat) : Z := work n (targetAddress config) [targetAddress config].
Definition totalWork (ns : list nat) : Z := foldr (λ n acc, levelWork n + acc) 0 ns.
Lemma totalWork_nonneg ns : 0 ≤ totalWork ns.
Proof.
  induction ns as [|n ns IH]; [done|]. change (0 ≤ levelWork n + totalWork ns).
  pose proof (work_nonneg n (targetAddress config) [targetAddress config]). unfold levelWork. lia.
Qed.

#[local] Abbreviation level := (level map config).
Lemma pass_once n k c : stop c = false → cancelled (polls c) = false → 0 ≤ targetAddress config ≤ UINTPTR_MAX →
  ∃ f c2, (∀ fuel, (f ≤ fuel)%nat → passes map config cancelled fuel (S n) (Z.of_nat k + 1) c =
      if negb (deeper c2) then Some c2 else passes map config cancelled fuel n (Z.of_nat (S k) + 1) c2) ∧
    extends c c2 (level k) ∧
    (stop c2 = false → deeper c2 = freshLeaf k (targetAddress config) [targetAddress config]) ∧
    (justified c → justified c2) ∧ visits c2 ≤ visits c + levelWork k.
Proof using Hsorted Hok Hmax.
  intros Hc Hx Ht. set (c1 := mkCore (results c) (visits c) (S (polls c)) (limits c) (deeper c) (stop c)).
  destruct (walk_pass k c1 Hc Ht) as [f Hf]. eexists f, _. split; [|split; [|split; [|split]]].
  - intros fuel Hfuel. destruct (Hf fuel Hfuel) as (s & Hs & Hcs). cbn [passes]. rewrite Hc. unfold poll. fold c1. rewrite Hx, Hs, Hcs.
    by replace (Z.of_nat (S k) + 1) with (Z.of_nat k + 1 + 1) by lia.
  - exact (explore_extends k (targetAddress config) [] [targetAddress config] (withDeeper c1 false) Hc).
  - intros Hs. by rewrite explore_deeper.
  - intros Hj. by apply explore_justified.
  - apply (explore_visits k (targetAddress config) [] [targetAddress config] (withDeeper c1 false)).
Qed.

(** [c'] has a prefix of the paths of the levels from [k], all of them unless a limit was
    hit or the scan was cancelled. *)
Definition yields (c c' : Core) (ls : list (Z * list Z)) : Prop :=
  ∃ l, l `prefix_of` ls ∧ results c' = results c ++ omap pathOf l ∧
    (hits c' = false → (∀ i, cancelled i = false) → l = ls).
Definition bounded (c c' : Core) (w : Z) : Prop := (justified c → justified c') ∧ visits c' ≤ visits c + w.

Lemma passes_spec n : ∀ k c, stop c = false → 0 ≤ targetAddress config ≤ UINTPTR_MAX →
  ∃ f c', (∀ fuel, (f ≤ fuel)%nat → passes map config cancelled fuel n (Z.of_nat k + 1) c = Some c') ∧
    yields c c' (mjoin (level <$> seq k n)) ∧ bounded c c' (totalWork (seq k n)).
Proof using Hsorted Hok Hmax.
  induction n as [|n IH]; intros k c Hc Ht.
  { exists O, c. split; [done|]. split; [|by split; cbn; [|lia]]. exists []. cbn. by rewrite app_nil_r. }
  cbn [seq]. rewrite mjoin_fmap_cons. pose proof (totalWork_nonneg (seq (S k) n)) as Hw.
  change (totalWork (k :: seq (S k) n)) with (levelWork k + totalWork (seq (S k) n)).
  pose proof (work_nonneg k (targetAddress config) [targetAddress config]) as Hwk. fold (levelWork k) in Hwk. destruct (cancelled (polls c)) eqn:Hx.
  { exists O. eexists. split; [intros fuel _; cbn [passes]; rewrite Hc; unfold poll; by rewrite Hx|].
    split; [|split; cbn; [done|lia]]. exists []. cbn. rewrite app_nil_r. split_and!; [apply prefix_nil|done|]. intros _ Hn. by rewrite Hn in Hx. }
  destruct (pass_once n k c Hc Hx Ht) as (f1 & c2 & Hpass & ((l & Hp & Hr & Hall) & Hst & _) & Hd & Hj & Hv).
  destruct (stop c2) eqn:Hs2.
  - exists f1, c2. split.
    { intros fuel Hfuel. rewrite Hpass by done. destruct (negb _); [done|]. destruct n; cbn [passes]; [done|]. by rewrite Hs2. }
    split; [|split; [done|lia]]. exists l. split_and!; [by apply prefix_app_r|done|]. intros Hh Hn.
    destruct (Hst Hc eq_refl) as [Hh'|[i Hi]]; [by rewrite Hh in Hh'|by rewrite Hn in Hi].
  - specialize (Hall eq_refl). subst l. specialize (Hd eq_refl). destruct (deeper c2).
    + destruct (IH (S k) c2 Hs2 Ht) as (f2 & c' & Hf2 & (l & Hp' & Hr' & Hall') & Hj' & Hv'). exists (f1 `max` f2)%nat, c'. split.
      { intros fuel Hfuel. rewrite Hpass by lia. apply Hf2. lia. }
      split; [|split; [auto|lia]]. exists (level k ++ l). split_and!; [by apply prefix_app|by rewrite omap_app, app_assoc, <- Hr|].
      intros Hh Hn. by rewrite (Hall' Hh Hn).
    + exists f1, c2. split; [intros fuel Hfuel; by rewrite Hpass|].
      split; [|split; [done|lia]]. assert (mjoin (level <$> seq (S k) n) = []) as ->.
      { apply mjoin_nil_all, Forall_forall. intros j [Hjk _]%elem_of_seq. unfold PointerScan.level.
        replace j with (S k + (j - S k))%nat by lia. by apply links_nil. }
      exists (level k). rewrite app_nil_r. done.
Qed.
End Machine.

(** ** The refinement *)

(** A map as [setEntries] builds it and a configuration the scan accepts. *)
Definition scan_ok (map : PointerMap) (config : PointerScanConfig) : Prop :=
  sortedBy pointsTo (byTarget map) ∧ Forall entry_ok (byTarget map) ∧ badConfig config = false ∧ is_u64 (targetAddress config).

Lemma prefix_omap {A B} (f : A → option B) l k : l `prefix_of` k → omap f l `prefix_of` omap f k.
Proof. intros [x ->]. rewrite omap_app. by apply prefix_app_r. Qed.

Lemma scan_run `{!StdSort} map config (cancelled : nat → bool) : scan_ok map config →
  ∃ fuel0 rs limit, (∀ fuel, (fuel0 ≤ fuel)%nat → scanWithMap map config cancelled fuel = Some (rs, limit)) ∧
    rs `prefix_of` reference map config ∧
    ((∀ k, cancelled k = false) →
      (limitHit limit LimitResults = false → limitHit limit LimitWork = false → rs = reference map config) ∧
      (limitHit limit LimitResults = true → maxResults config ≤ len rs) ∧
      (limitHit limit LimitWork = true → maxVisits config ≤ totalWork map config (seq 0 (Z.to_nat (maxDepth config))))).
Proof.
  intros (Hs & Hok & Hbad & Ht). assert (0 ≤ maxOffset config) as Hmax.
  { unfold badConfig in Hbad. destruct (Z.ltb_spec (maxOffset config) 0); [by rewrite orb_true_r in Hbad|done]. }
  set (limit0 := if map_truncated map then reachLimit 0 LimitMapEntries else 0).
  destruct (passes_spec map config cancelled Hs Hok Hmax (Z.to_nat (maxDepth config)) 0 (mkCore [] 0 O limit0 false false) eq_refl)
    as (f & c & Hf & (l & Hp & Hr & Hall) & Hj & Hv); [lia_w|].
  cbn [results app] in Hr. exists f, (if cancelled (polls c) then [] else results c), (limits c). split_and!.
  - intros fuel Hfuel. unfold scanWithMap. rewrite Hbad. cbv zeta. fold limit0.
    pose proof (Hf fuel Hfuel) as He. change (Z.of_nat 0 + 1) with 1 in He. by rewrite He.
  - destruct (cancelled (polls c)); [apply prefix_nil|]. rewrite Hr. by apply prefix_omap.
  - intros Hn. rewrite Hn. destruct Hj as [Hj1 Hj2].
    + split; cbn; unfold limit0; by destruct (map_truncated map).
    + split_and!; [|done|intros Hw; specialize (Hj2 Hw); cbn in Hv; lia].
      intros H1 H2. rewrite Hr, Hall; [done| |done]. unfold hits. by rewrite H1, H2.
Qed.

(** C1: The iterative-deepening search refines its specification.  The machine always
    terminates; it returns a prefix of the paths of [reference] (depth-first per length,
    shortest first); not cancelled and without a result or work limit it returns all of
    them, and either limit is reported only when it was really reached. *)
Theorem scanWithMap_refines `{!StdSort} map config (cancelled : nat → bool) : scan_ok map config →
  ∃ fuel0 rs limit, (∀ fuel, (fuel0 ≤ fuel)%nat → scanWithMap map config cancelled fuel = Some (rs, limit)) ∧
    rs `prefix_of` reference map config ∧
    ((∀ k, cancelled k = false) →
      (limitHit limit LimitResults = false → limitHit limit LimitWork = false → rs = reference map config) ∧
      (limitHit limit LimitResults = true → maxResults config ≤ len rs) ∧
      (limitHit limit LimitWork = true → maxVisits config ≤ totalWork map config (seq 0 (Z.to_nat (maxDepth config))))).
Proof. apply scan_run. Qed.
Definition sampleConfig : PointerScanConfig :=
  mkConfig 9000 3 64 false true true 0 1 false 0 100 1000 1000.
Definition sampleGraph : list Entry :=
  [mkEntry 8960 5000; mkEntry 4990 6000; mkEntry 9000 4200; mkEntry 5000 8990; mkEntry 77 4096].
Definition samplePointerMap : PointerMap := setEntries sampleMap sampleGraph.
Lemma samplePointerMap_ok : scan_ok samplePointerMap sampleConfig.
Proof. split_and!; [apply std_sort_key|decide_by_compute..]. Qed.
Definition samplePath (off : Z) (offs : list Z) : PointerPath := mkPath (bs "game") 4096 off offs.
Definition sampleFound : list PointerPath :=
  [samplePath 904 [40]; samplePath 104 [0]; samplePath 1904 [10; 40]; samplePath 4894 [0; 40]; samplePath 904 [30; 0; 40]].
Lemma scanWithMap_refines_witness :
  ∃ fuel0 rs limit, (∀ fuel, (fuel0 ≤ fuel)%nat → scanWithMap samplePointerMap sampleConfig (λ _, false) fuel = Some (rs, limit)) ∧
    rs `prefix_of` sampleFound.
Proof.
  destruct (scanWithMap_refines samplePointerMap sampleConfig (λ _, false) samplePointerMap_ok) as (f & rs & l & H1 & H2 & _).
  exists f, rs, l. split; [exact H1|]. assert (reference samplePointerMap sampleConfig = sampleFound) as <- by (vm_compute; reflexivity).
  exact H2.
Defined.

(** ** Which paths the scan finds *)

(** Walking forward through the recorded pointers: from the slot [b], following [offs],
    through the addresses [slots] (from [b] to the end of the walk). *)
Inductive Walk (es : list Entry) (config : PointerScanConfig) : Z → list Z → list Z → Prop :=
  | walk_end a : Walk es config a [] [a]
  | walk_slot b v off offs slots :
      mkEntry v b ∈ es → (if negativeOffsets config then - maxOffset config else 0) ≤ off ≤ maxOffset config →
      Walk es config (v + off) offs slots → Walk es config b (off :: offs) (b :: slots).

Section Paths.
Context `{!StdSort} (map : PointerMap) (config : PointerScanConfig).
Context (Hsorted : sortedBy pointsTo (byTarget map)) (Hok : Forall entry_ok (byTarget map))
  (Hmax : 0 ≤ maxOffset config < 2 ^ 31) (Htarget : is_u64 (targetAddress config)).
#[local] Abbreviation es := (byTarget map).
#[local] Abbreviation target := (targetAddress config).

Definition allowed (off : Z) : Prop := (if negativeOffsets config then - maxOffset config else 0) ≤ off ≤ maxOffset config.

Lemma elem_of_pointing a e : is_u64 a → e ∈ pointing map config a ↔ e ∈ es ∧ allowed (a - pointsTo e).
Proof using Hok Hmax.
  intros Ha. unfold pointing. rewrite list_elem_of_In, List.filter_In, <- list_elem_of_In.
  rewrite andb_true_iff, !Z.leb_le. unfold allowed, searchMin, searchMax. rewrite Forall_forall in Hok. split.
  - intros [Hin Hr]. split; [done|]. destruct (Hok e Hin) as [He _].
    destruct (Z.ltb_spec (maxOffset config) a), (negativeOffsets config); lia_w.
  - intros [Hin Hr]. split; [done|]. destruct (Hok e Hin) as [He _].
    destruct (Z.ltb_spec (maxOffset config) a), (negativeOffsets config); lia_w.
Qed.

Lemma offsetFrom_exact a e : allowed (a - pointsTo e) → offsetFrom a e = a - pointsTo e.
Proof using Hmax.
  unfold allowed, offsetFrom. intros Hr. rewrite <- (to_signed_small 32 (a - pointsTo e)) at 2;
    [|done|change (2 ^ (32 - 1)) with (2 ^ 31); destruct (negativeOffsets config); lia].
  unfold to_signed. by rewrite (wrap_wrap 32 64).
Qed.

(** One step back from an address, with the chain and the ancestors. *)
Definition hop (s s' : Z * list Z * list Z) : Prop :=
  let '(a, ch, anc) := s in
  ∃ e, e ∈ es ∧ allowed (a - pointsTo e) ∧ locatedAt e ∉ anc ∧
       s' = (locatedAt e, (a - pointsTo e) :: ch, locatedAt e :: anc).

Lemma elem_of_links n a ch anc b offs : is_u64 a →
  (b, offs) ∈ links map config n a ch anc ↔
  ∃ a' ch' anc' e, nsteps hop n (a, ch, anc) (a', ch', anc') ∧ e ∈ es ∧ allowed (a' - pointsTo e) ∧
    b = locatedAt e ∧ offs = (a' - pointsTo e) :: ch'.
Proof using Hok Hmax.
  revert a ch anc. induction n as [|n IH]; intros a ch anc Ha; cbn [links].
  - rewrite list_elem_of_fmap. setoid_rewrite elem_of_pointing; [|done]. split.
    + intros (e & [= -> ->] & Hin & Hal). exists a, ch, anc, e. rewrite offsetFrom_exact by done. split_and!; [constructor|done..].
    + intros (a' & ch' & anc' & e & Hn & Hin & Hal & -> & ->). inversion Hn; subst. exists e. by rewrite offsetFrom_exact.
  - rewrite elem_of_mjoin_fmap. setoid_rewrite elem_of_pointing; [|done]. split.
    + intros (e & [Hin Hal] & Hl). unfold fresh in Hl. case_bool_decide as Hfr; cbn in Hl; [by apply elem_of_nil in Hl|].
      rewrite Forall_forall in Hok. apply IH in Hl as (a' & ch' & anc' & e' & Hn & Hrest); [|by apply Hok].
      exists a', ch', anc', e'. split; [|done]. eapply nsteps_l; [|exact Hn]. exists e. by rewrite offsetFrom_exact.
    + intros (a' & ch' & anc' & e' & Hn & Hrest). inversion Hn as [|? ? y ? Hh Hn']; subst.
      destruct Hh as (e & Hin & Hal & Hfr & ->). exists e. split; [done|]. unfold fresh. rewrite bool_decide_eq_false_2 by done. cbn.
      rewrite offsetFrom_exact by done. apply IH; [rewrite Forall_forall in Hok; by apply Hok|]. eauto 10.
Qed.

Lemma Walk_head b offs slots : Walk es config b offs slots → head slots = Some b.
Proof. by destruct 1. Qed.

Lemma hops_walk n a ch anc :
  nsteps hop n (target, [], [target]) (a, ch, anc) ↔
  Walk es config a ch anc ∧ last anc = Some target ∧ NoDup anc ∧ length ch = n.
Proof.
  split.
  - revert a ch anc. induction n as [|n IH]; intros a ch anc Hn.
    + inversion Hn; subst. split_and!; [constructor|done|apply NoDup_singleton|done].
    + apply nsteps_inv_r in Hn as (((a' & ch') & anc') & Hn & (e & Hin & Hal & Hfr & [= -> -> ->])).
      destruct (IH _ _ _ Hn) as (Hw & Hl & Hnd & <-). split_and!.
      * apply (walk_slot _ _ _ (pointsTo e)); [by destruct e|done|]. by replace (pointsTo e + (a' - pointsTo e)) with a' by lia.
      * by rewrite last_cons, Hl.
      * by apply NoDup_cons.
      * done.
  - intros (Hw & Hl & Hnd & <-). induction Hw as [a|b v off offs slots Hin Hal Hw IH].
    + injection Hl as ->. constructor.
    + apply NoDup_cons in Hnd as [Hni Hnd]. cbn. eapply nsteps_r.
      * apply IH; [|done]. rewrite last_cons in Hl. apply Walk_head in Hw. by destruct slots; [|destruct (last (z :: slots)) eqn:E; [|by apply last_None in E]].
      * exists (mkEntry v b). cbn. replace (v + off - v) with off by lia. done.
Qed.

(** The paths of the reference, as walks. *)
Lemma elem_of_reference p : p ∈ reference map config ↔
  ∃ b offs slots, Walk es config b offs (b :: slots) ∧ last slots = Some target ∧ NoDup slots ∧
    1 ≤ len offs ≤ maxDepth config ∧ recordPath map config b offs = Some p.
Proof using Hok Hmax Htarget.
  unfold reference. rewrite list_elem_of_omap. setoid_rewrite elem_of_mjoin_fmap. setoid_rewrite elem_of_seq. split.
  - intros ((b & offs) & (n & Hn & Hl) & Hp). apply elem_of_links in Hl as (a' & ch' & anc' & e & Hs & Hin & Hal & -> & ->); [|done].
    apply hops_walk in Hs as (Hw & Hlast & Hnd & <-). exists (locatedAt e), ((a' - pointsTo e) :: ch'), anc'. split_and!; [|done..| | |done].
    + apply (walk_slot _ _ _ (pointsTo e)); [by destruct e|done|]. by replace (pointsTo e + (a' - pointsTo e)) with a' by lia.
    + rewrite len_cons. pose proof (len_nonneg ch'). lia.
    + unfold len. cbn. lia.
  - intros (b & offs & slots & Hw & Hlast & Hnd & Hlen & Hp). inversion Hw as [|? v off offs' ? Hin Hal Hw']; subst; [done|].
    exists (b, off :: offs'). split; [|done]. exists (length offs'). split; [unfold len in Hlen; cbn in Hlen; lia|].
    apply elem_of_links; [done|]. exists (v + off), offs', slots, (mkEntry v b). cbn. replace (v + off - v) with off by lia.
    split_and!; [|done..]. by apply hops_walk.
Qed.
End Paths.

(** ** Fuel *)

Section Fuel.
Context `{!StdSort} (map : PointerMap) (config : PointerScanConfig) (cancelled : nat → bool).
Lemma walk_mono f f' pass s s' : (f ≤ f')%nat → walk map config cancelled f pass s = Some s' → walk map config cancelled f' pass s = Some s'.
Proof.
  revert f' s. induction f as [|f IH]; intros f' s Hf Hw.
  - cbn [walk] in Hw. destruct (negb (running s)) eqn:Hr; [|done]. destruct f'; cbn [walk]; by rewrite Hr.
  - destruct f' as [|f']; [lia|]. cbn [walk] in *. destruct (negb (running s)); [done|]. apply IH; [lia|done].
Qed.
Lemma passes_mono f f' n pass c c' : (f ≤ f')%nat → passes map config cancelled f n pass c = Some c' → passes map config cancelled f' n pass c = Some c'.
Proof.
  intros Hf. revert pass c. induction n as [|n IH]; intros pass c; cbn [passes]; [done|].
  destruct (stop c); [done|]. destruct (poll cancelled c) as [c1 [|]]; [done|].
  destruct (walk map config cancelled f pass _) as [s|] eqn:Hw; [|done]. rewrite (walk_mono f f' _ _ _ Hf Hw).
  destruct (negb _); [done|]. apply IH.
Qed.
Lemma scan_mono f f' r : (f ≤ f')%nat → scanWithMap map config cancelled f = Some r → scanWithMap map config cancelled f' = Some r.
Proof.
  intros Hf. unfold scanWithMap. destruct (badConfig config); [done|]. cbv zeta.
  destruct (passes map config cancelled f _ _ _) as [c|] eqn:Hp; [|done]. by rewrite (passes_mono f f' _ _ _ _ Hf Hp).
Qed.

(** The result of any fuel that was enough. *)
Lemma scan_result fuel rs limit : scan_ok map config → scanWithMap map config cancelled fuel = Some (rs, limit) →
  rs `prefix_of` reference map config ∧
  ((∀ k, cancelled k = false) → limitHit limit LimitResults = false → limitHit limit LimitWork = false → rs = reference map config).
Proof.
  intros Hok Hs. destruct (scan_run map config cancelled Hok) as (f0 & rs' & limit' & H1 & H2 & H3).
  apply (scan_mono _ (fuel `max` f0)%nat) in Hs; [|lia]. rewrite H1 in Hs by lia. injection Hs as -> ->.
  split; [done|]. intros Hn. apply (H3 Hn).
Qed.
End Fuel.

(** C2: Exactness of the scan.  Whatever it returns, each path is a walk from its base slot
    through recorded pointers to the target, of at most [maxDepth] links, each offset in the
    allowed window, no address visited twice; and a scan that was neither cancelled nor
    limited returns every such path that the shard and the static filter admit. *)
Theorem scan_exact `{!StdSort} map config (cancelled : nat → bool) fuel rs limit :
  scan_ok map config → maxOffset config < 2 ^ 31 → scanWithMap map config cancelled fuel = Some (rs, limit) →
  let found p := ∃ b offs slots, Walk (byTarget map) config b offs (b :: slots) ∧ last slots = Some (targetAddress config) ∧
    NoDup slots ∧ 1 ≤ len offs ≤ maxDepth config ∧ recordPath map config b offs = Some p in
  (∀ p, p ∈ rs → found p) ∧
  ((∀ k, cancelled k = false) → limitHit limit LimitResults = false → limitHit limit LimitWork = false →
    ∀ p, found p → p ∈ rs).
Proof.
  intros Hok Hm Hs found. destruct (scan_result map config cancelled fuel rs limit Hok Hs) as [Hp Hall].
  destruct Hok as (Hsorted & Hes & Hbad & Ht).
  assert (0 ≤ maxOffset config) by (unfold badConfig in Hbad; destruct (Z.ltb_spec (maxOffset config) 0); [by rewrite orb_true_r in Hbad|done]).
  assert (∀ p, p ∈ reference map config ↔ found p) as Hiff by (intros p; apply elem_of_reference; done || lia).
  split.
  - intros p Hin. apply Hiff. destruct Hp as [k ->]. apply elem_of_app. by left.
  - intros Hn H1 H2 p Hf. rewrite (Hall Hn H1 H2). by apply Hiff.
Qed.
Lemma scan_exact_witness : samplePath 904 [30; 0; 40] ∈ sampleFound ∧
  ∃ b offs slots, Walk (byTarget samplePointerMap) sampleConfig b offs (b :: slots) ∧
    recordPath samplePointerMap sampleConfig b offs = Some (samplePath 904 [30; 0; 40]).
Proof.
  destruct (scan_exact samplePointerMap sampleConfig (λ _, false) 100 sampleFound 0 samplePointerMap_ok) as [H _];
    [reflexivity|vm_compute; reflexivity|].
  assert (samplePath 904 [30; 0; 40] ∈ sampleFound) as Hin by decide_by_compute. split; [exact Hin|].
  destruct (H _ Hin) as (b & offs & slots & Hw & _ & _ & _ & Hr). exists b, offs, slots. split; [exact Hw|exact Hr].
Defined.

(** ** Static bases *)


Definition base_ok (b : Base) : Prop := is_u64 (baseOf b) ∧ is_u64 (mod_size b.2) ∧ 0 < mod_size b.2.

(** Without overlapping neighbours the modules are disjoint. *)
Lemma overlapping_disjoint bs : Forall base_ok bs → sortedBy baseOf bs → overlapping bs = false →
  StronglySorted (λ a b, baseOf a + mod_size a.2 ≤ baseOf b) bs.
Proof.
  induction bs as [|a bs IH]; intros Hall Hs Ho; [constructor|].
  inversion_clear Hall as [|?? Ha Hall']. inversion_clear Hs as [|?? Hs' Hle].
  destruct bs as [|b bs]; [repeat constructor|].
  cbn [overlapping] in Ho. apply orb_false_iff in Ho as [Hab%Z.ltb_ge Ho]. specialize (IH Hall' Hs' Ho).
  inversion_clear Hle as [|?? Hlab _]. inversion_clear Hall' as [|?? Hb _].
  assert (baseOf a + mod_size a.2 ≤ baseOf b) as Hd.
  { destruct Ha as (? & ? & ?), Hb as (? & ? & ?). rewrite wrap_small in Hab by lia_w. lia. }
  constructor; [done|]. constructor; [done|]. inversion_clear IH as [|?? _ Hbs].
  eapply Forall_impl; [exact Hbs|]. cbn. destruct Hb as (? & ? & ?). intros c Hc. lia.
Qed.

Lemma nameable_ok ms : Forall module_ok ms → Forall base_ok (nameable ms).
Proof.
  unfold nameable. generalize (@nil bytes) 0. induction ms as [|m ms IH]; intros seen i; [constructor|].
  intros Hall. inversion_clear Hall as [|?? (H1 & H2 & _) Hms]. cbn [nameableFrom]. destruct (_ && _) eqn:E; [|by apply IH].
  constructor; [|by apply IH]. apply andb_true_iff in E as [[_ E%Z.ltb_lt]%andb_true_iff _]. done.
Qed.

(** At most one of disjoint modules holds an address. *)
Lemma find_disjoint {A} (p : A → bool) (l k : list A) x : l ≡ₚ k → x ∈ k → p x = true → (∀ y, y ∈ k → p y = true → y = x) →
  List.find p l = Some x.
Proof.
  intros Hp Hx Hpx Huniq. destruct (List.find p l) as [y|] eqn:E.
  - apply List.find_some in E as [Hy%list_elem_of_In Hpy]. f_equal. apply Huniq; [by rewrite <- Hp|done].
  - assert (x ∈ l) as Hxl%list_elem_of_In by by rewrite Hp. apply (List.find_none _ _ E) in Hxl. congruence.
Qed.

Lemma holds_spec addr b : is_u64 addr → base_ok b → holds addr b = true ↔ baseOf b ≤ addr < baseOf b + mod_size b.2.
Proof.
  intros Ha (H1 & H2 & H3). unfold holds. rewrite andb_true_iff, Z.leb_le, Z.ltb_lt. split; intros [? Hlt].
  - rewrite wrap_small in Hlt by lia_w. lia.
  - rewrite wrap_small by lia_w. lia.
Qed.
#[local] Abbreviation before := (λ a b : Base, baseOf a + mod_size a.2 ≤ baseOf b).

Lemma holds_unique addr k x y : is_u64 addr → Forall base_ok k → StronglySorted before k →
  x ∈ k → y ∈ k → holds addr x = true → holds addr y = true → x = y.
Proof.
  intros Ha Hok Hd. induction Hd as [|a k Hd IH Hall]; [by intros ?%elem_of_nil|].
  inversion_clear Hok as [|?? Hoa Hok']. rewrite Forall_forall in Hall.
  assert (∀ z, z ∈ k → holds addr z = true → holds addr a = true → False) as Hno.
  { intros z Hz H1 H2. apply holds_spec in H1, H2; [|done..|rewrite Forall_forall in Hok'; auto].
    specialize (Hall z Hz). cbn in Hall. lia. }
  intros [->|Hx]%elem_of_cons [->|Hy]%elem_of_cons H1 H2; [done|..|by apply IH].
  - by destruct (Hno y).
  - by destruct (Hno x).
Qed.

Lemma binary_find k addr : is_u64 addr → Forall base_ok k → StronglySorted before k →
  match last (take (upper_bound baseOf k addr) k) with
  | Some b => if u64 (addr - baseOf b) <? mod_size b.2 then Some b else None
  | None => None
  end = List.find (holds addr) k.
Proof.
  intros Ha Hok Hd. unfold upper_bound. induction Hd as [|a k Hd IH Hall]; [done|].
  inversion_clear Hok as [|?? Hoa Hok']. specialize (IH Hok'). rewrite Forall_forall in Hall, Hok'. cbn [partitionPoint List.find].
  destruct (Z.ltb_spec addr (baseOf a)) as [Hlt|Hge]; cbn [negb take].
  - assert (holds addr a = false) as -> by (unfold holds; by rewrite (proj2 (Z.leb_gt _ _))).
    symmetry. destruct (List.find _ k) as [b|] eqn:Hf; [|done]. apply List.find_some in Hf as [Hb%list_elem_of_In Hh].
    apply holds_spec in Hh; [|auto..]. specialize (Hall b Hb). destruct Hoa as (_ & _ & ?). lia.
  - rewrite last_cons. destruct (last (take _ k)) as [z|] eqn:Hz.
    + rewrite IH. apply last_Some_elem_of in Hz. pose proof (partitionPoint_before _ _ _ Hz) as Hp.
      apply elem_of_take in Hz as (i & Hz%list_elem_of_lookup_2 & _). specialize (Hall z Hz). apply negb_true_iff, Z.ltb_ge in Hp.
      destruct (holds addr a) eqn:Hh; [|done]. apply holds_spec in Hh; [lia|done..].
    + rewrite <- IH. unfold holds. by rewrite (proj2 (Z.leb_le _ _)).
Qed.

Lemma findModule_find `{!StdSort} ms addr : Forall module_ok ms → is_u64 addr →
  findModule ms addr = List.find (holds addr) (nameable ms).
Proof.
  intros Hms Ha. pose proof (nameable_ok ms Hms) as Hok. unfold findModule.
  set (k := std_sort (byKey baseOf) (nameable ms)). assert (k ≡ₚ nameable ms) as Hp by apply std_sort_perm.
  destruct (overlapping k) eqn:Ho; [done|]. rewrite <- Hp in Hok.
  pose proof (overlapping_disjoint k Hok (std_sort_key _ _) Ho) as Hd. rewrite binary_find by done.
  destruct (List.find (holds addr) k) as [x|] eqn:Hf; symmetry.
  - apply List.find_some in Hf as [Hx%list_elem_of_In Hh]. eapply find_disjoint; [symmetry; exact Hp|done|done|].
    intros y Hy Hhy. by eapply holds_unique.
  - destruct (List.find _ (nameable ms)) as [y|] eqn:Hfy; [|done]. apply List.find_some in Hfy as [Hy%list_elem_of_In Hh].
    rewrite <- Hp in Hy. apply list_elem_of_In, (List.find_none _ _ Hf) in Hy. congruence.
Qed.

(** The binary search over disjoint modules agrees with the walk over the list: for any
    modules, overlapping or not, the static base of an address is the first module, among
    those that own their name, whose range holds it. *)
Theorem findModule_spec `{!StdSort} ms addr : Forall module_ok ms → is_u64 addr →
  findModule ms addr = List.find (holds addr) (nameable ms).
Proof. apply findModule_find. Qed.
Definition overlappingModules : list ModuleInfo :=
  [mkModuleInfo 8192 65536 (bs "ntdll.dll") [] true nativeTargetMachine; mkModuleInfo 12288 4096 (bs "game.exe") [] true nativeTargetMachine;
   mkModuleInfo 4096 4096 (bs "ntdll.dll") [] false nativeTargetMachine].
Lemma findModule_spec_witness : mod_name ∘ snd <$> findModule overlappingModules 12300 = Some (bs "ntdll.dll").
Proof. rewrite findModule_spec; [reflexivity|decide_by_compute..]. Defined.

(** ** Shards *)

Lemma recordPath_shard `{!StdSort} map config n b offs p : 1 ≤ n → shardCount config = 1 →
  recordPath map config b offs = Some p ↔ ∃ i, 0 ≤ i < n ∧ recordPath map (withShard config i n) b offs = Some p.
Proof.
  intros Hn Hc. unfold recordPath. rewrite Hc. cbn [shardCount shardIndex staticOnly withShard Z.ltb Z.compare Pos.compare andb].
  destruct (findModule _ _) as [[j m]|].
  - split.
    + intros Hp. exists (j mod n). split; [apply Z.mod_pos_bound; lia|]. by rewrite Z.eqb_refl, andb_false_r.
    + intros (i & Hi & Hp). by destruct (_ && _).
  - destruct (staticOnly config); [split; [done|]; by intros (i & _ & Hp)|]. split.
    + intros Hp. exists (Z.shiftr b 12 mod n). split; [apply Z.mod_pos_bound; lia|]. by rewrite Z.eqb_refl, andb_false_r.
    + intros (i & Hi & Hp). by destruct (_ && _).
Qed.

Lemma Walk_withShard es config i n b offs slots :
  Walk es (withShard config i n) b offs slots ↔ Walk es config b offs slots.
Proof. split; induction 1; econstructor; eauto. Qed.

(** A scan that neither a limit nor a cancellation cut short. *)
Definition complete_run `{!StdSort} (map : PointerMap) (config : PointerScanConfig) (rs : list PointerPath) : Prop :=
  ∃ fuel limit, scanWithMap map config (λ _, false) fuel = Some (rs, limit) ∧
    limitHit limit LimitResults = false ∧ limitHit limit LimitWork = false.
Lemma complete_run_reference `{!StdSort} map config rs : scan_ok map config → complete_run map config rs → rs = reference map config.
Proof. intros Hok (fuel & limit & Hs & H1 & H2). by apply (scan_result map config (λ _, false) fuel rs limit Hok Hs). Qed.

Lemma scan_ok_shard map config i n : scan_ok map config → 0 ≤ i < n → scan_ok map (withShard config i n).
Proof.
  intros (H1 & H2 & H3 & H4) Hi. split_and!; [done|done| |done..]. unfold badConfig in *. cbn.
  apply orb_false_iff in H3 as [[_ H3]%orb_false_iff H5]. rewrite <- orb_assoc in *.
  destruct (Z.eqb_spec n 0), (Z.leb_spec n i); [lia..|]. cbn. by rewrite H3, H5.
Qed.

(** C5: Sharding loses nothing: the paths that the shards of a scan find together are the
    paths that the whole scan finds. *)
Theorem shards_complete `{!StdSort} map config n shards rs parts :
  scan_ok map config → maxOffset config < 2 ^ 31 → shardCount config = 1 → 1 ≤ n →
  makePointerScanShards config n = Ret shards →
  complete_run map config rs → Forall2 (complete_run map) shards parts →
  ∀ p, p ∈ rs ↔ p ∈ mjoin parts.
Proof.
  intros Hok Hm Hc Hn. unfold makePointerScanShards. destruct (Z.eqb_spec n 0); [lia|]. intros [= <-] Hrs Hparts p.
  rewrite (complete_run_reference map config rs Hok Hrs).
  assert (0 ≤ maxOffset config) as Hm0.
  { destruct Hok as (_ & _ & Hb & _). unfold badConfig in Hb. destruct (Z.ltb_spec (maxOffset config) 0); [by rewrite orb_true_r in Hb|done]. }
  assert (p ∈ mjoin parts ↔ ∃ i, 0 ≤ i < n ∧ p ∈ reference map (withShard config i n)) as ->.
  { rewrite list_elem_of_join. rewrite Forall2_fmap_l in Hparts. split.
    - intros (part & Hp & [k Hk]%list_elem_of_lookup). destruct (Forall2_lookup_r _ _ _ _ _ Hparts Hk) as (i & Hi & Hrun).
      apply list_elem_of_lookup_2, elem_of_seqZ in Hi. exists i. split; [lia|].
      rewrite <- (complete_run_reference _ _ _ (scan_ok_shard map config i n Hok ltac:(lia)) Hrun). done.
    - intros (i & Hi & Hp). assert (i ∈ seqZ 0 n) as [k Hk]%list_elem_of_lookup by (apply elem_of_seqZ; lia).
      destruct (Forall2_lookup_l _ _ _ _ _ Hparts Hk) as (part & Hpk & Hrun). exists part. split; [|by eapply list_elem_of_lookup_2].
      rewrite (complete_run_reference _ _ _ (scan_ok_shard map config i n Hok Hi) Hrun). done. }
  destruct Hok as (Hs & Hes & _ & Ht). rewrite (elem_of_reference map config Hes (conj Hm0 Hm) Ht). split.
  - intros (b & offs & slots & Hw & H1 & H2 & H3 & Hp).
    destruct (proj1 (recordPath_shard map config n b offs p Hn Hc) Hp) as (i & Hi & Hp').
    exists i. split; [done|]. apply (elem_of_reference map (withShard config i n) Hes (conj Hm0 Hm) Ht).
    exists b, offs, slots. by rewrite Walk_withShard.
  - intros (i & Hi & Hp). apply (elem_of_reference map (withShard config i n) Hes (conj Hm0 Hm) Ht) in Hp
      as (b & offs & slots & Hw & H1 & H2 & H3 & Hp).
    exists b, offs, slots. rewrite Walk_withShard in Hw. refine (conj Hw (conj H1 (conj H2 (conj H3 _)))). apply (recordPath_shard map config n b offs p Hn Hc). eauto.
Qed.
Definition twoModules : PointerMap :=
  setEntries (setModules emptyMap [sampleModule; mkModuleInfo 16384 4096 (bs "lib.so") [] true nativeTargetMachine])
    [mkEntry 9000 4200; mkEntry 8990 16400; mkEntry 4190 16408].
Lemma twoModules_ok : scan_ok twoModules sampleConfig.
Proof. split_and!; [apply std_sort_key|decide_by_compute..]. Qed.
Definition shardPaths : list (list PointerPath) :=
  [[samplePath 104 [0]]; [mkPath (bs "lib.so") 16384 16 [10]; mkPath (bs "lib.so") 16384 24 [10; 0]]].
Lemma shards_complete_witness :
  mkPath (bs "lib.so") 16384 24 [10; 0] ∈ [mkPath (bs "lib.so") 16384 16 [10]; samplePath 104 [0]; mkPath (bs "lib.so") 16384 24 [10; 0]].
Proof.
  refine (proj2 (shards_complete twoModules sampleConfig 2 [withShard sampleConfig 0 2; withShard sampleConfig 1 2] _ shardPaths
    twoModules_ok _ _ _ _ _ _ _) _); [reflexivity|reflexivity|discriminate|reflexivity| | |].
  - exists 100%nat, 0. split; [vm_compute; reflexivity|done].
  - constructor; [|constructor; [|constructor]]; exists 100%nat, 0; (split; [vm_compute; reflexivity|done]).
  - decide_by_compute.
Defined.

(** ** Found paths resolve *)

Lemma nameable_first ms i m : Forall (λ m, 0 < mod_size m) ms → (i, m) ∈ nameable ms →
  mod_name m ≠ [] ∧ List.find (λ x, bytes_eqb (mod_name x) (mod_name m)) ms = Some m.
Proof.
  intros Hsz. enough (∀ seen j, (i, m) ∈ nameableFrom seen j ms → mod_name m ≠ [] ∧ mod_name m ∉ seen ∧
    List.find (λ x, bytes_eqb (mod_name x) (mod_name m)) ms = Some m) as H by (intros Hin; by destruct (H _ _ Hin) as (? & _ & ?)).
  induction Hsz as [|x ms Hx _ IH]; intros seen j; cbn [nameableFrom List.find]; [by intros ?%elem_of_nil|].
  destruct (_ && _) eqn:E.
  - apply andb_true_iff in E as [[En%bool_decide_eq_true_1 _]%andb_true_iff Es%bool_decide_eq_true_1].
    intros [[= -> ->]|Hin]%elem_of_cons.
    + unfold bytes_eqb. by rewrite bool_decide_eq_true_2.
    + destruct (IH _ _ Hin) as (H1 & H2 & H3). apply not_elem_of_cons in H2 as [H2 H4].
      unfold bytes_eqb at 1. by rewrite bool_decide_eq_false_2 by congruence.
  - intros Hin. destruct (IH _ _ Hin) as (H1 & H2 & H3). split_and!; [done|done|].
    unfold bytes_eqb at 1. rewrite bool_decide_eq_false_2; [done|]. intros Heq. rewrite Heq in E.
    rewrite bool_decide_eq_true_2, (proj2 (Z.ltb_lt 0 _)), bool_decide_eq_true_2 in E; done.
Qed.

Lemma resolve_walk map config b offs slots t :
  (∀ e, e ∈ byTarget map → valueAt map (locatedAt e) = Some (pointsTo e)) →
  Forall (λ e, entry_ok e ∧ pointsTo e ≠ 0) (byTarget map) → is_u64 t →
  Walk (byTarget map) config b offs slots → last slots = Some t → is_u64 b → resolveOffsets map b offs = t.
Proof.
  intros Hval Hes Ht Hw. rewrite Forall_forall in Hes. induction Hw as [a|b v off offs slots Hin Hal Hw IH].
  - by intros [= ->].
  - intros Hl _. cbn [resolveOffsets]. pose proof (Hval _ Hin) as Hv. destruct (Hes _ Hin) as [_ Hnz]. cbn in Hv, Hnz.
    rewrite Hv, (proj2 (Z.eqb_neq _ _)) by done.
    assert (last slots = Some t) as Hl'.
    { rewrite last_cons in Hl. destruct (last slots) eqn:E; [done|]. apply last_None in E as ->. inversion Hw. }
    assert (is_u64 (v + off)) as Hu.
    { inversion Hw as [a|b' v' off' offs' slots' Hin' _ _]; subst; [by injection Hl' as ->|]. by destruct (Hes _ Hin') as [[_ ?] _]. }
    rewrite wrap_small by done. auto.
Qed.

(** How a module-relative base leads back to the address it was recorded for. *)
Definition based_at (ms : list ModuleInfo) (p : PointerPath) (b : Z) : Prop :=
  (path_module p = [] ∧ path_baseOffset p = b) ∨
  (path_module p ≠ [] ∧ ∃ m, List.find (λ x, bytes_eqb (mod_name x) (path_module p)) ms = Some m ∧
     mod_base m ≠ 0 ∧ is_u64 (mod_base m) ∧ 0 ≤ path_baseOffset p ∧ mod_base m + path_baseOffset p = b).

Lemma recordPath_based `{!StdSort} map config b offs p :
  Forall (λ m, module_ok m ∧ 0 < mod_size m ∧ mod_base m ≠ 0) (map_modules map) → is_u64 b →
  recordPath map config b offs = Some p → path_offsets p = offs ∧ based_at (map_modules map) p b.
Proof.
  set (ms := map_modules map). intros Hms Hb Hr.
  assert (Forall module_ok ms) as Hmok by (eapply Forall_impl; [exact Hms|]; naive_solver).
  unfold recordPath in Hr. fold ms in Hr. rewrite findModule_find in Hr by done.
  destruct (List.find _ _) as [[i m]|] eqn:Hf.
  - destruct (_ && _); [done|]. injection Hr as <-. split; [done|]. right. cbn [path_module path_baseOffset].
    apply List.find_some in Hf as [Hnm%list_elem_of_In Hh].
    pose proof (nameable_ok ms Hmok) as Hbok. rewrite Forall_forall in Hbok. apply (holds_spec b _ Hb (Hbok _ Hnm)) in Hh. cbn in Hh.
    destruct (nameable_first ms i m) as [Hne Hfirst]; [eapply Forall_impl; [exact Hms|]; naive_solver|done|].
    split; [done|]. exists m. split; [done|]. apply List.find_some in Hfirst as [Hmin%list_elem_of_In _].
    rewrite Forall_forall in Hms. destruct (Hms m Hmin) as ((Hmb & _) & _ & Hnz). unfold baseOf in Hh. cbn in Hh.
    rewrite (wrap_small 64) by lia_w. split_and!; [done|done|lia..].
  - destruct (staticOnly config); [done|]. destruct (_ && _); [done|]. injection Hr as <-. split; [done|]. by left.
Qed.

(** A path that a scan returned, as a walk of the map. *)
Lemma found_walk `{!StdSort} map config (cancelled : nat → bool) fuel rs limit p :
  Forall (λ m, module_ok m ∧ 0 < mod_size m ∧ mod_base m ≠ 0) (map_modules map) → scan_ok map config → maxOffset config < 2 ^ 31 →
  scanWithMap map config cancelled fuel = Some (rs, limit) → p ∈ rs →
  ∃ b slots, Walk (byTarget map) config b (path_offsets p) slots ∧ last slots = Some (targetAddress config) ∧
    is_u64 b ∧ based_at (map_modules map) p b.
Proof.
  intros Hms Hok Hm Hs Hp. destruct (scan_result map config cancelled fuel rs limit Hok Hs) as [[k Hk] _].
  assert (p ∈ reference map config) as Hpr by (rewrite Hk; apply elem_of_app; by left).
  destruct Hok as (_ & Hent & Hbad & Ht).
  assert (0 ≤ maxOffset config) as Hm0 by (unfold badConfig in Hbad; destruct (Z.ltb_spec (maxOffset config) 0); [by rewrite orb_true_r in Hbad|done]).
  apply (elem_of_reference map config Hent (conj Hm0 Hm) Ht) in Hpr as (b & offs & slots & Hw & Hl & _ & Hlo & Hr).
  assert (is_u64 b) as Hb.
  { inversion Hw as [|? v ? ? ? Hv]; subst; [done|]. rewrite Forall_forall in Hent. by destruct (Hent _ Hv). }
  apply recordPath_based in Hr as [<- Hbased]; [|done..]. exists b, (b :: slots). split_and!; [done| |done..].
  by rewrite last_cons, Hl.
Qed.

Lemma resolve_based map p b : is_u64 b → based_at (map_modules map) p b → resolve map p = resolveOffsets map b (path_offsets p).
Proof.
  intros Hb [[Hn Ho]|(Hn & m & Hf & Hnz & Hm & Ho & Hsum)]; unfold resolve.
  - rewrite bool_decide_eq_true_2 by done. by rewrite Ho.
  - rewrite bool_decide_eq_false_2 by done. unfold moduleBase. rewrite Hf. rewrite (proj2 (Z.eqb_neq _ _)) by done.
    by rewrite Hsum, wrap_small.
Qed.
