(* ===== verification/PointerPaths.v ===== *)
(** * Following and filtering pointer paths

    Models the rest of [src/scanner/pointer_scanner.cpp]: [PointerScanner::dereference] in
    the live process, the four rescans, sorting and merging.  The process is an interface
    ([ProcessHandle] of [src/platform/process_api.hpp]); the cancellation of a rescan is an
    oracle that answers the polls in order, and its progress is not modelled. *)

From stdpp Require Import sorting.
From S2P Require Import Prelude Numeral TargetMachine Types Loops Files StdAlgo PointerMap PointerScan.
#[local] Open Scope Z_scope.

(** The part of [ProcessHandle] these functions use. *)
Record Process := mkProcess {
  proc_read : Z → Z → option bytes;  (* address, size: the bytes read, or an error *)
  proc_readMany : list Z → Z → list (option bytes);  (* the whole values, where [ok] is set *)
  proc_pointerWidth : Z → Z;
  proc_byteOrder : Z → ByteOrder;
  proc_modules : list ModuleInfo
}.
(** [read] that must transfer every byte. *)
Definition readFull (proc : Process) (addr size : Z) : option bytes :=
  match proc_read proc addr size with
  | Some b => if len b =? size then Some b else None
  | None => None
  end.
(** The default [ProcessHandle::readMany]. *)
Definition readManyDefault (read : Z → Z → option bytes) (addrs : list Z) (size : Z) : list (option bytes) :=
  (λ a, match read a size with Some b => if len b =? size then Some b else None | None => None end) <$> addrs.

(** ** [dereference] *)

(** The pointer stored at an address: [None] where the code returns 0. *)
Definition pointerAt (proc : Process) (addr : Z) : option Z :=
  let ptrSize := proc_pointerWidth proc addr in
  if negb ((ptrSize =? 4) || (ptrSize =? 8)) || (8 <? ptrSize) then None else
  match readFull proc addr ptrSize with
  | None => None
  | Some b => match decodeTargetUnsigned b (proc_byteOrder proc addr) with
              | Ret v => if (v =? 0) || (UINTPTR_MAX <? v) then None else Some v
              | _ => None
              end
  end.
Fixpoint dereferenceOffsets (proc : Process) (addr : Z) (offs : list Z) : Z :=
  match offs with
  | [] => addr
  | off :: offs =>
      match pointerAt proc addr with
      | None => 0
      | Some ptr =>
          let distance := Z.abs off in
          if ((off <? 0) && (ptr <? distance)) || ((0 <=? off) && (UINTPTR_MAX - ptr <? distance)) then 0
          else dereferenceOffsets proc (if off <? 0 then ptr - distance else ptr + distance) offs
      end
  end.
Definition dereference (proc : Process) (modules : list ModuleInfo) (p : PointerPath) : Z :=
  let base := match List.find (λ m, bytes_eqb (mod_name m) (path_module p)) modules with
              | Some m => mod_base m | None => 0 end in
  if bool_decide (path_module p = []) then dereferenceOffsets proc (path_baseOffset p) (path_offsets p)
  else if base =? 0 then 0
  else if UINTPTR_MAX - base <? path_baseOffset p then 0
  else dereferenceOffsets proc (base + path_baseOffset p) (path_offsets p).

(** ** Rescans *)

Section Rescan.
Context (proc : Process) (cancelled : nat → bool).

(** The loop from index [i], with the polls made so far. *)
Fixpoint rescanLoop (ps : list PointerPath) (i : Z) (polls : nat) (kept : list PointerPath) (newTarget : Z)
  : option (list PointerPath * nat) :=
  match ps with
  | [] => Some (kept, polls)
  | p :: ps =>
      let poll := Z.land i 255 =? 0 in
      if poll && cancelled polls then None else
      let polls := if poll then S polls else polls in
      rescanLoop ps (i + 1) polls
        (if dereference proc (proc_modules proc) p =? newTarget then kept ++ [p] else kept) newTarget
  end.
Definition rescanPointerPaths (ps : list PointerPath) (newTarget : Z) : list PointerPath :=
  match rescanLoop ps 0 O [] newTarget with
  | Some (kept, polls) => if cancelled polls then [] else kept
  | None => []
  end.

Definition valueMask (size : Z) : Z := if size =? 8 then UINT64_MAX else Z.shiftl 1 (size * 8) - 1.
(** Whether the bytes at an address spell the value. *)
Definition matchesValue (addr : Z) (got : option bytes) (expected size : Z) : bool :=
  match got with
  | None => false
  | Some b => match decodeTargetUnsigned b (proc_byteOrder proc addr) with
              | Ret v => Z.land v (valueMask size) =? Z.land expected (valueMask size)
              | _ => false
              end
  end.
Definition rescanPointerPathsByValue (ps : list PointerPath) (expected size : Z) : list PointerPath :=
  if (size =? 0) || (8 <? size) then [] else
  List.filter (λ p,
    let addr := dereference proc (proc_modules proc) p in
    if addr =? 0 then false else matchesValue addr (readFull proc addr size) expected size) ps.
End Rescan.

Definition rescanPointerPathsWithMap (map : PointerMap) (ps : list PointerPath) (newTarget : Z) : list PointerPath :=
  List.filter (λ p, resolve map p =? newTarget) ps.
Definition rescanPointerPathsByValueWithMap (proc : Process) (map : PointerMap) (ps : list PointerPath) (expected size : Z)
  : list PointerPath :=
  if (size =? 0) || (8 <? size) then [] else
  let live := List.filter (λ ap, negb (ap.1 =? 0)) ((λ p, (resolve map p, p)) <$> ps) in
  match live with
  | [] => []
  | _ => omap (λ apr, if matchesValue proc apr.1.1 apr.2 expected size then Some apr.1.2 else None)
           (zip live (proc_readMany proc (live.*1) size))
  end.

(** ** Sorting and merging *)

Inductive PointerSortKey : Set := SortDepth | SortBaseOffset | SortOffsetSum | SortModule.
Definition offsetSum (p : PointerPath) : Z := foldr (λ o acc, Z.abs o + acc) 0 (path_offsets p).
(** [std::string]'s [operator<]: bytes compared as unsigned. *)
Fixpoint bytesLt (a b : bytes) : bool :=
  match a, b with
  | _, [] => false
  | [], _ :: _ => true
  | x :: a, y :: b => (x <? y) || ((x =? y) && bytesLt a b)
  end.
Definition moduleLt (a b : PointerPath) : bool :=
  if bool_decide (path_module a ≠ path_module b) then bytesLt (path_module a) (path_module b)
  else path_baseOffset a <? path_baseOffset b.
Definition pathLt (key : PointerSortKey) : PointerPath → PointerPath → bool :=
  match key with
  | SortDepth => byKey (λ p, len (path_offsets p))
  | SortBaseOffset => byKey path_baseOffset
  | SortOffsetSum => byKey offsetSum
  | SortModule => moduleLt
  end.
Definition sortPointerPaths `{!StdSort} (ps : list PointerPath) (key : PointerSortKey) : list PointerPath :=
  std_sort (pathLt key) ps.

Definition samePath (x y : PointerPath) : bool :=
  bytes_eqb (path_module x) (path_module y) && (path_baseOffset x =? path_baseOffset y)
  && bool_decide (path_offsets x = path_offsets y).
Definition mergePointerPaths (a b : list PointerPath) (deduplicate : bool) : list PointerPath :=
  if negb deduplicate then a ++ b
  else foldl (λ out p, if existsb (λ existing, samePath existing p) out then out else out ++ [p]) a b.

(** ** Following a walk *)

(** The map describes the process: every recorded pointer is there, and so are the modules. *)
Definition describes (map : PointerMap) (proc : Process) : Prop :=
  proc_modules proc = map_modules map ∧ ∀ e, e ∈ byTarget map → pointerAt proc (locatedAt e) = Some (pointsTo e).

Lemma dereference_walk map proc config b offs slots t : describes map proc → Forall entry_ok (byTarget map) → is_u64 t →
  Walk (byTarget map) config b offs slots → last slots = Some t → dereferenceOffsets proc b offs = t.
Proof.
  intros [_ Hd] Hes Ht Hw. rewrite Forall_forall in Hes. induction Hw as [a|b v off offs slots Hin Hal Hw IH].
  - by intros [= ->].
  - intros Hl. cbn [dereferenceOffsets]. pose proof (Hd _ Hin) as Hv. destruct (Hes _ Hin) as [Hvu _]. cbn in Hv, Hvu. rewrite Hv.
    assert (last slots = Some t) as Hl'.
    { rewrite last_cons in Hl. destruct (last slots) eqn:E; [done|]. apply last_None in E as ->. inversion Hw. }
    assert (is_u64 (v + off)) as Hu.
    { inversion Hw as [a|b' v' off' offs' slots' Hin' _ _]; subst; [by injection Hl' as ->|]. by destruct (Hes _ Hin') as [_ ?]. }
    cbv zeta. destruct (Z.ltb_spec off 0) as [Hneg|Hpos].
    + rewrite (proj2 (Z.ltb_ge v _)), (proj2 (Z.leb_gt 0 off)) by lia_w. cbn [andb orb].
      replace (v - Z.abs off) with (v + off) by lia. auto.
    + rewrite (proj2 (Z.ltb_ge (UINTPTR_MAX - v) (Z.abs off))), andb_false_r by lia_w. cbn [andb orb].
      replace (v + Z.abs off) with (v + off) by lia. auto.
Qed.

Lemma dereference_based proc ms p b : is_u64 b → based_at ms p b → dereference proc ms p = dereferenceOffsets proc b (path_offsets p).
Proof.
  intros Hb [[Hn Ho]|(Hn & m & Hf & Hnz & Hm & Ho & Hsum)]; unfold dereference.
  - rewrite bool_decide_eq_true_2 by done. by rewrite Ho.
  - rewrite bool_decide_eq_false_2 by done. rewrite Hf. cbv zeta. rewrite (proj2 (Z.eqb_neq _ _)) by done.
    rewrite (proj2 (Z.ltb_ge _ _)) by lia_w. by rewrite Hsum.
Qed.

(** C3: Every path a scan returns leads to the target, both in the map it was scanned from
    and, dereferenced, in the process that the map describes: the module name leads back to
    the module of the base slot, every link is there, and no link overflows. *)
Theorem found_paths_lead_to_target `{!StdSort} es ms proc config (cancelled : nat → bool) fuel rs limit p :
  let map := setEntries (setModules emptyMap ms) es in
  NoDup (locatedAt <$> es) → len es ≤ 2 ^ 32 → Forall (λ e, entry_ok e ∧ pointsTo e ≠ 0) es →
  Forall (λ m, module_ok m ∧ 0 < mod_size m ∧ mod_base m ≠ 0) ms → scan_ok map config → maxOffset config < 2 ^ 31 →
  describes map proc → scanWithMap map config cancelled fuel = Some (rs, limit) → p ∈ rs →
  resolve map p = targetAddress config ∧ dereference proc (proc_modules proc) p = targetAddress config.
Proof.
  intros map Hnd Hlen Hes Hms Hok Hm Hd Hs Hp.
  destruct (found_walk map config cancelled fuel rs limit p Hms Hok Hm Hs Hp) as (b & slots & Hw & Hl & Hb & Hbased).
  destruct Hok as (_ & Hent & _ & Ht). split.
  - rewrite (resolve_based map p b Hb Hbased).
    apply (resolve_walk map config b _ slots); [|by cbn; rewrite std_sort_perm|done..].
    intros e He. apply valueAt_entry; [done|done|]. cbn in He. rewrite std_sort_perm in He. by destruct e.
  - destruct Hd as [Hmod Hd]. rewrite Hmod, (dereference_based proc _ p b Hb Hbased).
    by apply (dereference_walk map proc config b _ slots).
Qed.
(** A process that holds the sample pointers in little-endian order. *)
Definition sampleRead (addr size : Z) : option bytes :=
  match List.find (λ e, locatedAt e =? addr) sampleGraph with
  | Some e => Some (take (Z.to_nat size) (le_bytes 8 (pointsTo e)))
  | None => None
  end.
Definition sampleProcess : Process :=
  mkProcess sampleRead (readManyDefault sampleRead) (λ _, 8) (λ _, Little) [sampleModule].
Lemma sampleProcess_described : describes samplePointerMap sampleProcess.
Proof.
  split; [done|]. apply Forall_forall. assert (byTarget samplePointerMap ≡ₚ sampleGraph) as -> by apply std_sort_perm.
  repeat (apply Forall_cons_2; [vm_compute; reflexivity|]). apply Forall_nil_2.
Qed.
Lemma found_paths_lead_to_target_witness : dereference sampleProcess [sampleModule] (samplePath 904 [30; 0; 40]) = 9000.
Proof.
  apply (found_paths_lead_to_target sampleGraph [sampleModule] sampleProcess sampleConfig (λ _, false) 100 sampleFound 0);
    [decide_by_compute|discriminate|decide_by_compute|decide_by_compute|exact samplePointerMap_ok|reflexivity
    |exact sampleProcess_described|vm_compute; reflexivity|decide_by_compute].
Defined.
