(* ===== verification/PointerBuild.v ===== *)
(** * Building a pointer map

    Models [buildPointerMap] of [src/scanner/pointer_scanner.cpp]: which spans of memory are
    read, with which pointer width and byte order, the bounded read windows with their
    overlap, the candidates of the CPU and the GPU path, the entry cap and the
    cancellation, an oracle that answers the polls in order.  The GPU search is a parameter
    ([None] when [CudaSearch::available()] is false); the progress is not modelled. *)

From stdpp Require Import sorting.
From S2P Require Import Prelude Numeral TargetMachine Types Loops Files StdAlgo PointerMap PointerScan PointerPaths.
#[local] Open Scope Z_scope.

(** The part of [ProcessHandle] the function uses. *)
Record Target := mkTarget {
  t_process : Process;
  t_regions : list MemoryRegion;
  t_programWidth : Z; t_programOrder : ByteOrder;
  t_mixedCode : bool; t_wine : bool;
  t_residentRanges : Z → Z → list (Z * Z)
}.
Record ReadSpan := mkReadSpan { rs_base : Z; rs_size : Z; rs_ptrSize : Z; rs_order : ByteOrder }.
Record Build := mkBuild { b_entries : list Entry; b_full : bool; b_polls : nat }.

Definition kPagemapMinRegion : Z := 256 * 1024.
Definition kPtrReadWindow : Z := 64 * 1024 * 1024.
Definition kCancelMask : Z := Z.shiftl 1 20 - 1.
Definition widthOk (w : Z) : bool := ((w =? 4) || (w =? 8)) && negb (8 <? w).
Definition orderKnown (o : ByteOrder) : bool := negb (bool_decide (o = OrderUnknown)).

Section Build.
Context `{!StdSort} (t : Target) (config : PointerScanConfig) (cancelled : nat → bool) (gpu : option (bytes → list Z)).

Definition machinePerRegion : bool := t_mixedCode t || t_wine t.
Definition readable : list Span := readableSpans (t_regions t).
Definition skipNonResident : bool := alignedOnly config && negb (contains readable 0).
Definition stepOf (ptrSize : Z) : Z := if alignedOnly config then ptrSize else 1.
(** The pointer width and the byte order at a region. *)
Definition regionWidth (r : MemoryRegion) : Z :=
  if machinePerRegion then proc_pointerWidth (t_process t) (region_base r) else t_programWidth t.
Definition regionOrder (r : MemoryRegion) : ByteOrder :=
  if machinePerRegion then proc_byteOrder (t_process t) (region_base r) else t_programOrder t.

(** The part of a resident range inside a region, on the region's grid. *)
Definition residentSpan (r : MemoryRegion) (range : Z * Z) : option ReadSpan :=
  let ptrStep := stepOf (regionWidth r) in
  let begin := Z.max range.1 (region_base r) in
  let end_ := Z.min range.2 (region_base r + region_size r) in
  let begin := u64 (begin + (ptrStep - (begin - region_base r) mod ptrStep) mod ptrStep) in
  if end_ <=? begin then None
  else Some (mkReadSpan begin (end_ - begin) (regionWidth r) (regionOrder r)).
Definition spansOf (r : MemoryRegion) : list ReadSpan :=
  if negb (protHas (region_protection r) ProtRead) || (region_size r =? 0) then []
  else if negb (widthOk (regionWidth r)) || negb (orderKnown (regionOrder r)) then []
  else if skipNonResident && (match region_type r with MemPrivate => true | _ => false end)
          && (kPagemapMinRegion <=? region_size r) && (region_size r <=? UINTPTR_MAX - region_base r)
  then omap (residentSpan r) (t_residentRanges t (region_base r) (region_size r))
  else [mkReadSpan (region_base r) (region_size r) (regionWidth r) (regionOrder r)].
Definition spans : list ReadSpan := mjoin (spansOf <$> t_regions t).

Definition maxEntries : Z := Z.min (maxMapEntries config) UINT32_MAX.
Definition withPoll (b : Build) : Build := mkBuild (b_entries b) (b_full b) (S (b_polls b)).
Definition withFull (b : Build) : Build := mkBuild (b_entries b) true (b_polls b).
Definition withEntry (b : Build) (v a : Z) : Build :=
  mkBuild (b_entries b ++ [mkEntry v a]) (b_full b) (b_polls b).

(** The slots of one window, at the given offsets. *)
Fixpoint slotLoop (buf : bytes) (winBase ptrSize : Z) (order : ByteOrder) (offs : list Z) (b : Build) : outcome Build :=
  match offs with
  | [] => Ret b
  | off :: offs =>
      let polling := Z.land off kCancelMask =? 0 in
      let stopNow := polling && cancelled (b_polls b) in
      let b := if polling then withPoll b else b in
      if stopNow then Ret b else
      let* s := subspan buf off ptrSize in
      let* val := deref (decodeTargetUnsigned s order) in
      if negb (contains readable val) then slotLoop buf winBase ptrSize order offs b
      else if maxEntries <=? len (b_entries b) then Ret (withFull b)
      else slotLoop buf winBase ptrSize order offs (withEntry b val (u64 (winBase + off)))
  end.
(** The candidates of the GPU. *)
Fixpoint gpuLoop (buf : bytes) (winBase : Z) (offs : list Z) (b : Build) : outcome Build :=
  match offs with
  | [] => Ret b
  | off :: offs =>
      if len buf <? off + 8 then gpuLoop buf winBase offs b else
      let* s := subspan buf off 8 in
      let val := le_val s in
      if negb (contains readable val) then gpuLoop buf winBase offs b
      else if maxEntries <=? len (b_entries b) then Ret (withFull b)
      else gpuLoop buf winBase offs (withEntry b val (u64 (winBase + off)))
  end.

Definition ownedLenOf (ptrStep : Z) : Z := Z.max ptrStep (kPtrReadWindow / ptrStep * ptrStep).
(** One window of a span, once it is not abandoned. *)
Definition readWindow (s : ReadSpan) (windowStart : Z) (b : Build) : outcome Build :=
  let ptrSize := rs_ptrSize s in
  let ptrStep := stepOf ptrSize in
  let ownedLen := ownedLenOf ptrStep in
  let want := Z.min (ownedLen + ptrSize - 1) (rs_size s - windowStart) in
  let winBase := u64 (rs_base s + windowStart) in
  match proc_read (t_process t) winBase want with
  | None => Ret b
  | Some buf =>
      let bytesRead := len buf in
      if bytesRead <? ptrSize then Ret b else
      let useGpuHere := useGpu config && bool_decide (rs_order s = Little) && (gpuMinRegionBytes config <=? bytesRead)
                        && alignedOnly config && (ptrSize =? 8) in
      match gpu with
      | Some search =>
          if useGpuHere then gpuLoop buf winBase (search buf) b
          else slotLoop buf winBase ptrSize (rs_order s) (stride 0 (Z.min ownedLen (bytesRead - ptrSize + 1)) ptrStep) b
      | None => slotLoop buf winBase ptrSize (rs_order s) (stride 0 (Z.min ownedLen (bytesRead - ptrSize + 1)) ptrStep) b
      end
  end.
(** The loops over windows and over spans share their guard. *)
Fixpoint guarded {A} (body : A → Build → outcome Build) (xs : list A) (b : Build) : outcome Build :=
  match xs with
  | [] => Ret b
  | x :: xs =>
      if b_full b then Ret b
      else if cancelled (b_polls b) then Ret (withPoll b)
      else let* b := body x (withPoll b) in guarded body xs b
  end.
Definition readSpan (s : ReadSpan) : Build → outcome Build :=
  guarded (readWindow s) (stride 0 (rs_size s) (ownedLenOf (stepOf (rs_ptrSize s)))).
Definition buildPointerMap : outcome PointerMap :=
  if negb (widthOk (t_programWidth t)) || negb (orderKnown (t_programOrder t))
  then Fail "Pointer scanning requires a known target pointer width and byte order" else
  let* b := guarded readSpan spans (mkBuild [] false 0) in
  if cancelled (b_polls b) then Ret emptyMap
  else Ret (setTruncated (setEntries (setModules emptyMap (proc_modules (t_process t))) (b_entries b)) (b_full b)).
End Build.

(** ** Every run is defined, and an uncancelled, uncapped one keeps every candidate *)

Section Run.
Context `{!StdSort} (t : Target) (config : PointerScanConfig) (cancelled : nat → bool) (gpu : option (bytes → list Z)).
Context (Hread : ∀ a n buf, proc_read (t_process t) a n = Some buf → bytes_ok buf)
  (Hgpu : ∀ search buf off, gpu = Some search → off ∈ search buf → 0 ≤ off).
#[local] Abbreviation readable := (readable t).

Definition wordOf (b : bytes) (order : ByteOrder) : Z := match order with Little => le_val b | _ => be_val b end.
Definition candidate (v a : Z) : option Entry := if contains readable v then Some (mkEntry v a) else None.
Definition slotCandidate (buf : bytes) (winBase ptrSize : Z) (order : ByteOrder) (off : Z) : option Entry :=
  candidate (wordOf (slice buf off ptrSize) order) (u64 (winBase + off)).

(** [b'] continues [b]: the cap, once reached, stays; without cancellation and cap the
    candidates were all added, in order. *)
Definition extends (b b' : Build) (cands : list Entry) : Prop :=
  (b_full b = true → b_full b' = true) ∧
  (gpu = None → (∀ k, cancelled k = false) → b_full b' = false → b_entries b' = b_entries b ++ cands).

Lemma build_trans b b1 b2 c1 c2 : extends b b1 c1 → extends b1 b2 c2 → extends b b2 (c1 ++ c2).
Proof.
  intros [F1 E1] [F2 E2]. split; [auto|]. intros Hg Hn Hf. destruct (b_full b1) eqn:Hf1; [by rewrite F2 in Hf|].
  by rewrite (E2 Hg Hn Hf), (E1 Hg Hn eq_refl), app_assoc.
Qed.

Lemma slotLoop_extends buf winBase ptrSize order offs b : bytes_ok buf → 0 < ptrSize ≤ 8 → order ≠ OrderUnknown →
  Forall (λ off, 0 ≤ off ∧ off + ptrSize ≤ len buf) offs →
  ∃ b', slotLoop t config cancelled buf winBase ptrSize order offs b = Ret b' ∧
    extends b b' (omap (slotCandidate buf winBase ptrSize order) offs).
Proof.
  intros Hb Hp Ho Hoffs. revert b. induction Hoffs as [|off offs [H0 H1] _ IH]; intros b.
  { exists b. split; [done|]. split; [done|]. intros. by rewrite app_nil_r. }
  cbn [slotLoop omap list_omap]. set (b1 := if Z.land off kCancelMask =? 0 then withPoll b else b).
  assert (b_entries b1 = b_entries b ∧ b_full b1 = b_full b) as [He Hfl] by (subst b1; by destruct (_ =? 0)).
  destruct (_ && cancelled _) eqn:Hstop.
  { exists b1. split; [done|]. split; [by rewrite Hfl|]. intros _ Hn. rewrite Hn, andb_false_r in Hstop. done. }
  destruct (subspan_defined buf off ptrSize H0 ltac:(lia) H1) as [-> Hlen]. cbn [obind].
  rewrite decodeTargetUnsigned_ret; [|by apply bytes_ok_slice|lia|done]. cbn [deref obind].
  unfold slotCandidate at 1, candidate. fold (wordOf (slice buf off ptrSize) order).
  destruct (contains readable (wordOf _ _)); cbn [negb].
  - destruct (maxEntries config <=? _); [exists (withFull b1); split; [done|]; split; [done|]; done|].
    destruct (IH (withEntry b1 (wordOf (slice buf off ptrSize) order) (u64 (winBase + off)))) as (b' & -> & F & E).
    exists b'. split; [done|]. split; [intros Hf; apply F; cbn; congruence|]. intros Hg Hn Hf. rewrite (E Hg Hn Hf). cbn. by rewrite He, <- app_assoc.
  - destruct (IH b1) as (b' & -> & F & E). exists b'. split; [done|]. split; [intros Hf; apply F; congruence|].
    intros Hg Hn Hf. by rewrite (E Hg Hn Hf), He.
Qed.

Lemma gpuLoop_defined buf winBase offs b : bytes_ok buf → Forall (λ off, 0 ≤ off) offs →
  ∃ b', gpuLoop t config buf winBase offs b = Ret b' ∧ (b_full b = true → b_full b' = true).
Proof.
  intros Hb Hoffs. revert b. induction Hoffs as [|off offs H0 _ IH]; intros b; [by exists b|]. cbn [gpuLoop].
  destruct (Z.ltb_spec (len buf) (off + 8)); [apply IH|].
  destruct (subspan_defined buf off 8 H0 ltac:(lia) ltac:(lia)) as [-> _]. cbn [obind].
  destruct (negb _); [apply IH|]. destruct (_ <=? _); [by exists (withFull b)|]. exact (IH (withEntry b _ _)).
Qed.

(** A span that [spans] can hold. *)
Definition span_ok (s : ReadSpan) : Prop := widthOk (rs_ptrSize s) = true ∧ orderKnown (rs_order s) = true.
Lemma widthOk_spec w : widthOk w = true ↔ w = 4 ∨ w = 8.
Proof. unfold widthOk. rewrite andb_true_iff, orb_true_iff, !Z.eqb_eq, negb_true_iff, Z.ltb_ge. lia. Qed.
Lemma orderKnown_spec o : orderKnown o = true ↔ o ≠ OrderUnknown.
Proof. unfold orderKnown. rewrite negb_true_iff, bool_decide_eq_false. done. Qed.

Definition windowLimit (s : ReadSpan) (buf : bytes) : Z := Z.min (ownedLenOf (stepOf config (rs_ptrSize s))) (len buf - rs_ptrSize s + 1).
Definition windowCandidates (s : ReadSpan) (windowStart : Z) : list Entry :=
  let want := Z.min (ownedLenOf (stepOf config (rs_ptrSize s)) + rs_ptrSize s - 1) (rs_size s - windowStart) in
  let winBase := u64 (rs_base s + windowStart) in
  match proc_read (t_process t) winBase want with
  | None => []
  | Some buf => omap (slotCandidate buf winBase (rs_ptrSize s) (rs_order s)) (stride 0 (windowLimit s buf) (stepOf config (rs_ptrSize s)))
  end.

Lemma readWindow_extends s ws b : span_ok s →
  ∃ b', readWindow t config cancelled gpu s ws b = Ret b' ∧ extends b b' (windowCandidates s ws).
Proof using Hread Hgpu.
  intros [Hw%widthOk_spec Ho%orderKnown_spec]. unfold readWindow, windowCandidates. cbv zeta.
  destruct (proc_read _ _ _) as [buf|] eqn:Hr; [|exists b; split; [done|]; split; [done|]; intros; by rewrite app_nil_r].
  apply Hread in Hr. fold (windowLimit s buf). destruct (Z.ltb_spec (len buf) (rs_ptrSize s)).
  { exists b. split; [done|]. split; [done|]. intros. rewrite stride_nil by (unfold windowLimit; lia). by rewrite app_nil_r. }
  assert (∃ b', slotLoop t config cancelled buf (u64 (rs_base s + ws)) (rs_ptrSize s) (rs_order s)
    (stride 0 (windowLimit s buf) (stepOf config (rs_ptrSize s))) b = Ret b' ∧
    extends b b' (omap (slotCandidate buf (u64 (rs_base s + ws)) (rs_ptrSize s) (rs_order s)) (stride 0 (windowLimit s buf) (stepOf config (rs_ptrSize s))))) as Hslots.
  { apply slotLoop_extends; [done|lia|done|]. apply Forall_forall. intros off [Hoff _]%elem_of_stride. unfold windowLimit in Hoff. lia. }
  destruct gpu as [search|] eqn:Hg; [|done]. destruct (_ && _); [|done].
  destruct (gpuLoop_defined buf (u64 (rs_base s + ws)) (search buf) b Hr) as (b' & -> & F);
    [apply Forall_forall; intros off Hoff; by apply (Hgpu search buf)|].
  exists b'. split; [done|]. split; [done|]. intros Hnone. by rewrite Hg in Hnone.
Qed.

Lemma guarded_extends {A} (body : A → Build → outcome Build) (cands : A → list Entry) xs b :
  Forall (λ x, ∀ b, ∃ b', body x b = Ret b' ∧ extends b b' (cands x)) xs →
  ∃ b', guarded cancelled body xs b = Ret b' ∧ extends b b' (mjoin (cands <$> xs)).
Proof.
  intros Hall. revert b. induction Hall as [|x xs Hx _ IH]; intros b.
  { exists b. split; [done|]. split; [done|]. intros. by rewrite app_nil_r. }
  cbn [guarded]. rewrite mjoin_fmap_cons. destruct (b_full b) eqn:Hf.
  { exists b. split; [done|]. split; [done|]. congruence. }
  destruct (cancelled (b_polls b)) eqn:Hc.
  { exists (withPoll b). split; [done|]. split; [done|]. intros _ Hn. by rewrite Hn in Hc. }
  destruct (Hx (withPoll b)) as (b1 & -> & E1). cbn [obind]. destruct (IH b1) as (b2 & -> & E2).
  exists b2. split; [done|]. exact (build_trans (withPoll b) b1 b2 _ _ E1 E2).
Qed.

Definition spanCandidates (s : ReadSpan) : list Entry :=
  mjoin (windowCandidates s <$> stride 0 (rs_size s) (ownedLenOf (stepOf config (rs_ptrSize s)))).

Lemma spans_ok : Forall span_ok (spans t config).
Proof.
  apply Forall_forall. intros s (r & Hr & Hs)%elem_of_mjoin_fmap. unfold spansOf in Hs.
  destruct (_ || _); [by apply elem_of_nil in Hs|]. destruct (_ || _) eqn:E; [by apply elem_of_nil in Hs|].
  apply orb_false_iff in E as [E1%negb_false_iff E2%negb_false_iff].
  destruct (_ && _); [|apply list_elem_of_singleton in Hs as ->; done].
  apply list_elem_of_omap in Hs as (range & _ & Hs). unfold residentSpan in Hs. destruct (_ <=? _); [done|]. by injection Hs as <-.
Qed.

Lemma build_run b : ∃ b', guarded cancelled (readSpan t config cancelled gpu) (spans t config) b = Ret b' ∧
  extends b b' (mjoin (spanCandidates <$> spans t config)).
Proof using Hread Hgpu.
  apply guarded_extends. eapply Forall_impl; [exact spans_ok|]. intros s Hs b0.
  apply (guarded_extends (readWindow t config cancelled gpu s) (windowCandidates s)).
  apply Forall_forall. intros ws _ b1. by apply readWindow_extends.
Qed.
End Run.

(** ** Over a memory that can be read, the map is exactly the pointers it holds *)

Section Exact.
Context `{!StdSort} (t : Target) (config : PointerScanConfig) (mem : Z → Z).
#[local] Abbreviation regions := (t_regions t).
Definition readableRegion (r : MemoryRegion) : Prop := r ∈ regions ∧ protHas (region_protection r) ProtRead = true ∧ region_size r ≠ 0.

(** Memory is bytes, the regions lie in the address space on page boundaries, and reading
    inside a readable region returns its bytes. *)
Context (Hmem : ∀ x, is_byte (mem x))
  (Hregions : Forall (λ r, 0 ≤ region_base r ∧ 0 ≤ region_size r ∧ region_base r + region_size r ≤ 2 ^ 64 ∧ region_base r mod 4096 = 0) regions)
  (Hread : ∀ r a n, readableRegion r → region_base r ≤ a → 0 ≤ n → a + n ≤ region_base r + region_size r →
     proc_read (t_process t) a n = Some (bytesAt mem a n)).

Definition inRegion (s : ReadSpan) (r : MemoryRegion) : Prop :=
  region_base r ≤ rs_base s ∧ 0 ≤ rs_size s ∧ rs_base s + rs_size s ≤ region_base r + region_size r.

Lemma region_bounds r : readableRegion r → 0 ≤ region_base r ∧ 0 < region_size r ∧ region_base r + region_size r ≤ 2 ^ 64 ∧ region_base r mod 4096 = 0.
Proof using Hregions. intros (Hr & _ & Hs). rewrite Forall_forall in Hregions. destruct (Hregions r Hr) as (? & ? & ? & ?). lia. Qed.

Lemma ownedLen_facts step : 1 ≤ step ≤ 8 → step ≤ ownedLenOf step ∧ ownedLenOf step mod step = 0.
Proof.
  intros Hs. unfold ownedLenOf. split; [lia|]. rewrite Z.max_r; [apply Z.mod_mul; lia|].
  unfold kPtrReadWindow. pose proof (Z.div_mod (64 * 1024 * 1024) step). pose proof (Z.mod_pos_bound (64 * 1024 * 1024) step). lia.
Qed.

Lemma stepOf_bounds w : w = 4 ∨ w = 8 → 1 ≤ stepOf config w ≤ 8.
Proof. unfold stepOf. destruct (alignedOnly config); lia. Qed.

Definition candidateAt (a w : Z) (o : ByteOrder) : option Entry := candidate t (wordOf (bytesAt mem a w) o) a.

Lemma elem_of_window s r ws e : readableRegion r → inRegion s r → span_ok s → 0 ≤ ws < rs_size s →
  let owned := ownedLenOf (stepOf config (rs_ptrSize s)) in
  e ∈ windowCandidates t config s ws ↔
  ∃ off, 0 ≤ off < owned ∧ ws + off + rs_ptrSize s ≤ rs_size s ∧ off mod stepOf config (rs_ptrSize s) = 0 ∧
    candidateAt (rs_base s + ws + off) (rs_ptrSize s) (rs_order s) = Some e.
Proof using Hmem Hregions Hread.
  intros Hr (H1 & H2 & H3) [Hw%widthOk_spec _] Hws owned. destruct (region_bounds r Hr) as (Hb & _ & Ht & _).
  pose proof (ownedLen_facts _ (stepOf_bounds _ Hw)) as [Hown _]. fold owned in Hown. pose proof (stepOf_bounds _ Hw).
  unfold windowCandidates. cbv zeta. fold owned. rewrite (wrap_small 64 (rs_base s + ws)) by lia_w.
  set (want := Z.min _ _).
  assert (0 ≤ want ≤ rs_size s - ws ∧ (want = owned + rs_ptrSize s - 1 ∨ want = rs_size s - ws)) as Hwant by (unfold want; lia).
  clearbody want. rewrite (Hread r) by (done || lia). unfold windowLimit. fold owned.
  rewrite len_bytesAt by lia. rewrite list_elem_of_omap. setoid_rewrite elem_of_stride. setoid_rewrite Z.sub_0_r.
  assert (∀ off, 0 ≤ off → off + rs_ptrSize s ≤ want →
    slotCandidate t (bytesAt mem (rs_base s + ws) want) (rs_base s + ws) (rs_ptrSize s) (rs_order s) off
    = candidateAt (rs_base s + ws + off) (rs_ptrSize s) (rs_order s)) as Hcand.
  { intros off Ho Hle. unfold slotCandidate, candidateAt. rewrite slice_bytesAt by lia. by rewrite wrap_small by lia_w. }
  split.
  - intros (off & [Hoff Hmod] & Hc). rewrite Hcand in Hc by lia. exists off. split_and!; [lia..|done|done].
  - intros (off & Hoff & Hle & Hmod & Hc). exists off. rewrite Hcand by lia. split; [|done]. split; [lia|done].
Qed.

Lemma elem_of_span s r e : readableRegion r → inRegion s r → span_ok s →
  e ∈ spanCandidates t config s ↔
  ∃ off, 0 ≤ off ∧ off + rs_ptrSize s ≤ rs_size s ∧ off mod stepOf config (rs_ptrSize s) = 0 ∧
    candidateAt (rs_base s + off) (rs_ptrSize s) (rs_order s) = Some e.
Proof using Hmem Hregions Hread.
  intros Hr Hin Hs. pose proof Hs as [Hw%widthOk_spec _]. pose proof (stepOf_bounds _ Hw) as Hst.
  pose proof (ownedLen_facts _ Hst) as [Hown Hmodo]. unfold spanCandidates. rewrite elem_of_mjoin_fmap.
  setoid_rewrite elem_of_stride. setoid_rewrite Z.sub_0_r. set (owned := ownedLenOf _) in *. set (step := stepOf _ _) in *. split.
  - intros (ws & [Hws Hm] & He). apply (elem_of_window s r ws e Hr Hin Hs Hws) in He as (off & Ho & Hle & Hmod & Hc).
    exists (ws + off). split_and!; [lia|lia| |by rewrite Z.add_assoc].
    apply Z.mod_divide in Hm, Hmodo, Hmod; [|lia..]. apply Z.mod_divide; [lia|]. apply Z.divide_add_r; [|done]. by transitivity owned.
  - intros (off & Ho & Hle & Hmod & Hc). pose proof (Z.div_mod off owned ltac:(lia)) as Hd. pose proof (Z.mod_pos_bound off owned ltac:(lia)) as Hb.
    assert (0 ≤ off / owned) by (apply Z.div_pos; lia).
    exists (owned * (off / owned)). split; [split; [nia|]|].
    { rewrite Z.mul_comm. apply Z.mod_mul. lia. }
    apply (elem_of_window s r _ e Hr Hin Hs); [nia|]. exists (off mod owned).
    assert (owned * (off / owned) + off mod owned + rs_ptrSize s ≤ rs_size s) as Hfit by (rewrite <- Hd; lia).
    split_and!; [exact (proj1 Hb)|exact (proj2 Hb)|exact Hfit| |].
    + apply Z.mod_divide; [lia|]. rewrite Z.mod_eq by lia. apply Z.divide_sub_r; [by apply Z.mod_divide; [lia|]|].
      apply Z.divide_mul_l. by apply Z.mod_divide; [lia|].
    + by rewrite <- Z.add_assoc, <- Hd.
Qed.
(** The pages a private region keeps data in: ranges start on a page, and a byte outside
    them belongs to a page of zeros. *)
Context (Hresident : ∀ r range, r ∈ regions → range ∈ t_residentRanges t (region_base r) (region_size r) →
     0 ≤ range.1 < 2 ^ 64 ∧ range.1 mod 4096 = 0)
  (Hzero : ∀ r a, r ∈ regions → region_type r = MemPrivate → region_base r ≤ a < region_base r + region_size r →
     (∃ range, range ∈ t_residentRanges t (region_base r) (region_size r) ∧ range.1 ≤ a / 4096 * 4096 ∧ a / 4096 * 4096 + 4096 ≤ range.2)
     ∨ ∀ x, x / 4096 = a / 4096 → mem x = 0).

(** The pointer-sized slots of a region, on its grid. *)
Definition slotOf (r : MemoryRegion) (a : Z) : Prop :=
  region_base r ≤ a ∧ a + regionWidth t r ≤ region_base r + region_size r ∧
  (a - region_base r) mod stepOf config (regionWidth t r) = 0.
Definition scannable (r : MemoryRegion) : Prop :=
  readableRegion r ∧ widthOk (regionWidth t r) = true ∧ orderKnown (regionOrder t r) = true.

(** A page boundary of an aligned region is on its grid. *)
Lemma page_on_grid r a : scannable r → alignedOnly config = true → a mod 4096 = 0 →
  (a - region_base r) mod stepOf config (regionWidth t r) = 0.
Proof using Hregions.
  intros (Hr & Hw%widthOk_spec & _) Hal Ha. destruct (region_bounds r Hr) as (_ & _ & _ & Hb). unfold stepOf. rewrite Hal.
  apply Z.mod_divide in Ha, Hb; [|lia..]. apply Z.mod_divide; [lia|].
  apply Z.divide_sub_r; (etransitivity; [|eassumption]); destruct Hw as [->| ->]; [exists 1024|exists 512|exists 1024|exists 512]; done.
Qed.

Lemma max_on_grid r range : scannable r → alignedOnly config = true →
  range ∈ t_residentRanges t (region_base r) (region_size r) →
  (Z.max range.1 (region_base r) - region_base r) mod stepOf config (regionWidth t r) = 0.
Proof using Hregions Hresident.
  intros Hsc Hal Hin. destruct (region_bounds r (proj1 Hsc)) as (_ & _ & _ & Hpage).
  destruct (Hresident r range (proj1 (proj1 Hsc)) Hin) as [_ Hmod].
  destruct (Z.max_spec range.1 (region_base r)) as [[_ ->]|[_ ->]]; by apply page_on_grid.
Qed.

Lemma residentSpan_eq r range : scannable r → alignedOnly config = true →
  range ∈ t_residentRanges t (region_base r) (region_size r) →
  residentSpan t config r range =
    let begin := Z.max range.1 (region_base r) in
    let end_ := Z.min range.2 (region_base r + region_size r) in
    if end_ <=? begin then None else Some (mkReadSpan begin (end_ - begin) (regionWidth t r) (regionOrder t r)).
Proof using Hregions Hresident.
  intros Hsc Hal Hin. pose proof Hsc as ((Hr & _) & Hw%widthOk_spec & _).
  destruct (region_bounds r (proj1 Hsc)) as (Hb & Hsz & Htop & Hpage). destruct (Hresident r range Hr Hin) as [Hrange Hmod].
  unfold residentSpan. rewrite max_on_grid by done. pose proof (stepOf_bounds _ Hw).
  rewrite Z.sub_0_r, Z.mod_same, Z.add_0_r by lia. by rewrite wrap_small by lia_w.
Qed.

Lemma candidate_zero a w o : contains (readable t) 0 = false → 0 < w → (∀ x, a ≤ x < a + w → mem x = 0) → candidateAt a w o = None.
Proof.
  intros Hz Hw Hm. unfold candidateAt, candidate. assert (wordOf (bytesAt mem a w) o = 0) as ->; [|by rewrite Hz].
  assert (bytesAt mem a w = replicate (Z.to_nat w) 0) as ->.
  { apply list_eq. intros i. unfold bytesAt. rewrite list_lookup_fmap. destruct (decide (Z.of_nat i < w)).
    - rewrite lookup_seqZ_lt, lookup_replicate_2 by lia. cbn. f_equal. apply Hm. lia.
    - rewrite lookup_seqZ_ge by lia. symmetry. apply lookup_ge_None. rewrite length_replicate. lia. }
  assert (∀ n, le_val (replicate n 0) = 0) as Hle by (induction n as [|n IH]; [done|cbn; rewrite IH; done]).
  destruct o; unfold wordOf, be_val; rewrite ?reverse_replicate; apply Hle.
Qed.

(** A slot of an aligned region lies in one page. *)
Lemma slot_in_page r a : scannable r → alignedOnly config = true → slotOf r a →
  a / 4096 * 4096 ≤ a ∧ a + regionWidth t r ≤ a / 4096 * 4096 + 4096.
Proof using Hregions.
  intros (Hr & Hw%widthOk_spec & _) Hal (_ & _ & Hg). destruct (region_bounds r Hr) as (_ & _ & _ & Hb).
  unfold stepOf in Hg. rewrite Hal in Hg. pose proof (Z.div_mod a 4096 ltac:(lia)) as Hd. pose proof (Z.mod_pos_bound a 4096 ltac:(lia)).
  apply Z.mod_divide in Hb as [k Hk], Hg as [j Hj]; [|lia..]. destruct Hw as [Hw|Hw]; rewrite Hw in *; lia.
Qed.

Lemma spansOf_cases r : r ∈ regions →
  (spansOf t config r = [] ∧ ¬ scannable r) ∨
  (scannable r ∧ spansOf t config r = [mkReadSpan (region_base r) (region_size r) (regionWidth t r) (regionOrder t r)]) ∨
  (scannable r ∧ alignedOnly config = true ∧ contains (readable t) 0 = false ∧ region_type r = MemPrivate ∧
   region_base r + region_size r ≤ UINTPTR_MAX ∧
   spansOf t config r = omap (residentSpan t config r) (t_residentRanges t (region_base r) (region_size r))).
Proof.
  intros Hr. unfold spansOf, scannable, readableRegion.
  destruct (protHas (region_protection r) ProtRead); cbn [negb orb]; [|left; split; [done|]; by intros ((_ & ? & _) & _)].
  destruct (Z.eqb_spec (region_size r) 0); [left; split; [done|]; by intros ((_ & _ & ?) & _)|].
  destruct (widthOk (regionWidth t r)); cbn [negb orb]; [|left; split; [done|]; by intros (_ & ? & _)].
  destruct (orderKnown (regionOrder t r)); cbn [negb orb]; [|left; split; [done|]; by intros (_ & _ & ?)].
  right. destruct (_ && _) eqn:E; [right|by left].
  apply andb_true_iff in E as [[[Hs Ht]%andb_true_iff _]%andb_true_iff Htop%Z.leb_le].
  unfold skipNonResident in Hs. apply andb_true_iff in Hs as [Hal Hz%negb_true_iff].
  split_and!; try done; [by destruct (region_type r)|lia].
Qed.

(** A slot of a span inside a region, as a slot of the region. *)
Lemma grid_add r s off : scannable r → (rs_base s - region_base r) mod stepOf config (regionWidth t r) = 0 →
  off mod stepOf config (regionWidth t r) = 0 ↔ (rs_base s + off - region_base r) mod stepOf config (regionWidth t r) = 0.
Proof.
  intros (_ & Hw%widthOk_spec & _) Hg. pose proof (stepOf_bounds _ Hw).
  replace (rs_base s + off - region_base r) with (off + (rs_base s - region_base r)) by lia.
  rewrite Z.add_mod, Hg, Z.add_0_r, Z.mod_mod by lia. done.
Qed.

(** The candidates of a span whose base is on the grid of its region. *)
Lemma elem_of_grid_span r s e : scannable r → inRegion s r → rs_ptrSize s = regionWidth t r → rs_order s = regionOrder t r →
  (rs_base s - region_base r) mod stepOf config (regionWidth t r) = 0 →
  e ∈ spanCandidates t config s ↔
  ∃ a, slotOf r a ∧ rs_base s ≤ a ∧ a + regionWidth t r ≤ rs_base s + rs_size s ∧
    candidateAt a (regionWidth t r) (regionOrder t r) = Some e.
Proof using Hmem Hregions Hread.
  intros Hsc Hin Hw Ho Hg. pose proof Hsc as (Hr & Hwk & Hok). pose proof Hin as (Hi1 & Hi2 & Hi3).
  rewrite (elem_of_span s r) by (first [done|split; [by rewrite Hw|by rewrite Ho]]). rewrite Hw, Ho. split.
  - intros (off & H0 & H1 & H2 & Hc). exists (rs_base s + off). rewrite (grid_add r s off Hsc Hg) in H2.
    unfold slotOf. split_and!; [lia..|done|lia|lia|done].
  - intros (a & (H0 & H1 & H2) & H3 & H4 & Hc). exists (a - rs_base s). rewrite (grid_add r s _ Hsc Hg).
    replace (rs_base s + (a - rs_base s)) with a by lia. split_and!; [lia|lia|done|done].
Qed.

Lemma elem_of_resident r e : scannable r → alignedOnly config = true → contains (readable t) 0 = false → region_type r = MemPrivate →
  (∃ s, s ∈ omap (residentSpan t config r) (t_residentRanges t (region_base r) (region_size r)) ∧ e ∈ spanCandidates t config s) ↔
  ∃ a, slotOf r a ∧ candidateAt a (regionWidth t r) (regionOrder t r) = Some e.
Proof using Hmem Hregions Hread Hresident Hzero.
  intros Hsc Hal Hz Hpriv. setoid_rewrite list_elem_of_omap. pose proof Hsc as (Hr & Hwk & Hok).
  assert (0 < regionWidth t r) as Hw0 by (apply widthOk_spec in Hwk; lia). split.
  - intros (s & (range & Hrange & Hs) & He). rewrite (residentSpan_eq r range Hsc Hal Hrange) in Hs. cbv zeta in Hs.
    destruct (Z.leb_spec (Z.min range.2 (region_base r + region_size r)) (Z.max range.1 (region_base r))); [done|].
    apply (inj Some) in Hs as <-. apply elem_of_grid_span with (r := r) in He as (a & Hslot & _ & _ & Hc);
      [by exists a|done|split_and!; cbn; lia|done|done|by apply max_on_grid].
  - intros (a & Hslot & Hc). pose proof Hslot as (H0 & H1 & H2). destruct (slot_in_page r a Hsc Hal Hslot) as [Hp1 Hp2].
    destruct (Hzero r a (proj1 Hr) Hpriv ltac:(lia)) as [(range & Hrange & Hlo & Hhi)|Hpz].
    2:{ rewrite candidate_zero in Hc; [done|done|done|]. intros x Hx. apply Hpz. symmetry. apply (Z.div_unique x 4096 _ (x - a / 4096 * 4096)); lia. }
    pose proof (residentSpan_eq r range Hsc Hal Hrange) as Hs. cbv zeta in Hs.
    destruct (Z.leb_spec (Z.min range.2 (region_base r + region_size r)) (Z.max range.1 (region_base r))); [lia|].
    eexists. split; [exists range; split; [done|exact Hs]|].
    apply (elem_of_grid_span r); [done|split_and!; cbn; lia|done|done|by apply max_on_grid|]. exists a. cbn. split_and!; [done|lia|lia|done].
Qed.

Lemma elem_of_spansOf r e : r ∈ regions →
  e ∈ mjoin (spanCandidates t config <$> spansOf t config r) ↔
  scannable r ∧ ∃ a, slotOf r a ∧ candidateAt a (regionWidth t r) (regionOrder t r) = Some e.
Proof using Hmem Hregions Hread Hresident Hzero.
  intros Hin. rewrite elem_of_mjoin_fmap. destruct (spansOf_cases r Hin) as [[-> Hno]|[[Hsc ->]|(Hsc & Hal & Hz & Hpriv & Htop & ->)]].
  - split; [by intros (x & ?%elem_of_nil & _)|]. by intros [? _].
  - setoid_rewrite list_elem_of_singleton. destruct (region_bounds r (proj1 Hsc)) as (Hb & Hsz & _).
    assert (∀ s, s = mkReadSpan (region_base r) (region_size r) (regionWidth t r) (regionOrder t r) →
      e ∈ spanCandidates t config s ↔ ∃ a, slotOf r a ∧ rs_base s ≤ a ∧ a + regionWidth t r ≤ rs_base s + rs_size s ∧
        candidateAt a (regionWidth t r) (regionOrder t r) = Some e) as Hspan.
    { intros s ->. apply elem_of_grid_span; [done|split_and!; cbn; lia|done|done|]. cbn. by rewrite Z.sub_diag, Z.mod_0_l by
        (pose proof (stepOf_bounds _ (proj1 (widthOk_spec _) (proj1 (proj2 Hsc)))); lia). }
    split.
    + intros (s & Heq & He). split; [done|]. apply (Hspan s Heq) in He as (a & ? & _ & _ & ?). by exists a.
    + intros (_ & a & Hslot & Hc). eexists. split; [done|]. apply Hspan; [done|]. exists a. pose proof Hslot as (? & ? & _).
      split_and!; [done|cbn; lia|cbn; lia|done].
  - rewrite elem_of_resident by done. split; [intros ?; by split|by intros [_ ?]].
Qed.
End Exact.

Lemma candidate_Some `{!StdSort} t v v' a a' : candidate t v' a' = Some (mkEntry v a) ↔ a' = a ∧ contains (readable t) v = true ∧ v' = v.
Proof.
  unfold candidate. split.
  - destruct (contains _ v') eqn:E; [|done]. by intros [= -> ->].
  - intros (-> & Hc & ->). by rewrite Hc.
Qed.

(** What the map relies on: memory is bytes, regions lie in the address space on page
    boundaries, reads return bytes, all of them inside a readable region, resident ranges
    start on a page, and the pages a private region keeps outside them are zero. *)
Record memory_contract (t : Target) (mem : Z → Z) : Prop := {
  mc_bytes : ∀ x, is_byte (mem x);
  mc_regions : Forall (λ r, 0 ≤ region_base r ∧ 0 ≤ region_size r ∧ region_base r + region_size r ≤ 2 ^ 64 ∧ region_base r mod 4096 = 0) (t_regions t);
  mc_reads : ∀ a n buf, proc_read (t_process t) a n = Some buf → bytes_ok buf;
  mc_read : ∀ r a n, readableRegion t r → region_base r ≤ a → 0 ≤ n → a + n ≤ region_base r + region_size r →
     proc_read (t_process t) a n = Some (bytesAt mem a n);
  mc_resident : ∀ r range, r ∈ t_regions t → range ∈ t_residentRanges t (region_base r) (region_size r) →
     0 ≤ range.1 < 2 ^ 64 ∧ range.1 mod 4096 = 0;
  mc_zero : ∀ r a, r ∈ t_regions t → region_type r = MemPrivate → region_base r ≤ a < region_base r + region_size r →
     (∃ range, range ∈ t_residentRanges t (region_base r) (region_size r) ∧ range.1 ≤ a / 4096 * 4096 ∧ a / 4096 * 4096 + 4096 ≤ range.2)
     ∨ ∀ x, x / 4096 = a / 4096 → mem x = 0
}.

(** C4: building a map is exact.  The build always returns, reading no byte outside its
    buffers; without the GPU, a cancellation or the entry cap, its entries are exactly the
    slots of the readable regions, on each region's grid, whose word (in the width and
    byte order of the region) points into readable memory: neither the bounded windows nor
    the skipped non-resident pages lose a pointer. *)
Theorem buildPointerMap_exact `{!StdSort} t config (cancelled : nat → bool) gpu mem :
  memory_contract t mem → (∀ search buf off, gpu = Some search → off ∈ search buf → 0 ≤ off) →
  widthOk (t_programWidth t) = true → orderKnown (t_programOrder t) = true →
  ∃ map, buildPointerMap t config cancelled gpu = Ret map ∧
    (gpu = None → (∀ k, cancelled k = false) → map_truncated map = false →
     ∀ v a, mkEntry v a ∈ byTarget map ↔
       contains (readable t) v = true ∧
       ∃ r, scannable t r ∧ slotOf t config r a ∧ wordOf (bytesAt mem a (regionWidth t r)) (regionOrder t r) = v).
Proof.
  intros [Hb Hr Hbuf Hread Hres Hzero] Hgpu Hw Ho. unfold buildPointerMap. rewrite Hw, Ho. cbn [negb orb].
  destruct (build_run t config cancelled gpu Hbuf Hgpu (mkBuild [] false 0)) as (b & -> & _ & E). cbn [obind].
  destruct (cancelled (b_polls b)) eqn:Hc; [exists emptyMap; split; [done|]; intros _ Hn; by rewrite Hn in Hc|].
  eexists. split; [done|]. intros Hg Hn Ht v a. cbn in Ht. specialize (E Hg Hn Ht). cbn in E. cbn [byTarget setTruncated setEntries].
  rewrite std_sort_perm, E. unfold spans. rewrite elem_of_mjoin_mjoin.
  assert (∀ r, candidateAt t mem a (regionWidth t r) (regionOrder t r) = Some (mkEntry v a) ↔
    contains (readable t) v = true ∧ wordOf (bytesAt mem a (regionWidth t r)) (regionOrder t r) = v) as Hcand.
  { intros r. unfold candidateAt. rewrite candidate_Some. split; [intros (_ & ? & ?)|intros (? & ?)]; done. }
  split.
  - intros (r & Hin & He). apply (elem_of_spansOf t config mem Hb Hr Hread Hres Hzero r _ Hin) in He as (Hsc & a' & Hslot & Hc').
    assert (a' = a) as -> by (by apply candidate_Some in Hc' as (? & _)).
    apply Hcand in Hc' as [? ?]. eauto.
  - intros (Hv & r & Hsc & Hslot & Hword). exists r. split; [apply Hsc|].
    apply (elem_of_spansOf t config mem Hb Hr Hread Hres Hzero); [apply Hsc|]. split; [done|]. exists a. split; [done|]. by apply Hcand.
Qed.

(** A private region of 64 pages with one resident page, whose first slot points to itself. *)
Definition sampleMemory (x : Z) : Z := if (4096 <=? x) && (x <? 4104) then default 0 (lget (le_bytes 8 4100) (x - 4096)) else 0.
Definition sampleTarget : Target :=
  mkTarget (mkProcess (λ a n, Some (bytesAt sampleMemory a n)) (λ _ _, []) (λ _, 8) (λ _, Little) [sampleModule])
    [sampleRegion 4096 262144 3] 8 Little false false (λ _ _, [(4096, 8192)]).
Lemma sampleMemory_byte x : is_byte (sampleMemory x).
Proof.
  unfold sampleMemory. destruct (_ && _); [|lia_w]. destruct (lget _ _) as [b|] eqn:E; [|cbn; lia_w]. cbn.
  pose proof (proj1 (Forall_forall _ _) (le_bytes_ok 8 4100)) as H. apply H. unfold lget in E. destruct (_ <=? _); [|done].
  by eapply list_elem_of_lookup_2.
Qed.
Lemma sampleTarget_contract : memory_contract sampleTarget sampleMemory.
Proof.
  split.
  - apply sampleMemory_byte.
  - apply Forall_cons_2; [|apply Forall_nil_2]. cbn. split; [lia|]. by vm_compute.
  - intros a n buf [= <-]. apply bytesAt_ok, sampleMemory_byte.
  - done.
  - intros r range _ ->%list_elem_of_singleton. by vm_compute.
  - intros r a _ _ _. destruct (decide (a / 4096 = 1)) as [Ha|Ha].
    + left. exists (4096, 8192). split; [by left|]. cbn [fst snd]. rewrite Ha. lia.
    + right. intros x Hx. unfold sampleMemory. destruct (_ && _) eqn:E; [|done]. bool_to_prop. exfalso. apply Ha. rewrite <- Hx.
      symmetry. apply (Z.div_unique x 4096 1 (x - 4096)); lia.
Qed.
Lemma buildPointerMap_exact_witness :
  ∃ map, buildPointerMap sampleTarget sampleConfig (λ _, false) None = Ret map ∧ byTarget map = [mkEntry 4100 4096] ∧
    contains (readable sampleTarget) 4100 = true.
Proof.
  destruct (buildPointerMap_exact sampleTarget sampleConfig (λ _, false) None sampleMemory sampleTarget_contract) as (map & H1 & H2);
    [done|reflexivity|reflexivity|].
  assert (buildPointerMap sampleTarget sampleConfig (λ _, false) None =
    Ret (mkMap [mkEntry 4100 4096] [0] [sampleModule] false)) as Hrun by (vm_compute; reflexivity).
  rewrite Hrun in H1. injection H1 as <-. eexists. split; [exact Hrun|]. split; [reflexivity|].
  apply (proj1 (H2 eq_refl (λ _, eq_refl) eq_refl 4100 4096)). left.
Defined.
